(* ===== verification/_CoqProject ===== *)
-Q . S2P
Prelude.v
Effects.v
Graph.v
FlowModel.v
FlowValidate.v
FlowSpec.v
FlowHash.v
FlowDot.v
PlanModel.v
PlanConflict.v
PlanLower.v
PlanLowerSpec.v
Encode.v
PlanHash.v
PlanResolve.v
PlanResolveSpec.v
Wildcard.v
Sensitive.v
Policy.v
Budget.v
CallId.v
Chat.v
Compaction.v
CompactionSpec.v
Tools.v
Transcript.v
Engine.v
EngineTrace.v
EngineSpec.v
TurnSpec.v
AuditModel.v
AuditLog.v
AuditSpec.v
AuditWriter.v
SessionAudit.v
SessionAuditSpec.v
SessionModel.v
Registry.v
RegistrySpec.v
RegistryProps.v
Execution.v
JournalSpec.v
PtyStream.v
Pty.v
PtyServe.v
PtyKeys.v
PtyCapture.v
PtyJobs.v
Turns.v
TurnsSpec.v
TurnsSteps.v
TurnsHistory.v
TurnsProps.v
Completion.v
CompletionSpec.v
SourceView.v
Requests.v
RequestsSpec.v
RequestsSteps.v
RequestsProps.v
Adapters.v
Ollama.v
OpenAi.v
AdaptersSpec.v
OpenAiSpec.v
OllamaSpec.v
Prepared.v
FileTools.v
PreparedSpec.v
PreparedTree.v
Text.v
Markdown.v
MarkdownSpec.v
Viewers.v
Release.v
Configs.v
SessionClient.v
Controller.v
Headless.v
Services.v
