(* ===== verification/Prelude.v ===== *)
(** * xshell: a verification development

    xshell is a shell with an agent in it. A turn of the agent calls a model
    provider and tools under an approval policy and a budget
    (crates/xshell-execution, with crates/xshell-adapters for the providers) and
    reports what it does to an audit daemon, which keeps a signed log
    (crates/xshell-audit); its answers are drawn on a terminal
    (crates/xshell-view); sessions, their turns and their
    terminal jobs are kept by a daemon that clients attach to
    (crates/xshell-session), from a controller with a terminal (crates/xshell-cli);
    its releases are signed (crates/xshell-release); workflows are written as a Flow
    IR, validated and hashed (crates/xshell-flow), and lowered to a Plan that is
    resolved against catalogs and hashed again (crates/xshell-plan). This
    library models those crates' own logic as pure Rocq functions and proves
    what they promise each other.

    ** How the parts fit together

    - A flow is read from JSON (serde, not modelled), then
      [FlowValidate.validate] decides whether it is accepted. Its declarative
      meaning is [FlowSpec.WellFormed]. [FlowHash] gives its identity and
      [FlowDot] its drawing.
    - [PlanLower.lower] validates the flow, orders its nodes, computes regions,
      readiness, capabilities and loops, and rejects plans in which two tasks
      may write one path at once ([PlanConflict]).
    - [PlanResolve.resolve] binds programs and predicates of the plan to
      catalogs; [PlanHash] gives the plan its identity, over the canonical
      bytes of [Encode].
    - A turn asks [Policy.rules_decide] whether a tool call may run; [Policy]
      uses [Wildcard] for command patterns and [Sensitive] for paths. It pays
      for each provider request and tool call from a [Budget], which is shared
      with the agents it starts, and renames call ids with [CallId].
    - [Engine.run_agent_turn] is the turn itself: it keeps the transcript
      ([Chat], [Transcript], [Compaction]), asks the provider, nudges it when it
      stops too early, prepares, decides and runs tool calls
      ([Tools]), and starts delegated agents, which are turns like it.
      [FileTools.with_tools] is its world with files read and processes run the
      way the code does it, files through [Prepared];
      [OpenAiSpec.chat] is its world's provider asked through [OpenAi], which
      like [Ollama] rests on [Adapters].
    - [Completion.classify_input] decides what a line typed at the prompt is;
      [Markdown] draws what the agent answers, sanitized by [Text], which also
      escapes what a prompt asks about. [Viewers] draws files the same way.
    - [AuditLog.handle_client] is a session of the audit daemon: it appends the
      events a client sends to a hash-chained log, acknowledges each record once
      it is on disk, and signs checkpoints; [AuditLog.verify_log] is what an
      auditor runs on such a log later. [SessionAudit] is the client's side of
      a session, and keeps one for each session of the session daemon.
    - [Registry] is the session daemon's table of sessions and its state file:
      who is attached, what is in flight, what a restart recovers.
      [Execution] is the journal of a session's turns, from which clients
      follow them, and the approvals they send.
    - [Turns] is a turn of the daemon: submitting it, the steps of its thread
      around [Engine.run_agent_turn], its observer, which puts events into the
      journal and has them audited, and its end, which goes into the registry.
    - [Requests.handle_client] is a connection: each request is a composition of
      the operations of the registry, the turns, the terminal jobs, the
      completion of shell lines ([Completion]) and the text resources
      ([SourceView]), behind the check that the session is the connection's.
      [Requests.remote_response] is what clients on other hosts get.
    - [Pty] is the daemon's table of terminal jobs. A job is begun and finished
      in the registry and audited like a turn. A client that claims its stream
      is served by [PtyServe.serve], which reads the job's replay buffer and
      writes the frames of [PtyStream]; [PtyServe.relay] renders them at the
      client, which divides its keys by [PtyKeys.route_escape_input].
    - [Controller] is the controller's side: the sessions it has at the daemons
      of several hosts, each behind a connection of [SessionClient], whose
      requests [Requests.process_request] answers. [Configs.load] gives the
      models and limits it runs turns with, and the daemon its own.
    - [Headless.run] is a controller without a terminal: it submits a turn,
      follows its events, answers its approvals from a channel and ends with an
      exit code; [Headless.job] does so for a turn that was left running.
    - [Release.acquire] gets a program for another host from a signed release,
      which [Release.create_manifest] made. [Services.run_service_command] keeps
      the daemon running there as a service of its user;
      [Services.load_or_create_host_id] and [Services.prepare_socket] come before
      the daemon takes its first connection.

    ** Files

    - [Prelude]: [Outcome] (a Rust result that may also panic) and its
      notation [let!], orders read through keys ([Ord], [sort_on],
      [sort_dedup]: slice::sort_by and dedup), BTreeMap iteration, strings as
      UTF-8 bytes with split, trim, {:?} and decimal numbers, and loops that push diagnostics
      ([scan], the [diag] rewrite database). [Effects]: a state and error monad
      with a weakest precondition, for the code that stops half way.
    - [Graph]: Kahn's algorithm,
      reachability and parent walks, shared by the validator and the planner.
    - [FlowModel] (model.rs), [FlowValidate] (validate.rs, one definition per
      method of Validator), [FlowSpec] (its specification), [FlowHash]
      (hash.rs), [FlowDot] (dot.rs).
    - [PlanModel] (model.rs), [PlanConflict] (conflict.rs), [PlanLower]
      (lower.rs), [PlanLowerSpec] (what lowering guarantees).
    - [Encode], [PlanHash] (hash.rs): the class [CanonicalEncode] is the code's
      trait, with one instance per type; the class [Canonical] is what the plan
      hash needs of each instance.
    - [PlanResolve], [PlanResolveSpec] (resolve.rs).
    - [Wildcard], [Sensitive], [Policy] (policy.rs, sensitive.rs), [Budget]
      (budget.rs), [CallId] (call_id.rs).
    - [Chat] (xshell-core, lib.rs), [Compaction] and [CompactionSpec]
      (compaction.rs; the class [LawfulCompactor] is what the engine needs of a
      compactor), [Tools] (tools.rs), [Transcript] and [Engine]
      (engine.rs).
    - [EngineTrace], [EngineSpec], [TurnSpec]: what a turn does, as a sequence
      of interactions with the world; the invariant of a turn in progress,
      [Going], and of its end, [EndsWell]; the theorems, and a turn that is run.
    - [Adapters] (lib.rs of xshell-adapters),
      [Ollama], [OpenAi], [AdaptersSpec], [OllamaSpec], [OpenAiSpec] (the two
      adapters and what they make of a response).
    - [Prepared] (prepared.rs), [FileTools] (the rest of tools.rs),
      [PreparedSpec] (what is read, while the file system changes) and
      [PreparedTree] (which object that is, when it does not).
    - [Text] (text as characters, the sanitizer and the escaping of
      xshell-view, and what they promise), [Markdown] (the renderer), [MarkdownSpec],
      [Viewers] (the viewers and the conversion from reStructuredText).
    - [AuditModel] (model.rs, protocol.rs of xshell-audit), [AuditLog] (log.rs
      and the session of bin/xshell-auditd.rs; its writer is a state monad
      [M]), [AuditSpec] (a concrete log, and what the verifier
      accepts, [WellFormedLog]), [AuditWriter] (what the writer and the daemon
      leave; the class [AuditLaws] is what they need of the parameters, and
      [ReadsBack] says of an event that JSON reads it back),
      [SessionAudit] (client.rs, and audit.rs of xshell-session) and
      [SessionAuditSpec].
    - [SessionModel] (model.rs of xshell-session), [Registry] (registry.rs),
      [RegistrySpec] (its invariant [Inv]; the class [RegistryLaws] is what it
      needs of hash maps, [StateLaws] what a restart needs of JSON, for state
      files of plain values), [RegistryProps] (histories of a daemon, and one
      that is run).
    - [Execution] (execution.rs), [JournalSpec] (its theorems; what is kept of a
      journal is [LongestEnd]; the class [EventLaws] bounds an event's length).
    - [PtyStream] (pty_stream.rs: the frames and that they are exact, and
      bytes as UTF-8 text), [Pty]
      (pty.rs, with the replay buffer, [Replay], and the life of a job,
      [Lives], together with what its process wrote), [PtyServe]
      (serve_claimed_pty of bin/xshelld.rs and the client's
      end), [PtyKeys] (the escape prefix, xshell-pty), [PtyCapture] (the audit
      of a job's bytes, against the class [AuditTrail], which a handle of
      [SessionAudit] implements), [PtyJobs] (the operations as a state machine, with the
      invariant [HostInv] and the effect of each on the table, [Effect]).
    - [Turns] (execution.rs), [TurnsSpec] and [TurnsSteps] (what
      each step keeps and does), [TurnsHistory] (turns, terminal jobs and
      sessions as one state machine, with the invariant [SceneInv]),
      [TurnsProps].
    - [Completion] and [CompletionSpec] (completion.rs, and the routing of
      input in xshell-core), [SourceView] (view.rs).
    - [Requests] (handle_client, process_request and serve_stdio of
      bin/xshelld.rs), [RequestsSpec] (who is attached after each operation),
      [RequestsSteps] (what a request keeps), [RequestsProps] (connections that
      come and go).
    - [Release] (xshell-release: lib.rs and bin/xshell-release-manifest.rs),
      [Configs] (config.rs and the policy of view.rs of xshell-cli, the
      configuration in model.rs of xshell-session), [SessionClient] (client.rs of
      xshell-session), [Controller] (session.rs of xshell-cli), [Headless]
      (headless.rs of xshell-cli).
    - [Services] (xshell-platform, and what bin/xshelld.rs does with it).

    ** What the theorems show

    - Flow: [validate] accepts exactly the well-formed flows and never panics;
      the semantic hash identifies flows up to list order, labels and
      annotations; no text leaves its quotes in the drawing.
    - Plan: lowering is total; tasks come after what they wait for, once each;
      two tasks that may both be active never write one path unordered; paths
      stay in the workspace; the capability summary is exact. Canonical bytes
      determine the plan, so an artifact whose plan was replaced verifies only
      by a hash collision. Resolution binds only what fits, reports exactly
      what is missing, and forgets what was resolved before.
    - Execution: denials cannot be got around by chaining or quoting, are final
      in every mode and hold under overlays; ask mode runs only what the host
      approved; sensitive paths are covered. Budgets shared by threads that
      interleave at every compare-exchange are never overshot and are spent
      exactly. Call ids of a turn are distinct.
    - Turns: for every provider, user and tool, a turn ends, within its budget
      together with the turns it delegates to; no tool runs unless the rules or
      the user approved that very call, right before; every transcript sent is
      one a provider accepts; a turn that fails before it ran anything is rolled
      back, one that fails later keeps what it told of on record. Compaction
      keeps calls and results together, does only what its budget asks for, in
      order, and that budget fits the model's window.
    - Providers: the lines of a response do not depend on how it was split; an
      answer is put together from all its events in order, or the request
      fails, and tool calls of a response that was cut off are not run.
    - Files: whatever others do to the file system meanwhile, a tool reads the
      object that was authorised, reached from the root without following a
      link; when nobody does anything it is what the kernel finds at that path.
    - Terminal output: a prompt shows all of the text it asks about, and
      different texts differently; of the characters that reorder or hide text
      some are shown as they are ([Text.format_characters_are_not_escaped]).
      Answers cannot control the terminal
      without Markdown; with it, character references are decoded after
      sanitizing ([MarkdownSpec.character_references_reach_the_terminal]).
    - Audit: the verifier accepts exactly the well-formed logs, and equal chain
      heads mean equal records up to a hash collision; what the daemon
      acknowledged is in the log, whichever writes or sends fail, and what the
      writer wrote is accepted if JSON reads it back
      ([AuditWriter.unread_record_spoils_the_log]). Records appended to a closed log without a signature are
      accepted too ([AuditSpec.forged_tail_accepted]). With required auditing
      the session daemon goes on only once its record was acknowledged, and
      nothing reopens the chain of a session that was closed.
    - Sessions: every operation keeps the registry consistent; what it
      acknowledged survives a crash; a daemon restarts from whatever it left,
      unless a session was closed while it executed
      ([RegistryProps.closing_busy_session_stops_daemon]) or the file holds a
      value JSON does not read back ([RegistrySpec.unread_state_is_refused]). A
      client that follows the journal gets the longest end of it that fits and
      is told what is gone, but for one event larger than the journal
      ([JournalSpec.oversized_event_is_not_reported]), and a turn acts only on decisions
      clients sent for it. A session has one turn under way at most, submitted
      whole or not at all; its end is told as it was; nothing runs once its
      audit failed.
    - Connections: a client has exactly its connection's current session, and
      nobody else can touch it; one on another host learns nothing of a session
      for this host only. Completion answers the word before the cursor with
      exactly the commands or files that complete it, up to its limits, in a
      form the shell reads back.
    - Controllers: an operation of the client is answered by the daemon with
      what it expects, or with an error it reports. Whatever a controller does,
      its session in focus is on the connection to that session's host, hosts of
      one alias have different labels, and the daemon of another host is not
      started or restarted without a yes. A run without a terminal exits with 0 only
      if it was told that its turn was completed, and approves only the calls its
      channel approves by their ids. A configuration that loads names only
      limits that exist and can be enforced.
    - Releases: the bytes acquired are those the manifest's signer named, and
      what was released is acquired.
    - Services: no verb does anything to another user's service or the
      system's, units of different commands are different, and a socket is bound
      only in a private directory, under an id that stays.
    - Terminals: starting a job is all or nothing; any interleaving keeps one
      job to a session and one client to a stream; the client renders what the
      process wrote, in order, and all of it before the exit status; what is
      offered to the audit of the bytes is truthful and complete up to its
      budget, and all of it is recorded when auditing is required; frames are read
      exactly as they were written.

    ** Conventions

    - A Rust [str] is its UTF-8 bytes, as a [string]; [BTreeMap<String, _>] is
      a [gmap string _], iterated in key order by [btree_iter].
    - Machine integers are [N] or [Z]; where the width matters (encoding,
      durations, counters) it is written out, and range hypotheses such as
      [PlanHash.plan_fits] say what the Rust types guarantee.
    - A method that pushes diagnostics is the list it pushes, in order; [Panic]
      stands for expect, unreachable!, out-of-range indexes and spent fuel.
    - What a turn does not decide - the provider's answers, the clock,
      cancellation, the user, files and processes - is a record of oracles over
      a state, [Engine.World]. The theorems hold for every world; they speak of
      what was done through the log kept by [EngineTrace.recorded].
    - What the audit daemon takes from the system - the clock, random nonces,
      writes that may fail half way, sends - is the class [AuditLog.AuditIo]; a
      file is its text.
    - HTTP and JSON are the classes [Adapters.HttpClient] and [Adapters.Json];
      the system calls on files, which may answer differently each time, are
      [Prepared.FileSystem]; blocking work and processes are
      [FileTools.ToolHost]; a client's audit socket and its clock are
      [SessionAudit.AuditSocket] and [SessionAudit.AuditHost]. A client's
      connection to a session daemon is [SessionClient.SessionWire], how it gets
      one and runs ssh [SessionClient.SessionNet], its terminal
      [Controller.Terminal], and without one its process is
      [Headless.HeadlessHost]; its files are [Configs.ConfigFile] and
      [Configs.ConfigHost]; signatures, digests and the network of releases
      [Release.ReleaseCodec] and [Release.ReleaseHost]; running a program and
      the files of a service [Services.SystemHost].
    - Text that is drawn is the list of its characters ([Text.text]); the
      Markdown parser and the widths of characters are parameters.
    - What the session daemon takes from its host - files, the clock, fresh
      ids, the order a hash map iterates in, processes and the audit service -
      is the classes [Registry.SessionHost] and [Pty.PtyWorld]. Each operation
      of the daemon is one step, as it is under its locks; where the code lets
      go of a lock in between ([Pty.start]) it is two, and what other threads
      do between two looks at shared state ([PtyServe.Turn]) is arbitrary.
    - Fuel: a turn takes one unit per provider request left in its budget and
      one more ([TurnSpec.turn_terminates]). Kahn's loop takes one unit per node, walks along parents one per
      region and one more; [FlowSpec] and [PlanLowerSpec] prove that neither
      runs out. Greedy matching recurses on its input; the loop that trims a
      journal panics where the code would loop for ever, and never does
      ([JournalSpec.journal_never_stalls]). A client's loops take one unit per
      frame.
    - Parameters stand for code outside the repository: serde_json (values,
      numbers, to_vec), SHA-256, Ed25519, hex, and shell_words::split. What is assumed
      of them is a hypothesis of the theorem that needs it, and each such
      theorem is applied to a concrete instance.

    ** Not modelled

    Processes, sockets and most of the interactive front end
    (xshell-cli) and command-line front ends are input and output: of
    xshell-cli, only the sessions, the configuration, the policy of views and
    the runs without a terminal are modelled. Of the engine, the direct shell commands of a user and the choice of
    an adapter run processes and read configuration; of the tools, starting and
    killing a process group. Of the audit daemon, the files of its signing key,
    its sockets and threads are left out; of the views, the Markdown parser,
    which is a library. Of the session daemon, its command line, its
    threads and its sockets are left out; of terminals, driving the
    pseudo-terminal itself. *)
From Stdlib Require Import Ascii.
From stdpp Require Export base tactics option list gmap sets strings pretty.
From stdpp Require Import sorting.

(** * Outcomes of fallible code *)

(** A Rust computation that returns [Result<A, E>] and may also panic
    ([expect], [unreachable!], an out-of-range index). *)
Inductive Outcome (E A : Type) : Type :=
| Done (a : A)
| Fail (e : E)
| Panic.
Arguments Done {E A} a.
Arguments Fail {E A} e.
Arguments Panic {E A}.

Declare Scope xs_scope.
Delimit Scope xs_scope with xs.

(** [expect]: a missing value is a panic. *)
Definition expect {E A} (o : option A) : Outcome E A :=
  match o with Some a => Done a | None => Panic end.

Definition outcome_bind {E A B} (m : Outcome E A) (k : A → Outcome E B) : Outcome E B :=
  match m with Done a => k a | Fail e => Fail e | Panic => Panic end.

Notation "'let!' x ':=' m 'in' k" := (outcome_bind m (λ x, k))
  (at level 10, x binder, k at level 200) : xs_scope.
Open Scope xs_scope.

(** [iter().map(f).collect()] for an [f] that may panic or fail. *)
Fixpoint outcome_map {E A B} (f : A → Outcome E B) (l : list A) : Outcome E (list B) :=
  match l with
  | [] => Done []
  | x :: l => let! y := f x in let! ys := outcome_map f l in Done (y :: ys)
  end.

Lemma outcome_map_Done {E A B} (f : A → Outcome E B) l ys :
  outcome_map f l = Done ys ↔ Forall2 (λ x y, f x = Done y) l ys.
Proof.
  revert ys; induction l as [|x l IH]; intros ys; simpl.
  - split; [intros [= <-]; constructor | by inversion 1].
  - split.
    + destruct (f x) eqn:Hx; simpl; try done.
      destruct (outcome_map f l) eqn:Hl; simpl; try done.
      intros [= <-]. constructor; [done|]. by apply IH.
    + inversion 1 as [|? ? ? ? Hx Hl]; subst. apply IH in Hl. by rewrite Hx, Hl.
Qed.

Lemma outcome_map_total {E A B} (f : A → Outcome E B) l :
  (∀ x, x ∈ l → ∃ y, f x = Done y) → ∃ ys, outcome_map f l = Done ys.
Proof.
  induction l as [|x l IH]; intros Hl; simpl; [by eexists|].
  destruct (Hl x) as [y ->]; [by left|]. simpl.
  destruct IH as [ys ->]; [intros z Hz; apply Hl; by right|]. simpl. by eexists.
Qed.

Lemma outcome_map_pure {E A B} (f : A → Outcome E B) (g : A → B) l :
  (∀ x, x ∈ l → f x = Done (g x)) → outcome_map f l = Done (g <$> l).
Proof.
  intros Hf. apply outcome_map_Done. induction l as [|x l IH]; constructor.
  - apply Hf; by left.
  - apply IH. intros y Hy. apply Hf; by right.
Qed.

(** * Total orders: the interface [sort] and [BTreeMap] need *)

Class Ord (K : Type) := {
  ord_le : K → K → bool;
  ord_le_trans : ∀ x y z, ord_le x y = true → ord_le y z = true → ord_le x z = true;
  ord_le_total : ∀ x y, ord_le x y = true ∨ ord_le y x = true;
  ord_le_antisym : ∀ x y, ord_le x y = true → ord_le y x = true → x = y;
}.

Lemma ord_le_refl `{Ord K} x : ord_le x x = true.
Proof. destruct (ord_le_total x x); done. Qed.

(** Rust compares [str] by its UTF-8 bytes; strings here are byte strings. *)
#[export, refine] Instance ord_string : Ord string := {| ord_le := String.leb |}.
Proof.
  - intros x y z ??. assert (String.le x z) as Hxz; [|by apply Is_true_true in Hxz].
    transitivity y; by apply Is_true_true.
  - apply String.leb_total.
  - apply String.leb_antisym.
Defined.

#[export, refine] Instance ord_nat : Ord nat := {| ord_le := Nat.leb |}.
Proof.
  - intros x y z. rewrite !Nat.leb_le. lia.
  - intros x y. rewrite !Nat.leb_le. lia.
  - intros x y. rewrite !Nat.leb_le. lia.
Defined.

(** Lexicographic order: what [#[derive(Ord)]] gives for a struct, and for an
    enum once its variants are numbered. *)
#[export, refine] Instance ord_prod `{Ord A, Ord B} : Ord (A * B) :=
  {| ord_le p q := ord_le p.1 q.1 && (negb (ord_le q.1 p.1) || ord_le p.2 q.2) |}.
Proof.
  - intros [a b] [a' b'] [a'' b'']; simpl.
    destruct (ord_le a a') eqn:E1, (ord_le a' a'') eqn:E2; try done; simpl.
    rewrite (ord_le_trans _ _ _ E1 E2); simpl.
    destruct (ord_le a'' a) eqn:E3; simpl; [|done].
    rewrite (ord_le_trans _ _ _ E3 E1), (ord_le_trans _ _ _ E2 E3); simpl.
    apply ord_le_trans.
  - intros [a b] [a' b']; simpl.
    destruct (ord_le a a') eqn:E1, (ord_le a' a) eqn:E2; simpl; auto using ord_le_total.
    destruct (ord_le_total a a'); congruence.
  - intros [a b] [a' b']; simpl.
    destruct (ord_le a a') eqn:E1, (ord_le a' a) eqn:E2; simpl; try done.
    intros Hb Hb'. f_equal; by apply ord_le_antisym.
Defined.

(** An order read through an injective key. *)
Lemma ord_le_key_inj `{Ord K} {A} (f : A → K) `{!Inj (=) (=) f} x y :
  ord_le (f x) (f y) = true → ord_le (f y) (f x) = true → x = y.
Proof. intros ??. by apply (inj f), ord_le_antisym. Qed.

(** * [slice::sort_by] with a key, a stable sort *)

Section sort.
Context {A K : Type} `{Ord K} (f : A → K).

Definition key_le (x y : A) : Prop := ord_le (f x) (f y) = true.

Fixpoint insert_on (x : A) (l : list A) : list A :=
  match l with
  | [] => [x]
  | y :: l' => if ord_le (f x) (f y) then x :: l else y :: insert_on x l'
  end.

Definition sort_on (l : list A) : list A := foldr insert_on [] l.

Lemma sort_on_cons x l : sort_on (x :: l) = insert_on x (sort_on l).
Proof. done. Qed.

#[local] Instance key_le_trans : Transitive key_le.
Proof. intros x y z. apply ord_le_trans. Qed.

Lemma insert_on_Permutation x l : insert_on x l ≡ₚ x :: l.
Proof.
  induction l as [|y l IH]; simpl; [done|]. destruct ord_le; [done|].
  rewrite IH. apply Permutation_swap.
Qed.

Lemma sort_on_Permutation l : sort_on l ≡ₚ l.
Proof. induction l as [|x l IH]; simpl; [done|]. by rewrite insert_on_Permutation, IH. Qed.

Lemma elem_of_sort_on x l : x ∈ sort_on l ↔ x ∈ l.
Proof. by rewrite sort_on_Permutation. Qed.

Lemma sort_on_nil_iff l : sort_on l = [] ↔ l = [].
Proof.
  split; [|by intros ->]. intros Hs. apply Permutation_nil_r.
  by rewrite <-Hs, sort_on_Permutation.
Qed.

Lemma insert_on_sorted x l :
  StronglySorted key_le l → StronglySorted key_le (insert_on x l).
Proof.
  induction 1 as [|y l Hl IH Hy]; simpl; [repeat constructor|].
  destruct (ord_le (f x) (f y)) eqn:E.
  - constructor; [by constructor|]. constructor; [done|].
    eapply Forall_impl; [done|]. intros z Hz. by trans y.
  - constructor; [done|]. rewrite insert_on_Permutation.
    constructor; [|done]. unfold key_le.
    destruct (ord_le_total (f x) (f y)); congruence.
Qed.

Lemma sort_on_sorted l : StronglySorted key_le (sort_on l).
Proof. induction l; simpl; [constructor|by apply insert_on_sorted]. Qed.

Lemma insert_on_head x l : Forall (key_le x) l → insert_on x l = x :: l.
Proof. destruct 1 as [|y l Hy]; simpl; [done|]. by rewrite Hy. Qed.

(** A sorted list is left alone: the sort is stable. *)
Lemma sort_on_id l : StronglySorted key_le l → sort_on l = l.
Proof. induction 1; simpl; [done|]. rewrite IHStronglySorted. by apply insert_on_head. Qed.

Lemma sort_on_idemp l : sort_on (sort_on l) = sort_on l.
Proof. apply sort_on_id, sort_on_sorted. Qed.

Lemma sort_on_perm_unique l l' :
  (∀ x y, x ∈ l → y ∈ l → f x = f y → x = y) → l ≡ₚ l' → sort_on l = sort_on l'.
Proof.
  intros Hinj Hp. eapply (StronglySorted_unique_strong key_le).
  - intros x y. rewrite !elem_of_sort_on. intros Hx Hy ??.
    apply Hinj; [done|by rewrite Hp|by apply ord_le_antisym].
  - apply sort_on_sorted.
  - apply sort_on_sorted.
  - by rewrite !sort_on_Permutation.
Qed.

Lemma NoDup_key_inj l x y : NoDup (f <$> l) → x ∈ l → y ∈ l → f x = f y → x = y.
Proof.
  intros Hnd (i & Hi)%list_elem_of_lookup (j & Hj)%list_elem_of_lookup Hf.
  assert (i = j) as ->; [|congruence].
  eapply NoDup_lookup; [done|rewrite list_lookup_fmap, Hi; done|].
  rewrite list_lookup_fmap, Hj; simpl; congruence.
Qed.

(** When keys are distinct the order of the input does not matter. *)
Lemma sort_on_perm l l' : NoDup (f <$> l) → l ≡ₚ l' → sort_on l = sort_on l'.
Proof. intros Hnd. apply sort_on_perm_unique. intros x y. by apply NoDup_key_inj. Qed.

Lemma sort_on_perm_inj `{!Inj (=) (=) f} l l' : l ≡ₚ l' → sort_on l = sort_on l'.
Proof. apply sort_on_perm_unique. intros x y _ _. apply (inj f). Qed.
End sort.

#[global] Arguments sort_on : simpl never.

Lemma sort_on_fmap `{Ord K} {A B} (g : A → B) (f : A → K) (f' : B → K) l :
  (∀ x, x ∈ l → f' (g x) = f x) → sort_on f' (g <$> l) = g <$> sort_on f l.
Proof.
  intros Hf. induction l as [|x l IH]; [done|]. rewrite fmap_cons, !sort_on_cons.
  rewrite IH by (intros y Hy; apply Hf; by right).
  assert (Hg : ∀ y, y ∈ sort_on f l → f' (g y) = f y).
  { intros y. rewrite elem_of_sort_on. intros Hy. apply Hf. by right. }
  revert Hg. generalize (sort_on f l) as k. assert (f' (g x) = f x) as Hx by (apply Hf; by left).
  induction k as [|y k IHk]; intros Hg; simpl; [done|].
  rewrite (Hg y) by (by left). rewrite Hx. destruct ord_le; simpl; [done|].
  f_equal. apply IHk. intros z Hz. apply Hg. by right.
Qed.

(** [Vec::sort] on strings. *)
Abbreviation sort_strings := (sort_on (λ s : string, s)).

#[export] Instance id_string_inj : Inj (=) (=) (λ s : string, s).
Proof. by intros ??. Qed.

(** * [Vec::dedup] *)

Section dedup.
Context `{EqDecision A}.

Fixpoint dedup (l : list A) : list A :=
  match l with
  | x :: ((y :: _) as l') => if decide (x = y) then dedup l' else x :: dedup l'
  | _ => l
  end.

Lemma dedup_cons x y l :
  dedup (x :: y :: l) = if decide (x = y) then dedup (y :: l) else x :: dedup (y :: l).
Proof. done. Qed.

Lemma elem_of_dedup x l : x ∈ dedup l ↔ x ∈ l.
Proof.
  induction l as [|y [|z l] IH]; [done|done|]. rewrite dedup_cons.
  destruct (decide (y = z)) as [->|]; rewrite ?elem_of_cons, IH, ?elem_of_cons; tauto.
Qed.

Lemma dedup_nil_iff l : dedup l = [] ↔ l = [].
Proof.
  split; [|by intros ->]. destruct l as [|x l]; [done|]. intros Hd.
  assert (x ∈ dedup (x :: l)) as Hx by (rewrite elem_of_dedup; by left).
  rewrite Hd in Hx. by apply elem_of_nil in Hx.
Qed.

Lemma dedup_sublist l : dedup l `sublist_of` l.
Proof.
  induction l as [|y [|z l] IH]; [done|done|]. rewrite dedup_cons.
  destruct (decide (y = z)); [by apply sublist_cons|by apply sublist_skip].
Qed.

(** On a list sorted by an injective key, [dedup] removes every duplicate. *)
Lemma dedup_sorted_NoDup `{Ord K} (f : A → K) `{!Inj (=) (=) f} l :
  StronglySorted (key_le f) l → NoDup (dedup l).
Proof.
  induction 1 as [|y l Hl IH Hy]; [constructor|].
  destruct l as [|z l]; [apply NoDup_singleton|]. rewrite dedup_cons.
  destruct (decide (y = z)) as [->|Hne]; [done|]. constructor; [|done].
  rewrite elem_of_dedup, elem_of_cons. intros [->|Hin]; [done|]. apply Hne.
  inversion Hl as [|? ? ? Hz]; subst. rewrite Forall_forall in Hz, Hy.
  apply (ord_le_key_inj f); [apply Hy; by left|by apply Hz].
Qed.

Lemma sublist_StronglySorted (R : relation A) l k :
  l `sublist_of` k → StronglySorted R k → StronglySorted R l.
Proof.
  induction 1 as [|x l k Hs IH|x l k Hs IH]; [done| |];
    inversion 1 as [|? ? Hk Hx]; subst; [|by apply IH].
  constructor; [by apply IH|]. rewrite Forall_forall in Hx |- *. intros y Hy.
  apply Hx. by eapply elem_of_sublist.
Qed.

Lemma dedup_id l : NoDup l → dedup l = l.
Proof.
  induction 1 as [|x l Hx Hl IH]; [done|]. destruct l as [|y l]; [done|].
  rewrite dedup_cons, decide_False by set_solver. by rewrite IH.
Qed.
End dedup.

(** [v.sort(); v.dedup()] with the derived order read through the key [f]. *)
Definition sort_dedup `{EqDecision A, Ord K} (f : A → K) (l : list A) : list A :=
  dedup (sort_on f l).

Section sort_dedup.
Context `{EqDecision A, Ord K} (f : A → K) `{!Inj (=) (=) f}.

Lemma elem_of_sort_dedup x l : x ∈ sort_dedup f l ↔ x ∈ l.
Proof. unfold sort_dedup. by rewrite elem_of_dedup, elem_of_sort_on. Qed.

Lemma sort_dedup_NoDup l : NoDup (sort_dedup f l).
Proof. apply (dedup_sorted_NoDup f), sort_on_sorted. Qed.

Lemma sort_dedup_sorted l : StronglySorted (key_le f) (sort_dedup f l).
Proof. eapply sublist_StronglySorted; [apply dedup_sublist|apply sort_on_sorted]. Qed.

(** The result is canonical: it depends on the set of elements only. *)
Lemma sort_dedup_ext l l' : (∀ x, x ∈ l ↔ x ∈ l') → sort_dedup f l = sort_dedup f l'.
Proof.
  intros Hl. eapply (StronglySorted_unique_strong (key_le f)).
  - intros x y _ _. apply ord_le_key_inj, _.
  - apply sort_dedup_sorted.
  - apply sort_dedup_sorted.
  - apply NoDup_Permutation; [apply sort_dedup_NoDup..|].
    intros x. by rewrite !elem_of_sort_dedup.
Qed.

Lemma sort_dedup_idemp l : sort_dedup f (sort_dedup f l) = sort_dedup f l.
Proof. apply sort_dedup_ext. intros x. by rewrite elem_of_sort_dedup. Qed.

Lemma sort_dedup_nil_iff l : sort_dedup f l = [] ↔ l = [].
Proof. unfold sort_dedup. by rewrite dedup_nil_iff, sort_on_nil_iff. Qed.
End sort_dedup.

(** * Membership *)

Lemma existsb_elem_of {A} (f : A → bool) l : existsb f l = true ↔ ∃ x, x ∈ l ∧ f x = true.
Proof. rewrite existsb_exists. by setoid_rewrite list_elem_of_In. Qed.

Lemma existsb_false {A} (f : A → bool) l : existsb f l = false ↔ ∀ x, x ∈ l → f x = false.
Proof.
  rewrite <-not_true_iff_false, existsb_elem_of. split.
  - intros Hn x Hx. apply not_true_iff_false. eauto.
  - intros Hf (x & Hx & Ht). rewrite Hf in Ht; done.
Qed.

(** Case analysis on membership in a list given by its elements. *)
Ltac destruct_elem_of H := repeat (apply elem_of_cons in H as [->|H]); [..|by apply elem_of_nil in H].

(** * [BTreeMap]: a finite map iterated in key order *)

Definition btree_iter {V} (m : gmap string V) : list (string * V) :=
  sort_on fst (map_to_list m).

Definition btree_keys {V} (m : gmap string V) : list string := (btree_iter m).*1.

(** [iter.map(|x| (key, x)).collect::<BTreeMap<_, _>>()]: a later entry
    replaces an earlier one with the same key. *)
Definition btree_collect {A V} (key : A → string) (val : A → V) (l : list A) : gmap string V :=
  foldl (λ m x, <[key x := val x]> m) ∅ l.

Section btree.
Context {V : Type}.
Implicit Types m : gmap string V.

Lemma btree_iter_Permutation m : btree_iter m ≡ₚ map_to_list m.
Proof. apply sort_on_Permutation. Qed.

Lemma elem_of_btree_iter m k v : (k, v) ∈ btree_iter m ↔ m !! k = Some v.
Proof. by rewrite btree_iter_Permutation, elem_of_map_to_list. Qed.

Lemma elem_of_btree_keys m k : k ∈ btree_keys m ↔ is_Some (m !! k).
Proof.
  unfold btree_keys. rewrite list_elem_of_fmap. split.
  - intros ([k' v] & -> & Hv%elem_of_btree_iter). by exists v.
  - intros [v Hv%elem_of_btree_iter]. by exists (k, v).
Qed.

Lemma btree_keys_NoDup m : NoDup (btree_keys m).
Proof. unfold btree_keys. rewrite btree_iter_Permutation. apply NoDup_fst_map_to_list. Qed.
End btree.

Section btree_collect.
Context {A V : Type} (key : A → string) (val : A → V).

Lemma btree_collect_snoc l x :
  btree_collect key val (l ++ [x]) = <[key x := val x]> (btree_collect key val l).
Proof. unfold btree_collect. by rewrite foldl_app. Qed.

Lemma btree_collect_is_Some l k :
  is_Some (btree_collect key val l !! k) ↔ k ∈ key <$> l.
Proof.
  induction l as [|x l IH] using rev_ind.
  - split; [by intros [? ?]|by intros ?%elem_of_nil].
  - rewrite btree_collect_snoc, lookup_insert_is_Some', fmap_app, elem_of_app, IH.
    simpl. rewrite list_elem_of_singleton. naive_solver.
Qed.

Lemma btree_collect_Some_inv l k v :
  btree_collect key val l !! k = Some v → ∃ x, x ∈ l ∧ key x = k ∧ val x = v.
Proof.
  induction l as [|x l IH] using rev_ind; [done|].
  rewrite btree_collect_snoc, lookup_insert_Some. intros [[<- <-]|[_ Hl]].
  - exists x. rewrite elem_of_app, list_elem_of_singleton. auto.
  - destruct (IH Hl) as (y & Hy & ? & ?). exists y. rewrite elem_of_app. auto.
Qed.

Lemma btree_collect_Some l x :
  NoDup (key <$> l) → x ∈ l → btree_collect key val l !! key x = Some (val x).
Proof.
  intros Hnd Hx. destruct (btree_collect key val l !! key x) as [v|] eqn:Hv.
  - destruct (btree_collect_Some_inv _ _ _ Hv) as (y & Hy & Hk & <-).
    by rewrite (NoDup_key_inj key l y x).
  - assert (is_Some (btree_collect key val l !! key x)) as [? ?]; [|congruence].
    apply btree_collect_is_Some, list_elem_of_fmap. eauto.
Qed.

Lemma btree_collect_lookup l k v :
  NoDup (key <$> l) →
  btree_collect key val l !! k = Some v ↔ ∃ x, x ∈ l ∧ key x = k ∧ val x = v.
Proof.
  intros Hnd. split; [apply btree_collect_Some_inv|].
  intros (x & Hx & <- & <-). by apply btree_collect_Some.
Qed.
End btree_collect.

(** * Strings

    A Rust [str] is modelled by its UTF-8 bytes. *)

Definition code (c : ascii) : N := N_of_ascii c.

Fixpoint string_all (p : ascii → bool) (s : string) : bool :=
  match s with EmptyString => true | String c s => p c && string_all p s end.

Fixpoint string_exists (p : ascii → bool) (s : string) : bool :=
  match s with EmptyString => false | String c s => p c || string_exists p s end.

Definition in_range (lo hi : N) (c : ascii) : bool := (lo <=? code c)%N && (code c <=? hi)%N.
Definition is_ascii_digit (c : ascii) : bool := in_range 48 57 c.
Definition is_ascii_alphabetic (c : ascii) : bool := in_range 65 90 c || in_range 97 122 c.
Definition is_ascii_alphanumeric (c : ascii) : bool := is_ascii_alphabetic c || is_ascii_digit c.

Definition starts_with (c : ascii) (s : string) : bool :=
  match s with String d _ => bool_decide (d = c) | EmptyString => false end.
Definition contains_char (c : ascii) (s : string) : bool :=
  string_exists (λ d, bool_decide (d = c)) s.

Definition chars (s : string) : list ascii := String.list_ascii_of_string s.
Definition of_chars (l : list ascii) : string := String.string_of_list_ascii l.

Lemma of_chars_chars s : of_chars (chars s) = s.
Proof. apply String.string_of_list_ascii_of_string. Qed.

Lemma chars_of_chars l : chars (of_chars l) = l.
Proof. apply String.list_ascii_of_string_of_list_ascii. Qed.

Lemma length_chars s : length (chars s) = String.length s.
Proof. induction s; simpl; congruence. Qed.

Lemma chars_app s s' : chars (s +:+ s') = chars s ++ chars s'.
Proof. induction s as [|c s IH]; [done|]. simpl. by rewrite IH. Qed.

#[export] Instance chars_inj : Inj (=) (=) chars.
Proof. intros s s' Hs. by rewrite <-(of_chars_chars s), Hs, of_chars_chars. Qed.

(** [split] with a predicate: always at least one piece. *)
Fixpoint pieces {A} (p : A → bool) (l : list A) : list (list A) :=
  match l with
  | [] => [[]]
  | c :: l =>
      if p c then [] :: pieces p l
      else match pieces p l with
           | [] => [[c]]
           | w :: ws => (c :: w) :: ws
           end
  end.

Lemma pieces_not_nil {A} (p : A → bool) l : pieces p l ≠ [].
Proof. destruct l as [|c l]; simpl; [done|]. destruct (p c); [done|]. by destruct pieces. Qed.

Lemma pieces_ext {A} (p q : A → bool) l :
  (∀ c, c ∈ l → p c = q c) → pieces p l = pieces q l.
Proof.
  induction l as [|c l IH]; intros Hpq; [done|]. simpl.
  rewrite IH by (intros d Hd; apply Hpq; by right). rewrite (Hpq c) by (by left). done.
Qed.

Lemma pieces_none {A} (p : A → bool) l : (∀ c, c ∈ l → p c = false) → pieces p l = [l].
Proof.
  induction l as [|c l IH]; intros Hp; [done|]. simpl.
  rewrite IH by (intros d Hd; apply Hp; by right). by rewrite (Hp c) by (by left).
Qed.

Lemma pieces_single {A} (p : A → bool) l w : pieces p l = [w] → l = w.
Proof.
  revert w. induction l as [|c l IH]; intros w; simpl; [by intros [= <-]|].
  destruct (p c); [by intros [= _ ?%pieces_not_nil]|].
  destruct (pieces p l) as [|v vs] eqn:Hl; [by apply pieces_not_nil in Hl|].
  intros [= <- ->]. f_equal. by apply IH.
Qed.

Lemma pieces_app {A} (p : A → bool) c l k :
  p c = true → pieces p (l ++ c :: k) = pieces p l ++ pieces p k.
Proof.
  intros Hc. induction l as [|d l IH]; simpl; [by rewrite Hc|]. rewrite IH.
  destruct (p d); [done|]. destruct (pieces p l) eqn:Hl; [|done].
  by apply pieces_not_nil in Hl.
Qed.

(** [str::split]. *)
Definition split_on (p : ascii → bool) (s : string) : list string :=
  of_chars <$> pieces p (chars s).
Definition split_char (c : ascii) : string → list string := split_on (λ d, bool_decide (d = c)).

(** [str::split_once] at a character. *)
Fixpoint split_once (c : ascii) (s : string) : option (string * string) :=
  match s with
  | EmptyString => None
  | String d s =>
      if bool_decide (d = c) then Some (EmptyString, s)
      else '(w, r) ← split_once c s; Some (String d w, r)
  end.

(** [\[T\]::join]. *)
Fixpoint join (sep : string) (l : list string) : string :=
  match l with
  | [] => EmptyString
  | [w] => w
  | w :: ws => w +:+ sep +:+ join sep ws
  end.

(** The number of UTF-8 bytes (given as codes) of the Unicode [White_Space]
    character at the front of the text, 0 if there is none. *)
Definition ascii_ws (b : N) : bool := bool_decide ((9 ≤ b ∧ b ≤ 13) ∨ b = 32)%N.

Definition ws_two (a b : N) : bool := bool_decide (a = 194 ∧ (b = 133 ∨ b = 160))%N.
Definition ws_three (a b c : N) : bool :=
  bool_decide ((a = 225 ∧ b = 154 ∧ c = 128) ∨
    (a = 226 ∧ b = 128 ∧ ((128 ≤ c ∧ c ≤ 138) ∨ c = 168 ∨ c = 169 ∨ c = 175)) ∨
    (a = 226 ∧ b = 129 ∧ c = 159) ∨ (a = 227 ∧ b = 128 ∧ c = 128))%N.

Definition ws_len (s : list N) : nat :=
  match s with
  | [] => 0
  | a :: s =>
      if ascii_ws a then 1
      else match s with
           | [] => 0
           | b :: s =>
               if ws_two a b then 2
               else match s with [] => 0 | c :: _ => if ws_three a b c then 3 else 0 end
           end
  end.

(** The same at the end of the text, whose bytes are given last first. *)
Definition ws_len_rev (s : list N) : nat :=
  match s with
  | [] => 0
  | c :: s =>
      if ascii_ws c then 1
      else match s with
           | [] => 0
           | b :: s =>
               if ws_two b c then 2
               else match s with [] => 0 | a :: _ => if ws_three a b c then 3 else 0 end
           end
  end.

Fixpoint strip_ws (len : list N → nat) (fuel : nat) (s : list ascii) : list ascii :=
  match fuel with
  | O => s
  | S fuel => match len (code <$> s) with O => s | n => strip_ws len fuel (drop n s) end
  end.

(** [str::trim_start], [str::trim_end] and [str::trim]. *)
Definition trim_start (s : string) : string :=
  of_chars (strip_ws ws_len (String.length s) (chars s)).
Definition trim_end (s : string) : string :=
  of_chars (rev (strip_ws ws_len_rev (String.length s) (rev (chars s)))).
Definition trim (s : string) : string := trim_end (trim_start s).

(** [s.trim().is_empty()]: the string is white space only. *)
Definition blank (s : string) : bool := bool_decide (trim s = "").

(** [{}] of an integer. *)
Definition fmt_nat (n : nat) : string := pretty n.
Definition fmt_N (n : N) : string := pretty n.

Definition quote : ascii := "034"%char.
Definition backslash : ascii := "092"%char.
Definition newline : ascii := "010"%char.

Definition hex_digit (n : N) : ascii :=
  ascii_of_N (if n <? 10 then 48 + n else 87 + n)%N.

(** [{:?}] of one character of a [str]: escapes of [char::escape_debug_ext].
    Bytes from 128 on are left as they are, which is what Rust prints for
    every printable character outside ASCII. *)
Definition debug_char (c : ascii) : string :=
  if bool_decide (c = quote) then String backslash (String quote EmptyString)
  else if bool_decide (c = backslash) then String backslash (String backslash EmptyString)
  else if bool_decide (c = newline) then String backslash "n"
  else if bool_decide (c = "013"%char) then String backslash "r"
  else if bool_decide (c = "009"%char) then String backslash "t"
  else if bool_decide (c = "000"%char) then String backslash "0"
  else if bool_decide (code c < 32 ∨ code c = 127)%N then
    String backslash "u{" +:+
      (if (code c <? 16)%N then String (hex_digit (code c)) EmptyString
       else String (hex_digit (code c / 16)) (String (hex_digit (code c mod 16)) EmptyString))
      +:+ "}"
  else String c EmptyString.

Fixpoint string_bind (f : ascii → string) (s : string) : string :=
  match s with EmptyString => EmptyString | String c s => f c +:+ string_bind f s end.

Definition debug_str (s : string) : string :=
  String quote (string_bind debug_char s +:+ String quote EmptyString).

Definition debug_option (o : option string) : string :=
  match o with None => "None" | Some s => "Some(" +:+ debug_str s +:+ ")" end.

(** ["{path}[{index}]"]. *)
Definition at_index (path : string) (i : nat) : string :=
  path +:+ "[" +:+ fmt_nat i +:+ "]".

(** * Loops that push diagnostics

    [for (index, x) in l.iter().enumerate()] with a loop-carried state [S]
    (typically the [BTreeSet] of names seen so far): the diagnostics pushed. *)
Section scan.
Context {A S D : Type}.

Fixpoint scan (step : nat → S → A → list D * S) (i : nat) (s : S) (l : list A) : list D :=
  match l with
  | [] => []
  | x :: l => let ds_s' := step i s x in ds_s'.1 ++ scan step (Datatypes.S i) ds_s'.2 l
  end.
End scan.

(** The same loop without state. *)
Section scan_each.
Context {A D : Type} (f : nat → A → list D).

Fixpoint scan_from (i : nat) (l : list A) : list D :=
  match l with
  | [] => []
  | x :: l => f i x ++ scan_from (S i) l
  end.

Definition scan_each (l : list A) : list D := scan_from 0 l.
End scan_each.

(** [push_if b d]: [if b { self.error(d) }]. *)
Definition push_if {D} (b : bool) (d : D) : list D := if b then [d] else [].

Lemma push_if_nil {D} b (d : D) : push_if b d = [] ↔ b = false.
Proof. by destruct b. Qed.

Lemma app_nil_iff {D} (l k : list D) : l ++ k = [] ↔ l = [] ∧ k = [].
Proof. destruct l, k; naive_solver. Qed.

Lemma scan_from_nil {A D} (f : nat → A → list D) (P : A → Prop) i l :
  (∀ i x, x ∈ l → f i x = [] ↔ P x) → scan_from f i l = [] ↔ Forall P l.
Proof.
  revert i; induction l as [|x l IH]; intros i Hf; simpl; [by split|].
  rewrite app_nil_iff, Forall_cons, IH, (Hf i x); [done|by left|].
  intros j y Hy. apply Hf. by right.
Qed.

Lemma scan_each_nil {A D} (f : nat → A → list D) (P : A → Prop) l :
  (∀ i x, x ∈ l → f i x = [] ↔ P x) → scan_each f l = [] ↔ Forall P l.
Proof. apply scan_from_nil. Qed.

(** A loop that rejects bad items and repeated keys accepts exactly the lists
    of good items with distinct keys. *)
Section scan_unique.
Context {A D : Type} (step : nat → gset string → A → list D * gset string).
Context (key : A → string) (ok : A → Prop).
Context (step_ok : ∀ i seen x, (step i seen x).1 = [] ↔ ok x ∧ key x ∉ seen).
Context (step_seen : ∀ i seen x, ok x → (step i seen x).2 = {[key x]} ∪ seen).

Lemma scan_unique_gen l i seen :
  scan step i seen l = [] ↔
    Forall ok l ∧ NoDup (key <$> l) ∧ ∀ x, x ∈ l → key x ∉ seen.
Proof.
  revert i seen; induction l as [|x l IH]; intros i seen; simpl.
  { split; [|done]. intros _. repeat split; [constructor|constructor|by intros ? ?%elem_of_nil]. }
  rewrite app_nil_iff, step_ok, Forall_cons, NoDup_cons, list_elem_of_fmap. split.
  - intros [[Hx Hs] Hl]. rewrite step_seen in Hl by done. apply IH in Hl as (Hok & Hnd & Hl).
    repeat split; try done.
    + intros (y & Hy & Hin). specialize (Hl y Hin). set_solver.
    + intros y [->|Hy]%elem_of_cons; [done|]. specialize (Hl y Hy). set_solver.
  - intros ([Hx Hok] & [Hnot Hnd] & Hl). repeat split; [done|apply Hl; by left|].
    rewrite step_seen by done. apply IH. repeat split; try done. intros y Hy.
    specialize (Hl y). rewrite elem_of_cons in Hl.
    rewrite elem_of_union, elem_of_singleton. intros [Heq|Hs]; [|naive_solver].
    apply Hnot. eauto.
Qed.

Lemma scan_unique l : scan step 0 ∅ l = [] ↔ Forall ok l ∧ NoDup (key <$> l).
Proof.
  rewrite scan_unique_gen. split; [naive_solver|]. intros [??]. repeat split; [done..|].
  intros x _. apply not_elem_of_empty.
Qed.
End scan_unique.

(** Booleans that guard a diagnostic, as propositions. *)
Lemma push_if_negb_nil {D} b (d : D) : push_if (negb b) d = [] ↔ b = true.
Proof. rewrite push_if_nil. apply negb_false_iff. Qed.

Lemma push_if_decide_nil {D} `{Decision P} (d : D) : push_if (bool_decide P) d = [] ↔ ¬ P.
Proof. rewrite push_if_nil. apply bool_decide_eq_false. Qed.

Lemma push_if_negb_decide_nil {D} `{Decision P} (d : D) :
  push_if (negb (bool_decide P)) d = [] ↔ P.
Proof. rewrite push_if_negb_nil. apply bool_decide_eq_true. Qed.

Create Rewrite HintDb diag.
#[export] Hint Rewrite @app_nil_iff @push_if_negb_decide_nil @push_if_decide_nil
  @push_if_negb_nil @push_if_nil negb_false_iff bool_decide_eq_false bool_decide_eq_true : diag.

Lemma string_exists_chars p s : string_exists p s = existsb p (chars s).
Proof. induction s as [|c s IH]; [done|]. simpl. by rewrite IH. Qed.

Lemma string_all_chars p s : string_all p s = forallb p (chars s).
Proof. induction s as [|c s IH]; [done|]. simpl. by rewrite IH. Qed.

Lemma split_on_none p s : string_exists p s = false → split_on p s = [s].
Proof.
  rewrite string_exists_chars, existsb_false. intros Hp. unfold split_on.
  rewrite pieces_none by done. simpl. by rewrite of_chars_chars.
Qed.

Lemma split_on_ext p q s :
  (∀ c, c ∈ chars s → p c = q c) → split_on p s = split_on q s.
Proof. intros Hpq. unfold split_on. by rewrite (pieces_ext p q). Qed.

(** How many elements satisfy a predicate, after one is replaced. *)
Lemma filter_insert_length {A} (P : A → Prop) `{!∀ x, Decision (P x)} (l : list A) i x y :
  l !! i = Some x →
  length (filter P (<[i := y]> l)) + (if decide (P x) then 1 else 0) =
  length (filter P l) + (if decide (P y) then 1 else 0).
Proof.
  intros Hx. pose proof (lookup_lt_Some _ _ _ Hx) as Hlt.
  rewrite insert_take_drop by done. rewrite <-(take_drop_middle l i x Hx) at 3.
  rewrite !filter_app, !length_app, !filter_cons.
  repeat case_decide; simpl; lia.
Qed.

Lemma filter_none_length {A} (P : A → Prop) `{!∀ x, Decision (P x)} (l : list A) :
  (∀ x, x ∈ l → ¬ P x) → length (filter P l) = 0.
Proof.
  induction l as [|x l IH]; intros Hl; [done|]. rewrite filter_cons, decide_False.
  - apply IH. intros y Hy. apply Hl. by right.
  - apply Hl. by left.
Qed.

Lemma filter_length_impl {A} (P Q : A → Prop) `{!∀ x, Decision (P x), !∀ x, Decision (Q x)} l :
  (∀ x, x ∈ l → P x → Q x) → length (filter P l) ≤ length (filter Q l).
Proof.
  induction l as [|x l IH]; intros HPQ; [done|]. rewrite !filter_cons.
  assert (length (filter P l) ≤ length (filter Q l)) by (apply IH; intros; apply HPQ; [by right|done]).
  assert (P x → Q x) by (apply HPQ; by left). repeat case_decide; simpl; naive_solver lia.
Qed.

Lemma filter_length_iff {A} (P Q : A → Prop) `{!∀ x, Decision (P x), !∀ x, Decision (Q x)} l :
  (∀ x, x ∈ l → P x ↔ Q x) → length (filter P l) = length (filter Q l).
Proof. intros HPQ. apply Nat.le_antisymm; apply filter_length_impl; naive_solver. Qed.

(** Fallible computations that succeed. *)
Lemma bind_Done {E A B} (m : Outcome E A) (k : A → Outcome E B) b :
  outcome_bind m k = Done b ↔ ∃ a, m = Done a ∧ k a = Done b.
Proof. destruct m; simpl; naive_solver. Qed.

Lemma expect_Done {E A} (o : option A) (a : A) : expect (E:=E) o = Done a ↔ o = Some a.
Proof. destruct o; simpl; naive_solver. Qed.

(** Take apart the successful binds of a hypothesis. *)
Ltac invert_done H :=
  repeat match type of H with
  | outcome_bind _ _ = Done _ =>
      let a := fresh "r" in let Ha := fresh "Hr" in
      apply bind_Done in H as (a & Ha & H)
  end.

Lemma filter_all {A} (P : A → Prop) `{!∀ x, Decision (P x)} (l : list A) : (∀ x, x ∈ l → P x) → filter P l = l.
Proof.
  induction l as [|x l IH]; intros HP; [done|].
  rewrite filter_cons_True by (apply HP; by left). f_equal. apply IH. intros y Hy. apply HP. by right.
Qed.

Lemma append_nil s : "" +:+ s = s.
Proof. done. Qed.

Lemma append_cons c s t : String c s +:+ t = String c (s +:+ t).
Proof. done. Qed.

Lemma append_assoc (s t u : string) : (s +:+ t) +:+ u = s +:+ (t +:+ u).
Proof. induction s as [|c s IH]; [done|]. by rewrite !append_cons, IH. Qed.

Lemma contains_char_app c s t : contains_char c (s +:+ t) = contains_char c s || contains_char c t.
Proof. unfold contains_char. rewrite !string_exists_chars, chars_app. apply existsb_app. Qed.

Lemma pieces_clean {A} (p : A → bool) l w : w ∈ pieces p l → ∀ c, c ∈ w → p c = false.
Proof.
  revert w. induction l as [|x l IH]; intros w; simpl.
  { intros ->%list_elem_of_singleton c Hc. by apply elem_of_nil in Hc. }
  destruct (p x) eqn:Hx.
  - intros [->|Hw]%elem_of_cons c Hc; [by apply elem_of_nil in Hc|]. by eapply IH.
  - destruct (pieces p l) as [|v vs] eqn:Hl; [by apply pieces_not_nil in Hl|].
    intros [->|Hw]%elem_of_cons c Hc; [|by eapply (IH w); [right|]].
    apply elem_of_cons in Hc as [->|Hc]; [done|]. eapply (IH v); [by left|done].
Qed.

Lemma split_char_clean sep s w : w ∈ split_char sep s → contains_char sep w = false.
Proof.
  unfold split_char, split_on, contains_char. intros (l & -> & Hl)%list_elem_of_fmap.
  rewrite string_exists_chars, existsb_false. intros c. rewrite chars_of_chars.
  by apply (pieces_clean _ _ _ Hl).
Qed.

Lemma split_char_not_nil sep s : split_char sep s ≠ [].
Proof.
  unfold split_char, split_on. destruct (pieces _ _) eqn:Hp; [by apply pieces_not_nil in Hp|done].
Qed.

(** Joining pieces without the separator and splitting gives them back. *)
Lemma split_join sep ws :
  ws ≠ [] → Forall (λ w, contains_char sep w = false) ws →
  split_char sep (join (String sep "") ws) = ws.
Proof.
  intros Hne Hws. destruct ws as [|w ws]; [done|]. clear Hne. revert w Hws.
  induction ws as [|v ws IH]; intros w Hws; simpl.
  - apply split_on_none. by inversion Hws.
  - inversion Hws as [|? ? Hw Hvs]; subst. specialize (IH v Hvs). simpl in IH.
    unfold split_char, split_on in *. rewrite chars_app, append_cons, append_nil. simpl chars.
    rewrite pieces_app by by apply bool_decide_eq_true.
    rewrite fmap_app. rewrite IH. rewrite pieces_none; [simpl; by rewrite of_chars_chars|].
    unfold contains_char in Hw. rewrite string_exists_chars, existsb_false in Hw. exact Hw.
Qed.

(** * Total correctness

    [Returns m P]: [m] succeeds, with a result that satisfies [P]. *)
Definition Returns {E A} (m : Outcome E A) (P : A → Prop) : Prop := ∃ a, m = Done a ∧ P a.

Lemma Returns_Done {E A} (a : A) (P : A → Prop) : P a → Returns (E := E) (Done a) P.
Proof. intros Ha. by exists a. Qed.

Lemma Returns_bind {E A B} (m : Outcome E A) (k : A → Outcome E B) P Q :
  Returns m P → (∀ a, P a → Returns (k a) Q) → Returns (outcome_bind m k) Q.
Proof. intros (a & -> & Ha) Hk. by apply Hk. Qed.

Lemma Returns_weaken {E A} (m : Outcome E A) (P Q : A → Prop) :
  Returns m P → (∀ a, P a → Q a) → Returns m Q.
Proof. intros (a & -> & Ha) HPQ. exists a. auto. Qed.

(** * Decimal text

    [{}] of an unsigned integer and [str::parse] undo each other. *)

Definition digit_value (c : ascii) : N := code c - 48.

Definition digits_value (digits : list ascii) : N :=
  foldl (λ v c, v * 10 + digit_value c)%N 0%N digits.

Lemma digits_value_snoc ds c : digits_value (ds ++ [c]) = (digits_value ds * 10 + digit_value c)%N.
Proof. unfold digits_value. by rewrite foldl_app. Qed.

Lemma pretty_N_char_digit x :
  (x < 10)%N → is_ascii_digit (pretty_N_char x) = true ∧ digit_value (pretty_N_char x) = x.
Proof.
  intros Hx.
  assert (x = 0 ∨ x = 1 ∨ x = 2 ∨ x = 3 ∨ x = 4 ∨ x = 5 ∨ x = 6 ∨ x = 7 ∨ x = 8 ∨ x = 9)%N as Hc
    by lia.
  by destruct_or! Hc; subst.
Qed.

Lemma pretty_N_go_digits x s :
  ∃ ds, chars (pretty_N_go x s) = ds ++ chars s ∧
    Forall (λ c, is_ascii_digit c = true) ds ∧ digits_value ds = x ∧ ((0 < x)%N → ds ≠ []).
Proof.
  revert s. induction (N.lt_wf_0 x) as [x _ IH]; intros s.
  destruct (decide (x = 0)%N) as [->|Hx].
  { exists []. rewrite pretty_N_go_0. split_and!; [done|constructor|done|lia]. }
  rewrite pretty_N_go_step by lia.
  destruct (IH (x `div` 10)%N (N.div_lt x 10 ltac:(lia) ltac:(lia))
    (String (pretty_N_char (x `mod` 10)) s)) as (ds & -> & Hds & Hv & _).
  destruct (pretty_N_char_digit (x `mod` 10)) as [Hd Hval]; [by apply N.mod_lt|].
  exists (ds ++ [pretty_N_char (x `mod` 10)]). split_and!.
  - by rewrite <-app_assoc.
  - apply Forall_app. by repeat constructor.
  - rewrite digits_value_snoc, Hv, Hval, (N.mul_comm _ 10). symmetry. by apply N.div_mod.
  - by destruct ds.
Qed.

Lemma fmt_N_digits n :
  Forall (λ c, is_ascii_digit c = true) (chars (fmt_N n)) ∧ digits_value (chars (fmt_N n)) = n ∧
  chars (fmt_N n) ≠ [].
Proof.
  unfold fmt_N, pretty, pretty_N. case_decide as Hn; [by subst; repeat constructor|].
  destruct (pretty_N_go_digits n "") as (ds & -> & Hds & Hv & Hne). rewrite app_nil_r.
  split_and!; [done..|]. apply Hne. lia.
Qed.

Lemma fmt_nat_fmt_N n : fmt_nat n = fmt_N (N.of_nat n).
Proof. done. Qed.

(** * Trimming *)

Definition dark (c : ascii) : Prop := (32 < code c ∧ code c < 128)%N.

Lemma dark_not_ws n s : (32 < n ∧ n < 128)%N → ws_len (n :: s) = 0 ∧ ws_len_rev (n :: s) = 0.
Proof.
  intros Hn. assert (ascii_ws n = false) as Hw by (apply bool_decide_eq_false; lia).
  assert (∀ b, ws_two n b = false ∧ ws_two b n = false) as Htwo
    by (intros b; split; apply bool_decide_eq_false; lia).
  assert (∀ b c, ws_three n b c = false ∧ ws_three c b n = false) as Hthree
    by (intros b c; split; apply bool_decide_eq_false; lia).
  destruct s as [|b [|c s]]; simpl; rewrite Hw; try done;
    rewrite (proj1 (Htwo b)), (proj2 (Htwo b)); try done.
  by rewrite (proj1 (Hthree b c)), (proj2 (Hthree b c)).
Qed.

Lemma trim_dark s c r : chars s = c :: r → dark c → (∀ d, last (c :: r) = Some d → dark d) → trim s = s.
Proof.
  intros Hs Hc Hlast. unfold trim.
  assert (trim_start s = s) as ->.
  { unfold trim_start. trans (of_chars (chars s)); [f_equal|apply of_chars_chars].
    destruct (String.length s); [done|]. rewrite Hs. cbn [strip_ws].
    by rewrite fmap_cons, (proj1 (dark_not_ws _ (code <$> r) Hc)). }
  unfold trim_end. trans (of_chars (chars s)); [f_equal|apply of_chars_chars].
  trans (rev (rev (chars s))); [f_equal|apply rev_involutive].
  destruct (String.length s); [done|]. cbn [strip_ws].
  rewrite Hs. destruct (last (c :: r)) as [d|] eqn:Hd; [|by apply last_None in Hd].
  apply last_Some in Hd as [l' Heq]. rewrite Heq, rev_app_distr. cbn [rev app].
  by rewrite fmap_cons, (proj2 (dark_not_ws _ (code <$> rev l') (Hlast d eq_refl))).
Qed.
