(* ===== verification/Effects.v ===== *)
(** Code that changes a state, may fail and may panic: a state and error monad
    with a weakest precondition. Shared by the components whose operations
    thread a store through calls that can stop half way. *)
From S2P Require Import Prelude.

(** What a computation leaves is there however it ends. *)
Definition Step (S E A : Type) : Type := S → S * Outcome E A.

Section step.
Context {S E : Type}.

#[global] Instance Step_ret : MRet (Step S E) := λ A a s, (s, Done a).
#[global] Instance Step_bind : MBind (Step S E) := λ A B f m s,
  match m s with
  | (s, Done a) => f a s
  | (s, Fail e) => (s, Fail e)
  | (s, Panic) => (s, Panic)
  end.

Definition get : Step S E S := λ s, (s, Done s).
Definition modify (f : S → S) : Step S E () := λ s, (f s, Done ()).
Definition lift {A} (r : Outcome E A) : Step S E A := λ s, (s, r).
Definition throw {A} (e : E) : Step S E A := λ s, (s, Fail e).

(** [if !b { bail!(e) }]. *)
Definition ensure (b : bool) (e : E) : Step S E () := if b then mret () else throw e.

(** Asking the world, which answers and moves on. *)
Definition ask {A} (f : S → A * S) : Step S E A := λ s, let '(a, s) := f s in (s, Done a).

(** [match m { Ok(a) => k(a), Err(e) => h(e) }]. *)
Definition handle {A B} (m : Step S E A) (k : A → Step S E B) (h : E → Step S E B) : Step S E B := λ s,
  match m s with
  | (s, Done a) => k a s
  | (s, Fail e) => h e s
  | (s, Panic) => (s, Panic)
  end.

(** [m] run from [s] does not panic, ends in [Q] when it succeeds and in [R]
    when it fails. *)
Definition wp {A} (m : Step S E A) (Q : A → S → Prop) (R : E → S → Prop) (s : S) : Prop :=
  match m s with
  | (s, Done a) => Q a s
  | (s, Fail e) => R e s
  | (s, Panic) => False
  end.

Lemma wp_ret {A} (a : A) Q R s : wp (mret a) Q R s ↔ Q a s.
Proof. done. Qed.

Lemma wp_bind {A B} (m : Step S E A) (f : A → Step S E B) Q R s :
  wp (m ≫= f) Q R s ↔ wp m (λ a, wp (f a) Q R) R s.
Proof. unfold wp, mbind, Step_bind. by destruct (m s) as [s' [a|e|]]. Qed.

Lemma wp_handle {A B} (m : Step S E A) (k : A → Step S E B) h Q R s :
  wp (handle m k h) Q R s ↔ wp m (λ a, wp (k a) Q R) (λ e, wp (h e) Q R) s.
Proof. unfold wp, handle. by destruct (m s) as [s' [a|e|]]. Qed.

Lemma wp_get Q R s : wp get Q R s ↔ Q s s.
Proof. done. Qed.

Lemma wp_modify f Q R s : wp (modify f) Q R s ↔ Q () (f s).
Proof. done. Qed.

Lemma wp_throw {A} e (Q : A → S → Prop) R s : wp (throw e) Q R s ↔ R e s.
Proof. done. Qed.

Lemma wp_ensure b e Q R s : wp (ensure b e) Q R s ↔ if b then Q () s else R e s.
Proof. by destruct b. Qed.

Lemma wp_lift {A} (r : Outcome E A) Q R s :
  wp (lift r) Q R s ↔ match r with Done a => Q a s | Fail e => R e s | Panic => False end.
Proof. by destruct r. Qed.

Lemma wp_ask {A} (f : S → A * S) Q R s : wp (ask f) Q R s ↔ Q (f s).1 (f s).2.
Proof. unfold wp, ask. by destruct (f s). Qed.

Lemma wp_wand {A} (m : Step S E A) Q Q' R R' s :
  wp m Q R s → (∀ a s', Q a s' → Q' a s') → (∀ e s', R e s' → R' e s') → wp m Q' R' s.
Proof. unfold wp. destruct (m s) as [s' [a|e|]]; auto. Qed.

Lemma wp_and {A} (m : Step S E A) Q Q' R R' s :
  wp m Q R s → wp m Q' R' s → wp m (λ a s, Q a s ∧ Q' a s) (λ e s, R e s ∧ R' e s) s.
Proof. unfold wp. by destruct (m s) as [s' [a|e|]]. Qed.

(** From a weakest precondition to the run itself. *)
Lemma wp_run {A} (m : Step S E A) Q R s :
  wp m Q R s → ∃ s', (∃ a, m s = (s', Done a) ∧ Q a s') ∨ (∃ e, m s = (s', Fail e) ∧ R e s').
Proof. unfold wp. destruct (m s) as [s' [a|e|]]; [| |done]; naive_solver. Qed.

Lemma wp_Done {A} (m : Step S E A) Q R s s' a : wp m Q R s → m s = (s', Done a) → Q a s'.
Proof. unfold wp. intros Hm Hs. by rewrite Hs in Hm. Qed.

Lemma wp_Fail {A} (m : Step S E A) Q R s s' e : wp m Q R s → m s = (s', Fail e) → R e s'.
Proof. unfold wp. intros Hm Hs. by rewrite Hs in Hm. Qed.

Lemma step_bind_Done {A B} (m : Step S E A) (f : A → Step S E B) s s' b :
  (m ≫= f) s = (s', Done b) ↔ ∃ a s1, m s = (s1, Done a) ∧ f a s1 = (s', Done b).
Proof. unfold mbind, Step_bind. destruct (m s) as [s1 [a|e|]]; naive_solver. Qed.

Lemma lift_Done {A} (r : Outcome E A) s s' a : lift r s = (s', Done a) ↔ s' = s ∧ r = Done a.
Proof. unfold lift. naive_solver. Qed.
End step.

(** A computation on a part of the state. *)
Definition zoom {S T E A} (part : S → T) (put : T → S → S) (m : Step T E A) : Step S E A := λ s,
  let '(t, r) := m (part s) in (put t s, r).

Lemma wp_zoom {S T E A} (part : S → T) (put : T → S → S) (m : Step T E A) Q R s :
  wp (zoom part put m) Q R s ↔
  wp m (λ a t, Q a (put t s)) (λ e t, R e (put t s)) (part s).
Proof. unfold wp, zoom. by destruct (m (part s)) as [t [a|e|]]. Qed.

(** However [m] ends, even in a panic, the state it leaves is related to the
    one it started from. *)
Definition leaves {S E A} (R : relation S) (m : Step S E A) : Prop := ∀ s, R s (m s).1.

Section leaves.
Context {S E : Type} {R : relation S} `{!PreOrder R}.

Lemma leaves_still {A} (m : Step S E A) : (∀ s, (m s).1 = s) → leaves R m.
Proof. intros Hm s. by rewrite Hm. Qed.

Lemma leaves_ret {A} (a : A) : leaves R (mret a : Step S E A).
Proof. by intros s. Qed.

Lemma leaves_get : leaves R (get : Step S E S).
Proof. by intros s. Qed.

Lemma leaves_throw {A} e : leaves R (throw e : Step S E A).
Proof. by intros s. Qed.

Lemma leaves_lift {A} (r : Outcome E A) : leaves R (lift r).
Proof. by intros s. Qed.

Lemma leaves_ensure b (e : E) : leaves R (ensure b e).
Proof. by destruct b; intros s. Qed.

Lemma leaves_modify f : (∀ s, R s (f s)) → leaves R (modify f : Step S E ()).
Proof. by intros Hf s. Qed.

Lemma leaves_bind {A B} (m : Step S E A) (k : A → Step S E B) :
  leaves R m → (∀ a, leaves R (k a)) → leaves R (m ≫= k).
Proof.
  intros Hm Hk s. specialize (Hm s). unfold mbind, Step_bind. destruct (m s) as [s' [a|e|]]; [|done..].
  etrans; [exact Hm|apply Hk].
Qed.

Lemma leaves_handle {A B} (m : Step S E A) (k : A → Step S E B) h :
  leaves R m → (∀ a, leaves R (k a)) → (∀ e, leaves R (h e)) → leaves R (handle m k h).
Proof.
  intros Hm Hk Hh s. specialize (Hm s). unfold handle. destruct (m s) as [s' [a|e|]]; [..|done];
    (etrans; [exact Hm|]); [apply Hk|apply Hh].
Qed.

(** What is left adds to what is ensured. *)
Lemma wp_leaves {A} (m : Step S E A) (Q : A → S → Prop) (Q' : E → S → Prop) s :
  wp m Q Q' s → leaves R m → wp m (λ a s', Q a s' ∧ R s s') (λ e s', Q' e s' ∧ R s s') s.
Proof. intros Hm Hl. specialize (Hl s). unfold wp in *. by destruct (m s) as [s' [a|e|]]. Qed.
End leaves.

Lemma leaves_zoom {S T E A} (R : relation S) (R' : relation T) part put (m : Step T E A) :
  (∀ s t, R' (part s) t → R s (put t s)) → leaves R' m → leaves R (zoom part put m).
Proof. intros HR Hm s. specialize (Hm (part s)). unfold zoom. destruct (m (part s)) as [t r]. by apply HR. Qed.

Create HintDb leaves.
#[export] Hint Resolve leaves_ret leaves_get leaves_throw leaves_lift leaves_ensure leaves_bind leaves_handle : leaves.

(** One step of symbolic execution. *)
Ltac wp_step :=
  first
    [ rewrite wp_bind | rewrite wp_handle | rewrite wp_ret | rewrite wp_get | rewrite wp_modify
    | rewrite wp_throw | rewrite wp_ensure | rewrite wp_lift | rewrite wp_ask | rewrite wp_zoom ];
  cbn beta.
Ltac wp_steps := repeat wp_step.

Create HintDb wp.
