(* ===== verification/Graph.v ===== *)
(** Graph algorithms shared by the flow validator and the plan lowerer: the
    [degree]/[outgoing] tables, Kahn's loop over a pluggable work list
    ([VecDeque] in the validator, [BTreeSet] in the lowerer), breadth-first
    reachability, and walks along parent links. *)
From stdpp Require Import relations sorting.
From S2P Require Import Prelude.

(** * Cycles in finite relations *)

Section cycles.
Context {A : Type} `{EqDecision A} (R : relation A).
Implicit Types (l k : list A).

Definition acyclic : Prop := ∀ x, ¬ tc R x x.

(** A backward chain: each element is a successor of the one before it. *)
Fixpoint linked (l : list A) : Prop :=
  match l with
  | x :: ((y :: _) as l') => R x y ∧ linked l'
  | _ => True
  end.

Lemma linked_tc x l y k : linked (x :: l ++ y :: k) → tc R x y.
Proof.
  revert x; induction l as [|z l IH]; intros x.
  - intros [Hxy _]. by apply tc_once.
  - intros [Hxz Hl]. eapply tc_l; [done|]. by apply IH.
Qed.

Lemma linked_app_r l k : linked (l ++ k) → linked k.
Proof. induction l as [|x l IH]; [done|]. destruct l, k; naive_solver. Qed.

Lemma has_dup l : ¬ NoDup l → ∃ x l1 l2 l3, l = l1 ++ x :: l2 ++ x :: l3.
Proof.
  induction l as [|x l IH]; intros Hnd; [destruct Hnd; constructor|].
  destruct (decide (x ∈ l)) as [(l2 & l3 & ->)%list_elem_of_split|Hx].
  - by exists x, [], l2, l3.
  - destruct IH as (y & l1 & l2 & l3 & ->).
    { intros Hl. destruct Hnd. by constructor. }
    by exists y, (x :: l1), l2, l3.
Qed.

Lemma linked_dup_cycle l : linked l → ¬ NoDup l → ∃ x, x ∈ l ∧ tc R x x.
Proof.
  intros Hl (x & l1 & l2 & l3 & ->)%has_dup. exists x. split.
  - rewrite elem_of_app, elem_of_cons. auto.
  - apply linked_app_r in Hl. by eapply linked_tc.
Qed.

Lemma subset_longer_dup (l k : list A) :
  (∀ x, x ∈ l → x ∈ k) → length k < length l → ¬ NoDup l.
Proof.
  intros Hsub Hlen Hnd. assert (l ⊆+ k) as Hs by (apply NoDup_submseteq; auto).
  apply submseteq_length in Hs. lia.
Qed.

(** In a non-empty finite set where everything has a predecessor in the set
    there is a cycle. *)
Lemma no_source_cycle (S : list A) :
  S ≠ [] → (∀ v, v ∈ S → ∃ u, u ∈ S ∧ R u v) → ∃ x, tc R x x.
Proof.
  intros Hne Hpred.
  assert (∀ n, ∃ l, length l = Datatypes.S n ∧ (∀ x, x ∈ l → x ∈ S) ∧ linked l) as Hchain.
  { induction n as [|n (l & Hlen & Hsub & Hl)].
    - destruct S as [|v S]; [done|]. exists [v]. split; [done|]. split; [|done].
      intros x ->%list_elem_of_singleton. by left.
    - destruct l as [|v l]; [done|]. destruct (Hpred v) as (u & Hu & HR); [apply Hsub; by left|].
      exists (u :: v :: l). split; [simpl in *; lia|]. split; [|done].
      intros x [->|?]%elem_of_cons; auto. }
  destruct (Hchain (length S)) as (l & Hlen & Hsub & Hl).
  destruct (linked_dup_cycle l Hl) as (x & _ & Hx); [|by exists x].
  apply (subset_longer_dup l S); [done|lia].
Qed.
End cycles.

(** * Walking along parent links *)

Section parents.
Context (parent : string → option string).

Definition parent_of (x y : string) : Prop := parent x = Some y.

(** [let mut current = Some(start); while let Some(id) = current
    { if !seen.insert(id) { error; break } current = parent(id) }]:
    whether the error is reached.  Running out of fuel, like a repeated id,
    counts as a cycle; [walk_cycle_spec] shows the fuel is enough. *)
Fixpoint walk_cycle (fuel : nat) (seen : gset string) (current : option string) : bool :=
  match current with
  | None => false
  | Some id =>
      if decide (id ∈ seen) then true
      else match fuel with
           | O => true
           | S fuel => walk_cycle fuel ({[id]} ∪ seen) (parent id)
           end
  end.

(** [let mut current = start; while let Some(id) = current { ...;
    current = parent(id) }]: the ids visited; [None] when the fuel does not
    reach the root. *)
Fixpoint parent_chain (fuel : nat) (current : option string) : option (list string) :=
  match current with
  | None => Some []
  | Some id =>
      match fuel with
      | O => None
      | S fuel => cons id <$> parent_chain fuel (parent id)
      end
  end.

(** [current] reaches the root along [l]. *)
Inductive rooted : option string → list string → Prop :=
| rooted_nil : rooted None []
| rooted_cons id l : rooted (parent id) l → rooted (Some id) (id :: l).

Lemma rooted_inj cur l l' : rooted cur l → rooted cur l' → l = l'.
Proof.
  intros Hl; revert l'; induction Hl as [|id l Hl IH]; inversion 1; subst; [done|].
  f_equal. by apply IH.
Qed.

Lemma rooted_linked cur l : rooted cur l → linked parent_of l.
Proof.
  induction 1 as [|id l Hl IH]; [done|]. destruct l as [|y l]; [done|].
  split; [|done]. unfold parent_of. by inversion Hl.
Qed.

Lemma parent_chain_rooted fuel cur l : parent_chain fuel cur = Some l → rooted cur l.
Proof.
  revert cur l; induction fuel as [|fuel IH]; intros [id|] l Hl; simplify_eq/=;
    try by constructor.
  apply fmap_Some in Hl as (k & Hk & ->). constructor. by apply IH.
Qed.

Lemma rooted_parent_chain fuel cur l :
  rooted cur l → length l ≤ fuel → parent_chain fuel cur = Some l.
Proof.
  intros Hl; revert fuel; induction Hl as [|id l Hl IH]; intros [|fuel] Hle;
    simpl in *; try done; [lia|]. rewrite IH by lia. done.
Qed.

Lemma rooted_elem_rooted cur l x :
  rooted cur l → x ∈ l → ∃ k, rooted (Some x) k ∧ length k ≤ length l ∧ ∀ y, y ∈ k → y ∈ l.
Proof.
  induction 1 as [|id l Hl IH]; [by intros ?%elem_of_nil|].
  intros [->|Hx]%elem_of_cons.
  - exists (id :: l). repeat split; [by constructor|done..].
  - destruct (IH Hx) as (k & Hk & Hlen & Hsub). exists k.
    repeat split; [done|simpl; lia|]. intros y Hy. right. auto.
Qed.

Lemma rooted_rtc x l y : rooted (Some x) l → rtc parent_of x y → y ∈ l.
Proof.
  intros Hl Hxy. revert l Hl. induction Hxy as [x|x z y Hxz Hzy IH]; intros l Hl.
  - inversion Hl; subst. by left.
  - inversion Hl as [|? ? Hp]; subst. rewrite Hxz in Hp. right. by apply IH.
Qed.

Lemma rooted_elem_rtc x l y : rooted (Some x) l → y ∈ l → rtc parent_of x y.
Proof.
  remember (Some x) as cur eqn:E. intros Hl. revert x E.
  induction Hl as [|id l Hl IH]; intros x E; [done|]. simplify_eq.
  intros [->|Hy]%elem_of_cons; [done|]. destruct (parent x) as [z|] eqn:Hz.
  - eapply rtc_l; [exact Hz|]. by apply IH.
  - inversion Hl; subst. by apply elem_of_nil in Hy.
Qed.

Lemma rooted_no_cycle x l : rooted (Some x) l → ¬ tc parent_of x x.
Proof.
  intros Hl Hx. assert (∃ y, parent_of x y ∧ rtc parent_of y x) as (y & Hxy & Hyx).
  { inversion Hx as [|? y ? Hy Htc]; subst; [by exists x|]. exists y. eauto using tc_rtc. }
  inversion Hl as [|? k Hk]; subst. rewrite Hxy in Hk.
  pose proof (rooted_rtc _ _ _ Hk Hyx) as Hin.
  destruct (rooted_elem_rooted _ _ _ Hk Hin) as (k' & Hk' & Hlen & _).
  pose proof (rooted_inj _ _ _ Hk' Hl). subst. simpl in *. lia.
Qed.

Context (D : list string) (HD : ∀ x y, parent x = Some y → x ∈ D).

Lemma walk_cycle_false fuel seen cur :
  walk_cycle fuel seen cur = false → ∃ k, rooted cur k.
Proof.
  revert seen cur; induction fuel as [|fuel IH]; intros seen [id|]; simpl;
    try (intros _; exists []; constructor); case_decide; try done.
  intros (k & Hk)%IH. exists (id :: k). by constructor.
Qed.

(** [l] holds the ids seen, all on the way from [x] to [cur].  With one unit
    of fuel for each id that has a parent and one more, an error is a cycle. *)
Lemma walk_cycle_true x fuel seen l cur :
  walk_cycle fuel seen (Some cur) = true →
  rtc parent_of x cur → (∀ y, y ∈ l → tc parent_of y cur) →
  (∀ y, y ∈ seen ↔ y ∈ l) → NoDup l → (∀ y, y ∈ l → y ∈ D) → length D < fuel + length l →
  ∃ y, rtc parent_of x y ∧ tc parent_of y y.
Proof.
  revert seen l cur. induction fuel as [|fuel IH]; intros seen l cur Hw Hx Hl Hseen Hnd HlD Hlen.
  { assert (l ⊆+ D) as Hs by (apply NoDup_submseteq; auto).
    apply submseteq_length in Hs. lia. }
  simpl in Hw. destruct (decide (cur ∈ seen)) as [Hin|Hnin].
  { exists cur. split; [done|]. by apply Hl, Hseen. }
  destruct (parent cur) as [y|] eqn:Hp; [|by destruct fuel].
  apply (IH _ (cur :: l) y Hw).
  - by eapply rtc_r.
  - intros z [->|Hz]%elem_of_cons; [by apply tc_once|]. eapply tc_r; [by apply Hl|done].
  - intros z. rewrite elem_of_union, elem_of_singleton, elem_of_cons, Hseen. done.
  - constructor; [by rewrite <-Hseen|done].
  - intros z [->|Hz]%elem_of_cons; [by eapply HD|auto].
  - simpl. lia.
Qed.

Lemma walk_cycle_cycle fuel x :
  length D < fuel → walk_cycle fuel ∅ (Some x) = true →
  ∃ y, rtc parent_of x y ∧ tc parent_of y y.
Proof.
  intros Hf Hw. apply (walk_cycle_true x fuel ∅ [] x Hw); try done.
  - by intros y ?%elem_of_nil.
  - intros y. by rewrite elem_of_empty, elem_of_nil.
  - constructor.
  - by intros y ?%elem_of_nil.
  - simpl. lia.
Qed.

Lemma walk_cycle_spec fuel x :
  length D < fuel → walk_cycle fuel ∅ (Some x) = false ↔ ∃ k, rooted (Some x) k.
Proof.
  intros Hf. split; [apply walk_cycle_false|]. intros (k & Hk).
  destruct (walk_cycle fuel ∅ (Some x)) eqn:Hw; [|done]. exfalso.
  apply walk_cycle_cycle in Hw as (y & Hxy & Hyy); [|done].
  destruct (rooted_elem_rooted _ _ y Hk) as (k' & Hk' & _); [by eapply rooted_rtc|].
  by eapply rooted_no_cycle.
Qed.

Lemma rooted_NoDup cur k : rooted cur k → NoDup k.
Proof.
  induction 1 as [|id l Hl IH]; constructor; [|done]. intros Hin.
  destruct (rooted_elem_rooted _ _ _ Hl Hin) as (k' & Hk' & Hlen & _).
  assert (rooted (Some id) (id :: l)) as Hid by (by constructor).
  pose proof (rooted_inj _ _ _ Hk' Hid). subst. simpl in *. lia.
Qed.

Lemma rooted_removelast_D cur k : rooted cur k → ∀ z, z ∈ removelast k → z ∈ D.
Proof.
  induction 1 as [|id l Hl IH]; [by intros ? ?%elem_of_nil|].
  destruct l as [|y l]; [by intros ? ?%elem_of_nil|]. intros z.
  change (z ∈ id :: removelast (y :: l) → z ∈ D). intros [->|Hz]%elem_of_cons; [|auto].
  inversion Hl; subst. by eapply HD.
Qed.

Lemma rooted_length cur k : rooted cur k → length k ≤ S (length D).
Proof.
  intros Hk. pose proof (rooted_NoDup _ _ Hk) as Hnd. pose proof (rooted_removelast_D _ _ Hk) as HkD.
  destruct k as [|a k'] using rev_ind; [simpl; lia|].
  rewrite removelast_last in HkD. apply NoDup_app in Hnd as (Hnd & _ & _).
  assert (k' ⊆+ D) as Hs by (apply NoDup_submseteq; auto).
  apply submseteq_length in Hs. rewrite length_app. simpl. lia.
Qed.

(** If nothing is its own proper ancestor, every walk reaches the root, within
    one step per id that has a parent. *)
Lemma acyclic_rooted x : acyclic parent_of → ∃ k, rooted (Some x) k ∧ length k ≤ S (length D).
Proof.
  intros Hac. destruct (walk_cycle (S (length D)) ∅ (Some x)) eqn:Hw.
  - apply walk_cycle_cycle in Hw as (y & _ & Hy); [|lia]. by destruct (Hac y).
  - apply walk_cycle_false in Hw as (k & Hk). eauto using rooted_length.
Qed.

Lemma walk_cycle_acyclic fuel :
  length D < fuel →
  (∀ x, x ∈ D → walk_cycle fuel ∅ (Some x) = false) ↔ acyclic parent_of.
Proof.
  intros Hf. split.
  - intros Hw x Hx. assert (x ∈ D) as HxD.
    { inversion Hx; subst; by eapply HD. }
    apply Hw, walk_cycle_spec in HxD as (k & Hk); [|done]. by eapply rooted_no_cycle.
  - intros Hac x _. apply walk_cycle_spec; [done|].
    destruct (acyclic_rooted x Hac) as (k & Hk & _). eauto.
Qed.
End parents.

(** * Work lists: what Kahn's loop needs of its queue *)

Class Worklist (Q : Type) := {
  wl_elems : Q → list string;
  wl_pop : Q → option (string * Q);
  wl_push : string → Q → Q;
  wl_pop_None : ∀ q, wl_pop q = None → wl_elems q = [];
  wl_pop_Some : ∀ q x q', wl_pop q = Some (x, q') → wl_elems q ≡ₚ x :: wl_elems q';
  wl_push_elems : ∀ x q, x ∉ wl_elems q → wl_elems (wl_push x q) ≡ₚ x :: wl_elems q;
}.

(** [VecDeque]: [push_back] and [pop_front]. *)
Record VecDeque := { deque : list string }.

#[export, refine] Instance vecdeque_worklist : Worklist VecDeque := {|
  wl_elems := deque;
  wl_pop q := match deque q with [] => None | x :: l => Some (x, {| deque := l |}) end;
  wl_push x q := {| deque := deque q ++ [x] |};
|}.
Proof.
  - by intros [[]].
  - intros [[|y l]] x q' ?; by simplify_eq/=.
  - intros x [l] _; simpl. by rewrite (comm (++)).
Defined.

(** [BTreeSet]: [insert] and [pop_first], kept as a sorted list. *)
Record BTreeSet := { tree : list string }.

Definition btree_insert (x : string) (t : BTreeSet) : BTreeSet :=
  {| tree := if decide (x ∈ tree t) then tree t else insert_on id x (tree t) |}.

#[export, refine] Instance btreeset_worklist : Worklist BTreeSet := {|
  wl_elems := tree;
  wl_pop q := match tree q with [] => None | x :: l => Some (x, {| tree := l |}) end;
  wl_push := btree_insert;
|}.
Proof.
  - by intros [[]].
  - intros [[|y l]] x q' ?; by simplify_eq/=.
  - intros x [l] Hx; simpl in *. rewrite decide_False by done. apply insert_on_Permutation.
Defined.

(** * Kahn's algorithm *)

Record Tables := {
  degree : gmap string nat;
  outgoing : gmap string (list string);
}.

(** [outgoing.entry(from).or_default().push(to);
    *degree.entry(to).or_default() += 1;] *)
Definition add_edge (t : Tables) (e : string * string) : Tables :=
  {| outgoing := <[e.1 := default [] (outgoing t !! e.1) ++ [e.2]]> (outgoing t);
     degree := <[e.2 := S (default 0 (degree t !! e.2))]> (degree t) |}.

Definition tables (nodes : list string) (edges : list (string * string)) : Tables :=
  foldl add_edge {| degree := btree_collect id (λ _, 0) nodes; outgoing := ∅ |} edges.

(** The ids of degree zero, in key order. *)
Definition zero_degree (d : gmap string nat) : list string :=
  omap (λ p, if decide (p.2 = 0) then Some p.1 else None) (btree_iter d).

Section kahn.
Context {Q : Type} `{Worklist Q}.

(** The loop over the successors of the node popped: [None] is a panic (an
    unindexed successor, or a counter going below zero). *)
Fixpoint relax (succs : list string) (deg : gmap string nat) (q : Q) :
    option (gmap string nat * Q) :=
  match succs with
  | [] => Some (deg, q)
  | s :: succs =>
      match deg !! s with
      | None | Some O => None
      | Some (S d) =>
          relax succs (<[s := d]> deg) (if decide (d = 0) then wl_push s q else q)
      end
  end.

(** [while let Some(node) = pop() { order.push(node); relax }]. *)
Fixpoint kahn (fuel : nat) (out : gmap string (list string)) (deg : gmap string nat)
    (q : Q) (order : list string) : option (list string) :=
  match wl_pop q with
  | None => Some order
  | Some (node, q) =>
      match fuel with
      | O => None
      | S fuel =>
          match relax (default [] (out !! node)) deg q with
          | None => None
          | Some (deg, q) => kahn fuel out deg q (order ++ [node])
          end
      end
  end.
End kahn.

Definition occ (v : string) (l : list string) : nat := length (filter (λ x, x = v) l).

Lemma occ_nil v : occ v [] = 0.
Proof. done. Qed.

Lemma occ_cons v x l : occ v (x :: l) = (if decide (x = v) then 1 else 0) + occ v l.
Proof. unfold occ. rewrite filter_cons. by destruct (decide (x = v)). Qed.

Lemma occ_app v l k : occ v (l ++ k) = occ v l + occ v k.
Proof. unfold occ. by rewrite filter_app, length_app. Qed.

Lemma occ_pos v l : 0 < occ v l ↔ v ∈ l.
Proof.
  induction l as [|x l IH]; [rewrite occ_nil, elem_of_nil; lia|].
  rewrite occ_cons, elem_of_cons. destruct (decide (x = v)); naive_solver lia.
Qed.

Lemma occ_zero v l : occ v l = 0 ↔ v ∉ l.
Proof. rewrite <-occ_pos. lia. Qed.

Lemma occ_perm v l k : l ≡ₚ k → occ v l = occ v k.
Proof. unfold occ. by intros ->. Qed.

Section relax.
Context {Q : Type} `{Worklist Q}.

(** [relax] subtracts the multiplicity of each successor and pushes exactly
    the nodes whose counter reaches zero, each once. *)
Lemma relax_spec succs deg q :
  (∀ v, v ∈ succs → ∃ d, deg !! v = Some d ∧ occ v succs ≤ d) →
  (∀ v, v ∈ succs → v ∉ wl_elems q) →
  ∃ deg' q' new, relax succs deg q = Some (deg', q') ∧
    (∀ v, deg' !! v = (λ d, d - occ v succs) <$> deg !! v) ∧
    wl_elems q' ≡ₚ new ++ wl_elems q ∧ NoDup new ∧
    (∀ v, v ∈ new ↔ v ∈ succs ∧ deg !! v = Some (occ v succs)).
Proof.
  revert deg q; induction succs as [|s succs IH]; intros deg q Hdeg Hq; simpl.
  { exists deg, q, []. split; [done|]. split; [|split; [done|split; [constructor|]]].
    - intros v. destruct (deg !! v) as [d|]; simpl; [|done]. by rewrite occ_nil, Nat.sub_0_r.
    - intros v. rewrite elem_of_nil. naive_solver. }
  destruct (Hdeg s) as (d & Hd & Hle); [by left|]. rewrite Hd.
  rewrite occ_cons, decide_True in Hle by done. destruct d as [|d]; [lia|].
  assert (∀ v, v ∈ succs → ∃ d', <[s:=d]> deg !! v = Some d' ∧ occ v succs ≤ d') as Hdeg'.
  { intros v Hv. destruct (decide (s = v)) as [->|Hne].
    - exists d. rewrite lookup_insert_eq. split; [done|lia].
    - rewrite lookup_insert_ne by done. destruct (Hdeg v) as (d' & ? & Hle'); [by right|].
      rewrite occ_cons, decide_False in Hle' by done. eauto. }
  set (q1 := if decide (d = 0) then wl_push s q else q).
  assert (wl_elems q1 ≡ₚ (if decide (d = 0) then [s] else []) ++ wl_elems q) as Hq1.
  { unfold q1. destruct (decide (d = 0)); [|done]. apply wl_push_elems, Hq. by left. }
  destruct (IH (<[s:=d]> deg) q1 Hdeg') as (deg' & q' & new & Hr & Hd' & Hq' & Hnd & Hnew).
  { intros v Hv. rewrite Hq1, elem_of_app. intros [Hin|Hin]; [|by apply (Hq v); [right|]].
    destruct (decide (d = 0)); [|by apply elem_of_nil in Hin].
    apply list_elem_of_singleton in Hin as ->. apply occ_pos in Hv. lia. }
  exists deg', q', (new ++ (if decide (d = 0) then [s] else [])). split; [done|].
  split; [|split; [|split]].
  - intros v. rewrite Hd', occ_cons. destruct (decide (s = v)) as [->|].
    + rewrite lookup_insert_eq, Hd. simpl. first [done|f_equal; lia].
    + rewrite lookup_insert_ne by done. done.
  - rewrite Hq', Hq1. by rewrite (assoc (++)).
  - apply NoDup_app. split; [done|]. split; [|destruct decide; [apply NoDup_singleton|constructor]].
    intros v Hv Hin. destruct (decide (d = 0)); [|by apply elem_of_nil in Hin].
    apply list_elem_of_singleton in Hin as ->. apply Hnew in Hv as [Hv _]. apply occ_pos in Hv. lia.
  - intros v. rewrite elem_of_app, Hnew, elem_of_cons, occ_cons.
    destruct (decide (s = v)) as [->|Hne].
    + rewrite lookup_insert_eq, Hd. destruct (decide (d = 0)) as [->|].
      * assert (occ v succs = 0) as -> by lia. rewrite list_elem_of_singleton. naive_solver.
      * rewrite elem_of_nil. split; [intros [[? ?]|[]]; simplify_eq; auto|].
        intros [_ ?]. simplify_eq/=. left. split; [|done]. apply occ_pos. lia.
    + rewrite lookup_insert_ne by done. simpl. destruct (decide (d = 0)); set_solver.
Qed.
End relax.

Section kahn_correct.
Context {Q : Type} `{Worklist Q}.
Context (nodes : list string) (E : list (string * string)).
Context (HE : ∀ u v, (u, v) ∈ E → u ∈ nodes ∧ v ∈ nodes).
Context (out : gmap string (list string)).

Definition targets (u : string) : list string := (filter (λ e, e.1 = u) E).*2.
Context (Hout : ∀ u, default [] (out !! u) ≡ₚ targets u).

(** The edges into [v] whose source is not yet in [order]. *)
Definition pending (order : list string) (v : string) : nat :=
  length (filter (λ e, e.2 = v ∧ e.1 ∉ order) E).

Definition edge (u v : string) : Prop := (u, v) ∈ E.

(** Every prefix of [order] is closed under predecessors. *)
Definition respects (order : list string) : Prop :=
  ∀ l1 v l2, order = l1 ++ v :: l2 → ∀ u, edge u v → u ∈ l1.

Lemma elem_of_targets u v : v ∈ targets u ↔ edge u v.
Proof.
  unfold targets, edge. rewrite list_elem_of_fmap. split.
  - intros ([u' v'] & -> & Hin). apply list_elem_of_filter in Hin as [<- Hin]. done.
  - intros Hin. exists (u, v). split; [done|]. by apply list_elem_of_filter.
Qed.

Lemma pending_snoc order n v :
  n ∉ order → pending (order ++ [n]) v + occ v (targets n) = pending order v.
Proof.
  intros Hn. unfold pending, targets, occ. clear HE Hout. induction E as [|[a b] E' IH]; [done|].
  assert (a ∉ order ++ [n] ↔ ((a ∉ order) ∧ a ≠ n)) as Ha.
  { rewrite elem_of_app, list_elem_of_singleton. tauto. }
  rewrite !filter_cons; csimpl.
  repeat (case_decide; csimpl in *; rewrite ?filter_cons); try (subst; tauto); lia.
Qed.

Lemma pending_zero order v : pending order v = 0 ↔ ∀ u, edge u v → u ∈ order.
Proof.
  unfold pending, edge. rewrite length_zero_iff_nil.
  split.
  - intros Hf u Hu. destruct (decide (u ∈ order)) as [|Hn]; [done|]. exfalso.
    eapply (not_elem_of_nil (u, v)). rewrite <-Hf. by apply list_elem_of_filter.
  - intros Hu. destruct (filter _ E) as [|[a b] k] eqn:Hf; [done|]. exfalso.
    assert ((a, b) ∈ filter (λ e, e.2 = v ∧ e.1 ∉ order) E) as Hin by (rewrite Hf; by left).
    apply list_elem_of_filter in Hin as [[Hb Ha] Hin]; simpl in *; subst. by apply Ha, Hu.
Qed.

Record Inv (order : list string) (deg : gmap string nat) (q : Q) : Prop := {
  inv_NoDup : NoDup (order ++ wl_elems q);
  inv_nodes : ∀ v, v ∈ order ++ wl_elems q → v ∈ nodes;
  inv_degree : ∀ v, v ∈ nodes → deg !! v = Some (pending order v);
  inv_ready : ∀ v, v ∈ nodes → pending order v = 0 ↔ v ∈ order ++ wl_elems q;
  inv_respects : respects order;
}.

Lemma respects_snoc order n :
  respects order → (∀ u, edge u n → u ∈ order) → respects (order ++ [n]).
Proof.
  intros Ho Hn l1 v l2 Heq u Hu. destruct l2 as [|w l2] using rev_ind.
  - apply app_inj_tail in Heq as [<- <-]. by apply Hn.
  - clear IHl2. rewrite app_comm_cons, (assoc (++)) in Heq.
    apply app_inj_tail in Heq as [-> _]. by eapply Ho.
Qed.

(** What the invariant says of the node popped. *)
Lemma Inv_head order deg q n q' :
  Inv order deg q → wl_pop q = Some (n, q') →
  wl_elems q ≡ₚ n :: wl_elems q' ∧ n ∈ nodes ∧ (n ∉ order) ∧ (n ∉ wl_elems q') ∧
  (∀ v, edge n v → v ∈ nodes ∧ (v ∉ order ++ wl_elems q)).
Proof.
  intros HI Hpop. pose proof (wl_pop_Some _ _ _ Hpop) as Hq. destruct HI as [Hnd Hsub Hdeg Hready _].
  rewrite Hq, NoDup_app, NoDup_cons in Hnd. destruct Hnd as (_ & Hdis & Hnq & _).
  assert (n ∉ order) as Hno by (intros Hin; apply (Hdis n Hin); by left).
  split_and!; [done| |done|done|].
  - apply Hsub. rewrite Hq, elem_of_app, elem_of_cons. auto.
  - intros v Hv. destruct (HE n v Hv) as [_ Hvn]. split; [done|]. intros Hin.
    apply Hready in Hin; [|done]. rewrite pending_zero in Hin. by apply Hno, Hin.
Qed.

(** Moving [n] to the order and releasing its successors keeps the invariant. *)
Lemma Inv_release order deg q n q' deg' q'' new :
  Inv order deg q → wl_pop q = Some (n, q') →
  (∀ v, deg' !! v = (λ d, d - occ v (targets n)) <$> deg !! v) →
  wl_elems q'' ≡ₚ new ++ wl_elems q' → NoDup new →
  (∀ v, v ∈ new ↔ v ∈ targets n ∧ pending order v = occ v (targets n)) →
  Inv (order ++ [n]) deg' q''.
Proof.
  intros HI Hpop Hd' Hq'' Hndn Hnew.
  destruct (Inv_head _ _ _ _ _ HI Hpop) as (Hq & Hnn & Hno & Hnq & Hout').
  pose proof (λ v, pending_snoc order n v Hno) as Hpend.
  assert (∀ v, v ∈ new → v ∈ nodes ∧ (v ∉ order ++ n :: wl_elems q')) as Hfresh.
  { intros v [Hv _]%Hnew. apply elem_of_targets, Hout' in Hv. by rewrite <-Hq. }
  destruct HI as [Hnd Hsub Hdeg Hready Hres].
  rewrite Hq in Hnd. setoid_rewrite Hq in Hsub. setoid_rewrite Hq in Hready.
  assert ((order ++ [n]) ++ wl_elems q'' ≡ₚ new ++ order ++ n :: wl_elems q') as Hall.
  { rewrite Hq''. solve_Permutation. }
  split.
  - rewrite Hall. apply NoDup_app. split; [done|]. split; [|done]. by intros v [_ ?]%Hfresh.
  - intros v. rewrite Hall, elem_of_app. intros [[? _]%Hfresh|?]; auto.
  - intros v Hv. rewrite Hd', Hdeg by done. simpl. f_equal. specialize (Hpend v). lia.
  - intros v Hv. rewrite Hall, elem_of_app, Hnew, <-Hready by done. specialize (Hpend v). split.
    + intros Hz. destruct (decide (pending order v = 0)) as [|Hnz]; [by right|]. left.
      split; [apply occ_pos|]; lia.
    + intros [[_ Hp]|Hp]; lia.
  - apply respects_snoc; [done|]. apply pending_zero, Hready; [done|].
    rewrite elem_of_app, elem_of_cons. auto.
Qed.

Lemma Inv_pop order deg q n q' :
  Inv order deg q → wl_pop q = Some (n, q') →
  ∃ deg' q'', relax (default [] (out !! n)) deg q' = Some (deg', q'') ∧
    Inv (order ++ [n]) deg' q''.
Proof.
  intros HI Hpop. destruct (Inv_head _ _ _ _ _ HI Hpop) as (Hq & Hnn & Hno & Hnq & Hout').
  assert (∀ v, v ∈ default [] (out !! n) → edge n v) as Htgt.
  { intros v. by rewrite Hout, elem_of_targets. }
  assert (∀ v, occ v (default [] (out !! n)) = occ v (targets n)) as Hocc.
  { intros v. by apply occ_perm. }
  destruct (relax_spec (default [] (out !! n)) deg q') as
    (deg' & q'' & new & Hr & Hd' & Hq'' & Hndn & Hnew).
  { intros v Hv%Htgt. exists (pending order v). split; [by apply HI, Hout'|].
    rewrite Hocc. pose proof (pending_snoc order n v Hno). lia. }
  { intros v Hv%Htgt Hin. destruct (Hout' v Hv) as [_ []]. rewrite Hq, elem_of_app, elem_of_cons. auto. }
  exists deg', q''. split; [done|]. eapply (Inv_release order deg q n q' deg' q'' new); try done.
  - intros v. by rewrite Hd', Hocc.
  - intros v. rewrite Hnew, Hocc, Hout. split; intros [Hv Hd]; (split; [done|]);
      (assert (v ∈ nodes) as Hvn by (by apply Hout', elem_of_targets));
      rewrite (inv_degree _ _ _ HI v Hvn) in *; congruence.
Qed.

(** Enough fuel: one unit per node not yet ordered. *)
Lemma kahn_total fuel order deg q :
  NoDup nodes → Inv order deg q → length nodes < fuel + length order →
  ∃ order' deg' q', kahn fuel out deg q order = Some order' ∧ Inv order' deg' q' ∧
    wl_elems q' = [].
Proof.
  intros Hndn. revert order deg q. induction fuel as [|fuel IH]; intros order deg q HI Hf.
  { exfalso. assert (order ⊆+ nodes) as Hs.
    { apply NoDup_submseteq.
      - by apply inv_NoDup, NoDup_app in HI as [? _].
      - intros v Hv. apply (inv_nodes _ _ _ HI). rewrite elem_of_app. auto. }
    apply submseteq_length in Hs. lia. }
  simpl. destruct (wl_pop q) as [[n q1]|] eqn:Hpop.
  - destruct (Inv_pop _ _ _ _ _ HI Hpop) as (deg' & q' & -> & HI'). apply IH; [done|].
    rewrite length_app; simpl; lia.
  - exists order, deg, q. split; [done|]. split; [done|]. by apply wl_pop_None.
Qed.

Lemma respects_tc order u v :
  respects order → NoDup order → tc edge u v → v ∈ order →
  ∃ l1 l2, order = l1 ++ v :: l2 ∧ u ∈ l1.
Proof.
  intros Hres Hnd Huv. induction Huv as [u v Huv|u w v Huw Hwv IH]; intros Hv.
  - apply list_elem_of_split in Hv as (l1 & l2 & ->). exists l1, l2. split; [done|]. by eapply Hres.
  - destruct (IH Hv) as (l1 & l2 & -> & Hw). exists l1, l2. split; [done|].
    apply list_elem_of_split in Hw as (k1 & k2 & ->).
    rewrite elem_of_app. left. eapply (Hres k1 w (k2 ++ v :: l2)); [|done].
    by rewrite <-(assoc (++)).
Qed.

(** The loop empties the graph exactly when the graph has no cycle. *)
Lemma Inv_complete order deg q :
  NoDup nodes → Inv order deg q → wl_elems q = [] →
  length order = length nodes ↔ acyclic edge.
Proof.
  intros Hndn HI Hq. pose proof HI as [Hnd Hsub Hdeg Hready Hres].
  rewrite Hq, (right_id_L [] (++)) in *. split.
  - intros Hlen x Hx. assert (x ∈ order) as Hxo.
    { assert (order ≡ₚ nodes) as ->.
      2:{ inversion Hx as [? ? He|? ? ? He]; subst; exact (proj1 (HE _ _ He)). }
      apply submseteq_length_Permutation; [by apply NoDup_submseteq|lia]. }
    destruct (respects_tc order x x) as (l1 & l2 & -> & Hin); [done..|].
    apply NoDup_app in Hnd as (_ & Hdis & _). apply (Hdis x Hin). by left.
  - intros Hac. enough (order ≡ₚ nodes) as -> by done.
    apply NoDup_Permutation; [done..|]. intros v. split; [apply Hsub|]. intros Hv.
    destruct (decide (v ∈ order)) as [|Hvo]; [done|]. exfalso.
    destruct (no_source_cycle edge (filter (λ w, w ∉ order) nodes)) as (x & Hx); [| |by eapply Hac].
    + intros Hnil. apply (not_elem_of_nil v). rewrite <-Hnil. by apply list_elem_of_filter.
    + intros w [Hwo Hw]%list_elem_of_filter. destruct (decide (pending order w = 0)) as [Hz|Hnz].
      { by apply Hready in Hz. }
      destruct (filter (λ e, e.2 = w ∧ e.1 ∉ order) E) as [|[a b] k] eqn:Hf.
      { unfold pending in Hnz. by rewrite Hf in Hnz. }
      assert ((a, b) ∈ filter (λ e, e.2 = w ∧ e.1 ∉ order) E) as Hin by (rewrite Hf; by left).
      apply list_elem_of_filter in Hin as [[Hb Ha] Hin]; simpl in *; subst.
      exists a. split; [|done]. apply list_elem_of_filter. split; [done|]. by apply (HE a w).
Qed.
End kahn_correct.

(** * The tables the loops start from *)

Lemma tables_snoc nodes E e : tables nodes (E ++ [e]) = add_edge (tables nodes E) e.
Proof. unfold tables. by rewrite foldl_app. Qed.

Lemma targets_snoc E e u :
  targets (E ++ [e]) u = targets E u ++ (if decide (e.1 = u) then [e.2] else []).
Proof.
  unfold targets. rewrite filter_app, fmap_app. f_equal. rewrite filter_cons.
  by destruct (decide (e.1 = u)).
Qed.

Lemma tables_outgoing nodes E u : default [] (outgoing (tables nodes E) !! u) = targets E u.
Proof.
  induction E as [|e E IH] using rev_ind; [done|].
  rewrite tables_snoc, targets_snoc, <-IH. simpl.
  destruct (decide (e.1 = u)) as [<-|Hne].
  - by rewrite lookup_insert_eq.
  - by rewrite lookup_insert_ne, (right_id_L [] (++)).
Qed.

Lemma tables_degree nodes E v :
  v ∈ nodes → degree (tables nodes E) !! v = Some (occ v E.*2).
Proof.
  intros Hv. induction E as [|e E IH] using rev_ind.
  - destruct (btree_collect_is_Some id (λ _ : string, 0) nodes v) as [_ [d Hd]].
    { by rewrite list_fmap_id. }
    simpl. rewrite Hd. by destruct (btree_collect_Some_inv _ _ _ _ _ Hd) as (_ & _ & _ & <-).
  - rewrite tables_snoc, fmap_app, occ_app; csimpl. rewrite occ_cons, occ_nil.
    destruct (decide (e.2 = v)) as [<-|Hne].
    + rewrite lookup_insert_eq, IH. simpl. f_equal. lia.
    + rewrite lookup_insert_ne, IH by done. f_equal. lia.
Qed.

Lemma tables_degree_dom nodes E v :
  (∀ u w, (u, w) ∈ E → w ∈ nodes) → is_Some (degree (tables nodes E) !! v) → v ∈ nodes.
Proof.
  induction E as [|e E IH] using rev_ind; intros HE.
  - intros Hv%btree_collect_is_Some. by rewrite list_fmap_id in Hv.
  - rewrite tables_snoc; simpl. rewrite lookup_insert_is_Some'. intros [<-|Hv].
    + apply (HE e.1). rewrite elem_of_app, <-surjective_pairing. right. by left.
    + apply IH; [|done]. intros u w Hin. apply (HE u). rewrite elem_of_app. auto.
Qed.

Lemma zero_degree_NoDup d : NoDup (zero_degree d).
Proof.
  pose proof (btree_keys_NoDup d) as Hnd. unfold zero_degree, btree_keys in *.
  induction (btree_iter d) as [|[k n] l IH]; csimpl in *; [constructor|].
  apply NoDup_cons in Hnd as [Hk Hnd]. destruct (decide (n = 0)); [|by apply IH].
  constructor; [|by apply IH]. rewrite list_elem_of_omap. intros ([k' n'] & Hin & Heq).
  apply Hk, list_elem_of_fmap. exists (k', n'). simpl in *. case_decide; naive_solver.
Qed.

Lemma elem_of_zero_degree d v : v ∈ zero_degree d ↔ d !! v = Some 0.
Proof.
  unfold zero_degree. rewrite list_elem_of_omap. split.
  - intros ([k n] & Hin & Heq). simpl in *. case_decide; simplify_eq. by apply elem_of_btree_iter.
  - intros Hv. exists (v, 0). split; [by apply elem_of_btree_iter|]. done.
Qed.

Section kahn_run.
Context {Q : Type} `{Worklist Q}.
Context (nodes : list string) (E : list (string * string)).
Context (HE : ∀ u v, (u, v) ∈ E → u ∈ nodes ∧ v ∈ nodes).

Lemma pending_nil v : pending E [] v = occ v E.*2.
Proof.
  unfold pending, occ. clear. induction E as [|[a b] E' IH]; [done|].
  rewrite filter_cons, fmap_cons, filter_cons. simpl.
  repeat case_decide; simpl; try lia; set_solver.
Qed.

Lemma Inv_init (q : Q) :
  wl_elems q = zero_degree (degree (tables nodes E)) →
  Inv nodes E [] (degree (tables nodes E)) q.
Proof.
  intros Hq. split; simpl.
  - rewrite Hq. apply zero_degree_NoDup.
  - intros v. rewrite Hq, elem_of_zero_degree. intros Hv.
    apply (tables_degree_dom nodes E); [by intros u w [_ ?]%HE|by eexists].
  - intros v Hv. by rewrite tables_degree, pending_nil.
  - intros v Hv. rewrite Hq, elem_of_zero_degree, tables_degree, pending_nil by done.
    naive_solver.
  - intros [|? ?] v l2; by intros.
Qed.

(** Kahn's loop returns an order of the nodes it could release: no panic, no
    duplicates, predecessors first, and complete exactly when there is no
    cycle. *)
Theorem kahn_spec (out : gmap string (list string)) (q : Q) :
  NoDup nodes →
  (∀ u, default [] (out !! u) ≡ₚ targets E u) →
  wl_elems q = zero_degree (degree (tables nodes E)) →
  ∃ order, kahn (S (length nodes)) out (degree (tables nodes E)) q [] = Some order ∧
    NoDup order ∧ (∀ v, v ∈ order → v ∈ nodes) ∧ respects E order ∧
    (length order = length nodes ↔ acyclic (edge E)).
Proof.
  intros Hnd Hout Hq. pose proof (Inv_init q Hq) as HI.
  destruct (kahn_total nodes E HE out Hout (S (length nodes)) [] _ q Hnd HI) as
    (order & deg & q' & Hk & HI' & Hq'); [simpl; lia|].
  exists order. split; [done|]. pose proof HI' as [Hndo Hsub _ _ Hres].
  rewrite Hq', (right_id_L [] (++)) in *. repeat split; try done;
    by apply (Inv_complete nodes E HE order deg q').
Qed.
End kahn_run.

(** * Breadth-first reachability *)

(** [let mut queue = VecDeque::from([start]); while let Some(node) =
    queue.pop_front() { if !seen.insert(node) { continue } for successor in
    outgoing(node) { if successor == target { return true } push_back } }
    false]; [None] is fuel running out. *)
Fixpoint bfs (out : gmap string (list string)) (target : string) (fuel : nat)
    (queue : list string) (seen : gset string) : option bool :=
  match queue with
  | [] => Some false
  | node :: queue =>
      match fuel with
      | O => None
      | S fuel =>
          if decide (node ∈ seen) then bfs out target fuel queue seen
          else
            let succs := default [] (out !! node) in
            if decide (target ∈ succs) then Some true
            else bfs out target fuel (queue ++ succs) ({[node]} ∪ seen)
      end
  end.

Section bfs.
Context (E : list (string * string)) (out : gmap string (list string)).
Context (Hout : ∀ u, default [] (out !! u) = targets E u).
Context (target : string).

Definition unseen_edges (seen : gset string) : nat := length (filter (λ e, e.1 ∉ seen) E).

Lemma unseen_edges_insert node seen :
  node ∉ seen → unseen_edges ({[node]} ∪ seen) + length (targets E node) = unseen_edges seen.
Proof.
  intros Hn. unfold unseen_edges, targets. clear Hout. induction E as [|[a b] E' IH]; [done|].
  assert (a ∉ ({[node]} ∪ seen : gset string) ↔ (a ≠ node ∧ (a ∉ seen))) as Ha by set_solver.
  rewrite !filter_cons; csimpl.
  repeat (case_decide; csimpl in *); try (subst; tauto); lia.
Qed.

Lemma bfs_true fuel queue seen start :
  (∀ v, v ∈ queue → rtc (edge E) start v) →
  bfs out target fuel queue seen = Some true → tc (edge E) start target.
Proof.
  revert queue seen; induction fuel as [|fuel IH]; intros [|node queue] seen Hq; simpl; try done.
  case_decide; [apply IH; intros v Hv; apply Hq; by right|].
  assert (rtc (edge E) start node) as Hnode by (apply Hq; by left).
  case_decide as Ht.
  - intros _. rewrite Hout in Ht. apply elem_of_targets in Ht. by eapply tc_rtc_l, tc_once.
  - apply IH. intros v [Hv|Hv]%elem_of_app; [apply Hq; by right|].
    rewrite Hout in Hv. apply elem_of_targets in Hv. by eapply rtc_r.
Qed.

Lemma bfs_false fuel queue seen start :
  (∀ u, u ∈ seen → ∀ v, edge E u v → (v ∈ seen ∨ v ∈ queue) ∧ v ≠ target) →
  (start ∈ seen ∨ start ∈ queue) →
  bfs out target fuel queue seen = Some false → ¬ tc (edge E) start target.
Proof.
  revert queue seen; induction fuel as [|fuel IH]; intros [|node queue] seen Hcl Hs; simpl; try done.
  1, 2: intros _ Htc; assert (∀ u, u ∈ seen → ¬ tc (edge E) u target) as Hno;
    [|destruct Hs as [Hs|Hs]; [by eapply Hno|by apply elem_of_nil in Hs]];
    clear Htc Hs; intros u Hu Htc; induction Htc as [u w Hw|u w z Hw Hwz IHw];
    destruct (Hcl u Hu w Hw) as [[Hin|?%elem_of_nil] Hne]; [done|done|by apply IHw|done].
  case_decide as Hseen; [|case_decide as Ht; [done|]].
  - apply IH; [|set_solver]. intros u Hu v Huv. specialize (Hcl u Hu v Huv). set_solver.
  - apply IH; [|set_solver]. intros u. rewrite elem_of_union, elem_of_singleton, Hout.
    rewrite Hout in Ht. rewrite elem_of_targets in Ht.
    intros [->|Hu] v Huv; rewrite elem_of_app, elem_of_targets.
    + split; [auto|]. by intros ->.
    + destruct (Hcl u Hu v Huv) as [Hv Hne]. split; [|done]. set_solver.
Qed.

Lemma bfs_total fuel queue seen :
  length queue + unseen_edges seen ≤ fuel → is_Some (bfs out target fuel queue seen).
Proof.
  revert queue seen; induction fuel as [|fuel IH]; intros [|node queue] seen Hf; simpl in *;
    try by eexists. { lia. }
  case_decide; [apply IH; lia|]. case_decide; [by eexists|].
  apply IH. rewrite length_app, Hout. pose proof (unseen_edges_insert node seen ltac:(done)). lia.
Qed.

Theorem bfs_spec start :
  ∃ b, bfs out target (S (length E)) [start] ∅ = Some b ∧ (b = true ↔ tc (edge E) start target).
Proof.
  destruct (bfs_total (S (length E)) [start] ∅) as [b Hb].
  { simpl. apply le_n_S, length_filter. }
  exists b. split; [done|]. destruct b; split; try done.
  - intros _. eapply bfs_true; [|done]. by intros v ->%list_elem_of_singleton.
  - intros Htc. exfalso. eapply bfs_false; [| |done|done].
    + intros u Hu. by apply not_elem_of_empty in Hu.
    + right. by left.
Qed.
End bfs.
