(* ===== verification/FlowModel.v ===== *)
(** The Flow IR data model ([crates/xshell-flow/src/model.rs]).

    [V] is the type of JSON values ([serde_json::Value]): the flow code stores
    them in annotations and predicate arguments and never looks inside. *)
From S2P Require Import Prelude.

Definition FLOW_SCHEMA_V0 : string := "xshell.flow/v0".

Inductive ValueType : Type :=
| VtBool
| VtInt
| VtString
| VtPath
| VtEvidence
| VtContractReport
| VtReceipt
| VtArtifact (media_type schema : option string)
| VtList (item : ValueType).

#[export] Instance ValueType_eq_dec : EqDecision ValueType.
Proof. solve_decision. Defined.

Record Port := {
  port_name : string;
  port_value_type : ValueType;
  port_optional : bool;
}.

#[export] Instance Port_eq_dec : EqDecision Port.
Proof. solve_decision. Defined.

Record FlowInterface := {
  interface_inputs : list Port;
  interface_outputs : list Port;
}.

Record ProgramReference := {
  program_source : string;
  program_entrypoint : option string;
}.

Inductive JoinStrategy : Type := JoinAll | JoinAny | JoinFirstValid.

Inductive NodeKind : Type :=
| NkInput
| NkOutput
| NkTask (program : ProgramReference)
| NkGate (contract : string)
| NkJoin (strategy : JoinStrategy)
| NkPromote (paths : list string)
| NkDiscard.

Record Capabilities := {
  cap_read : list string;
  cap_write : list string;
  cap_execute : list string;
  cap_network : list string;
}.

(** Machine-width bounds: [u64] milliseconds and bytes, [u32] attempts. *)
Record Resources := {
  timeout_ms : option N;
  memory_bytes : option N;
  output_bytes : option N;
  attempts : option N;
}.

Record Endpoint := {
  endpoint_node : string;
  endpoint_port : option string;
}.

#[export] Instance Endpoint_eq_dec : EqDecision Endpoint.
Proof. solve_decision. Defined.

Inductive GateOutcome : Type := OutcomeValid | OutcomeInvalid | OutcomeError | OutcomeCancelled.

#[export] Instance GateOutcome_eq_dec : EqDecision GateOutcome.
Proof. solve_decision. Defined.

Inductive EdgeKind : Type :=
| EkData
| EkDependency
| EkRoute (outcome : GateOutcome)
| EkFeedback (loop_region state : string).

#[export] Instance EdgeKind_eq_dec : EqDecision EdgeKind.
Proof. solve_decision. Defined.

Record Edge := {
  edge_id : string;
  edge_from : Endpoint;
  edge_to : Endpoint;
  edge_kind : EdgeKind;
}.

Record GateOutcomeReference := {
  until_gate : string;
  until_outcome : GateOutcome;
}.

Inductive ExhaustionPolicy : Type := ExhaustFail | ExhaustYieldLast | ExhaustDiscard.

(** [max_iterations] is a [u32]. *)
Inductive RegionKind : Type :=
| RkScope
| RkParallel
| RkTransaction (workspace : string)
| RkLoop (max_iterations : N) (until : GateOutcomeReference) (on_exhausted : ExhaustionPolicy).

Section with_json.
Context {V : Type}.

Inductive ContractExpression : Type :=
| CePredicate (name : string) (arguments : gmap string V)
| CeAll (clauses : list ContractExpression)
| CeAny (clauses : list ContractExpression)
| CeNot (clause : ContractExpression).

Record Contract := {
  contract_id : string;
  contract_expression : ContractExpression;
}.

Record Node := {
  node_id : string;
  node_label : option string;
  node_inputs : list Port;
  node_outputs : list Port;
  node_kind : NodeKind;
  node_capabilities : Capabilities;
  node_resources : Resources;
  node_annotations : gmap string V;
}.

Record Region := {
  region_id : string;
  region_parent : option string;
  region_nodes : list string;
  region_kind : RegionKind;
  region_annotations : gmap string V;
}.

Record Flow := {
  flow_schema : string;
  flow_name : string;
  flow_interface : FlowInterface;
  flow_contracts : list Contract;
  flow_nodes : list Node;
  flow_edges : list Edge;
  flow_regions : list Region;
  flow_annotations : gmap string V;
}.
End with_json.

Arguments ContractExpression : clear implicits.
Arguments Contract : clear implicits.
Arguments Node : clear implicits.
Arguments Region : clear implicits.
Arguments Flow : clear implicits.

(** Structural induction on contract expressions, through the clause lists. *)
Section contract_ind.
Context {V : Type} (P : ContractExpression V → Prop).
Context (Hpred : ∀ name arguments, P (CePredicate name arguments)).
Context (Hall : ∀ clauses, Forall P clauses → P (CeAll clauses)).
Context (Hany : ∀ clauses, Forall P clauses → P (CeAny clauses)).
Context (Hnot : ∀ clause, P clause → P (CeNot clause)).

Fixpoint ContractExpression_nested_ind (e : ContractExpression V) : P e :=
  let fix go (l : list (ContractExpression V)) : Forall P l :=
    match l with
    | [] => Forall_nil_2 P
    | x :: l => Forall_cons_2 P x l (ContractExpression_nested_ind x) (go l)
    end in
  match e with
  | CePredicate name arguments => Hpred name arguments
  | CeAll clauses => Hall clauses (go clauses)
  | CeAny clauses => Hany clauses (go clauses)
  | CeNot clause => Hnot clause (ContractExpression_nested_ind clause)
  end.
End contract_ind.

(** The tests the code writes as [matches!(kind, ...)]. *)
Definition is_gate (k : NodeKind) : bool := match k with NkGate _ => true | _ => false end.
Definition is_input (k : NodeKind) : bool := match k with NkInput => true | _ => false end.
Definition is_output (k : NodeKind) : bool := match k with NkOutput => true | _ => false end.
Definition is_data (k : EdgeKind) : bool := match k with EkData => true | _ => false end.
Definition is_dependency (k : EdgeKind) : bool := match k with EkDependency => true | _ => false end.
Definition is_feedback (k : EdgeKind) : bool := match k with EkFeedback _ _ => true | _ => false end.
Definition is_loop (k : RegionKind) : bool := match k with RkLoop _ _ _ => true | _ => false end.
Definition is_transaction (k : RegionKind) : bool :=
  match k with RkTransaction _ => true | _ => false end.
