(* ===== verification/FlowValidate.v ===== *)
(** The flow validator ([crates/xshell-flow/src/validate.rs]).

    Each method of [Validator] pushes diagnostics and reads the flow and the
    two index maps; it is modelled by the list of diagnostics it pushes, in
    order.  [run] concatenates them in the order of the calls. *)
From Stdlib Require Import Ascii.
From S2P Require Import Prelude Graph FlowModel.

Record Diagnostic := {
  diag_code : string;
  diag_path : string;
  diag_message : string;
}.

Definition error (code path message : string) : Diagnostic :=
  {| diag_code := code; diag_path := path; diag_message := message |}.

(** [{:?}] of a value type (derived [Debug]). *)
Fixpoint debug_value_type (t : ValueType) : string :=
  match t with
  | VtBool => "Bool"
  | VtInt => "Int"
  | VtString => "String"
  | VtPath => "Path"
  | VtEvidence => "Evidence"
  | VtContractReport => "ContractReport"
  | VtReceipt => "Receipt"
  | VtArtifact media_type schema =>
      "Artifact { media_type: " +:+ debug_option media_type +:+ ", schema: " +:+
      debug_option schema +:+ " }"
  | VtList item => "List { item: " +:+ debug_value_type item +:+ " }"
  end.

(** [BTreeSet::insert]: the set after, and whether the key was new. *)
Definition is_new (x : string) (seen : gset string) : bool := bool_decide (x ∉ seen).
Definition seen_insert (x : string) (seen : gset string) : gset string := {[x]} ∪ seen.

Definition identifier_char (first : bool) (c : Ascii.ascii) : bool :=
  if first then bool_decide (c = "_"%char) || is_ascii_alphabetic c
  else bool_decide (c = "_"%char) || bool_decide (c = "-"%char) || bool_decide (c = "."%char)
       || is_ascii_alphanumeric c.

Definition valid_identifier (value : string) : bool :=
  match value with
  | EmptyString => false
  | String c rest => identifier_char true c && string_all (identifier_char false) rest
  end.

Definition check_identifier (path value : string) : list Diagnostic :=
  push_if (negb (valid_identifier value))
    (error "F0604" path ("invalid identifier " +:+ debug_str value)).

Definition check_ports (path : string) (ports : list Port) : list Diagnostic :=
  scan (λ index names port,
    (check_identifier (at_index path index +:+ ".name") (port_name port) ++
     push_if (negb (is_new (port_name port) names))
       (error "F0601" (at_index path index +:+ ".name")
          ("duplicate port name " +:+ debug_str (port_name port))),
     seen_insert (port_name port) names)) 0 ∅ ports.

Definition check_sorted_unique_strings (path : string) (values : list string) : list Diagnostic :=
  scan (λ index seen value,
    if blank value then
      ([error "F0602" (at_index path index) "capability value cannot be empty"], seen)
    else
      (push_if (negb (is_new value seen))
         (error "F0603" (at_index path index) ("duplicate capability " +:+ debug_str value)),
       seen_insert value seen)) 0 ∅ values.

(** Ports compared up to the order of their names. *)
Definition same_ports (left right : list Port) : bool :=
  bool_decide (sort_on port_name left = sort_on port_name right).

Definition find_port (ports : list Port) (name : string) : option Port :=
  head (filter (λ p, port_name p = name) ports).

(** [port_type]: the diagnostics pushed and the type found. *)
Definition port_type (ports : list Port) (port : option string) (path direction : string) :
    list Diagnostic * option ValueType :=
  match port with
  | None =>
      ([error "F0412" path ("data and feedback endpoints require a " +:+ direction +:+ " port")],
       None)
  | Some port =>
      match find_port ports port with
      | Some p => ([], Some (port_value_type p))
      | None =>
          ([error "F0413" path ("unknown " +:+ direction +:+ " port " +:+ debug_str port)], None)
      end
  end.

Definition require_portless (port : option string) (path : string) : list Diagnostic :=
  push_if (bool_decide (is_Some port))
    (error "F0414" path "dependency and route endpoints cannot name a port").

Section contract_expressions.
Context {V : Type}.

Fixpoint check_contract_expression (path : string) (expression : ContractExpression V) :
    list Diagnostic :=
  let clauses_of (clauses : list (ContractExpression V)) :=
    push_if (bool_decide (length clauses = 0))
      (error "F0103" path "contract conjunctions and disjunctions cannot be empty") ++
    scan_each (λ index clause,
      check_contract_expression (at_index (path +:+ ".clauses") index) clause) clauses in
  match expression with
  | CePredicate name _ =>
      push_if (blank name) (error "F0102" (path +:+ ".name") "predicate name cannot be empty")
  | CeAll clauses => clauses_of clauses
  | CeAny clauses => clauses_of clauses
  | CeNot clause => check_contract_expression (path +:+ ".clause") clause
  end.
End contract_expressions.

Section validator.
Context {V : Type} (flow : Flow V).

(** The index maps [self.nodes] and [self.regions] once filled. *)
Definition nodes_index : gmap string (Node V) := btree_collect node_id id (flow_nodes flow).
Definition regions_index : gmap string (Region V) :=
  btree_collect region_id id (flow_regions flow).

Definition check_schema : list Diagnostic :=
  push_if (negb (bool_decide (flow_schema flow = FLOW_SCHEMA_V0)))
    (error "F0001" "schema"
       ("unsupported schema " +:+ debug_str (flow_schema flow) +:+ "; expected " +:+
        debug_str FLOW_SCHEMA_V0)).

Definition check_interface : list Diagnostic :=
  check_ports "interface.inputs" (interface_inputs (flow_interface flow)) ++
  check_ports "interface.outputs" (interface_outputs (flow_interface flow)).

Definition index_contracts : list Diagnostic :=
  scan (λ index seen contract,
    let path := at_index "contracts" index in
    (check_identifier (path +:+ ".id") (contract_id contract) ++
     push_if (negb (is_new (contract_id contract) seen))
       (error "F0101" (path +:+ ".id")
          ("duplicate contract id " +:+ debug_str (contract_id contract))) ++
     check_contract_expression (path +:+ ".expression") (contract_expression contract),
     seen_insert (contract_id contract) seen)) 0 ∅ (flow_contracts flow).

(** [self.nodes.insert(..).is_some()] holds when the id was seen before. *)
Definition index_nodes : list Diagnostic :=
  scan (λ index seen node,
    let path := at_index "nodes" index +:+ ".id" in
    (check_identifier path (node_id node) ++
     push_if (negb (is_new (node_id node) seen))
       (error "F0201" path ("duplicate node id " +:+ debug_str (node_id node))),
     seen_insert (node_id node) seen)) 0 ∅ (flow_nodes flow).

Definition index_regions : list Diagnostic :=
  scan (λ index seen region,
    let path := at_index "regions" index +:+ ".id" in
    (check_identifier path (region_id region) ++
     push_if (negb (is_new (region_id region) seen))
       (error "F0301" path ("duplicate region id " +:+ debug_str (region_id region))),
     seen_insert (region_id region) seen)) 0 ∅ (flow_regions flow).

Definition check_node_kind (path : string) (node : Node V) : list Diagnostic :=
  match node_kind node with
  | NkInput =>
      push_if (bool_decide (node_inputs node ≠ []))
        (error "F0202" path "input nodes cannot have input ports") ++
      push_if (negb (same_ports (node_outputs node) (interface_inputs (flow_interface flow))))
        (error "F0203" path "input node outputs must match the flow inputs")
  | NkOutput =>
      push_if (bool_decide (node_outputs node ≠ []))
        (error "F0204" path "output nodes cannot have output ports") ++
      push_if (negb (same_ports (node_inputs node) (interface_outputs (flow_interface flow))))
        (error "F0205" path "output node inputs must match the flow outputs")
  | NkTask program =>
      push_if (blank (program_source program))
        (error "F0206" (path +:+ ".program.source") "program source cannot be empty")
  | NkGate contract =>
      push_if (negb (bool_decide (contract ∈ contract_id <$> flow_contracts flow)))
        (error "F0207" (path +:+ ".contract") ("unknown contract " +:+ debug_str contract))
  | NkJoin _ | NkPromote _ | NkDiscard => []
  end.

Definition count_nodes (p : NodeKind → bool) : nat :=
  length (filter (λ n, p (node_kind n) = true) (flow_nodes flow)).

Definition check_nodes : list Diagnostic :=
  scan_each (λ index node,
    let path := at_index "nodes" index in
    check_ports (path +:+ ".inputs") (node_inputs node) ++
    check_ports (path +:+ ".outputs") (node_outputs node) ++
    check_sorted_unique_strings (path +:+ ".capabilities.read")
      (cap_read (node_capabilities node)) ++
    check_sorted_unique_strings (path +:+ ".capabilities.write")
      (cap_write (node_capabilities node)) ++
    check_sorted_unique_strings (path +:+ ".capabilities.execute")
      (cap_execute (node_capabilities node)) ++
    check_sorted_unique_strings (path +:+ ".capabilities.network")
      (cap_network (node_capabilities node)) ++
    check_node_kind path node) (flow_nodes flow) ++
  push_if (negb (bool_decide (count_nodes is_input = 1)))
    (error "F0208" "nodes"
       ("a flow must have exactly one input node; found " +:+ fmt_nat (count_nodes is_input))) ++
  push_if (negb (bool_decide (count_nodes is_output = 1)))
    (error "F0209" "nodes"
       ("a flow must have exactly one output node; found " +:+ fmt_nat (count_nodes is_output))).

Definition check_region_members (path : string) (members : list string) : list Diagnostic :=
  scan (λ member_index seen member,
    (push_if (negb (bool_decide (is_Some (nodes_index !! member))))
       (error "F0303" (at_index (path +:+ ".nodes") member_index)
          ("unknown node " +:+ debug_str member)) ++
     push_if (negb (is_new member seen))
       (error "F0304" (at_index (path +:+ ".nodes") member_index)
          ("duplicate region member " +:+ debug_str member)),
     seen_insert member seen)) 0 ∅ members.

Definition check_loop (path : string) (region : Region V) : list Diagnostic :=
  match region_kind region with
  | RkLoop max_iterations until _ =>
      push_if (bool_decide (max_iterations = 0%N))
        (error "F0305" (path +:+ ".max_iterations") "loop must allow at least one iteration") ++
      match nodes_index !! until_gate until with
      | Some node =>
          if is_gate (node_kind node) then
            push_if (negb (bool_decide (until_gate until ∈ region_nodes region)))
              (error "F0306" (path +:+ ".until.gate")
                 "loop exit gate must be a member of the loop region")
          else [error "F0307" (path +:+ ".until.gate") "loop exit must reference a gate node"]
      | None =>
          [error "F0308" (path +:+ ".until.gate")
             ("unknown gate " +:+ debug_str (until_gate until))]
      end
  | _ => []
  end.

Definition check_regions : list Diagnostic :=
  scan_each (λ index region,
    let path := at_index "regions" index in
    match region_parent region with
    | Some parent =>
        push_if (negb (bool_decide (is_Some (regions_index !! parent))))
          (error "F0302" (path +:+ ".parent") ("unknown parent region " +:+ debug_str parent))
    | None => []
    end ++
    check_region_members path (region_nodes region) ++
    check_loop path region) (flow_regions flow).

Definition check_edge_ports (path : string) (edge : Edge) : list Diagnostic :=
  let from_node := nodes_index !! endpoint_node (edge_from edge) in
  let to_node := nodes_index !! endpoint_node (edge_to edge) in
  match edge_kind edge with
  | EkData | EkFeedback _ _ =>
      let source := match from_node with
        | Some node =>
            port_type (node_outputs node) (endpoint_port (edge_from edge)) (path +:+ ".from") "output"
        | None => ([], None)
        end in
      let destination := match to_node with
        | Some node =>
            port_type (node_inputs node) (endpoint_port (edge_to edge)) (path +:+ ".to") "input"
        | None => ([], None)
        end in
      source.1 ++ destination.1 ++
      match source.2, destination.2 with
      | Some source, Some destination =>
          push_if (negb (bool_decide (source = destination)))
            (error "F0404" path
               ("port type mismatch: " +:+ debug_value_type source +:+ " cannot flow to " +:+
                debug_value_type destination))
      | _, _ => []
      end
  | EkDependency =>
      require_portless (endpoint_port (edge_from edge)) (path +:+ ".from") ++
      require_portless (endpoint_port (edge_to edge)) (path +:+ ".to")
  | EkRoute _ =>
      require_portless (endpoint_port (edge_from edge)) (path +:+ ".from") ++
      require_portless (endpoint_port (edge_to edge)) (path +:+ ".to") ++
      match from_node with
      | Some node =>
          push_if (negb (is_gate (node_kind node)))
            (error "F0405" (path +:+ ".from") "route edges must originate at a gate node")
      | None => []
      end
  end.

Definition check_feedback (path : string) (edge : Edge) : list Diagnostic :=
  match edge_kind edge with
  | EkFeedback loop_region state =>
      push_if (blank state)
        (error "F0406" (path +:+ ".state") "feedback state name cannot be empty") ++
      match regions_index !! loop_region with
      | Some region =>
          if is_loop (region_kind region) then
            push_if (negb (bool_decide (endpoint_node (edge_from edge) ∈ region_nodes region))
                     || negb (bool_decide (endpoint_node (edge_to edge) ∈ region_nodes region)))
              (error "F0407" path "feedback endpoints must both belong to its loop region")
          else [error "F0408" (path +:+ ".loop_region") "feedback must reference a loop region"]
      | None =>
          [error "F0409" (path +:+ ".loop_region")
             ("unknown loop region " +:+ debug_str loop_region)]
      end
  | _ => []
  end.

Definition check_edges : list Diagnostic :=
  scan (λ index edge_ids edge,
    let path := at_index "edges" index in
    (check_identifier (path +:+ ".id") (edge_id edge) ++
     push_if (negb (is_new (edge_id edge) edge_ids))
       (error "F0401" (path +:+ ".id") ("duplicate edge id " +:+ debug_str (edge_id edge))) ++
     push_if (negb (bool_decide (is_Some (nodes_index !! endpoint_node (edge_from edge)))))
       (error "F0402" (path +:+ ".from.node")
          ("unknown node " +:+ debug_str (endpoint_node (edge_from edge)))) ++
     push_if (negb (bool_decide (is_Some (nodes_index !! endpoint_node (edge_to edge)))))
       (error "F0403" (path +:+ ".to.node")
          ("unknown node " +:+ debug_str (endpoint_node (edge_to edge)))) ++
     check_edge_ports path edge ++
     check_feedback path edge,
     seen_insert (edge_id edge) edge_ids)) 0 ∅ (flow_edges flow).

(** [incoming]: for each input port, how many data edges and how many
    feedback edges end there. *)
Definition count_incoming (m : gmap (string * string) (nat * nat)) (edge : Edge) :
    gmap (string * string) (nat * nat) :=
  match edge_kind edge, endpoint_port (edge_to edge) with
  | EkData, Some port =>
      let counts := default (0, 0) (m !! (endpoint_node (edge_to edge), port)) in
      <[(endpoint_node (edge_to edge), port) := (S counts.1, counts.2)]> m
  | EkFeedback _ _, Some port =>
      let counts := default (0, 0) (m !! (endpoint_node (edge_to edge), port)) in
      <[(endpoint_node (edge_to edge), port) := (counts.1, S counts.2)]> m
  | _, _ => m
  end.

Definition incoming : gmap (string * string) (nat * nat) :=
  foldl count_incoming ∅ (flow_edges flow).

Definition check_required_inputs : list Diagnostic :=
  scan_each (λ node_index node,
    scan_each (λ port_index port,
      let counts := default (0, 0) (incoming !! (node_id node, port_name port)) in
      let ordinary := counts.1 in
      let feedback := counts.2 in
      let path := at_index (at_index "nodes" node_index +:+ ".inputs") port_index in
      if negb (port_optional port) && bool_decide (ordinary + feedback = 0) then
        [error "F0410" path "required input port has no incoming data edge"]
      else if bool_decide (1 < ordinary) || bool_decide (1 < feedback)
              || (bool_decide (0 < feedback) && negb (bool_decide (ordinary = 1))) then
        [error "F0411" path
           "input ports accept one producer, or one initial producer plus one loop feedback producer"]
      else []) (node_inputs node)) (flow_nodes flow).

(** [self.regions.get(id).and_then(|item| item.parent)]. *)
Definition region_parent_of (id : string) : option string :=
  regions_index !! id ≫= region_parent.

Definition check_region_parent_cycles : list Diagnostic :=
  scan_each (λ _ region,
    push_if (walk_cycle region_parent_of (S (length (flow_regions flow))) ∅ (Some (region_id region)))
      (error "F0310" ("regions." +:+ region_id region +:+ ".parent")
         "region parent relationship contains a cycle")) (flow_regions flow).

(** The edges the execution-cycle check follows. *)
Definition execution_edges : list (string * string) :=
  (λ e, (endpoint_node (edge_from e), endpoint_node (edge_to e))) <$>
    filter (λ e, is_feedback (edge_kind e) = false ∧
                 is_Some (nodes_index !! endpoint_node (edge_from e)) ∧
                 is_Some (nodes_index !! endpoint_node (edge_to e))) (flow_edges flow).

(** [None] stands for the panic of [expect("indexed successor")]. *)
Definition check_execution_cycles : option (list Diagnostic) :=
  let node_ids := btree_keys nodes_index in
  let t := tables node_ids execution_edges in
  visited ← kahn (S (length node_ids)) (outgoing t) (degree t)
              {| deque := zero_degree (degree t) |} [];
  Some (push_if (negb (bool_decide (length visited = length node_ids)))
    (error "F0501" "edges"
       "ordinary data, dependency, and route edges must form a DAG; use bounded loop feedback edges for cycles")).

Definition run : option (list Diagnostic) :=
  cycles ← check_execution_cycles;
  Some (check_schema ++ check_identifier "name" (flow_name flow) ++ check_interface ++
        index_contracts ++ index_nodes ++ index_regions ++ check_nodes ++ check_regions ++
        check_edges ++ check_required_inputs ++ check_region_parent_cycles ++ cycles).

Definition validate : Outcome (list Diagnostic) () :=
  match run with
  | None => Panic
  | Some [] => Done ()
  | Some diagnostics => Fail diagnostics
  end.
End validator.
