(* ===== verification/FlowSpec.v ===== *)
(** What the flow validator accepts: a declarative specification
    [WellFormed], written without the validator's maps, counters and loops,
    and the proof that [validate] accepts exactly the well-formed flows and
    never panics. *)
From stdpp Require Import relations sorting.
From S2P Require Import Prelude Graph FlowModel FlowValidate.

(** * The specification *)

Definition Identifier (s : string) : Prop := valid_identifier s = true.

Record PortsOk (ports : list Port) : Prop := {
  ports_identifiers : Forall (λ p, Identifier (port_name p)) ports;
  ports_distinct : NoDup (port_name <$> ports);
}.

Record NamesOk (names : list string) : Prop := {
  names_not_blank : Forall (λ s, blank s = false) names;
  names_distinct : NoDup names;
}.

Section spec.
Context {V : Type}.
Implicit Types (flow : Flow V) (node : Node V) (region : Region V) (edge : Edge).

Inductive ContractOk : ContractExpression V → Prop :=
| ok_predicate name arguments : blank name = false → ContractOk (CePredicate name arguments)
| ok_all clauses : clauses ≠ [] → Forall ContractOk clauses → ContractOk (CeAll clauses)
| ok_any clauses : clauses ≠ [] → Forall ContractOk clauses → ContractOk (CeAny clauses)
| ok_not clause : ContractOk clause → ContractOk (CeNot clause).

(** The node, or region, a name refers to. *)
Definition NodeNamed flow (name : string) node : Prop :=
  node ∈ flow_nodes flow ∧ node_id node = name.
Definition RegionNamed flow (name : string) region : Prop :=
  region ∈ flow_regions flow ∧ region_id region = name.

Definition KindOk flow node : Prop :=
  match node_kind node with
  | NkInput =>
      node_inputs node = [] ∧ node_outputs node ≡ₚ interface_inputs (flow_interface flow)
  | NkOutput =>
      node_outputs node = [] ∧ node_inputs node ≡ₚ interface_outputs (flow_interface flow)
  | NkTask program => blank (program_source program) = false
  | NkGate contract => ∃ c, c ∈ flow_contracts flow ∧ contract_id c = contract
  | NkJoin _ | NkPromote _ | NkDiscard => True
  end.

Record NodeOk flow node : Prop := {
  node_identifier : Identifier (node_id node);
  node_inputs_ok : PortsOk (node_inputs node);
  node_outputs_ok : PortsOk (node_outputs node);
  node_read_ok : NamesOk (cap_read (node_capabilities node));
  node_write_ok : NamesOk (cap_write (node_capabilities node));
  node_execute_ok : NamesOk (cap_execute (node_capabilities node));
  node_network_ok : NamesOk (cap_network (node_capabilities node));
  node_kind_ok : KindOk flow node;
}.

Record RegionOk flow region : Prop := {
  region_identifier : Identifier (region_id region);
  region_parent_ok : ∀ parent, region_parent region = Some parent →
    ∃ r, RegionNamed flow parent r;
  region_members_ok : Forall (λ m, ∃ n, NodeNamed flow m n) (region_nodes region);
  region_members_distinct : NoDup (region_nodes region);
  region_loop_ok : ∀ max until policy, region_kind region = RkLoop max until policy →
    max ≠ 0%N ∧ until_gate until ∈ region_nodes region ∧
    ∃ n, NodeNamed flow (until_gate until) n ∧ is_gate (node_kind n) = true;
}.

(** A value edge joins an output port to an input port of the same type; the
    other edges join nodes, and a route leaves a gate. *)
Definition ends_ok edge source destination : Prop :=
  match edge_kind edge with
  | EkData | EkFeedback _ _ =>
      ∃ p q, p ∈ node_outputs source ∧ endpoint_port (edge_from edge) = Some (port_name p) ∧
             q ∈ @node_inputs V destination ∧ endpoint_port (edge_to edge) = Some (port_name q) ∧
             port_value_type p = port_value_type q
  | EkDependency =>
      endpoint_port (edge_from edge) = None ∧ endpoint_port (edge_to edge) = None
  | EkRoute _ =>
      endpoint_port (edge_from edge) = None ∧ endpoint_port (edge_to edge) = None ∧
      is_gate (@node_kind V source) = true
  end.

Definition EndsOk flow edge : Prop :=
  ∃ source destination,
    NodeNamed flow (endpoint_node (edge_from edge)) source ∧
    NodeNamed flow (endpoint_node (edge_to edge)) destination ∧
    ends_ok edge source destination.

Record EdgeOk flow edge : Prop := {
  edge_identifier : Identifier (edge_id edge);
  edge_ends_ok : EndsOk flow edge;
  edge_feedback_ok : ∀ loop_region state, edge_kind edge = EkFeedback loop_region state →
    blank state = false ∧
    ∃ region, RegionNamed flow loop_region region ∧ is_loop (region_kind region) = true ∧
      endpoint_node (edge_from edge) ∈ region_nodes region ∧
      endpoint_node (edge_to edge) ∈ region_nodes region;
}.

(** The number of edges of a kind into an input port. *)
Definition producers flow (kind : EdgeKind → bool) (node port : string) : nat :=
  length (filter (λ e, kind (edge_kind e) = true ∧ edge_to e = {| endpoint_node := node;
                                             endpoint_port := Some port |}) (flow_edges flow)).

Definition InputOk flow node (port : Port) : Prop :=
  let ordinary := producers flow is_data (node_id node) (port_name port) in
  let feedback := producers flow is_feedback (node_id node) (port_name port) in
  (port_optional port = true ∨ 0 < ordinary + feedback) ∧
  ordinary ≤ 1 ∧ feedback ≤ 1 ∧ (0 < feedback → ordinary = 1).

(** [x] is lexically inside [y]. *)
Definition region_step flow (x y : string) : Prop :=
  ∃ region, RegionNamed flow x region ∧ region_parent region = Some y.

(** [y] waits for [x]: any edge but a feedback edge. *)
Definition execution_step flow (x y : string) : Prop :=
  ∃ edge, edge ∈ flow_edges flow ∧ is_feedback (edge_kind edge) = false ∧
    endpoint_node (edge_from edge) = x ∧ endpoint_node (edge_to edge) = y.

Record WellFormed flow : Prop := {
  wf_schema : flow_schema flow = FLOW_SCHEMA_V0;
  wf_name : Identifier (flow_name flow);
  wf_interface_inputs : PortsOk (interface_inputs (flow_interface flow));
  wf_interface_outputs : PortsOk (interface_outputs (flow_interface flow));
  wf_contracts : Forall (λ c, Identifier (contract_id c) ∧ ContractOk (contract_expression c))
    (flow_contracts flow);
  wf_contracts_distinct : NoDup (contract_id <$> flow_contracts flow);
  wf_nodes : Forall (NodeOk flow) (flow_nodes flow);
  wf_nodes_distinct : NoDup (node_id <$> flow_nodes flow);
  wf_one_input : length (filter (λ n, is_input (node_kind n) = true) (flow_nodes flow)) = 1;
  wf_one_output : length (filter (λ n, is_output (node_kind n) = true) (flow_nodes flow)) = 1;
  wf_regions : Forall (RegionOk flow) (flow_regions flow);
  wf_regions_distinct : NoDup (region_id <$> flow_regions flow);
  wf_edges : Forall (EdgeOk flow) (flow_edges flow);
  wf_edges_distinct : NoDup (edge_id <$> flow_edges flow);
  wf_inputs : Forall (λ n, Forall (InputOk flow n) (node_inputs n)) (flow_nodes flow);
  wf_regions_acyclic : acyclic (region_step flow);
  wf_execution_acyclic : acyclic (execution_step flow);
}.
End spec.

(** * Each check against its clause *)

Lemma is_new_true x seen : is_new x seen = true ↔ x ∉ seen.
Proof. apply bool_decide_eq_true. Qed.

Lemma check_identifier_nil path value : check_identifier path value = [] ↔ Identifier value.
Proof. apply push_if_negb_nil. Qed.

#[export] Hint Rewrite check_identifier_nil is_new_true : diag.
Ltac diag := autorewrite with diag.

Lemma check_ports_nil path ports : check_ports path ports = [] ↔ PortsOk ports.
Proof.
  unfold check_ports.
  rewrite (scan_unique _ port_name (λ p, Identifier (port_name p))); [|intros; simpl; by diag|done].
  split; [by intros [??]|by intros []].
Qed.

Lemma check_names_nil path names : check_sorted_unique_strings path names = [] ↔ NamesOk names.
Proof.
  unfold check_sorted_unique_strings.
  rewrite (scan_unique _ id (λ s, blank s = false)).
  - rewrite list_fmap_id. split; [by intros [??]|by intros []].
  - intros i seen x. unfold id. destruct (blank x); simpl; diag; [|tauto].
    split; [done|by intros [? _]].
  - intros i seen x ->. done.
Qed.

Lemma same_ports_spec left right :
  NoDup (port_name <$> right) → same_ports left right = true ↔ left ≡ₚ right.
Proof.
  intros Hnd. unfold same_ports. rewrite bool_decide_eq_true. split.
  - intros Hs. trans (sort_on port_name left); [symmetry; apply sort_on_Permutation|].
    rewrite Hs. apply sort_on_Permutation.
  - intros Hp. symmetry. by apply sort_on_perm.
Qed.

Lemma port_type_nil ports port path direction :
  (∃ t, port_type ports port path direction = ([], Some t)) ∨
  ((port_type ports port path direction).1 ≠ [] ∧ (port_type ports port path direction).2 = None).
Proof.
  unfold port_type. destruct port as [name|]; [|by right].
  destruct (find_port ports name); [left; by eexists|by right].
Qed.

Lemma find_port_Some ports name p :
  NoDup (port_name <$> ports) → find_port ports name = Some p ↔ p ∈ ports ∧ port_name p = name.
Proof.
  intros Hnd. unfold find_port. split.
  - intros Hh. assert (p ∈ filter (λ p, port_name p = name) ports) as Hin.
    { destruct (filter _ ports); simplify_eq/=. by left. }
    by apply list_elem_of_filter in Hin as [? ?].
  - intros [Hin <-]. destruct (filter (λ p', port_name p' = port_name p) ports) as [|q l] eqn:Hf.
    + exfalso. apply (not_elem_of_nil p). rewrite <-Hf. by apply list_elem_of_filter.
    + simpl. f_equal. assert (q ∈ filter (λ p', port_name p' = port_name p) ports) as Hq.
      { rewrite Hf. by left. }
      apply list_elem_of_filter in Hq as [Hq Hqin]. by apply (NoDup_key_inj port_name ports).
Qed.

Lemma port_type_Some ports port path direction t :
  NoDup (port_name <$> ports) →
  port_type ports port path direction = ([], Some t) ↔
    ∃ p, p ∈ ports ∧ port = Some (port_name p) ∧ port_value_type p = t.
Proof.
  intros Hnd. unfold port_type. destruct port as [name|]; [|naive_solver].
  destruct (find_port ports name) as [p|] eqn:Hp.
  - apply find_port_Some in Hp as [Hin <-]; [|done]. split.
    + intros [= <-]. by exists p.
    + intros (q & Hq & Heq & <-). simplify_eq. repeat f_equal.
      by apply (NoDup_key_inj port_name ports).
  - split; [done|]. intros (q & Hq & Heq & _). simplify_eq.
    assert (find_port ports (port_name q) = Some q) by (by apply find_port_Some). congruence.
Qed.

Section checks.
Context {V : Type} (flow : Flow V).

Lemma check_contract_expression_nil path (e : ContractExpression V) :
  check_contract_expression path e = [] ↔ ContractOk e.
Proof.
  revert path; induction e as [name arguments|clauses IH|clauses IH|clause IH]
    using ContractExpression_nested_ind; intros path; simpl.
  - diag. split; [by constructor|by inversion 1].
  - diag. rewrite (scan_each_nil _ ContractOk), length_zero_iff_nil.
    2:{ intros i x Hx. rewrite Forall_forall in IH. by apply IH. }
    split; [intros [??]; by constructor|by inversion 1].
  - diag. rewrite (scan_each_nil _ ContractOk), length_zero_iff_nil.
    2:{ intros i x Hx. rewrite Forall_forall in IH. by apply IH. }
    split; [intros [??]; by constructor|by inversion 1].
  - rewrite IH. split; [by constructor|by inversion 1].
Qed.

Lemma index_contracts_nil :
  index_contracts flow = [] ↔
    Forall (λ c, Identifier (contract_id c) ∧ ContractOk (contract_expression c))
      (flow_contracts flow) ∧ NoDup (contract_id <$> flow_contracts flow).
Proof.
  unfold index_contracts. apply scan_unique; [|done]. intros i seen c; simpl. diag.
  rewrite check_contract_expression_nil. tauto.
Qed.

Lemma index_nodes_nil :
  index_nodes flow = [] ↔
    Forall (λ n, Identifier (node_id n)) (flow_nodes flow) ∧ NoDup (node_id <$> flow_nodes flow).
Proof. unfold index_nodes. apply scan_unique; [|done]. intros i seen n; simpl. by diag. Qed.

Lemma index_regions_nil :
  index_regions flow = [] ↔
    Forall (λ r, Identifier (region_id r)) (flow_regions flow) ∧
    NoDup (region_id <$> flow_regions flow).
Proof. unfold index_regions. apply scan_unique; [|done]. intros i seen r; simpl. by diag. Qed.

Lemma nodes_index_is_Some name :
  is_Some (nodes_index flow !! name) ↔ ∃ n, NodeNamed flow name n.
Proof.
  unfold nodes_index. rewrite btree_collect_is_Some, list_elem_of_fmap. unfold NodeNamed. naive_solver.
Qed.

Lemma regions_index_is_Some name :
  is_Some (regions_index flow !! name) ↔ ∃ r, RegionNamed flow name r.
Proof.
  unfold regions_index. rewrite btree_collect_is_Some, list_elem_of_fmap.
  unfold RegionNamed. naive_solver.
Qed.

(** From here on the ids are distinct, so a name refers to one node. *)
Context (Hnodes : NoDup (node_id <$> flow_nodes flow)).
Context (Hregions : NoDup (region_id <$> flow_regions flow)).

Lemma nodes_index_Some name n : nodes_index flow !! name = Some n ↔ NodeNamed flow name n.
Proof.
  unfold nodes_index, NodeNamed. rewrite btree_collect_lookup by done. unfold id. naive_solver.
Qed.

Lemma regions_index_Some name r : regions_index flow !! name = Some r ↔ RegionNamed flow name r.
Proof.
  unfold regions_index, RegionNamed. rewrite btree_collect_lookup by done. unfold id. naive_solver.
Qed.

Lemma NodeNamed_inj name n n' : NodeNamed flow name n → NodeNamed flow name n' → n = n'.
Proof. rewrite <-!nodes_index_Some. congruence. Qed.

Lemma RegionNamed_inj name r r' : RegionNamed flow name r → RegionNamed flow name r' → r = r'.
Proof. rewrite <-!regions_index_Some. congruence. Qed.

Lemma check_node_kind_nil path n :
  NoDup (port_name <$> interface_inputs (flow_interface flow)) →
  NoDup (port_name <$> interface_outputs (flow_interface flow)) →
  check_node_kind flow path n = [] ↔ KindOk flow n.
Proof.
  intros Hin Hout. unfold check_node_kind, KindOk.
  destruct (node_kind n); diag; rewrite ?same_ports_spec by done; try done.
  - split; intros [H ?]; (split; [|done]); destruct (decide (node_inputs n = [])); naive_solver.
  - split; intros [H ?]; (split; [|done]); destruct (decide (node_outputs n = [])); naive_solver.
  - rewrite list_elem_of_fmap. naive_solver.
Qed.

Lemma check_nodes_nil :
  NoDup (port_name <$> interface_inputs (flow_interface flow)) →
  NoDup (port_name <$> interface_outputs (flow_interface flow)) →
  Forall (λ n, Identifier (node_id n)) (flow_nodes flow) →
  check_nodes flow = [] ↔
    Forall (NodeOk flow) (flow_nodes flow) ∧
    length (filter (λ n, is_input (node_kind n) = true) (flow_nodes flow)) = 1 ∧
    length (filter (λ n, is_output (node_kind n) = true) (flow_nodes flow)) = 1.
Proof.
  intros Hin Hout Hids. rewrite Forall_forall in Hids.
  unfold check_nodes, count_nodes. diag. rewrite (scan_each_nil _ (NodeOk flow)); [done|].
  intros i n Hn. diag.
  rewrite !check_ports_nil, !check_names_nil, check_node_kind_nil by done.
  split; [intros (?&?&?&?&?&?&?); split; auto|intros []; auto 10].
Qed.

Lemma check_region_members_nil path members :
  check_region_members flow path members = [] ↔
    Forall (λ m, ∃ n, NodeNamed flow m n) members ∧ NoDup members.
Proof.
  unfold check_region_members. rewrite (scan_unique _ id (λ m, ∃ n, NodeNamed flow m n)), list_fmap_id;
    [done| |done].
  intros i seen m; simpl. diag. by rewrite nodes_index_is_Some.
Qed.

Lemma check_loop_nil path r :
  check_loop flow path r = [] ↔ ∀ max until policy, region_kind r = RkLoop max until policy →
    max ≠ 0%N ∧ until_gate until ∈ region_nodes r ∧
    ∃ n, NodeNamed flow (until_gate until) n ∧ is_gate (node_kind n) = true.
Proof.
  unfold check_loop. destruct (region_kind r) as [| | |max until policy]; [naive_solver..|]. diag.
  destruct (nodes_index flow !! until_gate until) as [n|] eqn:Hn.
  - apply nodes_index_Some in Hn. destruct (is_gate (node_kind n)) eqn:Hg.
    + diag. split; [intros [??] max' until' policy' ?; simplify_eq; eauto|].
      intros Hl. destruct (Hl _ _ _ eq_refl) as (? & ? & _). done.
    + split; [naive_solver|]. intros Hl. destruct (Hl _ _ _ eq_refl) as (_ & _ & n' & Hn' & ?).
      rewrite (NodeNamed_inj _ _ _ Hn Hn') in Hg. congruence.
  - split; [naive_solver|]. intros Hl. destruct (Hl _ _ _ eq_refl) as (_ & _ & n' & Hn' & _).
    apply nodes_index_Some in Hn'. congruence.
Qed.

Lemma check_regions_nil :
  Forall (λ r, Identifier (region_id r)) (flow_regions flow) →
  check_regions flow = [] ↔ Forall (RegionOk flow) (flow_regions flow).
Proof.
  intros Hids. rewrite Forall_forall in Hids. apply scan_each_nil.
  intros i r Hr; simpl. diag. rewrite check_region_members_nil, check_loop_nil.
  assert ((match region_parent r with
    | Some parent => push_if (negb (bool_decide (is_Some (regions_index flow !! parent))))
        (error "F0302" (at_index "regions" i +:+ ".parent") ("unknown parent region " +:+ debug_str parent))
    | None => []
    end = []) ↔ ∀ parent, region_parent r = Some parent → ∃ r', RegionNamed flow parent r') as ->.
  { destruct (region_parent r) as [parent|]; [|naive_solver].
    diag. rewrite regions_index_is_Some. naive_solver. }
  split; [intros (? & [? ?] & ?); split; auto|by intros []].
Qed.
End checks.

Section edge_checks.
Context {V : Type} (flow : Flow V).
Context (Hnodes : NoDup (node_id <$> flow_nodes flow)).
Context (Hregions : NoDup (region_id <$> flow_regions flow)).
Context (Hok : Forall (NodeOk flow) (flow_nodes flow)).

Lemma NodeNamed_ok name n : NodeNamed flow name n → NodeOk flow n.
Proof. intros [Hn _]. rewrite Forall_forall in Hok. by apply Hok. Qed.

Lemma value_ports_nil (source destination : Node V) from to path1 path2 (d : ValueType → ValueType → Diagnostic) :
  NoDup (port_name <$> node_outputs source) → NoDup (port_name <$> node_inputs destination) →
  let s := port_type (node_outputs source) from path1 "output" in
  let t := port_type (node_inputs destination) to path2 "input" in
  s.1 ++ t.1 ++ match s.2, t.2 with
                | Some s, Some t => push_if (negb (bool_decide (s = t))) (d s t)
                | _, _ => []
                end = [] ↔
  ∃ p q : Port, p ∈ node_outputs source ∧ from = Some (port_name p) ∧
    q ∈ node_inputs destination ∧ to = Some (port_name q) ∧
    port_value_type p = port_value_type q.
Proof.
  intros Hs Ht; simpl.
  destruct (port_type_nil (node_outputs source) from path1 "output") as [[t1 H1]|[H1 H1']];
    [|split; [by intros [? _]%app_nil_iff|]].
  2:{ intros (p & q & Hp & -> & _). exfalso. apply H1.
      assert (port_type (node_outputs source) (Some (port_name p)) path1 "output" =
        ([], Some (port_value_type p))) as ->; [|done]. apply port_type_Some; eauto. }
  destruct (port_type_nil (node_inputs destination) to path2 "input") as [[t2 H2]|[H2 H2']];
    [|split; [by intros [_ [? _]%app_nil_iff]%app_nil_iff|]].
  2:{ intros (p & q & _ & _ & Hq & -> & _). exfalso. apply H2.
      assert (port_type (node_inputs destination) (Some (port_name q)) path2 "input" =
        ([], Some (port_value_type q))) as ->; [|done]. apply port_type_Some; eauto. }
  rewrite H1, H2; simpl. diag.
  apply port_type_Some in H1 as (p & Hp & -> & <-); [|done].
  apply port_type_Some in H2 as (q & Hq & -> & <-); [|done]. split.
  - intros Heq. exists p, q. auto.
  - intros (p' & q' & Hp' & Heqp & Hq' & Heqq & Ht'). simplify_eq.
    rewrite (NoDup_key_inj port_name (node_outputs source) p p') by done.
    by rewrite (NoDup_key_inj port_name (node_inputs destination) q q').
Qed.

Lemma check_edge_ports_known path edge s t :
  NodeNamed flow (endpoint_node (edge_from edge)) s →
  NodeNamed flow (endpoint_node (edge_to edge)) t →
  check_edge_ports flow path edge = [] ↔ ends_ok edge s t.
Proof.
  intros Hs Ht.
  pose proof (ports_distinct _ (node_outputs_ok _ _ (NodeNamed_ok _ _ Hs))) as Hds.
  pose proof (ports_distinct _ (node_inputs_ok _ _ (NodeNamed_ok _ _ Ht))) as Hdt.
  apply nodes_index_Some in Hs, Ht; [|done..].
  unfold check_edge_ports, ends_ok, require_portless. rewrite Hs, Ht.
  destruct (edge_kind edge); [by apply value_ports_nil| | |by apply value_ports_nil];
    diag; by rewrite <-!eq_None_not_Some.
Qed.

Lemma check_edge_ports_nil path edge :
  is_Some (nodes_index flow !! endpoint_node (edge_from edge)) ∧
  is_Some (nodes_index flow !! endpoint_node (edge_to edge)) ∧
  check_edge_ports flow path edge = [] ↔ EndsOk flow edge.
Proof.
  unfold EndsOk. rewrite !nodes_index_is_Some. split.
  - intros ([s Hs] & [t Ht] & Hc). exists s, t. split; [done|]. split; [done|].
    by apply (check_edge_ports_known path).
  - intros (s & t & Hs & Ht & Hc). split; [by exists s|]. split; [by exists t|].
    by apply (check_edge_ports_known path edge s t).
Qed.

Lemma check_feedback_nil path edge :
  check_feedback flow path edge = [] ↔
  ∀ loop_region state, edge_kind edge = EkFeedback loop_region state →
    blank state = false ∧
    ∃ region, RegionNamed flow loop_region region ∧ is_loop (region_kind region) = true ∧
      endpoint_node (edge_from edge) ∈ region_nodes region ∧
      endpoint_node (edge_to edge) ∈ region_nodes region.
Proof.
  unfold check_feedback. destruct (edge_kind edge) as [| | |region_name state]; [naive_solver..|].
  diag. destruct (regions_index flow !! region_name) as [r|] eqn:Hr.
  - apply regions_index_Some in Hr; [|done]. destruct (is_loop (region_kind r)) eqn:Hl.
    + rewrite push_if_nil, orb_false_iff. diag.
      split; [intros [? [??]] ?? [= <- <-]; eauto 10|]. intros Hf.
      destruct (Hf _ _ eq_refl) as (? & r' & Hr' & _ & ? & ?).
      by rewrite (RegionNamed_inj flow Hregions _ _ _ Hr Hr').
    + split; [naive_solver|]. intros Hf. destruct (Hf _ _ eq_refl) as (_ & r' & Hr' & ? & _).
      rewrite (RegionNamed_inj flow Hregions _ _ _ Hr Hr') in Hl. congruence.
  - split; [naive_solver|]. intros Hf. destruct (Hf _ _ eq_refl) as (_ & r' & Hr' & _).
    apply (regions_index_Some flow Hregions) in Hr'. congruence.
Qed.

Lemma check_edges_nil :
  check_edges flow = [] ↔
    Forall (EdgeOk flow) (flow_edges flow) ∧ NoDup (edge_id <$> flow_edges flow).
Proof.
  unfold check_edges. apply scan_unique; [|done]. intros i seen e; simpl. diag.
  pose proof (check_edge_ports_nil (at_index "edges" i) e) as He. rewrite check_feedback_nil.
  split; [intros (?&?&?&?&?&?); split; [split; tauto|done]|intros [[] ?]; tauto].
Qed.

(** ** Required inputs *)

Lemma foldl_count_incoming edges m node port :
  default (0, 0) (foldl count_incoming m edges !! (node, port)) =
    (length (filter (λ e, is_data (edge_kind e) = true ∧
       edge_to e = {| endpoint_node := node; endpoint_port := Some port |}) edges) +
     (default (0, 0) (m !! (node, port))).1,
     length (filter (λ e, is_feedback (edge_kind e) = true ∧
       edge_to e = {| endpoint_node := node; endpoint_port := Some port |}) edges) +
     (default (0, 0) (m !! (node, port))).2).
Proof.
  revert m; induction edges as [|[eid from [n p] k] edges IH]; intros m; simpl.
  { by destruct (default _ _). }
  rewrite IH, !filter_cons; simpl. clear IH. unfold count_incoming; simpl.
  destruct k, p as [p|]; simpl; repeat case_decide; destruct_and?; simplify_eq/=; try tauto;
    rewrite ?lookup_insert_eq; simpl; f_equal; try lia;
    (destruct (decide ((n, p) = (node, port))); [simplify_eq; tauto|by rewrite lookup_insert_ne]).
Qed.

Lemma incoming_spec node port :
  default (0, 0) (incoming flow !! (node, port)) =
    (producers flow is_data node port, producers flow is_feedback node port).
Proof.
  unfold incoming. rewrite foldl_count_incoming, lookup_empty; simpl. by rewrite !Nat.add_0_r.
Qed.

Lemma check_required_inputs_nil :
  check_required_inputs flow = [] ↔
    Forall (λ n, Forall (InputOk flow n) (node_inputs n)) (flow_nodes flow).
Proof.
  apply scan_each_nil. intros i n _. apply scan_each_nil. intros j p _.
  rewrite incoming_spec; simpl. unfold InputOk.
  set (o := producers flow is_data _ _). set (f := producers flow is_feedback _ _).
  destruct (negb (port_optional p) && bool_decide (o + f = 0)) eqn:Hreq.
  { apply andb_true_iff in Hreq as [Hopt Hz]. apply negb_true_iff in Hopt.
    apply bool_decide_eq_true in Hz. split; [done|]. intros [[?|?] _]; [congruence|lia]. }
  destruct (bool_decide (1 < o) || bool_decide (1 < f) || bool_decide (0 < f) && negb (bool_decide (o = 1)))
    eqn:Hb.
  - split; [done|]. intros (_ & Ho & Hf & Hof). revert Hb.
    repeat case_bool_decide; simpl; try lia; naive_solver lia.
  - split; [|done]. intros _. revert Hb. revert Hreq.
    repeat case_bool_decide; destruct (port_optional p); simpl; intros; try done;
      (split; [try (by left); right; lia|lia]).
Qed.

(** ** Cycles *)

Lemma region_parent_of_step x y : parent_of (region_parent_of flow) x y ↔ region_step flow x y.
Proof.
  unfold parent_of, region_parent_of, region_step. rewrite bind_Some.
  split; intros (r & Hr & ?); exists r; (split; [|done]); by apply (regions_index_Some flow Hregions).
Qed.

Lemma region_parent_dom x y :
  region_parent_of flow x = Some y → x ∈ region_id <$> flow_regions flow.
Proof.
  unfold region_parent_of. rewrite bind_Some. intros (r & Hr & _).
  by eapply btree_collect_is_Some.
Qed.
End edge_checks.

Lemma acyclic_ext {A} (R S : relation A) : (∀ x y, R x y ↔ S x y) → acyclic R ↔ acyclic S.
Proof.
  intros HRS. unfold acyclic. split; intros Hac x Hx; apply (Hac x);
    (eapply tc_congruence with (f := id); [|exact Hx]); intros ??; by apply HRS.
Qed.

Section run.
Context {V : Type} (flow : Flow V).

Lemma check_region_parent_cycles_nil :
  NoDup (region_id <$> flow_regions flow) →
  check_region_parent_cycles flow = [] ↔ acyclic (region_step flow).
Proof.
  intros Hnd. rewrite <-(acyclic_ext _ _ (region_parent_of_step flow Hnd)).
  rewrite <-(walk_cycle_acyclic (region_parent_of flow) (region_id <$> flow_regions flow)
    (region_parent_dom flow) (S (length (flow_regions flow)))) by (rewrite length_fmap; lia).
  unfold check_region_parent_cycles.
  rewrite (scan_each_nil _ (λ r, walk_cycle (region_parent_of flow) (S (length (flow_regions flow)))
    ∅ (Some (region_id r)) = false)) by (intros; apply push_if_nil).
  rewrite Forall_forall. split.
  - intros Hr x Hx. apply list_elem_of_fmap in Hx as (r & -> & Hr'). by apply Hr.
  - intros Hr r Hr'. apply Hr, list_elem_of_fmap. eauto.
Qed.

Lemma elem_of_execution_edges u v :
  edge (execution_edges flow) u v ↔
    execution_step flow u v ∧ (∃ n, NodeNamed flow u n) ∧ (∃ n, NodeNamed flow v n).
Proof.
  unfold edge, execution_edges, execution_step. rewrite <-!nodes_index_is_Some, list_elem_of_fmap.
  setoid_rewrite list_elem_of_filter. naive_solver.
Qed.

(** Kahn's loop on the flow's graph: no panic, and an error exactly for a
    cycle. *)
Lemma check_execution_cycles_nil :
  ∃ ds, check_execution_cycles flow = Some ds ∧
    (ds = [] ↔ acyclic (edge (execution_edges flow))).
Proof.
  unfold check_execution_cycles.
  destruct (kahn_spec (Q:=VecDeque) (btree_keys (nodes_index flow)) (execution_edges flow)) with
    (q := {| deque := zero_degree (degree (tables (btree_keys (nodes_index flow))
             (execution_edges flow))) |})
    (out := outgoing (tables (btree_keys (nodes_index flow)) (execution_edges flow)))
    as (order & -> & _ & _ & _ & Hac).
  - intros u v [_ ?]%elem_of_execution_edges. by rewrite !elem_of_btree_keys, !nodes_index_is_Some.
  - apply btree_keys_NoDup.
  - intros u. by rewrite tables_outgoing.
  - done.
  - simpl. eexists. split; [done|]. by rewrite push_if_negb_decide_nil.
Qed.

Lemma run_total : is_Some (run flow).
Proof. unfold run. destruct check_execution_cycles_nil as (ds & -> & _). by eexists. Qed.

Lemma execution_edges_step :
  Forall (EdgeOk flow) (flow_edges flow) →
  acyclic (edge (execution_edges flow)) ↔ acyclic (execution_step flow).
Proof.
  intros Hok. apply acyclic_ext. intros x y. rewrite elem_of_execution_edges.
  split; [by intros [? _]|]. intros Hs. split; [done|].
  destruct Hs as (e & He & _ & <- & <-). rewrite Forall_forall in Hok.
  destruct (Hok e He) as [_ (s & t & ? & ? & _) _]. eauto.
Qed.

Lemma run_nil : run flow = Some [] ↔ WellFormed flow.
Proof.
  unfold run. destruct check_execution_cycles_nil as (ds & -> & Hds); simpl.
  assert (∀ ds' : list Diagnostic, Some ds' = Some [] ↔ ds' = []) as -> by naive_solver.
  unfold check_schema, check_interface. diag. rewrite !check_ports_nil, Hds.
  rewrite index_contracts_nil, index_nodes_nil, index_regions_nil.
  split.
  - intros (? & ? & [Hi Ho] & [? ?] & [Hni Hnd] & [Hri Hrd] & Hn & Hr & He & Hreq & Hp & Hc).
    apply check_nodes_nil in Hn as (Hn & ? & ?); [|by apply Hi|by apply Ho|done].
    apply check_regions_nil in Hr; [|done..].
    apply check_edges_nil in He as [He ?]; [|done..].
    apply check_required_inputs_nil in Hreq. apply check_region_parent_cycles_nil in Hp; [|done].
    apply execution_edges_step in Hc; [|done]. by constructor.
  - intros [Hs Hname Hi Ho Hc Hcd Hn Hnd H1 H2 Hr Hrd He Hed Hreq Hp Hx].
    pose proof (Forall_impl _ _ _ Hn (node_identifier flow)) as Hni.
    pose proof (Forall_impl _ _ _ Hr (region_identifier flow)) as Hri.
    split_and!; try done.
    + apply check_nodes_nil; [by apply Hi|by apply Ho|done|done].
    + by apply check_regions_nil.
    + by apply check_edges_nil.
    + by apply check_required_inputs_nil.
    + by apply check_region_parent_cycles_nil.
    + by apply execution_edges_step.
Qed.

Lemma validate_Done : validate flow = Done () ↔ WellFormed flow.
Proof.
  rewrite <-run_nil. unfold validate.
  destruct (run flow) as [[|d ds]|]; naive_solver.
Qed.

Lemma validate_cases :
  validate flow = Done () ∨ ∃ d ds, validate flow = Fail (d :: ds).
Proof.
  unfold validate. destruct run_total as [[|d ds] ->]; [by left|right; eauto].
Qed.
End run.

(** C11: [validate] accepts exactly the well-formed flows: identifiers and names are
    in shape and distinct, references resolve, value edges are well typed,
    every required input has exactly its producers, regions nest without
    cycles and the edges that order execution form a DAG. *)
Theorem validate_accepts_iff_well_formed {V} (flow : Flow V) :
  validate flow = Done () ↔ WellFormed flow.
Proof. apply validate_Done. Qed.

(** [validate] always returns, with the diagnostics that justify a refusal:
    Kahn's loop never meets an unindexed successor. *)
Lemma validate_never_panics {V} (flow : Flow V) :
  validate flow = Done () ∨ ∃ d ds, validate flow = Fail (d :: ds) ∧ ¬ WellFormed flow.
Proof.
  destruct (validate_cases flow) as [|(d & ds & Hd)]; [by left|]. right. exists d, ds.
  split; [done|]. rewrite <-validate_Done, Hd. done.
Qed.
