(* ===== verification/FlowHash.v ===== *)
(** The semantic form and hash of a flow ([crates/xshell-flow/src/hash.rs]).

    What is hashed is [SemanticFlow]: the flow with its lists in canonical
    order and without labels and annotations. [SameFlow] is the equivalence of
    flows this stands for. The JSON serialiser, SHA-256 and the hex printer
    are parameters. *)
From Stdlib Require Import Ascii.
From S2P Require Import Prelude FlowModel FlowValidate FlowSpec.

(** [b"xshell.flow.semantic.v0\0"]. *)
Definition HASH_DOMAIN : list ascii :=
  chars "xshell.flow.semantic.v0" ++ chars (String (ascii_of_N 0) EmptyString).

Record SemanticNode := {
  sn_id : string;
  sn_inputs : list Port;
  sn_outputs : list Port;
  sn_kind : NodeKind;
  sn_capabilities : Capabilities;
  sn_resources : Resources;
}.

Record SemanticRegion := {
  sr_id : string;
  sr_parent : option string;
  sr_nodes : list string;
  sr_kind : RegionKind;
}.

Section semantic.
Context {V : Type}.

Record SemanticFlow := {
  sf_schema : string;
  sf_name : string;
  sf_interface : FlowInterface;
  sf_contracts : list (Contract V);
  sf_nodes : list SemanticNode;
  sf_edges : list Edge;
  sf_regions : list SemanticRegion;
}.

Definition sorted_strings (l : list string) : list string := sort_on (λ s, s) l.

Definition sorted_capabilities (c : Capabilities) : Capabilities := {|
  cap_read := sorted_strings (cap_read c);
  cap_write := sorted_strings (cap_write c);
  cap_execute := sorted_strings (cap_execute c);
  cap_network := sorted_strings (cap_network c);
|}.

Definition semantic_node (n : Node V) : SemanticNode := {|
  sn_id := node_id n;
  sn_inputs := sort_on port_name (node_inputs n);
  sn_outputs := sort_on port_name (node_outputs n);
  sn_kind := node_kind n;
  sn_capabilities := sorted_capabilities (node_capabilities n);
  sn_resources := node_resources n;
|}.

Definition semantic_region (r : Region V) : SemanticRegion := {|
  sr_id := region_id r;
  sr_parent := region_parent r;
  sr_nodes := sorted_strings (region_nodes r);
  sr_kind := region_kind r;
|}.

(** The value [canonical_semantic_bytes] serialises. *)
Definition semantic_flow (f : Flow V) : SemanticFlow := {|
  sf_schema := flow_schema f;
  sf_name := flow_name f;
  sf_interface := {|
    interface_inputs := sort_on port_name (interface_inputs (flow_interface f));
    interface_outputs := sort_on port_name (interface_outputs (flow_interface f));
  |};
  sf_contracts := sort_on contract_id (flow_contracts f);
  sf_nodes := sort_on sn_id (semantic_node <$> flow_nodes f);
  sf_edges := sort_on edge_id (flow_edges f);
  sf_regions := sort_on sr_id (semantic_region <$> flow_regions f);
|}.

Section hash.
(** [serde_json::to_vec] with its error, SHA-256 and [hex::encode]. *)
Context {JsonError : Type} (to_vec : SemanticFlow → list ascii + JsonError).
Context (sha256 : list ascii → list ascii) (hex_encode : list ascii → string).

(** [HashError::Encode] wraps the serialiser's error. *)
Definition canonical_semantic_bytes (f : Flow V) : Outcome JsonError (list ascii) :=
  match to_vec (semantic_flow f) with inl bytes => Done bytes | inr e => Fail e end.

Definition semantic_hash (f : Flow V) : Outcome JsonError (list ascii) :=
  let! encoded := canonical_semantic_bytes f in
  Done (sha256 (HASH_DOMAIN ++ encoded)).

(** [SemanticHash::to_string]. *)
Definition semantic_hash_text (f : Flow V) : Outcome JsonError string :=
  let! hash := semantic_hash f in Done (hex_encode hash).
End hash.

(** * Flows that mean the same *)

Definition same_list {A} (R : A → A → Prop) (l k : list A) : Prop :=
  ∃ l', l ≡ₚ l' ∧ Forall2 R l' k.

Record SameCapabilities (c d : Capabilities) : Prop := {
  same_read : cap_read c ≡ₚ cap_read d;
  same_write : cap_write c ≡ₚ cap_write d;
  same_execute : cap_execute c ≡ₚ cap_execute d;
  same_network : cap_network c ≡ₚ cap_network d;
}.

(** Labels and annotations are free. *)
Record SameNode (n m : Node V) : Prop := {
  same_node_id : node_id n = node_id m;
  same_inputs : node_inputs n ≡ₚ node_inputs m;
  same_outputs : node_outputs n ≡ₚ node_outputs m;
  same_kind : node_kind n = node_kind m;
  same_capabilities : SameCapabilities (node_capabilities n) (node_capabilities m);
  same_resources : node_resources n = node_resources m;
}.

Record SameRegion (r s : Region V) : Prop := {
  same_region_id : region_id r = region_id s;
  same_parent : region_parent r = region_parent s;
  same_members : region_nodes r ≡ₚ region_nodes s;
  same_region_kind : region_kind r = region_kind s;
}.

Record SameFlow (f g : Flow V) : Prop := {
  same_schema : flow_schema f = flow_schema g;
  same_name : flow_name f = flow_name g;
  same_interface_inputs : interface_inputs (flow_interface f) ≡ₚ interface_inputs (flow_interface g);
  same_interface_outputs : interface_outputs (flow_interface f) ≡ₚ interface_outputs (flow_interface g);
  same_contracts : flow_contracts f ≡ₚ flow_contracts g;
  same_nodes : same_list SameNode (flow_nodes f) (flow_nodes g);
  same_edges : flow_edges f ≡ₚ flow_edges g;
  same_regions : same_list SameRegion (flow_regions f) (flow_regions g);
}.

(** ** An equivalence *)

#[export] Instance same_list_equivalence {A} (R : A → A → Prop) :
  Equivalence R → Equivalence (same_list R).
Proof.
  intros HR. split.
  - intros l. by exists l.
  - intros l k (l' & Hp & HF).
    destruct (Permutation_Forall2 (symmetry Hp) HF) as (k' & Hk & HF'). by exists k'.
  - intros l k j (l' & Hp & HF) (k' & Hp' & HF').
    destruct (Permutation_Forall2 Hp' (symmetry HF)) as (l'' & Hl & HF'').
    exists l''. split; [by rewrite Hp, Hl|]. by transitivity k'.
Qed.

#[export] Instance same_capabilities_equivalence : Equivalence SameCapabilities.
Proof. split; [by intros []|by intros ?? []; split|intros ??? [] []; split; by etrans]. Qed.

#[export] Instance same_node_equivalence : Equivalence SameNode.
Proof. split; [by intros []|by intros ?? []; split|intros ??? [] []; split; by etrans]. Qed.

#[export] Instance same_region_equivalence : Equivalence SameRegion.
Proof. split; [by intros []|by intros ?? []; split|intros ??? [] []; split; by etrans]. Qed.

#[export] Instance same_flow_equivalence : Equivalence SameFlow.
Proof. split; [by intros []|by intros ?? []; split|intros ??? [] []; split; by etrans]. Qed.

(** ** Canonical lists *)

Lemma same_list_fmap {A B} (R : A → A → Prop) (f : A → B) l k :
  (∀ x y, x ∈ l → R x y → f x = f y) → same_list R l k → f <$> l ≡ₚ f <$> k.
Proof.
  intros Hf (l' & Hp & HF). rewrite Hp.
  assert (∀ x y, x ∈ l' → R x y → f x = f y) as Hf' by (intros x y; rewrite <-Hp; apply Hf).
  clear Hp Hf. induction HF as [|x y l' k Hxy _ IH]; [done|].
  rewrite !fmap_cons, (Hf' x y), IH; [done| |by left|done].
  intros x' y' Hx'. apply Hf'. by right.
Qed.

Lemma fmap_same_list {A B} (R : A → A → Prop) (f : A → B) l k :
  (∀ x y, f x = f y → R x y) → f <$> l ≡ₚ f <$> k → same_list R l k.
Proof.
  intros Hf Hp. destruct (Permutation_map_inv _ _ (symmetry Hp)) as (l' & Hl & Hp').
  exists l'. split; [done|]. change (f <$> k = f <$> l') in Hl. clear Hp Hp'.
  revert l' Hl. induction k as [|x k IH]; intros [|y l'] Hl; simplify_eq/=; constructor; auto.
Qed.

Lemma sort_on_eq_perm {A K} `{Ord K} (key : A → K) l k :
  sort_on key l = sort_on key k → l ≡ₚ k.
Proof. intros Heq. by rewrite <-(sort_on_Permutation key l), Heq, sort_on_Permutation. Qed.

Lemma sorted_strings_perm l k : sorted_strings l = sorted_strings k ↔ l ≡ₚ k.
Proof. split; [apply sort_on_eq_perm|]. apply sort_on_perm_inj. apply _. Qed.

(** The ids and port names that canonical order relies on are distinct. *)
Record Distinct (f : Flow V) : Prop := {
  distinct_inputs : NoDup (port_name <$> interface_inputs (flow_interface f));
  distinct_outputs : NoDup (port_name <$> interface_outputs (flow_interface f));
  distinct_contracts : NoDup (contract_id <$> flow_contracts f);
  distinct_nodes : NoDup (node_id <$> flow_nodes f);
  distinct_ports : ∀ n, n ∈ flow_nodes f →
    NoDup (port_name <$> node_inputs n) ∧ NoDup (port_name <$> node_outputs n);
  distinct_edges : NoDup (edge_id <$> flow_edges f);
  distinct_regions : NoDup (region_id <$> flow_regions f);
}.

Lemma well_formed_distinct (f : Flow V) : WellFormed f → Distinct f.
Proof.
  intros [_ _ [_ Hi] [_ Ho] _ Hc Hn Hnd _ _ _ Hr _ He _ _ _]. split; try done.
  intros n Hin. rewrite Forall_forall in Hn. by destruct (Hn n Hin) as [_ [_ ?] [_ ?] _ _ _ _ _].
Qed.

Lemma same_semantic_capabilities c d :
  SameCapabilities c d ↔ sorted_capabilities c = sorted_capabilities d.
Proof.
  unfold sorted_capabilities. split.
  - intros [Hr Hw He Hn]. apply sorted_strings_perm in Hr, Hw, He, Hn. by rewrite Hr, Hw, He, Hn.
  - intros [= Hr Hw He Hn]. split; by apply sorted_strings_perm.
Qed.

Lemma same_semantic_node n m :
  NoDup (port_name <$> node_inputs n) → NoDup (port_name <$> node_outputs n) →
  SameNode n m → semantic_node n = semantic_node m.
Proof.
  intros Hi Ho [Hid Hpi Hpo Hk Hc%same_semantic_capabilities Hr]. unfold semantic_node.
  by rewrite Hid, Hk, Hc, Hr, (sort_on_perm _ _ _ Hi Hpi), (sort_on_perm _ _ _ Ho Hpo).
Qed.

Lemma semantic_node_same n m : semantic_node n = semantic_node m → SameNode n m.
Proof.
  intros [= Hid Hi Ho Hk Hr Hw He Hn Hres].
  split; [done|exact (sort_on_eq_perm _ _ _ Hi)|exact (sort_on_eq_perm _ _ _ Ho)|done| |done].
  split; by apply sorted_strings_perm.
Qed.

Lemma same_semantic_region r s : SameRegion r s ↔ semantic_region r = semantic_region s.
Proof.
  unfold semantic_region. split.
  - intros [Hid Hp Hm%sorted_strings_perm Hk]. by rewrite Hid, Hp, Hm, Hk.
  - intros [= Hid Hp Hm Hk]. split; try done. by apply sorted_strings_perm.
Qed.

Lemma same_flow_form (f g : Flow V) : WellFormed f → SameFlow f g → semantic_flow f = semantic_flow g.
Proof.
  intros [Hi Ho Hc Hn Hp He Hr]%well_formed_distinct [Hs Hnm Hii Hio Hcs Hns Hes Hrs].
  unfold semantic_flow.
  rewrite Hs, Hnm, (sort_on_perm _ _ _ Hi Hii), (sort_on_perm _ _ _ Ho Hio),
    (sort_on_perm _ _ _ Hc Hcs), (sort_on_perm _ _ _ He Hes).
  apply (same_list_fmap _ semantic_node) in Hns;
    [|intros n m Hin; destruct (Hp n Hin); by apply same_semantic_node].
  apply (same_list_fmap _ semantic_region) in Hrs; [|intros; by apply same_semantic_region].
  apply (sort_on_perm sn_id) in Hns; [|by rewrite <-list_fmap_compose].
  apply (sort_on_perm sr_id) in Hrs; [|by rewrite <-list_fmap_compose].
  by rewrite Hns, Hrs.
Qed.

Lemma form_same_flow (f g : Flow V) : semantic_flow f = semantic_flow g → SameFlow f g.
Proof.
  intros [= Hs Hnm Hii Hio Hcs Hns Hes Hrs].
  apply sort_on_eq_perm in Hii, Hio, Hcs, Hns, Hes, Hrs. split; try done.
  - apply (fmap_same_list _ semantic_node); [apply semantic_node_same|done].
  - apply (fmap_same_list _ semantic_region); [intros; by apply same_semantic_region|done].
Qed.

(** The semantic form of a valid flow is shared by exactly the flows that mean the same: flows
    that differ only in the order of their lists, in labels or in annotations have one form, and a
    difference in anything else shows in it. *)
Lemma semantic_form_exact (f g : Flow V) :
  WellFormed f → SameFlow f g ↔ semantic_flow f = semantic_flow g.
Proof. intros Hwf. split; [by apply same_flow_form|apply form_same_flow]. Qed.

(** The hash of a valid flow does not depend on the order its lists are written in, on labels or
    on annotations. Conversely two flows with one hash mean the same, unless the serialiser confuses
    their forms or their bytes are a SHA-256 collision under the flow domain. *)
Lemma semantic_hash_identifies {JsonError : Type} (to_vec : SemanticFlow → list ascii + JsonError)
    (sha256 : list ascii → list ascii) (f g : Flow V) :
  WellFormed f →
  (SameFlow f g → semantic_hash to_vec sha256 f = semantic_hash to_vec sha256 g) ∧
  ((to_vec (semantic_flow f) = to_vec (semantic_flow g) → semantic_flow f = semantic_flow g) →
   ∀ h, semantic_hash to_vec sha256 f = Done h → semantic_hash to_vec sha256 g = Done h →
     SameFlow f g ∨
     ∃ b b', canonical_semantic_bytes to_vec f = Done b ∧ canonical_semantic_bytes to_vec g = Done b' ∧
       b ≠ b' ∧ sha256 (HASH_DOMAIN ++ b) = sha256 (HASH_DOMAIN ++ b')).
Proof.
  intros Hwf. split.
  { intros Hfg. unfold semantic_hash, canonical_semantic_bytes. by rewrite (same_flow_form f g). }
  intros Hinj h (b & Hb & [= <-])%bind_Done (b' & Hb' & [= Hh])%bind_Done.
  destruct (decide (b = b')) as [<-|Hne]; [left|right; by exists b, b'].
  apply form_same_flow, Hinj. unfold canonical_semantic_bytes in *.
  destruct (to_vec (semantic_flow f)), (to_vec (semantic_flow g)); congruence.
Qed.
End semantic.

(** * Two spellings of one flow *)

Definition spelled_port : Port :=
  {| port_name := "v"; port_value_type := VtPath; port_optional := false |}.

Definition spelled_node (id : string) (label : option string) (inputs outputs : list Port)
    (kind : NodeKind) : Node nat :=
  {| node_id := id; node_label := label; node_inputs := inputs; node_outputs := outputs;
     node_kind := kind;
     node_capabilities := {| cap_read := []; cap_write := []; cap_execute := []; cap_network := [] |};
     node_resources := {| timeout_ms := None; memory_bytes := None; output_bytes := None;
                          attempts := None |};
     node_annotations := ∅ |}.

Definition spelled_flow (nodes : list (Node nat)) (annotations : gmap string nat) : Flow nat :=
  {| flow_schema := FLOW_SCHEMA_V0; flow_name := "pipe";
     flow_interface := {| interface_inputs := [spelled_port]; interface_outputs := [spelled_port] |};
     flow_contracts := []; flow_nodes := nodes;
     flow_edges := [{| edge_id := "e";
                       edge_from := {| endpoint_node := "a"; endpoint_port := Some "v" |};
                       edge_to := {| endpoint_node := "b"; endpoint_port := Some "v" |};
                       edge_kind := EkData |}];
     flow_regions := []; flow_annotations := annotations |}.

Definition first_spelling : Flow nat :=
  spelled_flow [spelled_node "a" None [] [spelled_port] NkInput;
                spelled_node "b" None [spelled_port] [] NkOutput] ∅.
Definition second_spelling : Flow nat :=
  spelled_flow [spelled_node "b" (Some "Result") [spelled_port] [] NkOutput;
                spelled_node "a" None [] [spelled_port] NkInput] {["note" := 3]}.

Lemma first_spelling_well_formed : WellFormed first_spelling.
Proof. apply validate_Done. vm_compute. reflexivity. Qed.

Lemma spellings_mean_the_same : SameFlow first_spelling second_spelling.
Proof.
  apply (semantic_form_exact first_spelling second_spelling first_spelling_well_formed).
  vm_compute. reflexivity.
Defined.

Lemma semantic_hash_identifies_witness :
  semantic_hash (JsonError := unit) (λ form, inl (chars (sf_name form))) id first_spelling =
  semantic_hash (JsonError := unit) (λ form, inl (chars (sf_name form))) id second_spelling.
Proof.
  apply (semantic_hash_identifies _ _ first_spelling second_spelling first_spelling_well_formed).
  apply form_same_flow. vm_compute. reflexivity.
Defined.
