(* ===== verification/FlowDot.v ===== *)
(** The Graphviz projection of a flow ([crates/xshell-flow/src/dot.rs]).

    [to_dot] writes one line per node, edge and region member, with the texts
    of the flow inside double quotes. The theorems show that no text can leave
    its quotes, and that the output depends on the flow and not on the order
    it is written in. *)
From Stdlib Require Import Ascii.
From S2P Require Import Prelude FlowModel FlowValidate FlowSpec FlowHash.

(** [str::replace] of one character. *)
Definition replace_char (c : ascii) (by_ : string) (s : string) : string :=
  string_bind (λ d, if bool_decide (d = c) then by_ else String d EmptyString) s.

(** A backslash before one character. *)
Definition escaped (c : ascii) : string := String backslash (String c EmptyString).

Definition escape (value : string) : string :=
  replace_char newline (escaped "n")
    (replace_char quote (escaped quote)
       (replace_char backslash (escaped backslash) value)).

(** ["\"...\""] in a format string. *)
Definition dq (s : string) : string := String quote (s +:+ String quote EmptyString).
Definition nl : string := String newline EmptyString.

Definition port_label (from to : option string) : string :=
  match from, to with
  | Some from, Some to => if bool_decide (from = to) then from else from +:+ " -> " +:+ to
  | _, _ => ""
  end.

Definition outcome_label (outcome : GateOutcome) : string :=
  match outcome with
  | OutcomeValid => "valid"
  | OutcomeInvalid => "invalid"
  | OutcomeError => "error"
  | OutcomeCancelled => "cancelled"
  end.

Definition kind_and_shape (kind : NodeKind) : string * string :=
  match kind with
  | NkInput => ("input", "oval")
  | NkOutput => ("output", "oval")
  | NkTask _ => ("task", "box")
  | NkGate _ => ("contract", "diamond")
  | NkJoin _ => ("join", "invtriangle")
  | NkPromote _ => ("promote", "folder")
  | NkDiscard => ("discard", "octagon")
  end.

Definition region_kind_label (kind : RegionKind) : string :=
  match kind with
  | RkScope => "scope"
  | RkParallel => "parallel"
  | RkTransaction _ => "transaction"
  | RkLoop _ _ _ => "bounded loop"
  end.

Definition outcome_attributes (outcome : GateOutcome) : string :=
  "penwidth=2, color=" +:+ dq
    match outcome with
    | OutcomeValid => "#15803d"
    | OutcomeInvalid => "#b91c1c"
    | OutcomeError => "#c2410c"
    | OutcomeCancelled => "#64748b"
    end.

(** The label and the attributes of an edge. *)
Definition edge_style (e : Edge) : string * string :=
  match edge_kind e with
  | EkData => (port_label (endpoint_port (edge_from e)) (endpoint_port (edge_to e)),
               "color=" +:+ dq "#334155")
  | EkDependency => ("after", "style=dashed, color=" +:+ dq "#64748b")
  | EkRoute outcome => (outcome_label outcome, outcome_attributes outcome)
  | EkFeedback _ state =>
      ("feedback: " +:+ state,
       "style=dotted, penwidth=2, color=" +:+ dq "#2563eb" +:+ ", constraint=false")
  end.

Definition edge_line (e : Edge) : string :=
  let (label, attributes) := edge_style e in
  "  " +:+ dq (escape (endpoint_node (edge_from e))) +:+ " -> " +:+
  dq (escape (endpoint_node (edge_to e))) +:+ " [label=" +:+ dq (escape label) +:+ ", " +:+
  attributes +:+ "];" +:+ nl.

Section dot.
Context {V : Type}.

Definition node_line (n : Node V) : string :=
  let label := default (node_id n) (node_label n) in
  let (kind, shape) := kind_and_shape (node_kind n) in
  "  " +:+ dq (escape (node_id n)) +:+ " [label=" +:+
  dq (escape label +:+ escaped "n" +:+ "[" +:+ kind +:+ "]") +:+ ", shape=" +:+ shape +:+ "];" +:+ nl.

Definition member_line (member : string) : string := "    " +:+ dq (escape member) +:+ ";" +:+ nl.

Definition region_lines (r : Region V) : string :=
  "  subgraph " +:+ dq ("cluster_" +:+ escape (region_id r)) +:+ " {" +:+ nl +:+
  "    label=" +:+ dq (escape (region_id r) +:+ " [" +:+ region_kind_label (region_kind r) +:+ "]")
    +:+ ";" +:+ nl +:+
  "    color=" +:+ dq "#94a3b8" +:+ ";" +:+ nl +:+
  String.concat "" (member_line <$> sorted_strings (region_nodes r)) +:+
  "  }" +:+ nl.

Definition to_dot (f : Flow V) : string :=
  "digraph futureshell_flow {" +:+ nl +:+
  "  graph [compound=true, rankdir=LR];" +:+ nl +:+
  "  node [fontname=" +:+ dq "Helvetica" +:+ "];" +:+ nl +:+
  "  edge [fontname=" +:+ dq "Helvetica" +:+ "];" +:+ nl +:+
  "  label=" +:+ dq (escape (flow_name f)) +:+ ";" +:+ nl +:+
  String.concat "" (node_line <$> sort_on node_id (flow_nodes f)) +:+
  String.concat "" (region_lines <$> sort_on region_id (flow_regions f)) +:+
  String.concat "" (edge_line <$> sort_on edge_id (flow_edges f)) +:+
  "}" +:+ nl.
End dot.

(** * Escaping *)

Definition escape_char (c : ascii) : string :=
  if bool_decide (c = backslash) then escaped backslash
  else if bool_decide (c = quote) then escaped quote
  else if bool_decide (c = newline) then escaped "n"
  else String c EmptyString.

Lemma replace_char_cons c b d s :
  replace_char c b (String d s) =
  (if bool_decide (d = c) then b else String d EmptyString) +:+ replace_char c b s.
Proof. done. Qed.

Lemma replace_char_app c b s t : replace_char c b (s +:+ t) = replace_char c b s +:+ replace_char c b t.
Proof.
  induction s as [|d s IH]; [done|].
  by rewrite append_cons, !replace_char_cons, IH, append_assoc.
Qed.

Lemma escape_cons c s : escape (String c s) = escape_char c +:+ escape s.
Proof.
  unfold escape. rewrite replace_char_cons, !replace_char_app. f_equal. unfold escape_char.
  destruct (decide (c = backslash)) as [->|Hb]; [done|].
  destruct (decide (c = quote)) as [->|Hq]; [done|].
  destruct (decide (c = newline)) as [->|Hn]; [done|].
  rewrite !(bool_decide_false (c = _)) by done.
  rewrite replace_char_cons, bool_decide_false by done. cbn [replace_char string_bind].
  by rewrite append_cons, append_nil, replace_char_cons, bool_decide_false.
Qed.

(** How a reader of DOT finds the end of a double-quoted string: a backslash
    keeps the next character. *)
Fixpoint read_quoted (l : list ascii) : option (list ascii * list ascii) :=
  match l with
  | [] => None
  | c :: l =>
      if bool_decide (c = quote) then Some ([], l)
      else if bool_decide (c = backslash) then
        match l with
        | [] => None
        | d :: l => prod_map (λ body, c :: d :: body) id <$> read_quoted l
        end
      else prod_map (cons c) id <$> read_quoted l
  end.

(** The text an escaped body stands for. *)
Fixpoint unescape (l : list ascii) : list ascii :=
  match l with
  | [] => []
  | c :: l =>
      if bool_decide (c = backslash) then
        match l with
        | [] => []
        | d :: l => (if bool_decide (d = "n"%char) then newline else d) :: unescape l
        end
      else c :: unescape l
  end.

(** Whatever text is escaped, a quoted string holding it ends at its own closing quote and not
    before, holds no line break, and reads back as the text: node names and labels cannot leave
    their quotes or add lines to the graph, and two texts never look the same. *)
Lemma escape_stays_quoted (s : string) (rest : list ascii) :
  read_quoted (chars (escape s) ++ quote :: rest) = Some (chars (escape s), rest) ∧
  newline ∉ chars (escape s) ∧ unescape (chars (escape s)) = chars s.
Proof.
  induction s as [|c s (Hr & Hn & Hu)].
  { split_and!; [done|by intros ?%elem_of_nil|done]. }
  rewrite escape_cons, chars_app, <-app_assoc. unfold escape_char.
  destruct (decide (c = backslash)) as [->|Hb].
  { simpl. rewrite Hr, Hu. split_and!; [done| |done]. rewrite !elem_of_cons. naive_solver. }
  destruct (decide (c = quote)) as [->|Hq].
  { simpl. rewrite Hr, Hu. split_and!; [done| |done]. rewrite !elem_of_cons. naive_solver. }
  destruct (decide (c = newline)) as [->|Hl].
  { simpl. rewrite Hr, Hu. split_and!; [done| |done]. rewrite !elem_of_cons. naive_solver. }
  rewrite !(bool_decide_false (c = _)) by done. cbn [chars app].
  cbn. rewrite !(bool_decide_false (c = _)) by done. rewrite Hr.
  split_and!; [done| |by f_equal]. rewrite elem_of_cons. naive_solver.
Qed.

(** * Lines *)

Definition line_breaks (s : string) : nat := length (filter (λ c, c = newline) (chars s)).

Lemma line_breaks_app s t : line_breaks (s +:+ t) = line_breaks s + line_breaks t.
Proof. unfold line_breaks. by rewrite chars_app, filter_app, length_app. Qed.

Lemma line_breaks_dq s : line_breaks (dq s) = line_breaks s.
Proof.
  unfold dq. change (String quote ?x) with (String quote EmptyString +:+ x).
  rewrite !line_breaks_app. change (line_breaks (String quote EmptyString)) with 0. lia.
Qed.

Lemma line_breaks_escape s : line_breaks (escape s) = 0.
Proof.
  apply filter_none_length. intros c Hc ->. revert Hc.
  induction s as [|c s IH]; [by intros ?%elem_of_nil|].
  rewrite escape_cons, chars_app, elem_of_app. intros [Hc|?]; [|done].
  unfold escape_char in Hc. repeat case_bool_decide; simpl in Hc;
    rewrite ?elem_of_cons, ?elem_of_nil in Hc; naive_solver.
Qed.

Lemma line_breaks_concat {A} (f : A → string) l :
  line_breaks (String.concat "" (f <$> l)) = sum_list (line_breaks ∘ f <$> l).
Proof.
  induction l as [|x l IH]; [done|]. rewrite !fmap_cons. simpl.
  destruct (f <$> l) as [|y k] eqn:Hl.
  - apply fmap_nil_inv in Hl as ->. simpl. lia.
  - by rewrite append_nil, line_breaks_app, IH.
Qed.

Lemma line_breaks_concat_const {A} (f : A → string) n l :
  (∀ x, line_breaks (f x) = n) → line_breaks (String.concat "" (f <$> l)) = n * length l.
Proof.
  intros Hf. rewrite line_breaks_concat. induction l as [|x l IH]; [simpl; lia|].
  rewrite fmap_cons. cbn [sum_list length]. rewrite IH. unfold compose. rewrite Hf. unfold id. lia.
Qed.

(** Count the breaks of the literal texts of a line. *)
Ltac count_literals :=
  change nl with (String newline EmptyString);
  repeat match goal with
  | |- context [line_breaks (String ?c ?s)] =>
      let n := eval vm_compute in (line_breaks (String c s)) in
      change (line_breaks (String c s)) with n
  end; simpl.

Lemma line_breaks_edge e : line_breaks (edge_line e) = 1.
Proof.
  unfold edge_line. destruct (edge_style e) as [label attributes] eqn:He.
  assert (line_breaks attributes = 0) as Ha.
  { unfold edge_style, outcome_attributes in He. repeat case_match; simplify_eq; reflexivity. }
  rewrite !line_breaks_app, !line_breaks_dq, !line_breaks_escape, Ha. reflexivity.
Qed.

Section lines.
Context {V : Type}.

Lemma line_breaks_node (n : Node V) : line_breaks (node_line n) = 1.
Proof.
  unfold node_line. destruct (kind_and_shape (node_kind n)) as [kind shape] eqn:Hk.
  assert (line_breaks kind = 0 ∧ line_breaks shape = 0) as [Hkind Hshape].
  { destruct (node_kind n); simplify_eq/=; done. }
  rewrite !line_breaks_app, !line_breaks_dq, !line_breaks_app, !line_breaks_escape, Hkind, Hshape.
  reflexivity.
Qed.

Lemma line_breaks_member m : line_breaks (member_line m) = 1.
Proof. unfold member_line. by rewrite !line_breaks_app, line_breaks_dq, line_breaks_escape. Qed.

Lemma line_breaks_region (r : Region V) : line_breaks (region_lines r) = 4 + length (region_nodes r).
Proof.
  unfold region_lines. assert (line_breaks (region_kind_label (region_kind r)) = 0) as Hk.
  { by destruct (region_kind r). }
  rewrite !line_breaks_app, !line_breaks_dq, !line_breaks_app, !line_breaks_escape, Hk.
  rewrite (line_breaks_concat_const _ 1) by apply line_breaks_member.
  unfold sorted_strings. rewrite (Permutation_length (sort_on_Permutation _ _)).
  count_literals. lia.
Qed.

(** The drawing has one line per node and edge and four per region besides one per member, and
    six of its own: no name, label, port or state of a flow adds a line or hides one. *)
Lemma to_dot_lines (f : Flow V) :
  line_breaks (to_dot f) =
  6 + length (flow_nodes f) + sum_list ((λ r, 4 + length (region_nodes r)) <$> flow_regions f) +
  length (flow_edges f).
Proof.
  unfold to_dot. rewrite !line_breaks_app, !line_breaks_dq, !line_breaks_escape.
  rewrite (line_breaks_concat_const node_line 1) by apply line_breaks_node.
  rewrite (line_breaks_concat_const edge_line 1) by apply line_breaks_edge.
  rewrite line_breaks_concat, !(Permutation_length (sort_on_Permutation _ _)).
  rewrite (list_fmap_ext _ (λ r, 4 + length (region_nodes r))) by (intros; apply line_breaks_region).
  rewrite (sort_on_Permutation region_id).
  count_literals. lia.
Qed.
End lines.

(** * Order *)

Section order.
Context {V : Type}.

(** What a drawing shows of a node. *)
Record DrawnAlike (n m : Node V) : Prop := {
  alike_id : node_id n = node_id m;
  alike_label : node_label n = node_label m;
  alike_kind : kind_and_shape (node_kind n) = kind_and_shape (node_kind m);
}.

Record SameDrawing (f g : Flow V) : Prop := {
  drawn_name : flow_name f = flow_name g;
  drawn_nodes : same_list DrawnAlike (flow_nodes f) (flow_nodes g);
  drawn_regions : same_list SameRegion (flow_regions f) (flow_regions g);
  drawn_edges : flow_edges f ≡ₚ flow_edges g;
}.

(** Sorting by a key and drawing gives the same lines for lists that are drawn
    alike up to order. *)
Lemma drawn_sorted {A} (R : A → A → Prop) (key line : A → string) (l k : list A) :
  (∀ x y, R x y → key x = key y ∧ line x = line y) → NoDup (key <$> l) → same_list R l k →
  line <$> sort_on key l = line <$> sort_on key k.
Proof.
  intros HR Hnd Hlk. set (keyed x := (key x, line x)).
  assert (∀ j, line <$> sort_on key j = snd <$> sort_on fst (keyed <$> j)) as Hj.
  { intros j. rewrite (sort_on_fmap keyed key fst) by done. by rewrite <-list_fmap_compose. }
  rewrite !Hj. f_equal. apply sort_on_perm; [by rewrite <-list_fmap_compose|].
  apply (same_list_fmap R); [|done]. intros x y _ [Hk Hl]%HR. unfold keyed. by rewrite Hk, Hl.
Qed.

(** The drawing of a valid flow does not depend on the order its nodes, edges, regions and
    members are written in, nor on what it does not show. *)
Lemma to_dot_ignores_order (f g : Flow V) : WellFormed f → SameDrawing f g → to_dot f = to_dot g.
Proof.
  intros Hwf [Hname Hnodes Hregions Hedges].
  apply well_formed_distinct in Hwf as [_ _ _ Hn _ He Hr]. unfold to_dot.
  rewrite Hname, (sort_on_perm edge_id _ _ He Hedges).
  rewrite (drawn_sorted DrawnAlike node_id node_line _ _ ltac:(
    intros x y [Hid Hlab Hk]; unfold node_line; by rewrite Hid, Hlab, Hk) Hn Hnodes).
  rewrite (drawn_sorted SameRegion region_id region_lines _ _ ltac:(
    intros x y [Hid _ Hm%sorted_strings_perm Hk]; unfold region_lines; by rewrite Hid, Hm, Hk)
    Hr Hregions).
  done.
Qed.
End order.

Definition reordered_spelling : Flow nat :=
  spelled_flow [spelled_node "b" None [] [] NkOutput; spelled_node "a" None [] [spelled_port] NkInput] ∅.

Lemma to_dot_ignores_order_witness : to_dot first_spelling = to_dot reordered_spelling.
Proof.
  apply (to_dot_ignores_order _ _ first_spelling_well_formed). split; [done| |by exists []|done].
  eexists. split; [apply perm_swap|]. by repeat constructor.
Defined.

Example escaped_text : escape (String quote (String newline (String backslash "n"))) =
  String backslash (String quote (String backslash (String "n" (String backslash (String backslash "n"))))).
Proof. reflexivity. Qed.
