(* ===== verification/PlanModel.v ===== *)
(** The Plan V0 data model ([crates/xshell-plan/src/model.rs]): templates, the
    conversions from the Flow IR, the capability summaries and the derived
    orders the planner sorts by. [V] is the type of JSON values. *)
From S2P Require Import Prelude FlowModel.

Definition PLAN_SCHEMA_V0 : string := "xshell.plan/v0".

Record FlowIdentity := {
  identity_schema : string;
  semantic_sha256 : string;
}.

Inductive PlanValueType : Type :=
| PvBool
| PvInt
| PvString
| PvPath
| PvEvidence
| PvContractReport
| PvReceipt
| PvArtifact (media_type schema : option string)
| PvList (item : PlanValueType).

#[export] Instance PlanValueType_eq_dec : EqDecision PlanValueType.
Proof. solve_decision. Defined.

Record PlanPort := {
  pport_name : string;
  pport_type : PlanValueType;
  pport_optional : bool;
}.

Record PlanInterface := {
  pinterface_inputs : list PlanPort;
  pinterface_outputs : list PlanPort;
}.

Record ResolvedProgram := {
  manifest_sha256 : string;
  source_sha256 : string;
  resolved_entrypoint : string;
}.

#[export] Instance ResolvedProgram_eq_dec : EqDecision ResolvedProgram.
Proof. solve_decision. Defined.

Record ResolvedPredicate := {
  definition_sha256 : string;
  predicate_version : string;
  implementation_sha256 : string;
}.

#[export] Instance ResolvedPredicate_eq_dec : EqDecision ResolvedPredicate.
Proof. solve_decision. Defined.

Inductive PlanJoinStrategy : Type := PjAll | PjAny | PjFirstValid.
Inductive PlanGateOutcome : Type := PgValid | PgInvalid | PgError | PgCancelled.
Inductive PlanExhaustionPolicy : Type := PxFail | PxYieldLast | PxDiscard.

#[export] Instance PlanGateOutcome_eq_dec : EqDecision PlanGateOutcome.
Proof. solve_decision. Defined.

Inductive TaskOperation : Type :=
| OpInput
| OpOutput
| OpProgram (source : string) (entrypoint : option string) (resolution : option ResolvedProgram)
| OpGate (contract : string)
| OpJoin (strategy : PlanJoinStrategy)
| OpPromote (paths : list string)
| OpDiscard.

Record PortReference := {
  ref_task : string;
  ref_port : string;
}.

Inductive ValueSelection : Type :=
| Direct
| LoopInitial (loop_region : string)
| CurrentIteration (loop_region : string)
| LoopFinal (loop_region : string)
| PreviousIteration (loop_region state : string).

Record ValueBinding := {
  binding_from : PortReference;
  binding_selection : ValueSelection;
}.

Record InputBinding := {
  binding_port : PlanPort;
  binding_sources : list ValueBinding;
}.

Inductive ReadinessMode : Type := ReadyAll | ReadyAny.

Record DataReadiness := {
  data_mode : ReadinessMode;
  data_tasks : list string;
}.

Record RouteCondition := {
  route_gate : string;
  route_outcome : PlanGateOutcome;
}.

#[export] Instance RouteCondition_eq_dec : EqDecision RouteCondition.
Proof. solve_decision. Defined.

Record Readiness := {
  ready_data : DataReadiness;
  ready_after : list string;
  activate_on_any : list RouteCondition;
}.

Record CapabilitySummary := {
  sum_read : list string;
  sum_write : list string;
  sum_execute : list string;
  sum_network : list string;
}.

#[export] Instance CapabilitySummary_eq_dec : EqDecision CapabilitySummary.
Proof. solve_decision. Defined.

Record PlanResources := {
  pr_timeout_ms : option N;
  pr_memory_bytes : option N;
  pr_output_bytes : option N;
  pr_attempts : option N;
}.

Record TaskTemplate := {
  task_id : string;
  task_operation : TaskOperation;
  task_inputs : list InputBinding;
  task_outputs : list PlanPort;
  task_readiness : Readiness;
  task_region_path : list string;
  task_transaction : option string;
  task_loop_context : option string;
  task_capabilities : CapabilitySummary;
  task_resources : PlanResources;
}.

Inductive PlanRegionKind : Type :=
| PrScope
| PrParallel
| PrTransaction (workspace : string)
| PrLoop.

Record RegionTemplate := {
  rt_id : string;
  rt_parent : option string;
  rt_kind : PlanRegionKind;
  rt_direct_members : list string;
}.

Record LoopState := {
  state_name : string;
  state_type : PlanValueType;
  state_target : PortReference;
  state_initial : PortReference;
  state_feedback : PortReference;
}.

Record LoopTemplate := {
  loop_id : string;
  loop_body_order : list string;
  loop_max_iterations : N;
  loop_until : RouteCondition;
  loop_on_exhausted : PlanExhaustionPolicy;
  loop_states : list LoopState;
}.

Inductive ResolutionBlocker : Type :=
| UnresolvedProgram (task source : string)
| UncheckedPredicate (contract predicate : string).

#[export] Instance ResolutionBlocker_eq_dec : EqDecision ResolutionBlocker.
Proof. solve_decision. Defined.

Record ResolutionStatus := {
  fully_resolved : bool;
  blockers : list ResolutionBlocker;
}.

Section with_json.
Context {V : Type}.

Inductive PlanContractExpression : Type :=
| PePredicate (name : string) (arguments : gmap string V) (resolution : option ResolvedPredicate)
| PeAll (clauses : list PlanContractExpression)
| PeAny (clauses : list PlanContractExpression)
| PeNot (clause : PlanContractExpression).

Record PlanContract := {
  pcontract_id : string;
  pcontract_expression : PlanContractExpression;
}.

Record Plan := {
  plan_schema : string;
  plan_name : string;
  plan_flow : FlowIdentity;
  plan_interface : PlanInterface;
  plan_contracts : list PlanContract;
  plan_tasks : list TaskTemplate;
  plan_regions : list RegionTemplate;
  plan_loops : list LoopTemplate;
  plan_capabilities : CapabilitySummary;
  plan_resolution : ResolutionStatus;
}.
End with_json.

Arguments PlanContractExpression : clear implicits.
Arguments PlanContract : clear implicits.
Arguments Plan : clear implicits.

(** Structural induction on plan contract expressions. *)
Section plan_contract_ind.
Context {V : Type} (P : PlanContractExpression V → Prop).
Context (Hpred : ∀ name arguments resolution, P (PePredicate name arguments resolution)).
Context (Hall : ∀ clauses, Forall P clauses → P (PeAll clauses)).
Context (Hany : ∀ clauses, Forall P clauses → P (PeAny clauses)).
Context (Hnot : ∀ clause, P clause → P (PeNot clause)).

Fixpoint PlanContractExpression_nested_ind (e : PlanContractExpression V) : P e :=
  let fix go (l : list (PlanContractExpression V)) : Forall P l :=
    match l with
    | [] => Forall_nil_2 P
    | x :: l => Forall_cons_2 P x l (PlanContractExpression_nested_ind x) (go l)
    end in
  match e with
  | PePredicate name arguments resolution => Hpred name arguments resolution
  | PeAll clauses => Hall clauses (go clauses)
  | PeAny clauses => Hany clauses (go clauses)
  | PeNot clause => Hnot clause (PlanContractExpression_nested_ind clause)
  end.
End plan_contract_ind.

(** * Conversions from the Flow IR *)

Fixpoint value_type_from (t : ValueType) : PlanValueType :=
  match t with
  | VtBool => PvBool
  | VtInt => PvInt
  | VtString => PvString
  | VtPath => PvPath
  | VtEvidence => PvEvidence
  | VtContractReport => PvContractReport
  | VtReceipt => PvReceipt
  | VtArtifact media_type schema => PvArtifact media_type schema
  | VtList item => PvList (value_type_from item)
  end.

Definition port_from (p : Port) : PlanPort := {|
  pport_name := port_name p;
  pport_type := value_type_from (port_value_type p);
  pport_optional := port_optional p;
|}.

Definition interface_from (i : FlowInterface) : PlanInterface := {|
  pinterface_inputs := port_from <$> interface_inputs i;
  pinterface_outputs := port_from <$> interface_outputs i;
|}.

Fixpoint expression_from {V} (e : ContractExpression V) : PlanContractExpression V :=
  match e with
  | CePredicate name arguments => PePredicate name arguments None
  | CeAll clauses => PeAll (map expression_from clauses)
  | CeAny clauses => PeAny (map expression_from clauses)
  | CeNot clause => PeNot (expression_from clause)
  end.

Definition strategy_from (s : JoinStrategy) : PlanJoinStrategy :=
  match s with JoinAll => PjAll | JoinAny => PjAny | JoinFirstValid => PjFirstValid end.

Definition outcome_from (o : GateOutcome) : PlanGateOutcome :=
  match o with
  | OutcomeValid => PgValid
  | OutcomeInvalid => PgInvalid
  | OutcomeError => PgError
  | OutcomeCancelled => PgCancelled
  end.

Definition exhaustion_from (p : ExhaustionPolicy) : PlanExhaustionPolicy :=
  match p with
  | ExhaustFail => PxFail
  | ExhaustYieldLast => PxYieldLast
  | ExhaustDiscard => PxDiscard
  end.

Definition resources_from (r : Resources) : PlanResources := {|
  pr_timeout_ms := timeout_ms r;
  pr_memory_bytes := memory_bytes r;
  pr_output_bytes := output_bytes r;
  pr_attempts := attempts r;
|}.

(** * Capability summaries *)

Definition normalize_strings (l : list string) : list string := sort_dedup (λ s, s) l.

Definition normalize (c : CapabilitySummary) : CapabilitySummary := {|
  sum_read := normalize_strings (sum_read c);
  sum_write := normalize_strings (sum_write c);
  sum_execute := normalize_strings (sum_execute c);
  sum_network := normalize_strings (sum_network c);
|}.

Definition empty_summary : CapabilitySummary :=
  {| sum_read := []; sum_write := []; sum_execute := []; sum_network := [] |}.

Definition extend (c other : CapabilitySummary) : CapabilitySummary :=
  normalize {|
    sum_read := sum_read c ++ sum_read other;
    sum_write := sum_write c ++ sum_write other;
    sum_execute := sum_execute c ++ sum_execute other;
    sum_network := sum_network c ++ sum_network other;
  |}.

(** The grants of a summary, as one relation. *)
Inductive Family : Type := FamRead | FamWrite | FamExecute | FamNetwork.

Definition family (f : Family) (c : CapabilitySummary) : list string :=
  match f with
  | FamRead => sum_read c
  | FamWrite => sum_write c
  | FamExecute => sum_execute c
  | FamNetwork => sum_network c
  end.

(** * Derived orders

    [#[derive(PartialOrd, Ord)]] compares variants by position, then fields
    from the left: an order read through a key. *)

Definition route_outcome_index (o : PlanGateOutcome) : nat :=
  match o with PgValid => 0 | PgInvalid => 1 | PgError => 2 | PgCancelled => 3 end.

Definition route_key (c : RouteCondition) : string * nat :=
  (route_gate c, route_outcome_index (route_outcome c)).

#[export] Instance route_key_inj : Inj (=) (=) route_key.
Proof. intros [g o] [g' o'] [= -> Ho]. by destruct o, o'. Qed.

Definition reference_key (r : PortReference) : string * string := (ref_task r, ref_port r).

#[export] Instance reference_key_inj : Inj (=) (=) reference_key.
Proof. intros [] [] [=]. by subst. Qed.

Definition selection_key (s : ValueSelection) : nat * (string * string) :=
  match s with
  | Direct => (0, ("", ""))
  | LoopInitial l => (1, (l, ""))
  | CurrentIteration l => (2, (l, ""))
  | LoopFinal l => (3, (l, ""))
  | PreviousIteration l s => (4, (l, s))
  end.

#[export] Instance selection_key_inj : Inj (=) (=) selection_key.
Proof. intros [] [] [=]; by subst. Qed.

(** [selection.cmp().then_with(|| from.cmp())]. *)
Definition binding_key (b : ValueBinding) : (nat * (string * string)) * (string * string) :=
  (selection_key (binding_selection b), reference_key (binding_from b)).

#[export] Instance binding_key_inj : Inj (=) (=) binding_key.
Proof.
  intros [f s] [f' s'] [Hs Hf]%pair_equal_spec. simpl in *.
  f_equal; [by apply (inj reference_key)|by apply (inj selection_key)].
Qed.

Definition blocker_key (b : ResolutionBlocker) : nat * (string * string) :=
  match b with
  | UnresolvedProgram task source => (0, (task, source))
  | UncheckedPredicate contract predicate => (1, (contract, predicate))
  end.

#[export] Instance blocker_key_inj : Inj (=) (=) blocker_key.
Proof. intros [] [] [=]; by subst. Qed.

(** * Lemmas on summaries *)

Lemma elem_of_normalize_strings x l : x ∈ normalize_strings l ↔ x ∈ l.
Proof. apply elem_of_sort_dedup. Qed.

Lemma normalize_strings_idemp l : normalize_strings (normalize_strings l) = normalize_strings l.
Proof. apply sort_dedup_idemp; apply _. Qed.

Lemma normalize_strings_ext l l' :
  (∀ x, x ∈ l ↔ x ∈ l') → normalize_strings l = normalize_strings l'.
Proof. apply sort_dedup_ext; apply _. Qed.

Lemma family_normalize f c x : x ∈ family f (normalize c) ↔ x ∈ family f c.
Proof. destruct f; apply elem_of_normalize_strings. Qed.

Lemma family_extend f c d x : x ∈ family f (extend c d) ↔ x ∈ family f c ∨ x ∈ family f d.
Proof. unfold extend. rewrite family_normalize, <-elem_of_app. by destruct f. Qed.

Lemma family_fold f l c x :
  x ∈ family f (foldl extend c l) ↔ x ∈ family f c ∨ ∃ d, d ∈ l ∧ x ∈ family f d.
Proof.
  revert c. induction l as [|d l IH]; intros c; simpl.
  - split; [by left|]. intros [?|(? & ?%elem_of_nil & _)]; done.
  - rewrite IH, family_extend. setoid_rewrite elem_of_cons. naive_solver.
Qed.
