(* ===== verification/PlanConflict.v ===== *)
(** Write conflicts between tasks ([crates/xshell-plan/src/conflict.rs]).

    A plan diagnostic has the shape of a flow one and shares its type. *)
From Stdlib Require Import Ascii.
From S2P Require Import Prelude Graph FlowModel FlowValidate PlanModel.

Definition mutually_exclusive (left right : list RouteCondition) : bool :=
  negb (bool_decide (left = [])) && negb (bool_decide (right = [])) &&
  forallb (λ l, forallb (λ r,
    bool_decide (route_gate l = route_gate r) &&
    negb (bool_decide (route_outcome l = route_outcome r))) right) left.

Definition is_wildcard (c : ascii) : bool := bool_decide (c ∈ ["*"; "?"; "["; "]"]%char).

(** [take_while] over the components of a specification. *)
Fixpoint take_literal (components : list string) : list string :=
  match components with
  | [] => []
  | c :: components => if string_exists is_wildcard c then [] else c :: take_literal components
  end.

Definition literal_prefix (specification : string) : list string :=
  take_literal (split_char "/"%char specification).

(** [prefix.len() <= path.len() && zip.all(==)]. *)
Fixpoint component_prefix (prefix path : list string) : bool :=
  match prefix, path with
  | [], _ => true
  | _, [] => false
  | c :: prefix, d :: path => bool_decide (c = d) && component_prefix prefix path
  end.

Definition path_specs_overlap (left right : string) : bool :=
  let left_prefix := literal_prefix left in
  let right_prefix := literal_prefix right in
  if bool_decide (left_prefix = []) || bool_decide (right_prefix = []) then true
  else component_prefix left_prefix right_prefix || component_prefix right_prefix left_prefix.

(** [Reachability::new]: the successors along every edge but feedback. *)
Definition ordering_edges {V} (flow : Flow V) : list (string * string) :=
  (λ e, (endpoint_node (edge_from e), endpoint_node (edge_to e))) <$>
    filter (λ e, is_feedback (edge_kind e) = false) (flow_edges flow).

Definition push_outgoing (m : gmap string (list string)) (e : string * string) :
    gmap string (list string) :=
  <[e.1 := default [] (m !! e.1) ++ [e.2]]> m.

Definition reachability (edges : list (string * string)) : gmap string (list string) :=
  foldl push_outgoing ∅ edges.

(** [Reachability::reaches]; [None] is fuel running out. *)
Definition reaches (edges : list (string * string)) (start target : string) : option bool :=
  bfs (reachability edges) target (S (length edges)) [start] ∅.

Definition ordered (edges : list (string * string)) (left right : string) : option bool :=
  l ← reaches edges left right;
  if (l : bool) then Some true else reaches edges right left.

Definition conflict (left right : TaskTemplate) (left_path right_path : string) : Diagnostic :=
  error "P0401" ("tasks." +:+ task_id left +:+ ".capabilities.write")
    ("unordered tasks " +:+ debug_str (task_id left) +:+ " and " +:+ debug_str (task_id right) +:+
     " have overlapping write capabilities " +:+ debug_str left_path +:+ " and " +:+
     debug_str right_path).

Definition writes (t : TaskTemplate) : list string := sum_write (task_capabilities t).

Definition routes (t : TaskTemplate) : list RouteCondition := activate_on_any (task_readiness t).

(** The body of the double loop over the tasks. *)
Definition check_pair (edges : list (string * string)) (left right : TaskTemplate) :
    option (list Diagnostic) :=
  if bool_decide (writes left = []) || bool_decide (writes right = []) then Some []
  else
    o ← ordered edges (task_id left) (task_id right);
    if (o : bool) || mutually_exclusive (routes left) (routes right) then Some []
    else Some (l ← writes left; r ← writes right;
               push_if (path_specs_overlap l r) (conflict left right l r)).

Fixpoint check_right (edges : list (string * string)) (left : TaskTemplate)
    (tasks : list TaskTemplate) : option (list Diagnostic) :=
  match tasks with
  | [] => Some []
  | task :: tasks =>
      ds ← check_pair edges left task;
      rest ← check_right edges left tasks;
      Some (ds ++ rest)
  end.

Fixpoint check_tasks (edges : list (string * string)) (tasks : list TaskTemplate) :
    option (list Diagnostic) :=
  match tasks with
  | [] => Some []
  | task :: tasks =>
      ds ← check_right edges task tasks;
      rest ← check_tasks edges tasks;
      Some (ds ++ rest)
  end.

Definition check_write_conflicts {V} (flow : Flow V) (tasks : list TaskTemplate) :
    option (list Diagnostic) := check_tasks (ordering_edges flow) tasks.

Example overlap_examples :
  (path_specs_overlap "generated/**" "generated/model.step",
   path_specs_overlap "output" "output/report.json", path_specs_overlap "**" "anything",
   path_specs_overlap "mesh.msh" "analysis.json", path_specs_overlap "left/**" "right/**") =
  (true, true, true, false, false).
Proof. vm_compute. reflexivity. Qed.

(** * Overlap *)

(** [path] starts with the literal components of [spec]: every path a
    specification can select does, since only its later components hold
    wildcards. *)
Definition may_cover (spec : string) (path : list string) : Prop :=
  literal_prefix spec `prefix_of` path.

Lemma component_prefix_spec p q : component_prefix p q = true ↔ p `prefix_of` q.
Proof.
  revert q. induction p as [|c p IH]; intros [|d q]; simpl.
  - split; [|done]. intros _. apply prefix_nil.
  - split; [|done]. intros _. apply prefix_nil.
  - split; [done|]. by intros ?%prefix_nil_not.
  - rewrite andb_true_iff, bool_decide_eq_true, IH. split.
    + intros [-> ?]. by apply prefix_cons.
    + intros Hp. split; [by eapply prefix_cons_inv_1|by eapply prefix_cons_inv_2].
Qed.

Lemma path_specs_overlap_spec l r :
  path_specs_overlap l r = true ↔ ∃ path, may_cover l path ∧ may_cover r path.
Proof.
  unfold path_specs_overlap, may_cover.
  destruct (decide (literal_prefix l = [])) as [->|Hl].
  { simpl. split; [|done]. intros _. exists (literal_prefix r). split; [apply prefix_nil|done]. }
  destruct (decide (literal_prefix r = [])) as [->|Hr].
  { rewrite orb_true_r. split; [|done]. intros _. exists (literal_prefix l).
    split; [done|apply prefix_nil]. }
  rewrite !bool_decide_false by done. simpl. rewrite orb_true_iff, !component_prefix_spec. split.
  - intros [?|?]; eauto.
  - intros (path & ? & ?). by eapply prefix_weak_total.
Qed.

(** * Exclusive routes *)

(** A task is active when one of its routes is taken, or it has none. *)
Definition active (outcomes : string → PlanGateOutcome) (conditions : list RouteCondition) : Prop :=
  conditions = [] ∨ ∃ c, c ∈ conditions ∧ outcomes (route_gate c) = route_outcome c.

Lemma forallb_elem_of {A} (f : A → bool) l : forallb f l = true ↔ ∀ x, x ∈ l → f x = true.
Proof. rewrite forallb_forall. by setoid_rewrite list_elem_of_In. Qed.

Lemma active_one c conditions :
  c ∈ conditions → active (λ _, route_outcome c) conditions.
Proof. intros Hc. right. by exists c. Qed.

Lemma mutually_exclusive_true l r :
  mutually_exclusive l r = true ↔
    l ≠ [] ∧ r ≠ [] ∧
    ∀ c d, c ∈ l → d ∈ r → route_gate c = route_gate d ∧ route_outcome c ≠ route_outcome d.
Proof.
  unfold mutually_exclusive. rewrite !andb_true_iff, !negb_true_iff, !bool_decide_eq_false.
  rewrite forallb_elem_of. setoid_rewrite forallb_elem_of.
  setoid_rewrite andb_true_iff. setoid_rewrite negb_true_iff.
  setoid_rewrite bool_decide_eq_true. setoid_rewrite bool_decide_eq_false. naive_solver.
Qed.

(** The test is exact: two tasks are exclusive just when no outcome of the
    gates activates both. *)
Lemma mutually_exclusive_spec l r :
  mutually_exclusive l r = true ↔ ∀ outcomes, ¬ (active outcomes l ∧ active outcomes r).
Proof.
  rewrite mutually_exclusive_true. split.
  - intros (Hl & Hr & Hlr) outcomes [[?|(c & Hc & Ho)] [?|(d & Hd & Ho')]]; try done.
    destruct (Hlr c d Hc Hd) as [Hg Hne]. congruence.
  - intros Hno.
    assert (l ≠ []) as Hl.
    { intros ->. destruct r as [|d r]; [apply (Hno (λ _, PgValid)); split; by left|].
      apply (Hno (λ _, route_outcome d)). split; [by left|]. apply active_one. by left. }
    assert (r ≠ []) as Hr.
    { intros ->. destruct l as [|c l]; [done|].
      apply (Hno (λ _, route_outcome c)). split; [|by left]. apply active_one. by left. }
    split_and!; [done..|]. intros c d Hc Hd.
    destruct (decide (route_gate c = route_gate d)) as [Hg|Hg].
    + split; [done|]. intros Ho. apply (Hno (λ _, route_outcome c)).
      split; [by apply active_one|]. right. by exists d.
    + exfalso. apply (Hno (λ g, if decide (g = route_gate c) then route_outcome c else route_outcome d)).
      split; right; [exists c|exists d]; (split; [done|]); by case_decide.
Qed.

(** * The check *)

Lemma reachability_targets E u : default [] (reachability E !! u) = targets E u.
Proof.
  unfold reachability. induction E as [|e E IH] using rev_ind; [done|].
  rewrite foldl_app, targets_snoc, <-IH. simpl. unfold push_outgoing.
  destruct (decide (e.1 = u)) as [<-|Hne].
  - by rewrite lookup_insert_eq.
  - by rewrite lookup_insert_ne, (right_id_L [] (++)).
Qed.

Lemma reaches_spec E start target :
  ∃ b, reaches E start target = Some b ∧ (b = true ↔ tc (edge E) start target).
Proof. apply bfs_spec, reachability_targets. Qed.

Definition Ordered (E : list (string * string)) (l r : string) : Prop :=
  tc (edge E) l r ∨ tc (edge E) r l.

Lemma ordered_spec E l r : ∃ b, ordered E l r = Some b ∧ (b = true ↔ Ordered E l r).
Proof.
  unfold ordered, Ordered. destruct (reaches_spec E l r) as (b & -> & Hb). simpl.
  destruct b; [exists true; split; [done|]; tauto|].
  destruct (reaches_spec E r l) as (b' & -> & Hb'). exists b'. split; [done|]. naive_solver.
Qed.

(** Two tasks may write in any order: no path in common, or an order between
    them, or never both active. *)
Definition PairOk (E : list (string * string)) (left right : TaskTemplate) : Prop :=
  ∀ l r, l ∈ writes left → r ∈ writes right → path_specs_overlap l r = true →
    Ordered E (task_id left) (task_id right) ∨
    mutually_exclusive (routes left) (routes right) = true.

Lemma bind_nil {A B} (f : A → list B) l : mbind f l = [] ↔ ∀ x, x ∈ l → f x = [].
Proof.
  induction l as [|x l IH]; simpl; [split; [by intros _ ? ?%elem_of_nil|done]|].
  rewrite app_nil_iff, IH. setoid_rewrite elem_of_cons. naive_solver.
Qed.

Lemma check_pair_spec E l r :
  ∃ ds, check_pair E l r = Some ds ∧ (ds = [] ↔ PairOk E l r).
Proof.
  unfold check_pair, PairOk.
  destruct (decide (writes l = [])) as [Hl|Hl].
  { rewrite bool_decide_true by done. exists []. rewrite Hl. set_solver. }
  destruct (decide (writes r = [])) as [Hr|Hr].
  { rewrite (bool_decide_true (writes r = [])), orb_true_r by done. exists []. rewrite Hr. set_solver. }
  rewrite !bool_decide_false by done. simpl.
  destruct (ordered_spec E (task_id l) (task_id r)) as (o & -> & Ho). simpl.
  destruct (o || mutually_exclusive (routes l) (routes r)) eqn:Hox.
  { exists []. split; [done|]. apply orb_true_iff in Hox. naive_solver. }
  apply orb_false_iff in Hox as [-> Hx]. eexists. split; [done|]. rewrite bind_nil.
  setoid_rewrite bind_nil. setoid_rewrite push_if_nil. split.
  - intros Hno p q Hp Hq Hov. by rewrite (Hno p Hp q Hq) in Hov.
  - intros Hok p Hp q Hq. destruct (path_specs_overlap p q) eqn:Hov; [|done].
    destruct (Hok p q Hp Hq Hov) as [?%Ho|?]; [done|congruence].
Qed.

Lemma check_right_spec E l ts :
  ∃ ds, check_right E l ts = Some ds ∧ (ds = [] ↔ Forall (PairOk E l) ts).
Proof.
  induction ts as [|t ts (rest & IH & Hrest)]; simpl; [by exists []|].
  destruct (check_pair_spec E l t) as (ds & -> & Hds). simpl. rewrite IH. simpl.
  eexists. split; [done|]. by rewrite app_nil_iff, Forall_cons, Hds, Hrest.
Qed.

Lemma check_tasks_spec E ts :
  ∃ ds, check_tasks E ts = Some ds ∧
    (ds = [] ↔ ∀ i j l r, i < j → ts !! i = Some l → ts !! j = Some r → PairOk E l r).
Proof.
  induction ts as [|t ts (rest & IH & Hrest)]; simpl; [by exists []|].
  destruct (check_right_spec E t ts) as (ds & -> & Hds). simpl. rewrite IH. simpl.
  eexists. split; [done|]. rewrite app_nil_iff, Hds, Hrest, Forall_lookup. split.
  - intros [Ht Hts] [|i] [|j] l r Hij Hi Hj; simplify_eq/=; [lia|eauto|lia|].
    eapply (Hts i j); eauto with lia.
  - intros Hall. split.
    + intros i r Hr. apply (Hall 0 (S i)); [lia|done..].
    + intros i j l r Hij Hi Hj. apply (Hall (S i) (S j)); [lia|done..].
Qed.

Lemma PairOk_sym E l r : PairOk E l r → PairOk E r l.
Proof.
  intros Hok p q Hp Hq Hov.
  destruct (Hok q p Hq Hp) as [[?|?]|Hx].
  - apply path_specs_overlap_spec in Hov as (? & ? & ?). apply path_specs_overlap_spec. eauto.
  - left. by right.
  - left. by left.
  - right. apply mutually_exclusive_spec. rewrite mutually_exclusive_spec in Hx.
    intros o [? ?]. by apply (Hx o).
Qed.

Lemma check_write_conflicts_spec {V} (flow : Flow V) tasks :
  ∃ ds, check_write_conflicts flow tasks = Some ds ∧
    (ds = [] ↔ ∀ i j l r, i ≠ j → tasks !! i = Some l → tasks !! j = Some r →
               PairOk (ordering_edges flow) l r).
Proof.
  destruct (check_tasks_spec (ordering_edges flow) tasks) as (ds & Hds & Hnil).
  exists ds. split; [done|]. rewrite Hnil. split.
  - intros Hall i j l r Hij Hi Hj. destruct (decide (i < j)); [by eapply (Hall i j)|].
    apply PairOk_sym, (Hall j i); [lia|done..].
  - intros Hall i j l r Hij. apply Hall. lia.
Qed.
