(* ===== verification/PlanLower.v ===== *)
(** Lowering a flow to a plan ([crates/xshell-plan/src/lower.rs]).

    [Panic] stands for every [expect], [unreachable!] and index of a missing
    key, and for a loop that outruns its fuel; [PlanLowerSpec] shows that none
    of them is reached. [semantic_hash] is [Flow::semantic_hash]
    ([FlowHash]). *)
From Stdlib Require Import Ascii.
From S2P Require Import Prelude Graph FlowModel FlowValidate PlanModel PlanConflict.

(** * Workspace paths *)

Fixpoint normalize_components (path : string) (components : list string) :
    Outcome string (list string) :=
  match components with
  | [] => Done []
  | c :: components =>
      if bool_decide (c = "") then
        Fail ("workspace path " +:+ debug_str path +:+ " contains an empty component")
      else if bool_decide (c = ".") then normalize_components path components
      else if bool_decide (c = "..") then
        Fail ("workspace path " +:+ debug_str path +:+ " escapes its workspace")
      else let! rest := normalize_components path components in Done (c :: rest)
  end.

Definition normalize_workspace_path (path : string) (allow_dot : bool) : Outcome string string :=
  if starts_with "/"%char path then
    Fail ("workspace path " +:+ debug_str path +:+ " must be relative")
  else if contains_char backslash path then
    Fail ("workspace path " +:+ debug_str path +:+ " must use '/' separators")
  else
    let! components := normalize_components path (split_char "/"%char path) in
    match components with
    | [] =>
        if allow_dot then Done "."
        else Fail ("workspace path " +:+ debug_str path +:+ " does not select a path")
    | _ => Done (join "/" components)
    end.

(** [Result::expect]. *)
Definition expect_ok {E F A} (o : Outcome F A) : Outcome E A :=
  match o with Done a => Done a | _ => Panic end.

Definition checked_paths {E} (paths : list string) : Outcome E (list string) :=
  outcome_map (λ path, expect_ok (normalize_workspace_path path false)) paths.

Definition normalized_capabilities {E} (c : Capabilities) : Outcome E CapabilitySummary :=
  let! read := checked_paths (cap_read c) in
  let! write := checked_paths (cap_write c) in
  Done (normalize {| sum_read := read; sum_write := write; sum_execute := cap_execute c;
                     sum_network := cap_network c |}).

Definition port_reference {E} (e : Endpoint) : Outcome E PortReference :=
  let! port := expect (endpoint_port e) in
  Done {| ref_task := endpoint_node e; ref_port := port |}.

(** [filter] with a predicate that may panic. *)
Fixpoint outcome_filter {E A} (f : A → Outcome E bool) (l : list A) : Outcome E (list A) :=
  match l with
  | [] => Done []
  | x :: l =>
      let! b := f x in
      let! rest := outcome_filter f l in
      Done (if (b : bool) then x :: rest else rest)
  end.

(** [find] with a predicate that may panic. *)
Fixpoint outcome_find {E A} (f : A → Outcome E bool) (l : list A) : Outcome E (option A) :=
  match l with
  | [] => Done None
  | x :: l => let! b := f x in if (b : bool) then Done (Some x) else outcome_find f l
  end.

Fixpoint collect_predicate_blockers {V} (contract : string) (e : ContractExpression V) :
    list ResolutionBlocker :=
  match e with
  | CePredicate name _ => [UncheckedPredicate contract name]
  | CeAll clauses | CeAny clauses =>
      (fix go (l : list (ContractExpression V)) :=
         match l with [] => [] | c :: l => collect_predicate_blockers contract c ++ go l end) clauses
  | CeNot clause => collect_predicate_blockers contract clause
  end.

Section planner.
Context {V : Type} (flow : Flow V).
Implicit Types (node : Node V) (region : Region V) (paths : gmap string (list string)).

Abbreviation M := (Outcome (list Diagnostic)).

(** * Regions *)

Definition region_fuel : nat := S (length (flow_regions flow)).

(** [while let Some(id) = current { ...; current = self.regions[id].parent }]:
    the ids visited. *)
Fixpoint walk_regions (fuel : nat) (current : option string) : M (list string) :=
  match current with
  | None => Done []
  | Some id =>
      match fuel with
      | O => Panic
      | S fuel =>
          let! region := expect (regions_index flow !! id) in
          let! rest := walk_regions fuel (region_parent region) in
          Done (id :: rest)
      end
  end.

Definition region_depth (id : string) : M nat :=
  let! region := expect (regions_index flow !! id) in
  let! l := walk_regions region_fuel (region_parent region) in
  Done (length l).

Fixpoint is_ancestor_loop (fuel : nat) (candidate : string) (current : option string) : M bool :=
  match current with
  | None => Done false
  | Some id =>
      if bool_decide (id = candidate) then Done true
      else match fuel with
           | O => Panic
           | S fuel => is_ancestor_loop fuel candidate (region_parent_of flow id)
           end
  end.

Definition is_ancestor (candidate region : string) : M bool :=
  is_ancestor_loop region_fuel candidate (region_parent_of flow region).

Definition check_related (node : Node V) (l r : Region V) : M (list Diagnostic) :=
  let! a := is_ancestor (region_id l) (region_id r) in
  if (a : bool) then Done []
  else
    let! b := is_ancestor (region_id r) (region_id l) in
    if (b : bool) then Done []
    else Done [error "P0101" ("nodes." +:+ node_id node +:+ ".regions")
      ("node belongs to unrelated regions " +:+ debug_str (region_id l) +:+ " and " +:+
       debug_str (region_id r) +:+ "; regions must form a lexical parent chain")].

Fixpoint check_unrelated (node : Node V) (direct : list (Region V)) : M (list Diagnostic) :=
  match direct with
  | [] => Done []
  | l :: direct =>
      let! ds := outcome_map (check_related node l) direct in
      let! rest := check_unrelated node direct in
      Done (concat ds ++ rest)
  end.

Definition is_kind (p : RegionKind → bool) (id : string) : M bool :=
  let! region := expect (regions_index flow !! id) in Done (p (region_kind region)).

Definition direct_regions (node : Node V) : list (Region V) :=
  filter (λ r, node_id node ∈ region_nodes r) (flow_regions flow).

(** The regions around a node, outermost first. *)
Definition node_path (node : Node V) : M (list string) :=
  let! chains := outcome_map (λ r, walk_regions region_fuel (Some (region_id r)))
                   (direct_regions node) in
  let all : gset string := list_to_set (concat chains) in
  let! keyed := outcome_map (λ id, let! depth := region_depth id in Done (depth, id))
                  (sort_strings (elements all)) in
  Done (sort_on (λ p : nat * string, p) keyed).*2.

(** The body of the loop of [region_paths]. *)
Definition region_path (node : Node V) : M (list Diagnostic * list string) :=
  let! unrelated := check_unrelated node (direct_regions node) in
  let! path := node_path node in
  let! loops := outcome_filter (is_kind is_loop) path in
  Done (unrelated ++ push_if (bool_decide (1 < length loops))
          (error "P0102" ("nodes." +:+ node_id node +:+ ".regions")
             "Plan V0 does not support nested loop regions"), path).

Definition region_paths : M (list Diagnostic * gmap string (list string)) :=
  let! l := outcome_map region_path (flow_nodes flow) in
  Done (concat l.*1, btree_collect fst snd (zip (node_id <$> flow_nodes flow) l.*2)).

(** The innermost region of a kind on a path. *)
Definition innermost (p : RegionKind → bool) (path : list string) : M (option string) :=
  outcome_find (is_kind p) (reverse path).

Definition loop_for (node : string) (paths : gmap string (list string)) : M (option string) :=
  let! path := expect (paths !! node) in innermost is_loop path.

(** * Checks *)

Definition path_error (code path message : string) : list Diagnostic := [error code path message].

Definition check_path (code where_ : string) (allow_dot : bool) (path : string) : list Diagnostic :=
  match normalize_workspace_path path allow_dot with
  | Fail message => [error code where_ message]
  | _ => []
  end.

Definition check_paths (code where_ : string) (paths : list string) : list Diagnostic :=
  scan_each (λ i, check_path code (at_index where_ i) false) paths.

Definition check_bound (node : Node V) (field : string) (value : option N) : list Diagnostic :=
  push_if (bool_decide (value = Some 0%N))
    (error "P0204" ("nodes." +:+ node_id node +:+ ".resources." +:+ field)
       "resource bounds must be greater than zero").

Definition check_node_capabilities (node : Node V) : list Diagnostic :=
  check_paths "P0201" ("nodes." +:+ node_id node +:+ ".capabilities.read")
    (cap_read (node_capabilities node)) ++
  check_paths "P0201" ("nodes." +:+ node_id node +:+ ".capabilities.write")
    (cap_write (node_capabilities node)) ++
  match node_kind node with
  | NkPromote ps => check_paths "P0202" ("nodes." +:+ node_id node +:+ ".paths") ps
  | _ => []
  end ++
  check_bound node "timeout_ms" (timeout_ms (node_resources node)) ++
  check_bound node "memory_bytes" (memory_bytes (node_resources node)) ++
  check_bound node "output_bytes" (output_bytes (node_resources node)) ++
  check_bound node "attempts" (attempts (node_resources node)).

Definition check_workspace (region : Region V) : list Diagnostic :=
  match region_kind region with
  | RkTransaction workspace =>
      check_path "P0203" ("regions." +:+ region_id region +:+ ".workspace") true workspace
  | _ => []
  end.

Definition check_capability_paths : list Diagnostic :=
  scan_each (λ _, check_node_capabilities) (flow_nodes flow) ++
  scan_each (λ _, check_workspace) (flow_regions flow).

Definition check_crossing (paths : gmap string (list string)) (e : Edge) : M (list Diagnostic) :=
  let! from_loop := loop_for (endpoint_node (edge_from e)) paths in
  let! to_loop := loop_for (endpoint_node (edge_to e)) paths in
  Done (push_if (negb (is_feedback (edge_kind e)) && bool_decide (is_Some from_loop) &&
                 bool_decide (is_Some to_loop) && negb (bool_decide (from_loop = to_loop)))
          (error "P0301" ("edges." +:+ edge_id e)
             "Plan V0 cannot bind values directly between different loop regions")).

(** A data edge into the same port from outside the members. *)
Definition is_initial (members : list string) (feedback e : Edge) : bool :=
  is_data (edge_kind e) && bool_decide (edge_to e = edge_to feedback) &&
  negb (bool_decide (endpoint_node (edge_from e) ∈ members)).

Definition initials (members : list string) (feedback : Edge) : list Edge :=
  filter (λ e, is_initial members feedback e = true) (flow_edges flow).

(** The feedback edges of a loop, with their states. *)
Definition feedback_of (region : Region V) (e : Edge) : option (Edge * string) :=
  match edge_kind e with
  | EkFeedback loop_region state =>
      if bool_decide (loop_region = region_id region) then Some (e, state) else None
  | _ => None
  end.

Definition feedbacks (region : Region V) : list (Edge * string) :=
  omap (feedback_of region) (flow_edges flow).

Definition check_loop_states (region : Region V) : list Diagnostic :=
  scan (λ _ (states : gset string) (f : Edge * string),
    (push_if (negb (is_new f.2 states))
       (error "P0302" ("edges." +:+ edge_id f.1 +:+ ".state")
          ("duplicate feedback state " +:+ debug_str f.2 +:+ " in loop " +:+
           debug_str (region_id region))) ++
     push_if (negb (bool_decide (length (initials (region_nodes region) f.1) = 1)))
       (error "P0303" ("edges." +:+ edge_id f.1)
          ("loop feedback state " +:+ debug_str f.2 +:+
           " requires exactly one initial producer outside the loop; found " +:+
           fmt_nat (length (initials (region_nodes region) f.1)))),
     {[f.2]} ∪ states)) 0 ∅ (feedbacks region).

Definition check_loop_boundaries (paths : gmap string (list string)) : M (list Diagnostic) :=
  let! crossings := outcome_map (check_crossing paths) (flow_edges flow) in
  Done (concat crossings ++
        scan_each (λ _ region, if is_loop (region_kind region) then check_loop_states region else [])
          (flow_regions flow)).

(** * Tasks *)

Definition lower_value_binding (paths : gmap string (list string)) (e : Edge) : M ValueBinding :=
  let! from_loop := loop_for (endpoint_node (edge_from e)) paths in
  let! to_loop := loop_for (endpoint_node (edge_to e)) paths in
  let! selection :=
    match edge_kind e with
    | EkFeedback loop_region state => Done (PreviousIteration loop_region state)
    | EkData =>
        match from_loop, to_loop with
        | None, None => Done Direct
        | None, Some loop_region => Done (LoopInitial loop_region)
        | Some l, Some r => if bool_decide (l = r) then Done (CurrentIteration l) else Panic
        | Some loop_region, None => Done (LoopFinal loop_region)
        end
    | _ => Panic
    end in
  let! from := port_reference (edge_from e) in
  Done {| binding_from := from; binding_selection := selection |}.

Definition is_value_edge (k : EdgeKind) : bool := is_data k || is_feedback k.

(** The value edges into an input port. *)
Definition sources_of (node : Node V) (port : Port) : list Edge :=
  filter (λ e, bool_decide (endpoint_node (edge_to e) = node_id node) &&
               bool_decide (endpoint_port (edge_to e) = Some (port_name port)) &&
               is_value_edge (edge_kind e) = true) (flow_edges flow).

Definition lower_input (paths : gmap string (list string)) (node : Node V) (port : Port) :
    M InputBinding :=
  let! sources := outcome_map (lower_value_binding paths) (sources_of node port) in
  Done {| binding_port := port_from port; binding_sources := sort_on binding_key sources |}.

(** The sources of the edges of a kind into a node. *)
Definition predecessors (p : EdgeKind → bool) (node : Node V) : list string :=
  (λ e, endpoint_node (edge_from e)) <$>
    filter (λ e, bool_decide (endpoint_node (edge_to e) = node_id node) && p (edge_kind e) = true)
      (flow_edges flow).

Definition route_of (node : Node V) (e : Edge) : option RouteCondition :=
  if negb (bool_decide (endpoint_node (edge_to e) = node_id node)) then None
  else match edge_kind e with
       | EkRoute outcome => Some {| route_gate := endpoint_node (edge_from e);
                                    route_outcome := outcome_from outcome |}
       | _ => None
       end.

Definition lower_operation (node : Node V) : M TaskOperation :=
  match node_kind node with
  | NkInput => Done OpInput
  | NkOutput => Done OpOutput
  | NkTask program => Done (OpProgram (program_source program) (program_entrypoint program) None)
  | NkGate contract => Done (OpGate contract)
  | NkJoin strategy => Done (OpJoin (strategy_from strategy))
  | NkPromote ps => let! ps := checked_paths ps in Done (OpPromote (normalize_strings ps))
  | NkDiscard => Done OpDiscard
  end.

Definition readiness_mode (node : Node V) : ReadinessMode :=
  match node_kind node with
  | NkJoin JoinAny | NkJoin JoinFirstValid => ReadyAny
  | _ => ReadyAll
  end.

Definition lower_task (paths : gmap string (list string)) (node : Node V) : M TaskTemplate :=
  let! loop_context := loop_for (node_id node) paths in
  let! path := expect (paths !! node_id node) in
  let! transaction := innermost is_transaction path in
  let! inputs := outcome_map (lower_input paths node) (node_inputs node) in
  let! operation := lower_operation node in
  let! capabilities := normalized_capabilities (node_capabilities node) in
  Done {|
    task_id := node_id node;
    task_operation := operation;
    task_inputs := sort_on (λ b, pport_name (binding_port b)) inputs;
    task_outputs := sort_on pport_name (port_from <$> node_outputs node);
    task_readiness := {|
      ready_data := {| data_mode := readiness_mode node;
                       data_tasks := normalize_strings (predecessors is_data node) |};
      ready_after := normalize_strings (predecessors is_dependency node);
      activate_on_any := sort_dedup route_key (omap (route_of node) (flow_edges flow)) |};
    task_region_path := path;
    task_transaction := transaction;
    task_loop_context := loop_context;
    task_capabilities := capabilities;
    task_resources := resources_from (node_resources node) |}.

(** * Order *)

Definition included (members : option (list string)) (node : string) : bool :=
  match members with None => true | Some members => bool_decide (node ∈ members) end.

Definition order_nodes (members : option (list string)) : list string :=
  filter (λ n, included members n = true) (node_id <$> flow_nodes flow).

Definition order_edges (members : option (list string)) : list (string * string) :=
  filter (λ e, included members e.1 && included members e.2 = true) (ordering_edges flow).

Definition topological_order (members : option (list string)) : M (list string) :=
  let t := tables (order_nodes members) (order_edges members) in
  expect (kahn (S (length (order_nodes members))) (sort_strings <$> outgoing t) (degree t)
            {| tree := zero_degree (degree t) |} []).

(** * Regions and loops *)

Definition lower_region (region : Region V) : M RegionTemplate :=
  let! kind :=
    match region_kind region with
    | RkScope => Done PrScope
    | RkParallel => Done PrParallel
    | RkTransaction workspace =>
        let! workspace := expect_ok (normalize_workspace_path workspace true) in
        Done (PrTransaction workspace)
    | RkLoop _ _ _ => Done PrLoop
    end in
  Done {| rt_id := region_id region; rt_parent := region_parent region; rt_kind := kind;
          rt_direct_members := normalize_strings (region_nodes region) |}.

Definition lower_regions : M (list RegionTemplate) :=
  let! regions := outcome_map lower_region (flow_regions flow) in
  Done (sort_on rt_id regions).

Definition lower_state (region : Region V) (f : Edge * string) : M LoopState :=
  let! initial := expect (head (initials (region_nodes region) f.1)) in
  let! target_node := expect (nodes_index flow !! endpoint_node (edge_to f.1)) in
  let! target_port := expect (endpoint_port (edge_to f.1)) in
  let! port := expect (find_port (node_inputs target_node) target_port) in
  let! target := port_reference (edge_to f.1) in
  let! initial_ref := port_reference (edge_from initial) in
  let! feedback_ref := port_reference (edge_from f.1) in
  Done {| state_name := f.2; state_type := value_type_from (port_value_type port);
          state_target := target; state_initial := initial_ref; state_feedback := feedback_ref |}.

Definition lower_loop (region : Region V) : M (option LoopTemplate) :=
  match region_kind region with
  | RkLoop max_iterations until on_exhausted =>
      let! states := outcome_map (lower_state region) (feedbacks region) in
      let! body := topological_order (Some (region_nodes region)) in
      Done (Some {|
        loop_id := region_id region;
        loop_body_order := body;
        loop_max_iterations := max_iterations;
        loop_until := {| route_gate := until_gate until;
                         route_outcome := outcome_from (until_outcome until) |};
        loop_on_exhausted := exhaustion_from on_exhausted;
        loop_states := sort_on state_name states |})
  | _ => Done None
  end.

Definition lower_loops : M (list LoopTemplate) :=
  let! loops := outcome_map lower_loop (flow_regions flow) in
  Done (sort_on loop_id (omap id loops)).

(** * The plan *)

Definition lower_tasks (paths : gmap string (list string)) : M (list TaskTemplate) :=
  let! order := topological_order None in
  outcome_map (λ id, let! node := expect (nodes_index flow !! id) in lower_task paths node) order.

Definition program_blocker (task : TaskTemplate) : option ResolutionBlocker :=
  match task_operation task with
  | OpProgram source _ _ => Some (UnresolvedProgram (task_id task) source)
  | _ => None
  end.

Definition plan_blockers (tasks : list TaskTemplate) : list ResolutionBlocker :=
  sort_dedup blocker_key
    (omap program_blocker tasks ++
     (c ← flow_contracts flow; collect_predicate_blockers (contract_id c) (contract_expression c))).

Definition lower_contract (c : Contract V) : PlanContract V :=
  {| pcontract_id := contract_id c; pcontract_expression := expression_from (contract_expression c) |}.

(** [vec.is_empty() => continue, return Err(finish_error())]. *)
Definition stop_if_any (ds : list Diagnostic) : M () :=
  match ds with [] => Done () | _ => Fail ds end.

Definition lower (semantic_hash : Flow V → option string) : M (Plan V) :=
  match validate flow with
  | Panic => Panic
  | Fail ds =>
      Fail ((λ d, error ("P-" +:+ diag_code d) (diag_path d) (diag_message d)) <$> ds)
  | Done _ =>
      let! r := region_paths in
      let! boundaries := check_loop_boundaries r.2 in
      let! _ := stop_if_any (r.1 ++ check_capability_paths ++ boundaries) in
      let! tasks := lower_tasks r.2 in
      let! loops := lower_loops in
      let! regions := lower_regions in
      let! conflicts := expect (check_write_conflicts flow tasks) in
      let! _ := stop_if_any conflicts in
      let! hash := expect (semantic_hash flow) in
      Done {|
        plan_schema := PLAN_SCHEMA_V0;
        plan_name := flow_name flow;
        plan_flow := {| identity_schema := flow_schema flow; semantic_sha256 := hash |};
        plan_interface := {|
          pinterface_inputs := sort_on pport_name (port_from <$> interface_inputs (flow_interface flow));
          pinterface_outputs :=
            sort_on pport_name (port_from <$> interface_outputs (flow_interface flow)) |};
        plan_contracts := sort_on pcontract_id (lower_contract <$> flow_contracts flow);
        plan_tasks := tasks;
        plan_regions := regions;
        plan_loops := loops;
        plan_capabilities := foldl extend empty_summary (task_capabilities <$> tasks);
        plan_resolution := {| fully_resolved := bool_decide (plan_blockers tasks = []);
                              blockers := plan_blockers tasks |} |}
  end.
End planner.
