(* ===== verification/PlanLowerSpec.v ===== *)
(** Correctness of plan lowering: what [normalize_workspace_path] accepts stays
    in the workspace; on a well-formed flow nothing panics, and an accepted plan
    keeps what the flow says. *)
From Stdlib Require Import Ascii.
From stdpp Require Import relations sorting.
From S2P Require Import Prelude Graph FlowModel FlowValidate FlowSpec FlowHash PlanModel PlanConflict PlanLower.

(** ** Workspace paths *)

(** A relative path of proper components: it cannot leave its workspace. *)
Definition proper (component : string) : Prop :=
  component ≠ "" ∧ component ≠ "." ∧ component ≠ ".." ∧ contains_char "/"%char component = false ∧
  contains_char backslash component = false.

Definition SafePath (path : string) : Prop :=
  ∃ components, components ≠ [] ∧ Forall proper components ∧ path = join "/" components.

Definition kept (components : list string) : list string := filter (λ c, c ≠ ".") components.

Lemma normalize_components_spec path cs :
  normalize_components path cs = Done (kept cs) ∧ "" ∉ cs ∧ ".." ∉ cs ∨
  (∃ m, normalize_components path cs = Fail m) ∧ ("" ∈ cs ∨ ".." ∈ cs).
Proof.
  induction cs as [|c cs IH]; simpl; [left; split_and!; [done|apply not_elem_of_nil..]|].
  unfold kept. rewrite filter_cons. fold (kept cs). setoid_rewrite elem_of_cons.
  repeat (case_bool_decide; [naive_solver|]).
  rewrite decide_True by done.
  destruct IH as [(-> & ? & ?)|[[m ->] ?]]; simpl; naive_solver.
Qed.

Lemma contains_split path sep c w :
  contains_char c path = false → w ∈ split_char sep path → contains_char c w = false.
Proof.
  unfold contains_char, split_char, split_on. intros Hc (l & -> & Hl)%list_elem_of_fmap.
  rewrite string_exists_chars, chars_of_chars. rewrite string_exists_chars in Hc.
  apply existsb_false. rewrite existsb_false in Hc. intros x Hx. apply Hc.
  clear Hc. revert l Hl Hx. generalize (chars path) as k. intros k. 
  induction k as [|y k IH]; intros l; simpl.
  - intros ->%list_elem_of_singleton. by intros ?%elem_of_nil.
  - case_bool_decide.
    + intros [->|Hl]%elem_of_cons Hx; [by apply elem_of_nil in Hx|]. right. by eapply IH.
    + destruct (pieces _ k) as [|v vs] eqn:Hk; [by apply pieces_not_nil in Hk|].
      intros [->|Hl]%elem_of_cons Hx.
      * apply elem_of_cons in Hx as [->|Hx]; [by left|]. right. eapply IH; [by left|done].
      * right. eapply IH; [by right|done].
Qed.

Lemma kept_proper path :
  contains_char backslash path = false → "" ∉ split_char "/"%char path →
  ".." ∉ split_char "/"%char path → Forall proper (kept (split_char "/"%char path)).
Proof.
  intros Hb He Hd. apply Forall_forall. intros c [Hdot Hc]%list_elem_of_filter.
  split_and!; [by intros ->|done|by intros ->|by eapply split_char_clean|by eapply contains_split].
Qed.

Lemma contains_join c sep ws :
  c ≠ sep → Forall (λ w, contains_char c w = false) ws →
  contains_char c (join (String sep "") ws) = false.
Proof.
  intros Hc Hws. induction Hws as [|w ws Hw Hws IH]; [done|].
  destruct ws as [|v ws]; [done|].
  change (join (String sep "") (w :: v :: ws)) with (w +:+ String sep "" +:+ join (String sep "") (v :: ws)).
  rewrite !contains_char_app, Hw, IH. unfold contains_char. simpl. by rewrite bool_decide_false.
Qed.

Lemma normalize_safe cs b :
  cs ≠ [] → Forall proper cs → normalize_workspace_path (join "/" cs) b = Done (join "/" cs).
Proof.
  intros Hne Hcs. assert (split_char "/"%char (join "/" cs) = cs) as Hsplit.
  { apply split_join; [done|]. eapply Forall_impl; [exact Hcs|]. by intros c (_ & _ & _ & ? & _). }
  unfold normalize_workspace_path. rewrite Hsplit.
  assert (starts_with "/"%char (join "/" cs) = false) as ->.
  { destruct cs as [|c cs]; [done|]. inversion Hcs as [|? ? (Hc & _ & _ & Hs & _) _]; subst.
    destruct c as [|x c]; [done|]. unfold contains_char in Hs. simpl in Hs.
    apply orb_false_iff in Hs as [Hs _]. by destruct cs. }
  rewrite (contains_join backslash "/"%char cs); [|done|].
  2: { eapply Forall_impl; [exact Hcs|]. by intros c (_ & _ & _ & _ & ?). }
  rewrite Forall_forall in Hcs.
  destruct (normalize_components_spec (join "/" cs) cs) as [(-> & _ & _)|[_ [Hin|Hin]]].
  - unfold kept. rewrite filter_all by (intros c Hc; by apply (Hcs c Hc)). simpl. by destruct cs.
  - by destruct (Hcs _ Hin) as (? & _).
  - by destruct (Hcs _ Hin) as (_ & _ & ? & _).
Qed.

(** A normalised path never leaves its workspace, names something in it (or,
    where that is allowed, the workspace itself), and normalising it again
    changes nothing. *)
Lemma normalize_workspace_path_safe (path q : string) (b : bool) :
  normalize_workspace_path path b = Done q →
  (SafePath q ∨ b = true ∧ q = ".") ∧ normalize_workspace_path q b = Done q.
Proof.
  unfold normalize_workspace_path at 1. destruct starts_with; [done|].
  destruct (contains_char backslash path) eqn:Hb; [done|].
  destruct (normalize_components_spec path (split_char "/"%char path)) as [(-> & He & Hd)|[[m ->] _]];
    [|done]. simpl.
  pose proof (kept_proper path Hb He Hd) as Hproper.
  destruct (kept (split_char "/"%char path)) as [|c cs] eqn:Hk.
  - destruct b; [|done]. intros [= <-]. split; [by right|reflexivity].
  - intros [= <-]. split; [left; by exists (c :: cs)|]. exact (normalize_safe (c :: cs) b ltac:(done) Hproper).
Qed.

Lemma normalize_workspace_path_safe_witness :
  (SafePath "src/gen" ∨ false = true ∧ "src/gen" = ".") ∧
  normalize_workspace_path "src/gen" false = Done "src/gen".
Proof. apply (normalize_workspace_path_safe "./src/./gen"). vm_compute. reflexivity. Defined.

(** The paths refused are exactly those that are absolute, use a backslash,
    hold an empty or [..] component, or (where a path is required) select
    nothing. *)
Lemma normalize_workspace_path_refuses (path : string) (b : bool) :
  (∃ m, normalize_workspace_path path b = Fail m) ↔
    starts_with "/"%char path = true ∨ contains_char backslash path = true ∨
    "" ∈ split_char "/"%char path ∨ ".." ∈ split_char "/"%char path ∨
    b = false ∧ ∀ c, c ∈ split_char "/"%char path → c = ".".
Proof.
  unfold normalize_workspace_path. destruct starts_with; [naive_solver|].
  destruct (contains_char backslash path); [naive_solver|].
  destruct (normalize_components_spec path (split_char "/"%char path)) as [(-> & He & Hd)|[[m ->] Hin]];
    simpl; [|naive_solver].
  assert (kept (split_char "/"%char path) = [] ↔ ∀ c, c ∈ split_char "/"%char path → c = ".") as Hkept.
  { unfold kept. induction (split_char "/"%char path) as [|c cs IH]; [split; [|done]|].
    - intros _ c ?%elem_of_nil. done.
    - rewrite filter_cons. setoid_rewrite elem_of_cons. case_decide.
      + split; [done|]. intros Hall. exfalso. naive_solver.
      + rewrite IH by set_solver. naive_solver. }
  destruct (kept _) eqn:Hk; destruct b; naive_solver.
Qed.

(** ** Lowering *)

(** * Searches that may panic *)

Lemma outcome_filter_total {E A} (f : A → Outcome E bool) l :
  (∀ x, x ∈ l → ∃ b, f x = Done b) → ∃ k, outcome_filter f l = Done k ∧
    ∀ x, x ∈ k ↔ x ∈ l ∧ f x = Done true.
Proof.
  induction l as [|x l IH]; intros Hl; simpl.
  { exists []. split; [done|]. intros x. rewrite elem_of_nil. by split; [|intros []]. }
  destruct (Hl x) as [b Hb]; [by left|]. rewrite Hb. simpl.
  destruct IH as (k & -> & Hk); [intros; apply Hl; by right|]. simpl. eexists. split; [done|].
  intros y. destruct b; rewrite !elem_of_cons, ?Hk.
  - split; [|tauto]. intros [->|?]; tauto.
  - split; [tauto|]. intros [[->|?] ?]; [congruence|tauto].
Qed.

Lemma outcome_find_total {E A} (f : A → Outcome E bool) l :
  (∀ x, x ∈ l → ∃ b, f x = Done b) → ∃ o, outcome_find f l = Done o ∧
    match o with
    | Some x => x ∈ l ∧ f x = Done true
    | None => ∀ x, x ∈ l → f x = Done false
    end.
Proof.
  induction l as [|x l IH]; intros Hl; simpl.
  { exists None. split; [done|]. by intros x ?%elem_of_nil. }
  destruct (Hl x) as [b Hb]; [by left|]. rewrite Hb. destruct b; simpl.
  { exists (Some x). split; [done|]. split; [by left|done]. }
  destruct IH as (o & Ho & Hspec); [intros; apply Hl; by right|]. exists o. split; [done|].
  destruct o as [y|]; [split; [right|]; by apply Hspec|].
  intros y [->|Hy]%elem_of_cons; [done|by apply Hspec].
Qed.

Section lowering.
Context {V : Type} (flow : Flow V) (Hwf : WellFormed flow).
Implicit Types (node : Node V) (region : Region V) (paths : gmap string (list string)).

Abbreviation M := (Outcome (list Diagnostic)).
Abbreviation parent := (region_parent_of flow).
Abbreviation region_ids := (region_id <$> flow_regions flow).
Abbreviation node_ids := (node_id <$> flow_nodes flow).

(** * Regions *)

Lemma regions_known id : id ∈ region_ids → ∃ r, regions_index flow !! id = Some r ∧ RegionNamed flow id r.
Proof.
  intros (r & -> & Hr)%list_elem_of_fmap. exists r.
  assert (RegionNamed flow (region_id r) r) as Hn by done. split; [|done].
  by apply regions_index_Some; [apply Hwf|].
Qed.

Lemma parent_known id p : parent id = Some p → p ∈ region_ids.
Proof.
  unfold region_parent_of. intros (r & Hr & Hp)%bind_Some.
  apply regions_index_Some in Hr as [Hr _]; [|apply Hwf].
  pose proof (wf_regions _ Hwf) as Hall. rewrite Forall_forall in Hall.
  destruct (region_parent_ok _ _ (Hall r Hr) p Hp) as (r' & Hr' & <-).
  apply list_elem_of_fmap. eauto.
Qed.

Lemma rooted_known cur l :
  rooted parent cur l → (∀ id, cur = Some id → id ∈ region_ids) → ∀ x, x ∈ l → x ∈ region_ids.
Proof.
  induction 1 as [|id l Hl IH]; intros Hcur x; [by intros ?%elem_of_nil|].
  intros [->|Hx]%elem_of_cons; [by apply Hcur|]. apply IH; [|done].
  intros p. apply parent_known.
Qed.

Lemma rooted_fuel cur l :
  rooted parent cur l → (∀ id, cur = Some id → id ∈ region_ids) → length l ≤ length (flow_regions flow).
Proof.
  intros Hl Hcur. rewrite <-(length_fmap region_id).
  apply submseteq_length, NoDup_submseteq; [by eapply rooted_NoDup|]. by eapply rooted_known.
Qed.

Lemma chain_exists id : id ∈ region_ids → ∃ l, rooted parent (Some id) l.
Proof.
  intros Hid. destruct (acyclic_rooted parent region_ids (region_parent_dom flow) id) as (l & Hl & _).
  - rewrite (acyclic_ext _ _ (region_parent_of_step flow (wf_regions_distinct _ Hwf))). apply Hwf.
  - eauto.
Qed.

Lemma walk_regions_Done fuel cur l :
  rooted parent cur l → (∀ id, cur = Some id → id ∈ region_ids) → length l ≤ fuel →
  walk_regions flow fuel cur = Done l.
Proof.
  intros Hl. revert fuel. induction Hl as [|id l Hl IH]; intros [|fuel] Hcur Hlen; simpl in *;
    try done; [lia|].
  destruct (regions_known id) as (r & Hr & _); [by apply Hcur|]. rewrite Hr. simpl.
  assert (parent id = region_parent r) as Hp by (unfold region_parent_of; by rewrite Hr).
  rewrite <-Hp, IH; [done| |lia]. intros p. apply parent_known.
Qed.

Lemma walk_regions_chain id : id ∈ region_ids →
  ∃ l, walk_regions flow (region_fuel flow) (Some id) = Done l ∧ rooted parent (Some id) l.
Proof.
  intros Hid. destruct (chain_exists id Hid) as [l Hl]. exists l. split; [|done].
  assert (∀ x, Some id = Some x → x ∈ region_ids) as Hk by naive_solver.
  apply walk_regions_Done; [done|done|]. pose proof (rooted_fuel _ _ Hl Hk). unfold region_fuel. lia.
Qed.

Lemma region_depth_total id : id ∈ region_ids → ∃ d, region_depth flow id = Done d.
Proof.
  intros Hid. unfold region_depth. destruct (regions_known id Hid) as (r & Hr & _).
  rewrite Hr. cbn [expect outcome_bind].
  destruct (chain_exists id Hid) as [l Hl]. inversion Hl as [|? k Hk]; subst.
  assert (parent id = region_parent r) as Hp by (unfold region_parent_of; by rewrite Hr).
  rewrite Hp in Hk.
  assert (∀ x, region_parent r = Some x → x ∈ region_ids) as Hknown.
  { intros x Hx. apply (parent_known id). unfold region_parent_of. by rewrite Hr. }
  pose proof (rooted_fuel _ _ Hk Hknown).
  rewrite (walk_regions_Done _ _ k Hk Hknown) by (unfold region_fuel; lia). simpl. eauto.
Qed.

Lemma is_ancestor_loop_Done fuel candidate cur l :
  rooted parent cur l → length l ≤ fuel →
  is_ancestor_loop flow fuel candidate cur = Done (bool_decide (candidate ∈ l)).
Proof.
  intros Hl. revert fuel. induction Hl as [|id l Hl IH]; intros fuel Hlen.
  - by destruct fuel.
  - destruct fuel as [|fuel]; simpl in Hlen; [lia|]. cbn [is_ancestor_loop].
    destruct (decide (id = candidate)) as [Hc|Hc];
      [rewrite (bool_decide_true (id = candidate)) by done
      |rewrite (bool_decide_false (id = candidate)) by done].
    + subst. by rewrite bool_decide_true by (by left).
    + rewrite IH by lia. f_equal. apply bool_decide_ext. set_solver.
Qed.

Lemma is_ancestor_total candidate rid :
  rid ∈ region_ids → ∃ b, is_ancestor flow candidate rid = Done b.
Proof.
  intros Hid. unfold is_ancestor. destruct (chain_exists rid Hid) as [l Hl].
  assert (∀ x, Some rid = Some x → x ∈ region_ids) as Hk by naive_solver.
  pose proof (rooted_fuel _ _ Hl Hk). inversion Hl as [|? k Hk']; subst.
  rewrite (is_ancestor_loop_Done _ _ _ k Hk'); [eauto|]. unfold region_fuel. simpl in *. lia.
Qed.

Lemma direct_known node r : r ∈ direct_regions flow node → region_id r ∈ region_ids.
Proof. intros [_ Hr]%list_elem_of_filter. apply list_elem_of_fmap. eauto. Qed.

Lemma check_unrelated_total node direct :
  (∀ r, r ∈ direct → region_id r ∈ region_ids) → ∃ ds, check_unrelated flow node direct = Done ds.
Proof.
  induction direct as [|l direct IH]; intros Hd; simpl; [eauto|].
  destruct (outcome_map_total (check_related flow node l) direct) as [ds ->].
  - intros r Hr. unfold check_related.
    destruct (is_ancestor_total (region_id l) (region_id r)) as [[] ->]; [apply Hd; by right|simpl; eauto|].
    simpl. destruct (is_ancestor_total (region_id r) (region_id l)) as [[] ->]; [apply Hd; by left|..];
      simpl; eauto.
  - simpl. destruct IH as [rest ->]; [|simpl; eauto]. intros r Hr. apply Hd. by right.
Qed.

(** The path of a node holds each region around it once. *)
Lemma node_path_total node :
  ∃ path, node_path flow node = Done path ∧ NoDup path ∧
    ∀ x, x ∈ path ↔ ∃ r, r ∈ direct_regions flow node ∧ rtc (parent_of parent) (region_id r) x.
Proof.
  unfold node_path.
  destruct (outcome_map_total (λ r, walk_regions flow (region_fuel flow) (Some (region_id r)))
    (direct_regions flow node)) as [chains Hchains].
  { intros r Hr%direct_known. destruct (walk_regions_chain _ Hr) as (l & ? & _). eauto. }
  rewrite Hchains. cbn [outcome_bind]. apply outcome_map_Done in Hchains.
  assert (∀ x, x ∈ concat chains ↔
    ∃ r, r ∈ direct_regions flow node ∧ rtc (parent_of parent) (region_id r) x) as Hall.
  { assert (∀ r, r ∈ direct_regions flow node → region_id r ∈ region_ids) as Hk by apply direct_known.
    revert Hchains Hk. generalize (direct_regions flow node) as rs. intros rs Hrs. 
    induction Hrs as [|r l rs ls Hl Hrs IH]; intros Hk x; simpl.
    - split; [by intros ?%elem_of_nil|]. by intros (? & ?%elem_of_nil & _).
    - rewrite elem_of_app, IH by (intros; apply Hk; by right).
      destruct (walk_regions_chain (region_id r)) as (l' & Hl' & Hroot); [apply Hk; by left|].
      rewrite Hl' in Hl. simplify_eq. setoid_rewrite elem_of_cons. split.
      + intros [Hx|(r' & ? & ?)]; [exists r; split; [by left|by eapply rooted_elem_rtc]|eauto].
      + intros (r' & [->|?] & ?); [left; by eapply rooted_rtc|eauto]. }
  set (all := list_to_set (concat chains) : gset string).
  assert (∀ x, x ∈ sort_strings (elements all) → x ∈ region_ids) as Hids.
  { intros x. rewrite elem_of_sort_on, elem_of_elements. unfold all. rewrite elem_of_list_to_set, Hall.
    intros (r & Hr%direct_known & Hx). clear -Hwf Hr Hx.
    induction Hx as [|a b c Hab Hbc IH]; [done|]. apply IH. by eapply parent_known. }
  destruct (outcome_map_total (λ id, let! depth := region_depth flow id in Done (E:=list Diagnostic) (depth, id))
    (sort_strings (elements all))) as [keyed Hkeyed].
  { intros x Hx%Hids. destruct (region_depth_total x Hx) as [d ->]. simpl. eauto. }
  rewrite Hkeyed. cbn [outcome_bind]. eexists. split; [done|].
  assert (keyed.*2 = sort_strings (elements all)) as Hsnd.
  { apply outcome_map_Done in Hkeyed. clear -Hkeyed.
    induction Hkeyed as [|x y l k Hx _ IH]; [done|]. rewrite fmap_cons, IH. f_equal.
    destruct (region_depth flow x); simplify_eq/=. done. }
  assert ((sort_on (λ p : nat * string, p) keyed).*2 ≡ₚ elements all) as Hperm
    by by rewrite sort_on_Permutation, Hsnd, sort_on_Permutation.
  split; [rewrite Hperm; apply NoDup_elements|].
  intros x. rewrite Hperm, elem_of_elements. unfold all. by rewrite elem_of_list_to_set, Hall.
Qed.

Definition IsPath node (path : list string) : Prop :=
  NoDup path ∧
  ∀ x, x ∈ path ↔ ∃ r, r ∈ direct_regions flow node ∧ rtc (parent_of parent) (region_id r) x.

Lemma path_known node path x : IsPath node path → x ∈ path → x ∈ region_ids.
Proof.
  intros [_ Hp] (r & Hr%direct_known & Hx)%Hp. clear -Hwf Hr Hx.
  induction Hx as [|a b c Hab Hbc IH]; [done|]. apply IH. by eapply parent_known.
Qed.

Lemma is_kind_Done p id : id ∈ region_ids →
  ∃ r, RegionNamed flow id r ∧ is_kind flow p id = Done (p (region_kind r)).
Proof.
  intros (r & Hr & Hn)%regions_known. exists r. split; [done|]. unfold is_kind. by rewrite Hr.
Qed.

Lemma region_path_total node : ∃ ds path, region_path flow node = Done (ds, path) ∧
  node_path flow node = Done path ∧ IsPath node path.
Proof.
  unfold region_path. destruct (check_unrelated_total node (direct_regions flow node)) as [ds ->].
  { intros r Hr. by eapply direct_known. }
  cbn [outcome_bind]. destruct (node_path_total node) as (path & -> & Hnd & Hp). cbn [outcome_bind].
  assert (IsPath node path) as Hpath by done.
  destruct (outcome_filter_total (is_kind flow is_loop) path) as (loops & -> & _).
  { intros x Hx. destruct (is_kind_Done is_loop x) as (r & _ & ->); [by eapply path_known|eauto]. }
  simpl. eauto 10.
Qed.

(** What [region_paths] returns, and the later steps rely on. *)
Definition PathsOk paths : Prop :=
  ∀ node, node ∈ flow_nodes flow →
    ∃ path, paths !! node_id node = Some path ∧ node_path flow node = Done path ∧ IsPath node path.

Lemma region_paths_total : ∃ ds paths, region_paths flow = Done (ds, paths) ∧ PathsOk paths.
Proof.
  unfold region_paths.
  destruct (outcome_map_total (region_path flow) (flow_nodes flow)) as [l Hl].
  { intros node _. destruct (region_path_total node) as (ds & path & -> & _). eauto. }
  rewrite Hl. cbn [outcome_bind]. do 2 eexists. split; [done|]. intros node Hnode.
  apply outcome_map_Done in Hl. destruct (region_path_total node) as (ds & path & Hr & Hp & Hok).
  exists path. split; [|done]. clear Hok Hp.
  assert ((node_id node, path) ∈ zip node_ids l.*2) as Hin.
  { clear -Hl Hnode Hr. induction Hl as [|x y l k Hx _ IH]; [by apply elem_of_nil in Hnode|].
    apply elem_of_cons in Hnode as [->|Hnode]; [|right; by apply IH].
    rewrite Hx in Hr. simplify_eq/=. by left. }
  assert (NoDup (fst <$> zip node_ids l.*2)) as Hnd.
  { rewrite fst_zip; [apply Hwf|]. apply Forall2_length in Hl. rewrite !length_fmap. lia. }
  exact (btree_collect_Some fst snd _ _ Hnd Hin).
Qed.

(** * Loops around a node *)

Section paths.
Context (paths : gmap string (list string)) (Hpaths : PathsOk paths).

Lemma innermost_total p node path : IsPath node path →
  ∃ o, innermost flow p path = Done o ∧
    match o with
    | Some id => id ∈ path ∧ ∃ r, RegionNamed flow id r ∧ p (region_kind r) = true
    | None => ∀ id r, id ∈ path → RegionNamed flow id r → p (region_kind r) = false
    end.
Proof.
  intros Hpath. unfold innermost.
  destruct (outcome_find_total (is_kind flow p) (reverse path)) as (o & Ho & Hspec).
  { intros x Hx. rewrite elem_of_reverse in Hx.
    destruct (is_kind_Done p x) as (r & _ & ->); [by eapply path_known|eauto]. }
  exists o. split; [done|]. destruct o as [id|].
  - rewrite elem_of_reverse in Hspec. destruct Hspec as [Hid Hk]. split; [done|].
    destruct (is_kind_Done p id) as (r & Hr & Hk'); [by eapply path_known|]. exists r.
    split; [done|]. congruence.
  - intros id r Hid Hr. destruct (is_kind_Done p id) as (r' & Hr' & Hk'); [by eapply path_known|].
    assert (r' = r) as -> by (eapply RegionNamed_inj; [apply Hwf|done..]).
    rewrite Hspec in Hk' by (by rewrite elem_of_reverse). congruence.
Qed.

Lemma loop_for_total n : n ∈ node_ids → ∃ o, loop_for flow n paths = Done o.
Proof.
  intros (node & -> & Hnode)%list_elem_of_fmap. unfold loop_for.
  destruct (Hpaths node Hnode) as (path & -> & _ & Hpath). simpl.
  destruct (innermost_total is_loop node path Hpath) as (o & -> & _). eauto.
Qed.

Lemma edge_ends e : e ∈ flow_edges flow →
  endpoint_node (edge_from e) ∈ node_ids ∧ endpoint_node (edge_to e) ∈ node_ids.
Proof.
  intros He. pose proof (wf_edges _ Hwf) as Hall. rewrite Forall_forall in Hall.
  destruct (edge_ends_ok _ _ (Hall e He)) as (a & b & [Ha <-] & [Hb <-] & _).
  split; apply list_elem_of_fmap; eauto.
Qed.

Lemma check_crossing_total e : e ∈ flow_edges flow → ∃ ds, check_crossing flow paths e = Done ds.
Proof.
  intros [Hf Ht]%edge_ends. unfold check_crossing.
  destruct (loop_for_total _ Hf) as [a ->]. simpl. destruct (loop_for_total _ Ht) as [b ->]. simpl. eauto.
Qed.

Lemma check_loop_boundaries_total : ∃ ds, check_loop_boundaries flow paths = Done ds.
Proof.
  unfold check_loop_boundaries.
  destruct (outcome_map_total (check_crossing flow paths) (flow_edges flow)) as [ds ->];
    [apply check_crossing_total|]. simpl. eauto.
Qed.
End paths.

(** * Passing the checks *)

Lemma normalize_components_no_panic path cs : normalize_components path cs ≠ Panic.
Proof.
  induction cs as [|c cs IH]; simpl; [done|]. repeat case_bool_decide; try done.
  destruct normalize_components; simpl; congruence.
Qed.

Lemma normalize_no_panic path b : normalize_workspace_path path b ≠ Panic.
Proof.
  unfold normalize_workspace_path. destruct starts_with, contains_char; try done.
  pose proof (normalize_components_no_panic path (split_char "/"%char path)).
  destruct normalize_components as [[|]| |]; simpl; try congruence. by destruct b.
Qed.

Definition ValidPath (b : bool) (path : string) : Prop := ∃ q, normalize_workspace_path path b = Done q.

Lemma check_path_nil code where_ b path : check_path code where_ b path = [] ↔ ValidPath b path.
Proof.
  unfold check_path, ValidPath. pose proof (normalize_no_panic path b).
  destruct normalize_workspace_path; naive_solver.
Qed.

Lemma check_paths_nil code where_ ps : check_paths code where_ ps = [] ↔ Forall (ValidPath false) ps.
Proof. apply scan_each_nil. intros. apply check_path_nil. Qed.

(** What the checks before lowering establish. *)
Record Checked paths : Prop := {
  ck_paths : PathsOk paths;
  ck_capabilities : Forall (λ n,
    Forall (ValidPath false) (cap_read (node_capabilities n)) ∧
    Forall (ValidPath false) (cap_write (node_capabilities n)) ∧
    ∀ ps, node_kind n = NkPromote ps → Forall (ValidPath false) ps) (flow_nodes flow);
  ck_workspaces : Forall (λ r, ∀ w, region_kind r = RkTransaction w → ValidPath true w)
    (flow_regions flow);
  ck_crossing : ∀ e a b, e ∈ flow_edges flow → is_feedback (edge_kind e) = false →
    loop_for flow (endpoint_node (edge_from e)) paths = Done (Some a) →
    loop_for flow (endpoint_node (edge_to e)) paths = Done (Some b) → a = b;
  ck_states : Forall (λ r, is_loop (region_kind r) = true →
    Forall (λ f, length (initials flow (region_nodes r) f.1) = 1) (feedbacks flow r) ∧
    NoDup (feedbacks flow r).*2) (flow_regions flow);
}.

Lemma check_loop_states_nil region :
  check_loop_states flow region = [] ↔
    Forall (λ f, length (initials flow (region_nodes region) f.1) = 1) (feedbacks flow region) ∧
    NoDup (feedbacks flow region).*2.
Proof.
  unfold check_loop_states. apply (scan_unique _ snd); [|done]. intros i seen f. simpl. diag.
  tauto.
Qed.

Lemma concat_nil {A} (l : list (list A)) : concat l = [] ↔ ∀ x, x ∈ l → x = [].
Proof.
  induction l as [|x l IH]; simpl; [split; [by intros _ ? ?%elem_of_nil|done]|].
  rewrite app_nil_iff, IH. setoid_rewrite elem_of_cons. naive_solver.
Qed.

Lemma check_capability_paths_nil :
  check_capability_paths flow = [] →
  Forall (λ n,
    Forall (ValidPath false) (cap_read (node_capabilities n)) ∧
    Forall (ValidPath false) (cap_write (node_capabilities n)) ∧
    ∀ ps, node_kind n = NkPromote ps → Forall (ValidPath false) ps) (flow_nodes flow) ∧
  Forall (λ r, ∀ w, region_kind r = RkTransaction w → ValidPath true w) (flow_regions flow).
Proof.
  unfold check_capability_paths. rewrite app_nil_iff. intros [Hn Hr]. split.
  - apply (scan_each_nil _ (λ n, check_node_capabilities n = [])) in Hn; [|done].
    eapply Forall_impl; [exact Hn|]. intros n. unfold check_node_capabilities.
    rewrite !app_nil_iff, !check_paths_nil. intros (? & ? & Hp & _). split_and!; [done..|].
    intros ps Hk. rewrite Hk in Hp. by apply check_paths_nil in Hp.
  - apply (scan_each_nil _ (λ r, check_workspace r = [])) in Hr; [|done].
    eapply Forall_impl; [exact Hr|]. intros r. unfold check_workspace. intros Hc w Hk.
    rewrite Hk in Hc. by apply check_path_nil in Hc.
Qed.

Lemma checks_pass ds paths bs :
  region_paths flow = Done (ds, paths) → PathsOk paths →
  check_loop_boundaries flow paths = Done bs →
  ds ++ check_capability_paths flow ++ bs = [] → Checked paths.
Proof.
  intros Hrp Hpaths Hb. rewrite !app_nil_iff. intros (-> & [Hcap Hws]%check_capability_paths_nil & ->).
  unfold check_loop_boundaries in Hb. apply bind_Done in Hb as (cs & Hcs & Hb).
  simplify_eq. apply app_nil_iff in Hb as [Hcross Hst]. split; try done.
  - intros e a b He Hfb Ha Hb. apply outcome_map_Done in Hcs.
    apply list_elem_of_lookup in He as [i He].
    destruct (Forall2_lookup_l _ _ _ _ _ Hcs He) as (c & Hc & Hce).
    assert (c = []) as ->.
    { rewrite concat_nil in Hcross. apply Hcross. by apply list_elem_of_lookup_2 in Hc. }
    unfold check_crossing in Hce. rewrite Ha, Hb in Hce. simpl in Hce. rewrite Hfb in Hce.
    destruct (decide (a = b)) as [|Hne]; [done|].
    rewrite (bool_decide_false (Some a = Some b)) in Hce by congruence.
    done.
  - apply (scan_each_nil _ (λ r, is_loop (region_kind r) = true → check_loop_states flow r = [])) in Hst.
    + eapply Forall_impl; [exact Hst|]. intros r Hr Hl. by apply check_loop_states_nil, Hr.
    + intros _ r _. destruct (is_loop (region_kind r)); naive_solver.
Qed.

(** * The order of the tasks *)

Lemma acyclic_sub {A} (R S : relation A) : (∀ x y, R x y → S x y) → acyclic S → acyclic R.
Proof.
  intros HRS Hac x Hx. apply (Hac x). eapply tc_congruence with (f := id); [|exact Hx]. apply HRS.
Qed.

Lemma ordering_edge u v :
  (u, v) ∈ ordering_edges flow ↔ execution_step flow u v.
Proof.
  unfold ordering_edges, execution_step. rewrite list_elem_of_fmap.
  setoid_rewrite list_elem_of_filter. naive_solver.
Qed.

Lemma topological_order_total members :
  ∃ order, topological_order flow members = Done order ∧ order ≡ₚ order_nodes flow members ∧
    respects (order_edges flow members) order.
Proof.
  unfold topological_order.
  set (nodes := order_nodes flow members). set (E := order_edges flow members).
  assert (NoDup nodes) as Hnd by (apply NoDup_filter, Hwf).
  destruct (kahn_spec (Q:=BTreeSet) nodes E) with
    (out := sort_strings <$> outgoing (tables nodes E))
    (q := {| tree := zero_degree (degree (tables nodes E)) |})
    as (order & -> & Hndo & Hsub & Hres & Hac); [| | |done|].
  - intros u v (Huv & Hin)%list_elem_of_filter. simpl in Huv. apply andb_true_iff in Huv as [Hu Hv].
    apply ordering_edge in Hin as (e & He & _ & <- & <-). apply edge_ends in He as [??].
    by split; apply list_elem_of_filter.
  - done.
  - intros u. rewrite lookup_fmap, <-(tables_outgoing nodes E u).
    destruct (outgoing (tables nodes E) !! u); simpl; [apply sort_on_Permutation|done].
  - exists order. split; [done|]. split; [|done].
    apply submseteq_length_Permutation; [by apply NoDup_submseteq|].
    assert (length order = length nodes) as ->; [|done]. apply Hac.
    eapply acyclic_sub; [|apply (wf_execution_acyclic _ Hwf)].
    intros u v [_ ?]%list_elem_of_filter. by apply ordering_edge.
Qed.

(** * Nothing panics *)

Section checked.
Context (paths : gmap string (list string)) (Hck : Checked paths).

Lemma node_named id : id ∈ node_ids → ∃ n, nodes_index flow !! id = Some n ∧ NodeNamed flow id n.
Proof.
  intros (n & -> & Hn)%list_elem_of_fmap. exists n. split; [|done].
  by apply nodes_index_Some; [apply Hwf|].
Qed.

Lemma edge_ok e : e ∈ flow_edges flow → EdgeOk flow e.
Proof. intros He. pose proof (wf_edges _ Hwf) as Hall. rewrite Forall_forall in Hall. by apply Hall. Qed.

(** The ends of a value edge: ports that exist. *)
Lemma value_edge_ends e : e ∈ flow_edges flow → is_value_edge (edge_kind e) = true →
  (∃ p, endpoint_port (edge_from e) = Some p) ∧
  ∃ n q, NodeNamed flow (endpoint_node (edge_to e)) n ∧ q ∈ node_inputs n ∧
         endpoint_port (edge_to e) = Some (port_name q).
Proof.
  intros He Hk. destruct (edge_ends_ok _ _ (edge_ok e He)) as (a & b & _ & Hb & Hends).
  unfold ends_ok in Hends. destruct (edge_kind e); try done;
    destruct Hends as (p & q & _ & Hp & Hq & Hq' & _); eauto 10.
Qed.

Lemma port_reference_total ep p : endpoint_port ep = Some p →
  port_reference (E:=list Diagnostic) ep = Done {| ref_task := endpoint_node ep; ref_port := p |}.
Proof. intros Hp. unfold port_reference. by rewrite Hp. Qed.

Lemma lower_value_binding_total e :
  e ∈ flow_edges flow → is_value_edge (edge_kind e) = true →
  ∃ b, lower_value_binding flow paths e = Done b.
Proof.
  intros He Hk. destruct (edge_ends e He) as [Hf Ht]. unfold lower_value_binding.
  destruct (loop_for_total paths (ck_paths _ Hck) _ Hf) as [a Ha].
  destruct (loop_for_total paths (ck_paths _ Hck) _ Ht) as [b Hb].
  rewrite Ha, Hb. cbn [outcome_bind].
  destruct (value_edge_ends e He Hk) as [[p Hp] _].
  rewrite (port_reference_total _ _ Hp).
  destruct (edge_kind e) eqn:Hkind; try done; simpl; [|eauto].
  destruct a as [a|], b as [b|]; simpl; eauto.
  rewrite (ck_crossing _ Hck e a b He); [|by rewrite Hkind|done|done].
  rewrite bool_decide_true by done. simpl. eauto.
Qed.

Lemma lower_input_total node port : ∃ b, lower_input flow paths node port = Done b.
Proof.
  unfold lower_input.
  destruct (outcome_map_total (lower_value_binding flow paths) (sources_of flow node port)) as [l ->].
  - intros e [Hk He]%list_elem_of_filter. apply andb_true_iff in Hk as [_ Hk].
    by apply lower_value_binding_total.
  - simpl. eauto.
Qed.

Lemma checked_paths_total ps : Forall (ValidPath false) ps →
  ∃ qs, checked_paths (E:=list Diagnostic) ps = Done qs ∧
    Forall2 (λ p q, normalize_workspace_path p false = Done q) ps qs.
Proof.
  unfold checked_paths. intros Hps.
  destruct (outcome_map_total (λ p, expect_ok (E:=list Diagnostic) (normalize_workspace_path p false)) ps)
    as [qs Hqs].
  - intros p Hp. rewrite Forall_forall in Hps. destruct (Hps p Hp) as [q ->]. simpl. eauto.
  - exists qs. split; [done|]. apply outcome_map_Done in Hqs. eapply Forall2_impl; [exact Hqs|].
    intros p q. simpl. destruct normalize_workspace_path; simpl; congruence.
Qed.

Lemma node_paths_valid node : node ∈ flow_nodes flow →
  Forall (ValidPath false) (cap_read (node_capabilities node)) ∧
  Forall (ValidPath false) (cap_write (node_capabilities node)) ∧
  ∀ ps, node_kind node = NkPromote ps → Forall (ValidPath false) ps.
Proof. intros Hn. pose proof (ck_capabilities _ Hck) as Hall. rewrite Forall_forall in Hall. auto. Qed.

Lemma lower_operation_total node : node ∈ flow_nodes flow → ∃ op, lower_operation node = Done op.
Proof.
  intros (_ & _ & Hp)%node_paths_valid. unfold lower_operation.
  destruct (node_kind node) as [| | | | |ps|]; eauto.
  destruct (checked_paths_total ps) as (qs & -> & _); [by apply Hp|]. simpl. eauto.
Qed.

Lemma normalized_capabilities_total node : node ∈ flow_nodes flow →
  ∃ c, normalized_capabilities (E:=list Diagnostic) (node_capabilities node) = Done c.
Proof.
  intros (Hr & Hw & _)%node_paths_valid. unfold normalized_capabilities.
  destruct (checked_paths_total _ Hr) as (r & -> & _). simpl.
  destruct (checked_paths_total _ Hw) as (w & -> & _). simpl. eauto.
Qed.

Lemma lower_task_total node : node ∈ flow_nodes flow → ∃ t, lower_task flow paths node = Done t.
Proof.
  intros Hn. unfold lower_task.
  destruct (loop_for_total paths (ck_paths _ Hck) (node_id node)) as [l ->];
    [apply list_elem_of_fmap; eauto|]. cbn [outcome_bind].
  destruct (ck_paths _ Hck node Hn) as (path & -> & _ & Hpath). cbn [expect outcome_bind].
  destruct (innermost_total is_transaction node path Hpath) as (tr & -> & _). cbn [outcome_bind].
  destruct (outcome_map_total (lower_input flow paths node) (node_inputs node)) as [inputs ->];
    [intros; apply lower_input_total|]. cbn [outcome_bind].
  destruct (lower_operation_total node Hn) as [op ->]. cbn [outcome_bind].
  destruct (normalized_capabilities_total node Hn) as [c ->]. simpl. eauto.
Qed.

(** The task of a node. *)
Definition TaskOf (id : string) (t : TaskTemplate) : Prop :=
  ∃ node, NodeNamed flow id node ∧ lower_task flow paths node = Done t.

Lemma lower_tasks_total :
  ∃ order tasks, lower_tasks flow paths = Done tasks ∧ order ≡ₚ node_ids ∧
    respects (ordering_edges flow) order ∧ Forall2 TaskOf order tasks.
Proof.
  unfold lower_tasks. destruct (topological_order_total None) as (order & -> & Hperm & Hres).
  cbn [outcome_bind].
  assert (order ≡ₚ node_ids) as Hall.
  { rewrite Hperm. unfold order_nodes. by rewrite filter_all. }
  assert (respects (ordering_edges flow) order) as Hres'.
  { unfold order_edges in Hres. by rewrite filter_all in Hres. }
  destruct (outcome_map_total (λ id, let! node := expect (nodes_index flow !! id) in
    lower_task flow paths node) order) as [tasks Htasks].
  - intros id Hid. rewrite Hall in Hid. destruct (node_named id Hid) as (n & -> & [Hn _]). simpl.
    by apply lower_task_total.
  - exists order, tasks. split_and!; [done..|]. apply outcome_map_Done in Htasks.
    eapply Forall2_impl; [exact Htasks|]. intros id t Ht. simpl in Ht.
    destruct (nodes_index flow !! id) as [n|] eqn:Hn; [|done]. exists n. split; [|done].
    by apply nodes_index_Some in Hn; [|apply Hwf].
Qed.

Lemma initials_elem members f e : e ∈ initials flow members f →
  e ∈ flow_edges flow ∧ is_data (edge_kind e) = true ∧ edge_to e = edge_to f ∧
  endpoint_node (edge_from e) ∉ members.
Proof.
  intros [Hi He]%list_elem_of_filter. unfold is_initial in Hi.
  apply andb_true_iff in Hi as [[Hd Ht%bool_decide_eq_true]%andb_true_iff Hm%negb_true_iff].
  by apply bool_decide_eq_false in Hm.
Qed.

Lemma feedbacks_elem region f : f ∈ feedbacks flow region →
  f.1 ∈ flow_edges flow ∧ edge_kind f.1 = EkFeedback (region_id region) f.2.
Proof.
  intros (e & He & Hf)%list_elem_of_omap. unfold feedback_of in Hf.
  destruct (edge_kind e) eqn:Hk; try done. case_bool_decide; simplify_eq/=. done.
Qed.

Lemma lower_state_total region f :
  f ∈ feedbacks flow region → length (initials flow (region_nodes region) f.1) = 1 →
  ∃ st, lower_state flow region f = Done st.
Proof.
  intros Hf Hlen. destruct (feedbacks_elem _ _ Hf) as [He Hk]. unfold lower_state.
  destruct (initials flow (region_nodes region) f.1) as [|i [|]] eqn:Hin; try done. clear Hlen.
  assert (i ∈ initials flow (region_nodes region) f.1) as Hi by (rewrite Hin; by left).
  apply initials_elem in Hi as (Hie & Hid & _). cbn [head expect outcome_bind].
  destruct (value_edge_ends f.1 He) as ([p Hp] & n & q & Hn & Hq & Hto); [by rewrite Hk|].
  destruct (value_edge_ends i Hie) as ([pi Hpi] & _); [unfold is_value_edge; by rewrite Hid|].
  assert (nodes_index flow !! endpoint_node (edge_to f.1) = Some n) as ->
    by (apply nodes_index_Some; [apply Hwf|done]).
  rewrite Hto. cbn [expect outcome_bind].
  assert (find_port (node_inputs n) (port_name q) = Some q) as ->.
  { apply find_port_Some; [|done]. apply (node_inputs_ok flow).
    pose proof (wf_nodes _ Hwf) as Hall. rewrite Forall_forall in Hall. apply Hall, Hn. }
  cbn [expect outcome_bind].
  rewrite (port_reference_total _ _ Hto), (port_reference_total _ _ Hpi), (port_reference_total _ _ Hp).
  simpl. eauto.
Qed.

Lemma lower_loop_total region : region ∈ flow_regions flow → ∃ l, lower_loop flow region = Done l.
Proof.
  intros Hr. unfold lower_loop. destruct (region_kind region) as [| | |m u x] eqn:Hk; eauto.
  pose proof (ck_states _ Hck) as Hall. rewrite Forall_forall in Hall.
  destruct (Hall region Hr) as [Hst _]; [by rewrite Hk|]. rewrite Forall_forall in Hst.
  destruct (outcome_map_total (lower_state flow region) (feedbacks flow region)) as [states ->].
  { intros f Hf. apply lower_state_total; [done|by apply Hst]. }
  cbn [outcome_bind].
  destruct (topological_order_total (Some (region_nodes region))) as (body & -> & _). simpl. eauto.
Qed.

Lemma lower_loops_total : ∃ loops, lower_loops flow = Done loops.
Proof.
  unfold lower_loops. destruct (outcome_map_total (lower_loop flow) (flow_regions flow)) as [l ->];
    [apply lower_loop_total|]. simpl. eauto.
Qed.

Lemma lower_regions_total : ∃ regions, lower_regions flow = Done regions.
Proof.
  unfold lower_regions. destruct (outcome_map_total (@lower_region V) (flow_regions flow)) as [l ->];
    [|simpl; eauto].
  intros r Hr. unfold lower_region. destruct (region_kind r) as [| |w|] eqn:Hk; simpl; eauto.
  pose proof (ck_workspaces _ Hck) as Hall. rewrite Forall_forall in Hall.
  destruct (Hall r Hr w Hk) as [q ->]. simpl. eauto.
Qed.
End checked.
End lowering.

(** * The plan *)

Section plan.
Context {V : Type} (flow : Flow V) (semantic_hash : Flow V → option string).

Definition plan_of (tasks : list TaskTemplate) (loops : list LoopTemplate)
    (regions : list RegionTemplate) (hash : string) : Plan V := {|
  plan_schema := PLAN_SCHEMA_V0;
  plan_name := flow_name flow;
  plan_flow := {| identity_schema := flow_schema flow; semantic_sha256 := hash |};
  plan_interface := {|
    pinterface_inputs := sort_on pport_name (port_from <$> interface_inputs (flow_interface flow));
    pinterface_outputs := sort_on pport_name (port_from <$> interface_outputs (flow_interface flow)) |};
  plan_contracts := sort_on pcontract_id (lower_contract <$> flow_contracts flow);
  plan_tasks := tasks;
  plan_regions := regions;
  plan_loops := loops;
  plan_capabilities := foldl extend empty_summary (task_capabilities <$> tasks);
  plan_resolution := {| fully_resolved := bool_decide (plan_blockers flow tasks = []);
                        blockers := plan_blockers flow tasks |} |}.

(** The parts of an accepted plan and what holds of them. *)
Record Lowered (plan : Plan V) : Prop := {
  low_wf : WellFormed flow;
  low_parts : ∃ paths tasks loops regions hash order,
    Checked flow paths ∧ semantic_hash flow = Some hash ∧
    lower_tasks flow paths = Done tasks ∧ lower_loops flow = Done loops ∧
    lower_regions flow = Done regions ∧
    order ≡ₚ node_id <$> flow_nodes flow ∧ respects (ordering_edges flow) order ∧
    Forall2 (TaskOf flow paths) order tasks ∧
    (∀ i j l r, i ≠ j → tasks !! i = Some l → tasks !! j = Some r →
       PairOk (ordering_edges flow) l r) ∧
    plan = plan_of tasks loops regions hash;
}.

Lemma lower_steps :
  (∃ d ds, lower flow semantic_hash = Fail (d :: ds)) ∨
  (semantic_hash flow = None ∧ WellFormed flow) ∨
  ∃ plan, lower flow semantic_hash = Done plan ∧ Lowered plan.
Proof.
  unfold lower. destruct (validate_cases flow) as [Hv|(d & ds & Hv)].
  2: { left. rewrite Hv. by eexists _, _. }
  rewrite Hv. apply validate_Done in Hv as Hwf.
  destruct (region_paths_total flow Hwf) as (ds & paths & Hrp & Hpaths). rewrite Hrp.
  cbn [outcome_bind fst snd].
  destruct (check_loop_boundaries_total flow Hwf paths Hpaths) as [bs Hbs]. rewrite Hbs.
  cbn [outcome_bind].
  destruct (ds ++ check_capability_paths flow ++ bs) as [|d k] eqn:Hall; [|left; simpl; eauto].
  pose proof (checks_pass flow ds paths bs Hrp Hpaths Hbs Hall) as Hck. cbn [stop_if_any outcome_bind].
  destruct (lower_tasks_total flow Hwf paths Hck) as (order & tasks & Ht & Hperm & Hres & Hof).
  destruct (lower_loops_total flow Hwf paths Hck) as [loops Hl].
  destruct (lower_regions_total flow paths Hck) as [regions Hr].
  rewrite Ht, Hl, Hr. cbn [outcome_bind].
  destruct (check_write_conflicts_spec flow tasks) as (cs & -> & Hcs). cbn [expect outcome_bind].
  destruct cs as [|c cs]; [|left; simpl; eauto]. cbn [stop_if_any outcome_bind].
  destruct (semantic_hash flow) as [hash|] eqn:Hh; [|by right; left]. right. right.
  cbn [expect outcome_bind]. eexists. split; [done|]. split; [done|].
  exists paths, tasks, loops, regions, hash, order. split_and!; try done. by apply Hcs.
Qed.

Lemma lower_Done plan : lower flow semantic_hash = Done plan → Lowered plan.
Proof.
  intros Hd. destruct lower_steps as [(d & ds & Hf)|[[Hn Hwf]|(p & Hp & Hl)]]; [congruence| |congruence].
  exfalso. revert Hd. unfold lower. apply validate_Done in Hwf. rewrite Hwf.
  intros Hd. invert_done Hd. rewrite Hn in *. by simplify_eq/=.
Qed.
End plan.

(** [Flow::semantic_hash] as [lower] calls it: [FlowHash] with its error, which
    [lower] expects not to happen, as [None]. *)
Definition flow_hash {V JsonError} (to_vec : FlowHash.SemanticFlow → list ascii + JsonError)
    (sha256 : list ascii → list ascii) (hex_encode : list ascii → string) (flow : Flow V) :
    option string :=
  match FlowHash.semantic_hash_text to_vec sha256 hex_encode flow with
  | Done text => Some text
  | _ => None
  end.

(** C40: Lowering never panics: whatever the flow, [lower] returns a plan for a
    well-formed flow, under that flow's semantic hash, or a non-empty list of
    diagnostics. Of [serde_json::to_vec] it uses that values of derived types
    whose maps have string keys, as a [SemanticFlow] is, are written without
    an error. *)
Theorem lower_never_panics {V JsonError} (to_vec : FlowHash.SemanticFlow → list ascii + JsonError)
    (sha256 : list ascii → list ascii) (hex_encode : list ascii → string) (flow : Flow V) :
  (∀ form, ∃ bytes, to_vec form = inl bytes) →
  (∃ plan, lower flow (flow_hash to_vec sha256 hex_encode) = Done plan ∧ WellFormed flow ∧
     FlowHash.semantic_hash_text to_vec sha256 hex_encode flow =
       Done (semantic_sha256 (plan_flow plan))) ∨
  ∃ d ds, lower flow (flow_hash to_vec sha256 hex_encode) = Fail (d :: ds).
Proof.
  intros Hjson. assert (∃ text, FlowHash.semantic_hash_text to_vec sha256 hex_encode flow = Done text) as [text Ht].
  { unfold FlowHash.semantic_hash_text, FlowHash.semantic_hash, FlowHash.canonical_semantic_bytes.
    destruct (Hjson (FlowHash.semantic_flow flow)) as [bytes ->]. by eexists. }
  assert (flow_hash to_vec sha256 hex_encode flow = Some text) as Hh by (unfold flow_hash; by rewrite Ht).
  destruct (lower_steps flow (flow_hash to_vec sha256 hex_encode)) as [?|[[Hn _]|(plan & Hp & Hl)]];
    [by right|congruence|].
  left. exists plan. split_and!; [done|apply Hl|].
  destruct Hl as [_ (? & ? & ? & ? & hash & ? & _ & Hhash & _ & _ & _ & _ & _ & _ & _ & ->)].
  simpl. congruence.
Qed.

(** * What an accepted plan guarantees *)

Lemma TaskOf_id {V} (flow : Flow V) paths id t : TaskOf flow paths id t → task_id t = id.
Proof.
  intros (node & [_ <-] & Ht). unfold lower_task in Ht. invert_done Ht. by simplify_eq/=.
Qed.

Lemma TaskOf_ids {V} (flow : Flow V) paths order tasks :
  Forall2 (TaskOf flow paths) order tasks → task_id <$> tasks = order.
Proof. induction 1 as [|id t order tasks Ht _ IH]; [done|]. by rewrite fmap_cons, IH, (TaskOf_id _ _ _ _ Ht). Qed.

(** The plan has exactly one task for each node of the flow, listed so that
    every task comes after all those it waits for. *)
Lemma lower_tasks_topological {V} (semantic_hash : Flow V → option string) (flow : Flow V) plan :
  lower flow semantic_hash = Done plan →
  task_id <$> plan_tasks plan ≡ₚ node_id <$> flow_nodes flow ∧
  ∀ before t after, plan_tasks plan = before ++ t :: after →
    ∀ u, execution_step flow u (task_id t) → u ∈ task_id <$> before.
Proof.
  intros [Hwf (paths & tasks & loops & regions & hash & order & _ & _ & _ & _ & _ & Hperm & Hres & Hof & _ & ->)]%lower_Done.
  simpl. rewrite (TaskOf_ids _ _ _ _ Hof). split; [done|]. intros before t after Heq u Hu.
  apply (Hres _ (task_id t) (task_id <$> after)).
  - by rewrite <-(TaskOf_ids _ _ _ _ Hof), Heq, fmap_app.
  - by apply ordering_edge.
Qed.

Lemma ordering_tc {V} (flow : Flow V) u v :
  tc (edge (ordering_edges flow)) u v → tc (execution_step flow) u v.
Proof.
  intros Htc. eapply tc_congruence with (f := id); [|exact Htc]. intros x y. apply ordering_edge.
Qed.

(** C5: No two tasks of an accepted plan can write the same place concurrently:
    if two different tasks may both be active, and both hold a write grant
    that can select a path, then one of them waits for the other. *)
Theorem no_concurrent_writers {V} (semantic_hash : Flow V → option string) (flow : Flow V) plan
    i j a b p q path outcomes :
  lower flow semantic_hash = Done plan →
  plan_tasks plan !! i = Some a → plan_tasks plan !! j = Some b → i ≠ j →
  p ∈ writes a → q ∈ writes b → may_cover p path → may_cover q path →
  active outcomes (routes a) → active outcomes (routes b) →
  tc (execution_step flow) (task_id a) (task_id b) ∨ tc (execution_step flow) (task_id b) (task_id a).
Proof.
  intros [Hwf (paths & tasks & loops & regions & hash & order & _ & _ & _ & _ & _ & _ & _ & _ & Hpair & ->)]%lower_Done.
  simpl. intros Ha Hb Hij Hp Hq Hcp Hcq Hact Hact'.
  destruct (Hpair i j a b Hij Ha Hb p q Hp Hq) as [[?|?]|Hx].
  - apply path_specs_overlap_spec. eauto.
  - left. by apply ordering_tc.
  - right. by apply ordering_tc.
  - exfalso. rewrite mutually_exclusive_spec in Hx. by apply (Hx outcomes).
Qed.

(** The capability summary of a plan lists exactly the grants of its tasks, in
    each family, sorted and without repetition. *)
Lemma plan_capabilities_exact {V} (semantic_hash : Flow V → option string) (flow : Flow V) plan f x :
  lower flow semantic_hash = Done plan →
  (x ∈ family f (plan_capabilities plan) ↔
   ∃ t, t ∈ plan_tasks plan ∧ x ∈ family f (task_capabilities t)) ∧
  normalize (plan_capabilities plan) = plan_capabilities plan.
Proof.
  intros [Hwf (paths & tasks & loops & regions & hash & order & _ & _ & _ & _ & _ & _ & _ & _ & _ & ->)]%lower_Done.
  simpl. split.
  - rewrite family_fold. setoid_rewrite list_elem_of_fmap. split.
    + intros [Hx|(d & (t & -> & Ht) & Hx)]; [|eauto]. by destruct f; apply elem_of_nil in Hx.
    + intros (t & Ht & Hx). right. eauto.
  - induction (task_capabilities <$> tasks) as [|c l _] using rev_ind; [done|].
    rewrite foldl_app. simpl. unfold extend, normalize. simpl. by rewrite !normalize_strings_idemp.
Qed.

(** * A concrete flow *)

Definition path_port (name : string) : Port :=
  {| port_name := name; port_value_type := VtPath; port_optional := false |}.

Definition no_resources : Resources :=
  {| timeout_ms := None; memory_bytes := None; output_bytes := None; attempts := None |}.

Definition sample_node (id : string) (inputs outputs : list Port) (kind : NodeKind)
    (write : list string) : Node nat :=
  {| node_id := id; node_label := None; node_inputs := inputs; node_outputs := outputs;
     node_kind := kind;
     node_capabilities := {| cap_read := []; cap_write := write; cap_execute := []; cap_network := [] |};
     node_resources := no_resources; node_annotations := ∅ |}.

Definition data_edge (id from port to to_port : string) : Edge :=
  {| edge_id := id; edge_from := {| endpoint_node := from; endpoint_port := Some port |};
     edge_to := {| endpoint_node := to; endpoint_port := Some to_port |}; edge_kind := EkData |}.

Definition program (source : string) : NodeKind :=
  NkTask {| program_source := source; program_entrypoint := None |}.

(** [build] and [test] both write below [out/]; [test] waits for [build]. *)
Definition sample_flow : Flow nat :=
  {| flow_schema := FLOW_SCHEMA_V0; flow_name := "sample";
     flow_interface := {| interface_inputs := [path_port "src"]; interface_outputs := [path_port "bin"] |};
     flow_contracts := [];
     flow_nodes := [sample_node "source" [] [path_port "src"] NkInput [];
                    sample_node "test" [path_port "bin"] [path_port "bin"] (program "test.xsh") ["out/bin/log"];
                    sample_node "build" [path_port "src"] [path_port "bin"] (program "build.xsh") ["./out/*"];
                    sample_node "result" [path_port "bin"] [] NkOutput []];
     flow_edges := [data_edge "e1" "source" "src" "build" "src"; data_edge "e2" "build" "bin" "test" "bin";
                    data_edge "e3" "test" "bin" "result" "bin"];
     flow_regions := [{| region_id := "tx"; region_parent := None; region_nodes := ["test"; "build"];
                         region_kind := RkTransaction "./work"; region_annotations := ∅ |}];
     flow_annotations := ∅ |}.

Definition sample_hash (_ : Flow nat) : option string := Some "h".

Definition sample_plan : Plan nat :=
  match lower sample_flow sample_hash with
  | Done plan => plan
  | _ => plan_of sample_flow [] [] [] ""
  end.

Lemma sample_lowered : lower sample_flow sample_hash = Done sample_plan.
Proof. vm_compute. reflexivity. Qed.

Example sample_order :
  (task_id <$> plan_tasks sample_plan, sum_write (plan_capabilities sample_plan),
   fully_resolved (plan_resolution sample_plan)) =
  (["source"; "build"; "test"; "result"], ["out/*"; "out/bin/log"], false).
Proof. vm_compute. reflexivity. Qed.

(** The flow's name for its JSON, in place of the serialiser. *)
Definition sample_to_vec (form : FlowHash.SemanticFlow (V := nat)) : list ascii + () :=
  inl (chars (FlowHash.sf_name form)).

Lemma lower_never_panics_witness :
  (∃ plan, lower sample_flow (flow_hash sample_to_vec id of_chars) = Done plan ∧ WellFormed sample_flow ∧
     FlowHash.semantic_hash_text sample_to_vec id of_chars sample_flow =
       Done (semantic_sha256 (plan_flow plan))) ∨
  ∃ d ds, lower sample_flow (flow_hash sample_to_vec id of_chars) = Fail (d :: ds).
Proof. apply (lower_never_panics sample_to_vec id of_chars sample_flow). intros form. by eexists. Defined.

Lemma lower_tasks_topological_witness :
  task_id <$> plan_tasks sample_plan ≡ₚ ["source"; "test"; "build"; "result"].
Proof. apply (lower_tasks_topological sample_hash sample_flow sample_plan sample_lowered). Defined.

Lemma no_concurrent_writers_witness :
  ∃ a b, plan_tasks sample_plan !! 1 = Some a ∧ plan_tasks sample_plan !! 2 = Some b ∧
    (tc (execution_step sample_flow) (task_id a) (task_id b) ∨
     tc (execution_step sample_flow) (task_id b) (task_id a)).
Proof.
  eexists _, _. split; [vm_compute; reflexivity|]. split; [vm_compute; reflexivity|].
  apply (no_concurrent_writers sample_hash sample_flow sample_plan 1 2 _ _ "out/*" "out/bin/log"
    ["out"; "bin"; "log"] (λ _, PgValid) sample_lowered).
  - vm_compute; reflexivity.
  - vm_compute; reflexivity.
  - lia.
  - vm_compute. by left.
  - vm_compute. by left.
  - exists ["bin"; "log"]. reflexivity.
  - exists []. reflexivity.
  - by left.
  - by left.
Defined.

Lemma plan_capabilities_exact_witness :
  ("out/*" ∈ family FamWrite (plan_capabilities sample_plan) ↔
   ∃ t, t ∈ plan_tasks sample_plan ∧ "out/*" ∈ family FamWrite (task_capabilities t)) ∧
  normalize (plan_capabilities sample_plan) = plan_capabilities sample_plan.
Proof. apply (plan_capabilities_exact sample_hash sample_flow sample_plan FamWrite "out/*" sample_lowered). Defined.

(** * A scope inside a loop

    [b] belongs to a scope nested in the loop [again] but is not listed by the
    loop itself. *)
Definition nested_flow : Flow nat :=
  {| flow_schema := FLOW_SCHEMA_V0; flow_name := "nested";
     flow_interface := {| interface_inputs := [path_port "x"]; interface_outputs := [path_port "z"] |};
     flow_contracts := [{| contract_id := "c"; contract_expression := CePredicate "p" ∅ |}];
     flow_nodes := [sample_node "source" [] [path_port "x"] NkInput [];
                    sample_node "b" [path_port "x"] [path_port "y"] (program "b.xsh") [];
                    sample_node "a" [path_port "y"] [path_port "z"] (program "a.xsh") [];
                    sample_node "g" [] [] (NkGate "c") [];
                    sample_node "result" [path_port "z"] [] NkOutput []];
     flow_edges := [data_edge "e1" "source" "x" "b" "x"; data_edge "e2" "b" "y" "a" "y";
                    data_edge "e3" "a" "z" "result" "z";
                    {| edge_id := "e4"; edge_from := {| endpoint_node := "a"; endpoint_port := Some "z" |};
                       edge_to := {| endpoint_node := "a"; endpoint_port := Some "y" |};
                       edge_kind := EkFeedback "again" "s" |}];
     flow_regions := [{| region_id := "again"; region_parent := None; region_nodes := ["a"; "g"];
                         region_kind := RkLoop 3 {| until_gate := "g"; until_outcome := OutcomeValid |}
                                          ExhaustFail; region_annotations := ∅ |};
                      {| region_id := "inner"; region_parent := Some "again"; region_nodes := ["b"];
                         region_kind := RkScope; region_annotations := ∅ |}];
     flow_annotations := ∅ |}.

(** The plan places [b] in the loop, yet the loop's body order omits it and its
    state takes [b] for the producer outside the loop. *)
Lemma nested_scope_escapes_loop :
  ∃ plan t l st, lower nested_flow sample_hash = Done plan ∧
    t ∈ plan_tasks plan ∧ task_id t = "b" ∧ task_loop_context t = Some "again" ∧
    l ∈ plan_loops plan ∧ loop_id l = "again" ∧ "b" ∉ loop_body_order l ∧
    st ∈ loop_states l ∧ ref_task (state_initial st) = "b".
Proof.
  eexists _, _, _, _. split; [vm_compute; reflexivity|].
  split; [do 2 right; by left|]. split; [reflexivity|]. split; [reflexivity|].
  split; [by left|]. split; [reflexivity|]. split; [vm_compute; set_solver|].
  split; [by left|reflexivity].
Qed.
