(* ===== verification/Encode.v ===== *)
(** The canonical encoder of plans
    ([crates/xshell-plan/src/hash.rs]: [Encoder] and [CanonicalEncode]).

    An encoding is the bytes it appends, or the error that stops it. The class
    [CanonicalEncode] is the code's trait; [Canonical] states what the plan
    hash needs of every implementation: read from the front of any input, an
    encoding determines the value and where it ends. *)
From Stdlib Require Import Ascii.
From S2P Require Import Prelude.

Inductive CanonicalEncodeError : Type :=
| UnsupportedSchema (actual expected : string)
| LengthOverflow
| UnsupportedNumber.

Abbreviation Enc := (Outcome CanonicalEncodeError (list ascii)).

(** [first; second], each appending to the same buffer. *)
Definition enc_app (first second : Enc) : Enc :=
  let! a := first in let! b := second in Done (a ++ b).
#[global] Arguments enc_app : simpl never.
Infix "+++" := enc_app (at level 60, right associativity) : xs_scope.

(** [to_be_bytes] of a [w]-byte unsigned integer. *)
Fixpoint be_bytes (w : nat) (n : N) : list ascii :=
  match w with
  | O => []
  | S w => ascii_of_N (n / 256 ^ N.of_nat w mod 256) :: be_bytes w n
  end.

Definition u8 (n : N) : Enc := Done [ascii_of_N n].
#[global] Arguments u8 : simpl never.
Definition enc_bool (b : bool) : Enc := u8 (if b then 1 else 0).
Definition u32 (n : N) : Enc := Done (be_bytes 4 n).
Definition u64 (n : N) : Enc := Done (be_bytes 8 n).
(** Two's complement. *)
Definition i64 (z : Z) : Enc := Done (be_bytes 8 (Z.to_N (z mod 2 ^ 64))).

Definition U32_MAX : N := 4294967295.

Definition enc_length (n : nat) : Enc :=
  if (N.of_nat n <=? U32_MAX)%N then u32 (N.of_nat n) else Fail LengthOverflow.

Definition enc_string (s : string) : Enc :=
  enc_length (String.length s) +++ Done (chars s).

Class CanonicalEncode (A : Type) := encode : A → Enc.

Section encode_all.
Context {A : Type} (enc : A → Enc).
Fixpoint encode_all (l : list A) : Enc :=
  match l with [] => Done [] | x :: l => enc x +++ encode_all l end.
End encode_all.

Definition enc_list {A} (enc : A → Enc) (l : list A) : Enc :=
  enc_length (length l) +++ encode_all enc l.

Definition enc_optional {A} (enc : A → Enc) (o : option A) : Enc :=
  match o with Some x => u8 1 +++ enc x | None => u8 0 end.

#[export] Instance encode_string : CanonicalEncode string := enc_string.
Example fixed_big_endian :
  u32 16909060 +++ i64 (-2) =
  Done (ascii_of_N <$> [1; 2; 3; 4; 255; 255; 255; 255; 255; 255; 255; 254]%N).
Proof. vm_compute. reflexivity. Qed.

(** * Reading back *)

(** [s] starts with the encoding [e], and [r] is what follows it. *)
Definition reads (e : Enc) (s r : list ascii) : Prop := ∃ b, e = Done b ∧ s = b ++ r.

Lemma reads_app e e' s r : reads (e +++ e') s r ↔ ∃ m, reads e s m ∧ reads e' m r.
Proof.
  unfold reads, enc_app. split.
  - intros (b & Hb & ->). apply bind_Done in Hb as (a & -> & Hb).
    apply bind_Done in Hb as (a' & -> & [= <-]). exists (a' ++ r).
    split; [exists a; by rewrite app_assoc|by exists a'].
  - intros (m & (a & -> & ->) & (a' & -> & ->)). simpl. exists (a ++ a'). by rewrite app_assoc.
Qed.

Lemma reads_Done b s r : reads (Done b) s r ↔ s = b ++ r.
Proof. unfold reads. naive_solver. Qed.

(** [ok] bounds the machine integers of a value, which its Rust type does. *)
Definition determined {A} (enc : A → Enc) (ok : A → Prop) (x : A) : Prop :=
  ∀ y s r r', ok x → ok y → reads (enc x) s r → reads (enc y) s r' → x = y ∧ r = r'.

(** The types that need no such bound. *)
Class Canonical (A : Type) `{CanonicalEncode A} :=
  canonical : ∀ (x y : A) s r r', reads (encode x) s r → reads (encode y) s r' → x = y ∧ r = r'.

(** ** Bytes and integers *)

Lemma u8_inj m n s r r' :
  reads (u8 m) s r → reads (u8 n) s r' → ascii_of_N m = ascii_of_N n ∧ r = r'.
Proof. unfold u8. rewrite !reads_Done. intros ->. intros [=]. done. Qed.

Lemma ascii_of_N_mod_inj a b :
  (a < 256)%N → (b < 256)%N → ascii_of_N a = ascii_of_N b → a = b.
Proof. intros Ha Hb Heq%(f_equal N_of_ascii). by rewrite !N_ascii_embedding in Heq. Qed.

Lemma length_be_bytes w n : length (be_bytes w n) = w.
Proof. induction w as [|w IH]; simpl; congruence. Qed.

Lemma be_bytes_inj w m n :
  be_bytes w m = be_bytes w n → (m mod 256 ^ N.of_nat w = n mod 256 ^ N.of_nat w)%N.
Proof.
  induction w as [|w IH]; simpl be_bytes.
  { intros _. by rewrite !N.mod_1_r. }
  intros Heq. injection Heq as Hd Hr. apply IH in Hr.
  apply ascii_of_N_mod_inj in Hd; [|by apply N.mod_lt..].
  replace (N.of_nat (S w)) with (N.succ (N.of_nat w)) by lia.
  rewrite N.pow_succ_r'. rewrite (N.mul_comm 256).
  rewrite !N.Div0.mod_mul_r, Hr, Hd. done.
Qed.

Lemma be_bytes_reads w m n s r r' :
  (m < 256 ^ N.of_nat w)%N → (n < 256 ^ N.of_nat w)%N →
  reads (Done (be_bytes w m)) s r → reads (Done (be_bytes w n)) s r' → m = n ∧ r = r'.
Proof.
  intros Hm Hn. rewrite !reads_Done. intros -> Heq.
  apply app_inj_1 in Heq as [Hb ->]; [|by rewrite !length_be_bytes]. split; [|done].
  apply be_bytes_inj in Hb. by rewrite !N.mod_small in Hb.
Qed.

Lemma u32_inj m n s r r' : (m ≤ U32_MAX)%N → (n ≤ U32_MAX)%N →
  reads (u32 m) s r → reads (u32 n) s r' → m = n ∧ r = r'.
Proof. intros Hm Hn. apply be_bytes_reads; unfold U32_MAX in *; simpl; lia. Qed.

Lemma u64_inj m n s r r' : (m < 2 ^ 64)%N → (n < 2 ^ 64)%N →
  reads (u64 m) s r → reads (u64 n) s r' → m = n ∧ r = r'.
Proof. intros Hm Hn. apply be_bytes_reads; simpl in *; lia. Qed.

Lemma i64_inj m n s r r' : (- 2 ^ 63 ≤ m < 2 ^ 63)%Z → (- 2 ^ 63 ≤ n < 2 ^ 63)%Z →
  reads (i64 m) s r → reads (i64 n) s r' → m = n ∧ r = r'.
Proof.
  intros Hm Hn H1 H2.
  pose proof (Z.mod_pos_bound m (2 ^ 64) ltac:(lia)). pose proof (Z.mod_pos_bound n (2 ^ 64) ltac:(lia)).
  destruct (be_bytes_reads 8 (Z.to_N (m mod 2 ^ 64)) (Z.to_N (n mod 2 ^ 64)) s r r') as [Heq ->];
    [simpl; lia|simpl; lia|done|done|].
  split; [|done]. apply Z2N.inj in Heq; [|lia|lia].
  pose proof (Z.div_mod m (2 ^ 64) ltac:(lia)). pose proof (Z.div_mod n (2 ^ 64) ltac:(lia)). lia.
Qed.

(** ** Lengths, strings, options and lists *)

Lemma enc_length_inj m n s r r' :
  reads (enc_length m) s r → reads (enc_length n) s r' → m = n ∧ r = r'.
Proof.
  unfold enc_length. destruct (N.leb_spec (N.of_nat m) U32_MAX); [|by intros (? & ? & _)].
  destruct (N.leb_spec (N.of_nat n) U32_MAX); [|by intros _ (? & ? & _)].
  intros H1 H2. destruct (u32_inj _ _ _ _ _ H H0 H1 H2). split; [lia|done].
Qed.

Lemma enc_string_inj x y s r r' :
  reads (enc_string x) s r → reads (enc_string y) s r' → x = y ∧ r = r'.
Proof.
  unfold enc_string. intros (m & Hx & Hxr)%reads_app (m' & Hy & Hyr)%reads_app.
  destruct (enc_length_inj _ _ _ _ _ Hx Hy) as [Hlen <-].
  apply reads_Done in Hxr, Hyr. rewrite Hxr in Hyr.
  apply app_inj_1 in Hyr as [Heq ->]; [|by rewrite !length_chars]. split; [|done].
  by apply (inj chars).
Qed.

#[export] Instance canonical_string : Canonical string := enc_string_inj.

Section containers.
Context {A : Type} (enc : A → Enc) (ok : A → Prop).

Lemma determined_all l k s r r' :
  Forall (determined enc ok) l → length l = length k → Forall ok l → Forall ok k →
  reads (encode_all enc l) s r → reads (encode_all enc k) s r' → l = k ∧ r = r'.
Proof.
  intros Hl. revert k s. induction Hl as [|x l Hx Hl IH]; intros [|y k] s Hlen Hokl Hokk; simplify_eq/=.
  { unfold reads. naive_solver. }
  intros (m & Hm & Hr)%reads_app (m' & Hm' & Hr')%reads_app.
  inversion Hokl; inversion Hokk; subst.
  destruct (Hx y s m m') as [-> <-]; [done..|]. by destruct (IH k m) as [-> ->].
Qed.

Lemma determined_list l :
  Forall (determined enc ok) l → determined (enc_list enc) (Forall ok) l.
Proof.
  intros Hl k s r r' Hokl Hokk. unfold enc_list.
  intros (m & Hm & Hr)%reads_app (m' & Hm' & Hr')%reads_app.
  destruct (enc_length_inj _ _ _ _ _ Hm Hm') as [Hlen <-]. by eapply determined_all.
Qed.

Lemma determined_optional o :
  (∀ x, o = Some x → determined enc ok x) →
  determined (enc_optional enc) (λ o, ∀ x, o = Some x → ok x) o.
Proof.
  intros Ho o' s r r' Hok Hok'. destruct o as [x|], o' as [y|]; cbn [enc_optional].
  - intros (m & Hm & Hr)%reads_app (m' & Hm' & Hr')%reads_app.
    destruct (u8_inj _ _ _ _ _ Hm Hm') as [_ <-].
    destruct (Ho x eq_refl y m r r') as [-> ->]; auto.
  - intros (m & Hm & Hr)%reads_app Hm'. by destruct (u8_inj _ _ _ _ _ Hm Hm').
  - intros Hm (m' & Hm' & Hr')%reads_app. by destruct (u8_inj _ _ _ _ _ Hm Hm').
  - intros Hm Hm'. by destruct (u8_inj _ _ _ _ _ Hm Hm').
Qed.
End containers.

Lemma enc_list_inj `{Canonical A} (l k : list A) s r r' :
  reads (enc_list encode l) s r → reads (enc_list encode k) s r' → l = k ∧ r = r'.
Proof.
  eapply (determined_list encode (λ _, True)); try by apply Forall_true.
  apply Forall_true. intros x y t u u' _ _. apply canonical.
Qed.

Lemma enc_optional_inj `{Canonical A} (o o' : option A) s r r' :
  reads (enc_optional encode o) s r → reads (enc_optional encode o') s r' → o = o' ∧ r = r'.
Proof.
  eapply (determined_optional encode (λ _, True)); try done.
  intros x _ y t u u' _ _. apply canonical.
Qed.

(** ** Maps with string keys *)

(** The entries of a map, in key order, as [encode_json_map] writes them. *)
Definition enc_entries {V} (enc : V → Enc) (m : gmap string V) : Enc :=
  let values := btree_iter (enc <$> m) in
  enc_length (length values) +++
  encode_all (λ '(key, value), enc_string key +++ value) (sort_on fst values).

Lemma btree_iter_fmap {V W} (g : V → W) (m : gmap string V) :
  btree_iter (g <$> m) = prod_map id g <$> btree_iter m.
Proof. unfold btree_iter. rewrite map_to_list_fmap. by apply sort_on_fmap. Qed.

Lemma enc_entries_iter {V} (enc : V → Enc) (m : gmap string V) :
  enc_entries enc m = enc_list (λ '(key, value), enc_string key +++ enc value) (btree_iter m).
Proof.
  unfold enc_entries, enc_list. rewrite btree_iter_fmap, length_fmap. f_equal.
  rewrite (sort_on_fmap (prod_map id enc) fst fst) by done.
  unfold btree_iter. rewrite sort_on_idemp.
  induction (sort_on fst (map_to_list m)) as [|[k v] l IH]; simpl; [done|by f_equal].
Qed.

Lemma btree_iter_inj {V} (m m' : gmap string V) : btree_iter m = btree_iter m' → m = m'.
Proof.
  intros Heq. apply map_eq. intros k. apply option_eq. intros v.
  by rewrite <-!elem_of_btree_iter, Heq.
Qed.

Lemma determined_entries {V} (enc : V → Enc) (ok : V → Prop) (m : gmap string V) :
  map_Forall (λ _, determined enc ok) m →
  determined (enc_entries enc) (map_Forall (λ _, ok)) m.
Proof.
  intros Hm m' s r r' Hok Hok'. rewrite !enc_entries_iter. intros H1 H2.
  destruct (determined_list (λ '(key, value), enc_string key +++ enc value) (λ kv, ok kv.2)
    (btree_iter m)) with (y := btree_iter m') (s := s) (r := r) (r' := r') as [Heq ->]; try done.
  - apply Forall_forall. intros [k v] Hkv%elem_of_btree_iter [k' v'] t u u' Hv Hv'.
    intros (? & Hk & Hx)%reads_app (? & Hk' & Hx')%reads_app.
    destruct (enc_string_inj _ _ _ _ _ Hk Hk') as [-> ->].
    by destruct (Hm _ _ Hkv v' _ _ _ Hv Hv' Hx Hx') as [-> ->].
  - apply Forall_forall. intros [k v] Hkv%elem_of_btree_iter. by apply (Hok k).
  - apply Forall_forall. intros [k v] Hkv%elem_of_btree_iter. by apply (Hok' k).
  - split; [by apply btree_iter_inj|done].
Qed.

(** ** Records and enums

    Take the encodings of two values apart in step, field by field. *)
Ltac split_reads :=
  repeat match goal with
  | H : reads (_ +++ _) _ _ |- _ => apply reads_app in H as (? & ? & H)
  end.

Ltac read_pair H H' :=
  let Ha := fresh in let Hr := fresh in
  intros [Ha Hr]; clear H H'; try subst.

Ltac read_step :=
  match goal with
  | H : reads (u8 _) ?s _, H' : reads (u8 _) ?s _ |- _ =>
      let Ha := fresh in let Hr := fresh in
      destruct (u8_inj _ _ _ _ _ H H') as [Ha Hr]; clear H H'; try discriminate Ha;
      clear Ha; subst
  | H : reads (enc_bool ?a) ?s _, H' : reads (enc_bool ?b) ?s _ |- _ =>
      let Ha := fresh in let Hr := fresh in
      destruct (u8_inj _ _ _ _ _ H H') as [Ha Hr]; clear H H'; subst;
      assert (a = b) by (destruct a, b; done); clear Ha
  | H : reads (enc_string _) ?s _, H' : reads (enc_string _) ?s _ |- _ =>
      generalize (enc_string_inj _ _ _ _ _ H H'); read_pair H H'
  | H : reads (enc_list encode _) ?s _, H' : reads (enc_list encode _) ?s _ |- _ =>
      generalize (enc_list_inj _ _ _ _ _ H H'); read_pair H H'
  | H : reads (enc_optional encode _) ?s _, H' : reads (enc_optional encode _) ?s _ |- _ =>
      generalize (enc_optional_inj _ _ _ _ _ H H'); read_pair H H'
  | H : reads (encode _) ?s _, H' : reads (encode _) ?s _ |- _ =>
      generalize (canonical _ _ _ _ _ H H'); read_pair H H'
  end.

Ltac solve_reads := split_reads; repeat read_step; split; congruence.
