(* ===== verification/PlanHash.v ===== *)
(** Canonical plan bytes and the plan hash
    ([crates/xshell-plan/src/hash.rs], [Plan::hash] and [PlanArtifact] of
    [crates/xshell-plan/src/model.rs]).

    One [CanonicalEncode] instance per plan type, field by field as the code
    writes them. The JSON numbers of [serde_json], SHA-256 and the hex printer
    are parameters. *)
From Stdlib Require Import Ascii.
From S2P Require Import Prelude PlanModel Encode.

(** * JSON values *)

(** What [encode_json] asks of a [serde_json::Number]. A float is given by its
    bits. *)
Class Number (Num : Type) := {
  as_u64 : Num → option N;
  as_i64 : Num → option Z;
  as_f64 : Num → option N;
}.

(** [serde_json::Value]; an object is a [BTreeMap]. *)
Inductive Json {Num : Type} : Type :=
| JNull
| JBool (b : bool)
| JNumber (number : Num)
| JString (value : string)
| JArray (values : list Json)
| JObject (values : gmap string Json).
Arguments Json : clear implicits.

Section json.
Context `{Number Num}.

(** [if value == 0.0 { value = 0.0 }] on the bits of a double: both zeros
    compare equal to 0.0. *)
Definition canonical_bits (bits : N) : N :=
  if ((bits =? 0) || (bits =? 2 ^ 63))%N then 0%N else bits.

Definition encode_number (number : Num) : Enc :=
  match as_u64 number with
  | Some value => u8 3 +++ u64 value
  | None =>
      match as_i64 number with
      | Some value => u8 4 +++ i64 value
      | None =>
          match as_f64 number with
          | Some value => u8 5 +++ u64 (canonical_bits value)
          | None => Fail UnsupportedNumber
          end
      end
  end.

Fixpoint encode_json (value : Json Num) : Enc :=
  match value with
  | JNull => u8 0
  | JBool false => u8 1
  | JBool true => u8 2
  | JNumber number => encode_number number
  | JString value => u8 6 +++ enc_string value
  | JArray values => u8 7 +++ enc_list encode_json values
  | JObject values => u8 8 +++ enc_entries encode_json values
  end.

(** A measure for induction on values. *)
Fixpoint json_size (value : Json Num) : nat :=
  match value with
  | JArray values => S (sum_list (map json_size values))
  | JObject values => S (map_fold (λ _ s n, s + n) 0 (json_size <$> values))
  | _ => 1
  end.
End json.

(** The documented accessors: [as_u64] and [as_i64] answer within their types
    and with the number itself; a number that is neither is a double, and
    numbers whose doubles are [==] are [==]. *)
Class NumberLaws (Num : Type) `{Number Num} := {
  as_u64_range : ∀ n v, as_u64 n = Some v → (v < 2 ^ 64)%N;
  as_u64_inj : ∀ m n v, as_u64 m = Some v → as_u64 n = Some v → m = n;
  as_i64_range : ∀ n v, as_i64 n = Some v → (- 2 ^ 63 ≤ v < 2 ^ 63)%Z;
  as_i64_inj : ∀ m n v, as_i64 m = Some v → as_i64 n = Some v → m = n;
  as_f64_range : ∀ n v, as_f64 n = Some v → (v < 2 ^ 64)%N;
  as_f64_inj : ∀ m n v w, as_u64 m = None → as_i64 m = None → as_f64 m = Some v →
    as_u64 n = None → as_i64 n = None → as_f64 n = Some w →
    canonical_bits v = canonical_bits w → m = n;
}.

(** * Plan types *)

#[export] Instance encode_flow_identity : CanonicalEncode FlowIdentity := λ x,
  enc_string (identity_schema x) +++ enc_string (semantic_sha256 x).

Fixpoint encode_value_type (t : PlanValueType) : Enc :=
  match t with
  | PvBool => u8 0
  | PvInt => u8 1
  | PvString => u8 2
  | PvPath => u8 3
  | PvEvidence => u8 4
  | PvContractReport => u8 5
  | PvReceipt => u8 6
  | PvArtifact media_type schema =>
      u8 7 +++ enc_optional encode media_type +++ enc_optional encode schema
  | PvList item => u8 8 +++ encode_value_type item
  end.
#[export] Instance encode_plan_value_type : CanonicalEncode PlanValueType := encode_value_type.

#[export] Instance encode_port : CanonicalEncode PlanPort := λ x,
  enc_string (pport_name x) +++ encode (pport_type x) +++ enc_bool (pport_optional x).

#[export] Instance encode_interface : CanonicalEncode PlanInterface := λ x,
  enc_list encode (pinterface_inputs x) +++ enc_list encode (pinterface_outputs x).

#[export] Instance encode_resolved_program : CanonicalEncode ResolvedProgram := λ x,
  enc_string (manifest_sha256 x) +++ enc_string (source_sha256 x) +++
  enc_string (resolved_entrypoint x).

#[export] Instance encode_resolved_predicate : CanonicalEncode ResolvedPredicate := λ x,
  enc_string (definition_sha256 x) +++ enc_string (predicate_version x) +++
  enc_string (implementation_sha256 x).

#[export] Instance encode_join_strategy : CanonicalEncode PlanJoinStrategy := λ x,
  u8 match x with PjAll => 0 | PjAny => 1 | PjFirstValid => 2 end.

#[export] Instance encode_gate_outcome : CanonicalEncode PlanGateOutcome := λ x,
  u8 match x with PgValid => 0 | PgInvalid => 1 | PgError => 2 | PgCancelled => 3 end.

#[export] Instance encode_exhaustion_policy : CanonicalEncode PlanExhaustionPolicy := λ x,
  u8 match x with PxFail => 0 | PxYieldLast => 1 | PxDiscard => 2 end.

#[export] Instance encode_task_operation : CanonicalEncode TaskOperation := λ x,
  match x with
  | OpInput => u8 0
  | OpOutput => u8 1
  | OpProgram source entrypoint resolution =>
      u8 2 +++ enc_string source +++ enc_optional encode entrypoint +++
      enc_optional encode resolution
  | OpGate contract => u8 3 +++ enc_string contract
  | OpJoin strategy => u8 4 +++ encode strategy
  | OpPromote paths => u8 5 +++ enc_list encode paths
  | OpDiscard => u8 6
  end.

#[export] Instance encode_port_reference : CanonicalEncode PortReference := λ x,
  enc_string (ref_task x) +++ enc_string (ref_port x).

#[export] Instance encode_value_selection : CanonicalEncode ValueSelection := λ x,
  match x with
  | Direct => u8 0
  | LoopInitial loop_region => u8 1 +++ enc_string loop_region
  | CurrentIteration loop_region => u8 2 +++ enc_string loop_region
  | LoopFinal loop_region => u8 3 +++ enc_string loop_region
  | PreviousIteration loop_region state => u8 4 +++ enc_string loop_region +++ enc_string state
  end.

#[export] Instance encode_value_binding : CanonicalEncode ValueBinding := λ x,
  encode (binding_from x) +++ encode (binding_selection x).

#[export] Instance encode_input_binding : CanonicalEncode InputBinding := λ x,
  encode (binding_port x) +++ enc_list encode (binding_sources x).

#[export] Instance encode_readiness_mode : CanonicalEncode ReadinessMode := λ x,
  u8 match x with ReadyAll => 0 | ReadyAny => 1 end.

#[export] Instance encode_data_readiness : CanonicalEncode DataReadiness := λ x,
  encode (data_mode x) +++ enc_list encode (data_tasks x).

#[export] Instance encode_route_condition : CanonicalEncode RouteCondition := λ x,
  enc_string (route_gate x) +++ encode (route_outcome x).

#[export] Instance encode_readiness : CanonicalEncode Readiness := λ x,
  encode (ready_data x) +++ enc_list encode (ready_after x) +++
  enc_list encode (activate_on_any x).

#[export] Instance encode_capability_summary : CanonicalEncode CapabilitySummary := λ x,
  enc_list encode (sum_read x) +++ enc_list encode (sum_write x) +++
  enc_list encode (sum_execute x) +++ enc_list encode (sum_network x).

Definition encode_optional_u64 (value : option N) : Enc :=
  match value with Some value => u8 1 +++ u64 value | None => u8 0 end.

#[export] Instance encode_resources : CanonicalEncode PlanResources := λ x,
  encode_optional_u64 (pr_timeout_ms x) +++ encode_optional_u64 (pr_memory_bytes x) +++
  encode_optional_u64 (pr_output_bytes x) +++
  match pr_attempts x with Some value => u8 1 +++ u32 value | None => u8 0 end.

#[export] Instance encode_task_template : CanonicalEncode TaskTemplate := λ x,
  enc_string (task_id x) +++ encode (task_operation x) +++ enc_list encode (task_inputs x) +++
  enc_list encode (task_outputs x) +++ encode (task_readiness x) +++
  enc_list encode (task_region_path x) +++ enc_optional encode (task_transaction x) +++
  enc_optional encode (task_loop_context x) +++ encode (task_capabilities x) +++
  encode (task_resources x).

#[export] Instance encode_region_kind : CanonicalEncode PlanRegionKind := λ x,
  match x with
  | PrScope => u8 0
  | PrParallel => u8 1
  | PrTransaction workspace => u8 2 +++ enc_string workspace
  | PrLoop => u8 3
  end.

#[export] Instance encode_region_template : CanonicalEncode RegionTemplate := λ x,
  enc_string (rt_id x) +++ enc_optional encode (rt_parent x) +++ encode (rt_kind x) +++
  enc_list encode (rt_direct_members x).

#[export] Instance encode_loop_state : CanonicalEncode LoopState := λ x,
  enc_string (state_name x) +++ encode (state_type x) +++ encode (state_target x) +++
  encode (state_initial x) +++ encode (state_feedback x).

#[export] Instance encode_loop_template : CanonicalEncode LoopTemplate := λ x,
  enc_string (loop_id x) +++ enc_list encode (loop_body_order x) +++
  u32 (loop_max_iterations x) +++ encode (loop_until x) +++ encode (loop_on_exhausted x) +++
  enc_list encode (loop_states x).

#[export] Instance encode_resolution_blocker : CanonicalEncode ResolutionBlocker := λ x,
  match x with
  | UnresolvedProgram task source => u8 0 +++ enc_string task +++ enc_string source
  | UncheckedPredicate contract predicate => u8 1 +++ enc_string contract +++ enc_string predicate
  end.

#[export] Instance encode_resolution_status : CanonicalEncode ResolutionStatus := λ x,
  enc_bool (fully_resolved x) +++ enc_list encode (blockers x).

Section encode_plan.
Context `{Number Num}.

Fixpoint encode_expression (e : PlanContractExpression (Json Num)) : Enc :=
  match e with
  | PePredicate name arguments resolution =>
      u8 0 +++ enc_string name +++ enc_entries encode_json arguments +++
      enc_optional encode resolution
  | PeAll clauses => u8 1 +++ enc_list encode_expression clauses
  | PeAny clauses => u8 2 +++ enc_list encode_expression clauses
  | PeNot clause => u8 3 +++ encode_expression clause
  end.
#[export] Instance encode_contract_expression :
  CanonicalEncode (PlanContractExpression (Json Num)) := encode_expression.

#[export] Instance encode_contract : CanonicalEncode (PlanContract (Json Num)) := λ x,
  enc_string (pcontract_id x) +++ encode (pcontract_expression x).

#[export] Instance encode_plan : CanonicalEncode (Plan (Json Num)) := λ x,
  enc_string (plan_schema x) +++ enc_string (plan_name x) +++ encode (plan_flow x) +++
  encode (plan_interface x) +++ enc_list encode (plan_contracts x) +++
  enc_list encode (plan_tasks x) +++ enc_list encode (plan_regions x) +++
  enc_list encode (plan_loops x) +++ encode (plan_capabilities x) +++
  encode (plan_resolution x).
End encode_plan.

(** * The plan hash *)

(** The byte [b"\x.."] of a byte string literal. *)
Definition byte_string (n : N) : string := String (ascii_of_N n) EmptyString.

(** [b"FSPLAN\0\x01"]. *)
Definition CANONICAL_MAGIC : list ascii :=
  chars "FSPLAN" ++ chars (byte_string 0) ++ chars (byte_string 1).
(** [b"xshell.plan.semantic.fsplan-v1\0"]. *)
Definition PLAN_HASH_DOMAIN : list ascii :=
  chars "xshell.plan.semantic.fsplan-v1" ++ chars (byte_string 0).

Section hash.
Context `{Number Num}.
(** SHA-256 and [hex::encode]. *)
Context (sha256 : list ascii → list ascii) (hex_encode : list ascii → string).

Definition canonical_plan_bytes (plan : Plan (Json Num)) : Enc :=
  if bool_decide (plan_schema plan = PLAN_SCHEMA_V0) then
    Done CANONICAL_MAGIC +++ encode plan
  else Fail (UnsupportedSchema (plan_schema plan) PLAN_SCHEMA_V0).

Definition plan_hash (plan : Plan (Json Num)) : Enc :=
  let! bytes := canonical_plan_bytes plan in
  Done (sha256 (PLAN_HASH_DOMAIN ++ bytes)).

Record PlanArtifact := {
  artifact_plan_hash : string;
  artifact_plan : Plan (Json Num);
}.

Definition artifact (plan : Plan (Json Num)) : Outcome CanonicalEncodeError PlanArtifact :=
  let! hash := plan_hash plan in
  Done {| artifact_plan_hash := hex_encode hash; artifact_plan := plan |}.

Definition verify_hash (a : PlanArtifact) : Outcome CanonicalEncodeError bool :=
  let! hash := plan_hash (artifact_plan a) in
  Done (bool_decide (hex_encode hash = artifact_plan_hash a)).
End hash.

(** * Every encoding determines its value *)

Ltac canonical_type enc :=
  let Ha := fresh in let Hb := fresh in
  intros x y s r r' Ha Hb; unfold encode, enc in Ha, Hb; destruct x, y; simpl in Ha, Hb;
  try solve [solve_reads].

#[export] Instance canonical_flow_identity : Canonical FlowIdentity.
Proof. canonical_type encode_flow_identity. Qed.

#[export] Instance canonical_value_type : Canonical PlanValueType.
Proof.
  intros x. induction x; intros [] s r r' H H'; unfold encode, encode_plan_value_type in H, H';
    cbn [encode_value_type] in H, H'; try solve [solve_reads].
  split_reads. read_step. by destruct (IHx _ _ _ _ H H') as [-> ->].
Qed.

#[export] Instance canonical_port : Canonical PlanPort.
Proof. canonical_type encode_port. Qed.
#[export] Instance canonical_interface : Canonical PlanInterface.
Proof. canonical_type encode_interface. Qed.
#[export] Instance canonical_resolved_program : Canonical ResolvedProgram.
Proof. canonical_type encode_resolved_program. Qed.
#[export] Instance canonical_resolved_predicate : Canonical ResolvedPredicate.
Proof. canonical_type encode_resolved_predicate. Qed.
#[export] Instance canonical_join_strategy : Canonical PlanJoinStrategy.
Proof. canonical_type encode_join_strategy. Qed.
#[export] Instance canonical_gate_outcome : Canonical PlanGateOutcome.
Proof. canonical_type encode_gate_outcome. Qed.
#[export] Instance canonical_exhaustion_policy : Canonical PlanExhaustionPolicy.
Proof. canonical_type encode_exhaustion_policy. Qed.
#[export] Instance canonical_task_operation : Canonical TaskOperation.
Proof. canonical_type encode_task_operation. Qed.
#[export] Instance canonical_port_reference : Canonical PortReference.
Proof. canonical_type encode_port_reference. Qed.
#[export] Instance canonical_value_selection : Canonical ValueSelection.
Proof. canonical_type encode_value_selection. Qed.
#[export] Instance canonical_value_binding : Canonical ValueBinding.
Proof. canonical_type encode_value_binding. Qed.
#[export] Instance canonical_input_binding : Canonical InputBinding.
Proof. canonical_type encode_input_binding. Qed.
#[export] Instance canonical_readiness_mode : Canonical ReadinessMode.
Proof. canonical_type encode_readiness_mode. Qed.
#[export] Instance canonical_data_readiness : Canonical DataReadiness.
Proof. canonical_type encode_data_readiness. Qed.
#[export] Instance canonical_route_condition : Canonical RouteCondition.
Proof. canonical_type encode_route_condition. Qed.
#[export] Instance canonical_readiness : Canonical Readiness.
Proof. canonical_type encode_readiness. Qed.
#[export] Instance canonical_capability_summary : Canonical CapabilitySummary.
Proof. canonical_type encode_capability_summary. Qed.
#[export] Instance canonical_region_kind : Canonical PlanRegionKind.
Proof. canonical_type encode_region_kind. Qed.
#[export] Instance canonical_region_template : Canonical RegionTemplate.
Proof. canonical_type encode_region_template. Qed.
#[export] Instance canonical_loop_state : Canonical LoopState.
Proof. canonical_type encode_loop_state. Qed.
#[export] Instance canonical_resolution_blocker : Canonical ResolutionBlocker.
Proof. canonical_type encode_resolution_blocker. Qed.
#[export] Instance canonical_resolution_status : Canonical ResolutionStatus.
Proof. canonical_type encode_resolution_status. Qed.

(** ** JSON values *)

Lemma canonical_bits_range bits : (bits < 2 ^ 64)%N → (canonical_bits bits < 2 ^ 64)%N.
Proof. unfold canonical_bits. case_match; lia. Qed.

Section json_canonical.
Context `{NumberLaws Num}.

Lemma encode_number_inj (m n : Num) s r r' :
  reads (encode_number m) s r → reads (encode_number n) s r' → m = n ∧ r = r'.
Proof.
  unfold encode_number. intros Hm Hn. repeat case_match;
    try solve [by destruct Hm as (? & ? & _)|by destruct Hn as (? & ? & _)];
    split_reads; repeat read_step.
  - pose proof (λ A B, u64_inj _ _ _ _ _ A B Hm Hn) as [-> ->]; [by eapply as_u64_range..|].
    split; [by eapply as_u64_inj|done].
  - pose proof (λ A B, i64_inj _ _ _ _ _ A B Hm Hn) as [-> ->]; [by eapply as_i64_range..|].
    split; [by eapply as_i64_inj|done].
  - pose proof (λ A B, u64_inj _ _ _ _ _ A B Hm Hn) as [Heq ->];
      [by eapply canonical_bits_range, as_f64_range..|].
    split; [by eapply as_f64_inj|done].
Qed.

(** The first byte of a number tells it from every other value. *)
Lemma encode_number_tag (n : Num) s r :
  reads (encode_number n) s r → ∃ m, reads (u8 3) s m ∨ reads (u8 4) s m ∨ reads (u8 5) s m.
Proof.
  unfold encode_number. intros Hn. repeat case_match; [..|by destruct Hn as (? & ? & _)];
    split_reads; eauto.
Qed.

Lemma json_size_array (values : list (Json Num)) x :
  x ∈ values → json_size x < json_size (JArray values).
Proof.
  intros Hx. simpl. induction values as [|v values IH]; [by apply elem_of_nil in Hx|].
  apply elem_of_cons in Hx as [->|Hx]; simpl; [lia|]. specialize (IH Hx). lia.
Qed.

Lemma json_size_object (values : gmap string (Json Num)) k x :
  values !! k = Some x → json_size x < json_size (JObject values).
Proof.
  intros Hx. simpl.
  rewrite (map_fold_delete_L (λ (_ : string) s n, s + n) 0 k (json_size x));
    [lia|lia|by rewrite lookup_fmap, Hx].
Qed.

(** Induction on values, through the objects. *)
Lemma Json_nested_ind (P : Json Num → Prop) :
  P JNull → (∀ b, P (JBool b)) → (∀ n, P (JNumber n)) → (∀ s, P (JString s)) →
  (∀ values, Forall P values → P (JArray values)) →
  (∀ values, map_Forall (λ _, P) values → P (JObject values)) → ∀ v, P v.
Proof.
  intros Hnull Hbool Hnum Hstr Harr Hobj.
  apply (well_founded_ind (well_founded_ltof _ json_size)). unfold ltof.
  intros [|b|n|s|values|values] IH; [done..| |].
  - apply Harr, Forall_forall. intros x Hx. by apply IH, json_size_array.
  - apply Hobj. intros k x Hx. by eapply IH, json_size_object.
Qed.

Lemma encode_json_inj (v : Json Num) : determined encode_json (λ _, True) v.
Proof.
  induction v as [|b|n|str|values IH|values IH] using Json_nested_ind;
    intros [|b'|n'|str'|values'|values'] s r r' _ _ Hv Hw; cbn [encode_json] in *;
    try (destruct (encode_number_inj _ _ _ _ _ Hv Hw) as [-> ->]; done);
    try destruct b; try destruct b'; try (apply encode_number_tag in Hv as (? & [?|[?|?]]));
    try (apply encode_number_tag in Hw as (? & [?|[?|?]]));
    try solve [solve_reads].
  - split_reads. read_step.
    destruct (determined_list encode_json (λ _, True) values IH values' _ _ _
      ltac:(by apply Forall_true) ltac:(by apply Forall_true) Hv Hw) as [-> ->]. done.
  - split_reads. read_step.
    destruct (determined_entries encode_json (λ _, True) values IH values' _ _ _
      ltac:(done) ltac:(done) Hv Hw) as [-> ->]. done.
Qed.

Lemma enc_arguments_inj (m m' : gmap string (Json Num)) s r r' :
  reads (enc_entries encode_json m) s r → reads (enc_entries encode_json m') s r' →
  m = m' ∧ r = r'.
Proof.
  eapply (determined_entries encode_json (λ _, True)); [|done..].
  intros k v _. apply encode_json_inj.
Qed.

(** ** Contracts *)

Lemma encode_expression_inj (e : PlanContractExpression (Json Num)) :
  determined encode_expression (λ _, True) e.
Proof.
  induction e as [name arguments resolution|clauses IH|clauses IH|clause IH]
    using PlanContractExpression_nested_ind;
    intros [] s r r' _ _ H1 H2; cbn [encode_expression] in *; try solve [solve_reads];
    split_reads; repeat read_step.
  - match goal with
    | Ha : reads (enc_entries _ _) ?t _, Hb : reads (enc_entries _ _) ?t _ |- _ =>
        destruct (enc_arguments_inj _ _ _ _ _ Ha Hb) as [-> ->]; clear Ha Hb
    end. solve_reads.
  - pose proof (λ A B, determined_list _ _ _ IH _ _ _ _ A B H1 H2) as [-> ->];
      try done; by apply Forall_true.
  - pose proof (λ A B, determined_list _ _ _ IH _ _ _ _ A B H1 H2) as [-> ->];
      try done; by apply Forall_true.
  - by destruct (IH _ _ _ _ I I H1 H2) as [-> ->].
Qed.

#[export] Instance canonical_contract_expression :
  Canonical (PlanContractExpression (Json Num)).
Proof. intros x y s r r'. by apply encode_expression_inj. Qed.

#[export] Instance canonical_contract : Canonical (PlanContract (Json Num)).
Proof.
  intros x y s r r' H1 H2. unfold encode, encode_contract in H1, H2.
  destruct x, y; simpl in H1, H2. solve_reads.
Qed.
End json_canonical.

(** ** Resources, loops, tasks and plans

    The fields of machine integers are in the range of their types. *)
Definition u64_fits (value : option N) : Prop := ∀ v, value = Some v → (v < 2 ^ 64)%N.

Record resources_fit (r : PlanResources) : Prop := {
  fits_timeout : u64_fits (pr_timeout_ms r);
  fits_memory : u64_fits (pr_memory_bytes r);
  fits_output : u64_fits (pr_output_bytes r);
  fits_attempts : ∀ v, pr_attempts r = Some v → (v ≤ U32_MAX)%N;
}.

Record plan_fits {V} (p : Plan V) : Prop := {
  fits_tasks : Forall (λ t, resources_fit (task_resources t)) (plan_tasks p);
  fits_loops : Forall (λ l, (loop_max_iterations l ≤ U32_MAX)%N) (plan_loops p);
}.

Lemma encode_optional_u64_inj a b s r r' : u64_fits a → u64_fits b →
  reads (encode_optional_u64 a) s r → reads (encode_optional_u64 b) s r' → a = b ∧ r = r'.
Proof.
  intros Ha Hb H1 H2. destruct a, b; cbn [encode_optional_u64] in *; split_reads; read_step;
    [|done]. pose proof (λ A B, u64_inj _ _ _ _ _ A B H1 H2) as [-> ->]; auto.
Qed.

Lemma encode_attempts_inj (a b : option N) s r r' :
  (∀ v, a = Some v → (v ≤ U32_MAX)%N) → (∀ v, b = Some v → (v ≤ U32_MAX)%N) →
  reads (match a with Some value => u8 1 +++ u32 value | None => u8 0 end) s r →
  reads (match b with Some value => u8 1 +++ u32 value | None => u8 0 end) s r' →
  a = b ∧ r = r'.
Proof.
  intros Ha Hb H1 H2. destruct a, b; split_reads; read_step; [|done].
  pose proof (λ A B, u32_inj _ _ _ _ _ A B H1 H2) as [-> ->]; auto.
Qed.

Lemma resources_determined x : determined encode resources_fit x.
Proof.
  intros y s r r' [] [] H H'. unfold encode, encode_resources in H, H'. split_reads.
  repeat match goal with
  | Ha : reads (encode_optional_u64 _) ?t _, Hb : reads (encode_optional_u64 _) ?t _ |- _ =>
      generalize (λ A B, encode_optional_u64_inj _ _ _ _ _ A B Ha Hb); clear Ha Hb;
      let Hx := fresh in intros Hx; destruct Hx as [? ->]; [done..|]
  end.
  pose proof (λ A B, encode_attempts_inj _ _ _ _ _ A B H H') as [? ->]; [done..|].
  destruct x, y; simpl in *; subst; done.
Qed.

Lemma loop_determined x :
  determined encode (λ l, (loop_max_iterations l ≤ U32_MAX)%N) x.
Proof.
  intros y s r r' Hx Hy H H'. unfold encode, encode_loop_template in H, H'. split_reads.
  repeat read_step.
  match goal with
  | Ha : reads (u32 _) ?t _, Hb : reads (u32 _) ?t _ |- _ =>
      destruct (u32_inj _ _ _ _ _ Hx Hy Ha Hb) as [? ->]; clear Ha Hb
  end.
  repeat read_step. destruct x, y; simpl in *; subst; done.
Qed.

Lemma task_determined x : determined encode (λ t, resources_fit (task_resources t)) x.
Proof.
  intros y s r r' Hx Hy H H'. unfold encode, encode_task_template in H, H'. split_reads.
  do 9 read_step. destruct (resources_determined _ _ _ _ _ Hx Hy H H') as [? ->].
  destruct x, y; simpl in *; subst; done.
Qed.

Lemma plan_determined `{NumberLaws Num} (x : Plan (Json Num)) : determined encode plan_fits x.
Proof.
  intros y s r r' [Hxt Hxl] [Hyt Hyl] H1 H2. unfold encode, encode_plan in H1, H2. split_reads.
  do 5 read_step.
  match goal with
  | Ha : reads (enc_list encode (plan_tasks _)) ?t _, Hb : reads (enc_list encode _) ?t _ |- _ =>
      destruct (determined_list encode _ _ (Forall_true _ _ task_determined) _ _ _ _ Hxt Hyt Ha Hb)
        as [? ->]; clear Ha Hb
  end.
  read_step.
  match goal with
  | Ha : reads (enc_list encode (plan_loops _)) ?t _, Hb : reads (enc_list encode _) ?t _ |- _ =>
      destruct (determined_list encode _ _ (Forall_true _ _ loop_determined) _ _ _ _ Hxl Hyl Ha Hb)
        as [? ->]; clear Ha Hb
  end.
  do 2 read_step. destruct x, y; simpl in *; subst; done.
Qed.

(** * The hash identifies the plan *)

Section plan_hash.
Context `{NumberLaws Num}.

Lemma canonical_plan_bytes_Done (p : Plan (Json Num)) b :
  canonical_plan_bytes p = Done b ↔
  plan_schema p = PLAN_SCHEMA_V0 ∧ reads (Done CANONICAL_MAGIC +++ encode p) b [].
Proof.
  unfold canonical_plan_bytes, reads. setoid_rewrite app_nil_r.
  case_bool_decide; naive_solver.
Qed.

(** C12: The canonical bytes are a faithful image of the plan: two plans with the same bytes are
    the same plan. Nothing of a plan escapes its hash, and no two fields or list lengths can be
    traded for one another. *)
Theorem canonical_plan_bytes_injective (p q : Plan (Json Num)) b :
  plan_fits p → plan_fits q →
  canonical_plan_bytes p = Done b → canonical_plan_bytes q = Done b → p = q.
Proof.
  intros Hp Hq [_ (m & Hm & Hb)%reads_app]%canonical_plan_bytes_Done
    [_ (m' & Hm' & Hb')%reads_app]%canonical_plan_bytes_Done.
  apply reads_Done in Hm, Hm'. rewrite Hm in Hm'. apply (inj (app _)) in Hm' as <-.
  by destruct (plan_determined _ _ _ _ _ Hp Hq Hb Hb').
Qed.
End plan_hash.

Section artifacts.
Context `{NumberLaws Num}.
Context (sha256 : list ascii → list ascii) (hex_encode : list ascii → string).
Context (hex_encode_inj : Inj (=) (=) hex_encode).

(** An artifact made from a plan verifies. When its plan is replaced by another and it still
    verifies, the two plans' canonical bytes are a SHA-256 collision under the plan domain. *)
Lemma verify_hash_binds_plan (p q : Plan (Json Num)) a :
  plan_fits p → plan_fits q → artifact sha256 hex_encode p = Done a →
  verify_hash sha256 hex_encode a = Done true ∧
  (verify_hash sha256 hex_encode
     {| artifact_plan_hash := artifact_plan_hash a; artifact_plan := q |} = Done true →
   q = p ∨ ∃ b b', canonical_plan_bytes p = Done b ∧ canonical_plan_bytes q = Done b' ∧ b ≠ b' ∧
     sha256 (PLAN_HASH_DOMAIN ++ b) = sha256 (PLAN_HASH_DOMAIN ++ b')).
Proof.
  intros Hp Hq (h & Hh & [= <-])%bind_Done. unfold verify_hash; simpl. rewrite Hh. simpl.
  split; [by rewrite bool_decide_true|].
  intros (h' & Hh' & [= Heq%bool_decide_eq_true%(inj hex_encode)])%bind_Done. subst h'.
  apply bind_Done in Hh as (b & Hb & [= <-]), Hh' as (b' & Hb' & [= Hsha]).
  destruct (decide (b = b')) as [<-|Hne]; [|naive_solver].
  left. by eapply canonical_plan_bytes_injective.
Qed.
End artifacts.

(** * A concrete plan

    Numbers read from integers: the doubles come above the machine integers,
    by their bits, with the negative zero left out. *)
Definition sample_as_f64 (n : Z) : option N :=
  let bits := (n - 2 ^ 64)%Z in
  if ((0 <=? bits) && (bits <? 2 ^ 64) && negb (bits =? 2 ^ 63))%Z then Some (Z.to_N bits) else None.

#[local] Instance sample_number : Number Z := {|
  as_u64 n := if ((0 <=? n) && (n <? 2 ^ 64))%Z then Some (Z.to_N n) else None;
  as_i64 n := if ((- 2 ^ 63 <=? n) && (n <? 2 ^ 63))%Z then Some n else None;
  as_f64 := sample_as_f64;
|}.

#[local] Instance sample_number_laws : NumberLaws Z.
Proof.
  constructor; simpl; unfold sample_as_f64, canonical_bits; intros;
    repeat (case_match; simplify_eq/=); try lia.
  rewrite ?orb_true_iff, ?andb_true_iff, ?N.eqb_eq, ?Z.leb_le, ?Z.ltb_lt, ?negb_true_iff,
    ?Z.eqb_neq in *. lia.
Qed.

Definition sample_reference (port : string) : PortReference := {| ref_task := "t"; ref_port := port |}.

Definition sample_port : PlanPort :=
  {| pport_name := "in"; pport_type := PvList (PvArtifact (Some "text/plain") None);
     pport_optional := true |}.

Definition sample_task (attempts : option N) : TaskTemplate :=
  {| task_id := "t"; task_operation := OpProgram "build.xsh" None None;
     task_inputs := [{| binding_port := sample_port;
                        binding_sources := [{| binding_from := sample_reference "out";
                                               binding_selection := PreviousIteration "l" "s" |}] |}];
     task_outputs := [sample_port];
     task_readiness := {| ready_data := {| data_mode := ReadyAny; data_tasks := ["t"] |};
                          ready_after := []; activate_on_any := [] |};
     task_region_path := ["l"]; task_transaction := None; task_loop_context := Some "l";
     task_capabilities := empty_summary;
     task_resources := {| pr_timeout_ms := Some 60000%N; pr_memory_bytes := None;
                          pr_output_bytes := None; pr_attempts := attempts |} |}.

Definition sample_plan (arguments : gmap string (Json Z)) (attempts : option N) : Plan (Json Z) :=
  {| plan_schema := PLAN_SCHEMA_V0; plan_name := "sample";
     plan_flow := {| identity_schema := "xshell.flow/v0"; semantic_sha256 := "00" |};
     plan_interface := {| pinterface_inputs := [sample_port]; pinterface_outputs := [] |};
     plan_contracts := [{| pcontract_id := "c";
                           pcontract_expression := PeNot (PeAll [PePredicate "p" arguments None]) |}];
     plan_tasks := [sample_task attempts];
     plan_regions := [{| rt_id := "l"; rt_parent := None; rt_kind := PrLoop; rt_direct_members := ["t"] |}];
     plan_loops := [{| loop_id := "l"; loop_body_order := ["t"]; loop_max_iterations := 3;
                       loop_until := {| route_gate := "g"; route_outcome := PgValid |};
                       loop_on_exhausted := PxDiscard; loop_states := [] |}];
     plan_capabilities := empty_summary;
     plan_resolution := {| fully_resolved := true; blockers := [] |} |}.

Definition sample_arguments : gmap string (Json Z) :=
  <["limit" := JNumber (-5)%Z]> (<["deep" := JArray [JObject {["k" := JBool true]}; JNull]]> ∅).

Definition sample_bytes : list ascii :=
  match canonical_plan_bytes (sample_plan sample_arguments (Some 2%N)) with
  | Done bytes => bytes | _ => []
  end.

Lemma sample_encodes :
  canonical_plan_bytes (sample_plan sample_arguments (Some 2%N)) = Done sample_bytes.
Proof. vm_compute. reflexivity. Qed.

Lemma sample_plan_fits arguments attempts :
  (∀ v, attempts = Some v → (v ≤ U32_MAX)%N) → plan_fits (sample_plan arguments attempts).
Proof.
  intros Ha. split; repeat constructor; simpl; try done; intros ? [= <-]. lia.
Qed.

Lemma canonical_plan_bytes_injective_witness :
  sample_plan sample_arguments (Some 2%N) = sample_plan sample_arguments (Some 2%N).
Proof.
  apply (canonical_plan_bytes_injective _ _ sample_bytes);
    [apply sample_plan_fits; intros ? [= <-]; done..|exact sample_encodes|exact sample_encodes].
Defined.

#[local] Instance of_chars_inj : Inj (=) (=) of_chars.
Proof. intros l l' Hl%(f_equal chars). by rewrite !chars_of_chars in Hl. Qed.

(** The bytes themselves stand for the hash here: a collision-free hash. *)
Definition sample_artifact : PlanArtifact :=
  {| artifact_plan_hash := of_chars (PLAN_HASH_DOMAIN ++ sample_bytes);
     artifact_plan := sample_plan sample_arguments (Some 2%N) |}.

Lemma verify_hash_binds_plan_witness :
  verify_hash id of_chars sample_artifact = Done true ∧
  verify_hash id of_chars {| artifact_plan_hash := artifact_plan_hash sample_artifact;
                             artifact_plan := sample_plan sample_arguments (Some 3%N) |} = Done false.
Proof.
  split; [|vm_compute; reflexivity].
  apply (verify_hash_binds_plan id of_chars of_chars_inj (sample_plan sample_arguments (Some 2%N))
    (sample_plan sample_arguments (Some 3%N)));
    [apply sample_plan_fits; intros ? [= <-]; done..|vm_compute; reflexivity].
Defined.
