(* ===== verification/PlanResolve.v ===== *)
(** Plan resolution ([crates/xshell-plan/src/resolve.rs]): a lowered plan is
    bound to the programs and predicates of two catalogs supplied by the
    caller.

    The catalogs are validated and put in canonical order; each program task
    and each predicate found in them is checked against its definition and
    given its resolution; what is not found is a blocker. Diagnostics are the
    lists the code pushes, in order. [serde_json::to_vec], SHA-256 and the hex
    printer are parameters. *)
From Stdlib Require Import Ascii.
From S2P Require Import Prelude FlowValidate PlanModel PlanLower Encode PlanHash.

Definition PROGRAM_CATALOG_SCHEMA_V0 : string := "xshell.program-catalog/v0".
Definition PREDICATE_CATALOG_SCHEMA_V0 : string := "xshell.predicate-catalog/v0".

(** [b"...\0"]. *)
Definition PROGRAM_MANIFEST_HASH_DOMAIN : list ascii :=
  chars "xshell.program-manifest.semantic.v0" ++ chars (byte_string 0).
Definition PREDICATE_DEFINITION_HASH_DOMAIN : list ascii :=
  chars "xshell.predicate-definition.semantic.v0" ++ chars (byte_string 0).

#[export] Instance PlanPort_eq_dec : EqDecision PlanPort.
Proof. solve_decision. Defined.

Record ProgramEntrypoint := {
  ep_name : string;
  ep_inputs : list PlanPort;
  ep_outputs : list PlanPort;
  ep_capabilities : CapabilitySummary;
}.

Record ProgramManifest := {
  mf_source : string;
  mf_source_sha256 : string;
  mf_default_entrypoint : string;
  mf_entrypoints : list ProgramEntrypoint;
}.

Record ProgramCatalog := {
  programs_schema : string;
  catalog_programs : list ProgramManifest;
}.

Inductive PredicateValueType : Type :=
| PtBool | PtInteger | PtNumber | PtString | PtArray | PtObject | PtNull.

Record PredicateArgument := {
  arg_type : PredicateValueType;
  arg_required : bool;
}.

Record PredicateDefinition := {
  pd_name : string;
  pd_version : string;
  pd_implementation_sha256 : string;
  pd_arguments : gmap string PredicateArgument;
}.

Record PredicateCatalog := {
  predicates_schema : string;
  catalog_predicates : list PredicateDefinition;
}.

Record ResolutionDiagnostic := {
  res_code : string;
  res_path : string;
  res_message : string;
}.

Definition res_error (code path message : string) : ResolutionDiagnostic :=
  {| res_code := code; res_path := path; res_message := message |}.

Abbreviation Diagnostics := (list ResolutionDiagnostic).

Definition is_lower_hex (c : ascii) : bool :=
  is_ascii_digit c || ((97 <=? code c) && (code c <=? 102))%N.

Definition is_sha256 (value : string) : bool :=
  bool_decide (String.length value = 64) && string_all is_lower_hex value.

(** * Catalog validation *)

Definition validate_ports (family entrypoint_path : string) (ports : list PlanPort) : Diagnostics :=
  scan (λ index names port,
    let path := at_index (entrypoint_path +:+ "." +:+ family) index +:+ ".name" in
    if blank (pport_name port) then
      ([res_error "R0110" path "port name cannot be empty"], names)
    else
      (push_if (negb (is_new (pport_name port) names))
         (res_error "R0111" path
            ("duplicate " +:+ family +:+ " port " +:+ debug_str (pport_name port))),
       seen_insert (pport_name port) names)) 0 ∅ ports.

(** A path as it is after the loop: replaced when it normalises. *)
Definition normalized_or_kept (path : string) : string :=
  match normalize_workspace_path path false with Done normalized => normalized | _ => path end.

Definition check_path_capability (entrypoint_path family : string) (index : nat) (path : string) :
    Diagnostics :=
  match normalize_workspace_path path false with
  | Fail message =>
      [res_error "R0120" (at_index (entrypoint_path +:+ ".capabilities." +:+ family) index) message]
  | _ => []
  end.

Definition check_name_capability (entrypoint_path family : string) (index : nat) (value : string) :
    Diagnostics :=
  push_if (blank value)
    (res_error "R0121" (at_index (entrypoint_path +:+ ".capabilities." +:+ family) index)
       (family +:+ " capability cannot be empty")).

Definition validate_capabilities (path : string) (c : CapabilitySummary) : Diagnostics :=
  scan_each (check_path_capability path "read") (sum_read c) ++
  scan_each (check_path_capability path "write") (sum_write c) ++
  scan_each (check_name_capability path "execute") (sum_execute c) ++
  scan_each (check_name_capability path "network") (sum_network c).

Definition canonical_capabilities (c : CapabilitySummary) : CapabilitySummary :=
  normalize {|
    sum_read := normalized_or_kept <$> sum_read c;
    sum_write := normalized_or_kept <$> sum_write c;
    sum_execute := sum_execute c;
    sum_network := sum_network c;
  |}.

Definition validate_entrypoints (path : string) (entrypoints : list ProgramEntrypoint) :
    Diagnostics :=
  scan (λ index names e,
    let entrypoint_path := at_index (path +:+ ".entrypoints") index in
    let own :=
      if blank (ep_name e) then
        ([res_error "R0105" (entrypoint_path +:+ ".name") "entrypoint name cannot be empty"], names)
      else
        (push_if (negb (is_new (ep_name e) names))
           (res_error "R0106" (entrypoint_path +:+ ".name")
              ("duplicate entrypoint " +:+ debug_str (ep_name e))),
         seen_insert (ep_name e) names) in
    (own.1 ++ validate_ports "inputs" entrypoint_path (ep_inputs e) ++
     validate_ports "outputs" entrypoint_path (ep_outputs e) ++
     validate_capabilities entrypoint_path (ep_capabilities e), own.2)) 0 ∅ entrypoints.

(** The names the [BTreeSet] of the loop ends with. *)
Definition entrypoint_names (entrypoints : list ProgramEntrypoint) : list string :=
  filter (λ name, blank name = false) (ep_name <$> entrypoints).

Definition validate_manifest (path : string) (manifest : ProgramManifest) : Diagnostics :=
  push_if (negb (is_sha256 (mf_source_sha256 manifest)))
    (res_error "R0103" (path +:+ ".source_sha256")
       "source_sha256 must be 64 lowercase hexadecimal characters") ++
  push_if (bool_decide (length (mf_entrypoints manifest) = 0))
    (res_error "R0104" (path +:+ ".entrypoints")
       "a program manifest requires at least one entrypoint") ++
  validate_entrypoints path (mf_entrypoints manifest) ++
  push_if (negb (bool_decide
      (mf_default_entrypoint manifest ∈ entrypoint_names (mf_entrypoints manifest))))
    (res_error "R0107" (path +:+ ".default_entrypoint")
       ("default entrypoint " +:+ debug_str (mf_default_entrypoint manifest) +:+
        " is not declared")).

Definition validate_programs (programs : list ProgramManifest) : Diagnostics :=
  scan (λ index sources manifest,
    let path := at_index "program_catalog.programs" index in
    let source := mf_source manifest in
    if blank source then
      (res_error "R0101" (path +:+ ".source") "source cannot be empty" ::
       validate_manifest path manifest, sources)
    else
      (push_if (negb (is_new source sources))
         (res_error "R0102" (path +:+ ".source")
            ("duplicate program source " +:+ debug_str source)) ++
       validate_manifest path manifest, seen_insert source sources)) 0 ∅ programs.

Definition canonical_entrypoint (e : ProgramEntrypoint) : ProgramEntrypoint := {|
  ep_name := ep_name e;
  ep_inputs := sort_on pport_name (ep_inputs e);
  ep_outputs := sort_on pport_name (ep_outputs e);
  ep_capabilities := canonical_capabilities (ep_capabilities e);
|}.

Definition canonical_manifest (manifest : ProgramManifest) : ProgramManifest := {|
  mf_source := mf_source manifest;
  mf_source_sha256 := mf_source_sha256 manifest;
  mf_default_entrypoint := mf_default_entrypoint manifest;
  mf_entrypoints := sort_on ep_name (canonical_entrypoint <$> mf_entrypoints manifest);
|}.

(** The program catalog as [validate_programs] leaves it. *)
Definition canonical_programs (programs : list ProgramManifest) : list ProgramManifest :=
  sort_on mf_source (canonical_manifest <$> programs).

Definition validate_predicates (predicates : list PredicateDefinition) : Diagnostics :=
  scan (λ index names predicate,
    let path := at_index "predicate_catalog.predicates" index in
    let name := pd_name predicate in
    let own :=
      if blank name then
        ([res_error "R0201" (path +:+ ".name") "predicate name cannot be empty"], names)
      else
        (push_if (negb (is_new name names))
           (res_error "R0202" (path +:+ ".name") ("duplicate predicate " +:+ debug_str name)),
         seen_insert name names) in
    (own.1 ++
     push_if (blank (pd_version predicate))
       (res_error "R0203" (path +:+ ".version") "predicate version cannot be empty") ++
     push_if (negb (is_sha256 (pd_implementation_sha256 predicate)))
       (res_error "R0204" (path +:+ ".implementation_sha256")
          "implementation_sha256 must be 64 lowercase hexadecimal characters") ++
     scan_each (λ _ name,
       push_if (blank name)
         (res_error "R0205" (path +:+ ".arguments") "predicate argument name cannot be empty"))
       (btree_keys (pd_arguments predicate)), own.2)) 0 ∅ predicates.

Definition canonical_predicates (predicates : list PredicateDefinition) :
    list PredicateDefinition := sort_on pd_name predicates.

Definition check_schema_name (code path what actual expected : string) : Diagnostics :=
  push_if (negb (bool_decide (actual = expected)))
    (res_error code path
       ("unsupported " +:+ what +:+ " schema " +:+ debug_str actual +:+ "; expected " +:+
        debug_str expected)).

Definition validate_catalogs (schema : string) (programs : ProgramCatalog)
    (predicates : PredicateCatalog) : Diagnostics :=
  check_schema_name "R0000" "plan.schema" "plan" schema PLAN_SCHEMA_V0 ++
  check_schema_name "R0001" "program_catalog.schema" "program catalog"
    (programs_schema programs) PROGRAM_CATALOG_SCHEMA_V0 ++
  check_schema_name "R0002" "predicate_catalog.schema" "predicate catalog"
    (predicates_schema predicates) PREDICATE_CATALOG_SCHEMA_V0 ++
  validate_programs (catalog_programs programs) ++
  validate_predicates (catalog_predicates predicates).

(** [PredicateValueType]'s [Display]. *)
Definition display_value_type (t : PredicateValueType) : string :=
  match t with
  | PtBool => "a boolean"
  | PtInteger => "an integer"
  | PtNumber => "a number"
  | PtString => "a string"
  | PtArray => "an array"
  | PtObject => "an object"
  | PtNull => "null"
  end.

(** * Forgetting earlier resolutions *)

Definition set_resolution (resolution : option ResolvedProgram) (t : TaskTemplate) : TaskTemplate :=
  {| task_id := task_id t;
     task_operation :=
       match task_operation t with
       | OpProgram source entrypoint _ => OpProgram source entrypoint resolution
       | operation => operation
       end;
     task_inputs := task_inputs t; task_outputs := task_outputs t;
     task_readiness := task_readiness t; task_region_path := task_region_path t;
     task_transaction := task_transaction t; task_loop_context := task_loop_context t;
     task_capabilities := task_capabilities t; task_resources := task_resources t |}.

Section clear.
Context {V : Type}.

Fixpoint clear_expression_resolution (e : PlanContractExpression V) : PlanContractExpression V :=
  match e with
  | PePredicate name arguments _ => PePredicate name arguments None
  | PeAll clauses => PeAll (map clear_expression_resolution clauses)
  | PeAny clauses => PeAny (map clear_expression_resolution clauses)
  | PeNot clause => PeNot (clear_expression_resolution clause)
  end.

Definition clear_contract (c : PlanContract V) : PlanContract V :=
  {| pcontract_id := pcontract_id c;
     pcontract_expression := clear_expression_resolution (pcontract_expression c) |}.

(** A plan with other tasks, contracts and resolution status. *)
Definition update_plan (p : Plan V) (tasks : list TaskTemplate) (contracts : list (PlanContract V))
    (status : ResolutionStatus) : Plan V :=
  {| plan_schema := plan_schema p; plan_name := plan_name p; plan_flow := plan_flow p;
     plan_interface := plan_interface p; plan_contracts := contracts; plan_tasks := tasks;
     plan_regions := plan_regions p; plan_loops := plan_loops p;
     plan_capabilities := plan_capabilities p; plan_resolution := status |}.

Definition clear_resolutions (p : Plan V) : Plan V :=
  update_plan p (set_resolution None <$> plan_tasks p) (clear_contract <$> plan_contracts p)
    (plan_resolution p).

(** * Blockers *)

Fixpoint collect_unresolved_predicates (contract : string) (e : PlanContractExpression V) :
    list ResolutionBlocker :=
  match e with
  | PePredicate name _ None => [UncheckedPredicate contract name]
  | PePredicate _ _ (Some _) => []
  | PeAll clauses | PeAny clauses =>
      concat (map (collect_unresolved_predicates contract) clauses)
  | PeNot clause => collect_unresolved_predicates contract clause
  end.

Definition unresolved_program (t : TaskTemplate) : list ResolutionBlocker :=
  match task_operation t with
  | OpProgram source _ None => [UnresolvedProgram (task_id t) source]
  | _ => []
  end.

Definition collect_blockers (tasks : list TaskTemplate) (contracts : list (PlanContract V)) :
    list ResolutionBlocker :=
  sort_dedup blocker_key
    ((t ← tasks; unresolved_program t) ++
     (c ← contracts; collect_unresolved_predicates (pcontract_id c) (pcontract_expression c))).

Definition rebuild_blockers (p : Plan V) : Plan V :=
  let blockers := collect_blockers (plan_tasks p) (plan_contracts p) in
  update_plan p (plan_tasks p) (plan_contracts p)
    {| fully_resolved := bool_decide (blockers = []); blockers := blockers |}.
End clear.

(** * Resolution *)

Section resolve.
Context `{Number Num}.
(** [serde_json::to_vec] of the two catalog types, SHA-256 and [hex::encode]. *)
Context (program_to_vec : ProgramManifest → option (list ascii)).
Context (predicate_to_vec : PredicateDefinition → option (list ascii)).
Context (sha256 : list ascii → list ascii) (hex_encode : list ascii → string).

Abbreviation Value := (Json Num).
Abbreviation Result := (Outcome Diagnostics).

Definition semantic_hash {A} (to_vec : A → option (list ascii)) (domain : list ascii) (value : A) :
    Result string :=
  let! bytes := expect (to_vec value) in
  Done (hex_encode (sha256 (domain ++ bytes))).

Definition is_number (value : Value) : bool := match value with JNumber _ => true | _ => false end.

(** [PredicateValueType::matches]. *)
Definition value_type_matches (t : PredicateValueType) (value : Value) : bool :=
  match t, value with
  | PtBool, JBool _ | PtString, JString _ | PtArray, JArray _ | PtObject, JObject _
  | PtNull, JNull => true
  | PtInteger, JNumber number =>
      bool_decide (is_Some (as_i64 number)) || bool_decide (is_Some (as_u64 number))
  | PtNumber, _ => is_number value
  | _, _ => false
  end.

(** ** Programs *)

Definition family_name (f : Family) : string :=
  match f with
  | FamRead => "read" | FamWrite => "write" | FamExecute => "execute" | FamNetwork => "network"
  end.

Definition missing_capabilities (id source : string) (required declared : CapabilitySummary)
    (f : Family) : Diagnostics :=
  capability ← family f required;
  push_if (negb (bool_decide (capability ∈ family f declared)))
    (res_error "R0304" ("tasks." +:+ id +:+ ".capabilities." +:+ family_name f)
       ("program " +:+ debug_str source +:+ " requires undeclared " +:+ family_name f +:+
        " capability " +:+ debug_str capability)).

Definition check_task (t : TaskTemplate) (source : string) (e : ProgramEntrypoint) : Diagnostics :=
  push_if (negb (bool_decide ((binding_port <$> task_inputs t) = ep_inputs e)))
    (res_error "R0302" ("tasks." +:+ task_id t +:+ ".inputs")
       ("task inputs do not match program " +:+ debug_str source +:+ " entrypoint " +:+
        debug_str (ep_name e))) ++
  push_if (negb (bool_decide (task_outputs t = ep_outputs e)))
    (res_error "R0303" ("tasks." +:+ task_id t +:+ ".outputs")
       ("task outputs do not match program " +:+ debug_str source +:+ " entrypoint " +:+
        debug_str (ep_name e))) ++
  (f ← [FamRead; FamWrite; FamExecute; FamNetwork];
   missing_capabilities (task_id t) source (ep_capabilities e) (task_capabilities t) f).

(** [unwrap_or(&manifest.default_entrypoint)]. *)
Definition entrypoint_name (requested : option string) (manifest : ProgramManifest) : string :=
  match requested with Some name => name | None => mf_default_entrypoint manifest end.

Definition find_entrypoint (manifest : ProgramManifest) (name : string) :
    option ProgramEntrypoint :=
  head (filter (λ e, ep_name e = name) (mf_entrypoints manifest)).

(** One turn of the loop: the diagnostics pushed and the task after it. *)
Definition resolve_task (manifests : gmap string ProgramManifest) (t : TaskTemplate) :
    Result (Diagnostics * TaskTemplate) :=
  match task_operation t with
  | OpProgram source requested _ =>
      match manifests !! source with
      | None => Done ([], t)
      | Some manifest =>
          let name := entrypoint_name requested manifest in
          match find_entrypoint manifest name with
          | None =>
              Done ([res_error "R0301" ("tasks." +:+ task_id t +:+ ".operation.entrypoint")
                       ("program " +:+ debug_str source +:+ " does not declare entrypoint " +:+
                        debug_str name)], t)
          | Some e =>
              let errors := check_task t source e in
              if bool_decide (errors = []) then
                let! hash := semantic_hash program_to_vec PROGRAM_MANIFEST_HASH_DOMAIN manifest in
                Done ([], set_resolution (Some {| manifest_sha256 := hash;
                                                  source_sha256 := mf_source_sha256 manifest;
                                                  resolved_entrypoint := name |}) t)
              else Done (errors, t)
          end
      end
  | _ => Done ([], t)
  end.

Definition resolve_programs (programs : list ProgramManifest) (tasks : list TaskTemplate) :
    Result (list (Diagnostics * TaskTemplate)) :=
  outcome_map (resolve_task (btree_collect mf_source (λ m, m) programs)) tasks.

(** ** Predicates *)

Definition check_argument (path name : string) (arguments : gmap string Value)
    (entry : string * PredicateArgument) : Diagnostics :=
  let (argument, specification) := entry in
  match arguments !! argument with
  | Some value =>
      push_if (negb (value_type_matches (arg_type specification) value))
        (res_error "R0401" (path +:+ ".arguments." +:+ argument)
           ("predicate " +:+ debug_str name +:+ " argument " +:+ debug_str argument +:+
            " must be " +:+ display_value_type (arg_type specification)))
  | None =>
      push_if (arg_required specification)
        (res_error "R0402" (path +:+ ".arguments")
           ("predicate " +:+ debug_str name +:+ " requires argument " +:+ debug_str argument))
  end.

Definition check_arguments (path name : string) (arguments : gmap string Value)
    (definition : PredicateDefinition) : Diagnostics :=
  (entry ← btree_iter (pd_arguments definition); check_argument path name arguments entry) ++
  (argument ← btree_keys arguments;
   push_if (negb (bool_decide (is_Some (pd_arguments definition !! argument))))
     (res_error "R0403" (path +:+ ".arguments." +:+ argument)
        ("predicate " +:+ debug_str name +:+ " does not declare argument " +:+
         debug_str argument))).

Definition predicate_resolution (definition : PredicateDefinition) : Result ResolvedPredicate :=
  let! hash := semantic_hash predicate_to_vec PREDICATE_DEFINITION_HASH_DOMAIN definition in
  Done {| definition_sha256 := hash; predicate_version := pd_version definition;
          implementation_sha256 := pd_implementation_sha256 definition |}.

Section resolve_expression.
Context (definitions : gmap string PredicateDefinition).

Definition resolve_predicate (path name : string) (arguments : gmap string Value)
    (resolution : option ResolvedPredicate) :
    Result (Diagnostics * PlanContractExpression Value) :=
  match definitions !! name with
  | None => Done ([], PePredicate name arguments resolution)
  | Some definition =>
      let errors := check_arguments path name arguments definition in
      if bool_decide (errors = []) then
        let! resolved := predicate_resolution definition in
        Done ([], PePredicate name arguments (Some resolved))
      else Done (errors, PePredicate name arguments resolution)
  end.

(** The loop over the clauses of [All] and [Any]. *)
Section resolve_clauses.
Context (resolve_clause :
  string → PlanContractExpression Value → Result (Diagnostics * PlanContractExpression Value)).
Context (path : string).

Fixpoint resolve_clauses (index : nat) (clauses : list (PlanContractExpression Value)) :
    Result (Diagnostics * list (PlanContractExpression Value)) :=
  match clauses with
  | [] => Done ([], [])
  | clause :: clauses =>
      let! first := resolve_clause (at_index (path +:+ ".clauses") index) clause in
      let! rest := resolve_clauses (S index) clauses in
      Done (first.1 ++ rest.1, first.2 :: rest.2)
  end.
End resolve_clauses.

Fixpoint resolve_expression (path : string) (e : PlanContractExpression Value) :
    Result (Diagnostics * PlanContractExpression Value) :=
  match e with
  | PePredicate name arguments resolution => resolve_predicate path name arguments resolution
  | PeAll clauses =>
      let! r := resolve_clauses resolve_expression path 0 clauses in Done (r.1, PeAll r.2)
  | PeAny clauses =>
      let! r := resolve_clauses resolve_expression path 0 clauses in Done (r.1, PeAny r.2)
  | PeNot clause =>
      let! r := resolve_expression (path +:+ ".clause") clause in Done (r.1, PeNot r.2)
  end.
End resolve_expression.

Definition resolve_contract (definitions : gmap string PredicateDefinition)
    (c : PlanContract Value) : Result (Diagnostics * PlanContract Value) :=
  let! r := resolve_expression definitions ("contracts." +:+ pcontract_id c +:+ ".expression")
    (pcontract_expression c) in
  Done (r.1, {| pcontract_id := pcontract_id c; pcontract_expression := r.2 |}).

Definition resolve_predicates (predicates : list PredicateDefinition)
    (contracts : list (PlanContract Value)) : Result (list (Diagnostics * PlanContract Value)) :=
  outcome_map (resolve_contract (btree_collect pd_name (λ d, d) predicates)) contracts.

Definition resolve (plan : Plan Value) (programs : ProgramCatalog)
    (predicates : PredicateCatalog) : Result (Plan Value) :=
  let plan := clear_resolutions plan in
  match validate_catalogs (plan_schema plan) programs predicates with
  | [] =>
      let! tasks :=
        resolve_programs (canonical_programs (catalog_programs programs)) (plan_tasks plan) in
      let! contracts :=
        resolve_predicates (canonical_predicates (catalog_predicates predicates))
          (plan_contracts plan) in
      match mjoin tasks.*1 ++ mjoin contracts.*1 with
      | [] => Done (rebuild_blockers (update_plan plan tasks.*2 contracts.*2 (plan_resolution plan)))
      | diagnostics => Fail diagnostics
      end
  | diagnostics => Fail diagnostics
  end.
End resolve.
