(* ===== verification/PlanResolveSpec.v ===== *)
(** What plan resolution guarantees.

    The catalogs accepted are the well-formed ones. A resolved plan differs
    from its input in the resolutions and the status only; each resolution it
    carries is of a catalog entry that fits the task or predicate; and its
    blockers are the programs and predicates the catalogs do not have. *)
From Stdlib Require Import Ascii.
From S2P Require Import Prelude FlowValidate PlanModel PlanLower PlanLowerSpec.
From S2P Require Import Encode PlanHash PlanResolve.

(** * Well-formed catalogs *)

Record EntryPorts (ports : list PlanPort) : Prop := {
  ports_named : Forall (λ p, blank (pport_name p) = false) ports;
  ports_distinct : NoDup (pport_name <$> ports);
}.

Record EntryCapabilities (c : CapabilitySummary) : Prop := {
  reads_normal : Forall (λ p, ∃ q, normalize_workspace_path p false = Done q) (sum_read c);
  writes_normal : Forall (λ p, ∃ q, normalize_workspace_path p false = Done q) (sum_write c);
  executes_named : Forall (λ v, blank v = false) (sum_execute c);
  networks_named : Forall (λ v, blank v = false) (sum_network c);
}.

Record EntrypointOk (e : ProgramEntrypoint) : Prop := {
  entry_named : blank (ep_name e) = false;
  entry_inputs : EntryPorts (ep_inputs e);
  entry_outputs : EntryPorts (ep_outputs e);
  entry_capabilities : EntryCapabilities (ep_capabilities e);
}.

Record ManifestOk (m : ProgramManifest) : Prop := {
  manifest_named : blank (mf_source m) = false;
  manifest_digest : is_sha256 (mf_source_sha256 m) = true;
  manifest_entries : Forall EntrypointOk (mf_entrypoints m);
  manifest_distinct : NoDup (ep_name <$> mf_entrypoints m);
  manifest_default : mf_default_entrypoint m ∈ ep_name <$> mf_entrypoints m;
}.

Record DefinitionOk (d : PredicateDefinition) : Prop := {
  definition_named : blank (pd_name d) = false;
  definition_versioned : blank (pd_version d) = false;
  definition_digest : is_sha256 (pd_implementation_sha256 d) = true;
  definition_arguments : ∀ name, is_Some (pd_arguments d !! name) → blank name = false;
}.

Record CatalogsOk (schema : string) (programs : ProgramCatalog) (predicates : PredicateCatalog) :
    Prop := {
  catalogs_plan : schema = PLAN_SCHEMA_V0;
  catalogs_programs : programs_schema programs = PROGRAM_CATALOG_SCHEMA_V0;
  catalogs_predicates : predicates_schema predicates = PREDICATE_CATALOG_SCHEMA_V0;
  manifests_ok : Forall ManifestOk (catalog_programs programs);
  manifests_distinct : NoDup (mf_source <$> catalog_programs programs);
  definitions_ok : Forall DefinitionOk (catalog_predicates predicates);
  definitions_distinct : NoDup (pd_name <$> catalog_predicates predicates);
}.

Lemma validate_ports_nil family path ports :
  validate_ports family path ports = [] ↔ EntryPorts ports.
Proof.
  unfold validate_ports.
  rewrite (scan_unique _ pport_name (λ p, blank (pport_name p) = false)).
  - split; [by intros [??]|by intros []].
  - intros i seen p. destruct (blank (pport_name p)); simpl; [naive_solver|].
    unfold is_new. autorewrite with diag. naive_solver.
  - by intros i seen p ->.
Qed.

Lemma validate_capabilities_nil path c :
  validate_capabilities path c = [] ↔ EntryCapabilities c.
Proof.
  unfold validate_capabilities. autorewrite with diag.
  rewrite !(scan_each_nil (check_path_capability _ _)
    (λ p, ∃ q, normalize_workspace_path p false = Done q)).
  - rewrite !(scan_each_nil (check_name_capability _ _) (λ v, blank v = false)).
    + split; [by intros (? & ? & ? & ?)|by intros []].
    + intros i v _. apply push_if_nil.
    + intros i v _. apply push_if_nil.
  - intros i p _. unfold check_path_capability.
    pose proof (normalize_no_panic p false). destruct normalize_workspace_path; naive_solver.
  - intros i p _. unfold check_path_capability.
    pose proof (normalize_no_panic p false). destruct normalize_workspace_path; naive_solver.
Qed.

Lemma validate_entrypoints_nil path entrypoints :
  validate_entrypoints path entrypoints = [] ↔
  Forall EntrypointOk entrypoints ∧ NoDup (ep_name <$> entrypoints).
Proof.
  unfold validate_entrypoints. apply scan_unique.
  - intros i seen e. cbn zeta. destruct (blank (ep_name e)) eqn:Hb; cbn [fst snd].
    + split; [done|]. intros [[] _]. congruence.
    + unfold is_new. autorewrite with diag.
      rewrite !validate_ports_nil, validate_capabilities_nil. split.
      * intros (Hn & ? & ? & ?). split; [by constructor|].
        by apply bool_decide_eq_true in Hn || exact Hn.
      * by intros [[] ?].
  - intros i seen e []. cbn zeta. by rewrite entry_named0.
Qed.

Lemma validate_manifest_nil path m :
  blank (mf_source m) = false → validate_manifest path m = [] ↔ ManifestOk m.
Proof.
  intros Hb. unfold validate_manifest. autorewrite with diag. rewrite validate_entrypoints_nil.
  unfold entrypoint_names. rewrite list_elem_of_filter. split.
  - intros (? & _ & [? ?] & _ & ?). by split.
  - intros [_ Hs He Hd Hf]. split; [done|]. split; [|split; [done|]].
    + intros Hl%nil_length_inv. rewrite Hl in Hf. by apply elem_of_nil in Hf.
    + split; [|done]. apply list_elem_of_fmap in Hf as (e & -> & Hin).
      rewrite Forall_forall in He. by apply He.
Qed.

Lemma validate_programs_nil programs :
  validate_programs programs = [] ↔ Forall ManifestOk programs ∧ NoDup (mf_source <$> programs).
Proof.
  unfold validate_programs. apply scan_unique.
  - intros i seen m. cbn zeta. destruct (blank (mf_source m)) eqn:Hb; cbn [fst snd].
    + split; [done|]. intros [[] _]. congruence.
    + unfold is_new. autorewrite with diag. rewrite validate_manifest_nil by done. tauto.
  - intros i seen m []. cbn zeta. by rewrite manifest_named0.
Qed.

Lemma validate_predicates_nil predicates :
  validate_predicates predicates = [] ↔
  Forall DefinitionOk predicates ∧ NoDup (pd_name <$> predicates).
Proof.
  unfold validate_predicates. apply scan_unique.
  - intros i seen d. cbn zeta. destruct (blank (pd_name d)) eqn:Hb; cbn [fst snd].
    + split; [done|]. intros [[] _]. congruence.
    + unfold is_new. autorewrite with diag.
      rewrite (scan_each_nil _ (λ name, blank name = false)) by (intros; apply push_if_nil).
      rewrite Forall_forall. setoid_rewrite elem_of_btree_keys. split.
      * intros (? & ? & ? & ?). by repeat split.
      * by intros [[] ?].
  - intros i seen d []. cbn zeta. by rewrite definition_named0.
Qed.

(** Validation accepts exactly the well-formed catalogs, for a plan of the supported schema. *)
Lemma validate_catalogs_accepts (schema : string) (programs : ProgramCatalog)
    (predicates : PredicateCatalog) :
  validate_catalogs schema programs predicates = [] ↔ CatalogsOk schema programs predicates.
Proof.
  unfold validate_catalogs, check_schema_name. autorewrite with diag.
  rewrite validate_programs_nil, validate_predicates_nil. split.
  - intros (? & ? & ? & [? ?] & [? ?]). by split.
  - intros []. by split_and!.
Qed.

(** * Predicates and their resolutions *)

Section flatten.
Context {V : Type}.

(** The predicates of an expression, from the left. *)
Fixpoint predicates_of (e : PlanContractExpression V) :
    list (string * gmap string V * option ResolvedPredicate) :=
  match e with
  | PePredicate name arguments resolution => [(name, arguments, resolution)]
  | PeAll clauses | PeAny clauses => concat (map predicates_of clauses)
  | PeNot clause => predicates_of clause
  end.

Lemma collect_unresolved_elem contract (e : PlanContractExpression V) b :
  b ∈ collect_unresolved_predicates contract e ↔
  ∃ name arguments, (name, arguments, None) ∈ predicates_of e ∧ b = UncheckedPredicate contract name.
Proof.
  assert (Hclauses : ∀ clauses, Forall (λ e,
      b ∈ collect_unresolved_predicates contract e ↔ ∃ name arguments,
        (name, arguments, None) ∈ predicates_of e ∧ b = UncheckedPredicate contract name) clauses →
    b ∈ concat (map (collect_unresolved_predicates contract) clauses) ↔ ∃ name arguments,
        (name, arguments, None) ∈ concat (map predicates_of clauses) ∧
        b = UncheckedPredicate contract name).
  { induction 1 as [|x l Hx Hl IH]; simpl; [split; [by intros ?%elem_of_nil|]|].
    - by intros (? & ? & ?%elem_of_nil & _).
    - rewrite elem_of_app, IH, Hx. setoid_rewrite elem_of_app. naive_solver. }
  induction e as [name arguments [r|]|clauses IH|clauses IH|clause IH]
    using PlanContractExpression_nested_ind; simpl; [| |by apply Hclauses..|done].
  - split; [by intros ?%elem_of_nil|]. by intros (? & ? & [= -> ->]%list_elem_of_singleton & _).
  - rewrite list_elem_of_singleton. setoid_rewrite list_elem_of_singleton. naive_solver.
Qed.

Lemma predicates_of_clear (e : PlanContractExpression V) :
  predicates_of (clear_expression_resolution e) = (λ p, (p.1, None)) <$> predicates_of e.
Proof.
  induction e as [name arguments r|clauses IH|clauses IH|clause IH]
    using PlanContractExpression_nested_ind; simpl; [done| | |done].
  - induction IH as [|x l Hx _ IH]; simpl; [done|]. by rewrite fmap_app, Hx, IH.
  - induction IH as [|x l Hx _ IH]; simpl; [done|]. by rewrite fmap_app, Hx, IH.
Qed.

Lemma clear_expression_idemp (e : PlanContractExpression V) :
  clear_expression_resolution (clear_expression_resolution e) = clear_expression_resolution e.
Proof.
  induction e as [name arguments r|clauses IH|clauses IH|clause IH]
    using PlanContractExpression_nested_ind; simpl; [done| | |by f_equal].
  - f_equal. rewrite map_map. apply map_ext_Forall. done.
  - f_equal. rewrite map_map. apply map_ext_Forall. done.
Qed.

Lemma clear_contract_idemp (c : PlanContract V) : clear_contract (clear_contract c) = clear_contract c.
Proof. unfold clear_contract; simpl. by rewrite clear_expression_idemp. Qed.
End flatten.

Lemma set_resolution_twice r r' t : set_resolution r (set_resolution r' t) = set_resolution r t.
Proof. unfold set_resolution; simpl. by destruct (task_operation t). Qed.

(** * One task, one predicate *)

Section resolve_spec.
Context `{Number Num}.
Context (program_to_vec : ProgramManifest → option (list ascii)).
Context (predicate_to_vec : PredicateDefinition → option (list ascii)).
Context (sha256 : list ascii → list ascii) (hex_encode : list ascii → string).

Abbreviation Value := (Json Num).
Abbreviation resolve := (resolve program_to_vec predicate_to_vec sha256 hex_encode).
Abbreviation resolve_task := (resolve_task program_to_vec sha256 hex_encode).
Abbreviation resolve_expression := (resolve_expression predicate_to_vec sha256 hex_encode).
Abbreviation resolve_predicate := (resolve_predicate predicate_to_vec sha256 hex_encode).
Abbreviation resolve_contract := (resolve_contract predicate_to_vec sha256 hex_encode).

(** The task uses the interface of the entrypoint and grants all it needs. *)
Record Fits (t : TaskTemplate) (e : ProgramEntrypoint) : Prop := {
  fits_inputs : (binding_port <$> task_inputs t) = ep_inputs e;
  fits_outputs : task_outputs t = ep_outputs e;
  fits_capabilities : ∀ f x, x ∈ family f (ep_capabilities e) → x ∈ family f (task_capabilities t);
}.

Definition program_digest (bytes : list ascii) : string :=
  hex_encode (sha256 (PROGRAM_MANIFEST_HASH_DOMAIN ++ bytes)).
Definition predicate_digest (bytes : list ascii) : string :=
  hex_encode (sha256 (PREDICATE_DEFINITION_HASH_DOMAIN ++ bytes)).

(** [t'] is [t] bound to a manifest. *)
Inductive TaskResolved (manifests : gmap string ProgramManifest) (t : TaskTemplate) :
    TaskTemplate → Prop :=
| not_program :
    (∀ source requested r, task_operation t ≠ OpProgram source requested r) →
    TaskResolved manifests t t
| unknown_program source requested r :
    task_operation t = OpProgram source requested r → manifests !! source = None →
    TaskResolved manifests t t
| known_program source requested r m e bytes :
    task_operation t = OpProgram source requested r → manifests !! source = Some m →
    e ∈ mf_entrypoints m → ep_name e = entrypoint_name requested m → Fits t e →
    program_to_vec m = Some bytes →
    TaskResolved manifests t
      (set_resolution (Some {| manifest_sha256 := program_digest bytes;
                               source_sha256 := mf_source_sha256 m;
                               resolved_entrypoint := ep_name e |}) t).

(** The arguments are those the definition declares, with its types. *)
Record ArgumentsOk (d : PredicateDefinition) (arguments : gmap string Value) : Prop := {
  arguments_typed : ∀ name spec, pd_arguments d !! name = Some spec →
    match arguments !! name with
    | Some value => value_type_matches (arg_type spec) value = true
    | None => arg_required spec = false
    end;
  arguments_declared : ∀ name, is_Some (arguments !! name) → is_Some (pd_arguments d !! name);
}.

Definition PredicateResolved (definitions : gmap string PredicateDefinition)
    (p p' : string * gmap string Value * option ResolvedPredicate) : Prop :=
  p'.1 = p.1 ∧
  match definitions !! p.1.1 with
  | None => p'.2 = p.2
  | Some d => ArgumentsOk d p.1.2 ∧ ∃ bytes, predicate_to_vec d = Some bytes ∧
      p'.2 = Some {| definition_sha256 := predicate_digest bytes; predicate_version := pd_version d;
                     implementation_sha256 := pd_implementation_sha256 d |}
  end.

Lemma bind_nil_iff {A B} (f : A → list B) l : (x ← l; f x) = [] ↔ ∀ x, x ∈ l → f x = [].
Proof.
  induction l as [|x l IH]; simpl.
  - split; [by intros _ x ?%elem_of_nil|done].
  - rewrite app_nil_iff, IH. setoid_rewrite elem_of_cons. naive_solver.
Qed.

Lemma missing_capabilities_nil id source required declared f :
  missing_capabilities id source required declared f = [] ↔
  ∀ x, x ∈ family f required → x ∈ family f declared.
Proof.
  unfold missing_capabilities. rewrite bind_nil_iff. by setoid_rewrite push_if_negb_decide_nil.
Qed.

Lemma check_task_nil t source e : check_task t source e = [] ↔ Fits t e.
Proof.
  unfold check_task. rewrite !app_nil_iff, !push_if_negb_decide_nil, bind_nil_iff.
  setoid_rewrite missing_capabilities_nil. split.
  - intros (Hi & Ho & Hc). split; try done. intros f. apply Hc.
    destruct f; rewrite !elem_of_cons; auto.
  - intros [Hi Ho Hc]. repeat split; try done. intros f _. apply Hc.
Qed.

Lemma find_entrypoint_Some m name e :
  find_entrypoint m name = Some e → e ∈ mf_entrypoints m ∧ ep_name e = name.
Proof.
  unfold find_entrypoint. intros He%head_Some_elem_of. apply list_elem_of_filter in He. tauto.
Qed.

Lemma resolve_task_Done manifests t t' :
  resolve_task manifests t = Done ([], t') → TaskResolved manifests t t'.
Proof.
  unfold PlanResolve.resolve_task.
  destruct (task_operation t) as [| |source requested r| | | |] eqn:Hop; try (intros [= <-]; apply not_program; by rewrite Hop).
  destruct (manifests !! source) as [m|] eqn:Hm; [|intros [= <-]; by eapply unknown_program].
  destruct (find_entrypoint m _) as [e|] eqn:He; [|done].
  apply find_entrypoint_Some in He as [He Hname]. case_bool_decide as Hc; [|by intros [= ? _]].
  apply check_task_nil in Hc. rewrite <-Hname.
  intros (h & (bytes & Hb%expect_Done & [= <-])%bind_Done & [= <-])%bind_Done.
  by eapply known_program.
Qed.

Lemma check_arguments_nil path name arguments d :
  check_arguments path name arguments d = [] ↔ ArgumentsOk d arguments.
Proof.
  unfold check_arguments. rewrite app_nil_iff, !bind_nil_iff.
  setoid_rewrite push_if_negb_decide_nil. setoid_rewrite elem_of_btree_keys. split.
  - intros [Ht Hd]. split; [|done]. intros arg spec Hs%elem_of_btree_iter.
    specialize (Ht _ Hs). simpl in Ht. case_match; by autorewrite with diag in Ht.
  - intros [Ht Hd]. split; [|done]. intros [arg spec] Hs%elem_of_btree_iter.
    specialize (Ht _ _ Hs). simpl. case_match; by autorewrite with diag.
Qed.

Lemma resolve_predicate_Done definitions path name arguments r e' :
  resolve_predicate definitions path name arguments r = Done ([], e') →
  ∃ r', e' = PePredicate name arguments r' ∧
    PredicateResolved definitions (name, arguments, r) (name, arguments, r').
Proof.
  unfold PlanResolve.resolve_predicate, PredicateResolved. simpl.
  destruct (definitions !! name) as [d|]; [|intros [= <-]; by eauto].
  case_bool_decide as Hc; [|by intros [= ? _]]. apply check_arguments_nil in Hc.
  intros (p & (h & (bytes & Hb%expect_Done & [= <-])%bind_Done & [= <-])%bind_Done & [= <-])%bind_Done.
  eexists. split; [done|]. split; [done|]. split; [done|]. by eexists.
Qed.

(** [e'] is [e] with its predicates resolved. *)
Definition ExpressionResolved (definitions : gmap string PredicateDefinition)
    (e e' : PlanContractExpression Value) : Prop :=
  Forall2 (PredicateResolved definitions) (predicates_of e) (predicates_of e') ∧
  clear_expression_resolution e' = clear_expression_resolution e.

Lemma resolve_clauses_Done definitions path index clauses clauses' :
  Forall (λ e, ∀ path e', resolve_expression definitions path e = Done ([], e') →
    ExpressionResolved definitions e e') clauses →
  resolve_clauses (resolve_expression definitions) path index clauses = Done ([], clauses') →
  Forall2 (PredicateResolved definitions) (concat (map predicates_of clauses))
    (concat (map predicates_of clauses')) ∧
  map clear_expression_resolution clauses' = map clear_expression_resolution clauses.
Proof.
  intros Hall. revert index clauses'.
  induction Hall as [|e clauses He _ IH]; intros index clauses'; simpl.
  { intros [= <-]. split; [constructor|done]. }
  intros ([d e'] & H1 & ([ds l] & H2 & [= Hn <-])%bind_Done)%bind_Done. simpl in Hn.
  apply app_nil_iff in Hn as [-> ->]. apply He in H1 as [Hp Hc]. apply IH in H2 as [Hps Hcs].
  simpl. rewrite Hc, Hcs. split; [by apply Forall2_app|done].
Qed.

Lemma resolve_expression_Done definitions path e e' :
  resolve_expression definitions path e = Done ([], e') → ExpressionResolved definitions e e'.
Proof.
  revert path e'. induction e as [name arguments r|clauses IH|clauses IH|clause IH]
    using PlanContractExpression_nested_ind; intros path e'; simpl.
  - intros (r' & -> & Hr)%resolve_predicate_Done.
    split; [|done]. simpl. constructor; [done|constructor].
  - intros ([ds l] & Hl & [= Hds <-])%bind_Done. simpl in Hds. subst ds.
    apply resolve_clauses_Done in Hl as [Hp Hc]; [|done]. split; simpl; [done|by rewrite Hc].
  - intros ([ds l] & Hl & [= Hds <-])%bind_Done. simpl in Hds. subst ds.
    apply resolve_clauses_Done in Hl as [Hp Hc]; [|done]. split; simpl; [done|by rewrite Hc].
  - intros ([ds c] & Hl & [= Hds <-])%bind_Done. simpl in Hds. subst ds.
    apply IH in Hl as [Hp Hc]. split; simpl; [done|by rewrite Hc].
Qed.

Definition ContractResolved (definitions : gmap string PredicateDefinition)
    (c c' : PlanContract Value) : Prop :=
  pcontract_id c' = pcontract_id c ∧
  ExpressionResolved definitions (pcontract_expression c) (pcontract_expression c').

Lemma resolve_contract_Done definitions c c' :
  resolve_contract definitions c = Done ([], c') → ContractResolved definitions c c'.
Proof.
  intros ([ds e] & He & [= Hds <-])%bind_Done. simpl in Hds. subst ds.
  split; [done|]. by eapply resolve_expression_Done.
Qed.

(** * The whole resolution *)

(** The maps the resolver looks its definitions up in. *)
Definition manifests_of (programs : ProgramCatalog) : gmap string ProgramManifest :=
  btree_collect mf_source (λ m, m) (canonical_programs (catalog_programs programs)).
Definition definitions_of (predicates : PredicateCatalog) : gmap string PredicateDefinition :=
  btree_collect pd_name (λ d, d) (canonical_predicates (catalog_predicates predicates)).

Record Resolved (plan : Plan Value) (programs : ProgramCatalog) (predicates : PredicateCatalog)
    (plan' : Plan Value) : Prop := {
  resolved_catalogs : CatalogsOk (plan_schema plan) programs predicates;
  resolved_tasks : Forall2 (TaskResolved (manifests_of programs))
    (set_resolution None <$> plan_tasks plan) (plan_tasks plan');
  resolved_contracts : Forall2 (ContractResolved (definitions_of predicates))
    (clear_contract <$> plan_contracts plan) (plan_contracts plan');
  resolved_plan : plan' =
    rebuild_blockers (update_plan plan (plan_tasks plan') (plan_contracts plan') (plan_resolution plan));
}.

Lemma outcome_map_diagnostics {A B} (f : A → Outcome Diagnostics (Diagnostics * B))
    (R : A → B → Prop) l rs :
  (∀ x y, f x = Done ([], y) → R x y) → outcome_map f l = Done rs → mjoin rs.*1 = [] →
  Forall2 R l rs.*2.
Proof.
  intros HR Hrs%outcome_map_Done. induction Hrs as [|x [ds y] l rs Hx _ IH]; simpl; [done|].
  intros [-> Hn]%app_nil_iff. constructor; auto.
Qed.

Lemma resolve_Done plan programs predicates plan' :
  resolve plan programs predicates = Done plan' → Resolved plan programs predicates plan'.
Proof.
  unfold PlanResolve.resolve. cbn [plan_schema plan_tasks plan_contracts clear_resolutions update_plan].
  destruct validate_catalogs eqn:Hv; [|done]. apply validate_catalogs_accepts in Hv.
  intros (tasks & Ht & (contracts & Hc & Hd)%bind_Done)%bind_Done.
  destruct (mjoin tasks.*1 ++ mjoin contracts.*1) eqn:Hn; [|done]. injection Hd as <-.
  apply app_nil_iff in Hn as [Hnt Hnc].
  eapply outcome_map_diagnostics in Ht; [|apply resolve_task_Done|done].
  eapply outcome_map_diagnostics in Hc; [|apply resolve_contract_Done|done].
  by split.
Qed.

Lemma manifests_of_Some programs source m' :
  manifests_of programs !! source = Some m' →
  ∃ m, m ∈ catalog_programs programs ∧ mf_source m = source ∧ m' = canonical_manifest m.
Proof.
  intros (x & Hx & <- & <-)%btree_collect_Some_inv.
  apply elem_of_sort_on, list_elem_of_fmap in Hx as (m & -> & Hm). by exists m.
Qed.

Lemma definitions_of_Some predicates name d :
  definitions_of predicates !! name = Some d →
  d ∈ catalog_predicates predicates ∧ pd_name d = name.
Proof. intros (x & Hx%elem_of_sort_on & <- & <-)%btree_collect_Some_inv. done. Qed.

Lemma lookup_None_not_Some {A} (m : gmap string A) k : m !! k = None ↔ ¬ is_Some (m !! k).
Proof. apply eq_None_not_Some. Qed.

Lemma manifests_of_None programs source :
  manifests_of programs !! source = None ↔ source ∉ mf_source <$> catalog_programs programs.
Proof.
  rewrite lookup_None_not_Some. unfold manifests_of, canonical_programs.
  rewrite btree_collect_is_Some, (sort_on_Permutation mf_source), <-list_fmap_compose. done.
Qed.

Lemma definitions_of_None predicates name :
  definitions_of predicates !! name = None ↔ name ∉ pd_name <$> catalog_predicates predicates.
Proof.
  rewrite lookup_None_not_Some. unfold definitions_of, canonical_predicates.
  by rewrite btree_collect_is_Some, (sort_on_Permutation pd_name).
Qed.

(** A program is only bound to a manifest of the catalog that declares its source: the
    entrypoint is the one asked for (or the manifest's default) and has exactly the task's ports,
    every capability it needs is one the task declares, and the resolution records the digests of
    that manifest. *)
Lemma resolved_programs_fit plan programs predicates plan' t source requested r :
  resolve plan programs predicates = Done plan' →
  t ∈ plan_tasks plan' → task_operation t = OpProgram source requested (Some r) →
  ∃ m e bytes, m ∈ catalog_programs programs ∧ ManifestOk m ∧ mf_source m = source ∧
    e ∈ mf_entrypoints m ∧ ep_name e = entrypoint_name requested m ∧
    Fits t (canonical_entrypoint e) ∧ program_to_vec (canonical_manifest m) = Some bytes ∧
    r = {| manifest_sha256 := program_digest bytes; source_sha256 := mf_source_sha256 m;
           resolved_entrypoint := ep_name e |}.
Proof.
  intros [Hok Htasks _ _]%resolve_Done Ht Hop.
  apply list_elem_of_lookup in Ht as [i Hi].
  destruct (Forall2_lookup_r _ _ _ _ _ Htasks Hi) as (t0 & Ht0 & HR).
  apply list_lookup_fmap_Some in Ht0 as (t1 & -> & _).
  inversion HR as [Hn|s q o Hs Hm|s q o m' e' bytes Hs Hm He Hname Hfit Hvec]; subst.
  - by apply Hn in Hop.
  - rewrite Hop in Hs. simpl in Hop. destruct (task_operation t1); simplify_eq.
  - apply manifests_of_Some in Hm as (m & Hin & Hsrc & ->). simpl in He.
    apply elem_of_sort_on, list_elem_of_fmap in He as (e & -> & He).
    destruct Hok as [_ _ _ Hms _ _ _]. rewrite Forall_forall in Hms.
    simpl in Hop, Hs, Hname. destruct (task_operation t1); simplify_eq.
    exists m, e, bytes. split_and!; try done; [by apply Hms|by destruct Hfit; split].
Qed.

(** A predicate is only bound to the definition of its name, and only when its arguments are
    those declared, of the declared types, with none missing that is required. *)
Lemma resolved_predicates_fit plan programs predicates plan' c name arguments r :
  resolve plan programs predicates = Done plan' →
  c ∈ plan_contracts plan' →
  (name, arguments, Some r) ∈ predicates_of (pcontract_expression c) →
  ∃ d bytes, d ∈ catalog_predicates predicates ∧ pd_name d = name ∧ ArgumentsOk d arguments ∧
    predicate_to_vec d = Some bytes ∧
    r = {| definition_sha256 := predicate_digest bytes; predicate_version := pd_version d;
           implementation_sha256 := pd_implementation_sha256 d |}.
Proof.
  intros [_ _ Hcs _]%resolve_Done Hc Hp.
  apply list_elem_of_lookup in Hc as [i Hi].
  destruct (Forall2_lookup_r _ _ _ _ _ Hcs Hi) as (c0 & Hc0 & _ & HR & _).
  apply list_lookup_fmap_Some in Hc0 as (c1 & -> & _). simpl in HR.
  rewrite predicates_of_clear in HR. apply list_elem_of_lookup in Hp as [j Hj].
  destruct (Forall2_lookup_r _ _ _ _ _ HR Hj) as ([p o] & Hp0 & Heq & Hres).
  apply list_lookup_fmap_Some in Hp0 as ([p1 o1] & [= -> ->] & _). simpl in *. subst. simpl in *.
  destruct (definitions_of predicates !! name) as [d|] eqn:Hd; [|done].
  destruct Hres as (Hargs & bytes & Hvec & [= ->]). apply definitions_of_Some in Hd as [??].
  by exists d, bytes.
Qed.

Lemma unresolved_program_elem t b :
  b ∈ unresolved_program t ↔ ∃ source requested, task_operation t = OpProgram source requested None ∧
    b = UnresolvedProgram (task_id t) source.
Proof.
  unfold unresolved_program. destruct (task_operation t) as [| |? ? []| | | |];
    rewrite ?list_elem_of_singleton, ?elem_of_nil; naive_solver.
Qed.

Lemma task_resolved_blocker manifests t t' b :
  TaskResolved manifests (set_resolution None t) t' →
  b ∈ unresolved_program t' ↔ ∃ source requested r, task_operation t = OpProgram source requested r ∧
    manifests !! source = None ∧ b = UnresolvedProgram (task_id t) source.
Proof.
  rewrite unresolved_program_elem. intros HR.
  inversion HR as [Hn|s q o Hs Hm|s q o m' e' bytes Hs Hm He Hname Hfit Hvec]; subst;
    simpl in *; destruct (task_operation t); simplify_eq; try naive_solver.
Qed.

Lemma contract_resolved_blocker definitions c c' b :
  ContractResolved definitions (clear_contract c) c' →
  b ∈ collect_unresolved_predicates (pcontract_id c') (pcontract_expression c') ↔
  ∃ name arguments r, (name, arguments, r) ∈ predicates_of (pcontract_expression c) ∧
    definitions !! name = None ∧ b = UncheckedPredicate (pcontract_id c) name.
Proof.
  intros (Hid & HR & _). simpl in *. rewrite collect_unresolved_elem, Hid.
  rewrite predicates_of_clear in HR. split.
  - intros (name & arguments & [j Hj]%list_elem_of_lookup & ->).
    destruct (Forall2_lookup_r _ _ _ _ _ HR Hj) as ([p o] & Hp0 & Heq & Hres).
    apply list_lookup_fmap_Some in Hp0 as ([p1 o1] & [= -> ->] & Hp1). simpl in *. subst. simpl in *.
    exists name, arguments, o1. repeat split; [by eapply list_elem_of_lookup_2|].
    destruct (definitions !! name); [|done]. by destruct Hres as (_ & ? & _ & ?).
  - intros (name & arguments & r & [j Hj]%list_elem_of_lookup & Hd & ->).
    destruct (Forall2_lookup_l _ _ _ j (name, arguments, None) HR) as ([p o] & Hp & Heq & Hres);
      [by rewrite list_lookup_fmap, Hj|].
    simpl in *. rewrite Hd in Hres. subst. exists name, arguments.
    split; [by eapply list_elem_of_lookup_2|done].
Qed.

Lemma Forall2_bind_elem {A B C} (R : A → B → Prop) (f : B → list C) (P : A → Prop) l k (b : C) :
  Forall2 R l k → (∀ x y, R x y → b ∈ f y ↔ P x) →
  b ∈ (y ← k; f y) ↔ ∃ x, x ∈ l ∧ P x.
Proof.
  intros HR HP. induction HR as [|x y l k Hxy _ IH]; simpl.
  - split; [by intros ?%elem_of_nil|]. by intros (? & ?%elem_of_nil & _).
  - rewrite elem_of_app, IH, (HP x y Hxy). setoid_rewrite elem_of_cons. naive_solver.
Qed.

(** The blockers of a resolved plan are exactly the program tasks whose source no manifest
    declares and the predicates no definition names: what the catalogs have is never left
    unresolved, and the plan counts as fully resolved exactly when nothing is missing. *)
Lemma blockers_exact plan programs predicates plan' :
  resolve plan programs predicates = Done plan' →
  fully_resolved (plan_resolution plan') = bool_decide (blockers (plan_resolution plan') = []) ∧
  ∀ b, b ∈ blockers (plan_resolution plan') ↔
    (∃ t, t ∈ plan_tasks plan ∧ ∃ source requested r,
      task_operation t = OpProgram source requested r ∧
      source ∉ mf_source <$> catalog_programs programs ∧ b = UnresolvedProgram (task_id t) source) ∨
    (∃ c, c ∈ plan_contracts plan ∧ ∃ name arguments r,
      (name, arguments, r) ∈ predicates_of (pcontract_expression c) ∧
      name ∉ pd_name <$> catalog_predicates predicates ∧
      b = UncheckedPredicate (pcontract_id c) name).
Proof.
  intros [_ Hts Hcs ->]%resolve_Done. split; [done|]. intros b. simpl.
  unfold collect_blockers. rewrite elem_of_sort_dedup, elem_of_app.
  apply (Forall2_fmap_l (set_resolution None)) in Hts. apply (Forall2_fmap_l clear_contract) in Hcs.
  rewrite (Forall2_bind_elem _ _ _ _ _ b Hts (λ t t', task_resolved_blocker _ t t' b)).
  rewrite (Forall2_bind_elem _ _ _ _ _ b Hcs (λ c c', contract_resolved_blocker _ c c' b)).
  setoid_rewrite manifests_of_None. by setoid_rewrite definitions_of_None.
Qed.

(** A plan without its resolutions and its status. *)
Definition unresolved (p : Plan Value) : Plan Value :=
  update_plan p (set_resolution None <$> plan_tasks p) (clear_contract <$> plan_contracts p)
    {| fully_resolved := false; blockers := [] |}.

Lemma set_resolution_fmap_twice r r' (l : list TaskTemplate) :
  set_resolution r <$> (set_resolution r' <$> l) = set_resolution r <$> l.
Proof. rewrite <-list_fmap_compose. apply list_fmap_ext. intros. apply set_resolution_twice. Qed.

Lemma clear_contract_fmap_twice (l : list (PlanContract Value)) :
  clear_contract <$> (clear_contract <$> l) = clear_contract <$> l.
Proof. rewrite <-list_fmap_compose. apply list_fmap_ext. intros. apply clear_contract_idemp. Qed.

Lemma resolve_unresolved plan programs predicates :
  resolve plan programs predicates = resolve (unresolved plan) programs predicates.
Proof.
  unfold PlanResolve.resolve, unresolved, clear_resolutions.
  cbn [plan_schema plan_tasks plan_contracts update_plan].
  by rewrite set_resolution_fmap_twice, clear_contract_fmap_twice.
Qed.

Lemma resolved_task_cleared manifests t t' :
  TaskResolved manifests t t' → set_resolution None t' = set_resolution None t.
Proof. inversion 1; subst; [done..|]. apply set_resolution_twice. Qed.

Lemma resolved_contract_cleared definitions c c' :
  ContractResolved definitions c c' → clear_contract c' = clear_contract c.
Proof. intros (Hid & _ & Hc). unfold clear_contract. by rewrite Hid, Hc. Qed.

Lemma Forall2_fmap_eq {A B C} (R : A → B → Prop) (f : A → C) (g : B → C) l k :
  Forall2 R l k → (∀ x y, R x y → g y = f x) → g <$> k = f <$> l.
Proof.
  intros HR Hfg. induction HR as [|x y l k Hxy _ IH]; [done|].
  by rewrite !fmap_cons, IH, (Hfg x y).
Qed.

(** Resolving changes only the resolutions and the status, and is a fresh computation each
    time: what earlier resolutions a plan carries has no influence, so a resolved plan resolves to
    itself. *)
Lemma resolve_recomputes plan programs predicates plan' :
  resolve plan programs predicates = Done plan' →
  unresolved plan' = unresolved plan ∧ resolve plan' programs predicates = Done plan' ∧
  ∀ q, unresolved q = unresolved plan → resolve q programs predicates = Done plan'.
Proof.
  intros Hres. assert (Heq : unresolved plan' = unresolved plan).
  { apply resolve_Done in Hres as [_ Hts Hcs ->]. unfold unresolved. simpl.
    rewrite (Forall2_fmap_eq _ (set_resolution None) (set_resolution None) _ _ Hts)
      by apply resolved_task_cleared.
    rewrite (Forall2_fmap_eq _ clear_contract clear_contract _ _ Hcs)
      by apply resolved_contract_cleared.
    by rewrite set_resolution_fmap_twice, clear_contract_fmap_twice. }
  assert (Hq : ∀ q, unresolved q = unresolved plan → resolve q programs predicates = Done plan').
  { intros q Hq. by rewrite resolve_unresolved, Hq, <-resolve_unresolved. }
  auto.
Qed.

Lemma CatalogsOk_perm schema programs programs' predicates predicates' :
  catalog_programs programs ≡ₚ catalog_programs programs' →
  programs_schema programs = programs_schema programs' →
  catalog_predicates predicates ≡ₚ catalog_predicates predicates' →
  predicates_schema predicates = predicates_schema predicates' →
  CatalogsOk schema programs predicates → CatalogsOk schema programs' predicates'.
Proof.
  intros Hp Hps Hq Hqs [H1 H2 H3 H4 H5 H6 H7]. split; [done|congruence|congruence|..].
  - by rewrite <-Hp.
  - by rewrite <-Hp.
  - by rewrite <-Hq.
  - by rewrite <-Hq.
Qed.

(** The order of the catalogs does not matter: permuting their entries gives the same plan. *)
Lemma resolve_ignores_catalog_order plan programs programs' predicates predicates' plan' :
  catalog_programs programs ≡ₚ catalog_programs programs' →
  programs_schema programs = programs_schema programs' →
  catalog_predicates predicates ≡ₚ catalog_predicates predicates' →
  predicates_schema predicates = predicates_schema predicates' →
  resolve plan programs predicates = Done plan' → resolve plan programs' predicates' = Done plan'.
Proof.
  intros Hp Hps Hq Hqs Hres. pose proof (resolved_catalogs _ _ _ _ (resolve_Done _ _ _ _ Hres)) as Hok.
  pose proof (CatalogsOk_perm _ _ _ _ _ Hp Hps Hq Hqs Hok) as Hok'.
  assert (canonical_programs (catalog_programs programs') =
          canonical_programs (catalog_programs programs)) as Hcp.
  { unfold canonical_programs. symmetry. apply sort_on_perm; [|by rewrite Hp].
    rewrite <-list_fmap_compose. by destruct Hok. }
  assert (canonical_predicates (catalog_predicates predicates') =
          canonical_predicates (catalog_predicates predicates)) as Hcq.
  { symmetry. apply sort_on_perm; [|by rewrite Hq]. by destruct Hok. }
  revert Hres. unfold PlanResolve.resolve. cbn [plan_schema clear_resolutions update_plan].
  apply validate_catalogs_accepts in Hok, Hok'. by rewrite Hok, Hok', Hcp, Hcq.
Qed.

Section total.
Context (program_to_vec_total : ∀ m, is_Some (program_to_vec m)).
Context (predicate_to_vec_total : ∀ d, is_Some (predicate_to_vec d)).

Lemma resolve_task_total manifests t : ∃ r, resolve_task manifests t = Done r.
Proof.
  unfold PlanResolve.resolve_task, semantic_hash. repeat case_match; try by eexists.
  destruct (program_to_vec_total p) as [bytes ->]. by eexists.
Qed.

Lemma resolve_clauses_total definitions clauses :
  Forall (λ e, ∀ path, ∃ r, resolve_expression definitions path e = Done r) clauses →
  ∀ path index, ∃ r, resolve_clauses (resolve_expression definitions) path index clauses = Done r.
Proof.
  induction 1 as [|e clauses He _ IH]; intros path index; simpl; [by eexists|].
  destruct (He (at_index (path +:+ ".clauses") index)) as [r ->]. simpl.
  destruct (IH path (S index)) as [rs ->]. simpl. by eexists.
Qed.

Lemma resolve_expression_total definitions e :
  ∀ path, ∃ r, resolve_expression definitions path e = Done r.
Proof.
  induction e as [name arguments r|clauses IH|clauses IH|clause IH]
    using PlanContractExpression_nested_ind; intros path; simpl.
  - unfold PlanResolve.resolve_predicate, predicate_resolution, semantic_hash.
    repeat case_match; try by eexists.
    destruct (predicate_to_vec_total p) as [bytes ->]. by eexists.
  - destruct (resolve_clauses_total definitions clauses IH path 0) as [r ->]. by eexists.
  - destruct (resolve_clauses_total definitions clauses IH path 0) as [r ->]. by eexists.
  - destruct (IH (path +:+ ".clause")) as [r ->]. by eexists.
Qed.

Lemma resolve_contract_total definitions c : ∃ r, resolve_contract definitions c = Done r.
Proof.
  unfold PlanResolve.resolve_contract.
  destruct (resolve_expression_total definitions (pcontract_expression c)
    ("contracts." +:+ pcontract_id c +:+ ".expression")) as [r ->]. by eexists.
Qed.

(** Resolution never panics as long as catalog entries serialise: it answers with a resolved
    plan, and then the catalogs were well formed, or with at least one diagnostic. *)
Lemma resolve_never_panics plan programs predicates :
  (∃ plan', resolve plan programs predicates = Done plan' ∧
     CatalogsOk (plan_schema plan) programs predicates) ∨
  ∃ d ds, resolve plan programs predicates = Fail (d :: ds).
Proof.
  unfold PlanResolve.resolve.
  cbn [plan_schema plan_tasks plan_contracts clear_resolutions update_plan].
  destruct validate_catalogs as [|d ds] eqn:Hv; [|right; by exists d, ds].
  unfold resolve_programs, resolve_predicates.
  destruct (outcome_map_total (resolve_task (manifests_of programs))
    (set_resolution None <$> plan_tasks plan)) as [ts Hts]; [intros; apply resolve_task_total|].
  destruct (outcome_map_total (resolve_contract (definitions_of predicates))
    (clear_contract <$> plan_contracts plan)) as [cs Hcs]; [intros; apply resolve_contract_total|].
  unfold manifests_of, definitions_of in *. rewrite Hts; cbn [outcome_bind].
  rewrite Hcs; cbn [outcome_bind].
  destruct (mjoin ts.*1 ++ mjoin cs.*1) as [|d ds]; [left|right; by exists d, ds].
  eexists. split; [done|]. by apply validate_catalogs_accepts.
Qed.
End total.
End resolve_spec.

(** * A concrete resolution *)

#[local] Existing Instance PlanHash.sample_number.

Definition sample_digest : string :=
  "0123456789abcdef0123456789abcdef0123456789abcdef0123456789abcdef".

Definition sample_entrypoint (name : string) : ProgramEntrypoint :=
  {| ep_name := name; ep_inputs := [PlanHash.sample_port]; ep_outputs := [PlanHash.sample_port];
     ep_capabilities := empty_summary |}.

Definition sample_manifest (source : string) : ProgramManifest :=
  {| mf_source := source; mf_source_sha256 := sample_digest; mf_default_entrypoint := "main";
     mf_entrypoints := [sample_entrypoint "main"; sample_entrypoint "check"] |}.

Definition sample_programs (sources : list string) : ProgramCatalog :=
  {| programs_schema := PROGRAM_CATALOG_SCHEMA_V0; catalog_programs := sample_manifest <$> sources |}.

Definition sample_definition : PredicateDefinition :=
  {| pd_name := "p"; pd_version := "1"; pd_implementation_sha256 := sample_digest;
     pd_arguments := <["limit" := {| arg_type := PtInteger; arg_required := true |}]>
       (<["deep" := {| arg_type := PtArray; arg_required := false |}]> ∅) |}.

Definition sample_predicates (definitions : list PredicateDefinition) : PredicateCatalog :=
  {| predicates_schema := PREDICATE_CATALOG_SCHEMA_V0; catalog_predicates := definitions |}.

Definition sample_input : Plan (Json Z) := PlanHash.sample_plan PlanHash.sample_arguments None.

Definition sample_program_vec (m : ProgramManifest) : option (list ascii) := Some (chars (mf_source m)).
Definition sample_predicate_vec (d : PredicateDefinition) : option (list ascii) :=
  Some (chars (pd_name d)).

Definition sample_resolve (sources : list string) : Outcome Diagnostics (Plan (Json Z)) :=
  resolve sample_program_vec sample_predicate_vec id of_chars sample_input
    (sample_programs sources) (sample_predicates [sample_definition]).

Definition sample_resolved (sources : list string) : Plan (Json Z) :=
  match sample_resolve sources with Done p => p | _ => sample_input end.

Lemma sample_resolves : sample_resolve ["build.xsh"; "other.xsh"] =
  Done (sample_resolved ["build.xsh"; "other.xsh"]).
Proof. vm_compute. reflexivity. Qed.

Lemma sample_unresolved : sample_resolve ["other.xsh"] = Done (sample_resolved ["other.xsh"]).
Proof. vm_compute. reflexivity. Qed.

Example sample_resolution :
  plan_resolution (sample_resolved ["build.xsh"; "other.xsh"]) =
    {| fully_resolved := true; blockers := [] |} ∧
  plan_resolution (sample_resolved ["other.xsh"]) =
    {| fully_resolved := false; blockers := [UnresolvedProgram "t" "build.xsh"] |}.
Proof. split; vm_compute; reflexivity. Qed.

Definition sample_program_resolution : ResolvedProgram :=
  {| manifest_sha256 := of_chars (PROGRAM_MANIFEST_HASH_DOMAIN ++ chars "build.xsh");
     source_sha256 := sample_digest; resolved_entrypoint := "main" |}.

Definition sample_bound_task : TaskTemplate :=
  set_resolution (Some sample_program_resolution) (PlanHash.sample_task None).

Lemma resolved_programs_fit_witness :
  ∃ m e bytes, m ∈ catalog_programs (sample_programs ["build.xsh"; "other.xsh"]) ∧ ManifestOk m ∧
    mf_source m = "build.xsh" ∧ e ∈ mf_entrypoints m ∧ ep_name e = entrypoint_name None m ∧
    Fits sample_bound_task (canonical_entrypoint e) ∧
    sample_program_vec (canonical_manifest m) = Some bytes ∧
    sample_program_resolution =
      {| manifest_sha256 := program_digest id of_chars bytes; source_sha256 := mf_source_sha256 m;
         resolved_entrypoint := ep_name e |}.
Proof.
  apply (resolved_programs_fit _ _ _ _ _ _ _ _ sample_bound_task "build.xsh" None
    sample_program_resolution sample_resolves); [|reflexivity].
  apply list_elem_of_singleton. vm_compute. reflexivity.
Defined.

Definition sample_predicate_resolution : ResolvedPredicate :=
  {| definition_sha256 := of_chars (PREDICATE_DEFINITION_HASH_DOMAIN ++ chars "p");
     predicate_version := "1"; implementation_sha256 := sample_digest |}.

Definition sample_contract : PlanContract (Json Z) :=
  {| pcontract_id := "c";
     pcontract_expression :=
       PeNot (PeAll [PePredicate "p" PlanHash.sample_arguments (Some sample_predicate_resolution)]) |}.

Lemma resolved_predicates_fit_witness :
  ∃ d bytes, d ∈ catalog_predicates (sample_predicates [sample_definition]) ∧ pd_name d = "p" ∧
    ArgumentsOk d PlanHash.sample_arguments ∧ sample_predicate_vec d = Some bytes ∧
    sample_predicate_resolution =
      {| definition_sha256 := predicate_digest id of_chars bytes; predicate_version := pd_version d;
         implementation_sha256 := pd_implementation_sha256 d |}.
Proof.
  apply (resolved_predicates_fit _ _ _ _ _ _ _ _ sample_contract _ _ _ sample_resolves).
  - apply list_elem_of_singleton. vm_compute. reflexivity.
  - apply list_elem_of_singleton. reflexivity.
Defined.

Lemma blockers_exact_witness :
  UnresolvedProgram "t" "build.xsh" ∈ blockers (plan_resolution (sample_resolved ["other.xsh"])).
Proof.
  apply (blockers_exact _ _ _ _ _ _ _ _ sample_unresolved). left.
  exists (PlanHash.sample_task None). split; [by apply list_elem_of_singleton|].
  exists "build.xsh", None, None. split_and!; [done| |done].
  simpl. by intros ?%list_elem_of_singleton.
Defined.

Lemma resolve_recomputes_witness :
  unresolved (sample_resolved ["other.xsh"]) = unresolved sample_input ∧
  resolve sample_program_vec sample_predicate_vec id of_chars (sample_resolved ["other.xsh"])
    (sample_programs ["other.xsh"]) (sample_predicates [sample_definition]) =
  Done (sample_resolved ["other.xsh"]).
Proof.
  destruct (resolve_recomputes _ _ _ _ _ _ _ _ sample_unresolved) as (H1 & H2 & _). by split.
Defined.

Lemma resolve_ignores_catalog_order_witness :
  sample_resolve ["other.xsh"; "build.xsh"] = Done (sample_resolved ["build.xsh"; "other.xsh"]).
Proof.
  apply (resolve_ignores_catalog_order _ _ _ _ _ (sample_programs ["build.xsh"; "other.xsh"]) _
    (sample_predicates [sample_definition])); [|reflexivity..|exact sample_resolves].
  apply fmap_Permutation, perm_swap.
Defined.

Lemma resolve_never_panics_witness :
  (∃ plan', sample_resolve ["build.xsh"; "build.xsh"] = Done plan' ∧
     CatalogsOk PLAN_SCHEMA_V0 (sample_programs ["build.xsh"; "build.xsh"])
       (sample_predicates [sample_definition])) ∨
  ∃ d ds, sample_resolve ["build.xsh"; "build.xsh"] = Fail (d :: ds).
Proof.
  apply (resolve_never_panics sample_program_vec sample_predicate_vec id of_chars);
    intros; by eexists.
Defined.
