(* ===== verification/Wildcard.v ===== *)
(** Word patterns of approval policies
    ([words_match] and [wildcard] of [crates/xshell-execution/src/policy.rs]).

    The code matches [*] greedily, from the left, one literal part at a time.
    [wild] says what a pattern means; [wildcard_spec] proves the greedy search
    exact. *)
From Stdlib Require Import Ascii.
From S2P Require Import Prelude.

Definition star : ascii := "*"%char.

(** [str::strip_prefix]. *)
Fixpoint strip_prefix (p l : list ascii) : option (list ascii) :=
  match p, l with
  | [], _ => Some l
  | _, [] => None
  | c :: p, d :: l => if bool_decide (c = d) then strip_prefix p l else None
  end.

(** [remaining.find(part)] and [&remaining[index + part.len()..]]: what is left
    after the first occurrence. *)
Fixpoint find_after (part l : list ascii) : option (list ascii) :=
  match strip_prefix part l with
  | Some r => Some r
  | None => match l with [] => None | _ :: l => find_after part l end
  end.

(** The loop over the parts between the first and the last [*]. *)
Fixpoint find_all (middle : list (list ascii)) (remaining : list ascii) : option (list ascii) :=
  match middle with
  | [] => Some remaining
  | part :: middle => remaining ← find_after part remaining; find_all middle remaining
  end.

(** [slice::split_last]. *)
Fixpoint split_last {A} (l : list A) : option (A * list A) :=
  match l with
  | [] => None
  | x :: l => match split_last l with None => Some (x, []) | Some (y, init) => Some (y, x :: init) end
  end.

Definition wildcard_chars (pattern text : list ascii) : bool :=
  let parts := pieces (λ c, bool_decide (c = star)) pattern in
  match parts with
  | first :: rest =>
      match split_last rest with
      | None => bool_decide (pattern = text)
      | Some (last, middle) =>
          match strip_prefix first text with
          | None => false
          | Some remaining =>
              match find_all middle remaining with
              | None => false
              | Some remaining => bool_decide (last `suffix_of` remaining)
              end
          end
      end
  | [] => false
  end.

Definition wildcard (pattern text : string) : bool := wildcard_chars (chars pattern) (chars text).

(** [iter().zip(words).all(wildcard)]: the shorter list decides the length. *)
Fixpoint zip_all (patterns words : list string) : bool :=
  match patterns, words with
  | p :: patterns, w :: words => wildcard p w && zip_all patterns words
  | _, _ => true
  end.

Definition words_match (pattern words : list string) : bool :=
  match split_last pattern with
  | Some ("*", init) => bool_decide (length init ≤ length words) && zip_all init words
  | _ => bool_decide (length pattern = length words) && zip_all pattern words
  end.

Example wildcard_examples :
  (wildcard "a*b*c" "aXXbYYc", wildcard "a*b*c" "aXXc", wildcard "*" "",
   wildcard "*.step" "part.step", wildcard "*.step" "part.stl",
   words_match ["git"; "*"] ["git"], words_match ["git"; "*"] ["git"; "log"; "--oneline"],
   words_match ["git"; "status"] ["git"; "status"; "-s"]) =
  (true, false, true, true, false, true, true, false).
Proof. vm_compute. reflexivity. Qed.

(** * What a pattern means *)

Inductive wild : list ascii → list ascii → Prop :=
| wild_nil : wild [] []
| wild_char c p t : c ≠ star → wild p t → wild (c :: p) (c :: t)
| wild_skip p t : wild p t → wild (star :: p) t
| wild_more p c t : wild (star :: p) t → wild (star :: p) (c :: t).

(** The same over the literal parts: each [*] is a gap. *)
Fixpoint fits (rest : list (list ascii)) (t : list ascii) : Prop :=
  match rest with
  | [] => t = []
  | part :: rest => ∃ gap u, t = gap ++ part ++ u ∧ fits rest u
  end.

Definition parts_fit (parts : list (list ascii)) (t : list ascii) : Prop :=
  match parts with
  | [] => False
  | first :: rest => ∃ u, t = first ++ u ∧ fits rest u
  end.

Lemma wild_star p t : wild (star :: p) t ↔ ∃ gap u, t = gap ++ u ∧ wild p u.
Proof.
  split.
  - intros Hw. remember (star :: p) as q eqn:Hq. revert p Hq.
    induction Hw as [|c p t Hc Hw IH|p t Hw IH|p c t Hw IH]; intros p' Hq; simplify_eq.
    + by exists [], t.
    + destruct (IH p' eq_refl) as (gap & u & -> & ?). by exists (c :: gap), u.
  - intros (gap & u & -> & Hw). induction gap as [|c gap IH]; by constructor.
Qed.

Lemma wild_cons c p t : c ≠ star → wild (c :: p) t ↔ ∃ u, t = c :: u ∧ wild p u.
Proof.
  intros Hc. split; [inversion 1; naive_solver|]. intros (u & -> & ?). by constructor.
Qed.

Lemma wild_parts p t : wild p t ↔ parts_fit (pieces (λ c, bool_decide (c = star)) p) t.
Proof.
  revert t. induction p as [|c p IH]; intros t; simpl.
  { split; [inversion 1; by exists []|]. intros (u & -> & ->). constructor. }
  case_bool_decide as Hc.
  - subst c. rewrite wild_star. setoid_rewrite IH.
    destruct (pieces _ p) as [|w ws] eqn:Hw; [by apply pieces_not_nil in Hw|]. simpl.
    split; [intros (gap & u & -> & v & -> & ?)|intros (u & -> & gap & v & -> & ?)]; naive_solver.
  - rewrite wild_cons by done. setoid_rewrite IH.
    destruct (pieces _ p) as [|w ws] eqn:Hw; [by apply pieces_not_nil in Hw|]. simpl.
    split; [intros (u & -> & v & -> & ?)|intros (u & -> & ?)]; naive_solver.
Qed.

(** * The greedy search *)

Lemma strip_prefix_Some p l r : strip_prefix p l = Some r ↔ l = p ++ r.
Proof.
  revert l. induction p as [|c p IH]; intros [|d l]; simpl; try naive_solver.
  case_bool_decide; rewrite ?IH; naive_solver.
Qed.

Lemma find_after_sound part l r : find_after part l = Some r → ∃ gap, l = gap ++ part ++ r.
Proof.
  induction l as [|c l IH]; simpl; destruct strip_prefix as [r'|] eqn:Hp; intros Hr; simplify_eq;
    try (apply strip_prefix_Some in Hp as ->; by exists []).
  destruct (IH Hr) as (gap & ->). by exists (c :: gap).
Qed.

(** The first occurrence leaves at least as much as any other. *)
Lemma find_after_first part gap u :
  ∃ gap', find_after part (gap ++ part ++ u) = Some (gap' ++ u).
Proof.
  induction gap as [|c gap IH]; simpl.
  - exists []. assert (strip_prefix part (part ++ u) = Some u) as Hp by by apply strip_prefix_Some.
    destruct (part ++ u); simpl; by rewrite Hp.
  - destruct strip_prefix as [r|] eqn:Hp; [|done]. apply strip_prefix_Some in Hp.
    assert (u `suffix_of` r) as [k ->]; [|by exists k].
    assert (length u ≤ length r).
    { apply (f_equal length) in Hp. simpl in Hp. rewrite !length_app in Hp. lia. }
    destruct (suffix_weak_total u r (part ++ r)) as [|Hr]; [|by exists part|done|].
    + rewrite <-Hp. exists (c :: gap ++ part). simpl. by rewrite <-app_assoc.
    + by rewrite (suffix_length_eq r u Hr ltac:(lia)).
Qed.

Lemma fits_more gap rest t : rest ≠ [] → fits rest t → fits rest (gap ++ t).
Proof.
  destruct rest as [|part rest]; [done|]. intros _ (g & u & -> & Hu).
  exists (gap ++ g), u. by rewrite <-app_assoc.
Qed.

(** Matching each part at its first occurrence finds a match if there is one. *)
Lemma find_all_spec middle last t :
  fits (middle ++ [last]) t ↔ ∃ r, find_all middle t = Some r ∧ last `suffix_of` r.
Proof.
  revert t. induction middle as [|part middle IH]; intros t; simpl.
  - split.
    + intros (gap & u & -> & ->). eexists. split; [done|]. exists gap. by rewrite app_nil_r.
    + intros (r & [= <-] & gap & ->). exists gap, []. by rewrite app_nil_r.
  - split.
    + intros (gap & u & -> & Hu). destruct (find_after_first part gap u) as [gap' ->]. simpl.
      apply IH, fits_more; [|done]. by destruct middle.
    + intros (r & Hr & Hlast). apply bind_Some in Hr as (u & Hu & Hr).
      destruct (find_after_sound _ _ _ Hu) as (gap & ->). exists gap, u. split; [done|].
      apply IH. eauto.
Qed.

Lemma split_last_None {A} (l : list A) : split_last l = None ↔ l = [].
Proof. destruct l as [|x l]; simpl; [done|]. destruct (split_last l) as [[]|]; done. Qed.

Lemma split_last_Some {A} (l : list A) x init : split_last l = Some (x, init) ↔ l = init ++ [x].
Proof.
  revert x init. induction l as [|y l IH]; intros x init; simpl.
  { split; [done|]. by destruct init. }
  destruct (split_last l) as [[z k]|] eqn:Hl.
  - destruct (IH z k) as [Hz _]. rewrite (Hz eq_refl). split.
    + by intros [= <- <-].
    + destruct init as [|w init]; [intros [= -> Hnil]; by destruct k|].
      intros [= -> Heq%app_inj_tail]. naive_solver.
  - apply split_last_None in Hl as ->. split; [by intros [= <- <-]|].
    destruct init as [|w [|? ?]]; naive_solver.
Qed.

Lemma wildcard_chars_spec p t : wildcard_chars p t = true ↔ wild p t.
Proof.
  rewrite wild_parts. unfold wildcard_chars.
  destruct (pieces _ p) as [|first rest] eqn:Hp; [by apply pieces_not_nil in Hp|]. simpl.
  destruct (split_last rest) as [[last middle]|] eqn:Hl.
  - apply split_last_Some in Hl as ->. destruct (strip_prefix first t) as [u|] eqn:Hu.
    + apply strip_prefix_Some in Hu as ->. split.
      * intros Hf. exists u. split; [done|]. apply find_all_spec.
        destruct (find_all middle u); [|done]. eexists. split; [done|].
        by apply bool_decide_eq_true in Hf.
      * intros (u' & ->%(inj _) & (r & -> & ?)%find_all_spec). by apply bool_decide_eq_true.
    + split; [done|]. intros (u & Hu' & _). by apply strip_prefix_Some in Hu' as Hu''; congruence.
  - apply split_last_None in Hl as ->. simpl. rewrite bool_decide_eq_true.
    apply pieces_single in Hp as ->. split.
    + intros ->. exists []. by rewrite app_nil_r.
    + intros (u & -> & ->). by rewrite app_nil_r.
Qed.

Lemma wildcard_spec p t : wildcard p t = true ↔ wild (chars p) (chars t).
Proof. apply wildcard_chars_spec. Qed.

Lemma zip_all_spec ps ws :
  zip_all ps ws = true ↔ Forall2 (λ p w, wild (chars p) (chars w)) (take (length ws) ps)
    (take (length ps) ws).
Proof.
  revert ws. induction ps as [|p ps IH]; intros [|w ws]; simpl; try (split; [by constructor|done]).
  rewrite andb_true_iff, IH, wildcard_spec, Forall2_cons. done.
Qed.

(** [pattern] matches [words]: word for word, a final [*] standing for any
    number of words. *)
Definition words_fit (pattern words : list string) : Prop :=
  Forall2 (λ p w, wild (chars p) (chars w)) pattern words ∨
  ∃ init args rest, pattern = init ++ ["*"] ∧ words = args ++ rest ∧
    Forall2 (λ p w, wild (chars p) (chars w)) init args.

Lemma wild_star_any t : wild [star] t.
Proof. apply wild_star. exists t, []. split; [by rewrite app_nil_r|constructor]. Qed.

Lemma zip_all_exact ps ws :
  bool_decide (length ps = length ws) && zip_all ps ws = true ↔
    Forall2 (λ p w, wild (chars p) (chars w)) ps ws.
Proof.
  rewrite andb_true_iff, bool_decide_eq_true, zip_all_spec. split.
  - intros [Hlen Hf]. by rewrite Hlen, firstn_all, <-Hlen, firstn_all in Hf.
  - intros Hf. pose proof (Forall2_length _ _ _ Hf) as Hlen. split; [done|].
    by rewrite Hlen, firstn_all, <-Hlen, firstn_all.
Qed.

Lemma zip_all_prefix init ws :
  bool_decide (length init ≤ length ws) && zip_all init ws = true ↔
    ∃ args rest, ws = args ++ rest ∧ Forall2 (λ p w, wild (chars p) (chars w)) init args.
Proof.
  rewrite andb_true_iff, bool_decide_eq_true, zip_all_spec. split.
  - intros [Hlen Hf]. rewrite take_ge in Hf by done.
    exists (take (length init) ws), (drop (length init) ws). by rewrite take_drop.
  - intros (args & rest & -> & Hf). pose proof (Forall2_length _ _ _ Hf) as Hlen.
    rewrite length_app. split; [lia|]. rewrite (take_ge init) by lia.
    by rewrite Hlen, take_app_length.
Qed.

Lemma words_match_fit pattern words : words_match pattern words = true ↔ words_fit pattern words.
Proof.
  unfold words_match. destruct (split_last pattern) as [[last init]|] eqn:Hl.
  2: { apply split_last_None in Hl as ->. rewrite zip_all_exact. split; [by left|].
       intros [?|(init & ? & ? & Hnil & _)]; [done|by destruct init]. }
  apply split_last_Some in Hl as ->. destruct (decide (last = "*")) as [->|Hne].
  - rewrite zip_all_prefix. split.
    + intros (args & rest & -> & Hf). right. by exists init, args, rest.
    + intros [Hf|(init' & args & rest & [-> _]%app_inj_tail & -> & Hf)]; [|eauto].
      apply Forall2_app_inv_l in Hf as (args & rest & ? & _ & ->). eauto.
  - transitivity (Forall2 (λ p w, wild (chars p) (chars w)) (init ++ [last]) words).
    + rewrite <-zip_all_exact. destruct last as [|c [|? ?]]; [done|..];
        by destruct c as [[] [] [] [] [] [] [] []].
    + split; [by left|]. intros [?|(init' & args & rest & [_ ->]%app_inj_tail & _)]; done.
Qed.

(** A pattern matches exactly the argument vectors it describes: each word
    fills the gaps its pattern leaves at its [*]s, and a final lone [*] stands
    for any further words. The greedy leftmost search of [wildcard] loses no
    match. *)
Lemma words_match_spec (pattern words : list string) :
  words_match pattern words = true ↔
    Forall2 (λ p w, wild (chars p) (chars w)) pattern words ∨
    ∃ init args rest, pattern = init ++ ["*"] ∧ words = args ++ rest ∧
      Forall2 (λ p w, wild (chars p) (chars w)) init args.
Proof. apply words_match_fit. Qed.
