(* ===== verification/Sensitive.v ===== *)
(** Sensitive-path patterns ([crates/xshell-execution/src/sensitive.rs]).

    [glob_match] and [SensitivePaths], with what each shape of pattern covers.
    A path is the text of [to_string_lossy] on a platform whose separator is
    [/]; patterns and paths are matched byte by byte, as the code does. *)
From Stdlib Require Import Ascii.
From S2P Require Import Prelude.

Definition slash : ascii := "/"%char.

(** The suffixes of [t] that start after a [/]. *)
Fixpoint after_slashes (t : list ascii) : list (list ascii) :=
  match t with
  | [] => []
  | c :: t => if bool_decide (c = slash) then t :: after_slashes t else after_slashes t
  end.

(** The suffixes the loop of [*] tries: up to the first [/] or the end. *)
Fixpoint segment_suffixes (t : list ascii) : list (list ascii) :=
  t :: match t with
       | [] => []
       | c :: t => if bool_decide (c = slash) then [] else segment_suffixes t
       end.

(** [glob_match::go]. *)
Fixpoint go (p t : list ascii) {struct p} : bool :=
  match p with
  | [] => bool_decide (t = [])
  | ["/"; "*"; "*"]%char => match t with [] => true | c :: _ => bool_decide (c = slash) end
  | "/"%char :: "*"%char :: "*"%char :: "/"%char :: rest =>
      match t with
      | [] => false
      | c :: t => bool_decide (c = slash) && (go rest t || existsb (go rest) (after_slashes t))
      end
  | "*"%char :: "*"%char :: "/"%char :: rest =>
      go rest t || existsb (go rest) (after_slashes t)
  | ["*"; "*"]%char => true
  | "*"%char :: rest => existsb (go rest) (segment_suffixes t)
  | "?"%char :: rest =>
      match t with [] => false | c :: t => negb (bool_decide (c = slash)) && go rest t end
  | c :: rest =>
      match t with [] => false | d :: t => bool_decide (c = d) && go rest t end
  end.

Definition glob_match (pattern text : list ascii) : bool := go pattern text.

Record SensitivePaths := { patterns : list (list ascii) }.

(** [trim_start_matches("./")] and [trim_start_matches('/')]. *)
Fixpoint trim_dot_slash (s : list ascii) : list ascii :=
  match s with
  | "."%char :: "/"%char :: s => trim_dot_slash s
  | _ => s
  end.

Fixpoint trim_slash (s : list ascii) : list ascii :=
  match s with
  | [] => []
  | c :: r => if bool_decide (c = slash) then trim_slash r else s
  end.

Definition new_patterns (ps : list string) : list (list ascii) :=
  filter (λ p, p ≠ []) ((λ p, trim_dot_slash (chars (trim p))) <$> ps).

Definition sensitive_new (ps : list string) : SensitivePaths := {| patterns := new_patterns ps |}.
Definition sensitive_none : SensitivePaths := {| patterns := [] |}.

(** [path.rsplit('/').next()]. *)
Fixpoint file_name (path : list ascii) : list ascii :=
  match path with
  | [] => []
  | c :: r => if bool_decide (slash ∈ path) then file_name r else path
  end.

Definition match_pattern (path pattern : list ascii) : bool :=
  match pattern with
  | c :: anchored =>
      if bool_decide (c = slash) then glob_match anchored path
      else if bool_decide (slash ∈ pattern) then glob_match (chars "**/" ++ pattern) path
      else glob_match pattern (file_name path)
  | [] => glob_match pattern (file_name path)
  end.

Definition normal_path (path : string) : list ascii := trim_slash (trim_dot_slash (chars path)).

Definition matches (sp : SensitivePaths) (path : string) : bool :=
  existsb (match_pattern (normal_path path)) (patterns sp).

Definition DEFAULT_SENSITIVE_PATTERNS : list string :=
  [".env"; ".env.*"; "*.pem"; "*.key"; "*.p12"; "*.pfx"; "*.jks"; "*.keystore"; "*.kdbx";
   "id_rsa"; "id_dsa"; "id_ecdsa"; "id_ed25519"; "*.ppk"; ".netrc"; ".npmrc"; ".pypirc";
   ".git-credentials"; ".git/config"; ".ssh/**"; ".aws/**"; ".gnupg/**"; ".kube/config";
   ".docker/config.json"; "*.tfstate"; "*.tfstate.*"; "secrets.*"; "*.secret"; "*.secrets"].

Definition sensitive_default : SensitivePaths := sensitive_new DEFAULT_SENSITIVE_PATTERNS.

(** * The doc examples *)

Example glob_examples :
  let m p t := glob_match (chars p) (chars t) in
  (m "*.pem" "server.pem", m "*.pem" "a/server.pem", m ".ssh/**" ".ssh/deep/er/file",
   m ".ssh/**" ".ssh", m "**/secrets.yaml" "a/b/secrets.yaml", m "a/**/z" "a/z",
   m "a/**/z" "a/b/c/z", m "a/**/z" "ab/z", m ".ssh/**" ".sshx/file", m "id_?sa" "id_/sa") =
  (true, false, true, true, true, true, true, false, false, false).
Proof. vm_compute. reflexivity. Qed.

Example default_examples :
  matches sensitive_default "/work/config/.env" = true ∧
  matches sensitive_default "/work/src/main.rs" = false ∧
  matches sensitive_default "/home/me/.aws/deep/credentials" = true.
Proof. vm_compute. done. Qed.

(** * What each shape of pattern covers *)

(** Text without wildcards. *)
Definition literal (l : list ascii) : Prop := Forall (λ c, c ≠ "*"%char ∧ c ≠ "?"%char) l.

Definition at_component (pre : list ascii) : Prop := pre = [] ∨ ∃ q, pre = q ++ [slash].
Definition ends_component (post : list ascii) : Prop := post = [] ∨ ∃ q, post = slash :: q.

(** [dir] occurs in [path] as a run of whole components. *)
Definition has_components (dir path : list ascii) : Prop :=
  ∃ pre post, path = pre ++ dir ++ post ∧ at_component pre ∧ ends_component post.

Lemma go_plain c rest t :
  c ≠ "*"%char → c ≠ "?"%char → head rest ≠ Some "*"%char →
  go (c :: rest) t = match t with [] => false | d :: t => bool_decide (c = d) && go rest t end.
Proof.
  intros H1 H2 H3. destruct c as [[] [] [] [] [] [] [] []]; try reflexivity; try done.
  destruct rest as [|[[] [] [] [] [] [] [] []] rest]; try reflexivity. done.
Qed.

Lemma go_literal l rest t :
  literal l → head rest ≠ Some "*"%char →
  go (l ++ rest) t = true ↔ ∃ u, t = l ++ u ∧ go rest u = true.
Proof.
  intros Hl Hrest. revert t. induction Hl as [|c l [H1 H2] Hl IH]; intros t; simpl app.
  { split; [intros ?; by exists t|]. by intros (u & -> & ?). }
  rewrite go_plain; [|done..|].
  2: { destruct Hl as [|d l [? ?]]; simpl; [done|congruence]. }
  destruct t as [|d t]; [split; [done|by intros (u & ? & _)]|].
  rewrite andb_true_iff, bool_decide_eq_true, IH. naive_solver.
Qed.

Lemma go_literal_nil l t : literal l → go l t = true ↔ t = l.
Proof.
  intros Hl. rewrite <-(app_nil_r l) at 1. rewrite go_literal by done. simpl.
  setoid_rewrite bool_decide_eq_true. split.
  - intros (u & -> & ->). by rewrite app_nil_r.
  - intros ->. exists []. by rewrite app_nil_r.
Qed.

Lemma go_below t : go (chars "/**") t = true ↔ ends_component t.
Proof.
  unfold ends_component. destruct t as [|c t]; simpl; [naive_solver|].
  rewrite bool_decide_eq_true. naive_solver.
Qed.

Lemma elem_of_after_slashes u t : u ∈ after_slashes t ↔ ∃ pre, t = pre ++ slash :: u.
Proof.
  induction t as [|c t IH]; simpl.
  { split; [by intros ?%elem_of_nil|]. by intros ([] & ?). }
  case_bool_decide as Hc; [rewrite elem_of_cons|]; rewrite IH; split.
  - intros [->|(pre & ->)]; [exists []; by subst|by exists (c :: pre)].
  - intros ([|d pre] & [= -> ->]); [by left|right; eauto].
  - intros (pre & ->). by exists (c :: pre).
  - intros ([|d pre] & [= ? ->]); [done|eauto].
Qed.

(** A leading [**/] skips any number of whole components. *)
Lemma go_any_depth rest t :
  go (chars "**/" ++ rest) t = true ↔ ∃ pre u, t = pre ++ u ∧ at_component pre ∧ go rest u = true.
Proof.
  change (go (chars "**/" ++ rest) t) with (go rest t || existsb (go rest) (after_slashes t)).
  rewrite orb_true_iff, existsb_elem_of. setoid_rewrite elem_of_after_slashes. split.
  - intros [?|(u & (pre & ->) & ?)]; [exists [], t; split_and!; [done|by left|done]|].
    exists (pre ++ [slash]), u. split_and!; [by rewrite <-app_assoc|right; eauto|done].
  - intros (pre & u & -> & [->|[q ->]] & ?); [by left|]. right. exists u.
    split; [|done]. exists q. by rewrite <-app_assoc.
Qed.

Lemma elem_of_segment_suffixes u t :
  u ∈ segment_suffixes t ↔ ∃ pre, t = pre ++ u ∧ slash ∉ pre.
Proof.
  induction t as [|c t IH]; simpl; rewrite elem_of_cons.
  { rewrite elem_of_nil. split.
    - intros [->|[]]. exists []. split; [done|apply not_elem_of_nil].
    - intros ([] & Heq & _); [by left|done]. }
  case_bool_decide as Hc; rewrite ?elem_of_nil, ?IH; split.
  - intros [->|[]]. exists []. split; [done|apply not_elem_of_nil].
  - intros ([|d pre] & Heq & Hd); simplify_eq/=; [by left|]. set_solver.
  - intros [->|(pre & -> & ?)]; [exists []; split; [done|apply not_elem_of_nil]|].
    exists (c :: pre). split; [done|set_solver].
  - intros ([|d pre] & Heq & Hd); simplify_eq/=; [by left|]. right. exists pre. set_solver.
Qed.

(** [*] stays inside one component. *)
Lemma go_star l t :
  literal l → l ≠ [] →
  go ("*"%char :: l) t = true ↔ ∃ stem, t = stem ++ l ∧ slash ∉ stem.
Proof.
  intros Hl Hne. destruct l as [|c l]; [done|].
  assert (go ("*"%char :: c :: l) t = existsb (go (c :: l)) (segment_suffixes t)) as ->.
  { inversion Hl as [|? ? [? ?]]; subst.
    destruct c as [[] [] [] [] [] [] [] []]; try reflexivity; done. }
  rewrite existsb_elem_of. setoid_rewrite elem_of_segment_suffixes.
  setoid_rewrite (go_literal_nil _ _ Hl). naive_solver.
Qed.

Lemma file_name_spec path :
  slash ∉ file_name path ∧ ∃ pre, path = pre ++ file_name path ∧ at_component pre.
Proof.
  induction path as [|c path IH]; simpl.
  { split; [apply not_elem_of_nil|]. exists []. split; [done|by left]. }
  case_bool_decide as Hin.
  - destruct IH as (Hno & pre & Hpre & Hat). split; [done|].
    destruct Hat as [->|[q ->]].
    + apply elem_of_cons in Hin as [<-|Hin]; [|by rewrite Hpre in Hin].
      exists [slash]. simpl in *. split; [congruence|]. right. by exists [].
    + exists (c :: q ++ [slash]). split; [simpl; congruence|]. right. by exists (c :: q).
  - split; [done|]. exists []. split; [done|by left].
Qed.

Lemma match_pattern_relative path c pat :
  c ≠ slash → slash ∈ c :: pat →
  match_pattern path (c :: pat) = glob_match (chars "**/" ++ c :: pat) path.
Proof. intros ? Hin. simpl. by rewrite bool_decide_eq_false_2, bool_decide_eq_true_2 by done. Qed.

Lemma match_pattern_bare path pat :
  slash ∉ pat → match_pattern path pat = glob_match pat (file_name path).
Proof.
  destruct pat as [|c pat]; [done|]. intros Hin. simpl.
  rewrite !bool_decide_eq_false_2; [done|done|set_solver].
Qed.

Lemma literal_below dir path :
  literal dir → glob_match (chars "**/" ++ dir ++ chars "/**") path = true ↔
    has_components dir path.
Proof.
  intros Hl. unfold glob_match. rewrite go_any_depth. unfold has_components.
  setoid_rewrite (go_literal dir (chars "/**") _ Hl ltac:(done)). setoid_rewrite go_below.
  naive_solver.
Qed.

(** Every shape of pattern the documentation names covers exactly what it
    says: a name with no [/] is the last component, [*suffix] matches within
    it, a pattern with [/] matches whole components at any depth, [dir/**]
    covers the directory and all that is below it, and a leading [/] anchors. *)
Lemma sensitive_shapes (path : list ascii) (l : list ascii) :
  literal l → l ≠ [] → head l ≠ Some slash →
  (slash ∉ l → match_pattern path l = true ↔ file_name path = l) ∧
  (slash ∉ l → match_pattern path ("*"%char :: l) = true ↔ ∃ stem, file_name path = stem ++ l) ∧
  (slash ∈ l → match_pattern path l = true ↔ ∃ pre, path = pre ++ l ∧ at_component pre) ∧
  (match_pattern path (l ++ chars "/**") = true ↔ has_components l path) ∧
  (match_pattern path (slash :: l) = true ↔ path = l).
Proof.
  intros Hl Hne Hhd. destruct l as [|c l]; [done|]. split_and!.
  - intros Hin. by rewrite match_pattern_bare, (go_literal_nil _ _ Hl).
  - intros Hin. rewrite match_pattern_bare by set_solver. unfold glob_match.
    rewrite (go_star _ _ Hl) by done. destruct (file_name_spec path) as [Hno _].
    split; intros (stem & Hst); [naive_solver|]. exists stem. split; [done|].
    intros Hs. apply Hno. rewrite Hst, elem_of_app. by left.
  - intros Hin. rewrite match_pattern_relative by (simpl in *; congruence || done).
    unfold glob_match. rewrite go_any_depth. setoid_rewrite (go_literal_nil _ _ Hl). naive_solver.
  - simpl app. rewrite match_pattern_relative; [|simpl in *; congruence|set_solver].
    exact (literal_below (c :: l) path Hl).
  - exact (go_literal_nil (c :: l) path Hl).
Qed.

Lemma sensitive_shapes_witness :
  match_pattern (chars "home/me/.aws/deep/credentials") (chars ".aws" ++ chars "/**") = true ↔
    has_components (chars ".aws") (chars "home/me/.aws/deep/credentials").
Proof.
  apply (sensitive_shapes (chars "home/me/.aws/deep/credentials") (chars ".aws")).
  - repeat (constructor; [done|]). constructor.
  - done.
  - done.
Defined.

Section matching.
Context (sp : SensitivePaths).

Lemma matches_iff path :
  matches sp path = true ↔ ∃ pat, pat ∈ patterns sp ∧ match_pattern (normal_path path) pat = true.
Proof. apply existsb_elem_of. Qed.

Lemma normal_path_absolute path :
  head path ≠ Some slash → normal_path (of_chars (slash :: path)) = path.
Proof.
  intros Hhd. unfold normal_path. rewrite chars_of_chars. simpl.
  destruct path as [|c path]; [done|]. simpl. rewrite bool_decide_eq_false_2; [done|].
  simpl in Hhd. congruence.
Qed.
End matching.

(** No file of a directory that the default list protects can be read without
    the approval gate: whatever directory holds [.ssh], [.aws] or [.gnupg] and
    however deep the file is below it. *)
Lemma default_directories_sensitive (dir : string) (pre post : list ascii) :
  dir ∈ [".ssh"; ".aws"; ".gnupg"] → at_component pre → head pre ≠ Some slash →
  ends_component post →
  matches sensitive_default (of_chars (slash :: pre ++ chars dir ++ post)) = true.
Proof.
  intros Hdir Hpre Hhd Hpost. apply matches_iff. exists (chars dir ++ chars "/**").
  rewrite normal_path_absolute.
  2: { destruct pre; [|done]. destruct_elem_of Hdir; done. }
  split; [destruct_elem_of Hdir; vm_compute; set_solver|].
  assert (match_pattern (pre ++ chars dir ++ post) (chars dir ++ chars "/**") =
    glob_match (chars "**/" ++ chars dir ++ chars "/**") (pre ++ chars dir ++ post)) as ->
    by (destruct_elem_of Hdir; (apply match_pattern_relative; [done|vm_compute; set_solver])).
  apply literal_below; [|by exists pre, post].
  destruct_elem_of Hdir; repeat (constructor; [done|]); constructor.
Qed.

Lemma default_directories_sensitive_witness :
  matches sensitive_default
    (of_chars (slash :: chars "work/vendor/" ++ chars ".aws" ++ chars "/cli/cache")) = true.
Proof.
  apply (default_directories_sensitive ".aws"); [by vm_compute; set_solver| |done|].
  - right. by exists (chars "work/vendor").
  - right. by exists (chars "cli/cache").
Defined.
