(* ===== verification/Policy.v ===== *)
(** Approval policies ([crates/xshell-execution/src/policy.rs], with
    [ApprovalPolicy] of [engine.rs]).

    [split] stands for [shell_words::split] (a third-party crate): [inl] holds
    the text of its error. The theorems hold for every such function; where a
    property needs to know how it splits, the hypothesis says so. *)
From Stdlib Require Import Ascii.
From S2P Require Import Prelude Sensitive Wildcard.

Inductive ApprovalPolicy : Type := Ask | Auto | Off.

#[export] Instance ApprovalPolicy_eq_dec : EqDecision ApprovalPolicy.
Proof. solve_decision. Defined.

Definition permissiveness (p : ApprovalPolicy) : nat :=
  match p with Off => 0 | Ask => 1 | Auto => 2 end.

Definition clamp_to (self ceiling : ApprovalPolicy) : ApprovalPolicy :=
  if permissiveness self <=? permissiveness ceiling then self else ceiling.

Inductive PolicyDecision : Type := Deny | Prompt | Run.

#[export] Instance PolicyDecision_eq_dec : EqDecision PolicyDecision.
Proof. solve_decision. Defined.

(** The derived order: from strictest. *)
Definition strictness (d : PolicyDecision) : nat :=
  match d with Deny => 0 | Prompt => 1 | Run => 2 end.

Definition decision_min (d e : PolicyDecision) : PolicyDecision :=
  if strictness d <=? strictness e then d else e.

Record PolicyConfig := {
  config_always_allowed : list string;
  config_allowed : option (list string);
  config_denied : list string;
}.

Record CallFacts := {
  call_tool : string;
  call_command : option string;
  call_path : option string;
  call_gated : bool;
  call_sensitive : bool;
}.

Inductive Rule : Type :=
| RuleTool (tool : string)
| RuleShell (words : list string)
| RulePath (tool pattern : string).

#[export] Instance Rule_eq_dec : EqDecision Rule.
Proof. solve_decision. Defined.

Definition PATH_TOOLS : list string := ["read_file"; "list_directory"].

Definition rule_tool (r : Rule) : string :=
  match r with RuleTool tool => tool | RulePath tool _ => tool | RuleShell _ => "run_shell" end.

Definition SEPARATORS : list ascii := ["|"; ";"; "&"; "<"; ">"; "010"; "013"]%char.
Definition EXPANSIONS : list ascii := ["`"; "$"; "("; ")"; "{"; "}"]%char.

Definition is_separator (c : ascii) : bool := bool_decide (c ∈ SEPARATORS).
Definition is_expansion (c : ascii) : bool := bool_decide (c ∈ EXPANSIONS).
Definition is_meta (c : ascii) : bool := is_separator c || is_expansion c.

Definition plain_char (c : ascii) : bool :=
  is_ascii_alphanumeric c || bool_decide (c ∈ ["_"; "-"; "."; "/"; "+"; ":"; "@"; ","]%char).

Definition plain_command_word (word : string) : bool :=
  negb (bool_decide (word = "")) && string_all plain_char word.

(** [SensitivePaths::new([pattern]).matches(path)]. *)
Definition path_matches (pattern path : string) : bool := matches (sensitive_new [pattern]) path.

Definition covered_by (rule other : Rule) : bool :=
  bool_decide (rule = other) ||
  match other with RuleTool tool => bool_decide (tool = rule_tool rule) | _ => false end.

Record Policy := {
  always_allowed : list Rule;
  allowed : option (list Rule);
  denied : list Rule;
}.

Record ApprovalRules := {
  base : Policy;
  overlay : option Policy;
}.

(** The behaviour without a policy. *)
Definition default_decision (call : CallFacts) (mode : ApprovalPolicy) : PolicyDecision :=
  if negb (call_gated call) then Run
  else match mode with Off => Deny | Ask => Prompt | Auto => Run end.

Section policy.
Context (split : string → string + list string).

Definition split_ok (s : string) : option (list string) :=
  match split s with inl _ => None | inr words => Some words end.

(** [Rule::parse]; a failure is the text of its error. *)
Definition rule_parse (entry : string) : Outcome string Rule :=
  let entry := trim entry in
  let '(tool, argument) :=
    match split_once ":"%char entry with
    | Some (tool, argument) => (trim tool, Some (trim argument))
    | None => (entry, None)
    end in
  if bool_decide (tool = "") ||
     negb (string_all (λ c, is_ascii_alphanumeric c || bool_decide (c = "_"%char)) tool)
  then Fail (debug_str entry +:+ " does not start with a tool name")
  else match argument with
       | None => Done (RuleTool tool)
       | Some "" => Fail (debug_str entry +:+ " has nothing after the colon")
       | Some pattern =>
           if bool_decide (tool = "run_shell") then
             match split pattern with
             | inl err => Fail (debug_str entry +:+ ": " +:+ err)
             | inr [] => Fail (debug_str entry +:+ " has no command pattern")
             | inr words => Done (RuleShell words)
             end
           else if bool_decide (tool ∈ PATH_TOOLS) then Done (RulePath tool pattern)
           else Fail (debug_str entry +:+
             ": only run_shell takes a command pattern, and only " +:+
             join " and " PATH_TOOLS +:+ " take a path")
       end.

(** The words of [command] if it is one simple command with a plain command
    word. *)
Definition simple_command (command : string) : option (list string) :=
  if string_exists is_separator command || string_exists is_expansion command then None
  else match split_ok command with
       | Some (word :: words) => if plain_command_word word then Some (word :: words) else None
       | _ => None
       end.

Definition command_parts (command : string) : list (list string) :=
  filter (λ words, words ≠ []) (omap split_ok (split_on is_meta command)).

(** The loop of [checked_parts]. *)
Fixpoint check_pieces (pieces : list string) : option (list (list string)) :=
  match pieces with
  | [] => Some []
  | part :: pieces =>
      words ← split_ok part;
      match words with
      | [] => check_pieces pieces
      | word :: _ =>
          if plain_command_word word then parts ← check_pieces pieces; Some (words :: parts)
          else None
      end
  end.

Definition checked_parts (command : string) : option (list (list string)) :=
  if string_exists is_expansion command then None
  else check_pieces (split_on is_separator command).

Definition allows (rule : Rule) (call : CallFacts) : bool :=
  if negb (bool_decide (rule_tool rule = call_tool call)) then false
  else match rule with
       | RuleTool _ => true
       | RuleShell pattern =>
           match call_command call ≫= simple_command with
           | Some words => words_match pattern words
           | None => false
           end
       | RulePath _ pattern =>
           match call_path call with Some path => path_matches pattern path | None => false end
       end.

Definition denies (rule : Rule) (call : CallFacts) : bool :=
  if negb (bool_decide (rule_tool rule = call_tool call)) then false
  else match rule with
       | RuleShell pattern =>
           match call_command call with
           | Some command => existsb (words_match pattern) (command_parts command)
           | None => false
           end
       | _ => allows rule call
       end.

(** [Policy::parse]: the policy and a warning for each allow entry that a
    denial overrides. *)
Definition warning (config : PolicyConfig) (policy : Policy) (name : string)
    (entry_rule : string * Rule) : option string :=
  let '(entry, rule) := entry_rule in
  '(denied_entry, _) ← List.find (λ er, covered_by rule er.2)
                         (zip (config_denied config) (denied policy));
  Some (name +:+ " entry " +:+ debug_str entry +:+ " has no effect: denied entry " +:+
        debug_str denied_entry +:+ " overrides it").

Definition policy_warnings (config : PolicyConfig) (policy : Policy) : list string :=
  omap (warning config policy "always_allowed")
    (zip (config_always_allowed config) (always_allowed policy)) ++
  omap (warning config policy "allowed")
    (zip (default [] (config_allowed config)) (default [] (allowed policy))).

Definition policy_parse (config : PolicyConfig) : Outcome string (Policy * list string) :=
  let! always := outcome_map rule_parse (config_always_allowed config) in
  let! allow := match config_allowed config with
                | None => Done None
                | Some entries => let! rules := outcome_map rule_parse entries in Done (Some rules)
                end in
  let! deny := outcome_map rule_parse (config_denied config) in
  let policy := {| always_allowed := always; allowed := allow; denied := deny |} in
  Done (policy, policy_warnings config policy).

Definition is_shell_rule (r : Rule) : bool := match r with RuleShell _ => true | _ => false end.
Definition is_path_rule (r : Rule) : bool := match r with RulePath _ _ => true | _ => false end.

Definition denial_is_uncheckable (policy : Policy) (call : CallFacts) : bool :=
  bool_decide (call_tool call = "run_shell") && existsb is_shell_rule (denied policy) &&
  match call_command call with
  | None => true
  | Some command => bool_decide (checked_parts command = None)
  end.

Definition decide_by_rules (policy : Policy) (call : CallFacts) (mode : ApprovalPolicy)
    (is_base : bool) : PolicyDecision :=
  if existsb (λ rule, denies rule call) (denied policy) then Deny
  else
    let always := List.find (λ rule, allows rule call) (always_allowed policy) in
    let allow := rules ← allowed policy; List.find (λ rule, allows rule call) rules in
    if bool_decide (is_Some (allowed policy)) && bool_decide (always = None) &&
       bool_decide (allow = None) then Deny
    else if negb (bool_decide (always = None)) || negb (bool_decide (allow = None)) then
      if bool_decide (mode = Off) then Deny
      else
        let names_path := match always with Some r => is_path_rule r | None => false end in
        let needs_prompt :=
          match always with
          | Some _ => call_sensitive call && negb (is_base && names_path)
          | None => true
          end in
        if needs_prompt && bool_decide (mode = Ask) then Prompt else Run
    else if negb is_base then Run
    else default_decision call mode.

Definition policy_decide (policy : Policy) (call : CallFacts) (mode : ApprovalPolicy)
    (is_base : bool) : PolicyDecision :=
  let decision := decide_by_rules policy call mode is_base in
  if denial_is_uncheckable policy call then
    decision_min decision (if bool_decide (mode = Ask) then Prompt else Deny)
  else decision.

(** [ApprovalRules::decide]. *)
Definition rules_decide (rules : ApprovalRules) (call : CallFacts) (mode : ApprovalPolicy) :
    PolicyDecision :=
  let b := policy_decide (base rules) call mode true in
  match overlay rules with
  | Some o => decision_min b (policy_decide o call mode false)
  | None => b
  end.
End policy.

(** * Reading commands *)

Section reading.
Context (split : string → string + list string).

Lemma checked_parts_Some command parts :
  checked_parts split command = Some parts →
  string_exists is_expansion command = false ∧
  Forall (λ part, ∃ words, split_ok split part = Some words ∧
    (words = [] ∨ ∃ word, head words = Some word ∧ plain_command_word word = true ∧ words ∈ parts))
    (split_on is_separator command) ∧
  command_parts split command = parts.
Proof.
  unfold checked_parts, command_parts. destruct string_exists eqn:Hexp; [done|]. intros Hc.
  split; [done|]. rewrite (split_on_ext is_meta is_separator).
  2: { intros c Hin. unfold is_meta. rewrite string_exists_chars, existsb_false in Hexp.
       by rewrite Hexp, orb_false_r. }
  revert parts Hc. generalize (split_on is_separator command) as ps. clear Hexp.
  induction ps as [|part ps IH]; intros parts; simpl.
  { intros [= <-]. split; [constructor|done]. }
  destruct (split_ok split part) as [words|] eqn:Hs; simpl; [|done].
  destruct words as [|word words].
  - intros Hc. destruct (IH _ Hc) as [Hall Hparts]. split; [|done].
    constructor; [exists []; split; [done|by left]|done].
  - destruct (plain_command_word word) eqn:Hplain; [|done].
    destruct (check_pieces split ps) as [parts'|] eqn:Hc; simpl; [|done].
    intros [= <-]. destruct (IH _ eq_refl) as [Hall Hparts]. split.
    + constructor.
      * exists (word :: words). split; [done|]. right. exists word. split_and!; [done..|by left].
      * eapply Forall_impl; [done|]. intros p (ws & ? & [?|(w & ? & ? & ?)]); exists ws;
          (split; [done|]); [by left|right]. exists w. split_and!; [done..|by right].
    + rewrite filter_cons_True by done. f_equal. exact Hparts.
Qed.

Lemma simple_command_Some command words :
  simple_command split command = Some words →
  string_exists is_separator command = false ∧ string_exists is_expansion command = false ∧
  split_ok split command = Some words ∧ command_parts split command = [words].
Proof.
  unfold simple_command. destruct (string_exists is_separator command) eqn:Hsep; [done|].
  destruct (string_exists is_expansion command) eqn:Hexp; [done|]. simpl.
  destruct (split_ok split command) as [[|w ws]|] eqn:Hs; try done.
  destruct plain_command_word; [|done]. intros [= <-]. split_and!; try done.
  unfold command_parts. rewrite split_on_none; [|].
  - simpl. by rewrite Hs.
  - revert Hsep Hexp. rewrite !string_exists_chars, !existsb_false. unfold is_meta.
    intros Hsep Hexp c Hc. by rewrite Hsep, Hexp.
Qed.

Lemma allows_denies rule denial call :
  covered_by rule denial = true → allows split rule call = true → denies split denial call = true.
Proof.
  unfold covered_by. rewrite orb_true_iff, bool_decide_eq_true. intros Hc Hall.
  assert (rule_tool rule = call_tool call) as Htool.
  { unfold allows in Hall. by case_bool_decide. }
  destruct Hc as [<-|Hc].
  - unfold denies. rewrite bool_decide_true by done. simpl.
    destruct rule as [tool|pattern|tool pattern]; try exact Hall.
    revert Hall. unfold allows. rewrite bool_decide_true by done. simpl.
    destruct (call_command call) as [command|]; simpl; [|done].
    destruct (simple_command split command) as [words|] eqn:Hs; [|done].
    apply simple_command_Some in Hs as (_ & _ & _ & ->). simpl. by intros ->.
  - destruct denial as [tool| |]; try done. apply bool_decide_eq_true in Hc as ->.
    unfold denies, allows. simpl. by rewrite bool_decide_true.
Qed.

(** * The decision of one policy *)

Lemma decision_min_Run d e : decision_min d e = Run ↔ d = Run ∧ e = Run.
Proof. destruct d, e; vm_compute; naive_solver. Qed.

Lemma decision_min_strictness d e :
  strictness (decision_min d e) = strictness d `min` strictness e.
Proof. by destruct d, e. Qed.

Lemma find_Some_elem {A} (f : A → bool) l x : List.find f l = Some x → x ∈ l ∧ f x = true.
Proof. rewrite list_elem_of_In. apply find_some. Qed.

Lemma policy_decide_denied policy call mode is_base rule :
  rule ∈ denied policy → denies split rule call = true →
  policy_decide split policy call mode is_base = Deny.
Proof.
  intros Hr Hd. unfold policy_decide, decide_by_rules.
  assert (existsb (λ rule, denies split rule call) (denied policy) = true) as ->
    by (apply existsb_elem_of; eauto).
  destruct denial_is_uncheckable; [by case_bool_decide|done].
Qed.

(** Why a policy lets a call run. *)
Lemma policy_decide_Run policy call mode is_base :
  policy_decide split policy call mode is_base = Run →
  (∀ rule, rule ∈ denied policy → denies split rule call = false) ∧
  denial_is_uncheckable split policy call = false ∧
  decide_by_rules split policy call mode is_base = Run.
Proof.
  unfold policy_decide. intros Hrun.
  assert (denial_is_uncheckable split policy call = false ∧
          decide_by_rules split policy call mode is_base = Run) as [Hu Hr].
  { destruct denial_is_uncheckable; [|done].
    apply decision_min_Run in Hrun as [_ ?]. by case_bool_decide. }
  split_and!; try done. apply existsb_false. unfold decide_by_rules in Hr. by destruct existsb.
Qed.

Lemma decide_by_rules_Off policy call :
  call_gated call = true → decide_by_rules split policy call Off true = Deny.
Proof.
  intros Hg. unfold decide_by_rules, default_decision. rewrite Hg, (bool_decide_true (Off = Off)) by done.
  by repeat case_match.
Qed.

(** In [ask] mode a gated call runs only on the strength of an always-allowed
    entry, and on a sensitive path only of one that names it. *)
Lemma decide_by_rules_Ask policy call :
  call_gated call = true → decide_by_rules split policy call Ask true = Run →
  ∃ rule, rule ∈ always_allowed policy ∧ allows split rule call = true ∧
    (call_sensitive call = true → is_path_rule rule = true).
Proof.
  intros Hg. unfold decide_by_rules, default_decision. rewrite Hg.
  destruct existsb; [done|].
  destruct (List.find _ (always_allowed policy)) as [rule|] eqn:Hfind.
  - apply find_Some_elem in Hfind as [Hin Hal]. intros Hrun. exists rule. split_and!; [done..|].
    revert Hrun. rewrite (bool_decide_false (Some rule = None)), andb_false_r by done. simpl.
    by destruct (call_sensitive call), (is_path_rule rule).
  - simpl. repeat case_match; naive_solver.
Qed.
End reading.

(** * What the rules guarantee *)

Section rules.
Context (split : string → string + list string).

(** The policies that take part in a decision. *)
Definition policies (rules : ApprovalRules) : list Policy :=
  base rules :: match overlay rules with Some o => [o] | None => [] end.

Lemma elem_of_policies policy rules :
  policy ∈ policies rules → ∃ is_base, ∀ call mode,
    strictness (rules_decide split rules call mode) ≤
    strictness (policy_decide split policy call mode is_base).
Proof.
  unfold policies, rules_decide. intros [->|Hin]%elem_of_cons.
  - exists true. intros call mode. destruct (overlay rules); [|done].
    rewrite decision_min_strictness. lia.
  - destruct (overlay rules) as [o|]; [|by apply elem_of_nil in Hin].
    apply list_elem_of_singleton in Hin as ->. exists false. intros call mode.
    rewrite decision_min_strictness. lia.
Qed.

Lemma rules_decide_Run rules call mode policy :
  rules_decide split rules call mode = Run → policy ∈ policies rules →
  ∃ is_base, policy_decide split policy call mode is_base = Run.
Proof.
  intros Hrun Hin. destruct (elem_of_policies _ _ Hin) as [b Hb]. exists b.
  specialize (Hb call mode). rewrite Hrun in Hb. simpl in Hb.
  destruct policy_decide; simpl in Hb; lia || done.
Qed.

Lemma rules_decide_Run_base rules call mode :
  rules_decide split rules call mode = Run → policy_decide split (base rules) call mode true = Run.
Proof.
  unfold rules_decide. destruct (overlay rules); [|done]. by intros [? _]%decision_min_Run.
Qed.
End rules.

Lemma rules_decide_denied split rules call mode policy rule :
  policy ∈ policies rules → rule ∈ denied policy → denies split rule call = true →
  rules_decide split rules call mode = Deny.
Proof.
  intros Hp Hr Hd. destruct (elem_of_policies split _ _ Hp) as [b Hb]. specialize (Hb call mode).
  rewrite (policy_decide_denied _ _ _ _ _ _ Hr Hd) in Hb. simpl in Hb.
  destruct rules_decide; simpl in Hb; lia || done.
Qed.

(** A denial in the host's policy or in the overlay is final: whatever the
    mode, and whatever either policy allows, the call is denied. *)
Lemma denial_is_final split rules call mode policy rule :
  policy ∈ policies rules → rule ∈ denied policy → denies split rule call = true →
  rules_decide split rules call mode = Deny.
Proof. apply rules_decide_denied. Qed.

(** C1: A shell denial cannot be got around by chaining, quoting or expansion: in
    any mode, a command that runs while some policy denies a shell pattern
    has no expansion, and each of its parts reads as a plain command that the
    pattern does not match. *)
Theorem shell_denial_complete split rules call mode policy pattern command :
  policy ∈ policies rules → RuleShell pattern ∈ denied policy →
  call_tool call = "run_shell" → call_command call = Some command →
  rules_decide split rules call mode = Run →
  string_exists is_expansion command = false ∧
  ∀ part, part ∈ split_on is_separator command →
    ∃ words, split_ok split part = Some words ∧
      (words = [] ∨ ∃ word, head words = Some word ∧ plain_command_word word = true ∧
                      words_match pattern words = false).
Proof.
  intros Hp Hr Htool Hcmd Hrun. destruct (rules_decide_Run _ _ _ _ _ Hrun Hp) as [b Hb].
  apply policy_decide_Run in Hb as (Hden & Hun & _). specialize (Hden _ Hr).
  unfold denies in Hden. rewrite bool_decide_true, Hcmd in Hden by done. simpl in Hden.
  unfold denial_is_uncheckable in Hun. rewrite bool_decide_true, Hcmd in Hun by done.
  assert (existsb is_shell_rule (denied policy) = true) as Hex by (apply existsb_elem_of; eauto).
  rewrite Hex in Hun. apply bool_decide_eq_false in Hun.
  destruct (checked_parts split command) as [parts|] eqn:Hc; [|done].
  apply checked_parts_Some in Hc as (Hexp & Hall & Hparts). split; [done|].
  intros part Hin. rewrite Forall_forall in Hall.
  destruct (Hall _ Hin) as (words & Hs & Hw). exists words. split; [done|].
  destruct Hw as [?|(w & ? & ? & Hel)]; [by left|right]. exists w. split_and!; [done..|].
  rewrite Hparts, existsb_false in Hden. by apply Hden.
Qed.

(** In [ask] mode a call that needs approval runs without a prompt only if the
    host's own always-allowed list matches it, and on a sensitive path only
    if the matching entry names that path; nothing a client adds can do it. *)
Lemma ask_run_is_host_approved split rules call :
  call_gated call = true → rules_decide split rules call Ask = Run →
  ∃ rule, rule ∈ always_allowed (base rules) ∧ allows split rule call = true ∧
    (call_sensitive call = true → is_path_rule rule = true).
Proof.
  intros Hg Hrun%rules_decide_Run_base.
  apply policy_decide_Run in Hrun as (_ & _ & Hrun). by apply decide_by_rules_Ask.
Qed.

(** In [off] mode no call that needs approval runs or prompts. *)
Lemma off_denies_gated split rules call :
  call_gated call = true → rules_decide split rules call Off = Deny.
Proof.
  intros Hg. unfold rules_decide, policy_decide. rewrite decide_by_rules_Off by done.
  destruct denial_is_uncheckable, (overlay rules); reflexivity.
Qed.

(** An overlay can only restrict: the decision with it is at least as strict
    as the host's alone, and one that lists nothing changes nothing. *)
Lemma overlay_only_restricts split policy o call mode :
  strictness (rules_decide split {| base := policy; overlay := Some o |} call mode) ≤
  strictness (rules_decide split {| base := policy; overlay := None |} call mode) ∧
  (always_allowed o = [] → allowed o = None → denied o = [] →
   rules_decide split {| base := policy; overlay := Some o |} call mode =
   rules_decide split {| base := policy; overlay := None |} call mode).
Proof.
  unfold rules_decide. simpl. split; [rewrite decision_min_strictness; lia|].
  intros Hal Hall Hden.
  assert (policy_decide split o call mode false = Run) as ->; [|by destruct policy_decide].
  unfold policy_decide, denial_is_uncheckable, decide_by_rules.
  rewrite Hal, Hall, Hden. simpl. by rewrite andb_false_r.
Qed.

(** An allow pattern never admits a compound command, an expansion or a
    disguised command word: a command a shell entry allows is one simple
    command, whose words match the entry. *)
Lemma allow_pattern_is_simple split pattern call :
  allows split (RuleShell pattern) call = true →
  ∃ command words, call_command call = Some command ∧
    (∀ c, c ∈ chars command → c ∉ SEPARATORS ∧ c ∉ EXPANSIONS) ∧
    split_ok split command = Some words ∧ words_match pattern words = true.
Proof.
  unfold allows. simpl. case_bool_decide; simpl; [|done].
  destruct (call_command call) as [command|]; simpl; [|done].
  destruct (simple_command split command) as [words|] eqn:Hs; [|done].
  apply simple_command_Some in Hs as (Hsep & Hexp & Hs & _). intros Hm.
  exists command, words. split_and!; try done.
  rewrite string_exists_chars, existsb_false in Hsep, Hexp. intros c Hc.
  specialize (Hsep c Hc). specialize (Hexp c Hc).
  by apply bool_decide_eq_false in Hsep, Hexp.
Qed.

(** * Parsing *)


(** What [Rule::parse] accepts: a tool name, a non-empty command pattern, or a
    path pattern for a tool that takes one. *)
Definition rule_ok (rule : Rule) : Prop :=
  match rule with
  | RuleTool tool => tool ≠ ""
  | RuleShell words => words ≠ []
  | RulePath tool pattern => tool ∈ PATH_TOOLS ∧ pattern ≠ ""
  end.

Section parsing.
Context (split : string → string + list string).

Lemma rule_parse_ok entry rule : rule_parse split entry = Done rule → rule_ok rule.
Proof.
  unfold rule_parse.
  destruct (match split_once ":"%char (trim entry) with Some _ => _ | None => _ end)
    as [tool argument] eqn:Harg.
  destruct (bool_decide (tool = "")) eqn:Htool; [done|]. apply bool_decide_eq_false in Htool. simpl.
  destruct (negb _); [done|]. destruct argument as [[|c pattern]|]; [done| |by intros [= <-]].
  case_bool_decide.
  - destruct (split (String c pattern)) as [err|[|w ws]]; try done. by intros [= <-].
  - case_bool_decide; [|done]. by intros [= <-].
Qed.

Lemma rule_parse_no_panic entry : rule_parse split entry ≠ Panic.
Proof.
  unfold rule_parse. destruct (match split_once ":"%char (trim entry) with Some _ => _ | None => _ end)
    as [tool argument]. repeat case_match; done.
Qed.

Lemma outcome_map_Forall {E A B} (f : A → Outcome E B) (P : B → Prop) l ys :
  (∀ x y, f x = Done y → P y) → outcome_map f l = Done ys → Forall P ys ∧ length ys = length l.
Proof.
  intros Hf Hys. apply outcome_map_Done in Hys. induction Hys as [|x y l ys Hx _ [IH Hlen]].
  - done.
  - split; [constructor; [by eapply Hf|done]|]. simpl. lia.
Qed.

Lemma policy_parse_Done config policy warnings :
  policy_parse split config = Done (policy, warnings) →
  outcome_map (rule_parse split) (config_always_allowed config) = Done (always_allowed policy) ∧
  match config_allowed config with
  | None => allowed policy = None
  | Some entries => ∃ rules, outcome_map (rule_parse split) entries = Done rules ∧
                             allowed policy = Some rules
  end ∧
  outcome_map (rule_parse split) (config_denied config) = Done (denied policy) ∧
  warnings = policy_warnings config policy.
Proof.
  unfold policy_parse.
  destruct (outcome_map _ (config_always_allowed config)) eqn:?; simpl; try done.
  destruct (config_allowed config) as [entries|] eqn:He; simpl.
  - destruct (outcome_map _ entries) eqn:?; simpl; try done.
    destruct (outcome_map _ (config_denied config)) eqn:?; simpl; try done.
    intros [= <- <-]. simpl. split_and!; eauto.
  - destruct (outcome_map _ (config_denied config)) eqn:?; simpl; try done.
    intros [= <- <-]. simpl. split_and!; eauto.
Qed.
End parsing.

(** A parsed policy is well formed: every entry of the three lists became one
    rule of the same position, naming a tool and, where it has one, a pattern
    that says something. *)
Lemma policy_parse_well_formed split config policy warnings :
  policy_parse split config = Done (policy, warnings) →
  (Forall rule_ok (always_allowed policy) ∧
   length (always_allowed policy) = length (config_always_allowed config)) ∧
  (Forall rule_ok (default [] (allowed policy)) ∧
   length <$> allowed policy = length <$> config_allowed config) ∧
  (Forall rule_ok (denied policy) ∧ length (denied policy) = length (config_denied config)).
Proof.
  intros (Ha & Hal & Hd & _)%policy_parse_Done.
  pose proof (λ l ys, outcome_map_Forall (rule_parse split) rule_ok l ys (rule_parse_ok split)) as Hok.
  split_and!; try by eapply Hok.
  - destruct (config_allowed config); [|by rewrite Hal].
    destruct Hal as (rules & Hr & ->). by eapply Hok.
  - destruct (config_allowed config); [|by rewrite Hal].
    destruct Hal as (rules & Hr & ->). simpl. f_equal. by eapply Hok.
Qed.

(** A warning is right: each entry parsing reports as overridden is a rule of
    the policy that can never let a call run or prompt, wherever the policy
    takes part. *)
Lemma warned_entry_has_no_effect split config policy warnings text :
  policy_parse split config = Done (policy, warnings) → text ∈ warnings →
  ∃ rule, rule ∈ always_allowed policy ++ default [] (allowed policy) ∧
    ∀ rules mode call, policy ∈ policies rules → allows split rule call = true →
      rules_decide split rules call mode = Deny.
Proof.
  intros (_ & _ & _ & ->)%policy_parse_Done Hin.
  assert (∃ name entry rule, rule ∈ always_allowed policy ++ default [] (allowed policy) ∧
    warning config policy name (entry, rule) = Some text) as (name & entry & rule & Hr & Hw).
  { unfold policy_warnings in Hin. apply elem_of_app in Hin as [Hin|Hin];
      apply list_elem_of_omap in Hin as ([entry rule] & Hz & Hw); apply elem_of_zip_r in Hz;
      (eexists _, entry, rule; split; [|exact Hw]); rewrite elem_of_app; auto. }
  exists rule. split; [done|]. intros rules mode call Hp Hal.
  unfold warning in Hw. apply bind_Some in Hw as ([e denial] & Hf & _).
  apply find_Some_elem in Hf as [Hz Hc].
  eapply (rules_decide_denied split rules call mode policy denial); [done|by eapply elem_of_zip_r|].
  by eapply allows_denies.
Qed.

(** Whether a sensitive path the host always allows still prompts is decided
    by the first always-allowed entry that matches: a bare tool entry listed
    before one that names the path keeps the prompt. *)
Lemma first_always_entry_decides split policy call rule before after :
  always_allowed policy = before ++ rule :: after → denied policy = [] →
  Forall (λ r, allows split r call = false) before → allows split rule call = true →
  call_sensitive call = true →
  policy_decide split policy call Ask true = if is_path_rule rule then Run else Prompt.
Proof.
  intros Hal Hden Hbefore Hrule Hs.
  assert (List.find (λ r, allows split r call) (always_allowed policy) = Some rule) as Hfind.
  { rewrite Hal. clear Hal. induction Hbefore as [|r before Hr _ IH]; simpl; [by rewrite Hrule|].
    by rewrite Hr. }
  unfold policy_decide, denial_is_uncheckable, decide_by_rules. rewrite Hfind, Hden, Hs. simpl.
  rewrite !andb_false_r. by destruct (is_path_rule rule).
Qed.

(** * Concrete inputs *)

(** A splitter for the witnesses: words separated by spaces; a quote makes it
    fail, as an unbalanced one does. *)
Definition space_split (s : string) : string + list string :=
  if string_exists (λ c, bool_decide (c = quote)) s then inl "missing closing quote"
  else inr (filter (λ w, w ≠ "") (split_char " "%char s)).

Definition shell_call (command : string) : CallFacts :=
  {| call_tool := "run_shell"; call_command := Some command; call_path := None;
     call_gated := true; call_sensitive := false |}.

Definition read_call (path : string) : CallFacts :=
  {| call_tool := "read_file"; call_command := None; call_path := Some path;
     call_gated := true; call_sensitive := true |}.

Definition host : Policy :=
  {| always_allowed := [RuleTool "read_file"; RuleShell ["make"; "*"]]; allowed := None;
     denied := [RuleShell ["rm"; "*"]] |}.

Definition host_rules : ApprovalRules := {| base := host; overlay := None |}.

Example policy_table :
  let d := λ command, rules_decide space_split host_rules (shell_call command) <$> [Off; Ask; Auto] in
  (d "make all", d "ls", d "rm -rf x", d "make all; rm x", d "make $(ls)", d "FOO=1 rm x") =
  ([Deny; Run; Run], [Deny; Prompt; Run], [Deny; Deny; Deny], [Deny; Deny; Deny],
   [Deny; Prompt; Deny], [Deny; Prompt; Deny]).
Proof. vm_compute. reflexivity. Qed.

Example rule_parse_examples :
  (rule_parse space_split " run_shell : rm * ", rule_parse space_split "read_file: config/.env",
   rule_parse space_split "run_shell:", rule_parse space_split "bad name") =
  (Done (RuleShell ["rm"; "*"]), Done (RulePath "read_file" "config/.env"),
   Fail (debug_str "run_shell:" +:+ " has nothing after the colon"),
   Fail (debug_str "bad name" +:+ " does not start with a tool name")).
Proof. vm_compute. reflexivity. Qed.

Lemma denial_is_final_witness :
  rules_decide space_split host_rules (shell_call "make all; rm x") Auto = Deny.
Proof.
  apply (denial_is_final space_split host_rules _ Auto host (RuleShell ["rm"; "*"]));
    [by left|by left|vm_compute; reflexivity].
Defined.

Lemma shell_denial_complete_witness :
  string_exists is_expansion "make all" = false ∧
  ∀ part, part ∈ split_on is_separator "make all" →
    ∃ words, split_ok space_split part = Some words ∧
      (words = [] ∨ ∃ word, head words = Some word ∧ plain_command_word word = true ∧
                      words_match ["rm"; "*"] words = false).
Proof.
  apply (shell_denial_complete space_split host_rules (shell_call "make all") Auto host);
    [by left|by left|done|done|vm_compute; reflexivity].
Defined.

Lemma ask_run_is_host_approved_witness :
  ∃ rule, rule ∈ always_allowed host ∧ allows space_split rule (shell_call "make all") = true ∧
    (call_sensitive (shell_call "make all") = true → is_path_rule rule = true).
Proof.
  apply (ask_run_is_host_approved space_split host_rules (shell_call "make all"));
    [done|vm_compute; reflexivity].
Defined.

Lemma off_denies_gated_witness :
  rules_decide space_split host_rules (shell_call "make all") Off = Deny.
Proof. by apply (off_denies_gated space_split host_rules (shell_call "make all")). Defined.

Lemma overlay_only_restricts_witness :
  let o := {| always_allowed := []; allowed := None; denied := [] |} in
  rules_decide space_split {| base := host; overlay := Some o |} (shell_call "ls") Ask =
  rules_decide space_split {| base := host; overlay := None |} (shell_call "ls") Ask.
Proof. by apply (overlay_only_restricts space_split host). Defined.

Lemma allow_pattern_is_simple_witness :
  ∃ command words, call_command (shell_call "make all") = Some command ∧
    (∀ c, c ∈ chars command → c ∉ SEPARATORS ∧ c ∉ EXPANSIONS) ∧
    split_ok space_split command = Some words ∧ words_match ["make"; "*"] words = true.
Proof.
  apply (allow_pattern_is_simple space_split ["make"; "*"] (shell_call "make all")).
  vm_compute. reflexivity.
Defined.

Definition overridden : PolicyConfig :=
  {| config_always_allowed := ["read_file"]; config_allowed := Some ["run_shell: git push"];
     config_denied := ["run_shell: git push"] |}.

Definition overridden_policy : Policy :=
  {| always_allowed := [RuleTool "read_file"]; allowed := Some [RuleShell ["git"; "push"]];
     denied := [RuleShell ["git"; "push"]] |}.

Lemma policy_parse_well_formed_witness :
  Forall rule_ok (denied overridden_policy) ∧
  length (denied overridden_policy) = length (config_denied overridden).
Proof.
  apply (policy_parse_well_formed space_split overridden overridden_policy
    (policy_warnings overridden overridden_policy)). vm_compute. reflexivity.
Defined.

Lemma warned_entry_has_no_effect_witness :
  ∃ rule, rule ∈ always_allowed overridden_policy ++ default [] (allowed overridden_policy) ∧
    ∀ rules mode call, overridden_policy ∈ policies rules → allows space_split rule call = true →
      rules_decide space_split rules call mode = Deny.
Proof.
  apply (warned_entry_has_no_effect space_split overridden overridden_policy
    (policy_warnings overridden overridden_policy)
    ("allowed entry " +:+ debug_str "run_shell: git push" +:+ " has no effect: denied entry " +:+
     debug_str "run_shell: git push" +:+ " overrides it")).
  - vm_compute. reflexivity.
  - vm_compute. by left.
Defined.

Lemma first_always_entry_decides_witness :
  policy_decide space_split
    {| always_allowed := [RuleTool "read_file"; RulePath "read_file" ".env"]; allowed := None;
       denied := [] |} (read_call "/work/.env") Ask true = Prompt.
Proof.
  apply (first_always_entry_decides space_split _ (read_call "/work/.env") (RuleTool "read_file")
    [] [RulePath "read_file" ".env"]); [done|done|constructor|vm_compute; reflexivity|done].
Defined.
