(* ===== verification/Budget.v ===== *)
(** Turn limits and the shared turn budget
    ([crates/xshell-execution/src/budget.rs]).

    A [Duration] is its number of nanoseconds, an [Instant] the nanoseconds of
    a monotonic clock; counts are [usize] values as [N]. The counters of a
    [TurnBudget] are shared by every clone; [step] is the interleaving of the
    compare-exchange loops of any number of threads. *)
From Stdlib Require Import Ascii.
From S2P Require Import Prelude.

Definition U64_MAX : N := 18446744073709551615.
Definition NANOS : N := 1000000000.
Definition from_secs (s : N) : N := s * NANOS.
Definition as_secs (d : N) : N := d / NANOS.
Definition DURATION_MAX : N := U64_MAX * NANOS + 999999999.
Definition MAX_LIMIT_DURATION : N := from_secs (30 * 24 * 60 * 60).

Record TurnLimits := {
  provider_requests : N;
  tool_calls : N;
  tool_calls_per_response : N;
  wall_time : N;
  shell_timeout : N;
  auto_continues : N;
}.

#[export] Instance TurnLimits_eq_dec : EqDecision TurnLimits.
Proof. solve_decision. Defined.

Definition limits_default : TurnLimits := {|
  provider_requests := 128; tool_calls := 256; tool_calls_per_response := 64;
  wall_time := from_secs (60 * 60); shell_timeout := from_secs 60; auto_continues := 2 |}.

Definition limits_relaxed : TurnLimits := {|
  provider_requests := 2000; tool_calls := 5000; tool_calls_per_response := 128;
  wall_time := from_secs (8 * 60 * 60); shell_timeout := from_secs (30 * 60);
  auto_continues := 50 |}.

Definition builtin (name : string) : option TurnLimits :=
  if bool_decide (name = "default") then Some limits_default
  else if bool_decide (name = "relaxed") then Some limits_relaxed
  else None.

Definition limits_min (self ceiling : TurnLimits) : TurnLimits := {|
  provider_requests := provider_requests self `min` provider_requests ceiling;
  tool_calls := tool_calls self `min` tool_calls ceiling;
  tool_calls_per_response := tool_calls_per_response self `min` tool_calls_per_response ceiling;
  wall_time := wall_time self `min` wall_time ceiling;
  shell_timeout := shell_timeout self `min` shell_timeout ceiling;
  auto_continues := auto_continues self `min` auto_continues ceiling |}.

Definition limits_clamp_to (self ceiling : TurnLimits) : TurnLimits * bool :=
  let clamped := limits_min self ceiling in (clamped, negb (bool_decide (clamped = self))).

(** [TurnLimits::validate]: the first offending field, in the order of its two
    loops. *)
Fixpoint check_counts (l : list (string * N)) : Outcome string () :=
  match l with
  | [] => Done ()
  | (name, value) :: l =>
      if bool_decide (value = 0%N) then Fail (name +:+ " must be at least 1") else check_counts l
  end.

Fixpoint check_durations (l : list (string * N)) : Outcome string () :=
  match l with
  | [] => Done ()
  | (name, value) :: l =>
      if (value <? from_secs 1)%N || (MAX_LIMIT_DURATION <? value)%N then
        Fail (name +:+ " must be between 1 second and " +:+
              fmt_N (as_secs MAX_LIMIT_DURATION / 86400) +:+ " days")
      else check_durations l
  end.

Definition limits_validate (l : TurnLimits) : Outcome string () :=
  let! _ := check_counts [("provider_requests", provider_requests l); ("tool_calls", tool_calls l);
                          ("tool_calls_per_response", tool_calls_per_response l)] in
  check_durations [("wall_time", wall_time l); ("shell_timeout", shell_timeout l)].

Record LimitSettings := {
  set_provider_requests : option N;
  set_tool_calls : option N;
  set_tool_calls_per_response : option N;
  set_wall_time : option N;
  set_shell_timeout : option N;
  set_auto_continues : option N;
}.

Definition apply_to (s : LimitSettings) (base : TurnLimits) : Outcome string TurnLimits :=
  let limits := {|
    provider_requests := default (provider_requests base) (set_provider_requests s);
    tool_calls := default (tool_calls base) (set_tool_calls s);
    tool_calls_per_response :=
      default (tool_calls_per_response base) (set_tool_calls_per_response s);
    wall_time := default (wall_time base) (set_wall_time s);
    shell_timeout := default (shell_timeout base) (set_shell_timeout s);
    auto_continues := default (auto_continues base) (set_auto_continues s) |} in
  let! _ := limits_validate limits in Done limits.

(** * Durations as text *)

(** [str::parse::<u64>] of a string of ASCII digits. *)
Definition parse_u64 (digits : list ascii) : option N :=
  if bool_decide (digits = []) then None
  else if (digits_value digits <=? U64_MAX)%N then Some (digits_value digits) else None.

Definition checked_mul_u64 (a b : N) : option N := if (a * b <=? U64_MAX)%N then Some (a * b)%N else None.
Definition checked_add_duration (a b : N) : option N :=
  if (a + b <=? DURATION_MAX)%N then Some (a + b)%N else None.

Definition duration_unit (c : ascii) : option N :=
  if bool_decide (c = "s"%char) then Some 1%N
  else if bool_decide (c = "m"%char) then Some 60%N
  else if bool_decide (c = "h"%char) then Some 3600%N
  else if bool_decide (c = "d"%char) then Some 86400%N
  else None.

(** The loop of [parse_duration], with its [total] and [digits]. *)
Fixpoint parse_duration_loop (text : string) (total : N) (digits cs : list ascii) : Outcome string N :=
  match cs with
  | [] =>
      if negb (bool_decide (digits = [])) then
        Fail (debug_str text +:+ " needs a unit after its last number: s, m, h, or d")
      else Done total
  | c :: cs =>
      if is_ascii_digit c then parse_duration_loop text total (digits ++ [c]) cs
      else match duration_unit c with
           | None =>
               Fail (debug_str text +:+
                 " is not a duration; use a number with s, m, h, or d, such as " +:+ debug_str "30m")
           | Some unit =>
               match parse_u64 digits with
               | None => Fail (debug_str text +:+ " is not a duration; each unit needs a number")
               | Some value =>
                   match seconds ← checked_mul_u64 value unit;
                         checked_add_duration total (from_secs seconds) with
                   | None => Fail (debug_str text +:+ " is too long")
                   | Some total => parse_duration_loop text total [] cs
                   end
               end
           end
  end.

Definition parse_duration (text : string) : Outcome string N :=
  let text := trim text in
  if bool_decide (text = "") then Fail "a duration cannot be empty"
  else parse_duration_loop text 0 [] (chars text).

Definition is_multiple_of (a b : N) : bool := bool_decide (a mod b = 0)%N.

Definition format_span (d : N) : string :=
  let seconds := as_secs d in
  if (3600 <=? seconds)%N && is_multiple_of seconds 3600 then fmt_N (seconds / 3600) +:+ "h"
  else if (60 <=? seconds)%N && is_multiple_of seconds 60 then fmt_N (seconds / 60) +:+ "m"
  else fmt_N seconds +:+ "s".

Definition format_duration (d : N) : string :=
  let seconds := as_secs d in
  if (3600 <=? seconds)%N && is_multiple_of seconds 3600 then fmt_N (seconds / 3600) +:+ "-hour"
  else if (60 <=? seconds)%N && is_multiple_of seconds 60 then fmt_N (seconds / 60) +:+ "-minute"
  else if (0 <? seconds)%N then fmt_N seconds +:+ "-second"
  else fmt_N (d / 1000000) +:+ "-millisecond".

Definition limits_summary (l : TurnLimits) : string :=
  fmt_N (provider_requests l) +:+ " provider requests, " +:+ fmt_N (tool_calls l) +:+
  " tool calls (" +:+ fmt_N (tool_calls_per_response l) +:+ " per response), " +:+
  format_span (wall_time l) +:+ " wall time, " +:+ format_span (shell_timeout l) +:+
  " shell timeout, " +:+ fmt_N (auto_continues l) +:+ " automatic continuations".

(** * The budget *)

Inductive BudgetExhausted : Type :=
| ExProviderRequests (limit : N)
| ExToolCalls (limit : N)
| ExWallTime (d : N).

Definition exhausted_message (e : BudgetExhausted) : string :=
  match e with
  | ExProviderRequests n => "agent turn exhausted its budget of " +:+ fmt_N n +:+ " provider requests"
  | ExToolCalls n => "agent turn exhausted its budget of " +:+ fmt_N n +:+ " tool calls"
  | ExWallTime d => "agent turn exhausted its " +:+ format_duration d +:+ " time budget"
  end.

(** [BudgetInner]. *)
Record TurnBudget := {
  budget_limits : TurnLimits;
  deadline : N;
  requests_used : N;
  calls_used : N;
}.

(** [TurnBudget::new] at clock reading [now]; [clock_max] is the last instant
    the clock can represent. *)
Definition budget_new (clock_max now : N) (limits : TurnLimits) : TurnBudget := {|
  budget_limits := limits;
  deadline := if (now + wall_time limits <=? clock_max)%N then (now + wall_time limits)%N
              else (now + MAX_LIMIT_DURATION)%N;
  requests_used := 0;
  calls_used := 0 |}.

Definition check_time (now : N) (b : TurnBudget) : Outcome BudgetExhausted () :=
  if (deadline b <=? now)%N then Fail (ExWallTime (wall_time (budget_limits b))) else Done ().

(** The closure of [fetch_update] in [charge]. *)
Definition charge (used limit : N) : option N :=
  if (used <? limit)%N then Some (used + 1)%N else None.

(** A charge with no other thread in the way. *)
Definition charge_provider_request (now : N) (b : TurnBudget) : TurnBudget * Outcome BudgetExhausted () :=
  match check_time now b with
  | Done _ =>
      match charge (requests_used b) (provider_requests (budget_limits b)) with
      | Some used =>
          ({| budget_limits := budget_limits b; deadline := deadline b; requests_used := used;
              calls_used := calls_used b |}, Done ())
      | None => (b, Fail (ExProviderRequests (provider_requests (budget_limits b))))
      end
  | r => (b, r)
  end.

Definition charge_tool_call (now : N) (b : TurnBudget) : TurnBudget * Outcome BudgetExhausted () :=
  match check_time now b with
  | Done _ =>
      match charge (calls_used b) (tool_calls (budget_limits b)) with
      | Some used =>
          ({| budget_limits := budget_limits b; deadline := deadline b;
              requests_used := requests_used b; calls_used := used |}, Done ())
      | None => (b, Fail (ExToolCalls (tool_calls (budget_limits b))))
      end
  | r => (b, r)
  end.

(** ** Concurrent charges *)

Inductive Kind : Type := Provider | ToolCall.

#[export] Instance Kind_eq_dec : EqDecision Kind.
Proof. solve_decision. Defined.

(** Where a thread is in [check_time] followed by the [fetch_update] loop. *)
Inductive Pc : Type := PcStart | PcLoad | PcLoaded (used : N) | PcGranted | PcRefused | PcExpired.

#[export] Instance Pc_eq_dec : EqDecision Pc.
Proof. solve_decision. Defined.

Record Shared := {
  budget : TurnBudget;
  now : N;
  threads : list (Kind * Pc);
}.

Definition limit_of (k : Kind) (b : TurnBudget) : N :=
  match k with
  | Provider => provider_requests (budget_limits b)
  | ToolCall => tool_calls (budget_limits b)
  end.

Definition counter (k : Kind) (b : TurnBudget) : N :=
  match k with Provider => requests_used b | ToolCall => calls_used b end.

Definition store (k : Kind) (used : N) (b : TurnBudget) : TurnBudget := {|
  budget_limits := budget_limits b;
  deadline := deadline b;
  requests_used := match k with Provider => used | ToolCall => requests_used b end;
  calls_used := match k with Provider => calls_used b | ToolCall => used end |}.

Definition goto (i : nat) (k : Kind) (pc : Pc) (s : Shared) : Shared :=
  {| budget := budget s; now := now s; threads := <[i := (k, pc)]> (threads s) |}.

(** One atomic action of one thread, or the clock. A weak compare-exchange may
    fail even when the counter still holds the value read. *)
Inductive step : Shared → Shared → Prop :=
| step_tick s t : (now s ≤ t)%N →
    step s {| budget := budget s; now := t; threads := threads s |}
| step_time_ok s i k : threads s !! i = Some (k, PcStart) → (now s < deadline (budget s))%N →
    step s (goto i k PcLoad s)
| step_time_out s i k : threads s !! i = Some (k, PcStart) → (deadline (budget s) ≤ now s)%N →
    step s (goto i k PcExpired s)
| step_load s i k : threads s !! i = Some (k, PcLoad) →
    step s (goto i k (PcLoaded (counter k (budget s))) s)
| step_cas s i k used next : threads s !! i = Some (k, PcLoaded used) →
    charge used (limit_of k (budget s)) = Some next → counter k (budget s) = used →
    step s (goto i k PcGranted
              {| budget := store k next (budget s); now := now s; threads := threads s |})
| step_retry s i k used next : threads s !! i = Some (k, PcLoaded used) →
    charge used (limit_of k (budget s)) = Some next →
    step s (goto i k (PcLoaded (counter k (budget s))) s)
| step_refuse s i k used : threads s !! i = Some (k, PcLoaded used) →
    charge used (limit_of k (budget s)) = None →
    step s (goto i k PcRefused s).

Definition start (clock_max t : N) (limits : TurnLimits) (kinds : list Kind) : Shared :=
  {| budget := budget_new clock_max t limits; now := t; threads := (λ k, (k, PcStart)) <$> kinds |}.

Definition count (k : Kind) (pc : Pc) (s : Shared) : nat :=
  length (filter (λ t, t = (k, pc)) (threads s)).

(** * Limits *)

(** Every limit is at most the other's. *)
Record limits_le (l m : TurnLimits) : Prop := {
  le_provider_requests : (provider_requests l ≤ provider_requests m)%N;
  le_tool_calls : (tool_calls l ≤ tool_calls m)%N;
  le_tool_calls_per_response : (tool_calls_per_response l ≤ tool_calls_per_response m)%N;
  le_wall_time : (wall_time l ≤ wall_time m)%N;
  le_shell_timeout : (shell_timeout l ≤ shell_timeout m)%N;
  le_auto_continues : (auto_continues l ≤ auto_continues m)%N;
}.

(** The limits that can be enforced. *)
Record Enforceable (l : TurnLimits) : Prop := {
  enf_provider_requests : (1 ≤ provider_requests l)%N;
  enf_tool_calls : (1 ≤ tool_calls l)%N;
  enf_tool_calls_per_response : (1 ≤ tool_calls_per_response l)%N;
  enf_wall_time : (from_secs 1 ≤ wall_time l ≤ MAX_LIMIT_DURATION)%N;
  enf_shell_timeout : (from_secs 1 ≤ shell_timeout l ≤ MAX_LIMIT_DURATION)%N;
}.

Lemma check_counts_Done l : check_counts l = Done () ↔ Forall (λ nv, (1 ≤ nv.2)%N) l.
Proof.
  induction l as [|[n v] l IH]; simpl; [done|]. rewrite Forall_cons. simpl.
  case_bool_decide; [split; [done|lia]|]. rewrite IH. intuition lia.
Qed.

Lemma check_durations_Done l :
  check_durations l = Done () ↔ Forall (λ nv, (from_secs 1 ≤ nv.2 ≤ MAX_LIMIT_DURATION)%N) l.
Proof.
  induction l as [|[n v] l IH]; simpl; [done|]. rewrite Forall_cons. simpl.
  destruct (N.ltb_spec v (from_secs 1)), (N.ltb_spec MAX_LIMIT_DURATION v); simpl;
    rewrite ?IH; (split; [try done; intuition lia|intuition lia]).
Qed.

Lemma limits_validate_Done l : limits_validate l = Done () ↔ Enforceable l.
Proof.
  unfold limits_validate.
  destruct (check_counts _) as [[]| |] eqn:Hc; cbn [outcome_bind].
  - apply check_counts_Done in Hc. rewrite check_durations_Done. rewrite !Forall_cons in *.
    simpl in *. split; [intros (? & ? & _); constructor|intros []]; intuition.
  - split; [done|]. intros [H1 H2 H3 _ _]. exfalso.
    assert (check_counts [("provider_requests", provider_requests l); ("tool_calls", tool_calls l);
      ("tool_calls_per_response", tool_calls_per_response l)] = Done ()); [|congruence].
    apply check_counts_Done. by repeat constructor.
  - exfalso. revert Hc. simpl. repeat case_bool_decide; done.
Qed.

(** [clamp_to] yields the greatest limits below both, reports exactly whether
    something was lowered, and keeps enforceable limits enforceable; clamping
    again changes nothing. *)
Lemma clamp_to_greatest_lower (l ceiling : TurnLimits) :
  let '(clamped, lowered) := limits_clamp_to l ceiling in
  limits_le clamped l ∧ limits_le clamped ceiling ∧
  (∀ m, limits_le m l → limits_le m ceiling → limits_le m clamped) ∧
  (lowered = false ↔ limits_le l ceiling) ∧
  limits_clamp_to clamped ceiling = (clamped, false) ∧
  (Enforceable l → Enforceable ceiling → Enforceable clamped).
Proof.
  unfold limits_clamp_to, limits_min. destruct l as [a b c d e f], ceiling as [a' b' c' d' e' f'].
  simpl. split_and!; try (constructor; simpl; lia).
  - intros m [] []. constructor; simpl in *; lia.
  - rewrite negb_false_iff, bool_decide_eq_true. split.
    + intros [=]. constructor; simpl; lia.
    + intros []. simpl in *. f_equal; lia.
  - f_equal; [f_equal; lia|]. apply negb_false_iff, bool_decide_eq_true. f_equal; lia.
  - intros [] []. constructor; simpl in *; lia.
Qed.

(** Settings override exactly the fields they set, over any base, and what is
    accepted can be enforced; a refusal means it could not. *)
Lemma apply_to_spec (s : LimitSettings) (b : TurnLimits) :
  match apply_to s b with
  | Done l =>
      Enforceable l ∧
      provider_requests l = default (provider_requests b) (set_provider_requests s) ∧
      tool_calls l = default (tool_calls b) (set_tool_calls s) ∧
      tool_calls_per_response l =
        default (tool_calls_per_response b) (set_tool_calls_per_response s) ∧
      wall_time l = default (wall_time b) (set_wall_time s) ∧
      shell_timeout l = default (shell_timeout b) (set_shell_timeout s) ∧
      auto_continues l = default (auto_continues b) (set_auto_continues s)
  | Fail _ =>
      ∀ l, provider_requests l = default (provider_requests b) (set_provider_requests s) →
           tool_calls l = default (tool_calls b) (set_tool_calls s) →
           tool_calls_per_response l =
             default (tool_calls_per_response b) (set_tool_calls_per_response s) →
           wall_time l = default (wall_time b) (set_wall_time s) →
           shell_timeout l = default (shell_timeout b) (set_shell_timeout s) → ¬ Enforceable l
  | Panic => False
  end.
Proof.
  unfold apply_to. set (l := Build_TurnLimits _ _ _ _ _ _).
  destruct (limits_validate l) as [[]|e|] eqn:Hv; simpl.
  - apply limits_validate_Done in Hv. done.
  - intros m H1 H2 H3 H4 H5 Hm.
    assert (limits_validate l = Done ()); [|congruence]. apply limits_validate_Done.
    destruct Hm. constructor; simpl; congruence.
  - exfalso. revert Hv. unfold limits_validate, check_counts, check_durations.
    repeat (case_bool_decide || case_match); done.
Qed.

(** * Concurrent charges *)

(** What every interleaving keeps: a counter is exactly the number of charges
    granted and never exceeds its limit, and a refusal means it had reached
    the limit. *)
Record Consistent (s : Shared) : Prop := {
  con_granted k : counter k (budget s) = N.of_nat (count k PcGranted s);
  con_limit k : (counter k (budget s) ≤ limit_of k (budget s))%N;
  con_loaded i k u : threads s !! i = Some (k, PcLoaded u) → (u ≤ counter k (budget s))%N;
  con_refused i k : threads s !! i = Some (k, PcRefused) →
    (limit_of k (budget s) ≤ counter k (budget s))%N;
}.

Lemma count_goto s i k k' pc pc' pc'' :
  threads s !! i = Some (k, pc) →
  count k' pc'' (goto i k pc' s) + (if decide ((k, pc) = (k', pc'')) then 1 else 0) =
  count k' pc'' s + (if decide ((k, pc') = (k', pc'')) then 1 else 0).
Proof. exact (filter_insert_length (λ t, t = (k', pc'')) (threads s) i (k, pc) (k, pc')). Qed.

Lemma charge_Some used limit next : charge used limit = Some next ↔ next = (used + 1)%N ∧ (used < limit)%N.
Proof. unfold charge. destruct (N.ltb_spec used limit); naive_solver lia. Qed.

Lemma charge_None used limit : charge used limit = None ↔ (limit ≤ used)%N.
Proof. unfold charge. destruct (N.ltb_spec used limit); naive_solver lia. Qed.

(** Moving one thread, with the shared budget unchanged. *)
Lemma Consistent_goto s i k pc pc' :
  Consistent s → threads s !! i = Some (k, pc) → pc ≠ PcGranted → pc' ≠ PcGranted →
  (∀ u, pc' = PcLoaded u → (u ≤ counter k (budget s))%N) →
  (pc' = PcRefused → (limit_of k (budget s) ≤ counter k (budget s))%N) →
  Consistent (goto i k pc' s).
Proof.
  intros [Hg Hl Hld Hr] Hi Hpc Hpc' Hu Hrf. split; simpl; try done.
  - intros k'. rewrite Hg. f_equal. pose proof (count_goto s i k k' pc pc' PcGranted Hi) as Hc.
    rewrite !decide_False in Hc by congruence. lia.
  - intros j k' u. destruct (decide (i = j)) as [<-|]; [|rewrite list_lookup_insert_ne by done; eauto].
    intros Hj%list_lookup_insert_Some. naive_solver.
  - intros j k'. destruct (decide (i = j)) as [<-|]; [|rewrite list_lookup_insert_ne by done; eauto].
    intros Hj%list_lookup_insert_Some. naive_solver.
Qed.

Lemma counter_store k k' u b : counter k' (store k u b) = if decide (k = k') then u else counter k' b.
Proof. by destruct k, k'. Qed.

Lemma limit_of_store k k' u b : limit_of k' (store k u b) = limit_of k' b.
Proof. by destruct k'. Qed.

Lemma Consistent_grant s i k used :
  Consistent s → threads s !! i = Some (k, PcLoaded used) → counter k (budget s) = used →
  (used < limit_of k (budget s))%N →
  Consistent (goto i k PcGranted
    {| budget := store k (used + 1) (budget s); now := now s; threads := threads s |}).
Proof.
  intros [Hg Hl Hld Hr] Hi Hu Hlt.
  assert (∀ k', (counter k' (budget s) ≤ counter k' (store k (used + 1) (budget s)))%N) as Hmono.
  { intros k'. rewrite counter_store. case_decide; subst; lia. }
  split; simpl.
  - intros k'. pose proof (count_goto s i k k' _ PcGranted PcGranted Hi) as Hc. unfold count, goto in *.
    simpl in *. rewrite counter_store, (decide_False (P:=(k, PcLoaded used) = _)) in * by congruence.
    specialize (Hg k'). unfold count in Hg.
    destruct (decide (k = k')) as [<-|]; [rewrite decide_True in Hc by done|rewrite decide_False in Hc by congruence]; lia.
  - intros k'. specialize (Hl k'). rewrite counter_store. destruct k, k'; simpl in *; lia.
  - intros j k' u Hj. etrans; [|apply Hmono]. apply list_lookup_insert_Some in Hj as [|[_ Hj]];
      [naive_solver|eauto].
  - intros j k' Hj. apply list_lookup_insert_Some in Hj as [|[_ Hj]]; [naive_solver|].
    transitivity (counter k' (budget s)); [|apply Hmono]. rewrite limit_of_store. eauto.
Qed.

Lemma step_Consistent s s' : Consistent s → step s s' → Consistent s'.
Proof.
  intros Hs Hstep. destruct Hstep; try (by destruct Hs; constructor);
    try (eapply Consistent_goto; [done..|naive_solver|naive_solver]).
  - apply charge_Some in H0 as [-> ?]. by eapply Consistent_grant.
  - eapply Consistent_goto; try done. intros _. apply charge_None in H0.
    pose proof (con_loaded _ Hs _ _ _ H). lia.
Qed.

Lemma start_Consistent clock_max t limits kinds : Consistent (start clock_max t limits kinds).
Proof.
  assert (∀ i k pc, ((λ k, (k, PcStart)) <$> kinds) !! i = Some (k, pc) → pc = PcStart) as Hst.
  { intros i k pc. rewrite list_lookup_fmap, fmap_Some. naive_solver. }
  split; simpl.
  - intros k. unfold count. rewrite filter_none_length; [by destruct k|].
    intros x (k' & -> & _)%list_elem_of_fmap. congruence.
  - intros []; simpl; lia.
  - intros i k u ?%Hst. done.
  - intros i k ?%Hst. done.
Qed.

Lemma reachable_Consistent clock_max t limits kinds s :
  rtc step (start clock_max t limits kinds) s → Consistent s.
Proof.
  intros Hr. assert (Consistent (start clock_max t limits kinds)) as H0 by apply start_Consistent.
  revert H0. induction Hr; eauto using step_Consistent.
Qed.

Lemma step_limit k s s' : step s s' → limit_of k (budget s') = limit_of k (budget s).
Proof. by destruct 1, k. Qed.

Lemma reachable_limit k s s' : rtc step s s' → limit_of k (budget s') = limit_of k (budget s).
Proof. induction 1 as [|s1 s2 s3 Hs _ IH]; [done|]. by rewrite IH, (step_limit k _ _ Hs). Qed.

(** C6: However the charges of concurrent agents interleave, no more are granted
    than the limit allows, and one is refused only when the whole budget has
    been granted. *)
Theorem charges_never_overshoot clock_max t limits kinds s k :
  rtc step (start clock_max t limits kinds) s →
  (N.of_nat (count k PcGranted s) ≤ limit_of k (budget_new clock_max t limits))%N ∧
  (∀ i, threads s !! i = Some (k, PcRefused) →
    N.of_nat (count k PcGranted s) = limit_of k (budget_new clock_max t limits)).
Proof.
  intros Hr. pose proof (reachable_limit k _ _ Hr) as Hlim. simpl in Hlim.
  pose proof (reachable_Consistent _ _ _ _ _ Hr) as [Hg Hl _ Hrf].
  specialize (Hg k). specialize (Hl k). rewrite <-Hlim, <-Hg. split; [done|].
  intros i Hi. specialize (Hrf i k Hi). lia.
Qed.

Definition kind_count (k : Kind) (s : Shared) : nat :=
  length (filter (λ t, t.1 = k) (threads s)).

Lemma kind_count_goto s s0 i k pc pc' k' :
  threads s !! i = Some (k, pc) → threads s0 = threads s →
  kind_count k' (goto i k pc' s0) = kind_count k' s.
Proof.
  intros Hi Hs0. pose proof (filter_insert_length (λ t, t.1 = k') (threads s) i (k, pc) (k, pc') Hi) as Hf.
  unfold kind_count. simpl in *. rewrite Hs0. lia.
Qed.

Lemma step_kind_count k s s' : step s s' → kind_count k s' = kind_count k s.
Proof. destruct 1; try done; by eapply kind_count_goto. Qed.

Lemma reachable_kind_count k s s' : rtc step s s' → kind_count k s' = kind_count k s.
Proof. induction 1 as [|s1 s2 s3 Hs _ IH]; [done|]. by rewrite IH, (step_kind_count k _ _ Hs). Qed.

(** When every charge of a kind has been answered before the deadline, exactly
    as many were granted as were asked for or as the limit allows. *)
Lemma charges_exact clock_max t limits kinds s k :
  rtc step (start clock_max t limits kinds) s →
  (∀ i pc, threads s !! i = Some (k, pc) → pc = PcGranted ∨ pc = PcRefused) →
  N.of_nat (count k PcGranted s) =
    (N.of_nat (length (filter (λ k', k' = k) kinds)) `min` limit_of k (budget_new clock_max t limits))%N.
Proof.
  intros Hr Hdone. pose proof (reachable_limit k _ _ Hr) as Hlim. simpl in Hlim.
  pose proof (reachable_Consistent _ _ _ _ _ Hr) as [Hg Hl _ Hrf].
  specialize (Hg k). specialize (Hl k). rewrite <-Hlim, <-Hg in *.
  assert (kind_count k s = length (filter (λ k', k' = k) kinds)) as <-.
  { rewrite (reachable_kind_count k _ _ Hr). unfold kind_count. simpl. clear.
    induction kinds as [|k' kinds IH]; [done|]. rewrite fmap_cons, !filter_cons. simpl.
    case_decide; simpl; lia. }
  destruct (decide ((k, PcRefused) ∈ threads s)) as [[i Hi]%list_elem_of_lookup|Hno].
  - specialize (Hrf i k Hi). assert (count k PcGranted s ≤ kind_count k s) as Hle; [|lia].
    unfold count, kind_count. apply filter_length_impl. naive_solver.
  - assert (count k PcGranted s = kind_count k s) as Heq; [|lia].
    unfold count, kind_count. apply filter_length_iff. intros [k' pc] Hin. simpl.
    split; [naive_solver|]. intros ->. pose proof Hin as [i Hi]%list_elem_of_lookup.
    destruct (Hdone _ _ Hi) as [->| ->]; [done|]. by destruct Hno.
Qed.

(** The sequential charge of a kind, and how a thread records its answer. *)
Definition charge_of (k : Kind) : N → TurnBudget → TurnBudget * Outcome BudgetExhausted () :=
  match k with Provider => charge_provider_request | ToolCall => charge_tool_call end.

Definition answer (k : Kind) (r : Outcome BudgetExhausted ()) : Pc :=
  match r with
  | Done _ => PcGranted
  | Fail (ExWallTime _) => PcExpired
  | _ => PcRefused
  end.

Lemma charge_of_cases k t b :
  charge_of k t b =
    if (deadline b <=? t)%N then (b, Fail (ExWallTime (wall_time (budget_limits b))))
    else match charge (counter k b) (limit_of k b) with
         | Some used => (store k used b, Done ())
         | None => (b, Fail (match k with Provider => ExProviderRequests | ToolCall => ExToolCalls end
                               (limit_of k b)))
         end.
Proof.
  destruct k; unfold charge_of, charge_provider_request, charge_tool_call, check_time; simpl;
    destruct (deadline b <=? t)%N; try done; by destruct charge.
Qed.

Lemma goto_goto i k pc k' pc' s : goto i k' pc' (goto i k pc s) = goto i k' pc' s.
Proof. unfold goto. simpl. by rewrite list_insert_insert_eq. Qed.

Lemma solo_run s i k :
  threads s !! i = Some (k, PcStart) →
  let r := charge_of k (now s) (budget s) in
  rtc step s (goto i k (answer k r.2) {| budget := r.1; now := now s; threads := threads s |}).
Proof.
  intros Hi r. subst r. rewrite charge_of_cases. pose proof (lookup_lt_Some _ _ _ Hi) as Hlt.
  destruct (N.leb_spec (deadline (budget s)) (now s)) as [Hd|Hd].
  { simpl. apply rtc_once. destruct s. by apply step_time_out. }
  eapply rtc_l; [by apply step_time_ok|].
  eapply rtc_l; [apply step_load; by apply list_lookup_insert_eq|]. rewrite goto_goto. simpl.
  assert (threads (goto i k (PcLoaded (counter k (budget s))) s) !! i =
    Some (k, PcLoaded (counter k (budget s)))) as Hi' by by apply list_lookup_insert_eq.
  destruct (charge (counter k (budget s)) (limit_of k (budget s))) as [next|] eqn:Hc; simpl.
  - apply rtc_once. pose proof (step_cas _ _ _ _ next Hi' Hc eq_refl) as Hs.
    revert Hs. unfold goto. simpl. by rewrite list_insert_insert_eq.
  - apply rtc_once. pose proof (step_refuse _ _ _ _ Hi' Hc) as Hs. rewrite goto_goto in Hs.
    by destruct s, k.
Qed.

(** A thread that runs without interference answers its charge, whatever the
    state it finds: with the result and the budget of
    [charge_provider_request] or [charge_tool_call]. *)
Lemma solo_charge_is_sequential s i k :
  threads s !! i = Some (k, PcStart) →
  let r := charge_of k (now s) (budget s) in
  rtc step s (goto i k (answer k r.2) {| budget := r.1; now := now s; threads := threads s |}).
Proof. apply solo_run. Qed.

(** * Durations round trip *)

Section durations.
Context (text : string).

Lemma duration_loop_digits ds cs total digits :
  Forall (λ c, is_ascii_digit c = true) ds →
  parse_duration_loop text total digits (ds ++ cs) = parse_duration_loop text total (digits ++ ds) cs.
Proof.
  intros Hds. revert digits. induction Hds as [|c ds Hc _ IH]; intros digits; simpl.
  - by rewrite app_nil_r.
  - by rewrite Hc, IH, <-app_assoc.
Qed.

Lemma unit_not_digit c u : duration_unit c = Some u → is_ascii_digit c = false.
Proof.
  unfold duration_unit. repeat case_bool_decide; intros; simplify_eq; done.
Qed.

(** One number and its unit. *)
Lemma duration_loop_item n c u cs total :
  duration_unit c = Some u → (n * u ≤ U64_MAX)%N → (1 ≤ u)%N →
  (total + from_secs (n * u) ≤ DURATION_MAX)%N →
  parse_duration_loop text total [] (chars (fmt_N n) ++ c :: cs) =
  parse_duration_loop text (total + from_secs (n * u)) [] cs.
Proof.
  intros Hu Hmul H1 Htot. destruct (fmt_N_digits n) as (Hds & Hv & Hne).
  rewrite duration_loop_digits by done. simpl. rewrite (unit_not_digit _ _ Hu), Hu.
  unfold parse_u64. rewrite bool_decide_false by done. rewrite Hv.
  destruct (N.leb_spec n U64_MAX); [|nia].
  unfold checked_mul_u64, checked_add_duration. destruct (N.leb_spec (n * u) U64_MAX); [|lia].
  simpl. destruct (N.leb_spec (total + from_secs (n * u)) DURATION_MAX); [done|lia].
Qed.
End durations.

Lemma digit_dark c : is_ascii_digit c = true → dark c.
Proof. unfold is_ascii_digit, in_range, dark. rewrite andb_true_iff, !N.leb_le. lia. Qed.

Lemma unit_dark c u : duration_unit c = Some u → dark c.
Proof. unfold duration_unit. repeat case_bool_decide; intros; simplify_eq; done. Qed.

Lemma trim_item n c u : duration_unit c = Some u →
  trim (fmt_N n +:+ String c "") = fmt_N n +:+ String c "".
Proof.
  intros Hu. destruct (fmt_N_digits n) as (Hds & _ & Hne).
  assert (chars (fmt_N n +:+ String c "") = chars (fmt_N n) ++ [c]) as Hch by apply chars_app.
  destruct (chars (fmt_N n)) as [|d ds]; [done|]. simpl in Hch.
  eapply trim_dark; [exact Hch| |].
  - apply digit_dark. by inversion Hds.
  - intros e. rewrite app_comm_cons, last_snoc. intros [= <-]. by eapply unit_dark.
Qed.

Lemma parse_duration_item n c u :
  duration_unit c = Some u → (1 ≤ u)%N → (n * u ≤ U64_MAX)%N →
  parse_duration (fmt_N n +:+ String c "") = Done (from_secs (n * u)).
Proof.
  intros Hu H1 Hn. unfold parse_duration. rewrite (trim_item _ _ _ Hu).
  rewrite bool_decide_false.
  2: { intros Hs%(f_equal chars). rewrite chars_app in Hs. by destruct (chars (fmt_N n)). }
  rewrite chars_app. rewrite (duration_loop_item _ n c u [] 0 Hu Hn H1); [done|].
  unfold from_secs, DURATION_MAX. simpl. nia.
Qed.

(** What configuration writes, configuration reads back: formatting any
    duration and parsing the text gives its whole seconds, so a duration of
    whole seconds survives unchanged. *)
Lemma duration_roundtrip (d : N) :
  (d ≤ DURATION_MAX)%N → parse_duration (format_span d) = Done (from_secs (as_secs d)).
Proof.
  intros Hd. assert (as_secs d ≤ U64_MAX)%N as Hs.
  { unfold as_secs, DURATION_MAX, NANOS in *. apply N.lt_succ_r, N.Div0.div_lt_upper_bound. lia. }
  unfold format_span. set (s := as_secs d) in *.
  assert (∀ u, (u ≠ 0)%N → is_multiple_of s u = true → (s / u * u)%N = s) as Hdiv.
  { intros u Hu Hm%bool_decide_eq_true. rewrite (N.div_mod s u) at 2 by done. lia. }
  destruct ((3600 <=? s)%N && is_multiple_of s 3600) eqn:Hh.
  { apply andb_true_iff in Hh as [_ Hm%Hdiv]; [|done].
    rewrite (parse_duration_item _ "h"%char 3600); rewrite ?Hm; done. }
  destruct ((60 <=? s)%N && is_multiple_of s 60) eqn:Hmin.
  { apply andb_true_iff in Hmin as [_ Hm%Hdiv]; [|done].
    rewrite (parse_duration_item _ "m"%char 60); rewrite ?Hm; done. }
  rewrite (parse_duration_item _ "s"%char 1); rewrite ?N.mul_1_r; done.
Qed.

Lemma duration_roundtrip_witness : parse_duration (format_span (from_secs 5400)) = Done (from_secs 5400).
Proof. apply (duration_roundtrip (from_secs 5400)). vm_compute. discriminate. Defined.

Example parse_duration_examples :
  (parse_duration "1h30m", parse_duration " 45s ", parse_duration "2d", format_span (from_secs 5400),
   match parse_duration "1h30" with Fail _ => true | _ => false end,
   match parse_duration "99999999999999999999h" with Fail _ => true | _ => false end) =
  (Done (from_secs 5400), Done (from_secs 45), Done (from_secs 172800), "90m", true, true).
Proof. vm_compute. reflexivity. Qed.

(** * Concrete inputs *)

Definition two_calls : TurnLimits := {|
  provider_requests := 1; tool_calls := 1; tool_calls_per_response := 1;
  wall_time := from_secs 1; shell_timeout := from_secs 1; auto_continues := 0 |}.

(** Two agents race for the single tool call of a budget; the first wins. *)
Definition race_end : Shared :=
  {| budget := store ToolCall 1 (budget_new (from_secs 10) 0 two_calls); now := 0;
     threads := [(ToolCall, PcGranted); (ToolCall, PcRefused)] |}.

Lemma race_reachable : rtc step (start (from_secs 10) 0 two_calls [ToolCall; ToolCall]) race_end.
Proof.
  etrans.
  - apply (solo_run (start (from_secs 10) 0 two_calls [ToolCall; ToolCall]) 0 ToolCall). reflexivity.
  - apply (solo_run {| budget := store ToolCall 1 (budget_new (from_secs 10) 0 two_calls); now := 0;
      threads := [(ToolCall, PcGranted); (ToolCall, PcStart)] |} 1 ToolCall). reflexivity.
Qed.

Lemma charges_never_overshoot_witness :
  (N.of_nat (count ToolCall PcGranted race_end) ≤
    limit_of ToolCall (budget_new (from_secs 10) 0 two_calls))%N.
Proof.
  apply (charges_never_overshoot (from_secs 10) 0 two_calls [ToolCall; ToolCall] race_end ToolCall).
  exact race_reachable.
Defined.

Lemma charges_exact_witness :
  N.of_nat (count ToolCall PcGranted race_end) = 1%N.
Proof.
  rewrite (charges_exact (from_secs 10) 0 two_calls [ToolCall; ToolCall] race_end ToolCall).
  - reflexivity.
  - exact race_reachable.
  - intros [|[|i]] pc; simpl; naive_solver.
Defined.

Lemma solo_charge_is_sequential_witness :
  rtc step (start (from_secs 10) 0 two_calls [ToolCall])
    {| budget := store ToolCall 1 (budget_new (from_secs 10) 0 two_calls); now := 0;
       threads := [(ToolCall, PcGranted)] |}.
Proof.
  apply (solo_charge_is_sequential (start (from_secs 10) 0 two_calls [ToolCall]) 0 ToolCall).
  reflexivity.
Defined.
