(* ===== verification/CallId.v ===== *)
(** Turn-unique tool-call ids ([crates/xshell-execution/src/call_id.rs]). *)
From Stdlib Require Import Ascii.
From S2P Require Import Prelude.

(** [xshell_core::ToolCall]; [A] is the type of its JSON arguments. *)
Record ToolCall (A : Type) := {
  call_id : string;
  call_name : string;
  call_arguments : A;
}.
Arguments Build_ToolCall {A}.
Arguments call_id {A}.
Arguments call_name {A}.
Arguments call_arguments {A}.

Record CallIds := {
  scope : option string;
  seen : gset string;
}.

Definition call_ids_new (scope : option string) : CallIds := {| scope := scope; seen := ∅ |}.

Definition suffixed (base : string) (n : nat) : string := base +:+ "~" +:+ fmt_nat n.

(** [(first..).map(..).find(..)]: the first unused suffix. [fuel] bounds the
    search; [None] stands for its [expect]. *)
Fixpoint find_suffix (fuel : nat) (base : string) (n : nat) (used : gset string) : option string :=
  match fuel with
  | O => None
  | S fuel =>
      if bool_decide (suffixed base n ∈ used) then find_suffix fuel base (S n) used
      else Some (suffixed base n)
  end.

(** The id before its scope. *)
Definition fresh_id (used : gset string) (id : string) : option string :=
  let '(base, first_suffix) := if bool_decide (id = "") then ("call", 1) else (id, 2) in
  if bool_decide (id = "") || bool_decide (base ∈ used)
  then find_suffix (S (size used)) base first_suffix used
  else Some base.

Definition with_scope (scope : option string) (id : string) : string :=
  match scope with Some s => s +:+ "/" +:+ id | None => id end.

(** [CallIds::scoped]. *)
Definition scoped {A} (ids : CallIds) (call : ToolCall A) : Outcome () (ToolCall A * CallIds) :=
  let! id := expect (fresh_id (seen ids) (call_id call)) in
  Done ({| call_id := with_scope (scope ids) id; call_name := call_name call;
           call_arguments := call_arguments call |},
        {| scope := scope ids; seen := {[id]} ∪ seen ids |}).

(** The calls of a turn, in order. *)
Fixpoint scoped_all {A} (ids : CallIds) (calls : list (ToolCall A)) : Outcome () (list (ToolCall A)) :=
  match calls with
  | [] => Done []
  | call :: calls =>
      let! r := scoped ids call in
      let! rest := scoped_all r.2 calls in
      Done (r.1 :: rest)
  end.

(** * Strings *)

#[export] Instance string_app_inj s : Inj (=) (=) (String.append s).
Proof. induction s as [|c s IH]; [by intros ??|]. intros x y [= ?%IH]. done. Qed.

#[export] Instance suffixed_inj base : Inj (=) (=) (suffixed base).
Proof. intros n m Heq%(inj (String.append base))%(inj (String.append "~")). by apply (inj pretty). Qed.

#[export] Instance with_scope_inj sc : Inj (=) (=) (with_scope sc).
Proof. intros x y. destruct sc as [s|]; [|done]. simpl. by intros ?%(inj (String.append s))%(inj (String.append "/")). Qed.

(** * The search *)

Lemma find_suffix_fresh fuel base n used id :
  find_suffix fuel base n used = Some id → id ∉ used ∧ ∃ m, n ≤ m ∧ id = suffixed base m.
Proof.
  revert n. induction fuel as [|fuel IH]; intros n; simpl; [done|]. case_bool_decide.
  - intros Hf. destruct (IH _ Hf) as (? & m & ? & ?). split; [done|]. exists m. split; [lia|done].
  - intros [= <-]. split; [done|]. by exists n.
Qed.

(** Fewer than [fuel] used ids cannot use up [fuel] suffixes. *)
Lemma find_suffix_total base used fuel n :
  size used < fuel → is_Some (find_suffix fuel base n used).
Proof.
  intros Hsize. destruct (find_suffix fuel base n used) eqn:Hf; [by eexists|]. exfalso.
  assert (Hall : ∀ i, i < fuel → suffixed base (n + i) ∈ used).
  { clear Hsize. revert n Hf. induction fuel as [|fuel IH]; intros n Hf i Hi; [lia|].
    simpl in Hf. case_bool_decide; [|done]. destruct i as [|i]; [by rewrite Nat.add_0_r|].
    rewrite Nat.add_succ_r. apply (IH (S n)); [done|lia]. }
  set (l := (λ i, suffixed base (n + i)) <$> seq 0 fuel).
  assert (NoDup l) as Hnd.
  { apply NoDup_fmap_2; [|apply NoDup_seq]. intros i j ?%(inj _). lia. }
  assert (size (list_to_set l : gset string) ≤ size used) as Hle.
  { apply subseteq_size. intros x. rewrite elem_of_list_to_set. subst l.
    intros (i & -> & Hi%elem_of_seq)%list_elem_of_fmap. apply Hall. lia. }
  rewrite size_list_to_set in Hle by done. subst l. rewrite length_fmap, length_seq in Hle. lia.
Qed.

Lemma fresh_id_total used id : ∃ id', fresh_id used id = Some id' ∧ id' ∉ used.
Proof.
  unfold fresh_id.
  destruct (if bool_decide (id = "") then _ else _) as [base n] eqn:Hb.
  destruct (bool_decide (id = "") || bool_decide (base ∈ used)) eqn:Hc.
  - destruct (find_suffix_total base used (S (size used)) n ltac:(lia)) as [id' Hf].
    exists id'. split; [done|]. by apply find_suffix_fresh in Hf as [? _].
  - exists base. split; [done|]. apply orb_false_iff in Hc as [_ Hc]. by apply bool_decide_eq_false in Hc.
Qed.

Lemma scoped_total {A} ids (call : ToolCall A) :
  ∃ id, id ∉ seen ids ∧
    scoped ids call =
      Done ({| call_id := with_scope (scope ids) id; call_name := call_name call;
               call_arguments := call_arguments call |},
            {| scope := scope ids; seen := {[id]} ∪ seen ids |}).
Proof.
  destruct (fresh_id_total (seen ids) (call_id call)) as (id & Hid & Hnew).
  exists id. split; [done|]. unfold scoped. by rewrite Hid.
Qed.

Lemma scoped_all_fresh {A} ids (calls : list (ToolCall A)) :
  ∃ news, scoped_all ids calls = Done (zip_with (λ call id,
      {| call_id := with_scope (scope ids) id; call_name := call_name call;
         call_arguments := call_arguments call |}) calls news) ∧
    length news = length calls ∧ NoDup news ∧ ∀ id, id ∈ news → id ∉ seen ids.
Proof.
  revert ids. induction calls as [|call calls IH]; intros ids; simpl.
  { exists []. split_and!; [done..|constructor|]. by intros ? ?%elem_of_nil. }
  destruct (scoped_total ids call) as (id & Hid & ->). simpl.
  destruct (IH {| scope := scope ids; seen := {[id]} ∪ seen ids |}) as (news & Hall & Hlen & Hnd & Hnew).
  rewrite Hall. exists (id :: news). simpl in *. split_and!; [done|lia| |].
  - constructor; [|done]. intros Hin%Hnew. set_solver.
  - intros id' [->|Hin]%elem_of_cons; [done|]. apply Hnew in Hin. set_solver.
Qed.

(** Whatever ids a provider sends, scoping never panics, keeps every call's
    name and arguments, and gives the calls of a turn pairwise distinct ids. *)
Lemma scoped_ids_unique {A} sc (calls : list (ToolCall A)) :
  ∃ out, scoped_all (call_ids_new sc) calls = Done out ∧
    NoDup (call_id <$> out) ∧
    call_name <$> out = call_name <$> calls ∧ call_arguments <$> out = call_arguments <$> calls.
Proof.
  destruct (scoped_all_fresh (call_ids_new sc) calls) as (news & -> & Hlen & Hnd & _).
  eexists. split; [done|]. simpl. split_and!.
  - assert (call_id <$> zip_with (λ call id, {| call_id := with_scope sc id;
      call_name := call_name call; call_arguments := call_arguments call |}) calls news =
      with_scope sc <$> news) as ->.
    { clear Hnd. revert news Hlen. induction calls as [|c calls IH]; intros [|n news] ?; simplify_eq/=;
        [done|]. f_equal. by apply IH. }
    by apply (NoDup_fmap_2 _).
  - clear Hnd. revert news Hlen. induction calls as [|c calls IH]; intros [|n news] ?; simplify_eq/=;
      [done|]. f_equal. by apply IH.
  - clear Hnd. revert news Hlen. induction calls as [|c calls IH]; intros [|n news] ?; simplify_eq/=;
      [done|]. f_equal. by apply IH.
Qed.

(** The first occurrence of an id keeps it. *)
Lemma first_id_unchanged {A} ids (call : ToolCall A) :
  call_id call ≠ "" → call_id call ∉ seen ids →
  ∃ ids', scoped ids call = Done ({| call_id := with_scope (scope ids) (call_id call);
      call_name := call_name call; call_arguments := call_arguments call |}, ids') ∧
    call_id call ∈ seen ids'.
Proof.
  intros Hne Hns. unfold scoped, fresh_id. rewrite (bool_decide_false (call_id call = "")) by done.
  simpl. rewrite bool_decide_false by done. simpl. eexists. split; [done|]. simpl. set_solver.
Qed.

Lemma first_id_unchanged_witness :
  ∃ ids', scoped (call_ids_new (Some "s"))
      {| call_id := "call_a"; call_name := "run_shell"; call_arguments := 7 |} =
    Done ({| call_id := "s/call_a"; call_name := "run_shell"; call_arguments := 7 |}, ids') ∧
    "call_a" ∈ seen ids'.
Proof.
  apply (first_id_unchanged (call_ids_new (Some "s"))
    {| call_id := "call_a"; call_name := "run_shell"; call_arguments := 7 |}); [done|set_solver].
Defined.

(** * Scopes *)

Definition has_slash (s : string) : bool := contains_char "/"%char s.

Lemma has_slash_app s x : has_slash (s +:+ x) = has_slash s || has_slash x.
Proof. apply contains_char_app. Qed.

Lemma last_slash s s' x y :
  has_slash x = false → has_slash y = false →
  s +:+ "/" +:+ x = s' +:+ "/" +:+ y → s = s' ∧ x = y.
Proof.
  intros Hx Hy. revert s'. induction s as [|c s IH]; intros [|d s'];
    rewrite ?append_cons, ?append_nil.
  - by intros [= ->].
  - intros [= _ ->]. by rewrite has_slash_app, orb_true_r in Hx.
  - intros [= _ <-]. by rewrite has_slash_app, orb_true_r in Hy.
  - intros [= -> Heq]. by destruct (IH _ Heq) as [-> ->].
Qed.

Lemma with_scope_split sc sc' x y :
  has_slash x = false → has_slash y = false →
  with_scope sc x = with_scope sc' y → sc = sc' ∧ x = y.
Proof.
  intros Hx Hy. destruct sc as [s|], sc' as [s'|]; simpl; intros Heq; [|subst..|done].
  - by destruct (last_slash _ _ _ _ Hx Hy Heq) as [-> ->].
  - by rewrite has_slash_app, orb_true_r in Hy.
  - by rewrite has_slash_app, orb_true_r in Hx.
Qed.

Lemma digits_no_slash n : has_slash (fmt_nat n) = false.
Proof.
  unfold has_slash, contains_char. rewrite string_exists_chars, existsb_false.
  intros c Hc. destruct (fmt_N_digits (N.of_nat n)) as (Hds & _ & _). rewrite Forall_forall in Hds.
  specialize (Hds c Hc). apply bool_decide_eq_false. by intros ->.
Qed.

Lemma fresh_id_no_slash used id id' :
  has_slash id = false → fresh_id used id = Some id' → has_slash id' = false.
Proof.
  intros Hid. unfold fresh_id.
  destruct (if bool_decide (id = "") then _ else _) as [base n] eqn:Hb.
  assert (has_slash base = false) as Hbase by (revert Hb; case_bool_decide; intros; by simplify_eq).
  destruct (_ || _); [|by intros [= <-]].
  intros (_ & m & _ & ->)%find_suffix_fresh. unfold suffixed.
  by rewrite !has_slash_app, Hbase, digits_no_slash.
Qed.

(** Agents with different scopes, nested ones included, never use the same id
    as long as no provider id holds a [/]. *)
Lemma scopes_keep_agents_apart {A} (ids ids' : CallIds) (call call' : ToolCall A) out out' n n' :
  has_slash (call_id call) = false → has_slash (call_id call') = false →
  scope ids ≠ scope ids' →
  scoped ids call = Done (out, n) → scoped ids' call' = Done (out', n') →
  call_id out ≠ call_id out'.
Proof.
  intros Hc Hc' Hne. unfold scoped.
  destruct (fresh_id (seen ids) (call_id call)) as [x|] eqn:Hx; [|done].
  destruct (fresh_id (seen ids') (call_id call')) as [y|] eqn:Hy; [|done]. simpl.
  intros [= <- _] [= <- _]. simpl. intros Heq. apply Hne.
  eapply (with_scope_split _ _ x y); [exact (fresh_id_no_slash _ _ _ Hc Hx)|exact (fresh_id_no_slash _ _ _ Hc' Hy)|done].
Qed.

Definition sample_call (id : string) : ToolCall nat :=
  {| call_id := id; call_name := "read_file"; call_arguments := 0 |}.

Lemma scopes_keep_agents_apart_witness : "delegate-1/x" ≠ "delegate-1/delegate-1/x".
Proof.
  refine (scopes_keep_agents_apart (call_ids_new (Some "delegate-1"))
    (call_ids_new (Some "delegate-1/delegate-1")) (sample_call "x") (sample_call "x")
    (sample_call "delegate-1/x") (sample_call "delegate-1/delegate-1/x") _ _
    eq_refl eq_refl _ eq_refl eq_refl). done.
Defined.

(** A provider id that holds a [/] can: one that spells a child's scoped id
    collides with it, although each agent numbers its own calls distinctly. *)
Lemma unscoped_id_can_collide {A} (name : string) (arguments : A) sc id :
  id ≠ "" →
  let mk := λ id, {| call_id := id; call_name := name; call_arguments := arguments |} in
  scoped_all (call_ids_new None) [mk (with_scope (Some sc) id)] =
  scoped_all (call_ids_new (Some sc)) [mk id].
Proof.
  intros Hid mk. simpl.
  assert (with_scope (Some sc) id ≠ "") as Hne by by destruct sc.
  unfold scoped, fresh_id. simpl. rewrite !bool_decide_false by done. done.
Qed.

Lemma unscoped_id_can_collide_witness :
  scoped_all (call_ids_new None)
    [{| call_id := "delegate-1/x"; call_name := "read_file"; call_arguments := 0 |}] =
  scoped_all (call_ids_new (Some "delegate-1"))
    [{| call_id := "x"; call_name := "read_file"; call_arguments := 0 |}].
Proof. by apply (unscoped_id_can_collide "read_file" 0 "delegate-1" "x"). Defined.
