(* ===== verification/Chat.v ===== *)
(** Chat messages ([ChatMessage] and its constructors in
    [crates/xshell-core/src/lib.rs]) and the invariant providers ask of a
    transcript: every tool call is answered, in order, right after the message
    that made it, and nothing else is a tool result. *)
From Stdlib Require Import Ascii.
From S2P Require Import Prelude CallId.

Inductive MessageRole : Type := RoleSystem | RoleUser | RoleAssistant | RoleTool.

#[export] Instance MessageRole_eq_dec : EqDecision MessageRole.
Proof. solve_decision. Defined.

Section chat.
(** The JSON arguments of tool calls. *)
Context {A : Type}.

Record ChatMessage := {
  msg_role : MessageRole;
  msg_content : string;
  msg_tool_calls : list (ToolCall A);
  msg_tool_call_id : option string;
  msg_tool_name : option string;
  msg_reasoning : option string;
}.

Definition plain_message (role : MessageRole) (content : string) : ChatMessage := {|
  msg_role := role; msg_content := content; msg_tool_calls := [];
  msg_tool_call_id := None; msg_tool_name := None; msg_reasoning := None;
|}.

Definition msg_system (content : string) : ChatMessage := plain_message RoleSystem content.
Definition msg_user (content : string) : ChatMessage := plain_message RoleUser content.
Definition msg_assistant (content : string) : ChatMessage := plain_message RoleAssistant content.

Definition assistant_with_tools (content : string) (tool_calls : list (ToolCall A)) :
    ChatMessage := {|
  msg_role := RoleAssistant; msg_content := content; msg_tool_calls := tool_calls;
  msg_tool_call_id := None; msg_tool_name := None; msg_reasoning := None;
|}.

(** Blank reasoning is stored as [None]. *)
Definition with_reasoning (m : ChatMessage) (reasoning : option string) : ChatMessage := {|
  msg_role := msg_role m; msg_content := msg_content m; msg_tool_calls := msg_tool_calls m;
  msg_tool_call_id := msg_tool_call_id m; msg_tool_name := msg_tool_name m;
  msg_reasoning :=
    match reasoning with
    | Some text => if blank text then None else Some text
    | None => None
    end;
|}.

Definition tool_result (call : ToolCall A) (content : string) : ChatMessage := {|
  msg_role := RoleTool; msg_content := content; msg_tool_calls := [];
  msg_tool_call_id := Some (call_id call); msg_tool_name := Some (call_name call);
  msg_reasoning := None;
|}.

Definition set_content (content : string) (m : ChatMessage) : ChatMessage := {|
  msg_role := msg_role m; msg_content := content; msg_tool_calls := msg_tool_calls m;
  msg_tool_call_id := msg_tool_call_id m; msg_tool_name := msg_tool_name m;
  msg_reasoning := msg_reasoning m;
|}.

(** [reasoning.take()]. *)
Definition take_reasoning (m : ChatMessage) : ChatMessage := {|
  msg_role := msg_role m; msg_content := msg_content m; msg_tool_calls := msg_tool_calls m;
  msg_tool_call_id := msg_tool_call_id m; msg_tool_name := msg_tool_name m;
  msg_reasoning := None;
|}.

Record AssistantResponse := {
  resp_content : string;
  resp_tool_calls : list (ToolCall A);
  resp_reasoning : option string;
  resp_finish_reason : option string;
}.

(** * Paired transcripts *)

(** The ids a message asks results for. *)
Definition called_ids (m : ChatMessage) : list string :=
  match msg_role m with RoleAssistant => call_id <$> msg_tool_calls m | _ => [] end.

(** The ids still unanswered after a transcript that starts with [pending]
    unanswered; [None] when a message comes where it may not. *)
Fixpoint unanswered (pending : list string) (h : list ChatMessage) : option (list string) :=
  match h with
  | [] => Some pending
  | m :: h =>
      match pending, msg_role m with
      | id :: pending, RoleTool =>
          if bool_decide (msg_tool_call_id m = Some id) then unanswered pending h else None
      | [], RoleTool | _ :: _, _ => None
      | [], _ => unanswered (called_ids m) h
      end
  end.

Definition Paired (h : list ChatMessage) : Prop := unanswered [] h = Some [].

#[export] Instance Paired_dec h : Decision (Paired h).
Proof. unfold Paired. apply _. Defined.

Lemma unanswered_app pending h k :
  unanswered pending (h ++ k) = (p ← unanswered pending h; unanswered p k).
Proof.
  revert pending. induction h as [|m h IH]; intros pending; [done|]. simpl.
  destruct pending as [|id pending], (msg_role m); simpl; try done.
  by case_bool_decide.
Qed.

Lemma Paired_app h k : Paired h → Paired k → Paired (h ++ k).
Proof. unfold Paired. intros Hh Hk. by rewrite unanswered_app, Hh. Qed.

(** Where a message other than a result stands, nothing is unanswered. *)
Lemma unanswered_split pending h m k p :
  msg_role m ≠ RoleTool → unanswered pending (h ++ m :: k) = Some p →
  unanswered pending h = Some [] ∧ unanswered [] (m :: k) = Some p.
Proof.
  intros Hm. rewrite unanswered_app. destruct (unanswered pending h) as [q|]; [|done].
  simpl. destruct q as [|id q]; [done|]. by destruct (msg_role m).
Qed.

Lemma Paired_split h m k : msg_role m ≠ RoleTool → Paired (h ++ m :: k) → Paired h ∧ Paired (m :: k).
Proof. intros Hm Hp. by eapply unanswered_split. Qed.

(** Two messages in the same place of the conversation. *)
Record SamePlace (m m' : ChatMessage) : Prop := {
  same_role : msg_role m' = msg_role m;
  same_calls : msg_tool_calls m' = msg_tool_calls m;
  same_call_id : msg_tool_call_id m' = msg_tool_call_id m;
  same_tool_name : msg_tool_name m' = msg_tool_name m;
}.

#[export] Instance SamePlace_equivalence : Equivalence SamePlace.
Proof. split; [done|by intros ?? []; split|intros ??? [] []; split; by etrans]. Qed.

Lemma set_content_place content m : SamePlace m (set_content content m).
Proof. done. Qed.

Lemma take_reasoning_place m : SamePlace m (take_reasoning m).
Proof. done. Qed.

Lemma unanswered_same_place pending h h' :
  Forall2 SamePlace h h' → unanswered pending h' = unanswered pending h.
Proof.
  intros HF. revert pending. induction HF as [|m m' h h' [Hr Hc Hi _] _ IH]; intros pending; [done|].
  simpl. unfold called_ids. rewrite Hr, Hc, Hi. destruct pending, (msg_role m); rewrite ?IH; done.
Qed.

Lemma Paired_same_place h h' : Forall2 SamePlace h h' → Paired h → Paired h'.
Proof. unfold Paired. intros HF. by rewrite (unanswered_same_place _ _ _ HF). Qed.

(** The results of calls, in order, answer them. *)
Lemma unanswered_results calls (results : ToolCall A → string) pending :
  unanswered ((call_id <$> calls) ++ pending) ((λ call, tool_result call (results call)) <$> calls) =
  Some pending.
Proof.
  induction calls as [|call calls IH]; [done|]. rewrite !fmap_cons. simpl.
  by rewrite bool_decide_true.
Qed.
End chat.
Arguments ChatMessage : clear implicits.
Arguments AssistantResponse : clear implicits.

#[export] Hint Resolve set_content_place take_reasoning_place : core.
