(* ===== verification/Compaction.v ===== *)
(** Conversation compaction ([crates/xshell-execution/src/compaction.rs]).

    Byte counts are [usize] values as [N]; a subtraction that would underflow
    is a panic. [args_text] is [serde_json::Value::to_string] on the arguments
    of a call, and [schema_overhead] the value [tool_schema_overhead_tokens]
    computes once from the serialised tool definitions. *)
From Stdlib Require Import Ascii.
From S2P Require Import Prelude CallId Chat.

Definition BYTES_PER_TOKEN : N := 3.
Definition REQUEST_OVERHEAD_TOKENS : N := 1024.
Definition MINIMUM_HISTORY_TOKENS : N := 256.
Definition DEFAULT_RESERVE_OUTPUT_TOKENS : N := 1024.
Definition HISTORY_NUMERATOR : N := 9.
Definition HISTORY_DENOMINATOR : N := 10.
Definition MINIMUM_HISTORY_BYTES : N := 1024.

Definition ELIDED_MARKER : string := "[xshell: tool result elided by history compaction]".
Definition TRUNCATED_MARKER : string :=
  String newline "[xshell: tool result truncated to fit the history budget]".
Definition OVERFLOW_DROPPED_MARKER : string :=
  "[xshell: tool result dropped because the request exceeded the model's context window]".

(** [usize::MAX] of a 64-bit target. *)
Definition USIZE_MAX : N := 18446744073709551615.

Definition saturating_add (a b : N) : N := N.min (a + b) USIZE_MAX.
Definition saturating_mul (a b : N) : N := N.min (a * b) USIZE_MAX.

(** [a - b] on [usize]. *)
Definition checked_sub {E} (a b : N) : Outcome E N :=
  if (b <=? a)%N then Done (a - b)%N else Panic.

(** [str::len]. *)
Definition str_len (s : string) : N := N.of_nat (String.length s).

(** [is_char_boundary]: the byte at the index starts a character. *)
Definition starts_character (c : ascii) : bool := (code c <? 128)%N || (192 <=? code c)%N.
Definition is_char_boundary (s : string) (i : nat) : bool :=
  match i with
  | O => true
  | _ => match String.get i s with
         | Some c => starts_character c
         | None => bool_decide (i = String.length s)
         end
  end.

(** [while cut > 0 && !is_char_boundary(cut) { cut -= 1 }]. *)
Fixpoint floor_boundary (s : string) (cut : nat) : nat :=
  match cut with
  | O => O
  | S cut' => if is_char_boundary s cut then cut else floor_boundary s cut'
  end.

(** [String::truncate]: no effect past the end, a panic inside a character. *)
Definition truncate_at {E} (s : string) (i : nat) : Outcome E string :=
  if i <=? String.length s then
    if is_char_boundary s i then Done (String.substring 0 i s) else Panic
  else Done s.

Record CompactionReport := {
  report_compactor : string;
  messages_before : nat;
  messages_after : nat;
  bytes_before : N;
  bytes_after : N;
  turns_removed : nat;
}.

(** [(bytes + 2) / 3], saturating. *)
Definition estimate_tokens (bytes : N) : N :=
  (saturating_add bytes (BYTES_PER_TOKEN - 1) / BYTES_PER_TOKEN)%N.

Section compaction.
Context {A : Type} (args_text : A → string).
Abbreviation Message := (ChatMessage A).
Abbreviation Result := (Outcome Empty_set).

Definition call_bytes (call : ToolCall A) : N :=
  (str_len (call_name call) + str_len (args_text (call_arguments call)))%N.

Definition sum_N (l : list N) : N := foldr N.add 0%N l.

Definition reasoning_bytes (m : Message) : N :=
  match msg_reasoning m with Some text => str_len text | None => 0%N end.

Definition message_bytes (m : Message) : N :=
  (str_len (msg_content m) + reasoning_bytes m + sum_N (call_bytes <$> msg_tool_calls m))%N.

Definition history_bytes (h : list Message) : N := sum_N (message_bytes <$> h).

Definition estimate_history_tokens (h : list Message) : N := estimate_tokens (history_bytes h).

(** The indices of the messages with a role, counted from [i]. *)
Fixpoint role_indices (role : MessageRole) (i : nat) (h : list Message) : list nat :=
  match h with
  | [] => []
  | m :: h =>
      if bool_decide (msg_role m = role) then i :: role_indices role (S i) h
      else role_indices role (S i) h
  end.

Definition turn_starts (h : list Message) : nat * list nat :=
  let starts := role_indices RoleUser 0 h in
  (default (length h) (head starts), starts).

(** [iter().rposition(|m| m.role == role)]. *)
Definition last_index (role : MessageRole) (h : list Message) : option nat :=
  last (role_indices role 0 h).

(** ** Eliding payloads *)

(** The first loop: the messages after it, the running total, and how many
    were changed. *)
Fixpoint elide_results (newest : option nat) (max_bytes : N) (i : nat) (total : N)
    (h : list Message) : Result (list Message * N * nat) :=
  match h with
  | [] => Done ([], total, 0)
  | m :: h =>
      let keep := let! r := elide_results newest max_bytes (S i) total h in
                  let '(h, total, changed) := r in Done (m :: h, total, changed) in
      if (total <=? max_bytes)%N then Done (m :: h, total, 0)
      else if bool_decide (newest = Some i) then keep
      else if negb (bool_decide (msg_role m = RoleTool)) ||
              (str_len (msg_content m) <=? str_len ELIDED_MARKER)%N then keep
      else
        let! less := checked_sub total (str_len (msg_content m)) in
        let! r := elide_results newest max_bytes (S i) (less + str_len ELIDED_MARKER)%N h in
        let '(h, total, changed) := r in
        Done (set_content ELIDED_MARKER m :: h, total, S changed)
  end.

(** Truncating the newest tool result. *)
Definition truncate_newest (newest : option nat) (max_bytes total : N) (h : list Message) :
    Result (list Message * N * nat) :=
  match newest with
  | Some index =>
      if (total <=? max_bytes)%N then Done (h, total, 0)
      else
        let! m := expect (h !! index) in
        let! others := checked_sub total (message_bytes m) in
        let budget := (max_bytes - others)%N in
        let len := str_len (msg_content m) in
        if (budget <? len)%N && (str_len TRUNCATED_MARKER <? budget)%N then
          let cut := N.to_nat (N.min (budget - str_len TRUNCATED_MARKER) len) in
          let! kept := truncate_at (msg_content m) (floor_boundary (msg_content m) cut) in
          let content := kept +:+ TRUNCATED_MARKER in
          let! less := checked_sub total len in
          Done (<[index := set_content content m]> h, (less + str_len content)%N, 1)
        else Done (h, total, 0)
  | None => Done (h, total, 0)
  end.

(** The last loop: dropping reasoning replay. *)
Fixpoint drop_reasoning (max_bytes total : N) (h : list Message) :
    Result (list Message * N * nat) :=
  match h with
  | [] => Done ([], total, 0)
  | m :: h =>
      if (total <=? max_bytes)%N then Done (m :: h, total, 0)
      else
        match msg_reasoning m with
        | Some reasoning =>
            let! less := checked_sub total (str_len reasoning) in
            let! r := drop_reasoning max_bytes less h in
            let '(h, total, changed) := r in Done (take_reasoning m :: h, total, S changed)
        | None =>
            let! r := drop_reasoning max_bytes total h in
            let '(h, total, changed) := r in Done (m :: h, total, changed)
        end
  end.

Definition elide_oversized_bodies (h : list Message) (max_bytes : N) :
    Result (list Message * nat) :=
  let total := history_bytes h in
  if (total <=? max_bytes)%N then Done (h, 0)
  else
    let newest := last_index RoleTool h in
    let! r := elide_results newest max_bytes 0 total h in
    let '(h, total, elided) := r in
    let! r := truncate_newest newest max_bytes total h in
    let '(h, total, truncated) := r in
    let! r := drop_reasoning max_bytes total h in
    let '(h, total, dropped) := r in
    Done (h, elided + truncated + dropped).

(** [drop_tool_payloads]: the messages and how many changed. *)
Definition drop_tool_payload (m : Message) : Message * bool :=
  let touched := bool_decide (is_Some (msg_reasoning m)) in
  let m := take_reasoning m in
  if bool_decide (msg_role m = RoleTool) &&
     negb (bool_decide (msg_content m = OVERFLOW_DROPPED_MARKER))
  then (set_content OVERFLOW_DROPPED_MARKER m, true)
  else (m, touched).

Definition drop_tool_payloads (h : list Message) : list Message * nat :=
  (fst ∘ drop_tool_payload <$> h, length (filter (λ m, (drop_tool_payload m).2 = true) h)).

(** ** Evicting turns *)

(** The first turn, from index [turn], that leaves a history within the
    budget. *)
Fixpoint first_fitting (prefix_bytes max_bytes : N) (h : list Message) (turn : nat)
    (starts : list nat) : option nat :=
  match starts with
  | [] => None
  | start :: starts =>
      if (prefix_bytes + history_bytes (drop start h) <=? max_bytes)%N then Some turn
      else first_fitting prefix_bytes max_bytes h (S turn) starts
  end.

(** [drain(prefix..cut)]. *)
Definition drain {B} (h : list B) (from to : nat) : Result (list B) :=
  if (from <=? to) && (to <=? length h) then Done (take from h ++ drop to h) else Panic.

Definition evict_turns (h : list Message) (max_bytes : N) : Result (list Message * nat) :=
  let '(prefix, starts) := turn_starts h in
  if 2 <=? length starts then
    let prefix_bytes := history_bytes (take prefix h) in
    let keep_from_turn :=
      default (length starts - 1) (first_fitting prefix_bytes max_bytes h 0 starts) in
    if 0 <? keep_from_turn then
      let! cut := expect (starts !! keep_from_turn) in
      let! h := drain h prefix cut in
      Done (h, keep_from_turn)
    else Done (h, 0)
  else Done (h, 0).

Definition compact_to (name : string) (h : list Message) (max_bytes : N) :
    Result (list Message * option CompactionReport) :=
  let before := history_bytes h in
  if (before <=? max_bytes)%N then Done (h, None)
  else
    let! r := evict_turns h max_bytes in
    let '(evicted, removed) := r in
    let! r := elide_oversized_bodies evicted max_bytes in
    let '(after, elided) := r in
    if bool_decide (removed = 0) && bool_decide (elided = 0) then Done (after, None)
    else Done (after, Some {|
      report_compactor := name;
      messages_before := length h; messages_after := length after;
      bytes_before := before; bytes_after := history_bytes after;
      turns_removed := removed |}).

(** ** The interface *)

(** [trait Compactor], as a record of its operations. *)
Record Compactor := {
  compactor_name : string;
  compactor_max_bytes : option N;
  compact : list Message → Result (list Message * option CompactionReport);
  compact_overflow : list Message → Result (list Message * option CompactionReport);
}.

Definition MaxBytesCompactor (max_bytes : N) : Compactor :=
  let name := "max_history_bytes" in {|
  compactor_name := name;
  compactor_max_bytes := Some max_bytes;
  compact h := compact_to name h max_bytes;
  compact_overflow h := compact_to name h (N.max (max_bytes / 2) MINIMUM_HISTORY_BYTES);
|}.

(** [compact_overflow] is the trait's default: [compact] again. *)
Definition NoCompaction : Compactor := {|
  compactor_name := "none";
  compactor_max_bytes := None;
  compact h := Done (h, None);
  compact_overflow h := Done (h, None);
|}.

(** ** Configuration *)

Record ModelBudget := {
  model_max_history_bytes : option N;
  model_context_tokens : option N;
  model_reserve_output_tokens : option N;
}.

Record CompactionConfig := {
  max_history_bytes : option N;
  context_tokens : option N;
  reserve_output_tokens : N;
}.

Definition config_default : CompactionConfig := {|
  max_history_bytes := None; context_tokens := None;
  reserve_output_tokens := DEFAULT_RESERVE_OUTPUT_TOKENS |}.

(** The budget of a window of [tokens]; [N] subtraction saturates at 0. *)
Definition derived_budget (schema_overhead reserve tokens : N) : N :=
  let usable := N.max (tokens - reserve - schema_overhead) MINIMUM_HISTORY_TOKENS in
  saturating_mul (saturating_mul usable HISTORY_NUMERATOR / HISTORY_DENOMINATOR)%N BYTES_PER_TOKEN.

Definition effective_max_bytes (schema_overhead : N) (c : CompactionConfig) : option N :=
  let derived := derived_budget schema_overhead (reserve_output_tokens c) <$> context_tokens c in
  match max_history_bytes c, derived with
  | Some bytes, derived =>
      if (bytes =? 0)%N then None
      else match derived with Some d => Some (N.min bytes d) | None => Some bytes end
  | None, derived => derived
  end.

Definition build (schema_overhead : N) (c : CompactionConfig) : Compactor :=
  match effective_max_bytes schema_overhead c with
  | Some max_bytes => if (0 <? max_bytes)%N then MaxBytesCompactor max_bytes else NoCompaction
  | None => NoCompaction
  end.

Definition for_model (c : CompactionConfig) (model : ModelBudget) : CompactionConfig := {|
  max_history_bytes := match model_max_history_bytes model with
                       | Some b => Some b | None => max_history_bytes c end;
  context_tokens := match model_context_tokens model with
                    | Some t => Some t | None => context_tokens c end;
  reserve_output_tokens := default (reserve_output_tokens c) (model_reserve_output_tokens model);
|}.
End compaction.
Arguments Compactor : clear implicits.
