(* ===== verification/CompactionSpec.v ===== *)
(** What compaction guarantees: it never panics, removes only whole turns and
    only the oldest, keeps every remaining message in its place, and stops
    above its budget only when nothing it may touch is left. *)
From Stdlib Require Import Ascii.
From S2P Require Import Prelude CallId Chat Compaction.

Section spec.
Context {A : Type} (args_text : A → string).
Abbreviation Message := (ChatMessage A).
Abbreviation history_bytes := (history_bytes args_text).
Abbreviation message_bytes := (message_bytes args_text).
Implicit Types (m : Message) (h : list Message).

(** What a tool result's text may become: itself, the marker for a result that
    was elided, or a beginning of it with the marker for a result that was cut;
    always shorter. *)
Inductive Shortened (s : string) : string → Prop :=
| shortened_not : Shortened s s
| shortened_elided : (str_len ELIDED_MARKER < str_len s)%N → Shortened s ELIDED_MARKER
| shortened_cut kept rest :
    s = kept +:+ rest → (str_len (kept +:+ TRUNCATED_MARKER) < str_len s)%N →
    Shortened s (kept +:+ TRUNCATED_MARKER).

Lemma str_len_app s t : str_len (s +:+ t) = (str_len s + str_len t)%N.
Proof.
  unfold str_len. induction s as [|c s IH]; [done|].
  rewrite append_cons. simpl String.length. lia.
Qed.

Lemma string_app_front a b c d : a +:+ b = c +:+ d → (str_len a ≤ str_len c)%N → ∃ x, c = a +:+ x.
Proof.
  revert c. unfold str_len. induction a as [|x a IH]; intros c; [by exists c|]. destruct c as [|y c]; simpl; [lia|].
  intros [= -> H] Hl. destruct (IH c H) as [z ->]; [lia|]. by exists z.
Qed.

Lemma shortened_trans s t u : Shortened s t → Shortened t u → Shortened s u.
Proof.
  assert (str_len ELIDED_MARKER < str_len TRUNCATED_MARKER)%N as Hm by (by vm_compute).
  intros H1 H2. destruct H1 as [|Hs|kept rest -> Hs]; [done|..]; inversion H2 as [|Ht|kept' rest' Heq Ht]; subst.
  - by apply shortened_elided.
  - done.
  - rewrite str_len_app in Ht. lia.
  - by eapply shortened_cut.
  - apply shortened_elided. lia.
  - rewrite !str_len_app in *. destruct (string_app_front kept' rest' kept TRUNCATED_MARKER) as [x ->]; [done|lia|].
    eapply shortened_cut; [apply append_assoc|]. rewrite !str_len_app in *. lia.
Qed.

(** [m'] is [m] with less in it: only results lose text, and reasoning can only
    go. *)
Record Shrunk m m' : Prop := {
  shrunk_place : SamePlace m m';
  shrunk_content : msg_content m' = msg_content m ∨ msg_role m = RoleTool ∧ Shortened (msg_content m) (msg_content m');
  shrunk_reasoning : msg_reasoning m' = msg_reasoning m ∨ msg_reasoning m' = None;
}.

#[export] Instance Shrunk_reflexive : Reflexive Shrunk.
Proof. split; [done|by left|by left]. Qed.

#[export] Instance Shrunk_transitive : Transitive Shrunk.
Proof.
  intros m m' m'' [Hp Hc Hr] [Hp' Hc' Hr']. split; [by etrans| |].
  - destruct Hc' as [->|[Ht Hc']]; [done|]. right. rewrite (same_role _ _ Hp) in Ht. split; [done|].
    destruct Hc as [Hc|[_ Hc]]; [by rewrite <-Hc|by eapply shortened_trans].
  - destruct Hr' as [->| ->]; auto.
Qed.

(** The three ways a message loses something. *)
Definition Elides m m' : Prop :=
  m' = m ∨ msg_role m = RoleTool ∧ (str_len ELIDED_MARKER < str_len (msg_content m))%N ∧ m' = set_content ELIDED_MARKER m.
Definition Cuts m m' : Prop :=
  m' = m ∨ msg_role m = RoleTool ∧ ∃ kept rest, msg_content m = kept +:+ rest ∧
    (str_len (kept +:+ TRUNCATED_MARKER) < str_len (msg_content m))%N ∧ m' = set_content (kept +:+ TRUNCATED_MARKER) m.
Definition Forgets m m' : Prop := m' = m ∨ is_Some (msg_reasoning m) ∧ m' = take_reasoning m.

Lemma elides_shrunk m m' : Elides m m' → Shrunk m m'.
Proof. intros [->|(Hr & Hl & ->)]; [done|]. split; [done|right; split; [done|by apply shortened_elided]|by left]. Qed.
Lemma cuts_shrunk m m' : Cuts m m' → Shrunk m m'.
Proof.
  intros [->|(Hr & kept & rest & Hc & Hl & ->)]; [done|].
  split; [done|right; split; [done|by eapply shortened_cut]|by left].
Qed.
Lemma forgets_shrunk m m' : Forgets m m' → Shrunk m m'.
Proof. intros [->|[_ ->]]; [done|]. split; [done|by left|by right]. Qed.

(** A pass from the oldest message on changed one only while the budget was
    exceeded. *)
Definition Needed (max_bytes : N) h h' : Prop :=
  ∀ j m m', h !! j = Some m → h' !! j = Some m' → m' ≠ m → (max_bytes < history_bytes (take j h' ++ drop j h))%N.

Lemma shrunk_same_place h h' : Forall2 Shrunk h h' → Forall2 SamePlace h h'.
Proof. intros HF. eapply Forall2_impl; [exact HF|]. by intros ?? []. Qed.

(** * Byte counts *)

Lemma history_bytes_cons m h : history_bytes (m :: h) = (message_bytes m + history_bytes h)%N.
Proof. done. Qed.

Lemma history_bytes_app h k : history_bytes (h ++ k) = (history_bytes h + history_bytes k)%N.
Proof.
  induction h as [|m h IH]; [done|]. cbn [app]. rewrite !history_bytes_cons, IH. lia.
Qed.

Lemma message_bytes_content content m :
  (message_bytes (set_content content m) + str_len (msg_content m) =
   message_bytes m + str_len content)%N.
Proof. unfold Compaction.message_bytes, reasoning_bytes. simpl. lia. Qed.

Lemma message_bytes_reasoning reasoning m :
  msg_reasoning m = Some reasoning →
  message_bytes m = (message_bytes (take_reasoning m) + str_len reasoning)%N.
Proof. intros Hr. unfold Compaction.message_bytes, reasoning_bytes. rewrite Hr. simpl. lia. Qed.

Lemma content_le_message m : (str_len (msg_content m) ≤ message_bytes m)%N.
Proof. unfold Compaction.message_bytes. lia. Qed.

Lemma history_bytes_insert h i m m' :
  h !! i = Some m →
  (history_bytes (<[i := m']> h) + message_bytes m = history_bytes h + message_bytes m')%N.
Proof.
  intros Hi. rewrite insert_take_drop by (by eapply lookup_lt_Some).
  rewrite <-(take_drop_middle h i m Hi) at 3.
  rewrite !history_bytes_app, !history_bytes_cons. lia.
Qed.

Lemma checked_sub_Done {E} a b : (b ≤ a)%N → checked_sub (E := E) a b = Done (a - b)%N.
Proof. intros Hb. unfold checked_sub. by rewrite (proj2 (N.leb_le b a)). Qed.

(** * Strings cut at character boundaries *)

Lemma floor_boundary_le s i : floor_boundary s i ≤ i.
Proof. induction i as [|i IH]; cbn [floor_boundary]; [lia|]. case_match; lia. Qed.

Lemma floor_boundary_boundary s i : is_char_boundary s (floor_boundary s i) = true.
Proof. induction i as [|i IH]; cbn [floor_boundary]; [done|]. by case_match. Qed.

Lemma length_substring n s : n ≤ String.length s → String.length (String.substring 0 n s) = n.
Proof.
  revert s. induction n as [|n IH]; intros [|c s] Hn; simpl in *; try lia.
  rewrite IH; lia.
Qed.

Lemma substring_front n s : ∃ rest, s = String.substring 0 n s +:+ rest.
Proof.
  revert s. induction n as [|n IH]; intros [|c s]; simpl; [by exists ""|by exists (String c s)|by exists ""|].
  destruct (IH s) as [rest Hrest]. exists rest. by rewrite append_cons, <-Hrest.
Qed.

Lemma truncate_floor {E} s i :
  i ≤ String.length s → ∃ kept rest, truncate_at (E := E) s (floor_boundary s i) = Done kept ∧
    String.length kept ≤ i ∧ s = kept +:+ rest.
Proof.
  intros Hi. pose proof (floor_boundary_le s i). destruct (substring_front (floor_boundary s i) s) as [rest Hrest].
  exists (String.substring 0 (floor_boundary s i) s), rest.
  unfold truncate_at. rewrite floor_boundary_boundary, (proj2 (Nat.leb_le _ _)) by lia.
  split_and!; [done| |done]. rewrite length_substring; lia.
Qed.

(** * The passes over payloads

    What each returns: the messages, shrunk; a total that balances; and the
    number of changes. *)
Record Pass (h : list Message) (total : N) (h' : list Message) (total' : N) (changed : nat) : Prop := {
  pass_shrunk : Forall2 Shrunk h h';
  pass_balance : (total' + history_bytes h = total + history_bytes h')%N;
  pass_total : (total' ≤ total)%N;
  pass_unchanged : changed = 0 → h' = h;
}.

Lemma Pass_refl h total : Pass h total h total 0.
Proof. by split. Qed.

Lemma Pass_keep m h total h' total' n : Pass h total h' total' n → Pass (m :: h) total (m :: h') total' n.
Proof.
  intros [Hs Hb Ht Hu]. split; [by constructor| |done|].
  - rewrite !history_bytes_cons. lia.
  - intros Hn. by rewrite Hu.
Qed.

Lemma Pass_change m m' less h total h' total' n :
  Shrunk m m' → (less + message_bytes m = total + message_bytes m')%N → (less ≤ total)%N →
  Pass h less h' total' n → Pass (m :: h) total (m' :: h') total' (S n).
Proof.
  intros Hm Hbal Hle [Hs Hb Ht Hu]. split; [by constructor| |lia|done].
  rewrite !history_bytes_cons. lia.
Qed.

Lemma Pass_trans h total h' total' n h'' total'' n' :
  Pass h total h' total' n → Pass h' total' h'' total'' n' → Pass h total h'' total'' (n + n').
Proof.
  intros [Hs Hb Ht Hu] [Hs' Hb' Ht' Hu']. split; [by etrans|lia|lia|].
  intros Hn. rewrite Hu', Hu; [done|lia..].
Qed.

(** [Needed], when the running total of the messages is [total]. *)
Definition NeededAt (max_bytes total : N) h h' : Prop :=
  ∀ j m m', h !! j = Some m → h' !! j = Some m' → m' ≠ m →
    (max_bytes + history_bytes h < total + history_bytes (take j h' ++ drop j h))%N.

Lemma needed_same max_bytes total h : NeededAt max_bytes total h h.
Proof. intros j m m' Hm Hm'. congruence. Qed.

Lemma needed_cons max_bytes total less m m' h h' :
  (m' ≠ m → (max_bytes < total)%N) → (less + message_bytes m = total + message_bytes m')%N →
  NeededAt max_bytes less h h' → NeededAt max_bytes total (m :: h) (m' :: h').
Proof.
  intros H0 Hbal Hn [|j] x x'; simpl.
  - intros [= <-] [= <-] Hne. specialize (H0 Hne). lia.
  - intros Hx Hx' Hne. specialize (Hn j x x' Hx Hx' Hne). rewrite !history_bytes_cons. lia.
Qed.

Lemma needed_keep max_bytes total m h h' : NeededAt max_bytes total h h' → NeededAt max_bytes total (m :: h) (m :: h').
Proof. by apply needed_cons. Qed.

Lemma needed_exact max_bytes h h' : NeededAt max_bytes (history_bytes h) h h' → Needed max_bytes h h'.
Proof. intros Hn j m m' Hm Hm' Hne. specialize (Hn j m m' Hm Hm' Hne). lia. Qed.

Lemma Forall2_same (R : Message → Message → Prop) h : (∀ m, R m m) → Forall2 R h h.
Proof. intros HR. by apply Forall_Forall2_diag, Forall_true. Qed.

(** A result that elision leaves alone. *)
Definition SmallResult m : Prop :=
  msg_role m = RoleTool → (str_len (msg_content m) ≤ str_len ELIDED_MARKER)%N.

Lemma elide_results_spec newest max_bytes i total h :
  (history_bytes h ≤ total)%N → ∃ h' total' n,
    elide_results newest max_bytes i total h = Done (h', total', n) ∧ Pass h total h' total' n ∧
    Forall2 Elides h h' ∧ NeededAt max_bytes total h h' ∧ (∀ j, newest = Some (i + j) → h' !! j = h !! j) ∧
    ((total' ≤ max_bytes)%N ∨
     ∀ j m, h' !! j = Some m → newest ≠ Some (i + j) → SmallResult m).
Proof.
  revert i total. induction h as [|m h IH]; intros i total Htot; simpl.
  { exists [], total, 0. split_and!; [done|apply Pass_refl|constructor|apply needed_same|done|by right]. }
  rewrite history_bytes_cons in Htot.
  destruct (N.leb_spec total max_bytes) as [Hfit|Hover].
  { exists (m :: h), total, 0.
    split_and!; [done|apply Pass_refl|apply Forall2_same; by left|apply needed_same|done|by left]. }
  assert (Hkeep : newest = Some i ∨ SmallResult m → ∃ h' total' n,
    (let! r := elide_results newest max_bytes (S i) total h in
     let '(h, total, changed) := r in Done (m :: h, total, changed)) =
      Done (E := Empty_set) (h', total', n) ∧ Pass (m :: h) total h' total' n ∧
    Forall2 Elides (m :: h) h' ∧ NeededAt max_bytes total (m :: h) h' ∧
    (∀ j, newest = Some (i + j) → h' !! j = (m :: h) !! j) ∧
    ((total' ≤ max_bytes)%N ∨ ∀ j x, h' !! j = Some x → newest ≠ Some (i + j) → SmallResult x)).
  { intros Hm. destruct (IH (S i) total) as (h' & t' & n & -> & Hpass & HE & HN & Hsame & Hstop); [lia|].
    exists (m :: h'), t', n.
    split_and!; [done|by apply Pass_keep|by constructor; [left|]|by apply needed_keep| |].
    - intros [|j] Hj; simpl; [done|]. apply Hsame. by rewrite Hj, Nat.add_succ_r.
    - destruct Hstop as [?|Hstop]; [by left|right]. intros [|j] x; simpl.
      + intros [= <-] Hne. destruct Hm as [Hm|]; [|done]. by rewrite Nat.add_0_r in Hne.
      + intros Hj Hne. apply (Hstop j x Hj). by rewrite Nat.add_succ_r in Hne. }
  case_bool_decide as Hn; [by apply Hkeep; left|].
  destruct (negb _ || _) eqn:Hsmall.
  { apply Hkeep. right. intros Hr. apply orb_true_iff in Hsmall as [Hs|Hs].
    - by rewrite bool_decide_true in Hs.
    - by apply N.leb_le in Hs. }
  apply orb_false_iff in Hsmall as [Hrole%negb_false_iff%bool_decide_eq_true Hlen%N.leb_gt].
  pose proof (content_le_message m). pose proof (message_bytes_content ELIDED_MARKER m).
  rewrite checked_sub_Done by lia. cbn [outcome_bind].
  destruct (IH (S i) (total - str_len (msg_content m) + str_len ELIDED_MARKER)%N)
    as (h' & t' & n & -> & Hpass & HE & HN & Hsame & Hstop); [lia|]. cbn [outcome_bind].
  assert (Helide : Elides m (set_content ELIDED_MARKER m)) by by right.
  exists (set_content ELIDED_MARKER m :: h'), t', (S n). split_and!; [done| |by constructor| | |].
  - eapply Pass_change; [..|exact Hpass]; [by apply elides_shrunk|lia|lia].
  - eapply needed_cons; [done| |exact HN]. lia.
  - intros [|j] Hj; simpl; [by rewrite Nat.add_0_r in Hj|]. apply Hsame. by rewrite Hj, Nat.add_succ_r.
  - destruct Hstop as [?|Hstop]; [by left|right]. intros [|j] x; simpl.
    + intros [= <-] _ _. simpl. lia.
    + intros Hj Hne. apply (Hstop j x Hj). by rewrite Nat.add_succ_r in Hne.
Qed.

Lemma message_le_history h i m : h !! i = Some m → (message_bytes m ≤ history_bytes h)%N.
Proof.
  intros Hi. rewrite <-(take_drop_middle h i m Hi), history_bytes_app, history_bytes_cons. lia.
Qed.

Lemma Pass_insert h i m m' less total :
  h !! i = Some m → Shrunk m m' → (less + message_bytes m = total + message_bytes m')%N →
  (less ≤ total)%N → Pass h total (<[i := m']> h) less 1.
Proof.
  intros Hi Hm Hbal Hle. pose proof (history_bytes_insert h i m m' Hi).
  split; [|lia|done|done].
  rewrite <-(list_insert_id h i m Hi) at 1. by apply Forall2_insert.
Qed.

(** Only the newest result changes. *)
Lemma truncate_newest_spec newest max_bytes total h :
  (history_bytes h ≤ total)%N → (∀ i, newest = Some i → ∃ m, h !! i = Some m ∧ msg_role m = RoleTool) →
  ∃ h' total' n, truncate_newest args_text newest max_bytes total h = Done (h', total', n) ∧
    Pass h total h' total' n ∧ Forall2 Cuts h h' ∧ NeededAt max_bytes total h h' ∧
    (∀ j, newest ≠ Some j → h' !! j = h !! j).
Proof.
  intros Htot Hnew. unfold truncate_newest.
  assert (Hsame : ∃ h' total' n, Done (E := Empty_set) (h, total, 0) = Done (h', total', n) ∧
    Pass h total h' total' n ∧ Forall2 Cuts h h' ∧ NeededAt max_bytes total h h' ∧
    (∀ j, newest ≠ Some j → h' !! j = h !! j)).
  { exists h, total, 0. split_and!; [done|apply Pass_refl|apply Forall2_same; by left|apply needed_same|done]. }
  destruct newest as [i|]; [|done]. destruct (N.leb_spec total max_bytes) as [|Hover]; [done|].
  destruct (Hnew i eq_refl) as (m & Hm & Hrole). rewrite Hm. cbn [expect outcome_bind].
  pose proof (message_le_history _ _ _ Hm). pose proof (content_le_message m).
  rewrite checked_sub_Done by lia. cbn [outcome_bind].
  set (budget := (max_bytes - _)%N). destruct (_ && _) eqn:Hcut; [|done].
  apply andb_true_iff in Hcut as [Hlen%N.ltb_lt Hroom%N.ltb_lt].
  destruct (truncate_floor (E := Empty_set) (msg_content m)
    (N.to_nat (N.min (budget - str_len TRUNCATED_MARKER) (str_len (msg_content m)))))
    as (kept & rest & -> & Hkept & Hrest); [unfold str_len in *; lia|].
  rewrite checked_sub_Done by lia. cbn [outcome_bind].
  pose proof (message_bytes_content (kept +:+ TRUNCATED_MARKER) m).
  assert (str_len kept ≤ budget - str_len TRUNCATED_MARKER)%N by (unfold str_len at 1; lia).
  assert (Hless : (str_len (kept +:+ TRUNCATED_MARKER) < str_len (msg_content m))%N) by (rewrite str_len_app; lia).
  assert (Hcuts : Cuts m (set_content (kept +:+ TRUNCATED_MARKER) m)).
  { right. split; [done|]. by exists kept, rest. }
  do 3 eexists. split_and!; [done| | | |].
  - apply (Pass_insert _ _ m); [done|by apply cuts_shrunk|lia|lia].
  - rewrite <-(list_insert_id h i m Hm) at 1. apply Forall2_insert; [|done]. apply Forall2_same. by left.
  - intros j x x' Hx Hx' Hne. destruct (decide (j = i)) as [->|Hji].
    + rewrite take_insert_ge by done. rewrite take_drop. lia.
    + rewrite list_lookup_insert_ne in Hx' by done. congruence.
  - intros j Hj. apply list_lookup_insert_ne. congruence.
Qed.

Lemma drop_reasoning_spec max_bytes total h :
  (history_bytes h ≤ total)%N → ∃ h' total' n,
    drop_reasoning max_bytes total h = Done (h', total', n) ∧ Pass h total h' total' n ∧
    Forall2 Forgets h h' ∧ NeededAt max_bytes total h h' ∧
    Forall2 (λ m m', msg_content m' = msg_content m) h h' ∧
    ((total' ≤ max_bytes)%N ∨ Forall (λ m, msg_reasoning m = None) h').
Proof.
  assert (Hrefl : ∀ k : list Message, Forall2 (λ m m', msg_content m' = msg_content m) k k).
  { intros k. by apply Forall_Forall2_diag, Forall_true. }
  revert total. induction h as [|m h IH]; intros total Htot; cbn [drop_reasoning].
  { exists [], total, 0. split_and!; [done|apply Pass_refl|constructor|apply needed_same|done|by right]. }
  rewrite history_bytes_cons in Htot.
  destruct (N.leb_spec total max_bytes) as [Hfit|Hover].
  { exists (m :: h), total, 0.
    split_and!; [done|apply Pass_refl|apply Forall2_same; by left|apply needed_same|done|by left]. }
  destruct (msg_reasoning m) as [reasoning|] eqn:Hr.
  - pose proof (message_bytes_reasoning _ _ Hr). rewrite checked_sub_Done by lia.
    destruct (IH (total - str_len reasoning)%N) as (h' & t' & n & Heq & Hpass & HF & HN & Hc & Hstop); [lia|].
    cbn [outcome_bind]. rewrite Heq. cbn [outcome_bind].
    assert (Hforget : Forgets m (take_reasoning m)) by (right; split; [by rewrite Hr|done]).
    exists (take_reasoning m :: h'), t', (S n). split_and!; [done| |by constructor| |by constructor|].
    + eapply Pass_change; [..|exact Hpass]; [by apply forgets_shrunk|lia|lia].
    + eapply needed_cons; [done| |exact HN]. lia.
    + destruct Hstop; [by left|right; by constructor].
  - destruct (IH total) as (h' & t' & n & Heq & Hpass & HF & HN & Hc & Hstop); [lia|].
    rewrite Heq. cbn [outcome_bind].
    exists (m :: h'), t', n.
    split_and!; [done|by apply Pass_keep|by constructor; [left|]|by apply needed_keep|by constructor|].
    destruct Hstop; [by left|right; by constructor].
Qed.

Lemma elem_of_role_indices role i h j :
  j ∈ role_indices role i h ↔ ∃ k m, j = i + k ∧ h !! k = Some m ∧ msg_role m = role.
Proof.
  revert i. induction h as [|m h IH]; intros i; simpl.
  { split; [by intros ?%elem_of_nil|]. by intros (? & ? & _ & ? & _). }
  assert (j ∈ role_indices role (S i) h ↔
    ∃ k x, j = i + S k ∧ h !! k = Some x ∧ msg_role x = role) as Hrest.
  { rewrite IH. setoid_rewrite Nat.add_succ_r. done. }
  assert ((∃ k x, j = i + k ∧ (m :: h) !! k = Some x ∧ msg_role x = role) ↔
    (j = i ∧ msg_role m = role) ∨ ∃ k x, j = i + S k ∧ h !! k = Some x ∧ msg_role x = role) as ->.
  { split.
    - intros ([|k] & x & -> & Hk & Hx); simpl in Hk; [|right; by exists k, x].
      left. injection Hk as <-. by rewrite Nat.add_0_r.
    - intros [[-> Hm]|(k & x & -> & Hk & Hx)]; [exists 0, m|by exists (S k), x].
      by rewrite Nat.add_0_r. }
  rewrite <-Hrest. case_bool_decide; [rewrite elem_of_cons|]; naive_solver.
Qed.

Lemma last_index_Some role h i :
  last_index role h = Some i → ∃ m, h !! i = Some m ∧ msg_role m = role.
Proof.
  intros Hi%last_Some_elem_of. apply elem_of_role_indices in Hi as (k & m & -> & Hk & Hm).
  by exists m.
Qed.

(** Every payload that elision may touch is gone. *)
Definition Exhausted h : Prop :=
  Forall (λ m, msg_reasoning m = None) h ∧
  ∀ j m, h !! j = Some m → last_index RoleTool h ≠ Some j → SmallResult m.

Lemma role_indices_same_place role i h h' :
  Forall2 SamePlace h h' → role_indices role i h' = role_indices role i h.
Proof.
  intros HF. revert i. induction HF as [|m m' h h' Hm _ IH]; intros i; [done|].
  simpl. by rewrite IH, (same_role _ _ Hm).
Qed.

(** What is done to the messages that stay: older results are elided, then the
    newest is cut, then reasoning is dropped, each only while the budget is
    exceeded. *)
Definition Reduced (max_bytes : N) h h' : Prop :=
  ∃ h1 h2,
    (Forall2 Elides h h1 ∧ Needed max_bytes h h1 ∧ ∀ j, last_index RoleTool h = Some j → h1 !! j = h !! j) ∧
    (Forall2 Cuts h1 h2 ∧ Needed max_bytes h1 h2 ∧ ∀ j, last_index RoleTool h ≠ Some j → h2 !! j = h1 !! j) ∧
    (Forall2 Forgets h2 h' ∧ Needed max_bytes h2 h').

Lemma reduced_refl max_bytes h : Reduced max_bytes h h.
Proof.
  assert (Needed max_bytes h h) by (intros j m m' Hm Hm'; congruence).
  exists h, h. split_and!; try done; apply Forall2_same; by left.
Qed.

Lemma reduced_shrunk max_bytes h h' : Reduced max_bytes h h' → Forall2 Shrunk h h'.
Proof.
  intros (h1 & h2 & (H1 & _) & (H2 & _) & (H3 & _)). etrans; [|etrans].
  - eapply Forall2_impl; [exact H1|apply elides_shrunk].
  - eapply Forall2_impl; [exact H2|apply cuts_shrunk].
  - eapply Forall2_impl; [exact H3|apply forgets_shrunk].
Qed.

Lemma elide_oversized_bodies_spec h max_bytes :
  ∃ h' n, elide_oversized_bodies args_text h max_bytes = Done (h', n) ∧
    Reduced max_bytes h h' ∧ (history_bytes h' ≤ history_bytes h)%N ∧ (n = 0 → h' = h) ∧
    ((history_bytes h' ≤ max_bytes)%N ∨ Exhausted h').
Proof.
  unfold elide_oversized_bodies. destruct (N.leb_spec (history_bytes h) max_bytes) as [Hfit|Hover].
  { exists h, 0. split_and!; [done|apply reduced_refl|done|done|by left]. }
  destruct (elide_results_spec (last_index RoleTool h) max_bytes 0 (history_bytes h) h)
    as (h1 & t1 & n1 & -> & P1 & E1 & N1 & K1 & S1); [done|]. cbn [outcome_bind].
  pose proof (shrunk_same_place _ _ (pass_shrunk _ _ _ _ _ P1)) as F1.
  pose proof (pass_balance _ _ _ _ _ P1).
  destruct (truncate_newest_spec (last_index RoleTool h) max_bytes t1 h1)
    as (h2 & t2 & n2 & -> & P2 & E2 & N2 & S2); [lia| |].
  { intros i (m & Hi & Hm)%last_index_Some.
    destruct (Forall2_lookup_l _ _ _ _ _ F1 Hi) as (m' & Hi' & Hp). exists m'.
    split; [done|]. by rewrite (same_role _ _ Hp). }
  cbn [outcome_bind]. pose proof (pass_balance _ _ _ _ _ P2).
  destruct (drop_reasoning_spec max_bytes t2 h2) as (h3 & t3 & n3 & -> & P3 & E3 & N3 & C3 & S3); [lia|].
  cbn [outcome_bind]. pose proof (pass_balance _ _ _ _ _ P3).
  pose proof (Pass_trans _ _ _ _ _ _ _ _ (Pass_trans _ _ _ _ _ _ _ _ P1 P2) P3) as P.
  pose proof (pass_total _ _ _ _ _ P). pose proof (pass_total _ _ _ _ _ P3).
  pose proof (pass_total _ _ _ _ _ P2).
  assert (t1 = history_bytes h1 ∧ t2 = history_bytes h2) as [-> ->] by lia.
  assert (HR : Reduced max_bytes h h3).
  { exists h1, h2. split_and!; try done; by apply needed_exact. }
  exists h3, (n1 + n2 + n3). split_and!; [done|done|lia|by destruct P|].
  destruct S3 as [?|S3]; [left; lia|]. destruct S1 as [?|S1]; [left; lia|]. right.
  split; [done|]. intros j m3 Hj Hne.
  pose proof (shrunk_same_place _ _ (pass_shrunk _ _ _ _ _ P)) as F.
  unfold last_index in Hne. rewrite (role_indices_same_place _ _ _ _ F) in Hne.
  destruct (Forall2_lookup_r _ _ _ _ _ C3 Hj) as (m2 & Hj2 & Hc).
  destruct (Forall2_lookup_r _ _ _ _ _ (shrunk_same_place _ _ (pass_shrunk _ _ _ _ _ P3)) Hj)
    as (m2' & Hj2' & Hp). rewrite Hj2 in Hj2'. injection Hj2' as <-.
  intros Hrole. rewrite Hc. rewrite S2 in Hj2 by done. eapply (S1 j m2); [done..|].
  by rewrite <-(same_role _ _ Hp).
Qed.

(** * Evicting turns *)

Definition turns h : nat := length (filter (λ m, msg_role m = RoleUser) h).

(** The messages start a turn. *)
Definition starts_turn h : Prop := ∃ m h', h = m :: h' ∧ msg_role m = RoleUser.

Lemma turns_app h k : turns (h ++ k) = turns h + turns k.
Proof. unfold turns. by rewrite filter_app, length_app. Qed.

Lemma role_indices_length i h : length (role_indices RoleUser i h) = turns h.
Proof.
  unfold turns. revert i. induction h as [|m h IH]; intros i; [done|]. simpl.
  rewrite filter_cons. case_bool_decide; simpl; [rewrite decide_True by done; simpl|rewrite decide_False by done]; by rewrite IH.
Qed.

(** Where the [k]-th turn starts. *)
Lemma role_indices_lookup i h k j :
  role_indices RoleUser i h !! k = Some j ↔
  ∃ before rest, h = before ++ rest ∧ j = i + length before ∧ turns before = k ∧ starts_turn rest.
Proof.
  revert i k. induction h as [|m h IH]; intros i k; simpl.
  { split; [done|]. intros (b & r & Heq & _ & _ & (? & ? & -> & _)). by destruct b. }
  assert (Hcons : ∀ k', (∃ before rest, h = before ++ rest ∧ j = S i + length before ∧
      turns before = k' ∧ starts_turn rest) ↔
    ∃ before rest, h = before ++ rest ∧ j = i + S (length before) ∧ turns before = k' ∧
      starts_turn rest) by (setoid_rewrite Nat.add_succ_r; done).
  case_bool_decide as Hm.
  - destruct k as [|k]; simpl.
    + split.
      * intros [= <-]. exists [], (m :: h). split_and!; [done|simpl; lia|done|by exists m, h].
      * intros ([|x b] & r & Heq & -> & Hk & _); [simpl; f_equal; lia|].
        injection Heq as <- _. unfold turns in Hk. by rewrite filter_cons_True in Hk.
    + rewrite IH, Hcons. split.
      * intros (b & r & -> & -> & <- & Hr). exists (m :: b), r.
        split_and!; [done..| |done]. unfold turns. by rewrite filter_cons_True.
      * intros ([|x b] & r & Heq & -> & Hk & Hr); [done|]. injection Heq as <- ->.
        exists b, r. split_and!; [done..| |done]. unfold turns in Hk.
        rewrite filter_cons_True in Hk by done. simpl in Hk. unfold turns. lia.
  - rewrite IH, Hcons. split.
    + intros (b & r & -> & -> & <- & Hr). exists (m :: b), r.
      split_and!; [done..| |done]. unfold turns. by rewrite filter_cons_False.
    + intros ([|x b] & r & Heq & -> & Hk & Hr).
      { simpl in Heq. subst r. destruct Hr as (? & ? & [= <- <-] & ?). done. }
      injection Heq as <- ->. exists b, r. split_and!; [done..| |done].
      unfold turns in *. by rewrite filter_cons_False in Hk.
Qed.

Lemma first_fitting_spec prefix_bytes max_bytes h turn starts :
  match first_fitting args_text prefix_bytes max_bytes h turn starts with
  | Some k => ∃ i start, k = turn + i ∧ starts !! i = Some start ∧
      (prefix_bytes + history_bytes (drop start h) ≤ max_bytes)%N ∧
      ∀ i' start', i' < i → starts !! i' = Some start' →
        (max_bytes < prefix_bytes + history_bytes (drop start' h))%N
  | None => ∀ i' start', starts !! i' = Some start' →
      (max_bytes < prefix_bytes + history_bytes (drop start' h))%N
  end.
Proof.
  revert turn. induction starts as [|start starts IH]; intros turn; simpl; [done|].
  destruct (N.leb_spec (prefix_bytes + history_bytes (drop start h)) max_bytes) as [Hfit|Hover].
  { exists 0, start. split_and!; [lia|done|done|lia]. }
  specialize (IH (S turn)). destruct (first_fitting _ _ _ _ _ _) as [k|].
  - destruct IH as (i & s & -> & Hi & Hs & Hmin). exists (S i), s.
    split_and!; [lia|done|done|]. intros [|i'] start' Hlt; [by intros [= <-]|].
    apply Hmin. lia.
  - intros [|i'] start'; [by intros [= <-]|]. apply IH.
Qed.

(** [h'] is [h] without its [removed] oldest turns: as few as needed for the
    rest to fit, or all but the newest when that takes more. *)
Inductive Evicted (max_bytes : N) h : list Message → nat → Prop :=
| evicted_none : (history_bytes h ≤ max_bytes)%N ∨ turns h ≤ 1 → Evicted max_bytes h h 0
| evicted_some pre gone rest :
    h = pre ++ gone ++ rest → turns pre = 0 → starts_turn gone → starts_turn rest →
    (history_bytes (pre ++ rest) ≤ max_bytes)%N ∨ turns rest = 1 →
    (∀ lost kept, gone = lost ++ kept → starts_turn kept →
      (max_bytes < history_bytes (pre ++ kept ++ rest))%N) →
    Evicted max_bytes h (pre ++ rest) (turns gone).

Lemma starts_turn_turns h : starts_turn h → 0 < turns h.
Proof. intros (m & h' & -> & Hm). unfold turns. rewrite filter_cons_True by done. simpl. lia. Qed.

(** What is left after [keep] turns are drained. *)
Lemma drain_turns h max_bytes prefix keep cut :
  role_indices RoleUser 0 h !! 0 = Some prefix → role_indices RoleUser 0 h !! keep = Some cut →
  0 < keep → (history_bytes (take prefix h) + history_bytes (drop cut h) ≤ max_bytes)%N ∨ keep = turns h - 1 →
  (∀ i start, i < keep → role_indices RoleUser 0 h !! i = Some start →
     (max_bytes < history_bytes (take prefix h) + history_bytes (drop start h))%N) →
  ∃ h', drain h prefix cut = Done h' ∧ h' = take prefix h ++ drop cut h ∧
    Evicted max_bytes h h' keep ∧ turns h' = turns h - keep.
Proof.
  intros (pre & ts & Heq & Hl & Hpre & Hts)%role_indices_lookup
    (before & rest & Hsplit & Hc & Hturns & Hrest)%role_indices_lookup Hpos Hend Hmin.
  simpl in Hl, Hc. subst prefix cut.
  pose proof (eq_trans (eq_sym Heq) Hsplit) as Happ.
  assert (∃ gone, before = pre ++ gone ∧ ts = gone ++ rest) as (gone & -> & ->).
  { destruct (app_eq_inv _ _ _ _ Happ) as [(l & -> & ->)|(l & -> & ->)]; [|by exists l].
    rewrite turns_app in Hpre. lia. }
  rewrite turns_app, Hpre in Hturns. simpl in Hturns.
  assert (starts_turn gone) as Hgone.
  { destruct gone as [|u gone]; [simpl in Hturns; unfold turns in Hturns; simpl in Hturns; lia|].
    destruct Hts as (m & h' & [= <- <-] & Hm). by exists u, gone. }
  assert (take (length pre) h = pre) as Htake by (rewrite Heq; apply take_app_length).
  assert (drop (length (pre ++ gone)) h = rest) as Hdrop.
  { rewrite Hsplit. by rewrite drop_app_length. }
  rewrite Htake in *. rewrite Hdrop in Hend |- *. exists (pre ++ rest). split_and!; [|done| |].
  - unfold drain. rewrite Htake, Hdrop, Hsplit, !length_app.
    by rewrite !(proj2 (Nat.leb_le _ _)) by lia.
  - rewrite <-Hturns. apply evicted_some; [done..| |].
    { rewrite history_bytes_app. destruct Hend as [?|Hend]; [by left|right].
      rewrite Heq, !turns_app, Hpre, Hturns in Hend. pose proof (starts_turn_turns _ Hrest). lia. }
    intros lost kept -> Hkept. rewrite turns_app in Hturns.
    pose proof (starts_turn_turns _ Hkept) as Hk.
    specialize (Hmin (turns lost) (length (pre ++ lost))).
    rewrite Heq in Hmin at 2. rewrite !history_bytes_app.
    rewrite <-app_assoc, app_assoc, drop_app_length, history_bytes_app in Hmin.
    apply Hmin; [lia|]. apply role_indices_lookup.
    exists (pre ++ lost), (kept ++ rest). split_and!.
    + by rewrite Heq, <-!app_assoc.
    + done.
    + rewrite turns_app. lia.
    + destruct Hkept as (m & k & -> & Hm). by exists m, (k ++ rest).
  - rewrite Heq, !turns_app. lia.
Qed.

Lemma evict_turns_spec h max_bytes :
  (max_bytes < history_bytes h)%N →
  ∃ h' removed, evict_turns args_text h max_bytes = Done (h', removed) ∧
    Evicted max_bytes h h' removed ∧ ((history_bytes h' ≤ max_bytes)%N ∨ turns h' ≤ 1).
Proof.
  intros Hover. unfold evict_turns, turn_starts. rewrite role_indices_length.
  destruct (Nat.leb_spec 2 (turns h)) as [Hmany|Hfew];
    [|exists h, 0; split_and!; [done|constructor; right; lia|right; lia]].
  destruct (lookup_lt_is_Some_2 (role_indices RoleUser 0 h) 0) as [prefix Hprefix];
    [rewrite role_indices_length; lia|].
  rewrite head_lookup, Hprefix. change (default (length h) (Some prefix)) with prefix.
  pose proof (first_fitting_spec (history_bytes (take prefix h)) max_bytes h 0
    (role_indices RoleUser 0 h)) as Hfit.
  set (keep := default (turns h - 1) _).
  assert (∃ cut, role_indices RoleUser 0 h !! keep = Some cut ∧
    (∀ i start, i < keep → role_indices RoleUser 0 h !! i = Some start →
       (max_bytes < history_bytes (take prefix h) + history_bytes (drop start h))%N) ∧
    ((history_bytes (take prefix h) + history_bytes (drop cut h) ≤ max_bytes)%N ∨
     keep = turns h - 1)) as (cut & Hcut & Hmin & Hend).
  { subst keep. destruct (first_fitting _ _ _ _ _ _) as [k|]; simpl.
    - destruct Hfit as (i & start & -> & Hi & Hs & Hmin). exists start. split_and!; auto.
    - destruct (lookup_lt_is_Some_2 (role_indices RoleUser 0 h) (turns h - 1)) as [cut Hcut];
        [rewrite role_indices_length; lia|].
      exists cut. split_and!; [done| |by right]. intros i start _. apply Hfit. }
  clearbody keep. clear Hfit. destruct (Nat.ltb_spec 0 keep) as [Hpos|Hzero].
  - destruct (drain_turns h max_bytes prefix keep cut) as (h' & Hdrain & Hh' & Hev & Hturns); [done..|].
    rewrite Hcut. cbn [expect outcome_bind]. rewrite Hdrain. cbn [outcome_bind].
    exists h', keep. split_and!; [done|done|]. destruct Hend as [Hend| ->]; [left|right; lia].
    by rewrite Hh', history_bytes_app.
  - assert (keep = 0) as -> by lia. rewrite Hprefix in Hcut. injection Hcut as <-.
    destruct Hend as [Hend|]; [|lia]. rewrite <-history_bytes_app, take_drop in Hend. lia.
Qed.

(** * The conversation after compaction *)

(** What is before the first turn and the newest turns stay, each message in
    its place; whole turns in between may go. *)
Definition KeepsConversation h h' : Prop :=
  ∃ pre gone rest, h = pre ++ gone ++ rest ∧ turns pre = 0 ∧
    (gone = [] ∨ starts_turn gone ∧ starts_turn rest) ∧ Forall2 Shrunk (pre ++ rest) h'.

Lemma keeps_refl h : KeepsConversation h h.
Proof.
  exists (take 0 h), [], h. split_and!; [done|done|by left|reflexivity].
Qed.

Lemma keeps_shrunk h h' : Forall2 Shrunk h h' → KeepsConversation h h'.
Proof. intros HF. exists [], [], h. split_and!; [done|done|by left|done]. Qed.

Lemma Paired_drop_turns pre gone rest :
  starts_turn gone → starts_turn rest → Paired (pre ++ gone ++ rest) → Paired (pre ++ rest).
Proof.
  intros (u & g & -> & Hu) (v & r & -> & Hv) Hp.
  assert (msg_role u ≠ RoleTool ∧ msg_role v ≠ RoleTool) as [Hu' Hv'] by (by rewrite Hu, Hv).
  apply (Paired_app pre); [by apply (Paired_split pre u (g ++ v :: r))|].
  apply Paired_split in Hp as [_ Hp]; [|done].
  by apply (Paired_split (u :: g) v r).
Qed.

Lemma keeps_paired h h' : KeepsConversation h h' → Paired h → Paired h'.
Proof.
  intros (pre & gone & rest & -> & _ & Hgone & HF) Hp.
  apply (Paired_same_place (pre ++ rest)); [by apply shrunk_same_place|].
  destruct Hgone as [->|[??]]; [exact Hp|]. exact (Paired_drop_turns pre gone rest ltac:(done) ltac:(done) Hp).
Qed.

Lemma Evicted_keeps max_bytes h h1 removed h' :
  Evicted max_bytes h h1 removed → Forall2 Shrunk h1 h' → KeepsConversation h h'.
Proof.
  intros [|pre gone rest -> Hpre Hgone Hrest _ _] HF; [by apply keeps_shrunk|].
  exists pre, gone, rest. split_and!; [done|done|by right|done].
Qed.

Lemma Evicted_bytes max_bytes h h' removed :
  Evicted max_bytes h h' removed →
  (history_bytes h' ≤ history_bytes h)%N ∧ (removed = 0 → h' = h) ∧ turns h' + removed = turns h.
Proof.
  intros [|pre gone rest -> Hpre Hgone Hrest _ _]; [split_and!; [done|done|lia]|].
  rewrite !history_bytes_app, !turns_app. split_and!; [lia| |lia].
  pose proof (starts_turn_turns _ Hgone). lia.
Qed.

Lemma turns_shrunk h h' : Forall2 Shrunk h h' → turns h' = turns h.
Proof.
  intros HF%shrunk_same_place.
  by rewrite <-!(role_indices_length 0), (role_indices_same_place _ _ _ _ HF).
Qed.

(** Everything [compact_to] does, in one statement. *)
Lemma compact_to_spec name h max_bytes :
  ∃ h1 removed h' r, compact_to args_text name h max_bytes = Done (h', r) ∧
    Evicted max_bytes h h1 removed ∧ Reduced max_bytes h1 h' ∧
    (history_bytes h' ≤ history_bytes h)%N ∧ (r = None → h' = h) ∧
    ((history_bytes h' ≤ max_bytes)%N ∨ turns h' ≤ 1 ∧ Exhausted h') ∧
    ∀ report, r = Some report → report = {|
      report_compactor := name; messages_before := length h; messages_after := length h';
      bytes_before := history_bytes h; bytes_after := history_bytes h'; turns_removed := removed |}.
Proof.
  unfold compact_to. destruct (N.leb_spec (history_bytes h) max_bytes) as [Hfit|Hover].
  { exists h, 0, h, None. split_and!; [done|constructor; by left|apply reduced_refl|done|done|by left|done]. }
  destruct (evict_turns_spec h max_bytes Hover) as (h1 & removed & -> & Hev & Hfits).
  cbn [outcome_bind]. destruct (elide_oversized_bodies_spec h1 max_bytes)
    as (h' & n & -> & HR & Hb & Hn & Hstop). cbn [outcome_bind].
  pose proof (reduced_shrunk _ _ _ HR) as HF.
  destruct (Evicted_bytes _ _ _ _ Hev) as (Hle & Hzero & _).
  assert ((history_bytes h' ≤ max_bytes)%N ∨ turns h' ≤ 1 ∧ Exhausted h') as Hend.
  { rewrite (turns_shrunk _ _ HF). destruct Hfits; [left; lia|]. destruct Hstop; auto. }
  destruct (bool_decide (removed = 0) && bool_decide (n = 0)) eqn:Hnone.
  - apply andb_true_iff in Hnone as [H0%bool_decide_eq_true H1%bool_decide_eq_true].
    exists h1, removed, h', None. split_and!; [done|done|done|lia| |done|done].
    intros _. by rewrite Hn, Hzero.
  - eexists h1, removed, h', _. split_and!; [done|done|done|lia|done|done|]. by intros report [= <-].
Qed.

(** C39: Compaction keeps the conversation consistent and does just what the budget asks for. What
    precedes the first turn and the newest turn stay; only whole turns go and only the oldest, as few
    as the budget needs, or all but the newest when that is not enough. Of the messages that stay,
    results other than the newest are replaced by a marker, the newest is cut and marked, and
    reasoning is dropped, in this order, oldest first, each only while the budget is exceeded and a
    result only by something shorter; everything else stays as it was. In the end the history is
    within the budget, or nothing that may go is left. And every tool result still answers its
    call. *)
Theorem compact_keeps_conversation name h max_bytes h' r :
  compact_to args_text name h max_bytes = Done (h', r) →
  (∃ h1 removed, Evicted max_bytes h h1 removed ∧ Reduced max_bytes h1 h') ∧
  ((history_bytes h' ≤ max_bytes)%N ∨ turns h' ≤ 1 ∧ Exhausted h') ∧ (r = None → h' = h) ∧
  (Paired h → Paired h').
Proof.
  destruct (compact_to_spec name h max_bytes) as (h1 & removed & h2 & r2 & -> & Hev & HR & _ & Hn & Hend & _).
  intros [= <- <-]. split_and!; [by exists h1, removed|done|done|].
  by eapply keeps_paired, Evicted_keeps; [exact Hev|]; eapply reduced_shrunk.
Qed.

(** Compaction always succeeds, with no underflow and no cut inside a character; it reports
    what it did, leaves the history alone when it reports nothing, never makes it longer, and ends
    above its budget only when a single turn is left with no reasoning and no tool result longer
    than the marker but the newest. *)
Lemma compact_reaches_budget name h max_bytes :
  ∃ h' r, compact_to args_text name h max_bytes = Done (h', r) ∧
    (r = None → h' = h) ∧ (history_bytes h' ≤ history_bytes h)%N ∧
    ((history_bytes h' ≤ max_bytes)%N ∨ turns h' ≤ 1 ∧ Exhausted h') ∧
    ∀ report, r = Some report →
      messages_before report = length h ∧ messages_after report = length h' ∧
      bytes_before report = history_bytes h ∧ bytes_after report = history_bytes h' ∧
      turns_removed report + turns h' = turns h.
Proof.
  destruct (compact_to_spec name h max_bytes)
    as (h1 & removed & h' & r & Heq & Hev & HF%reduced_shrunk & Hle & Hnone & Hend & Hrep).
  exists h', r. split_and!; [done..|]. intros report ->%Hrep. simpl. split_and!; [done..|].
  destruct (Evicted_bytes _ _ _ _ Hev) as (_ & _ & Ht). rewrite (turns_shrunk _ _ HF). lia.
Qed.

(** * Dropping payloads *)

Lemma drop_tool_payload_place m : SamePlace m (drop_tool_payload m).1.
Proof. unfold drop_tool_payload. by destruct (_ && _). Qed.

Lemma drop_tool_payloads_place h : Forall2 SamePlace h (drop_tool_payloads h).1.
Proof.
  unfold drop_tool_payloads; simpl. apply Forall2_fmap_r, Forall_Forall2_diag, Forall_true.
  intros m. apply drop_tool_payload_place.
Qed.

(** * The interface *)

(** What the engine relies on of any compactor. *)
Class LawfulCompactor (c : Compactor A) := {
  lawful_compact h : ∃ h' r, compact c h = Done (h', r) ∧ KeepsConversation h h' ∧ (r = None → h' = h);
  lawful_overflow h : ∃ h' r, compact_overflow c h = Done (h', r) ∧ KeepsConversation h h' ∧
    (r = None → h' = h);
}.

Lemma compact_to_lawful name h max_bytes :
  ∃ h' r, compact_to args_text name h max_bytes = Done (h', r) ∧ KeepsConversation h h' ∧
    (r = None → h' = h).
Proof.
  destruct (compact_to_spec name h max_bytes) as (h1 & removed & h' & r & Heq & Hev & HF%reduced_shrunk & _ & Hn & _).
  exists h', r. split_and!; [done|by eapply Evicted_keeps|done].
Qed.

(** A provider's rejection does not halve a budget below two kilobytes, and
    does not lower one below a kilobyte: a history the budget allows is kept. *)
Lemma small_budget_overflow_keeps max_bytes h :
  (max_bytes ≤ MINIMUM_HISTORY_BYTES)%N → (history_bytes h ≤ max_bytes)%N →
  compact_overflow (MaxBytesCompactor args_text max_bytes) h = Done (h, None).
Proof.
  intros Hmin Hfit. simpl. unfold compact_to.
  destruct (N.leb_spec (Compaction.history_bytes args_text h) (N.max (max_bytes / 2) MINIMUM_HISTORY_BYTES)); [done|lia].
Qed.

#[export] Instance max_bytes_lawful max_bytes : LawfulCompactor (MaxBytesCompactor args_text max_bytes).
Proof. split; intros h; apply compact_to_lawful. Qed.

#[export] Instance no_compaction_lawful : LawfulCompactor NoCompaction.
Proof. split; intros h; exists h, None; (split_and!; [done|apply keeps_refl|done]). Qed.

#[export] Instance build_lawful overhead c : LawfulCompactor (build args_text overhead c).
Proof. unfold build. repeat case_match; apply _. Qed.
End spec.

(** * The budget of a model *)

Lemma derived_budget_bounds overhead reserve tokens :
  let usable := N.max (tokens - reserve - overhead) MINIMUM_HISTORY_TOKENS in
  (0 < derived_budget overhead reserve tokens ≤ 3 * usable)%N.
Proof.
  intros usable. unfold derived_budget. fold usable.
  assert (256 ≤ usable)%N by (unfold usable, MINIMUM_HISTORY_TOKENS; lia). clearbody usable.
  unfold saturating_mul, HISTORY_NUMERATOR, HISTORY_DENOMINATOR, BYTES_PER_TOKEN.
  set (share := (N.min (usable * 9) USIZE_MAX / 10)%N).
  assert (1 ≤ share)%N by (apply N.div_le_lower_bound; unfold USIZE_MAX; lia).
  assert (share ≤ usable)%N by (apply N.Div0.div_le_upper_bound; lia).
  unfold USIZE_MAX. lia.
Qed.

Lemma estimate_tokens_le bytes tokens : (bytes ≤ 3 * tokens)%N → (estimate_tokens bytes ≤ tokens)%N.
Proof.
  intros Hb. unfold estimate_tokens, saturating_add, BYTES_PER_TOKEN. apply N.lt_succ_r.
  apply N.Div0.div_lt_upper_bound. lia.
Qed.

(** The byte budget a configuration enforces is never zero, honours an explicit limit, is
    switched off by an explicit zero, and fits the declared window: a history within it, the reply
    reserve and the tool schema together stay within the window's tokens, unless the window leaves
    less than the minimum for history. *)
Lemma effective_budget_fits_window (overhead bytes : N) (c : CompactionConfig) :
  effective_max_bytes overhead c = Some bytes →
  (0 < bytes)%N ∧ max_history_bytes c ≠ Some 0%N ∧
  (∀ limit, max_history_bytes c = Some limit → (bytes ≤ limit)%N) ∧
  (∀ tokens, context_tokens c = Some tokens →
     (reserve_output_tokens c + overhead + MINIMUM_HISTORY_TOKENS ≤ tokens)%N →
     (estimate_tokens bytes + reserve_output_tokens c + overhead ≤ tokens)%N).
Proof.
  unfold effective_max_bytes. intros Hb.
  assert (Hpos : (0 < bytes)%N ∧ max_history_bytes c ≠ Some 0%N ∧
    (∀ limit, max_history_bytes c = Some limit → (bytes ≤ limit)%N) ∧
    ∀ tokens, context_tokens c = Some tokens →
      (bytes ≤ derived_budget overhead (reserve_output_tokens c) tokens)%N).
  { destruct (max_history_bytes c) as [limit|], (context_tokens c) as [tokens|]; simpl in Hb;
      try destruct (N.eqb_spec limit 0); simplify_eq;
      try pose proof (derived_budget_bounds overhead (reserve_output_tokens c) tokens);
      cbv zeta in *; split_and!; try congruence; intros; simplify_eq/=; lia. }
  destruct Hpos as (? & ? & ? & Hd). split_and!; [done..|].
  intros tokens Ht Hroom. specialize (Hd tokens Ht).
  pose proof (derived_budget_bounds overhead (reserve_output_tokens c) tokens).
  assert (estimate_tokens bytes ≤ tokens - reserve_output_tokens c - overhead)%N; [|lia].
  apply estimate_tokens_le. cbv zeta in *. lia.
Qed.

(** * A concrete history *)

Definition sample_call (id : string) : ToolCall string :=
  {| call_id := id; call_name := "read_file"; call_arguments := "{}" |}.

Definition sample_text (n : nat) : string := of_chars (replicate n "x"%char).

Definition sample_history : list (ChatMessage string) :=
  [msg_system "be brief";
   msg_user "first"; assistant_with_tools "" [sample_call "a"];
   tool_result (sample_call "a") (sample_text 90); msg_assistant "done";
   msg_user "second"; assistant_with_tools "" [sample_call "b"; sample_call "c"];
   tool_result (sample_call "b") (sample_text 80); tool_result (sample_call "c") (sample_text 200)].

Definition sample_compacted : list (ChatMessage string) :=
  [msg_system "be brief"; msg_user "second"; assistant_with_tools "" [sample_call "b"; sample_call "c"];
   tool_result (sample_call "b") ELIDED_MARKER;
   tool_result (sample_call "c") (sample_text 36 +:+ TRUNCATED_MARKER)].

Lemma sample_compacts : ∃ report,
  compact_to id "max_history_bytes" sample_history 180 = Done (sample_compacted, Some report) ∧
  turns_removed report = 1 ∧ bytes_after report = 180%N.
Proof. eexists. split; [vm_compute; reflexivity|done]. Qed.

Lemma compact_keeps_conversation_witness :
  Paired sample_compacted ∧ ∃ h1 removed, Evicted id 180 sample_history h1 removed ∧ Reduced id 180 h1 sample_compacted.
Proof.
  destruct sample_compacts as (report & Heq & _).
  destruct (compact_keeps_conversation id _ _ _ _ _ Heq) as (Hdone & _ & _ & Hpaired).
  split; [apply Hpaired; vm_compute; reflexivity|exact Hdone].
Defined.

Definition sample_config : CompactionConfig :=
  {| max_history_bytes := Some 100000%N; context_tokens := Some 32768%N;
     reserve_output_tokens := DEFAULT_RESERVE_OUTPUT_TOKENS |}.

Lemma effective_budget_fits_window_witness :
  (0 < 82944)%N ∧ (estimate_tokens 82944 + 1024 + 1024 ≤ 32768)%N.
Proof.
  destruct (effective_budget_fits_window 1024 82944 sample_config) as (Hpos & _ & _ & Hfit);
    [vm_compute; reflexivity|].
  split; [exact Hpos|apply (Hfit 32768%N); [reflexivity|vm_compute; discriminate]].
Defined.
