(* ===== verification/Tools.v ===== *)
(** Tools and their sets ([Tool], [ToolSet], [gate] and [truncate] of
    [crates/xshell-execution/src/tools.rs]).

    A [ToolSet] is the code's [u8] of one bit per tool. What opens files and
    runs processes is left to the oracles of [Engine]; [FileTools] supplies it. *)
From Stdlib Require Import Ascii.
From S2P Require Import Prelude CallId Compaction CompactionSpec.

Inductive Tool : Type := ReadFile | ListDirectory | RunShell | DelegateTask.

#[export] Instance Tool_eq_dec : EqDecision Tool.
Proof. solve_decision. Defined.

Definition ALL : list Tool := [ReadFile; ListDirectory; RunShell; DelegateTask].

Definition tool_name (tool : Tool) : string :=
  match tool with
  | ReadFile => "read_file"
  | ListDirectory => "list_directory"
  | RunShell => "run_shell"
  | DelegateTask => "delegate_task"
  end.

Definition from_name (name : string) : option Tool :=
  List.find (λ tool, bool_decide (tool_name tool = name)) ALL.

Definition is_read_only (tool : Tool) : bool :=
  match tool with ReadFile | ListDirectory => true | RunShell | DelegateTask => false end.

(** [1 << tool as u8]. *)
Definition tool_index (tool : Tool) : N :=
  match tool with ReadFile => 0 | ListDirectory => 1 | RunShell => 2 | DelegateTask => 3 end.
Definition bit (tool : Tool) : N := N.shiftl 1 (tool_index tool).

Definition ToolSet : Type := N.

Definition from_tools (tools : list Tool) : ToolSet :=
  foldl (λ bits tool, N.lor bits (bit tool)) 0%N tools.

Definition toolset_all : ToolSet := from_tools ALL.
Definition toolset_none : ToolSet := 0%N.
Definition toolset_read_only : ToolSet := from_tools (filter (λ tool, is_read_only tool = true) ALL).

Definition contains (set : ToolSet) (tool : Tool) : bool := negb (N.land set (bit tool) =? 0)%N.

Definition get (set : ToolSet) (name : string) : option Tool :=
  match from_name name with
  | Some tool => if contains set tool then Some tool else None
  | None => None
  end.

(** [!bit] of a [u8]. *)
Definition without (set : ToolSet) (tool : Tool) : ToolSet := N.land set (N.lnot (bit tool) 8).
Definition intersect (set other : ToolSet) : ToolSet := N.land set other.
Definition tools_of (set : ToolSet) : list Tool := filter (λ tool, contains set tool = true) ALL.

Inductive GateReason : Type := ShellExecution | SensitivePath | PolicyGate.

#[export] Instance GateReason_eq_dec : EqDecision GateReason.
Proof. solve_decision. Defined.

(** [Preparation]: what was opened for a read, with its canonical path and
    whether it is sensitive. *)
Record PreparedObject (O : Type) := {
  object : O;
  object_path : string;
  object_sensitive : bool;
}.
Arguments object {O}.
Arguments object_path {O}.
Arguments object_sensitive {O}.

Inductive Preparation (O : Type) : Type :=
| PrepRead (o : PreparedObject O)
| PrepFailed (message : string)
| PrepOther.
Arguments PrepRead {O}.
Arguments PrepFailed {O}.
Arguments PrepOther {O}.

Definition preparation_path {O} (p : Preparation O) : option string :=
  match p with PrepRead o => Some (object_path o) | _ => None end.

Definition requires_approval_by_name (name : string) : bool :=
  bool_decide (from_name name = Some RunShell).

Definition gate {A O} (call : ToolCall A) (p : Preparation O) : option GateReason :=
  if requires_approval_by_name (call_name call) then Some ShellExecution
  else match p with
       | PrepRead o => if object_sensitive o then Some SensitivePath else None
       | _ => None
       end.

Definition MAX_TOOL_OUTPUT_BYTES : nat := 64 * 1024.

(** [truncate]: position 0 is always a character boundary, where its loop
    stops. [limit] is [MAX_TOOL_OUTPUT_BYTES]. *)
Definition truncate_to {E} (limit : nat) (output : string) : Outcome E string :=
  if String.length output <=? limit then Done output
  else
    let! kept := truncate_at output (floor_boundary output limit) in
    Done (kept +:+ String newline "[tool output truncated]").
Definition truncate {E} (output : string) : Outcome E string :=
  truncate_to MAX_TOOL_OUTPUT_BYTES output.

(** * Lemmas *)

Lemma from_name_Some name tool : from_name name = Some tool ↔ tool_name tool = name.
Proof.
  unfold from_name. split.
  - intros [_ Hn]%List.find_some. by apply bool_decide_eq_true in Hn.
  - intros <-. by destruct tool.
Qed.

Lemma contains_testbit set tool : contains set tool = N.testbit set (tool_index tool).
Proof.
  unfold contains, bit. rewrite N.shiftl_1_l. destruct (N.testbit set (tool_index tool)) eqn:Hb.
  - apply negb_true_iff, N.eqb_neq. intros H0.
    assert (N.testbit (N.land set (2 ^ tool_index tool)) (tool_index tool) = false) as Hf by by rewrite H0.
    by rewrite N.land_spec, Hb, N.pow2_bits_true in Hf.
  - apply negb_false_iff, N.eqb_eq, N.bits_inj_0. intros n. rewrite N.land_spec.
    destruct (decide (n = tool_index tool)) as [->|Hn]; [by rewrite Hb|].
    by rewrite N.pow2_bits_false, andb_false_r.
Qed.

Lemma contains_intersect set other tool :
  contains (intersect set other) tool = contains set tool && contains other tool.
Proof. by rewrite !contains_testbit, N.land_spec. Qed.

Lemma contains_without set tool other :
  contains (without set other) tool = contains set tool && negb (bool_decide (tool = other)).
Proof.
  rewrite !contains_testbit. unfold without. rewrite N.land_spec. f_equal.
  destruct tool, other; reflexivity.
Qed.

Lemma get_Some set name tool : get set name = Some tool ↔ tool_name tool = name ∧ contains set tool = true.
Proof.
  unfold get. rewrite <-from_name_Some. destruct (from_name name) as [t|]; [|by split; [|intros [? _]]].
  destruct (contains set t) eqn:Hc.
  - split; [by intros [= <-]|]. by intros [[= ->] _].
  - split; [done|]. intros [[= <-] ?]. congruence.
Qed.

(** What a parent may pass on: no more than it asks for, no more than it has,
    and never the power to delegate. *)
Lemma delegated_tools requested parent name tool :
  get (without (intersect requested parent) DelegateTask) name = Some tool ↔
  get requested name = Some tool ∧ get parent name = Some tool ∧ tool ≠ DelegateTask.
Proof.
  rewrite !get_Some, contains_without, contains_intersect, !andb_true_iff, negb_true_iff,
    bool_decide_eq_false. tauto.
Qed.

Lemma truncate_to_total {E} limit output :
  ∃ t, truncate_to (E := E) limit output = Done t ∧
    String.length t ≤ limit + 24 ∧ (String.length output ≤ limit → t = output).
Proof.
  unfold truncate_to. destruct (Nat.leb_spec (String.length output) limit) as [Hfit|Hover].
  { exists output. split_and!; [done|lia|done]. }
  destruct (truncate_floor (E := E) output limit) as (kept & rest & -> & Hk & _); [lia|].
  cbn [outcome_bind]. eexists. split_and!; [done| |lia].
  pose proof (str_len_app kept (String newline "[tool output truncated]")) as Hlen.
  unfold str_len in Hlen. change (N.of_nat (String.length (String newline "[tool output truncated]")))
    with 24%N in Hlen. lia.
Qed.
