(* ===== verification/Transcript.v ===== *)
(** The transcript of a turn ([auto_continue_reason], [announces_next_step],
    [merge_system_messages], [preserve_or_rollback_failed_turn] and
    [stub_unfinished_tool_calls] of [crates/xshell-execution/src/engine.rs]):
    when a model that stopped is nudged to go on, and bookkeeping. *)
From Stdlib Require Import Ascii.
From S2P Require Import Prelude CallId Chat.

(** ** Nudging a model that stopped mid-task

    [to_lowercase] is the Unicode case mapping of [str]. *)

Definition ANNOUNCED_STEP_PROMPT : string :=
  "[xshell] Your last message announced another step but contained no tool call, so the turn would have ended there. If you meant to use a tool, call it now. If you are finished, give your final answer.".
Definition EMPTY_RESPONSE_PROMPT : string :=
  "[xshell] Your last message was empty. Continue the task: call a tool if you need one, or give your final answer.".

Definition OPENERS : list string :=
  ["let me "; "let's "; "i'll "; "i will "; "i'm going to "; "i am going to "; "now let me ";
   "now i'll "; "next, "; "next i'll "; "first, let me "; "first i'll "].

Definition apostrophe : ascii := "'"%char.

(** [replace('\u{2019}', "'")]: the three bytes of the right single quotation
    mark. *)
Fixpoint straighten (l : list ascii) : list ascii :=
  match l with
  | [] => []
  | a :: l' =>
      match l' with
      | b :: c :: rest =>
          if bool_decide (code a = 226 ∧ code b = 128 ∧ code c = 153)%N
          then apostrophe :: straighten rest else a :: straighten l'
      | _ => a :: straighten l'
      end
  end.

Fixpoint drop_while (p : ascii → bool) (l : list ascii) : list ascii :=
  match l with [] => [] | c :: l' => if p c then drop_while p l' else l end.

(** [trim_end_matches(['.', ':', '!', ' '])]. *)
Definition trim_end_marks (l : list ascii) : list ascii :=
  rev (drop_while (λ c, bool_decide (c ∈ ["."; ":"; "!"; " "]%char)) (rev l)).

(** What follows the last occurrence of [p] and a space. *)
Fixpoint after_last (p : ascii) (l : list ascii) : option (list ascii) :=
  match l with
  | [] => None
  | c :: l' =>
      match after_last p l' with
      | Some rest => Some rest
      | None =>
          match l' with
          | d :: rest => if bool_decide (c = p ∧ d = " "%char) then Some rest else None
          | [] => None
          end
      end
  end.

Definition last_sentence (body : list ascii) : list ascii :=
  match after_last "."%char body with
  | Some rest => rest
  | None => default body (after_last "!"%char body)
  end.

(** [trim_start_matches(|c| c.is_whitespace() || "*_#->".contains(c))]. *)
Fixpoint trim_start_marks (fuel : nat) (l : list ascii) : list ascii :=
  match fuel, l with
  | S fuel, c :: l' =>
      match ws_len (code <$> l) with
      | O => if bool_decide (c ∈ ["*"; "_"; "#"; "-"; ">"]%char)
             then trim_start_marks fuel l' else l
      | n => trim_start_marks fuel (drop n l)
      end
  | _, _ => l
  end.

Section auto_continue.
Context (to_lowercase : string → string).

Definition ends_with (c : ascii) (l : list ascii) : bool := bool_decide (last l = Some c).

Definition announces_next_step (line : string) : bool :=
  if (400 <? String.length line) || ends_with "?"%char (chars line) then false
  else
    let body := trim_end_marks (straighten (chars (to_lowercase line))) in
    let last := last_sentence body in
    let sentence := of_chars (trim_start_marks (length last) last) in
    negb (String.prefix "let me know" sentence) &&
    existsb (λ opener, String.prefix opener sentence) OPENERS.

(** The reason and the prompt. *)
Definition auto_continue_reason {A} (response : AssistantResponse A) : option (string * string) :=
  if negb (bool_decide (length (resp_tool_calls response) = 0)) ||
     bool_decide (resp_finish_reason response = Some "length") then None
  else
    let content := trim (resp_content response) in
    if bool_decide (content = "") then Some ("empty_response", EMPTY_RESPONSE_PROMPT)
    else
      match List.find (λ line, negb (bool_decide (line = "")))
              (rev (trim <$> split_char newline content)) with
      | None => None
      | Some last_line =>
          if announces_next_step last_line
          then Some ("announced_step_without_tool_call", ANNOUNCED_STEP_PROMPT) else None
      end.

(** A response that calls tools or was cut off by its length is never
    nudged. *)
Lemma auto_continue_only_final {A} (response : AssistantResponse A) r :
  auto_continue_reason response = Some r →
  resp_tool_calls response = [] ∧ resp_finish_reason response ≠ Some "length".
Proof.
  unfold auto_continue_reason. destruct (_ || _) eqn:Hc; [done|]. intros _.
  apply orb_false_iff in Hc as [Hl%negb_false_iff%bool_decide_eq_true Hf%bool_decide_eq_false].
  split; [by apply nil_length_inv|done].
Qed.
End auto_continue.

Example announced :
  map (announces_next_step (λ s, s))
    ["tests pass. let me check the docs next."; "let me know if that helps."; "shall i?"; "- now i'll run it:"] =
  [true; false; false; true].
Proof. vm_compute. reflexivity. Qed.

(** ** Bookkeeping *)

Section transcript.
Context {A : Type}.
Abbreviation Message := (ChatMessage A).
Implicit Types (m : Message) (h : list Message).

Definition is_system m : bool := bool_decide (msg_role m = RoleSystem).
Definition blank_line : string := String newline (String newline EmptyString).

(** The messages that are not [system] ones, after [sections] were folded into
    one. *)
Definition merge_into (prefix : option Message) h : list Message * nat :=
  let misplaced := filter (λ m, is_system m = true) h in
  let others := filter (λ m, is_system m = false) h in
  match misplaced, prefix with
  | [], Some p => (p :: h, 0)
  | [], None => (h, 0)
  | _, Some p =>
      (set_content (join blank_line (msg_content p :: (msg_content <$> misplaced))) p :: others,
       length misplaced)
  | _, None => (msg_system (join blank_line (msg_content <$> misplaced)) :: others, length misplaced)
  end.

Definition merge_system_messages h : list Message * nat :=
  match h with
  | m :: rest => if is_system m then merge_into (Some m) rest else merge_into None h
  | [] => ([], 0)
  end.

Definition preserve_or_rollback_failed_turn h rollback (observed_tool_activity : bool)
    (message : string) : list Message :=
  if observed_tool_activity then
    h ++ [msg_system ("xshell execution record: the previous turn ended after observed tool activity: "
                        +:+ message)]
  else rollback.

Definition stub_unfinished_tool_calls h (calls : list (ToolCall A)) (message : string) :
    list Message :=
  h ++ ((λ call, tool_result call message) <$> calls).

(** * What a provider is sent *)

Lemma unanswered_system pending m h :
  is_system m = true → unanswered pending (m :: h) = if bool_decide (pending = []) then unanswered [] h else None.
Proof.
  intros Hm%bool_decide_eq_true. simpl. unfold called_ids. rewrite Hm. by destruct pending.
Qed.

Lemma unanswered_others pending h p :
  unanswered pending h = Some p → unanswered pending (filter (λ m, is_system m = false) h) = Some p.
Proof.
  revert pending. induction h as [|m h IH]; intros pending; [done|].
  destruct (is_system m) eqn:Hm.
  - rewrite unanswered_system by done. case_bool_decide; [subst|done].
    rewrite filter_cons_False by congruence. apply IH.
  - rewrite filter_cons_True by done. simpl.
    destruct pending, (msg_role m); try done; try apply IH.
    case_bool_decide; [apply IH|done].
Qed.

Lemma unanswered_prefix p q h pending :
  msg_role p = RoleSystem → msg_role q = RoleSystem →
  unanswered pending (p :: h) = unanswered pending (q :: h).
Proof. intros Hp Hq. simpl. unfold called_ids. rewrite Hp, Hq. by destruct pending. Qed.

Definition system_contents h : list string := msg_content <$> filter (λ m, is_system m = true) h.
Definition others h : list Message := filter (λ m, is_system m = false) h.

Lemma no_system_others h : filter (λ m, is_system m = true) h = [] → others h = h.
Proof.
  intros Hn. apply filter_all. intros m Hm. apply not_true_iff_false. intros Hs.
  assert (m ∈ filter (λ m, is_system m = true) h) as Hin by (by apply list_elem_of_filter).
  rewrite Hn in Hin. by apply elem_of_nil in Hin.
Qed.

Lemma others_no_system h : filter (λ m, is_system m = true) (others h) = [].
Proof.
  apply elem_of_nil_inv. intros m. unfold others. rewrite !list_elem_of_filter.
  intros (? & ? & _). congruence.
Qed.

Lemma others_idemp h : others (others h) = others h.
Proof. apply no_system_others, others_no_system. Qed.

(** Either nothing is merged, or everything is. *)
Lemma merge_cases h :
  ((merge_system_messages h).1 = h ∧
   ((∃ m rest, h = m :: rest ∧ is_system m = true ∧ filter (λ m, is_system m = true) rest = []) ∨
    filter (λ m, is_system m = true) h = [])) ∨
  ∃ s, (merge_system_messages h).1 = s :: others h ∧ is_system s = true ∧
    msg_content s = join blank_line (system_contents h).
Proof.
  destruct h as [|m h]; [left; split; [done|by right]|].
  unfold merge_system_messages, system_contents, others.
  destruct (is_system m) eqn:Hm; unfold merge_into.
  - rewrite (filter_cons_True _ m h) by done. rewrite (filter_cons_False _ m h) by congruence.
    destruct (filter (λ m, is_system m = true) h) eqn:Hf; simpl.
    + left. split; [done|]. left. by exists m, h.
    + right. eexists. split_and!; [done| |done]. by apply bool_decide_eq_true in Hm; apply bool_decide_eq_true.
  - destruct (filter (λ m, is_system m = true) (m :: h)) eqn:Hf; simpl.
    + left. split; [done|]. by right.
    + right. by eexists.
Qed.

(** What a provider is sent has its only system message first: every other record is folded
    into it, word for word and in order, the other messages are untouched, and tool results still
    answer their calls. *)
Lemma merged_request_well_formed h :
  let request := (merge_system_messages h).1 in
  (Paired h → Paired request) ∧ others request = others h ∧
  (system_contents h = [] ∧ request = h ∨
   ∃ s, request = s :: others h ∧ is_system s = true ∧
     msg_content s = join blank_line (system_contents h)).
Proof.
  destruct (merge_cases h) as [[Heq Hsys]|(s & Heq & Hs & Hc)]; simpl; rewrite Heq.
  - split_and!; [done|done|]. destruct Hsys as [(m & rest & -> & Hm & Hrest)|Hnone].
    + right. exists m. unfold system_contents, others.
      rewrite (filter_cons_False (λ m, is_system m = false) m rest) by congruence.
      rewrite (filter_cons_True (λ m, is_system m = true) m rest) by done. rewrite Hrest.
      fold (others rest). by rewrite no_system_others.
    + left. unfold system_contents. by rewrite Hnone.
  - split_and!.
    + intros Hp%unanswered_others. unfold Paired. rewrite unanswered_system by done. exact Hp.
    + unfold others at 1. rewrite filter_cons_False by congruence. apply others_idemp.
    + right. by exists s.
Qed.
End transcript.
