(* ===== verification/Engine.v ===== *)
(** The agent turn ([run_agent_turn_with_budget] and [run_delegation] of
    [crates/xshell-execution/src/engine.rs], with [prepare_call] and
    [execute_prepared] of [tools.rs]).

    What a turn does not decide itself - the provider's answers, the clock,
    cancellation, the user, files and processes - is a [World]: a state and
    functions that answer and step it. The turn is a function over any world,
    so its theorems hold for every provider and user. A turn started by
    [delegate_task] runs through the same function. [fuel] bounds the provider
    requests of a turn and of the turns it starts. [FileTools.with_tools] and
    [OpenAiSpec.chat] supply opening files and asking a provider as the code does. *)
From Stdlib Require Import Ascii.
From S2P Require Import Prelude Sensitive Policy Budget.
From S2P Require Import CallId Chat Compaction Tools Transcript.

Inductive ApprovalDecision : Type := DecideApprove | DecideDeny | AbortTurn.

#[export] Instance ApprovalDecision_eq_dec : EqDecision ApprovalDecision.
Proof. solve_decision. Defined.

(** [ContextOverflow], and every other error by its text. *)
Inductive AdapterError : Type :=
| ContextOverflow (prompt_tokens available_tokens : option N)
| OtherAdapterError (text : string).

Inductive TurnError : Type :=
| ErrBudget (e : BudgetExhausted)
| ErrAdapter (e : AdapterError)
| ErrBail (text : string).

Inductive TurnEnd : Type := TurnOk | TurnErr (e : TurnError).

Definition adapter_message (e : AdapterError) : string :=
  match e with
  | ContextOverflow _ _ => "the prompt exceeds the model's context window"
  | OtherAdapterError text => text
  end.

Definition error_message (e : TurnError) : string :=
  match e with
  | ErrBudget e => exhausted_message e
  | ErrAdapter e => adapter_message e
  | ErrBail text => text
  end.

Section types.
Context {A Obj : Type}.

Inductive Event : Type :=
| TextDelta (text : string)
| AgentResponse (content : string) (tool_call_count : nat) (partial : bool)
    (reasoning finish_reason : option string)
| AutoContinued (reason prompt : string)
| ToolRequested (call : ToolCall A)
| ApprovalRequested (call : ToolCall A) (reason : option GateReason)
| ToolDecision (call_id : string) (decision : ApprovalDecision)
| ToolSkipped (call_id name : string)
| ToolResult (call_id name result : string)
| TurnAborted
| HistoryCompacted (report : CompactionReport)
| SubagentStarted (agent task : string) (tools : list string)
| Subagent (agent : string) (event : Event)
| SubagentFinished (agent outcome : string) (message : option string).

Inductive ProviderOutcome : Type :=
| ProviderResponse (r : AssistantResponse A)
| ProviderError (e : AdapterError)
| ProviderCancelled
| ProviderExpired.

(** The event with every [Subagent] wrapper removed, and the subagent that
    emitted it. *)
Fixpoint into_innermost (event : Event) : option string * Event :=
  match event with
  | Subagent agent event =>
      let '(inner, event) := into_innermost event in (Some (default agent inner), event)
  | event => (None, event)
  end.

Fixpoint innermost (event : Event) : Event :=
  match event with Subagent _ event => innermost event | event => event end.

(** The text streamed while a request ran, and how it ended. *)
Record ChatAnswer := {
  answer_deltas : list string;
  answer_outcome : ProviderOutcome;
}.

Record World (W : Type) := {
  chat : W → list (ChatMessage A) → list Tool → ChatAnswer * W;
  read_clock : W → N * W;
  read_cancelled : W → bool * W;
  ask_user : W → ToolCall A → GateReason → ApprovalDecision * W;
  (** [prepared::prepare]: a path, whether a directory is wanted, and the
      sensitive paths. *)
  open_object : W → string → bool → SensitivePaths → (string + PreparedObject Obj) * W;
  (** Reading an opened object or running a shell command, within a timeout. *)
  run_tool : W → ToolCall A → option (PreparedObject Obj) → N → (string + string) * W;
}.

(** [TurnPolicy]; the limits are those of the budget. *)
Record TurnPolicy := {
  tp_approval : ApprovalPolicy;
  tp_sensitive_paths : SensitivePaths;
  tp_blocked_paths : SensitivePaths;
  tp_rules : ApprovalRules;
  tp_compactor : Compactor A;
  tp_tools : ToolSet;
  tp_agent_scope : option string;
}.

(** [TurnPolicy::new] and the setters used here; [overhead] is the size of the
    tool schemas. *)
Definition turn_policy_new (args_text : A → string) (overhead : N) (approval : ApprovalPolicy) : TurnPolicy := {|
  tp_approval := approval;
  tp_sensitive_paths := sensitive_default;
  tp_blocked_paths := sensitive_none;
  tp_rules := {| base := {| always_allowed := []; allowed := None; denied := [] |}; overlay := None |};
  tp_compactor := build args_text overhead config_default;
  tp_tools := toolset_all;
  tp_agent_scope := None;
|}.

(** What an agent shares with the host and the agents it starts: the world,
    the budget, the events emitted so far and the observers between the agent
    and the host, innermost first, each with its [aborted] flag. *)
Record Host (W : Type) := {
  world : W;
  budget : TurnBudget;
  events : list Event;
  observers : list (string * bool);
}.

(** The variables of a turn. *)
Record Turn (W : Type) := {
  host : Host W;
  history : list (ChatMessage A);
  rollback_history : list (ChatMessage A);
  call_ids : CallIds;
  delegations : nat;
  observed_tool_activity : bool;
  auto_continued : N;
  overflow_retry_used : bool;
}.
End types.
Arguments Event : clear implicits.
Arguments World : clear implicits.
Arguments TurnPolicy : clear implicits.
Arguments Host : clear implicits.
Arguments Turn : clear implicits.
Arguments chat {A Obj W}.
Arguments read_clock {A Obj W}.
Arguments read_cancelled {A Obj W}.
Arguments ask_user {A Obj W}.
Arguments open_object {A Obj W}.
Arguments run_tool {A Obj W}.
Arguments world {A W}.
Arguments budget {A W}.
Arguments events {A W}.
Arguments observers {A W}.
Arguments host {A W}.
Arguments history {A W}.
Arguments rollback_history {A W}.
Arguments call_ids {A W}.
Arguments delegations {A W}.
Arguments observed_tool_activity {A W}.
Arguments auto_continued {A W}.
Arguments overflow_retry_used {A W}.

Section engine.
Context {A Obj W : Type} (w : World A Obj W).
(** JSON accessors, the shell word splitter and Unicode lower case. *)
Context (args_text : A → string) (arg_str : A → string → option string).
Context (split : string → string + list string) (to_lowercase : string → string).

Abbreviation Message := (ChatMessage A).
Abbreviation Call := (ToolCall A).
Abbreviation Host := (Host A W).
Abbreviation Turn := (Turn A W).
Abbreviation Result := (Outcome Empty_set).
(** How a turn ends, the history it leaves, and the host. *)
Abbreviation Ended := (TurnEnd * list Message * Host)%type.

(** ** The host *)

Definition set_world (s : W) (h : Host) : Host :=
  {| world := s; budget := budget h; events := events h; observers := observers h |}.
Definition set_budget (b : TurnBudget) (h : Host) : Host :=
  {| world := world h; budget := b; events := events h; observers := observers h |}.

Definition is_turn_aborted (e : Event A) : bool := match e with TurnAborted => true | _ => false end.

(** [TurnObserver::emit] through the observers: each wraps the event for its
    parent, and the innermost notes an abort. *)
Definition emit (e : Event A) (h : Host) : Host :=
  {| world := world h; budget := budget h;
     events := events h ++ [foldl (λ e observer, Subagent observer.1 e) e (observers h)];
     observers :=
       match observers h with
       | (agent, aborted) :: parents => (agent, aborted || is_turn_aborted e) :: parents
       | [] => []
       end |}.

Definition emit_all (es : list (Event A)) (h : Host) : Host := foldl (λ h e, emit e h) h es.

Definition cancelled (h : Host) : bool * Host :=
  let '(c, s) := read_cancelled w (world h) in (c, set_world s h).

(** A charge at the clock's present reading. *)
Definition charge_with (f : N → TurnBudget → TurnBudget * Outcome BudgetExhausted ()) (h : Host) :
    Outcome BudgetExhausted () * Host :=
  let '(now, s) := read_clock w (world h) in
  let '(b, r) := f now (budget h) in
  (r, set_budget b (set_world s h)).

(** ** The turn's variables *)

Definition set_host (h : Host) (t : Turn) : Turn := {|
  host := h; history := history t; rollback_history := rollback_history t; call_ids := call_ids t;
  delegations := delegations t; observed_tool_activity := observed_tool_activity t;
  auto_continued := auto_continued t; overflow_retry_used := overflow_retry_used t |}.
Definition set_history (k : list Message) (t : Turn) : Turn := {|
  host := host t; history := k; rollback_history := rollback_history t; call_ids := call_ids t;
  delegations := delegations t; observed_tool_activity := observed_tool_activity t;
  auto_continued := auto_continued t; overflow_retry_used := overflow_retry_used t |}.
Definition set_call_ids (ids : CallIds) (t : Turn) : Turn := {|
  host := host t; history := history t; rollback_history := rollback_history t; call_ids := ids;
  delegations := delegations t; observed_tool_activity := observed_tool_activity t;
  auto_continued := auto_continued t; overflow_retry_used := overflow_retry_used t |}.
(** [observed_tool_activity = true], and a delegation counted. *)
Definition observe_activity (delegation : bool) (t : Turn) : Turn := {|
  host := host t; history := history t; rollback_history := rollback_history t;
  call_ids := call_ids t; delegations := (if delegation then S else id) (delegations t);
  observed_tool_activity := true; auto_continued := auto_continued t;
  overflow_retry_used := overflow_retry_used t |}.
Definition count_auto_continue (t : Turn) : Turn := {|
  host := host t; history := history t; rollback_history := rollback_history t;
  call_ids := call_ids t; delegations := delegations t;
  observed_tool_activity := observed_tool_activity t; auto_continued := (auto_continued t + 1)%N;
  overflow_retry_used := overflow_retry_used t |}.
(** [overflow_retry_used = true], with both histories shrunk. *)
Definition retry_overflow (k rollback : list Message) (t : Turn) : Turn := {|
  host := host t; history := k; rollback_history := rollback; call_ids := call_ids t;
  delegations := delegations t; observed_tool_activity := observed_tool_activity t;
  auto_continued := auto_continued t; overflow_retry_used := true |}.

Definition push (m : Message) (t : Turn) : Turn := set_history (history t ++ [m]) t.
Definition emit_turn (e : Event A) (t : Turn) : Turn := set_host (emit e (host t)) t.

(** [preserve_or_rollback_failed_turn] and the [bail!] after it. *)
Definition fail_turn (message : string) (e : TurnError) (t : Turn) : Ended :=
  (TurnErr e,
   preserve_or_rollback_failed_turn (history t) (rollback_history t) (observed_tool_activity t) message,
   host t).

Definition end_turn (t : Turn) : Ended := (TurnOk, history t, host t).

(** ** Answering a call without running it *)

Definition refuse_tool_call (calls : Call * Call) (result : string) (t : Turn) : Turn :=
  let '(call, scoped) := calls in
  push (tool_result call result)
    (emit_turn (ToolResult (call_id scoped) (call_name call) result)
       (emit_turn (ToolDecision (call_id scoped) DecideDeny) t)).

Definition skip_events (calls : list (Call * Call)) : list (Event A) :=
  (λ p, ToolSkipped (call_id p.2) (call_name p.2)) <$> calls.

Definition stub (calls : list (Call * Call)) (message : string) (t : Turn) : Turn :=
  set_history (stub_unfinished_tool_calls (history t) calls.*1 message) t.

(** The user stopped the turn: what is left is answered and skipped. *)
Definition abort_turn (answered skipped : list (Call * Call)) (t : Turn) : Ended :=
  let t := stub answered "tool execution aborted by user; agent turn stopped" t in
  let t := set_host (emit_all (skip_events skipped) (host t)) t in
  end_turn (emit_turn TurnAborted t).

(** ** Preparing and running a call *)

(** [read_request]: the path and whether a directory is wanted. *)
Definition read_request (call : Call) : option (string + (string * bool)) :=
  match from_name (call_name call) with
  | Some ReadFile =>
      Some match arg_str (call_arguments call) "path" with
           | Some path => inr (path, false)
           | None => inl "missing string argument path"
           end
  | Some ListDirectory =>
      Some (inr (default "." (arg_str (call_arguments call) "path"), true))
  | Some RunShell | Some DelegateTask | None => None
  end.

Definition prepare_call (policy : TurnPolicy A) (call : Call) (h : Host) : Preparation Obj * Host :=
  match read_request call with
  | None => (PrepOther, h)
  | Some (inl error) => (PrepFailed ("tool error: " +:+ error), h)
  | Some (inr (path, directory)) =>
      let '(r, s) := open_object w (world h) path directory (tp_sensitive_paths policy) in
      let h := set_world s h in
      match r with
      | inr o =>
          if matches (tp_blocked_paths policy) (object_path o)
          then (PrepFailed ("tool error: " +:+ object_path o +:+ " is blocked by the session host's policy"), h)
          else (PrepRead o, h)
      | inl error => (PrepFailed ("tool error: " +:+ error), h)
      end
  end.

Definition execute_prepared (call : Call) (p : Preparation Obj) (h : Host) : Result (string * Host) :=
  let run (o : option (PreparedObject Obj)) :=
    let '(r, s) := run_tool w (world h) call o (shell_timeout (budget_limits (budget h))) in
    match r with
    | inr output => let! output := truncate output in Done (output, set_world s h)
    | inl error => Done ("tool error: " +:+ error, set_world s h)
    end in
  match p with
  | PrepFailed message => Done (message, h)
  | PrepRead o => run (Some o)
  | PrepOther =>
      match from_name (call_name call) with
      | Some RunShell => run None
      | Some DelegateTask => Done ("tool error: delegate_task is dispatched by the agent engine", h)
      | Some _ => Done ("tool error: " +:+ call_name call +:+ " was not prepared", h)
      | None => Done ("tool error: unknown tool " +:+ call_name call, h)
      end
  end.

Definition call_facts (call : Call) (tool : Tool) (p : Preparation Obj) : CallFacts := {|
  call_tool := call_name call;
  call_command := if bool_decide (tool = RunShell) then arg_str (call_arguments call) "command" else None;
  call_path := preparation_path p;
  call_gated := bool_decide (is_Some (gate call p));
  call_sensitive := bool_decide (gate call p = Some SensitivePath);
|}.

(** The decision on a call, and whether the policy alone denied it. *)
Definition decide_call (policy : TurnPolicy A) (calls : Call * Call) (tool : Tool) (p : Preparation Obj)
    (h : Host) : ApprovalDecision * bool * Host :=
  let '(call, scoped) := calls in
  let facts := call_facts call tool p in
  let policy_decision := rules_decide split (tp_rules policy) facts (tp_approval policy) in
  let denied_by_policy :=
    bool_decide (policy_decision = Deny) &&
    negb (bool_decide (default_decision facts (tp_approval policy) = Deny)) in
  match policy_decision with
  | Run => (DecideApprove, denied_by_policy, h)
  | Deny => (DecideDeny, denied_by_policy, h)
  | Prompt =>
      let reason := default PolicyGate (gate call p) in
      let h := emit (ApprovalRequested scoped (Some reason)) h in
      let '(decision, s) := ask_user w (world h) scoped reason in
      (decision, denied_by_policy, set_world s h)
  end.

(** ** The calls of a response *)

(** What a delegated turn gives back: its result and whether the user aborted
    it. *)
Record Delegation := {
  delegation_result : string;
  delegation_aborted : bool;
}.

(** Going on to the next call, or the end of the turn. *)
Definition Step : Type := Turn + Ended.

Section calls.
Context (policy : TurnPolicy A).
(** [run_delegation] of a call, with its number. *)
Context (delegate : Call → nat → Host → Result (Delegation * Host)).

(** Running what was decided: the result, whether a subagent was aborted, and
    the turn. *)
Definition run_decided (call : Call) (tool : Tool) (p : Preparation Obj) (decision : ApprovalDecision)
    (denied_by_policy : bool) (t : Turn) : Result (string * bool * Turn) :=
  if denied_by_policy then Done ("tool denied by the approval policy", false, t)
  else if negb (bool_decide (decision = DecideApprove)) then Done ("tool denied by user", false, t)
  else if bool_decide (tool = DelegateTask) then
    let t := observe_activity true t in
    let! r := delegate call (delegations t) (host t) in
    let '(d, h) := r in Done (delegation_result d, delegation_aborted d, set_host h t)
  else
    let t := observe_activity false t in
    let! r := execute_prepared call p (host t) in
    let '(result, h) := r in Done (result, false, set_host h t).

(** What follows a result. *)
Definition after_result (rest : list (Call * Call)) (aborted : bool) (t : Turn) : Step :=
  if aborted then inr (abort_turn rest rest t)
  else
    let '(c, h) := cancelled (host t) in
    let t := set_host h t in
    if c then
      let t := set_host (emit_all (skip_events rest) (host t)) t in
      let t := stub rest "tool not run because the agent turn was cancelled" t in
      inr (fail_turn "agent turn cancelled during tool execution"
             (ErrBail "agent turn cancelled during tool execution") t)
    else inl t.

(** A call that the agent may make: from its preparation on. *)
Definition dispatch_call (calls : Call * Call) (tool : Tool) (rest : list (Call * Call)) (t : Turn) :
    Result Step :=
  let '(call, scoped) := calls in
  let '(p, h) := prepare_call policy call (host t) in
  let '(decision, denied_by_policy, h) := decide_call policy calls tool p h in
  let t := set_host (emit (ToolDecision (call_id scoped) decision) h) t in
  let '(c, h) := cancelled (host t) in
  let t := set_host h t in
  if c then
    let t := if observed_tool_activity t
             then stub (calls :: rest)
                    "tool not run because the agent turn was cancelled before execution" t
             else t in
    Done (inr (fail_turn "agent turn cancelled before tool execution"
                 (ErrBail "agent turn cancelled before tool execution") t))
  else if bool_decide (decision = AbortTurn) then Done (inr (abort_turn (calls :: rest) rest t))
  else
    let! r := run_decided call tool p decision denied_by_policy t in
    let '(result, aborted, t) := r in
    let t := emit_turn (ToolResult (call_id scoped) (call_name call) result) t in
    Done (after_result rest aborted (push (tool_result call result) t)).

Definition unavailable (name : string) : string :=
  if bool_decide (is_Some (from_name name))
  then "tool error: " +:+ name +:+ " is not available to this agent"
  else "tool error: unknown tool " +:+ name.

(** One turn of the loop over the calls; [rest] are those after it. *)
Definition run_call (index : N) (calls : Call * Call) (rest : list (Call * Call)) (t : Turn) :
    Result Step :=
  let '(c, h) := cancelled (host t) in
  let t := set_host h t in
  let limits := budget_limits (budget h) in
  if c then
    let t := if observed_tool_activity t
             then stub (calls :: rest) "tool not run because the agent turn was cancelled" t else t in
    Done (inr (fail_turn "agent turn cancelled" (ErrBail "agent turn cancelled") t))
  else if (tool_calls_per_response limits <=? index)%N then
    Done (inl (refuse_tool_call calls
      ("tool error: not run; the response exceeded the limit of " +:+
       fmt_N (tool_calls_per_response limits) +:+ " tool calls per response") t))
  else
    let '(r, h) := charge_with charge_tool_call (host t) in
    let t := set_host h t in
    match r with
    | Fail exhausted =>
        let message := "tool error: not run; " +:+ exhausted_message exhausted in
        let t := foldl (λ t calls, refuse_tool_call calls message t) t (calls :: rest) in
        Done (inr (fail_turn (exhausted_message exhausted) (ErrBudget exhausted) t))
    | Done _ =>
        match get (tp_tools policy) (call_name calls.1) with
        | None => Done (inl (refuse_tool_call calls (unavailable (call_name calls.1)) t))
        | Some tool => dispatch_call calls tool rest t
        end
    | Panic => Panic
    end.

Fixpoint run_calls (index : N) (calls : list (Call * Call)) (t : Turn) : Result Step :=
  match calls with
  | [] => Done (inl t)
  | call :: rest =>
      let! step := run_call index call rest t in
      match step with
      | inl t => run_calls (index + 1) rest t
      | inr ended => Done (inr ended)
      end
  end.
End calls.

(** ** Provider requests *)

Definition stage_compaction (c : Compactor A) (k : list Message) :
    Result (option (list Message * CompactionReport)) :=
  if match compactor_max_bytes c with
     | Some max_bytes => (history_bytes args_text k <=? max_bytes)%N
     | None => false
     end
  then Done None
  else
    let! r := compact c k in
    let '(staged, report) := r in
    Done match report with Some report => Some (staged, report) | None => None end.

Definition compact_history (policy : TurnPolicy A) (t : Turn) : Result Turn :=
  let! c := compact (tp_compactor policy) (history t) in
  let t := set_history c.1 t in
  Done match c.2 with Some report => emit_turn (HistoryCompacted report) t | None => t end.

Definition emit_partial_response (streamed : string) (h : Host) : Host :=
  if bool_decide (streamed = "") then h
  else emit (AgentResponse streamed 0 true None None) h.

(** [call_ids.scoped(call)] for every call of a response. *)
Fixpoint scope_calls (ids : CallIds) (calls : list Call) : Result (list Call * CallIds) :=
  match calls with
  | [] => Done ([], ids)
  | call :: calls =>
      match scoped ids call with
      | Done (call, ids) =>
          let! r := scope_calls ids calls in
          let '(calls, ids) := r in Done (call :: calls, ids)
      | _ => Panic
      end
  end.

Definition measured_overflow (prompt available : option N) : string :=
  match prompt, available with
  | Some prompt, Some available =>
      "the prompt (" +:+ fmt_N prompt +:+ " tokens) exceeded the model's " +:+ fmt_N available +:+
      "-token context window"
  | _, _ => "the prompt exceeded the model's context window"
  end.

(** [history[rposition(user)..]] with its payloads dropped. *)
Definition drop_turn_payloads (k : list Message) : list Message :=
  let turn_start := default 0 (last_index RoleUser k) in
  take turn_start k ++ (drop_tool_payloads (drop turn_start k)).1.

(** The first overflow of a turn: shrink and retry, or give up. *)
Definition handle_overflow (policy : TurnPolicy A) (measured : string) (t : Turn) : Result Step :=
  let! r := compact_overflow (tp_compactor policy) (history t) in
  let '(shrunk, report) := r in
  match report with
  | Some report =>
      let t := emit_turn (HistoryCompacted report) t in
      let! r := compact_overflow (tp_compactor policy) (rollback_history t) in
      Done (inl (retry_overflow shrunk r.1 t))
  | None =>
      let t := set_history (if observed_tool_activity t then drop_turn_payloads shrunk else shrunk) t in
      let '(_, k, h) := fail_turn
        (measured +:+ " and history could not be shrunk further; this turn's tool output was dropped from the transcript")
        (ErrBail "") t in
      let k := if observed_tool_activity t then k
               else k ++ [msg_system
                 ("xshell execution record: the previous turn was rejected because " +:+ measured +:+
                  ". Older context was compacted as far as it can go and the turn was rolled back.")] in
      Done (inr (TurnErr (ErrBail (measured +:+ "; the transcript is now estimated at " +:+
        fmt_N (estimate_history_tokens args_text k) +:+
        " tokens. Start a new session with //new or lower max_history_bytes to continue.")), k, h))
  end.

(** ** The loop *)

Section loop.
Context (policy : TurnPolicy A).
Context (delegate : Call → nat → Host → Result (Delegation * Host)).

(** An accepted response: its calls, a nudge, or the end of the turn. *)
Definition accept_response (staged : option (list Message * CompactionReport))
    (r : AssistantResponse A) (t : Turn) : Result Step :=
  let t := match staged with
           | Some (compacted, report) => set_history compacted (emit_turn (HistoryCompacted report) t)
           | None => t
           end in
  let t := emit_turn (AgentResponse (resp_content r) (length (resp_tool_calls r)) false
             (resp_reasoning r) (resp_finish_reason r)) t in
  let! ids := scope_calls (call_ids t) (resp_tool_calls r) in
  let '(scoped_calls, ids) := ids in
  let t := set_call_ids ids t in
  let t := set_host (emit_all (ToolRequested <$> scoped_calls) (host t)) t in
  let t := push (with_reasoning (assistant_with_tools (resp_content r) (resp_tool_calls r))
                   (resp_reasoning r)) t in
  let finish := let! t := compact_history policy t in Done (inr (end_turn t)) in
  if bool_decide (resp_tool_calls r = []) then
    match auto_continue_reason to_lowercase r with
    | Some (reason, prompt) =>
        if (auto_continued t <? auto_continues (budget_limits (budget (host t))))%N then
          let t := emit_turn (AutoContinued reason prompt) (count_auto_continue t) in
          Done (inl (push (msg_user prompt) t))
        else finish
    | None => finish
    end
  else run_calls policy delegate 0 (zip (resp_tool_calls r) scoped_calls) t.

Definition turn_step (t : Turn) : Result Step :=
  let '(r, h) := charge_with charge_provider_request (host t) in
  let t := set_host h t in
  match r with
  | Fail exhausted => Done (inr (fail_turn (exhausted_message exhausted) (ErrBudget exhausted) t))
  | Panic => Panic
  | Done _ =>
      let! staged := stage_compaction (tp_compactor policy) (history t) in
      let messages := match staged with Some (compacted, _) => compacted | None => history t end in
      let request := (merge_system_messages messages).1 in
      let '(answer, s) := chat w (world (host t)) request (tools_of (tp_tools policy)) in
      let t := set_host (emit_all (TextDelta <$> answer_deltas answer) (set_world s (host t))) t in
      let streamed := String.concat "" (answer_deltas answer) in
      match answer_outcome answer with
      | ProviderCancelled =>
          Done (inr (fail_turn "agent turn cancelled" (ErrBail "agent turn cancelled") t))
      | ProviderExpired =>
          let exhausted := ExWallTime (wall_time (budget_limits (budget (host t)))) in
          let t := set_host (emit_partial_response streamed (host t)) t in
          Done (inr (fail_turn (exhausted_message exhausted) (ErrBudget exhausted) t))
      | ProviderError (ContextOverflow prompt available) =>
          if negb (overflow_retry_used t) then
            handle_overflow policy (measured_overflow prompt available) t
          else
            let e := ContextOverflow prompt available in
            let t := set_host (emit_partial_response streamed (host t)) t in
            Done (inr (fail_turn ("agent provider failed: " +:+ adapter_message e) (ErrAdapter e) t))
      | ProviderError e =>
          let t := set_host (emit_partial_response streamed (host t)) t in
          Done (inr (fail_turn ("agent provider failed: " +:+ adapter_message e) (ErrAdapter e) t))
      | ProviderResponse r => accept_response staged r t
      end
  end.
End loop.

(** ** Delegation *)

Definition DEFAULT_SYSTEM_PROMPT : string :=
  "You are a helpful engineering assistant. Be explicit about uncertainty. Do not take irreversible, destructive, or security-sensitive actions without explaining the intended action and obtaining confirmation.".
Definition SUBAGENT_SYSTEM_PROMPT : string :=
  "You are a subagent started by another agent to complete one bounded task. Work only on that task. You cannot ask the user questions. Your final message is returned to the other agent as the task's result, so make it a complete, self-contained answer that states what you found and anything you could not determine.".

(** What the child may use; [None] for an argument that is refused. *)
Definition requested_tools (call : Call) : option ToolSet :=
  match arg_str (call_arguments call) "tools" with
  | None => Some toolset_read_only
  | Some name =>
      if bool_decide (name = "read_only") then Some toolset_read_only
      else if bool_decide (name = "inherit") then Some toolset_all
      else None
  end.

Definition delegate_name (policy : TurnPolicy A) (number : nat) : string :=
  match tp_agent_scope policy with
  | Some scope => scope +:+ "/delegate-" +:+ fmt_nat number
  | None => "delegate-" +:+ fmt_nat number
  end.

Definition child_policy (policy : TurnPolicy A) (tools : ToolSet) (name : string) : TurnPolicy A := {|
  tp_approval := tp_approval policy; tp_sensitive_paths := tp_sensitive_paths policy;
  tp_blocked_paths := tp_blocked_paths policy; tp_rules := tp_rules policy;
  tp_compactor := tp_compactor policy; tp_tools := tools; tp_agent_scope := Some name |}.

Definition push_observer (name : string) (h : Host) : Host :=
  {| world := world h; budget := budget h; events := events h;
     observers := (name, false) :: observers h |}.

(** The child's [aborted] flag, and the host without the child's observer. *)
Definition pop_observer (h : Host) : bool * Host :=
  match observers h with
  | (_, aborted) :: parents =>
      (aborted, {| world := world h; budget := budget h; events := events h; observers := parents |})
  | [] => (false, h)
  end.

Definition final_answer (k : list Message) : string :=
  match List.find (λ m, bool_decide (msg_role m = RoleAssistant)) (rev k) with
  | Some m =>
      let content := trim (msg_content m) in
      if bool_decide (content = "") then "(the subagent finished without a final answer)" else content
  | None => "(the subagent finished without a final answer)"
  end.

(** The status, the message and the result of a child's turn. *)
Definition delegation_outcome (name : string) (ended : TurnEnd) (aborted : bool) (k : list Message)
    (h : Host) : string * option string * string * Host :=
  match ended with
  | TurnOk =>
      if aborted then
        ("aborted", None, "subagent " +:+ name +:+ " stopped: the user aborted its turn", h)
      else ("completed", None, final_answer k, h)
  | TurnErr (ErrBudget e) =>
      ("budget_exhausted", Some (exhausted_message e),
       "subagent " +:+ name +:+ " stopped: " +:+ exhausted_message e, h)
  | TurnErr e =>
      let '(c, h) := cancelled h in
      if c then ("cancelled", None, "subagent " +:+ name +:+ " was cancelled", h)
      else ("failed", Some (error_message e),
            "subagent " +:+ name +:+ " failed: " +:+ error_message e, h)
  end.

Definition refused (message : string) (h : Host) : Delegation * Host :=
  ({| delegation_result := "tool error: " +:+ message; delegation_aborted := false |}, h).

Definition run_delegation
    (child_turn : TurnPolicy A → list Message → string → Host → Result Ended)
    (policy : TurnPolicy A) (call : Call) (number : nat) (h : Host) : Result (Delegation * Host) :=
  match arg_str (call_arguments call) "task" with
  | Some task =>
      if blank task then
        Done (refused ("delegate_task requires a non-empty string argument " +:+ debug_str "task") h)
      else
        match requested_tools call with
        | None =>
            Done (refused ("delegate_task " +:+ debug_str "tools" +:+ " must be " +:+
              debug_str "read_only" +:+ " or " +:+ debug_str "inherit" +:+ ", not " +:+
              debug_str (default "" (arg_str (call_arguments call) "tools"))) h)
        | Some requested =>
            let tools := without (intersect requested (tp_tools policy)) DelegateTask in
            let name := delegate_name policy number in
            let h := emit (SubagentStarted name task (tool_name <$> tools_of tools)) h in
            let system := msg_system (DEFAULT_SYSTEM_PROMPT +:+ blank_line +:+ SUBAGENT_SYSTEM_PROMPT) in
            let! r := child_turn (child_policy policy tools name) [system] task (push_observer name h) in
            let '(ended, k, h) := r in
            let '(aborted, h) := pop_observer h in
            let '(status, message, result, h) := delegation_outcome name ended aborted k h in
            let h := emit (SubagentFinished name status message) h in
            let! result := truncate result in
            Done ({| delegation_result := result; delegation_aborted := aborted |}, h)
        end
  | None =>
      Done (refused ("delegate_task requires a non-empty string argument " +:+ debug_str "task") h)
  end.

(** ** Turns *)

Definition start_turn (policy : TurnPolicy A) (k : list Message) (message : string) (h : Host) : Turn := {|
  host := h; history := k ++ [msg_user message]; rollback_history := k;
  call_ids := call_ids_new (tp_agent_scope policy); delegations := 0;
  observed_tool_activity := false; auto_continued := 0; overflow_retry_used := false |}.

(** The loop of a turn, and through it the turns it starts. *)
Fixpoint turn_loop (fuel : nat) (policy : TurnPolicy A) (t : Turn) : Result Ended :=
  match fuel with
  | O => Panic
  | S fuel =>
      let child policy k message h := turn_loop fuel policy (start_turn policy k message h) in
      let! step := turn_step policy (run_delegation child policy) t in
      match step with
      | inl t => turn_loop fuel policy t
      | inr ended => Done ended
      end
  end.

(** [run_agent_turn_with_budget]. *)
Definition run_agent_turn_with_budget (fuel : nat) (policy : TurnPolicy A) (k : list Message)
    (message : string) (h : Host) : Result Ended :=
  turn_loop fuel policy (start_turn policy k message h).

(** [run_agent_turn]: a root turn with a fresh budget. *)
Definition run_agent_turn (fuel : nat) (clock_max : N) (limits : TurnLimits) (policy : TurnPolicy A)
    (k : list Message) (message : string) (s : W) : Result Ended :=
  let '(now, s) := read_clock w s in
  run_agent_turn_with_budget fuel policy k message
    {| world := s; budget := budget_new clock_max now limits; events := []; observers := [] |}.
End engine.
