(* ===== verification/EngineTrace.v ===== *)
(** What an agent turn does to its surroundings, as a sequence of
    interactions.

    [Acts] relates two states of a [World] by the interactions between them,
    with their answers. [Lawful] says which sequences an agent of a policy may
    perform: what it may send to a provider and when it may run a tool.
    [Advances] relates the hosts before and after a piece of a turn: a lawful
    sequence was performed, its requests and tool runs were charged, and events
    were only added. *)
From Stdlib Require Import Ascii.
From S2P Require Import Prelude Sensitive Policy Budget.
From S2P Require Import CallId Chat Tools Transcript Engine.

Section trace.
Context {A Obj W : Type} (w : World A Obj W).
Context (arg_str : A → string → option string) (split : string → string + list string).
(** The policy of the root agent. *)
Context (root : TurnPolicy A).

Abbreviation Message := (ChatMessage A).
Abbreviation Call := (CallId.ToolCall A).
Abbreviation Host := (Host A W).

Inductive Action : Type :=
| ActChat (request : list Message) (tools : list Tool)
| ActClock (now : N)
| ActCancelled (c : bool)
| ActAsked (call : Call) (reason : GateReason) (decision : ApprovalDecision)
| ActOpened (path : string) (directory : bool) (r : string + PreparedObject Obj)
| ActRan (call : Call) (o : option (PreparedObject Obj)) (timeout : N).

(** One interaction. *)
Inductive act : W → Action → W → Prop :=
| act_chat s request tools a s' : chat w s request tools = (a, s') → act s (ActChat request tools) s'
| act_clock s now s' : read_clock w s = (now, s') → act s (ActClock now) s'
| act_cancelled s c s' : read_cancelled w s = (c, s') → act s (ActCancelled c) s'
| act_asked s call reason d s' : ask_user w s call reason = (d, s') → act s (ActAsked call reason d) s'
| act_opened s path directory sensitive r s' :
    open_object w s path directory sensitive = (r, s') → act s (ActOpened path directory r) s'
| act_ran s call o timeout r s' :
    run_tool w s call o timeout = (r, s') → act s (ActRan call o timeout) s'.

Inductive Acts : W → list Action → W → Prop :=
| acts_nil s : Acts s [] s
| acts_cons s a s' l s'' : act s a s' → Acts s' l s'' → Acts s (a :: l) s''.

Lemma Acts_app s l s' k s'' : Acts s l s' → Acts s' k s'' → Acts s (l ++ k) s''.
Proof. induction 1; [done|]. simpl. intros. econstructor; eauto. Qed.

Lemma Acts_one s a s' : act s a s' → Acts s [a] s'.
Proof. intros. econstructor; [done|constructor]. Qed.

Definition is_chat (a : Action) : bool := match a with ActChat _ _ => true | _ => false end.
Definition is_run (a : Action) : bool := match a with ActRan _ _ _ => true | _ => false end.
Definition chats (l : list Action) : nat := length (filter (λ a, is_chat a = true) l).
Definition runs (l : list Action) : nat := length (filter (λ a, is_run a = true) l).

Lemma chats_app l k : chats (l ++ k) = chats l + chats k.
Proof. unfold chats. by rewrite filter_app, length_app. Qed.
Lemma runs_app l k : runs (l ++ k) = runs l + runs k.
Proof. unfold runs. by rewrite filter_app, length_app. Qed.

(** * What an agent may do *)

(** A transcript a provider accepts: results answer calls, and only the first
    message may be a system one. *)
Definition WellFormedRequest (request : list Message) : Prop :=
  Paired request ∧ (others request = request ∨ ∃ s, request = s :: others request ∧ is_system s = true).

(** The call the user was shown is the call, under its scoped id. *)
Definition SameCall (call scoped : Call) : Prop :=
  call_name scoped = call_name call ∧ call_arguments scoped = call_arguments call.

(** What a run reads was opened before and is not blocked; only a shell command
    runs without. *)
Definition ReadsFrom (before : list Action) (tool : Tool) (p : Preparation Obj)
    (o : option (PreparedObject Obj)) : Prop :=
  match o with
  | Some o => p = PrepRead o ∧ matches (tp_blocked_paths root) (object_path o) = false ∧
      ∃ path directory, ActOpened path directory (inr o) ∈ before
  | None => p = PrepOther ∧ tool = RunShell
  end.

(** The decision on a call after the actions [before]: the rules let it run, or
    they asked and the user's approval is the last action. *)
Definition Decided (before : list Action) (call : Call) (tool : Tool) (p : Preparation Obj) : Prop :=
  match rules_decide split (tp_rules root) (call_facts arg_str call tool p) (tp_approval root) with
  | Run => True
  | Prompt => ∃ reason scoped, SameCall call scoped ∧ last before = Some (ActAsked scoped reason DecideApprove)
  | Deny => False
  end.

(** Running [call] right after the actions [before]: its tool is one of the
    root's and is no delegation, it was decided, and then the turn was found
    not to be cancelled. *)
Definition Authorised (before : list Action) (call : Call) (o : option (PreparedObject Obj)) : Prop :=
  ∃ earlier tool p, before = earlier ++ [ActCancelled false] ∧
    get (tp_tools root) (call_name call) = Some tool ∧ tool ≠ DelegateTask ∧
    ReadsFrom earlier tool p o ∧ Decided earlier call tool p.

Record Lawful (l : list Action) : Prop := {
  lawful_request request tools : ActChat request tools ∈ l →
    WellFormedRequest request ∧ tools ⊆ tools_of (tp_tools root);
  lawful_run before call o timeout after : l = before ++ ActRan call o timeout :: after →
    Authorised before call o;
}.

Lemma last_app_Some {B} (l k : list B) x : last k = Some x → last (l ++ k) = Some x.
Proof. intros Hk. by rewrite last_app, Hk. Qed.

Lemma Authorised_later l before call o : Authorised before call o → Authorised (l ++ before) call o.
Proof.
  intros (earlier & tool & p & -> & Hget & Htool & Ho & Hd). exists (l ++ earlier), tool, p.
  split_and!; [by rewrite app_assoc|done|done| |].
  - destruct o as [o|]; [|done]. destruct Ho as (? & ? & path & directory & Hin).
    split_and!; [done|done|]. exists path, directory. rewrite elem_of_app. by right.
  - revert Hd. unfold Decided. destruct rules_decide; [done| |done].
    intros (reason & scoped & Hs & Hl). exists reason, scoped. split; [done|by apply last_app_Some].
Qed.

Lemma Lawful_nil : Lawful [].
Proof. split; [by intros ?? ?%elem_of_nil|]. by intros [] ????. Qed.

Lemma Lawful_app l k : Lawful l → Lawful k → Lawful (l ++ k).
Proof.
  intros [Hc Hr] [Hc' Hr']. split.
  - intros request tools [?|?]%elem_of_app; auto.
  - intros before call o timeout after Heq.
    apply app_eq_inv in Heq as [(x & -> & Heq)|(x & -> & ->)].
    + destruct x as [|a x]; simpl in Heq.
      * rewrite app_nil_r in *. subst k. rewrite <-(app_nil_r before).
        by apply Authorised_later, (Hr' [] _ _ timeout after).
      * injection Heq as <- ->. by eapply Hr.
    + apply Authorised_later. by eapply Hr'.
Qed.

(** An action that is no chat and no run. *)
Definition quiet (a : Action) : Prop := is_chat a = false ∧ is_run a = false.

Lemma Lawful_quiet l : Forall quiet l → Lawful l.
Proof.
  intros Hq. rewrite Forall_forall in Hq. split.
  - intros request tools [Hc _]%Hq. done.
  - intros before call o timeout after ->.
    destruct (Hq (ActRan call o timeout)) as [_ Hr]; [apply elem_of_app; right; by left|done].
Qed.

Lemma quiet_counts l : Forall quiet l → chats l = 0 ∧ runs l = 0.
Proof.
  unfold chats, runs. induction 1 as [|a l [Hc Hr] _ IH]; [done|].
  rewrite !filter_cons_False by congruence. done.
Qed.

Lemma Lawful_run before call o timeout :
  Forall quiet before → Authorised before call o → Lawful (before ++ [ActRan call o timeout]).
Proof.
  intros Hq Ha. split.
  - intros request tools [Hin|Hin%list_elem_of_singleton]%elem_of_app; [|done].
    rewrite Forall_forall in Hq. by destruct (Hq _ Hin).
  - intros before' call' o' timeout' after Heq.
    apply app_eq_inv in Heq as [(x & -> & Heq)|(x & -> & Heq)].
    + destruct x as [|a x]; simpl in Heq.
      * injection Heq as -> -> -> _. rewrite app_nil_r in Ha. done.
      * injection Heq as <- Heq. rewrite Forall_app, Forall_cons in Hq. by destruct Hq as (_ & [_ ?] & _).
    + destruct x as [|a x]; [|by destruct x]. injection Heq as -> -> -> _. by rewrite app_nil_r.
Qed.

(** * Events *)

(** An event as the host sees it from behind observers. *)
Definition wrap (names : list string) (e : Event A) : Event A := foldl (λ e name, Subagent name e) e names.

(** What an agent told its host since: its own events, and those of the agents
    it started under their names. *)
Definition Tells (h h' : Host) (es : list (Event A)) : Prop :=
  events h' = events h ++ (wrap (observers h).*1 <$> es).

(** No result of a call; and nothing of a subagent either. *)
Definition unreported (e : Event A) : Prop := match e with ToolResult _ _ _ => False | _ => True end.
Definition alone (e : Event A) : Prop :=
  match e with Subagent _ _ | SubagentStarted _ _ _ | SubagentFinished _ _ _ => False | _ => True end.
Definition silent (e : Event A) : Prop := unreported e ∧ alone e.

Lemma emit_event e (h : Host) : events (emit e h) = events h ++ [wrap (observers h).*1 e].
Proof.
  simpl. do 2 f_equal. unfold wrap. generalize (observers h). intros l. revert e.
  induction l as [|[name aborted] l IH]; intros e; [done|apply IH].
Qed.

Lemma emit_observers e (h : Host) : (observers (emit e h)).*1 = (observers h).*1.
Proof. simpl. by destruct (observers h) as [|[agent aborted] parents]. Qed.

Lemma tells_nil h h' : events h' = events h → Tells h h' [].
Proof. unfold Tells. intros ->. by rewrite app_nil_r. Qed.

Lemma tells_emit e h : Tells h (emit e h) [e].
Proof. unfold Tells. by rewrite emit_event. Qed.

Lemma tells_trans h h1 h2 es es' :
  Tells h h1 es → Tells h1 h2 es' → (observers h1).*1 = (observers h).*1 → Tells h h2 (es ++ es').
Proof. unfold Tells. intros He He' Ho. by rewrite He', He, Ho, fmap_app, app_assoc. Qed.

Lemma tells_prefix h h' es : Tells h h' es → events h `prefix_of` events h'.
Proof. unfold Tells. intros ->. by apply prefix_app_r. Qed.

(** What an agent behind an observer told, its parent told of it. *)
Lemma tells_child name h h' es : Tells (push_observer name h) h' es → Tells h h' (Subagent name <$> es).
Proof. unfold Tells. simpl. intros ->. f_equal. rewrite <-list_fmap_compose. done. Qed.

(** * Steps of a host *)

(** Interactions that leave the budget alone. *)
Record Performs (h : Host) (l : list Action) (h' : Host) : Prop := {
  perf_budget : budget h' = budget h;
  perf_events : ∃ es, Tells h h' es ∧ Forall silent es;
  perf_observers : (observers h').*1 = (observers h).*1;
  perf_acts : Acts (world h) l (world h');
}.

Lemma performs_refl h : Performs h [] h.
Proof. split; [done|exists []; split; [by apply tells_nil|done]|done|constructor]. Qed.

Lemma performs_trans h l h' k h'' : Performs h l h' → Performs h' k h'' → Performs h (l ++ k) h''.
Proof.
  intros [Hb (es & He & Hs) Ho Ha] [Hb' (es' & He' & Hs') Ho' Ha'].
  split; [congruence| |congruence|by eapply Acts_app].
  exists (es ++ es'). split; [by eapply tells_trans|by apply Forall_app].
Qed.

Lemma performs_emit e h : silent e → Performs h [] (emit e h).
Proof.
  intros Hs. split; [done| |apply emit_observers|constructor].
  exists [e]. split; [apply tells_emit|by constructor].
Qed.

Lemma performs_act h a s : act (world h) a s → Performs h [a] (set_world s h).
Proof.
  intros Ha. split; simpl; [done| |done|by apply Acts_one]. exists []. split; [by apply tells_nil|done].
Qed.

Lemma performs_emit_after h l h' e : silent e → Performs h l h' → Performs h l (emit e h').
Proof. intros Hs Hp. rewrite <-(app_nil_r l). by eapply performs_trans, performs_emit. Qed.

Lemma performs_emit_all es h : Forall silent es → Performs h [] (emit_all es h).
Proof.
  intros Hs. revert h. induction Hs as [|e es He _ IH]; intros h; [apply performs_refl|].
  apply (performs_trans _ [] (emit e h) []); [by apply performs_emit|apply IH].
Qed.

Lemma performs_cancelled h c h' : cancelled w h = (c, h') → Performs h [ActCancelled c] h'.
Proof.
  unfold cancelled. destruct (read_cancelled w (world h)) as [c' s] eqn:Hc. intros [= -> <-].
  by apply performs_act, act_cancelled.
Qed.

(** No tool ran, and no subagent was started. *)
Definition Idle (h h' : Host) : Prop :=
  (observers h').*1 = (observers h).*1 ∧
  ∃ es l, Tells h h' es ∧ Forall silent es ∧ Acts (world h) l (world h') ∧ runs l = 0.

Lemma performs_idle h l h' : Performs h l h' → runs l = 0 → Idle h h'.
Proof. intros [_ (es & He & Hs) Ho Ha] Hr. split; [done|]. by exists es, l. Qed.

Lemma idle_refl h : Idle h h.
Proof. eapply performs_idle; [apply performs_refl|done]. Qed.

Lemma idle_trans h h1 h2 : Idle h h1 → Idle h1 h2 → Idle h h2.
Proof.
  intros [Ho (es & l & He & Hs & Ha & Hr)] [Ho' (es' & l' & He' & Hs' & Ha' & Hr')]. split; [congruence|].
  exists (es ++ es'), (l ++ l').
  split_and!; [by eapply tells_trans|by apply Forall_app|by eapply Acts_app|rewrite runs_app; lia].
Qed.

Lemma idle_emit e h : silent e → Idle h (emit e h).
Proof. intros Hs. by eapply performs_idle; [apply performs_emit|]. Qed.

Lemma idle_emit_all es h : Forall silent es → Idle h (emit_all es h).
Proof. intros Hs. by eapply performs_idle; [apply performs_emit_all|]. Qed.

Lemma idle_cancelled h c h' : cancelled w h = (c, h') → Idle h h'.
Proof. intros Hc. eapply performs_idle; [by apply performs_cancelled|done]. Qed.

Lemma idle_charge f h r h' : charge_with w f h = (r, h') → Idle h h'.
Proof.
  unfold charge_with. destruct (read_clock w (world h)) as [now s] eqn:Hc. destruct (f now (budget h)) as [b r'].
  intros [= _ <-]. split; [done|]. exists [], [ActClock now].
  split_and!; [by apply tells_nil|done|by apply Acts_one, act_clock|done].
Qed.

(** [h'] is reached from [h] lawfully. [requests] and [calls] count the
    interactions that were charged before [h], and are negative for charges not
    yet used. *)
Record Advances (requests calls : Z) (h h' : Host) : Prop := {
  adv_limits : budget_limits (budget h') = budget_limits (budget h);
  adv_deadline : deadline (budget h') = deadline (budget h);
  adv_requests : (requests_used (budget h) ≤ requests_used (budget h'))%N;
  adv_calls : (calls_used (budget h) ≤ calls_used (budget h'))%N;
  adv_requests_limit : (requests_used (budget h) ≤ provider_requests (budget_limits (budget h)))%N →
    (requests_used (budget h') ≤ provider_requests (budget_limits (budget h)))%N;
  adv_calls_limit : (calls_used (budget h) ≤ tool_calls (budget_limits (budget h)))%N →
    (calls_used (budget h') ≤ tool_calls (budget_limits (budget h)))%N;
  adv_events : ∃ es, Tells h h' es;
  adv_observers : (observers h').*1 = (observers h).*1;
  adv_acts : ∃ l, Acts (world h) l (world h') ∧ Lawful l ∧
    (Z.of_nat (chats l) + Z.of_N (requests_used (budget h)) ≤
     Z.of_N (requests_used (budget h')) + requests)%Z ∧
    (Z.of_nat (runs l) + Z.of_N (calls_used (budget h)) ≤ Z.of_N (calls_used (budget h')) + calls)%Z;
}.

Lemma advances_trans n c m d h h' h'' :
  Advances n c h h' → Advances m d h' h'' → Advances (n + m) (c + d) h h''.
Proof.
  intros [Hl Hd Hr Hc Hrl Hcl He Ho (l & Ha & Hlaw & Hn1 & Hn2)]
         [Hl' Hd' Hr' Hc' Hrl' Hcl' He' Ho' (k & Ha' & Hlaw' & Hn1' & Hn2')].
  rewrite Hl in Hrl', Hcl'. split; [congruence|congruence|lia|lia|by auto|by auto| |congruence|].
  { destruct He as [es He], He' as [es' He']. exists (es ++ es'). by eapply tells_trans. }
  exists (l ++ k). rewrite chats_app, runs_app.
  split_and!; [by eapply Acts_app|by apply Lawful_app|lia|lia].
Qed.

Lemma advances_weaken n c m d h h' :
  Advances n c h h' → (n ≤ m)%Z → (c ≤ d)%Z → Advances m d h h'.
Proof.
  intros [Hl Hd Hr Hc Hrl Hcl He Ho (l & Ha & Hlaw & Hn1 & Hn2)] ??. split; try done.
  exists l. split_and!; [done|done|lia|lia].
Qed.

Lemma performs_advances h l h' :
  Performs h l h' → Lawful l → Advances (Z.of_nat (chats l)) (Z.of_nat (runs l)) h h'.
Proof.
  intros [Hb (es & He & _) Ho Ha] Hl. split; rewrite ?Hb; try done; try lia; [by exists es|].
  exists l. split_and!; [done..|lia|lia].
Qed.

Lemma performs_quiet h l h' : Performs h l h' → Forall quiet l → Advances 0 0 h h'.
Proof.
  intros Hp Hq. destruct (quiet_counts l Hq) as [Hc Hr].
  pose proof (performs_advances _ _ _ Hp (Lawful_quiet l Hq)) as Ha. by rewrite Hc, Hr in Ha.
Qed.

#[export] Instance advances_refl : Reflexive (Advances 0 0).
Proof. intros h. by eapply performs_quiet; [apply performs_refl|]. Qed.

#[export] Instance advances_transitive : Transitive (Advances 0 0).
Proof. intros h h' h'' H1 H2. exact (advances_trans 0 0 0 0 _ _ _ H1 H2). Qed.

Lemma advances_emit e h : Advances 0 0 h (emit e h).
Proof.
  split; try done; try lia; [by eexists; apply tells_emit|apply emit_observers|].
  exists []. change (world (emit e h)) with (world h). change (budget (emit e h)) with (budget h).
  change (chats []) with 0. change (runs []) with 0. split_and!; [apply acts_nil|apply Lawful_nil|lia..].
Qed.

Lemma advances_emit_all es h : Advances 0 0 h (emit_all es h).
Proof. revert h. induction es as [|e es IH]; intros h; [reflexivity|]. etrans; [apply advances_emit|apply IH]. Qed.

Lemma advances_cancelled h c h' : cancelled w h = (c, h') → Advances 0 0 h h'.
Proof. intros Hc. eapply performs_quiet; [by apply performs_cancelled|by constructor]. Qed.

Lemma advances_set_world a h s : quiet a → act (world h) a s → Advances 0 0 h (set_world s h).
Proof. intros Hq Ha. eapply performs_quiet; [by apply performs_act|by constructor]. Qed.

(** * Charges *)

(** The provider requests left to a turn and every turn it starts. *)
Definition remaining (h : Host) : nat :=
  N.to_nat (provider_requests (budget_limits (budget h)) - requests_used (budget h)).

Lemma advances_remaining n c h h' : Advances n c h h' → remaining h' ≤ remaining h.
Proof. intros [Hl _ Hr]. unfold remaining. rewrite Hl. lia. Qed.

(** A charge that only moved the counters, by [requests] and [calls]. *)
Lemma advances_charge h s now b requests calls :
  read_clock w (world h) = (now, s) →
  budget_limits b = budget_limits (budget h) → deadline b = deadline (budget h) →
  requests_used b = (requests_used (budget h) + requests)%N → calls_used b = (calls_used (budget h) + calls)%N →
  (requests = 0 ∨ requests_used b ≤ provider_requests (budget_limits (budget h)))%N →
  (calls = 0 ∨ calls_used b ≤ tool_calls (budget_limits (budget h)))%N →
  Advances (- Z.of_N requests) (- Z.of_N calls) h (set_budget b (set_world s h)).
Proof.
  intros Hc Hl Hd Hr Hcl Hrl Hcll. split; simpl; try done; try lia; [by exists []; apply tells_nil|].
  exists [ActClock now]. assert (Forall quiet [ActClock now]) as Hq by by repeat constructor.
  destruct (quiet_counts _ Hq) as [-> ->].
  split_and!; [by apply Acts_one, act_clock|by apply Lawful_quiet|simpl; lia..].
Qed.

Lemma charge_request_advances h r h' :
  charge_with w charge_provider_request h = (r, h') →
  match r with
  | Done _ => Advances (-1) 0 h h' ∧ remaining h = S (remaining h')
  | Fail _ => Advances 0 0 h h'
  | Panic => False
  end.
Proof.
  unfold charge_with, charge_provider_request, check_time.
  destruct (read_clock w (world h)) as [now s] eqn:Hc.
  pose proof (advances_charge h s now) as Hadv. intros Heq.
  destruct (_ <=? now)%N; [simplify_eq/=; apply (Hadv (budget h) 0%N 0%N); simpl; (done || lia)|].
  destruct (charge _ _) as [used|] eqn:Hu; simplify_eq/=.
  - apply charge_Some in Hu as [-> Hlt]. split; [apply (Hadv _ 1%N 0%N); simpl; (done || lia)|].
    unfold remaining; simpl. lia.
  - apply (Hadv (budget h) 0%N 0%N); simpl; (done || lia).
Qed.

Lemma charge_call_advances h r h' :
  charge_with w charge_tool_call h = (r, h') →
  match r with
  | Done _ => Advances 0 (-1) h h'
  | Fail _ => Advances 0 0 h h'
  | Panic => False
  end.
Proof.
  unfold charge_with, charge_tool_call, check_time.
  destruct (read_clock w (world h)) as [now s] eqn:Hc.
  pose proof (advances_charge h s now) as Hadv. intros Heq.
  destruct (_ <=? now)%N; [simplify_eq/=; apply (Hadv (budget h) 0%N 0%N); simpl; (done || lia)|].
  destruct (charge _ _) as [used|] eqn:Hu; simplify_eq/=.
  - apply charge_Some in Hu as [-> Hlt]. apply (Hadv _ 0%N 1%N); simpl; (done || lia).
  - apply (Hadv (budget h) 0%N 0%N); simpl; (done || lia).
Qed.
End trace.
Arguments Action : clear implicits.

#[export] Hint Resolve performs_refl advances_emit advances_emit_all idle_refl : core.

(** The world that also writes down what was done. *)
Definition recorded {A Obj W} (w : World A Obj W) : World A Obj (W * list (Action A Obj)) := {|
  chat s request tools :=
    let '(a, s') := chat w s.1 request tools in (a, (s', s.2 ++ [ActChat request tools]));
  read_clock s := let '(now, s') := read_clock w s.1 in (now, (s', s.2 ++ [ActClock now]));
  read_cancelled s := let '(c, s') := read_cancelled w s.1 in (c, (s', s.2 ++ [ActCancelled c]));
  ask_user s call reason :=
    let '(d, s') := ask_user w s.1 call reason in (d, (s', s.2 ++ [ActAsked call reason d]));
  open_object s path directory sensitive :=
    let '(r, s') := open_object w s.1 path directory sensitive in
    (r, (s', s.2 ++ [ActOpened path directory r]));
  run_tool s call o timeout :=
    let '(r, s') := run_tool w s.1 call o timeout in (r, (s', s.2 ++ [ActRan call o timeout]));
|}.

Lemma act_recorded {A Obj W} (w : World A Obj W) s a s' :
  act (recorded w) s a s' → s'.2 = s.2 ++ [a].
Proof. by destruct 1 as [????? Hx|??? Hx|??? Hx|????? Hx|?????? Hx|?????? Hx]; simpl in Hx; case_match; simplify_eq/=. Qed.

(** The interactions, and nothing else, are written down. *)
Lemma acts_recorded {A Obj W} (w : World A Obj W) s l s' :
  Acts (recorded w) s l s' → s'.2 = s.2 ++ l.
Proof.
  induction 1 as [|s a s' l s'' Ha _ IH]; [by rewrite app_nil_r|].
  by rewrite IH, (act_recorded _ _ _ _ Ha), <-app_assoc.
Qed.
