(* ===== verification/EngineSpec.v ===== *)
(** What every turn of an agent guarantees, with the turns it starts.

    The theorems are about any world, any lawful compactor and enough fuel:
    more than the provider requests left in the budget. They are proved by one
    walk over the turn: [Going] is the invariant of a turn in progress,
    [EndsWell] what holds when it ends, and every piece of the turn takes one
    to the other. *)
From Stdlib Require Import Ascii.
From S2P Require Import Prelude Sensitive Policy Budget CallId Chat.
From S2P Require Import Compaction CompactionSpec Tools Transcript.
From S2P Require Import Engine EngineTrace.

Section spec.
Context {A Obj W : Type} (w : World A Obj W).
Context (args_text : A → string) (arg_str : A → string → option string).
Context (split : string → string + list string) (to_lowercase : string → string).
Context (root : TurnPolicy A).

Abbreviation Message := (ChatMessage A).
Abbreviation Call := (CallId.ToolCall A).
Abbreviation Host := (Host A W).
Abbreviation Turn := (Turn A W).
Abbreviation Action := (Action A Obj).
Abbreviation Advances := (Advances w arg_str split root).
Abbreviation Performs := (Performs w).
Abbreviation Idle := (Idle w).
Abbreviation Step := (Step (A := A) (W := W)).
Abbreviation Ended := (TurnEnd * list Message * Host)%type.
Implicit Types (t : Turn) (h : Host) (k : list Message) (call : Call).

(** An agent acts under the root's policy: only its tools may be fewer. *)
Record Under (policy : TurnPolicy A) : Prop := {
  under_approval : tp_approval policy = tp_approval root;
  under_rules : tp_rules policy = tp_rules root;
  under_blocked : tp_blocked_paths policy = tp_blocked_paths root;
  under_compactor : tp_compactor policy = tp_compactor root;
  under_tools tool : contains (tp_tools policy) tool = true → contains (tp_tools root) tool = true;
}.

Lemma under_get policy name tool :
  Under policy → get (tp_tools policy) name = Some tool → get (tp_tools root) name = Some tool.
Proof. rewrite !get_Some. intros Hu [? ?%(under_tools _ Hu)]. done. Qed.

Lemma under_tools_of policy : Under policy → tools_of (tp_tools policy) ⊆ tools_of (tp_tools root).
Proof.
  intros Hu tool. unfold tools_of. rewrite !list_elem_of_filter. intros [?%(under_tools _ Hu) ?]. done.
Qed.

(** A client reads off a wrapped event what it was and which agent emitted
    it. *)
Lemma into_innermost_wrap names (e : Event A) :
  into_innermost e = (None, e) → into_innermost (wrap names e) = (head names, e).
Proof.
  intros He. enough (∀ agent e', into_innermost e' = (agent, e) →
    into_innermost (wrap names e') = (match agent with Some a => Some a | None => head names end, e)) as Hgen
    by by apply (Hgen None).
  unfold wrap. induction names as [|name names IH]; intros agent e' He'; simpl; [by destruct agent|].
  rewrite (IH (Some (default name agent))); [by destruct agent|]. simpl. by rewrite He'.
Qed.

(** Since [h0], the agent whose turn started there approved a tool. *)
Definition Approved (h0 h : Host) : Prop :=
  ∃ es id, events h = events h0 ++ es ∧ wrap (observers h0).*1 (ToolDecision id DecideApprove) ∈ es.

Lemma Approved_later h0 h h' : Approved h0 h → events h `prefix_of` events h' → Approved h0 h'.
Proof.
  intros (es & id & Hes & Hin) [es' Hes'].
  exists (es ++ es'), id. rewrite Hes', Hes, <-app_assoc, elem_of_app. auto.
Qed.

Lemma Approved_emit h0 h n c id : Advances n c h0 h → Approved h0 (emit (ToolDecision id DecideApprove) h).
Proof.
  intros Ha. destruct (adv_events _ _ _ _ _ _ _ _ Ha) as [es0 Hes]. set (es := wrap (observers h0).*1 <$> es0).
  exists (es ++ [wrap (observers h0).*1 (ToolDecision id DecideApprove)]), id.
  rewrite emit_event, Hes, <-app_assoc, (adv_observers _ _ _ _ _ _ _ _ Ha). split; [done|].
  rewrite elem_of_app. right. by left.
Qed.

Lemma advances_prefix n c h h' : Advances n c h h' → events h `prefix_of` events h'.
Proof. intros Ha. destruct (adv_events _ _ _ _ _ _ _ _ Ha) as [es He]. by eapply tells_prefix. Qed.

(** Since [h], an agent told of no result of a call of its own. *)
Definition Mute (h h' : Host) : Prop :=
  (observers h').*1 = (observers h).*1 ∧ ∃ es, Tells h h' es ∧ Forall unreported es.

Lemma idle_mute h h' : Idle h h' → Mute h h'.
Proof.
  intros [Ho (es & l & He & Hs & _)]. split; [done|]. exists es. split; [done|].
  eapply Forall_impl; [exact Hs|]. by intros e [].
Qed.

Lemma mute_trans h h1 h2 : Mute h h1 → Mute h1 h2 → Mute h h2.
Proof.
  intros [Ho (es & He & Hs)] [Ho' (es' & He' & Hs')]. split; [congruence|].
  exists (es ++ es'). split; [by eapply tells_trans|by apply Forall_app].
Qed.

Lemma mute_emit e h : unreported e → Mute h (emit e h).
Proof. intros He. split; [apply emit_observers|]. exists [e]. split; [apply tells_emit|by constructor]. Qed.

(** * What is left of a transcript *)

(** [k'] is what is left of [k] when it was compacted as it grew. *)
Inductive Remains : list Message → list Message → Prop :=
| remains_all k : Remains k k
| remains_grown k k' m : Remains k k' → Remains (k ++ [m]) (k' ++ [m])
| remains_compacted k k' k'' : Remains k k' → KeepsConversation k' k'' → Remains k k''.

Lemma remains_app k k' added : Remains k k' → Remains (k ++ added) (k' ++ added).
Proof.
  intros Hr. induction added as [|m added IH] using rev_ind; [by rewrite !app_nil_r|].
  rewrite !app_assoc. by constructor.
Qed.

(** Each result told of is in the messages. *)
Definition Reports (es : list (Event A)) (ms : list Message) : Prop :=
  ∀ id name result, ToolResult id name result ∈ es →
    ∃ m, m ∈ ms ∧ msg_role m = RoleTool ∧ msg_content m = result ∧ msg_tool_name m = Some name.

Lemma reports_more es es' ms added : Reports es ms → Forall unreported es' → Reports (es ++ es') (ms ++ added).
Proof.
  intros Hr Hu id name result [Hin|Hin]%elem_of_app.
  - destruct (Hr _ _ _ Hin) as (m & Hm & ?). exists m. split; [|done]. apply elem_of_app. by left.
  - rewrite Forall_forall in Hu. by apply Hu in Hin.
Qed.

(** What a turn that failed after it had run tools keeps, and how it says so:
    everything there was, compacted as it grew; without the tool output of the
    turn when a provider rejected its size to the end. *)
Definition dropped_output (measured : string) : string :=
  measured +:+ " and history could not be shrunk further; this turn's tool output was dropped from the transcript".
Definition Kept (full kept : list Message) (text : string) : Prop :=
  Remains full kept ∨
  ∃ before measured, Remains full before ∧ kept = drop_turn_payloads before ∧ text = dropped_output measured.

(** * Preparing, deciding and running a call *)

Section agent.
Context (policy : TurnPolicy A) (Hunder : Under policy).

Lemma prepare_call_spec call h p h' :
  prepare_call w arg_str policy call h = (p, h') →
  ∃ l, Performs h l h' ∧ Forall quiet l ∧
    ∀ o, p = PrepRead o → matches (tp_blocked_paths root) (object_path o) = false ∧
      ∃ path directory, ActOpened path directory (inr o) ∈ l.
Proof.
  unfold prepare_call. destruct (read_request arg_str call) as [[error|[path directory]]|].
  1,3: intros [= <- <-]; exists []; split_and!; [apply performs_refl|constructor|done].
  destruct (open_object w (world h) path directory (tp_sensitive_paths policy)) as [r s] eqn:Ho.
  assert (Performs h [ActOpened path directory r] (set_world s h)) as Hp
    by by eapply performs_act, act_opened.
  rewrite (under_blocked _ Hunder).
  assert (Forall quiet [ActOpened (A := A) path directory r]) as Hq by by repeat constructor.
  destruct r as [error|o]; [|destruct (matches _ _) eqn:Hb]; intros [= <- <-];
    (eexists; split_and!; [exact Hp|exact Hq|]); try done.
  intros o' [= <-]. split; [done|]. exists path, directory. by left.
Qed.

Lemma decide_call_spec call scoped tool p h d denied h' :
  SameCall call scoped →
  decide_call w arg_str split policy (call, scoped) tool p h = (d, denied, h') →
  ∃ l, Performs h l h' ∧ Forall quiet l ∧ (d = DecideApprove → Decided arg_str split root l call tool p).
Proof.
  intros Hsame. unfold decide_call, Decided. rewrite (under_rules _ Hunder), (under_approval _ Hunder).
  destruct (rules_decide split (tp_rules root) (call_facts arg_str call tool p) (tp_approval root)) eqn:Hd.
  1,3: intros [= <- _ <-]; exists []; split_and!; [apply performs_refl|constructor|done].
  set (reason := default PolicyGate (gate call p)).
  destruct (ask_user w _ scoped reason) as [d' s] eqn:Ha. intros [= <- _ <-].
  exists [ActAsked scoped reason d']. split_and!.
  - change [ActAsked scoped reason d'] with ([] ++ [ActAsked (Obj := Obj) scoped reason d']).
    eapply performs_trans; [by apply (performs_emit w (ApprovalRequested scoped (Some reason)))|].
    by eapply performs_act, act_asked.
  - by repeat constructor.
  - intros ->. by exists reason, scoped.
Qed.

(** Running a prepared call is at most one interaction. *)
Lemma execute_prepared_spec call p h :
  Returns (execute_prepared w call p h) (λ r, ∃ l, Performs h l r.2 ∧
    (l = [] ∨ ∃ o timeout, l = [ActRan call o timeout] ∧
       match o with
       | Some o => p = PrepRead o
       | None => p = PrepOther ∧ from_name (call_name call) = Some RunShell
       end)).
Proof.
  assert (Hrun : ∀ o timeout, Returns (E := Empty_set)
    (let '(r, s) := run_tool w (world h) call o timeout in
     match r with
     | inr output => let! output := truncate output in Done (output, set_world s h)
     | inl error => Done ("tool error: " +:+ error, set_world s h)
     end) (λ r, Performs h [ActRan call o timeout] r.2)).
  { intros o timeout. destruct (run_tool w (world h) call o timeout) as [r s] eqn:Hr.
    assert (Performs h [ActRan call o timeout] (set_world s h)) by by eapply performs_act, act_ran.
    destruct r as [error|output]; [by apply Returns_Done|].
    destruct (truncate_to_total (E := Empty_set) MAX_TOOL_OUTPUT_BYTES output) as (out & Ht & _).
    unfold truncate. rewrite Ht. by apply Returns_Done. }
  unfold execute_prepared. destruct p as [o|message|].
  - eapply Returns_weaken; [apply Hrun|]. intros r Hr. eexists. split; [exact Hr|]. right.
    by do 2 eexists.
  - apply Returns_Done. exists []. split; [done|by left].
  - destruct (from_name (call_name call)) as [[]|];
      try (apply Returns_Done; exists []; split; [done|by left]).
    eapply Returns_weaken; [apply Hrun|]. intros r Hr. eexists. split; [exact Hr|]. right.
    by do 2 eexists.
Qed.

(** * The invariant of a turn *)

(** The turn started from the transcript [k0] with the user's message, on the
    host [h0]. *)
Context (k0 : list Message) (Hk0 : Paired k0) (message : string) (h0 : Host).
Context `{!LawfulCompactor (tp_compactor policy)}.

(** What a failed turn goes back to: the transcript it found, shrunk only when
    a provider rejected it for its size. *)
Definition RolledBack (retried : bool) k : Prop :=
  k = k0 ∨ retried = true ∧ ∃ r, compact_overflow (tp_compactor policy) k0 = Done (k, r).

(** Since the turn started no tool ran and no subagent was started. *)
Definition NothingRan (es : list (Event A)) (s : W) : Prop :=
  Forall alone es ∧ ∃ l, Acts w (world h0) l s ∧ runs l = 0.

(** What the turn told its host, and the messages it added: what it has run is
    on record. *)
Definition OnRecord (h : Host) k (observed : bool) : Prop :=
  ∃ es ms, Tells h0 h es ∧ Reports es ms ∧ Remains (k0 ++ msg_user message :: ms) k ∧
    (observed = false → NothingRan es (world h)).

(** [pending] are the calls not yet answered; [calls] as in [Advances]. *)
Record Going (fuel : nat) (calls : Z) (pending : list Call) t : Prop := {
  going_host : Advances 0 calls h0 (host t);
  going_fuel : remaining (host t) < fuel;
  going_history : unanswered [] (history t) = Some (call_id <$> pending);
  going_rollback : RolledBack (overflow_retry_used t) (rollback_history t);
  going_observed : observed_tool_activity t = true → Approved h0 (host t);
  going_record : OnRecord (host t) (history t) (observed_tool_activity t);
}.

(** The record a failed turn leaves when it had run tools. *)
Definition activity_record (text : string) : Message :=
  msg_system ("xshell execution record: the previous turn ended after observed tool activity: " +:+ text).

Record EndsWell (ended : Ended) : Prop := {
  ends_host : Advances 0 0 h0 ended.2;
  ends_paired : Paired ended.1.2;
  ends_failed : ended.1.1 ≠ TurnOk → ∃ es, Tells h0 ended.2 es ∧
    (Approved h0 ended.2 ∧ (∃ ms kept text, ended.1.2 = kept ++ [activity_record text] ∧ Reports es ms ∧
       Kept (k0 ++ msg_user message :: ms) kept text) ∨
     NothingRan es (world ended.2) ∧
       ∃ k, RolledBack true k ∧ (ended.1.2 = k ∨ ∃ text, ended.1.2 = k ++ [msg_system text]));
}.

(** What a piece of the turn hands on, [pending] calls unanswered. *)
Definition StepWell (fuel : nat) (pending : list Call) (s : Step) : Prop :=
  match s with inl t => Going fuel 0 pending t | inr ended => EndsWell ended end.

Lemma RolledBack_paired retried k : RolledBack retried k → Paired k.
Proof.
  intros [->|(_ & r & Hr)]; [done|]. destruct (lawful_overflow k0) as (k' & r' & Hk & Hkeep & _).
  rewrite Hr in Hk. injection Hk as -> ->. by eapply keeps_paired.
Qed.

Lemma RolledBack_true retried k : RolledBack retried k → RolledBack true k.
Proof. intros [->|[_ ?]]; [by left|by right]. Qed.

Lemma Paired_record k text : Paired k → Paired (k ++ [msg_system text]).
Proof. intros Hk. by apply Paired_app. Qed.

Lemma on_record_idle h h' k observed :
  OnRecord h k observed → (observers h).*1 = (observers h0).*1 → Idle h h' → OnRecord h' k observed.
Proof.
  intros (es & ms & He & Hr & Hk & Hn) Ho [Ho' (es' & l & He' & Hs & Ha & Hl)].
  exists (es ++ es'), ms. split_and!; [by eapply tells_trans| |done|].
  - rewrite <-(app_nil_r ms). apply reports_more; [done|]. eapply Forall_impl; [exact Hs|]. by intros e [].
  - intros Hobs. destruct (Hn Hobs) as [Hal (l0 & Ha0 & Hl0)]. split.
    + apply Forall_app. split; [done|]. eapply Forall_impl; [exact Hs|]. by intros e [].
    + exists (l0 ++ l). split; [by eapply Acts_app|]. rewrite runs_app. lia.
Qed.

Lemma on_record_mute h h' k observed :
  OnRecord h k observed → (observers h).*1 = (observers h0).*1 → Mute h h' → OnRecord h' k true.
Proof.
  intros (es & ms & He & Hr & Hk & _) Ho [Ho' (es' & He' & Hs)].
  exists (es ++ es'), ms. split_and!; [by eapply tells_trans| |done|done].
  rewrite <-(app_nil_r ms). by apply reports_more.
Qed.

(** [k'] is what [k] became when [added] was put at its end. *)
Definition Grows (k added k' : list Message) : Prop := ∀ full, Remains full k → Remains (full ++ added) k'.

Lemma grows_push k added : Grows k added (k ++ added).
Proof. intros full Hr. by apply remains_app. Qed.

Lemma grows_compacted k k' : KeepsConversation k k' → Grows k [] k'.
Proof. intros Hk full Hr. rewrite app_nil_r. by eapply remains_compacted. Qed.

Lemma on_record_grows h k added k' observed : OnRecord h k observed → Grows k added k' → OnRecord h k' observed.
Proof.
  intros (es & ms & He & Hr & Hk & Hn) Hg. exists es, (ms ++ added). split_and!; [done| | |done].
  - rewrite <-(app_nil_r es). by apply reports_more.
  - specialize (Hg _ Hk). by rewrite <-app_assoc in Hg.
Qed.

Lemma going_advance fuel c d e pending t h :
  Going fuel c pending t → Advances 0 d (host t) h → Idle (host t) h → e = (c + d)%Z →
  Going fuel e pending (set_host h t).
Proof.
  intros [Hh Hf Hp Hr Ho Hrec] Ha Hi ->. pose proof (advances_remaining _ _ _ _ _ _ _ _ Ha).
  split; simpl; [exact (advances_trans _ _ _ _ 0 c 0 d _ _ _ Hh Ha)|lia|done|done| |].
  - intros Hobs. eapply Approved_later; [by apply Ho|by eapply advances_prefix].
  - by eapply on_record_idle; [|apply Hh|].
Qed.

Lemma going_weaken fuel c d pending t : Going fuel c pending t → (c ≤ d)%Z → Going fuel d pending t.
Proof. intros [Hh Hf Hp Hr Ho Hrec] Hc. split; try done. by eapply advances_weaken; [exact Hh|lia|]. Qed.

(** A tool or a delegation ran, from the host [h] to [h']. *)
Lemma going_observe fuel c d e pending t h h' delegation :
  Going fuel c pending t → Advances 0 d (host t) h' → Mute (host t) h' → Approved h0 h' → e = (c + d)%Z →
  Going fuel e pending (set_host h' (observe_activity delegation (set_host h t))).
Proof.
  intros [Hh Hf Hp Hr Ho Hrec] Ha Hm Happ ->. pose proof (advances_remaining _ _ _ _ _ _ _ _ Ha).
  split; simpl; [exact (advances_trans _ _ _ _ 0 c 0 d _ _ _ Hh Ha)|lia|done..|].
  by eapply on_record_mute; [|apply Hh|].
Qed.

Lemma going_host0 fuel c pending t h :
  Going fuel c pending t → Advances 0 0 (host t) h → Idle (host t) h → Going fuel c pending (set_host h t).
Proof. intros Hg Ha Hi. eapply going_advance; [done..|lia]. Qed.

Lemma going_emit fuel c pending t e : silent e → Going fuel c pending t → Going fuel c pending (emit_turn e t).
Proof. intros Hs Hg. apply going_host0; auto using idle_emit. Qed.

Lemma going_set_history fuel c pending pending' t added k :
  Going fuel c pending t → unanswered [] k = Some (call_id <$> pending') → Grows (history t) added k →
  Going fuel c pending' (set_history k t).
Proof. intros [] Hk Hg. split; try done. by eapply on_record_grows. Qed.

(** The result of the first unanswered call, and what is told of it. *)
Lemma going_result fuel c call pending t id result :
  Going fuel c (call :: pending) t →
  Going fuel c pending (push (tool_result call result) (emit_turn (ToolResult id (call_name call) result) t)).
Proof.
  intros [Hh Hf Hp Hr Ho (es & ms & He & Hrep & Hk & Hn)].
  pose proof (advances_trans _ _ _ _ 0 c 0 0 _ _ _ Hh
    (advances_emit w arg_str split root (ToolResult id (call_name call) result) (host t))) as Hh'.
  rewrite !Z.add_0_r in Hh'. split; simpl; [exact Hh'|done| |done| |].
  - rewrite unanswered_app, Hp. simpl. by rewrite bool_decide_true.
  - intros Hobs. eapply Approved_later; [by apply Ho|]. eapply tells_prefix, tells_emit.
  - exists (es ++ [ToolResult id (call_name call) result]), (ms ++ [tool_result call result]). split_and!.
    + eapply tells_trans; [done|apply tells_emit|apply Hh].
    + intros id' name' result' [Hin|Hin%list_elem_of_singleton]%elem_of_app.
      * destruct (Hrep _ _ _ Hin) as (m & Hm & ?). exists m. split; [|done]. apply elem_of_app. by left.
      * injection Hin as -> -> ->. eexists. split; [apply elem_of_app; right; by left|done].
    + rewrite app_comm_cons, app_assoc. by constructor.
    + intros Hobs. destruct (Hn Hobs) as [Hal Hl]. split; [|done]. apply Forall_app. split; [done|by constructor].
Qed.

Lemma going_stub fuel c calls t answer :
  Going fuel c calls.*1 t → Going fuel c [] (stub calls answer t).
Proof.
  intros Hg. eapply going_set_history; [done| |apply grows_push]. unfold stub_unfinished_tool_calls.
  rewrite unanswered_app, (going_history _ _ _ _ Hg). simpl.
  rewrite <-(app_nil_r (call_id <$> calls.*1)). apply (unanswered_results calls.*1 (λ _, answer)).
Qed.

Lemma going_refuse fuel c call scoped pending t result :
  Going fuel c (call :: pending) t → Going fuel c pending (refuse_tool_call (call, scoped) result t).
Proof. intros Hg. by apply going_result, going_emit. Qed.

Lemma going_refuse_all fuel c calls t result :
  Going fuel c calls.*1 t → Going fuel c [] (foldl (λ t calls, refuse_tool_call calls result t) t calls).
Proof.
  revert t. induction calls as [|[call scoped] calls IH]; intros t Hg; [done|].
  apply IH. by eapply going_refuse.
Qed.

(** * Ending a turn *)

Lemma fail_turn_ends fuel pending t text e :
  Going fuel 0 pending t → (observed_tool_activity t = true → pending = []) →
  EndsWell (fail_turn text e t).
Proof.
  intros [Hh _ Hp Hr Ho (es & ms & He & Hrep & Hk & Hn)] Hpend.
  unfold fail_turn, preserve_or_rollback_failed_turn.
  destruct (observed_tool_activity t); split; simpl; try done.
  - rewrite Hpend in Hp by done. by apply Paired_record.
  - intros _. exists es. split; [done|]. left. split; [by apply Ho|]. exists ms, (history t), text. by split_and!; [| |left].
  - by eapply RolledBack_paired.
  - intros _. exists es. split; [done|]. right. split; [by apply Hn|].
    eexists. split; [by eapply RolledBack_true|by left].
Qed.

Lemma end_turn_ends fuel t : Going fuel 0 [] t → EndsWell (end_turn t).
Proof. by intros [Hh _ Hp _ _ _]; split. Qed.

Lemma skips_silent (calls : list (Call * Call)) : Forall silent (skip_events calls).
Proof. apply Forall_fmap, Forall_true. done. Qed.

Lemma abort_turn_ends fuel answered skipped t :
  Going fuel 0 answered.*1 t → EndsWell (abort_turn answered skipped t).
Proof.
  intros Hg. eapply end_turn_ends, going_emit, going_host0; [done|by apply going_stub|auto|].
  apply idle_emit_all, skips_silent.
Qed.

(** Failing after the calls left were answered, when tools had run. *)
Lemma fail_stubbed_ends fuel calls t answer text e :
  Going fuel 0 calls.*1 t →
  EndsWell (fail_turn text e (if observed_tool_activity t then stub calls answer t else t)).
Proof.
  intros Hg. destruct (observed_tool_activity t) eqn:Hobs.
  - by eapply fail_turn_ends; [apply going_stub|].
  - eapply fail_turn_ends; [done|congruence].
Qed.

(** * The calls of a response *)

(** How delegations behave, given [fuel] for the requests they make. *)
Definition DelegatesWell (fuel : nat) (delegate : Call → nat → Host → Outcome Empty_set (Delegation * Host)) :
    Prop :=
  ∀ call number h, remaining h < fuel → Returns (delegate call number h) (λ r, Advances 0 0 h r.2 ∧ Mute h r.2).

Context (delegate : Call → nat → Host → Outcome Empty_set (Delegation * Host)).

Lemma after_result_well fuel rest aborted t :
  Going fuel 0 rest.*1 t → StepWell fuel rest.*1 (after_result w rest aborted t).
Proof.
  intros Hg. unfold after_result. destruct aborted; [by eapply abort_turn_ends|].
  destruct (cancelled w (host t)) as [c h] eqn:Hc.
  assert (Going fuel 0 rest.*1 (set_host h t)) as Hg'
    by by apply going_host0; [|eapply advances_cancelled|eapply idle_cancelled].
  destruct c; [|done]. eapply fail_turn_ends; [|done].
  apply going_stub, going_host0; [done|apply advances_emit_all|apply idle_emit_all, skips_silent].
Qed.

(** A call between its preparation, which performed [l] and led to the host [h],
    and its run. *)
Record Ready (l : list Action) call (tool : Tool) (p : Preparation Obj) (d : ApprovalDecision) t h : Prop := {
  ready_tool : get (tp_tools policy) (call_name call) = Some tool;
  ready_opened o : p = PrepRead o → matches (tp_blocked_paths root) (object_path o) = false ∧
    ∃ path directory, ActOpened path directory (inr o) ∈ l;
  ready_decided : d = DecideApprove → Decided arg_str split root l call tool p;
  ready_approved : d = DecideApprove → Approved h0 h;
  ready_performs : Performs (host t) (l ++ [ActCancelled false]) h;
  ready_quiet : Forall quiet l;
}.

Lemma Ready_authorised l call tool p t h o :
  Ready l call tool p DecideApprove t h → tool ≠ DelegateTask →
  match o with Some o => p = PrepRead o | None => p = PrepOther ∧ from_name (call_name call) = Some RunShell end →
  Authorised arg_str split root (l ++ [ActCancelled false]) call o.
Proof.
  intros [Hget Hopened Hdec _ _ _] Htool Ho. exists l, tool, p.
  split_and!; [done|by eapply under_get|done| |by apply Hdec].
  destruct o as [o|]; [by split; [|apply Hopened]|]. destruct Ho as [-> Hshell]. split; [done|].
  apply get_Some in Hget as [Hname _]. apply from_name_Some in Hname. congruence.
Qed.

Lemma run_decided_well fuel l call tool p d denied pending t h :
  DelegatesWell fuel delegate → Going fuel (-1) pending t → Ready l call tool p d t h →
  Returns (run_decided w delegate call tool p d denied (set_host h t)) (λ r, Going fuel 0 pending r.2).
Proof.
  intros Hdel Hg Hready. pose proof Hready as [_ _ _ Happ Hperf Hq].
  assert (Forall quiet (l ++ [ActCancelled (A := A) (Obj := Obj) false])) as Hq' by by apply Forall_app; repeat constructor.
  pose proof (performs_quiet w arg_str split root _ _ _ Hperf Hq') as Ha.
  pose proof (performs_idle w _ _ _ Hperf (proj2 (quiet_counts _ Hq'))) as Hi.
  assert (Hstay : Going fuel 0 pending (set_host h t))
    by by eapply going_weaken; [by apply going_host0|].
  unfold run_decided. destruct denied; [by apply Returns_Done|].
  destruct (bool_decide_reflect (d = DecideApprove)) as [->|]; [|by apply Returns_Done]. simpl.
  specialize (Happ eq_refl). case_bool_decide as Htool.
  - assert (Hleft : remaining h < fuel) by
      (pose proof (advances_remaining _ _ _ _ _ _ _ _ Ha); pose proof (going_fuel _ _ _ _ Hg); lia).
    eapply Returns_bind; [by apply Hdel|]. intros [dl h'] [Hh' Hm]. apply Returns_Done.
    eapply (going_weaken _ (-1)); [|done].
    eapply going_observe; [done|by etrans|by eapply mute_trans; [apply idle_mute|]| |done].
    by eapply Approved_later, advances_prefix.
  - eapply Returns_bind; [apply execute_prepared_spec|]. intros [result h'] (k & Hk & Hran).
    apply Returns_Done. simpl in *.
    assert (Hm : Mute (host t) h').
    { eapply mute_trans; [by apply idle_mute|]. destruct (perf_events _ _ _ _ Hk) as (es & He & Hs).
      split; [apply Hk|]. exists es. split; [done|]. eapply Forall_impl; [exact Hs|]. by intros ? []. }
    destruct Hran as [->|(o & timeout & -> & Ho)].
    + eapply (going_weaken _ (-1)); [|done]. pose proof (performs_quiet w arg_str split root _ _ _ Hk ltac:(constructor)).
      eapply going_observe; [done|by etrans|done| |done]. by eapply Approved_later, advances_prefix.
    + pose proof (performs_trans _ _ _ _ _ _ Hperf Hk) as Hall.
      eapply performs_advances in Hall; [|by apply Lawful_run; [|eapply Ready_authorised]].
      rewrite chats_app, runs_app in Hall. destruct (quiet_counts _ Hq') as [Hc0 Hr0].
      rewrite Hc0, Hr0 in Hall. eapply going_observe; [done|exact Hall|done| |done].
      destruct (perf_events _ _ _ _ Hk) as (es & He & _). by eapply Approved_later, tells_prefix.
Qed.

Lemma dispatch_call_well fuel call scoped tool rest t :
  DelegatesWell fuel delegate → Going fuel (-1) (call :: rest.*1) t → SameCall call scoped →
  get (tp_tools policy) (call_name call) = Some tool →
  Returns (dispatch_call w arg_str split policy delegate (call, scoped) tool rest t) (StepWell fuel rest.*1).
Proof.
  intros Hdel Hg Hsame Hget. unfold dispatch_call.
  destruct (prepare_call w arg_str policy call (host t)) as [p h1] eqn:Hp.
  apply prepare_call_spec in Hp as (l1 & Hp1 & Hq1 & Hopened).
  destruct (decide_call _ _ _ policy (call, scoped) tool p h1) as [[d denied] h2] eqn:Hd.
  apply decide_call_spec in Hd as (l2 & Hp2 & Hq2 & Hdec); [|done].
  set (h3 := emit (ToolDecision (call_id scoped) d) h2).
  destruct (cancelled w (host (set_host h3 t))) as [c h4] eqn:Hc. change (host _) with h3 in Hc.
  pose proof (performs_trans _ _ _ _ _ _ Hp1 (performs_emit_after w _ _ _ (ToolDecision (call_id scoped) d) ltac:(done) Hp2)) as Hp3.
  pose proof (performs_trans _ _ _ _ _ _ Hp3 (performs_cancelled _ _ _ _ Hc)) as Hp4.
  assert (Hq : Forall quiet (l1 ++ l2)) by by apply Forall_app.
  assert (Hstay : Going fuel 0 (call :: rest.*1) (set_host h4 t)).
  { assert (Forall quiet ((l1 ++ l2) ++ [ActCancelled (A := A) (Obj := Obj) c])) as Hqc by by apply Forall_app; repeat constructor.
    eapply going_weaken; [eapply going_host0; [exact Hg|by eapply performs_quiet|]|done].
    eapply performs_idle; [exact Hp4|]. by apply quiet_counts. }
  change (set_host h4 (set_host h3 t)) with (set_host h4 t).
  destruct c; [by apply Returns_Done, (fail_stubbed_ends fuel ((call, scoped) :: rest))|].
  case_bool_decide as Habort; [by apply Returns_Done, (abort_turn_ends fuel ((call, scoped) :: rest))|].
  assert (Hready : Ready (l1 ++ l2) call tool p d t h4).
  { split; [done| | | |done|done].
    - intros o Ho. destruct (Hopened o Ho) as (? & path & directory & Hin). split; [done|].
      exists path, directory. apply elem_of_app. by left.
    - intros Happ. specialize (Hdec Happ). revert Hdec. unfold Decided. destruct rules_decide; [done| |done].
      intros (reason & scoped' & Hs & Hlast). exists reason, scoped'. split; [done|by apply last_app_Some].
    - intros ->. destruct (perf_events _ _ _ _ (performs_cancelled _ _ _ _ Hc)) as (es & He & _).
      eapply Approved_later; [|by eapply tells_prefix].
      pose proof (performs_quiet w arg_str split root _ _ _ (performs_trans _ _ _ _ _ _ Hp1 Hp2) Hq) as Ha.
      eapply Approved_emit, advances_trans; [exact (going_host _ _ _ _ Hg)|exact Ha]. }
  eapply Returns_bind; [by eapply run_decided_well|]. intros [[result aborted] t'] Hg'. apply Returns_Done.
  by apply after_result_well, going_result.
Qed.

Lemma run_call_well fuel index calls rest t :
  DelegatesWell fuel delegate → Going fuel 0 (calls :: rest).*1 t → SameCall calls.1 calls.2 →
  Returns (run_call w arg_str split policy delegate index calls rest t) (StepWell fuel rest.*1).
Proof.
  destruct calls as [call scoped]. intros Hdel Hg Hsame. unfold run_call.
  destruct (cancelled w (host t)) as [c h] eqn:Hc.
  assert (Going fuel 0 (call :: rest.*1) (set_host h t)) as Hg1 by
    by apply going_host0; [|eapply advances_cancelled|eapply idle_cancelled].
  destruct c; [by apply Returns_Done, (fail_stubbed_ends fuel ((call, scoped) :: rest))|].
  destruct (_ <=? index)%N; [by apply Returns_Done, going_refuse|].
  destruct (charge_with w charge_tool_call (host (set_host h t))) as [r h'] eqn:Hr.
  pose proof (idle_charge _ _ _ _ _ Hr) as Hi. apply (charge_call_advances w arg_str split root) in Hr. destruct r as [[]|exhausted|]; [| |done].
  - assert (Going fuel (-1) (call :: rest.*1) (set_host h' (set_host h t))) as Hg2
      by by eapply going_advance.
    destruct (get (tp_tools policy) _) as [tool|] eqn:Hget; [by apply dispatch_call_well|].
    apply Returns_Done. simpl. apply (going_weaken _ (-1)); [|done]. by apply going_refuse.
  - apply Returns_Done. eapply fail_turn_ends; [|done].
    by apply (going_refuse_all fuel 0 ((call, scoped) :: rest)), going_host0.
Qed.

Lemma run_calls_well fuel index calls t :
  DelegatesWell fuel delegate → Going fuel 0 calls.*1 t → Forall (λ p, SameCall p.1 p.2) calls →
  Returns (run_calls w arg_str split policy delegate index calls t) (StepWell fuel []).
Proof.
  intros Hdel. revert index t. induction calls as [|calls rest IH]; intros index t Hg Hsame.
  { by apply Returns_Done. }
  inversion Hsame as [|?? Hs Hrest]; subst.
  eapply Returns_bind; [by apply run_call_well|]. intros [t'|ended] Hstep; [by apply IH|].
  by apply Returns_Done.
Qed.

(** * A provider request and its answer *)

Lemma merged_well_formed k : Paired k → WellFormedRequest (merge_system_messages k).1.
Proof.
  intros Hk. destruct (merge_cases k) as [[-> Hsys]|(s & -> & Hs & _)].
  - split; [done|]. destruct Hsys as [(m & rest & -> & Hm & Hrest)|Hnone]; [right|left; by apply no_system_others].
    exists m. unfold others. rewrite filter_cons_False by congruence. fold (others rest).
    by rewrite no_system_others.
  - assert (others (s :: others k) = others k) as Ho.
    { unfold others at 1. rewrite filter_cons_False by congruence. apply others_idemp. }
    split; [|right; exists s; by rewrite Ho].
    unfold Paired. rewrite unanswered_system by done. by apply unanswered_others.
Qed.

Lemma stage_compaction_spec k :
  Returns (stage_compaction args_text (tp_compactor policy) k)
    (λ staged, match staged with Some (k', _) => KeepsConversation k k' | None => True end).
Proof.
  unfold stage_compaction. match goal with |- Returns (if ?b then _ else _) _ => destruct b end; [by apply Returns_Done|].
  destruct (lawful_compact k) as (k' & r & -> & Hkeep & _). apply Returns_Done. by destruct r.
Qed.

Lemma scope_calls_spec ids (calls : list Call) :
  Returns (scope_calls ids calls) (λ r, Forall2 SameCall calls r.1).
Proof.
  revert ids. induction calls as [|call calls IH]; intros ids; [by apply Returns_Done|].
  simpl. destruct (scoped_total ids call) as (id & _ & ->).
  eapply Returns_bind; [apply IH|]. intros [scoped ids'] Hs. apply Returns_Done. by constructor.
Qed.

Lemma going_push fuel m t :
  Going fuel 0 [] t → msg_role m ≠ RoleTool → called_ids m = [] → Going fuel 0 [] (push m t).
Proof.
  intros Hg Hm Hc. eapply going_set_history; [done| |apply grows_push]. rewrite unanswered_app, (going_history _ _ _ _ Hg).
  simpl. rewrite Hc. by destruct (msg_role m).
Qed.

(** A history compacted in the middle of a turn. *)
Lemma going_compacted fuel t k :
  Going fuel 0 [] t → KeepsConversation (history t) k → Going fuel 0 [] (set_history k t).
Proof.
  intros Hg Hkeep. eapply going_set_history; [done| |by apply grows_compacted].
  eapply keeps_paired; [done|]. by apply Hg.
Qed.

Lemma finish_well fuel t :
  Going fuel 0 [] t →
  Returns (let! t := compact_history policy t in Done (E := Empty_set) (inr (A := Turn) (end_turn t)))
    (StepWell fuel []).
Proof.
  intros Hg. unfold compact_history. destruct (lawful_compact (history t)) as (k & r & -> & Hkeep & _).
  apply Returns_Done. pose proof (going_compacted fuel t k Hg Hkeep) as Hg'.
  eapply end_turn_ends. destruct r; [by apply going_emit|done].
Qed.

Lemma accept_response_well fuel staged r t :
  DelegatesWell fuel delegate → Going fuel 0 [] t →
  match staged with Some (k', _) => KeepsConversation (history t) k' | None => True end →
  Returns (accept_response w arg_str split to_lowercase policy delegate staged r t) (StepWell fuel []).
Proof.
  intros Hdel Hg Hstaged. unfold accept_response.
  set (t1 := match staged with Some p => let '(compacted, report) := p in set_history compacted (emit_turn (HistoryCompacted report) t) | None => t end).
  assert (Going fuel 0 [] t1) as Hg1.
  { subst t1. destruct staged as [[k report]|]; [|done]. apply going_compacted; [by apply going_emit|done]. }
  clearbody t1. set (t2 := emit_turn _ t1). assert (Going fuel 0 [] t2) as Hg2 by by apply going_emit.
  clearbody t2. eapply Returns_bind; [apply scope_calls_spec|]. intros [scoped_calls ids] Hscoped.
  set (t3 := set_host _ (set_call_ids ids t2)).
  assert (Going fuel 0 [] t3) as Hg3.
  { apply going_host0; [by destruct Hg2|auto|]. apply idle_emit_all, Forall_fmap, Forall_true. done. }
  clearbody t3.
  set (m := with_reasoning _ _).
  assert (Hm : msg_role m = RoleAssistant ∧ called_ids m = call_id <$> resp_tool_calls r) by done.
  clearbody m. destruct Hm as [Hrole Hids]. case_bool_decide as Hnone.
  - assert (Going fuel 0 [] (push m t3)) as Hg4 by
      (apply going_push; [done|by rewrite Hrole|by rewrite Hids, Hnone]).
    destruct (auto_continue_reason to_lowercase r) as [[reason prompt]|]; [|by apply finish_well].
    destruct (_ <? _)%N; [|by apply finish_well].
    apply Returns_Done. apply going_push; [|done..]. apply going_emit; [done|]. by destruct Hg4.
  - apply run_calls_well; [done| |].
    + rewrite fst_zip by (apply Forall2_length in Hscoped; simpl in *; lia).
      eapply going_set_history; [done| |apply grows_push]. rewrite unanswered_app, (going_history _ _ _ _ Hg3).
      simpl. by rewrite Hrole, Hids.
    + eapply Forall_impl; [apply Forall2_Forall, Hscoped|]. by intros [].
Qed.

Lemma drop_turn_payloads_place k : Forall2 SamePlace k (drop_turn_payloads k).
Proof.
  unfold drop_turn_payloads. rewrite <-(take_drop (default 0 (last_index RoleUser k)) k) at 1.
  apply Forall2_app; [reflexivity|apply drop_tool_payloads_place].
Qed.

Lemma handle_overflow_well fuel measured t :
  Going fuel 0 [] t → overflow_retry_used t = false →
  Returns (handle_overflow args_text policy measured t) (StepWell fuel []).
Proof.
  intros Hg Hfirst. unfold handle_overflow.
  destruct (lawful_overflow (history t)) as (shrunk & r & -> & Hkeep & Hnone). cbn [outcome_bind].
  destruct r as [report|].
  - destruct (lawful_overflow (rollback_history t)) as (k & r & Hr & _ & _).
    cbv zeta. change (rollback_history (emit_turn _ t)) with (rollback_history t). rewrite Hr. apply Returns_Done.
    destruct (going_emit _ _ _ _ (HistoryCompacted report) ltac:(done) (going_compacted _ _ _ Hg Hkeep))
      as [Hh Hf Hp Hrb Ho Hrec].
    split; simpl in *; try done. right. split; [done|]. exists r. rewrite Hfirst in Hrb.
    by destruct Hrb as [<-|[? _]].
  - rewrite (Hnone eq_refl). clear Hkeep Hnone shrunk. apply Returns_Done.
    unfold fail_turn, preserve_or_rollback_failed_turn. simpl.
    destruct Hg as [Hh _ Hp Hrb Ho (es & ms & He & Hrep & Hk & Hn)].
    destruct (observed_tool_activity t) eqn:Hobs; simpl.
    + split; simpl; [done| |].
      * apply Paired_record. eapply Paired_same_place; [|exact Hp]. apply drop_turn_payloads_place.
      * intros _. exists es. split; [done|]. left. split; [by apply Ho|].
        exists ms, (drop_turn_payloads (history t)), (dropped_output measured). split_and!; [done..|].
        right. by exists (history t), measured.
    + split; simpl; [done|by eapply Paired_record, RolledBack_paired|].
      intros _. exists es. split; [done|]. right. split; [by apply Hn|].
      eexists. split; [by eapply RolledBack_true|]. right. by eexists.
Qed.

Lemma emit_partial_advances streamed h : Advances 0 0 h (emit_partial_response streamed h).
Proof. unfold emit_partial_response. case_bool_decide; auto. reflexivity. Qed.

Lemma emit_partial_idle streamed h : Idle h (emit_partial_response streamed h).
Proof. unfold emit_partial_response. case_bool_decide; auto using idle_emit. by apply idle_emit. Qed.

Lemma chat_advances request h a s :
  chat w (world h) request (tools_of (tp_tools policy)) = (a, s) → WellFormedRequest request →
  Advances 1 0 h (set_world s h).
Proof.
  intros Ha Hreq. assert (Lawful arg_str split root [ActChat (Obj := Obj) request (tools_of (tp_tools policy))]) as Hl.
  { split.
    - intros r tools Hin%list_elem_of_singleton. injection Hin as -> ->. split; [done|by apply under_tools_of].
    - intros before call o timeout after Heq. apply (f_equal (λ l, ActRan call o timeout ∈ l)) in Heq.
      assert (ActRan call o timeout ∈ [ActChat request (tools_of (tp_tools policy))]) as Hin.
      { rewrite Heq. apply elem_of_app. right. by left. }
      by apply list_elem_of_singleton in Hin. }
  exact (performs_advances _ _ _ _ _ _ _ (performs_act w _ _ _ (act_chat w _ _ _ _ _ Ha)) Hl).
Qed.

Lemma turn_step_well fuel t :
  DelegatesWell fuel delegate → Going (S fuel) 0 [] t →
  Returns (turn_step w args_text arg_str split to_lowercase policy delegate t) (StepWell fuel []).
Proof.
  intros Hdel Hg. unfold turn_step. destruct (charge_with w charge_provider_request (host t)) as [r h1] eqn:Hr.
  pose proof (idle_charge _ _ _ _ _ Hr) as Hi1.
  apply (charge_request_advances w arg_str split root) in Hr. destruct r as [[]|exhausted|]; [| |done].
  2: { apply Returns_Done. eapply fail_turn_ends; [by apply going_host0|done]. }
  destruct Hr as [Ha1 Hleft]. change (history (set_host h1 t)) with (history t).
  eapply Returns_bind; [apply stage_compaction_spec|]. intros staged Hstaged.
  set (messages := match staged with Some _ => _ | None => _ end).
  assert (Paired messages) as Hpm.
  { subst messages. pose proof (going_history _ _ _ _ Hg) as Hp.
    destruct staged as [[k report]|]; [by eapply keeps_paired|done]. }
  clearbody messages.
  destruct (chat w _ _ _) as [a s] eqn:Ha. change (host (set_host h1 t)) with h1 in *.
  pose proof (performs_idle w _ _ _ (performs_act w _ _ _ (act_chat w _ _ _ _ _ Ha)) eq_refl) as Hi2.
  apply chat_advances in Ha; [|by apply merged_well_formed].
  set (t2 := set_host _ (set_host h1 t)).
  assert (Hg2 : Going fuel 0 [] t2).
  { pose proof (advances_trans _ _ _ _ (-1) 0 1 0 _ _ _ Ha1 Ha) as Hadv.
    pose proof (advances_trans _ _ _ _ 0 0 0 0 _ _ _ Hadv (advances_emit_all w arg_str split root (TextDelta <$> answer_deltas a) _)) as Hadv'.
    assert (Forall silent (TextDelta <$> answer_deltas a : list (Event A))) as Hs by (apply Forall_fmap, Forall_true; done).
    pose proof (idle_trans _ _ _ _ (idle_trans _ _ _ _ Hi1 Hi2) (idle_emit_all w _ _ Hs)) as Hi.
    destruct (going_host0 _ _ _ _ _ Hg Hadv' Hi) as [Hh Hf Hp Hrb Ho Hrec]. split; try done.
    pose proof (advances_remaining _ _ _ _ _ _ _ _ Ha). pose proof (going_fuel _ _ _ _ Hg).
    pose proof (advances_remaining _ _ _ _ _ _ _ _ (advances_emit_all w arg_str split root (TextDelta <$> answer_deltas a) (set_world s h1))).
    simpl in *. lia. }
  assert (history t2 = history t ∧ overflow_retry_used t2 = overflow_retry_used t) as [Hk Hretry] by done.
  clearbody t2. rewrite <-Hk in Hstaged.
  assert (Hfail : ∀ streamed text e,
    EndsWell (fail_turn text e (set_host (emit_partial_response streamed (host t2)) t2))).
  { intros. eapply fail_turn_ends; [|done].
    apply going_host0; [done|apply emit_partial_advances|apply emit_partial_idle]. }
  destruct (answer_outcome a) as [r|[prompt available|text]| |].
  - by apply accept_response_well.
  - destruct (overflow_retry_used t2) eqn:Hu; [apply Returns_Done, Hfail|]. by apply handle_overflow_well.
  - apply Returns_Done, Hfail.
  - apply Returns_Done. by eapply fail_turn_ends.
  - apply Returns_Done, Hfail.
Qed.
End agent.

(** * Turns and the turns they start *)

Lemma start_turn_going policy k0 h0 fuel message :
  Paired k0 → remaining h0 < fuel → Going policy k0 message h0 fuel 0 [] (start_turn policy k0 message h0).
Proof.
  intros Hk Hf. split; simpl; [reflexivity|done| |by left|done|].
  - by apply Paired_app.
  - exists [], []. split_and!; [by apply tells_nil|by intros ??? ?%elem_of_nil|constructor|].
    intros _. split; [done|]. exists []. by split; [apply acts_nil|].
Qed.

Lemma child_policy_under policy requested name :
  Under policy →
  Under (child_policy policy (without (intersect requested (tp_tools policy)) DelegateTask) name).
Proof.
  intros [Ha Hr Hb Hc Ht]. split; simpl; try done. intros tool.
  rewrite contains_without, contains_intersect, !andb_true_iff. intros [[_ ?] _]. by apply Ht.
Qed.

(** What a child did behind its observer, its parent did. *)
Lemma advances_child name h h' aborted h'' :
  Advances 0 0 (push_observer name h) h' → pop_observer h' = (aborted, h'') → Advances 0 0 h h''.
Proof.
  intros [Hl Hd Hr Hc Hrl Hcl He Ho Ha]. unfold pop_observer. simpl in Ho.
  destruct (observers h') as [|[name' aborted'] parents]; [done|]. intros [= <- <-].
  injection Ho as -> Ho. split; try done. destruct He as [es He]. exists (Subagent name <$> es). by apply tells_child in He.
Qed.

Lemma mute_child name h h' aborted h'' :
  Advances 0 0 (push_observer name h) h' → pop_observer h' = (aborted, h'') → Mute h h''.
Proof.
  intros [_ _ _ _ _ _ [es He] Ho _]. unfold pop_observer. simpl in Ho.
  destruct (observers h') as [|[name' aborted'] parents]; [done|]. intros [= <- <-].
  injection Ho as -> Ho. split; [done|]. exists (Subagent name <$> es). split; [by apply tells_child in He|].
  apply Forall_fmap, Forall_true. done.
Qed.

Lemma delegation_outcome_advances name ended aborted k h status message result h' :
  delegation_outcome w name ended aborted k h = (status, message, result, h') → Advances 0 0 h h' ∧ Idle h h'.
Proof.
  unfold delegation_outcome.
  assert (∀ e, (let '(c, h) := cancelled w h in
    if c then ("cancelled", None, "subagent " +:+ name +:+ " was cancelled", h)
    else ("failed", Some (error_message e), "subagent " +:+ name +:+ " failed: " +:+ error_message e, h)) =
    (status, message, result, h') → Advances 0 0 h h' ∧ Idle h h') as Hcan.
  { intros e. destruct (cancelled w h) as [[] h1] eqn:Hc; intros [= _ _ _ <-];
      (split; [by eapply advances_cancelled|by eapply idle_cancelled]). }
  destruct ended as [|[e|e|text]]; [destruct aborted|..]; try (intros [= _ _ _ <-]; split; auto; reflexivity); apply Hcan.
Qed.

Lemma run_delegation_well policy fuel child_turn call number h :
  Under policy → LawfulCompactor (tp_compactor policy) → remaining h < fuel →
  (∀ policy' k message h', Under policy' → LawfulCompactor (tp_compactor policy') → Paired k →
     remaining h' < fuel → Returns (child_turn policy' k message h') (EndsWell policy' k message h')) →
  Returns (run_delegation w arg_str child_turn policy call number h) (λ r, Advances 0 0 h r.2 ∧ Mute h r.2).
Proof.
  intros Hu Hlaw Hf Hchild. unfold run_delegation.
  assert (Hno : Advances 0 0 h h ∧ Mute h h) by (split; [reflexivity|by apply idle_mute]).
  destruct (arg_str _ "task") as [task|]; [|by apply Returns_Done].
  destruct (blank task); [by apply Returns_Done|].
  destruct (requested_tools arg_str call) as [requested|]; [|by apply Returns_Done].
  set (tools := without _ _). set (name := delegate_name policy number).
  set (h1 := emit (SubagentStarted name task (tool_name <$> tools_of tools)) h).
  assert (Advances 0 0 h h1) as Ha1 by apply advances_emit.
  eapply Returns_bind; [apply Hchild|].
  { by apply child_policy_under. } { done. } { done. }
  { pose proof (advances_remaining _ _ _ _ _ _ _ _ Ha1). change (remaining (push_observer name h1)) with (remaining h1). lia. }
  intros [[ended k] h2] [Ha2 _ _]. simpl in Ha2.
  destruct (pop_observer h2) as [aborted h3] eqn:Hpop. pose proof (mute_child _ _ _ _ _ Ha2 Hpop) as Hm.
  apply (advances_child _ _ _ _ _ Ha2) in Hpop.
  destruct (delegation_outcome w name ended aborted k h3) as [[[status message] result] h4] eqn:Hout.
  apply delegation_outcome_advances in Hout as [Hout Hi].
  destruct (truncate_to_total (E := Empty_set) MAX_TOOL_OUTPUT_BYTES result) as (out & Ht & _).
  unfold truncate. rewrite Ht. apply Returns_Done. simpl.
  split; [etrans; [exact Ha1|]; etrans; [exact Hpop|]; etrans; [exact Hout|apply advances_emit]|].
  eapply (mute_trans _ h1); [by apply mute_emit|]. eapply mute_trans; [exact Hm|].
  eapply mute_trans; [by apply idle_mute|by apply mute_emit].
Qed.

(** The loop of a turn keeps its invariant to its end, given more fuel than
    there are provider requests left. *)
Lemma turn_loop_well fuel policy k0 message h0 t :
  Under policy → LawfulCompactor (tp_compactor policy) → Paired k0 → Going policy k0 message h0 fuel 0 [] t →
  Returns (turn_loop w args_text arg_str split to_lowercase fuel policy t) (EndsWell policy k0 message h0).
Proof.
  revert policy k0 message h0 t. induction fuel as [|fuel IH]; intros policy k0 message h0 t Hu Hlaw Hk0 Hg.
  { pose proof (going_fuel _ _ _ _ _ _ _ _ Hg). lia. }
  simpl. eapply Returns_bind; [apply turn_step_well; [done..| |exact Hg]|].
  - intros call number h Hf. eapply run_delegation_well; [done|done|exact Hf|].
    intros policy' k message' h' Hu' Hlaw' Hk' Hf'. apply IH; [done..|]. by apply start_turn_going.
  - intros [t'|ended] Hstep; [by apply IH|]. by apply Returns_Done.
Qed.

Lemma run_agent_turn_well fuel policy k message h :
  Under policy → LawfulCompactor (tp_compactor policy) → Paired k → remaining h < fuel →
  Returns (run_agent_turn_with_budget w args_text arg_str split to_lowercase fuel policy k message h)
    (EndsWell policy k message h).
Proof. intros Hu Hlaw Hk Hf. apply turn_loop_well; [done..|]. by apply start_turn_going. Qed.
End spec.
