(* ===== verification/TurnSpec.v ===== *)
(** The guarantees of an agent turn ([run_agent_turn] of
    [crates/xshell-execution/src/engine.rs]), from the invariant of
    [EngineSpec], with a turn that is run as an example. What a turn does is
    read off the log of the [recorded] world. *)
From Stdlib Require Import Ascii.
From S2P Require Import Prelude Sensitive Policy Budget CallId Chat.
From S2P Require Import Compaction CompactionSpec Tools Transcript.
From S2P Require Import Engine EngineTrace EngineSpec.

Section properties.
Context {A Obj W : Type} (w : World A Obj W).
Context (args_text : A → string) (arg_str : A → string → option string).
Context (split : string → string + list string) (to_lowercase : string → string).
Context (policy : TurnPolicy A) `{!LawfulCompactor (tp_compactor policy)}.

Abbreviation Message := (ChatMessage A).
Abbreviation Turns := (run_agent_turn_with_budget (recorded w) args_text arg_str split to_lowercase).

Lemma under_self : Under policy policy.
Proof. by split. Qed.

(** What was written down since a turn started. *)
Definition did (h h' : Host A (W * list (Action A Obj))) (l : list (Action A Obj)) : Prop :=
  (world h').2 = (world h).2 ++ l.

Lemma turn_ends_well fuel k message h r :
  Paired k → remaining h < fuel → Turns fuel policy k message h = Done r →
  EndsWell (recorded w) arg_str split policy policy k message h r.
Proof.
  intros Hk Hf Hr.
  destruct (run_agent_turn_well (recorded w) args_text arg_str split to_lowercase policy fuel policy k
    message h under_self _ Hk Hf) as (r' & Hr' & Hends).
  congruence.
Qed.

Lemma turn_did_lawful fuel k message h r l :
  Paired k → remaining h < fuel → Turns fuel policy k message h = Done r → did h r.2 l →
  Lawful arg_str split policy l ∧
  (N.of_nat (chats l) + requests_used (budget h) ≤ requests_used (budget r.2))%N ∧
  (N.of_nat (runs l) + calls_used (budget h) ≤ calls_used (budget r.2))%N.
Proof.
  intros Hk Hf Hr Hl. destruct (ends_host _ _ _ _ _ _ _ _ _ (turn_ends_well _ _ _ _ _ Hk Hf Hr))
    as [_ _ _ _ _ _ _ _ (l' & Ha & Hlaw & Hc & Hn)].
  apply acts_recorded in Ha. unfold did in Hl. rewrite Hl in Ha. apply app_inv_head in Ha as ->.
  split_and!; [done|lia|lia].
Qed.

(** C8: A turn comes to an end, however provider, user and tools answer: with one more round of the
    loop than provider requests left in the budget, it returns, with every turn it delegated. No
    [expect], index or subtraction in it panics, and the transcript it leaves is well paired. *)
Theorem turn_terminates fuel k message (h : Host A W) :
  Paired k → remaining h < fuel →
  ∃ e k' h', run_agent_turn_with_budget w args_text arg_str split to_lowercase fuel policy k message h =
    Done (e, k', h') ∧ Paired k'.
Proof.
  intros Hk Hf. destruct (run_agent_turn_well w args_text arg_str split to_lowercase policy fuel policy k
    message h under_self _ Hk Hf) as ([[e k'] h'] & Hr & Hends).
  exists e, k', h'. split; [done|]. apply Hends.
Qed.

(** C2: Nothing runs unauthorised, in the turn or in any turn it delegates to. Before every shell
    command run and every file or directory read, the last thing done was to find the turn not
    cancelled; before that the approval rules let that very call run, or they asked and the user
    approved it. Its tool is one of the root agent's, and what it reads was opened before the
    decision and is not blocked. *)
Theorem tool_runs_authorised fuel k message h r l before call o timeout after :
  Paired k → remaining h < fuel → Turns fuel policy k message h = Done r → did h r.2 l →
  l = before ++ ActRan call o timeout :: after → Authorised arg_str split policy before call o.
Proof. intros Hk Hf Hr Hl ->. destruct (turn_did_lawful _ _ _ _ _ _ Hk Hf Hr Hl) as [[_ Hrun] _]. by eapply Hrun. Qed.

(** C9: Every transcript sent to a provider is one it accepts - each tool call answered, in order,
    right after it, and no system message but the first - and no agent is offered a tool that the
    root agent was not. *)
Theorem requests_well_formed fuel k message h r l request tools :
  Paired k → remaining h < fuel → Turns fuel policy k message h = Done r → did h r.2 l →
  ActChat request tools ∈ l → WellFormedRequest request ∧ tools ⊆ tools_of (tp_tools policy).
Proof. intros Hk Hf Hr Hl. destruct (turn_did_lawful _ _ _ _ _ _ Hk Hf Hr Hl) as [[Hreq _] _]. apply Hreq. Qed.

(** C7: A root turn and all the turns it delegates to send no more provider requests and run no
    more tools, together, than the limits allow. *)
Theorem turn_stays_in_budget fuel clock_max limits k message s r :
  Paired k → N.to_nat (provider_requests limits) < fuel →
  run_agent_turn (recorded w) args_text arg_str split to_lowercase fuel clock_max limits policy k
    message (s, []) = Done r →
  (N.of_nat (chats (world r.2).2) ≤ provider_requests limits)%N ∧
  (N.of_nat (runs (world r.2).2) ≤ tool_calls limits)%N.
Proof.
  intros Hk Hf. unfold run_agent_turn. simpl. destruct (read_clock w s) as [now s'].
  set (h := {| world := _ |}). intros Hr.
  assert (remaining h < fuel) as Hf' by (unfold remaining; simpl; lia).
  pose proof (ends_host _ _ _ _ _ _ _ _ _ (turn_ends_well _ _ _ _ _ Hk Hf' Hr)) as Hends.
  destruct Hends as [_ _ _ _ Hrl Hcl _ _ (l & Ha & _)]. apply acts_recorded in Ha as Hl.
  destruct (turn_did_lawful _ _ _ _ _ _ Hk Hf' Hr Hl) as (_ & Hc & Hn).
  rewrite Hl, chats_app, runs_app. change ((world h).2) with [ActClock (A := A) (Obj := Obj) now]. simpl in Hrl, Hcl, Hc, Hn.
  change (chats [ActClock now]) with 0. change (runs [ActClock now]) with 0.
  specialize (Hrl ltac:(lia)). specialize (Hcl ltac:(lia)). lia.
Qed.

(** C38: A turn that fails and has run something keeps everything on record: whenever a tool ran in it
    or in a turn it delegated to, or a subagent was started, the transcript left is the one the turn
    found with its message and what it added, a message for each result of a call that it told of
    among them, compacted as it grew, and ends with a record of the failure; only the tool output of
    the turn goes, when the provider rejected its size to the end, and the record says so. A turn that
    fails before that leaves no trace of itself: the transcript is the one it found - or that one
    compacted as after a rejection of its size - with at most one record of the rejection. *)
Theorem failed_turn_rolls_back fuel k message h e k' h' l :
  Paired k → remaining h < fuel → Turns fuel policy k message h = Done (e, k', h') → did h h' l → e ≠ TurnOk →
  ∃ es, Tells h h' es ∧
  ((Approved h h' ∧ ∃ ms kept text, k' = kept ++ [activity_record text] ∧ Reports es ms ∧
      Kept (k ++ msg_user message :: ms) kept text) ∨
   (runs l = 0 ∧ Forall alone es ∧
    ∃ k1, (k1 = k ∨ ∃ report, compact_overflow (tp_compactor policy) k = Done (k1, report)) ∧
      (k' = k1 ∨ ∃ text, k' = k1 ++ [msg_system text]))).
Proof.
  intros Hk Hf Hr Hl He.
  destruct (ends_failed _ _ _ _ _ _ _ _ _ (turn_ends_well _ _ _ _ _ Hk Hf Hr) He)
    as (es & Hes & [Hkept|([Hal (l' & Ha & Hn)] & k1 & Hk1 & Hk')]); exists es; (split; [done|]); [by left|right].
  apply acts_recorded in Ha. unfold did in Hl. simpl in Ha. rewrite Hl in Ha. apply app_inv_head in Ha as ->.
  split_and!; [done|done|]. exists k1. split; [|done]. destruct Hk1 as [->|[_ Hc]]; auto.
Qed.
End properties.

(** * A turn that is run

    A scripted provider, a user who approves, and tools that answer [ok]. The
    root agent runs a shell command, which the user is asked about, and
    delegates a task to an agent that reads a file. *)

Definition sample_world : World string () (list (ChatAnswer (A := string))) := {|
  chat s _ _ := match s with
                | a :: s => (a, s)
                | [] => ({| answer_deltas := []; answer_outcome := ProviderError (OtherAdapterError "down") |}, [])
                end;
  read_clock s := (0%N, s);
  read_cancelled s := (false, s);
  ask_user s _ _ := (DecideApprove, s);
  open_object s path _ _ := (inr {| object := (); object_path := path; object_sensitive := false |}, s);
  run_tool s _ _ _ := (inr "ok", s);
|}.

Definition sample_tool (id name argument : string) : CallId.ToolCall string :=
  {| call_id := id; call_name := name; call_arguments := argument |}.
Definition sample_answer (content : string) (calls : list (CallId.ToolCall string)) : ChatAnswer (A := string) := {|
  answer_deltas := [content];
  answer_outcome := ProviderResponse {|
    resp_content := content; resp_tool_calls := calls; resp_reasoning := None; resp_finish_reason := None |};
|}.

Definition sample_script : list (ChatAnswer (A := string)) :=
  [sample_answer "" [sample_tool "c1" "run_shell" "ls"; sample_tool "c2" "delegate_task" "look"];
   sample_answer "" [sample_tool "c1" "read_file" "a.txt"];
   sample_answer "found it." [];
   sample_answer "all done." []].

Definition sample_turn_policy : TurnPolicy string :=
  turn_policy_new id REQUEST_OVERHEAD_TOKENS Ask.

Definition sample_arg (a key : string) : option string :=
  if bool_decide (key = "tools") then None else Some a.
Definition sample_split (s : string) : string + list string := inr [s].

Definition sample_host (script : list (ChatAnswer (A := string))) :
    Host string (list (ChatAnswer (A := string)) * list (Action string ())) := {|
  world := (script, []); budget := budget_new 1000 0 limits_default; events := []; observers := [] |}.

Definition sample_run (script : list (ChatAnswer (A := string))) :=
  run_agent_turn_with_budget (recorded sample_world) id sample_arg sample_split id 129 sample_turn_policy
    [msg_system "be brief"] "please" (sample_host script).

Definition action_name (a : Action string ()) : string :=
  match a with
  | ActChat _ _ => "chat" | ActClock _ => "clock" | ActCancelled _ => "cancelled?"
  | ActAsked call _ _ => "asked " +:+ call_id call
  | ActOpened path _ _ => "opened " +:+ path
  | ActRan call _ _ => "ran " +:+ call_name call
  end.

Example sample_run_does :
  match sample_run sample_script with
  | Done (TurnOk, k, h) => (action_name <$> (world h).2, msg_content <$> k) =
      (["clock"; "chat"; "cancelled?"; "clock"; "asked c1"; "cancelled?"; "ran run_shell"; "cancelled?";
        "cancelled?"; "clock"; "cancelled?"; "clock"; "chat"; "cancelled?"; "clock"; "opened a.txt";
        "cancelled?"; "ran read_file"; "cancelled?"; "clock"; "chat"; "cancelled?"; "clock"; "chat"],
       ["be brief"; "please"; ""; "ok"; "found it."; "all done."])
  | _ => False
  end.
Proof. vm_compute. reflexivity. Qed.

#[export] Instance sample_lawful : LawfulCompactor (tp_compactor sample_turn_policy).
Proof. apply (build_lawful id). Qed.

Definition sample_result (script : list (ChatAnswer (A := string))) :=
  match sample_run script with Done r => r | _ => (TurnOk, [], sample_host []) end.
Definition sample_log : list (Action string ()) := (world (sample_result sample_script).2).2.

Lemma turn_terminates_witness :
  ∃ e k' h', run_agent_turn_with_budget (recorded sample_world) id sample_arg sample_split id 129
    sample_turn_policy [msg_system "be brief"] "please" (sample_host sample_script) = Done (e, k', h') ∧ Paired k'.
Proof.
  apply (turn_terminates (recorded sample_world) id sample_arg sample_split id sample_turn_policy);
    [vm_compute; reflexivity|vm_compute; lia].
Defined.

Lemma tool_runs_authorised_witness :
  Authorised sample_arg sample_split sample_turn_policy (take 17 sample_log)
    (sample_tool "c1" "read_file" "a.txt")
    (Some {| object := (); object_path := "a.txt"; object_sensitive := false |}).
Proof.
  apply (tool_runs_authorised sample_world id sample_arg sample_split id sample_turn_policy 129
    [msg_system "be brief"] "please" (sample_host sample_script) (sample_result sample_script) sample_log
    (take 17 sample_log) _ _ (shell_timeout limits_default) (drop 18 sample_log));
    [reflexivity|vm_compute; lia|vm_compute; reflexivity..].
Defined.

Definition sample_request : list (ChatMessage string) :=
  [msg_system (DEFAULT_SYSTEM_PROMPT +:+ blank_line +:+ SUBAGENT_SYSTEM_PROMPT); msg_user "look"].

Lemma requests_well_formed_witness :
  WellFormedRequest sample_request ∧ [ReadFile; ListDirectory] ⊆ tools_of (tp_tools sample_turn_policy).
Proof.
  apply (requests_well_formed sample_world id sample_arg sample_split id sample_turn_policy 129
    [msg_system "be brief"] "please" (sample_host sample_script) (sample_result sample_script) sample_log);
    [vm_compute; reflexivity|vm_compute; lia|vm_compute; reflexivity..|].
  apply (list_elem_of_lookup_2 _ 12). vm_compute. reflexivity.
Defined.

Definition sample_root :=
  run_agent_turn (recorded sample_world) id sample_arg sample_split id 129 1000 limits_default
    sample_turn_policy [msg_system "be brief"] "please" (sample_script, []).

Definition sample_root_result := match sample_root with Done r => r | _ => sample_result [] end.

Lemma turn_stays_in_budget_witness :
  (N.of_nat (chats (world sample_root_result.2).2) ≤ provider_requests limits_default)%N ∧
  (N.of_nat (runs (world sample_root_result.2).2) ≤ tool_calls limits_default)%N.
Proof.
  apply (turn_stays_in_budget sample_world id sample_arg sample_split id sample_turn_policy 129 1000
    limits_default [msg_system "be brief"] "please" sample_script sample_root_result);
    [vm_compute; reflexivity|vm_compute; lia|vm_compute; reflexivity].
Defined.

Example sample_root_uses :
  (chats (world sample_root_result.2).2, runs (world sample_root_result.2).2) = (4, 2).
Proof. vm_compute. reflexivity. Qed.

(** The provider fails after the first response, whose calls were run. *)
Definition sample_failing : list (ChatAnswer (A := string)) := take 1 sample_script.

Lemma failed_turn_rolls_back_witness :
  let h := sample_host sample_failing in let r := sample_result sample_failing in
  ∃ es, Tells h r.2 es ∧ Approved h r.2 ∧ ∃ ms kept text, r.1.2 = kept ++ [activity_record text] ∧ Reports es ms ∧
    Kept ([msg_system "be brief"] ++ msg_user "please" :: ms) kept text.
Proof.
  destruct (failed_turn_rolls_back sample_world id sample_arg sample_split id sample_turn_policy 129
    [msg_system "be brief"] "please" (sample_host sample_failing) (sample_result sample_failing).1.1
    (sample_result sample_failing).1.2 (sample_result sample_failing).2
    (world (sample_result sample_failing).2).2)
    as (es & Hes & [[Happ Hkept]|(Hno & _)]);
    [vm_compute; reflexivity|vm_compute; lia|vm_compute; reflexivity|vm_compute; reflexivity|vm_compute; discriminate| |].
  - exact (ex_intro _ es (conj Hes (conj Happ Hkept))).
  - exfalso. revert Hno. vm_compute. discriminate.
Defined.
