(* ===== verification/AuditModel.v ===== *)
(** The data of the audit log ([crates/xshell-audit/src/model.rs] and
    [protocol.rs]). [V] is the type of JSON values. *)
From Stdlib Require Import Ascii.
From S2P Require Import Prelude.

Definition AUDIT_FORMAT_VERSION : N := 5.
Definition MIN_SUPPORTED_AUDIT_FORMAT_VERSION : N := 1.
Definition AUDIT_PROTOCOL_VERSION : N := 6.

Record AuditConfig := {
  enabled : bool;
  required : bool;
  socket : option string;
  directory : option string;
  config_checkpoint_interval : N;
  terminal_stream : bool;
  terminal_stream_max_bytes : N;
  ack_timeout_ms : N;
}.

Definition DEFAULT_TERMINAL_STREAM_MAX_BYTES : N := 16 * 1024 * 1024.
Definition DEFAULT_ACK_TIMEOUT_MS : N := 5000.

(** [ack_timeout], in milliseconds. *)
Definition ack_timeout (c : AuditConfig) : N := N.max (ack_timeout_ms c) 1.

Definition audit_config_default : AuditConfig := {|
  enabled := false; required := true; socket := None; directory := None;
  config_checkpoint_interval := 16; terminal_stream := false;
  terminal_stream_max_bytes := DEFAULT_TERMINAL_STREAM_MAX_BYTES;
  ack_timeout_ms := DEFAULT_ACK_TIMEOUT_MS |}.

Section audit.
Context {V : Type}.

Inductive AuditEvent : Type :=
| EvSessionStarted (client_version cwd model_profile provider model endpoint system_prompt approval : string)
| EvLogicalSessionAttached (action session_id name host_id host_alias user : string)
    (terminal_stream : option bool)
| EvLogicalSessionDetached (action session_id name : string)
| EvInput (route text : string)
| EvWorkingDirectoryChanged (cwd : string)
| EvModelSwitched (profile model : string)
| EvAgentResponse (content : string) (tool_call_count : N) (partial : bool)
    (reasoning finish_reason : option string)
| EvAutoContinued (reason prompt : string)
| EvAgentError (message : string)
| EvToolRequested (call_id name : string) (arguments : V)
| EvToolDecision (call_id decision : string)
| EvToolResult (call_id name result : string)
| EvViewOperation (path : string) (sha256 viewer media_type : option string) (byte_len : option N)
    (outcome : string)
| EvShellFinished (command outcome cwd : string)
| EvTerminalStream (command direction : string) (offset : N) (data : string) (dropped_bytes : N)
| EvHistoryCompacted (compactor : string)
    (messages_before messages_after bytes_before bytes_after turns_removed : N)
| EvSubagentStarted (agent task : string) (tools : list string)
| EvSubagentFinished (agent outcome : string) (message : option string)
| EvSessionEnded (reason : string).

Record AuditRecordBody := {
  rb_format_version : N;
  rb_session_id : string;
  rb_sequence : N;
  rb_daemon_timestamp_unix_ms : N;
  rb_client_uid : N;
  rb_previous_hash : string;
  rb_event : AuditEvent;
}.

Record AuditRecord := {
  record_body : AuditRecordBody;
  record_hash : string;
}.

Record CheckpointBody := {
  cb_format_version : N;
  cb_session_id : string;
  cb_checkpoint_sequence : N;
  cb_previous_checkpoint_hash : string;
  cb_sequence : N;
  cb_daemon_timestamp_unix_ms : N;
  cb_chain_head : string;
  cb_signing_key_id : string;
  cb_final_checkpoint : bool;
}.

Record WitnessCommitment := {
  wc_scheme : string;
  wc_commitment : string;
}.

Record AuditCheckpoint := {
  cp_body : CheckpointBody;
  cp_blinding_nonce : string;
  cp_witness : WitnessCommitment;
  cp_signature : string;
  cp_checkpoint_hash : string;
}.

Inductive AuditLogEntry : Type :=
| EntryRecord (r : AuditRecord)
| EntryCheckpoint (c : AuditCheckpoint).

(** [ClientRequest] and [ServerResponse]. *)
Inductive ClientRequest : Type :=
| ReqOpen (protocol_version : N) (client_version : string)
| ReqAppend (event : AuditEvent)
| ReqClose.

Inductive ServerResponse : Type :=
| RespOpened (protocol_version : N) (session_id signing_key_id : string)
| RespAck (sequence : N) (record_hash : string)
| RespClosed (checkpoint : AuditCheckpoint)
| RespError (message : string).
End audit.
Arguments AuditEvent : clear implicits.
Arguments AuditRecordBody : clear implicits.
Arguments AuditRecord : clear implicits.
Arguments AuditLogEntry : clear implicits.
Arguments ClientRequest : clear implicits.
