(* ===== verification/AuditLog.v ===== *)
(** The hash-chained audit log and its verifier
    ([crates/xshell-audit/src/log.rs]) and the daemon's session loop
    ([handle_client] of [bin/xshell-auditd.rs]).

    SHA-256, hex, Ed25519 and serde_json are the parameters of the classes
    [Crypto] and [AuditSerde]; the clock, the random nonces and the file system
    are those of [AuditIo]. A file is its text. Overflowing arithmetic is a
    panic. *)
From Stdlib Require Import Ascii.
From S2P Require Import Prelude Effects Budget Compaction AuditModel.

Abbreviation bytes := (list ascii).

Class Crypto (SecretKey PublicKey Signature : Type) := {
  sha256 : bytes → bytes;
  hex_encode : bytes → string;
  hex_decode : string → option bytes;
  verifying_key : SecretKey → PublicKey;
  key_to_bytes : PublicKey → bytes;
  key_from_bytes : bytes → option PublicKey;
  sign : SecretKey → bytes → Signature;
  verify : PublicKey → bytes → Signature → bool;
  signature_to_bytes : Signature → bytes;
  signature_from_slice : bytes → option Signature;
}.

Class AuditSerde (V : Type) := {
  record_body_to_vec : AuditRecordBody V → option bytes;
  checkpoint_body_to_vec : CheckpointBody → option bytes;
  entry_to_string : AuditLogEntry V → option string;
  entry_from_str : string → option (AuditLogEntry V);
  checkpoint_to_string : AuditCheckpoint → option string;
  request_from_str : string → option (ClientRequest V);
}.

(** [write_all], [flush] and [sync_data] of a file: its text afterwards, and
    whether they succeeded. *)
Class AuditIo (W : Type) := {
  unix_timestamp_ms : W → option N * W;
  fill_nonce : W → bytes * W;
  write_synced : W → string → string → (string * bool) * W;
  send_ok : W → bool * W;
}.

Definition nul : ascii := "000"%char.
Definition RECORD_DOMAIN : bytes := chars "xshell-audit-record-v1" ++ [nul].
Definition CHECKPOINT_DOMAIN : bytes := chars "xshell-audit-checkpoint-v1" ++ [nul].
Definition CHECKPOINT_HASH_DOMAIN : bytes := chars "xshell-audit-checkpoint-hash-v1" ++ [nul].
Definition WITNESS_DOMAIN : bytes := chars "xshell-audit-witness-v1" ++ [nul].
Definition WITNESS_SCHEME : string := "sha256-blinded-v1".

(** ["0".repeat(64)]. *)
Definition genesis : string := of_chars (replicate 64 "0"%char).

Definition checked_add_u64 {E} (a b : N) : Outcome E N :=
  if (a + b <=? U64_MAX)%N then Done (a + b)%N else Panic.

(** [anyhow::Result]: a missing value is an error with this text. *)
Definition context {A} (o : option A) (message : string) : Outcome string A :=
  match o with Some a => Done a | None => Fail message end.

Section audit.
Context {V W SecretKey PublicKey Signature : Type}.
Context `{!Crypto SecretKey PublicKey Signature, !AuditSerde V, !AuditIo W}.
Abbreviation Result := (Outcome string).
Abbreviation Entry := (AuditLogEntry V).

(** ** Hashes *)

Definition hash_record_body (body : AuditRecordBody V) : Result string :=
  let! encoded := context (record_body_to_vec body) "cannot encode record" in
  Done (hex_encode (sha256 (RECORD_DOMAIN ++ encoded))).

Definition witness_commitment (body : CheckpointBody) (nonce : bytes) : Result string :=
  let! encoded := context (checkpoint_body_to_vec body) "cannot encode checkpoint" in
  Done (hex_encode (sha256 (WITNESS_DOMAIN ++ encoded ++ nonce))).

Definition checkpoint_message (body : CheckpointBody) (commitment : string) : Result bytes :=
  let! encoded := context (checkpoint_body_to_vec body) "cannot encode checkpoint" in
  Done (CHECKPOINT_DOMAIN ++ encoded ++ chars commitment).

Definition hash_checkpoint (c : AuditCheckpoint) : Result string :=
  let! encoded := context (checkpoint_body_to_vec (cp_body c)) "cannot encode checkpoint" in
  Done (hex_encode (sha256 (CHECKPOINT_HASH_DOMAIN ++ encoded ++ chars (cp_blinding_nonce c) ++
    chars (wc_scheme (cp_witness c)) ++ chars (wc_commitment (cp_witness c)) ++ chars (cp_signature c)))).

(** [hex::encode(&Sha256::digest(public_bytes)[..16])]. *)
Definition key_id (public_bytes : bytes) : string := hex_encode (take 16 (sha256 public_bytes)).

(** ** The writer *)

Record AuditLogWriter := {
  w_format_version : N;
  w_session_id : string;
  w_client_uid : N;
  w_sequence : N;
  w_chain_head : string;
  w_checkpoint_interval : N;
  w_checkpoint_sequence : N;
  w_checkpoint_head : string;
  w_signing_key : SecretKey;
  w_log : string;
  w_checkpoint_index : string;
}.

Definition identity_key_id (key : SecretKey) : string := key_id (key_to_bytes (verifying_key key)).

(** [create_with_format], given the files and a fresh session id. *)
Definition create_with_format (session_id index : string) (key : SecretKey) (client_uid interval : N)
    (format_version : N) : Result AuditLogWriter :=
  if (interval =? 0)%N then Fail "checkpoint interval must be greater than zero"
  else Done {|
    w_format_version := format_version; w_session_id := session_id; w_client_uid := client_uid;
    w_sequence := 0; w_chain_head := genesis; w_checkpoint_interval := interval;
    w_checkpoint_sequence := 0; w_checkpoint_head := genesis; w_signing_key := key;
    w_log := ""; w_checkpoint_index := index |}.

Definition create (session_id index : string) (key : SecretKey) (client_uid interval : N) :
    Result AuditLogWriter :=
  create_with_format session_id index key client_uid interval AUDIT_FORMAT_VERSION.

(** The writer and the world; both may have changed when a step fails. *)
Abbreviation M := (Step (AuditLogWriter * W) string).

Definition the_writer : M AuditLogWriter := s ← get; mret s.1.
Definition updating (f : AuditLogWriter → AuditLogWriter) : M () := modify (λ '(w, s), (f w, s)).

Definition set_sequence (n : N) (w : AuditLogWriter) : AuditLogWriter := {|
  w_format_version := w_format_version w; w_session_id := w_session_id w; w_client_uid := w_client_uid w;
  w_sequence := n; w_chain_head := w_chain_head w; w_checkpoint_interval := w_checkpoint_interval w;
  w_checkpoint_sequence := w_checkpoint_sequence w; w_checkpoint_head := w_checkpoint_head w;
  w_signing_key := w_signing_key w; w_log := w_log w; w_checkpoint_index := w_checkpoint_index w |}.
Definition set_chain_head (head : string) (w : AuditLogWriter) : AuditLogWriter := {|
  w_format_version := w_format_version w; w_session_id := w_session_id w; w_client_uid := w_client_uid w;
  w_sequence := w_sequence w; w_chain_head := head; w_checkpoint_interval := w_checkpoint_interval w;
  w_checkpoint_sequence := w_checkpoint_sequence w; w_checkpoint_head := w_checkpoint_head w;
  w_signing_key := w_signing_key w; w_log := w_log w; w_checkpoint_index := w_checkpoint_index w |}.
Definition set_checkpoint_sequence (n : N) (w : AuditLogWriter) : AuditLogWriter := {|
  w_format_version := w_format_version w; w_session_id := w_session_id w; w_client_uid := w_client_uid w;
  w_sequence := w_sequence w; w_chain_head := w_chain_head w; w_checkpoint_interval := w_checkpoint_interval w;
  w_checkpoint_sequence := n; w_checkpoint_head := w_checkpoint_head w;
  w_signing_key := w_signing_key w; w_log := w_log w; w_checkpoint_index := w_checkpoint_index w |}.
Definition set_checkpoint_head (head : string) (w : AuditLogWriter) : AuditLogWriter := {|
  w_format_version := w_format_version w; w_session_id := w_session_id w; w_client_uid := w_client_uid w;
  w_sequence := w_sequence w; w_chain_head := w_chain_head w; w_checkpoint_interval := w_checkpoint_interval w;
  w_checkpoint_sequence := w_checkpoint_sequence w; w_checkpoint_head := head;
  w_signing_key := w_signing_key w; w_log := w_log w; w_checkpoint_index := w_checkpoint_index w |}.
Definition set_files (log index : string) (w : AuditLogWriter) : AuditLogWriter := {|
  w_format_version := w_format_version w; w_session_id := w_session_id w; w_client_uid := w_client_uid w;
  w_sequence := w_sequence w; w_chain_head := w_chain_head w; w_checkpoint_interval := w_checkpoint_interval w;
  w_checkpoint_sequence := w_checkpoint_sequence w; w_checkpoint_head := w_checkpoint_head w;
  w_signing_key := w_signing_key w; w_log := log; w_checkpoint_index := index |}.

Definition timestamp : M N := λ '(w, s),
  let '(now, s) := unix_timestamp_ms s in
  ((w, s), context now "system clock is before the Unix epoch").

Definition nonce : M bytes := λ '(w, s), let '(n, s) := fill_nonce s in ((w, s), Done n).

Definition line_end : string := String newline "".

(** [write_all], [flush] and [sync_data] of the log, and of the checkpoint
    index, which is locked meanwhile. *)
Definition write_log (text : string) : M () := λ '(w, s),
  let '((log, ok), s) := write_synced s (w_log w) text in
  ((set_files log (w_checkpoint_index w) w, s), if ok then Done () else Fail "cannot write audit log").
Definition write_index (text : string) : M () := λ '(w, s),
  let '((index, ok), s) := write_synced s (w_checkpoint_index w) text in
  ((set_files (w_log w) index w, s), if ok then Done () else Fail "cannot write checkpoint index").

Definition write_entry (entry : Entry) : M () :=
  line ← lift (context (entry_to_string entry) "cannot encode entry");
  write_log (line +:+ line_end).

Definition append_checkpoint_index (c : AuditCheckpoint) : M () :=
  line ← lift (context (checkpoint_to_string c) "cannot encode checkpoint");
  write_index (line +:+ line_end).

Definition write_checkpoint (final_checkpoint : bool) : M AuditCheckpoint :=
  w ← the_writer;
  n ← lift (checked_add_u64 (w_checkpoint_sequence w) 1);
  updating (set_checkpoint_sequence n);;
  now ← timestamp;
  let body := {|
    cb_format_version := w_format_version w; cb_session_id := w_session_id w;
    cb_checkpoint_sequence := n; cb_previous_checkpoint_hash := w_checkpoint_head w;
    cb_sequence := w_sequence w; cb_daemon_timestamp_unix_ms := now; cb_chain_head := w_chain_head w;
    cb_signing_key_id := identity_key_id (w_signing_key w); cb_final_checkpoint := final_checkpoint |} in
  blinding ← nonce;
  commitment ← lift (witness_commitment body blinding);
  message ← lift (checkpoint_message body commitment);
  let unhashed := {|
    cp_body := body; cp_blinding_nonce := hex_encode blinding;
    cp_witness := {| wc_scheme := WITNESS_SCHEME; wc_commitment := commitment |};
    cp_signature := hex_encode (signature_to_bytes (sign (w_signing_key w) message));
    cp_checkpoint_hash := "" |} in
  hash ← lift (hash_checkpoint unhashed);
  let checkpoint := {|
    cp_body := body; cp_blinding_nonce := cp_blinding_nonce unhashed; cp_witness := cp_witness unhashed;
    cp_signature := cp_signature unhashed; cp_checkpoint_hash := hash |} in
  write_entry (EntryCheckpoint checkpoint);;
  append_checkpoint_index checkpoint;;
  updating (set_checkpoint_head hash);;
  mret checkpoint.

Definition append (event : AuditEvent V) : M (AuditRecord V) :=
  w ← the_writer;
  n ← lift (checked_add_u64 (w_sequence w) 1);
  updating (set_sequence n);;
  now ← timestamp;
  let body := {|
    rb_format_version := w_format_version w; rb_session_id := w_session_id w; rb_sequence := n;
    rb_daemon_timestamp_unix_ms := now; rb_client_uid := w_client_uid w;
    rb_previous_hash := w_chain_head w; rb_event := event |} in
  hash ← lift (hash_record_body body);
  let record := {| record_body := body; record_hash := hash |} in
  write_entry (EntryRecord record);;
  updating (set_chain_head hash);;
  (if is_multiple_of n (w_checkpoint_interval w) then write_checkpoint false;; mret () else mret ());;
  mret record.

Definition close : M AuditCheckpoint := write_checkpoint true.

(** ** The verifier *)

Record VerificationReport := {
  vr_session_id : string;
  vr_records : N;
  vr_checkpoints : N;
  vr_final_checkpoint : bool;
  vr_chain_head : string;
}.

Definition supported_format (version : N) : bool :=
  (MIN_SUPPORTED_AUDIT_FORMAT_VERSION <=? version)%N && (version <=? AUDIT_FORMAT_VERSION)%N.

Definition require (b : bool) (message : string) : Result () := if b then Done () else Fail message.

Definition verify_checkpoint (c : AuditCheckpoint) (key : PublicKey) : Result () :=
  let! nonce := context (hex_decode (cp_blinding_nonce c)) "invalid checkpoint nonce" in
  let! expected := witness_commitment (cp_body c) nonce in
  let! _ := require (bool_decide (wc_scheme (cp_witness c) = WITNESS_SCHEME) &&
                     bool_decide (wc_commitment (cp_witness c) = expected)) "witness commitment mismatch" in
  let! hash := hash_checkpoint c in
  let! _ := require (bool_decide (cp_checkpoint_hash c = hash)) "checkpoint hash mismatch" in
  let! encoded := context (hex_decode (cp_signature c)) "invalid signature encoding" in
  let! signature := context (signature_from_slice encoded) "invalid Ed25519 signature" in
  let! message := checkpoint_message (cp_body c) (wc_commitment (cp_witness c)) in
  require (verify key message signature) "checkpoint signature verification failed".

(** The variables of [verify_log]'s loop. *)
Record Verified := {
  v_session_id : option string;
  v_expected_sequence : N;
  v_chain_head : string;
  v_checkpoints : N;
  v_checkpoint_head : string;
  v_final_checkpoint : bool;
}.

Definition verify_start : Verified := {|
  v_session_id := None; v_expected_sequence := 1; v_chain_head := genesis; v_checkpoints := 0;
  v_checkpoint_head := genesis; v_final_checkpoint := false |}.

Definition on_line (message : string) (line_number : nat) : string :=
  message +:+ " on line " +:+ fmt_nat line_number.

Definition verify_record (line_number : nat) (record : AuditRecord V) (v : Verified) : Result Verified :=
  let body := record_body record in
  let! _ := require (supported_format (rb_format_version body))
              (on_line "unsupported audit format" line_number) in
  let! _ := require match v_session_id v with
                    | Some id => bool_decide (id = rb_session_id body)
                    | None => true
                    end (on_line "session ID changed" line_number) in
  let! _ := require (bool_decide (rb_sequence body = v_expected_sequence v))
              (on_line "sequence gap" line_number) in
  let! _ := require (bool_decide (rb_previous_hash body = v_chain_head v))
              (on_line "previous hash mismatch" line_number) in
  let! calculated := hash_record_body body in
  let! _ := require (bool_decide (record_hash record = calculated))
              (on_line "record hash mismatch" line_number) in
  let! next := checked_add_u64 (v_expected_sequence v) 1 in
  Done {| v_session_id := Some (default (rb_session_id body) (v_session_id v));
          v_expected_sequence := next; v_chain_head := calculated; v_checkpoints := v_checkpoints v;
          v_checkpoint_head := v_checkpoint_head v; v_final_checkpoint := v_final_checkpoint v |}.

Definition checkpoint_matches (expected_key_id expected_session : string) (b : CheckpointBody)
    (v : Verified) : bool :=
  bool_decide (cb_session_id b = expected_session) &&
  bool_decide (cb_checkpoint_sequence b = v_checkpoints v + 1)%N &&
  bool_decide (cb_previous_checkpoint_hash b = v_checkpoint_head v) &&
  bool_decide (cb_sequence b = v_expected_sequence v - 1)%N &&
  bool_decide (cb_chain_head b = v_chain_head v) &&
  bool_decide (cb_signing_key_id b = expected_key_id).

Definition verify_checkpoint_entry (expected_key_id : string) (key : PublicKey) (line_number : nat)
    (c : AuditCheckpoint) (v : Verified) : Result Verified :=
  let body := cp_body c in
  let! _ := require (supported_format (cb_format_version body))
              (on_line "unsupported audit format" line_number) in
  let expected_session := default (cb_session_id body) (v_session_id v) in
  let! _ := require (checkpoint_matches expected_key_id expected_session body v)
              (on_line "checkpoint state mismatch" line_number) in
  let! _ := match verify_checkpoint c key with
            | Fail _ => Fail (on_line "invalid checkpoint" line_number)
            | r => r
            end in
  let! next := checked_add_u64 (v_checkpoints v) 1 in
  Done {| v_session_id := Some expected_session; v_expected_sequence := v_expected_sequence v;
          v_chain_head := v_chain_head v; v_checkpoints := next;
          v_checkpoint_head := cp_checkpoint_hash c;
          v_final_checkpoint := cb_final_checkpoint body |}.

Definition verify_entry (expected_key_id : string) (key : PublicKey) (line_number : nat) (entry : Entry)
    (v : Verified) : Result Verified :=
  match entry with
  | EntryRecord record => verify_record line_number record v
  | EntryCheckpoint c => verify_checkpoint_entry expected_key_id key line_number c v
  end.

Fixpoint verify_lines (expected_key_id : string) (key : PublicKey) (line_number : nat)
    (lines : list string) (v : Verified) : Result Verified :=
  match lines with
  | [] => Done v
  | line :: lines =>
      let! entry := context (entry_from_str line) (on_line "invalid audit entry" line_number) in
      let! v := verify_entry expected_key_id key line_number entry v in
      verify_lines expected_key_id key (S line_number) lines v
  end.

(** [BufRead::lines]: a line loses its end, carriage return included. *)
Definition strip_carriage_return (line : string) : string :=
  if bool_decide (last (chars line) = Some "013"%char) then of_chars (removelast (chars line)) else line.

Definition lines (text : string) : list string :=
  let pieces := split_char newline text in
  strip_carriage_return <$> (if bool_decide (last pieces = Some "") then removelast pieces else pieces).

(** [verify_log], given the text of the public key and of the log. *)
Definition verify_log (text public_hex : string) : Result VerificationReport :=
  let! public_bytes := context (hex_decode (trim public_hex)) "invalid public key encoding" in
  let! _ := require (bool_decide (length public_bytes = 32)) "audit public key must contain 32 bytes" in
  let! key := context (key_from_bytes public_bytes) "invalid Ed25519 public key" in
  let! v := verify_lines (key_id public_bytes) key 1 (lines text) verify_start in
  let! session_id := context (v_session_id v) "audit log contains no records" in
  Done {| vr_session_id := session_id; vr_records := (v_expected_sequence v - 1)%N;
          vr_checkpoints := v_checkpoints v; vr_final_checkpoint := v_final_checkpoint v;
          vr_chain_head := v_chain_head v |}.

(** ** The daemon's session *)

(** [send]: the responses so far, and whether this one was sent. *)
Definition send (response : ServerResponse) (sent : list ServerResponse) (s : W) :
    list ServerResponse * W * Result () :=
  let '(ok, s) := send_ok s in
  (sent ++ [response], s, if ok then Done () else Fail "cannot send response").

(** What a session leaves: its log, the responses, the world and its end. *)
Definition SessionEnd : Type := option AuditLogWriter * list ServerResponse * W * Result ().

(** The loop of [handle_client] over the request lines a client sends. *)
Fixpoint serve (requests : list string) (w : AuditLogWriter) (sent : list ServerResponse) (s : W) :
    SessionEnd :=
  match requests with
  | [] => (Some w, sent, s, Done ())
  | line :: requests =>
      match request_from_str line with
      | None =>
          let '(sent, s, r) := send (RespError "invalid audit request") sent s in (Some w, sent, s, r)
      | Some (ReqAppend event) =>
          let '((w, s), r) := append event (w, s) in
          match r with
          | Done record =>
              let '(sent, s, r) :=
                send (RespAck (rb_sequence (record_body record)) (record_hash record)) sent s in
              match r with
              | Done _ => serve requests w sent s
              | r => (Some w, sent, s, r)
              end
          | Fail error =>
              let '(sent, s, r) := send (RespError ("durable append failed: " +:+ error)) sent s in
              (Some w, sent, s, match r with Done _ => Fail error | r => r end)
          | Panic => (Some w, sent, s, Panic)
          end
      | Some ReqClose =>
          let '((w, s), r) := close (w, s) in
          match r with
          | Done checkpoint => let '(sent, s, r) := send (RespClosed checkpoint) sent s in (Some w, sent, s, r)
          | Fail error => (Some w, sent, s, Fail error)
          | Panic => (Some w, sent, s, Panic)
          end
      | Some (ReqOpen _ _) =>
          let '(sent, s, r) := send (RespError "session is already open") sent s in (Some w, sent, s, r)
      end
  end.

(** [handle_client], given the client's user and what it sends; [fresh] is the
    new session's id. *)
Definition handle_client (fresh index : string) (key : SecretKey) (client_uid interval : N)
    (requests : list string) (s : W) : SessionEnd :=
  match requests with
  | [] => (None, [], s, Done ())
  | line :: requests =>
      match request_from_str line with
      | None => (None, [], s, Fail "invalid open request")
      | Some (ReqOpen protocol_version _) =>
          if bool_decide (protocol_version = AUDIT_PROTOCOL_VERSION) then
            match create fresh index key client_uid interval with
            | Done w =>
                let '(sent, s, r) := send (RespOpened AUDIT_PROTOCOL_VERSION (w_session_id w)
                                             (identity_key_id (w_signing_key w))) [] s in
                match r with
                | Done _ => serve requests w sent s
                | r => (Some w, sent, s, r)
                end
            | Fail error => (None, [], s, Fail error)
            | Panic => (None, [], s, Panic)
            end
          else
            let '(sent, s, r) := send (RespError ("client speaks audit protocol " +:+ fmt_N protocol_version +:+
              " but this xshell-auditd requires " +:+ fmt_N AUDIT_PROTOCOL_VERSION +:+
              "; upgrade the client or restart xshell-auditd from the same build")) [] s in
            (None, sent, s, r)
      | Some _ =>
          let '(sent, s, r) := send (RespError "first request must open a session") [] s in
          (None, sent, s, r)
      end
  end.
End audit.
