(* ===== verification/AuditSpec.v ===== *)
(** What the audit log promises ([AuditLog]): the verifier accepts exactly the
    well-formed logs, it accepts what the writer wrote, a chain head fixes the
    records before it, and what the daemon acknowledged is in the log. It also
    accepts records forged after the final checkpoint. *)
From Stdlib Require Import Ascii.
From S2P Require Import Prelude Effects Budget Compaction CompactionSpec AuditModel AuditLog.

(** ** A sample

    A small audit log in which every parameter of [AuditLog] is a concrete
    function. Bytes hash to themselves, there is one key, and the only lines
    JSON knows are those of the sample. *)

#[export] Instance AuditEvent_eq_dec : EqDecision (AuditEvent string).
Proof. solve_decision. Defined.
#[export] Instance AuditRecordBody_eq_dec : EqDecision (AuditRecordBody string).
Proof. solve_decision. Defined.
#[export] Instance AuditRecord_eq_dec : EqDecision (AuditRecord string).
Proof. solve_decision. Defined.
#[export] Instance CheckpointBody_eq_dec : EqDecision CheckpointBody.
Proof. solve_decision. Defined.
#[export] Instance WitnessCommitment_eq_dec : EqDecision WitnessCommitment.
Proof. solve_decision. Defined.
#[export] Instance AuditCheckpoint_eq_dec : EqDecision AuditCheckpoint.
Proof. solve_decision. Defined.
#[export] Instance AuditLogEntry_eq_dec : EqDecision (AuditLogEntry string).
Proof. solve_decision. Defined.

Inductive SampleKey : Type := TheKey.

Definition sample_key_bytes : bytes := replicate 32 "k"%char.

#[export] Instance sample_crypto : Crypto SampleKey SampleKey bytes := {|
  sha256 b := b;
  hex_encode := of_chars;
  hex_decode s := Some (chars s);
  verifying_key k := k;
  key_to_bytes _ := sample_key_bytes;
  key_from_bytes _ := Some TheKey;
  sign _ m := m;
  verify _ m s := bool_decide (s = m);
  signature_to_bytes s := s;
  signature_from_slice b := Some b;
|}.

Definition sample_record_bytes (body : AuditRecordBody string) : option bytes :=
  Some (chars (fmt_N (rb_sequence body) +:+
    match rb_event body with EvInput _ text => text | _ => "" end)).
Definition sample_checkpoint_bytes (body : CheckpointBody) : option bytes :=
  Some (chars (fmt_N (cb_checkpoint_sequence body))).

(** The parts of the sample, hashed before there are any lines. *)
Definition sample_bodies : AuditSerde string := {|
  record_body_to_vec := sample_record_bytes; checkpoint_body_to_vec := sample_checkpoint_bytes;
  entry_to_string _ := None; entry_from_str _ := None; checkpoint_to_string _ := None;
  request_from_str _ := None |}.

Definition sample_event (text : string) : AuditEvent string := EvInput "agent" text.

Definition sample_record (sequence : N) (previous text : string) : AuditRecord string :=
  let body := {|
    rb_format_version := AUDIT_FORMAT_VERSION; rb_session_id := "session"; rb_sequence := sequence;
    rb_daemon_timestamp_unix_ms := 7; rb_client_uid := 501; rb_previous_hash := previous;
    rb_event := sample_event text |} in
  {| record_body := body;
     record_hash := match hash_record_body (AuditSerde0 := sample_bodies) body with
                    | Done h => h | _ => "" end |}.

Definition sample_first : AuditRecord string := sample_record 1 genesis "first".
Definition sample_second : AuditRecord string := sample_record 2 (record_hash sample_first) "second".
Definition sample_forged : AuditRecord string := sample_record 3 (record_hash sample_second) "forged".

Definition sample_checkpoint (number : N) (previous : string) (final : bool) : AuditCheckpoint :=
  let body := {|
    cb_format_version := AUDIT_FORMAT_VERSION; cb_session_id := "session";
    cb_checkpoint_sequence := number; cb_previous_checkpoint_hash := previous; cb_sequence := 2;
    cb_daemon_timestamp_unix_ms := 7; cb_chain_head := record_hash sample_second;
    cb_signing_key_id := identity_key_id TheKey; cb_final_checkpoint := final |} in
  match witness_commitment (AuditSerde0 := sample_bodies) body [] with
  | Done commitment =>
      let signed := {|
        cp_body := body; cp_blinding_nonce := "";
        cp_witness := {| wc_scheme := WITNESS_SCHEME; wc_commitment := commitment |};
        cp_signature := match checkpoint_message (AuditSerde0 := sample_bodies) body commitment with
                        | Done m => of_chars m | _ => "" end;
        cp_checkpoint_hash := "" |} in
      {| cp_body := body; cp_blinding_nonce := ""; cp_witness := cp_witness signed;
         cp_signature := cp_signature signed;
         cp_checkpoint_hash := match hash_checkpoint (AuditSerde0 := sample_bodies) signed with
                               | Done h => h | _ => "" end |}
  | _ => {| cp_body := body; cp_blinding_nonce := "";
            cp_witness := {| wc_scheme := ""; wc_commitment := "" |}; cp_signature := "";
            cp_checkpoint_hash := "" |}
  end.

Definition sample_checkpoint_1 : AuditCheckpoint := sample_checkpoint 1 genesis false.
Definition sample_checkpoint_2 : AuditCheckpoint :=
  sample_checkpoint 2 (cp_checkpoint_hash sample_checkpoint_1) true.

Definition sample_lines : list (string * AuditLogEntry string) :=
  [("r1", EntryRecord sample_first); ("r2", EntryRecord sample_second);
   ("c1", EntryCheckpoint sample_checkpoint_1); ("c2", EntryCheckpoint sample_checkpoint_2);
   ("r3", EntryRecord sample_forged)].

#[export] Instance sample_serde : AuditSerde string := {|
  record_body_to_vec := sample_record_bytes;
  checkpoint_body_to_vec := sample_checkpoint_bytes;
  entry_to_string e := fst <$> List.find (λ p, bool_decide (p.2 = e)) sample_lines;
  entry_from_str l := snd <$> List.find (λ p, bool_decide (p.1 = l)) sample_lines;
  checkpoint_to_string _ := Some "c";
  request_from_str l :=
    if bool_decide (l = "open") then Some (ReqOpen AUDIT_PROTOCOL_VERSION "1")
    else if bool_decide (l = "close") then Some ReqClose
    else if bool_decide (l = "") then None
    else Some (ReqAppend (sample_event l));
|}.

#[export] Instance sample_io : AuditIo () := {|
  unix_timestamp_ms s := (Some 7%N, s);
  fill_nonce s := ([], s);
  write_synced s text more := ((text +:+ more, true), s);
  send_ok s := (true, s);
|}.

Definition sample_public_hex : string := of_chars sample_key_bytes.

Definition sample_log : string :=
  String.concat line_end ["r1"; "r2"; "c1"; "c2"; ""].

Example sample_log_accepted :
  verify_log sample_log sample_public_hex = Done {|
    vr_session_id := "session"; vr_records := 2; vr_checkpoints := 2; vr_final_checkpoint := true;
    vr_chain_head := record_hash sample_second |}.
Proof. vm_compute. reflexivity. Qed.

Example sample_log_reordered :
  verify_log (String.concat line_end ["r2"; "r1"; "c1"; "c2"; ""]) sample_public_hex =
  Fail "sequence gap on line 1".
Proof. vm_compute. reflexivity. Qed.

Example sample_session :
  match handle_client "session" "" TheKey 501 2 ["open"; "first"; "second"; "close"] () with
  | (Some w, sent, _, Done ()) => w_log w = sample_log ∧ length sent = 4
  | _ => False
  end.
Proof. vm_compute. done. Qed.

(** ** Well-formed logs *)

Lemma omap_cons_list {A B} (f : A → option B) x l : omap f (x :: l) = option_list (f x) ++ omap f l.
Proof. unfold omap. simpl. by destruct (f x). Qed.

(** * Lines of a file *)

Definition file_of (ls : list string) : string := String.concat "" ((λ l, l +:+ line_end) <$> ls).

(** A line [BufRead::lines] gives back as it was written. *)
Definition OneLine (l : string) : Prop :=
  contains_char newline l = false ∧ last (chars l) ≠ Some "013"%char.

Lemma string_app_empty (s : string) : s +:+ "" = s.
Proof. induction s as [|c s IH]; [done|]. by rewrite append_cons, IH. Qed.

Lemma concat_cons (s : string) ss : String.concat "" (s :: ss) = s +:+ String.concat "" ss.
Proof. destruct ss as [|t ss]; [by simpl; rewrite string_app_empty|done]. Qed.

Lemma file_of_cons l ls : file_of (l :: ls) = (l +:+ line_end) +:+ file_of ls.
Proof. apply concat_cons. Qed.

Lemma file_of_app ls ls' : file_of (ls ++ ls') = file_of ls +:+ file_of ls'.
Proof.
  induction ls as [|l ls IH]; [done|]. cbn [app]. by rewrite !file_of_cons, IH, <-append_assoc.
Qed.

Lemma file_of_snoc ls l : file_of (ls ++ [l]) = file_of ls +:+ (l +:+ line_end).
Proof. by rewrite file_of_app. Qed.

Lemma split_after_line pre text :
  split_char newline ((pre +:+ line_end) +:+ text) = split_char newline pre ++ split_char newline text.
Proof.
  unfold split_char, split_on. rewrite append_assoc, chars_app. unfold line_end.
  rewrite append_cons, append_nil. simpl chars.
  rewrite pieces_app by by apply bool_decide_eq_true. by rewrite fmap_app.
Qed.

Lemma split_line l : contains_char newline l = false → split_char newline l = [l].
Proof.
  intros Hl. unfold split_char, split_on, contains_char in *.
  rewrite string_exists_chars, existsb_false in Hl. rewrite pieces_none by exact Hl. simpl. by rewrite of_chars_chars.
Qed.

Lemma split_file_of ls :
  Forall (λ l, contains_char newline l = false) ls → split_char newline (file_of ls) = ls ++ [""].
Proof.
  induction 1 as [|l ls Hl _ IH]; [done|]. by rewrite file_of_cons, split_after_line, split_line, IH.
Qed.

Lemma strip_carriage_return_id l : last (chars l) ≠ Some "013"%char → strip_carriage_return l = l.
Proof. intros Hl. unfold strip_carriage_return. by rewrite bool_decide_false. Qed.

Lemma lines_file_of ls : Forall OneLine ls → lines (file_of ls) = ls.
Proof.
  intros Hls. unfold lines. rewrite split_file_of by (eapply Forall_impl; [exact Hls|by intros ? []]).
  rewrite last_snoc, bool_decide_true, removelast_last by done.
  rewrite <-(list_fmap_id ls) at 2. apply list_fmap_ext. intros i l Hi.
  rewrite Forall_forall in Hls. apply strip_carriage_return_id, Hls. by eapply list_elem_of_lookup_2.
Qed.

(** A text that is empty or ends with a line end, so that a line appended to it
    stands on its own. *)
Definition Complete (text : string) : Prop := text = "" ∨ ∃ pre, text = pre +:+ line_end.

Lemma lines_append text l :
  Complete text → OneLine l → lines (text +:+ (l +:+ line_end)) = lines text ++ [l].
Proof.
  intros Htext [Hn Hc]. assert (Hl : split_char newline (l +:+ line_end) = [l; ""]).
  { rewrite <-(string_app_empty (l +:+ line_end)), split_after_line, split_line by done. done. }
  destruct Htext as [->|[pre ->]]; unfold lines.
  - rewrite append_nil, Hl. simpl. by rewrite strip_carriage_return_id.
  - assert (split_char newline (pre +:+ line_end) = split_char newline pre ++ [""]) as Hpre.
    { by rewrite <-(string_app_empty (pre +:+ line_end)), split_after_line. }
    rewrite split_after_line, Hl, Hpre. rewrite (app_assoc _ [l] [""] : _ ++ [l; ""] = _).
    rewrite !last_snoc, !bool_decide_true, !removelast_last, fmap_app by done. simpl.
    by rewrite strip_carriage_return_id.
Qed.

Lemma file_of_complete ls : Complete (file_of ls).
Proof.
  destruct ls as [|l ls] using rev_ind; [by left|]. right. exists (file_of ls +:+ l).
  by rewrite file_of_snoc, <-append_assoc.
Qed.

(** * Well-formed logs *)

Section spec.
Context {V SecretKey PublicKey Signature : Type}.
Context `{!Crypto SecretKey PublicKey Signature, !AuditSerde V}.
Abbreviation Entry := (AuditLogEntry V).
Implicit Types (es before : list Entry) (e : Entry).

Definition entry_record e : option (AuditRecord V) :=
  match e with EntryRecord r => Some r | EntryCheckpoint _ => None end.
Definition entry_checkpoint e : option AuditCheckpoint :=
  match e with EntryRecord _ => None | EntryCheckpoint c => Some c end.
Definition entry_session e : string :=
  match e with
  | EntryRecord r => rb_session_id (record_body r)
  | EntryCheckpoint c => cb_session_id (cp_body c)
  end.

Definition records es : list (AuditRecord V) := omap entry_record es.
Definition checkpoints es : list AuditCheckpoint := omap entry_checkpoint es.

(** What a chain of records and one of checkpoints hand on. *)
Definition head_hash (rs : list (AuditRecord V)) : string := default genesis (record_hash <$> last rs).
Definition checkpoint_head (cs : list AuditCheckpoint) : string :=
  default genesis (cp_checkpoint_hash <$> last cs).

(** The entries of one log are of one session. *)
Definition SameSession before e : Prop :=
  ∀ first, head before = Some first → entry_session e = entry_session first.

Lemma require_Done b message : require b message = Done () ↔ b = true.
Proof. by destruct b. Qed.

Lemma require_bind {A} b message (k : () → Outcome string A) r :
  outcome_bind (require b message) k = Done r ↔ b = true ∧ k () = Done r.
Proof. destruct b; simpl; naive_solver. Qed.

(** A format the verifier was written for. *)
Definition KnownFormat (version : N) : Prop := (1 ≤ version ≤ 5)%N.

(** SHA-256 of a text that says what it is of, in hex. *)
Definition digest (domain : string) (parts : list bytes) : string :=
  hex_encode (sha256 (chars domain ++ [nul] ++ concat parts)).

Record ValidRecord before (r : AuditRecord V) : Prop := {
  vrec_format : KnownFormat (rb_format_version (record_body r));
  vrec_sequence : rb_sequence (record_body r) = N.of_nat (S (length (records before)));
  vrec_previous : rb_previous_hash (record_body r) = head_hash (records before);
  vrec_hash : ∃ encoded, record_body_to_vec (record_body r) = Some encoded ∧
    record_hash r = digest "xshell-audit-record-v1" [encoded];
}.

(** The checkpoint commits to its body, hashes itself, and has a signature by
    the key of the body and the commitment. *)
Definition Signed (key : PublicKey) (c : AuditCheckpoint) : Prop := ∃ encoded blinding signature,
  let commitment := wc_commitment (cp_witness c) in
  checkpoint_body_to_vec (cp_body c) = Some encoded ∧
  hex_decode (cp_blinding_nonce c) = Some blinding ∧
  wc_scheme (cp_witness c) = "sha256-blinded-v1" ∧
  commitment = digest "xshell-audit-witness-v1" [encoded; blinding] ∧
  cp_checkpoint_hash c = digest "xshell-audit-checkpoint-hash-v1"
    [encoded; chars (cp_blinding_nonce c); chars (wc_scheme (cp_witness c)); chars commitment; chars (cp_signature c)] ∧
  hex_decode (cp_signature c) ≫= signature_from_slice = Some signature ∧
  verify key (chars "xshell-audit-checkpoint-v1" ++ [nul] ++ encoded ++ chars commitment) signature = true.

Record ValidCheckpoint (kid : string) (key : PublicKey) before (c : AuditCheckpoint) : Prop := {
  vcp_format : KnownFormat (cb_format_version (cp_body c));
  vcp_sequence : cb_checkpoint_sequence (cp_body c) = N.of_nat (S (length (checkpoints before)));
  vcp_previous : cb_previous_checkpoint_hash (cp_body c) = checkpoint_head (checkpoints before);
  vcp_records : cb_sequence (cp_body c) = N.of_nat (length (records before));
  vcp_head : cb_chain_head (cp_body c) = head_hash (records before);
  vcp_key : cb_signing_key_id (cp_body c) = kid;
  vcp_signed : Signed key c;
}.

Lemma known_format version : supported_format version = true ↔ KnownFormat version.
Proof. unfold supported_format, KnownFormat. by rewrite andb_true_iff, !N.leb_le. Qed.

Lemma hash_record_body_spec body hash :
  hash_record_body body = Done hash ↔
  ∃ encoded, record_body_to_vec body = Some encoded ∧ hash = digest "xshell-audit-record-v1" [encoded].
Proof.
  unfold hash_record_body, digest. destruct (record_body_to_vec body) as [encoded|]; cbn [context outcome_bind].
  - split; [intros [= <-]; exists encoded|intros (? & [= <-] & ->)]; cbn [concat]; by rewrite app_nil_r.
  - split; [done|by intros (? & ? & _)].
Qed.

Lemma verify_checkpoint_spec c key : verify_checkpoint c key = Done () ↔ Signed key c.
Proof.
  unfold verify_checkpoint, Signed, witness_commitment, hash_checkpoint, checkpoint_message, digest.
  destruct (checkpoint_body_to_vec (cp_body c)) as [encoded|]; cbn [context outcome_bind concat]; last first.
  { split; [|by intros (? & ? & ? & ? & _)]. destruct (hex_decode (cp_blinding_nonce c)); done. }
  destruct (hex_decode (cp_blinding_nonce c)) as [blinding|]; cbn [context outcome_bind]; last first.
  { split; [done|by intros (? & ? & ? & _ & ? & _)]. }
  rewrite require_bind, andb_true_iff, !bool_decide_eq_true, require_bind, bool_decide_eq_true. split.
  - intros ([Hscheme Hcommit] & Hhash & Hrest).
    apply bind_Done in Hrest as (signed & Hsigned & Hrest). apply bind_Done in Hrest as (signature & Hsig & Hrest).
    apply require_Done in Hrest. exists encoded, blinding, signature. cbn [concat]. rewrite !app_nil_r.
    split_and!; [done|done|done|done|done| |exact Hrest].
    destruct (hex_decode (cp_signature c)) as [b|]; [|done]. injection Hsigned as <-. simpl.
    by destruct (signature_from_slice b); simplify_eq/=.
  - intros (? & ? & signature & [= <-] & [= <-] & Hscheme & Hcommit & Hhash & Hsig & Hv). cbn [concat] in Hcommit, Hhash.
    rewrite !app_nil_r in *.
    split; [done|]. split; [done|]. destruct (hex_decode (cp_signature c)) as [b|]; [|done]. simpl in Hsig.
    cbn [context outcome_bind]. rewrite Hsig. cbn [context outcome_bind]. apply require_Done. exact Hv.
Qed.

Definition ValidEntry (kid : string) (key : PublicKey) before e : Prop :=
  SameSession before e ∧
  match e with
  | EntryRecord r => ValidRecord before r
  | EntryCheckpoint c => ValidCheckpoint kid key before c
  end.

(** Every entry is valid after those before it. *)
Definition WellFormedLog (kid : string) (key : PublicKey) es : Prop :=
  ∀ before e after, es = before ++ e :: after → ValidEntry kid key before e.

Lemma WellFormedLog_nil kid key : WellFormedLog kid key [].
Proof. by intros [] ???. Qed.

Lemma WellFormedLog_snoc kid key es e :
  WellFormedLog kid key (es ++ [e]) ↔ WellFormedLog kid key es ∧ ValidEntry kid key es e.
Proof.
  split.
  - intros Hwf. split; [|by apply (Hwf es e [])]. intros before e' after ->.
    apply (Hwf before e' (after ++ [e])). by rewrite <-app_assoc.
  - intros [Hwf He] before e' after Heq. destruct after as [|x after _] using rev_ind.
    + apply app_inj_tail in Heq as [-> ->]. done.
    + rewrite app_comm_cons, app_assoc in Heq. apply app_inj_tail in Heq as [-> ->]. by eapply Hwf.
Qed.

Lemma records_snoc es e : records (es ++ [e]) = records es ++ option_list (entry_record e).
Proof. unfold records. rewrite omap_app. by destruct e. Qed.
Lemma checkpoints_snoc es e : checkpoints (es ++ [e]) = checkpoints es ++ option_list (entry_checkpoint e).
Proof. unfold checkpoints. rewrite omap_app. by destruct e. Qed.

Lemma entries_count es : length (records es) + length (checkpoints es) = length es.
Proof.
  induction es as [|e es IH] using rev_ind; [done|].
  rewrite records_snoc, checkpoints_snoc, !length_app. destruct e; simpl; lia.
Qed.

(** Whether the last checkpoint closed the log. *)
Definition closed es : bool :=
  match last (checkpoints es) with Some c => cb_final_checkpoint (cp_body c) | None => false end.

(** What [verify_log]'s loop knows after the entries [es]. *)
Definition state_of es : Verified := {|
  v_session_id := entry_session <$> head es;
  v_expected_sequence := (N.of_nat (length (records es)) + 1)%N;
  v_chain_head := head_hash (records es);
  v_checkpoints := N.of_nat (length (checkpoints es));
  v_checkpoint_head := checkpoint_head (checkpoints es);
  v_final_checkpoint := closed es;
|}.

Definition report_of (first : Entry) es : VerificationReport := {|
  vr_session_id := entry_session first;
  vr_records := N.of_nat (length (records es));
  vr_checkpoints := N.of_nat (length (checkpoints es));
  vr_final_checkpoint := closed es;
  vr_chain_head := head_hash (records es);
|}.

(** * The verifier's loop *)

Lemma checked_add_u64_Done {E} a b n :
  checked_add_u64 (E := E) a b = Done n ↔ n = (a + b)%N ∧ (a + b ≤ U64_MAX)%N.
Proof. unfold checked_add_u64. destruct (N.leb_spec (a + b) U64_MAX); naive_solver lia. Qed.

Lemma same_session_bool es e :
  match entry_session <$> head es with Some id => bool_decide (id = entry_session e) | None => true end = true ↔
  SameSession es e.
Proof.
  unfold SameSession. destruct (head es) as [first|]; simpl.
  - rewrite bool_decide_eq_true. split; [by intros Heq ? [= <-]|]. intros Hf. symmetry. by apply Hf.
  - split; [done|done].
Qed.

Lemma same_session_default es e : SameSession es e →
  Some (default (entry_session e) (entry_session <$> head es)) = entry_session <$> head (es ++ [e]).
Proof. destruct es as [|first es]; [done|]. done. Qed.

Lemma verify_record_spec n r es v :
  (N.of_nat (length es) + 1 < U64_MAX)%N →
  verify_record n r (state_of es) = Done v ↔
  v = state_of (es ++ [EntryRecord r]) ∧ SameSession es (EntryRecord r) ∧ ValidRecord es r.
Proof.
  intros Hroom. pose proof (entries_count es) as Hcount. unfold verify_record.
  rewrite !require_bind, !bool_decide_eq_true. simpl v_session_id.
  rewrite (same_session_bool es (EntryRecord r)).
  assert (Hnext : ∀ h, SameSession es (EntryRecord r) → h = record_hash r →
    {| v_session_id := Some (default (rb_session_id (record_body r)) (entry_session <$> head es));
       v_expected_sequence := (N.of_nat (length (records es)) + 1 + 1)%N; v_chain_head := h;
       v_checkpoints := N.of_nat (length (checkpoints es)); v_checkpoint_head := checkpoint_head (checkpoints es);
       v_final_checkpoint := closed es |} = state_of (es ++ [EntryRecord r])).
  { intros h Hs ->. unfold state_of, closed. rewrite records_snoc, checkpoints_snoc, length_app. simpl.
    rewrite app_nil_r. f_equal; [by apply (same_session_default es (EntryRecord r))|lia|].
    unfold head_hash. by rewrite last_snoc. }
  split.
  - intros (Hf & Hs & Hseq & Hprev & Hh). apply bind_Done in Hh as (h & Hh & Hrest).
    apply require_bind in Hrest as [Heq%bool_decide_eq_true Hrest].
    apply bind_Done in Hrest as (next & [-> _]%checked_add_u64_Done & [= <-]). simpl in *.
    split_and!; [by apply Hnext|done|].
    split; [by apply known_format|lia|done|]. apply hash_record_body_spec. by rewrite Heq.
  - intros (-> & Hs & [Hf%known_format Hseq Hprev Hh%hash_record_body_spec]). simpl. split_and!; [done|done|lia|done|].
    rewrite Hh. cbn [outcome_bind]. rewrite bool_decide_true by done. cbn [require outcome_bind].
    unfold checked_add_u64. rewrite (proj2 (N.leb_le _ _)) by lia. cbn [outcome_bind]. f_equal. by apply Hnext.
Qed.

Lemma verify_checkpoint_entry_spec kid key n c es v :
  (N.of_nat (length es) + 1 < U64_MAX)%N →
  verify_checkpoint_entry kid key n c (state_of es) = Done v ↔
  v = state_of (es ++ [EntryCheckpoint c]) ∧ SameSession es (EntryCheckpoint c) ∧ ValidCheckpoint kid key es c.
Proof.
  intros Hroom. pose proof (entries_count es) as Hcount. unfold verify_checkpoint_entry, checkpoint_matches.
  rewrite !require_bind, !andb_true_iff, !bool_decide_eq_true. simpl.
  assert (Hs : cb_session_id (cp_body c) = default (cb_session_id (cp_body c)) (entry_session <$> head es) ↔
    SameSession es (EntryCheckpoint c)).
  { unfold SameSession. destruct (head es) as [first|]; simpl; [|by split].
    split; [by intros Heq ? [= <-]|]. intros Hf. by apply Hf. }
  rewrite Hs.
  assert (Hnext : SameSession es (EntryCheckpoint c) →
    {| v_session_id := Some (default (cb_session_id (cp_body c)) (entry_session <$> head es));
       v_expected_sequence := (N.of_nat (length (records es)) + 1)%N; v_chain_head := head_hash (records es);
       v_checkpoints := (N.of_nat (length (checkpoints es)) + 1)%N; v_checkpoint_head := cp_checkpoint_hash c;
       v_final_checkpoint := cb_final_checkpoint (cp_body c) |} = state_of (es ++ [EntryCheckpoint c])).
  { intros Hsame. unfold state_of, closed. rewrite records_snoc, checkpoints_snoc, !length_app. simpl.
    rewrite app_nil_r, last_snoc, Nat.add_0_r.
    f_equal; [by apply (same_session_default es (EntryCheckpoint c))|lia|]. unfold checkpoint_head. by rewrite last_snoc. }
  split.
  - intros (Hf & (((((Hsame & Hseq) & Hprev) & Hrec) & Hhead) & Hkey) & Hv).
    apply bind_Done in Hv as ([] & Hv & Hrest). apply bind_Done in Hrest as (next & [-> _]%checked_add_u64_Done & [= <-]).
    split_and!; [by apply Hnext|done|]. apply known_format in Hf.
    split; try done; try lia. apply verify_checkpoint_spec. by destruct (verify_checkpoint c key) as [[]| |].
  - intros (-> & Hsame & [Hf%known_format Hseq Hprev Hrec Hhead Hkey Hv%verify_checkpoint_spec]). split_and!; try done; try lia.
    rewrite Hv. cbn [outcome_bind]. unfold checked_add_u64. rewrite (proj2 (N.leb_le _ _)) by lia.
    cbn [outcome_bind]. f_equal. by apply Hnext.
Qed.

Lemma verify_entry_spec kid key n e es v :
  (N.of_nat (length es) + 1 < U64_MAX)%N →
  verify_entry kid key n e (state_of es) = Done v ↔ v = state_of (es ++ [e]) ∧ ValidEntry kid key es e.
Proof. intros Hroom. destruct e; simpl; [by apply verify_record_spec|by apply verify_checkpoint_entry_spec]. Qed.

Definition parses (l : string) e : Prop := entry_from_str l = Some e.

Lemma verify_lines_spec kid key n ls es v :
  (N.of_nat (length es + length ls) < U64_MAX)%N → WellFormedLog kid key es →
  verify_lines kid key n ls (state_of es) = Done v ↔
  ∃ new, Forall2 parses ls new ∧ WellFormedLog kid key (es ++ new) ∧ v = state_of (es ++ new).
Proof.
  revert n es v. induction ls as [|l ls IH]; intros n es v Hroom Hwf; simpl.
  { split.
    - intros [= <-]. exists []. by rewrite app_nil_r.
    - intros (new & Hnew%Forall2_nil_inv_l & _ & ->). subst. by rewrite app_nil_r. }
  simpl in Hroom. split.
  - intros (e & He & Hv)%bind_Done. apply bind_Done in Hv as (v' & Hv' & Hv).
    apply verify_entry_spec in Hv' as [-> Hvalid]; [|lia].
    apply IH in Hv as (new & Hnew & Hwf' & ->); [|rewrite length_app; simpl; lia|by apply WellFormedLog_snoc].
    exists (e :: new). rewrite <-app_assoc in *. split_and!; [constructor; [|done]|done|done].
    unfold parses. by destruct (entry_from_str l); simpl in He; simplify_eq.
  - intros (new & Hnew & Hwf' & ->). apply Forall2_cons_inv_l in Hnew as (e & new' & He & Hnew & ->).
    rewrite (app_assoc es [e] new' : es ++ e :: new' = _) in *.
    assert (Hvalid : ValidEntry kid key es e) by (apply (Hwf' es e new'); by rewrite <-app_assoc).
    unfold parses in He. rewrite He. cbn [context outcome_bind].
    rewrite (proj2 (verify_entry_spec kid key n e es _ ltac:(lia)) (conj eq_refl Hvalid)).
    cbn [outcome_bind]. apply IH; [rewrite length_app; simpl; lia|by apply WellFormedLog_snoc|]. by exists new'.
Qed.

(** * The verifier *)

(** The text is short enough for its entries to be counted in 64 bits. *)
Definition Countable (text : string) : Prop := (N.of_nat (length (lines text)) < U64_MAX)%N.

(** The text of a public key file is that of a key. *)
Definition IsKey (public_hex : string) (public_bytes : bytes) (key : PublicKey) : Prop :=
  hex_decode (trim public_hex) = Some public_bytes ∧ length public_bytes = 32 ∧
  key_from_bytes public_bytes = Some key.

Lemma verify_log_spec text public_hex report :
  Countable text →
  verify_log text public_hex = Done report ↔
  ∃ public_bytes key first es, IsKey public_hex public_bytes key ∧
    Forall2 parses (lines text) (first :: es) ∧ WellFormedLog (key_id public_bytes) key (first :: es) ∧
    report = report_of first (first :: es).
Proof.
  intros Hcount. unfold verify_log. split.
  - intros (pub & Hpub & Hr)%bind_Done. apply require_bind in Hr as [Hlen%bool_decide_eq_true Hr].
    apply bind_Done in Hr as (key & Hkey & Hr). apply bind_Done in Hr as (v & Hv & Hr).
    apply (verify_lines_spec _ _ 1 (lines text) []) in Hv as (es & Hes & Hwf & ->); [|exact Hcount|apply WellFormedLog_nil].
    destruct es as [|first es]; [done|]. injection Hr as <-. exists pub, key, first, es.
    unfold IsKey. destruct (hex_decode _), (key_from_bytes _); simplify_eq/=. split_and!; try done.
    unfold report_of. simpl. f_equal. lia.
  - intros (pub & key & first & es & (Hpub & Hlen & Hkey) & Hes & Hwf & ->). rewrite Hpub. cbn [context outcome_bind].
    rewrite bool_decide_true by done. cbn [require outcome_bind]. rewrite Hkey. cbn [context outcome_bind].
    change verify_start with (state_of []).
    rewrite (proj2 (verify_lines_spec _ _ 1 (lines text) [] _ Hcount (WellFormedLog_nil _ _))
      (ex_intro _ (first :: es) (conj Hes (conj Hwf eq_refl)))).
    cbn [outcome_bind]. unfold report_of. simpl. do 2 f_equal. lia.
Qed.

(** The entries of a text. *)
Definition entries (text : string) : list Entry := omap entry_from_str (lines text).

Lemma parses_entries ls es : Forall2 parses ls es → omap entry_from_str ls = es.
Proof.
  induction 1 as [|l e ls es He _ IH]; [done|]. unfold parses in He. by rewrite omap_cons_list, He, IH.
Qed.

(** C13: [verify_log] accepts a log exactly when it is well formed: every line is an entry of the one
    session and a supported format; record [i] has sequence [i], the hash of the record before it and
    its own hash; checkpoint [j] has sequence [j], the hash of the checkpoint before it, the number
    and the hash of the records before it, its own commitment and hash, and the key's signature of its
    body and commitment. The report says how many there
    are, the last record's hash, and whether the last checkpoint is final. *)
Theorem verify_accepts_well_formed text public_hex report :
  Countable text →
  verify_log text public_hex = Done report ↔
  ∃ public_bytes key first, IsKey public_hex public_bytes key ∧
    Forall (λ l, is_Some (entry_from_str l)) (lines text) ∧ head (entries text) = Some first ∧
    WellFormedLog (hex_encode (take 16 (sha256 public_bytes))) key (entries text) ∧ report = report_of first (entries text).
Proof.
  intros Hcount. rewrite verify_log_spec by done. split.
  - intros (pub & key & first & es & Hkey & Hes & Hwf & ->). exists pub, key, first.
    unfold entries. rewrite (parses_entries _ _ Hes). split_and!; try done.
    rewrite Forall_forall. intros l (i & Hl)%list_elem_of_lookup_1.
    destruct (Forall2_lookup_l _ _ _ _ _ Hes Hl) as (e & _ & He). by eexists.
  - intros (pub & key & first & Hkey & Hall & Hfirst & Hwf & ->). exists pub, key.
    assert (Forall2 parses (lines text) (entries text)) as Hes.
    { unfold entries. clear -Hall. induction Hall as [|l ls [e He] _ IH]; [constructor|].
      rewrite omap_cons_list, He. by constructor. }
    destruct (entries text) as [|f es]; [done|]. injection Hfirst as ->. by exists first, es.
Qed.

(** * A chain head fixes the records before it *)

(** No record of one log has the hash of a different record of the other. *)
Definition NoCollision (rs rs' : list (AuditRecord V)) : Prop :=
  ∀ r r', r ∈ rs → r' ∈ rs' → record_hash r = record_hash r' → record_body r = record_body r'.

Lemma well_formed_record kid key es i r :
  WellFormedLog kid key es → records es !! i = Some r →
  hash_record_body (record_body r) = Done (record_hash r) ∧
  rb_previous_hash (record_body r) = head_hash (take i (records es)).
Proof.
  revert i. induction es as [|e es IH] using rev_ind; intros i Hwf Hi; [done|].
  apply WellFormedLog_snoc in Hwf as [Hwf [_ He]]. rewrite records_snoc in *.
  destruct (decide (i < length (records es))) as [Hlt|Hge].
  - rewrite lookup_app_l in Hi by done. rewrite take_app_le by lia. by apply IH.
  - rewrite lookup_app_r in Hi by lia. destruct e as [r'|c]; simpl in Hi; [|done].
    destruct (i - length (records es)) eqn:Hn; [|done]. injection Hi as <-.
    rewrite take_app_ge, Hn, app_nil_r by lia. by destruct He as [_ _ ? ?%hash_record_body_spec].
Qed.

Lemma chain_determines kid key kid' key' es es' n :
  WellFormedLog kid key es → WellFormedLog kid' key' es' → NoCollision (records es) (records es') →
  n ≤ length (records es) → n ≤ length (records es') →
  head_hash (take n (records es)) = head_hash (take n (records es')) →
  take n (records es) = take n (records es').
Proof.
  intros Hwf Hwf' Hcol Hn Hn' Hhead. induction n as [|n IH]; [done|].
  destruct (lookup_lt_is_Some_2 (records es) n ltac:(lia)) as [r Hr].
  destruct (lookup_lt_is_Some_2 (records es') n ltac:(lia)) as [r' Hr'].
  rewrite (take_S_r _ _ _ Hr), (take_S_r _ _ _ Hr') in *.
  unfold head_hash in Hhead at 1 2. rewrite !last_snoc in Hhead. simpl in Hhead.
  destruct (well_formed_record _ _ _ _ _ Hwf Hr) as [_ Hp].
  destruct (well_formed_record _ _ _ _ _ Hwf' Hr') as [_ Hp'].
  assert (record_body r = record_body r') as Hbody.
  { apply Hcol; [by eapply list_elem_of_lookup_2..|done]. }
  rewrite Hbody, Hp' in Hp. rewrite IH by (done || lia). do 2 f_equal.
  destruct r, r'; simpl in *; by subst.
Qed.

(** The hash chain fixes its records: two accepted logs whose reports give the same number of
    records and the same chain head hold the same records, in whatever files and under whatever
    keys, unless two of their records are different and have the same SHA-256 hash. *)
Lemma chain_head_binds_records text text' public_hex public_hex' report report' :
  Countable text → Countable text' →
  verify_log text public_hex = Done report → verify_log text' public_hex' = Done report' →
  vr_records report = vr_records report' → vr_chain_head report = vr_chain_head report' →
  NoCollision (records (entries text)) (records (entries text')) →
  records (entries text) = records (entries text').
Proof.
  intros Hc Hc' Hv Hv' Hn Hh Hcol.
  apply verify_log_spec in Hv as (pub & key & first & es & _ & Hes & Hwf & ->); [|done].
  apply verify_log_spec in Hv' as (pub' & key' & first' & es' & _ & Hes' & Hwf' & ->); [|done].
  unfold entries in *. rewrite (parses_entries _ _ Hes), (parses_entries _ _ Hes') in *.
  cbn [vr_records vr_chain_head report_of] in Hn, Hh. apply Nat2N.inj in Hn.
  pose proof (chain_determines _ _ _ _ _ _ (length (records (first :: es))) Hwf Hwf' Hcol
    ltac:(lia) ltac:(lia)) as Hd.
  rewrite firstn_all, Hn, firstn_all in Hd. by apply Hd.
Qed.

(** * What the verifier does not see *)

(** Records after the final checkpoint are not seen to be forged. Whoever can append to the file
    of a closed log needs no signing key: a record made up with the right number and the hash of the
    last record is accepted, with any event, user and time, and the report still says that the log
    ends with a final checkpoint. *)
Lemma forged_tail_accepted text public_hex report format timestamp uid event line hash :
  Countable (text +:+ (line +:+ line_end)) → Complete text → OneLine line →
  verify_log text public_hex = Done report → supported_format format = true →
  let body := {|
    rb_format_version := format; rb_session_id := vr_session_id report;
    rb_sequence := (vr_records report + 1)%N; rb_daemon_timestamp_unix_ms := timestamp;
    rb_client_uid := uid; rb_previous_hash := vr_chain_head report; rb_event := event |} in
  hash_record_body body = Done hash →
  entry_from_str line = Some (EntryRecord {| record_body := body; record_hash := hash |}) →
  verify_log (text +:+ (line +:+ line_end)) public_hex = Done {|
    vr_session_id := vr_session_id report; vr_records := (vr_records report + 1)%N;
    vr_checkpoints := vr_checkpoints report; vr_final_checkpoint := vr_final_checkpoint report;
    vr_chain_head := hash |}.
Proof.
  intros Hcount Htext Hline Hv Hformat body Hhash Hparse.
  unfold Countable in Hcount. rewrite lines_append, length_app in Hcount by done. simpl in Hcount.
  apply verify_log_spec in Hv as (pub & key & first & es & Hkey & Hes & Hwf & ->); [|unfold Countable; lia].
  apply verify_log_spec; [unfold Countable; rewrite lines_append, length_app by done; simpl; lia|].
  set (r := {| record_body := body; record_hash := hash |}).
  exists pub, key, first, (es ++ [EntryRecord r]). split_and!; [done| | |].
  - rewrite lines_append by done. change (first :: es ++ [EntryRecord r]) with ((first :: es) ++ [EntryRecord r]).
    apply Forall2_app; [done|]. by repeat constructor.
  - change (first :: es ++ [EntryRecord r]) with ((first :: es) ++ [EntryRecord r]).
    apply WellFormedLog_snoc. split; [done|]. split; [by intros ? [= <-]|].
    split; [by apply known_format|simpl; lia|done|by apply hash_record_body_spec].
  - change (first :: es ++ [EntryRecord r]) with ((first :: es) ++ [EntryRecord r]).
    unfold report_of, closed. rewrite records_snoc, checkpoints_snoc, length_app. simpl entry_record. simpl entry_checkpoint.
    simpl option_list. rewrite app_nil_r. unfold head_hash. rewrite last_snoc. simpl. f_equal. lia.
Qed.
End spec.

(** * The sample log *)

Lemma verify_accepts_well_formed_witness :
  ∃ public_bytes key first, IsKey sample_public_hex public_bytes key ∧
    Forall (λ l, is_Some (entry_from_str l)) (lines sample_log) ∧ head (entries sample_log) = Some first ∧
    WellFormedLog (hex_encode (take 16 (sha256 public_bytes))) key (entries sample_log) ∧
    {| vr_session_id := "session"; vr_records := 2; vr_checkpoints := 2; vr_final_checkpoint := true;
       vr_chain_head := record_hash sample_second |} = report_of first (entries sample_log).
Proof. apply verify_accepts_well_formed; vm_compute; reflexivity. Defined.

Definition sample_log_open : string := String.concat line_end ["r1"; "r2"; "c1"; ""].

Lemma chain_head_binds_records_witness :
  records (entries sample_log) = records (entries sample_log_open).
Proof.
  apply (chain_head_binds_records _ _ sample_public_hex sample_public_hex
    {| vr_session_id := "session"; vr_records := 2; vr_checkpoints := 2; vr_final_checkpoint := true;
       vr_chain_head := record_hash sample_second |}
    {| vr_session_id := "session"; vr_records := 2; vr_checkpoints := 1; vr_final_checkpoint := false;
       vr_chain_head := record_hash sample_second |}); [vm_compute; reflexivity..|].
  intros r r'.
  assert (records (entries sample_log) = [sample_first; sample_second] ∧
    records (entries sample_log_open) = [sample_first; sample_second]) as [-> ->] by (vm_compute; done).
  intros [->|[->|[]%elem_of_nil]%elem_of_cons]%elem_of_cons [->|[->|[]%elem_of_nil]%elem_of_cons]%elem_of_cons;
    vm_compute; (done || discriminate).
Defined.

Lemma forged_tail_accepted_witness :
  verify_log (sample_log +:+ ("r3" +:+ line_end)) sample_public_hex = Done {|
    vr_session_id := "session"; vr_records := 3; vr_checkpoints := 2; vr_final_checkpoint := true;
    vr_chain_head := record_hash sample_forged |}.
Proof.
  apply (forged_tail_accepted sample_log sample_public_hex
    {| vr_session_id := "session"; vr_records := 2; vr_checkpoints := 2; vr_final_checkpoint := true;
       vr_chain_head := record_hash sample_second |} AUDIT_FORMAT_VERSION 7 501 (sample_event "forged") "r3"
    (record_hash sample_forged)).
  - vm_compute. reflexivity.
  - right. by exists (String.concat line_end ["r1"; "r2"; "c1"; "c2"]).
  - vm_compute. split; [reflexivity|discriminate].
  - vm_compute. reflexivity.
  - reflexivity.
  - vm_compute. reflexivity.
  - vm_compute. reflexivity.
Defined.
