(* ===== verification/AuditWriter.v ===== *)
(** The writer of the audit log and the daemon's session, against the verifier
    ([AuditLog], [AuditSpec]): what was written is accepted, and what was
    acknowledged was written. *)
From Stdlib Require Import Ascii.
From S2P Require Import Prelude Effects Budget Compaction CompactionSpec AuditModel AuditLog AuditSpec.

(** What the writer relies on of Ed25519, hex, serde_json and the file system:
    inverses of encodings, signatures that verify, JSON on one line that reads
    back texts and whole numbers, and writes that only append. Of the values an
    event holds nothing is assumed: see [ReadsBack]. *)
Class AuditLaws (V W SecretKey PublicKey Signature : Type)
    `{!Crypto SecretKey PublicKey Signature, !AuditSerde V, !AuditIo W} : Prop := {
  hex_roundtrip b : hex_decode (hex_encode b) = Some b;
  key_length k : length (key_to_bytes k) = 32;
  key_roundtrip k : key_from_bytes (key_to_bytes k) = Some k;
  signature_roundtrip s : signature_from_slice (signature_to_bytes s) = Some s;
  sign_verifies (sk : SecretKey) m : verify (verifying_key sk) m (sign sk m) = true;
  checkpoint_roundtrip c line : entry_to_string (EntryCheckpoint c) = Some line → entry_from_str line = Some (EntryCheckpoint c);
  entry_one_line e line : entry_to_string e = Some line → OneLine line;
  write_appends s text more text' ok s' :
    write_synced s text more = ((text', ok), s') →
    ∃ written, text' = text +:+ written ∧ (ok = true → written = more);
}.

Section writer.
Context {V W SecretKey PublicKey Signature : Type}.
Context `{!Crypto SecretKey PublicKey Signature, !AuditSerde V, !AuditIo W}.
Context `{!AuditLaws V W SecretKey PublicKey Signature}.
Abbreviation Entry := (AuditLogEntry V).
Abbreviation Writer := (AuditLogWriter (SecretKey := SecretKey)).
Abbreviation M := (Step (Writer * W) string).
Implicit Types (w : Writer) (s : W) (st : Writer * W).

(** * The monad *)

Lemma the_writer_Done st st' w : the_writer st = (st', Done w) ↔ st' = st ∧ w = st.1.
Proof. unfold the_writer. rewrite step_bind_Done. unfold get, mret, Step_ret. naive_solver. Qed.

Lemma modify_Done f st st' u : updating f st = (st', Done u) ↔ st' = (f st.1, st.2).
Proof. destruct st, u. unfold updating, modify. naive_solver. Qed.

Lemma ret_Done {A} (a b : A) st st' : mret (M := M) a st = (st', Done b) ↔ st' = st ∧ b = a.
Proof. unfold mret, Step_ret. naive_solver. Qed.

Lemma context_Done {A} (o : option A) message a : context o message = Done a ↔ o = Some a.
Proof. destruct o; simpl; naive_solver. Qed.

(** Running a step can only append to the log, and leaves alone what a session
    fixes. *)
Record Grows w w' : Prop := {
  grows_log : ∃ tail, w_log w' = w_log w +:+ tail;
  grows_format : w_format_version w' = w_format_version w;
  grows_session : w_session_id w' = w_session_id w;
  grows_interval : w_checkpoint_interval w' = w_checkpoint_interval w;
  grows_key : w_signing_key w' = w_signing_key w;
}.

#[local] Instance Grows_refl : Reflexive Grows.
Proof. intros w. split; [|done..]. exists "". by rewrite string_app_empty. Qed.

#[local] Instance Grows_trans : Transitive Grows.
Proof.
  intros w1 w2 w3 [[t Ht] ? ? ? ?] [[t' Ht'] ? ? ? ?]. split; [|congruence..].
  exists (t +:+ t'). by rewrite Ht', Ht, <-append_assoc.
Qed.

Definition AppendOnly {A} (m : M A) : Prop := ∀ st, Grows st.1 (m st).1.1.

Lemma append_only_bind {A B} (m : M A) (f : A → M B) :
  AppendOnly m → (∀ a, AppendOnly (f a)) → AppendOnly (m ≫= f).
Proof.
  intros Hm Hf st. unfold mbind, Step_bind. specialize (Hm st). destruct (m st) as [st1 [a|e|]]; [|done|done].
  etrans; [exact Hm|apply Hf].
Qed.

Lemma append_only_lift {A} (r : Outcome string A) : AppendOnly (lift r).
Proof. intros st. reflexivity. Qed.

Lemma append_only_ret {A} (a : A) : AppendOnly (mret a).
Proof. intros st. reflexivity. Qed.

Lemma append_only_writer : AppendOnly the_writer.
Proof. intros st. reflexivity. Qed.

Lemma append_only_timestamp : AppendOnly timestamp.
Proof. intros [w s]. unfold timestamp. by destruct (unix_timestamp_ms s). Qed.

Lemma append_only_nonce : AppendOnly nonce.
Proof. intros [w s]. unfold nonce. by destruct (fill_nonce s). Qed.

Lemma append_only_modify f : (∀ w, Grows w (f w)) → AppendOnly (updating f).
Proof. intros Hf [w s]. apply Hf. Qed.

Lemma grows_same_log w w' :
  w_log w' = w_log w → w_format_version w' = w_format_version w → w_session_id w' = w_session_id w →
  w_checkpoint_interval w' = w_checkpoint_interval w → w_signing_key w' = w_signing_key w → Grows w w'.
Proof. intros Hl ????. split; [|done..]. exists "". by rewrite Hl, string_app_empty. Qed.

Lemma append_only_write_log text : AppendOnly (write_log text).
Proof.
  intros [w s]. unfold write_log. destruct (write_synced s (w_log w) text) as [[log ok] s'] eqn:Hw.
  destruct (write_appends _ _ _ _ _ _ Hw) as (written & -> & _). split; simpl; [|done..]. by exists written.
Qed.

Lemma append_only_write_index text : AppendOnly (write_index text).
Proof.
  intros [w s]. unfold write_index. destruct (write_synced s (w_checkpoint_index w) text) as [[index ok] s'].
  split; simpl; [|done..]. exists "". by rewrite string_app_empty.
Qed.

Create HintDb append_only.
#[local] Hint Resolve append_only_lift append_only_ret append_only_writer append_only_timestamp
  append_only_nonce append_only_modify grows_same_log append_only_write_log append_only_write_index : append_only.

Ltac append_only :=
  repeat (apply append_only_bind; [solve [auto with append_only]|intros ?]); auto with append_only.

Lemma append_only_write_entry e : AppendOnly (write_entry e).
Proof. unfold write_entry. append_only. Qed.
Lemma append_only_checkpoint_index c : AppendOnly (append_checkpoint_index c).
Proof. unfold append_checkpoint_index. append_only. Qed.
#[local] Hint Resolve append_only_write_entry append_only_checkpoint_index : append_only.

Lemma append_only_write_checkpoint final : AppendOnly (write_checkpoint final).
Proof. unfold write_checkpoint. append_only. Qed.
#[local] Hint Resolve append_only_write_checkpoint : append_only.

Lemma append_only_append event : AppendOnly (append event).
Proof.
  unfold append. append_only. apply append_only_bind; [|append_only].
  destruct (is_multiple_of _ _); append_only.
Qed.

(** * What a step writes *)

Lemma timestamp_Done st st' now : timestamp st = (st', Done now) → st'.1 = st.1.
Proof. destruct st as [w s]. unfold timestamp. destruct (unix_timestamp_ms s). by intros [= <- _]. Qed.

Lemma nonce_Done st st' b : nonce st = (st', Done b) → st'.1 = st.1.
Proof. destruct st as [w s]. unfold nonce. destruct (fill_nonce s). by intros [= <- _]. Qed.

Lemma write_entry_Done e st st' :
  write_entry e st = (st', Done ()) →
  ∃ line, entry_to_string e = Some line ∧
    st'.1 = set_files (w_log st.1 +:+ (line +:+ line_end)) (w_checkpoint_index st.1) st.1.
Proof.
  unfold write_entry. intros (line & st1 & [-> Hl%context_Done]%lift_Done & Hw)%step_bind_Done.
  exists line. split; [done|]. destruct st as [w s]. unfold write_log in Hw.
  destruct (write_synced s (w_log w) _) as [[log ok] s'] eqn:Hwr.
  destruct (write_appends _ _ _ _ _ _ Hwr) as (written & -> & Hok). destruct ok; [|done].
  injection Hw as <-. by rewrite (Hok eq_refl).
Qed.

Lemma append_checkpoint_index_Done c st st' :
  append_checkpoint_index c st = (st', Done ()) → ∃ index, st'.1 = set_files (w_log st.1) index st.1.
Proof.
  unfold append_checkpoint_index. intros (line & st1 & [-> _]%lift_Done & Hw)%step_bind_Done.
  destruct st as [w s]. unfold write_index in Hw. destruct (write_synced s _ _) as [[index ok] s'].
  destruct ok; [|done]. injection Hw as <-. by exists index.
Qed.

(** A checkpoint the writer made is signed. *)
Lemma sealed_checkpoint_verifies (key : SecretKey) body blinding commitment message hash :
  witness_commitment body blinding = Done commitment → checkpoint_message body commitment = Done message →
  let unhashed hash := {|
    cp_body := body; cp_blinding_nonce := hex_encode blinding;
    cp_witness := {| wc_scheme := WITNESS_SCHEME; wc_commitment := commitment |};
    cp_signature := hex_encode (signature_to_bytes (sign key message)); cp_checkpoint_hash := hash |} in
  hash_checkpoint (unhashed "") = Done hash →
  verify_checkpoint (unhashed hash) (verifying_key key) = Done ().
Proof.
  intros Hw Hm unhashed Hh. unfold verify_checkpoint. simpl. rewrite hex_roundtrip. cbn [context outcome_bind].
  rewrite Hw. cbn [outcome_bind]. rewrite !bool_decide_true by done. cbn [andb require outcome_bind].
  assert (hash_checkpoint (unhashed hash) = Done hash) as -> by exact Hh. cbn [outcome_bind].
  rewrite bool_decide_true by done. cbn [require outcome_bind].
  rewrite hex_roundtrip. cbn [context outcome_bind]. rewrite signature_roundtrip. cbn [context outcome_bind].
  rewrite Hm. cbn [outcome_bind]. by rewrite sign_verifies.
Qed.

Lemma write_checkpoint_Done final st st' c :
  write_checkpoint final st = (st', Done c) →
  ∃ line now index, entry_to_string (EntryCheckpoint (V := V) c) = Some line ∧
    cp_body c = {|
      cb_format_version := w_format_version st.1; cb_session_id := w_session_id st.1;
      cb_checkpoint_sequence := (w_checkpoint_sequence st.1 + 1)%N;
      cb_previous_checkpoint_hash := w_checkpoint_head st.1; cb_sequence := w_sequence st.1;
      cb_daemon_timestamp_unix_ms := now; cb_chain_head := w_chain_head st.1;
      cb_signing_key_id := identity_key_id (w_signing_key st.1); cb_final_checkpoint := final |} ∧
    verify_checkpoint c (verifying_key (w_signing_key st.1)) = Done () ∧
    st'.1 = set_checkpoint_head (cp_checkpoint_hash c)
      (set_files (w_log st.1 +:+ (line +:+ line_end)) index
        (set_checkpoint_sequence (w_checkpoint_sequence st.1 + 1) st.1)).
Proof.
  unfold write_checkpoint.
  intros (w & st0 & [-> ->]%the_writer_Done & H)%step_bind_Done.
  apply step_bind_Done in H as (n & st0 & [-> [-> _]%checked_add_u64_Done]%lift_Done & H).
  apply step_bind_Done in H as (u & st1 & ->%modify_Done & H).
  apply step_bind_Done in H as (now & st2 & Hst2%timestamp_Done & H).
  apply step_bind_Done in H as (blinding & st3 & Hst3%nonce_Done & H).
  apply step_bind_Done in H as (commitment & st4 & [-> Hc]%lift_Done & H).
  apply step_bind_Done in H as (message & st4 & [-> Hm]%lift_Done & H).
  apply step_bind_Done in H as (hash & st4 & [-> Hh]%lift_Done & H).
  apply step_bind_Done in H as ([] & st4 & (line & Hline & Hst4)%write_entry_Done & H).
  apply step_bind_Done in H as ([] & st5 & (index & Hst5)%append_checkpoint_index_Done & H).
  apply step_bind_Done in H as (u' & st6 & ->%modify_Done & [-> ->]%ret_Done).
  exists line, now, index. split_and!; [exact Hline|done|by eapply sealed_checkpoint_verifies|].
  simpl. by rewrite Hst5, Hst4, Hst3, Hst2.
Qed.

(** * The log a writer has written *)

Record Wrote es w : Prop := {
  wrote_lines : ∃ ls, Forall2 (λ e l, entry_to_string e = Some l) es ls ∧ w_log w = file_of ls;
  wrote_well_formed : WellFormedLog (identity_key_id (w_signing_key w)) (verifying_key (w_signing_key w)) es;
  wrote_session : Forall (λ e : Entry, entry_session e = w_session_id w) es;
  wrote_format : supported_format (w_format_version w) = true;
  wrote_sequence : w_sequence w = N.of_nat (length (records es));
  wrote_head : w_chain_head w = head_hash (records es);
  wrote_checkpoints : w_checkpoint_sequence w = N.of_nat (length (checkpoints es));
  wrote_checkpoint_head : w_checkpoint_head w = checkpoint_head (checkpoints es);
}.

Lemma wrote_same_session es w e : Wrote es w → entry_session e = w_session_id w → SameSession es e.
Proof.
  intros Hw He first Hfirst. rewrite He. symmetry. pose proof (wrote_session _ _ Hw) as Hs.
  destruct es as [|f es]; [done|]. injection Hfirst as ->. by inversion Hs.
Qed.

Lemma wrote_line es w e line ls :
  Forall2 (λ e l, entry_to_string e = Some l) es ls → w_log w = file_of ls → entry_to_string e = Some line →
  ∃ ls', Forall2 (λ e l, entry_to_string e = Some l) (es ++ [e]) ls' ∧
    w_log w +:+ (line +:+ line_end) = file_of ls'.
Proof.
  intros Hls Hlog He. exists (ls ++ [line]). split; [by apply Forall2_app; [|by repeat constructor]|].
  by rewrite file_of_snoc, Hlog.
Qed.

Lemma wrote_checkpoint es w final s st' c :
  Wrote es w → write_checkpoint final (w, s) = (st', Done c) →
  Wrote (es ++ [EntryCheckpoint c]) st'.1 ∧ Grows w st'.1 ∧ cb_final_checkpoint (cp_body c) = final.
Proof.
  intros Hw Hc. pose proof (append_only_write_checkpoint final (w, s)) as Hgrows. rewrite Hc in Hgrows.
  apply write_checkpoint_Done in Hc as (line & now & index & Hline & Hbody & Hverify & Hst'). simpl in *.
  split_and!; [|done|by rewrite Hbody]. rewrite Hst'. clear Hst' Hgrows.
  pose proof Hw as [(ls & Hls & Hlog) Hwf Hs Hf Hseq Hhead Hcs Hch].
  split; simpl; rewrite ?records_snoc, ?checkpoints_snoc; simpl entry_record; simpl entry_checkpoint;
    simpl option_list; rewrite ?app_nil_r; try done.
  - by eapply wrote_line.
  - apply WellFormedLog_snoc. split; [done|]. split.
    + apply (wrote_same_session _ w); [done|]. simpl. by rewrite Hbody.
    + split; rewrite ?Hbody; simpl; [by apply known_format|lia|done..|by apply verify_checkpoint_spec].
  - apply Forall_app. split; [done|]. repeat constructor. simpl. by rewrite Hbody.
  - rewrite length_app. simpl. lia.
  - unfold checkpoint_head. by rewrite last_snoc.
Qed.

Lemma wrote_record es w s st' event record :
  Wrote es w → append event (w, s) = (st', Done record) →
  ∃ new, Wrote (es ++ EntryRecord record :: new) st'.1 ∧ Grows w st'.1 ∧
    rb_event (record_body record) = event ∧ rb_sequence (record_body record) = (w_sequence w + 1)%N ∧
    (if is_multiple_of (w_sequence w + 1) (w_checkpoint_interval w)
     then ∃ c, new = [EntryCheckpoint c] ∧ cb_final_checkpoint (cp_body c) = false else new = []).
Proof.
  intros Hw Hr. pose proof (append_only_append event (w, s)) as Hgrows. rewrite Hr in Hgrows.
  unfold append in Hr.
  apply step_bind_Done in Hr as (w0 & st0 & [-> ->]%the_writer_Done & H).
  apply step_bind_Done in H as (n & st0 & [-> [-> _]%checked_add_u64_Done]%lift_Done & H).
  apply step_bind_Done in H as (u & st1 & ->%modify_Done & H).
  apply step_bind_Done in H as (now & st2 & Hst2%timestamp_Done & H).
  apply step_bind_Done in H as (hash & st3 & [-> Hh]%lift_Done & H).
  apply step_bind_Done in H as ([] & st3 & (line & Hline & Hst3)%write_entry_Done & H).
  apply step_bind_Done in H as (u' & st4 & ->%modify_Done & H).
  apply step_bind_Done in H as (u'' & st5 & Hcp & [-> ->]%ret_Done). simpl in *.
  set (body := {| rb_format_version := _ |}) in *. set (record := {| record_body := body |}) in *.
  assert (Hwrote : Wrote (es ++ [EntryRecord record]) (set_chain_head hash st3.1)).
  { rewrite Hst3, Hst2. pose proof Hw as [(ls & Hls & Hlog) Hwf Hs Hf Hseq Hhead Hcs Hch].
    split; simpl; rewrite ?records_snoc, ?checkpoints_snoc; simpl entry_record; simpl entry_checkpoint;
      simpl option_list; rewrite ?app_nil_r; try done.
    - by eapply wrote_line.
    - apply WellFormedLog_snoc. split; [done|]. split; [by apply (wrote_same_session _ w)|].
      split; simpl; [by apply known_format|lia|done|by apply hash_record_body_spec].
    - apply Forall_app. split; [done|]. by repeat constructor.
    - rewrite length_app. simpl. lia.
    - unfold head_hash. by rewrite last_snoc. }
  destruct (is_multiple_of (w_sequence w + 1) (w_checkpoint_interval w)).
  - apply step_bind_Done in Hcp as (c & st6 & Hc & [-> _]%ret_Done).
    destruct (wrote_checkpoint _ _ _ _ _ _ Hwrote Hc) as (Hwrote' & _ & Hfinal).
    exists [EntryCheckpoint c]. rewrite <-app_assoc in Hwrote'. split_and!; [done|done|done|done|by exists c].
  - apply ret_Done in Hcp as [-> _]. by exists [].
Qed.

(** * What was written is accepted *)

Definition event_of (r : AuditRecord V) : AuditEvent V := rb_event (record_body r).

(** The lines of this event's records are read as they were written. Values
    nested too deep for the parser, and numbers it reads a bit off, are not. *)
Definition ReadsBack (event : AuditEvent V) : Prop := ∀ r line,
  event_of r = event → entry_to_string (EntryRecord r) = Some line → entry_from_str line = Some (EntryRecord r).

Lemma entries_read_back es ls :
  Forall2 (λ (e : Entry) l, entry_to_string e = Some l) es ls → Forall (λ r, ReadsBack (event_of r)) (records es) →
  Forall2 parses ls es.
Proof.
  induction 1 as [|e l es ls He _ IH]; [constructor|]. unfold records. rewrite omap_cons_list, Forall_app. intros [Hr Hes].
  constructor; [|by apply IH]. destruct e as [r|c]; [|by apply checkpoint_roundtrip].
  by apply (Forall_inv Hr).
Qed.

(** A log written by [events] and not closed. *)
Record WroteEvents (events : list (AuditEvent V)) es w : Prop := {
  we_wrote : Wrote es w;
  we_events : event_of <$> records es = events;
  we_interval : w_checkpoint_interval w ≠ 0%N;
  we_checkpoints : N.of_nat (length (checkpoints es)) = (N.of_nat (length events) / w_checkpoint_interval w)%N;
  we_open : closed es = false;
}.

Lemma div_succ n i : i ≠ 0%N → ((n + 1) / i = n / i + if is_multiple_of (n + 1) i then 1 else 0)%N.
Proof.
  intros Hi. unfold is_multiple_of. pose proof (N.div_mod n i Hi) as Hn. pose proof (N.mod_lt n i Hi).
  set (q := (n / i)%N) in *. set (r := (n mod i)%N) in *.
  destruct (N.eq_dec (r + 1)%N i) as [Hr|Hr].
  - assert (n + 1 = i * (q + 1) + 0)%N as Hs by lia.
    rewrite <-(N.div_unique (n + 1) i (q + 1) 0)%N, <-(N.mod_unique (n + 1) i (q + 1) 0)%N by lia.
    by rewrite bool_decide_true.
  - assert (n + 1 = i * q + (r + 1))%N as Hs by lia.
    rewrite <-(N.div_unique (n + 1) i q (r + 1))%N, <-(N.mod_unique (n + 1) i q (r + 1))%N by lia.
    rewrite bool_decide_false by lia. lia.
Qed.

Lemma records_app es es' : records (V := V) (es ++ es') = records es ++ records es'.
Proof. apply omap_app. Qed.
Lemma checkpoints_app es es' : checkpoints (V := V) (es ++ es') = checkpoints es ++ checkpoints es'.
Proof. apply omap_app. Qed.

Lemma wrote_event events es w s st' event record :
  WroteEvents events es w → append event (w, s) = (st', Done record) →
  ∃ es', WroteEvents (events ++ [event]) es' st'.1 ∧ Grows w st'.1 ∧
    records es' = records es ++ [record] ∧ rb_sequence (record_body record) = (w_sequence w + 1)%N.
Proof.
  intros [Hw He Hi Hc Ho] Hr. destruct (wrote_record _ _ _ _ _ _ Hw Hr) as (new & Hw' & Hg & Hev & Hseq & Hnew).
  exists (es ++ EntryRecord record :: new).
  assert (Hn : w_sequence w = N.of_nat (length events)).
  { rewrite (wrote_sequence _ _ Hw), <-He, length_fmap. done. }
  assert (Hshape : records (es ++ EntryRecord record :: new) = records es ++ [record] ∧
    N.of_nat (length (checkpoints (es ++ EntryRecord record :: new))) =
      (N.of_nat (length (checkpoints es)) + if is_multiple_of (w_sequence w + 1) (w_checkpoint_interval w) then 1 else 0)%N ∧
    closed (es ++ EntryRecord record :: new) = false).
  { unfold closed in *. rewrite records_app, checkpoints_app. destruct (is_multiple_of _ _).
    - destruct Hnew as (c & -> & Hf). change (records [EntryRecord record; EntryCheckpoint c]) with [record].
      change (checkpoints [EntryRecord record; EntryCheckpoint c]) with [c].
      rewrite length_app, last_snoc. split_and!; [done|simpl; lia|done].
    - subst new. change (records [EntryRecord record]) with [record].
      change (checkpoints [EntryRecord record]) with (@nil AuditCheckpoint).
      rewrite app_nil_r. split_and!; [done|lia|done]. }
  destruct Hshape as (Hrec & Hcount & Hopen). split_and!; try done.
  split; [done| | | |done].
  - by rewrite Hrec, fmap_app, He, <-Hev.
  - by rewrite (grows_interval _ _ Hg).
  - rewrite (grows_interval _ _ Hg), Hcount, Hc, Hn, length_app. simpl length.
    rewrite Nat2N.inj_add. symmetry. by apply div_succ.
Qed.

Lemma wrote_created fresh index (key : SecretKey) uid interval w :
  create fresh index key uid interval = Done w →
  WroteEvents [] [] w ∧ w_session_id w = fresh ∧ w_signing_key w = key ∧ w_checkpoint_interval w = interval.
Proof.
  unfold create, create_with_format. destruct (N.eqb_spec interval 0); [done|]. intros [= <-]. simpl.
  split_and!; try done. split; simpl; try done.
  split; simpl; try done; [by exists []|apply WellFormedLog_nil].
Qed.

(** Appending the events of a session, in order. *)
Fixpoint append_all (events : list (AuditEvent V)) : M (list (AuditRecord V)) :=
  match events with
  | [] => mret []
  | event :: events => record ← append event; rest ← append_all events; mret (record :: rest)
  end.

Lemma wrote_all before events es w s st' rs :
  WroteEvents before es w → append_all events (w, s) = (st', Done rs) →
  ∃ es', WroteEvents (before ++ events) es' st'.1 ∧ Grows w st'.1.
Proof.
  revert before es w s rs. induction events as [|event events IH]; intros before es w s rs Hw; simpl.
  { intros [-> _]%ret_Done. exists es. by rewrite app_nil_r. }
  intros (record & [w1 s1] & Ha & H)%step_bind_Done. apply step_bind_Done in H as (rest & st2 & Hrest & [-> _]%ret_Done).
  destruct (wrote_event _ _ _ _ _ _ _ Hw Ha) as (es1 & Hw1 & Hg1 & _). simpl in *.
  destruct (IH _ _ _ _ _ Hw1 Hrest) as (es2 & Hw2 & Hg2). exists es2. rewrite <-app_assoc in Hw2.
  split; [done|by etrans].
Qed.

(** The verifier accepts the text a writer wrote. *)
Lemma wrote_verifies es w public_hex :
  Wrote es w → es ≠ [] → Forall (λ r, ReadsBack (event_of r)) (records es) → Countable (w_log w) →
  hex_decode (trim public_hex) = Some (key_to_bytes (verifying_key (w_signing_key w))) →
  entries (w_log w) = es ∧
  verify_log (w_log w) public_hex = Done {|
    vr_session_id := w_session_id w; vr_records := N.of_nat (length (records es));
    vr_checkpoints := N.of_nat (length (checkpoints es)); vr_final_checkpoint := closed es;
    vr_chain_head := w_chain_head w |}.
Proof.
  intros [(ls & Hls & Hlog) Hwf Hs Hf Hseq Hhead Hcs Hch] Hne Hback Hcount Hpub.
  assert (Hlines : lines (w_log w) = ls).
  { rewrite Hlog. apply lines_file_of. clear -Hls AuditLaws0.
    induction Hls as [|e l es ls He _ IH]; constructor; [by eapply entry_one_line|done]. }
  assert (Hparse : Forall2 parses (lines (w_log w)) es).
  { rewrite Hlines. by apply entries_read_back. }
  split; [apply (parses_entries _ _ Hparse)|]. destruct es as [|first es]; [done|].
  apply verify_log_spec; [done|].
  exists (key_to_bytes (verifying_key (w_signing_key w))), (verifying_key (w_signing_key w)), first, es.
  split_and!; [split_and!; [done|apply key_length|apply key_roundtrip]|done|done|].
  unfold report_of. rewrite Hhead. f_equal. by inversion Hs.
Qed.

(** A log of events that read back is accepted when it was closed, and one that was not is accepted without its final
    checkpoint: after any events were appended, the verifier reports the session, exactly their
    number, a checkpoint for every full interval (and the final one), and the chain head; and the
    records of the log are the events, in order. *)
Lemma written_log_verifies fresh index key uid interval events s w public_hex :
  create fresh index key uid interval = Done w → Forall ReadsBack events →
  hex_decode (trim public_hex) = Some (key_to_bytes (verifying_key key)) →
  (∀ st rs, append_all events (w, s) = (st, Done rs) → events ≠ [] → Countable (w_log st.1) →
     event_of <$> records (entries (w_log st.1)) = events ∧
     verify_log (w_log st.1) public_hex = Done {|
       vr_session_id := fresh; vr_records := N.of_nat (length events);
       vr_checkpoints := (N.of_nat (length events) / interval)%N; vr_final_checkpoint := false;
       vr_chain_head := w_chain_head st.1 |}) ∧
  (∀ st c, (append_all events ≫= λ _, close) (w, s) = (st, Done c) → Countable (w_log st.1) →
     event_of <$> records (entries (w_log st.1)) = events ∧
     verify_log (w_log st.1) public_hex = Done {|
       vr_session_id := fresh; vr_records := N.of_nat (length events);
       vr_checkpoints := (N.of_nat (length events) / interval + 1)%N; vr_final_checkpoint := true;
       vr_chain_head := w_chain_head st.1 |}).
Proof.
  intros Hcreate Hback Hpub. apply wrote_created in Hcreate as (Hw0 & <- & <- & <-). split.
  - intros st rs Hall Hne Hcount. destruct (wrote_all _ _ _ _ _ _ _ Hw0 Hall) as (es & [Hw He Hi Hc Ho] & Hg).
    simpl in He. assert (es ≠ []) as Hes by (intros ->; by subst).
    rewrite <-(grows_key _ _ Hg) in Hpub. rewrite <-He, Forall_fmap in Hback.
    destruct (wrote_verifies _ _ _ Hw Hes Hback Hcount Hpub) as [-> Hv].
    split; [done|]. rewrite Hv, Ho, Hc, (grows_session _ _ Hg), (grows_interval _ _ Hg). simpl.
    do 2 f_equal. by rewrite <-He, length_fmap.
  - intros st c (rs & [w1 s1] & Hall & Hclose)%step_bind_Done Hcount.
    destruct (wrote_all _ _ _ _ _ _ _ Hw0 Hall) as (es & [Hw He Hi Hc Ho] & Hg). simpl in He, Hw, Hg, Hc.
    destruct (wrote_checkpoint _ _ _ _ _ _ Hw Hclose) as (Hw' & Hg' & Hfinal).
    assert (Grows w st.1) as Hgs by by etrans.
    rewrite <-(grows_key _ _ Hgs) in Hpub. rewrite <-He, Forall_fmap in Hback.
    destruct (wrote_verifies _ _ _ Hw' ltac:(by destruct es) ltac:(by rewrite records_snoc, app_nil_r) Hcount Hpub) as [-> Hv].
    rewrite Hv. unfold closed. rewrite records_snoc, checkpoints_snoc. simpl entry_record. simpl entry_checkpoint.
    simpl option_list. rewrite app_nil_r, length_app, last_snoc. simpl. rewrite (grows_session _ _ Hgs), Hfinal. split; [done|].
    do 2 f_equal; [by rewrite <-He, length_fmap|]. rewrite Nat2N.inj_add, Hc, (grows_interval _ _ Hg). done.
Qed.

(** * What was acknowledged was written *)

Definition ack_of (r : ServerResponse) : option (N * string) :=
  match r with RespAck sequence hash => Some (sequence, hash) | _ => None end.
Definition number_and_hash (r : AuditRecord V) : N * string := (rb_sequence (record_body r), record_hash r).
Definition acks (sent : list ServerResponse) : list (N * string) := omap ack_of sent.

(** What a client was told, against the log: the entries [es] are whole lines of
    it and form an acceptable chain; every record but those of a failed append
    was acknowledged, in order, and is of an event as it may be ([P]); and a
    closing checkpoint ends the log. *)
Record Told (P : AuditEvent V → Prop) (sent : list ServerResponse) w : Prop := {
  told_acks : ∃ es tail, (∃ ls, Forall2 (λ e l, entry_to_string e = Some l) es ls ∧ w_log w = file_of ls +:+ tail) ∧
    WellFormedLog (identity_key_id (w_signing_key w)) (verifying_key (w_signing_key w)) es ∧
    acks sent = number_and_hash <$> records es ∧ Forall (λ r, P (event_of r)) (records es);
  told_closed c : RespClosed c ∈ sent →
    ∃ es, Wrote (es ++ [EntryCheckpoint c]) w ∧ cb_final_checkpoint (cp_body c) = true ∧
      acks sent = number_and_hash <$> records (es ++ [EntryCheckpoint (V := V) c]) ∧
      Forall (λ r, P (event_of r)) (records (es ++ [EntryCheckpoint (V := V) c]));
}.

Lemma acks_snoc sent r : acks (sent ++ [r]) = acks sent ++ option_list (ack_of r).
Proof. unfold acks. rewrite omap_app. simpl. by destruct (ack_of r). Qed.

Lemma wrote_told P es w sent :
  Wrote es w → acks sent = number_and_hash <$> records es → Forall (λ r, P (event_of r)) (records es) →
  (∀ c, RespClosed c ∉ sent) → Told P sent w.
Proof.
  intros Hw Ha Hp Hc. split; [|intros c Hin; by destruct (Hc c)].
  destruct (wrote_lines _ _ Hw) as (ls & Hls & Hlog). exists es, "".
  split_and!; [exists ls; by rewrite string_app_empty|by apply wrote_well_formed|done|done].
Qed.

Lemma not_closed_snoc sent r :
  (∀ c, RespClosed c ∉ sent) → (∀ c, r ≠ RespClosed c) → ∀ c, RespClosed c ∉ sent ++ [r].
Proof. intros Hs Hr c [Hin|Hin%list_elem_of_singleton]%elem_of_app; [by eapply Hs|by eapply Hr]. Qed.

(** A failed step leaves the log with what was there. *)
Lemma grown_told P es w w' sent :
  Wrote es w → Grows w w' → acks sent = number_and_hash <$> records es → Forall (λ r, P (event_of r)) (records es) →
  (∀ c, RespClosed c ∉ sent) → Told P sent w'.
Proof.
  intros Hw Hg Ha Hp Hc. split; [|intros c Hin; by destruct (Hc c)].
  destruct (wrote_lines _ _ Hw) as (ls & Hls & Hlog). destruct (grows_log _ _ Hg) as [tail Htail].
  exists es, tail. rewrite (grows_key _ _ Hg).
  split_and!; [exists ls; by rewrite Htail, Hlog|by apply wrote_well_formed|done|done].
Qed.

(** A client asked for the event to be recorded. *)
Definition Asked (requests : list string) (event : AuditEvent V) : Prop :=
  ∃ line, line ∈ requests ∧ request_from_str line = Some (ReqAppend event).

Lemma serve_told (P : AuditEvent V → Prop) requests es w sent s w' sent' s' r :
  (∀ event, Asked requests event → P event) →
  Wrote es w → acks sent = number_and_hash <$> records es → Forall (λ r, P (event_of r)) (records es) →
  (∀ c, RespClosed c ∉ sent) →
  serve requests w sent s = (Some w', sent', s', r) → Told P sent' w'.
Proof.
  revert es w sent s. induction requests as [|line requests IH]; intros es w sent s Hasked Hw Ha Hp Hc; simpl.
  { intros [= <- <- _ _]. by eapply wrote_told. }
  assert (Hsay : ∀ resp, ack_of resp = None → (∀ c, resp ≠ RespClosed c) →
    (let '(sent, s, r) := send resp sent s in (Some w, sent, s, r)) = (Some w', sent', s', r) → Told P sent' w').
  { intros resp Hr Hn. unfold send. destruct (send_ok s) as [ok s2]. intros [= <- <- _ _].
    eapply wrote_told; [done| |done|by apply not_closed_snoc]. by rewrite acks_snoc, Hr, app_nil_r. }
  destruct (request_from_str line) as [[version client|event|]|] eqn:Hline; [by apply Hsay| | |by apply Hsay].
  - pose proof (append_only_append event (w, s)) as Hgrows.
    destruct (append event (w, s)) as [[w1 s1] [record|error|]] eqn:Happ; simpl in Hgrows.
    + destruct (wrote_record _ _ _ _ _ _ Hw Happ) as (new & Hw1 & _ & Hev & _ & Hnew). simpl in Hw1.
      assert (Hp1 : Forall (λ r, P (event_of r)) (records (es ++ EntryRecord record :: new))).
      { rewrite records_app. apply Forall_app. split; [done|].
        assert (records (EntryRecord record :: new) = [record]) as ->
          by (destruct (is_multiple_of _ _); [destruct Hnew as (c & -> & _)|subst new]; done).
        apply Forall_singleton. unfold event_of. rewrite Hev. apply Hasked. exists line. split; [by left|done]. }
      assert (Hacks : acks (sent ++ [RespAck (rb_sequence (record_body record)) (record_hash record)]) =
        number_and_hash <$> records (es ++ EntryRecord record :: new)).
      { rewrite acks_snoc, Ha, records_app, fmap_app. f_equal. destruct (is_multiple_of _ _);
          [destruct Hnew as (c & -> & _)|subst new]; done. }
      unfold send. destruct (send_ok s1) as [[] s2].
      * intros Hserve. eapply IH; [|exact Hw1|exact Hacks|exact Hp1|by apply not_closed_snoc|exact Hserve].
        intros event' (line' & Hin & Hl). apply Hasked. exists line'. split; [by right|done].
      * intros [= <- <- _ _]. eapply wrote_told; [exact Hw1|exact Hacks|exact Hp1|by apply not_closed_snoc].
    + unfold send. destruct (send_ok s1) as [ok s2]. intros [= <- <- _ _].
      eapply grown_told; [exact Hw|exact Hgrows| |exact Hp|by apply not_closed_snoc].
      by rewrite acks_snoc, Ha, app_nil_r.
    + intros [= <- <- _ _]. by eapply grown_told.
  - pose proof (append_only_write_checkpoint true (w, s)) as Hgrows. unfold close.
    destruct (write_checkpoint true (w, s)) as [[w1 s1] [c|error|]] eqn:Hcl; simpl in Hgrows.
    + destruct (wrote_checkpoint _ _ _ _ _ _ Hw Hcl) as (Hw1 & _ & Hfinal). simpl in Hw1.
      assert (Hacks : acks (sent ++ [RespClosed c]) = number_and_hash <$> records (es ++ [EntryCheckpoint (V := V) c])).
      { rewrite acks_snoc, Ha, records_snoc. by rewrite !app_nil_r. }
      assert (Hp1 : Forall (λ r, P (event_of r)) (records (es ++ [EntryCheckpoint (V := V) c])))
        by (by rewrite records_snoc, app_nil_r).
      unfold send. destruct (send_ok s1) as [ok s2]. intros [= <- <- _ _]. split.
      * destruct (wrote_lines _ _ Hw1) as (ls & Hls & Hlog). exists (es ++ [EntryCheckpoint c]), "".
        split_and!; [exists ls; by rewrite string_app_empty|by apply wrote_well_formed|done|done].
      * intros c' [Hin|Hin%list_elem_of_singleton]%elem_of_app; [by destruct (Hc c')|].
        injection Hin as ->. by exists es.
    + intros [= <- <- _ _]. by eapply grown_told.
    + intros [= <- <- _ _]. by eapply grown_told.
Qed.

(** C14: A client of the daemon can rely on what it was told. However its session goes - requests it
    should not make, writes or sends that fail - the records acknowledged to it are, number and hash
    by number and hash, those of a well-formed prefix of the log, in order, and all of them are of
    events it asked for; and when it was sent the final checkpoint, and the events it asked for are of
    values that JSON reads back, the log as it stands is accepted, holds exactly the acknowledged
    records and ends with that checkpoint. *)
Theorem acknowledged_records_are_logged fresh index key uid interval requests s w sent s' r public_hex :
  handle_client fresh index key uid interval requests s = (Some w, sent, s', r) →
  hex_decode (trim public_hex) = Some (key_to_bytes (verifying_key (w_signing_key w))) →
  (∃ es tail, (∃ ls, Forall2 (λ e l, entry_to_string e = Some l) es ls ∧ w_log w = file_of ls +:+ tail) ∧
     WellFormedLog (identity_key_id (w_signing_key w)) (verifying_key (w_signing_key w)) es ∧
     acks sent = number_and_hash <$> records es ∧ Forall (λ r, Asked requests (event_of r)) (records es)) ∧
  (∀ c, RespClosed c ∈ sent → Countable (w_log w) → (∀ event, Asked requests event → ReadsBack event) →
     ∃ report, verify_log (w_log w) public_hex = Done report ∧ vr_final_checkpoint report = true ∧
       acks sent = number_and_hash <$> records (entries (w_log w)) ∧
       last (entries (w_log w)) = Some (EntryCheckpoint c)).
Proof.
  intros Hrun Hpub. assert (Told (Asked requests) sent w) as [Hacks Hclosed].
  { unfold handle_client in Hrun. destruct requests as [|line requests]; [done|].
    destruct (request_from_str line) as [[version client|event|]|];
      [|unfold send in Hrun; destruct (send_ok s); simplify_eq..|done].
    destruct (bool_decide _); [|unfold send in Hrun; destruct (send_ok s); simplify_eq].
    destruct (create fresh index key uid interval) as [w0|error|] eqn:Hcreate; [|done|done].
    apply wrote_created in Hcreate as ([Hw0 _ _ _ _] & _). unfold send in Hrun.
    destruct (send_ok s) as [[] s1].
    - eapply (serve_told _ _ [] w0); [|exact Hw0| | | |exact Hrun]; [|done|constructor|].
      + intros event (l & Hin & Hl). exists l. split; [by right|done].
      + by intros c Hin%list_elem_of_singleton.
    - injection Hrun as <- <- _ _. eapply (wrote_told _ []); [exact Hw0|done|constructor|].
      by intros c Hin%list_elem_of_singleton. }
  split; [exact Hacks|]. intros c Hc Hcount Hback. destruct (Hclosed c Hc) as (es & Hw & Hfinal & Ha & Hp).
  assert (Forall (λ r, ReadsBack (event_of r)) (records (es ++ [EntryCheckpoint (V := V) c]))) as Hread
    by (eapply Forall_impl; [exact Hp|]; intros ?; apply Hback).
  destruct (wrote_verifies _ _ public_hex Hw ltac:(by destruct es) Hread Hcount Hpub) as [-> Hv].
  eexists. split; [exact Hv|]. split_and!; [|done|apply last_snoc].
  simpl. unfold closed. rewrite checkpoints_snoc. simpl. by rewrite last_snoc.
Qed.

(** A record of an event that does not read back was acknowledged like any
    other, and the log that holds its line is refused. *)
Lemma unread_record_spoils_the_log text line public_hex :
  Countable text → line ∈ lines text → entry_from_str line = None → ∀ report, verify_log text public_hex ≠ Done report.
Proof.
  intros Hcount Hin Hline report. rewrite verify_log_spec by done. intros (pub & key & first & es & _ & Hes & _).
  apply list_elem_of_lookup_1 in Hin as [i Hi]. destruct (Forall2_lookup_l _ _ _ _ _ Hes Hi) as (e & _ & He).
  unfold parses in He. congruence.
Qed.
End writer.

(** * The sample *)

Lemma sample_log_reads_back (e : AuditLogEntry string) line : entry_to_string e = Some line → entry_from_str line = Some e.
Proof.
  cbn [entry_to_string entry_from_str sample_serde]. rewrite fmap_Some. intros (p & Hp%List.find_some & ->).
  destruct Hp as [Hin He%bool_decide_eq_true]. subst e.
  by repeat (destruct Hin as [<-|Hin]; [vm_compute; reflexivity|]).
Qed.

#[export] Instance sample_laws : AuditLaws string () SampleKey SampleKey bytes.
Proof.
  split; try done.
  - intros b. simpl. by rewrite chars_of_chars.
  - by intros [].
  - intros k m. simpl. by apply bool_decide_eq_true.
  - intros c line. apply sample_log_reads_back.
  - intros e line. cbn [entry_to_string sample_serde]. rewrite fmap_Some. intros (p & [Hin _]%List.find_some & ->).
    by repeat (destruct Hin as [<-|Hin]; [vm_compute; split; [reflexivity|discriminate]|]).
  - intros s text more text' ok s' [= <- <- <-]. by exists more.
Qed.

Lemma written_log_verifies_witness :
  ∃ st c w, create "session" "" TheKey 501 2 = Done w ∧
    (append_all [sample_event "first"; sample_event "second"] ≫= λ _, close) (w, ()) = (st, Done c) ∧
    verify_log (w_log st.1) sample_public_hex = Done {|
      vr_session_id := "session"; vr_records := 2; vr_checkpoints := 2; vr_final_checkpoint := true;
      vr_chain_head := w_chain_head st.1 |}.
Proof.
  destruct (create (SecretKey := SampleKey) "session" "" TheKey 501 2) as [w|e|] eqn:Hw;
    [|vm_compute in Hw; discriminate..].
  destruct (written_log_verifies (V := string) (W := ()) (PublicKey := SampleKey) (Signature := bytes)
    "session" "" TheKey 501 2 [sample_event "first"; sample_event "second"] () w sample_public_hex Hw)
    as [_ Hclosed]; [repeat constructor; intros r line _; apply sample_log_reads_back|vm_compute; reflexivity|].
  injection Hw as <-. do 3 eexists. split; [reflexivity|]. split; [vm_compute; reflexivity|].
  eapply Hclosed; vm_compute; reflexivity.
Defined.

Definition sample_session_end : SessionEnd :=
  handle_client "session" "" TheKey 501 2 ["open"; "first"; "second"; "close"] ().
Definition sample_told : list ServerResponse := sample_session_end.1.1.2.

Lemma acknowledged_records_are_logged_witness :
  ∃ report, verify_log sample_log sample_public_hex = Done report ∧ vr_final_checkpoint report = true ∧
    acks sample_told = number_and_hash <$> records (entries sample_log) ∧
    last (entries sample_log) = Some (EntryCheckpoint (V := string) sample_checkpoint_2).
Proof.
  destruct sample_session_end as [[[[w|] sent] s'] r] eqn:Hrun; [|vm_compute in Hrun; discriminate].
  assert (w_log w = sample_log ∧ w_signing_key w = TheKey ∧ sent = sample_told) as (Hlog & Hkey & Hsent).
  { vm_compute in Hrun. injection Hrun as <- <- _ _. vm_compute. done. }
  destruct (acknowledged_records_are_logged _ _ _ _ _ _ _ _ _ _ _ sample_public_hex Hrun) as [_ Hclosed].
  { rewrite Hkey. vm_compute. reflexivity. }
  rewrite Hlog, Hsent in Hclosed.
  apply Hclosed; [|vm_compute; reflexivity|intros event _ r0 line _; apply sample_log_reads_back].
  apply (list_elem_of_lookup_2 _ 3). vm_compute. reflexivity.
Defined.
