(* ===== verification/SessionAudit.v ===== *)
(** The audit connections of the session daemon.

    Below is the client's side of the audit service
    ([crates/xshell-audit/src/client.rs]): a connection, the exchanges on it, and
    what a failed one leaves. The socket is the class [AuditSocket]: what is
    written and read on it by a deadline. A record that was sent may have been
    written although no acknowledgement came, so a connection is not used again
    after a failure.

    Above it ([crates/xshell-session/src/audit.rs]) each session has one
    connection, opened when it is first needed, given up when an exchange fails,
    tried again after a while, and closed with the session. An entry is shared by
    the table and the handles given out for it, so the entries are a store of
    their own; each has its own lock, and an operation on one is a step. *)
From Stdlib Require Import Ascii.
From S2P Require Import Prelude Effects Budget AuditModel.

Definition MAX_RESPONSE_BYTES : N := 1024 * 1024.
(** Times and durations are nanoseconds. *)
Definition DEFAULT_EXCHANGE_TIMEOUT : N := from_secs 10.
Definition PROBE_TIMEOUT : N := from_secs 2.
Definition from_millis (n : N) : N := n * 1000000.
Definition as_millis (d : N) : N := d / 1000000.

(** An error of the socket: its text, and whether it is [TimedOut] or
    [WouldBlock]. *)
Record IoFailure := {
  io_text : string;
  io_timed_out : bool;
}.

(** [read_until] gives the bytes up to a line
    feed, the end of the stream or the limit. *)
Class AuditSocket (V W Conn : Type) := {
  instant : W → N * W;
  socket_connect : string → W → (string + Conn) * W;
  clone_socket : Conn → W → (string + Conn) * W;
  get_descriptor_flags : Conn → W → option string * W;
  set_descriptor_flags : Conn → W → option string * W;
  write_request : Conn → N → ClientRequest V → W → option IoFailure * W;
  write_line_feed : Conn → N → W → option IoFailure * W;
  flush : Conn → W → option IoFailure * W;
  read_until : Conn → N → N → W → (IoFailure + list ascii) * W;
  response_from_slice : list ascii → string + ServerResponse;
  debug_response : ServerResponse → string;
}.

Record AuditClient (Conn : Type) := {
  ac_session_id : string;
  ac_signing_key_id : string;
  ac_reader : Conn;
  ac_writer : Conn;
  ac_timeout : N;
  ac_failed : bool;
}.
Arguments ac_session_id {Conn}.
Arguments ac_signing_key_id {Conn}.
Arguments ac_reader {Conn}.
Arguments ac_writer {Conn}.
Arguments ac_timeout {Conn}.
Arguments ac_failed {Conn}.
Arguments Build_AuditClient {Conn}.

(** [context] before the text of an error. *)
Definition with_cause (context cause : string) : string := context +:+ ": " +:+ cause.

Section client.
Context {V W Conn : Type} `{!AuditSocket V W Conn}.
Abbreviation Client := (AuditClient Conn).
Abbreviation IO := (Step W string).

(** A call that gives an error or nothing, and one that gives a value. *)
Definition call (context : string) (f : W → option string * W) : IO () :=
  r ← ask f; match r with Some error => throw (with_cause context error) | None => mret () end.
Definition call_value {X} (context : string) (f : W → (string + X) * W) : IO X :=
  r ← ask f; match r with inl error => throw (with_cause context error) | inr x => mret x end.

Definition set_close_on_exec (c : Conn) : IO () :=
  call "cannot inspect audit socket flags" (get_descriptor_flags c);;
  call "cannot protect audit socket from child processes" (set_descriptor_flags c).

(** [send] and [receive]: the error is kept with its kind. *)
Definition io_call (context : option string) (f : W → option IoFailure * W) : Step W IoFailure () :=
  r ← ask f;
  match r with
  | Some e => throw {| io_text := from_option (λ c, with_cause c (io_text e)) (io_text e) context; io_timed_out := io_timed_out e |}
  | None => mret ()
  end.

Definition send (c : Client) (deadline : N) (request : ClientRequest V) : Step W IoFailure () :=
  io_call None (write_request (ac_writer c) deadline request);;
  io_call None (write_line_feed (ac_writer c) deadline);;
  io_call (Some "cannot flush audit request") (flush (ac_writer c)).

Definition not_io (text : string) : IoFailure := {| io_text := text; io_timed_out := false |}.

Definition receive (c : Client) (deadline : N) : Step W IoFailure ServerResponse :=
  r ← ask (read_until (ac_reader c) deadline (MAX_RESPONSE_BYTES + 1));
  match r with
  | inl e => throw e
  | inr bytes =>
      ensure (negb (bool_decide (bytes = []))) (not_io "audit service closed the connection");;
      ensure (negb ((MAX_RESPONSE_BYTES <? N.of_nat (length bytes))%N || negb (bool_decide (last bytes = Some newline))))
        (not_io ("audit service response exceeds " +:+ fmt_N MAX_RESPONSE_BYTES +:+ " bytes"));;
      match response_from_slice bytes with
      | inr response => mret response
      | inl error => throw (not_io (with_cause "audit service returned an invalid response" error))
      end
  end.

Definition set_failed (c : Client) : Client := {|
  ac_session_id := ac_session_id c; ac_signing_key_id := ac_signing_key_id c; ac_reader := ac_reader c;
  ac_writer := ac_writer c; ac_timeout := ac_timeout c; ac_failed := true |}.

Definition exchange_error (c : Client) (e : IoFailure) : string :=
  if io_timed_out e then
    with_cause ("the audit service did not respond within " +:+ fmt_N (as_millis (ac_timeout c)) +:+ " ms") (io_text e)
  else io_text e.

Definition reused : string := "the audit connection failed earlier and cannot be reused".

(** Exchanges are steps of a client and the world. *)
Abbreviation M := (Step (Client * W) string).

Definition in_world {X} (m : IO X) : M X := zoom snd (λ w s, (s.1, w)) m.
Definition the_client : M Client := s ← get; mret s.1.

(** Sending the request and receiving its response by the deadline. *)
Definition talk (c : Client) (deadline : N) (request : ClientRequest V) : M ServerResponse := λ s,
  match (send c deadline request;; receive c deadline) s.2 with
  | (w, Done response) => ((c, w), Done response)
  | (w, Fail e) => ((set_failed c, w), Fail (exchange_error c e))
  | (w, Panic) => ((c, w), Panic)
  end.

Definition exchange (request : ClientRequest V) : M ServerResponse :=
  c ← the_client;
  if ac_failed c then throw reused
  else
    now ← in_world (ask instant);
    talk c (now + ac_timeout c)%N request.

Definition client_new (reader writer : Conn) (timeout : N) : Client := {|
  ac_session_id := ""; ac_signing_key_id := ""; ac_reader := reader; ac_writer := writer; ac_timeout := timeout;
  ac_failed := false |}.

Definition opened (c : Client) (session_id signing_key_id : string) : Client := {|
  ac_session_id := session_id; ac_signing_key_id := signing_key_id; ac_reader := ac_reader c;
  ac_writer := ac_writer c; ac_timeout := ac_timeout c; ac_failed := ac_failed c |}.

Definition other_build (version : N) : string :=
  "audit service speaks protocol " +:+ fmt_N version +:+ " but this client requires " +:+ fmt_N AUDIT_PROTOCOL_VERSION +:+
  "; the running xshell-auditd is a different build — restart xshell-auditd from the same build".

Definition unexpected (what : string) (response : ServerResponse) : string :=
  "unexpected audit " +:+ what +:+ " response: " +:+ debug_response response.

Definition handshake (client_version : string) : M () :=
  response ← exchange (ReqOpen AUDIT_PROTOCOL_VERSION client_version);
  match response with
  | RespOpened version session_id signing_key_id =>
      if bool_decide (version = AUDIT_PROTOCOL_VERSION)
      then modify (λ s, (opened s.1 session_id signing_key_id, s.2)) else throw (other_build version)
  | RespError message => throw ("audit service rejected session: " +:+ message)
  | response => throw (unexpected "handshake" response)
  end.

(** [m] with a client of its own: the client it leaves. *)
Definition with_client (c : Client) (m : M ()) : IO Client := λ w,
  let '((c, w), r) := m (c, w) in (w, match r with Done _ => Done c | Fail e => Fail e | Panic => Panic end).

Definition connect_with_timeout (socket client_version : string) (timeout : N) : IO Client :=
  stream ← call_value ("cannot connect to audit service at " +:+ socket) (socket_connect socket);
  set_close_on_exec stream;;
  writer ← call_value "cannot clone audit socket" (clone_socket stream);
  set_close_on_exec writer;;
  with_client (client_new stream writer timeout) (handshake client_version).

Definition connect (socket client_version : string) : IO Client :=
  connect_with_timeout socket client_version DEFAULT_EXCHANGE_TIMEOUT.

Definition client_append (event : AuditEvent V) : M (N * string) :=
  response ← exchange (ReqAppend event);
  match response with
  | RespAck sequence record_hash => mret (sequence, record_hash)
  | RespError message => throw ("audit append failed: " +:+ message)
  | response => throw (unexpected "append" response)
  end.

(** The client is consumed. *)
Definition client_close : M AuditCheckpoint :=
  response ← exchange ReqClose;
  match response with
  | RespClosed checkpoint => mret checkpoint
  | RespError message => throw ("audit close failed: " +:+ message)
  | response => throw (unexpected "close" response)
  end.

Definition probe (socket client_version : string) : IO () :=
  c ← connect_with_timeout socket client_version PROBE_TIMEOUT;
  with_client c (client_close;; mret ());; mret ().
End client.

(** ** The connections of the daemon *)

Record SessionAuditDescriptor := {
  da_name : string;
  da_host_id : string;
  da_host_alias : string;
  da_user : string;
}.

Inductive Connection (Conn : Type) : Type :=
| CxUnopened
| CxOpen (client : AuditClient Conn)
| CxFailed (at_ : N)
| CxClosed.
Arguments CxUnopened {Conn}.
Arguments CxOpen {Conn}.
Arguments CxFailed {Conn}.
Arguments CxClosed {Conn}.

Record SessionAudit (Conn : Type) := {
  sa_session_id : string;
  sa_descriptor : SessionAuditDescriptor;
  sa_state : Connection Conn;
}.
Arguments sa_session_id {Conn}.
Arguments sa_descriptor {Conn}.
Arguments sa_state {Conn}.

Record AuditInner (Conn : Type) := {
  config : AuditConfig;
  entries : list (SessionAudit Conn);
  table : gmap string nat;
}.
Arguments config {Conn}.
Arguments entries {Conn}.
Arguments table {Conn}.
Arguments Build_AuditInner {Conn}.

Definition ATTACH_ACTION : string := "xshelld_execution".
Definition RESUME_ACTION : string := "xshelld_execution_resumed".

(** Warnings on standard error, and the order a hash map is drained in. *)
Class AuditHost (W : Type) := {
  warn : string → W → W;
  drain_order : list (string * nat) → W → list (string * nat) * W;
}.

Section audit.
Context {V W Conn : Type} `{!AuditSocket V W Conn, !AuditHost W}.
Context (client_version : string).
Abbreviation Session := (SessionAudit Conn).
Abbreviation IO := (Step W string).
Abbreviation SM := (Step (Session * W) string).

Definition no_socket : string := "audit.socket is required when auditing is enabled".
Definition the_socket (c : AuditConfig) : IO string :=
  match socket c with Some s => mret s | None => throw no_socket end.

(** ** One session *)

Definition set_state (state : Connection Conn) (s : Session) : Session := {|
  sa_session_id := sa_session_id s; sa_descriptor := sa_descriptor s; sa_state := state |}.

Definition in_state (state : Connection Conn) : SM () := modify (λ s, (set_state state s.1, s.2)).
Definition world_step {X} (m : IO X) : SM X := zoom snd (λ w s, (s.1, w)) m.
Definition warning (text : string) : SM () := world_step (modify (warn text)).
Definition the_state : SM (Connection Conn) := s ← get; mret (sa_state s.1).

Definition attached_event (c : AuditConfig) (s : Session) (action : string) : AuditEvent V :=
  EvLogicalSessionAttached action (sa_session_id s) (da_name (sa_descriptor s)) (da_host_id (sa_descriptor s))
    (da_host_alias (sa_descriptor s)) (da_user (sa_descriptor s)) (Some (terminal_stream c)).

Definition open_client (c : AuditConfig) (s : Session) (action : string) : IO (AuditClient Conn) :=
  path ← the_socket c;
  client ← connect_with_timeout path client_version (from_millis (ack_timeout c));
  with_client client (client_append (attached_event c s action);; mret ()).

Definition session_warning (s : Session) (error : string) : string :=
  "xshelld audit warning: session " +:+ sa_session_id s +:+ ": " +:+ error.

Definition fail_now : SM () := now ← world_step (ask instant); in_state (CxFailed now).

Definition open (c : AuditConfig) (action : string) : SM () :=
  s ← get;
  handle (world_step (open_client c s.1 action)) (λ client, in_state (CxOpen client))
    (λ error, warning (session_warning s.1 error);; fail_now).

(** The connection is opened if it is to be. *)
Definition ensure_open (c : AuditConfig) (state : Connection Conn) : SM () :=
  match state with
  | CxUnopened => open c ATTACH_ACTION
  | CxFailed at_ =>
      now ← world_step (ask instant);
      if (from_millis (ack_timeout c) <=? now - at_)%N then open c RESUME_ACTION else mret ()
  | _ => mret ()
  end.

(** An exchange on the open connection. *)
Definition on_client {X} (client : AuditClient Conn) (m : Step (AuditClient Conn * W) string X) : SM X := λ s,
  let '((client, w), r) := m (client, s.2) in ((set_state (CxOpen client) s.1, w), r).

Definition not_required : string := "required auditing is unavailable for this session".
Definition refused : string := "required audit append failed; refusing to continue the audited action".

Definition append (c : AuditConfig) (event : AuditEvent V) : SM () :=
  state ← the_state;
  match state with
  | CxClosed => mret ()
  | _ =>
      ensure_open c state;;
      state ← the_state;
      match state with
      | CxOpen client =>
          handle (on_client client (client_append event)) (λ _, mret ())
            (λ error,
              s ← get;
              fail_now;;
              if required c then throw (with_cause refused error)
              else warning (session_warning s.1 error +:+ "; records are dropped until the audit service responds again"))
      | _ => if required c then throw not_required else mret ()
      end
  end.

Definition close (reason : string) : SM () :=
  state ← the_state;
  in_state CxClosed;;
  match state with
  | CxOpen client =>
      handle (world_step (with_client client (client_append (EvSessionEnded reason);; client_close;; mret ())))
        (λ _, mret ()) (λ error, warning ("xshelld audit warning: could not finalize audit: " +:+ error))
  | _ => mret ()
  end.

(** ** The daemon *)

(** [None] is auditing that is disabled. *)
Definition DaemonAudit : Type := option (AuditInner Conn).
Abbreviation D := (DaemonAudit * W)%type.

Definition PROBE_REASON : string := "xshelld audit probe".

Definition from_config (c : AuditConfig) : IO DaemonAudit :=
  if negb (enabled c) then mret None
  else
    path ← the_socket c;
    (if required c then
       client ← handle (connect_with_timeout path client_version (from_millis (ack_timeout c))) mret
         (λ error, throw (with_cause "required auditing is unavailable; xshelld will not start" error));
       with_client client (client_append (EvSessionEnded PROBE_REASON);; client_close;; mret ());; mret ()
     else mret ());;
    mret (Some (Build_AuditInner c [] ∅)).

Definition is_enabled (d : DaemonAudit) : bool := bool_decide (is_Some d).
Definition is_required (d : DaemonAudit) : bool := from_option (λ inner, required (config inner)) false d.

(** [TerminalStreamPolicy]: the limit, if there is one. *)
Definition stream_policy (d : DaemonAudit) : option (option N) :=
  inner ← d;
  if terminal_stream (config inner) then
    Some (if (terminal_stream_max_bytes (config inner) =? 0)%N then None else Some (terminal_stream_max_bytes (config inner)))
  else None.

(** A step on an entry. *)
Definition on_entry {X} (inner : AuditInner Conn) (i : nat) (m : SM X) (w : W) : AuditInner Conn * W * Outcome string X :=
  match entries inner !! i with
  | Some s =>
      let '((s, w), r) := m (s, w) in
      (Build_AuditInner (config inner) (<[i := s]> (entries inner)) (table inner), w, r)
  | None => (inner, w, Panic)
  end.

Definition session_new (session_id : string) (descriptor : SessionAuditDescriptor) : Session := {|
  sa_session_id := session_id; sa_descriptor := descriptor; sa_state := CxUnopened |}.

(** [entry(..).or_insert_with(..)]. *)
Definition find_entry (session_id : string) (descriptor : SessionAuditDescriptor) (inner : AuditInner Conn) : nat * AuditInner Conn :=
  match table inner !! session_id with
  | Some i => (i, inner)
  | None =>
      let i := length (entries inner) in
      (i, Build_AuditInner (config inner) (entries inner ++ [session_new session_id descriptor])
            (<[session_id := i]> (table inner)))
  end.

Definition open_unopened (c : AuditConfig) : SM () :=
  state ← the_state; match state with CxUnopened => open c ATTACH_ACTION | _ => mret () end.

(** The handle: the entry, if auditing is enabled. *)
Definition session (session_id : string) (descriptor : SessionAuditDescriptor) : Step D string (option nat) := λ s,
  match s with
  | (None, w) => ((None, w), Done None)
  | (Some inner, w) =>
      let '(i, inner) := find_entry session_id descriptor inner in
      let '(inner, w, r) := on_entry inner i (open_unopened (config inner)) w in
      ((Some inner, w), match r with Done _ => Done (Some i) | Fail e => Fail e | Panic => Panic end)
  end.

Definition handle_append (h : option nat) (event : AuditEvent V) : Step D string () := λ s,
  match h, s with
  | Some i, (Some inner, w) =>
      let '(inner, w, r) := on_entry inner i (append (config inner) event) w in ((Some inner, w), r)
  | _, s => (s, Done ())
  end.

Definition audit_session_id (session_id : string) (d : DaemonAudit) : option string :=
  inner ← d; i ← table inner !! session_id; s ← entries inner !! i;
  match sa_state s with CxOpen client => Some (ac_session_id client) | _ => None end.

Definition close_entry (reason : string) (i : nat) : Step D string () := λ s,
  match s with
  | (Some inner, w) => let '(inner, w, r) := on_entry inner i (close reason) w in ((Some inner, w), r)
  | s => (s, Done ())
  end.

Definition set_table (f : gmap string nat → gmap string nat) (d : DaemonAudit) : DaemonAudit :=
  (λ inner, Build_AuditInner (config inner) (entries inner) (f (table inner))) <$> d.

Definition close_session (session_id reason : string) : Step D string () :=
  s ← get;
  match s.1 with
  | None => mret ()
  | Some inner =>
      modify (λ s, (set_table (delete session_id) s.1, s.2));;
      match table inner !! session_id with Some i => close_entry reason i | None => mret () end
  end.

(** The threads of [close_all], one after another in some order. *)
Fixpoint close_entries (reason : string) (l : list (string * nat)) : Step D string () :=
  match l with [] => mret () | (_, i) :: l => close_entry reason i;; close_entries reason l end.

Definition close_all (reason : string) : Step D string () :=
  s ← get;
  match s.1 with
  | None => mret ()
  | Some inner =>
      modify (λ s, (set_table (λ _, ∅) s.1, s.2));;
      drained ← ask (λ s, let '(l, w) := drain_order (map_to_list (table inner)) s.2 in (l, (s.1, w)));
      close_entries reason drained
  end.
End audit.
