(* ===== verification/SessionAuditSpec.v ===== *)
(** What the daemon's audit connections promise ([SessionAudit]): with required
    auditing an action goes on only when its record was acknowledged; a service
    that is down costs one attempt in a while; nothing reopens what was closed. *)
From Stdlib Require Import Ascii.
From S2P Require Import Prelude Effects Budget AuditModel SessionAudit.

Section spec.
Context {V W Conn : Type} `{!AuditSocket V W Conn, !AuditHost W}.
Context (client_version : string).
Implicit Types (s : SessionAudit Conn) (w : W) (c : AuditConfig) (client : AuditClient Conn) (inner : AuditInner Conn).

Lemma wp_total {S E X} (m : Step S E X) Q R x : wp m Q R x → (m x).2 ≠ Panic.
Proof. unfold wp. by destruct (m x) as [x' [a|e|]]. Qed.

(** ** Exchanges *)

Lemma send_receive_total client deadline request w :
  ((send client deadline request;; receive client deadline) w).2 ≠ Panic.
Proof.
  assert (wp (send (V := V) client deadline request;; receive client deadline) (λ _ _, True) (λ _ _, True) w) as Hw.
  { unfold send, receive, io_call. rewrite wp_bind, wp_bind, wp_bind, wp_ask. destruct (write_request _ _ _ w).1; [done|].
    rewrite wp_ret, wp_bind, wp_bind, wp_ask. destruct (write_line_feed _ _ _).1; [done|].
    rewrite wp_ret, wp_bind, wp_ask. destruct (flush _ _).1; [done|]. rewrite wp_ret, wp_bind, wp_ask.
    destruct (read_until _ _ _ _).1 as [|bytes]; [done|]. rewrite wp_bind, wp_ensure. destruct (negb _); [|done].
    rewrite wp_bind, wp_ensure. destruct (negb _); [|done]. by destruct (response_from_slice bytes). }
  by eapply wp_total.
Qed.

(** A connection that failed is not used; one that is used and does not fail is
    left as it was. *)
Lemma exchange_cases client request w :
  (ac_failed client = true ∧ exchange request (client, w) = ((client, w), Fail reused)) ∨
  (ac_failed client = false ∧ ∃ w', (∃ response, exchange request (client, w) = ((client, w'), Done response)) ∨
    ∃ e, exchange request (client, w) = ((set_failed client, w'), Fail e)).
Proof.
  assert (exchange request (client, w) = if ac_failed client then ((client, w), Fail reused)
    else talk client ((instant w).1 + ac_timeout client) request (client, (instant w).2)) as ->.
  { unfold exchange, the_client, in_world, zoom, ask, mbind, Step_bind. simpl. destruct (ac_failed client); [done|].
    cbn [fst snd]. by destruct (instant w). }
  destruct (ac_failed client); [by left|]. right. split; [done|]. unfold talk. cbn [snd].
  pose proof (send_receive_total client ((instant w).1 + ac_timeout client) request (instant w).2) as Ht. revert Ht.
  generalize ((send client ((instant w).1 + ac_timeout client) request;; receive client ((instant w).1 + ac_timeout client)) (instant w).2).
  intros [w2 [response|e|]] Ht; [..|done].
  - exists w2. left. by exists response.
  - exists w2. right. by eexists.
Qed.

(** What a record that is acknowledged is: the exchange that sent it was
    answered by an acknowledgement. *)
Definition Acknowledged client (event : AuditEvent V) w client' w' : Prop :=
  ∃ sequence record_hash, exchange (ReqAppend event) (client, w) = ((client', w'), Done (RespAck sequence record_hash)).

Lemma client_append_cases client event w :
  ∃ client' w', (∃ ack, client_append event (client, w) = ((client', w'), Done ack) ∧ Acknowledged client event w client' w' ∧
      client' = client ∧ ac_failed client = false) ∨
    (∃ e, client_append event (client, w) = ((client', w'), Fail e)).
Proof.
  unfold client_append, Acknowledged, mbind, Step_bind.
  destruct (exchange_cases client (ReqAppend event) w) as [[Hf ->]|[Hf (w' & [[response ->]|[e ->]])]].
  - eexists _, _. right. by eexists.
  - eexists _, _. destruct response; [right; by eexists| |right; by eexists|right; by eexists].
    left. exists (sequence, record_hash). split_and!; [done|by eexists _, _|done..].
  - eexists _, _. right. by eexists.
Qed.

Lemma client_append_Done client event w client' w' ack :
  client_append event (client, w) = ((client', w'), Done ack) →
  Acknowledged client event w client' w' ∧ client' = client ∧ ac_failed client = false.
Proof.
  intros Hr. destruct (client_append_cases client event w) as (c1 & w1 & [(a & Ha & Hk & -> & Hf)|(e & He)]); [|congruence].
  rewrite Ha in Hr. injection Hr as <- <- _. done.
Qed.

(** ** A session *)

(** A session's identity does not change, and what is open has not failed. *)
Definition Same s s' : Prop := sa_session_id s' = sa_session_id s ∧ sa_descriptor s' = sa_descriptor s.
Definition Usable (state : Connection Conn) : Prop :=
  match state with CxOpen client => ac_failed client = false | _ => True end.
Definition opened_or_failed (state : Connection Conn) : Prop :=
  match state with CxOpen client => ac_failed client = false | CxFailed _ => True | _ => False end.

Lemma with_client_Done client (m : Step (AuditClient Conn * W) string ()) w w' client' :
  with_client client m w = (w', Done client') → m (client, w) = ((client', w'), Done ()).
Proof. unfold with_client. destruct (m (client, w)) as [[c1 w1] [[]|e|]]; naive_solver. Qed.

Lemma with_client_total client (m : Step (AuditClient Conn * W) string ()) w :
  (m (client, w)).2 ≠ Panic → (with_client client m w).2 ≠ Panic.
Proof. unfold with_client. by destruct (m (client, w)) as [[c1 w1] [[]|e|]]. Qed.

Lemma client_append_total client event w : (client_append event (client, w)).2 ≠ Panic.
Proof. destruct (client_append_cases client event w) as (c1 & w1 & [(a & -> & _)|(e & ->)]); done. Qed.

Lemma bind_total' {S A B} (m : Step S string A) (k : A → Step S string B) x :
  (m x).2 ≠ Panic → (∀ a x', m x = (x', Done a) → (k a x').2 ≠ Panic) → ((m ≫= k) x).2 ≠ Panic.
Proof. unfold mbind, Step_bind. destruct (m x) as [x' [a|e|]]; [|done..]. intros _ Hk. by apply Hk. Qed.

Lemma call_total context f w : (call (W := W) context f w).2 ≠ Panic.
Proof. unfold call, ask, mbind, Step_bind. destruct (f w) as [[e|] w']; done. Qed.
Lemma call_value_total {X} context (f : W → (string + X) * W) w : (call_value context f w).2 ≠ Panic.
Proof. unfold call_value, ask, mbind, Step_bind. destruct (f w) as [[e|x] w']; done. Qed.

Lemma handshake_total client w : (handshake (V := V) client_version (client, w)).2 ≠ Panic.
Proof.
  unfold handshake, mbind, Step_bind.
  destruct (exchange_cases client (ReqOpen AUDIT_PROTOCOL_VERSION client_version) w) as [[Hf ->]|[Hf (w' & [[response ->]|[e ->]])]];
    [done| |done]. destruct response; try done. by case_bool_decide.
Qed.

Lemma connect_total path timeout w : (connect_with_timeout (V := V) path client_version timeout w).2 ≠ Panic.
Proof.
  unfold connect_with_timeout, set_close_on_exec. apply bind_total'; [apply call_value_total|]. intros stream w1 _.
  apply bind_total'; [apply bind_total'; [apply call_total|intros; apply call_total]|]. intros [] w2 _.
  apply bind_total'; [apply call_value_total|]. intros writer w3 _.
  apply bind_total'; [apply bind_total'; [apply call_total|intros; apply call_total]|]. intros [] w4 _.
  apply with_client_total, handshake_total.
Qed.

Lemma open_client_total c s action w : (open_client (V := V) client_version c s action w).2 ≠ Panic.
Proof.
  unfold open_client, the_socket. apply bind_total'; [by destruct (socket c)|]. intros path w1 _.
  apply bind_total'; [apply connect_total|]. intros client w2 _. apply with_client_total.
  apply bind_total'; [apply client_append_total|done].
Qed.

Lemma open_client_Done c s action w w' client :
  open_client (V := V) client_version c s action w = (w', Done client) → ac_failed client = false.
Proof.
  unfold open_client. rewrite step_bind_Done. intros (path & w1 & _ & H). apply step_bind_Done in H as (c1 & w2 & _ & H).
  apply with_client_Done in H. apply step_bind_Done in H as (ack & [c2 w3] & H & [= <- <-]).
  by apply client_append_Done in H as (_ & -> & Hf).
Qed.

Lemma wp_fail_now s w (Q : () → SessionAudit Conn * W → Prop) R :
  Q () (set_state (CxFailed (instant w).1) s, (instant w).2) → wp fail_now Q R (s, w).
Proof. intros HQ. unfold fail_now, world_step, in_state. rewrite wp_bind, wp_zoom, wp_ask, wp_modify. exact HQ. Qed.

Lemma wp_open c action s w :
  wp (open client_version c action) (λ _ x, Same s x.1 ∧ opened_or_failed (sa_state x.1)) (λ _ _, False) (s, w).
Proof.
  unfold open. rewrite wp_bind, wp_get, wp_handle. unfold world_step at 1. rewrite wp_zoom. unfold wp at 1.
  pose proof (open_client_total c s action w) as Ht. simpl.
  destruct (open_client _ _ _ _ w) as [w1 [client|e|]] eqn:Ho; [| |done].
  - unfold in_state. rewrite wp_modify. split; [done|]. simpl. by apply open_client_Done in Ho.
  - unfold warning, world_step. rewrite wp_bind, wp_zoom, wp_modify. by apply wp_fail_now.
Qed.

(** Opening before a record: what was closed is not asked for. *)
Lemma wp_ensure_open c s w :
  sa_state s ≠ CxClosed → Usable (sa_state s) →
  wp (ensure_open client_version c (sa_state s)) (λ _ x, Same s x.1 ∧ opened_or_failed (sa_state x.1)) (λ _ _, False) (s, w).
Proof.
  intros Hn Hu. unfold ensure_open. destruct (sa_state s) as [|client|at_|] eqn:Hs; [apply wp_open| | |done].
  - rewrite wp_ret. simpl. by rewrite Hs.
  - unfold world_step. rewrite wp_bind, wp_zoom, wp_ask. case_match; [apply wp_open|]. rewrite wp_ret. simpl. by rewrite Hs.
Qed.

(** What a record does, in every case: nothing when the session is closed; or
    it is acknowledged, by the last exchange there was; or the connection is
    given up, and with required auditing the action is refused. *)
Definition Recorded c s (event : AuditEvent V) w s' w' : Prop :=
  ∃ s1 client w1, ensure_open client_version c (sa_state s) (s, w) = ((s1, w1), Done ()) ∧ sa_state s1 = CxOpen client ∧
    Acknowledged client event w1 client w' ∧ s' = set_state (CxOpen client) s1.

Lemma append_cases c s event w :
  Usable (sa_state s) →
  wp (append client_version c event)
    (λ _ x, Same s x.1 ∧ ((sa_state s = CxClosed ∧ x = (s, w)) ∨
      (sa_state s ≠ CxClosed ∧ Usable (sa_state x.1) ∧ sa_state x.1 ≠ CxClosed ∧
        (Recorded c s event w x.1 x.2 ∨ (required c = false ∧ ∃ at_, sa_state x.1 = CxFailed at_)))))
    (λ _ x, Same s x.1 ∧ required c = true ∧ sa_state s ≠ CxClosed ∧ ∃ at_, sa_state x.1 = CxFailed at_) (s, w).
Proof.
  intros Hu. unfold append, the_state. rewrite wp_bind, wp_bind, wp_get, wp_ret. simpl.
  assert (sa_state s = CxClosed ∨ sa_state s ≠ CxClosed) as [Hc|Hn] by (destruct (sa_state s); naive_solver).
  { rewrite Hc, wp_ret. split; [done|by left]. }
  set (rest := (ensure_open client_version c (sa_state s);; _) : Step (SessionAudit Conn * W) string ()).
  replace (match sa_state s with CxClosed => mret () | _ => rest end) with rest by by destruct (sa_state s).
  unfold rest. destruct (wp_run _ _ _ _ (wp_ensure_open c s w Hn Hu)) as ([s1 w1] & [([] & Hrun & Hsame & Hof)|(e & _ & [])]).
  rewrite wp_bind. unfold wp at 1. rewrite Hrun. cbn [fst] in Hsame, Hof. rewrite wp_bind, wp_bind, wp_get, wp_ret. cbn [fst].
  destruct (sa_state s1) as [|client|at_|] eqn:Hs1; [done| | |done].
  - rewrite wp_handle. unfold wp at 1, on_client. cbn [fst snd].
    destruct (client_append_cases client event w1) as (c2 & w2 & [(a & -> & Hk & -> & Hf)|(e & ->)]).
    + rewrite wp_ret. split; [done|]. right. cbn [fst snd]. split_and!; [done..|]. left. by exists s1, client, w1.
    + rewrite wp_bind, wp_get, wp_bind. apply wp_fail_now. destruct (required c) eqn:Hr.
      * rewrite wp_throw. split_and!; [done..|]. by eexists.
      * unfold warning, world_step. rewrite wp_zoom, wp_modify. split; [done|]. right. cbn [fst snd].
        split_and!; [done..|]. right. split; [done|]. by eexists.
  - destruct (required c) eqn:Hr.
    + rewrite wp_throw. split_and!; [done..|]. by eexists.
    + rewrite wp_ret. split; [done|]. right. cbn [fst snd]. rewrite Hs1. split_and!; [done..|]. right. split; [done|]. by eexists.
Qed.

(** While the last failure is recent, nothing is sent. *)
Lemma append_quiet c s event w at_ :
  sa_state s = CxFailed at_ → ((instant w).1 - at_ < from_millis (ack_timeout c))%N →
  append client_version c event (s, w) = ((s, (instant w).2), if required c then Fail not_required else Done ()).
Proof.
  intros Hs Hq. unfold append, the_state, ensure_open, world_step, zoom, ask, mbind, Step_bind, get. simpl. rewrite Hs. simpl.
  destruct (instant w) as [now w1]. simpl in *. rewrite (proj2 (N.leb_gt _ _)) by done. simpl. rewrite Hs.
  by destruct (required c).
Qed.

Lemma wp_close s reason w :
  wp (close (V := V) reason) (λ _ x, Same s x.1 ∧ sa_state x.1 = CxClosed) (λ _ _, False) (s, w).
Proof.
  unfold close, the_state, in_state. rewrite wp_bind, wp_bind, wp_get, wp_ret, wp_bind, wp_modify. cbn [fst snd].
  destruct (sa_state s) as [|client|at_|]; try by rewrite wp_ret.
  rewrite wp_handle. unfold world_step at 1. rewrite wp_zoom. unfold wp at 1. cbn [fst snd].
  set (m := (client_append _;; _) : Step (AuditClient Conn * W) string ()).
  assert ((with_client client m w).2 ≠ Panic) as Ht.
  { apply with_client_total. unfold m. apply bind_total'; [apply client_append_total|]. intros ack [c1 w1] _.
    apply bind_total'; [|done]. unfold client_close, mbind, Step_bind.
    destruct (exchange_cases c1 ReqClose w1) as [[_ ->]|[_ (w2 & [[response ->]|[e ->]])]]; [done|by destruct response|done]. }
  destruct (with_client client m w) as [w1 [c1|e|]]; [by rewrite wp_ret| |done].
  unfold warning, world_step. by rewrite wp_zoom, wp_modify.
Qed.

(** * The daemon *)

(** The table leads to sessions that are not closed, each under its id; what it
    does not lead to is closed, or one of the [P] that are being closed; and no
    connection in use has failed. *)
Record Sound (P : nat → Prop) inner : Prop := {
  sound_table id i : table inner !! id = Some i → ∃ s, entries inner !! i = Some s ∧ sa_session_id s = id ∧ sa_state s ≠ CxClosed;
  sound_rest i s : entries inner !! i = Some s → sa_state s = CxClosed ∨ table inner !! sa_session_id s = Some i ∨ P i;
  sound_usable i s : entries inner !! i = Some s → Usable (sa_state s);
}.

Definition nothing : nat → Prop := λ _, False.
Definition SoundAudit (d : DaemonAudit) : Prop := match d with Some inner => Sound nothing inner | None => True end.

(** Entries are never removed, keep their session, and stay closed. *)
Definition Grows inner inner' : Prop :=
  config inner' = config inner ∧
  ∀ i s, entries inner !! i = Some s → ∃ s', entries inner' !! i = Some s' ∧ Same s s' ∧ (sa_state s = CxClosed → s' = s).

#[export] Instance Grows_preorder : PreOrder Grows.
Proof.
  split; [by split; [done|]; intros i s Hi; exists s|]. intros inner inner1 inner2 [Hc H] [Hc' H'].
  split; [congruence|]. intros i s (s1 & Hi & [Hsid Hd] & Hclosed)%H.
  destruct (H' _ _ Hi) as (s2 & Hi2 & [Hsid2 Hd2] & Hclosed2). exists s2. split_and!; [done|split; congruence|].
  intros Hc0. rewrite <-(Hclosed Hc0) in Hc0 |- *. by rewrite Hclosed2.
Qed.

Definition GrowsAudit (d d' : DaemonAudit) : Prop :=
  match d, d' with Some inner, Some inner' => Grows inner inner' | None, None => True | _, _ => False end.

#[export] Instance GrowsAudit_preorder : PreOrder GrowsAudit.
Proof.
  split; [by intros [inner|]; simpl|]. intros [inner|] [inner1|] [inner2|]; simpl; [|done..]. by etrans.
Qed.

(** What a step may do to an entry. *)
Record Kept (P : nat → Prop) inner i s s' : Prop := {
  kept_same : Same s s';
  kept_usable : Usable (sa_state s');
  kept_closed : sa_state s = CxClosed → s' = s;
  kept_open id : table inner !! id = Some i → sa_state s' ≠ CxClosed;
  kept_rest : sa_state s' = CxClosed ∨ table inner !! sa_session_id s = Some i ∨ P i;
}.

Lemma on_entry_sound {X} P P' inner i s (m : Step (SessionAudit Conn * W) string X) w inner' w' r :
  Sound P inner → (∀ j, P j → j = i ∨ P' j) → entries inner !! i = Some s →
  wp m (λ _ x, Kept P' inner i s x.1) (λ _ x, Kept P' inner i s x.1) (s, w) →
  on_entry inner i m w = (inner', w', r) →
  r ≠ Panic ∧ Sound P' inner' ∧ Grows inner inner' ∧ table inner' = table inner.
Proof.
  intros [Ht Hrest Hu] HP Hi Hm. unfold on_entry. rewrite Hi. destruct (wp_run _ _ _ _ Hm) as ([s1 w1] & Hx).
  assert (∃ r1, m (s, w) = ((s1, w1), r1) ∧ r1 ≠ Panic ∧ Kept P' inner i s s1) as (r1 & -> & Hr & [Hsame Hus Hcl Hopen Hk])
    by (destruct Hx as [(x & -> & Hx)|(e & -> & Hx)]; by eexists).
  intros [= <- <- <-]. assert (i < length (entries inner))%nat as Hlt by by eapply lookup_lt_Some.
  destruct Hsame as [Hid Hd]. split_and!; [done| | |done]; [split; simpl|split; [done|]; simpl].
  - intros id j Hj. destruct (decide (j = i)) as [->|Hne].
    + rewrite list_lookup_insert_eq by done. exists s1. split; [done|]. destruct (Ht _ _ Hj) as (s0 & Hs0 & Hid0 & _).
      rewrite Hi in Hs0. injection Hs0 as <-. split; [congruence|]. by eapply Hopen.
    + rewrite list_lookup_insert_ne by done. by apply Ht.
  - intros j s0. destruct (decide (j = i)) as [->|Hne]; [rewrite list_lookup_insert_eq by done|rewrite list_lookup_insert_ne by done].
    + intros [= <-]. by rewrite Hid.
    + intros [?|[?|[?|?]%HP]]%Hrest; naive_solver.
  - intros j s0. destruct (decide (j = i)) as [->|Hne]; [rewrite list_lookup_insert_eq by done|rewrite list_lookup_insert_ne by done].
    + by intros [= <-].
    + apply Hu.
  - intros j s0 Hj. destruct (decide (j = i)) as [->|Hne].
    + rewrite list_lookup_insert_eq by done. rewrite Hi in Hj. injection Hj as <-. by exists s1.
    + rewrite list_lookup_insert_ne by done. by exists s0.
Qed.

(** A step that leaves what is closed, and closes nothing. *)
Lemma kept_open_step P inner i s s' :
  Sound P inner → entries inner !! i = Some s → Same s s' → Usable (sa_state s') →
  (sa_state s = CxClosed → s' = s) → (sa_state s ≠ CxClosed → sa_state s' ≠ CxClosed) → Kept P inner i s s'.
Proof.
  intros [Ht Hrest _] Hi Hs Hu Hc Hn. split; [done..| |].
  - intros id Hid. apply Hn. destruct (Ht _ _ Hid) as (s0 & Hs0 & _ & Hn0). congruence.
  - destruct (Hrest _ _ Hi) as [Hcl|H]; [left|by right]. by rewrite Hc.
Qed.

Lemma entry_append_kept P inner i s event w :
  Sound P inner → entries inner !! i = Some s →
  wp (append client_version (config inner) event) (λ _ x, Kept P inner i s x.1) (λ _ x, Kept P inner i s x.1) (s, w).
Proof.
  intros Hs Hi. eapply wp_wand; [apply append_cases; by eapply sound_usable| |].
  - intros _ [s' w'] [Hsame [[Hc [= -> ->]]|(Hn & Hu & Hn' & _)]]; (apply kept_open_step; [done..| | |]); simpl in *; try done.
    by eapply sound_usable.
  - intros e [s' w'] (Hsame & _ & Hn & at_ & Ha); simpl in *. by apply kept_open_step; rewrite ?Ha.
Qed.

Lemma open_unopened_kept P inner i s w :
  Sound P inner → entries inner !! i = Some s →
  wp (open_unopened client_version (config inner)) (λ _ x, Kept P inner i s x.1) (λ _ _, False) (s, w).
Proof.
  intros Hs Hi. unfold open_unopened, the_state. rewrite wp_bind, wp_bind, wp_get, wp_ret. simpl.
  assert (Usable (sa_state s)) as Hu by by eapply sound_usable.
  destruct (sa_state s) eqn:Hst; try (rewrite wp_ret; simpl; apply kept_open_step; rewrite ?Hst; done).
  eapply wp_wand; [apply wp_open| |done]. intros _ [s' w'] [Hsame Ho]. simpl in *.
  apply kept_open_step; rewrite ?Hst; try done; by destruct (sa_state s').
Qed.

Lemma close_kept P inner i s reason w :
  (∀ id, table inner !! id ≠ Some i) →
  wp (close (V := V) reason) (λ _ x, Kept P inner i s x.1) (λ _ _, False) (s, w).
Proof.
  intros Hn. pose proof (wp_close s reason w) as Hw. eapply wp_wand; [exact Hw| |done].
  intros _ [s' w'] [[Hid Hd] Hc]. simpl in *. split; [done|by rewrite Hc| |by intros id Hid0%Hn|by left].
  intros Hcl. destruct s, s'; simpl in *. congruence.
Qed.

(** ** Histories *)

(** A handle a session was given: with auditing enabled there is an entry. *)
Definition held (h : option nat) (d : DaemonAudit (Conn := Conn)) : Prop :=
  match h, d with Some i, Some inner => is_Some (entries inner !! i) | None, None => True | _, _ => False end.

Inductive AuditOp : Type :=
| AoSession (session_id : string) (descriptor : SessionAuditDescriptor)
| AoAppend (h : option nat) (event : AuditEvent V)
| AoClose (session_id reason : string)
| AoCloseAll (reason : string).

Definition possible (op : AuditOp) (d : DaemonAudit (Conn := Conn)) : Prop :=
  match op with AoAppend h _ => held h d | _ => True end.

Definition run_op (op : AuditOp) : Step (DaemonAudit (Conn := Conn) * W) string () :=
  match op with
  | AoSession session_id descriptor => session client_version session_id descriptor;; mret ()
  | AoAppend h event => handle_append client_version h event
  | AoClose session_id reason => close_session (V := V) session_id reason
  | AoCloseAll reason => close_all (V := V) reason
  end.

(** One operation after another, the world going on between them. *)
Inductive AuditStep : DaemonAudit (Conn := Conn) * W → DaemonAudit (Conn := Conn) * W → Prop :=
| audit_op op x x' r : possible op x.1 → run_op op x = (x', r) → AuditStep x x'
| audit_world d w w' : AuditStep (d, w) (d, w').

(** What a daemon that started with auditing as in [c] comes to. *)
Definition Reach c (x : DaemonAudit * W) : Prop :=
  ∃ w0 w d, from_config (V := V) client_version c w0 = (w, Done d) ∧ rtc AuditStep (d, w) x.

(** The entries drained are those of the table. *)
Definition drains : Prop := ∀ l w, (drain_order l w).1 ≡ₚ l.

Lemma from_config_start c w0 w d :
  from_config (V := V) (Conn := Conn) client_version c w0 = (w, Done d) →
  d = (if enabled c then Some (Build_AuditInner c [] ∅) else None) .
Proof.
  unfold from_config. destruct (enabled c); simpl; [|by intros [= <- <-]].
  intros (path & w1 & _ & ([] & w2 & _ & [= <- <-])%step_bind_Done)%step_bind_Done. done.
Qed.

Lemma session_step session_id descriptor x x' r :
  SoundAudit x.1 → session client_version session_id descriptor x = (x', r) →
  r ≠ Panic ∧ SoundAudit x'.1 ∧ GrowsAudit x.1 x'.1.
Proof.
  destruct x as [[inner|] w]; [|by intros _ [= <- <-]]. simpl. intros Hs.
  destruct (find_entry session_id descriptor inner) as [i inner1] eqn:Hf.
  assert (∃ s, entries inner1 !! i = Some s ∧ Sound nothing inner1 ∧ Grows inner inner1) as (s & Hi & Hs1 & Hg).
  { unfold find_entry in Hf. destruct Hs as [Ht Hrest Hu]. destruct (table inner !! session_id) as [j|] eqn:Hj; injection Hf as <- <-.
    - destruct (Ht _ _ Hj) as (s & Hs & _). by exists s.
    - assert (∀ k s, entries inner !! k = Some s → (entries inner ++ [session_new session_id descriptor]) !! k = Some s) as Hk
        by (intros; by apply lookup_app_l_Some).
      eexists. split; [by apply list_lookup_middle|]. split; [|split; [done|]; intros k s0 Hk0; exists s0; split_and!; [by apply Hk|by split|done]].
      split; simpl.
      + intros id k [[<- <-]|[Hne (s & Hs & ?)%Ht]]%lookup_insert_Some; [eexists; by split; [by apply list_lookup_middle|]|].
        exists s. by auto.
      + intros k s [Hs|[Hlen Hs]]%lookup_app_Some.
        * destruct (Hrest _ _ Hs) as [?|[?|?]]; [by left| |by right; right]. right. left.
          rewrite lookup_insert_ne; [done|]. congruence.
        * apply list_lookup_singleton_Some in Hs as [Hz <-]. right. left. simpl. rewrite lookup_insert_eq. f_equal. lia.
      + intros k s [Hs|[_ Hs]]%lookup_app_Some; [by eapply Hu|]. by apply list_lookup_singleton_Some in Hs as [_ <-]. }
  destruct (on_entry inner1 i (open_unopened client_version (config inner1)) w) as [[inner2 w2] r2] eqn:Hon.
  eapply on_entry_sound in Hon as (Hr & Hs2 & Hg2 & _); [|exact Hs1|by right|exact Hi|].
  - intros [= <- <-]. simpl. split; [by destruct r2|]. split; [done|by etrans].
  - eapply wp_wand; [by apply open_unopened_kept|done|done].
Qed.

Lemma close_entry_sound (P P' : nat → Prop) inner i s reason w :
  Sound P inner → (∀ j, P j → j = i ∨ P' j) → entries inner !! i = Some s → (∀ id, table inner !! id ≠ Some i) →
  ∃ inner' w', close_entry (V := V) reason i (Some inner, w) = ((Some inner', w'), Done ()) ∧
    Sound P' inner' ∧ Grows inner inner' ∧ table inner' = table inner.
Proof.
  intros Hs HP Hi Hn. unfold close_entry. destruct (on_entry inner i _ w) as [[inner1 w1] r1] eqn:Hon.
  assert (r1 = Done ()) as ->.
  { unfold on_entry in Hon. rewrite Hi in Hon. destruct (wp_run _ _ _ _ (wp_close s reason w)) as ([s1 w2] & [([] & Hrun & _)|(e & _ & [])]).
    rewrite Hrun in Hon. congruence. }
  eapply on_entry_sound in Hon as (_ & Hs2 & Hg2 & Ht2); [|exact Hs|exact HP|exact Hi|].
  - by exists inner1, w1.
  - eapply wp_wand; [by apply (close_kept P')|done|done].
Qed.

Lemma close_entries_sound reason l inner w :
  table inner = ∅ → Sound (λ j, j ∈ l.*2) inner → Forall (λ p, is_Some (entries inner !! p.2)) l →
  ∃ inner' w', close_entries (V := V) reason l (Some inner, w) = ((Some inner', w'), Done ()) ∧
    Sound nothing inner' ∧ Grows inner inner' ∧ table inner' = ∅.
Proof.
  revert inner w. induction l as [|[id i] l IH]; intros inner w Ht Hs Hl.
  - exists inner, w. split_and!; [done| |done..]. destruct Hs as [Hs1 Hs2 Hs3]. split; [done| |done].
    intros i s [?|[?|[]%elem_of_nil]]%Hs2; auto.
  - apply Forall_cons in Hl as [[s Hi] Hl]. simpl in Hi.
    destruct (close_entry_sound _ (λ j, j ∈ l.*2) inner i s reason w Hs) as (inner1 & w1 & Hrun & Hs1 & Hg1 & Ht1);
      [by intros j [->|?]%elem_of_cons; auto|done|by intros id'; rewrite Ht|].
    destruct (IH inner1 w1) as (inner2 & w2 & Hrun2 & Hs2 & Hg2 & Ht2); [congruence|done| |].
    { eapply Forall_impl; [exact Hl|]. intros [id' k] [s' Hs']. simpl in *. apply (proj2 Hg1) in Hs' as (s1 & -> & _). by eexists. }
    exists inner2, w2. split_and!; [|done|by etrans|done]. simpl. unfold mbind, Step_bind. by rewrite Hrun.
Qed.

(** What an operation ends: a session's entry. *)
Definition ends (op : AuditOp) s : Prop :=
  match op with AoClose session_id _ => sa_session_id s = session_id | AoCloseAll _ => True | _ => False end.

Definition ended op inner' : Prop := ∀ i s, entries inner' !! i = Some s → ends op s → sa_state s = CxClosed.

Lemma close_session_step session_id reason inner w :
  Sound nothing inner →
  ∃ inner' w', close_session (V := V) session_id reason (Some inner, w) = ((Some inner', w'), Done ()) ∧
    Sound nothing inner' ∧ Grows inner inner' ∧ ended (AoClose session_id reason) inner'.
Proof.
  intros [Ht Hrest Hu]. set (inner1 := Build_AuditInner (config inner) (entries inner) (delete session_id (table inner))).
  assert (∀ inner', Sound nothing inner' → table inner' = table inner1 → ended (AoClose session_id reason) inner') as Hend.
  { intros inner' [_ Hrest' _] Ht' i s [?|[Hl|[]]]%Hrest' He; [done|]. simpl in He. rewrite Ht', He in Hl.
    simpl in Hl. by rewrite lookup_delete_eq in Hl. }
  assert (Sound (λ j, table inner !! session_id = Some j) inner1) as Hs1.
  { split; simpl; [by intros id i [_ Hi]%lookup_delete_Some; apply Ht| |done]. intros i s Hi.
    destruct (Hrest _ _ Hi) as [?|[Hl|[]]]; [by left|]. destruct (decide (sa_session_id s = session_id)) as [<-|Hne]; [by right; right|].
    right. left. by rewrite lookup_delete_ne. }
  unfold close_session, mbind, Step_bind, get, modify. simpl. fold inner1.
  destruct (table inner !! session_id) as [i|] eqn:Hl.
  - destruct (Ht _ _ Hl) as (s & Hi & Hid & _).
    destruct (close_entry_sound _ nothing inner1 i s reason w Hs1) as (inner2 & w2 & Hrun & Hs2 & Hg2 & Ht2);
      [intros j Hj; left; congruence|done| |].
    { intros id Hid'. simpl in Hid'. apply lookup_delete_Some in Hid' as [Hne Hi'].
      destruct (Ht _ _ Hi') as (s' & Hs' & <- & _). congruence. }
    exists inner2, w2. split_and!; [done..|]. by apply Hend.
  - assert (Sound nothing inner1) as Hs2.
    { destruct Hs1 as [? Hr ?]. split; [done| |done]. intros i s [?|[?|?]]%Hr; [by left|by right; left|congruence]. }
    exists inner1, w. split_and!; [done..| |by apply Hend]. split; [done|]. intros i s Hi. by exists s.
Qed.

Lemma close_all_step reason inner w :
  drains → Sound nothing inner →
  ∃ inner' w', close_all (V := V) reason (Some inner, w) = ((Some inner', w'), Done ()) ∧
    Sound nothing inner' ∧ Grows inner inner' ∧ ended (AoCloseAll reason) inner'.
Proof.
  intros Hd [Ht Hrest Hu]. set (inner1 := Build_AuditInner (config inner) (entries inner) ∅).
  set (drained := drain_order (map_to_list (table inner)) w). assert (drained.1 ≡ₚ map_to_list (table inner)) as Hp by apply Hd.
  destruct (close_entries_sound reason drained.1 inner1 drained.2) as (inner2 & w2 & Hrun & Hs2 & Hg2 & Ht2); [done| | |].
  - split; simpl; [done| |done]. intros i s Hi. destruct (Hrest _ _ Hi) as [?|[Hl|[]]]; [by left|]. right. right.
    rewrite Hp. apply list_elem_of_fmap. exists (sa_session_id s, i). split; [done|]. by apply elem_of_map_to_list.
  - apply Forall_forall. intros [id i] Hin. rewrite Hp in Hin. apply elem_of_map_to_list in Hin.
    destruct (Ht _ _ Hin) as (s & Hs & _). by exists s.
  - exists inner2, w2. split_and!; [|done|done|].
    + unfold close_all, mbind, Step_bind, get, modify, ask. simpl. fold inner1. fold drained.
      destruct drained as [l w1]. exact Hrun.
    + intros i s Hi _. destruct (sound_rest _ _ Hs2 _ _ Hi) as [?|[Hl|[]]]; [done|]. by rewrite Ht2 in Hl.
Qed.

(** * Every operation keeps the connections in order, and never panics. *)
Lemma run_op_sound op x x' r :
  drains → SoundAudit x.1 → possible op x.1 → run_op op x = (x', r) →
  r ≠ Panic ∧ SoundAudit x'.1 ∧ GrowsAudit x.1 x'.1 ∧ (∀ inner', x'.1 = Some inner' → ended op inner').
Proof.
  intros Hd Hs Hp. destruct op as [id desc|h event|id reason|reason]; cbn [run_op].
  - unfold mbind, Step_bind. destruct (session _ _ _ _) as [x1 r1] eqn:Hr. eapply session_step in Hr as (Hr & Hs1 & Hg); [|done].
    intros Hx. assert (r ≠ Panic ∧ x' = x1) as [? ->] by (by destruct r1; injection Hx as <- <-).
    split_and!; [done..|]. by intros inner' _ i s _ [].
  - destruct x as [[inner|] w], h as [i|]; simpl in *; try done; [|by intros [= <- <-]].
    destruct Hp as [s Hi]. destruct (on_entry inner i _ w) as [[inner1 w1] r1] eqn:Hon.
    eapply on_entry_sound in Hon as (Hr & Hs2 & Hg2 & _); [|exact Hs|by right|exact Hi|by apply entry_append_kept].
    intros [= <- <-]. split_and!; [done..|]. by intros inner' _ k s' _ [].
  - destruct x as [[inner|] w]; [|by intros [= <- <-]]. destruct (close_session_step id reason inner w) as (inner2 & w2 & Hx & ? & ? & ?); [done|].
    intros Hrun. pose proof (eq_trans (eq_sym Hx) Hrun) as [= <- <-]. split_and!; [done..|]. by intros inner' [= <-].
  - destruct x as [[inner|] w]; [|by intros [= <- <-]]. destruct (close_all_step reason inner w) as (inner2 & w2 & Hx & ? & ? & ?); [done..|].
    intros Hrun. pose proof (eq_trans (eq_sym Hx) Hrun) as [= <- <-]. split_and!; [done..|]. by intros inner' [= <-].
Qed.

Lemma steps_sound x x' : drains → SoundAudit x.1 → rtc AuditStep x x' → SoundAudit x'.1 ∧ GrowsAudit x.1 x'.1.
Proof.
  intros Hd Hs Hr. induction Hr as [x|x x1 x2 Hstep _ IH]; [done|].
  assert (SoundAudit x1.1 ∧ GrowsAudit x.1 x1.1) as [Hs1 Hg1].
  { destruct Hstep as [op x x1 r Hp Hrun|d w w']; [|done]. by eapply run_op_sound in Hrun as (_ & ? & ? & _). }
  destruct (IH Hs1) as [Hs2 Hg2]. split; [done|by etrans].
Qed.

Lemma reach_sound c x : drains → Reach c x → SoundAudit x.1.
Proof.
  intros Hd (w0 & w & d & ->%from_config_start & Hr). eapply steps_sound in Hr as [Hs _]; [done|done|].
  simpl. destruct (enabled c); [|done]. by split.
Qed.

Lemma reach_config c x inner : drains → Reach c x → x.1 = Some inner → config inner = c.
Proof.
  intros Hd (w0 & w & d & ->%from_config_start & Hr). eapply steps_sound in Hr as [_ Hg]; [|done|simpl; by destruct (enabled c)].
  intros Hx. rewrite Hx in Hg. simpl in Hg. destruct (enabled c); [|done]. by destruct Hg.
Qed.

Definition put_session (i : nat) s inner : AuditInner Conn :=
  Build_AuditInner (config inner) (<[i := s]> (entries inner)) (table inner).

(** ** The two promises *)

(** C15: Whatever happened before, a record never panics and touches nothing but
    its session's connection. It succeeds only when the session was closed, when
    the last exchange was the service acknowledging this very record, or when
    auditing is not required; it fails only when auditing is required, and the
    connection is then given up; and while a failure is recent, nothing is sent. *)
Theorem required_audit_is_acknowledged c inner w i s event d' w' r :
  drains → Reach c (Some inner, w) → entries inner !! i = Some s →
  handle_append client_version (Some i) event (Some inner, w) = ((d', w'), r) →
  ∃ s', d' = Some (put_session i s' inner) ∧
    match r with
    | Done _ =>
        (sa_state s = CxClosed ∧ s' = s ∧ w' = w) ∨ Recorded c s event w s' w' ∨
        (required c = false ∧ ∃ at_, sa_state s' = CxFailed at_)
    | Fail _ => required c = true ∧ sa_state s ≠ CxClosed ∧ ∃ at_, sa_state s' = CxFailed at_
    | Panic => False
    end ∧
    (∀ at_, sa_state s = CxFailed at_ → ((instant w).1 - at_ < from_millis (ack_timeout c))%N → s' = s ∧ w' = (instant w).2).
Proof.
  intros Hd Hr Hi. pose proof (reach_config _ _ _ Hd Hr eq_refl) as Hc. apply reach_sound in Hr as [_ _ Hu]; [|done].
  unfold handle_append, on_entry. rewrite Hi, Hc. pose proof (append_cases c s event w (Hu _ _ Hi)) as Hw.
  destruct (append client_version c event (s, w)) as [[s' w1] r1] eqn:Ha. intros [= <- <- <-]. exists s'.
  split; [unfold put_session; by rewrite Hc|]. split.
  - unfold wp in Hw. rewrite Ha in Hw. destruct r1 as [[]|e|]; [| |done].
    + destruct Hw as [_ [[Hcl [= -> ->]]|(_ & _ & _ & H)]]; [by left|by right].
    + by destruct Hw as [_ H].
  - intros at_ Hs Hq. rewrite (append_quiet _ _ _ _ at_ Hs Hq) in Ha. by injection Ha as <- <- _.
Qed.

(** Closing a session, or all of them at shutdown, cannot fail: afterwards
    every handle of what was closed drops its records - it sends nothing and
    changes nothing - whatever else happens, the session being opened again
    included. *)
Lemma closed_audit_stays_closed c inner w op x r i s :
  drains → Reach c (Some inner, w) → run_op op (Some inner, w) = (x, r) → entries inner !! i = Some s → ends op s →
  r = Done () ∧ ∀ x' event, rtc AuditStep x x' → handle_append client_version (Some i) event x' = (x', Done ()).
Proof.
  intros Hd Hr Hrun Hi He. apply reach_sound in Hr; [|done]. split.
  - destruct op as [| |id reason|reason]; try done; simpl in Hr.
    + destruct (close_session_step id reason inner w Hr) as (? & ? & Hx & _). pose proof (eq_trans (eq_sym Hx) Hrun). by simplify_eq.
    + destruct (close_all_step reason inner w Hd Hr) as (? & ? & Hx & _). pose proof (eq_trans (eq_sym Hx) Hrun). by simplify_eq.
  - intros x' event Hsteps. eapply run_op_sound in Hrun as (_ & Hs1 & Hg1 & Hend); [|done|done|by destruct op].
    eapply steps_sound in Hsteps as [Hs2 Hg2]; [|done|done].
    destruct x as [[inner1|] w1], x' as [[inner2|] w2]; try done. simpl in *.
    apply (proj2 Hg1) in Hi as (s1 & Hi1 & [Hid _] & _). assert (sa_state s1 = CxClosed) as Hcl.
    { eapply Hend; [done|done|]. destruct op; simpl in *; congruence. }
    apply (proj2 Hg2) in Hi1 as (s2 & Hi2 & _ & Hs12). rewrite Hs12 in Hi2 by done.
    unfold on_entry. rewrite Hi2. unfold append, the_state, mbind, Step_bind, get. simpl. rewrite Hcl. simpl.
    rewrite list_insert_id by done. by destruct inner2.
Qed.
End spec.

(** * Samples: a service that answers everything while it runs *)

Record SampleService := {
  ss_runs : bool;
  ss_clock : N;
  ss_answer : ascii;
}.

Definition sample_checkpoint : AuditCheckpoint := {|
  cp_body := {| cb_format_version := 1; cb_session_id := "audit-1"; cb_checkpoint_sequence := 1;
    cb_previous_checkpoint_hash := "h"; cb_sequence := 1; cb_daemon_timestamp_unix_ms := 0; cb_chain_head := "h";
    cb_signing_key_id := "key"; cb_final_checkpoint := true |};
  cp_blinding_nonce := ""; cp_witness := {| wc_scheme := "sha256"; wc_commitment := "" |};
  cp_signature := ""; cp_checkpoint_hash := "h" |}.

Definition sample_error : IoFailure := {| io_text := "broken pipe"; io_timed_out := false |}.

(** A request leaves the letter of its answer. *)
Definition sample_write (request : ClientRequest ()) (w : SampleService) : option IoFailure * SampleService :=
  if ss_runs w then
    (None, {| ss_runs := true; ss_clock := ss_clock w;
              ss_answer := match request with ReqOpen _ _ => "o" | ReqAppend _ => "a" | ReqClose => "c" end%char |})
  else (Some sample_error, w).

Definition sample_response (bytes : list ascii) : string + ServerResponse :=
  match bytes with
  | ["o"; _]%char => inr (RespOpened AUDIT_PROTOCOL_VERSION "audit-1" "key")
  | ["a"; _]%char => inr (RespAck 1 "h")
  | ["c"; _]%char => inr (RespClosed sample_checkpoint)
  | _ => inl "expected value"
  end.

#[local] Instance sample_socket : AuditSocket () SampleService () := {|
  instant w := (ss_clock w, w);
  socket_connect _ w := (if ss_runs w then inr () else inl "connection refused", w);
  clone_socket _ w := (inr (), w);
  get_descriptor_flags _ w := (None, w);
  set_descriptor_flags _ w := (None, w);
  write_request _ _ := sample_write;
  write_line_feed _ _ w := (None, w);
  flush _ w := (None, w);
  read_until _ _ _ w := (if ss_runs w then inr [ss_answer w; newline] else inl sample_error, w);
  response_from_slice := sample_response;
  debug_response _ := "";
|}.
#[local] Instance sample_audit_host : AuditHost SampleService := {| warn _ w := w; drain_order l w := (l, w) |}.

Definition sample_audit : AuditConfig := {|
  enabled := true; required := true; socket := Some "/run/xshell/audit.sock"; directory := None;
  config_checkpoint_interval := 64; terminal_stream := true; terminal_stream_max_bytes := 0; ack_timeout_ms := 5000 |}.
Definition sample_service (runs : bool) (clock : N) : SampleService := {| ss_runs := runs; ss_clock := clock; ss_answer := " "%char |}.
Definition sample_identity : SessionAuditDescriptor := {|
  da_name := "main"; da_host_id := "h-1"; da_host_alias := "laptop"; da_user := "ada" |}.
Definition sample_event : AuditEvent () := EvInput "shell" "cargo test".

(** A session that has its connection. *)
Definition sample_session : SessionAudit () := {|
  sa_session_id := "s-1"; sa_descriptor := sample_identity;
  sa_state := CxOpen {| ac_session_id := "audit-1"; ac_signing_key_id := "key"; ac_reader := (); ac_writer := ();
                        ac_timeout := 5000000000; ac_failed := false |} |}.
Definition sample_inner : AuditInner () := Build_AuditInner sample_audit [sample_session] {["s-1" := 0%nat]}.

Lemma sample_reached w : Reach (V := ()) "0.1.0" sample_audit (Some sample_inner, w).
Proof.
  exists (sample_service true 0). eexists _, _. split; [vm_compute; reflexivity|].
  eapply rtc_l; [apply (audit_world _ _ _ (sample_service true 0))|]. eapply rtc_l; [|apply rtc_once, audit_world].
  eapply (audit_op "0.1.0" (AoSession "s-1" sample_identity)); [done|]. vm_compute. reflexivity.
Qed.

Lemma sample_drains : drains (W := SampleService).
Proof. by intros l w. Qed.

(** The service runs: the record is acknowledged. It was stopped: the action is
    refused. *)
Lemma required_audit_is_acknowledged_witness :
  Recorded "0.1.0" sample_audit sample_session sample_event (sample_service true 9) sample_session
    {| ss_runs := true; ss_clock := 9; ss_answer := "a" |} ∧
  ∃ s' at_ e, handle_append "0.1.0" (Some 0%nat) sample_event (Some sample_inner, sample_service false 9) =
    ((Some (put_session 0 s' sample_inner), sample_service false 9), Fail e) ∧ sa_state s' = CxFailed at_.
Proof.
  pose proof (λ w, required_audit_is_acknowledged (V := ()) "0.1.0" sample_audit sample_inner w 0 sample_session sample_event) as H.
  split.
  - set (x := handle_append "0.1.0" (Some 0%nat) sample_event (Some sample_inner, sample_service true 9)).
    destruct (H (sample_service true 9) x.1.1 x.1.2 (Done ())) as (s' & Hd & [(Hc & _)|[Hr|(Hc & _)]] & _);
      [exact sample_drains|apply sample_reached|reflexivity|vm_compute; reflexivity|discriminate Hc| |discriminate Hc].
    assert (s' = sample_session) as -> by (vm_compute in Hd; by injection Hd). exact Hr.
  - set (x := handle_append "0.1.0" (Some 0%nat) sample_event (Some sample_inner, sample_service false 9)).
    destruct (H (sample_service false 9) x.1.1 x.1.2 (Fail (with_cause refused "broken pipe"))) as (s' & Hd & (_ & _ & at_ & Hs) & _);
      [exact sample_drains|apply sample_reached|reflexivity|vm_compute; reflexivity|].
    exists s', at_, (with_cause refused "broken pipe"). split; [|exact Hs]. rewrite <-Hd. vm_compute. reflexivity.
Defined.

(** The session is closed, and opened again: the old handle's records are dropped. *)
Lemma closed_audit_stays_closed_witness :
  ∃ x r x' , run_op "0.1.0" (AoClose (V := ()) "s-1" "the session was closed") (Some sample_inner, sample_service true 9) = (x, r) ∧ r = Done () ∧
    run_op "0.1.0" (AoSession (V := ()) "s-1" sample_identity) x = (x', Done ()) ∧
    handle_append "0.1.0" (Some 0%nat) sample_event x' = (x', Done ()).
Proof.
  set (op := AoClose (V := ()) "s-1" "the session was closed"). set (y := run_op "0.1.0" op (Some sample_inner, sample_service true 9)).
  destruct (closed_audit_stays_closed (V := ()) "0.1.0" sample_audit sample_inner (sample_service true 9) op y.1 y.2 0 sample_session) as [Hr Hdrop];
    [exact sample_drains|apply sample_reached|apply surjective_pairing|reflexivity|reflexivity|].
  eexists y.1, y.2, _. split; [apply surjective_pairing|]. split; [exact Hr|]. split; [vm_compute; reflexivity|]. apply Hdrop, rtc_once.
  eapply (audit_op "0.1.0" (AoSession "s-1" sample_identity)); [done|]. vm_compute. reflexivity.
Defined.
