(* ===== verification/SessionModel.v ===== *)
(** The data of logical sessions ([crates/xshell-session/src/model.rs]). [A]
    is the type of the JSON arguments of tool calls. A path is a string. *)
From S2P Require Import Prelude CallId Chat.

Definition SESSION_PROTOCOL_VERSION : N := 16.

Inductive PersistenceMode : Type := PersistEphemeral | PersistDaemon | PersistDurable.
Inductive Visibility : Type := HostOnly | Fabric.
Inductive AccessMode : Type := SingleUser | MultiUserReserved.
Inductive AttachmentRole : Type := Owner | Operator | Viewer.
Inductive SessionStatus : Type := Attached | Detached.
Inductive AgentTurnPhase : Type := PhaseRunning | PhaseWaitingApproval | PhaseStopping.

Inductive SessionActivity : Type :=
| ActIdle
| ActAgentTurn (turn_id : string) (phase : AgentTurnPhase)
| ActInteractiveProcess (command : string) (attached : bool).

Definition is_interactive_process (a : SessionActivity) : bool :=
  match a with ActInteractiveProcess _ _ => true | _ => false end.

#[export] Instance PersistenceMode_eq_dec : EqDecision PersistenceMode.
Proof. solve_decision. Defined.
#[export] Instance Visibility_eq_dec : EqDecision Visibility.
Proof. solve_decision. Defined.
#[export] Instance AccessMode_eq_dec : EqDecision AccessMode.
Proof. solve_decision. Defined.
#[export] Instance AttachmentRole_eq_dec : EqDecision AttachmentRole.
Proof. solve_decision. Defined.
#[export] Instance SessionStatus_eq_dec : EqDecision SessionStatus.
Proof. solve_decision. Defined.
#[export] Instance AgentTurnPhase_eq_dec : EqDecision AgentTurnPhase.
Proof. solve_decision. Defined.
#[export] Instance SessionActivity_eq_dec : EqDecision SessionActivity.
Proof. solve_decision. Defined.

(** What the deserialiser of [SessionActivity] reads: the names written by
    older daemons, or the tagged form. *)
Inductive LegacyActivity : Type := LegacyIdle | LegacyRunning | LegacyWaitingApproval.
Inductive ActivityRepresentation : Type :=
| ReprLegacy (a : LegacyActivity)
| ReprCurrent (a : SessionActivity).

Definition activity_deserialize (r : ActivityRepresentation) : SessionActivity :=
  match r with
  | ReprLegacy LegacyIdle => ActIdle
  | ReprLegacy LegacyRunning => ActAgentTurn "" PhaseRunning
  | ReprLegacy LegacyWaitingApproval => ActAgentTurn "" PhaseWaitingApproval
  | ReprCurrent a => a
  end.

Record ModelBinding := {
  mb_profile_name : option string;
  mb_provider : string;
  mb_model : string;
  mb_base_url : string;
  mb_api_key_env : option string;
  mb_max_history_bytes : option N;
  mb_context_tokens : option N;
  mb_reserve_output_tokens : option N;
}.

#[export] Instance ModelBinding_eq_dec : EqDecision ModelBinding.
Proof. solve_decision. Defined.

Record SessionDescriptor := {
  d_id : string;
  d_name : string;
  d_host_id : string;
  d_host_alias : string;
  d_user : string;
  d_model : ModelBinding;
  d_cwd : string;
  d_persistence : PersistenceMode;
  d_visibility : Visibility;
  d_access_mode : AccessMode;
  d_status : SessionStatus;
  d_activity : SessionActivity;
  d_attached_clients : N;
  d_created_at_unix_ms : N;
  d_last_active_at_unix_ms : N;
}.

(** Assignments to the fields the code changes. *)
Definition set_status (status : SessionStatus) (clients : N) (d : SessionDescriptor) : SessionDescriptor := {|
  d_id := d_id d; d_name := d_name d; d_host_id := d_host_id d; d_host_alias := d_host_alias d;
  d_user := d_user d; d_model := d_model d; d_cwd := d_cwd d; d_persistence := d_persistence d;
  d_visibility := d_visibility d; d_access_mode := d_access_mode d; d_status := status;
  d_activity := d_activity d; d_attached_clients := clients;
  d_created_at_unix_ms := d_created_at_unix_ms d; d_last_active_at_unix_ms := d_last_active_at_unix_ms d |}.

Definition set_activity (activity : SessionActivity) (d : SessionDescriptor) : SessionDescriptor := {|
  d_id := d_id d; d_name := d_name d; d_host_id := d_host_id d; d_host_alias := d_host_alias d;
  d_user := d_user d; d_model := d_model d; d_cwd := d_cwd d; d_persistence := d_persistence d;
  d_visibility := d_visibility d; d_access_mode := d_access_mode d; d_status := d_status d;
  d_activity := activity; d_attached_clients := d_attached_clients d;
  d_created_at_unix_ms := d_created_at_unix_ms d; d_last_active_at_unix_ms := d_last_active_at_unix_ms d |}.

Definition set_host (host_id host_alias user : string) (d : SessionDescriptor) : SessionDescriptor := {|
  d_id := d_id d; d_name := d_name d; d_host_id := host_id; d_host_alias := host_alias;
  d_user := user; d_model := d_model d; d_cwd := d_cwd d; d_persistence := d_persistence d;
  d_visibility := d_visibility d; d_access_mode := d_access_mode d; d_status := d_status d;
  d_activity := d_activity d; d_attached_clients := d_attached_clients d;
  d_created_at_unix_ms := d_created_at_unix_ms d; d_last_active_at_unix_ms := d_last_active_at_unix_ms d |}.

Definition set_model (model : ModelBinding) (d : SessionDescriptor) : SessionDescriptor := {|
  d_id := d_id d; d_name := d_name d; d_host_id := d_host_id d; d_host_alias := d_host_alias d;
  d_user := d_user d; d_model := model; d_cwd := d_cwd d; d_persistence := d_persistence d;
  d_visibility := d_visibility d; d_access_mode := d_access_mode d; d_status := d_status d;
  d_activity := d_activity d; d_attached_clients := d_attached_clients d;
  d_created_at_unix_ms := d_created_at_unix_ms d; d_last_active_at_unix_ms := d_last_active_at_unix_ms d |}.

Definition set_cwd (cwd : string) (d : SessionDescriptor) : SessionDescriptor := {|
  d_id := d_id d; d_name := d_name d; d_host_id := d_host_id d; d_host_alias := d_host_alias d;
  d_user := d_user d; d_model := d_model d; d_cwd := cwd; d_persistence := d_persistence d;
  d_visibility := d_visibility d; d_access_mode := d_access_mode d; d_status := d_status d;
  d_activity := d_activity d; d_attached_clients := d_attached_clients d;
  d_created_at_unix_ms := d_created_at_unix_ms d; d_last_active_at_unix_ms := d_last_active_at_unix_ms d |}.

Definition set_last_active (now : N) (d : SessionDescriptor) : SessionDescriptor := {|
  d_id := d_id d; d_name := d_name d; d_host_id := d_host_id d; d_host_alias := d_host_alias d;
  d_user := d_user d; d_model := d_model d; d_cwd := d_cwd d; d_persistence := d_persistence d;
  d_visibility := d_visibility d; d_access_mode := d_access_mode d; d_status := d_status d;
  d_activity := d_activity d; d_attached_clients := d_attached_clients d;
  d_created_at_unix_ms := d_created_at_unix_ms d; d_last_active_at_unix_ms := now |}.

Section session.
Context {A : Type}.

Record SessionSnapshot := {
  s_descriptor : SessionDescriptor;
  s_history : list (ChatMessage A);
}.

Record SessionCreation := {
  c_name : string;
  c_model : ModelBinding;
  c_cwd : string;
  c_persistence : PersistenceMode;
  c_visibility : Visibility;
  c_history : list (ChatMessage A);
}.

Definition on_descriptor (f : SessionDescriptor → SessionDescriptor) (s : SessionSnapshot) : SessionSnapshot :=
  {| s_descriptor := f (s_descriptor s); s_history := s_history s |}.

Definition set_history (history : list (ChatMessage A)) (s : SessionSnapshot) : SessionSnapshot :=
  {| s_descriptor := s_descriptor s; s_history := history |}.
End session.
Arguments SessionSnapshot : clear implicits.
Arguments SessionCreation : clear implicits.

Inductive TurnInput : Type :=
| TurnAgent (message : string)
| TurnShell (command : string).

(** Why a turn failed, when a client can act on it. *)
Inductive TurnFailureReason : Type := BudgetRanOut | AuditUnavailable.
