(* ===== verification/Registry.v ===== *)
(** The registry of logical sessions
    ([crates/xshell-session/src/registry.rs]): which sessions there are, who is
    attached to them, and what is kept of them in [sessions.json].

    The clock, fresh ids, directories, the replacement of the state file and
    the iteration order of hash maps are the class [SessionHost]; the JSON of
    the state file is the class [StateSerde]. The state file is written next to
    its place and renamed, so it is the old text or the new one. *)
From Stdlib Require Import Ascii.
From S2P Require Import Prelude CallId Chat Effects SessionModel.

Section data.
Context {A : Type}.

Record SessionRecord := {
  sr_snapshot : SessionSnapshot A;
  sr_attachments : gset string;
}.

Record DurableInFlight := {
  if_session_id : string;
  if_operation_id : string;
  if_route : string;
}.

Record DurableState := {
  ds_format_version : N;
  ds_sessions : list (SessionSnapshot A);
  ds_in_flight : list DurableInFlight;
}.

Record SessionRegistry := {
  host_id : string;
  host_alias : string;
  user : string;
  sessions : gmap string SessionRecord;
  in_flight : gmap string DurableInFlight;
}.
End data.
Arguments SessionRecord : clear implicits.
Arguments DurableState : clear implicits.
Arguments SessionRegistry : clear implicits.

Class StateSerde (A : Type) := {
  state_to_vec_pretty : DurableState A → option string;
  state_from_str : string → option (DurableState A);
}.

Class SessionHost (W : Type) := {
  system_time : W → option N * W;
  new_v4 : W → string * W;
  canonicalize : W → string → option string * W;
  is_dir : W → string → bool * W;
  read_dir : W → string → bool * W;
  secure_directory : W → bool * W;
  read_file : W → bool * W;
  replace_file : W → string → bool * W;
  map_order {B} : W → gmap string B → list (string * B);
}.

Section registry.
Context {A W : Type} `{!StateSerde A, !SessionHost W}.
Abbreviation Message := (ChatMessage A).
Abbreviation Snapshot := (SessionSnapshot A).
Abbreviation Creation := (SessionCreation A).
Abbreviation Record_ := (SessionRecord A).
Abbreviation Registry := (SessionRegistry A).

(** The state file's text, and the rest of the host. *)
Record Disk := {
  sessions_json : option string;
  world : W;
}.

Definition Io : Type → Type := Step Disk string.
Abbreviation IO := (Step Disk string).

Definition asking {B} (f : W → B * W) : IO B :=
  ask (λ d, let '(b, w) := f (world d) in (b, {| sessions_json := sessions_json d; world := w |})).

(** A failed system call, with this context. *)
Definition need {B} (o : option B) (message : string) : IO B :=
  match o with Some b => mret b | None => throw message end.

(** ** Helpers *)

Definition name_character (c : ascii) : bool :=
  is_ascii_alphanumeric c || bool_decide (c ∈ ["-"; "_"]%char).

Definition validate_name (name : string) : IO () :=
  ensure (negb (bool_decide (name = "") || (64 <? String.length name))%nat)
    "session names must contain 1 to 64 characters";;
  ensure (string_all name_character name)
    "session names may contain only ASCII letters, digits, '-' and '_'".

Definition timestamp_ms : IO N :=
  now ← asking system_time; need now "timestamp exceeds session format".

(** [xshell_execution::validate_working_directory]. *)
Definition validate_working_directory (path : string) : IO string :=
  resolved ← asking (λ w, canonicalize w path);
  resolved ← need resolved ("cannot resolve working directory " +:+ path);
  directory ← asking (λ w, is_dir w resolved);
  ensure directory ("working directory " +:+ resolved +:+ " is not a directory");;
  readable ← asking (λ w, read_dir w resolved);
  ensure readable ("working directory " +:+ resolved +:+ " is not accessible");;
  mret resolved.

(** The entries of a hash map, as it iterates over them now. *)
Definition iterate {B} (m : gmap string B) : IO (list (string * B)) :=
  d ← get; mret (map_order (world d) m).

Definition descriptor_with_status (r : Record_) : SessionDescriptor :=
  set_status (if bool_decide (sr_attachments r = ∅) then Detached else Attached)
    (N.of_nat (size (sr_attachments r)) mod 2 ^ 32)%N (s_descriptor (sr_snapshot r)).

Definition snapshot_with_status (r : Record_) : Snapshot :=
  on_descriptor (λ _, descriptor_with_status r) (sr_snapshot r).

Definition record_name (r : Record_) : string := d_name (s_descriptor (sr_snapshot r)).
Definition record_persistence (r : Record_) : PersistenceMode := d_persistence (s_descriptor (sr_snapshot r)).
Definition is_durable (r : Record_) : bool := bool_decide (record_persistence r = PersistDurable).

(** ** The state file *)

Definition at_rest (r : Record_) : Snapshot := on_descriptor (set_status Detached 0) (sr_snapshot r).

Definition durable_snapshots (l : list (string * Record_)) : list Snapshot :=
  sort_on (λ s, d_name (s_descriptor s)) (at_rest <$> filter (λ r, is_durable r = true) l.*2).

Definition persist (r : Registry) : IO () :=
  sessions ← iterate (sessions r);
  operations ← iterate (in_flight r);
  encoded ← need (state_to_vec_pretty {|
      ds_format_version := 1; ds_sessions := durable_snapshots sessions;
      ds_in_flight := sort_on if_session_id operations.*2 |}) "cannot encode session state";
  replaced ← asking (λ w, replace_file w encoded);
  ensure replaced "cannot write session state";;
  modify (λ d, {| sessions_json := Some encoded; world := world d |}).

(** ** Loading *)

Definition recovered_session (host_id host_alias user cwd : string) (s : Snapshot) : Snapshot :=
  on_descriptor (λ d, set_status Detached 0 (set_activity ActIdle
    (set_host host_id host_alias user (set_cwd cwd d)))) s.

Fixpoint load_sessions (host_id host_alias user : string) (names : gset string)
    (sessions : gmap string Record_) (l : list Snapshot) : IO (gmap string Record_) :=
  match l with
  | [] => mret sessions
  | snapshot :: l =>
      let name := d_name (s_descriptor snapshot) in
      let id := d_id (s_descriptor snapshot) in
      validate_name name;;
      cwd ← handle (validate_working_directory (d_cwd (s_descriptor snapshot))) mret
        (λ _, throw ("invalid working directory for durable session " +:+ debug_str name));
      ensure (bool_decide (d_persistence (s_descriptor snapshot) = PersistDurable))
        "non-durable session found in durable state";;
      ensure (bool_decide (name ∉ names)) "duplicate session name in durable state";;
      ensure (bool_decide (sessions !! id = None)) "duplicate session ID in durable state";;
      load_sessions host_id host_alias user ({[name]} ∪ names)
        (<[id := {| sr_snapshot := recovered_session host_id host_alias user cwd snapshot;
                    sr_attachments := ∅ |}]> sessions) l
  end.

Definition recovery_notice (operation : DurableInFlight) : string :=
  "[xshell recovery] outcome_unknown: " +:+ if_route operation +:+ " operation " +:+
  if_operation_id operation +:+
  " was interrupted before a terminal outcome was persisted; inspect external effects before retrying".

Definition recover (operation : DurableInFlight) (r : Record_) : Record_ :=
  let history := s_history (sr_snapshot r) in
  if bool_decide ((msg_content <$> last history) = Some (recovery_notice operation)) then r
  else {| sr_snapshot := set_history (history ++ [msg_system (recovery_notice operation)]) (sr_snapshot r);
          sr_attachments := sr_attachments r |}.

Fixpoint recover_in_flight (sessions : gmap string Record_) (l : list DurableInFlight) :
    IO (gmap string Record_) :=
  match l with
  | [] => mret sessions
  | operation :: l =>
      record ← need (sessions !! if_session_id operation)
        ("in-flight operation " +:+ debug_str (if_operation_id operation) +:+
         " references an unknown durable session");
      recover_in_flight (<[if_session_id operation := recover operation record]> sessions) l
  end.

Definition load (host_id host_alias user : string) : IO Registry :=
  secure ← asking secure_directory;
  ensure secure "insecure session state directory";;
  d ← get;
  '(sessions, recovered_in_flight) ←
    match sessions_json d with
    | None => mret (∅, false)
    | Some text =>
        readable ← asking read_file;
        ensure readable "cannot read session state";;
        state ← need (state_from_str text) "invalid session state";
        ensure (ds_format_version state =? 1)%N
          ("unsupported session state format " +:+ fmt_N (ds_format_version state));;
        sessions ← load_sessions host_id host_alias user ∅ ∅ (ds_sessions state);
        sessions ← recover_in_flight sessions (ds_in_flight state);
        mret (sessions, negb (bool_decide (ds_in_flight state = [])))
    end;
  let registry := {|
    host_id := host_id; host_alias := host_alias; user := user; sessions := sessions; in_flight := ∅ |} in
  (if recovered_in_flight : bool then persist registry else mret ());;
  mret registry.

(** ** Operations *)

Record Store := {
  registry : Registry;
  disk : Disk;
}.

Abbreviation M := (Step Store string).

Definition io {B} (m : IO B) : M B :=
  zoom disk (λ d st, {| registry := registry st; disk := d |}) m.

Definition the_registry : M Registry := st ← get; mret (registry st).

Definition set_sessions (f : gmap string Record_ → gmap string Record_) (r : Registry) : Registry := {|
  host_id := host_id r; host_alias := host_alias r; user := user r;
  sessions := f (sessions r); in_flight := in_flight r |}.
Definition set_in_flight (f : gmap string DurableInFlight → gmap string DurableInFlight) (r : Registry) :
    Registry := {|
  host_id := host_id r; host_alias := host_alias r; user := user r;
  sessions := sessions r; in_flight := f (in_flight r) |}.

Definition changing (f : Registry → Registry) : M () :=
  modify (λ st, {| registry := f (registry st); disk := disk st |}).

(** An assignment through the reference [sessions.get_mut(id)] returned. *)
Definition on_record (id : string) (f : Record_ → Record_) : M () := changing (set_sessions (alter f id)).
Definition on_snapshot (id : string) (f : Snapshot → Snapshot) : M () :=
  on_record id (λ r, {| sr_snapshot := f (sr_snapshot r); sr_attachments := sr_attachments r |}).
Definition on_attachments (id : string) (f : gset string → gset string) : M () :=
  on_record id (λ r, {| sr_snapshot := sr_snapshot r; sr_attachments := f (sr_attachments r) |}).

Definition persisting : M () := r ← the_registry; io (persist r).

Definition record_of (id : string) (message : string) : M Record_ :=
  r ← the_registry; io (need (sessions r !! id) message).

(** [expect("resolved session exists")]. *)
Definition expect_record (id : string) : M Record_ :=
  r ← the_registry; lift (expect (sessions r !! id)).

Definition unknown_session (id : string) : string := "unknown session " +:+ debug_str id.

Definition list_sessions : M (list SessionDescriptor) :=
  r ← the_registry;
  entries ← io (iterate (sessions r));
  mret (sort_on d_name (descriptor_with_status <$> entries.*2)).

Definition resolve (selector : string) : M string :=
  r ← the_registry;
  if bool_decide (is_Some (sessions r !! selector)) then mret selector
  else
    entries ← io (iterate (sessions r));
    match filter (λ e, record_name e.2 = selector) entries with
    | [(id, _)] => mret id
    | [] => throw (unknown_session selector)
    | _ => throw ("ambiguous session selector " +:+ debug_str selector)
    end.

Definition create (client_id : string) (creation : Creation) : M Snapshot :=
  io (validate_name (c_name creation));;
  cwd ← io (validate_working_directory (c_cwd creation));
  r ← the_registry;
  entries ← io (iterate (sessions r));
  ensure (negb (existsb (λ e, bool_decide (record_name e.2 = c_name creation)) entries))
    ("a session named " +:+ debug_str (c_name creation) +:+ " already exists on this host");;
  now ← io timestamp_ms;
  id ← io (asking new_v4);
  let snapshot := {|
    s_descriptor := {|
      d_id := id; d_name := c_name creation; d_host_id := host_id r; d_host_alias := host_alias r;
      d_user := user r; d_model := c_model creation; d_cwd := cwd; d_persistence := c_persistence creation;
      d_visibility := c_visibility creation; d_access_mode := SingleUser; d_status := Attached;
      d_activity := ActIdle; d_attached_clients := 1; d_created_at_unix_ms := now;
      d_last_active_at_unix_ms := now |};
    s_history := c_history creation |} in
  changing (set_sessions <[id := {| sr_snapshot := snapshot; sr_attachments := {[client_id]} |}]>);;
  persisting;;
  mret snapshot.

Definition attach (client_id selector : string) (role : AttachmentRole) : M Snapshot :=
  ensure (bool_decide (role = Owner))
    "operator and viewer roles are reserved for future multi-user sessions";;
  id ← resolve selector;
  record ← expect_record id;
  ensure (bool_decide (sr_attachments record = ∅) || bool_decide (client_id ∈ sr_attachments record))
    ("session " +:+ debug_str (record_name record) +:+ " already has an interactive controller");;
  on_attachments id (λ c, {[client_id]} ∪ c);;
  now ← io timestamp_ms;
  on_snapshot id (on_descriptor (set_last_active now));;
  record ← expect_record id;
  mret (snapshot_with_status record).

Definition detach (client_id session_id : string) : M (option string) :=
  r ← the_registry;
  match sessions r !! session_id with
  | None => mret None
  | Some _ =>
      on_attachments session_id (λ c, c ∖ {[client_id]});;
      record ← expect_record session_id;
      (if bool_decide (sr_attachments record = ∅) && bool_decide (record_persistence record = PersistEphemeral)
       then changing (set_sessions (delete session_id)) else mret ());;
      persisting;;
      mret (Some session_id)
  end.

Definition update (client_id session_id : string) (model : ModelBinding) (cwd : string)
    (history : list Message) : M SessionDescriptor :=
  cwd ← io (validate_working_directory cwd);
  record ← record_of session_id (unknown_session session_id);
  ensure (bool_decide (client_id ∈ sr_attachments record))
    ("client is not attached to session " +:+ debug_str (record_name record));;
  on_snapshot session_id (on_descriptor (set_model model));;
  on_snapshot session_id (on_descriptor (set_cwd cwd));;
  now ← io timestamp_ms;
  on_snapshot session_id (on_descriptor (set_last_active now));;
  on_snapshot session_id (set_history history);;
  record ← expect_record session_id;
  persisting;;
  mret (descriptor_with_status record).

Definition begin_execution (session_id operation_id route : string) : M () :=
  record ← record_of session_id (unknown_session session_id);
  if negb (is_durable record) then mret ()
  else
    r ← the_registry;
    ensure (bool_decide (in_flight r !! session_id = None))
      "durable session already has an in-flight operation";;
    changing (set_in_flight <[session_id := {|
      if_session_id := session_id; if_operation_id := operation_id; if_route := route |}]>);;
    handle persisting mret (λ error, changing (set_in_flight (delete session_id));; throw error).

Definition finish_execution (session_id operation_id : string) : M () :=
  r ← the_registry;
  if bool_decide (if_operation_id <$> (in_flight r !! session_id) = Some operation_id) then
    changing (set_in_flight (delete session_id));;
    persisting
  else mret ().

Definition update_execution_state (session_id cwd : string) (history : list Message) : M SessionDescriptor :=
  cwd ← io (validate_working_directory cwd);
  record_of session_id (unknown_session session_id);;
  on_snapshot session_id (on_descriptor (set_cwd cwd));;
  now ← io timestamp_ms;
  on_snapshot session_id (on_descriptor (set_last_active now));;
  on_snapshot session_id (set_history history);;
  record ← expect_record session_id;
  changing (set_in_flight (delete session_id));;
  persisting;;
  mret (descriptor_with_status record).

Definition close (client_id selector : string) : M string :=
  id ← resolve selector;
  record ← expect_record id;
  ensure (bool_decide (sr_attachments record ⊆ {[client_id]}))
    ("session " +:+ debug_str (record_name record) +:+ " is controlled by another client");;
  changing (set_sessions (delete id));;
  persisting;;
  mret id.

Definition snapshot (selector : string) : M Snapshot :=
  id ← resolve selector;
  record ← expect_record id;
  mret (snapshot_with_status record).
End registry.
Arguments Disk : clear implicits.
Arguments Store : clear implicits.
