(* ===== verification/RegistrySpec.v ===== *)
(** The registry of sessions ([Registry]) keeps its invariant, its state file
    can be loaded again, and whatever its operations left there is loaded whole,
    with a notice for every operation that was interrupted. *)
From Stdlib Require Import Ascii.
From S2P Require Import Prelude Effects CallId Chat SessionModel Registry.

(** What the registry relies on of its parameters: a hash map iterates over its
    entries, in some order. *)
Class RegistryLaws (A W : Type) `{!StateSerde A, !SessionHost W} : Prop := {
  map_order_permutation {B} w (m : gmap string B) : map_order w m ≡ₚ map_to_list m;
}.

(** The arguments of the calls in the histories of a state file. *)
Definition history_values {A} (history : list (ChatMessage A)) : list A :=
  history ≫= λ m, call_arguments <$> msg_tool_calls m.
Definition state_values {A} (s : DurableState A) : list A := ds_sessions s ≫= λ x, history_values (s_history x).

(** What a restart relies on besides: JSON reads back the state file it wrote,
    if all values in it are [plain]. Values nested so deep that the parser gives
    up in the state file, and numbers it reads a bit off, are not. *)
Class StateLaws (A : Type) `{!StateSerde A} := {
  plain : A → Prop;
  state_roundtrip (s : DurableState A) text :
    state_to_vec_pretty s = Some text → Forall plain (state_values s) → state_from_str text = Some s;
}.

Section spec.
Context {A W : Type} `{!StateSerde A, !SessionHost W, !RegistryLaws A W}.
Implicit Types (r : SessionRegistry A) (rec : SessionRecord A) (d : Disk W) (st : Store A W).

(** * The invariant *)

Definition valid_name (name : string) : bool :=
  negb (bool_decide (name = "") || (64 <? String.length name))%nat && string_all name_character name.

Definition host_of r : string * string * string := (host_id r, host_alias r, user r).

Record RecordOk (host : string * string * string) (id : string) rec : Prop := {
  ok_id : d_id (s_descriptor (sr_snapshot rec)) = id;
  ok_name : valid_name (record_name rec) = true;
  ok_host : (d_host_id (s_descriptor (sr_snapshot rec)), d_host_alias (s_descriptor (sr_snapshot rec)),
    d_user (s_descriptor (sr_snapshot rec))) = host;
  ok_activity : d_activity (s_descriptor (sr_snapshot rec)) = ActIdle;
  ok_controller : size (sr_attachments rec) ≤ 1;
}.

(** Sessions are filed under their ids, have valid and different names, belong
    to this host, and have one controller at most; operations are filed under
    the ids of their sessions. *)
Record Inv r : Prop := {
  inv_record : ∀ id rec, sessions r !! id = Some rec → RecordOk (host_of r) id rec;
  inv_names : ∀ id id' rec rec', sessions r !! id = Some rec → sessions r !! id' = Some rec' →
    record_name rec = record_name rec' → id = id';
  inv_in_flight : ∀ id op, in_flight r !! id = Some op → if_session_id op = id;
}.

Lemma Inv_empty host alias user :
  Inv {| host_id := host; host_alias := alias; user := user; sessions := ∅; in_flight := ∅ |}.
Proof. split; simpl; intros *; by rewrite ?lookup_empty. Qed.

Lemma Inv_insert r id rec :
  Inv r → RecordOk (host_of r) id rec →
  (∀ id' rec', sessions r !! id' = Some rec' → record_name rec' = record_name rec → id' = id) →
  Inv (set_sessions <[id := rec]> r).
Proof.
  intros [Hr Hn Hf] Hok Hnew. split; simpl; [| |done].
  - intros id' rec' [[<- <-]|[_ ?]]%lookup_insert_Some; [done|]. by apply Hr.
  - intros i j x y [[<- <-]|[_ Hi]]%lookup_insert_Some [[<- <-]|[_ Hj]]%lookup_insert_Some Hxy;
      [done|symmetry; by eapply Hnew|by eapply Hnew|by eapply Hn].
Qed.

(** A change of a record that keeps what the invariant says of it. *)
Lemma Inv_alter r id f :
  Inv r →
  (∀ rec, sessions r !! id = Some rec → RecordOk (host_of r) id rec →
     RecordOk (host_of r) id (f rec) ∧ record_name (f rec) = record_name rec) →
  Inv (set_sessions (alter f id) r).
Proof.
  intros Hinv Hf. destruct (sessions r !! id) as [rec|] eqn:Hid.
  - assert (set_sessions (alter f id) r = set_sessions <[id := f rec]> r) as ->.
    { unfold set_sessions. f_equal. apply map_eq. intros j. destruct (decide (id = j)) as [<-|].
      - by rewrite lookup_alter_eq, Hid, lookup_insert_eq.
      - by rewrite lookup_alter_ne, lookup_insert_ne. }
    destruct (Hf rec eq_refl (inv_record _ Hinv _ _ Hid)) as [Hok Hname].
    apply Inv_insert; [done..|]. intros id' rec' Hid' Heq. rewrite Hname in Heq.
    by eapply (inv_names _ Hinv).
  - assert (set_sessions (alter f id) r = r) as ->; [|done].
    destruct r as [h a u ss fl]. unfold set_sessions; simpl. f_equal. simpl in Hid. apply map_eq. intros j.
    destruct (decide (id = j)) as [<-|]; [by rewrite lookup_alter_eq, Hid|by rewrite lookup_alter_ne].
Qed.

Lemma Inv_delete r id : Inv r → Inv (set_sessions (delete id) r).
Proof.
  intros [Hr Hn Hf]. split; simpl; [| |done].
  - intros id' rec' [_ ?]%lookup_delete_Some. by apply Hr.
  - intros i j x y [_ Hi]%lookup_delete_Some [_ Hj]%lookup_delete_Some. by eapply Hn.
Qed.

Lemma Inv_in_flight r f :
  Inv r → (∀ id op, f (in_flight r) !! id = Some op → if_session_id op = id) → Inv (set_in_flight f r).
Proof. intros [Hr Hn Hf] Hf'. by split. Qed.

(** * The host *)

Lemma wp_asking {B} (f : W → B * W) Q R d :
  wp (asking f) Q R d ↔
  Q (f (world d)).1 {| sessions_json := sessions_json d; world := (f (world d)).2 |}.
Proof. unfold asking. rewrite wp_ask. by destruct (f (world d)). Qed.

Lemma wp_need {B} (o : option B) message Q R d :
  wp (need o message) Q R d ↔ match o with Some b => Q b d | None => R message d end.
Proof. by destruct o. Qed.

(** [Q] holds whatever the host answered, the state file being the same. *)
Definition anyhow {B} (d : Disk W) (Q : B → Disk W → Prop) : Prop :=
  ∀ b d', sessions_json d' = sessions_json d → Q b d'.

Definition on_host {B} (m : Step (Disk W) string B) : Prop :=
  ∀ d Q R, anyhow d Q → anyhow d R → wp m Q R d.

Lemma timestamp_on_host : on_host timestamp_ms.
Proof.
  intros d Q R HQ HR. unfold timestamp_ms. rewrite wp_bind, wp_asking, wp_need.
  destruct (system_time (world d)) as [[now|] w]; simpl; [by apply HQ|by apply HR].
Qed.

Lemma directory_on_host path : on_host (validate_working_directory path).
Proof.
  intros d Q R HQ HR. unfold validate_working_directory. rewrite wp_bind, wp_asking, wp_bind, wp_need.
  destruct (canonicalize (world d) path) as [[resolved|] w]; simpl; [|by apply HR].
  rewrite wp_bind, wp_asking. simpl. destruct (is_dir w resolved) as [[] w']; simpl; [|by apply HR].
  rewrite wp_bind, wp_ret, wp_bind, wp_asking; simpl.
  destruct (read_dir w' resolved) as [[] w'']; simpl; [by apply HQ|by apply HR].
Qed.

Lemma wp_iterate {B} (m : gmap string B) Q R d :
  (∀ l, l ≡ₚ map_to_list m → Q l d) → wp (iterate m) Q R d.
Proof. intros HQ. unfold iterate. rewrite wp_bind, wp_get, wp_ret. apply HQ, map_order_permutation. Qed.

Lemma wp_validate_name name Q R d :
  (valid_name name = true → Q () d) →
  (∀ message, valid_name name = false → R message d) →
  wp (validate_name name) Q R d.
Proof.
  intros HQ HR. unfold validate_name. rewrite wp_bind, wp_ensure. unfold valid_name in *.
  destruct (_ || _); simpl in *; [by apply HR|]. rewrite wp_ensure.
  destruct (string_all _ _); [by apply HQ|by apply HR].
Qed.

Lemma elem_of_iteration {B} (m : gmap string B) l id b : l ≡ₚ map_to_list m → (id, b) ∈ l ↔ m !! id = Some b.
Proof. intros Hl. by rewrite Hl, elem_of_map_to_list. Qed.

(** * What is saved *)

(** The state file of a registry: it does not depend on the iteration order. *)
Definition durable_state r : DurableState A := {|
  ds_format_version := 1; ds_sessions := durable_snapshots (map_to_list (sessions r));
  ds_in_flight := sort_on if_session_id (map_to_list (in_flight r)).*2 |}.

Definition saves r (text : string) : Prop := state_to_vec_pretty (durable_state r) = Some text.

Lemma map_names_NoDup r : Inv r → NoDup (record_name ∘ snd <$> map_to_list (sessions r)).
Proof.
  intros Hinv. apply NoDup_alt. intros i j name. rewrite !list_lookup_fmap.
  intros ([id x] & Hi & ->)%fmap_Some ([id' y] & Hj & Hxy)%fmap_Some. simpl in Hxy.
  assert (id = id') as <-.
  { eapply (inv_names _ Hinv); [..|exact Hxy]; apply elem_of_map_to_list; by eapply list_elem_of_lookup_2. }
  eapply (NoDup_lookup (map_to_list (sessions r)).*1); [apply NoDup_fst_map_to_list| |];
    rewrite list_lookup_fmap; [by rewrite Hi|by rewrite Hj].
Qed.

Lemma at_rest_name rec : d_name (s_descriptor (at_rest rec)) = record_name rec.
Proof. done. Qed.

Lemma durable_snapshots_perm r l :
  Inv r → l ≡ₚ map_to_list (sessions r) → durable_snapshots l = durable_snapshots (map_to_list (sessions r)).
Proof.
  intros Hinv Hl. unfold durable_snapshots. symmetry. apply sort_on_perm; [|by rewrite Hl].
  rewrite <-list_fmap_compose. eapply sublist_NoDup; [apply (map_names_NoDup r Hinv)|].
  rewrite (list_fmap_compose snd record_name). apply fmap_sublist, sublist_filter.
Qed.

Definition persist_errors : list string := ["cannot encode session state"; "cannot write session state"].

Lemma wp_persist r d Q R :
  Inv r →
  (∀ text d', saves r text → sessions_json d' = Some text → Q () d') →
  (∀ e d', e ∈ persist_errors → sessions_json d' = sessions_json d → R e d') →
  wp (persist r) Q R d.
Proof.
  intros Hinv HQ HR. unfold persist. rewrite wp_bind. apply wp_iterate. intros l Hl.
  rewrite wp_bind. apply wp_iterate. intros k Hk. rewrite (durable_snapshots_perm r l) by done.
  assert (sort_on if_session_id k.*2 = sort_on if_session_id (map_to_list (in_flight r)).*2) as ->.
  { symmetry. apply sort_on_perm; [|by rewrite Hk].
    assert (if_session_id <$> (map_to_list (in_flight r)).*2 = (map_to_list (in_flight r)).*1) as ->;
      [|apply NoDup_fst_map_to_list].
    rewrite <-list_fmap_compose. apply list_fmap_ext. intros i [id op] Hi. simpl.
    eapply (inv_in_flight _ Hinv). apply elem_of_map_to_list. by eapply list_elem_of_lookup_2. }
  fold (durable_state r). rewrite wp_bind, wp_need.
  destruct (state_to_vec_pretty (durable_state r)) as [text|] eqn:Htext; [|apply HR; [by left|done]].
  rewrite wp_bind, wp_asking, wp_bind, wp_ensure. simpl.
  destruct (replace_file (world d) text).1; [|apply HR; [by right; left|done]]. rewrite wp_modify. by eapply HQ.
Qed.

(** * Operations keep the invariant *)

Inductive Op : Type :=
| OpList
| OpCreate (client_id : string) (creation : SessionCreation A)
| OpAttach (client_id selector : string) (role : AttachmentRole)
| OpDetach (client_id session_id : string)
| OpUpdate (client_id session_id : string) (model : ModelBinding) (cwd : string) (history : list (ChatMessage A))
| OpBegin (session_id operation_id route : string)
| OpFinish (session_id operation_id : string)
| OpUpdateState (session_id cwd : string) (history : list (ChatMessage A))
| OpClose (client_id selector : string)
| OpSnapshot (selector : string).

Definition run_op (op : Op) : Step (Store A W) string () :=
  match op with
  | OpList => list_sessions;; mret ()
  | OpCreate client_id creation => create client_id creation;; mret ()
  | OpAttach client_id selector role => attach client_id selector role;; mret ()
  | OpDetach client_id session_id => detach client_id session_id;; mret ()
  | OpUpdate client_id session_id model cwd history => update client_id session_id model cwd history;; mret ()
  | OpBegin session_id operation_id route => begin_execution session_id operation_id route
  | OpFinish session_id operation_id => finish_execution session_id operation_id
  | OpUpdateState session_id cwd history => update_execution_state session_id cwd history;; mret ()
  | OpClose client_id selector => close client_id selector;; mret ()
  | OpSnapshot selector => snapshot selector;; mret ()
  end.

(** What an operation may leave: a registry that keeps [I], and a state file
    that is the old one or saves such a registry. *)
Definition file_of st : option string := sessions_json (disk st).

Lemma wp_io {B} (m : Step (Disk W) string B) Q R st :
  wp (io m) Q R st ↔
  wp m (λ b d, Q b {| registry := registry st; disk := d |})
       (λ e d, R e {| registry := registry st; disk := d |}) (disk st).
Proof. apply wp_zoom. Qed.

Lemma wp_changing f Q R st :
  wp (changing f) Q R st ↔ Q () {| registry := f (registry st); disk := disk st |}.
Proof. done. Qed.

Lemma wp_the_registry Q R st : wp the_registry Q R st ↔ Q (registry st) st.
Proof. done. Qed.

Lemma wp_persisting Q R st :
  Inv (registry st) →
  (∀ text d, saves (registry st) text → sessions_json d = Some text →
     Q () {| registry := registry st; disk := d |}) →
  (∀ e d, sessions_json d = file_of st → R e {| registry := registry st; disk := d |}) →
  wp persisting Q R st.
Proof.
  intros Hinv HQ HR. unfold persisting. rewrite wp_bind, wp_the_registry, wp_io.
  apply wp_persist; [done|exact HQ|]. intros e d' _ Hd. by apply HR.
Qed.

Lemma wp_record_of id message Q R st :
  (∀ rec, sessions (registry st) !! id = Some rec → Q rec st) →
  (sessions (registry st) !! id = None → R message st) →
  wp (record_of id message) Q R st.
Proof.
  intros HQ HR. unfold record_of. rewrite wp_bind, wp_the_registry, wp_io, wp_need.
  destruct st as [r d]; simpl in *. destruct (sessions r !! id); auto.
Qed.

Lemma wp_expect_record id rec Q R st :
  sessions (registry st) !! id = Some rec → Q rec st → wp (expect_record id) Q R st.
Proof. intros Hid HQ. unfold expect_record. by rewrite wp_bind, wp_the_registry, wp_lift, Hid. Qed.

Lemma wp_io_on_host {B} (m : Step (Disk W) string B) Q R st :
  on_host m →
  (∀ b d, sessions_json d = file_of st → Q b {| registry := registry st; disk := d |}) →
  (∀ e d, sessions_json d = file_of st → R e {| registry := registry st; disk := d |}) →
  wp (io m) Q R st.
Proof. intros Hm HQ HR. rewrite wp_io. by apply Hm. Qed.

Lemma wp_io_iterate {B} (m : gmap string B) Q R st :
  (∀ l, l ≡ₚ map_to_list m → Q l st) → wp (io (iterate m)) Q R st.
Proof. intros HQ. rewrite wp_io. apply wp_iterate. intros l Hl. destruct st; by apply HQ. Qed.

(** ** Selectors *)

(** A selector is an id, or else the name of a session. *)
Definition resolves r (selector id : string) : Prop :=
  id = selector ∨ sessions r !! selector = None ∧
    ∃ rec, sessions r !! id = Some rec ∧ record_name rec = selector.

Definition unresolved r (selector : string) : Prop :=
  sessions r !! selector = None ∧ ∀ id rec, sessions r !! id = Some rec → record_name rec ≠ selector.

(** Names being different, no selector is ambiguous. *)
Lemma wp_resolve selector Q R st :
  Inv (registry st) →
  (∀ id rec, sessions (registry st) !! id = Some rec → resolves (registry st) selector id → Q id st) →
  (unresolved (registry st) selector → R (unknown_session selector) st) →
  wp (resolve selector) Q R st.
Proof.
  intros Hinv HQ HR. unfold resolve. rewrite wp_bind, wp_the_registry.
  case_bool_decide as Hsel; [destruct Hsel as [rec Hrec]; rewrite wp_ret; eapply HQ; [done|by left]|].
  apply eq_None_not_Some in Hsel. rewrite wp_bind. apply wp_io_iterate. intros l Hl.
  assert (Hin : ∀ e, e ∈ l ↔ sessions (registry st) !! e.1 = Some e.2) by (intros []; by apply elem_of_iteration).
  destruct (filter _ l) as [|[id rec] [|[id' rec'] k]] eqn:Hf.
  - apply HR. split; [done|]. intros id rec Hid Hname.
    assert ((id, rec) ∈ filter (λ e, record_name e.2 = selector) l) as He; [|by rewrite Hf in He; apply elem_of_nil in He].
    apply list_elem_of_filter. by rewrite Hin.
  - assert ((id, rec) ∈ filter (λ e, record_name e.2 = selector) l) as He by (rewrite Hf; by left).
    apply list_elem_of_filter in He as [Hname He]. apply Hin in He. simpl in *.
    rewrite wp_ret. eapply HQ; [done|]. right. eauto.
  - exfalso. assert (Hall : ∀ e, e ∈ (id, rec) :: (id', rec') :: k → record_name e.2 = selector ∧ e ∈ l).
    { intros e He. rewrite <-Hf in He. by apply list_elem_of_filter in He. }
    destruct (Hall (id, rec)) as [Hn He]; [by left|]. destruct (Hall (id', rec')) as [Hn' He']; [right; by left|].
    apply Hin in He, He'. simpl in *.
    assert (id = id') as <- by (eapply (inv_names _ Hinv); [done..|congruence]).
    assert (Hnd : NoDup (filter (λ e, record_name e.2 = selector) l).*1).
    { eapply sublist_NoDup; [|apply fmap_sublist, sublist_filter]. rewrite Hl. apply NoDup_fst_map_to_list. }
    rewrite Hf in Hnd. simpl in Hnd. inv Hnd. set_solver.
Qed.

(** ** One operation *)

(** Operations in flight were so before, or are of a durable session. *)
Definition InFlightFrom r r' : Prop := ∀ id op, in_flight r' !! id = Some op →
  in_flight r !! id = Some op ∨ ∃ rec, sessions r' !! id = Some rec ∧ is_durable rec = true.

Definition saved st : Prop := ∃ text, file_of st = Some text ∧ saves (registry st) text.

Record Moved st st' : Prop := {
  moved_inv : Inv (registry st');
  moved_in_flight : InFlightFrom (registry st) (registry st');
  moved_file : file_of st' = file_of st;
}.

(** The operations that end with the state file written, when they succeed. *)
Definition writes st (op : Op) : Prop :=
  match op with
  | OpCreate _ _ | OpUpdate _ _ _ _ _ | OpUpdateState _ _ _ | OpClose _ _ => True
  | OpDetach _ id => is_Some (sessions (registry st) !! id)
  | OpBegin id _ _ => ∃ rec, sessions (registry st) !! id = Some rec ∧ is_durable rec = true
  | OpFinish id operation_id => if_operation_id <$> in_flight (registry st) !! id = Some operation_id
  | OpList | OpAttach _ _ _ | OpSnapshot _ => False
  end.

Record Ended st (op : Op) st' : Prop := {
  ended_inv : Inv (registry st');
  ended_in_flight : InFlightFrom (registry st) (registry st');
  ended_file : file_of st' = file_of st ∨ saved st';
  ended_writes : writes st op → saved st';
}.

#[local] Instance InFlightFrom_refl : Reflexive InFlightFrom.
Proof. intros r id op. by left. Qed.

Lemma in_flight_from_sub r r' :
  (∀ id op, in_flight r' !! id = Some op → in_flight r !! id = Some op) → InFlightFrom r r'.
Proof. intros Hf id op ?. left. by apply Hf. Qed.

Lemma ended_moved st op st' : Moved st st' → ¬ writes st op → Ended st op st'.
Proof. intros [Hi Hf Hj] Hw. split; [done..|by left|done]. Qed.

(** A last write: what it saves is what there is. *)
Lemma wp_persisting_ends st0 op st (R : string → Store A W → Prop) :
  Moved st0 st →
  (∀ e st', Moved st0 st' → registry st' = registry st → R e st') →
  wp persisting (λ _, Ended st0 op) R st.
Proof.
  intros [Hi Hf Hj] HR. apply wp_persisting; [done| |].
  - intros text d Hs Hd. assert (saved {| registry := registry st; disk := d |}) by by exists text.
    split; simpl; auto.
  - intros e d Hd. apply HR; [|done]. split; [done..|]. unfold file_of in *; simpl. congruence.
Qed.

(** Before the last write only sessions change. *)
Record Quiet st st' : Prop := {
  quiet_inv : Inv (registry st');
  quiet_in_flight : in_flight (registry st') = in_flight (registry st);
  quiet_file : file_of st' = file_of st;
}.

Lemma quiet_moved st st' : Quiet st st' → Moved st st'.
Proof. intros [Hi Hf Hj]. split; [done| |done]. intros id op. rewrite Hf. by left. Qed.

Lemma quiet_refl st : Inv (registry st) → Quiet st st.
Proof. by split. Qed.

Lemma quiet_disk st st1 d :
  Quiet st st1 → sessions_json d = file_of st1 → Quiet st {| registry := registry st1; disk := d |}.
Proof. intros [Hi Hf Hj] Hd. split; [done..|]. unfold file_of in *; simpl; congruence. Qed.

Lemma quiet_sessions st st1 f :
  Quiet st st1 → Inv (set_sessions f (registry st1)) →
  Quiet st {| registry := set_sessions f (registry st1); disk := disk st1 |}.
Proof. intros [Hi Hf Hj] ?. by split. Qed.

(** What an assignment to a snapshot leaves. *)
Definition core (s : SessionSnapshot A) :=
  let d := s_descriptor s in
  (d_id d, d_name d, (d_host_id d, d_host_alias d, d_user d), d_activity d, d_persistence d).

Lemma Inv_on_snapshot r id f :
  Inv r → (∀ s, core (f s) = core s) →
  Inv (set_sessions (alter (λ rec, {| sr_snapshot := f (sr_snapshot rec); sr_attachments := sr_attachments rec |}) id) r).
Proof.
  intros Hinv Hf. apply Inv_alter; [done|]. intros rec _ [? ? ? ? ?].
  specialize (Hf (sr_snapshot rec)). unfold core in Hf. unfold record_name in *.
  destruct rec as [s a]; simpl in *. split; [split; simpl|]; unfold record_name; simpl; congruence.
Qed.

Lemma Inv_on_attachments r id f :
  Inv r → (∀ rec, sessions r !! id = Some rec → size (f (sr_attachments rec)) ≤ 1) →
  Inv (set_sessions (alter (λ rec, {| sr_snapshot := sr_snapshot rec; sr_attachments := f (sr_attachments rec) |}) id) r).
Proof.
  intros Hinv Hf. apply Inv_alter; [done|]. intros rec Hrec [? ? ? ? ?]. split; [|done].
  split; [done..|]. by apply Hf.
Qed.

Lemma wp_on_snapshot st0 st id f rec Q R :
  (∀ s, core (f s) = core s) → Quiet st0 st → sessions (registry st) !! id = Some rec →
  (∀ st', Quiet st0 st' → disk st' = disk st →
     sessions (registry st') = <[id := {| sr_snapshot := f (sr_snapshot rec); sr_attachments := sr_attachments rec |}]>
       (sessions (registry st)) → Q () st') →
  wp (on_snapshot id f) Q R st.
Proof.
  intros Hf Hq Hid HQ. unfold on_snapshot, on_record. rewrite wp_changing. apply HQ; [|done|].
  - apply quiet_sessions; [done|]. apply Inv_on_snapshot; [apply Hq|done].
  - simpl. apply map_eq. intros j. destruct (decide (id = j)) as [<-|].
    + by rewrite lookup_alter_eq, Hid, lookup_insert_eq.
    + by rewrite lookup_alter_ne, lookup_insert_ne.
Qed.

Lemma wp_on_attachments st0 st id f rec Q R :
  Quiet st0 st → sessions (registry st) !! id = Some rec → size (f (sr_attachments rec)) ≤ 1 →
  (∀ st', Quiet st0 st' → disk st' = disk st →
     sessions (registry st') = <[id := {| sr_snapshot := sr_snapshot rec; sr_attachments := f (sr_attachments rec) |}]>
       (sessions (registry st)) → Q () st') →
  wp (on_attachments id f) Q R st.
Proof.
  intros Hq Hid Hf HQ. unfold on_attachments, on_record. rewrite wp_changing. apply HQ; [|done|].
  - apply quiet_sessions; [done|]. apply Inv_on_attachments; [apply Hq|]. intros rec'. rewrite Hid. by intros [= <-].
  - simpl. apply map_eq. intros j. destruct (decide (id = j)) as [<-|].
    + by rewrite lookup_alter_eq, Hid, lookup_insert_eq.
    + by rewrite lookup_alter_ne, lookup_insert_ne.
Qed.

Lemma wp_quiet_host {B} st0 st (m : Step (Disk W) string B) (Q : B → Store A W → Prop) R :
  on_host m → Quiet st0 st →
  (∀ b st', Quiet st0 st' → registry st' = registry st → Q b st') →
  (∀ e st', Quiet st0 st' → registry st' = registry st → R e st') →
  wp (io m) Q R st.
Proof.
  intros Hm Hq HQ HR. apply wp_io_on_host; [done|..]; intros x d Hd; [apply HQ|apply HR];
    by first [by apply quiet_disk|done].
Qed.

Lemma wp_quiet_name st name (Q : () → Store A W → Prop) (R : string → Store A W → Prop) :
  (valid_name name = true → Q () st) → (∀ e, valid_name name = false → R e st) →
  wp (io (validate_name name)) Q R st.
Proof. intros HQ HR. rewrite wp_io. apply wp_validate_name; by destruct st. Qed.

(** ** Every operation *)

Abbreviation ends op st := (wp (run_op op) (λ _, Ended st op) (λ _, Moved st) st).

Lemma list_ends st : Inv (registry st) → ends OpList st.
Proof.
  intros Hinv. simpl. unfold list_sessions. rewrite !wp_bind, wp_the_registry, wp_bind.
  apply wp_io_iterate. intros l _. apply ended_moved; [by apply quiet_moved, quiet_refl|]. by intros [].
Qed.

Lemma snapshot_ends selector st : Inv (registry st) → ends (OpSnapshot selector) st.
Proof.
  intros Hinv. simpl. unfold snapshot. rewrite !wp_bind. apply wp_resolve; [done|..].
  - intros id rec Hid _. rewrite wp_bind. eapply wp_expect_record; [done|].
    apply ended_moved; [by apply quiet_moved, quiet_refl|]. by intros [].
  - intros _. by apply quiet_moved, quiet_refl.
Qed.

Lemma set_history_core h (s : SessionSnapshot A) : core (set_history h s) = core s.
Proof. done. Qed.
Lemma set_cwd_core p (s : SessionSnapshot A) : core (on_descriptor (set_cwd p) s) = core s.
Proof. done. Qed.
Lemma set_model_core m (s : SessionSnapshot A) : core (on_descriptor (set_model m) s) = core s.
Proof. done. Qed.
Lemma set_last_active_core n (s : SessionSnapshot A) : core (on_descriptor (set_last_active n) s) = core s.
Proof. done. Qed.

Lemma one_controller (client : string) : size ({[client]} : gset string) ≤ 1.
Proof. by rewrite size_singleton. Qed.

Lemma controllers_grow (c : gset string) client :
  size c ≤ 1 → c = ∅ ∨ client ∈ c → size ({[client]} ∪ c) ≤ 1.
Proof.
  intros Hc Hor. assert ({[client]} ∪ c = {[client]}) as ->; [|apply one_controller].
  destruct Hor as [->|Hin]; [set_solver|]. apply set_eq. intros x. split; [|set_solver].
  intros [->%elem_of_singleton|Hx]%elem_of_union; [set_solver|].
  assert (size ({[client; x]} : gset string) ≤ size c) as Hle by (apply subseteq_size; set_solver).
  destruct (decide (x = client)) as [->|Hne]; [set_solver|].
  rewrite size_union in Hle by set_solver. rewrite !size_singleton in Hle. lia.
Qed.

Lemma attach_ends client selector role st : Inv (registry st) → ends (OpAttach client selector role) st.
Proof.
  intros Hinv. pose proof (quiet_refl st Hinv) as Hq. simpl. unfold attach. rewrite !wp_bind, wp_ensure.
  case_bool_decide; [|by apply quiet_moved]. rewrite wp_bind.
  apply wp_resolve; [done| |intros _; by apply quiet_moved]. intros id rec Hid _.
  rewrite wp_bind. eapply wp_expect_record; [done|]. rewrite wp_bind, wp_ensure.
  destruct (_ || _) eqn:Hfree; [|by apply quiet_moved]. rewrite wp_bind.
  eapply wp_on_attachments; [exact Hq|exact Hid| |].
  { apply controllers_grow; [by apply (inv_record _ Hinv _ _ Hid)|].
    apply orb_true_iff in Hfree as [?%bool_decide_eq_true|?%bool_decide_eq_true]; auto. }
  intros st1 Hq1 _ Hs1. rewrite wp_bind. eapply wp_quiet_host; [apply timestamp_on_host|exact Hq1| |];
    intros x st2 Hq2 Hr2; [|by apply quiet_moved]. rewrite <-Hr2 in Hs1. rewrite wp_bind.
  eapply wp_on_snapshot; [apply (set_last_active_core x)|exact Hq2|by rewrite Hs1, lookup_insert_eq|].
  intros st3 Hq3 _ Hs3. rewrite wp_bind. eapply wp_expect_record; [by rewrite Hs3, lookup_insert_eq|].
  apply ended_moved; [by apply quiet_moved|by intros []].
Qed.

Lemma detach_ends client id st : Inv (registry st) → ends (OpDetach client id) st.
Proof.
  intros Hinv. pose proof (quiet_refl st Hinv) as Hq. simpl. unfold detach.
  rewrite wp_bind, wp_bind, wp_the_registry. destruct (sessions (registry st) !! id) as [rec|] eqn:Hid.
  - rewrite wp_bind. eapply wp_on_attachments; [exact Hq|exact Hid| |].
    { etrans; [|apply (inv_record _ Hinv _ _ Hid)]. apply subseteq_size. set_solver. }
    intros st1 Hq1 _ Hs1. rewrite wp_bind. eapply wp_expect_record; [by rewrite Hs1, lookup_insert_eq|].
    rewrite wp_bind.
    destruct (_ && _); [rewrite wp_changing|rewrite wp_ret]; rewrite wp_bind;
      (apply wp_persisting_ends; [apply quiet_moved|auto]); [|done].
    apply quiet_sessions; [done|]. apply Inv_delete, Hq1.
  - apply ended_moved; [by apply quiet_moved|]. simpl. rewrite Hid. by intros [].
Qed.

Lemma update_ends client id model cwd history st :
  Inv (registry st) → ends (OpUpdate client id model cwd history) st.
Proof.
  intros Hinv. pose proof (quiet_refl st Hinv) as Hq. simpl. unfold update. rewrite !wp_bind.
  eapply wp_quiet_host; [apply directory_on_host|exact Hq| |];
    intros cwd' st1 Hq1 Hr1; [|by apply quiet_moved]. rewrite wp_bind.
  apply wp_record_of; [|intros _; by apply quiet_moved]. intros rec Hid. rewrite wp_bind, wp_ensure.
  case_bool_decide; [|by apply quiet_moved]. rewrite wp_bind.
  eapply wp_on_snapshot; [apply (set_model_core model)|exact Hq1|exact Hid|].
  intros st2 Hq2 _ Hs2. rewrite wp_bind.
  eapply wp_on_snapshot; [apply (set_cwd_core cwd')|exact Hq2|by rewrite Hs2, lookup_insert_eq|].
  intros st3 Hq3 _ Hs3. rewrite wp_bind.
  eapply wp_quiet_host; [apply timestamp_on_host|exact Hq3| |];
    intros now st4 Hq4 Hr4; [|by apply quiet_moved]. rewrite wp_bind.
  eapply wp_on_snapshot; [apply (set_last_active_core now)|exact Hq4|by rewrite Hr4, Hs3, lookup_insert_eq|].
  intros st5 Hq5 _ Hs5. rewrite wp_bind.
  eapply wp_on_snapshot; [apply (set_history_core history)|exact Hq5|by rewrite Hs5, lookup_insert_eq|].
  intros st6 Hq6 _ Hs6. rewrite wp_bind. eapply wp_expect_record; [by rewrite Hs6, lookup_insert_eq|].
  rewrite wp_bind. apply wp_persisting_ends; [by apply quiet_moved|auto].
Qed.

Lemma moved_in_flight_delete st st1 id :
  Quiet st st1 → Moved st {| registry := set_in_flight (delete id) (registry st1); disk := disk st1 |}.
Proof.
  intros [Hi Hf Hj]. split; [| |done].
  - apply Inv_in_flight; [done|]. intros id' op [_ ?]%lookup_delete_Some. by apply (inv_in_flight _ Hi).
  - apply in_flight_from_sub. simpl. intros id' op [_ ?]%lookup_delete_Some. by rewrite <-Hf.
Qed.

Lemma update_state_ends id cwd history st : Inv (registry st) → ends (OpUpdateState id cwd history) st.
Proof.
  intros Hinv. pose proof (quiet_refl st Hinv) as Hq. simpl. unfold update_execution_state. rewrite !wp_bind.
  eapply wp_quiet_host; [apply directory_on_host|exact Hq| |];
    intros cwd' st1 Hq1 Hr1; [|by apply quiet_moved]. rewrite wp_bind.
  apply wp_record_of; [|intros _; by apply quiet_moved]. intros rec Hid. rewrite wp_bind.
  eapply wp_on_snapshot; [apply (set_cwd_core cwd')|exact Hq1|exact Hid|].
  intros st3 Hq3 _ Hs3. rewrite wp_bind.
  eapply wp_quiet_host; [apply timestamp_on_host|exact Hq3| |];
    intros now st4 Hq4 Hr4; [|by apply quiet_moved]. rewrite wp_bind.
  eapply wp_on_snapshot; [apply (set_last_active_core now)|exact Hq4|by rewrite Hr4, Hs3, lookup_insert_eq|].
  intros st5 Hq5 _ Hs5. rewrite wp_bind.
  eapply wp_on_snapshot; [apply (set_history_core history)|exact Hq5|by rewrite Hs5, lookup_insert_eq|].
  intros st6 Hq6 _ Hs6. rewrite wp_bind. eapply wp_expect_record; [by rewrite Hs6, lookup_insert_eq|].
  rewrite wp_bind, wp_changing, wp_bind. apply wp_persisting_ends; [by apply moved_in_flight_delete|auto].
Qed.

Lemma finish_ends id operation_id st : Inv (registry st) → ends (OpFinish id operation_id) st.
Proof.
  intros Hinv. pose proof (quiet_refl st Hinv) as Hq. simpl. unfold finish_execution.
  rewrite wp_bind, wp_the_registry. case_bool_decide as Hop.
  - rewrite wp_bind, wp_changing. apply wp_persisting_ends; [by apply moved_in_flight_delete|auto].
  - apply ended_moved; [by apply quiet_moved|done].
Qed.

Lemma begin_ends id operation_id route st : Inv (registry st) → ends (OpBegin id operation_id route) st.
Proof.
  intros Hinv. pose proof (quiet_refl st Hinv) as Hq. simpl. unfold begin_execution. rewrite wp_bind.
  apply wp_record_of; [|intros _; by apply quiet_moved]. intros rec Hid.
  destruct (is_durable rec) eqn:Hd; simpl.
  2: { apply ended_moved; [by apply quiet_moved|]. intros (rec' & Hid' & ?). congruence. }
  rewrite wp_bind, wp_the_registry, wp_bind, wp_ensure. case_bool_decide; [|by apply quiet_moved].
  rewrite wp_bind, wp_changing, wp_handle. apply wp_persisting_ends.
  - split; [| |done].
    + apply Inv_in_flight; [done|]. intros id' op [[<- <-]|[_ ?]]%lookup_insert_Some; [done|].
      by apply (inv_in_flight _ Hinv).
    + intros id' op. simpl. intros [[<- <-]|[_ ?]]%lookup_insert_Some; [right; by exists rec|by left].
  - intros e st' [Hi _ Hj] Hr. rewrite wp_bind, wp_changing, wp_throw. rewrite Hr. split.
    + apply Inv_in_flight; [by rewrite <-Hr|]. intros id' op [_ Ho]%lookup_delete_Some.
      rewrite <-Hr in Ho. by apply (inv_in_flight _ Hi).
    + apply in_flight_from_sub. simpl. intros id' op [Hne Ho]%lookup_delete_Some.
      by rewrite lookup_insert_ne in Ho.
    + done.
Qed.

Lemma close_ends client selector st : Inv (registry st) → ends (OpClose client selector) st.
Proof.
  intros Hinv. pose proof (quiet_refl st Hinv) as Hq. simpl. unfold close. rewrite !wp_bind.
  apply wp_resolve; [done| |intros _; by apply quiet_moved]. intros id rec Hid _.
  rewrite wp_bind. eapply wp_expect_record; [done|]. rewrite wp_bind, wp_ensure.
  case_bool_decide; [|by apply quiet_moved]. rewrite wp_bind, wp_changing, wp_bind.
  apply wp_persisting_ends; [|auto]. apply quiet_moved, quiet_sessions; [done|]. by apply Inv_delete.
Qed.

Lemma create_ends client creation st : Inv (registry st) → ends (OpCreate client creation) st.
Proof.
  intros Hinv. pose proof (quiet_refl st Hinv) as Hq. simpl. unfold create. rewrite !wp_bind.
  apply wp_quiet_name; [|intros; by apply quiet_moved]. intros Hname. rewrite wp_bind.
  eapply wp_quiet_host; [apply directory_on_host|exact Hq| |];
    intros cwd st1 Hq1 Hr1; [|by apply quiet_moved].
  rewrite wp_bind, wp_the_registry, wp_bind. apply wp_io_iterate. intros l Hl. rewrite wp_bind, wp_ensure.
  destruct (existsb _ l) eqn:Hex; [by apply quiet_moved|]. cbn [negb]; rewrite wp_bind.
  eapply wp_quiet_host; [apply timestamp_on_host|exact Hq1| |];
    intros now st2 Hq2 Hr2; [|by apply quiet_moved].
  rewrite wp_bind, wp_io, wp_asking, wp_bind, wp_changing, wp_bind.
  apply wp_persisting_ends; [|auto]. apply quiet_moved.
  apply (quiet_sessions st {| registry := registry st2; disk := _ |}); [by apply quiet_disk|].
  apply Inv_insert; [apply Hq2| |].
  { split; [done|done| |done|apply one_controller].
    unfold host_of. simpl. by rewrite Hr2. }
  intros id' rec' Hid' Hsame. exfalso.
  assert ((id', rec') ∈ l) as Hin by (apply (elem_of_iteration _ _ _ _ Hl); by rewrite <-Hr2).
  apply (proj1 (existsb_false _ _) Hex) in Hin. by apply bool_decide_eq_false in Hin.
Qed.

#[local] Hint Resolve list_ends create_ends attach_ends detach_ends update_ends begin_ends finish_ends
  update_state_ends close_ends snapshot_ends : core.

Lemma op_ends op st : Inv (registry st) → ends op st.
Proof. destruct op; auto. Qed.
End spec.

(** ** Restarting *)

Section restart.
Context {A W : Type} `{!StateSerde A, !SessionHost W, !RegistryLaws A W}.
Implicit Types (r : SessionRegistry A) (rec : SessionRecord A) (d : Disk W) (st : Store A W).

(** * What can be loaded *)

Definition snapshot_name (s : SessionSnapshot A) : string := d_name (s_descriptor s).
Definition snapshot_id (s : SessionSnapshot A) : string := d_id (s_descriptor s).

Record Loadable (s : DurableState A) : Prop := {
  ld_version : ds_format_version s = 1%N;
  ld_valid : Forall (λ x, valid_name (snapshot_name x) = true ∧
    d_persistence (s_descriptor x) = PersistDurable) (ds_sessions s);
  ld_names : NoDup (snapshot_name <$> ds_sessions s);
  ld_ids : NoDup (snapshot_id <$> ds_sessions s);
  ld_operations : NoDup (if_session_id <$> ds_in_flight s);
}.

(** The operations in flight are those of durable sessions there are. *)
Definition NoOrphans r : Prop := ∀ id op, in_flight r !! id = Some op →
  ∃ rec, sessions r !! id = Some rec ∧ is_durable rec = true.

Lemma elem_of_durable r s :
  s ∈ ds_sessions (durable_state r) ↔
  ∃ id rec, sessions r !! id = Some rec ∧ is_durable rec = true ∧ s = at_rest rec.
Proof.
  simpl. unfold durable_snapshots. rewrite elem_of_sort_on, list_elem_of_fmap.
  setoid_rewrite list_elem_of_filter. setoid_rewrite list_elem_of_fmap. split.
  - intros (rec & -> & Hd & [id rec'] & -> & Hin%elem_of_map_to_list). eauto.
  - intros (id & rec & Hid & Hd & ->). exists rec. split_and!; [done..|]. exists (id, rec).
    by rewrite elem_of_map_to_list.
Qed.

Lemma elem_of_operations r op :
  Inv r → op ∈ ds_in_flight (durable_state r) ↔ in_flight r !! if_session_id op = Some op.
Proof.
  intros Hinv. simpl. rewrite elem_of_sort_on, list_elem_of_fmap. split.
  - intros ([id op'] & -> & Hin%elem_of_map_to_list). simpl. by rewrite (inv_in_flight _ Hinv _ _ Hin).
  - intros Hop. exists (if_session_id op, op). by rewrite elem_of_map_to_list.
Qed.

Lemma sort_on_NoDup {B K C} `{Ord K} (f : B → K) (g : B → C) l : NoDup (g <$> l) → NoDup (g <$> sort_on f l).
Proof. by rewrite sort_on_Permutation. Qed.

Lemma durable_state_loadable r : Inv r → Loadable (durable_state r).
Proof.
  intros Hinv. split; [done|..].
  - apply Forall_forall. intros s (id & rec & Hid & Hd & ->)%elem_of_durable.
    split; [by apply (inv_record _ Hinv _ _ Hid)|by apply bool_decide_eq_true in Hd].
  - simpl. unfold durable_snapshots. apply sort_on_NoDup. rewrite <-list_fmap_compose.
    eapply sublist_NoDup; [apply (map_names_NoDup r Hinv)|].
    rewrite (list_fmap_compose snd record_name). apply fmap_sublist, sublist_filter.
  - simpl. unfold durable_snapshots. apply sort_on_NoDup. rewrite <-list_fmap_compose.
    eapply sublist_NoDup; [apply (NoDup_fst_map_to_list (sessions r))|].
    assert ((map_to_list (sessions r)).*1 = (snapshot_id ∘ at_rest) <$> (map_to_list (sessions r)).*2) as ->.
    { rewrite <-list_fmap_compose. apply list_fmap_ext. intros i [id rec] Hi. simpl. symmetry.
      apply (inv_record _ Hinv). apply elem_of_map_to_list. by eapply list_elem_of_lookup_2. }
    apply fmap_sublist, sublist_filter.
  - simpl. apply sort_on_NoDup. rewrite <-list_fmap_compose.
    assert (if_session_id ∘ snd <$> map_to_list (in_flight r) = (map_to_list (in_flight r)).*1) as ->;
      [|apply NoDup_fst_map_to_list].
    apply list_fmap_ext. intros i [id op] Hi. apply (inv_in_flight _ Hinv).
    apply elem_of_map_to_list. by eapply list_elem_of_lookup_2.
Qed.

Lemma operations_anchored r op :
  Inv r → NoOrphans r → op ∈ ds_in_flight (durable_state r) →
  if_session_id op ∈ snapshot_id <$> ds_sessions (durable_state r).
Proof.
  intros Hinv Hno Hop%elem_of_operations; [|done]. destruct (Hno _ _ Hop) as (rec & Hid & Hd).
  apply list_elem_of_fmap. exists (at_rest rec). rewrite elem_of_durable. split; [|eauto].
  symmetry. apply (inv_record _ Hinv _ _ Hid).
Qed.

(** * Loading it *)

(** What the host may answer that keeps the daemon from starting. *)
Definition HostError (e : string) : Prop :=
  e ∈ ["insecure session state directory"; "cannot read session state"; "cannot encode session state";
       "cannot write session state"] ∨
  ∃ name, e = "invalid working directory for durable session " +:+ debug_str name.

Section load.
Context `{!StateLaws A}.

(** The sessions that are saved hold plain values. *)
Definition Plain r : Prop := ∀ id rec, sessions r !! id = Some rec → is_durable rec = true →
  Forall plain (history_values (s_history (sr_snapshot rec))).

Lemma plain_state r : Plain r → Forall plain (state_values (durable_state r)).
Proof.
  intros Hp. apply Forall_forall. intros v (s & Hv & (id & rec & Hid & Hd & ->)%elem_of_durable)%list_elem_of_bind.
  exact (proj1 (Forall_forall _ _) (Hp id rec Hid Hd) v Hv).
Qed.

Variables host alias owner : string.
Abbreviation Restore := (recovered_session host alias owner).

(** [m] is [acc] with the sessions of [l]. *)
Record Loaded (acc : gmap string (SessionRecord A)) (l : list (SessionSnapshot A))
    (m : gmap string (SessionRecord A)) : Prop := {
  loaded_others : ∀ id, id ∉ snapshot_id <$> l → m !! id = acc !! id;
  loaded_sessions : ∀ s, s ∈ l → ∃ cwd,
    m !! snapshot_id s = Some {| sr_snapshot := Restore cwd s; sr_attachments := ∅ |};
}.

Lemma wp_load_sessions l names acc (d : Disk W) :
  Forall (λ x, valid_name (snapshot_name x) = true ∧ d_persistence (s_descriptor x) = PersistDurable) l →
  NoDup (snapshot_name <$> l) → (∀ s, s ∈ l → snapshot_name s ∉ names) →
  NoDup (snapshot_id <$> l) → (∀ s, s ∈ l → acc !! snapshot_id s = None) →
  wp (load_sessions host alias owner names acc l)
    (λ m d', Loaded acc l m ∧ sessions_json d' = sessions_json d)
    (λ e d', HostError e ∧ sessions_json d' = sessions_json d) d.
Proof.
  intros Hv Hn Hns Hi His. revert names acc d Hns His.
  induction Hv as [|s l [Hname Hdur] Hv IH]; intros names acc d Hns His; simpl.
  { split; [|done]. split; [done|]. by intros s ?%elem_of_nil. }
  apply NoDup_cons in Hn as [Hn1 Hn2]. apply NoDup_cons in Hi as [Hi1 Hi2].
  rewrite wp_bind. apply wp_validate_name; [intros _|intros m Hm; unfold snapshot_name in *; congruence].
  rewrite wp_bind, wp_handle. apply directory_on_host; intros x d' Hd'.
  2: { rewrite wp_throw. split; [|done]. right. by exists (snapshot_name s). }
  rewrite wp_ret, wp_bind, wp_ensure, bool_decide_true by done.
  rewrite wp_bind, wp_ensure, bool_decide_true by (apply Hns; by left).
  rewrite wp_bind, wp_ensure, bool_decide_true by (apply His; by left).
  eapply wp_wand; [apply IH; [done..| |]| |].
  - intros s' Hs'. rewrite elem_of_union, elem_of_singleton. intros [Heq|Hin].
    + apply Hn1. apply list_elem_of_fmap. eauto.
    + revert Hin. apply Hns. by right.
  - intros s' Hs'. rewrite lookup_insert_ne; [apply His; by right|].
    intros Heq. apply Hi1. apply list_elem_of_fmap. eauto.
  - intros m d2 [[Ho Hs] Hd2]. split; [|congruence]. split.
    + intros id Hid. rewrite fmap_cons, not_elem_of_cons in Hid. destruct Hid as [Hne Hid].
      rewrite Ho by done. by rewrite lookup_insert_ne by done.
    + intros s' [->|Hs']%elem_of_cons; [|by apply Hs]. exists x. rewrite Ho by done. by rewrite lookup_insert_eq.
  - intros e d2 [He Hd2]. split; [done|congruence].
Qed.

Lemma wp_recover_in_flight l (m : gmap string (SessionRecord A)) (d : Disk W) Q R :
  NoDup (if_session_id <$> l) → (∀ op, op ∈ l → is_Some (m !! if_session_id op)) →
  (∀ m' : gmap string (SessionRecord A), (∀ id, id ∉ if_session_id <$> l → m' !! id = m !! id) →
     (∀ op, op ∈ l → m' !! if_session_id op = recover op <$> m !! if_session_id op) → Q m' d) →
  wp (recover_in_flight m l) Q R d.
Proof.
  intros Hnd. revert m Q. induction l as [|op l IH]; intros m Q Hm HQ; simpl.
  { rewrite wp_ret. apply HQ; [done|]. by intros op ?%elem_of_nil. }
  apply NoDup_cons in Hnd as [Hop Hnd]. rewrite wp_bind, wp_need.
  destruct (Hm op) as [rec Hrec]; [by left|]. rewrite Hrec. apply IH; [done| |].
  - intros op' Hop'. destruct (decide (if_session_id op = if_session_id op')) as [<-|];
      [by rewrite lookup_insert_eq|]. rewrite lookup_insert_ne by done. apply Hm. by right.
  - intros m' Ho Hs. apply HQ.
    + intros id Hid. rewrite fmap_cons, not_elem_of_cons in Hid. destruct Hid as [Hne Hid].
      rewrite Ho by done. by rewrite lookup_insert_ne by done.
    + intros op' [->|Hin]%elem_of_cons.
      * rewrite Ho by done. by rewrite lookup_insert_eq, Hrec.
      * rewrite Hs by done. rewrite lookup_insert_ne; [done|].
        intros Heq. apply Hop. rewrite Heq. by apply list_elem_of_fmap_2.
Qed.

(** A durable session as the new daemon has it: nobody is attached, and an
    operation that was in flight is noted in its history. *)
Definition revived r (id cwd : string) rec : SessionRecord A :=
  from_option recover (λ x, x) (in_flight r !! id)
    {| sr_snapshot := Restore cwd (sr_snapshot rec); sr_attachments := ∅ |}.

Record Restored r r' : Prop := {
  rs_host : host_of r' = (host, alias, owner);
  rs_in_flight : in_flight r' = ∅;
  rs_durable : ∀ id rec, sessions r !! id = Some rec → is_durable rec = true →
    ∃ cwd, sessions r' !! id = Some (revived r id cwd rec);
  rs_others : ∀ id rec, sessions r' !! id = Some rec →
    ∃ rec0, sessions r !! id = Some rec0 ∧ is_durable rec0 = true;
}.

Lemma recover_same op rec :
  s_descriptor (sr_snapshot (recover op rec)) = s_descriptor (sr_snapshot rec) ∧
  sr_attachments (recover op rec) = sr_attachments rec.
Proof. unfold recover. by case_bool_decide. Qed.

Lemma revived_descriptor r id cwd rec :
  s_descriptor (sr_snapshot (revived r id cwd rec)) = s_descriptor (Restore cwd (sr_snapshot rec)) ∧
  sr_attachments (revived r id cwd rec) = ∅.
Proof. unfold revived. destruct (in_flight r !! id); simpl; [apply recover_same|done]. Qed.

Lemma restored_inv r r' : Inv r → Restored r r' → Inv r'.
Proof.
  intros Hinv [Hh Hf Hd Ho].
  assert (Hback : ∀ id rec', sessions r' !! id = Some rec' →
    ∃ rec cwd, sessions r !! id = Some rec ∧ rec' = revived r id cwd rec).
  { intros id rec' Hid. destruct (Ho _ _ Hid) as (rec & Hrec & Hdur).
    destruct (Hd _ _ Hrec Hdur) as (cwd & Hid'). exists rec, cwd. split; congruence. }
  split.
  - intros id rec' (rec & cwd & Hrec & ->)%Hback. destruct (inv_record _ Hinv _ _ Hrec) as [Hi Hn _ _ _].
    destruct (revived_descriptor r id cwd rec) as [Hs Ha].
    split; unfold record_name; rewrite ?Hs, ?Ha, ?Hh; try done. rewrite size_empty. lia.
  - intros id id' x y (rec & cwd & Hrec & ->)%Hback (rec' & cwd' & Hrec' & ->)%Hback Hxy.
    unfold record_name in Hxy.
    rewrite (proj1 (revived_descriptor r id cwd rec)), (proj1 (revived_descriptor r id' cwd' rec')) in Hxy.
    by eapply (inv_names _ Hinv).
  - intros id op. by rewrite Hf, lookup_empty.
Qed.

(** The state file after loading: it is written again when there was something
    to note. *)
Definition reloaded r r' d d' : Prop :=
  if bool_decide (in_flight r = ∅) then sessions_json d' = sessions_json d
  else ∃ text, saves r' text ∧ sessions_json d' = Some text.

Lemma operations_nil r : ds_in_flight (durable_state r) = [] ↔ in_flight r = ∅.
Proof.
  simpl. rewrite sort_on_nil_iff. split; [|intros ->; by rewrite map_to_list_empty].
  intros Hl%fmap_nil_inv. by apply map_to_list_empty_iff.
Qed.

(** The part of loading that reads the sessions; [k] is what follows. *)
Lemma wp_load_saved r text (d : Disk W) (Q : _ → _ → Prop) (R : _ → _ → Prop) :
  Inv r → Plain r → saves r text → sessions_json d = Some text →
  (∀ e d', HostError e → sessions_json d' = sessions_json d → R e d') →
  (∀ m d', Loaded ∅ (ds_sessions (durable_state r)) m → sessions_json d' = sessions_json d →
     wp (recover_in_flight m (ds_in_flight (durable_state r))) (λ m d'', 
       let r' := {| host_id := host; host_alias := alias; user := owner; sessions := m; in_flight := ∅ |} in
       if bool_decide (in_flight r = ∅) then Q r' d'' else wp (persist r') (λ _, Q r') R d'') R d') →
  wp (load host alias owner) Q R d.
Proof.
  intros Hinv Hplain Hs Hd HR Hk. pose proof (durable_state_loadable r Hinv) as [_ Hv Hn Hi Hops].
  apply state_roundtrip in Hs as Hparse; [|by apply plain_state]. unfold load. rewrite wp_bind, wp_asking, wp_bind, wp_ensure.
  destruct (secure_directory (world d)).1; [|apply HR; [left; set_solver|done]].
  rewrite wp_bind, wp_get; simpl. rewrite Hd, wp_bind, wp_bind, wp_asking, wp_bind, wp_ensure.
  destruct (read_file _).1; [|apply HR; [left; set_solver|done]].
  rewrite wp_bind, wp_need, Hparse, wp_bind, wp_ensure. cbn [ds_format_version durable_state N.eqb Pos.eqb].
  rewrite wp_bind. eapply wp_wand; [apply wp_load_sessions; [done..| |done|]| |];
    [by intros ??; apply not_elem_of_empty|by intros ??; apply lookup_empty| |
     intros e d' [He Hd']; apply HR; [done|by rewrite Hd', Hd]].
  intros m d1 [Hm Hd1]. rewrite wp_bind.
  eapply wp_wand; [apply Hk; [done|by rewrite Hd1, Hd]| |done].
  intros m' d2 Hm'. rewrite wp_ret, wp_bind. case_bool_decide as Hnil.
  - apply operations_nil in Hnil. rewrite bool_decide_true by done. cbn [negb]. by rewrite wp_ret, wp_ret.
  - rewrite bool_decide_false by (by intros ?%operations_nil). cbn [negb]. exact Hm'.
Qed.

(** What was saved is restored, unless the host refuses. *)
Lemma load_restores r text (d : Disk W) :
  Inv r → NoOrphans r → Plain r → saves r text → sessions_json d = Some text →
  wp (load host alias owner) (λ r' d', Restored r r' ∧ reloaded r r' d d')
    (λ e d', HostError e ∧ sessions_json d' = sessions_json d) d.
Proof.
  intros Hinv Hno Hplain Hs Hd. pose proof (λ op, operations_anchored r op Hinv Hno) as Hin.
  eapply wp_load_saved; [done..|]. intros m d1 [Ho Hm] Hd1.
  apply wp_recover_in_flight; [by apply durable_state_loadable| |].
  { intros op (s & -> & Hop)%Hin%list_elem_of_fmap. destruct (Hm _ Hop) as [cwd ->]. done. }
  intros m' Ho' Hm'. set (r' := {| sessions := m' |}). cbn zeta.
  assert (HR : Restored r r').
  { split; [done|done| |].
    - intros id rec Hrec Hdur. destruct (Hm (at_rest rec)) as [cwd Hcwd]; [apply elem_of_durable; eauto|].
      assert (snapshot_id (at_rest rec) = id) as Hid by apply (inv_record _ Hinv _ _ Hrec). rewrite Hid in Hcwd.
      exists cwd. simpl. unfold revived. destruct (in_flight r !! id) as [op|] eqn:Hop; simpl.
      + assert (if_session_id op = id) as <- by (by apply (inv_in_flight _ Hinv)).
        rewrite Hm' by (by apply elem_of_operations). by rewrite Hcwd.
      + rewrite Ho'; [done|]. intros (op & -> & Hel%elem_of_operations)%list_elem_of_fmap; [congruence|done].
    - intros id rec. simpl. intros Hid. destruct (decide (id ∈ snapshot_id <$> ds_sessions (durable_state r)))
        as [(s & -> & (id' & rec0 & Hrec0 & Hdur & ->)%elem_of_durable)%list_elem_of_fmap|Hne].
      + assert (snapshot_id (at_rest rec0) = id') as -> by apply (inv_record _ Hinv _ _ Hrec0). eauto.
      + rewrite Ho' in Hid by (intros (op & -> & Hop%Hin)%list_elem_of_fmap; by apply Hne).
        by rewrite Ho, lookup_empty in Hid. }
  unfold reloaded. case_bool_decide as Hnil; [by split|].
  apply wp_persist; [by eapply restored_inv| |].
  - intros t d' Ht Hd'. split; [done|eauto].
  - intros e d' He Hd'. split; [left; set_solver|congruence].
Qed.

(** A state file that names an operation of a session it does not hold is
    refused, whatever the host. *)
Lemma load_refuses r text (d : Disk W) id op :
  Inv r → Plain r → saves r text → sessions_json d = Some text →
  in_flight r !! id = Some op → sessions r !! id = None →
  wp (load host alias owner) (λ _ _, False) (λ _ _, True) d.
Proof.
  intros Hinv Hplain Hs Hd Hop Hid. eapply wp_load_saved; [done..|]. intros m d1 [Ho _] _.
  assert (if_session_id op = id) as <- by (by apply (inv_in_flight _ Hinv)).
  assert (Hm : m !! if_session_id op = None).
  { rewrite Ho, lookup_empty; [done|]. intros (s & Heq & (id & rec & Hrec & _ & ->)%elem_of_durable)%list_elem_of_fmap.
    assert (snapshot_id (at_rest rec) = id) by apply (inv_record _ Hinv _ _ Hrec). congruence. }
  apply (elem_of_operations r op Hinv) in Hop. clear Ho Hid. revert m Hm d1.
  induction (ds_in_flight (durable_state r)) as [|op' l IH]; intros m Hm d1; [by apply elem_of_nil in Hop|].
  simpl. rewrite wp_bind, wp_need. destruct (m !! if_session_id op') as [rec'|] eqn:Hm'; [|done].
  apply elem_of_cons in Hop as [->|Hop]; [congruence|]. apply IH; [done|].
  rewrite lookup_insert_ne; [done|]. intros Heq. congruence.
Qed.

(** A state file that JSON does not read back is refused. *)
Lemma unread_state_is_refused text (d : Disk W) :
  sessions_json d = Some text → state_from_str text = None →
  wp (load host alias owner) (λ _ _, False) (λ _ _, True) d.
Proof.
  intros Hd Hparse. unfold load. rewrite wp_bind, wp_asking, wp_bind, wp_ensure.
  destruct (secure_directory (world d)).1; [|done].
  rewrite wp_bind, wp_get; simpl. rewrite Hd, wp_bind, wp_bind, wp_asking, wp_bind, wp_ensure.
  destruct (read_file _).1; [|done]. by rewrite wp_bind, wp_need, Hparse.
Qed.

(** What is loaded is as plain as what was saved. *)
Lemma restored_plain r r' : Plain r → Restored r r' → Plain r'.
Proof.
  intros Hp [_ _ Hd Ho] id rec' Hid _. destruct (Ho _ _ Hid) as (rec & Hrec & Hdur).
  destruct (Hd _ _ Hrec Hdur) as (cwd & Hid'). rewrite Hid in Hid'. injection Hid' as ->.
  specialize (Hp _ _ Hrec Hdur). unfold revived. destruct (in_flight r !! id) as [op|]; [|exact Hp].
  simpl. unfold recover. simpl. case_bool_decide; [exact Hp|].
  unfold history_values. simpl. rewrite bind_app, Forall_app. split; [exact Hp|constructor].
Qed.
End load.
End restart.
