(* ===== verification/RegistryProps.v ===== *)
(** What clients and operators of the session registry can rely on
    ([Registry], [RegistrySpec], [RegistryRestart]), and a registry that is
    run. *)
From Stdlib Require Import Ascii.
From S2P Require Import Prelude CallId Chat Effects SessionModel Registry RegistrySpec.

Section props.
Context {A W : Type} `{!StateSerde A, !SessionHost W, !RegistryLaws A W, !StateLaws A}.
Implicit Types (r : SessionRegistry A) (rec : SessionRecord A) (d : Disk W) (st : Store A W).

(** * Histories of a daemon *)

(** No operation in flight loses its session: nobody closes a session while it
    executes, and no fresh id is in use. *)
Definition Unharmed r r' : Prop := ∀ id op rec, in_flight r !! id = Some op →
  sessions r !! id = Some rec → is_durable rec = true →
  ∃ rec', sessions r' !! id = Some rec' ∧ is_durable rec' = true.

(** What a daemon may have gone through since its state directory was empty:
    operations that succeed or fail on sessions of plain values, and restarts at
    any time. *)
Inductive Reach : Store A W → Prop :=
| reach_first host alias owner (d d' : Disk W) r :
    sessions_json d = None → load host alias owner d = (d', Done r) → Reach {| registry := r; disk := d' |}
| reach_op st st' op res :
    Reach st → run_op op st = (st', res) → Unharmed (registry st) (registry st') → Plain (registry st') → Reach st'
| reach_restart st w host alias owner d' r :
    Reach st → load host alias owner {| sessions_json := file_of st; world := w |} = (d', Done r) →
    Reach {| registry := r; disk := d' |}.

(** The file saves a registry the daemon could be restarted with. *)
Definition FileOk (text : option string) : Prop := ∀ t, text = Some t →
  ∃ r, Inv r ∧ NoOrphans r ∧ Plain r ∧ saves r t.

Record Good st : Prop := {
  good_inv : Inv (registry st);
  good_orphans : NoOrphans (registry st);
  good_file : FileOk (file_of st);
}.

Lemma unharmed_idle r r' : in_flight r = ∅ → Unharmed r r'.
Proof. intros Hr id op rec. by rewrite Hr, lookup_empty. Qed.

Lemma no_orphans_step r r' : NoOrphans r → InFlightFrom r r' → Unharmed r r' → NoOrphans r'.
Proof.
  intros Hno Hf Hu id op Hop. destruct (Hf _ _ Hop) as [Hold|?]; [|done].
  destruct (Hno _ _ Hold) as (rec & Hid & Hd). by eapply Hu.
Qed.

Lemma good_op st st' op res :
  Good st → run_op op st = (st', res) → Unharmed (registry st) (registry st') → Plain (registry st') → Good st'.
Proof.
  intros [Hi Hno Hf] Hrun Hu Hp.
  destruct (wp_run _ _ _ _ (op_ends op st Hi)) as (st2 & [(a & Hr & [Hi' Hf' Hj _])|(e & Hr & [Hi' Hf' Hj])]);
    rewrite Hrun in Hr; injection Hr as <- ->;
    (split; [done|by eapply no_orphans_step|]); [|by rewrite Hj].
  destruct Hj as [->|(text & Htext & Hs)]; [done|]. intros t Ht. rewrite Htext in Ht. injection Ht as <-.
  exists (registry st'). split_and!; [done|by eapply no_orphans_step|done|done].
Qed.

Lemma no_orphans_idle r : in_flight r = ∅ → NoOrphans r.
Proof. intros Hr id op. by rewrite Hr, lookup_empty. Qed.

(** The first start. *)
Lemma load_first host alias owner (d : Disk W) :
  sessions_json d = None →
  wp (load host alias owner)
    (λ r' d', r' = {| host_id := host; host_alias := alias; user := owner; sessions := ∅; in_flight := ∅ |} ∧
      sessions_json d' = None) (λ e _, HostError e) d.
Proof.
  intros Hd. unfold load. rewrite wp_bind, wp_asking, wp_bind, wp_ensure.
  destruct (secure_directory (world d)).1; [|left; set_solver].
  rewrite wp_bind, wp_get; simpl. rewrite Hd. by rewrite wp_bind, wp_ret, wp_bind, wp_ret, wp_ret.
Qed.

Lemma good_load host alias owner (d d' : Disk W) r :
  FileOk (sessions_json d) → load host alias owner d = (d', Done r) → Good {| registry := r; disk := d' |}.
Proof.
  intros Hf Hl. destruct (sessions_json d) as [text|] eqn:Hd.
  - destruct (Hf text) as (r0 & Hi & Hno & Hp & Hs); [done|].
    destruct (wp_Done _ _ _ _ _ _ (load_restores host alias owner r0 text d Hi Hno Hp Hs Hd) Hl) as [HR Hrel].
    assert (Inv r) as Hinv by (by eapply restored_inv).
    assert (NoOrphans r) as Hno' by by eapply no_orphans_idle, HR.
    split; [done..|]. unfold reloaded in Hrel. intros t Ht. unfold file_of in Ht. simpl in Ht.
    case_bool_decide; [rewrite Hrel in Ht; apply Hf; congruence|]. destruct Hrel as (t' & Hs' & Ht').
    exists r. split_and!; [done..|by eapply restored_plain|congruence].
  - destruct (wp_Done _ _ _ _ _ _ (load_first host alias owner d Hd) Hl) as [-> Hj].
    split; [apply Inv_empty|by apply no_orphans_idle|]. intros t Ht. unfold file_of in Ht. simpl in Ht. congruence.
Qed.

Lemma reach_good st : Reach st → Good st.
Proof.
  induction 1 as [host alias owner d d' r Hd Hl|st st' op res _ IH Hrun Hu Hp|st w host alias owner d' r _ IH Hl].
  - eapply good_load; [|exact Hl]. rewrite Hd. by intros t ?.
  - by eapply good_op.
  - eapply good_load; [|exact Hl]. apply IH.
Qed.

(** The operations of the registry keep it consistent, whatever the host answers: none panics, and
    afterwards every session is filed under its id, has a valid name no other session has, and at
    most one controller; so a selector is never ambiguous. An operation that fails leaves the state
    file as it was. *)
Lemma operations_keep_registry op st st' res :
  Inv (registry st) → run_op op st = (st', res) →
  res ≠ Panic ∧ Inv (registry st') ∧ (∀ e, res = Fail e → file_of st' = file_of st).
Proof.
  intros Hi Hrun. destruct (wp_run _ _ _ _ (op_ends op st Hi)) as (st2 & [(a & Hr & He)|(e & Hr & He)]);
    rewrite Hrun in Hr; injection Hr as <- ->; (split_and!; [done|apply He|]).
  - by intros e.
  - intros e' _. apply He.
Qed.

(** A daemon can always be restarted from what it left behind - after any history of operations,
    failures and restarts in which no session was closed while it executed - unless the host itself
    refuses: the state directory, the state file or a working directory cannot be used. It never
    finds the state file malformed, a name or id twice, or an operation without its session. *)
Lemma restart_never_refused st w host alias owner :
  Reach st →
  wp (load host alias owner) (λ r _, Inv r ∧ in_flight r = ∅) (λ e _, HostError e)
    {| sessions_json := file_of st; world := w |}.
Proof.
  intros [Hi Hno Hf]%reach_good. destruct (file_of st) as [text|] eqn:Hd.
  - destruct (Hf text) as (r0 & Hi0 & Hno0 & Hp0 & Hs); [done|].
    eapply wp_wand; [by eapply load_restores| |by intros e d' [? _]].
    intros r d' [HR _]. split; [by eapply restored_inv|apply HR].
  - eapply wp_wand; [by apply load_first| |done]. intros r d' [-> _]. split; [apply Inv_empty|done].
Qed.


(** * Controllers *)

Lemma one_controller_eq (c : gset string) client : size c ≤ 1 → client ∈ c → c = {[client]}.
Proof.
  intros Hc Hin. apply set_eq. intros x. split; [|set_solver]. intros Hx.
  apply elem_of_singleton. apply dec_stable. intros Hne.
  assert (size ({[client; x]} : gset string) ≤ size c) as Hle by (apply subseteq_size; set_solver).
  rewrite size_union in Hle by set_solver. rewrite !size_singleton in Hle. lia.
Qed.

(** Operations by which a client would take or change a session. *)
Inductive Touches r (id client : string) : Op (A := A) → Prop :=
| touch_attach selector role : resolves r selector id → Touches r id client (OpAttach client selector role)
| touch_update model cwd history : Touches r id client (OpUpdate client id model cwd history)
| touch_close selector : resolves r selector id → Touches r id client (OpClose client selector).

Lemma resolves_unique r selector id id' rec rec' :
  Inv r → sessions r !! id = Some rec → sessions r !! id' = Some rec' →
  resolves r selector id → resolves r selector id' → id = id'.
Proof.
  intros Hi Hid Hid' [->|(Hn & x & Hx & Hsx)] [->|(Hn' & y & Hy & Hsy)]; [done|congruence..|].
  eapply (inv_names _ Hi); [exact Hx|exact Hy|congruence].
Qed.

Lemma touch_refused op st id rec client other :
  Inv (registry st) → sessions (registry st) !! id = Some rec → client ∈ sr_attachments rec →
  other ≠ client → Touches (registry st) id other op →
  wp (run_op op) (λ _ _, False) (λ _ st', registry st' = registry st) st.
Proof.
  intros Hi Hid Hin Hne Ht.
  assert (Hrec : sr_attachments rec = {[client]}).
  { apply one_controller_eq; [|done]. by apply (inv_record _ Hi _ _ Hid). }
  destruct Ht as [selector role Hsel|model cwd history|selector Hsel]; simpl.
  - unfold attach. rewrite !wp_bind, wp_ensure. case_bool_decide; [|done]. rewrite wp_bind.
    apply wp_resolve; [done| |done]. intros id' rec' Hid' Hsel'.
    assert (id' = id) as -> by (by eapply resolves_unique). rewrite Hid in Hid'. injection Hid' as <-.
    rewrite wp_bind. eapply wp_expect_record; [done|]. rewrite wp_bind, wp_ensure, Hrec.
    rewrite !bool_decide_false by set_solver. done.
  - unfold update. rewrite !wp_bind. apply wp_io_on_host; [apply directory_on_host| |done].
    intros p d Hd. rewrite wp_bind. apply wp_record_of; simpl; [|done]. intros rec' Hid'.
    rewrite Hid in Hid'. injection Hid' as <-. rewrite wp_bind, wp_ensure, Hrec.
    rewrite bool_decide_false by set_solver. done.
  - unfold close. rewrite !wp_bind. apply wp_resolve; [done| |done]. intros id' rec' Hid' Hsel'.
    assert (id' = id) as -> by (by eapply resolves_unique). rewrite Hid in Hid'. injection Hid' as <-.
    rewrite wp_bind. eapply wp_expect_record; [done|]. rewrite wp_bind, wp_ensure, Hrec.
    rewrite bool_decide_false by set_solver. done.
Qed.

Lemma attach_takes client selector role st :
  Inv (registry st) →
  wp (attach client selector role)
    (λ s st', role = Owner ∧ ∃ id rec, resolves (registry st) selector id ∧ snapshot_id s = id ∧
       sessions (registry st') !! id = Some rec ∧ sr_attachments rec = {[client]})
    (λ _ _, True) st.
Proof.
  intros Hi. pose proof (quiet_refl st Hi) as Hq. unfold attach. rewrite wp_bind, wp_ensure.
  case_bool_decide as Hrole; [|done]. rewrite wp_bind. apply wp_resolve; [done| |done].
  intros id rec Hid Hsel. rewrite wp_bind. eapply wp_expect_record; [done|]. rewrite wp_bind, wp_ensure.
  destruct (_ || _) eqn:Hfree; [|done]. rewrite wp_bind.
  assert (Hc : sr_attachments rec = ∅ ∨ client ∈ sr_attachments rec).
  { apply orb_true_iff in Hfree as [?%bool_decide_eq_true|?%bool_decide_eq_true]; auto. }
  assert (Hsize : size ({[client]} ∪ sr_attachments rec) ≤ 1).
  { apply controllers_grow; [by apply (inv_record _ Hi _ _ Hid)|done]. }
  eapply wp_on_attachments; [exact Hq|exact Hid|done|]. intros st1 Hq1 _ Hs1. rewrite wp_bind.
  eapply wp_quiet_host; [apply timestamp_on_host|exact Hq1| |done]. intros now st2 Hq2 Hr2.
  rewrite <-Hr2 in Hs1. rewrite wp_bind.
  eapply wp_on_snapshot; [apply (set_last_active_core now)|exact Hq2|by rewrite Hs1, lookup_insert_eq|].
  intros st3 Hq3 _ Hs3. rewrite wp_bind. eapply wp_expect_record; [by rewrite Hs3, lookup_insert_eq|].
  rewrite wp_ret. split; [done|]. exists id. eexists. split_and!; [done| |by rewrite Hs3, lookup_insert_eq|].
  - apply (inv_record _ Hi _ _ Hid).
  - simpl. apply one_controller_eq; [done|set_solver].
Qed.

(** A session has one controller. Attaching leaves exactly the client that attached, which asked to
    be the owner; and while a client is attached, nobody else can attach to its session, change it
    or close it, by id or by name: the request fails and leaves the registry as it was. *)
Lemma controller_is_exclusive st client :
  Inv (registry st) →
  (∀ selector role st' s, attach client selector role st = (st', Done s) →
     role = Owner ∧ ∃ id rec, resolves (registry st) selector id ∧ snapshot_id s = id ∧
       sessions (registry st') !! id = Some rec ∧ sr_attachments rec = {[client]}) ∧
  (∀ id rec other op st' res, sessions (registry st) !! id = Some rec → client ∈ sr_attachments rec →
     other ≠ client → Touches (registry st) id other op → run_op op st = (st', res) →
     (∃ e, res = Fail e) ∧ registry st' = registry st).
Proof.
  intros Hi. split.
  - intros selector role st' s Hrun. by apply (wp_Done _ _ _ _ _ _ (attach_takes client selector role st Hi) Hrun).
  - intros id rec other op st' res Hid Hin Hne Ht Hrun.
    destruct (wp_run _ _ _ _ (touch_refused op st id rec client other Hi Hid Hin Hne Ht))
      as (st2 & [(a & _ & [])|(e & Hr & Hreg)]).
    rewrite Hrun in Hr. injection Hr as <- ->. eauto.
Qed.

(** * A session closed while it executes *)

Lemma close_removes client selector st :
  Inv (registry st) →
  wp (close client selector)
    (λ id st', resolves (registry st) selector id ∧ is_Some (sessions (registry st) !! id) ∧
       registry st' = set_sessions (delete id) (registry st) ∧ saved st') (λ _ _, True) st.
Proof.
  intros Hi. pose proof (quiet_refl st Hi) as Hq. unfold close. rewrite wp_bind.
  apply wp_resolve; [done| |done]. intros id rec Hid Hsel.
  rewrite wp_bind. eapply wp_expect_record; [done|]. rewrite wp_bind, wp_ensure.
  case_bool_decide; [|done]. rewrite wp_bind, wp_changing, wp_bind.
  apply wp_persisting; [by apply Inv_delete| |done]. intros text d Hs Hd. rewrite wp_ret.
  split_and!; [done|by rewrite Hid|done|]. by exists text.
Qed.

Lemma update_state_unknown id cwd history st :
  sessions (registry st) !! id = None →
  wp (update_execution_state id cwd history) (λ _ _, False) (λ _ st', registry st' = registry st) st.
Proof.
  intros Hid. unfold update_execution_state. rewrite wp_bind. apply wp_io_on_host; [apply directory_on_host| |done].
  intros p d Hd. rewrite wp_bind. apply wp_record_of; simpl; [|done]. intros rec Hrec. congruence.
Qed.

(** Closing a session while it executes keeps the daemon from ever starting again. Nothing refuses
    it: the close is acknowledged. The operation stays recorded in flight - the turn, when it ends,
    cannot clear it any more, since updating the session fails - and a daemon started on the state
    file, on whatever host, fails. *)
Lemma closing_busy_session_stops_daemon st st' client selector id op :
  Inv (registry st) → close client selector st = (st', Done id) → Plain (registry st') →
  in_flight (registry st) !! id = Some op →
  (∀ cwd history st'' res, update_execution_state id cwd history st' = (st'', res) →
     (∃ e, res = Fail e) ∧ registry st'' = registry st') ∧
  (∀ host alias owner w, ∃ d e,
     load host alias owner {| sessions_json := file_of st'; world := w |} = (d, Fail e)).
Proof.
  intros Hi Hrun Hp Hop.
  destruct (wp_Done _ _ _ _ _ _ (close_removes client selector st Hi) Hrun) as (_ & _ & Hr & text & Hd & Hs).
  assert (Hid : sessions (registry st') !! id = None) by (rewrite Hr; apply lookup_delete_eq).
  split.
  - intros cwd history st'' res Hup.
    destruct (wp_run _ _ _ _ (update_state_unknown id cwd history st' Hid)) as (st2 & [(a & _ & [])|(e & He & Hreg)]).
    rewrite Hup in He. injection He as <- ->. eauto.
  - intros host alias owner w.
    assert (Hinv : Inv (registry st')) by (rewrite Hr; by apply Inv_delete).
    destruct (wp_run _ _ _ _ (load_refuses host alias owner (registry st') text
      {| sessions_json := file_of st'; world := w |} id op Hinv Hp Hs Hd ltac:(by rewrite Hr) Hid))
      as (d & [(a & _ & [])|(e & He & _)]). eauto.
Qed.
End props.

(** * A registry that is run *)

Definition sample_host : SessionHost N := {|
  system_time w := (Some (w * 10)%N, w);
  new_v4 w := ("id-" +:+ fmt_N w, (w + 1)%N);
  canonicalize w path := (Some path, w);
  is_dir w _ := (true, w);
  read_dir w _ := (true, w);
  secure_directory w := (true, w);
  read_file w := (true, w);
  replace_file w _ := (true, w);
  map_order _ _ m := map_to_list m;
|}.
#[export] Existing Instance sample_host.

Definition sample_model : ModelBinding := {|
  mb_profile_name := None; mb_provider := "ollama"; mb_model := "qwen"; mb_base_url := "http://localhost:11434";
  mb_api_key_env := None; mb_max_history_bytes := None; mb_context_tokens := None;
  mb_reserve_output_tokens := None |}.

Definition sample_creation : SessionCreation () := {|
  c_name := "bees"; c_model := sample_model; c_cwd := "/home/rich"; c_persistence := PersistDurable;
  c_visibility := HostOnly; c_history := [msg_user "before"] |}.

Definition sample_descriptor : SessionDescriptor := {|
  d_id := "id-0"; d_name := "bees"; d_host_id := "host"; d_host_alias := "local"; d_user := "rich";
  d_model := sample_model; d_cwd := "/home/rich"; d_persistence := PersistDurable; d_visibility := HostOnly;
  d_access_mode := SingleUser; d_status := Detached; d_activity := ActIdle; d_attached_clients := 0;
  d_created_at_unix_ms := 0; d_last_active_at_unix_ms := 0 |}.

Definition sample_operation : DurableInFlight := {|
  if_session_id := "id-0"; if_operation_id := "turn-1"; if_route := "agent" |}.

Definition sample_state (history : list (ChatMessage ())) (operations : list DurableInFlight) : DurableState () := {|
  ds_format_version := 1;
  ds_sessions := [{| s_descriptor := sample_descriptor; s_history := history |}];
  ds_in_flight := operations |}.

(** The state files of the sample. *)
Definition sample_states : list (string * DurableState ()) := [
  ("created", sample_state [msg_user "before"] []);
  ("executing", sample_state [msg_user "before"] [sample_operation]);
  ("recovered", sample_state [msg_user "before"; msg_system (recovery_notice sample_operation)] []);
  ("terminal", sample_state [msg_user "before"] [{|
     if_session_id := "id-0"; if_operation_id := "id-1"; if_route := "shell_terminal" |}]);
  ("turn", sample_state [msg_user "before"] [{|
     if_session_id := "id-0"; if_operation_id := "id-1"; if_route := "agent" |}]);
  ("answered", {| ds_format_version := 1;
     ds_sessions := [{| s_descriptor := SessionModel.set_last_active 20 sample_descriptor;
                        s_history := [msg_user "before"; msg_user "hello"; msg_system "hi"] |}];
     ds_in_flight := [] |});
  ("closed", {| ds_format_version := 1; ds_sessions := []; ds_in_flight := [sample_operation] |})].

#[export] Instance SampleCall_eq_dec : EqDecision (ToolCall ()).
Proof. solve_decision. Defined.
#[export] Instance SampleMessage_eq_dec : EqDecision (ChatMessage ()).
Proof. solve_decision. Defined.
#[export] Instance SessionDescriptor_eq_dec : EqDecision SessionDescriptor.
Proof. solve_decision. Defined.
#[export] Instance SampleSnapshot_eq_dec : EqDecision (SessionSnapshot ()).
Proof. solve_decision. Defined.
#[export] Instance DurableInFlight_eq_dec : EqDecision DurableInFlight.
Proof. solve_decision. Defined.
#[export] Instance SampleState_eq_dec : EqDecision (DurableState ()).
Proof. solve_decision. Defined.

Definition sample_serde : StateSerde () := {|
  state_to_vec_pretty s := fst <$> find (λ e, bool_decide (e.2 = s)) sample_states;
  state_from_str text := snd <$> find (λ e, bool_decide (e.1 = text)) sample_states;
|}.
#[export] Existing Instance sample_serde.

#[export] Instance sample_registry_laws : RegistryLaws () N.
Proof. split. done. Qed.

Lemma sample_reads_back (s : DurableState ()) text : state_to_vec_pretty s = Some text → state_from_str text = Some s.
Proof.
  cbn [state_to_vec_pretty state_from_str sample_serde].
  intros ([t s'] & Hf & Ht)%fmap_Some. apply find_some in Hf as [Hin Hs%bool_decide_eq_true]. simpl in Hs, Ht.
  subst s' t. simpl in Hin.
  repeat destruct Hin as [[= <- <-]|Hin]; [by vm_compute..|done].
Qed.

#[export, refine] Instance sample_state_laws : StateLaws () := {| plain _ := True |}.
Proof. intros s text Hs _. by apply sample_reads_back. Defined.

Lemma sample_plain r : Plain (A := ()) r.
Proof. intros id rec _ _. by apply Forall_true. Qed.

Definition sample_start : Store () N :=
  match load "host" "local" "rich" {| sessions_json := None; world := 0%N |} with
  | (d, Done r) => {| registry := r; disk := d |}
  | (d, _) => {| registry := {| host_id := ""; host_alias := ""; user := ""; sessions := ∅; in_flight := ∅ |}; disk := d |}
  end.
Definition sample_created : Store () N := (run_op (OpCreate "client" sample_creation) sample_start).1.
Definition sample_begin : Op (A := ()) := OpBegin "id-0" "turn-1" "agent".
Definition sample_executing : Store () N := (run_op sample_begin sample_created).1.
Definition sample_closed : Store () N := (close "client" "bees" sample_executing).1.

(** The session comes back detached, with the notice. *)
Example sample_restart :
  (λ r, (λ rec, (s_history (sr_snapshot rec), d_status (s_descriptor (sr_snapshot rec)))) <$> sessions r !! "id-0") <$>
    (match (load "host" "local" "rich" {| sessions_json := file_of sample_executing; world := 5%N |}).2 with
     | Done r => Some r | _ => None end) =
  Some (Some ([msg_user "before"; msg_system (recovery_notice sample_operation)], Detached)).
Proof. vm_compute. reflexivity. Qed.

Lemma sample_created_reach : Reach sample_created.
Proof.
  eapply (reach_op sample_start _ (OpCreate "client" sample_creation)).
  - eapply (reach_first "host" "local" "rich" {| sessions_json := None; world := 0%N |}); [done|].
    vm_compute. reflexivity.
  - vm_compute. reflexivity.
  - apply unharmed_idle. by vm_compute.
  - apply sample_plain.
Qed.

Lemma sample_executing_reach : Reach sample_executing.
Proof.
  eapply (reach_op sample_created _ sample_begin); [exact sample_created_reach|by vm_compute| |apply sample_plain].
  apply unharmed_idle. by vm_compute.
Qed.

Lemma operations_keep_registry_witness :
  Inv (registry (run_op (OpClose "client" "bees") sample_executing).1).
Proof.
  eapply (operations_keep_registry (OpClose "client" "bees") sample_executing);
    [apply reach_good, sample_executing_reach|vm_compute; reflexivity].
Defined.

Lemma restart_never_refused_witness :
  wp (load "host" "local" "rich") (λ r _, Inv r ∧ in_flight r = ∅) (λ e _, HostError e)
    {| sessions_json := file_of sample_executing; world := 5%N |}.
Proof. apply (restart_never_refused sample_executing). exact sample_executing_reach. Defined.


Lemma controller_is_exclusive_witness :
  (∃ e, (run_op (OpClose "other" "bees") sample_executing).2 = Fail e) ∧
  registry (run_op (OpClose "other" "bees") sample_executing).1 = registry sample_executing.
Proof.
  pose proof (controller_is_exclusive sample_executing "client"
    (good_inv _ (reach_good _ sample_executing_reach))) as [_ He].
  refine (He "id-0" _ "other" (OpClose "other" "bees") _ _ eq_refl _ _ _ _).
  - by vm_compute.
  - done.
  - constructor. right. split; [by vm_compute|]. eexists. split; [vm_compute; reflexivity|done].
  - by destruct (run_op _ _).
Defined.

Lemma closing_busy_session_stops_daemon_witness :
  ∃ d e, load "host" "local" "rich" {| sessions_json := file_of sample_closed; world := 5%N |} = (d, Fail e).
Proof.
  apply (closing_busy_session_stops_daemon sample_executing sample_closed "client" "bees" "id-0" sample_operation);
    [apply reach_good, sample_executing_reach|by vm_compute|apply sample_plain|by vm_compute].
Defined.
