(* ===== verification/Execution.v ===== *)
(** The turns of a session ([crates/xshell-session/src/execution.rs]): its
    journal of events, the approvals clients give, and the admission and the
    end of a turn. [A] is the type of JSON values.

    Every function here runs under the lock of its session's state. The flag a
    turn shares with its observer is set in [flags] under the turn's id. *)
From Stdlib Require Import Ascii.
From S2P Require Import Prelude Sensitive Policy Budget CallId Chat Compaction Engine.
From S2P Require Import Effects SessionModel Registry AuditModel.

Definition MAX_JOURNAL_EVENTS : nat := N.to_nat 8192.
Definition MAX_JOURNAL_BYTES : N := 16 * 1024 * 1024.
(** In milliseconds. *)
Definition MAX_EVENT_WAIT : N := 30 * 1000.

Section data.
Context {A : Type}.

Inductive SessionEventKind : Type :=
| KTurnStarted (input : TurnInput) (approval : ApprovalPolicy) (requested_approval : option ApprovalPolicy)
    (limits requested_limits : option TurnLimits)
| KExecution (event : Event A)
| KShellOutput (stream text : string)
| KWorkingDirectoryChanged (cwd : string)
| KShellFinished (command status : string)
| KTurnCompleted
| KTurnFailed (message : string) (reason : option TurnFailureReason)
| KTurnCancelled.

Record SessionEvent := {
  ev_sequence : N;
  ev_turn_id : string;
  ev_timestamp_unix_ms : N;
  ev_event : SessionEventKind;
}.

Record EventBatch := {
  eb_events : list SessionEvent;
  eb_truncated_before : option N;
  eb_next_sequence : N;
  eb_active_turn_id : option string;
}.

Record ApprovalReply := {
  ar_turn_id : string;
  ar_call_id : string;
  ar_decision : ApprovalDecision;
}.

Record ExecutionState := {
  events : list SessionEvent;
  event_bytes : N;
  next_sequence : N;
  active : option string;
  approvals : gmap (string * string) ApprovalDecision;
  pending_approvals : gset (string * string);
  flags : gset string;
}.

Definition execution_new : ExecutionState := {|
  events := []; event_bytes := 0; next_sequence := 1; active := None; approvals := ∅;
  pending_approvals := ∅; flags := ∅ |}.
End data.
Arguments SessionEventKind : clear implicits.
Arguments SessionEvent : clear implicits.
Arguments EventBatch : clear implicits.
Arguments ExecutionState : clear implicits.

(** The length of an event in JSON, when it can be encoded. *)
Class EventSerde (A : Type) := event_to_vec_len : SessionEvent A → option N.

Section journal.
Context {A : Type} `{!EventSerde A}.
Abbreviation State := (ExecutionState A).
Abbreviation Kind := (SessionEventKind A).
Abbreviation Result := (Outcome string).

Definition set_events (l : list (SessionEvent A)) (bytes next : N) (s : State) : State := {|
  events := l; event_bytes := bytes; next_sequence := next; active := active s; approvals := approvals s;
  pending_approvals := pending_approvals s; flags := flags s |}.
Definition set_active (turn : option string) (s : State) : State := {|
  events := events s; event_bytes := event_bytes s; next_sequence := next_sequence s; active := turn;
  approvals := approvals s; pending_approvals := pending_approvals s; flags := flags s |}.
Definition set_approvals (a : gmap (string * string) ApprovalDecision) (p : gset (string * string)) (s : State) :
    State := {|
  events := events s; event_bytes := event_bytes s; next_sequence := next_sequence s; active := active s;
  approvals := a; pending_approvals := p; flags := flags s |}.
Definition set_flag (turn : string) (s : State) : State := {|
  events := events s; event_bytes := event_bytes s; next_sequence := next_sequence s; active := active s;
  approvals := approvals s; pending_approvals := pending_approvals s; flags := {[turn]} ∪ flags s |}.

(** ** The journal *)

Definition encoded_bytes (e : SessionEvent A) : N := default 0%N (event_to_vec_len e).

Definition saturating_sub (a b : N) : N := a - b.

(** The loop that drops the oldest events; on an empty journal it would never
    end. *)
Fixpoint trim_journal (l : list (SessionEvent A)) (bytes : N) : Result (list (SessionEvent A) * N) :=
  if (MAX_JOURNAL_EVENTS <? length l)%nat || (MAX_JOURNAL_BYTES <? bytes)%N then
    match l with
    | removed :: l => trim_journal l (saturating_sub bytes (encoded_bytes removed))
    | [] => Panic
    end
  else Done (l, bytes).

Definition append_locked (now : N) (turn_id : string) (event : Kind) (s : State) : Result State :=
  let record := {|
    ev_sequence := next_sequence s; ev_turn_id := turn_id; ev_timestamp_unix_ms := now; ev_event := event |} in
  let! '(l, bytes) := trim_journal (events s ++ [record])
                        (saturating_add (event_bytes s) (encoded_bytes record)) in
  Done (set_events l bytes (N.min (next_sequence s + 1) U64_MAX) s).

Definition finish_locked (turn_id : string) (s : State) : State :=
  let s := if bool_decide (active s = Some turn_id) then set_active None s else s in
  set_approvals (filter (λ e, e.1.1 ≠ turn_id) (approvals s))
    (filter (λ key, key.1 ≠ turn_id) (pending_approvals s)) s.

(** [SessionExecution::conclude]. *)
Definition conclude (now : N) (turn_id : string) (event : Kind) (s : State) : Result State :=
  let! s := append_locked now turn_id event s in Done (finish_locked turn_id s).

Definition batch (after_sequence : N) (s : State) : EventBatch A := {|
  eb_events := filter (λ e, (after_sequence < ev_sequence e)%N) (events s);
  eb_truncated_before :=
    match ev_sequence <$> head (events s) with
    | Some first => if (N.min (after_sequence + 1) U64_MAX <? first)%N then Some first else None
    | None => None
    end;
  eb_next_sequence := next_sequence s;
  eb_active_turn_id := active s |}.

(** [SessionExecution::events]: [wakes] are the states found whenever the
    caller wakes up, each with whether the deadline has passed. *)
Fixpoint journal_events (after_sequence : N) (expired : bool) (s : State) (wakes : list (State * bool)) :
    EventBatch A :=
  if existsb (λ e, (after_sequence <? ev_sequence e)%N) (events s) || bool_decide (active s = None) || expired
  then batch after_sequence s
  else match wakes with
       | [] => batch after_sequence s
       | (s, expired) :: wakes => journal_events after_sequence expired s wakes
       end.

(** ** Approvals and cancellation *)

(** The reservation of a turn in [submit]. *)
Definition reserve (turn_id : string) (s : State) : Result State :=
  match active s with
  | Some turn => Fail ("session already has active turn " +:+ turn)
  | None => Done (set_active (Some turn_id) (set_approvals ∅ ∅ s))
  end.

(** [ExecutionCoordinator::approve]. *)
Definition reply (r : ApprovalReply) (s : State) : Result State :=
  if negb (bool_decide (active s = Some (ar_turn_id r))) then Fail "turn is no longer active"
  else
    let key := (ar_turn_id r, ar_call_id r) in
    if negb (bool_decide (key ∈ pending_approvals s)) then Fail "tool call is not waiting for approval"
    else Done (set_approvals (<[key := ar_decision r]> (approvals s)) (pending_approvals s ∖ {[key]}) s).

Definition cancel (turn_id : string) (s : State) : Result State :=
  match active s with
  | None => Fail "session has no active turn"
  | Some turn =>
      if bool_decide (turn = turn_id) then Done (set_flag turn s)
      else Fail ("turn " +:+ debug_str turn_id +:+ " is not active")
  end.

(** The part of [cancel_and_remove] on the state it removed. *)
Definition cancel_active (s : State) : State := from_option (λ turn, set_flag turn s) s (active s).

Definition activity (s : State) : SessionActivity :=
  match active s with
  | None => ActIdle
  | Some turn =>
      if bool_decide (turn ∈ flags s) then ActAgentTurn turn PhaseStopping
      else if bool_decide (pending_approvals s = ∅) then ActAgentTurn turn PhaseRunning
      else ActAgentTurn turn PhaseWaitingApproval
  end.

(** [DaemonObserver::emit], after the event was audited. *)
Definition emit (now : N) (turn_id : string) (event : Event A) (s : State) : Result State :=
  let s := match innermost event with
           | ApprovalRequested call _ =>
               set_approvals (approvals s) ({[(turn_id, call_id call)]} ∪ pending_approvals s) s
           | _ => s
           end in
  append_locked now turn_id (KExecution event) s.

(** One round of [DaemonObserver::approve]: a decision, or waiting on. *)
Definition take_approval (turn_id call_id : string) (s : State) : option ApprovalDecision * State :=
  let key := (turn_id, call_id) in
  if bool_decide (turn_id ∈ flags s) then (Some AbortTurn, s)
  else match approvals s !! key with
       | Some decision => (Some decision, set_approvals (delete key (approvals s)) (pending_approvals s) s)
       | None => (None, s)
       end.
End journal.
