(* ===== verification/JournalSpec.v ===== *)
(** The journal and the approvals of a session's turns ([Execution]), against
    everything that ever happened to them. *)
From Stdlib Require Import Ascii.
From S2P Require Import Prelude CallId Compaction CompactionSpec Engine Budget SessionModel Execution.

(** A [Vec] never holds more than [isize::MAX] bytes. *)
Class EventLaws (A : Type) `{!EventSerde A} : Prop :=
  event_len_bound (e : SessionEvent A) n : event_to_vec_len e = Some n → (n < 2 ^ 63)%N.

Section spec.
Context {A : Type} `{!EventSerde A, !EventLaws A}.
Implicit Types (s : ExecutionState A) (l : list (SessionEvent A)).

(** What threads do to a session's state, each under its lock. *)
Inductive Do : Type :=
| DoReserve (turn : string)
| DoAppend (now : N) (turn : string) (event : SessionEventKind A)
| DoEmit (now : N) (turn : string) (event : Event A)
| DoConclude (now : N) (turn : string) (event : SessionEventKind A)
| DoFinish (turn : string)
| DoReply (r : ApprovalReply)
| DoCancel (turn : string)
| DoTake (turn call : string).

Definition perform (a : Do) (s : ExecutionState A) : Outcome string (ExecutionState A) :=
  match a with
  | DoReserve turn => reserve turn s
  | DoAppend now turn event => append_locked now turn event s
  | DoEmit now turn event => emit now turn event s
  | DoConclude now turn event => conclude now turn event s
  | DoFinish turn => Done (finish_locked turn s)
  | DoReply r => reply r s
  | DoCancel turn => cancel turn s
  | DoTake turn call => Done (take_approval turn call s).2
  end.

(** The event an action records. *)
Definition records (a : Do) : option (N * string * SessionEventKind A) :=
  match a with
  | DoAppend now turn event | DoConclude now turn event => Some (now, turn, event)
  | DoEmit now turn event => Some (now, turn, KExecution event)
  | _ => None
  end.

(** The states of a session: what was done to it so far, and every event it
    recorded, numbered from one. *)
Inductive Run : list Do → list (SessionEvent A) → ExecutionState A → Prop :=
| run_new : Run [] [] execution_new
| run_quiet log past s a s' :
    Run log past s → perform a s = Done s' → records a = None → Run (log ++ [a]) past s'
| run_record log past s a s' now turn event :
    Run log past s → perform a s = Done s' → records a = Some (now, turn, event) →
    Run (log ++ [a]) (past ++ [{| ev_sequence := N.of_nat (length past) + 1; ev_turn_id := turn;
                                  ev_timestamp_unix_ms := now; ev_event := event |}]) s'.

(** [Run], computed. *)
Definition replay_step (acc : option (list (SessionEvent A) * ExecutionState A)) (a : Do) :
    option (list (SessionEvent A) * ExecutionState A) :=
  '(past, s) ← acc;
  match perform a s with
  | Done s' =>
      Some (match records a with
            | Some (now, turn, event) =>
                past ++ [{| ev_sequence := N.of_nat (length past) + 1; ev_turn_id := turn;
                            ev_timestamp_unix_ms := now; ev_event := event |}]
            | None => past
            end, s')
  | _ => None
  end.

Definition replay (log : list Do) : option (list (SessionEvent A) * ExecutionState A) :=
  foldl replay_step (Some ([], execution_new)) log.

Lemma replay_run log past s : replay log = Some (past, s) → Run log past s.
Proof.
  revert past s. induction log as [|a log IH] using rev_ind; intros past s; unfold replay.
  - intros [= <- <-]. constructor.
  - rewrite foldl_app. simpl. fold (replay log).
    destruct (replay log) as [[past0 s0]|] eqn:Hr; [|done]. simpl.
    destruct (perform a s0) as [s1| |] eqn:Hp; [|done..].
    destruct (records a) as [[[now turn] event]|] eqn:Ha; intros [= <- <-];
      [eapply run_record|eapply run_quiet]; eauto.
Qed.

(** * The journal *)

Definition total_bytes l : N := sum_N (encoded_bytes <$> l).

Lemma total_bytes_cons e l : total_bytes (e :: l) = (encoded_bytes e + total_bytes l)%N.
Proof. done. Qed.

Lemma total_bytes_app l k : total_bytes (l ++ k) = (total_bytes l + total_bytes k)%N.
Proof.
  induction l as [|e l IH]; [done|]. rewrite <-app_comm_cons, !total_bytes_cons, IH. apply N.add_assoc.
Qed.

Definition Numbered l : Prop := ∀ i e, l !! i = Some e → ev_sequence e = (N.of_nat i + 1)%N.

(** The bounds of a journal. *)
Definition Fits (l : list (SessionEvent A)) : Prop :=
  length l ≤ MAX_JOURNAL_EVENTS ∧ (total_bytes l ≤ MAX_JOURNAL_BYTES)%N.

(** [drop k l] is the longest end of [l] that fits. *)
Definition LongestEnd (k : nat) (l : list (SessionEvent A)) : Prop :=
  k ≤ length l ∧ Fits (drop k l) ∧ ∀ j, j < k → ¬ Fits (drop j l).

(** The journal is the longest end of everything recorded that fits. *)
Record Journal (past : list (SessionEvent A)) s : Prop := {
  jr_events : ∃ k, LongestEnd k past ∧ events s = drop k past;
  jr_count : length (events s) ≤ MAX_JOURNAL_EVENTS;
  jr_bytes : event_bytes s = total_bytes (events s);
  jr_bound : (total_bytes (events s) ≤ MAX_JOURNAL_BYTES)%N;
  jr_next : next_sequence s = (N.of_nat (length past) + 1)%N;
  jr_numbered : Numbered past;
}.

Lemma encoded_bytes_bound (e : SessionEvent A) : (encoded_bytes e < 2 ^ 63)%N.
Proof.
  unfold encoded_bytes. destruct (event_to_vec_len e) as [n|] eqn:Hn; simpl; [by eapply event_len_bound|lia].
Qed.

(** The loop ends, and keeps an end of the list that fits. *)
Lemma trim_journal_spec l :
  ∃ k, LongestEnd k l ∧ trim_journal l (total_bytes l) = Done (drop k l, total_bytes (drop k l)).
Proof.
  induction l as [|e l IH].
  - exists 0. split; [|done]. split; [done|]. split; [split; [apply Nat.le_0_l|apply N.le_0_l]|intros j Hj; lia].
  - simpl trim_journal. destruct (_ || _) eqn:Hover.
    + destruct IH as (k & (Hk & Hf & Hl) & Ht). exists (S k). split.
      * split; [simpl; lia|]. split; [done|]. intros [|j] Hj; [|apply Hl; lia]. intros [Hc Hb]. rewrite drop_0 in Hc, Hb.
        apply orb_true_iff in Hover as [?%Nat.ltb_lt|?%N.ltb_lt]; [by apply Nat.lt_nge in H|by apply N.lt_nge in H].
      * assert (saturating_sub (total_bytes (e :: l)) (encoded_bytes e) = total_bytes l) as ->; [|done].
        rewrite total_bytes_cons. unfold saturating_sub. lia.
    + apply orb_false_iff in Hover as [?%Nat.ltb_ge ?%N.ltb_ge]. exists 0. split; [|done].
      split; [apply Nat.le_0_l|]. split; [by split|intros j Hj; lia].
Qed.

Lemma more_does_not_fit l k : ¬ Fits l → ¬ Fits (l ++ k).
Proof. intros Hl [Hc Hb]. apply Hl. rewrite length_app in Hc. rewrite total_bytes_app in Hb. split; lia. Qed.

Lemma append_locked_journal past s now turn event :
  Journal past s → (N.of_nat (length past) + 1 < U64_MAX)%N →
  let e := {| ev_sequence := N.of_nat (length past) + 1; ev_turn_id := turn;
              ev_timestamp_unix_ms := now; ev_event := event |} in
  ∃ l bytes next, append_locked now turn event s = Done (set_events l bytes next s) ∧
    Journal (past ++ [e]) (set_events l bytes next s).
Proof.
  intros [(k & (Hk & _ & Hlong) & Hev) Hc Hb Hbd Hn Hnum] Hlen e. unfold append_locked. rewrite Hn. fold e.
  assert (saturating_add (event_bytes s) (encoded_bytes e) = total_bytes (events s ++ [e])) as ->.
  { rewrite total_bytes_app, Hb. unfold saturating_add, USIZE_MAX. pose proof (encoded_bytes_bound e).
    assert (total_bytes [e] = encoded_bytes e) as -> by (unfold total_bytes; simpl; lia).
    unfold MAX_JOURNAL_BYTES in *. lia. }
  destruct (trim_journal_spec (events s ++ [e])) as (j & (Hj & [Hc' Hb'] & Hlong') & Ht).
  rewrite Ht. cbn [outcome_bind]. eexists _, _, _. split; [done|].
  assert (Hdrop : drop j (events s ++ [e]) = drop (k + j) (past ++ [e])).
  { rewrite Hev. rewrite <-drop_drop. f_equal. by rewrite drop_app_le. }
  rewrite length_app, Hev, length_drop in Hj. simpl in Hj.
  split; simpl; [|done|done|done| |].
  - exists (k + j). split; [|done]. split; [rewrite length_app; simpl; lia|]. split; [by rewrite <-Hdrop|].
    intros i Hi. destruct (decide (i < k)) as [Hik|Hik].
    + rewrite drop_app_le by lia. by apply more_does_not_fit, Hlong.
    + assert (drop i (past ++ [e]) = drop (i - k) (events s ++ [e])) as ->; [|apply Hlong'; lia].
      rewrite Hev, <-(drop_app_le past [e] k) by done. rewrite drop_drop. f_equal. lia.
  - rewrite length_app. simpl. lia.
  - intros i x [Hi|[Hi Hx]]%lookup_app_Some; [by apply Hnum|].
    apply list_lookup_singleton_Some in Hx as [Hi0 <-]. simpl. lia.
Qed.

Lemma journal_same past s s' :
  Journal past s → events s' = events s → event_bytes s' = event_bytes s → next_sequence s' = next_sequence s →
  Journal past s'.
Proof. intros [(k & Hk & Hev) Hc Hb Hbd Hn Hnum] He Hb' Hn'. split; rewrite ?He, ?Hb', ?Hn'; eauto. Qed.

Lemma finish_locked_same turn s :
  events (finish_locked turn s) = events s ∧ event_bytes (finish_locked turn s) = event_bytes s ∧
  next_sequence (finish_locked turn s) = next_sequence s.
Proof. unfold finish_locked. by case_bool_decide. Qed.

Lemma journal_finish past turn s : Journal past s → Journal past (finish_locked turn s).
Proof. intros Hj. destruct (finish_locked_same turn s) as (? & ? & ?). by eapply journal_same. Qed.

(** What an action that records nothing does. *)
Lemma perform_quiet past a s s' : Journal past s → perform a s = Done s' → records a = None → Journal past s'.
Proof.
  intros Hj Hp Ha. destruct a as [turn|now turn event|now turn event|now turn event|turn|r|turn|turn call]; try done; simpl in Hp.
  - unfold reserve in Hp. destruct (active s); [done|]. injection Hp as <-. by eapply journal_same.
  - injection Hp as <-. by apply journal_finish.
  - unfold reply in Hp. repeat case_bool_decide; try done. injection Hp as <-. by eapply journal_same.
  - unfold cancel in Hp. destruct (active s); [|done]. case_bool_decide; [|done]. injection Hp as <-.
    by eapply journal_same.
  - injection Hp as <-. unfold take_approval. case_bool_decide; [done|]. destruct (approvals s !! _); [|done].
    by eapply journal_same.
Qed.

Lemma perform_record past a s now turn event :
  Journal past s → (N.of_nat (length past) + 1 < U64_MAX)%N → records a = Some (now, turn, event) →
  ∃ s', perform a s = Done s' ∧
    Journal (past ++ [{| ev_sequence := N.of_nat (length past) + 1; ev_turn_id := turn;
                         ev_timestamp_unix_ms := now; ev_event := event |}]) s'.
Proof.
  intros Hj Hlen Ha.
  destruct a as [?|now' turn' event'|now' turn' event'|now' turn' event'|?|?|?|? ?]; try done;
    injection Ha as -> -> <-; simpl.
  - destruct (append_locked_journal past s now turn event' Hj Hlen) as (l & b & n & -> & ?). eauto.
  - unfold emit. set (s1 := match innermost event' with ApprovalRequested _ _ => _ | _ => _ end).
    assert (Journal past s1) as Hj1.
    { unfold s1. destruct (innermost event'); try done. by eapply journal_same. }
    destruct (append_locked_journal past s1 now turn (KExecution event') Hj1 Hlen) as (l & b & n & -> & ?). eauto.
  - unfold conclude. destruct (append_locked_journal past s now turn event' Hj Hlen) as (l & b & n & -> & ?).
    cbn [outcome_bind]. eexists. split; [done|]. by apply journal_finish.
Qed.

Lemma run_journal log past s : Run log past s → (N.of_nat (length past) < U64_MAX)%N → Journal past s.
Proof.
  induction 1 as [|log past s a s' _ IH Hp Ha|log past s a s' now turn event _ IH Hp Ha]; intros Hlen.
  - split; simpl; [|apply Nat.le_0_l|done|apply N.le_0_l|done|by intros i e]. exists 0. split; [|done].
    split; [done|]. split; [split; [apply Nat.le_0_l|apply N.le_0_l]|intros j Hj; lia].
  - eapply perform_quiet; eauto.
  - rewrite length_app in Hlen. simpl in Hlen.
    destruct (perform_record past a s now turn event) as (s2 & Hp2 & Hj); [apply IH; lia|lia|done|].
    rewrite Hp in Hp2. by injection Hp2 as <-.
Qed.

Lemma filter_numbered after (off : nat) l :
  (∀ i e, l !! i = Some e → ev_sequence e = (N.of_nat (off + i) + 1)%N) →
  filter (λ e, (after < ev_sequence e)%N) l = drop (N.to_nat after - off) l.
Proof.
  revert off. induction l as [|e l IH]; intros off Hnum; [by rewrite drop_nil|].
  pose proof (Hnum 0 e eq_refl) as He.
  assert (Hl : filter (λ e, (after < ev_sequence e)%N) l = drop (N.to_nat after - S off) l).
  { apply IH. intros i x Hi. rewrite (Hnum (S i) x Hi). lia. }
  rewrite filter_cons. case_decide as Ha.
  - assert (N.to_nat after - off = 0) as -> by lia. rewrite drop_0, Hl.
    assert (N.to_nat after - S off = 0) as -> by lia. by rewrite drop_0.
  - rewrite Hl. assert (N.to_nat after - off = S (N.to_nat after - S off)) as -> by lia. done.
Qed.

Lemma batch_events past s k after :
  Numbered past → events s = drop k past →
  eb_events (batch after s) = drop (k `max` N.to_nat after) past.
Proof.
  intros Hnum Hev. simpl. rewrite (filter_numbered after k).
  - rewrite Hev, drop_drop. f_equal. lia.
  - intros i e. rewrite Hev, lookup_drop. intros Hi. by rewrite (Hnum _ _ Hi).
Qed.

Lemma journal_events_batch after expired s wakes :
  ∃ s', s' ∈ s :: wakes.*1 ∧ journal_events after expired s wakes = batch after s'.
Proof.
  revert expired s. induction wakes as [|[s1 e1] wakes IH]; intros expired s; simpl;
    (destruct (_ || _); [exists s; split; [by left|done]|]).
  - exists s. split; [by left|done].
  - destruct (IH e1 s1) as (s' & Hin & Heq). exists s'. split; [by right|done].
Qed.

(** C21: A client that follows a session's journal gets exactly what is kept, and knows. The journal keeps
    the longest end of everything recorded that is within its bounds; what the client gets after the number
    it names is all of that end that comes after it, and the batch says which number comes next. If events
    it asked for are gone, it is told the number before which they are, and if it is not told, it misses
    none - except when nothing at all is kept, the last event alone being larger than the journal: then the
    batch is empty, and only the number that comes next tells. *)
Theorem no_event_lost_silently log past s after expired wakes :
  Run log past s → (N.of_nat (length past) < U64_MAX)%N →
  Forall (λ w, w.1 = s) wakes →
  let b := journal_events after expired s wakes in
  eb_next_sequence b = (N.of_nat (length past) + 1)%N ∧
  ∃ k, LongestEnd k past ∧ eb_events b = drop (k `max` N.to_nat after) past ∧
    match eb_truncated_before b with
    | Some first => first = (N.of_nat k + 1)%N ∧ (after < N.of_nat k)%N ∧ k < length past
    | None => eb_events b = drop (N.to_nat after) past ∨
              eb_events b = [] ∧ ∃ e, last past = Some e ∧ (MAX_JOURNAL_BYTES < encoded_bytes e)%N
    end.
Proof.
  intros Hrun Hlen Hw. destruct (journal_events_batch after expired s wakes) as (s' & Hin & Heq).
  assert (s' = s) as ->.
  { apply elem_of_cons in Hin as [->|(w & -> & Hin)%list_elem_of_fmap]; [done|].
    by eapply (proj1 (Forall_forall _ _) Hw). }
  cbn zeta. rewrite Heq. pose proof (run_journal _ _ _ Hrun Hlen) as [(k & Hk & Hev) Hc Hb Hbd Hn Hnum].
  rewrite (batch_events past s k) by done. split; [exact Hn|]. exists k. split_and!; [done..|].
  simpl. destruct (events s) as [|e l] eqn:Hs; simpl.
  - assert (length past ≤ k) as Hle by (apply (f_equal length) in Hev; rewrite length_drop in Hev; simpl in Hev; lia).
    destruct past as [|x past _] using rev_ind; [left; by rewrite !drop_nil|]. right.
    split; [apply drop_ge; lia|]. exists x. split; [apply last_snoc|]. destruct Hk as (_ & _ & Hlong).
    rewrite length_app in Hle. simpl in Hle. specialize (Hlong (length past) ltac:(lia)). rewrite drop_app_length in Hlong.
    apply N.lt_nge. intros Hx. apply Hlong. split; [unfold MAX_JOURNAL_EVENTS; simpl; lia|].
    rewrite total_bytes_cons. unfold total_bytes. simpl. lia.
  - assert (Hek : past !! k = Some e).
    { rewrite <-(Nat.add_0_r k), <-lookup_drop, <-Hev. done. }
    apply lookup_lt_Some in Hek as Hlt'. rewrite (Hnum _ _ Hek). destruct (_ <? _)%N eqn:Hlt.
    + apply N.ltb_lt in Hlt. split_and!; [done|lia|done].
    + apply N.ltb_ge in Hlt. left. f_equal. lia.
Qed.

(** An event larger than the journal takes everything with it, and no batch says
    that anything is gone. *)
Lemma oversized_event_is_not_reported log past e s after :
  Run log (past ++ [e]) s → (N.of_nat (length (past ++ [e])) < U64_MAX)%N → (MAX_JOURNAL_BYTES < encoded_bytes e)%N →
  eb_events (batch after s) = [] ∧ eb_truncated_before (batch after s) = None.
Proof.
  intros Hrun Hlen He. pose proof (run_journal _ _ _ Hrun Hlen) as [(k & (Hk & [_ Hf] & _) & Hev) _ _ _ _ _].
  assert (events s = []) as Hs; [|simpl; by rewrite Hs].
  rewrite Hev. apply drop_ge. rewrite length_app in *. simpl in *. destruct (decide (k ≤ length past)) as [Hle|]; [|lia].
  rewrite drop_app_le, total_bytes_app in Hf by done. unfold total_bytes at 2 in Hf. simpl in Hf. lia.
Qed.

(** Recording an event always succeeds: dropping old events to make room comes to an end, and the
    events get consecutive numbers. Nothing done to a session panics. *)
Lemma journal_never_stalls log past s a :
  Run log past s → (N.of_nat (length past) + 1 < U64_MAX)%N →
  perform a s ≠ Panic ∧
  ∀ now turn event, records a = Some (now, turn, event) →
    ∃ s', perform a s = Done s' ∧ next_sequence s' = (next_sequence s + 1)%N ∧
      (events s' = [] ∨ last (events s') = Some {| ev_sequence := next_sequence s; ev_turn_id := turn;
                                                   ev_timestamp_unix_ms := now; ev_event := event |}).
Proof.
  intros Hrun Hlen. pose proof (run_journal _ _ _ Hrun ltac:(lia)) as Hj.
  assert (Hrec : ∀ now turn event, records a = Some (now, turn, event) →
    ∃ s', perform a s = Done s' ∧ next_sequence s' = (next_sequence s + 1)%N ∧
      (events s' = [] ∨ last (events s') = Some {| ev_sequence := next_sequence s; ev_turn_id := turn;
                                                   ev_timestamp_unix_ms := now; ev_event := event |})).
  { intros now turn event Ha. destruct (perform_record past a s now turn event Hj Hlen Ha) as (s' & Hp & Hj').
    exists s'. split; [done|]. destruct Hj as [(k & (Hk & _ & _) & Hev) _ _ _ Hn Hnum], Hj' as [(k' & (Hk' & _ & _) & Hev') _ _ _ Hn' Hnum'].
    rewrite length_app in Hn', Hk'. simpl in Hn', Hk'. split; [lia|]. rewrite Hev', Hn.
    destruct (decide (k' = S (length past))) as [->|Hne].
    - left. apply drop_ge. rewrite length_app. simpl. lia.
    - right. rewrite drop_app_le by lia. by rewrite last_snoc. }
  split; [|done]. destruct (records a) as [[[now turn] event]|] eqn:Ha.
  - destruct (Hrec _ _ _ eq_refl) as (s' & -> & _). done.
  - destruct a; try done; simpl; unfold reserve, reply, cancel; repeat (case_match; try done).
Qed.

(** * Approvals *)

Implicit Types (log : list Do) (key : string * string).

(** The turn showed the client this call, and nobody answered since. *)
Definition Waiting log key : Prop := ∃ pre now event call reason post,
  log = pre ++ DoEmit now key.1 event :: post ∧
  innermost event = ApprovalRequested call reason ∧ call_id call = key.2 ∧
  ∀ r, DoReply r ∈ post → (ar_turn_id r, ar_call_id r) ≠ key.

(** A client answered [d] when the call was waiting, and the turn has not
    looked since. *)
Definition Answered log key (d : ApprovalDecision) : Prop := ∃ pre post,
  log = pre ++ DoReply {| ar_turn_id := key.1; ar_call_id := key.2; ar_decision := d |} :: post ∧
  Waiting pre key ∧ DoTake key.1 key.2 ∉ post.

Record Told log s : Prop := {
  told_pending : ∀ key, key ∈ pending_approvals s → Waiting log key;
  told_approvals : ∀ key d, approvals s !! key = Some d → key.1 ∈ flags s ∨ Answered log key d;
  told_flags : ∀ turn, turn ∈ flags s → DoCancel turn ∈ log;
}.

Lemma waiting_later log key a :
  (∀ r, a = DoReply r → (ar_turn_id r, ar_call_id r) ≠ key) → Waiting log key → Waiting (log ++ [a]) key.
Proof.
  intros Ha (l1 & now & event & call & reason & l2 & -> & Hi & Hc & Hr).
  exists l1, now, event, call, reason, (l2 ++ [a]). rewrite <-app_assoc. split_and!; [done..|].
  intros r [Hin|Hin]%elem_of_app; [by apply Hr|]. apply list_elem_of_singleton in Hin. by apply Ha.
Qed.

Lemma answered_later log key d a : a ≠ DoTake key.1 key.2 → Answered log key d → Answered (log ++ [a]) key d.
Proof.
  intros Ha (l1 & l2 & -> & Hw & Ht). exists l1, (l2 ++ [a]). rewrite <-app_assoc. split_and!; [done..|].
  rewrite elem_of_app, list_elem_of_singleton. intros [?|Heq]; [done|]. by apply Ha.
Qed.

(** An action that adds no request, decision or flag. *)
Lemma told_shrinks log s s' a :
  Told log s → (∀ r, a ≠ DoReply r) → (∀ turn call, a ≠ DoTake turn call) →
  pending_approvals s' ⊆ pending_approvals s →
  (∀ key d, approvals s' !! key = Some d → approvals s !! key = Some d) →
  flags s' = flags s → Told (log ++ [a]) s'.
Proof.
  intros [Hp Hd Hf] Hr Ht Hps Has Hfs. split.
  - intros key Hk. apply waiting_later; [by intros r ?%Hr|]. by apply Hp, Hps.
  - intros key d Hk. rewrite Hfs. destruct (Hd _ _ (Has _ _ Hk)) as [?|?]; [by left|right].
    apply answered_later; [apply Ht|done].
  - intros turn. rewrite Hfs. intros ?%Hf. apply elem_of_app. by left.
Qed.

Lemma finish_locked_approvals turn s :
  pending_approvals (finish_locked turn s) ⊆ pending_approvals s ∧
  (∀ key d, approvals (finish_locked turn s) !! key = Some d → approvals s !! key = Some d) ∧
  flags (finish_locked turn s) = flags s.
Proof.
  unfold finish_locked. case_bool_decide; simpl; (split_and!; [set_solver| |done]);
    intros key d [? _]%map_lookup_filter_Some; done.
Qed.

Lemma append_locked_approvals now turn event s s' :
  append_locked now turn event s = Done s' →
  pending_approvals s' = pending_approvals s ∧ approvals s' = approvals s ∧ flags s' = flags s ∧ active s' = active s.
Proof. unfold append_locked. by intros ([l b] & _ & [= <-])%bind_Done. Qed.

Lemma told_emit log now turn event s s' :
  Told log s → emit now turn event s = Done s' → Told (log ++ [DoEmit now turn event]) s'.
Proof.
  unfold emit. intros Ht Hs. apply append_locked_approvals in Hs as (Hp' & Ha' & Hf' & _).
  destruct Ht as [Hp Ha Hf].
  assert (Hps : ∀ key, key ∈ pending_approvals s' → key ∈ pending_approvals s ∨
    ∃ call reason, innermost event = ApprovalRequested call reason ∧ key = (turn, call_id call)).
  { intros key. rewrite Hp'. destruct (innermost event); simpl; try (by left).
    intros [->%elem_of_singleton|?]%elem_of_union; [right; eauto|by left]. }
  assert (approvals s' = approvals s ∧ flags s' = flags s) as [Has Hfs] by (rewrite Ha', Hf'; by destruct (innermost event)).
  split.
  - intros key [Hk|(call & reason & Hi & ->)]%Hps; [by apply waiting_later; [|by apply Hp]|].
    exists log, now, event, call, reason, []. split_and!; [done..|]. by intros r ?%elem_of_nil.
  - intros key d. rewrite Has, Hfs. intros [?|?]%Ha; [by left|right]. by apply answered_later.
  - intros t. rewrite Hfs. intros ?%Hf. apply elem_of_app. by left.
Qed.

Lemma told_take log turn call s :
  Told log s → Told (log ++ [DoTake turn call]) (take_approval turn call s).2.
Proof.
  intros [Hp Ha Hf]. unfold take_approval.
  assert (Hp' : ∀ key, key ∈ pending_approvals s → Waiting (log ++ [DoTake turn call]) key)
    by (intros; by apply waiting_later; [|by apply Hp]).
  assert (Hf' : ∀ t, t ∈ flags s → DoCancel t ∈ log ++ [DoTake turn call])
    by (intros; apply elem_of_app; left; by apply Hf).
  assert (Ha' : ∀ key d, key ≠ (turn, call) → approvals s !! key = Some d →
    key.1 ∈ flags s ∨ Answered (log ++ [DoTake turn call]) key d).
  { intros key d Hne [?|?]%Ha; [by left|right]. apply answered_later; [|done].
    intros [= -> ->]. by destruct key. }
  case_bool_decide as Hflag.
  - split; simpl; [done| |done]. intros key d Hk.
    destruct (decide (key = (turn, call))) as [->|?]; [by left|by eapply Ha'].
  - destruct (approvals s !! (turn, call)) as [d0|] eqn:Hd0; (split; simpl; [done| |done]).
    + intros key d [? ?]%lookup_delete_Some. eapply Ha'; [|done]. congruence.
    + intros key d Hk. eapply Ha'; [|done]. congruence.
Qed.

Lemma perform_told log s a s' : Told log s → perform a s = Done s' → Told (log ++ [a]) s'.
Proof.
  intros Ht Hp. destruct a as [turn|now turn event|now turn event|now turn event|turn|r|turn|turn call]; simpl in Hp.
  - unfold reserve in Hp. destruct (active s); [done|]. injection Hp as <-.
    eapply told_shrinks; [done|done|done|simpl; set_solver| |done]. intros key d. simpl. by rewrite lookup_empty.
  - apply append_locked_approvals in Hp as (Hp & Ha & Hf & _). eapply told_shrinks; [done|done|done| | |done].
    + by rewrite Hp.
    + by rewrite Ha.
  - by eapply told_emit.
  - unfold conclude in Hp. apply bind_Done in Hp as (s1 & Happ & [= <-]).
    apply append_locked_approvals in Happ as (Hp & Ha & Hf & _).
    destruct (finish_locked_approvals turn s1) as (Hp1 & Ha1 & Hf1).
    eapply told_shrinks; [done|done|done| | |congruence].
    + by rewrite <-Hp.
    + intros key d Hk%Ha1. by rewrite <-Ha.
  - injection Hp as <-. destruct (finish_locked_approvals turn s) as (Hp1 & Ha1 & Hf1). by eapply told_shrinks.
  - unfold reply in Hp. case_bool_decide as Hact; [|done]. case_bool_decide as Hpend; [|done]. simpl in Hp.
    injection Hp as <-. destruct Ht as [Hp Ha Hf]. split; simpl.
    + intros key [Hk Hne]%elem_of_difference. apply waiting_later; [|by apply Hp].
      intros r' [= <-] Heq. apply Hne. by rewrite Heq, elem_of_singleton.
    + intros key d [[<- <-]|[_ [?|?]%Ha]]%lookup_insert_Some; [right|by left|right; by apply answered_later].
      exists log, []. split_and!; [by destruct r|by apply Hp|by apply not_elem_of_nil].
    + intros turn ?%Hf. apply elem_of_app. by left.
  - unfold cancel in Hp. destruct (active s) as [t|]; [|done]. case_bool_decide as Heq; [|done]. injection Hp as <-.
    subst t. destruct Ht as [Hp Ha Hf]. split; simpl.
    + intros key Hk. apply waiting_later; [done|]. by apply Hp.
    + intros key d [?|?]%Ha; [left; set_solver|right; by apply answered_later].
    + intros t [->%elem_of_singleton|?%Hf]%elem_of_union; apply elem_of_app; [right; by left|by left].
  - injection Hp as <-. by apply told_take.
Qed.

Lemma run_told log past s : Run log past s → Told log s.
Proof.
  induction 1 as [|log past s a s' _ IH Hp Ha|log past s a s' now turn event _ IH Hp Ha].
  - split; simpl; [set_solver| |set_solver]. intros key d. by rewrite lookup_empty.
  - by eapply perform_told.
  - by eapply perform_told.
Qed.

(** C20: A decision a turn acts on is one a client made about that very call. Unless it aborts because
    somebody cancelled it, the turn takes a decision that was sent for its own id and the call's
    while the call was waiting for one: the turn had shown the call, nobody had answered since, and
    the answer was not taken before. A reply is accepted only for the turn that is running and a
    call that is waiting. *)
Theorem decisions_are_the_clients log past s :
  Run log past s →
  (∀ turn call d s', take_approval turn call s = (Some d, s') →
     d = AbortTurn ∧ DoCancel turn ∈ log ∨ Answered log (turn, call) d) ∧
  (∀ r s', reply r s = Done s' → active s = Some (ar_turn_id r) ∧ Waiting log (ar_turn_id r, ar_call_id r)).
Proof.
  intros [Hp Ha Hf]%run_told. split.
  - intros turn call d s'. unfold take_approval. case_bool_decide as Hflag.
    + intros [= <- _]. left. split; [done|by apply Hf].
    + destruct (approvals s !! (turn, call)) as [d0|] eqn:Hd; [|done]. intros [= <- _].
      destruct (Ha _ _ Hd) as [?|?]; [done|by right].
  - intros r s'. unfold reply. case_bool_decide as Hact; [|done]. case_bool_decide as Hpend; [|done].
    intros _. split; [done|by apply Hp].
Qed.
End spec.

(** * A session that is run

    A turn asks to run a shell command; the client approves it, and the turn
    takes the approval. *)

#[export] Instance sample_event_serde : EventSerde () := λ _, Some 100%N.
#[export] Instance sample_event_laws : EventLaws ().
Proof. by intros e n [= <-]. Qed.

Definition sample_call : CallId.ToolCall () := {| call_id := "call-1"; call_name := "run_shell"; call_arguments := () |}.

Definition sample_reply : ApprovalReply := {|
  ar_turn_id := "turn-1"; ar_call_id := "call-1"; ar_decision := DecideApprove |}.

Definition sample_log : list (Do (A := ())) := [
  DoReserve "turn-1";
  DoAppend 7 "turn-1" (KTurnStarted (TurnAgent "hello") Policy.Ask None None None);
  DoEmit 8 "turn-1" (Subagent "agent-1" (ApprovalRequested sample_call None));
  DoReply sample_reply].

Definition sample_past : list (SessionEvent ()) := default [] (fst <$> replay sample_log).
Definition sample_execution : ExecutionState () := default execution_new (snd <$> replay sample_log).

Lemma sample_run : Run sample_log sample_past sample_execution.
Proof. apply replay_run. vm_compute. reflexivity. Qed.

Lemma no_event_lost_silently_witness :
  eb_next_sequence (journal_events 1 false sample_execution []) = 3%N ∧
  ∃ k, LongestEnd k sample_past ∧ eb_events (journal_events 1 false sample_execution []) = drop (k `max` 1) sample_past.
Proof.
  destruct (no_event_lost_silently sample_log sample_past sample_execution 1 false [] sample_run
    ltac:(done) ltac:(constructor)) as (Hn & k & Hk & He & _).
  split; [exact Hn|]. exists k. split; [exact Hk|exact He].
Defined.

Lemma journal_never_stalls_witness :
  perform (DoConclude 9 "turn-1" KTurnCompleted) sample_execution ≠ Panic.
Proof.
  apply (journal_never_stalls sample_log sample_past sample_execution
    (DoConclude 9 "turn-1" KTurnCompleted) sample_run). done.
Defined.

Lemma decisions_are_the_clients_witness :
  (take_approval "turn-1" "call-1" sample_execution).1 = Some DecideApprove ∧
  (DecideApprove = AbortTurn ∧ DoCancel "turn-1" ∈ sample_log ∨
   Answered sample_log ("turn-1", "call-1") DecideApprove).
Proof.
  split; [by vm_compute|].
  apply (proj1 (decisions_are_the_clients sample_log sample_past sample_execution sample_run) _ _ _
    (take_approval "turn-1" "call-1" sample_execution).2).
  vm_compute. reflexivity.
Defined.
