(* ===== verification/PtyStream.v ===== *)
(** The frames of a terminal stream
    ([crates/xshell-session/src/pty_stream.rs]): a tag, a length and a payload,
    written by one side and read by the other. Reading takes a frame off the
    front of the bytes there are; a stream that ends too early is an error. *)
From Stdlib Require Import Ascii.
From S2P Require Import Prelude Encode Compaction.

Abbreviation bytes := (list ascii).
Abbreviation Result := (Outcome string).

Definition MAX_FRAME_BYTES : N := 256 * 1024.
Definition MAX_TEXT_BYTES : N := 4 * 1024.
Definition MAX_INPUT_FRAME_BYTES : N := 64 * 1024.

Definition TAG_INPUT : ascii := "001"%char.
Definition TAG_RESIZE : ascii := "002"%char.
Definition TAG_CLOSE : ascii := "003"%char.
Definition TAG_READY : ascii := "128"%char.
Definition TAG_OUTPUT : ascii := "129"%char.
Definition TAG_EXIT : ascii := "130"%char.
Definition TAG_ERROR : ascii := "131"%char.
Definition TAG_DETACHED : ascii := "132"%char.

Record PtySize := {
  rows : N;
  columns : N;
}.

Inductive ClientPtyFrame : Type :=
| FrInput (b : bytes)
| FrResize (size : PtySize)
| FrClose.

Inductive ServerPtyFrame : Type :=
| FrReady
| FrOutput (offset : N) (b : bytes)
| FrExit (status : string)
| FrError (message : string)
| FrDetached.

(** [from_be_bytes]. *)
Definition be_value (b : bytes) : N := foldl (λ n c, (n * 256 + code c)%N) 0%N b.

Definition len (b : bytes) : N := N.of_nat (length b).

(** ** UTF-8 *)

Definition continuation (c : ascii) : bool := in_range 128 191 c.

(** [String::from_utf8] accepts: the well-formed sequences of the Unicode
    standard. *)
Fixpoint utf8_valid (b : bytes) : bool :=
  match b with
  | [] => true
  | c :: b =>
      if in_range 0 127 c then utf8_valid b
      else match b with
           | [] => false
           | c1 :: b =>
               if in_range 194 223 c then continuation c1 && utf8_valid b
               else match b with
                    | [] => false
                    | c2 :: b =>
                        if in_range 224 239 c then
                          in_range (if bool_decide (code c = 224%N) then 160 else 128)
                            (if bool_decide (code c = 237%N) then 159 else 191) c1 &&
                          continuation c2 && utf8_valid b
                        else match b with
                             | [] => false
                             | c3 :: b =>
                                 in_range 240 244 c &&
                                 in_range (if bool_decide (code c = 240%N) then 144 else 128)
                                   (if bool_decide (code c = 244%N) then 143 else 191) c1 &&
                                 continuation c2 && continuation c3 && utf8_valid b
                             end
                    end
           end
  end.

Definition text (payload : bytes) : Result string :=
  if utf8_valid payload then Done (of_chars payload) else Fail "PTY status frame is not UTF-8".

(** ** Frames *)

(** The bytes written. *)
Definition write_frame (tag : ascii) (payload : bytes) : Result bytes :=
  if (MAX_FRAME_BYTES <? len payload)%N then Fail "PTY frame exceeds 262144 bytes"
  else Done (tag :: be_bytes 4 (len payload) ++ payload).

(** [read_exact] of [n] bytes. *)
Definition read_exact (n : nat) (s : bytes) (message : string) : Result (bytes * bytes) :=
  if (length s <? n)%nat then Fail message else Done (take n s, drop n s).

(** The tag, the payload and the bytes left. *)
Definition read_frame (s : bytes) : Result (ascii * bytes * bytes) :=
  let! '(header, s) := read_exact 5 s "PTY stream closed" in
  let length := be_value (drop 1 header) in
  if (MAX_FRAME_BYTES <? length)%N then Fail "PTY frame exceeds 262144 bytes"
  else
    let! '(payload, s) := read_exact (N.to_nat length) s "truncated PTY frame" in
    Done (default "000"%char (head header), payload, s).

Definition write_client_frame (f : ClientPtyFrame) : Result bytes :=
  match f with
  | FrInput b => write_frame TAG_INPUT b
  | FrResize size => write_frame TAG_RESIZE (be_bytes 2 (rows size) ++ be_bytes 2 (columns size))
  | FrClose => write_frame TAG_CLOSE []
  end.

Definition read_client_frame (s : bytes) : Result (ClientPtyFrame * bytes) :=
  let! '(tag, payload, s) := read_frame s in
  if bool_decide (tag = TAG_INPUT) && (len payload <=? MAX_INPUT_FRAME_BYTES)%N then Done (FrInput payload, s)
  else if bool_decide (tag = TAG_INPUT) then Fail "PTY input frame is too large"
  else if bool_decide (tag = TAG_RESIZE) && (len payload =? 4)%N then
    Done (FrResize {| rows := be_value (take 2 payload); columns := be_value (drop 2 payload) |}, s)
  else if bool_decide (tag = TAG_CLOSE) && (len payload =? 0)%N then Done (FrClose, s)
  else Fail "invalid client PTY frame tag or payload".

Definition write_server_frame (f : ServerPtyFrame) : Result bytes :=
  match f with
  | FrReady => write_frame TAG_READY []
  | FrOutput offset b => write_frame TAG_OUTPUT (be_bytes 8 offset ++ b)
  | FrExit status => write_frame TAG_EXIT (chars status)
  | FrError message => write_frame TAG_ERROR (chars message)
  | FrDetached => write_frame TAG_DETACHED []
  end.

Definition read_server_frame (s : bytes) : Result (ServerPtyFrame * bytes) :=
  let! '(tag, payload, s) := read_frame s in
  if bool_decide (tag = TAG_READY) && (len payload =? 0)%N then Done (FrReady, s)
  else if bool_decide (tag = TAG_OUTPUT) && (8 <=? len payload)%N then
    Done (FrOutput (be_value (take 8 payload)) (drop 8 payload), s)
  else if bool_decide (tag = TAG_EXIT) && (len payload <=? MAX_TEXT_BYTES)%N then
    let! status := text payload in Done (FrExit status, s)
  else if bool_decide (tag = TAG_ERROR) && (len payload <=? MAX_TEXT_BYTES)%N then
    let! message := text payload in Done (FrError message, s)
  else if bool_decide (tag = TAG_DETACHED) && (len payload =? 0)%N then Done (FrDetached, s)
  else Fail "invalid server PTY frame tag or payload".

(** * Lengths in four bytes *)

Lemma be_value_app b c : be_value (b ++ [c]) = (be_value b * 256 + code c)%N.
Proof. unfold be_value. by rewrite foldl_app. Qed.

Lemma code_bound c : (code c < 256)%N.
Proof. apply N_ascii_bounded. Qed.

Lemma be_value_cons c b : be_value (c :: b) = (code c * 256 ^ N.of_nat (length b) + be_value b)%N.
Proof.
  revert c. induction b as [|x b IH] using rev_ind; intros c; [unfold be_value; simpl; lia|].
  rewrite app_comm_cons, !be_value_app, IH, length_app. simpl.
  replace (N.of_nat (length b + 1)) with (N.succ (N.of_nat (length b))) by lia.
  rewrite N.pow_succ_r'. lia.
Qed.

Lemma be_value_bound b : (be_value b < 256 ^ N.of_nat (length b))%N.
Proof.
  induction b as [|c b IH]; [done|]. rewrite be_value_cons. simpl length.
  rewrite Nat2N.inj_succ, N.pow_succ_r'. pose proof (code_bound c). nia.
Qed.

Lemma be_value_bytes w n : (n < 256 ^ N.of_nat w)%N → be_value (be_bytes w n) = n.
Proof.
  intros Hn. enough (be_value (be_bytes w n) = n mod 256 ^ N.of_nat w)%N as -> by (by apply N.mod_small).
  clear Hn. induction w as [|w IH]; [simpl; by rewrite N.mod_1_r|].
  simpl be_bytes. rewrite be_value_cons, length_be_bytes, IH. unfold code.
  rewrite N_ascii_embedding by (by apply N.mod_lt).
  rewrite Nat2N.inj_succ, N.pow_succ_r', (N.mul_comm 256), N.Div0.mod_mul_r. lia.
Qed.

(** Bytes are the encoding of their value. *)
Lemma be_bytes_value b : be_bytes (length b) (be_value b) = b.
Proof.
  induction b as [|c b IH]; [done|]. simpl length. simpl be_bytes.
  pose proof (be_value_bound b) as Hb. rewrite be_value_cons. f_equal.
  - rewrite N.div_add_l by (apply N.pow_nonzero; lia). rewrite (N.div_small (be_value b)) by done.
    rewrite N.add_0_r, N.mod_small by apply code_bound. apply ascii_N_embedding.
  - etrans; [|exact IH]. generalize (code c). intros n. clear IH.
    assert (∀ w, w ≤ length b →
      be_bytes w (n * 256 ^ N.of_nat (length b) + be_value b) = be_bytes w (be_value b)) as Hw; [|by apply Hw].
    induction w as [|w IHw]; intros Hle; [done|]. simpl be_bytes. f_equal; [|apply IHw; lia]. f_equal.
    replace (N.of_nat (length b)) with (N.of_nat w + N.of_nat (S (length b - S w)))%N by lia.
    rewrite N.pow_add_r, (N.mul_comm (256 ^ N.of_nat w)), N.mul_assoc.
    rewrite N.div_add_l by (apply N.pow_nonzero; lia).
    rewrite Nat2N.inj_succ, N.pow_succ_r', (N.mul_comm 256), N.mul_assoc.
    by rewrite N.add_comm, N.Div0.mod_add.
Qed.

Lemma be_bytes_value_of w b : length b = w → be_bytes w (be_value b) = b.
Proof. intros <-. apply be_bytes_value. Qed.

(** * Frames are read back *)

#[local] Arguments be_bytes : simpl never.

Lemma read_exact_app n s r message : length s = n → read_exact n (s ++ r) message = Done (s, r).
Proof.
  intros <-. unfold read_exact. rewrite length_app.
  assert ((length s + length r <? length s)%nat = false) as -> by (apply Nat.ltb_ge; lia).
  by rewrite take_app_length, drop_app_length.
Qed.

Lemma read_exact_Done n s message b r :
  read_exact n s message = Done (b, r) ↔ s = b ++ r ∧ length b = n.
Proof.
  split.
  - unfold read_exact. destruct (_ <? _)%nat eqn:Hlt; [done|]. intros [= <- <-].
    apply Nat.ltb_ge in Hlt. by rewrite take_drop, length_take_le.
  - intros [-> <-]. by apply read_exact_app.
Qed.

Lemma len_eq0 b : len b = 0%N ↔ b = [].
Proof. unfold len. destruct b; simpl; [done|]. split; [lia|done]. Qed.

(** A frame is read exactly when it was written. *)
Lemma read_frame_Done s tag payload r :
  read_frame s = Done (tag, payload, r) ↔ ∃ b, write_frame tag payload = Done b ∧ s = b ++ r.
Proof.
  unfold read_frame, write_frame. split.
  - intros ([header s1] & [-> Hh]%read_exact_Done & H)%bind_Done.
    destruct header as [|t l4]; [done|]. simpl in Hh. cbn [drop head default] in H. rewrite drop_0 in H.
    destruct (_ <? _)%N eqn:Hlt; [done|].
    apply bind_Done in H as ([p r'] & [-> Hp]%read_exact_Done & [= <- <- <-]).
    assert (Hlen : be_value l4 = len p) by (unfold len; by rewrite Hp, N2Nat.id). rewrite <-Hlen, Hlt. eexists. split; [done|].
    assert (be_bytes 4 (be_value l4) = l4) as ->; [|simpl; by rewrite <-app_assoc].
    assert (length l4 = 4) as Hl4 by lia. rewrite <-Hl4. apply be_bytes_value.
  - intros (b & Hw & ->). destruct (_ <? _)%N eqn:Hlt; [done|].
    assert (b = tag :: be_bytes 4 (len payload) ++ payload) as -> by congruence.
    change ((tag :: be_bytes 4 (len payload) ++ payload) ++ r)
      with (((tag :: be_bytes 4 (len payload)) ++ payload) ++ r). rewrite <-app_assoc.
    rewrite read_exact_app by exact eq_refl. cbn [outcome_bind drop head default].
    rewrite drop_0.
    apply N.ltb_ge in Hlt as Hle. unfold MAX_FRAME_BYTES in Hle.
    rewrite be_value_bytes by (simpl; lia). rewrite Hlt.
    rewrite read_exact_app by (unfold len; lia). done.
Qed.

Definition size_ok (size : PtySize) : Prop := (rows size < 2 ^ 16)%N ∧ (columns size < 2 ^ 16)%N.

(** The frames the reader takes, among those of the frame types. *)
Definition client_accepts (f : ClientPtyFrame) : Prop :=
  match f with
  | FrInput b => (len b ≤ MAX_INPUT_FRAME_BYTES)%N
  | FrResize size => size_ok size
  | FrClose => True
  end.

Definition server_accepts (f : ServerPtyFrame) : Prop :=
  match f with
  | FrOutput offset b => (offset < 2 ^ 64)%N
  | FrExit t | FrError t => utf8_valid (chars t) = true ∧ (len (chars t) ≤ MAX_TEXT_BYTES)%N
  | FrReady | FrDetached => True
  end.

Lemma client_frame_Done s f r :
  read_client_frame s = Done (f, r) ↔
  client_accepts f ∧ ∃ b, write_client_frame f = Done b ∧ s = b ++ r.
Proof.
  unfold read_client_frame. split.
  - intros ([[tag payload] s1] & (b & Hw & ->)%read_frame_Done & H)%bind_Done.
    repeat case_bool_decide; subst; simpl in H; try done;
      (destruct (_ <=? _)%N eqn:Hle || destruct (_ =? _)%N eqn:Hle); try done; injection H as <- <-.
    + apply N.leb_le in Hle. split; [done|eauto].
    + apply N.eqb_eq in Hle. unfold len in Hle.
      assert (length (take 2 payload) = 2 ∧ length (drop 2 payload) = 2) as [Ht Hd]
        by (rewrite length_take, length_drop; lia).
      split.
      * pose proof (be_value_bound (take 2 payload)). pose proof (be_value_bound (drop 2 payload)).
        rewrite Ht in *. rewrite Hd in *. by split.
      * exists b. split; [|done]. cbn [write_client_frame rows columns].
        rewrite !be_bytes_value_of by done. by rewrite take_drop.
    + apply N.eqb_eq, len_eq0 in Hle as ->. split; [done|eauto].
  - intros [Hok (b & Hw & ->)]. destruct f as [i|[rs cs]|]; cbn [client_accepts write_client_frame rows columns] in *.
    + rewrite (proj2 (read_frame_Done _ TAG_INPUT i r)) by eauto. simpl.
      by rewrite (proj2 (N.leb_le _ _)).
    + rewrite (proj2 (read_frame_Done _ TAG_RESIZE _ r)) by eauto.
      cbn [outcome_bind]. rewrite bool_decide_false by done. rewrite bool_decide_true by done.
      unfold len. rewrite length_app, !length_be_bytes. change (N.of_nat (2 + 2) =? 4)%N with true. cbn [andb].
      rewrite take_app_length', drop_app_length' by (by rewrite length_be_bytes).
      destruct Hok as [Hr Hc]. by rewrite !be_value_bytes.
    + by rewrite (proj2 (read_frame_Done _ TAG_CLOSE [] r)) by eauto.
Qed.

Lemma text_Done payload t : text payload = Done t ↔ utf8_valid payload = true ∧ chars t = payload.
Proof.
  unfold text. destruct (utf8_valid payload); [|naive_solver]. split.
  - intros [= <-]. by rewrite chars_of_chars.
  - intros [_ <-]. by rewrite of_chars_chars.
Qed.

Lemma server_frame_Done s f r :
  read_server_frame s = Done (f, r) ↔
  server_accepts f ∧ ∃ b, write_server_frame f = Done b ∧ s = b ++ r.
Proof.
  unfold read_server_frame. split.
  - intros ([[tag payload] s1] & (b & Hw & ->)%read_frame_Done & H)%bind_Done.
    repeat case_bool_decide; subst; simpl in H; try done;
      (destruct (_ <=? _)%N eqn:Hle || destruct (_ =? _)%N eqn:Hle); try done; cbn [andb] in H;
      try (apply bind_Done in H as (t & [Hu Ht]%text_Done & H)); injection H as <- <-.
    + apply N.eqb_eq, len_eq0 in Hle as ->. split; [done|eauto].
    + apply N.leb_le in Hle. unfold len in Hle.
      assert (length (take 8 payload) = 8) as Ht by (rewrite length_take; lia). split.
      * pose proof (be_value_bound (take 8 payload)). by rewrite Ht in *.
      * exists b. split; [|done]. cbn [write_server_frame]. by rewrite be_bytes_value_of, take_drop.
    + apply N.leb_le in Hle. subst payload. split; [done|eauto].
    + apply N.leb_le in Hle. subst payload. split; [done|eauto].
    + apply N.eqb_eq, len_eq0 in Hle as ->. split; [done|eauto].
  - intros [Hok (b & Hw & ->)]. destruct f as [|offset o|t|t|]; cbn [server_accepts write_server_frame] in *.
    + by rewrite (proj2 (read_frame_Done _ TAG_READY [] r)) by eauto.
    + rewrite (proj2 (read_frame_Done _ TAG_OUTPUT _ r)) by eauto. cbn [outcome_bind].
      rewrite bool_decide_false by done. rewrite bool_decide_true by done. cbn [andb].
      rewrite (proj2 (N.leb_le 8 _)) by (unfold len; rewrite length_app, length_be_bytes; lia).
      rewrite take_app_length', drop_app_length' by (by rewrite length_be_bytes). by rewrite be_value_bytes.
    + destruct Hok as [Hu Hl]. rewrite (proj2 (read_frame_Done _ TAG_EXIT _ r)) by eauto. cbn [outcome_bind].
      rewrite !bool_decide_false by done. rewrite bool_decide_true by done. cbn [andb].
      rewrite (proj2 (N.leb_le _ _)) by done. by rewrite (proj2 (text_Done _ t)).
    + destruct Hok as [Hu Hl]. rewrite (proj2 (read_frame_Done _ TAG_ERROR _ r)) by eauto. cbn [outcome_bind].
      rewrite !bool_decide_false by done. rewrite bool_decide_true by done. cbn [andb].
      rewrite (proj2 (N.leb_le _ _)) by done. by rewrite (proj2 (text_Done _ t)).
    + by rewrite (proj2 (read_frame_Done _ TAG_DETACHED [] r)) by eauto.
Qed.

(** The frame codec is exact in both directions. Bytes are read as a frame and a rest exactly when
    they are what the writer writes for that frame, followed by that rest, and the frame is within
    the reader's limits: so what is written is read back, a frame never swallows the next one, and
    nothing else - no other tag, length, size or text that is not UTF-8 - is accepted. *)
Lemma frames_are_exact :
  (∀ s f r, read_client_frame s = Done (f, r) ↔
     client_accepts f ∧ ∃ b, write_client_frame f = Done b ∧ s = b ++ r) ∧
  (∀ s f r, read_server_frame s = Done (f, r) ↔
     server_accepts f ∧ ∃ b, write_server_frame f = Done b ∧ s = b ++ r).
Proof. split; [exact client_frame_Done|exact server_frame_Done]. Qed.

(** A status between the limits is written but not read. *)
Lemma long_status_refused status r b :
  (MAX_TEXT_BYTES < len (chars status))%N → write_server_frame (FrExit status) = Done b →
  ∀ f r', read_server_frame (b ++ r) ≠ Done (f, r').
Proof.
  intros Hlen Hw f r'. unfold read_server_frame.
  rewrite (proj2 (read_frame_Done _ TAG_EXIT _ r)) by eauto. cbn [outcome_bind].
  rewrite (proj2 (N.leb_gt (len (chars status)) MAX_TEXT_BYTES)) by done. rewrite !andb_false_r.
  change (bool_decide (TAG_EXIT = TAG_READY)) with false. change (bool_decide (TAG_EXIT = TAG_OUTPUT)) with false.
  change (bool_decide (TAG_EXIT = TAG_DETACHED)) with false. done.
Qed.

Example sample_frames :
  (let! b := write_server_frame (FrOutput 7 (chars "ok")) in
   let! c := write_server_frame (FrExit "0") in
   let! '(f, s) := read_server_frame (b ++ c) in
   let! '(g, s) := read_server_frame s in Done (f, g, s)) = Done (FrOutput 7 (chars "ok"), FrExit "0", []).
Proof. vm_compute. reflexivity. Qed.

(** ** Bytes as text

    [str::from_utf8] with its error, and [String::from_utf8_lossy]. *)

(** ** Text *)

(** [str::strip_prefix]. *)
Definition strip_prefix (prefix s : string) : option string :=
  if String.prefix prefix s
  then Some (String.substring (String.length prefix) (String.length s - String.length prefix) s) else None.

(** [str::to_ascii_lowercase]. *)
Definition ascii_lower (c : ascii) : ascii := if in_range 65 90 c then ascii_of_N (code c + 32) else c.
Definition to_ascii_lowercase (s : string) : string := of_chars (ascii_lower <$> chars s).

(** ** Decoding *)

(** What is at the front of bytes: a character of [n] bytes, [n] bytes that
    begin no character, or the beginning of a character that is cut off. *)
Inductive Utf8Head : Type :=
| HeadChar (n : nat)
| HeadBad (n : nat)
| HeadCut.

(** The bytes after the first: the range of the second, and how many others. *)
Fixpoint utf8_rest (n : nat) (lo hi : N) (more : nat) (b : bytes) : Utf8Head :=
  match b with
  | [] => HeadCut
  | c :: b =>
      if in_range lo hi c then
        match more with O => HeadChar (S n) | S more => utf8_rest (S n) 128 191 more b end
      else HeadBad n
  end.

Definition utf8_head (c : ascii) (b : bytes) : Utf8Head :=
  if in_range 0 127 c then HeadChar 1
  else if in_range 194 223 c then utf8_rest 1 128 191 0 b
  else if in_range 224 239 c then
    utf8_rest 1 (if bool_decide (code c = 224%N) then 160 else 128)
      (if bool_decide (code c = 237%N) then 159 else 191) 1 b
  else if in_range 240 244 c then
    utf8_rest 1 (if bool_decide (code c = 240%N) then 144 else 128)
      (if bool_decide (code c = 244%N) then 143 else 191) 2 b
  else HeadBad 1.

(** [Utf8Error]: where the well-formed text ends, and [error_len]. *)
Fixpoint utf8_scan (fuel at_ : nat) (b : bytes) : option (nat * option nat) :=
  match fuel, b with
  | S fuel, c :: b' =>
      match utf8_head c b' with
      | HeadChar n => utf8_scan fuel (at_ + n) (drop n b)
      | HeadBad n => Some (at_, Some n)
      | HeadCut => Some (at_, None)
      end
  | _, _ => None
  end.

Definition utf8_error (b : bytes) : option (nat * option nat) := utf8_scan (length b) 0 b.

Definition utf8_error_text (e : nat * option nat) : string :=
  match e.2 with
  | Some n => "invalid utf-8 sequence of " +:+ fmt_nat n +:+ " bytes from index " +:+ fmt_nat e.1
  | None => "incomplete utf-8 byte sequence from index " +:+ fmt_nat e.1
  end.

(** [std::str::from_utf8], with its error as text. *)
Definition from_utf8 (b : bytes) : string + string :=
  match utf8_error b with
  | None => inr (of_chars b)
  | Some e => inl (utf8_error_text e)
  end.

(** U+FFFD. *)
Definition replacement_character : bytes := ascii_of_N <$> [239; 191; 189]%N.

(** [String::from_utf8_lossy]. *)
Fixpoint lossy (fuel : nat) (b : bytes) : bytes :=
  match fuel, b with
  | S fuel, c :: b' =>
      match utf8_head c b' with
      | HeadChar n => take n b ++ lossy fuel (drop n b)
      | HeadBad n => replacement_character ++ lossy fuel (drop n b)
      | HeadCut => replacement_character
      end
  | _, _ => []
  end.

Definition from_utf8_lossy (b : bytes) : string := of_chars (lossy (length b) b).

(** ** Well-formed text *)

Lemma head_valid c b :
  utf8_valid (c :: b) = true ↔ ∃ n, utf8_head c b = HeadChar (S n) ∧ (n ≤ length b)%nat ∧ utf8_valid (drop n b) = true.
Proof.
  unfold utf8_head. simpl. destruct (in_range 0 127 c).
  { split; [intros Hv; by exists 0; split_and!; [|lia|]|]. intros (n & [= <-] & _ & Hv). done. }
  destruct b as [|c1 b].
  { simpl. destruct (in_range 194 223 c), (in_range 224 239 c), (in_range 240 244 c); naive_solver. }
  destruct (in_range 194 223 c); simpl.
  { unfold continuation. destruct (in_range 128 191 c1); simpl; [|naive_solver].
    split; [intros Hv; exists 1; simpl; split_and!; [done|lia|done]|]. intros (n & [= <-] & _ & Hv). done. }
  destruct b as [|c2 b].
  { simpl. destruct (in_range 224 239 c), (in_range 240 244 c); repeat case_match; naive_solver. }
  destruct (in_range 224 239 c); simpl.
  { unfold continuation. destruct (in_range _ _ c1); simpl; [|naive_solver].
    destruct (in_range 128 191 c2); simpl; [|naive_solver].
    split; [intros Hv; exists 2; simpl; split_and!; [done|lia|done]|]. intros (n & [= <-] & _ & Hv). done. }
  destruct b as [|c3 b].
  { destruct (in_range 240 244 c); repeat case_match; naive_solver. }
  unfold continuation. destruct (in_range 240 244 c); simpl; [|naive_solver].
  destruct (in_range _ _ c1); simpl; [|naive_solver]. destruct (in_range 128 191 c2); simpl; [|naive_solver].
  destruct (in_range 128 191 c3); simpl; [|naive_solver].
  split; [intros Hv; exists 3; simpl; split_and!; [done|lia|done]|]. intros (n & [= <-] & _ & Hv). done.
Qed.

Lemma utf8_rest_char n lo hi more b k : utf8_rest n lo hi more b = HeadChar k → k = n + S more ∧ (S more ≤ length b)%nat.
Proof.
  revert n lo hi b. induction more as [|more IH]; intros n lo hi [|c b]; simpl; try done; destruct (in_range lo hi c); try done.
  - intros [= <-]. lia.
  - intros H%IH. lia.
Qed.

Lemma utf8_head_char c b n : utf8_head c b = HeadChar n → ∃ m, n = S m ∧ (m ≤ length b)%nat.
Proof.
  unfold utf8_head. repeat case_match; try done; [intros [= <-]; exists 0; split; [done|lia]|..];
    intros [-> Hl]%utf8_rest_char; eexists; (split; [reflexivity|lia]).
Qed.

Lemma utf8_scan_valid fuel at_ b : (length b ≤ fuel)%nat → utf8_scan fuel at_ b = None ↔ utf8_valid b = true.
Proof.
  revert at_ b. induction fuel as [|fuel IH]; intros at_ [|c b] Hl; simpl in Hl; try done; [lia|].
  rewrite head_valid. cbn [utf8_scan]. destruct (utf8_head c b) as [n|n|] eqn:Hh; [|naive_solver..].
  destruct (utf8_head_char _ _ _ Hh) as (m & -> & Hm). cbn [drop]. rewrite IH by (rewrite length_drop; lia).
  split; [by exists m|]. intros (m' & [= <-] & _ & Hv). done.
Qed.

(** [from_utf8] accepts what is well formed, and [from_utf8_lossy] leaves it
    as it is. *)
Lemma from_utf8_valid b s : from_utf8 b = inr s ↔ utf8_valid b = true ∧ s = of_chars b.
Proof.
  unfold from_utf8, utf8_error. pose proof (utf8_scan_valid (length b) 0 b ltac:(lia)) as Hv.
  destruct (utf8_scan _ _ _); naive_solver.
Qed.

Lemma lossy_valid fuel b : (length b ≤ fuel)%nat → utf8_valid b = true → lossy fuel b = b.
Proof.
  revert b. induction fuel as [|fuel IH]; intros [|c b] Hl; simpl in Hl; [done|lia|done|].
  intros (n & Hh & Hn & Hv)%head_valid. cbn [lossy]. rewrite Hh. cbn [drop]. rewrite IH; [apply (take_drop (S n) (c :: b))|rewrite length_drop; lia|done].
Qed.

Lemma from_utf8_lossy_valid s : utf8_valid (chars s) = true → from_utf8_lossy (chars s) = s.
Proof. intros Hv. unfold from_utf8_lossy. rewrite lossy_valid by done. apply of_chars_chars. Qed.
