(* ===== verification/Pty.v ===== *)
(** Terminal jobs ([crates/xshell-session/src/pty.rs]): starting a job for a
    session, the tickets and claims by which one client at a time gets its
    stream, the queue of its input, the replay buffer of its output and the
    audit of both.

    Each operation is what the code does while it holds its locks; [start] is
    two of them, since it lets go of the lock while the process is spawned. The
    process, the audit service and the registry's host are parameters. A
    worker's wait for input or output is not modelled, only what it does with
    an exchange. *)
From Stdlib Require Import Ascii.
From S2P Require Import Prelude Effects Budget CallId Chat Compaction AuditModel SessionModel Registry RegistrySpec PtyStream.

Definition MAX_ACTIVE_PTYS : nat := 64.
Definition MAX_COMMAND_BYTES : N := 64 * 1024.
Definition MAX_INPUT_BYTES : N := 64 * 1024.
Definition WORKER_INPUT_BYTES : nat := N.to_nat (16 * 1024).
Definition MAX_OUTPUT_BYTES : N := 256 * 1024.
Definition MAX_STREAM_OUTPUT_BYTES : nat := N.to_nat (MAX_OUTPUT_BYTES - 8).
Definition REPLAY_BYTES : nat := N.to_nat (1024 * 1024).
(** In milliseconds. *)
Definition MAX_READ_WAIT : N := 250.
Definition MAX_DIMENSION : N := 1000.
Definition MAX_TERMINAL_TYPE_BYTES : nat := 128.
Definition STREAM_RECORD_BYTES : nat := N.to_nat (64 * 1024).

Record StreamCapture := {
  sc_budget : option N;
  sc_recorded : N;
  sc_dropped : N;
  sc_input_offset : N;
  sc_output_offset : N;
  sc_failed : bool;
}.

Definition capture_new (max_bytes : option N) : StreamCapture := {|
  sc_budget := max_bytes; sc_recorded := 0; sc_dropped := 0; sc_input_offset := 0; sc_output_offset := 0;
  sc_failed := false |}.

Inductive Direction : Type := DirInput | DirOutput.

(** [take]: where the bytes start, and how many of them fit. *)
Definition capture_take (direction : Direction) (count : N) (c : StreamCapture) : N * N * StreamCapture :=
  let start := match direction with DirInput => sc_input_offset c | DirOutput => sc_output_offset c end in
  let allowed := match sc_budget c with
                 | None => count
                 | Some budget => N.min count (budget - sc_recorded c)
                 end in
  (start, allowed, {|
     sc_budget := sc_budget c; sc_recorded := sc_recorded c + allowed;
     sc_dropped := sc_dropped c + (count - allowed);
     sc_input_offset := match direction with DirInput => start + count | DirOutput => sc_input_offset c end;
     sc_output_offset := match direction with DirInput => sc_output_offset c | DirOutput => start + count end;
     sc_failed := sc_failed c |}).

Definition capture_fail (c : StreamCapture) : StreamCapture := {|
  sc_budget := sc_budget c; sc_recorded := sc_recorded c; sc_dropped := sc_dropped c;
  sc_input_offset := sc_input_offset c; sc_output_offset := sc_output_offset c; sc_failed := true |}.

Record PtyState := {
  ps_input : bytes;
  ps_size : PtySize;
  ps_output : bytes;
  ps_replay_start : N;
  ps_replay_end : N;
  ps_exit_status : option string;
  ps_shutdown : bool;
  ps_redraw_requested : bool;
  ps_worker_finished : bool;
}.

Record ManagedPty := {
  mp_session_id : string;
  mp_command : string;
  mp_cwd : string;
  mp_operation_id : string;
  mp_audited : bool;
  mp_capture : option StreamCapture;
  mp_tickets : gmap string N;
  mp_claimed : option string;
  mp_state : PtyState;
}.

Record PtyCoordinator := {
  ptys : gmap string ManagedPty;
  accepting : bool;
}.

Record PtyTicket := {
  pt_pty_id : string;
  pt_ticket : string;
  pt_replay_from : N;
}.

Record PtyClaim := {
  cl_pty_id : string;
  cl_claim_id : string;
  cl_cursor : N;
}.

Record PtyReadResult := {
  rr_offset : N;
  rr_output : bytes;
  rr_status : option string;
}.

(** ** Assignments *)

Definition set_state (s : PtyState) (p : ManagedPty) : ManagedPty := {|
  mp_session_id := mp_session_id p; mp_command := mp_command p; mp_cwd := mp_cwd p;
  mp_operation_id := mp_operation_id p; mp_audited := mp_audited p; mp_capture := mp_capture p;
  mp_tickets := mp_tickets p; mp_claimed := mp_claimed p; mp_state := s |}.
Definition set_stream (tickets : gmap string N) (claimed : option string) (p : ManagedPty) : ManagedPty := {|
  mp_session_id := mp_session_id p; mp_command := mp_command p; mp_cwd := mp_cwd p;
  mp_operation_id := mp_operation_id p; mp_audited := mp_audited p; mp_capture := mp_capture p;
  mp_tickets := tickets; mp_claimed := claimed; mp_state := mp_state p |}.
Definition set_capture (c : option StreamCapture) (p : ManagedPty) : ManagedPty := {|
  mp_session_id := mp_session_id p; mp_command := mp_command p; mp_cwd := mp_cwd p;
  mp_operation_id := mp_operation_id p; mp_audited := mp_audited p; mp_capture := c;
  mp_tickets := mp_tickets p; mp_claimed := mp_claimed p; mp_state := mp_state p |}.

Definition set_input (b : bytes) (s : PtyState) : PtyState := {|
  ps_input := b; ps_size := ps_size s; ps_output := ps_output s; ps_replay_start := ps_replay_start s;
  ps_replay_end := ps_replay_end s; ps_exit_status := ps_exit_status s; ps_shutdown := ps_shutdown s;
  ps_redraw_requested := ps_redraw_requested s; ps_worker_finished := ps_worker_finished s |}.
Definition set_size (size : PtySize) (s : PtyState) : PtyState := {|
  ps_input := ps_input s; ps_size := size; ps_output := ps_output s; ps_replay_start := ps_replay_start s;
  ps_replay_end := ps_replay_end s; ps_exit_status := ps_exit_status s; ps_shutdown := ps_shutdown s;
  ps_redraw_requested := ps_redraw_requested s; ps_worker_finished := ps_worker_finished s |}.
Definition set_replay (b : bytes) (from to : N) (s : PtyState) : PtyState := {|
  ps_input := ps_input s; ps_size := ps_size s; ps_output := b; ps_replay_start := from;
  ps_replay_end := to; ps_exit_status := ps_exit_status s; ps_shutdown := ps_shutdown s;
  ps_redraw_requested := ps_redraw_requested s; ps_worker_finished := ps_worker_finished s |}.
Definition set_redraw (b : bool) (s : PtyState) : PtyState := {|
  ps_input := ps_input s; ps_size := ps_size s; ps_output := ps_output s; ps_replay_start := ps_replay_start s;
  ps_replay_end := ps_replay_end s; ps_exit_status := ps_exit_status s; ps_shutdown := ps_shutdown s;
  ps_redraw_requested := b; ps_worker_finished := ps_worker_finished s |}.
Definition set_shutdown (s : PtyState) : PtyState := {|
  ps_input := ps_input s; ps_size := ps_size s; ps_output := ps_output s; ps_replay_start := ps_replay_start s;
  ps_replay_end := ps_replay_end s; ps_exit_status := ps_exit_status s; ps_shutdown := true;
  ps_redraw_requested := ps_redraw_requested s; ps_worker_finished := ps_worker_finished s |}.
Definition set_exit (status : option string) (finished : bool) (s : PtyState) : PtyState := {|
  ps_input := ps_input s; ps_size := ps_size s; ps_output := ps_output s; ps_replay_start := ps_replay_start s;
  ps_replay_end := ps_replay_end s; ps_exit_status := status; ps_shutdown := ps_shutdown s;
  ps_redraw_requested := ps_redraw_requested s; ps_worker_finished := finished |}.

(** ** Validation *)

Definition check (b : bool) (e : string) : Outcome string () := if b then Done () else Fail e.

Definition validate_command (command : string) : Outcome string () :=
  let! _ := check (negb (blank command)) "PTY command is empty" in
  check (str_len command <=? MAX_COMMAND_BYTES)%N "PTY command exceeds 65536 bytes".

Definition validate_size (size : PtySize) : Outcome string () :=
  check (negb ((rows size =? 0)%N || (columns size =? 0)%N || (MAX_DIMENSION <? rows size)%N ||
               (MAX_DIMENSION <? columns size)%N)) "PTY dimensions must be between 1 and 1000".

Definition validate_terminal_type (terminal_type : option string) : Outcome string () :=
  match terminal_type with
  | None => Done ()
  | Some t =>
      check (negb (bool_decide (t = "") || (MAX_TERMINAL_TYPE_BYTES <? String.length t)%nat ||
                   negb (string_all (λ c, is_ascii_alphanumeric c || bool_decide (c ∈ chars "-_.+:")) t)))
        "invalid terminal type"
  end.

(** ** The replay buffer *)

(** [pop_front] until the buffer fits. *)
Fixpoint trim_replay (output : bytes) (start : N) : bytes * N :=
  if (REPLAY_BYTES <? length output)%nat then
    match output with
    | _ :: output => trim_replay output (saturating_add start 1)
    | [] => ([], start)
    end
  else (output, start).

Definition append_output (b : bytes) (s : PtyState) : PtyState :=
  let '(output, start) := trim_replay (ps_output s ++ b) (ps_replay_start s) in
  set_replay output start (saturating_add (ps_replay_end s) (len b)) s.

Definition clamp_cursor (cursor : N) (s : PtyState) : N :=
  N.min (N.max cursor (ps_replay_start s)) (ps_replay_end s).

(** [read_claimed] once it has the claim: [s'] is the state after the wait, if
    it waits. *)
Definition read_state (cursor : N) (s s' : PtyState) : PtyReadResult :=
  let cursor := clamp_cursor cursor s in
  let s := if (cursor =? ps_replay_end s)%N && bool_decide (ps_exit_status s = None) && negb (ps_shutdown s)
           then s' else s in
  let cursor := clamp_cursor cursor s in
  let output := take MAX_STREAM_OUTPUT_BYTES (drop (N.to_nat (cursor - ps_replay_start s)) (ps_output s)) in
  {| rr_offset := cursor; rr_output := output;
     rr_status := if (ps_replay_end s <=? saturating_add cursor (len output))%N then ps_exit_status s else None |}.

(** ** Streams *)

Definition release_pty (claim_id : string) (p : ManagedPty) : ManagedPty :=
  if bool_decide (mp_claimed p = Some claim_id) then set_stream (mp_tickets p) None p else p.

(** [get_claimed]. *)
Definition get_claimed (claim : PtyClaim) (c : PtyCoordinator) : Outcome string ManagedPty :=
  match ptys c !! cl_pty_id claim with
  | None => Fail "unknown terminal job"
  | Some p => if bool_decide (mp_claimed p = Some (cl_claim_id claim)) then Done p
              else Fail "PTY stream claim is no longer active"
  end.

Definition put_pty (id : string) (p : ManagedPty) (c : PtyCoordinator) : PtyCoordinator := {|
  ptys := <[id := p]> (ptys c); accepting := accepting c |}.

Definition write_claimed (claim : PtyClaim) (b : bytes) (c : PtyCoordinator) : Outcome string PtyCoordinator :=
  let! p := get_claimed claim c in
  let s := mp_state p in
  if ps_shutdown s || negb (bool_decide (ps_exit_status s = None)) then Fail "terminal job has exited"
  else if (MAX_INPUT_BYTES <? len (ps_input s) + len b)%N then
    Fail "terminal job input queue exceeds 65536 bytes"
  else Done (put_pty (cl_pty_id claim) (set_state (set_input (ps_input s ++ b) s) p) c).

Definition resize_claimed (claim : PtyClaim) (size : PtySize) (c : PtyCoordinator) : Outcome string PtyCoordinator :=
  let! _ := validate_size size in
  let! p := get_claimed claim c in
  Done (put_pty (cl_pty_id claim) (set_state (set_size size (mp_state p)) p) c).

Definition read_claimed (claim : PtyClaim) (cursor wait_ms : N) (later : PtyState) (c : PtyCoordinator) :
    Outcome string PtyReadResult :=
  let! p := get_claimed claim c in
  if (MAX_READ_WAIT <? wait_ms)%N then Fail "PTY read wait exceeds 250 ms"
  else Done (read_state cursor (mp_state p) later).

Definition release_claim (claim : PtyClaim) (c : PtyCoordinator) : PtyCoordinator :=
  match ptys c !! cl_pty_id claim with
  | None => c
  | Some p => put_pty (cl_pty_id claim) (release_pty (cl_claim_id claim) p) c
  end.

Definition running (p : ManagedPty) : bool := bool_decide (ps_exit_status (mp_state p) = None).

Definition has_session (entries : list (string * ManagedPty)) (session_id : string) : bool :=
  existsb (λ e, bool_decide (mp_session_id e.2 = session_id) && running e.2) entries.

Definition session_activity (entries : list (string * ManagedPty)) (session_id : string) : option SessionActivity :=
  head (omap (λ e, if bool_decide (mp_session_id e.2 = session_id) && running e.2
                   then Some (ActInteractiveProcess (mp_command e.2) (negb (bool_decide (mp_claimed e.2 = None))))
                   else None) entries).

(** ** The coordinator *)

(** The process and the session's audit handle: whether the command could be
    started, and the error of [SessionAuditHandle::append], if it gave one. That
    it gave none need not mean that the record was accepted: [PtyCapture]. *)
Class PtyWorld (A W : Type) := {
  spawn_process : W → string → string → PtySize → option string → option string * W;
  audit_append : W → AuditEvent A → option string * W;
  base64_encode : bytes → string;
}.

Section coordinator.
Context {A W : Type} `{!StateSerde A, !SessionHost W, !PtyWorld A W}.

Record PtyHost := {
  coordinator : PtyCoordinator;
  store : Store A W;
}.

Abbreviation M := (Step PtyHost string).
Abbreviation S := (Step (Store A W) string).

Definition in_store {B} (m : S B) : M B :=
  zoom store (λ st h, {| coordinator := coordinator h; store := st |}) m.
Definition the_coordinator : M PtyCoordinator := h ← get; mret (coordinator h).
Definition set_coordinator (f : PtyCoordinator → PtyCoordinator) : M () :=
  modify (λ h, {| coordinator := f (coordinator h); store := store h |}).

(** A system call that fails with the text it answers. *)
Definition calling (f : W → option string * W) : S () :=
  error ← io (asking f); match error with None => mret () | Some e => throw e end.

(** [let _ = m], and [if let Err(..) = m { eprintln!(..) }]. *)
Definition ignoring {B} (m : S B) : S () := handle m (λ _, mret ()) (λ _, mret ()).

Definition jobs : M (list (string * ManagedPty)) :=
  c ← the_coordinator; in_store (io (iterate (ptys c))).

Definition remove_job (id : string) : M () :=
  set_coordinator (λ c, {| ptys := delete id (ptys c); accepting := accepting c |}).

(** [remove_completed_for_session]: the worker of a completed job has no more
    to do, so [terminate] does not wait. *)
Definition remove_completed_for_session (session_id : string) : M () :=
  entries ← jobs;
  match filter (λ e, mp_session_id e.2 = session_id ∧ running e.2 = false) entries with
  | (id, _) :: _ => remove_job id
  | [] => mret ()
  end.

Definition has_job (session_id : string) (entries : list (string * ManagedPty)) : bool :=
  existsb (λ e, bool_decide (mp_session_id e.2 = session_id)) entries.

(** [start_inner] up to the process: the job's id. [audit] says whether the
    job's lifecycle is audited, and with which limit its stream. *)
Definition start_admit (session_id command cwd : string) (size : PtySize) (terminal_type : option string)
    (audit : option (option (option N))) : M string :=
  c ← the_coordinator;
  ensure (accepting c) "terminal execution is shutting down";;
  lift (validate_command command);;
  lift (validate_size size);;
  lift (validate_terminal_type terminal_type);;
  remove_completed_for_session session_id;;
  entries ← jobs;
  ensure (negb (MAX_ACTIVE_PTYS <=? length entries)%nat) "PTY capacity is exhausted";;
  ensure (negb (has_job session_id entries)) "session already has a terminal job";;
  pty_id ← in_store (io (asking new_v4));
  (match audit with
   | Some _ => in_store (calling (λ w, audit_append w (EvInput "shell_terminal" ("$" +:+ command))))
   | None => mret ()
   end);;
  in_store (begin_execution session_id pty_id "shell_terminal");;
  handle (in_store (calling (λ w, spawn_process w command cwd size terminal_type))) (λ _, mret pty_id)
    (λ error, in_store (ignoring (finish_execution session_id pty_id));; throw error).

Definition new_job (session_id command cwd pty_id ticket : string) (size : PtySize)
    (audit : option (option (option N))) : ManagedPty := {|
  mp_session_id := session_id; mp_command := command; mp_cwd := cwd; mp_operation_id := pty_id;
  mp_audited := bool_decide (is_Some audit);
  mp_capture := match audit with Some (Some policy) => Some (capture_new policy) | _ => None end;
  mp_tickets := {[ticket := 0%N]}; mp_claimed := None;
  mp_state := {|
    ps_input := []; ps_size := size; ps_output := []; ps_replay_start := 0; ps_replay_end := 0;
    ps_exit_status := None; ps_shutdown := false; ps_redraw_requested := false;
    ps_worker_finished := false |} |}.

(** The rest of [start_inner], under the lock again. *)
Definition start_commit (session_id command cwd pty_id : string) (size : PtySize)
    (audit : option (option (option N))) : M PtyTicket :=
  ticket ← in_store (io (asking new_v4));
  c ← the_coordinator;
  let refuse (error : string) : M PtyTicket :=
    in_store (ignoring (finish_execution session_id pty_id));; throw error in
  if negb (accepting c) then refuse "terminal execution is shutting down"
  else
    entries ← jobs;
    if (MAX_ACTIVE_PTYS <=? length entries)%nat || has_job session_id entries then
      refuse "session acquired another terminal job while this one was starting"
    else
      set_coordinator (put_pty pty_id (new_job session_id command cwd pty_id ticket size audit));;
      mret {| pt_pty_id := pty_id; pt_ticket := ticket; pt_replay_from := 0 |}.

Definition start (session_id command cwd : string) (size : PtySize) (terminal_type : option string)
    (audit : option (option (option N))) : M PtyTicket :=
  pty_id ← start_admit session_id command cwd size terminal_type audit;
  start_commit session_id command cwd pty_id size audit.

Definition attach_job (session_id : string) (after_offset : option N) : M PtyTicket :=
  entries ← jobs;
  match filter (λ e, mp_session_id e.2 = session_id) entries with
  | [] => throw "session has no terminal job"
  | (pty_id, p) :: _ =>
      ensure (bool_decide (mp_claimed p = None)) "terminal job is already attached";;
      let s := mp_state p in
      let replay_from := clamp_cursor (default (ps_replay_start s) after_offset) s in
      ticket ← in_store (io (asking new_v4));
      set_coordinator
        (put_pty pty_id (set_stream {[ticket := replay_from]} (mp_claimed p) (set_state (set_redraw true s) p)));;
      mret {| pt_pty_id := pty_id; pt_ticket := ticket; pt_replay_from := replay_from |}
  end.

(** The first job that holds the ticket, and its cursor. *)
Definition ticket_holder (ticket : string) (entries : list (string * ManagedPty)) :
    option (string * ManagedPty * N) :=
  head (omap (λ e, pair e <$> mp_tickets e.2 !! ticket) entries).

Definition claim (ticket : string) : M PtyClaim :=
  entries ← jobs;
  match ticket_holder ticket entries with
  | None => throw "unknown or expired PTY stream ticket"
  | Some (pty_id, p, cursor) =>
      match mp_claimed p with
      | Some _ =>
          set_coordinator (put_pty pty_id (set_stream (delete ticket (mp_tickets p)) (mp_claimed p) p));;
          throw "terminal job is already attached"
      | None =>
          claim_id ← in_store (io (asking new_v4));
          set_coordinator (put_pty pty_id (set_stream ∅ (Some claim_id) p));;
          mret {| cl_pty_id := pty_id; cl_claim_id := claim_id; cl_cursor := cursor |}
      end
  end.

(** [shutdown], without waiting for the worker. *)
Definition shutdown (p : ManagedPty) : ManagedPty :=
  if ps_worker_finished (mp_state p) then p else set_state (set_shutdown (mp_state p)) p.

(** [terminate_session]: the jobs removed. *)
Definition terminate_session (session_id : string) : M (list ManagedPty) :=
  entries ← jobs;
  let removed := filter (λ e, mp_session_id e.2 = session_id) entries in
  set_coordinator (λ c, {| ptys := foldr delete (ptys c) removed.*1; accepting := accepting c |});;
  mret (shutdown <$> removed.*2).

(** [terminate], which the worker's end is not waited for here either. *)
Definition terminate (pty_id : string) : M ManagedPty :=
  c ← the_coordinator;
  match ptys c !! pty_id with
  | None => throw "unknown terminal job"
  | Some p => remove_job pty_id;; mret (shutdown p)
  end.

Definition stop_accepting : M () :=
  set_coordinator (λ c, {| ptys := ptys c; accepting := false |}).

(** [shutdown_all]: the jobs drained, whose workers it then waits for until its
    deadline. *)
Definition shutdown_all : M (list ManagedPty) :=
  stop_accepting;;
  entries ← jobs;
  set_coordinator (λ c, {| ptys := ∅; accepting := accepting c |});;
  mret (shutdown <$> entries.*2).

(** ** The worker *)

(** [chunks]: the last one may be shorter. *)
Fixpoint chunks_of (fuel n : nat) (b : bytes) : list bytes :=
  match fuel, b with
  | Datatypes.S fuel, _ :: _ => take n b :: chunks_of fuel n (drop n b)
  | _, _ => []
  end.

Definition stream_event (p : ManagedPty) (direction : Direction) (offset : N) (chunk : bytes) : AuditEvent A :=
  EvTerminalStream (mp_command p) (match direction with DirInput => "input" | DirOutput => "output" end)
    offset (base64_encode chunk) 0.

(** The loop of [record_stream]: whether every record was accepted. *)
Fixpoint record_chunks (p : ManagedPty) (direction : Direction) (offset : N) (l : list bytes) : S bool :=
  match l with
  | [] => mret true
  | chunk :: l =>
      handle (calling (λ w, audit_append w (stream_event p direction offset chunk)))
        (λ _, record_chunks p direction (offset + len chunk) l) (λ _, mret false)
  end.

Definition record_stream (direction : Direction) (b : bytes) (p : ManagedPty) : S ManagedPty :=
  match b, mp_audited p, mp_capture p with
  | _ :: _, true, Some c =>
      if sc_failed c then mret p
      else
        let '(start, allowed, c) := capture_take direction (len b) c in
        recorded ← record_chunks p direction start
          (chunks_of (length b) STREAM_RECORD_BYTES (take (N.to_nat allowed) b));
        mret (set_capture (Some (if recorded : bool then c else capture_fail c)) p)
  | _, _, _ => mret p
  end.

Definition record_stream_summary (p : ManagedPty) : S () :=
  match mp_audited p, mp_capture p with
  | true, Some c =>
      if (sc_dropped c =? 0)%N || sc_failed c then mret ()
      else ignoring (calling (λ w, audit_append w (EvTerminalStream (mp_command p) "summary" 0 "" (sc_dropped c))))
  | _, _ => mret ()
  end.

Definition finish (status : string) (p : ManagedPty) : S ManagedPty :=
  match ps_exit_status (mp_state p) with
  | Some _ => mret p
  | None =>
      let p := set_state (set_exit (Some status) (ps_worker_finished (mp_state p)) (mp_state p)) p in
      record_stream_summary p;;
      (if mp_audited p then
         ignoring (calling (λ w, audit_append w (EvShellFinished (mp_command p) status (mp_cwd p))))
       else mret ());;
      ignoring (finish_execution (mp_session_id p) (mp_operation_id p));;
      mret (set_state (set_exit (ps_exit_status (mp_state p)) true (mp_state p)) p)
  end.

(** What the worker sends next: the input it offers, the size, and whether it
    was asked to stop or to redraw. *)
Definition worker_request (p : ManagedPty) : (bytes * PtySize * bool * bool) * ManagedPty :=
  let s := mp_state p in
  ((take WORKER_INPUT_BYTES (ps_input s), ps_size s, ps_shutdown s, ps_redraw_requested s),
   set_state (set_redraw false s) p).

(** An exchange with the process, after [input] was offered. *)
Definition worker_exchange (input : bytes) (input_accepted : nat) (output : bytes) (status : option string)
    (p : ManagedPty) : S ManagedPty :=
  let accepted := Nat.min input_accepted (length input) in
  p ← record_stream DirInput (take accepted input) p;
  p ← record_stream DirOutput output p;
  let s := mp_state p in
  let s := append_output output
             (set_input (drop (Nat.min accepted (length (ps_input s))) (ps_input s)) s) in
  let p := set_state s p in
  match status with Some status => finish status p | None => mret p end.
End coordinator.
Arguments PtyHost : clear implicits.

(** ** What a terminal job promises

    Its output is replayed faithfully, one client at a time has its stream, its
    capture accounts for every byte, and starting it leaves either a job or
    nothing. *)

Lemma replay_positive : 0 < REPLAY_BYTES ∧ 0 < MAX_STREAM_OUTPUT_BYTES.
Proof. unfold REPLAY_BYTES, MAX_STREAM_OUTPUT_BYTES, MAX_OUTPUT_BYTES. lia. Qed.

Lemma stream_output_fits : N.of_nat MAX_STREAM_OUTPUT_BYTES = 262136%N.
Proof. unfold MAX_STREAM_OUTPUT_BYTES, MAX_OUTPUT_BYTES. by rewrite N2Nat.id. Qed.

Lemma replay_large : N.of_nat REPLAY_BYTES = 1048576%N.
Proof. unfold REPLAY_BYTES. by rewrite N2Nat.id. Qed.

Lemma record_positive : 0 < STREAM_RECORD_BYTES.
Proof. unfold STREAM_RECORD_BYTES. lia. Qed.

#[local] Opaque REPLAY_BYTES MAX_STREAM_OUTPUT_BYTES STREAM_RECORD_BYTES.

(** * The replay buffer *)

(** [all] is everything the process ever wrote; the buffer is its end, and
    starts late only when it is full. *)
Record Replay (all : bytes) (s : PtyState) : Prop := {
  rp_end : ps_replay_end s = len all;
  rp_output : ps_output s = drop (N.to_nat (ps_replay_start s)) all;
  rp_start : (ps_replay_start s ≤ len all)%N;
  rp_bound : length (ps_output s) ≤ REPLAY_BYTES;
  rp_full : ps_replay_start s = 0%N ∨ length (ps_output s) = REPLAY_BYTES;
}.

Lemma trim_replay_spec output start :
  (start + len output < 2 ^ 64)%N →
  let k := length output - REPLAY_BYTES in
  trim_replay output start = (drop k output, (start + N.of_nat k)%N).
Proof.
  cbn zeta. revert start. induction output as [|c output IH]; intros start Hs.
  - replace (length (@nil ascii) - REPLAY_BYTES) with 0 by (simpl; lia). by rewrite N.add_0_r.
  - simpl trim_replay. simpl length in *.
    destruct (Nat.ltb_spec REPLAY_BYTES (S (length output))) as [Hlt|Hge].
    + assert (S (length output) - REPLAY_BYTES = S (length output - REPLAY_BYTES)) as -> by lia.
      unfold len in Hs. simpl length in Hs.
      assert (saturating_add start 1 = start + 1)%N as -> by (unfold saturating_add, USIZE_MAX; lia).
      rewrite IH by (unfold len; lia). rewrite Nat2N.inj_succ. simpl drop. f_equal. lia.
    + assert (S (length output) - REPLAY_BYTES = 0) as -> by lia. by rewrite N.add_0_r.
Qed.

Lemma append_output_replay all b s :
  Replay all s → (len (all ++ b) < 2 ^ 64)%N → Replay (all ++ b) (append_output b s).
Proof.
  intros [He Ho Hs Hb Hf] Hlen. unfold append_output, len in *. rewrite length_app in Hlen.
  assert (Hl : length (ps_output s ++ b) = length all + length b - N.to_nat (ps_replay_start s)).
  { rewrite length_app, Ho, length_drop. lia. }
  rewrite trim_replay_spec by (unfold len; rewrite Hl; lia). rewrite Hl.
  set (k := length all + length b - N.to_nat (ps_replay_start s) - REPLAY_BYTES).
  assert (Hd : drop k (ps_output s ++ b) = drop (N.to_nat (ps_replay_start s + N.of_nat k)) (all ++ b)).
  { rewrite Ho, <-(drop_app_le all b) by lia. rewrite drop_drop. f_equal. lia. }
  split; simpl.
  - rewrite He. unfold saturating_add, USIZE_MAX, len. rewrite length_app. lia.
  - exact Hd.
  - unfold len. rewrite length_app. lia.
  - rewrite Hd, length_drop, length_app. unfold k. lia.
  - rewrite Hd, length_drop, length_app. unfold k. destruct Hf as [Hf|Hf]; [|rewrite Ho, length_drop in Hf]; lia.
Qed.

(** What a read from a state returns: bytes of the output at the offset it
    says. *)
Lemma read_state_spec cursor s s' all more :
  Replay all s → Replay (all ++ more) s' → (len (all ++ more) < 2 ^ 64)%N →
  let r := read_state cursor s s' in
  ∃ written s1, (written = all ∧ s1 = s ∨ written = all ++ more ∧ s1 = s') ∧
    rr_output r = take MAX_STREAM_OUTPUT_BYTES (drop (N.to_nat (rr_offset r)) written) ∧
    (rr_offset r ≤ len written)%N ∧
    ((cursor ≤ len all)%N → rr_offset r = cursor ∨
       (cursor < rr_offset r)%N ∧ (rr_offset r + N.of_nat REPLAY_BYTES = len written)%N) ∧
    (is_Some (rr_status r) → is_Some (ps_exit_status s1) ∧ (rr_offset r + len (rr_output r))%N = len written).
Proof.
  intros Hr Hr' Hlen r.
  set (waits := ((clamp_cursor cursor s =? ps_replay_end s)%N && bool_decide (ps_exit_status s = None) &&
    negb (ps_shutdown s))) in *.
  assert (∃ written s1, (written = all ∧ s1 = s ∨ written = all ++ more ∧ s1 = s') ∧ (if waits then s' else s) = s1 ∧
    Replay written s1 ∧ (len all ≤ len written)%N ∧ (len written < 2 ^ 64)%N) as (written & s1 & Hw & Hs1 & HR & Hle & Hl).
  { unfold len in *. rewrite length_app in *. destruct waits.
    - exists (all ++ more), s'. rewrite length_app. split_and!; [by right|done|done|lia|lia].
    - exists all, s. split_and!; [by left|done|done|lia|lia]. }
  exists written, s1. split; [done|]. unfold r, read_state. fold waits. rewrite Hs1. cbn [rr_output rr_offset rr_status].
  destruct Hr as [He Ho Hs Hb Hf], HR as [He1 Ho1 Hs1' Hb1 Hf1].
  set (off := clamp_cursor (clamp_cursor cursor s) s1).
  assert (Hoff : (ps_replay_start s1 ≤ off ≤ len written)%N).
  { unfold off, clamp_cursor. rewrite He1. lia. }
  assert (Hdrop : drop (N.to_nat (off - ps_replay_start s1)) (ps_output s1) = drop (N.to_nat off) written).
  { rewrite Ho1, drop_drop. f_equal. lia. }
  rewrite Hdrop. split_and!; [done|lia| |].
  - intros Hc. assert (Hlen1 : length (ps_output s1) = length written - N.to_nat (ps_replay_start s1)) by (rewrite Ho1, length_drop; lia).
    assert (Hlens : length (ps_output s) = length all - N.to_nat (ps_replay_start s)) by (rewrite Ho, length_drop; lia).
    unfold off, clamp_cursor, len in *. rewrite He, He1.
    destruct waits eqn:Hwaits.
    + unfold waits in Hwaits. apply andb_true_iff in Hwaits as [[Hend%N.eqb_eq _]%andb_true_iff _].
      unfold clamp_cursor in Hend. rewrite He in Hend.
      destruct Hf1 as [Hf1|Hf1]; destruct Hf as [Hf|Hf]; lia.
    + subst s1. rewrite He in He1. destruct Hf as [Hf|Hf]; lia.
  - intros [x Hx]. destruct (_ <=? _)%N eqn:Hd; [|done]. split; [by eexists|]. apply N.leb_le in Hd. rewrite He1 in Hd.
    unfold saturating_add in Hd. unfold len in *. rewrite length_take, length_drop in *. lia.
Qed.

(** * The life of a job *)

Section life.
Context {A W : Type} `{!StateSerde A, !SessionHost W, !PtyWorld A W}.

(** What may happen to a job at a time, and what its process writes then. The
    worker is the only one to ask the process and to finish the job, and does
    neither once the job has an exit status; [finish] sets it before its records
    are written, and [worker_finished] after. *)
Inductive Moves : ManagedPty → bytes → ManagedPty → Prop :=
| moves_stream p tickets claimed : Moves p [] (set_stream tickets claimed p)
| moves_input p b : Moves p [] (set_state (set_input b (mp_state p)) p)
| moves_size p size : Moves p [] (set_state (set_size size (mp_state p)) p)
| moves_redraw p b : Moves p [] (set_state (set_redraw b (mp_state p)) p)
| moves_shutdown p : Moves p [] (shutdown p)
| moves_exchange p input n output status (st st' : Store A W) p' :
    ps_exit_status (mp_state p) = None →
    worker_exchange input n output status p st = (st', Done p') → Moves p output p'
| moves_finish p status (st st' : Store A W) p' : finish status p st = (st', Done p') → Moves p [] p'
| moves_exit p status :
    ps_exit_status (mp_state p) = None →
    Moves p [] (set_state (set_exit (Some status) (ps_worker_finished (mp_state p)) (mp_state p)) p)
| moves_finished p :
    is_Some (ps_exit_status (mp_state p)) →
    Moves p [] (set_state (set_exit (ps_exit_status (mp_state p)) true (mp_state p)) p).

(** What may have happened to a job since, its process having written [all] and
    then [all']. *)
Inductive Later (all : bytes) (p : ManagedPty) : bytes → ManagedPty → Prop :=
| later_now : Later all p all p
| later_moves all' p' output p'' :
    Later all p all' p' → Moves p' output p'' → Later all p (all' ++ output) p''.

(** The life of a job so far, its process having written [all]. *)
Definition Lives (all : bytes) (p : ManagedPty) : Prop :=
  ∃ session_id command cwd pty_id ticket size audit,
    Later [] (new_job session_id command cwd pty_id ticket size audit) all p.

Lemma record_stream_state direction b p (st st' : Store A W) p' :
  record_stream direction b p st = (st', Done p') → mp_state p' = mp_state p.
Proof.
  unfold record_stream. destruct b, (mp_audited p), (mp_capture p) as [c|]; try by intros [= _ <-].
  destruct (sc_failed c); [by intros [= _ <-]|]. destruct (capture_take _ _ c) as [[start allowed] c'].
  intros (recorded & st1 & _ & [= _ <-])%step_bind_Done. done.
Qed.

Lemma finish_replay all status p (st st' : Store A W) p' :
  finish status p st = (st', Done p') → Replay all (mp_state p) → Replay all (mp_state p').
Proof.
  unfold finish. destruct (ps_exit_status (mp_state p)); [by intros [= _ <-]|].
  intros (u1 & s1 & _ & (u2 & s2 & _ & (u3 & s3 & _ & [= _ <-])%step_bind_Done)%step_bind_Done)%step_bind_Done.
  by intros [].
Qed.

Lemma worker_exchange_replay all input n output status p (st st' : Store A W) p' :
  worker_exchange input n output status p st = (st', Done p') → (len (all ++ output) < 2 ^ 64)%N →
  Replay all (mp_state p) → Replay (all ++ output) (mp_state p').
Proof.
  intros (p1 & s1 & H1 & (p2 & s2 & H2 & H3)%step_bind_Done)%step_bind_Done Hlen HR.
  apply record_stream_state in H1, H2. rewrite <-H1, <-H2 in HR.
  assert (Hset : ∀ b, Replay all (set_input b (mp_state p2))) by (intros b; by destruct HR).
  destruct status as [status|]; [|injection H3 as _ <-; by apply append_output_replay].
  eapply finish_replay; [exact H3|]. by apply append_output_replay.
Qed.

Lemma len_app b b' : len (b ++ b') = (len b + len b')%N.
Proof. unfold len. rewrite length_app. lia. Qed.

Lemma moves_replay all p output p' :
  Moves p output p' → (len (all ++ output) < 2 ^ 64)%N → Replay all (mp_state p) → Replay (all ++ output) (mp_state p').
Proof.
  intros Hm Hlen HR.
  destruct Hm; rewrite ?app_nil_r in *; try exact HR; try (by destruct HR);
    [|by eapply worker_exchange_replay|by eapply finish_replay].
  unfold shutdown. destruct (ps_worker_finished _); by destruct HR.
Qed.

Lemma later_prefix all p all' p' : Later all p all' p' → all `prefix_of` all'.
Proof. induction 1; [done|]. by apply prefix_app_r. Qed.

Lemma lives_on all p all1 p1 all2 p2 : Later all p all1 p1 → Later all1 p1 all2 p2 → Later all p all2 p2.
Proof. intros H1 H2. induction H2; [done|]. by eapply later_moves. Qed.

Lemma later_replay all p all' p' :
  Later all p all' p' → (len all' < 2 ^ 64)%N → Replay all (mp_state p) → Replay all' (mp_state p').
Proof.
  intros Hl Hlen HR. induction Hl as [|all' p1 output p2 _ IH Hm]; [done|].
  eapply moves_replay; [done..|]. apply IH. rewrite len_app in Hlen. lia.
Qed.

Lemma lives_later all p all' p' : Lives all p → Later all p all' p' → Lives all' p'.
Proof.
  intros (session_id & command & cwd & pty_id & ticket & size & audit & H) H'.
  exists session_id, command, cwd, pty_id, ticket, size, audit. by eapply lives_on.
Qed.

(** The replay buffer of a job is faithful all its life. *)
Lemma lives_replay all p : Lives all p → (len all < 2 ^ 64)%N → Replay all (mp_state p).
Proof.
  intros (? & ? & ? & ? & ? & ? & ? & H) Hlen. eapply later_replay; [done..|].
  split; [done..|by apply Nat.le_0_l|by left].
Qed.

Lemma finish_exit status p (st st' : Store A W) p' :
  finish status p st = (st', Done p') → is_Some (ps_exit_status (mp_state p)) → p' = p.
Proof. unfold finish. intros H [x Hx]. rewrite Hx in H. by injection H. Qed.

Lemma moves_after_exit p output p' :
  Moves p output p' → is_Some (ps_exit_status (mp_state p)) → output = [] ∧ is_Some (ps_exit_status (mp_state p')).
Proof.
  intros Hm Hx. destruct Hm as [| | | | |? ? ? ? ? ? ? ? Hno|? ? ? ? ? Hf|? ? Hno|];
    try (by split); try (rewrite Hno in Hx; by destruct Hx).
  - unfold shutdown. split; [done|]. by destruct (ps_worker_finished _).
  - split; [done|]. by rewrite (finish_exit _ _ _ _ _ Hf).
Qed.

(** A process writes nothing after its exit status. *)
Lemma later_after_exit all p all' p' :
  Later all p all' p' → is_Some (ps_exit_status (mp_state p)) → all' = all ∧ is_Some (ps_exit_status (mp_state p')).
Proof.
  intros Hl Hx. induction Hl as [|all' p1 output p2 _ [-> Hx1] Hm]; [done|].
  destruct (moves_after_exit _ _ _ Hm Hx1) as [-> ?]. by rewrite app_nil_r.
Qed.
End life.
