(* ===== verification/PtyServe.v ===== *)
(** Serving a claimed terminal job over a connection ([serve_claimed_pty] of
    [crates/xshell-session/src/bin/xshelld.rs]) and rendering it at the other
    end ([PtyStreamClient] of [pty_stream.rs], [relay_duplex_inner] of
    [crates/xshell-pty/src/lib.rs]).

    The daemon's threads share the coordinator, so a turn of the loop says what
    the loop finds in it each time it looks; what the loop does to it is
    [serve_heard]. The connection is the bytes written to it. The client's
    loop is its output only: its own input is [PtyKeys]. *)
From Stdlib Require Import Ascii.
From S2P Require Import Prelude Budget Compaction CallId Chat Effects SessionModel Registry RegistrySpec.
From S2P Require Import RegistryProps AuditModel Encode PtyStream Pty.

(** What [poll] says of the connection, and what is read from it then. *)
Inductive Heard : Type :=
| HeardNothing
| HeardFrame (f : Result ClientPtyFrame)
| HeardHangup
| HeardError (e : string).

Record Turn := {
  t_heard : Heard;
  t_seen : PtyCoordinator;
  t_read : PtyCoordinator;
  t_later : PtyState;
}.

(** The client's frame: the coordinator after it, and whether to go on. *)
Definition serve_heard (claim : PtyClaim) (heard : Heard) (c : PtyCoordinator) : Result (PtyCoordinator * bool) :=
  match heard with
  | HeardNothing => Done (c, true)
  | HeardHangup => Done (c, false)
  | HeardError e => Fail e
  | HeardFrame f =>
      let! f := f in
      match f with
      | FrInput b => let! c := write_claimed claim b c in Done (c, true)
      | FrResize size => let! c := resize_claimed claim size c in Done (c, true)
      | FrClose => Done (release_claim claim c, false)
      end
  end.

Definition heard_close (heard : Heard) : bool :=
  match heard with HeardFrame (Done FrClose) => true | _ => false end.

Abbreviation Wire := (Step bytes string).

Definition send_frame (f : ServerPtyFrame) : Wire () :=
  b ← lift (write_server_frame f); modify (λ w, w ++ b).

(** One turn of the loop: the next cursor, or that it is over. *)
Definition serve_turn (claim : PtyClaim) (cursor : N) (t : Turn) : Wire (option N) :=
  '(_, go) ← lift (serve_heard claim (t_heard t) (t_seen t));
  if negb go then
    (if heard_close (t_heard t) then send_frame FrDetached else mret ());; mret None
  else
    match read_claimed claim cursor 40 (t_later t) (t_read t) with
    | Panic => lift Panic
    | Fail message => handle (send_frame (FrError message)) (λ _, mret None) (λ _, mret None)
    | Done r =>
        (if bool_decide (rr_output r = []) then mret () else send_frame (FrOutput (rr_offset r) (rr_output r)));;
        match rr_status r with
        | Some status => send_frame (FrExit status);; mret None
        | None => mret (Some (saturating_add (rr_offset r) (len (rr_output r))))
        end
    end.

(** [None] when the turns given are not the end. *)
Fixpoint serve (claim : PtyClaim) (cursor : N) (turns : list Turn) : Wire (option ()) :=
  match turns with
  | [] => mret None
  | t :: turns =>
      next ← serve_turn claim cursor t;
      match next with
      | None => mret (Some ())
      | Some cursor => serve claim cursor turns
      end
  end.

(** * The client *)

Inductive DuplexPtyEvent : Type :=
| DxOutput (b : bytes)
| DxExit (status : string)
| DxError (message : string).

(** [relay]'s receiver: the event, and the client's cursor. *)
Definition relay_receive (f : ServerPtyFrame) (cursor : N) : Result (DuplexPtyEvent * N) :=
  match f with
  | FrOutput offset b => Done (DxOutput b, saturating_add offset (len b))
  | FrExit status => Done (DxExit status, cursor)
  | FrError message => Done (DxError message, cursor)
  | FrReady => Fail "remote PTY sent a duplicate ready frame"
  | FrDetached => Fail "remote PTY detached unexpectedly"
  end.

Record Terminal := {
  tm_rendered : bytes;
  tm_cursor : N;
}.

(** The loop as long as frames arrive; a turn reads one. [None] when the
    transport has nothing more yet. *)
Fixpoint relay (fuel : nat) (s : bytes) : Step Terminal string (option string) :=
  match fuel, s with
  | S fuel, _ :: _ =>
      '(f, s) ← lift (read_server_frame s);
      t ← get;
      '(event, cursor) ← lift (relay_receive f (tm_cursor t));
      match event with
      | DxOutput b => modify (λ t, {| tm_rendered := tm_rendered t ++ b; tm_cursor := cursor |});; relay fuel s
      | DxExit status => mret (Some status)
      | DxError message => throw ("remote PTY failed: " +:+ message)
      end
  | _, _ => mret None
  end.

(** [detach], after the close frame was sent: frames are read until the stream
    ends. A transport that is closed is one, too. *)
Fixpoint detach (fuel : nat) (s : bytes) : Result () :=
  match fuel with
  | O => Panic
  | S fuel =>
      match read_server_frame s with
      | Fail e => if bool_decide (e ∈ ["PTY stream closed"; "truncated PTY frame"]) then Done () else Fail e
      | Panic => Panic
      | Done (FrDetached, _) | Done (FrExit _, _) => Done ()
      | Done (FrOutput _ _, s) => detach fuel s
      | Done (FrError message, _) => Fail ("PTY detach failed: " +:+ message)
      | Done (FrReady, _) => Fail "PTY sent a duplicate ready frame while detaching"
      end
  end.

(** * What is delivered *)

#[local] Opaque REPLAY_BYTES MAX_STREAM_OUTPUT_BYTES.

(** Frames that carry [final] from the cursor on. *)
Inductive Carries (final : bytes) : N → list ServerPtyFrame → Prop :=
| carries_nothing cursor : Carries final cursor []
| carries_output cursor offset b fs :
    (offset = cursor ∨ (cursor < offset)%N ∧ (offset + N.of_nat REPLAY_BYTES ≤ len final)%N) → (offset + len b ≤ len final)%N →
    b = take (length b) (drop (N.to_nat offset) final) → b ≠ [] →
    Carries final (offset + len b) fs →
    Carries final cursor (FrOutput offset b :: fs)
| carries_exit status : Carries final (len final) [FrExit status]
| carries_error cursor message : Carries final cursor [FrError message]
| carries_detached cursor : Carries final cursor [FrDetached].

(** What a turn of the loop finds of the job, if it is there: what became of it
    by when the loop reads its state, and by when it has waited. *)
Section watching.
Context {A W : Type} `{!StateSerde A, !SessionHost W, !PtyWorld A W}.

Definition Observes (id : string) (all : bytes) (p : ManagedPty) (t : Turn) (all' : bytes) (p' : ManagedPty) : Prop :=
  ∃ now job, Later (A := A) (W := W) all p now job ∧ Later (A := A) (W := W) now job all' p' ∧
    (∀ q, ptys (t_read t) !! id = Some q → q = job) ∧ t_later t = mp_state p'.

(** The turns of the loop, [final] being what the process has written after. *)
Inductive Watching (id : string) (final : bytes) : bytes → ManagedPty → list Turn → Prop :=
| watching_over all p p' : Later (A := A) (W := W) all p final p' → Watching id final all p []
| watching_turn all p t all' p' turns :
    Observes id all p t all' p' → Watching id final all' p' turns → Watching id final all p (t :: turns).

Lemma watching_later id final all p turns :
  Watching id final all p turns → ∃ p', Later (A := A) (W := W) all p final p'.
Proof.
  induction 1 as [all p p' H|all p t all' p' turns (now & job & H1 & H2 & _) _ [q IH]]; [by eexists|].
  exists q. eapply lives_on; [exact H1|]. by eapply lives_on.
Qed.
End watching.

(** The bytes of some frames. *)
Definition wire_of (fs : list ServerPtyFrame) : Result bytes :=
  let! bs := outcome_map write_server_frame fs in Done (concat bs).

Lemma wire_of_app fs fs' b b' : wire_of fs = Done b → wire_of fs' = Done b' → wire_of (fs ++ fs') = Done (b ++ b').
Proof.
  unfold wire_of. intros (bs & Hbs%outcome_map_Done & [= <-])%bind_Done (bs' & Hbs'%outcome_map_Done & [= <-])%bind_Done.
  rewrite (proj2 (outcome_map_Done _ _ (bs ++ bs'))) by by apply Forall2_app. simpl. by rewrite concat_app.
Qed.

Lemma wire_of_cons f fs b b' : write_server_frame f = Done b → wire_of fs = Done b' → wire_of (f :: fs) = Done (b ++ b').
Proof.
  intros Hf. apply (wire_of_app [f]). unfold wire_of. simpl. rewrite Hf. simpl. by rewrite app_nil_r.
Qed.

(** A computation on the wire wrote these frames. *)
Definition wrote {A} (m : Wire A) (w : bytes) (P : list ServerPtyFrame → Outcome string A → Prop) : Prop :=
  ∃ fs b r, m w = (w ++ b, r) ∧ wire_of fs = Done b ∧ P fs r.

Lemma wrote_silent {A} (m : Wire A) w r (P : list ServerPtyFrame → Outcome string A → Prop) :
  m w = (w, r) → P [] r → wrote m w P.
Proof. intros Hm HP. exists [], [], r. split_and!; [by rewrite app_nil_r|done..]. Qed.

Lemma wrote_bind {A B} (m : Wire A) (k : A → Wire B) w P :
  wrote m w (λ fs r, match r with
    | Done a => ∀ w, wrote (k a) w (λ fs' r', P (fs ++ fs') r')
    | Fail e => P fs (Fail e)
    | Panic => P fs Panic end) →
  wrote (m ≫= k) w P.
Proof.
  intros (fs & b & r & Hm & Hb & Hr). unfold wrote, mbind, Step_bind. rewrite Hm. destruct r as [a|e|].
  - destruct (Hr (w ++ b)) as (fs' & b' & r' & Hk & Hb' & HP). rewrite Hk.
    exists (fs ++ fs'), (b ++ b'), r'. rewrite app_assoc. eauto using wire_of_app.
  - exists fs, b, (Fail e). eauto.
  - exists fs, b, Panic. eauto.
Qed.

(** A frame is sent or it is too long. *)
Lemma wrote_frame f w P : P [f] (Done ()) → (∀ e, P [] (Fail e)) → wrote (send_frame f) w P.
Proof.
  intros HD HF. destruct (write_server_frame f) as [b|e|] eqn:Hf.
  - exists [f], b, (Done ()). split_and!; [|by unfold wire_of; simpl; rewrite Hf; simpl; rewrite app_nil_r|done].
    unfold send_frame, mbind, Step_bind, lift. by rewrite Hf.
  - apply (wrote_silent _ _ (Fail e)); [|done]. unfold send_frame, mbind, Step_bind, lift. by rewrite Hf.
  - by destruct f; simpl in Hf; unfold write_frame in Hf; destruct (_ <? _)%N.
Qed.

Lemma prefix_len (a b : bytes) : a `prefix_of` b → (len a ≤ len b)%N.
Proof. intros Hab%prefix_length. unfold len. lia. Qed.

(** A slice of a part is a slice of the whole. *)
Lemma slice_prefix (written final : bytes) (n offset : nat) :
  written `prefix_of` final →
  let b := take n (drop offset written) in b = take (length b) (drop offset final).
Proof.
  intros [rest ->]. cbn zeta. rewrite length_take, length_drop.
  destruct (decide (offset ≤ length written)) as [Hle|Hgt].
  - rewrite drop_app_le by done. rewrite take_app_le by (rewrite length_drop; lia).
    destruct (decide (n ≤ length written - offset)) as [H|H].
    + by rewrite Nat.min_l.
    + rewrite Nat.min_r by lia. rewrite !take_ge by (rewrite length_drop; lia). done.
  - rewrite drop_ge by lia. rewrite take_nil. by replace (n `min` (length written - offset)) with 0 by lia.
Qed.

Lemma get_claimed_Done claim c p :
  get_claimed claim c = Done p ↔ ptys c !! cl_pty_id claim = Some p ∧ mp_claimed p = Some (cl_claim_id claim).
Proof. unfold get_claimed. destruct (ptys c !! _); [case_bool_decide|]; naive_solver. Qed.

Lemma read_claimed_cases claim cursor wait_ms later c :
  (∃ p, ptys c !! cl_pty_id claim = Some p ∧
     read_claimed claim cursor wait_ms later c = Done (read_state cursor (mp_state p) later)) ∨
  (∃ e, read_claimed claim cursor wait_ms later c = Fail e).
Proof.
  unfold read_claimed. destruct (get_claimed claim c) as [p|e|] eqn:Hg; simpl; [|by right; eexists|].
  - apply get_claimed_Done in Hg as [Hp _]. destruct (_ <? _)%N; [by right; eexists|]. left. by exists p.
  - unfold get_claimed in Hg. destruct (ptys c !! _); [case_bool_decide|]; done.
Qed.

(** What a turn sends, and how it goes on. *)
Definition turn_ends (final all' : bytes) (cursor : N) (fs : list ServerPtyFrame) (r : Outcome string (option N)) : Prop :=
  match r with
  | Done (Some cursor') => (cursor' ≤ len all')%N ∧ ∀ fs', Carries final cursor' fs' → Carries final cursor (fs ++ fs')
  | _ => Carries final cursor fs
  end.

Section served.
Context {A W : Type} `{!StateSerde A, !SessionHost W, !PtyWorld A W}.

(** What the life of the job says of what the loop reads. *)
Lemma observed id final all p t all' p' last :
  Lives (A := A) (W := W) all p → Observes (A := A) (W := W) id all p t all' p' →
  Later (A := A) (W := W) all' p' final last → (len final < 2 ^ 64)%N →
  ∃ more more', all' = (all ++ more) ++ more' ∧ all' `prefix_of` final ∧
    (∀ q, ptys (t_read t) !! id = Some q → Replay (all ++ more) (mp_state q) ∧
      (is_Some (ps_exit_status (mp_state q)) → all ++ more = final)) ∧
    Replay all' (t_later t) ∧ (is_Some (ps_exit_status (t_later t)) → all' = final).
Proof.
  intros HL (now & job & H1 & H2 & Hread & Hlater) H3 Hlen.
  destruct (later_prefix _ _ _ _ H1) as [more ->]. destruct (later_prefix _ _ _ _ H2) as [more' ->].
  pose proof (later_prefix _ _ _ _ H3) as Hfinal. pose proof (prefix_len _ _ Hfinal) as Hle. rewrite len_app in Hle.
  exists more, more'. split_and!; [done|done| | |].
  - intros q ->%Hread. split.
    + eapply lives_replay; [by eapply lives_later|lia].
    + intros Hx. destruct (later_after_exit _ _ _ _ (lives_on _ _ _ _ _ _ H2 H3) Hx) as [-> _]. done.
  - rewrite Hlater. eapply lives_replay; [|rewrite len_app; lia]. by eapply lives_later; [eapply lives_later|].
  - rewrite Hlater. intros Hx. by destruct (later_after_exit _ _ _ _ H3 Hx) as [-> _].
Qed.

Lemma serve_turn_carries claim final all p0 t all' p1 last cursor w :
  Lives (A := A) (W := W) all p0 → Observes (A := A) (W := W) (cl_pty_id claim) all p0 t all' p1 →
  Later (A := A) (W := W) all' p1 final last → (cursor ≤ len all)%N → (len final < 2 ^ 64)%N →
  wrote (serve_turn claim cursor t) w (turn_ends final all' cursor).
Proof.
  intros HL Hobs Hlast Hcursor Hlen.
  destruct (observed _ _ _ _ _ _ _ _ HL Hobs Hlast Hlen) as (more & more' & -> & Hfinal & Hread & Hlater & Hexit).
  clear HL Hobs Hlast. unfold serve_turn.
  pose proof (prefix_len _ _ Hfinal) as Hle. rewrite !len_app in Hle.
  apply wrote_bind. eapply wrote_silent; [reflexivity|].
  destruct (serve_heard claim (t_heard t) (t_seen t)) as [[c go]|e|]; [|constructor..]. clear w. intros w. cbn [app].
  destruct go; cbn [negb].
  2: { apply wrote_bind. destruct (heard_close (t_heard t)).
    - apply wrote_frame; [|constructor]. intros w'. eapply wrote_silent; [reflexivity|]. constructor.
    - eapply wrote_silent; [reflexivity|]. intros w'. eapply wrote_silent; [reflexivity|]. constructor. }
  destruct (read_claimed_cases claim cursor 40 (t_later t) (t_read t)) as [(p & Hp & ->)|[e ->]].
  2: { destruct (wrote_frame (FrError e) w (λ fs _, Carries final cursor fs)) as (fs & b & r & Hs & Hb & HP);
         [constructor..|by constructor|].
    exists fs, b, (match r with Panic => Panic | _ => Done None end). unfold handle. rewrite Hs.
    destruct r; split_and!; done. }
  destruct (Hread p Hp) as [HRp Hxp].
  destruct (read_state_spec cursor (mp_state p) (t_later t) (all ++ more) more') as (written & s1 & Hw & Ho & Hoff & Hcur & Hst);
    [done|done|rewrite !len_app; lia|].
  assert (Hwf : written `prefix_of` final).
  { destruct Hw as [[-> _]|[-> _]]; [|done]. by eapply prefix_app_l. }
  assert (Hwle : (len written ≤ len ((all ++ more) ++ more'))%N).
  { destruct Hw as [[-> _]|[-> _]]; rewrite !len_app; lia. }
  pose proof (prefix_len _ _ Hwf) as Hwl.
  set (r := read_state cursor (mp_state p) (t_later t)) in *. clearbody r.
  assert (Hslice := slice_prefix written final MAX_STREAM_OUTPUT_BYTES (N.to_nat (rr_offset r)) Hwf).
  cbn zeta in Hslice. rewrite <-Ho in Hslice.
  assert (Hend : (rr_offset r + len (rr_output r) ≤ len written)%N).
  { rewrite Ho. unfold len in *. rewrite length_take, length_drop. lia. }
  assert (Hat : rr_offset r = cursor ∨ (cursor < rr_offset r)%N ∧ (rr_offset r + N.of_nat REPLAY_BYTES ≤ len final)%N).
  { destruct Hcur as [?|[? ?]]; [rewrite len_app; lia|by left|right; lia]. }
  assert (Hempty : rr_output r = [] → rr_offset r = cursor).
  { intros Hnil. rewrite Hnil in Ho. apply (f_equal length) in Ho. rewrite length_take, length_drop in Ho. simpl in Ho.
    pose proof replay_positive as [? ?].
    destruct Hcur as [?|[? Hfull]]; [rewrite len_app; lia|done|]. unfold len in *. lia. }
  assert (Hfinal' : is_Some (rr_status r) → (rr_offset r + len (rr_output r))%N = len final).
  { intros [Hs1 ->]%Hst. destruct Hw as [[-> ->]|[-> ->]]; [by rewrite Hxp|by rewrite Hexit]. }
  assert (Hout : ∀ fs, Carries final (rr_offset r + len (rr_output r)) fs →
    Carries final cursor ((if bool_decide (rr_output r = []) then [] else [FrOutput (rr_offset r) (rr_output r)]) ++ fs)).
  { intros fs Hfs. case_bool_decide as Hnil; simpl.
    - rewrite Hnil, Hempty in Hfs by done. unfold len in Hfs. simpl in Hfs. by rewrite N.add_0_r in Hfs.
    - apply carries_output; [done|lia|exact Hslice|done|done]. }
  apply wrote_bind.
  assert (Hrest : ∀ w', wrote (match rr_status r with
      | Some status => send_frame (FrExit status);; mret None
      | None => mret (Some (saturating_add (rr_offset r) (len (rr_output r)))) end) w'
    (λ fs' r', turn_ends final ((all ++ more) ++ more') cursor
      ((if bool_decide (rr_output r = []) then [] else [FrOutput (rr_offset r) (rr_output r)]) ++ fs') r')).
  { intros w'. destruct (rr_status r) as [status|].
    - apply wrote_bind, wrote_frame.
      + intros w''. eapply wrote_silent; [reflexivity|]. apply Hout. simpl. rewrite Hfinal' by done. constructor.
      + intros e. apply Hout. constructor.
    - eapply wrote_silent; [reflexivity|]. rewrite app_nil_r. unfold turn_ends.
      assert (saturating_add (rr_offset r) (len (rr_output r)) = rr_offset r + len (rr_output r))%N as ->
        by (unfold saturating_add, USIZE_MAX; lia).
      split; [lia|]. exact Hout. }
  case_bool_decide as Hnil.
  - eapply wrote_silent; [reflexivity|]. exact Hrest.
  - apply wrote_frame; [exact Hrest|]. intros e. constructor.
Qed.

Lemma serve_carries claim final all p turns cursor w :
  Lives (A := A) (W := W) all p → Watching (A := A) (W := W) (cl_pty_id claim) final all p turns →
  (cursor ≤ len all)%N → (len final < 2 ^ 64)%N →
  wrote (serve claim cursor turns) w (λ fs _, Carries final cursor fs).
Proof.
  intros HL Hw Hcursor Hlen. revert cursor w Hcursor HL.
  induction Hw as [all p p' _|all p t all' p' turns Ht Hw IH]; intros cursor w Hcursor HL; simpl.
  - eapply wrote_silent; [reflexivity|]. constructor.
  - destruct (watching_later _ _ _ _ _ Hw) as [last Hlast]. apply wrote_bind.
    destruct (serve_turn_carries claim final all p t all' p' last cursor w HL Ht Hlast Hcursor Hlen)
      as (fs & b & r & Hs & Hb & Hr).
    exists fs, b, r. split_and!; [done..|]. destruct r as [[cursor'|]|e|]; [|intros w'|exact Hr|exact Hr].
    + destruct Hr as [Hcursor' Hr]. intros w'.
      assert (HL' : Lives (A := A) (W := W) all' p').
      { destruct Ht as (now & job & H1 & H2 & _). by eapply lives_later; [eapply lives_later|]. }
      destruct (IH cursor' w' Hcursor' HL') as (fs' & b' & r' & Hs' & Hb' & Hc). exists fs', b', r'. auto.
    + eapply wrote_silent; [reflexivity|]. by rewrite app_nil_r.
Qed.
End served.

(** * What is rendered *)

(** The text is of [final], from one cursor to another, in slices; only what a
    full replay buffer dropped is between them. *)
Inductive Slices (final : bytes) : N → bytes → N → Prop :=
| slices_none cursor : Slices final cursor [] cursor
| slices_more cursor offset b out cursor' :
    (offset = cursor ∨ (cursor < offset)%N ∧ (offset + N.of_nat REPLAY_BYTES ≤ len final)%N) →
    (offset + len b ≤ len final)%N → b = take (length b) (drop (N.to_nat offset) final) →
    Slices final (offset + len b) out cursor' → Slices final cursor (b ++ out) cursor'.

Lemma slices_bounds final cursor out cursor' :
  Slices final cursor out cursor' → (cursor ≤ len final)%N → (cursor ≤ cursor' ≤ len final)%N.
Proof. induction 1; unfold len in *; lia. Qed.

Lemma slices_contiguous final cursor out cursor' :
  Slices final cursor out cursor' → (cursor ≤ len final)%N → (len final ≤ cursor + N.of_nat REPLAY_BYTES)%N →
  out = take (N.to_nat (cursor' - cursor)) (drop (N.to_nat cursor) final).
Proof.
  induction 1 as [cursor|cursor offset b out cursor' Hat Hle Hb Hs IH]; intros Hc Hfit.
  - by rewrite N.sub_diag.
  - assert (offset = cursor) as -> by (destruct Hat as [|[? ?]]; lia).
    pose proof (slices_bounds _ _ _ _ Hs Hle) as Hbound.
    rewrite Hb at 1. rewrite IH by (unfold len in *; lia). unfold len in *.
    replace (N.to_nat (cursor' - cursor))
      with (length b + N.to_nat (cursor' - (cursor + N.of_nat (length b)))) by lia.
    rewrite <-take_take_drop, drop_drop. f_equal. f_equal. f_equal. lia.
Qed.

Lemma wire_of_cons_Done f fs b :
  wire_of (f :: fs) = Done b ↔
  ∃ b1 b2, write_server_frame f = Done b1 ∧ wire_of fs = Done b2 ∧ b = b1 ++ b2.
Proof.
  unfold wire_of. simpl. destruct (write_server_frame f); simpl; [|naive_solver..].
  destruct (outcome_map write_server_frame fs); simpl; naive_solver.
Qed.

Lemma written_nonempty f b : write_server_frame f = Done b → b ≠ [].
Proof. intros Hf ->. destruct f; simpl in Hf; unfold write_frame in Hf; by destruct (_ <? _)%N. Qed.

(** Detaching ends, whatever was sent. *)
Lemma detaching_ends fuel s : length s < fuel → detach fuel s ≠ Panic.
Proof.
  revert s. induction fuel as [|fuel IH]; intros s Hlen; [lia|]. simpl.
  destruct (read_server_frame s) as [[f s']|e|] eqn:Hr.
  - apply server_frame_Done in Hr as (_ & b & Hf & ->). pose proof (written_nonempty _ _ Hf) as Hb.
    destruct f; try done. apply IH. rewrite length_app in Hlen. destruct b; [done|]. simpl in Hlen. lia.
  - by destruct (bool_decide _).
  - exfalso. revert Hr. unfold read_server_frame, read_frame, read_exact. destruct (_ <? _)%nat; [done|]. simpl.
    destruct (_ <? _)%N; [done|]. destruct (_ <? _)%nat; [done|]. simpl.
    repeat (destruct (_ && _)); try done; unfold text; by destruct (utf8_valid _).
Qed.

(** The frame that ends a stream. *)
Lemma read_text_frame tag make payload b :
  (tag = TAG_EXIT ∧ make = FrExit ∨ tag = TAG_ERROR ∧ make = FrError) →
  write_frame tag payload = Done b → ∀ f s, read_server_frame (b ++ []) = Done (f, s) → ∃ t, f = make t.
Proof.
  intros Htag Hw f s. unfold read_server_frame.
  rewrite (proj2 (read_frame_Done _ tag payload [])) by eauto. cbn [outcome_bind].
  destruct Htag as [[-> ->]|[-> ->]]; simpl; (destruct (_ <=? _)%N; [|done]);
    intros (t & _ & [= <- _])%bind_Done; by exists t.
Qed.

Lemma relay_last final cursor f b fuel t t' r :
  Carries final cursor [f] → (∀ offset o, f ≠ FrOutput offset o) → write_server_frame f = Done b →
  relay fuel (b ++ []) t = (t', r) → t' = t ∧ (∀ status, r = Done (Some status) → cursor = len final).
Proof.
  intros Hc Hno Hf. destruct fuel as [|fuel]; [by intros [= <- <-]|].
  destruct b as [|c b]; [by apply written_nonempty in Hf|]. cbn [relay app].
  unfold mbind, Step_bind, lift. destruct (read_server_frame (c :: b ++ [])) as [[g s]|e|] eqn:Hr;
    [|by intros [= <- <-]..].
  inv Hc; [naive_solver| | |]; simpl in Hf.
  - apply (read_text_frame TAG_EXIT FrExit _ _ ltac:(auto) Hf) in Hr as [x ->]. simpl. by intros [= <- <-].
  - apply (read_text_frame TAG_ERROR FrError _ _ ltac:(auto) Hf) in Hr as [x ->]. simpl. by intros [= <- <-].
  - change (c :: b ++ []) with ((c :: b) ++ []) in Hr. rewrite (proj2 (server_frame_Done _ FrDetached [])) in Hr by (simpl; eauto). injection Hr as <- <-.
    simpl. by intros [= <- <-].
Qed.

Lemma relay_renders final cursor fs b fuel t t' r :
  Carries final cursor fs → (len final < 2 ^ 64)%N → wire_of fs = Done b → tm_cursor t = cursor →
  relay fuel b t = (t', r) →
  ∃ out, tm_rendered t' = tm_rendered t ++ out ∧ Slices final cursor out (tm_cursor t') ∧
    (∀ status, r = Done (Some status) → tm_cursor t' = len final).
Proof.
  intros Hc Hlen. revert b fuel t. induction Hc as [cursor|cursor offset o fs Hat Hle Ho Hne Hc IH| | |];
    intros b fuel t Hb Ht Hr.
  - injection Hb as <-. simpl in Hr. destruct fuel; injection Hr as <- <-; subst;
      exists []; rewrite app_nil_r; (split_and!; [done|constructor|done]).
  - apply wire_of_cons_Done in Hb as (b1 & b2 & Hf & Hb2 & ->).
    destruct fuel as [|fuel].
    { injection Hr as <- <-. subst. exists []. rewrite app_nil_r. split_and!; [done|constructor|done]. }
    assert (Hread : read_server_frame (b1 ++ b2) = Done (FrOutput offset o, b2)).
    { apply server_frame_Done. split; [unfold len in *; simpl; lia|eauto]. }
    destruct b1 as [|c b1]; [by apply written_nonempty in Hf|].
    cbn [relay app] in Hr. unfold mbind, Step_bind, lift in Hr. cbn [app] in Hread. rewrite Hread in Hr.
    cbn [get relay_receive modify] in Hr.
    assert (saturating_add offset (len o) = offset + len o)%N as Hadd by (unfold saturating_add, USIZE_MAX, len in *; lia).
    rewrite Hadd in Hr. apply IH in Hr as (out & Hout & Hs & Hx); [|done..].
    exists (o ++ out). split_and!; [by rewrite Hout; simpl; rewrite <-app_assoc|by econstructor|done].
  - apply wire_of_cons_Done in Hb as (b1 & b2 & Hf & [= <-] & ->).
    destruct (relay_last final (len final) (FrExit status) b1 fuel t t' r) as [-> Hx]; [constructor|done..|].
    exists []. rewrite app_nil_r, Ht. split_and!; [done|constructor|done].
  - apply wire_of_cons_Done in Hb as (b1 & b2 & Hf & [= <-] & ->).
    destruct (relay_last final cursor (FrError message) b1 fuel t t' r) as [-> Hx]; [constructor|done..|].
    exists []. rewrite app_nil_r, Ht. split_and!; [done|constructor|done].
  - apply wire_of_cons_Done in Hb as (b1 & b2 & Hf & [= <-] & ->).
    destruct (relay_last final cursor FrDetached b1 fuel t t' r) as [-> Hx]; [constructor|done..|].
    exists []. rewrite app_nil_r, Ht. split_and!; [done|constructor|done].
Qed.

(** C22: What a client sees of a terminal job is what the process wrote. However a job lived - from
    its start on, through exchanges with the process, input, resizing, attachments, shutdown and its
    end - and whatever happens to it while its stream is served, and however much of the connection
    has arrived, the text the client has rendered is the output of all the exchanges, in order, from
    the cursor of its ticket to the client's own - what another attachment resumes from - without
    loss or repetition as long as at most 1 MiB is written after that first cursor; beyond it, only
    output a full replay buffer has dropped is skipped. When the client reports an exit status
    everything the process ever wrote has been rendered. *)
Theorem terminal_output_is_rendered {A W : Type} `{!StateSerde A, !SessionHost W, !PtyWorld A W}
    claim final all p turns cursor w served fuel t r :
  Lives (A := A) (W := W) all p → Watching (A := A) (W := W) (cl_pty_id claim) final all p turns →
  (cursor ≤ len all)%N → (len final < 2 ^ 64)%N →
  serve claim cursor turns [] = (w, served) →
  relay fuel w {| tm_rendered := []; tm_cursor := cursor |} = (t, r) →
  Slices final cursor (tm_rendered t) (tm_cursor t) ∧
  ((len final ≤ cursor + N.of_nat REPLAY_BYTES)%N →
     tm_rendered t = take (N.to_nat (tm_cursor t - cursor)) (drop (N.to_nat cursor) final)) ∧
  (∀ status, r = Done (Some status) → tm_cursor t = len final).
Proof.
  intros HL Hw Hcursor Hlen Hserve Hrelay.
  destruct (serve_carries claim final all p turns cursor [] HL Hw Hcursor Hlen) as (fs & b & r' & Hs & Hb & Hc).
  destruct (watching_later _ _ _ _ _ Hw) as [last Hlast].
  pose proof (prefix_len _ _ (later_prefix _ _ _ _ Hlast)) as Hall.
  rewrite Hserve in Hs. injection Hs as -> _. simpl in Hrelay.
  destruct (relay_renders _ _ _ _ _ {| tm_rendered := []; tm_cursor := cursor |} _ _ Hc Hlen Hb eq_refl Hrelay) as (out & Hout & Hsl & Hx).
  simpl in Hout. subst out. split_and!; [done| |done].
  intros Hfit. apply slices_contiguous; [done|lia|done].
Qed.

(** * A finished job is drained *)

Lemma output_frame_written offset o :
  length o ≤ MAX_STREAM_OUTPUT_BYTES → ∃ b, write_server_frame (FrOutput offset o) = Done b.
Proof.
  intros Ho. unfold write_server_frame, write_frame. assert ((MAX_FRAME_BYTES <? len (be_bytes 8 offset ++ o))%N = false) as ->; [|eauto].
  apply N.ltb_ge. rewrite len_app. unfold len. rewrite length_be_bytes.
  unfold MAX_FRAME_BYTES. pose proof stream_output_fits. lia.
Qed.

(** What a turn reads of a job that has ended. *)
Lemma read_finished final s later status cursor :
  Replay final s → ps_exit_status s = Some status → (cursor ≤ len final)%N → (len final < 2 ^ 64)%N →
  let offset := N.max cursor (ps_replay_start s) in
  let o := take MAX_STREAM_OUTPUT_BYTES (drop (N.to_nat offset) final) in
  read_state cursor s later =
  {| rr_offset := offset; rr_output := o;
     rr_status := if (len final <=? offset + len o)%N then Some status else None |}.
Proof.
  intros [He Ho Hs Hb _] Hx Hc Hlen. cbn zeta. unfold read_state. rewrite Hx, bool_decide_false by done.
  rewrite andb_false_r. cbn [andb]. unfold clamp_cursor. rewrite He, Ho.
  assert (N.min (N.max (N.min (N.max cursor (ps_replay_start s)) (len final)) (ps_replay_start s)) (len final)
    = N.max cursor (ps_replay_start s)) as -> by lia.
  rewrite drop_drop.
  assert (N.to_nat (ps_replay_start s) + N.to_nat (N.max cursor (ps_replay_start s) - ps_replay_start s)
    = N.to_nat (N.max cursor (ps_replay_start s))) as -> by lia.
  f_equal. set (o := take _ _).
  assert (len o ≤ len final - N.max cursor (ps_replay_start s))%N.
  { unfold o, len. rewrite length_take, length_drop. lia. }
  assert (saturating_add (N.max cursor (ps_replay_start s)) (len o) = N.max cursor (ps_replay_start s) + len o)%N as ->
    by (unfold saturating_add, USIZE_MAX; lia). by rewrite Hx.
Qed.

(** The job has ended, is claimed, and the connection is quiet. *)
Definition quiet_turn (claim : PtyClaim) (p : ManagedPty) (t : Turn) : Prop :=
  t_heard t = HeardNothing ∧ ptys (t_read t) !! cl_pty_id claim = Some p.

Lemma serve_quiet_turn claim p t cursor w :
  quiet_turn claim p t → mp_claimed p = Some (cl_claim_id claim) →
  serve_turn claim cursor t w =
  (let r := read_state cursor (mp_state p) (t_later t) in
   (if bool_decide (rr_output r = []) then mret () else send_frame (FrOutput (rr_offset r) (rr_output r)));;
   match rr_status r with
   | Some status => send_frame (FrExit status);; mret None
   | None => mret (Some (saturating_add (rr_offset r) (len (rr_output r))))
   end) w.
Proof.
  intros [Hq Hp] Hclaim. unfold serve_turn. rewrite Hq.
  assert (read_claimed claim cursor 40 (t_later t) (t_read t) = Done (read_state cursor (mp_state p) (t_later t))) as Hr.
  { unfold read_claimed. by rewrite (proj2 (get_claimed_Done _ _ _)) by eauto. }
  unfold mbind at 1, Step_bind at 1, lift at 1. cbn [serve_heard negb]. by rewrite Hr.
Qed.

Lemma relay_output f offset o b rest fuel t :
  f = FrOutput offset o → write_server_frame f = Done b → (offset + len o < 2 ^ 64)%N →
  relay (S fuel) (b ++ rest) t =
  relay fuel rest {| tm_rendered := tm_rendered t ++ o; tm_cursor := offset + len o |}.
Proof.
  intros -> Hf Hlen.
  assert (Hread : read_server_frame (b ++ rest) = Done (FrOutput offset o, rest)).
  { apply server_frame_Done. split; [unfold len in *; simpl; lia|eauto]. }
  destruct b as [|c b]; [by apply written_nonempty in Hf|]. cbn [relay app].
  unfold mbind, Step_bind, lift. cbn [app] in Hread. rewrite Hread. cbn [get relay_receive modify].
  assert (saturating_add offset (len o) = offset + len o)%N as -> by (unfold saturating_add, USIZE_MAX, len in *; lia).
  done.
Qed.

Lemma relay_exit status b fuel t :
  server_accepts (FrExit status) → write_server_frame (FrExit status) = Done b →
  relay (S fuel) b t = (t, Done (Some status)).
Proof.
  intros Hok Hf. assert (Hread : read_server_frame (b ++ []) = Done (FrExit status, [])).
  { apply server_frame_Done. eauto. }
  rewrite app_nil_r in Hread. destruct b as [|c b]; [by apply written_nonempty in Hf|]. cbn [relay].
  unfold mbind, Step_bind, lift. rewrite Hread. cbn [get relay_receive]. by destruct t.
Qed.

Lemma exit_frame_written status : server_accepts (FrExit status) → ∃ b, write_server_frame (FrExit status) = Done b.
Proof.
  intros [_ Hlen]. unfold write_server_frame, write_frame.
  assert ((MAX_FRAME_BYTES <? len (chars status))%N = false) as ->; [|eauto].
  apply N.ltb_ge. unfold MAX_FRAME_BYTES, MAX_TEXT_BYTES in *. lia.
Qed.

(** A turn that is not the last moves on by as much as a read takes. *)
Lemma serve_drains claim final p status turns cursor w :
  Replay final (mp_state p) → ps_exit_status (mp_state p) = Some status → server_accepts (FrExit status) →
  mp_claimed p = Some (cl_claim_id claim) → (len final < 2 ^ 64)%N → Forall (quiet_turn claim p) turns →
  (cursor ≤ len final)%N → turns ≠ [] → (len final ≤ cursor + N.of_nat (MAX_STREAM_OUTPUT_BYTES * length turns))%N →
  ∃ b, serve claim cursor turns w = (w ++ b, Done (Some ())) ∧
    ∀ t, tm_cursor t = cursor → ∃ fuel, relay fuel b t =
      ({| tm_rendered := tm_rendered t ++ drop (N.to_nat (N.max cursor (ps_replay_start (mp_state p)))) final;
          tm_cursor := len final |}, Done (Some status)).
Proof.
  intros HR Hx Hok Hclaim Hlen Hq. revert cursor w.
  induction Hq as [|t turns Ht _ IH]; intros cursor w Hcursor Hne Hfit; [done|]. clear Hne.
  set (start := ps_replay_start (mp_state p)) in *.
  assert (Hstart : (start ≤ len final)%N) by apply HR.
  set (offset := N.max cursor start) in *.
  set (o := take MAX_STREAM_OUTPUT_BYTES (drop (N.to_nat offset) final)) in *.
  assert (Hlo : N.of_nat (length o) = N.min (N.of_nat MAX_STREAM_OUTPUT_BYTES) (len final - offset)).
  { unfold o, len. rewrite length_take, length_drop. lia. }
  pose proof (serve_quiet_turn claim p t cursor w Ht Hclaim) as Hturn.
  rewrite (read_finished final _ _ status) in Hturn by done. cbn zeta in Hturn. fold start offset o in Hturn.
  cbn [rr_output rr_offset rr_status] in Hturn.
  destruct (output_frame_written offset o) as [bo Hbo]; [unfold o; rewrite length_take; lia|].
  destruct (exit_frame_written status Hok) as [bx Hbx].
  set (sent := if bool_decide (o = []) then [] else bo).
  assert (Hsend : ∀ w, (if bool_decide (o = []) then mret () else send_frame (FrOutput offset o)) w = (w ++ sent, Done ())).
  { intros w'. unfold sent. case_bool_decide; [by rewrite app_nil_r|].
    unfold send_frame, mbind, Step_bind, lift. by rewrite Hbo. }
  assert (Hrelay : ∀ rest fuel t, tm_cursor t = cursor → ∃ fuel', relay fuel' (sent ++ rest) t =
    relay fuel rest {| tm_rendered := tm_rendered t ++ o; tm_cursor := if bool_decide (o = []) then cursor else offset + len o |}).
  { intros rest fuel u Hu. unfold sent. case_bool_decide as Hnil.
    - exists fuel. rewrite Hnil, app_nil_r. subst cursor. by destruct u.
    - exists (S fuel). eapply relay_output; [done..|]. unfold len in *. lia. }
  assert (Hnil : o = [] → cursor = len final).
  { intros Hnil. rewrite Hnil in Hlo. simpl in Hlo. pose proof replay_positive as [? ?].
    destruct (rp_full _ _ HR) as [Hf|Hf]; fold start in Hf; [unfold offset in *; lia|].
    rewrite (rp_output _ _ HR), length_drop in Hf. fold start in Hf. unfold offset, len in *. lia. }
  destruct (N.leb_spec (len final) (offset + len o)) as [Hlast|Hmore].
  - exists (sent ++ bx). split.
    + cbn [serve]. unfold mbind at 1, Step_bind at 1. rewrite Hturn. unfold mbind at 1, Step_bind at 1. rewrite Hsend.
      unfold send_frame, mbind, Step_bind, lift. rewrite Hbx. cbn [modify]. by rewrite <-app_assoc.
    + intros u Hu. destruct (Hrelay bx 1 u Hu) as [fuel Hf]. exists fuel. rewrite Hf.
      rewrite (relay_exit status) by done. f_equal. f_equal.
      * f_equal. unfold o. apply take_ge. rewrite length_drop. unfold len in *. lia.
      * case_bool_decide; [by apply Hnil|]. unfold len in *. lia.
  - assert (turns ≠ []) as Hne.
    { intros ->. simpl in Hfit. rewrite Nat.mul_1_r in Hfit. unfold len in *. lia. }
    assert (len o = N.of_nat MAX_STREAM_OUTPUT_BYTES) as Hfull by (unfold len in *; lia).
    destruct (IH (offset + len o)%N (w ++ sent)) as (b & Hb & Hr); [lia|done| |].
    { cbn [length] in Hfit. rewrite Hfull. unfold offset. lia. }
    exists (sent ++ b). split.
    + cbn [serve]. unfold mbind at 1, Step_bind at 1. rewrite Hturn. unfold mbind at 1, Step_bind at 1. rewrite Hsend.
      assert (saturating_add offset (len o) = offset + len o)%N as -> by (unfold saturating_add, USIZE_MAX; lia).
      cbn [mret Step_ret]. by rewrite Hb, app_assoc.
    + assert (o ≠ []) as Hno.
      { intros Hno. rewrite Hno in Hfull. pose proof stream_output_fits. unfold len in Hfull. simpl in Hfull. lia. }
      rewrite bool_decide_false in Hrelay by done. intros u Hu.
      destruct (Hr {| tm_rendered := tm_rendered u ++ o; tm_cursor := offset + len o |} eq_refl) as [fuel Hf].
      destruct (Hrelay b fuel u Hu) as [fuel' Hf']. exists fuel'. rewrite Hf', Hf. cbn [tm_rendered].
      f_equal. f_equal. rewrite <-app_assoc. f_equal.
      assert (N.max (offset + len o) start = offset + len o)%N as -> by (unfold offset; lia).
      rewrite <-(take_drop MAX_STREAM_OUTPUT_BYTES (drop (N.to_nat offset) final)). fold o. f_equal.
      rewrite drop_drop. f_equal. lia.
Qed.

(** A finished job is drained. When the process has ended and the client asks nothing more, enough
    turns of the serving loop - one for every 262136 bytes that remain - end it, and the client that
    reads what was sent has rendered all the replay buffer holds from its cursor on and reports the
    exit status. *)
Lemma finished_job_is_drained claim final p status turns cursor rendered :
  Replay final (mp_state p) → ps_exit_status (mp_state p) = Some status → server_accepts (FrExit status) →
  mp_claimed p = Some (cl_claim_id claim) → (len final < 2 ^ 64)%N → Forall (quiet_turn claim p) turns →
  (cursor ≤ len final)%N → turns ≠ [] → (len final ≤ cursor + N.of_nat (MAX_STREAM_OUTPUT_BYTES * length turns))%N →
  ∃ w fuel, serve claim cursor turns [] = (w, Done (Some ())) ∧
    relay fuel w {| tm_rendered := rendered; tm_cursor := cursor |} =
    ({| tm_rendered := rendered ++ drop (N.to_nat (N.max cursor (ps_replay_start (mp_state p)))) final;
        tm_cursor := len final |}, Done (Some status)).
Proof.
  intros HR Hx Hok Hclaim Hlen Hq Hcursor Hne Hfit.
  destruct (serve_drains claim final p status turns cursor [] HR Hx Hok Hclaim Hlen Hq Hcursor Hne Hfit) as (b & Hb & Hr).
  destruct (Hr {| tm_rendered := rendered; tm_cursor := cursor |} eq_refl) as [fuel Hf].
  exists b, fuel. by split.
Qed.

(** * A stream that is run *)

Definition sample_state (output : string) (exit : option string) : PtyState := {|
  ps_input := []; ps_size := {| rows := 24; columns := 80 |}; ps_output := chars output; ps_replay_start := 0;
  ps_replay_end := len (chars output); ps_exit_status := exit; ps_shutdown := false;
  ps_redraw_requested := false; ps_worker_finished := false |}.

Definition sample_job (s : PtyState) : ManagedPty := {|
  mp_session_id := "s"; mp_command := "echo hello"; mp_cwd := "/home/u"; mp_operation_id := "job";
  mp_audited := false; mp_capture := None; mp_tickets := ∅; mp_claimed := Some "c1"; mp_state := s |}.

Definition sample_claim : PtyClaim := {| cl_pty_id := "job"; cl_claim_id := "c1"; cl_cursor := 0 |}.

Definition sample_turn (s later : PtyState) : Turn :=
  let c := {| ptys := {["job" := sample_job s]}; accepting := true |} in
  {| t_heard := HeardNothing; t_seen := c; t_read := c; t_later := later |}.

Lemma sample_replay output exit : length (chars output) ≤ 100 → Replay (chars output) (sample_state output exit).
Proof.
  intros Hl. split; [done|done|apply N.le_0_l| |by left]. etrans; [exact Hl|]. pose proof replay_large. lia.
Qed.

(** The job of [sample_claim], and its exchanges with the process. *)
#[local] Instance sample_serve_world : PtyWorld () N := {|
  spawn_process w _ _ _ _ := (None, w); audit_append w _ := (None, w); base64_encode b := of_chars b |}.

Definition sample_opened : ManagedPty :=
  set_stream ∅ (Some "c1") (new_job "s" "echo hello" "/home/u" "job" "t" {| rows := 24; columns := 80 |} None).

Definition sample_exchange (output : string) (status : option string) (p : ManagedPty) : ManagedPty :=
  match (worker_exchange [] 0 (chars output) status p sample_created).2 with Done p' => p' | _ => p end.

Definition sample_look (p later : ManagedPty) : Turn :=
  let c := {| ptys := {["job" := p]}; accepting := true |} in
  {| t_heard := HeardNothing; t_seen := c; t_read := c; t_later := mp_state later |}.

Lemma sample_later (all output : string) status p :
  ps_exit_status (mp_state p) = None →
  (worker_exchange [] 0 (chars output) status p sample_created).2 = Done (sample_exchange output status p) →
  Later (A := ()) (W := N) (chars all) p (chars all ++ chars output) (sample_exchange output status p).
Proof.
  intros Hno Hx. eapply later_moves; [apply later_now|]. eapply moves_exchange; [done|].
  by rewrite <-Hx, <-surjective_pairing.
Qed.

Definition sample_he : ManagedPty := sample_exchange "he" None sample_opened.
Definition sample_hel : ManagedPty := sample_exchange "l" None sample_he.
Definition sample_hello : ManagedPty := sample_exchange "lo" None sample_hel.
Definition sample_ended : ManagedPty := sample_exchange "" (Some "0") sample_hello.

Lemma terminal_output_is_rendered_witness :
  let turns := [sample_look sample_he sample_hel; sample_look sample_hello sample_ended;
                sample_look sample_ended sample_ended] in
  ∃ w t, serve sample_claim 0 turns [] = (w, Done (Some ())) ∧
    relay 9 w {| tm_rendered := []; tm_cursor := 0 |} = (t, Done (Some "0")) ∧
    tm_rendered t = chars "hello" ∧ Slices (chars "hello") 0 (tm_rendered t) (tm_cursor t).
Proof.
  intros turns.
  assert (Hlook : ∀ p later q, ptys (t_read (sample_look p later)) !! "job" = Some q → q = p)
    by (intros p later q Hq; by injection Hq).
  assert (HL : Lives (A := ()) (W := N) (chars "") sample_opened).
  { exists "s", "echo hello", "/home/u", "job", "t", {| rows := 24; columns := 80 |}, None.
    eapply (later_moves _ _ [] _ []); [apply later_now|]. apply moves_stream. }
  assert (Hw : Watching (A := ()) (W := N) "job" (chars "hello") (chars "") sample_opened turns).
  { apply (watching_turn _ _ _ _ _ (chars "hel") sample_hel).
    { exists (chars "he"), sample_he. split_and!; [..|by apply Hlook|done].
      - apply (sample_later "" "he" None sample_opened); vm_compute; reflexivity.
      - apply (sample_later "he" "l" None sample_he); vm_compute; reflexivity. }
    apply (watching_turn _ _ _ _ _ (chars "hello") sample_ended).
    { exists (chars "hello"), sample_hello. split_and!; [..|by apply Hlook|done].
      - apply (sample_later "hel" "lo" None sample_hel); vm_compute; reflexivity.
      - apply (sample_later "hello" "" (Some "0") sample_hello); vm_compute; reflexivity. }
    apply (watching_turn _ _ _ _ _ (chars "hello") sample_ended).
    { exists (chars "hello"), sample_ended. split_and!; [constructor..|by apply Hlook|done]. }
    apply (watching_over _ _ _ _ sample_ended). constructor. }
  assert (Hserve : serve sample_claim 0 turns [] = ((serve sample_claim 0 turns []).1, Done (Some ())))
    by (vm_compute; reflexivity).
  assert (Hrelay : relay 9 (serve sample_claim 0 turns []).1 {| tm_rendered := []; tm_cursor := 0 |} =
    ({| tm_rendered := chars "hello"; tm_cursor := 5 |}, Done (Some "0"))) by (vm_compute; reflexivity).
  eexists _, _. split; [exact Hserve|]. split; [exact Hrelay|]. split; [reflexivity|].
  refine (proj1 (terminal_output_is_rendered sample_claim (chars "hello") (chars "") sample_opened turns 0 _ _ 9 _ _
    HL Hw _ _ Hserve Hrelay)); clear; vm_compute; [discriminate|reflexivity].
Defined.

Lemma finished_job_is_drained_witness :
  let p := sample_job (sample_state "hello" (Some "0")) in
  let turns := [sample_turn (mp_state p) (mp_state p)] in
  ∃ w fuel, serve sample_claim 2 turns [] = (w, Done (Some ())) ∧
    relay fuel w {| tm_rendered := chars "he"; tm_cursor := 2 |} =
    ({| tm_rendered := chars "he" ++ drop 2 (chars "hello"); tm_cursor := 5 |}, Done (Some "0")).
Proof.
  intros p turns.
  apply (finished_job_is_drained sample_claim (chars "hello") p "0" turns 2 (chars "he"));
    [by apply (sample_replay "hello"); simpl; lia|done|by split|done|done| |done|done|].
  - repeat constructor.
  - pose proof stream_output_fits. unfold len. cbn [length turns]. rewrite Nat.mul_1_r.
    change (length (chars "hello")) with 5. lia.
Defined.
