(* ===== verification/PtyKeys.v ===== *)
(** The controller's keys ([crates/xshell-pty/src/lib.rs]): the escape prefix,
    and how what is typed is divided between the job and the controller while a
    terminal is relayed. *)
From Stdlib Require Import Ascii.
From S2P Require Import Prelude PtyStream.

(** ** The prefix *)

Definition is_ascii_graphic (c : ascii) : bool := in_range 33 126 c.
Definition to_ascii_lowercase (c : ascii) : ascii := if in_range 65 90 c then ascii_of_N (code c + 32) else c.
Definition to_ascii_uppercase (c : ascii) : ascii := if in_range 97 122 c then ascii_of_N (code c - 32) else c.

Definition parse_escape_prefix (value : string) : Result ascii :=
  let value := to_ascii_lowercase <$> chars (trim value) in
  let key := if bool_decide (take 5 value = chars "ctrl-") then drop 5 value else [] in
  match key, value with
  | [k], _ =>
      if in_range 64 95 (to_ascii_uppercase k)
      then Done (ascii_of_N (N.land (code (to_ascii_uppercase k)) 31))
      else Fail "PTY escape must be a single ASCII key or ctrl-KEY (for example ctrl-])"
  | _, [c] =>
      if is_ascii_graphic c then Done c
      else Fail "PTY escape must be a single ASCII key or ctrl-KEY (for example ctrl-])"
  | _, _ => Fail "PTY escape must be a single ASCII key or ctrl-KEY (for example ctrl-])"
  end.

Definition shadowed_terminal_key (escape_prefix : ascii) : option string :=
  match code escape_prefix with
  | 3 => Some "Ctrl-C (interrupt)"
  | 4 => Some "Ctrl-D (end of input)"
  | 8 => Some "Backspace"
  | 9 => Some "Tab (completion)"
  | 13 => Some "Enter (submit)"
  | 27 => Some "Esc"
  | _ => None
  end%N.

(** ** Actions *)

Inductive ControllerAction : Type :=
| CaDetach | CaLast | CaNext | CaPrevious | CaSwitcher | CaTerminate | CaHelp.

Definition controller_action_for_key (byte : ascii) : option ControllerAction :=
  match to_ascii_lowercase byte with
  | "d" => Some CaDetach
  | "l" => Some CaLast
  | "n" => Some CaNext
  | "p" => Some CaPrevious
  | "s" => Some CaSwitcher
  | "q" => Some CaTerminate
  | "?" => Some CaHelp
  | _ => None
  end%char.

(** What is forwarded, the action, and whether a prefix is pending. *)
Fixpoint route_escape_input (input : bytes) (prefix : ascii) (pending : bool) :
    bytes * option ControllerAction * bool :=
  match input with
  | [] => ([], None, pending)
  | byte :: input =>
      if pending then
        if bool_decide (byte = prefix) then
          let '(forwarded, action, pending) := route_escape_input input prefix false in
          (prefix :: forwarded, action, pending)
        else
          match controller_action_for_key byte with
          | Some action => ([], Some action, false)
          | None =>
              let '(forwarded, action, pending) := route_escape_input input prefix false in
              (prefix :: byte :: forwarded, action, pending)
          end
      else if bool_decide (byte = prefix) then route_escape_input input prefix true
      else
        let '(forwarded, action, pending) := route_escape_input input prefix false in
        (byte :: forwarded, action, pending)
  end.

(** The relay's part with the controller's terminal, read by read: the input
    frames sent, and the action that leaves the relay. *)
Fixpoint relay_input (reads : list bytes) (prefix : ascii) (pending : bool) :
    list bytes * option ControllerAction * bool :=
  match reads with
  | [] => ([], None, pending)
  | input :: reads =>
      let '(b, action, pending) := route_escape_input input prefix pending in
      let sent := if bool_decide (b = []) then [] else [b] in
      match action with
      | None | Some CaHelp =>
          let '(rest, action, pending) := relay_input reads prefix pending in (sent ++ rest, action, pending)
      | Some action => (sent, Some action, pending)
      end
  end.

(** What one types to have bytes reach the job: the prefix twice. *)
Definition escaped (prefix : ascii) (b : bytes) : bytes :=
  b ≫= λ c, if bool_decide (c = prefix) then [prefix; prefix] else [c].

(** * Reads do not matter *)

Lemma route_app prefix input input' pending :
  route_escape_input (input ++ input') prefix pending =
  (let '(b, action, pending) := route_escape_input input prefix pending in
   match action with
   | Some action => (b, Some action, pending)
   | None => let '(b', action, pending) := route_escape_input input' prefix pending in (b ++ b', action, pending)
   end).
Proof.
  revert pending. induction input as [|c input IH]; intros pending; simpl; [by destruct (route_escape_input _ _ _) as [[??]?]|].
  destruct pending.
  - case_bool_decide; [|destruct (controller_action_for_key c); [done|]]; rewrite IH;
      destruct (route_escape_input input prefix false) as [[b [a|]] p]; try done;
      by destruct (route_escape_input input' prefix p) as [[??]?].
  - case_bool_decide; rewrite IH.
    + by destruct (route_escape_input input prefix true) as [[b [a|]] p].
    + destruct (route_escape_input input prefix false) as [[b [a|]] p]; try done.
      by destruct (route_escape_input input' prefix p) as [[??]?].
Qed.

Lemma relay_input_concat reads prefix pending b action pending' :
  route_escape_input (concat reads) prefix pending = (b, action, pending') → action ≠ Some CaHelp →
  ∃ sent, relay_input reads prefix pending = (sent, action, pending') ∧ concat sent = b ∧ Forall (λ i, i ≠ []) sent.
Proof.
  revert pending b. induction reads as [|input reads IH]; intros pending b; simpl.
  - intros [= <- <- <-] _. by exists [].
  - rewrite route_app. destruct (route_escape_input input prefix pending) as [[b1 a1] p1] eqn:H1.
    set (sent1 := if bool_decide (b1 = []) then [] else [b1]).
    assert (Hs1 : concat sent1 = b1 ∧ Forall (λ i, i ≠ []) sent1).
    { unfold sent1. case_bool_decide; subst; simpl; rewrite ?app_nil_r; auto. }
    destruct a1 as [a1|].
    + intros [= <- <- <-] Hne. exists sent1. split; [by destruct a1|done].
    + destruct (route_escape_input (concat reads) prefix p1) as [[b2 a2] p2] eqn:H2.
      intros [= <- <- <-] Hne. destruct (IH _ _ H2 Hne) as (sent & -> & <- & Hall). exists (sent1 ++ sent).
      rewrite concat_app. destruct Hs1 as [-> ?]. split_and!; [done..|]. by apply Forall_app.
Qed.

Lemma escaped_cons prefix c b :
  escaped prefix (c :: b) = (if bool_decide (c = prefix) then [prefix; prefix] else [c]) ++ escaped prefix b.
Proof. done. Qed.

Lemma route_escaped prefix b : route_escape_input (escaped prefix b) prefix false = (b, None, false).
Proof.
  induction b as [|c b IH]; [done|]. rewrite escaped_cons. case_bool_decide as Hc; simpl.
  - subst c. rewrite !bool_decide_true by done. by rewrite IH.
  - rewrite bool_decide_false by done. by rewrite IH.
Qed.

(** How the terminal splits what is typed into reads does not matter. Whenever the keys as a whole
    ask for no help, the relay forwards exactly the bytes, and ends on exactly the action, that all
    of them typed at once would give, in frames that are never empty - a prefix at the end of one read
    and its key at the start of the next included; and any bytes at all can be sent to the job, by
    typing each prefix twice. *)
Theorem keys_are_split_anyhow reads prefix pending b action pending' :
  route_escape_input (concat reads) prefix pending = (b, action, pending') → action ≠ Some CaHelp →
  (∃ sent, relay_input reads prefix pending = (sent, action, pending') ∧ concat sent = b ∧ Forall (λ i, i ≠ []) sent) ∧
  ∀ reads' b', concat reads' = escaped prefix b' →
    ∃ sent, relay_input reads' prefix false = (sent, None, false) ∧ concat sent = b' ∧ Forall (λ i, i ≠ []) sent.
Proof.
  intros Hr Hne. split; [by eapply relay_input_concat|]. intros reads' b' He.
  apply relay_input_concat; [by rewrite He, route_escaped|done].
Qed.

(** Asking for help loses what else the same read brought, though the relay
    goes on. *)
Lemma help_discards_the_read prefix key rest reads :
  prefix ≠ key → controller_action_for_key key = Some CaHelp →
  relay_input ((prefix :: key :: rest) :: reads) prefix false = relay_input reads prefix false.
Proof.
  intros Hne Hk. simpl. rewrite bool_decide_true by done. rewrite bool_decide_false by done. rewrite Hk.
  rewrite bool_decide_true by done. by destruct (relay_input reads prefix false) as [[??]?].
Qed.

Example help_in_one_read : relay_input [chars "]?ls"] "]" false = ([], None, false).
Proof. reflexivity. Qed.
Example help_in_two_reads : relay_input [chars "]?"; chars "ls"] "]" false = ([chars "ls"], None, false).
Proof. reflexivity. Qed.

Lemma keys_are_split_anyhow_witness :
  ∃ sent, relay_input [chars "ls]"; chars "d"] "]" false = (sent, Some CaDetach, false) ∧ concat sent = chars "ls" ∧
    Forall (λ i, i ≠ []) sent.
Proof.
  apply (proj1 (keys_are_split_anyhow [chars "ls]"; chars "d"] "]" false (chars "ls") (Some CaDetach) false
    ltac:(vm_compute; reflexivity) ltac:(discriminate))).
Defined.

(** * The prefix *)

Lemma control_key_range c : in_range 64 95 (to_ascii_uppercase c) = true → (N.land (code (to_ascii_uppercase c)) 31 < 32)%N.
Proof. intros _. change 31%N with (N.ones 5). rewrite N.land_ones. by apply N.mod_lt. Qed.

(** A prefix is a control key or a visible ASCII key: never a byte of a longer
    UTF-8 sequence. *)
Lemma prefix_is_ascii value c : parse_escape_prefix value = Done c → (code c < 32 ∨ 33 ≤ code c ≤ 126)%N.
Proof.
  unfold parse_escape_prefix. set (v := to_ascii_lowercase <$> chars (trim value)).
  set (key := if bool_decide _ then drop 5 v else []).
  assert (Hone : ∀ d, (if is_ascii_graphic d then Done d else
      Fail "PTY escape must be a single ASCII key or ctrl-KEY (for example ctrl-])") = Done c → (33 ≤ code c ≤ 126)%N).
  { intros d. unfold is_ascii_graphic, in_range. destruct (_ && _) eqn:Hd; [|done]. intros [= <-].
    apply andb_true_iff in Hd as [?%N.leb_le ?%N.leb_le]. done. }
  destruct key as [|k [|]].
  - destruct v as [|d [|]]; try done. intros H. right. by eapply Hone.
  - destruct (in_range 64 95 (to_ascii_uppercase k)) eqn:Hk; [|done]. intros [= <-]. left.
    pose proof (control_key_range k Hk) as Hlt. unfold code. by rewrite N_ascii_embedding by (unfold code in *; lia).
  - destruct v as [|d [|]]; try done. intros H. right. by eapply Hone.
Qed.

Example parsed_prefixes :
  parse_escape_prefix "Ctrl-]" = Done "029"%char ∧ parse_escape_prefix " ctrl-m " = Done "013"%char ∧
  parse_escape_prefix "x" = Done "x"%char ∧
  parse_escape_prefix "not-a-key" = Fail "PTY escape must be a single ASCII key or ctrl-KEY (for example ctrl-])".
Proof. by vm_compute. Qed.
