(* ===== verification/PtyCapture.v ===== *)
(** The audit of a terminal job's bytes ([record_stream] of
    [crates/xshell-session/src/pty.rs], [Pty]): what the records that were
    acknowledged say of what the process took and wrote. What the capture needs
    of a session's audit is a class, which the audit connections of the daemon
    ([SessionAudit]) implement. *)
From Stdlib Require Import Ascii.
From S2P Require Import Prelude Budget Compaction CallId Chat Effects SessionModel Registry RegistrySpec.
From S2P Require Import AuditModel SessionAudit SessionAuditSpec PtyStream Pty.

#[local] Opaque STREAM_RECORD_BYTES.

(** The records acknowledged so far, and whether appending has to give an error
    when a record is not: with optional auditing it is dropped. *)
Class AuditTrail (A W : Type) `{!PtyWorld A W} := {
  trail : W → list (AuditEvent A);
  must_record : W → Prop;
  trail_append w e :
    trail (audit_append w e).2 = trail w ++ [e] ∧ (audit_append w e).1 = None ∨
    trail (audit_append w e).2 = trail w ∧ (must_record w → is_Some (audit_append w e).1);
  must_record_append w e : must_record w → must_record (audit_append w e).2;
}.

(** * Chunks *)

Lemma chunks_of_concat fuel n b : 0 < n → length b ≤ fuel → concat (chunks_of fuel n b) = b.
Proof.
  intros Hn. revert b. induction fuel as [|fuel IH]; intros [|c b] Hb; simpl in *; [done|lia|done|].
  rewrite IH; [apply take_drop|]. rewrite length_drop. simpl. lia.
Qed.

Lemma chunks_of_bounds fuel n b : 0 < n → Forall (λ chunk, 0 < length chunk ≤ n) (chunks_of fuel n b).
Proof.
  intros Hn. revert b. induction fuel as [|fuel IH]; intros [|c b]; simpl; [done..|]. constructor; [|apply IH].
  rewrite length_take. simpl. lia.
Qed.

(** * Records *)

(** A record: the direction, where the chunk starts, and the chunk. *)
Definition StreamRecord : Type := Direction * N * bytes.

#[global] Instance Direction_eq : EqDecision Direction.
Proof. solve_decision. Defined.

(** Chunks one after another. *)
Fixpoint records (d : Direction) (offset : N) (l : list bytes) : list StreamRecord :=
  match l with
  | [] => []
  | chunk :: l => (d, offset, chunk) :: records d (offset + len chunk) l
  end.

Definition only (d : Direction) (recs : list StreamRecord) : list StreamRecord := filter (λ r, r.1.1 = d) recs.
Definition recorded (recs : list StreamRecord) : N := foldr (λ r n, (len r.2 + n)%N) 0%N recs.

Lemma stream_records_app d offset l l' :
  records d offset (l ++ l') = records d offset l ++ records d (offset + len (concat l)) l'.
Proof.
  revert offset. induction l as [|chunk l IH]; intros offset; simpl.
  - f_equal. unfold len. simpl. lia.
  - rewrite IH, len_app. do 3 f_equal. lia.
Qed.

Lemma only_records d d' offset l : only d (records d' offset l) = if decide (d = d') then records d' offset l else [].
Proof.
  revert offset. induction l as [|chunk l IH]; intros offset; [by destruct (decide _)|]. unfold only in *. simpl records.
  rewrite filter_cons. simpl. rewrite IH. destruct (decide (d = d')), (decide (d' = d)); subst; done.
Qed.

Lemma recorded_app recs recs' : recorded (recs ++ recs') = (recorded recs + recorded recs')%N.
Proof. induction recs as [|r recs IH]; simpl; [done|]. rewrite IH. lia. Qed.

Lemma recorded_records d offset l : recorded (records d offset l) = len (concat l).
Proof.
  revert offset. induction l as [|chunk l IH]; intros offset; [done|]. simpl.
  by rewrite len_app, <-(IH (offset + len chunk)%N).
Qed.

Section capture.
Context {A W : Type} `{!StateSerde A, !SessionHost W, !PtyWorld A W, !AuditTrail A W}.
Implicit Types (p : ManagedPty) (st : Store A W).

Definition events (p : ManagedPty) (recs : list StreamRecord) : list (AuditEvent A) :=
  (λ r, stream_event p r.1.1 r.1.2 r.2) <$> recs.

Definition trail_of st : list (AuditEvent A) := trail (world (disk st)).
Definition must st : Prop := must_record (A := A) (world (disk st)).

(** What was recorded of the chunks before the first that was refused: some of
    them, and each when it must be. *)
Lemma record_chunks_trail p d offset l st st' r :
  record_chunks p d offset l st = (st', r) →
  ∃ before after kept, l = before ++ after ∧ r = Done (bool_decide (after = [])) ∧
    trail_of st' = trail_of st ++ events p kept ∧ kept `sublist_of` records d offset before ∧
    (must st → kept = records d offset before ∧ must st').
Proof.
  revert offset st. induction l as [|chunk l IH]; intros offset st.
  - intros [= <- <-]. exists [], [], []. split_and!; [done|done| |done|done]. simpl. by rewrite app_nil_r.
  - simpl record_chunks. unfold handle, calling, mbind, Step_bind, io, zoom, asking, ask.
    pose proof (trail_append (world (disk st)) (stream_event p d offset chunk)) as Ht.
    pose proof (must_record_append (world (disk st)) (stream_event p d offset chunk)) as Hm.
    destruct (audit_append (world (disk st)) (stream_event p d offset chunk)) as [[e|] w]; simpl in *.
    + intros [= <- <-]. exists [], (chunk :: l), []. destruct Ht as [[_ ?]|[Ht _]]; [done|].
      split_and!; [done|by rewrite bool_decide_false| |done|].
      * unfold trail_of. simpl. by rewrite Ht, app_nil_r.
      * intros H. split; [done|]. by apply Hm.
    + intros (before & after & kept & -> & -> & Htrail & Hsub & Hmust)%IH.
      destruct Ht as [[Ht _]|[Ht Hno]].
      * exists (chunk :: before), after, ((d, offset, chunk) :: kept). split_and!; [done..| | |].
        -- rewrite Htrail. unfold trail_of. simpl. rewrite Ht, <-app_assoc. done.
        -- simpl. by apply sublist_skip.
        -- intros H. simpl. destruct Hmust as [-> ?]; [by apply Hm|done].
      * exists (chunk :: before), after, kept. split_and!; [done..| | |].
        -- rewrite Htrail. unfold trail_of. simpl. by rewrite Ht.
        -- simpl. by apply sublist_cons.
        -- intros H. by destruct (Hno H).
Qed.

(** * What is captured *)

Definition offset_of (d : Direction) (c : StreamCapture) : N :=
  match d with DirInput => sc_input_offset c | DirOutput => sc_output_offset c end.

(** The records of a direction are, one after another, a beginning of its
    stream; as long as no record was refused, all that fits the budget. *)
Record Captured (streams : Direction → bytes) (recs : list StreamRecord) (c : StreamCapture) : Prop := {
  cap_slices d : ∃ l, only d recs = records d 0 l ∧ concat l `prefix_of` streams d ∧
    Forall (λ chunk, 0 < length chunk ≤ STREAM_RECORD_BYTES) l;
  cap_budget b : sc_budget c = Some b → (sc_recorded c ≤ b)%N;
  cap_recorded : (recorded recs ≤ sc_recorded c)%N;
  cap_exact : sc_failed c = false →
    recorded recs = sc_recorded c ∧ (∀ d, offset_of d c = len (streams d)) ∧
    (sc_recorded c + sc_dropped c = len (streams DirInput) + len (streams DirOutput))%N ∧
    (sc_dropped c = 0%N ∨ sc_budget c = Some (sc_recorded c));
}.

Lemma only_cons d r recs : only d (r :: recs) = if decide (r.1.1 = d) then r :: only d recs else only d recs.
Proof. unfold only. rewrite filter_cons. by repeat case_decide. Qed.

Lemma only_app d recs recs' : only d (recs ++ recs') = only d recs ++ only d recs'.
Proof. apply filter_app. Qed.

Lemma recorded_split recs : recorded recs = (recorded (only DirInput recs) + recorded (only DirOutput recs))%N.
Proof.
  induction recs as [|r recs IH]; [done|]. rewrite !only_cons. simpl. rewrite IH.
  destruct r as [[[] o] chunk]; repeat case_decide; simpl in *; (done || lia).
Qed.

(** While nothing was dropped everything is recorded. *)
Lemma captured_whole streams recs c d l :
  Captured streams recs c → sc_failed c = false → sc_dropped c = 0%N → only d recs = records d 0 l →
  concat l `prefix_of` streams d → concat l = streams d.
Proof.
  intros Hc Hf Hd Hl Hp. destruct (cap_exact _ _ _ Hc Hf) as (Hr & _ & Htotal & _).
  rewrite recorded_split in Hr.
  destruct (cap_slices _ _ _ Hc DirInput) as (li & Hli & Hpi & _).
  destruct (cap_slices _ _ _ Hc DirOutput) as (lo & Hlo & Hpo & _).
  pose proof (prefix_length _ _ Hpi). pose proof (prefix_length _ _ Hpo).
  assert (recorded (only d recs) = len (streams d)) as Hlen.
  { rewrite Hli, Hlo, !recorded_records in Hr. destruct d; [rewrite Hli|rewrite Hlo]; rewrite recorded_records;
      unfold len in *; lia. }
  rewrite Hl, recorded_records in Hlen. destruct Hp as [k Hk]. rewrite Hk in *. rewrite len_app in Hlen.
  destruct k; [by rewrite app_nil_r|unfold len in Hlen; simpl in Hlen; lia].
Qed.

Definition extend (d : Direction) (b : bytes) (streams : Direction → bytes) : Direction → bytes :=
  λ d', if decide (d' = d) then streams d' ++ b else streams d'.

Lemma extend_prefix d b streams d' : streams d' `prefix_of` extend d b streams d'.
Proof. unfold extend. destruct (decide _); [by apply prefix_app_r|done]. Qed.

(** Records of one direction added: they go on where the last ones ended. *)
Lemma slices_extend streams recs d b l0 start before d' :
  (∀ d, ∃ l, only d recs = records d 0 l ∧ concat l `prefix_of` streams d ∧
    Forall (λ chunk, 0 < length chunk ≤ STREAM_RECORD_BYTES) l) →
  only d recs = records d 0 l0 → (before ≠ [] → concat l0 = streams d ∧ start = len (streams d)) →
  concat before `prefix_of` b → Forall (λ chunk, 0 < length chunk ≤ STREAM_RECORD_BYTES) (l0 ++ before) →
  ∃ l, only d' (recs ++ records d start before) = records d' 0 l ∧
    concat l `prefix_of` extend d b streams d' ∧ Forall (λ chunk, 0 < length chunk ≤ STREAM_RECORD_BYTES) l.
Proof.
  intros Hs Hl0 Hstart Hb Hall. rewrite only_app, only_records. destruct (decide (d' = d)) as [->|Hne].
  - destruct before as [|chunk before].
    + simpl. rewrite app_nil_r. destruct (Hs d) as (l & Hl & Hp & Hf). exists l. split_and!; [done| |done].
      etrans; [exact Hp|apply extend_prefix].
    + destruct Hstart as [Hc ->]; [done|]. exists (l0 ++ chunk :: before). split_and!; [|..|exact Hall].
      * rewrite Hl0, stream_records_app, Hc. done.
      * unfold extend. rewrite decide_True by done. rewrite concat_app, Hc. by apply prefix_app.
  - rewrite app_nil_r. destruct (Hs d') as (l & Hl & Hp & Hf). exists l. split_and!; [done| |done].
    etrans; [exact Hp|apply extend_prefix].
Qed.

Lemma only_chunks_same d recs l l' : only d recs = records d 0 l → only d recs = records d 0 l' → l = l'.
Proof.
  intros ->. generalize 0%N. revert l'. induction l as [|chunk l IH]; intros [|chunk' l'] o; try done.
  simpl. intros [= <- H]. f_equal. by eapply IH.
Qed.

Lemma captured_take streams recs c d b start allowed c' :
  Captured streams recs c → sc_failed c = false → capture_take d (len b) c = (start, allowed, c') →
  start = len (streams d) ∧ (allowed ≤ len b)%N ∧
  (allowed ≠ 0%N → sc_dropped c = 0%N) ∧
  sc_failed c' = false ∧ sc_budget c' = sc_budget c ∧ sc_recorded c' = (sc_recorded c + allowed)%N ∧
  (∀ b, sc_budget c' = Some b → (sc_recorded c' ≤ b)%N) ∧
  (∀ d', offset_of d' c' = len (extend d b streams d')) ∧
  (sc_recorded c' + sc_dropped c' = len (extend d b streams DirInput) + len (extend d b streams DirOutput))%N ∧
  (sc_dropped c' = 0%N ∨ sc_budget c' = Some (sc_recorded c')).
Proof.
  intros Hc Hf Ht. destruct (cap_exact _ _ _ Hc Hf) as (_ & Hoff & Htotal & Hfull).
  pose proof (cap_budget _ _ _ Hc) as Hb. unfold capture_take in Ht. injection Ht as <- <- <-.
  set (allowed := match sc_budget c with None => len b | Some budget => N.min (len b) (budget - sc_recorded c) end).
  assert (Hle : (allowed ≤ len b)%N) by (unfold allowed; destruct (sc_budget c); lia).
  assert (Hbud : ∀ budget, sc_budget c = Some budget → allowed = N.min (len b) (budget - sc_recorded c)).
  { intros budget He. unfold allowed. by rewrite He. }
  assert (Hnone : sc_budget c = None → allowed = len b) by (intros He; unfold allowed; by rewrite He).
  clearbody allowed. cbn [sc_failed sc_budget sc_recorded sc_dropped].
  assert (Hstart : ∀ d', match d' with DirInput => sc_input_offset c | DirOutput => sc_output_offset c end = len (streams d'))
    by exact Hoff.
  split_and!; [apply Hstart|done| |done|done|done| | | |].
  - intros Ha. destruct Hfull as [?|He]; [done|]. apply Hbud in He. lia.
  - intros budget He. specialize (Hb _ He). apply Hbud in He. lia.
  - intros d'. unfold offset_of, extend. cbn [sc_input_offset sc_output_offset].
    pose proof (Hstart d). pose proof (Hstart d'). destruct d, d'; simpl in *; rewrite ?len_app; lia.
  - unfold extend. destruct d; simpl; rewrite len_app; lia.
  - destruct (sc_budget c) as [budget|] eqn:He.
    + specialize (Hb _ eq_refl). specialize (Hbud _ eq_refl).
      destruct (decide (allowed = len b)) as [->|]; [|right; f_equal; lia].
      destruct Hfull as [->|[= ->]]; [left; lia|]. assert (len b = 0)%N as -> by lia.
      right. f_equal. lia.
    + left. rewrite (Hnone eq_refl). destruct Hfull; [lia|done].
Qed.

(** What a step of the worker records, of the records it [offered]. *)
Definition keeps_of p st st' (offered : list StreamRecord) : Prop :=
  ∃ kept, trail_of st' = trail_of st ++ events p kept ∧ kept `sublist_of` offered ∧ (must st → kept = offered ∧ must st').

Lemma keeps_none p st : keeps_of p st st [].
Proof. exists []. simpl. by rewrite app_nil_r. Qed.

Lemma captured_record streams recs c d b p st st' p' :
  mp_audited p = true → mp_capture p = Some c → Captured streams recs c →
  record_stream d b p st = (st', Done p') →
  ∃ c' recs', mp_capture p' = Some c' ∧ keeps_of p st st' recs' ∧
    sc_budget c' = sc_budget c ∧ Captured (extend d b streams) (recs ++ recs') c'.
Proof.
  intros Ha Hcap Hc. unfold record_stream. rewrite Ha, Hcap.
  destruct b as [|x b0] eqn:Hb.
  { intros [= <- <-]. exists c, []. split_and!; [done|by apply keeps_none|done|].
    rewrite app_nil_r. destruct Hc as [Hs Hbud Hr Hx]. unfold extend. split; [|done..|].
    - intros d'. destruct (decide (d' = d)); rewrite ?app_nil_r; apply Hs.
    - destruct d; simpl; rewrite app_nil_r; try exact Hx; intros Hf; destruct (Hx Hf) as (? & Ho & ?);
        (split_and!; [done| |by apply Hx..]); intros d'; rewrite Ho; by destruct (decide (d' = _)); rewrite ?app_nil_r. }
  rewrite <-Hb. destruct (sc_failed c) eqn:Hf.
  { intros [= <- <-]. exists c, []. split_and!; [done|by apply keeps_none|done|].
    rewrite app_nil_r. destruct Hc as [Hs Hbud Hr Hx]. split; [|done..|congruence].
    intros d'. destruct (Hs d') as (l & Hl & Hp & Hall). exists l. split_and!; [done| |done].
    etrans; [exact Hp|apply extend_prefix]. }
  destruct (capture_take d (len b) c) as [[start allowed] c1] eqn:Ht.
  destruct (captured_take _ _ _ _ _ _ _ _ Hc Hf Ht) as (-> & Hle & Hdrop & Hf1 & Hb1 & Hr1 & Hbud1 & Hoff1 & Htot1 & Hfull1).
  intros (all & st1 & (before & after & kept & Hl & [= ->] & Htrail & Hsub & Hmust)%record_chunks_trail & [= -> <-])%step_bind_Done.
  assert (Hpos : 0 < STREAM_RECORD_BYTES) by apply record_positive.
  assert (Hconcat : concat before ++ concat after = take (N.to_nat allowed) b).
  { rewrite <-concat_app, <-Hl. apply chunks_of_concat; [done|]. rewrite length_take. lia. }
  assert (Hbounds : Forall (λ chunk, 0 < length chunk ≤ STREAM_RECORD_BYTES) before).
  { pose proof (chunks_of_bounds (length b) _ (take (N.to_nat allowed) b) Hpos) as Hall. rewrite Hl in Hall.
    by apply Forall_app in Hall as [? _]. }
  set (c' := if bool_decide (after = []) then c1 else capture_fail c1).
  exists c', (records d (len (streams d)) before). split_and!; [done|by exists kept|by unfold c'; case_bool_decide|].
  destruct (cap_slices _ _ _ Hc d) as (l0 & Hl0 & Hp0 & Hall0).
  assert (Hlen : (len (concat before) ≤ allowed)%N).
  { apply (f_equal length) in Hconcat. rewrite length_app, length_take in Hconcat. unfold len. lia. }
  assert (Hrec : recorded recs = sc_recorded c) by by apply (cap_exact _ _ _ Hc Hf).
  split.
  - intros d'. apply (slices_extend streams recs d b l0); [apply Hc|done| | |by apply Forall_app].
    + intros Hne. split; [|done]. eapply captured_whole; [done..| |done|done]. apply Hdrop.
      intros ->. simpl in Hconcat. destruct before as [|[|y chunk] before]; [done| |done].
      inv Hbounds.
    + etrans; [|eapply (prefix_take b (N.to_nat allowed))]. rewrite <-Hconcat. by apply prefix_app_r.
  - intros budget. unfold c'. case_bool_decide; apply Hbud1.
  - rewrite recorded_app, recorded_records, Hrec. unfold c'. case_bool_decide; simpl; rewrite Hr1; lia.
  - unfold c'. case_bool_decide as Hafter; [|done]. intros _. rewrite Hr1, recorded_app, recorded_records, Hrec.
    split_and!; [|done|by rewrite <-Hr1|by rewrite <-Hr1]. f_equal. subst after. rewrite app_nil_r in Hconcat.
    rewrite Hconcat. unfold len in *. rewrite length_take. lia.
Qed.

Lemma record_stream_keeps d b p st st' p' :
  record_stream d b p st = (st', Done p') → ∃ c, p' = set_capture c p.
Proof.
  unfold record_stream. intros H.
  destruct b, (mp_audited p), (mp_capture p) as [c|] eqn:Hc;
    try (injection H as _ <-; exists (mp_capture p); by destruct p).
  destruct (sc_failed c); [injection H as _ <-; exists (mp_capture p); by destruct p|].
  destruct (capture_take _ _ c) as [[start allowed] c'].
  apply step_bind_Done in H as (recorded & st1 & _ & [= _ <-]). eauto.
Qed.

Lemma keeps_command p p' st st' offered :
  mp_command p = mp_command p' → keeps_of p st st' offered → keeps_of p' st st' offered.
Proof.
  intros Hp (kept & Ht & H). exists kept. split; [|done]. rewrite Ht. unfold events, stream_event. by rewrite Hp.
Qed.

Lemma keeps_trans p st st1 st2 offered offered' :
  keeps_of p st st1 offered → keeps_of p st1 st2 offered' → keeps_of p st st2 (offered ++ offered').
Proof.
  intros (kept & Ht & Hs & Hm) (kept' & Ht' & Hs' & Hm'). exists (kept ++ kept'). split_and!.
  - rewrite Ht', Ht. unfold events. by rewrite fmap_app, app_assoc.
  - by apply sublist_app.
  - intros H. destruct (Hm H) as [-> H1]. by destruct (Hm' H1) as [-> H2].
Qed.

(** * Exchanges *)

(** What the worker does while the process runs: the input it offers, how much
    of it is accepted, and the output. *)
Fixpoint run_exchanges (exchanges : list (bytes * nat * bytes)) (p : ManagedPty) : Step (Store A W) string ManagedPty :=
  match exchanges with
  | [] => mret p
  | (input, accepted, output) :: exchanges =>
      p ← worker_exchange input accepted output None p; run_exchanges exchanges p
  end.

Definition stream_of (exchanges : list (bytes * nat * bytes)) (d : Direction) : bytes :=
  concat ((λ x, match d with DirInput => take (Nat.min x.1.2 (length x.1.1)) x.1.1 | DirOutput => x.2 end) <$> exchanges).

Lemma Captured_ext streams streams' recs c :
  (∀ d, streams d = streams' d) → Captured streams recs c → Captured streams' recs c.
Proof.
  intros He [Hs Hb Hr Hx]. split; [|done..|].
  - intros d. rewrite <-He. apply Hs.
  - intros Hf. rewrite <-!He. destruct (Hx Hf) as (? & Ho & ?). split_and!; [done| |by apply Hx..].
    intros d. by rewrite <-He.
Qed.

Lemma captured_exchanges exchanges streams recs c p st st' p' :
  mp_audited p = true → mp_capture p = Some c → Captured streams recs c →
  run_exchanges exchanges p st = (st', Done p') →
  ∃ c' recs', mp_capture p' = Some c' ∧ keeps_of p st st' recs' ∧
    sc_budget c' = sc_budget c ∧ Captured (λ d, streams d ++ stream_of exchanges d) (recs ++ recs') c'.
Proof.
  revert streams recs c p st. induction exchanges as [|[[input accepted] output] exchanges IH]; intros streams recs c p st Ha Hcap Hc.
  - intros [= <- <-]. exists c, []. rewrite !app_nil_r. split_and!; [done|by apply keeps_none|done|].
    eapply Captured_ext; [|exact Hc]. intros d. unfold stream_of. simpl. by rewrite app_nil_r.
  - intros (p3 & st3 & (p1 & st1 & H1 & (p2 & st2 & H2 & [= -> <-])%step_bind_Done)%step_bind_Done & Hrest)%step_bind_Done.
    destruct (record_stream_keeps _ _ _ _ _ _ H1) as [x1 E1], (record_stream_keeps _ _ _ _ _ _ H2) as [x2 E2].
    destruct (captured_record _ _ _ _ _ _ _ _ _ Ha Hcap Hc H1) as (c1 & r1 & Hc1 & Ht1 & Hb1 & HC1).
    assert (Ha1 : mp_audited p1 = true) by by rewrite E1.
    destruct (captured_record _ _ _ _ _ _ _ _ _ Ha1 Hc1 HC1 H2) as (c2 & r2 & Hc2 & Ht2 & Hb2 & HC2).
    eapply IH in Hrest as (c' & r3 & Hc' & Ht & Hb & HC); [| |exact Hc2|exact HC2]; [|by rewrite E2].
    exists c', (r1 ++ r2 ++ r3). split_and!; [done| |congruence|].
    + eapply keeps_trans; [exact Ht1|]. apply (keeps_command p1); [by rewrite E1|].
      eapply keeps_trans; [exact Ht2|]. apply (keeps_command p2); [by rewrite E2|exact Ht].
    + rewrite <-!app_assoc in HC. eapply Captured_ext; [|exact HC]. intros d. unfold extend, stream_of. simpl.
      destruct d; simpl; by rewrite <-app_assoc.
Qed.

Lemma recorded_sublist recs recs' : recs `sublist_of` recs' → (recorded recs ≤ recorded recs')%N.
Proof. induction 1; simpl; lia. Qed.

(** C24: The audit of a terminal's bytes is truthful, never over its budget, and complete when it has
    to be. There is a list of records [offered] that says, for input and output each, one after
    another and at the right offsets, what the process took and wrote from its first byte on, in
    pieces of at most 64 KiB; together they never exceed the budget; and unless appending gave an
    error, they are exactly as many bytes as fit, the job's count of dropped bytes being the rest. The
    records that were acknowledged of the job are some of these, in order - with optional auditing the
    others were dropped - and all of these while auditing is required. *)
Theorem terminal_audit_is_truthful exchanges session_id command cwd pty_id ticket size policy st st' p' :
  let p := new_job session_id command cwd pty_id ticket size (Some (Some policy)) in
  run_exchanges exchanges p st = (st', Done p') →
  ∃ c offered recs, mp_capture p' = Some c ∧ trail_of st' = trail_of st ++ events p recs ∧
    recs `sublist_of` offered ∧ (must st → recs = offered ∧ must st') ∧
    (∀ d, ∃ chunks, only d offered = records d 0 chunks ∧ concat chunks `prefix_of` stream_of exchanges d ∧
      Forall (λ chunk, 0 < length chunk ≤ STREAM_RECORD_BYTES) chunks) ∧
    (∀ budget, policy = Some budget → (recorded recs ≤ recorded offered ≤ budget)%N) ∧
    (sc_failed c = false →
      let total := (len (stream_of exchanges DirInput) + len (stream_of exchanges DirOutput))%N in
      recorded offered = match policy with None => total | Some budget => N.min total budget end ∧
      (recorded offered + sc_dropped c = total)%N).
Proof.
  intros p Hrun.
  destruct (captured_exchanges exchanges (λ _, []) [] (capture_new policy) p st st' p')
    as (c & offered & Hc & (recs & Ht & Hsub & Hmust) & Hb & HC); [done|done| |exact Hrun|].
  { split; [|intros budget _; simpl; lia|done|intros _; split_and!; [done|by intros []|done|by left]].
    intros d. exists []. split_and!; [done..|constructor]. }
  exists c, offered, recs. destruct HC as [Hs Hbud Hr Hx]. rewrite Hb in *. simpl in *.
  split_and!; [done|done|done|exact Hmust|exact Hs| |].
  - intros budget Hp. specialize (Hbud _ Hp). pose proof (recorded_sublist _ _ Hsub). lia.
  - intros Hf. destruct (Hx Hf) as (He & _ & Htot & Hfull). split; [|lia].
    destruct policy as [budget|]; [specialize (Hbud _ eq_refl); destruct Hfull as [?|[= ?]]; lia|].
    destruct Hfull as [?|?]; [lia|done].
Qed.
End capture.

(** * The audit of a session *)

(** The connection of a session as what the capture appends to: a record was
    acknowledged if the session was not closed and its connection is open after
    it. The process and base64 are parameters. *)
Section recording.
Context {A W Conn : Type} `{!AuditSocket A W Conn, !AuditHost W}.
Context (client_version : string) (c : AuditConfig).
Context (spawn : W → string → string → PtySize → option string → option string * W) (base64 : bytes → string).

Record Recording := {
  rec_session : SessionAudit Conn;
  rec_world : W;
  rec_trail : list (AuditEvent A);
}.

Definition acknowledged (before after : Connection Conn) : bool :=
  match before, after with CxClosed, _ => false | _, CxOpen _ => true | _, _ => false end.

Definition record_event (x : Recording) (e : AuditEvent A) : option string * Recording :=
  let '((s, w), r) := SessionAudit.append client_version c e (rec_session x, rec_world x) in
  (match r with Done _ => None | Fail error => Some error | Panic => Some "panic" end,
   {| rec_session := s; rec_world := w;
      rec_trail := match r with
        | Done _ => if acknowledged (sa_state (rec_session x)) (sa_state s) then rec_trail x ++ [e] else rec_trail x
        | _ => rec_trail x end |}).

#[local] Instance recording_world : PtyWorld A Recording := {|
  spawn_process x command cwd size terminal := let '(r, w) := spawn (rec_world x) command cwd size terminal in
    (r, {| rec_session := rec_session x; rec_world := w; rec_trail := rec_trail x |});
  audit_append := record_event;
  base64_encode := base64 |}.

(** What [acknowledged] says. *)
Lemma acknowledged_recorded x e s' w' :
  Usable (sa_state (rec_session x)) →
  SessionAudit.append client_version c e (rec_session x, rec_world x) = ((s', w'), Done ()) →
  acknowledged (sa_state (rec_session x)) (sa_state s') = true ↔
  sa_state (rec_session x) ≠ CxClosed ∧ Recorded client_version c (rec_session x) e (rec_world x) s' w'.
Proof.
  intros Hu Hr. pose proof (append_cases client_version c _ e (rec_world x) Hu) as H. unfold wp in H. rewrite Hr in H.
  destruct H as (_ & [[Hc [= -> ->]]|(Hn & _ & _ & [Hrec|(_ & at_ & Hat)])]); simpl in *.
  - rewrite Hc. by split; [|intros [? _]].
  - split; [by split|]. intros _. destruct Hrec as (s1 & client & w1 & _ & _ & _ & ->). simpl.
    by destruct (sa_state (rec_session x)).
  - rewrite Hat. split; [by destruct (sa_state (rec_session x))|].
    intros (_ & s1 & client & w1 & _ & _ & _ & ->). done.
Qed.

#[local] Instance recording_trail : AuditTrail A Recording.
Proof.
  refine {| trail := rec_trail;
    must_record x := required c = true ∧ sa_state (rec_session x) ≠ CxClosed ∧ Usable (sa_state (rec_session x)) |}.
  - intros x e. cbn [audit_append recording_world]. unfold record_event.
    destruct (SessionAudit.append _ _ _ _) as [[s w] [[]|error|]] eqn:Hr; simpl; [|right; by split..].
    destruct (acknowledged _ _) eqn:Hack; [by left|]. right. split; [done|]. intros (Hreq & Hn & Hu). exfalso.
    pose proof (append_cases client_version c _ e (rec_world x) Hu) as H. unfold wp in H. rewrite Hr in H.
    destruct H as (_ & [[Hc _]|(_ & _ & _ & [Hrec|[Hno _]])]); [done| |congruence].
    assert (acknowledged (sa_state (rec_session x)) (sa_state s) = true) as Hyes
      by by apply (acknowledged_recorded x e s w Hu Hr).
    congruence.
  - intros x e (Hreq & Hn & Hu). cbn [audit_append recording_world]. unfold record_event.
    pose proof (append_cases client_version c _ e (rec_world x) Hu) as H. unfold wp in H.
    destruct (SessionAudit.append _ _ _ _) as [[s w] [[]|error|]]; simpl in *; [| |done].
    + destruct H as (_ & [[Hc _]|(_ & Hu' & Hn' & _)]); done.
    + destruct H as (_ & _ & _ & at_ & ->). done.
Defined.
End recording.

(** * A capture that is run *)

(** The service keeps what it accepts; base64 is left out. *)
#[local] Instance capture_serde : StateSerde () :=
  {| state_to_vec_pretty _ := Some "state"; state_from_str _ := None |}.
#[local] Instance capture_host : SessionHost (list (AuditEvent ())) := {|
  system_time w := (Some 0%N, w); new_v4 w := ("id", w); canonicalize w path := (Some path, w);
  is_dir w _ := (true, w); read_dir w _ := (true, w); secure_directory w := (true, w); read_file w := (true, w);
  replace_file w _ := (true, w); map_order _ _ m := map_to_list m |}.
#[local] Instance capture_world : PtyWorld () (list (AuditEvent ())) := {|
  spawn_process w _ _ _ _ := (None, w);
  audit_append w e := (None, w ++ [e]);
  base64_encode b := of_chars b |}.
#[local] Instance capture_trail : AuditTrail () (list (AuditEvent ())).
Proof. refine {| trail w := w; must_record _ := True |}; [intros w e; by left|done]. Defined.

Definition sample_store : Store () (list (AuditEvent ())) := {|
  registry := {| host_id := ""; host_alias := ""; user := ""; sessions := ∅; in_flight := ∅ |};
  disk := {| sessions_json := None; world := [] |} |}.

(** Seven bytes of budget: the last four of the output are dropped. *)
Definition sample_exchanges : list (bytes * nat * bytes) :=
  [(chars "ls", 2, chars "a b"); ([], 0, chars "cd$ ok")].

Lemma terminal_audit_is_truthful_witness :
  let p := new_job "s" "bash" "/" "id" "t" {| rows := 24; columns := 80 |} (Some (Some (Some 7%N))) in
  let run := run_exchanges sample_exchanges p sample_store in
  trail_of run.1 = [EvTerminalStream "bash" "input" 0 "ls" 0; EvTerminalStream "bash" "output" 0 "a b" 0;
    EvTerminalStream "bash" "output" 3 "cd" 0] ∧
  ∃ p' c recs, run.2 = Done p' ∧ mp_capture p' = Some c ∧ trail_of run.1 = [] ++ events p recs ∧
    (sc_failed c = false → (recorded recs + sc_dropped c = 11)%N).
Proof.
  intros p run. split; [vm_compute; reflexivity|].
  assert (Hrun : ∃ p', run.2 = Done p') by (eexists; vm_compute; reflexivity). destruct Hrun as [p' Hp].
  destruct (terminal_audit_is_truthful sample_exchanges "s" "bash" "/" "id" "t" {| rows := 24; columns := 80 |} (Some 7%N)
    sample_store run.1 p') as (c & offered & recs & Hc & Ht & _ & Hm & _ & _ & Hx); [by rewrite <-Hp; apply surjective_pairing|].
  destruct (Hm I) as [-> _]. exists p', c, offered. split_and!; [done..|]. intros Hf. exact (proj2 (Hx Hf)).
Defined.
