(* ===== verification/PtyJobs.v ===== *)
(** The jobs of the coordinator ([Pty]) as a state machine: every operation
    keeps one job to a session, 64 jobs and one client to a stream, a claim
    excludes other clients, and starting a job is all or nothing. *)
From Stdlib Require Import Ascii.
From S2P Require Import Prelude Budget Compaction CallId Chat Effects SessionModel Registry RegistrySpec.
From S2P Require Import RegistryProps AuditModel PtyStream Pty.

#[local] Opaque REPLAY_BYTES MAX_STREAM_OUTPUT_BYTES STREAM_RECORD_BYTES MAX_ACTIVE_PTYS.

(** * Operations *)

(** The two halves of [start] are apart, since other operations may come
    between them; a worker may outlive its job's place in the table. *)
Inductive PtyOp : Type :=
| PoAdmit (session_id command cwd : string) (size : PtySize) (terminal_type : option string)
    (audit : option (option (option N)))
| PoCommit (session_id command cwd pty_id : string) (size : PtySize) (audit : option (option (option N)))
| PoAttach (session_id : string) (after_offset : option N)
| PoClaim (ticket : string)
| PoWrite (claim : PtyClaim) (b : bytes)
| PoResize (claim : PtyClaim) (size : PtySize)
| PoRead (claim : PtyClaim) (cursor wait_ms : N) (later : PtyState)
| PoRelease (claim : PtyClaim)
| PoTerminate (session_id : string)
| PoTerminateJob (pty_id : string)
| PoStopAccepting
| PoShutdown
| PoWorkerRequest (pty_id : string)
| PoWorkerExchange (pty_id : string) (input : bytes) (accepted : nat) (output : bytes) (status : option string)
| PoWorkerFinish (pty_id status : string)
| PoOrphanFinish (p : ManagedPty) (status : string).

Inductive PtyAnswer : Type :=
| AnsNothing
| AnsId (pty_id : string)
| AnsTicket (ticket : PtyTicket)
| AnsClaim (claim : PtyClaim)
| AnsRead (r : PtyReadResult).

Section jobs.
Context {A W : Type} `{!StateSerde A, !SessionHost W, !PtyWorld A W, !RegistryLaws A W}.
Implicit Types (h : PtyHost A W) (st : Store A W) (c : PtyCoordinator) (p : ManagedPty).

Abbreviation M := (Step (PtyHost A W) string).
Abbreviation S := (Step (Store A W) string).

(** An operation on the coordinator alone. *)
Definition updating_coordinator (f : PtyCoordinator → Outcome string PtyCoordinator) : M () :=
  c ← the_coordinator; c ← lift (f c); set_coordinator (λ _, c).

(** A worker's step on its job, if that is still in the table. *)
Definition worker_at (id : string) (f : ManagedPty → S ManagedPty) : M () :=
  c ← the_coordinator;
  match ptys c !! id with
  | None => mret ()
  | Some p => p ← in_store (f p); set_coordinator (put_pty id p)
  end.

Definition answer {B} (f : B → PtyAnswer) (m : M B) : M PtyAnswer := b ← m; mret (f b).
Definition silent {B} (m : M B) : M PtyAnswer := answer (λ _, AnsNothing) m.

Definition run_pty_op (op : PtyOp) : M PtyAnswer :=
  match op with
  | PoAdmit session_id command cwd size terminal_type audit =>
      answer AnsId (start_admit session_id command cwd size terminal_type audit)
  | PoCommit session_id command cwd pty_id size audit =>
      answer AnsTicket (start_commit session_id command cwd pty_id size audit)
  | PoAttach session_id after_offset => answer AnsTicket (attach_job session_id after_offset)
  | PoClaim ticket => answer AnsClaim (claim ticket)
  | PoWrite claim b => silent (updating_coordinator (write_claimed claim b))
  | PoResize claim size => silent (updating_coordinator (resize_claimed claim size))
  | PoRead claim cursor wait_ms later =>
      c ← the_coordinator; answer AnsRead (lift (read_claimed claim cursor wait_ms later c))
  | PoRelease claim => silent (set_coordinator (release_claim claim))
  | PoTerminate session_id => silent (terminate_session session_id)
  | PoTerminateJob pty_id => silent (terminate pty_id)
  | PoStopAccepting => silent stop_accepting
  | PoShutdown => silent shutdown_all
  | PoWorkerRequest pty_id => silent (worker_at pty_id (λ p, mret (worker_request p).2))
  | PoWorkerExchange pty_id input accepted output status =>
      silent (worker_at pty_id (worker_exchange input accepted output status))
  | PoWorkerFinish pty_id status => silent (worker_at pty_id (finish status))
  | PoOrphanFinish p status => silent (in_store (finish status p))
  end.

(** * The invariant *)

Record JobOk (id : string) (p : ManagedPty) : Prop := {
  job_id : mp_operation_id p = id;
  job_tickets : size (mp_tickets p) ≤ 1;
  job_claimed : is_Some (mp_claimed p) → mp_tickets p = ∅;
  job_input : (len (ps_input (mp_state p)) ≤ MAX_INPUT_BYTES)%N;
  job_replay : length (ps_output (mp_state p)) ≤ REPLAY_BYTES;
}.

Record HostInv (h : PtyHost A W) : Prop := {
  host_job : ∀ id p, ptys (coordinator h) !! id = Some p → JobOk id p;
  host_session : ∀ id id' p p', ptys (coordinator h) !! id = Some p → ptys (coordinator h) !! id' = Some p' →
    mp_session_id p = mp_session_id p' → id = id';
  host_size : size (ptys (coordinator h)) ≤ MAX_ACTIVE_PTYS;
  host_registry : Inv (registry (store h));
}.

(** * What an operation does to the table *)

(** How an operation may change who has a stream. *)
Definition claim_changes (op : PtyOp) (id : string) (p p' : ManagedPty) : Prop :=
  match op with
  | PoClaim _ => mp_claimed p = None
  | PoRelease claim => cl_pty_id claim = id ∧ mp_claimed p = Some (cl_claim_id claim)
  | _ => False
  end.

Record Stays (op : PtyOp) (id : string) (p p' : ManagedPty) : Prop := {
  stays_session : mp_session_id p' = mp_session_id p;
  stays_ok : JobOk id p → JobOk id p';
  stays_claim : mp_claimed p' = mp_claimed p ∨ claim_changes op id p p';
}.

Definition removes (op : PtyOp) (p : ManagedPty) : Prop :=
  match op with
  | PoTerminate session_id => mp_session_id p = session_id
  | PoTerminateJob pty_id => mp_operation_id p = pty_id
  | PoShutdown => True
  | PoAdmit session_id _ _ _ _ _ => mp_session_id p = session_id ∧ running p = false
  | _ => False
  end.

Definition adds (op : PtyOp) (id : string) (p : ManagedPty) : Prop :=
  match op with
  | PoCommit session_id _ _ pty_id _ _ => id = pty_id ∧ mp_session_id p = session_id
  | _ => False
  end.

Record Effect (op : PtyOp) (c c' : PtyCoordinator) : Prop := {
  eff_there id p' : ptys c' !! id = Some p' →
    (∃ p, ptys c !! id = Some p ∧ Stays op id p p') ∨
    (adds op id p' ∧ JobOk id p' ∧ (∀ id' p, ptys c !! id' = Some p → mp_session_id p ≠ mp_session_id p'));
  eff_gone id p : ptys c !! id = Some p → ptys c' !! id = None → removes op p;
  eff_size : size (ptys c') ≤ size (ptys c) ∨ size (ptys c) < MAX_ACTIVE_PTYS ∧ size (ptys c') ≤ 1 + size (ptys c);
}.

Lemma stays_refl op id p : Stays op id p p.
Proof. split; auto. Qed.

Lemma effect_same op c c' : ptys c' = ptys c → Effect op c c'.
Proof.
  intros Hs. split; rewrite Hs; [|congruence|by left]. intros id p' Hp. left. exists p'. split; [done|apply stays_refl].
Qed.

Lemma effect_job op c id p p' :
  ptys c !! id = Some p → Stays op id p p' → Effect op c (put_pty id p' c).
Proof.
  intros Hp Hs. split; simpl.
  - intros id' q [[<- <-]|[Hne Hq]]%lookup_insert_Some; left; [by exists p|]. exists q. split; [done|apply stays_refl].
  - intros id' q Hq. destruct (decide (id = id')) as [->|]; [by rewrite lookup_insert_eq|]. rewrite lookup_insert_ne by done. congruence.
  - left. by rewrite map_size_insert_Some by (by rewrite Hp).
Qed.

Lemma effect_sub op c c' :
  ptys c' ⊆ ptys c → (∀ id p, ptys c !! id = Some p → ptys c' !! id = None → removes op p) → Effect op c c'.
Proof.
  intros Hsub Hgone. split; [|done|left; by apply map_subseteq_size].
  intros id p' Hp. left. exists p'. split; [by eapply lookup_weaken|apply stays_refl].
Qed.

Lemma effect_keeps op h h' :
  HostInv h → Effect op (coordinator h) (coordinator h') → Inv (registry (store h')) → HostInv h'.
Proof.
  intros [Hj Hs Hsz _] [Ht Hg Hsize] Hr. split; [| | |done].
  - intros id p' Hp'. destruct (Ht _ _ Hp') as [(p & Hp & Hst)|(_ & ? & _)]; [|done]. by apply Hst, Hj.
  - intros id id' p p' Hp Hp' He.
    destruct (Ht _ _ Hp) as [(q & Hq & Hst)|(Ha & _ & Hno)], (Ht _ _ Hp') as [(q' & Hq' & Hst')|(Ha' & _ & Hno')].
    + eapply Hs; [done..|]. rewrite <-(stays_session _ _ _ _ Hst), <-(stays_session _ _ _ _ Hst'). done.
    + exfalso. apply (Hno' _ _ Hq). rewrite <-(stays_session _ _ _ _ Hst). done.
    + exfalso. apply (Hno _ _ Hq'). rewrite <-(stays_session _ _ _ _ Hst'). done.
    + destruct op; try done. destruct Ha as [-> _], Ha' as [-> _]. done.
  - lia.
Qed.

(** * The registry is kept *)

Definition store_keeps {B} (m : S B) : Prop := ∀ st, Inv (registry st) →
  wp m (λ _ st', Inv (registry st')) (λ _ st', Inv (registry st')) st.

Lemma keeps_ret {B} (b : B) : store_keeps (mret b).
Proof. by intros st. Qed.

Lemma keeps_throw {B} e : store_keeps (B := B) (throw e).
Proof. by intros st. Qed.

Lemma keeps_bind {B C} (m : S B) (k : B → S C) : store_keeps m → (∀ b, store_keeps (k b)) → store_keeps (m ≫= k).
Proof. intros Hm Hk st Hi. rewrite wp_bind. eapply wp_wand; [by apply Hm|intros b st' Hi'; by apply Hk|done]. Qed.

Lemma keeps_handle {B C} (m : S B) (k : B → S C) g :
  store_keeps m → (∀ b, store_keeps (k b)) → (∀ e, store_keeps (g e)) → store_keeps (handle m k g).
Proof.
  intros Hm Hk Hg st Hi. rewrite wp_handle.
  eapply wp_wand; [by apply Hm|intros b st' Hi'; by apply Hk|intros e st' Hi'; by apply Hg].
Qed.

Lemma keeps_asking {B} (f : W → B * W) : store_keeps (io (asking f)).
Proof. intros st Hi. by rewrite wp_io, wp_asking. Qed.

Lemma keeps_calling (f : W → option string * W) : store_keeps (calling f).
Proof. apply keeps_bind; [apply keeps_asking|]. intros [e|]; [apply keeps_throw|apply keeps_ret]. Qed.

Lemma keeps_ignoring {B} (m : S B) : store_keeps m → store_keeps (ignoring m).
Proof. intros Hm. apply keeps_handle; [done|intros b; apply keeps_ret|intros e; apply keeps_ret]. Qed.

Lemma keeps_begin id operation_id route : store_keeps (begin_execution id operation_id route).
Proof.
  intros st Hi. eapply wp_wand; [by apply (begin_ends id operation_id route)|by intros ?? []|by intros ?? []].
Qed.

Lemma keeps_finish_execution id operation_id : store_keeps (finish_execution id operation_id).
Proof.
  intros st Hi. eapply wp_wand; [by apply (finish_ends id operation_id)|by intros ?? []|by intros ?? []].
Qed.

Create HintDb keeps.
#[local] Hint Resolve keeps_ret keeps_throw keeps_bind keeps_handle keeps_asking keeps_calling keeps_ignoring
  keeps_begin keeps_finish_execution : keeps.

Lemma keeps_record_chunks p d offset l : store_keeps (record_chunks p d offset l).
Proof. revert offset. induction l as [|chunk l IH]; intros offset; simpl; eauto with keeps. Qed.
#[local] Hint Resolve keeps_record_chunks : keeps.

Lemma keeps_record_stream d b p : store_keeps (record_stream d b p).
Proof.
  unfold record_stream. destruct b, (mp_audited p), (mp_capture p) as [c|]; eauto with keeps.
  destruct (sc_failed c); [eauto with keeps|]. destruct (capture_take _ _ c) as [[start allowed] c']. eauto with keeps.
Qed.
#[local] Hint Resolve keeps_record_stream : keeps.

Lemma keeps_finish status p : store_keeps (finish status p).
Proof.
  unfold finish, record_stream_summary. destruct (ps_exit_status (mp_state p)); [apply keeps_ret|].
  cbn [set_state mp_audited mp_capture]. apply keeps_bind; [|intros _; apply keeps_bind; [|eauto with keeps]].
  - destruct (mp_audited p), (mp_capture p) as [c|]; try apply keeps_ret. destruct (_ || _); eauto with keeps.
  - destruct (mp_audited p); eauto with keeps.
Qed.
#[local] Hint Resolve keeps_finish : keeps.

Lemma keeps_exchange input accepted output status p : store_keeps (worker_exchange input accepted output status p).
Proof.
  unfold worker_exchange. apply keeps_bind; [eauto with keeps|intros p1]. apply keeps_bind; [eauto with keeps|intros p2].
  destruct status; eauto with keeps.
Qed.

(** * Running on the host *)

Lemma wp_in_store {B} (m : S B) Q R h :
  wp (in_store m) Q R h ↔ wp m (λ b st, Q b {| coordinator := coordinator h; store := st |})
    (λ e st, R e {| coordinator := coordinator h; store := st |}) (store h).
Proof. apply wp_zoom. Qed.

Lemma wp_keeps {B} (m : S B) Q R h :
  store_keeps m → Inv (registry (store h)) →
  (∀ b st, Inv (registry st) → Q b {| coordinator := coordinator h; store := st |}) →
  (∀ e st, Inv (registry st) → R e {| coordinator := coordinator h; store := st |}) →
  wp (in_store m) Q R h.
Proof. intros Hm Hi HQ HR. rewrite wp_in_store. eapply wp_wand; [by apply Hm|exact HQ|exact HR]. Qed.

Lemma wp_the_coordinator Q R h : wp the_coordinator Q R h ↔ Q (coordinator h) h.
Proof. done. Qed.

Lemma wp_set_coordinator f Q R h :
  wp (set_coordinator f) Q R h ↔ Q () {| coordinator := f (coordinator h); store := store h |}.
Proof. done. Qed.

Lemma wp_jobs Q R h :
  (∀ l, l ≡ₚ map_to_list (ptys (coordinator h)) → Q l h) → wp jobs Q R h.
Proof.
  intros HQ. unfold jobs. rewrite wp_bind, wp_the_coordinator, wp_in_store. apply wp_io_iterate.
  intros l Hl. destruct h. by apply HQ.
Qed.

Lemma elem_of_jobs h l id p : l ≡ₚ map_to_list (ptys (coordinator h)) → (id, p) ∈ l ↔ ptys (coordinator h) !! id = Some p.
Proof. apply elem_of_iteration. Qed.

Lemma length_jobs h l : l ≡ₚ map_to_list (ptys (coordinator h)) → length l = size (ptys (coordinator h)).
Proof. intros ->. by rewrite length_map_to_list. Qed.

(** * Each operation *)

(** What an answer grants was free, or the caller's. *)
Definition granted (op : PtyOp) (r : PtyAnswer) (c : PtyCoordinator) : Prop :=
  match op, r with
  | PoAttach _ _, AnsTicket t => ∃ p, ptys c !! pt_pty_id t = Some p ∧ mp_claimed p = None
  | PoClaim _, AnsClaim cl => ∃ p, ptys c !! cl_pty_id cl = Some p ∧ mp_claimed p = None
  | PoWrite cl _, _ | PoResize cl _, _ | PoRead cl _ _ _, _ => ∃ p, get_claimed cl c = Done p
  | _, _ => True
  end.

Definition Left (op : PtyOp) h h' : Prop :=
  Effect op (coordinator h) (coordinator h') ∧ Inv (registry (store h')).

Definition PtyEnds (op : PtyOp) h : Prop :=
  wp (run_pty_op op) (λ r h', granted op r (coordinator h) ∧ Left op h h') (λ _ h', Left op h h') h.

Lemma left_same op h h' :
  ptys (coordinator h') = ptys (coordinator h) → Inv (registry (store h')) → Left op h h'.
Proof. intros Hp Hi. split; [by apply effect_same|done]. Qed.

Lemma wp_answer {B} (f : B → PtyAnswer) (m : M B) Q R h :
  wp (answer f m) Q R h ↔ wp m (λ b, Q (f b)) R h.
Proof. unfold answer. by rewrite wp_bind. Qed.

Lemma wp_silent {B} (m : M B) Q R h : wp (silent m) Q R h ↔ wp m (λ _, Q AnsNothing) R h.
Proof. apply wp_answer. Qed.

Lemma trim_replay_bound output start : length (trim_replay output start).1 ≤ REPLAY_BYTES.
Proof.
  revert start. induction output as [|b output IH]; intros start.
  - unfold trim_replay. destruct (_ <? _)%nat; apply Nat.le_0_l.
  - cbn [trim_replay]. destruct (Nat.ltb_spec REPLAY_BYTES (length (b :: output))); [apply IH|done].
Qed.

Lemma append_output_bound b s : length (ps_output (append_output b s)) ≤ REPLAY_BYTES.
Proof.
  unfold append_output. pose proof (trim_replay_bound (ps_output s ++ b) (ps_replay_start s)).
  by destruct (trim_replay _ _) as [output start].
Qed.

(** A job whose bounds are kept and whose client is the same stays. *)
Lemma stays_state op id p s :
  ((len (ps_input (mp_state p)) ≤ MAX_INPUT_BYTES)%N → (len (ps_input s) ≤ MAX_INPUT_BYTES)%N) →
  (length (ps_output (mp_state p)) ≤ REPLAY_BYTES → length (ps_output s) ≤ REPLAY_BYTES) →
  Stays op id p (set_state s p).
Proof. intros Hi Ho. split; [done| |by left]. intros []. split; simpl; auto. Qed.

Lemma stays_capture op id p capture : Stays op id p (set_capture capture p).
Proof. split; [done| |by left]. intros []. by split. Qed.

Lemma stays_trans op id p1 p2 p3 :
  mp_claimed p2 = mp_claimed p1 → mp_claimed p3 = mp_claimed p2 → Stays op id p1 p2 → Stays op id p2 p3 → Stays op id p1 p3.
Proof. intros H1 H2 [S1 O1 _] [S2 O2 _]. split; [congruence|auto|left; congruence]. Qed.

Lemma wp_worker_at op id f h :
  HostInv h → (∀ p, store_keeps (f p)) →
  (∀ p st st' p', f p st = (st', Done p') → Stays op id p p') →
  (∀ r, granted op r (coordinator h)) →
  wp (silent (worker_at id f)) (λ r h', granted op r (coordinator h) ∧ Left op h h') (λ _ h', Left op h h') h.
Proof.
  intros Hh Hk Hs Hg. rewrite wp_silent. unfold worker_at. rewrite wp_bind, wp_the_coordinator.
  destruct (ptys (coordinator h) !! id) as [p|] eqn:Hp.
  - rewrite wp_bind, wp_in_store. pose proof (Hk p (store h) (host_registry _ Hh)) as Hf. unfold wp in *.
    destruct (f p (store h)) as [st' [p'|e|]] eqn:Hrun; [|by apply left_same|done].
    split; [done|]. split; [|done]. eapply effect_job; [done|]. by eapply Hs.
  - rewrite wp_ret. split; [done|]. apply left_same; [done|apply Hh].
Qed.

Lemma finish_stays op id status p st st' p' : finish status p st = (st', Done p') → Stays op id p p' ∧ mp_claimed p' = mp_claimed p.
Proof.
  unfold finish. destruct (ps_exit_status (mp_state p)); [intros [= _ <-]; split; [apply stays_refl|done]|].
  intros (u1 & s1 & _ & (u2 & s2 & _ & (u3 & s3 & _ & [= _ <-])%step_bind_Done)%step_bind_Done)%step_bind_Done.
  split; [|done]. split; [done| |by left]. intros []. by split.
Qed.

Lemma record_stream_stays op id d b p st st' p' :
  record_stream d b p st = (st', Done p') → Stays op id p p' ∧ mp_claimed p' = mp_claimed p.
Proof.
  unfold record_stream. intros H.
  destruct b, (mp_audited p), (mp_capture p) as [c|]; try (injection H as _ <-; split; [apply stays_refl|done]).
  destruct (sc_failed c); [injection H as _ <-; split; [apply stays_refl|done]|].
  destruct (capture_take _ _ c) as [[start allowed] c'].
  apply step_bind_Done in H as (recorded & st1 & _ & [= _ <-]). split; [apply stays_capture|done].
Qed.

Lemma exchange_stays op id input accepted output status p st st' p' :
  worker_exchange input accepted output status p st = (st', Done p') → Stays op id p p'.
Proof.
  intros (p1 & s1 & [H1 C1]%(record_stream_stays op id) & (p2 & s2 & [H2 C2]%(record_stream_stays op id) & H3)%step_bind_Done)%step_bind_Done.
  cbn zeta in H3. set (p3 := set_state _ p2) in H3.
  assert (H23 : Stays op id p2 p3).
  { apply stays_state; simpl; [|intros _; apply append_output_bound]. intros Hin.
    unfold append_output. destruct (trim_replay _ _). simpl. unfold len in *. rewrite length_drop. lia. }
  assert (C3 : mp_claimed p3 = mp_claimed p2) by done. clearbody p3.
  assert (H03 : Stays op id p p3).
  { apply (stays_trans op id p p2 p3); [congruence|done|apply (stays_trans op id p p1 p2); done|done]. }
  destruct status as [status|]; [|by injection H3 as _ <-].
  apply (finish_stays op id) in H3 as [H4 C4]. apply (stays_trans op id p p3 p'); [congruence|done..].
Qed.

Lemma write_claimed_Done claim b c c' :
  write_claimed claim b c = Done c' → ∃ p, get_claimed claim c = Done p ∧ ptys c !! cl_pty_id claim = Some p ∧
    c' = put_pty (cl_pty_id claim) (set_state (set_input (ps_input (mp_state p) ++ b) (mp_state p)) p) c ∧
    (len (ps_input (mp_state p) ++ b) ≤ MAX_INPUT_BYTES)%N.
Proof.
  unfold write_claimed. intros (p & Hp & H)%bind_Done. exists p. destruct (_ || _); [done|].
  destruct (MAX_INPUT_BYTES <? _)%N eqn:Hl; [done|]. apply N.ltb_ge in Hl. injection H as <-. rewrite len_app.
  split_and!; [done| |done|done]. unfold get_claimed in Hp. destruct (ptys c !! _); [|done].
  case_bool_decide; [congruence|done].
Qed.

(** ** The coordinator's own *)

Lemma wp_updating_coordinator f h Q R :
  (∀ c, f (coordinator h) = Done c → Q () {| coordinator := c; store := store h |}) →
  (∀ e, f (coordinator h) = Fail e → R e h) → f (coordinator h) ≠ Panic →
  wp (updating_coordinator f) Q R h.
Proof.
  intros HQ HR Hp. unfold updating_coordinator. rewrite wp_bind, wp_the_coordinator, wp_bind, wp_lift.
  destruct (f (coordinator h)); [by apply HQ|by apply HR|done].
Qed.

Lemma get_claimed_no_panic claim c : get_claimed claim c ≠ Panic.
Proof. unfold get_claimed. destruct (ptys c !! _); [case_bool_decide|]; done. Qed.

Lemma get_claimed_there claim c p :
  get_claimed claim c = Done p ↔ ptys c !! cl_pty_id claim = Some p ∧ mp_claimed p = Some (cl_claim_id claim).
Proof. unfold get_claimed. destruct (ptys c !! _); [case_bool_decide|]; naive_solver. Qed.

Lemma write_ends claim b h : HostInv h → PtyEnds (PoWrite claim b) h.
Proof.
  intros Hh. unfold PtyEnds. simpl run_pty_op. rewrite wp_silent. apply wp_updating_coordinator.
  - intros c (p & Hp & Hid & -> & Hlen)%write_claimed_Done. split; [by exists p|]. split; [|apply Hh].
    eapply effect_job; [done|]. apply stays_state; simpl; auto.
  - intros e _. apply left_same; [done|apply Hh].
  - unfold write_claimed. pose proof (get_claimed_no_panic claim (coordinator h)).
    destruct (get_claimed _ _); simpl; [|done..]. destruct (_ || _); [done|]. by destruct (_ <? _)%N.
Qed.

Lemma resize_ends claim size h : HostInv h → PtyEnds (PoResize claim size) h.
Proof.
  intros Hh. unfold PtyEnds. simpl run_pty_op. rewrite wp_silent. apply wp_updating_coordinator.
  - intros c (u & _ & (p & Hp & [= <-])%bind_Done)%bind_Done. split; [by exists p|]. split; [|apply Hh].
    eapply effect_job; [by apply get_claimed_there|]. by apply stays_state.
  - intros e _. apply left_same; [done|apply Hh].
  - unfold resize_claimed, validate_size, check. destruct (negb _); simpl; [|done].
    pose proof (get_claimed_no_panic claim (coordinator h)). by destruct (get_claimed _ _).
Qed.

Lemma read_ends claim cursor wait_ms later h : HostInv h → PtyEnds (PoRead claim cursor wait_ms later) h.
Proof.
  intros Hh. unfold PtyEnds. simpl run_pty_op. rewrite wp_bind, wp_the_coordinator, wp_answer, wp_lift.
  unfold read_claimed. destruct (get_claimed claim (coordinator h)) as [p|e|] eqn:Hp; simpl.
  - destruct (_ <? _)%N; [apply left_same; [done|apply Hh]|]. split; [by exists p|]. apply left_same; [done|apply Hh].
  - apply left_same; [done|apply Hh].
  - by apply get_claimed_no_panic in Hp.
Qed.

Lemma release_ends claim h : HostInv h → PtyEnds (PoRelease claim) h.
Proof.
  intros Hh. unfold PtyEnds. simpl run_pty_op. rewrite wp_silent, wp_set_coordinator. split; [done|]. split; [|apply Hh].
  simpl. unfold release_claim. destruct (ptys (coordinator h) !! cl_pty_id claim) as [p|] eqn:Hp; [|by apply effect_same].
  eapply effect_job; [done|]. unfold release_pty. case_bool_decide as Hc; [|apply stays_refl].
  split; [done| |by right]. intros []. split; simpl; [done|done|by intros []|done|done].
Qed.

Lemma foldr_delete_lookup {B} (m : gmap string B) ids id :
  foldr delete m ids !! id = if decide (id ∈ ids) then None else m !! id.
Proof.
  induction ids as [|id' ids IH]; [done|cbn [foldr]].
  destruct (decide (id' = id)) as [->|Hne].
  - rewrite lookup_delete_eq, decide_True by (by left). done.
  - rewrite lookup_delete_ne, IH by done. apply decide_ext. rewrite elem_of_cons. naive_solver.
Qed.

Lemma terminate_ends session_id h : HostInv h → PtyEnds (PoTerminate session_id) h.
Proof.
  intros Hh. unfold PtyEnds. simpl run_pty_op. rewrite wp_silent. unfold terminate_session. rewrite wp_bind. apply wp_jobs.
  intros l Hl. rewrite wp_bind, wp_set_coordinator, wp_ret. split; [done|]. split; [|apply Hh]. apply effect_sub; simpl.
  - apply map_subseteq_spec. intros id p. rewrite foldr_delete_lookup. by destruct (decide _).
  - intros id p Hp. rewrite foldr_delete_lookup. destruct (decide _) as [Hin|]; [|congruence]. intros _.
    apply list_elem_of_fmap in Hin as ([id' q] & -> & [Hs Hin]%list_elem_of_filter). simpl in *.
    apply (elem_of_jobs h _ _ _ Hl) in Hin. congruence.
Qed.

Lemma stop_ends h : HostInv h → PtyEnds PoStopAccepting h.
Proof.
  intros Hh. unfold PtyEnds. simpl run_pty_op. rewrite wp_silent. unfold stop_accepting. rewrite wp_set_coordinator.
  split; [done|]. apply left_same; [done|apply Hh].
Qed.

Lemma terminate_job_ends pty_id h : HostInv h → PtyEnds (PoTerminateJob pty_id) h.
Proof.
  intros Hh. unfold PtyEnds. simpl run_pty_op. rewrite wp_silent. unfold terminate. rewrite wp_bind, wp_the_coordinator.
  destruct (ptys (coordinator h) !! pty_id) as [p|] eqn:Hp; [|apply left_same; [done|apply Hh]].
  unfold remove_job. rewrite wp_bind, wp_set_coordinator, wp_ret. split; [done|]. split; [|apply Hh].
  apply effect_sub; simpl; [apply delete_subseteq|]. intros id q Hq Hgone.
  destruct (decide (pty_id = id)) as [->|Hne]; [by apply (host_job _ Hh)|]. rewrite lookup_delete_ne in Hgone by done. congruence.
Qed.

Lemma shutdown_ends h : HostInv h → PtyEnds PoShutdown h.
Proof.
  intros Hh. unfold PtyEnds. simpl run_pty_op. rewrite wp_silent. unfold shutdown_all, stop_accepting.
  rewrite wp_bind, wp_set_coordinator, wp_bind. apply wp_jobs. intros l _. rewrite wp_bind, wp_set_coordinator, wp_ret.
  split; [done|]. split; [|apply Hh]. apply effect_sub; simpl; [apply map_empty_subseteq|done].
Qed.

Lemma wp_new_v4 Q R h :
  Inv (registry (store h)) →
  (∀ id st, Inv (registry st) → Q id {| coordinator := coordinator h; store := st |}) →
  wp (in_store (io (asking new_v4))) Q R h.
Proof. intros Hi HQ. rewrite wp_in_store, wp_io, wp_asking. by apply HQ. Qed.

Lemma filter_first {B} (P : B → Prop) `{!∀ x, Decision (P x)} l x rest : filter P l = x :: rest → P x ∧ x ∈ l.
Proof. intros Hf. assert (x ∈ filter P l) as Hx by (rewrite Hf; by left). by apply list_elem_of_filter in Hx. Qed.

Lemma attach_ends_pty session_id after_offset h : HostInv h → PtyEnds (PoAttach session_id after_offset) h.
Proof.
  intros Hh. unfold PtyEnds. simpl run_pty_op. rewrite wp_answer. unfold attach_job. rewrite wp_bind. apply wp_jobs.
  intros l Hl. destruct (filter _ l) as [|[id p] rest] eqn:Hf; [apply left_same; [done|apply Hh]|].
  assert (Hp : ptys (coordinator h) !! id = Some p).
  { apply (elem_of_jobs h _ _ _ Hl). by apply filter_first in Hf as [_ Hf]. }
  rewrite wp_bind, wp_ensure. case_bool_decide as Hc; [|apply left_same; [done|apply Hh]].
  cbn zeta. rewrite wp_bind. apply wp_new_v4; [apply Hh|]. intros ticket st Hi.
  rewrite wp_bind, wp_set_coordinator, wp_ret. split; [by exists p|]. split; [|exact Hi].
  eapply effect_job; [exact Hp|]. split; [done| |by left]. intros []. split; simpl; [done|by rewrite map_size_singleton| |done|done].
  rewrite Hc. by intros [? ?].
Qed.

Lemma ticket_holder_Some ticket h l id p cursor :
  l ≡ₚ map_to_list (ptys (coordinator h)) → ticket_holder ticket l = Some (id, p, cursor) →
  ptys (coordinator h) !! id = Some p ∧ mp_tickets p !! ticket = Some cursor.
Proof.
  intros Hl Ht. unfold ticket_holder in Ht. apply head_Some_elem_of, list_elem_of_omap in Ht as ([id' q] & Hin & Hq).
  apply fmap_Some in Hq as (x & Hx & [= -> -> ->]). simpl in Hx. by apply (elem_of_jobs h _ _ _ Hl) in Hin.
Qed.

Lemma claim_ends ticket h : HostInv h → PtyEnds (PoClaim ticket) h.
Proof.
  intros Hh. unfold PtyEnds. simpl run_pty_op. rewrite wp_answer. unfold claim. rewrite wp_bind. apply wp_jobs.
  intros l Hl. destruct (ticket_holder ticket l) as [[[id p] cursor]|] eqn:Ht; [|apply left_same; [done|apply Hh]].
  destruct (ticket_holder_Some _ _ _ _ _ _ Hl Ht) as [Hp Htick].
  destruct (mp_claimed p) as [k|] eqn:Hc.
  - exfalso. pose proof (job_claimed _ _ (host_job _ Hh _ _ Hp) ltac:(by rewrite Hc)) as He. by rewrite He in Htick.
  - rewrite wp_bind. apply wp_new_v4; [apply Hh|]. intros claim_id st Hi. rewrite wp_bind, wp_set_coordinator, wp_ret.
    split; [by exists p|]. split; [|exact Hi]. eapply effect_job; [exact Hp|].
    split; [done| |by right]. intros []. split; simpl; [done|rewrite map_size_empty; lia|done..].
Qed.

(** ** Starting a job *)

Lemma wp_remove_completed session_id Q R h :
  (∀ c, accepting c = accepting (coordinator h) →
     ptys c = ptys (coordinator h) ∨ (∃ id p, ptys (coordinator h) !! id = Some p ∧ mp_session_id p = session_id ∧
       running p = false ∧ ptys c = delete id (ptys (coordinator h))) →
     Q () {| coordinator := c; store := store h |}) →
  wp (remove_completed_for_session session_id) Q R h.
Proof.
  intros HQ. unfold remove_completed_for_session. rewrite wp_bind. apply wp_jobs. intros l Hl.
  destruct (filter _ l) as [|[id p] rest] eqn:Hf.
  - rewrite wp_ret. destruct h as [c st]. apply HQ; [done|by left].
  - apply filter_first in Hf as [[Hs Hr] Hin]. apply (elem_of_jobs h _ _ _ Hl) in Hin.
    unfold remove_job. rewrite wp_set_coordinator. apply HQ; [done|]. right. by exists id, p.
Qed.

Lemma has_job_false session_id h l :
  l ≡ₚ map_to_list (ptys (coordinator h)) → has_job session_id l = false →
  ∀ id p, ptys (coordinator h) !! id = Some p → mp_session_id p ≠ session_id.
Proof.
  intros Hl Hj id p Hp. apply (elem_of_jobs h _ _ _ Hl) in Hp.
  apply (proj1 (existsb_false _ _) Hj) in Hp. by apply bool_decide_eq_false in Hp.
Qed.

(** An admission may drop the session's finished job and nothing else. *)
Lemma left_admitted session_id command cwd size terminal_type audit h h' :
  ptys (coordinator h') = ptys (coordinator h) ∨ (∃ id p, ptys (coordinator h) !! id = Some p ∧
    mp_session_id p = session_id ∧ running p = false ∧ ptys (coordinator h') = delete id (ptys (coordinator h))) →
  Inv (registry (store h')) → Left (PoAdmit session_id command cwd size terminal_type audit) h h'.
Proof.
  intros [He|(id & p & Hp & Hs & Hr & He)] Hi; [by apply left_same|]. split; [|done].
  apply effect_sub; rewrite He; [apply delete_subseteq|].
  intros id' p' Hp'. destruct (decide (id = id')) as [->|Hne]; [intros _; simpl; naive_solver|].
  rewrite lookup_delete_ne by done. congruence.
Qed.

Lemma validation_no_panic command size terminal_type :
  validate_command command ≠ Panic ∧ validate_size size ≠ Panic ∧ validate_terminal_type terminal_type ≠ Panic.
Proof.
  unfold validate_command, validate_size, validate_terminal_type, check. split_and!.
  - destruct (negb _); simpl; [by destruct (_ <=? _)%N|done].
  - by destruct (negb _).
  - destruct terminal_type; [by destruct (negb _)|done].
Qed.

Lemma admit_ends session_id command cwd size terminal_type audit h :
  HostInv h → PtyEnds (PoAdmit session_id command cwd size terminal_type audit) h.
Proof.
  intros Hh. unfold PtyEnds. simpl run_pty_op. rewrite wp_answer. unfold start_admit.
  destruct (validation_no_panic command size terminal_type) as (V1 & V2 & V3).
  assert (Hsame : Left (PoAdmit session_id command cwd size terminal_type audit) h h) by (apply left_same; [done|apply Hh]).
  rewrite wp_bind, wp_the_coordinator, wp_bind, wp_ensure. destruct (accepting _); [|done].
  rewrite wp_bind, wp_lift. destruct (validate_command command) as [[]|e|]; [|done..].
  rewrite wp_bind, wp_lift. destruct (validate_size size) as [[]|e|]; [|done..].
  rewrite wp_bind, wp_lift. destruct (validate_terminal_type terminal_type) as [[]|e|]; [|done..].
  rewrite wp_bind. apply wp_remove_completed. intros c _ Hc.
  assert (Hend : ∀ st, Inv (registry st) →
    Left (PoAdmit session_id command cwd size terminal_type audit) h {| coordinator := c; store := st |}).
  { intros st Hi. by apply left_admitted. }
  pose proof (host_registry _ Hh) as Hi.
  rewrite wp_bind. apply wp_jobs. intros l Hl. rewrite wp_bind, wp_ensure. destruct (negb _); [|by apply Hend].
  rewrite wp_bind, wp_ensure. destruct (negb _); [|by apply Hend].
  rewrite wp_bind. apply wp_new_v4; [done|]. intros pty_id st1 Hi1. rewrite wp_bind.
  assert (Hrest : ∀ st, Inv (registry st) → wp
    (in_store (begin_execution session_id pty_id "shell_terminal");;
     handle (in_store (calling (λ w, spawn_process w command cwd size terminal_type))) (λ _, mret pty_id)
       (λ error, in_store (ignoring (finish_execution session_id pty_id));; throw error))
    (λ _ h', True ∧ Left (PoAdmit session_id command cwd size terminal_type audit) h h')
    (λ _ h', Left (PoAdmit session_id command cwd size terminal_type audit) h h') {| coordinator := c; store := st |}).
  { intros st Hi2. rewrite wp_bind. apply wp_keeps; [auto with keeps|done| |by intros; apply Hend].
    intros _ st2 Hi3. rewrite wp_handle. apply wp_keeps; [auto with keeps|done|by intros; split; [|apply Hend]|].
    intros e st3 Hi4. rewrite wp_bind. apply wp_keeps; [auto with keeps|done| |by intros; apply Hend].
    intros _ st4 Hi5. rewrite wp_throw. by apply Hend. }
  destruct audit; [|rewrite wp_ret; by apply Hrest].
  apply wp_keeps; [auto with keeps|done| |by intros; apply Hend]. intros _ st2 Hi2. by apply Hrest.
Qed.

Lemma new_job_ok session_id command cwd pty_id ticket size audit :
  JobOk pty_id (new_job session_id command cwd pty_id ticket size audit).
Proof. split; simpl; [done|by rewrite map_size_singleton|by intros []|done|apply Nat.le_0_l]. Qed.

Lemma commit_ends session_id command cwd pty_id size audit h :
  HostInv h → PtyEnds (PoCommit session_id command cwd pty_id size audit) h.
Proof.
  intros Hh. unfold PtyEnds. simpl run_pty_op. rewrite wp_answer. unfold start_commit. cbn zeta.
  rewrite wp_bind. apply wp_new_v4; [apply Hh|]. intros ticket st Hi. rewrite wp_bind, wp_the_coordinator.
  set (h1 := {| coordinator := coordinator h; store := st |}).
  assert (Hrefuse : ∀ error, wp (in_store (ignoring (finish_execution session_id pty_id));; throw error)
    (λ t h', granted (PoCommit session_id command cwd pty_id size audit) (AnsTicket t) (coordinator h) ∧
       Left (PoCommit session_id command cwd pty_id size audit) h h')
    (λ _ h', Left (PoCommit session_id command cwd pty_id size audit) h h') h1).
  { intros error. rewrite wp_bind. apply wp_keeps; [auto with keeps|done| |by intros; apply left_same].
    intros _ st' Hi'. rewrite wp_throw. by apply left_same. }
  destruct (negb _); [apply Hrefuse|]. rewrite wp_bind. apply wp_jobs. intros l Hl. fold h1 in Hl.
  destruct ((MAX_ACTIVE_PTYS <=? length l)%nat || has_job session_id l) eqn:Hroom; [apply Hrefuse|].
  apply orb_false_iff in Hroom as [Hsize%Nat.leb_gt Hno]. rewrite (length_jobs h1) in Hsize by done.
  pose proof (has_job_false _ h1 _ Hl Hno) as Hnone. simpl in Hsize, Hnone.
  rewrite wp_bind, wp_set_coordinator, wp_ret. split; [done|]. split; [|done]. simpl. split; simpl.
  - intros id p' [[<- <-]|[Hne Hp']]%lookup_insert_Some.
    + right. split; [done|]. split; [apply new_job_ok|exact Hnone].
    + left. exists p'. split; [done|apply stays_refl].
  - intros id p Hp. destruct (decide (pty_id = id)) as [->|]; [by rewrite lookup_insert_eq|].
    rewrite lookup_insert_ne by done. congruence.
  - right. split; [done|]. destruct (decide (is_Some (ptys (coordinator h) !! pty_id))) as [Hs|Hn].
    + rewrite map_size_insert_Some by done. lia.
    + rewrite map_size_insert_None by (by apply eq_None_not_Some). lia.
Qed.

Lemma orphan_ends p status h : HostInv h → PtyEnds (PoOrphanFinish p status) h.
Proof.
  intros Hh. unfold PtyEnds. simpl run_pty_op. rewrite wp_silent.
  apply wp_keeps; [auto with keeps|apply Hh| |]; intros ? st Hi; [split; [done|]|]; by apply left_same.
Qed.

Lemma worker_ends op h : HostInv h →
  match op with PoWorkerRequest _ | PoWorkerExchange _ _ _ _ _ | PoWorkerFinish _ _ => PtyEnds op h | _ => True end.
Proof.
  intros Hh. destruct op; try done; unfold PtyEnds; simpl run_pty_op; apply wp_worker_at; try done.
  - intros p. apply keeps_ret.
  - intros p st st' p' [= _ <-]. by apply stays_state.
  - intros p. apply keeps_exchange.
  - intros p st st' p'. apply exchange_stays.
  - intros p. apply keeps_finish.
  - intros p st st' p' H. by apply (finish_stays (PoWorkerFinish pty_id status) pty_id) in H as [? _].
Qed.

Lemma pty_op_ends op h : HostInv h → PtyEnds op h.
Proof.
  intros Hh. pose proof (worker_ends op h Hh). destruct op; try done;
    eauto using admit_ends, commit_ends, attach_ends_pty, claim_ends, write_ends, resize_ends, read_ends, release_ends,
      terminate_ends, terminate_job_ends, stop_ends, shutdown_ends, orphan_ends.
Qed.

(** * Histories *)

(** What was asked of the coordinator, by all threads together, and what each
    was answered. *)
Inductive History : PtyHost A W → list (PtyOp * Outcome string PtyAnswer) → PtyHost A W → Prop :=
| history_start h : History h [] h
| history_op h op r h1 log h' :
    run_pty_op op h = (h1, r) → History h1 log h' → History h ((op, r) :: log) h'.

Lemma run_pty_op_left op h h' r :
  HostInv h → run_pty_op op h = (h', r) →
  r ≠ Panic ∧ Left op h h' ∧ (∀ a, r = Done a → granted op a (coordinator h)).
Proof.
  intros Hh Hrun. pose proof (pty_op_ends op h Hh) as He. unfold PtyEnds, wp in He. rewrite Hrun in He.
  destruct r as [a|e|]; [|by split_and!|done]. destruct He as [Hg Hl]. split_and!; [done..|]. by intros ? [= <-].
Qed.

Lemma run_pty_op_inv op h h' r : HostInv h → run_pty_op op h = (h', r) → HostInv h'.
Proof.
  intros Hh Hrun. destruct (run_pty_op_left _ _ _ _ Hh Hrun) as (_ & [He Hi] & _). by eapply effect_keeps.
Qed.

Lemma history_sound h log h' : HostInv h → History h log h' → HostInv h' ∧ (∀ op, (op, Panic) ∉ log).
Proof.
  intros Hh Hlog. induction Hlog as [h|h op r h1 log h' Hrun _ IH]; [split; [done|]; intros op; apply not_elem_of_nil|].
  destruct (IH (run_pty_op_inv _ _ _ _ Hh Hrun)) as [Hh' Hp]. split; [done|].
  destruct (run_pty_op_left _ _ _ _ Hh Hrun) as (Hr & _). intros op'. rewrite not_elem_of_cons. split; [congruence|done].
Qed.

(** C23: The table of terminal jobs is sound under any interleaving of requests and workers. Whatever
    was asked, nothing panicked, no session has two jobs, there are at most 64, a job has one ticket
    at most and none while a client has its stream, its queued input stays within 64 KiB and its
    replay buffer within 1 MiB, and the registry's own invariant holds. *)
Theorem terminal_jobs_stay_sound h log h' :
  HostInv h → History h log h' → HostInv h' ∧ (∀ op, (op, Panic) ∉ log).
Proof. exact (history_sound h log h'). Qed.

(** The operation neither ends the claim nor the job. *)
Definition spares (id claim_id session_id : string) (op : PtyOp) : Prop :=
  match op with
  | PoRelease claim => ¬ (cl_pty_id claim = id ∧ cl_claim_id claim = claim_id)
  | PoTerminate s => s ≠ session_id
  | PoTerminateJob pty_id => pty_id ≠ id
  | PoShutdown => False
  | PoAdmit s _ _ _ _ _ => s ≠ session_id
  | PoCommit _ _ _ pty_id _ _ => pty_id ≠ id
  | _ => True
  end.

(** The answer lets another client have the job's stream. *)
Definition intrudes (id claim_id : string) (op : PtyOp) (a : PtyAnswer) : Prop :=
  match op, a with
  | PoAttach _ _, AnsTicket t => pt_pty_id t = id
  | PoClaim _, AnsClaim cl => cl_pty_id cl = id
  | PoWrite cl _, _ | PoResize cl _, _ | PoRead cl _ _ _, _ => cl_pty_id cl = id ∧ cl_claim_id cl ≠ claim_id
  | _, _ => False
  end.

Lemma claimed_step op h h' r id p claim_id :
  HostInv h → ptys (coordinator h) !! id = Some p → mp_claimed p = Some claim_id →
  spares id claim_id (mp_session_id p) op → run_pty_op op h = (h', r) →
  (∃ p', ptys (coordinator h') !! id = Some p' ∧ mp_claimed p' = Some claim_id ∧ mp_session_id p' = mp_session_id p) ∧
  (∀ a, r = Done a → ¬ intrudes id claim_id op a).
Proof.
  intros Hh Hp Hc Hsp Hrun. destruct (run_pty_op_left _ _ _ _ Hh Hrun) as (_ & [[Ht Hg _] _] & Hgr). split.
  - destruct (ptys (coordinator h') !! id) as [p'|] eqn:Hp'.
    + exists p'. split; [done|]. destruct (Ht _ _ Hp') as [(q & Hq & [Hs _ Hcl])|(Ha & _ & _)].
      * simplify_eq. split; [|done]. destruct Hcl as [->|Hcl]; [done|]. destruct op; try done; simpl in *.
        -- congruence.
        -- destruct Hcl as [? ?]. exfalso. apply Hsp. split; congruence.
      * destruct op; try done. simpl in *. by destruct Ha as [-> _].
    + exfalso. specialize (Hg _ _ Hp Hp'). pose proof (job_id _ _ (host_job _ Hh _ _ Hp)).
      destruct op; try done; simpl in *; naive_solver.
  - intros a Hr Hin. specialize (Hgr _ Hr). destruct op, a; try done; simpl in *;
      first [destruct Hgr as (q & [Hq Hk]%get_claimed_there), Hin; simplify_eq; congruence
            |destruct Hgr as (q & Hq & Hk); simplify_eq; congruence].
Qed.

(** A claimed terminal belongs to one client. From the moment a client has claimed a job's stream,
    and until it releases the claim or the session's job is ended, no other client is given a ticket
    or a claim for it, and no read, input or resize under any other claim succeeds, however requests
    interleave. *)
Lemma claim_is_exclusive h log h' id p claim_id :
  HostInv h → History h log h' → ptys (coordinator h) !! id = Some p → mp_claimed p = Some claim_id →
  (∀ op r, (op, r) ∈ log → spares id claim_id (mp_session_id p) op) →
  (∃ p', ptys (coordinator h') !! id = Some p' ∧ mp_claimed p' = Some claim_id) ∧
  (∀ op a, (op, Done a) ∈ log → ¬ intrudes id claim_id op a).
Proof.
  intros Hh Hlog. revert p. induction Hlog as [h|h op r h1 log h' Hrun _ IH]; intros p Hp Hc Hsp.
  - split; [by exists p|]. intros op a. by intros ?%not_elem_of_nil.
  - destruct (claimed_step _ _ _ _ _ _ _ Hh Hp Hc ltac:(eapply Hsp; by left) Hrun) as [(p1 & Hp1 & Hc1 & Hs1) Hno].
    destruct (IH (run_pty_op_inv _ _ _ _ Hh Hrun) p1 Hp1 Hc1) as [Hend Hnone].
    { intros op' r' Hin. rewrite Hs1. apply (Hsp op' r'). by right. }
    split; [done|]. intros op' a [Heq|Hin]%elem_of_cons; [|by apply Hnone].
    simplify_eq. by apply Hno.
Qed.

(** * Starting is all or nothing *)

Lemma wp_begin_exact st id operation_id route rec (Q : () → Store A W → Prop) (R : string → Store A W → Prop) :
  Inv (registry st) → NoOrphans (registry st) →
  (∀ st', in_flight (registry st') =
     (if is_durable rec then <[id := {| if_session_id := id; if_operation_id := operation_id; if_route := route |}]>
        (in_flight (registry st)) else in_flight (registry st)) →
     Inv (registry st') → sessions (registry st) !! id = Some rec → in_flight (registry st) !! id = None → Q () st') →
  (∀ e st', in_flight (registry st') = in_flight (registry st) → R e st') →
  (sessions (registry st) !! id = Some rec ∨ sessions (registry st) !! id = None) →
  wp (begin_execution id operation_id route) Q R st.
Proof.
  intros Hi Hno HQ HR Hrec. unfold begin_execution. rewrite wp_bind. apply wp_record_of; [|intros _; by apply HR].
  intros rec' Hid. assert (rec' = rec) as -> by (destruct Hrec; congruence).
  destruct (is_durable rec) eqn:Hd; cbn [negb].
  - rewrite wp_bind, wp_the_registry, wp_bind, wp_ensure. case_bool_decide as Hnone; [|by apply HR].
    rewrite wp_bind, wp_changing, wp_handle.
    assert (Hi' : Inv (set_in_flight <[id := {| if_session_id := id; if_operation_id := operation_id; if_route := route |}]> (registry st))).
    { apply Inv_in_flight; [done|]. intros id' op [[<- <-]|[_ ?]]%lookup_insert_Some; [done|]. by apply (inv_in_flight _ Hi). }
    apply wp_persisting; [exact Hi'| |].
    + intros text d _ _. rewrite wp_ret. by apply HQ.
    + intros e d _. rewrite wp_bind, wp_changing, wp_throw. apply HR. simpl. by rewrite delete_insert_id.
  - rewrite wp_ret. apply HQ; [done..|]. apply eq_None_not_Some. intros [op Hop].
    destruct (Hno _ _ Hop) as (rec' & Hid' & Hd'). congruence.
Qed.

Lemma wp_finish_exact st id operation_id (Q : () → Store A W → Prop) (R : string → Store A W → Prop) :
  Inv (registry st) →
  (∀ st', in_flight (registry st') =
     (if bool_decide (if_operation_id <$> in_flight (registry st) !! id = Some operation_id)
      then delete id (in_flight (registry st)) else in_flight (registry st)) → Q () st' ∧ ∀ e, R e st') →
  wp (finish_execution id operation_id) Q R st.
Proof.
  intros Hi HQ. unfold finish_execution. rewrite wp_bind, wp_the_registry. case_bool_decide as Hop.
  - rewrite wp_bind, wp_changing. apply wp_persisting.
    + apply Inv_in_flight; [done|]. intros id' op [_ Ho]%lookup_delete_Some. by apply (inv_in_flight _ Hi).
    + intros text d _ _. by apply HQ.
    + intros e d _. by apply HQ.
  - rewrite wp_ret. by apply HQ.
Qed.

(** What was begun, if anything, is taken back. *)
Lemma wp_taken_back h (before : gmap string DurableInFlight) session_id op (error : string) {B}
    (Q : B → PtyHost A W → Prop) (R : string → PtyHost A W → Prop) (durable : bool) :
  Inv (registry (store h)) → before !! session_id = None →
  in_flight (registry (store h)) = (if durable then <[session_id := op]> before else before) →
  (∀ st', in_flight (registry st') = before → R error {| coordinator := coordinator h; store := st' |}) →
  wp (in_store (ignoring (finish_execution session_id (if_operation_id op)));; throw error) Q R h.
Proof.
  intros Hi Hnone Hfl HR. rewrite wp_bind, wp_in_store. unfold ignoring. rewrite wp_handle.
  assert (Hback : (if bool_decide (if_operation_id <$> in_flight (registry (store h)) !! session_id = Some (if_operation_id op))
    then delete session_id (in_flight (registry (store h))) else in_flight (registry (store h))) = before).
  { rewrite Hfl. destruct durable.
    - rewrite lookup_insert_eq. simpl. rewrite bool_decide_true by done. by rewrite delete_insert_id.
    - rewrite Hnone. done. }
  apply wp_finish_exact; [done|]. intros st' Hst'. rewrite Hback in Hst'.
  split; [|intros e]; rewrite wp_ret, wp_throw; by apply HR.
Qed.

Lemma wp_asks {B} (f : W → B * W) Q R h :
  (∀ b st, registry st = registry (store h) → Q b {| coordinator := coordinator h; store := st |}) →
  wp (in_store (io (asking f))) Q R h.
Proof. intros HQ. rewrite wp_in_store, wp_io, wp_asking. by apply HQ. Qed.

Lemma wp_calls (f : W → option string * W) Q R h :
  (∀ st, registry st = registry (store h) → Q () {| coordinator := coordinator h; store := st |}) →
  (∀ e st, registry st = registry (store h) → R e {| coordinator := coordinator h; store := st |}) →
  wp (in_store (calling f)) Q R h.
Proof.
  intros HQ HR. rewrite wp_in_store. unfold calling. rewrite wp_bind, wp_io, wp_asking.
  destruct (f _).1; [rewrite wp_throw|rewrite wp_ret]; auto.
Qed.

(** The table after an admission. *)
Definition AfterAdmission (session_id : string) (c c' : PtyCoordinator) : Prop :=
  ptys c' = ptys c ∨ ∃ id p, ptys c !! id = Some p ∧ mp_session_id p = session_id ∧ running p = false ∧
    ptys c' = delete id (ptys c).

Definition operation (session_id pty_id : string) : DurableInFlight := {|
  if_session_id := session_id; if_operation_id := pty_id; if_route := "shell_terminal" |}.

(** What [start] leaves when it succeeds. *)
Record Started (session_id command cwd : string) (size : PtySize) (audit : option (option (option N))) h
    (t : PtyTicket) h' : Prop := {
  started_table : ∃ c, AfterAdmission session_id (coordinator h) c ∧
    ptys (coordinator h') = <[pt_pty_id t := new_job session_id command cwd (pt_pty_id t) (pt_ticket t) size audit]> (ptys c) ∧
    ∀ id p, ptys c !! id = Some p → mp_session_id p ≠ session_id;
  started_session : ∃ rec, sessions (registry (store h)) !! session_id = Some rec ∧
    in_flight (registry (store h')) = if is_durable rec
      then <[session_id := operation session_id (pt_pty_id t)]> (in_flight (registry (store h)))
      else in_flight (registry (store h));
}.

(** And what it leaves when it fails. *)
Record Unstarted (session_id : string) h h' : Prop := {
  unstarted_table : AfterAdmission session_id (coordinator h) (coordinator h');
  unstarted_operations : in_flight (registry (store h')) = in_flight (registry (store h));
}.

(** What an admission leaves: the operation begun, if the session is durable. *)
Record Begun (session_id : string) h (pty_id : string) h' : Prop := {
  begun_table : AfterAdmission session_id (coordinator h) (coordinator h');
  begun_registry : Inv (registry (store h'));
  begun_idle : in_flight (registry (store h)) !! session_id = None;
  begun_session : ∃ rec, sessions (registry (store h)) !! session_id = Some rec ∧
    in_flight (registry (store h')) = if is_durable rec
      then <[session_id := operation session_id pty_id]> (in_flight (registry (store h)))
      else in_flight (registry (store h));
}.

Lemma admit_begins session_id command cwd size terminal_type audit h :
  HostInv h → NoOrphans (registry (store h)) →
  wp (start_admit session_id command cwd size terminal_type audit) (Begun session_id h) (λ _, Unstarted session_id h) h.
Proof.
  intros Hh Hno. unfold start_admit. destruct (validation_no_panic command size terminal_type) as (V1 & V2 & V3).
  assert (Hsame : Unstarted session_id h h) by (split; [by left|done]).
  rewrite wp_bind, wp_the_coordinator, wp_bind, wp_ensure. destruct (accepting _); [|done].
  rewrite wp_bind, wp_lift. destruct (validate_command command) as [[]|e|]; [|done..].
  rewrite wp_bind, wp_lift. destruct (validate_size size) as [[]|e|]; [|done..].
  rewrite wp_bind, wp_lift. destruct (validate_terminal_type terminal_type) as [[]|e|]; [|done..].
  rewrite wp_bind. apply wp_remove_completed. intros c _ Hc.
  assert (Hend : ∀ st, in_flight (registry st) = in_flight (registry (store h)) →
    Unstarted session_id h {| coordinator := c; store := st |}) by (intros st Hst; by split).
  rewrite wp_bind. apply wp_jobs. intros l Hl. rewrite wp_bind, wp_ensure. destruct (negb _); [|by apply Hend].
  rewrite wp_bind, wp_ensure. destruct (negb _); [|by apply Hend].
  rewrite wp_bind. apply wp_asks. intros pty_id st1 Hr1. rewrite wp_bind. cbn [coordinator store] in *.
  assert (Hrest : ∀ st, registry st = registry (store h) → wp
    (in_store (begin_execution session_id pty_id "shell_terminal");;
     handle (in_store (calling (λ w, spawn_process w command cwd size terminal_type))) (λ _, mret pty_id)
       (λ error, in_store (ignoring (finish_execution session_id pty_id));; throw error))
    (Begun session_id h) (λ _, Unstarted session_id h) {| coordinator := c; store := st |}).
  { intros st Hr. rewrite wp_bind, wp_in_store. cbn [coordinator store].
    destruct (sessions (registry (store h)) !! session_id) as [rec|] eqn:Hrec.
    2: { unfold begin_execution. rewrite wp_bind. apply wp_record_of; [rewrite Hr; congruence|]. intros _. apply Hend. by rewrite Hr. }
    apply (wp_begin_exact st session_id pty_id "shell_terminal" rec); [by rewrite Hr; apply Hh|by rewrite Hr| | |left; by rewrite Hr].
    2: { intros e st' Hst'. apply Hend. by rewrite Hst', Hr. }
    rewrite Hr. intros st' Hst' Hi' _ Hidle. rewrite wp_handle. apply wp_calls; cbn [coordinator store].
    - intros st2 Hr2. rewrite wp_ret. split; cbn [coordinator store]; rewrite ?Hr2; [done|done|done|]. exists rec. by split.
    - intros e st2 Hr2.
      apply (wp_taken_back _ (in_flight (registry (store h))) session_id (operation session_id pty_id) e _ _ (is_durable rec));
        cbn [coordinator store]; rewrite ?Hr2; [done|done|done|]. intros st3 Hst3. by apply Hend. }
  destruct audit; [|rewrite wp_ret; apply Hrest; by rewrite Hr1].
  apply wp_calls; cbn [coordinator store].
  - intros st2 Hr2. apply Hrest. by rewrite Hr2, Hr1.
  - intros e st2 Hr2. apply Hend. by rewrite Hr2, Hr1.
Qed.

Lemma commit_starts session_id command cwd pty_id size audit h h1 :
  Begun session_id h pty_id h1 →
  wp (start_commit session_id command cwd pty_id size audit)
    (Started session_id command cwd size audit h) (λ _, Unstarted session_id h) h1.
Proof.
  intros [Hc Hi Hidle (rec & Hrec & Hfl)]. unfold start_commit. cbn zeta.
  rewrite wp_bind. apply wp_asks. intros ticket st Hr. rewrite wp_bind, wp_the_coordinator. cbn [coordinator store].
  set (h2 := {| coordinator := coordinator h1; store := st |}).
  assert (Hrefuse : ∀ error, wp (in_store (ignoring (finish_execution session_id pty_id));; throw error)
    (Started session_id command cwd size audit h) (λ _, Unstarted session_id h) h2).
  { intros error.
    apply (wp_taken_back h2 (in_flight (registry (store h))) session_id (operation session_id pty_id) error _ _ (is_durable rec));
      subst h2; cbn [coordinator store]; rewrite ?Hr; [done|done|done|]. intros st3 Hst3. by split. }
  destruct (negb _); [apply Hrefuse|]. rewrite wp_bind. apply wp_jobs. intros l Hl.
  destruct ((MAX_ACTIVE_PTYS <=? length l)%nat || has_job session_id l) eqn:Hroom; [apply Hrefuse|].
  apply orb_false_iff in Hroom as [_ Hfree].
  pose proof (has_job_false _ h2 _ Hl Hfree) as Hnone.
  rewrite wp_bind, wp_set_coordinator, wp_ret. subst h2; cbn [coordinator store] in *. split.
  - exists (coordinator h1). by split_and!.
  - exists rec. split; [done|]. simpl. rewrite Hr. exact Hfl.
Qed.

(** Starting a terminal job is all or nothing. If it is refused - by the limits, the session's other
    job or operation, the audit service, the state file, the spawn or a shutdown - no job is added
    and the session's operation in flight is what it was, so the session is as free as before; if it
    succeeds the session has exactly the job that was asked for, with the ticket that was answered,
    and, when it is durable, that job recorded as its operation in flight. A finished job of the same
    session is the only thing either may drop. *)
Lemma start_is_all_or_nothing session_id command cwd size terminal_type audit h :
  HostInv h → NoOrphans (registry (store h)) →
  wp (start session_id command cwd size terminal_type audit)
    (Started session_id command cwd size audit h) (λ _, Unstarted session_id h) h.
Proof.
  intros Hh Hno. unfold start. rewrite wp_bind. eapply wp_wand; [by apply admit_begins| |done].
  intros pty_id h1 Hb. by apply commit_starts.
Qed.
End jobs.

(** * Jobs that are run *)

Section perform.
Context {A W : Type} `{!StateSerde A, !SessionHost W, !PtyWorld A W}.

Fixpoint perform (ops : list PtyOp) (h : PtyHost A W) : list (PtyOp * Outcome string PtyAnswer) * PtyHost A W :=
  match ops with
  | [] => ([], h)
  | op :: ops =>
      let '(h, r) := run_pty_op op h in let '(log, h) := perform ops h in ((op, r) :: log, h)
  end.

Lemma perform_history ops h : History h (perform ops h).1 (perform ops h).2.
Proof.
  revert h. induction ops as [|op ops IH]; intros h; simpl; [constructor|].
  destruct (run_pty_op op h) as [h1 r] eqn:Hr. specialize (IH h1). destruct (perform ops h1) as [log h']. by econstructor.
Qed.
End perform.

#[local] Instance sample_pty_world : PtyWorld () N := {|
  spawn_process w _ _ _ _ := (None, w); audit_append w _ := (None, w); base64_encode b := of_chars b |}.

Definition sample_pty_host : PtyHost () N :=
  {| coordinator := {| ptys := ∅; accepting := true |}; store := sample_created |}.

Definition sample_size : PtySize := {| rows := 24; columns := 80 |}.
Definition sample_opening : list PtyOp := [
  PoAdmit "id-0" "bash" "/home/rich" sample_size None None;
  PoCommit "id-0" "bash" "/home/rich" "id-1" sample_size None;
  PoClaim "id-2"].
Definition sample_intrusion : list PtyOp := [
  PoAttach "id-0" None; PoClaim "id-2"; PoWrite {| cl_pty_id := "id-1"; cl_claim_id := "other"; cl_cursor := 0 |} [];
  PoWorkerExchange "id-1" [] 0 (chars "$ ") None].

Lemma sample_pty_inv : HostInv sample_pty_host ∧ NoOrphans (registry (store sample_pty_host)).
Proof.
  destruct (reach_good _ sample_created_reach) as [Hi Hno _]. split; [|done].
  split; simpl; [intros id p; by rewrite lookup_empty|intros id id' p p'; by rewrite lookup_empty|apply Nat.le_0_l|done].
Qed.

Example sample_terminal :
  let '(log, h) := perform sample_opening sample_pty_host in
  let '(log', h) := perform sample_intrusion h in
  snd <$> (log ++ log') = [
    Done (AnsId "id-1"); Done (AnsTicket {| pt_pty_id := "id-1"; pt_ticket := "id-2"; pt_replay_from := 0 |});
    Done (AnsClaim {| cl_pty_id := "id-1"; cl_claim_id := "id-3"; cl_cursor := 0 |});
    Fail "terminal job is already attached"; Fail "unknown or expired PTY stream ticket";
    Fail "PTY stream claim is no longer active"; Done AnsNothing].
Proof. vm_compute. reflexivity. Qed.

Lemma terminal_jobs_stay_sound_witness :
  HostInv (perform sample_opening sample_pty_host).2.
Proof.
  exact (proj1 (terminal_jobs_stay_sound sample_pty_host _ _ (proj1 sample_pty_inv)
    (perform_history sample_opening sample_pty_host))).
Defined.

Lemma start_is_all_or_nothing_witness :
  wp (start "id-0" "bash" "/home/rich" sample_size None None)
    (Started "id-0" "bash" "/home/rich" sample_size None sample_pty_host)
    (λ _, Unstarted "id-0" sample_pty_host) sample_pty_host ∧
  (start "id-0" "bash" "/home/rich" sample_size None None sample_pty_host).2 =
    Done {| pt_pty_id := "id-1"; pt_ticket := "id-2"; pt_replay_from := 0 |}.
Proof.
  split; [|vm_compute; reflexivity].
  apply (start_is_all_or_nothing "id-0" "bash" "/home/rich" sample_size None None sample_pty_host);
    [exact (proj1 sample_pty_inv)|exact (proj2 sample_pty_inv)].
Defined.

Lemma claim_is_exclusive_witness :
  let h := (perform sample_opening sample_pty_host).2 in
  ∃ p', ptys (coordinator (perform sample_intrusion h).2) !! "id-1" = Some p' ∧ mp_claimed p' = Some "id-3".
Proof.
  intros h.
  assert (Hp : ∃ p, ptys (coordinator h) !! "id-1" = Some p ∧ mp_claimed p = Some "id-3" ∧ mp_session_id p = "id-0")
    by (eexists; split_and!; vm_compute; reflexivity).
  destruct Hp as (p & Hp & Hc & Hs).
  refine (proj1 (claim_is_exclusive h (perform sample_intrusion h).1 _ "id-1" p "id-3" _ (perform_history _ _) Hp Hc _)).
  - exact (proj1 (history_sound sample_pty_host _ _ (proj1 sample_pty_inv)
      (perform_history sample_opening sample_pty_host))).
  - rewrite Hs. intros op r Hin.
    assert (op ∈ sample_intrusion) as Hop.
    { assert ((perform sample_intrusion h).1.*1 = sample_intrusion) as <- by (vm_compute; reflexivity).
      apply list_elem_of_fmap. exists (op, r). split; [reflexivity|exact Hin]. }
    clear -Hop. revert Hop. unfold sample_intrusion. rewrite !elem_of_cons, elem_of_nil.
    intros [->|[->|[->|[->|[]]]]]; done.
Defined.
