(* ===== verification/Turns.v ===== *)
(** The turns of the session daemon
    ([crates/xshell-session/src/execution.rs], [ExecutionCoordinator]): how an
    input is accepted, what the thread of a turn does around the turn itself,
    and what clients may ask about it. The journal of one session is
    [Execution], the turn of an agent is [Engine].

    A [SessionExecution] is shared by the table of sessions and by the turns
    that run in it, also after the session was closed: [executions] are all of
    them, and a number stands for an [Arc]. Each function does what the code
    does with the locks it takes; [submit] and [run_turn] let go of them in
    between, which is why they are several functions. Threads, the runtime, the
    clock and the audit service are the class [TurnWorld]; the text of an error
    is that of [{:#}]. *)
From Stdlib Require Import Ascii.
From S2P Require Import Prelude Sensitive Policy Budget Compaction CallId Chat Engine Effects.
From S2P Require Import AuditModel SessionModel Registry Execution Pty.

Class TurnWorld (A W : Type) := {
  (** In milliseconds; nothing before the epoch. *)
  duration_since_epoch : W → option N * W;
  spawn_turn : W → string → option string * W;
  is_finished : W → string → bool * W;
  new_runtime : W → option string * W;
  (** The audit stream of a session, opened with its name, host and user. *)
  open_audit : W → string → string * string * string * string → W;
  append_audit : W → string → AuditEvent A → option string * W;
}.

(** [error.context(message)]. *)
Definition context (message error : string) : string := message +:+ ": " +:+ error.

Record DaemonPolicy := {
  dp_max_approval : ApprovalPolicy;
  dp_max_limits : TurnLimits;
  dp_sensitive_paths : SensitivePaths;
  dp_blocked_paths : SensitivePaths;
  dp_rules : Policy;
  dp_compaction : CompactionConfig;
}.

Definition daemon_policy_default : DaemonPolicy := {|
  dp_max_approval := Ask; dp_max_limits := limits_relaxed; dp_sensitive_paths := sensitive_default;
  dp_blocked_paths := sensitive_none; dp_rules := {| always_allowed := []; allowed := None; denied := [] |};
  dp_compaction := config_default |}.

(** How the run of a turn ended: an error is its text and whether a
    [BudgetExhausted] is in its chain. *)
Inductive TurnResult : Type := TurnOk | TurnErr (message : string) (budget : bool).

Section turns.
Context {A W : Type} `{!StateSerde A, !SessionHost W, !PtyWorld A W, !EventSerde A, !TurnWorld A W}.
Abbreviation State := (ExecutionState A).
Abbreviation Kind := (SessionEventKind A).

(** What [submit] gives to the thread of a turn, and the state of that
    thread: [t_cancellation] is the execution that holds the turn's flag,
    [t_execution] the one it reports to. *)
Record Turn := {
  t_session_id : string;
  t_turn_id : string;
  t_input : TurnInput;
  t_approval : ApprovalPolicy;
  t_limits : TurnLimits;
  t_overlay : option Policy;
  t_snapshot : SessionSnapshot A;
  t_cancellation : nat;
  t_execution : nat;
  t_audit_failure : option string;
}.

Record Daemon := {
  executions : list State;
  by_session : gmap string nat;
  admission : bool;
  workers : list string;
  policy : DaemonPolicy;
  pty_host : PtyHost A W;
}.

Abbreviation M := (Step Daemon string).

Definition set_execution (r : nat) (t : Turn) : Turn := {|
  t_session_id := t_session_id t; t_turn_id := t_turn_id t; t_input := t_input t; t_approval := t_approval t;
  t_limits := t_limits t; t_overlay := t_overlay t; t_snapshot := t_snapshot t;
  t_cancellation := t_cancellation t; t_execution := r; t_audit_failure := t_audit_failure t |}.
Definition set_snapshot (s : SessionSnapshot A) (t : Turn) : Turn := {|
  t_session_id := t_session_id t; t_turn_id := t_turn_id t; t_input := t_input t; t_approval := t_approval t;
  t_limits := t_limits t; t_overlay := t_overlay t; t_snapshot := s;
  t_cancellation := t_cancellation t; t_execution := t_execution t; t_audit_failure := t_audit_failure t |}.
Definition set_audit_failure (error : string) (t : Turn) : Turn := {|
  t_session_id := t_session_id t; t_turn_id := t_turn_id t; t_input := t_input t; t_approval := t_approval t;
  t_limits := t_limits t; t_overlay := t_overlay t; t_snapshot := t_snapshot t;
  t_cancellation := t_cancellation t; t_execution := t_execution t; t_audit_failure := Some error |}.

Definition set_executions (l : list State) (m : gmap string nat) (d : Daemon) : Daemon := {|
  executions := l; by_session := m; admission := admission d; workers := workers d; policy := policy d;
  pty_host := pty_host d |}.
Definition set_workers (l : list string) (d : Daemon) : Daemon := {|
  executions := executions d; by_session := by_session d; admission := admission d; workers := l;
  policy := policy d; pty_host := pty_host d |}.
Definition set_admission (b : bool) (d : Daemon) : Daemon := {|
  executions := executions d; by_session := by_session d; admission := b; workers := workers d;
  policy := policy d; pty_host := pty_host d |}.
Definition set_pty_host (h : PtyHost A W) (d : Daemon) : Daemon := {|
  executions := executions d; by_session := by_session d; admission := admission d; workers := workers d;
  policy := policy d; pty_host := h |}.

Definition in_pty {B} (m : Step (PtyHost A W) string B) : M B := zoom pty_host set_pty_host m.
Definition in_registry {B} (m : Step (Store A W) string B) : M B := in_pty (in_store m).
Definition asks {B} (f : W → B * W) : M B := in_registry (io (asking f)).
Definition calls (f : W → option string * W) : M () := in_registry (calling f).

(** [Result] as a value. *)
Definition attempt {B} (m : M B) : M (string + B) := handle m (λ b, mret (inr b)) (λ e, mret (inl e)).

(** ** Executions *)

(** A function of the state behind a reference. *)
Definition on_execution (r : nat) (f : State → Outcome string State) : M () :=
  d ← get;
  s ← lift (expect (executions d !! r));
  s ← lift (f s);
  modify (λ d, set_executions (<[r := s]> (executions d)) (by_session d) d).

Definition the_execution (r : nat) : M State := d ← get; lift (expect (executions d !! r)).

(** [ExecutionCoordinator::session]. *)
Definition session (session_id : string) : M nat :=
  d ← get;
  match by_session d !! session_id with
  | Some r => mret r
  | None =>
      let r := length (executions d) in
      modify (set_executions (executions d ++ [execution_new]) (<[session_id := r]> (by_session d)));;
      mret r
  end.

Definition now_ms : M N :=
  now ← asks duration_since_epoch; mret (N.min (default 0%N now) U64_MAX).

Definition append_event (r : nat) (turn_id : string) (event : Kind) : M () :=
  now ← now_ms; on_execution r (append_locked now turn_id event).
Definition conclude_turn (r : nat) (turn_id : string) (event : Kind) : M () :=
  now ← now_ms; on_execution r (conclude now turn_id event).
Definition finish_turn (r : nat) (turn_id : string) : M () :=
  on_execution r (λ s, Done (finish_locked turn_id s)).

(** ** Audit *)

Definition audit_handle_for_snapshot (s : SessionSnapshot A) : M string :=
  let d := s_descriptor s in
  asks (λ w, ((), open_audit w (d_id d) (d_name d, d_host_id d, d_host_alias d, d_user d)));;
  mret (d_id d).

Definition audit_handle (session_id : string) : M string :=
  s ← in_registry (snapshot session_id); audit_handle_for_snapshot s.

Definition append_to (handle : string) (event : AuditEvent A) : M () :=
  calls (λ w, append_audit w handle event).

(** The stream a turn writes to. *)
Definition audit_id (t : Turn) : string := d_id (s_descriptor (t_snapshot t)).

(** ** Accepting a turn *)

Fixpoint finished_among (l : list string) : M (list string) :=
  match l with
  | [] => mret []
  | worker :: l =>
      finished ← asks (λ w, is_finished w worker);
      l ← finished_among l;
      mret (if finished : bool then worker :: l else l)
  end.

Definition reap_finished_workers : M () :=
  d ← get;
  finished ← finished_among (workers d);
  modify (λ d, set_workers (filter (λ w, w ∉ finished) (workers d)) d).

Definition is_agent (input : TurnInput) : bool := match input with TurnAgent _ => true | TurnShell _ => false end.

Definition route (input : TurnInput) : string := match input with TurnAgent _ => "agent" | TurnShell _ => "shell" end.
Definition route_text (input : TurnInput) : string :=
  match input with TurnAgent message => message | TurnShell command => "$" +:+ command end.

(** [submit] up to the reservation: the turn and its first event. *)
Definition submit_reserve (session_id : string) (input : TurnInput) (requested_approval : ApprovalPolicy)
    (requested_limits : option TurnLimits) (overlay : option Policy) : M (Turn * Kind) :=
  d ← get;
  ensure (admission d) "session execution is shutting down";;
  reap_finished_workers;;
  let approval := clamp_to requested_approval (dp_max_approval (policy d)) in
  let requested_limits := default limits_default requested_limits in
  let '(limits, lowered) := limits_clamp_to requested_limits (dp_max_limits (policy d)) in
  snapshot ← in_registry (snapshot session_id);
  r ← session session_id;
  turn_id ← asks new_v4;
  on_execution r (reserve turn_id);;
  mret ({| t_session_id := session_id; t_turn_id := turn_id; t_input := input; t_approval := approval;
           t_limits := limits; t_overlay := overlay; t_snapshot := snapshot; t_cancellation := r;
           t_execution := r; t_audit_failure := None |},
        KTurnStarted input approval
          (if bool_decide (approval = requested_approval) then None else Some requested_approval)
          (if is_agent input then Some limits else None)
          (if lowered && is_agent input then Some requested_limits else None)).

(** Its record of the input and of the operation, and the first event. *)
Definition submit_accept (t : Turn) (started : Kind) : M () :=
  let refuse_turn (error : string) : M () := finish_turn (t_execution t) (t_turn_id t);; throw error in
  stream ← audit_handle_for_snapshot (t_snapshot t);
  handle (append_to stream (EvInput (route (t_input t)) (route_text (t_input t)))) mret refuse_turn;;
  handle (in_registry (begin_execution (audit_id t) (t_turn_id t) (route (t_input t)))) mret
    (λ error, refuse_turn (context "cannot persist accepted session operation" error));;
  append_event (t_execution t) (t_turn_id t) started.

(** The rest, with the lock on the admission: the turn's name slices its id,
    which is 36 ASCII characters. *)
Definition submit_spawn (t : Turn) : M string :=
  d ← get;
  if negb (admission d) then
    in_registry (finish_execution (audit_id t) (t_turn_id t));;
    conclude_turn (t_execution t) (t_turn_id t) KTurnCancelled;;
    throw "session execution is shutting down"
  else
    handle (calls (λ w, spawn_turn w (t_turn_id t)))
      (λ _, modify (λ d, set_workers (workers d ++ [t_turn_id t]) d);; mret (t_turn_id t))
      (λ error,
        persistence ← attempt (in_registry (finish_execution (t_session_id t) (t_turn_id t)));
        conclude_turn (t_execution t) (t_turn_id t) (KTurnFailed error None);;
        match persistence with
        | inl e => throw (context "cannot clear unstarted session operation" e)
        | inr _ => throw (context "cannot start session turn" error)
        end).

Definition submit (session_id : string) (input : TurnInput) (requested_approval : ApprovalPolicy)
    (requested_limits : option TurnLimits) (overlay : option Policy) : M string :=
  '(t, started) ← submit_reserve session_id input requested_approval requested_limits overlay;
  submit_accept t started;;
  submit_spawn t.

(** ** The thread of a turn *)

(** The policy of an agent's turn; [args_text] and [overhead] are those of
    [Engine.turn_policy_new]. *)
Definition turn_policy (args_text : A → string) (overhead : N) (p : DaemonPolicy) (t : Turn) : TurnPolicy A :=
  let model := d_model (s_descriptor (t_snapshot t)) in
  let new := turn_policy_new args_text overhead (t_approval t) in {|
    tp_approval := tp_approval new;
    tp_sensitive_paths := dp_sensitive_paths p;
    tp_blocked_paths := dp_blocked_paths p;
    tp_rules := {| base := dp_rules p; overlay := t_overlay t |};
    tp_compactor := build args_text overhead (for_model (dp_compaction p) {|
      model_max_history_bytes := mb_max_history_bytes model;
      model_context_tokens := mb_context_tokens model;
      model_reserve_output_tokens := mb_reserve_output_tokens model |});
    tp_tools := tp_tools new;
    tp_agent_scope := tp_agent_scope new |}.

(** [run_turn] up to the turn: nothing when there is no runtime for it. *)
Definition run_begin (t : Turn) : M (option Turn) :=
  r ← session (t_session_id t);
  handle (calls new_runtime) (λ _, mret (Some (set_execution r t)))
    (λ error, conclude_turn r (t_turn_id t) (KTurnFailed error None);; mret None).

Definition cancel_flag (t : Turn) : M () := on_execution (t_cancellation t) (λ s, Done (set_flag (t_turn_id t) s)).

(** [DaemonObserver::audit]. *)
Definition observer_audit (event : AuditEvent A) (t : Turn) : M Turn :=
  match t_audit_failure t with
  | Some _ => mret t
  | None =>
      handle (append_to (audit_id t) event) (λ _, mret t)
        (λ error, cancel_flag t;; mret (set_audit_failure error t))
  end.

Definition decision_text (d : ApprovalDecision) : string :=
  match d with DecideApprove => "approve" | DecideDeny => "deny" | AbortTurn => "abort_turn" end.

(** The record of an event, in [audit_execution]. *)
Fixpoint execution_record (event : Event A) : option (AuditEvent A) :=
  match event with
  | TextDelta _ | ApprovalRequested _ _ | TurnAborted => None
  | AgentResponse content tool_call_count partial reasoning finish_reason =>
      Some (EvAgentResponse content (N.of_nat tool_call_count) partial reasoning finish_reason)
  | AutoContinued reason prompt => Some (EvAutoContinued reason prompt)
  | ToolRequested call => Some (EvToolRequested (call_id call) (call_name call) (call_arguments call))
  | ToolDecision call_id decision => Some (EvToolDecision call_id (decision_text decision))
  | ToolSkipped call_id _ => Some (EvToolDecision call_id "skipped_after_abort")
  | ToolResult call_id name result => Some (EvToolResult call_id name result)
  | HistoryCompacted r =>
      Some (EvHistoryCompacted (report_compactor r) (N.of_nat (messages_before r)) (N.of_nat (messages_after r))
        (bytes_before r) (bytes_after r) (N.of_nat (turns_removed r)))
  | SubagentStarted agent task tools => Some (EvSubagentStarted agent task tools)
  | Subagent _ event => execution_record event
  | SubagentFinished agent outcome message => Some (EvSubagentFinished agent outcome message)
  end.

Definition audit_execution (event : Event A) (t : Turn) : M Turn :=
  match execution_record event with Some e => observer_audit e t | None => mret t end.

(** [DaemonObserver::emit]. *)
Definition observe (event : Event A) (t : Turn) : M Turn :=
  t ← audit_execution event t;
  now ← now_ms;
  on_execution (t_execution t) (Execution.emit now (t_turn_id t) event);;
  mret t.

(** A round of [DaemonObserver::approve]. *)
Definition observer_approve (t : Turn) (call : string) : M (option ApprovalDecision) :=
  s ← the_execution (t_cancellation t);
  if bool_decide (t_turn_id t ∈ flags s) then mret (Some AbortTurn)
  else
    s ← the_execution (t_execution t);
    let key := (t_turn_id t, call) in
    match approvals s !! key with
    | Some decision =>
        on_execution (t_execution t) (λ s, Done (set_approvals (delete key (approvals s)) (pending_approvals s) s));;
        mret (Some decision)
    | None => mret None
    end.

(** The end of an agent's turn, which leaves [history]. *)
Definition agent_finished (outcome : TurnResult) (history : list (ChatMessage A)) (t : Turn) : M (TurnResult * Turn) :=
  (match outcome with
   | TurnErr message _ => attempt (append_to (audit_id t) (EvAgentError message));; mret ()
   | TurnOk => mret ()
   end);;
  mret (outcome, set_snapshot (set_history history (t_snapshot t)) t).

Definition shell_output (stream text : string) (t : Turn) : M () :=
  append_event (t_execution t) (t_turn_id t) (KShellOutput stream text).

(** The end of a shell command: its error, or the directory it ended in and its
    status. An audit error ends the turn. *)
Definition shell_finished (command : string) (result : string + string * string) (t : Turn) : M (TurnResult * Turn) :=
  let cwd t := d_cwd (s_descriptor (t_snapshot t)) in
  let or_stop (t : Turn) (m : M ()) (k : M (TurnResult * Turn)) : M (TurnResult * Turn) :=
    handle m (λ _, k) (λ e, mret (TurnErr e false, t)) in
  let finished (status : string) (t : Turn) : M () :=
    append_to (audit_id t) (EvShellFinished command status (cwd t)) in
  match result with
  | inl error => or_stop t (finished ("error: " +:+ error) t) (mret (TurnErr error false, t))
  | inr (directory, status) =>
      let rest (t : Turn) : M (TurnResult * Turn) :=
        or_stop t (finished status t)
          (append_event (t_execution t) (t_turn_id t) (KShellFinished command status);; mret (TurnOk, t)) in
      if bool_decide (directory = cwd t) then rest t
      else
        let t := set_snapshot (on_descriptor (SessionModel.set_cwd directory) (t_snapshot t)) t in
        or_stop t (append_to (audit_id t) (EvWorkingDirectoryChanged directory))
          (append_event (t_execution t) (t_turn_id t) (KWorkingDirectoryChanged directory);; rest t)
  end.

(** The end of [run_turn]: the registry is told what the turn left. *)
Definition run_persist (t : Turn) : M (string + SessionDescriptor) :=
  attempt (in_registry (update_execution_state (t_session_id t) (d_cwd (s_descriptor (t_snapshot t)))
    (s_history (t_snapshot t)))).

Definition terminal_event (persistence : string + SessionDescriptor) (audit_failure : option string)
    (cancelled : bool) (result : TurnResult) : Kind :=
  match persistence with
  | inl error => KTurnFailed (context "cannot persist terminal turn state" error) None
  | inr _ =>
      match audit_failure with
      | Some error => KTurnFailed error (Some AuditUnavailable)
      | None =>
          if cancelled then KTurnCancelled
          else match result with
               | TurnErr message budget => KTurnFailed message (if budget then Some BudgetRanOut else None)
               | TurnOk => KTurnCompleted
               end
      end
  end.

(** And the session is freed for the next turn. *)
Definition run_conclude (persistence : string + SessionDescriptor) (result : TurnResult) (t : Turn) : M () :=
  s ← the_execution (t_cancellation t);
  conclude_turn (t_execution t) (t_turn_id t)
    (terminal_event persistence (t_audit_failure t) (bool_decide (t_turn_id t ∈ flags s)) result).

Definition run_end (result : TurnResult) (t : Turn) : M () :=
  persistence ← run_persist t;
  run_conclude persistence result t.

(** ** What clients ask *)

(** [events] that waits for [wakes]; they are the states it is woken with. *)
Definition session_events (session_id : string) (after_sequence : N) (expired : bool) (wakes : list (State * bool)) :
    M (EventBatch A) :=
  r ← session session_id;
  s ← the_execution r;
  mret (journal_events after_sequence expired s wakes).

Definition approve (session_id : string) (r : ApprovalReply) : M () :=
  e ← session session_id; on_execution e (reply r).

Definition cancel_turn (session_id turn_id : string) : M () :=
  e ← session session_id; on_execution e (Execution.cancel turn_id).

Definition cancel_and_remove (session_id : string) : M () :=
  d ← get;
  match by_session d !! session_id with
  | None => mret ()
  | Some r =>
      modify (λ d, set_executions (executions d) (delete session_id (by_session d)) d);;
      on_execution r (λ s, Done (cancel_active s))
  end.

Definition active_turn (session_id : string) : M (option string) :=
  r ← session session_id; s ← the_execution r; mret (active s).

Definition turn_activity (session_id : string) : M SessionActivity :=
  r ← session session_id; s ← the_execution r; mret (Execution.activity s).

(** ** Shutting down *)

Fixpoint cancel_all (l : list nat) : M () :=
  match l with
  | [] => mret ()
  | r :: l => on_execution r (λ s, Done (cancel_active s));; cancel_all l
  end.

Definition stop_accepting_and_cancel : M () :=
  modify (set_admission false);;
  d ← get;
  entries ← in_registry (io (iterate (by_session d)));
  cancel_all entries.*2.

(** [wait_for_shutdown], which looks [polls] times more before its deadline. *)
Fixpoint wait_for_shutdown (polls : nat) : M bool :=
  reap_finished_workers;;
  d ← get;
  if bool_decide (workers d = []) then mret true
  else match polls with O => mret false | Datatypes.S polls => wait_for_shutdown polls end.
End turns.
Arguments Turn : clear implicits.
Arguments Daemon : clear implicits.
