(* ===== verification/TurnsSpec.v ===== *)
(** What the turns of the daemon keep ([Turns]): the invariant of its state,
    and what each of its functions changes. *)
From Stdlib Require Import Ascii.
From S2P Require Import Prelude Sensitive Policy Budget Compaction CompactionSpec CallId Chat Engine Effects.
From S2P Require Import AuditModel SessionModel Registry RegistrySpec Execution JournalSpec.
From S2P Require Import PtyStream Pty PtyJobs Turns.
#[local] Opaque MAX_JOURNAL_EVENTS.

(** * Journals that fit *)

Section fits.
Context {A : Type} `{!EventSerde A, !EventLaws A}.
Implicit Types (s : ExecutionState A).

(** The journal is within its bounds, which is what recording relies on. *)
Record Fits s : Prop := {
  fits_count : length (events s) ≤ MAX_JOURNAL_EVENTS;
  fits_bytes : event_bytes s = total_bytes (events s);
  fits_bound : (total_bytes (events s) ≤ MAX_JOURNAL_BYTES)%N;
}.

Lemma fits_new : Fits execution_new.
Proof. split; [apply Nat.le_0_l|done|apply N.le_0_l]. Qed.

(** The record an event is appended as. *)
Definition record_of_event now turn event s : SessionEvent A := {|
  ev_sequence := next_sequence s; ev_turn_id := turn; ev_timestamp_unix_ms := now; ev_event := event |}.

Lemma append_fits now turn event s :
  Fits s → ∃ k bytes next, let l := drop k (events s ++ [record_of_event now turn event s]) in
    append_locked now turn event s = Done (set_events l bytes next s) ∧ Fits (set_events l bytes next s).
Proof.
  intros [Hc Hb Hbd]. unfold append_locked. fold (record_of_event now turn event s).
  set (e := record_of_event now turn event s).
  assert (saturating_add (event_bytes s) (encoded_bytes e) = total_bytes (events s ++ [e])) as ->.
  { rewrite total_bytes_app, Hb. unfold saturating_add, USIZE_MAX. pose proof (encoded_bytes_bound e).
    assert (total_bytes [e] = encoded_bytes e) as -> by (unfold total_bytes; simpl; lia).
    unfold MAX_JOURNAL_BYTES in *. lia. }
  destruct (trim_journal_spec (events s ++ [e])) as (k & (_ & [Hc' Hb'] & _) & Ht).
  rewrite Ht. cbn [outcome_bind]. exists k. eexists _, _. split; [done|]. by split.
Qed.

(** The last of the events kept, when one is, is the one recorded. *)
Definition Recorded turn event s s' : Prop :=
  events s' = [] ∨ ∃ e, last (events s') = Some e ∧ ev_turn_id e = turn ∧ ev_event e = event.

Lemma recorded_drop turn event s s' k now :
  events s' = drop k (events s ++ [record_of_event now turn event s]) → Recorded turn event s s'.
Proof.
  intros Hs'. destruct (decide (length (events s) < k)) as [Hk|Hk].
  - left. rewrite Hs'. apply drop_ge. rewrite length_app. simpl. lia.
  - right. exists (record_of_event now turn event s). split; [|done].
    rewrite Hs', drop_app_le by lia. by rewrite last_snoc.
Qed.

(** What a function of the state keeps: the turn and the flags. *)
Record Kept s s' : Prop := {
  kept_fits : Fits s';
  kept_active : active s' = active s;
  kept_flags : flags s ⊆ flags s';
}.

Lemma kept_refl s : Fits s → Kept s s.
Proof. by split. Qed.

Lemma kept_same s s' : Fits s → events s' = events s → event_bytes s' = event_bytes s → active s' = active s →
  flags s ⊆ flags s' → Kept s s'.
Proof. intros [Hc Hb Hbd] He Hb' Ha Hf. split; [split; congruence|done..]. Qed.

Lemma append_kept now turn event s :
  Fits s → ∃ s', append_locked now turn event s = Done s' ∧ Kept s s' ∧ Recorded turn event s s' ∧
    pending_approvals s' = pending_approvals s.
Proof.
  intros Hs. destruct (append_fits now turn event s Hs) as (k & b & n & -> & Hf). eexists. split; [done|].
  split; [by split|]. split; [by eapply recorded_drop|done].
Qed.

Lemma emit_kept now turn event s :
  Fits s → ∃ s', Execution.emit now turn event s = Done s' ∧ Kept s s'.
Proof.
  intros Hs. unfold Execution.emit. set (s1 := match innermost event with ApprovalRequested _ _ => _ | _ => _ end).
  assert (Kept s s1) as [Hf1 Ha1 Hfl1].
  { unfold s1. destruct (innermost event); try (by apply kept_refl); by apply kept_same. }
  destruct (append_kept now turn (KExecution event) s1 Hf1) as (s' & -> & [Hf Ha Hfl] & _).
  exists s'. split; [done|]. split; [done|congruence|set_solver].
Qed.

Lemma finish_locked_active turn s :
  active (finish_locked turn s) = if bool_decide (active s = Some turn) then None else active s.
Proof. unfold finish_locked. by case_bool_decide. Qed.

Lemma finish_locked_flags turn s : flags (finish_locked turn s) = flags s.
Proof. unfold finish_locked. by case_bool_decide. Qed.

Lemma finish_locked_fits turn s : Fits s → Fits (finish_locked turn s).
Proof. intros [Hc Hb Hbd]. destruct (finish_locked_same turn s) as (He & Hb' & _). split; congruence. Qed.

Lemma conclude_fits now turn event s :
  Fits s → ∃ s', conclude now turn event s = Done s' ∧ Fits s' ∧
    active s' = (if bool_decide (active s = Some turn) then None else active s) ∧ flags s' = flags s ∧
    Recorded turn event s s'.
Proof.
  intros Hs. unfold conclude. destruct (append_fits now turn event s Hs) as (k & b & n & -> & Hf).
  cbn [outcome_bind]. eexists. split; [done|].
  split; [by apply finish_locked_fits|]. split; [by rewrite finish_locked_active|].
  split; [by rewrite finish_locked_flags|]. eapply (recorded_drop _ _ _ _ k now).
  by rewrite (proj1 (finish_locked_same _ _)).
Qed.
End fits.

Section spec.
Context {A W : Type} `{!StateSerde A, !SessionHost W, !RegistryLaws A W, !PtyWorld A W, !EventSerde A, !EventLaws A,
  !TurnWorld A W}.
Abbreviation D := (Daemon A W).
Abbreviation M := (Step D string).
Implicit Types (d : D) (t : Turn A) (s : ExecutionState A).

(** * The invariant *)

Record DInv d : Prop := {
  d_fits : ∀ r s, executions d !! r = Some s → Fits s;
  d_valid : ∀ sid r, by_session d !! sid = Some r → is_Some (executions d !! r);
  d_injective : ∀ sid sid' r, by_session d !! sid = Some r → by_session d !! sid' = Some r → sid = sid';
  d_host : HostInv (pty_host d);
}.

(** How the daemon goes on: what becomes of the turn of each execution, and
    whether a session leaves the table. Flags are never taken back and a new
    execution is idle. *)
Record Evolve (P : nat → option string → option string → Prop) (gone : string → Prop) d d' : Prop := {
  ev_old : ∀ r s, executions d !! r = Some s →
    ∃ s', executions d' !! r = Some s' ∧ P r (active s) (active s') ∧ flags s ⊆ flags s';
  ev_new : ∀ r s', executions d !! r = None → executions d' !! r = Some s' → active s' = None;
  ev_kept : ∀ sid r, by_session d !! sid = Some r → gone sid ∨ by_session d' !! sid = Some r;
  ev_made : ∀ sid r, by_session d' !! sid = Some r → by_session d !! sid = Some r ∨ executions d !! r = None;
  ev_policy : policy d' = policy d;
  ev_admission : admission d' = admission d;
}.

Definition nobody : string → Prop := λ _, False.
Definition unchanged : nat → option string → option string → Prop := λ _ a b, b = a.
(** Turn [id] may have ended in execution [r]. *)
Definition ending (r : nat) (id : string) : nat → option string → option string → Prop :=
  λ r' a b, b = a ∨ r' = r ∧ a = Some id ∧ b = None.
Definition reserving (r : nat) (id : string) : nat → option string → option string → Prop :=
  λ r' a b, if decide (r' = r) then a = None ∧ b = Some id else b = a.

Definition Calm : D → D → Prop := Evolve unchanged nobody.

Record Next (P : nat → option string → option string → Prop) (gone : string → Prop) d d' : Prop := {
  next_inv : DInv d';
  next_evolve : Evolve P gone d d';
}.

Abbreviation Calmly := (Next unchanged nobody).

Lemma calm_refl d : DInv d → Calmly d d.
Proof.
  intros Hd. split; [done|]. split; [|congruence|by right|by left|done|done].
  intros r s Hs. by exists s.
Qed.

Lemma next_trans P Q R gone gone' gone'' d d1 d2 :
  Next P gone d d1 → Next Q gone' d1 d2 →
  (∀ r a b c, P r a b → Q r b c → R r a c) → (∀ r, R r None None) →
  (∀ r b, Q r None b → b = None ∨ is_Some (executions d !! r)) →
  (∀ sid, gone sid ∨ gone' sid → gone'' sid) → Next R gone'' d d2.
Proof.
  intros [Hi1 H1] [Hi2 H2] HR Hnone Hq Hgone. split; [done|]. split.
  - intros r s Hs. destruct (ev_old _ _ _ _ H1 _ _ Hs) as (s1 & Hs1 & Hp1 & Hf1).
    destruct (ev_old _ _ _ _ H2 _ _ Hs1) as (s2 & Hs2 & Hp2 & Hf2). exists s2.
    split_and!; [done|by eapply HR|set_solver].
  - intros r s2 Hnew Hs2. destruct (executions d1 !! r) as [s1|] eqn:Hs1.
    + destruct (ev_old _ _ _ _ H2 _ _ Hs1) as (s2' & Hs2' & Hp2 & _). rewrite Hs2 in Hs2'. injection Hs2' as <-.
      rewrite (ev_new _ _ _ _ H1 _ _ Hnew Hs1) in Hp2.
      destruct (Hq _ _ Hp2) as [?|[? ?]]; [done|congruence].
    + by eapply (ev_new _ _ _ _ H2).
  - intros sid r Hr. destruct (ev_kept _ _ _ _ H1 _ _ Hr) as [?|Hr1]; [left; auto|].
    destruct (ev_kept _ _ _ _ H2 _ _ Hr1) as [?|?]; auto.
  - intros sid r Hr. destruct (ev_made _ _ _ _ H2 _ _ Hr) as [Hr1|Hnew].
    + by eapply (ev_made _ _ _ _ H1).
    + right. destruct (executions d !! r) as [s|] eqn:Hs; [|done].
      destruct (ev_old _ _ _ _ H1 _ _ Hs) as (s1 & Hs1 & _). congruence.
  - by rewrite (ev_policy _ _ _ _ H2), (ev_policy _ _ _ _ H1).
  - by rewrite (ev_admission _ _ _ _ H2), (ev_admission _ _ _ _ H1).
Qed.

Lemma calm_trans d d1 d2 : Calmly d d1 → Calmly d1 d2 → Calmly d d2.
Proof.
  intros H1 H2. eapply next_trans; [exact H1|exact H2|..]; unfold unchanged, nobody; intuition congruence.
Qed.

Lemma calm_next P gone d d1 d2 : (∀ r, P r None None) → Calmly d d1 → Next P gone d1 d2 →
  (∀ r b, P r None b → b = None ∨ is_Some (executions d !! r)) → Next P gone d d2.
Proof.
  intros Hn H1 H2 Hp. eapply next_trans; [exact H1|exact H2|..]; unfold unchanged, nobody; try naive_solver.
Qed.

Lemma calm_ending d d1 d2 r id : Calmly d d1 → Next (ending r id) nobody d1 d2 → Next (ending r id) nobody d d2.
Proof. intros H1 H2. eapply calm_next; [by left|done..|]. intros r' b [->|(_ & ? & _)]; [by left|done]. Qed.

Lemma calm_ends d d' r id : Calmly d d' → Next (ending r id) nobody d d'.
Proof.
  intros [Hi [Ho Hn Hk Hm Hp Ha]]. split; [done|]. split; try done.
  intros r' s Hs. destruct (Ho _ _ Hs) as (s' & ? & ? & ?). exists s'. split_and!; [done|by left|done].
Qed.

Lemma next_valid P gone d d' r : Next P gone d d' → is_Some (executions d !! r) → is_Some (executions d' !! r).
Proof. intros [_ H] [s Hs]. destruct (ev_old _ _ _ _ H _ _ Hs) as (s' & ? & _). eauto. Qed.

(** ** One execution, or the host *)

Lemma put_next P d r s s' :
  DInv d → executions d !! r = Some s → Fits s' → P r (active s) (active s') → flags s ⊆ flags s' →
  (∀ r' a, r' ≠ r → P r' a a) → Next P nobody d (set_executions (<[r := s']> (executions d)) (by_session d) d).
Proof.
  intros [Hf Hv Hj Hh] Hs Hf' HP Hfl Hsame. pose proof (lookup_lt_Some _ _ _ Hs) as Hlt. split; split; simpl; try done.
  - intros r' s1. destruct (decide (r = r')) as [<-|Hne].
    + rewrite list_lookup_insert_eq by done. by intros [= <-].
    + rewrite list_lookup_insert_ne by done. apply Hf.
  - intros sid r' Hr'. destruct (Hv _ _ Hr') as [s1 Hs1]. destruct (decide (r = r')) as [<-|Hne].
    + rewrite list_lookup_insert_eq by done. eauto.
    + rewrite list_lookup_insert_ne by done. eauto.
  - intros r' s1 Hs1. destruct (decide (r = r')) as [<-|Hne].
    + rewrite list_lookup_insert_eq by done. exists s'. rewrite Hs in Hs1. by injection Hs1 as <-.
    + rewrite list_lookup_insert_ne by done. exists s1. split_and!; [done|by apply Hsame|done].
  - intros r' s1 Hnone. destruct (decide (r = r')) as [<-|Hne]; [congruence|].
    rewrite list_lookup_insert_ne by done. congruence.
  - intros sid r' Hr'. by right.
  - intros sid r' Hr'. by left.
Qed.

Lemma put_calm d r s s' :
  DInv d → executions d !! r = Some s → Kept s s' →
  Calmly d (set_executions (<[r := s']> (executions d)) (by_session d) d).
Proof. intros Hd Hs [Hf Ha Hfl]. by eapply put_next. Qed.

Lemma host_calm d h : DInv d → HostInv h → Calmly d (set_pty_host h d).
Proof.
  intros [Hf Hv Hj Hh] Hh'. split; split; simpl; try done.
  - intros r s Hs. by exists s.
  - congruence.
  - by right.
  - by left.
Qed.

Lemma wp_on_execution r f d s (Q : () → D → Prop) R :
  executions d !! r = Some s →
  match f s with
  | Done s' => Q () (set_executions (<[r := s']> (executions d)) (by_session d) d)
  | Fail e => R e d
  | Panic => False
  end → wp (on_execution r f) Q R d.
Proof.
  intros Hs HQ. unfold on_execution. rewrite wp_bind, wp_get, wp_bind, wp_lift, Hs. cbn [expect].
  rewrite wp_bind, wp_lift. by destruct (f s).
Qed.

Lemma wp_the_execution r d s (Q : ExecutionState A → D → Prop) R :
  executions d !! r = Some s → Q s d → wp (the_execution r) Q R d.
Proof. intros Hs HQ. unfold the_execution. by rewrite wp_bind, wp_get, wp_lift, Hs. Qed.

Lemma wp_in_registry {B} (m : Step (Store A W) string B) (Q : B → D → Prop) R d :
  wp (in_registry m) Q R d ↔
  wp m (λ b st, Q b (set_pty_host {| coordinator := coordinator (pty_host d); store := st |} d))
    (λ e st, R e (set_pty_host {| coordinator := coordinator (pty_host d); store := st |} d)) (store (pty_host d)).
Proof. unfold in_registry, in_pty, in_store. by rewrite !wp_zoom. Qed.

Lemma registry_calm d st : DInv d → Inv (registry st) →
  Calmly d (set_pty_host {| coordinator := coordinator (pty_host d); store := st |} d).
Proof. intros Hd Hi. apply host_calm; [done|]. by destruct (d_host _ Hd). Qed.

(** ** Functions that change no turn *)

(** The same sessions, operations, jobs and state file. *)
Record SameHost d d' : Prop := {
  same_registry : registry (store (pty_host d')) = registry (store (pty_host d));
  same_file : file_of (store (pty_host d')) = file_of (store (pty_host d));
  same_jobs : coordinator (pty_host d') = coordinator (pty_host d);
}.

(** Neither a turn nor the host changes. *)
Record Hushed d d' : Prop := {
  hushed_calm : Calmly d d';
  hushed_host : SameHost d d';
}.

(** The relations a run of small steps stays in. *)
Class Pace (X : D → D → Prop) : Prop := {
  pace_calm d d' : X d d' → Calmly d d';
  pace_trans d d1 d2 : X d d1 → Hushed d1 d2 → X d d2;
}.

#[global] Instance pace_Calmly : Pace Calmly.
Proof. split; [done|]. intros d d1 d2 H1 [H2 _]. by eapply calm_trans. Qed.
#[global] Instance pace_Hushed : Pace Hushed.
Proof.
  split; [by intros d d' []|]. intros d d1 d2 [H1 [? ? ?]] [H2 [? ? ?]]. split; [by eapply calm_trans|split; congruence].
Qed.

Lemma hushed_refl d : DInv d → Hushed d d.
Proof. intros Hd. split; [by apply calm_refl|done]. Qed.

Lemma hushed_inv d d' : Hushed d d' → DInv d'.
Proof. by intros [[? _] _]. Qed.

Lemma hushed_valid d d' r : Hushed d d' → is_Some (executions d !! r) → is_Some (executions d' !! r).
Proof. intros [Hn _]. by apply (next_valid _ _ _ _ _ Hn). Qed.

Lemma hushed_trans d d1 d2 : Hushed d d1 → Hushed d1 d2 → Hushed d d2.
Proof. apply pace_trans. Qed.

(** [m] goes on at that pace from any such point, and fails only if [F]. *)
Definition goes (X : D → D → Prop) {B} (F : Prop) (d0 : D) (m : M B) : Prop :=
  ∀ d, X d0 d → wp m (λ _, X d0) (λ _ d', F ∧ X d0 d') d.

Section goes.
Context {X : D → D → Prop} `{!Pace X}.

Lemma goes_ret {B} F d0 (b : B) : goes X F d0 (mret b).
Proof. by intros d. Qed.

Lemma goes_throw {B} d0 e : goes X (B := B) True d0 (throw e).
Proof. by intros d. Qed.

Lemma goes_get F d0 : goes X F d0 get.
Proof. by intros d. Qed.

Lemma goes_bind {B C} F d0 (m : M B) (k : B → M C) :
  goes X F d0 m → (∀ b, goes X F d0 (k b)) → goes X F d0 (m ≫= k).
Proof. intros Hm Hk d Hd. rewrite wp_bind. eapply wp_wand; [by apply Hm|intros b d' Hd'; by apply Hk|done]. Qed.

Lemma goes_handle {B C} F d0 (m : M B) (k : B → M C) g :
  goes X True d0 m → (∀ b, goes X F d0 (k b)) → (∀ e, goes X F d0 (g e)) → goes X F d0 (handle m k g).
Proof.
  intros Hm Hk Hg d Hd. rewrite wp_handle.
  eapply wp_wand; [by apply Hm|intros b d' Hd'; by apply Hk|intros e d' [_ Hd']; by apply Hg].
Qed.

Lemma goes_attempt {B} F d0 (m : M B) : goes X True d0 m → goes X F d0 (attempt m).
Proof. intros Hm. apply goes_handle; [done|intros b; apply goes_ret|intros e; apply goes_ret]. Qed.

Lemma goes_step d0 d d' : X d0 d → (DInv d → Hushed d d') → X d0 d'.
Proof. intros H0 H1. eapply pace_trans; [exact H0|]. apply H1, (next_inv _ _ _ _ (pace_calm _ _ H0)). Qed.

Lemma world_hushed d d' w : DInv d →
  d' = set_pty_host {| coordinator := coordinator (pty_host d); store := {|
    registry := registry (store (pty_host d)); disk := {|
      sessions_json := sessions_json (disk (store (pty_host d))); world := w |} |} |} d → Hushed d d'.
Proof. intros Hd ->. split; [|by split]. apply registry_calm; [done|apply Hd]. Qed.

Lemma goes_asks {B} F d0 (f : W → B * W) : goes X F d0 (asks f).
Proof.
  intros d Hd. unfold asks. rewrite wp_in_registry, wp_io, wp_asking. eapply goes_step; [exact Hd|].
  intros Hi. by eapply world_hushed.
Qed.

Lemma goes_calls d0 f : goes X True d0 (calls f).
Proof.
  intros d Hd. unfold calls, calling. rewrite wp_in_registry, wp_bind, wp_io, wp_asking.
  destruct (f _).1; [rewrite wp_throw; split; [done|]|rewrite wp_ret];
    (eapply goes_step; [exact Hd|]; intros Hi; by eapply world_hushed).
Qed.

Lemma put_hushed d r s s' :
  DInv d → executions d !! r = Some s → Kept s s' →
  Hushed d (set_executions (<[r := s']> (executions d)) (by_session d) d).
Proof. intros Hd Hs Hk. split; [by eapply put_calm|done]. Qed.

Lemma goes_on_execution F d0 r f :
  is_Some (executions d0 !! r) →
  (∀ s, Fits s → match f s with Done s' => Kept s s' | Fail _ => F | Panic => False end) →
  goes X F d0 (on_execution r f).
Proof.
  intros Hr Hf d Hd. pose proof (pace_calm _ _ Hd) as Hc. pose proof (next_inv _ _ _ _ Hc) as Hi.
  destruct (next_valid _ _ _ _ _ Hc Hr) as [s Hs]. eapply wp_on_execution; [done|].
  specialize (Hf s (d_fits _ Hi _ _ Hs)). destruct (f s) as [s'|e|]; [|done..].
  eapply goes_step; [exact Hd|]. intros _. by eapply put_hushed.
Qed.

Lemma goes_the_execution F d0 r : is_Some (executions d0 !! r) → goes X F d0 (the_execution r).
Proof. intros Hr d Hd. destruct (next_valid _ _ _ _ _ (pace_calm _ _ Hd) Hr) as [s Hs]. by eapply wp_the_execution. Qed.

Lemma workers_hushed d l : DInv d → Hushed d (set_workers l d).
Proof.
  intros [Hf Hv Hj Hh]. split; [|done]. split; split; simpl; try done; [|congruence|by right|by left].
  intros r s Hs. by exists s.
Qed.

Lemma goes_set_workers F d0 f : goes X F d0 (modify (λ d, set_workers (f d) d)).
Proof.
  intros d Hd. rewrite wp_modify. eapply goes_step; [exact Hd|]. apply workers_hushed.
Qed.

(** To go on from where such a function left the daemon. *)
Lemma wp_goes {B} F (m : M B) d0 d (Q : B → D → Prop) (R : string → D → Prop) :
  goes X F d0 m → X d0 d → (∀ b d', X d0 d' → Q b d') → (∀ e d', F → X d0 d' → R e d') → wp m Q R d.
Proof. intros Hm Hd HQ HR. eapply wp_wand; [by apply Hm|auto|]. intros e d' []. auto. Qed.
End goes.

Lemma calm_registry {B} d0 (m : Step (Store A W) string B) : store_keeps m → goes Calmly True d0 (in_registry m).
Proof.
  intros Hm d Hd. rewrite wp_in_registry. pose proof (next_inv _ _ _ _ Hd) as Hi.
  eapply wp_wand; [apply Hm, Hi|..]; intros ? st Hst; try (split; [done|]); (eapply calm_trans; [exact Hd|]);
    by apply registry_calm.
Qed.
End spec.

Create HintDb goes.
#[export] Hint Resolve goes_ret goes_throw goes_get goes_bind goes_handle goes_attempt goes_asks goes_calls
  goes_the_execution goes_set_workers : goes.
