(* ===== verification/TurnsSteps.v ===== *)
(** What each function of a turn's life does to the daemon ([Turns]): from the
    submission to the end, for any state the daemon may be in. *)
From Stdlib Require Import Ascii.
From S2P Require Import Prelude Sensitive Policy Budget Compaction CompactionSpec CallId Chat Engine Effects.
From S2P Require Import AuditModel SessionModel Registry RegistrySpec Execution JournalSpec.
From S2P Require Import PtyStream Pty PtyJobs Turns TurnsSpec.
#[local] Opaque MAX_JOURNAL_EVENTS.

Section turns.
Context {A W : Type} `{!StateSerde A, !SessionHost W, !RegistryLaws A W, !PtyWorld A W, !EventSerde A, !EventLaws A,
  !TurnWorld A W}.
Abbreviation D := (Daemon A W).
Abbreviation M := (Step D string).
Abbreviation Calmly := (Next unchanged nobody).
Implicit Types (d : D) (t : Turn A) (s : ExecutionState A).

Section pace.
Context {X : D → D → Prop} `{!Pace X}.

Lemma goes_now_ms F (d0 : D) : goes X F d0 now_ms.
Proof. unfold now_ms. eauto with goes. Qed.
#[local] Hint Resolve goes_now_ms : goes.

Lemma goes_append_event F (d0 : D) r turn event :
  is_Some (executions d0 !! r) → goes X F d0 (append_event r turn event).
Proof.
  intros Hr. apply goes_bind; [auto with goes|intros now]. apply goes_on_execution; [done|]. intros s Hs.
  by destruct (append_kept now turn event s Hs) as (s' & -> & ? & _).
Qed.

Lemma goes_audit_handle_for_snapshot F (d0 : D) snap : goes X F d0 (audit_handle_for_snapshot snap).
Proof. apply goes_bind; eauto with goes. Qed.

Lemma goes_append_to (d0 : D) stream event : goes X True d0 (append_to stream event).
Proof. apply goes_calls. Qed.

Lemma goes_reap F (d0 : D) : goes X F d0 reap_finished_workers.
Proof.
  apply goes_bind; [auto with goes|intros d]. apply goes_bind; [|intros l; apply goes_set_workers].
  induction (workers d) as [|w l IH]; simpl; eauto with goes.
Qed.
End pace.

Lemma set_pty_host_id d : set_pty_host {| coordinator := coordinator (pty_host d); store := store (pty_host d) |} d = d.
Proof. by destruct d as [? ? ? ? ? []]. Qed.

Lemma wp_snapshot_of selector d (Q : SessionSnapshot A → D → Prop) R :
  DInv d →
  (∀ id rec, sessions (registry (store (pty_host d))) !! id = Some rec → d_id (s_descriptor (sr_snapshot rec)) = id →
     resolves (registry (store (pty_host d))) selector id → Q (snapshot_with_status rec) d) →
  (∀ e, R e d) → wp (in_registry (snapshot selector)) Q R d.
Proof.
  intros Hd HQ HR. rewrite wp_in_registry. unfold snapshot. pose proof (host_registry _ (d_host _ Hd)) as Hi.
  rewrite wp_bind. apply wp_resolve; [done|..].
  - intros id rec Hid Hres. rewrite wp_bind. eapply wp_expect_record; [done|]. rewrite wp_ret, set_pty_host_id.
    by apply (HQ id); [|apply (inv_record _ Hi _ _ Hid)|].
  - intros _. rewrite set_pty_host_id. apply HR.
Qed.

Lemma wp_session sid d (Q : nat → D → Prop) R :
  DInv d →
  (∀ r d', Hushed d d' → by_session d' !! sid = Some r → is_Some (executions d' !! r) →
     by_session d !! sid = Some r ∨ by_session d !! sid = None → Q r d') →
  wp (session sid) Q R d.
Proof.
  intros Hd HQ. unfold session. rewrite wp_bind, wp_get. destruct (by_session d !! sid) as [r|] eqn:Hr.
  - rewrite wp_ret. apply HQ; [by apply hushed_refl|done|by eapply d_valid|by left].
  - rewrite wp_bind, wp_modify, wp_ret. set (d' := set_executions _ _ d). destruct Hd as [Hf Hv Hj Hh].
    assert (Hlen : ∀ sid' r', by_session d !! sid' = Some r' → r' < length (executions d)).
    { intros sid' r' Hr'. apply lookup_lt_is_Some. eauto. }
    apply HQ; subst d'; simpl; [|by rewrite lookup_insert_eq|by rewrite lookup_app_r, Nat.sub_diag by lia|by right].
    split; [|done]. split; split; simpl; try done.
    + intros r s [Hs|[_ Hs]]%lookup_app_Some; [by eapply Hf|].
      apply list_lookup_singleton_Some in Hs as [_ <-]. apply fits_new.
    + intros sid' r [[_ <-]|[_ Hs]]%lookup_insert_Some.
      * by rewrite lookup_app_r, Nat.sub_diag by lia.
      * rewrite lookup_app_l by eauto. eauto.
    + intros s1 s2 r [[<- <-]|[? H1]]%lookup_insert_Some [[<- H2]|[? H2]]%lookup_insert_Some; [done|..|by eapply Hj].
      * apply Hlen in H2. lia.
      * apply Hlen in H1. lia.
    + intros r s Hs. exists s. split; [by apply lookup_app_l_Some|done].
    + intros r s' Hnone [Hs|[_ Hs]]%lookup_app_Some; [congruence|].
      by apply list_lookup_singleton_Some in Hs as [_ <-].
    + intros sid' r' Hr'. right. rewrite lookup_insert_ne by congruence. done.
    + intros sid' r [[_ <-]|[_ ?]]%lookup_insert_Some; [|by left]. right. apply lookup_ge_None_2. done.
Qed.

(** ** The observer *)

Record Valid d t : Prop := {
  valid_execution : is_Some (executions d !! t_execution t);
  valid_cancellation : is_Some (executions d !! t_cancellation t);
}.

Lemma valid_next P gone d d' t : Next P gone d d' → Valid d t → Valid d' t.
Proof. intros Hn [? ?]. split; by eapply next_valid. Qed.

(** A turn whose record was refused is cancelled. *)
Definition Stopped d t : Prop :=
  ∃ s, executions d !! t_cancellation t = Some s ∧ t_turn_id t ∈ flags s.
Definition Sound d t : Prop := is_Some (t_audit_failure t) → Stopped d t.

Lemma stopped_next P gone d d' t : Next P gone d d' → Stopped d t → Stopped d' t.
Proof.
  intros [_ Hn] (s & Hs & Hin). destruct (ev_old _ _ _ _ Hn _ _ Hs) as (s' & Hs' & _ & Hf). exists s'. split; [done|set_solver].
Qed.

Lemma sound_next P gone d d' t : Next P gone d d' → Sound d t → Sound d' t.
Proof. intros Hn Hs Hf. eapply stopped_next; [done|]. by apply Hs. Qed.

(** The turn a thread has, later: what [submit] gave it is the same, and a
    refused record is not forgotten. *)
Record Later t t' : Prop := {
  later_session : t_session_id t' = t_session_id t;
  later_turn : t_turn_id t' = t_turn_id t;
  later_cancellation : t_cancellation t' = t_cancellation t;
  later_execution : t_execution t' = t_execution t;
  later_failure : is_Some (t_audit_failure t) → t_audit_failure t' = t_audit_failure t;
}.

Lemma later_refl t : Later t t.
Proof. by split. Qed.

Lemma hushed_sound d d' t : Hushed d d' → Sound d t → Sound d' t.
Proof. intros [Hn _]. by apply (sound_next _ _ _ _ _ Hn). Qed.

Lemma hushed_turn d d' t : Hushed d d' → Valid d t → Valid d' t.
Proof. intros [Hn _]. by apply (valid_next _ _ _ _ _ Hn). Qed.

Lemma wp_observer_audit event t d :
  DInv d → Valid d t → Sound d t →
  wp (observer_audit event t) (λ t' d', Hushed d d' ∧ Later t t' ∧ Sound d' t' ∧ t_snapshot t' = t_snapshot t) (λ _ _, False) d.
Proof.
  intros Hd [_ Hv] Hs. unfold observer_audit. destruct (t_audit_failure t) eqn:Hf.
  - rewrite wp_ret. split_and!; [by apply hushed_refl|apply later_refl|done|done].
  - rewrite wp_handle. eapply wp_goes; [apply goes_append_to|by apply hushed_refl|..].
    + intros _ d' Hd'. rewrite wp_ret. split_and!; [done|apply later_refl|by eapply hushed_sound|done].
    + intros error d' _ Hd'. rewrite wp_bind. destruct (hushed_valid _ _ _ Hd' Hv) as [s Hc].
      pose proof (d_fits _ (hushed_inv _ _ Hd') _ _ Hc) as Hfit.
      eapply wp_on_execution; [exact Hc|]. rewrite wp_ret. split_and!; [|by split; rewrite ?Hf|..|done].
      * eapply hushed_trans; [exact Hd'|]. apply (put_hushed _ _ s); [exact (hushed_inv _ _ Hd')|done|].
        apply kept_same; try done. simpl. set_solver.
      * intros _. exists (set_flag (t_turn_id t) s). simpl. split; [|set_solver].
        by rewrite list_lookup_insert_eq by (by eapply lookup_lt_Some).
Qed.

Lemma sound_same d t t' : t_audit_failure t' = t_audit_failure t → Later t t' → Sound d t → Sound d t'.
Proof.
  intros Hf [_ Ht Hc _ _] Hs. unfold Sound, Stopped. rewrite Hf, Ht, Hc. exact Hs.
Qed.

Lemma later_trans t t1 t2 : Later t t1 → Later t1 t2 → Later t t2.
Proof.
  intros [H1 H2 H3 H4 H5] [K1 K2 K3 K4 K5]. split; [congruence..|]. intros Hf. rewrite K5; [by apply H5|]. by rewrite H5.
Qed.

Lemma valid_later d t t' : Later t t' → Valid d t → Valid d t'.
Proof. intros [_ _ Hc He _] [? ?]. split; congruence. Qed.

Lemma wp_append_event r turn event d (Q : () → D → Prop) R :
  DInv d → is_Some (executions d !! r) → (∀ d', Hushed d d' → Q () d') → wp (append_event r turn event) Q R d.
Proof.
  intros Hd Hr HQ. eapply (wp_goes False); [by apply goes_append_event|by apply hushed_refl|intros []; auto|done].
Qed.

(** How a thread's own step ends. *)
Definition Stays_in d t (t' : Turn A) d' : Prop := Hushed d d' ∧ Later t t' ∧ Sound d' t'.

Lemma wp_observe event t d :
  DInv d → Valid d t → Sound d t → wp (observe event t) (Stays_in d t) (λ _ _, False) d.
Proof.
  intros Hd Hv Hs. unfold observe. rewrite wp_bind.
  assert (wp (audit_execution event t) (Stays_in d t) (λ _ _, False) d) as Ha.
  { unfold audit_execution. destruct (execution_record event).
    - eapply wp_wand; [by apply wp_observer_audit| |done]. by intros t' d' (? & ? & ? & _).
    - rewrite wp_ret. split_and!; [by apply hushed_refl|apply later_refl|done]. }
  eapply wp_wand; [exact Ha| |done]. intros t' d1 (H1 & Hl & Hs1). pose proof (hushed_inv _ _ H1) as Hd1.
  rewrite wp_bind. eapply (wp_goes False); [apply goes_now_ms|by apply hushed_refl| |done]. intros now d2 H2. rewrite wp_bind.
  pose proof (hushed_turn _ _ _ H2 (valid_later _ _ _ Hl (hushed_turn _ _ _ H1 Hv))) as [He _].
  pose proof (hushed_inv _ _ H2) as Hd2. destruct He as [s He].
  eapply wp_on_execution; [exact He|]. destruct (emit_kept now (t_turn_id t') event s) as (s' & -> & Hk); [by eapply d_fits|].
  rewrite wp_ret. assert (Hushed d1 (set_executions (<[t_execution t' := s']> (executions d2)) (by_session d2) d2)) as H3.
  { eapply hushed_trans; [exact H2|]. by eapply put_hushed. }
  split_and!; [by eapply hushed_trans|done|by eapply hushed_sound].
Qed.

Lemma wp_observer_approve t call d :
  DInv d → Valid d t →
  wp (observer_approve t call) (λ a d', Hushed d d' ∧ (Stopped d t → a = Some AbortTurn)) (λ _ _, False) d.
Proof.
  intros Hd [[s He] [c Hc]]. unfold observer_approve. rewrite wp_bind. eapply wp_the_execution; [exact Hc|].
  case_bool_decide as Hflag; [rewrite wp_ret; split; [by apply hushed_refl|done]|].
  assert (Stopped d t → False) as Hno by (intros (c' & Hc' & ?); congruence).
  rewrite wp_bind. eapply wp_the_execution; [exact He|]. destruct (approvals s !! _) as [decision|].
  - rewrite wp_bind. eapply wp_on_execution; [exact He|]. rewrite wp_ret. split; [|by intros ?%Hno].
    eapply put_hushed; [done|exact He|]. by apply kept_same; [eapply d_fits| ..].
  - rewrite wp_ret. split; [by apply hushed_refl|by intros ?%Hno].
Qed.

Lemma wp_agent_finished outcome history t d :
  DInv d → Sound d t →
  wp (agent_finished outcome history t) (λ b : TurnResult * Turn A, Stays_in d t b.2) (λ _ _, False) d.
Proof.
  intros Hd Hs. unfold agent_finished. rewrite wp_bind.
  eapply (wp_goes False _ d); [|by apply hushed_refl| |done].
  - destruct outcome as [|message b]; [apply goes_ret|]. apply goes_bind; [apply goes_attempt, goes_append_to|].
    intros ?. apply goes_ret.
  - intros _ d' Hd'. rewrite wp_ret. split_and!; [done|by split|]. by eapply hushed_sound.
Qed.

Lemma wp_shell_output stream text t d :
  DInv d → Valid d t → wp (shell_output stream text t) (λ _, Hushed d) (λ _ _, False) d.
Proof. intros Hd [Hv _]. by apply wp_append_event. Qed.

(** [or_stop], of [shell_finished]. *)
Lemma wp_or_stop t d0 d stream event (k : M (TurnResult * Turn A)) :
  Hushed d0 d → Sound d0 t →
  (∀ d', Hushed d0 d' → wp k (λ b, Stays_in d0 t b.2) (λ _ _, False) d') →
  wp (handle (append_to stream event) (λ _, k) (λ e, mret (TurnErr e false, t))) (λ b, Stays_in d0 t b.2) (λ _ _, False) d.
Proof.
  intros Hd Hs Hk. rewrite wp_handle. eapply wp_goes; [apply goes_append_to|exact Hd|intros _; apply Hk|].
  intros e d' _ Hd'. rewrite wp_ret. split_and!; [done|apply later_refl|by eapply hushed_sound].
Qed.

Lemma wp_shell_finished command result t d :
  DInv d → Valid d t → Sound d t →
  wp (shell_finished command result t) (λ b : TurnResult * Turn A, Stays_in d t b.2) (λ _ _, False) d.
Proof.
  intros Hd [Hv _] Hs. unfold shell_finished. pose proof (hushed_refl _ Hd) as H0.
  assert (Hend : ∀ t' event d1 r, Hushed d d1 → Later t t' → t_audit_failure t' = t_audit_failure t →
    wp (append_event (t_execution t) (t_turn_id t) event;; mret (r, t')) (λ b : TurnResult * Turn A, Stays_in d t b.2) (λ _ _, False) d1).
  { intros t' event d1 r H1 Hl Hf. rewrite wp_bind. apply wp_append_event; [apply (hushed_inv _ _ H1)|by eapply hushed_valid|].
    intros d2 H2. rewrite wp_ret. pose proof (hushed_trans _ _ _ H1 H2) as H. split_and!; [done..|].
    eapply sound_same; [done|done|]. by eapply hushed_sound. }
  assert (Hrest : ∀ status d1, Hushed d d1 → ∀ t' stream event, Later t t' → t_audit_failure t' = t_audit_failure t →
    wp (handle (append_to stream event) (λ _, append_event (t_execution t') (t_turn_id t') (KShellFinished command status);; mret (TurnOk, t'))
       (λ e, mret (TurnErr e false, t'))) (λ b : TurnResult * Turn A, Stays_in d t b.2) (λ _ _, False) d1).
  { intros status d1 H1 t' stream event Hl Hf. pose proof Hl as [_ Htt _ Hee _].
    rewrite wp_handle, Htt, Hee. eapply wp_goes; [apply goes_append_to|exact H1|intros _ d2 H2; by apply Hend|].
    intros e d2 _ H2. rewrite wp_ret. split_and!; [done..|]. eapply sound_same; [done|done|]. by eapply hushed_sound. }
  destruct result as [error|[directory status]].
  - apply (wp_or_stop t d d); [done..|]. intros d' Hd'. rewrite wp_ret. split_and!; [done|apply later_refl|by eapply hushed_sound].
  - case_bool_decide; [by apply Hrest; [|apply later_refl|]|]. cbv zeta. set (t1 := set_snapshot _ t).
    assert (Later t t1) as Hl by by split. rewrite wp_handle.
    eapply wp_goes; [apply goes_append_to|exact H0|intros _ d1 H1|].
    + rewrite wp_bind. apply wp_append_event; [apply (hushed_inv _ _ H1)|by eapply hushed_valid|]. intros d2 H2.
      apply Hrest; [by eapply hushed_trans|done|done].
    + intros e d1 _ H1. rewrite wp_ret. split_and!; [done..|]. eapply sound_same; [done|done|]. by eapply hushed_sound.
Qed.

(** ** The end of a turn *)

Definition cancelled_in d t : bool :=
  match executions d !! t_cancellation t with Some s => bool_decide (t_turn_id t ∈ flags s) | None => false end.

(** Turn [id] is over in execution [r], with this event. *)
Definition Over (r : nat) (id : string) (event : SessionEventKind A) d d' : Prop :=
  Next (ending r id) nobody d d' ∧
  ∃ s s', executions d !! r = Some s ∧ executions d' !! r = Some s' ∧ active s' ≠ Some id ∧ Recorded id event s s'.

Lemma wp_asks_same {B} (f : W → B * W) d (Q : B → D → Prop) R :
  DInv d → (∀ b d', Calmly d d' → SameHost d d' → executions d' = executions d → Q b d') → wp (asks f) Q R d.
Proof.
  intros Hd HQ. unfold asks. rewrite wp_in_registry, wp_io, wp_asking. apply HQ; [|by split|done].
  apply registry_calm; [done|apply Hd].
Qed.

Lemma wp_now_ms d (Q : N → D → Prop) R :
  DInv d → (∀ now d', Calmly d d' → SameHost d d' → executions d' = executions d → Q now d') → wp now_ms Q R d.
Proof. intros Hd HQ. unfold now_ms. rewrite wp_bind. apply wp_asks_same; [done|]. intros b d' ???. rewrite wp_ret. auto. Qed.

Lemma wp_conclude_turn r id event d (Q : () → D → Prop) R :
  DInv d → is_Some (executions d !! r) → (∀ d', Over r id event d d' → SameHost d d' → Q () d') →
  wp (conclude_turn r id event) Q R d.
Proof.
  intros Hd [s Hs] HQ. unfold conclude_turn. rewrite wp_bind. apply wp_now_ms; [done|]. intros now d1 H1 Hh He.
  pose proof (next_inv _ _ _ _ H1) as Hd1. rewrite <-He in Hs.
  eapply wp_on_execution; [exact Hs|].
  destruct (conclude_fits now id event s) as (s' & -> & Hf & Ha & Hfl & Hr); [by eapply d_fits|].
  set (d2 := set_executions _ _ d1).
  assert (Next (ending r id) nobody d1 d2) as H2.
  { eapply put_next; [done|exact Hs|done| |by rewrite Hfl|by left]. rewrite Ha. unfold ending. case_bool_decide; auto. }
  apply HQ; [|by destruct Hh; split]. split; [by eapply calm_ending|]. exists s, s'. split_and!; [by rewrite <-He| |..|done].
  - simpl. by rewrite list_lookup_insert_eq by (by eapply lookup_lt_Some).
  - rewrite Ha. case_bool_decide; congruence.
Qed.

Lemma calm_run_persist F (d0 : D) t : goes Calmly F d0 (run_persist t).
Proof.
  apply goes_attempt, calm_registry. intros st Hi.
  pose proof (update_state_ends (t_session_id t) (d_cwd (s_descriptor (t_snapshot t))) (s_history (t_snapshot t)) st Hi) as He.
  simpl in He. rewrite wp_bind in He. eapply wp_wand; [exact He|by intros ?? []|by intros ?? []].
Qed.

Lemma wp_run_conclude p result t d :
  DInv d → Valid d t →
  wp (run_conclude p result t)
    (λ _ d', Over (t_execution t) (t_turn_id t) (terminal_event p (t_audit_failure t) (cancelled_in d t) result) d d' ∧
       SameHost d d') (λ _ _, False) d.
Proof.
  intros Hd [He [c Hc]]. unfold run_conclude. rewrite wp_bind. eapply wp_the_execution; [exact Hc|].
  apply wp_conclude_turn; [done|done|]. intros d' Ho Hh. split; [|done]. unfold cancelled_in. by rewrite Hc.
Qed.

(** The beginning: the turn reports to the execution its session has now. *)
Lemma wp_run_begin t d :
  DInv d → Valid d t →
  wp (run_begin t)
    (λ o d', match o with
     | Some t' => ∃ r, Calmly d d' ∧ t' = set_execution r t ∧ Valid d' t' ∧
         by_session d' !! t_session_id t = Some r ∧
         (by_session d !! t_session_id t = Some r ∨ by_session d !! t_session_id t = None)
     | None => ∃ r e d1, Calmly d d1 ∧ Over r (t_turn_id t) (KTurnFailed e None) d1 d' ∧
         by_session d1 !! t_session_id t = Some r ∧
         (by_session d !! t_session_id t = Some r ∨ by_session d !! t_session_id t = None)
     end) (λ _ _, False) d.
Proof.
  intros Hd [_ Hc]. unfold run_begin. rewrite wp_bind. apply wp_session; [done|]. intros r d1 [H1 _] Hr Hv Hold.
  rewrite wp_handle. eapply (wp_goes (X := Calmly)); [apply goes_calls|apply calm_refl, H1|..].
  - intros _ d2 H2. rewrite wp_ret. pose proof (calm_trans _ _ _ H1 H2) as H. exists r. split_and!; [done|done| | |done].
    + split; simpl; [exact (next_valid _ _ _ _ _ H2 Hv)|exact (next_valid _ _ _ _ _ H Hc)].
    + simpl. destruct (ev_kept _ _ _ _ (next_evolve _ _ _ _ H2) _ _ Hr) as [[]|?]. done.
  - intros e d2 _ H2. rewrite wp_bind. apply wp_conclude_turn; [apply H2|by eapply next_valid|].
    intros d3 H3 _. rewrite wp_ret. exists r, e, d2. split_and!; [by eapply calm_trans|done| |done].
    destruct (ev_kept _ _ _ _ (next_evolve _ _ _ _ H2) _ _ Hr) as [[]|?]. done.
Qed.
(** ** Accepting a turn *)

(** What a reservation leaves, and the turn it made. *)
Record Reserved session_id input requested_approval requested_limits (overlay : option Policy) d t (started : SessionEventKind A) d' : Prop := {
  rs_next : ∃ d1, Hushed d d1 ∧ Next (reserving (t_execution t) (t_turn_id t)) nobody d1 d' ∧ SameHost d1 d';
  rs_table : by_session d' !! session_id = Some (t_execution t);
  rs_old : by_session d !! session_id = Some (t_execution t) ∨ by_session d !! session_id = None;
  rs_session_id : t_session_id t = session_id;
  rs_cancellation : t_cancellation t = t_execution t;
  rs_audit : t_audit_failure t = None;
  rs_input : t_input t = input;
  rs_started : ∃ requested limits requested_limits,
    started = KTurnStarted input (t_approval t) requested limits requested_limits;
  rs_overlay : t_overlay t = overlay;
  rs_active : ∃ s, executions d' !! t_execution t = Some s ∧ active s = Some (t_turn_id t);
  rs_session : ∃ rec, sessions (registry (store (pty_host d))) !! audit_id t = Some rec ∧
    resolves (registry (store (pty_host d))) session_id (audit_id t) ∧ t_snapshot t = snapshot_with_status rec;
  rs_approval : t_approval t = clamp_to requested_approval (dp_max_approval (policy d));
  rs_limits : t_limits t = (limits_clamp_to (default limits_default requested_limits) (dp_max_limits (policy d))).1;
  rs_admission : admission d = true;
}.

Lemma reserving_put d r s s' id :
  DInv d → executions d !! r = Some s → reserve id s = Done s' →
  Next (reserving r id) nobody d (set_executions (<[r := s']> (executions d)) (by_session d) d) ∧
  active s' = Some id.
Proof.
  intros Hd Hs Hr. unfold reserve in Hr. destruct (active s) eqn:Ha; [done|]. injection Hr as <-.
  split; [|done]. destruct (d_fits _ Hd _ _ Hs) as [? ? ?].
  eapply put_next; [done|exact Hs|by split| |done|].
  - unfold reserving. by rewrite decide_True.
  - intros r' a Hne. unfold reserving. by rewrite decide_False.
Qed.

Lemma wp_submit_reserve session_id input requested_approval requested_limits overlay d :
  DInv d →
  wp (submit_reserve session_id input requested_approval requested_limits overlay)
    (λ b, Reserved session_id input requested_approval requested_limits overlay d b.1 b.2)
    (λ _ d', Hushed d d') d.
Proof.
  intros Hd. unfold submit_reserve. pose proof (hushed_refl _ Hd) as H0.
  rewrite wp_bind, wp_get, wp_bind, wp_ensure. destruct (admission d) eqn:Hadm; [|done]. rewrite wp_bind.
  eapply (wp_goes False); [apply goes_reap|exact H0| |done]. intros _ d1 H1.
  destruct (limits_clamp_to _ _) as [limits lowered] eqn:Hlim. cbv zeta. rewrite wp_bind.
  apply wp_snapshot_of; [by apply hushed_inv in H1| |done]. intros id rec Hid Hrec Hres.
  rewrite wp_bind. apply wp_session; [by apply hushed_inv in H1|]. intros r d2 H2 Hr Hv Hold.
  pose proof (hushed_trans _ _ _ H1 H2) as H12. rewrite wp_bind.
  eapply (wp_goes (X := Hushed) False _ d2); [apply goes_asks|by apply hushed_refl, (hushed_inv _ _ H2)| |done].
  intros turn_id d3 H3. pose proof (hushed_trans _ _ _ H12 H3) as H13. rewrite wp_bind.
  destruct (hushed_valid _ _ _ H3 Hv) as [s Hs]. eapply wp_on_execution; [exact Hs|].
  destruct (reserve turn_id s) as [s'|e|] eqn:Hrs.
  2, 3: unfold reserve in Hrs; by destruct (active s).
  rewrite wp_ret. destruct (reserving_put d3 r s s' turn_id) as [Hn Ha]; [by apply hushed_inv in H3|done..|].
  assert (by_session d3 !! session_id = Some r) as Hr3.
  { destruct (ev_kept _ _ _ _ (next_evolve _ _ _ _ (hushed_calm _ _ H3)) _ _ Hr) as [[]|?]. done. }
  split; simpl; try done.
  - exists d3. by split_and!.
  - destruct (by_session d !! session_id) as [r0|] eqn:Hr0; [|by right]. left.
    destruct (ev_kept _ _ _ _ (next_evolve _ _ _ _ (hushed_calm _ _ H12)) _ _ Hr0) as [[]|?]. congruence.
  - by eexists _, _, _.
  - exists s'. split; [|done]. by rewrite list_lookup_insert_eq by (by eapply lookup_lt_Some).
  - exists rec. destruct H1 as [_ [Hreg _ _]]. unfold audit_id. simpl. rewrite Hrec, <-Hreg. by split_and!.
  - by injection Hlim as <- _.
Qed.
(** *** Operations in flight *)

Definition operation_of t : DurableInFlight := {|
  if_session_id := audit_id t; if_operation_id := t_turn_id t; if_route := route (t_input t) |}.

(** The registry with that operation begun, and with it finished. *)
Definition begun t (r : SessionRegistry A) : SessionRegistry A :=
  match sessions r !! audit_id t with
  | Some rec => if is_durable rec then set_in_flight <[audit_id t := operation_of t]> r else r
  | None => r
  end.
Definition finished_op (id operation_id : string) (r : SessionRegistry A) : SessionRegistry A :=
  if bool_decide (if_operation_id <$> in_flight r !! id = Some operation_id)
  then set_in_flight (delete id) r else r.
Definition finished t : SessionRegistry A → SessionRegistry A := finished_op (audit_id t) (t_turn_id t).

(** The session has no operation in flight. *)
Definition idle_session t (r : SessionRegistry A) : Prop := in_flight r !! audit_id t = None.

Lemma set_in_flight_id (r : SessionRegistry A) f : f (in_flight r) = in_flight r → set_in_flight f r = r.
Proof. destruct r. unfold set_in_flight; simpl. congruence. Qed.

Lemma finished_begun t r : idle_session t r → finished t (begun t r) = r.
Proof.
  unfold idle_session. intros Hidle. unfold finished, finished_op, begun.
  destruct (sessions r !! audit_id t) as [rec|]; [destruct (is_durable rec)|]; simpl.
  - rewrite lookup_insert_eq. simpl. rewrite bool_decide_true by done. destruct r as [h a u ss fl]. unfold set_in_flight. simpl in *.
    f_equal. by apply delete_insert_id.
  - rewrite bool_decide_false; [done|]. rewrite Hidle. done.
  - rewrite bool_decide_false; [done|]. rewrite Hidle. done.
Qed.

Lemma wp_begin_frame t st (Q : () → Store A W → Prop) (R : string → Store A W → Prop) :
  Inv (registry st) →
  (∀ st' rec, sessions (registry st) !! audit_id t = Some rec → (is_durable rec = true → idle_session t (registry st)) →
     registry st' = begun t (registry st) → Q () st') →
  (∀ e st', registry st' = registry st → R e st') →
  wp (begin_execution (audit_id t) (t_turn_id t) (route (t_input t))) Q R st.
Proof.
  intros Hi HQ HR. unfold begin_execution. rewrite wp_bind. apply wp_record_of; [|intros _; by apply HR].
  intros rec Hid. specialize (λ st', HQ st' rec Hid). unfold begun in HQ. rewrite Hid in HQ.
  destruct (is_durable rec) eqn:Hd; cbn [negb].
  - rewrite wp_bind, wp_the_registry, wp_bind, wp_ensure. case_bool_decide as Hnone; [|by apply HR].
    rewrite wp_bind, wp_changing, wp_handle. apply wp_persisting.
    + apply Inv_in_flight; [done|]. intros id' op [[<- <-]|[_ ?]]%lookup_insert_Some; [done|]. by apply (inv_in_flight _ Hi).
    + intros text d _ _. rewrite wp_ret. by apply HQ.
    + intros e d _. rewrite wp_bind, wp_changing, wp_throw. apply HR. destruct (registry st) as [h a u ss fl]. simpl in *.
      unfold set_in_flight; simpl. f_equal. by apply delete_insert_id.
  - rewrite wp_ret. by apply HQ.
Qed.

Lemma wp_finish_frame id operation_id st (Q : () → Store A W → Prop) (R : string → Store A W → Prop) :
  Inv (registry st) →
  (∀ st', registry st' = finished_op id operation_id (registry st) → Q () st') →
  (∀ e st', registry st' = finished_op id operation_id (registry st) → R e st') →
  wp (finish_execution id operation_id) Q R st.
Proof.
  intros Hi HQ HR. unfold finish_execution, finished_op in *. rewrite wp_bind, wp_the_registry. case_bool_decide as Hop.
  - rewrite wp_bind, wp_changing. apply wp_persisting; [|intros; by apply HQ|intros; by apply HR].
    apply Inv_in_flight; [done|]. intros id' op [_ Ho]%lookup_delete_Some. by apply (inv_in_flight _ Hi).
  - rewrite wp_ret. by apply HQ.
Qed.

Lemma begun_inv t r : Inv r → Inv (begun t r).
Proof.
  intros Hi. unfold begun. repeat case_match; try done. apply Inv_in_flight; [done|].
  intros id' op [[<- <-]|[_ ?]]%lookup_insert_Some; [done|]. by apply (inv_in_flight _ Hi).
Qed.

Lemma finished_inv id operation_id r : Inv r → Inv (finished_op id operation_id r).
Proof.
  intros Hi. unfold finished_op. case_bool_decide; [|done]. apply Inv_in_flight; [done|].
  intros id' op [_ ?]%lookup_delete_Some. by apply (inv_in_flight _ Hi).
Qed.

(** The daemon's registry. *)
Definition reg d : SessionRegistry A := registry (store (pty_host d)).

Lemma reg_inv d : DInv d → Inv (reg d).
Proof. intros Hd. apply (d_host _ Hd). Qed.

Lemma wp_begin t d (Q : () → D → Prop) (R : string → D → Prop) :
  DInv d →
  (∀ d' rec, Calmly d d' → sessions (reg d) !! audit_id t = Some rec → (is_durable rec = true → idle_session t (reg d)) →
     reg d' = begun t (reg d) → executions d' = executions d → Q () d') →
  (∀ e d', Calmly d d' → reg d' = reg d → executions d' = executions d → R e d') →
  wp (in_registry (begin_execution (audit_id t) (t_turn_id t) (route (t_input t)))) Q R d.
Proof.
  intros Hd HQ HR. rewrite wp_in_registry. pose proof (reg_inv _ Hd) as Hi. apply wp_begin_frame; [done|..].
  - intros st' rec Hrec Hidle Hst'. eapply HQ; [|exact Hrec|done|exact Hst'|done].
    apply registry_calm; [done|]. rewrite Hst'. by apply begun_inv.
  - intros e st' Hst'. eapply HR; [|exact Hst'|done]. apply registry_calm; [done|]. by rewrite Hst'.
Qed.

Lemma wp_finish_op id operation_id d (Q : () → D → Prop) (R : string → D → Prop) :
  DInv d →
  (∀ d', Calmly d d' → reg d' = finished_op id operation_id (reg d) → executions d' = executions d → Q () d') →
  (∀ e d', Calmly d d' → reg d' = finished_op id operation_id (reg d) → executions d' = executions d → R e d') →
  wp (in_registry (finish_execution id operation_id)) Q R d.
Proof.
  intros Hd HQ HR. rewrite wp_in_registry. pose proof (reg_inv _ Hd) as Hi. apply wp_finish_frame; [done|..];
    intros; [apply HQ|apply HR]; try done; (apply registry_calm; [done|]); by rewrite H; apply finished_inv.
Qed.

(** *** The input, the operation and the thread *)

(** Turn [t] is not in its execution any more. *)
Record Released t d d' : Prop := {
  released_next : Next (ending (t_execution t) (t_turn_id t)) nobody d d';
  released_turn : ∃ s, executions d' !! t_execution t = Some s ∧ active s ≠ Some (t_turn_id t);
}.

Lemma over_released t event d d' : Over (t_execution t) (t_turn_id t) event d d' → Released t d d'.
Proof. intros [Hn (s & s' & _ & Hs' & Ha & _)]. split; [done|]. by exists s'. Qed.

Lemma calm_released t d d1 d2 : Calmly d d1 → Released t d1 d2 → Released t d d2.
Proof. intros H1 [H2 H3]. split; [by eapply calm_ending|done]. Qed.

Lemma wp_finish_turn t d (Q : () → D → Prop) R :
  DInv d → Valid d t → (∀ d', Released t d d' → SameHost d d' → Q () d') →
  wp (finish_turn (t_execution t) (t_turn_id t)) Q R d.
Proof.
  intros Hd [[s Hs] _] HQ. eapply wp_on_execution; [exact Hs|]. cbn beta iota. set (s' := finish_locked (t_turn_id t) s).
  pose proof (finish_locked_active (t_turn_id t) s) as Ha. fold s' in Ha. apply HQ; [|done]. split.
  - eapply put_next; [done|exact Hs|by apply finish_locked_fits, (d_fits _ Hd _ _ Hs)| | |by left].
    + rewrite Ha. unfold ending. case_bool_decide; auto.
    + subst s'. by rewrite finish_locked_flags.
  - exists s'. split; [simpl; by rewrite list_lookup_insert_eq by (by eapply lookup_lt_Some)|].
    rewrite Ha. case_bool_decide; congruence.
Qed.

Lemma wp_refuse_turn t (e : string) d (Q : () → D → Prop) (R : string → D → Prop) :
  DInv d → Valid d t → (∀ d', Released t d d' → SameHost d d' → R e d') →
  wp (finish_turn (t_execution t) (t_turn_id t);; throw e) Q R d.
Proof.
  intros Hd Hv HR. rewrite wp_bind. apply wp_finish_turn; [done..|]. intros d' Hr Hh. rewrite wp_throw. by apply HR.
Qed.

(** The last event of an execution. *)
Definition Follows r id event d d' : Prop :=
  ∃ s s', executions d !! r = Some s ∧ executions d' !! r = Some s' ∧ Recorded id event s s'.

Lemma wp_append_recorded r id event d (Q : () → D → Prop) R :
  DInv d → is_Some (executions d !! r) →
  (∀ d', Hushed d d' → Follows r id event d d' → Q () d') → wp (append_event r id event) Q R d.
Proof.
  intros Hd [s Hs] HQ. unfold append_event. rewrite wp_bind. apply wp_now_ms; [done|]. intros now d1 H1 Hh He.
  pose proof (next_inv _ _ _ _ H1) as Hd1. rewrite <-He in Hs. eapply wp_on_execution; [exact Hs|].
  destruct (append_kept now id event s) as (s' & -> & Hk & Hr & _); [by eapply d_fits|]. apply HQ.
  - eapply hushed_trans; [by split|]. by eapply put_hushed.
  - exists s, s'. rewrite <-He. split_and!; [done| |done]. simpl. by rewrite list_lookup_insert_eq by (by eapply lookup_lt_Some).
Qed.

Record Accepted t started d d' : Prop := {
  ac_calm : Calmly d d';
  ac_registry : reg d' = begun t (reg d);
  ac_session : ∃ rec, sessions (reg d) !! audit_id t = Some rec ∧ (is_durable rec = true → idle_session t (reg d));
  ac_event : ∃ d1, executions d1 = executions d ∧ Follows (t_execution t) (t_turn_id t) started d1 d';
}.

Lemma wp_calls_same f d (Q : () → D → Prop) R :
  DInv d → (∀ d', Hushed d d' → executions d' = executions d → workers d' = workers d → Q () d') →
  (∀ e d', Hushed d d' → executions d' = executions d → R e d') → wp (calls f) Q R d.
Proof.
  intros Hd HQ HR. unfold calls, calling. rewrite wp_in_registry, wp_bind, wp_io, wp_asking.
  destruct (f _).1; [rewrite wp_throw; apply HR|rewrite wp_ret; apply HQ]; try done; by eapply world_hushed.
Qed.

Lemma wp_submit_accept t started d :
  DInv d → Valid d t →
  wp (submit_accept t started) (λ _, Accepted t started d) (λ _ d', Released t d d' ∧ reg d' = reg d) d.
Proof.
  intros Hd Hv. unfold submit_accept, audit_handle_for_snapshot. cbv zeta. rewrite wp_bind, wp_bind. apply wp_asks_same; [done|].
  intros [] d1 H1 Hh1 He1. rewrite wp_ret, wp_bind, wp_handle.
  assert (Hud : Hushed d d1) by by split. pose proof (hushed_inv _ _ Hud) as Hd1. pose proof (hushed_turn _ _ _ Hud Hv) as Hv1.
  assert (Hgive : ∀ e d2 (Q : () → D → Prop), Calmly d d2 → reg d2 = reg d →
    wp (finish_turn (t_execution t) (t_turn_id t);; throw e) Q (λ _ d', Released t d d' ∧ reg d' = reg d) d2).
  { intros e d2 Q H2 Hr2. apply wp_refuse_turn; [apply H2|by eapply valid_next|]. intros d3 H3 [Hr3 _ _].
    split; [by eapply calm_released|]. unfold reg in *. congruence. }
  apply wp_calls_same; [done|..].
  - intros d2 H2 He2 _. rewrite wp_ret, wp_bind, wp_handle. pose proof (hushed_trans _ _ _ Hud H2) as H02.
    pose proof (hushed_inv _ _ H02) as Hd2.
    assert (Hr2 : reg d2 = reg d) by apply (hushed_host _ _ H02). rewrite <-Hr2.
    apply wp_begin; [done|..].
    + intros d3 rec H3 Hrec Hidle Hr3 He3. rewrite wp_ret. apply wp_append_recorded; [apply H3| |].
      { eapply next_valid; [exact H3|]. by eapply hushed_valid; [exact H02|apply Hv]. }
      intros d4 H4 Hf4. split; [|..|].
      * eapply calm_trans; [apply H02|]. eapply calm_trans; [exact H3|apply H4].
      * rewrite <-Hr2, <-Hr3. apply (hushed_host _ _ H4).
      * rewrite <-Hr2. by exists rec.
      * exists d3. split; [congruence|done].
    + intros e d3 H3 Hr3 _. rewrite Hr2. apply Hgive; [|congruence]. eapply calm_trans; [apply H02|done].
  - intros e d2 H2 _. pose proof (hushed_trans _ _ _ Hud H2) as H02. apply Hgive; [apply H02|apply (hushed_host _ _ H02)].
Qed.

Record Spawned t d (id : string) d' : Prop := {
  sp_hushed : Hushed d d';
  sp_executions : executions d' = executions d;
  sp_turn : id = t_turn_id t;
  sp_worker : workers d' = workers d ++ [t_turn_id t];
  sp_admission : admission d = true;
}.

Record NotSpawned t d d' : Prop := {
  ns_next : Next (ending (t_execution t) (t_turn_id t)) nobody d d';
  ns_registry : t_session_id t = audit_id t → reg d' = finished t (reg d);
  ns_released : admission d = true → Released t d d' ∧ ∃ e, Follows (t_execution t) (t_turn_id t) (KTurnFailed e None) d d';
}.

Lemma over_follows r id event d d' : Over r id event d d' → Follows r id event d d'.
Proof. intros [_ (s & s' & ? & ? & _ & ?)]. by exists s, s'. Qed.

Lemma wp_submit_spawn t d :
  DInv d → Valid d t →
  wp (submit_spawn t) (Spawned t d) (λ _, NotSpawned t d) d.
Proof.
  intros Hd Hv. unfold submit_spawn. rewrite wp_bind, wp_get.
  destruct (admission d) eqn:Hadm; cbn [negb].
  - rewrite wp_handle. apply wp_calls_same; [done|..].
    + intros d1 H1 He1 Hw1. rewrite wp_bind, wp_modify, wp_ret. split; simpl; try done.
      * eapply hushed_trans; [exact H1|]. apply workers_hushed. by apply hushed_inv in H1.
      * by rewrite Hw1.
    + intros e d1 H1 He1. pose proof (hushed_inv _ _ H1) as Hd1.
      assert (Hr1 : reg d1 = reg d) by apply (hushed_host _ _ H1).
      rewrite wp_bind. unfold attempt. rewrite wp_handle.
      assert (Hend : ∀ d2 p, Calmly d1 d2 → reg d2 = finished_op (t_session_id t) (t_turn_id t) (reg d1) → executions d2 = executions d1 →
        wp (conclude_turn (t_execution t) (t_turn_id t) (KTurnFailed e None);;
            match p : string + () with inl e0 => throw (context "cannot clear unstarted session operation" e0)
            | inr _ => throw (context "cannot start session turn" e) end)
          (Spawned t d) (λ _, NotSpawned t d) d2).
      { intros d2 p H2 Hr2 He2. rewrite wp_bind. pose proof (calm_trans _ _ _ (hushed_calm _ _ H1) H2) as H02.
        apply wp_conclude_turn; [apply H2|by eapply next_valid; [exact H02|apply Hv]|]. intros d3 H3 Hh3.
        assert (NotSpawned t d d3).
        { split.
          - eapply calm_ending; [exact H02|apply H3].
          - intros Hid. destruct Hh3 as [Hr3 _ _]. unfold reg, finished in *. congruence.
          - intros _. split; [eapply calm_released; [exact H02|by eapply over_released]|]. exists e.
            destruct (over_follows _ _ _ _ _ H3) as (s & s' & Hs & ?). exists s, s'. by rewrite <-He1, <-He2. }
        by destruct p. }
      apply wp_finish_op; [done|..].
      * intros d2 ???. rewrite wp_ret. by apply (Hend d2 (inr ())).
      * intros e' d2 ???. rewrite wp_ret. by apply (Hend d2 (inl e')).
  - rewrite wp_bind. apply wp_finish_op; [done|..].
    + intros d1 H1 Hr1 He1. rewrite wp_bind. apply wp_conclude_turn; [apply H1|by eapply next_valid; [exact H1|apply Hv]|].
      intros d2 H2 Hh2. rewrite wp_throw. split; [by eapply calm_ending; [exact H1|apply H2]| |congruence].
      intros _. destruct Hh2 as [Hr2 _ _]. unfold reg, finished in *. congruence.
    + intros e d1 H1 Hr1 He1. split; [by apply calm_ends|done|congruence].
Qed.
End turns.
