(* ===== verification/TurnsHistory.v ===== *)
(** Turns of many sessions at once ([Turns]): submissions, the threads of
    turns, clients, terminal jobs and shutdown, interleaved between any two of
    the steps they take under their locks. *)
From Stdlib Require Import Ascii.
From S2P Require Import Prelude Sensitive Policy Budget Compaction CompactionSpec CallId Chat Engine Effects.
From S2P Require Import AuditModel SessionModel Registry RegistrySpec RegistryProps Execution JournalSpec.
From S2P Require Import PtyStream Pty PtyJobs Turns TurnsSpec TurnsSteps.
#[local] Opaque MAX_JOURNAL_EVENTS.

(** How far a turn is. *)
Inductive Phase (A : Type) : Type :=
| PhReserved (started : SessionEventKind A)
| PhAccepted
| PhSpawned
| PhRunning
| PhFinished (result : TurnResult)
| PhPersisted (persistence : string + SessionDescriptor) (result : TurnResult).
Arguments PhReserved {A}.
Arguments PhAccepted {A}.
Arguments PhSpawned {A}.
Arguments PhRunning {A}.
Arguments PhFinished {A}.
Arguments PhPersisted {A}.

Inductive TurnAnswer (A : Type) : Type :=
| TaNothing
| TaTurn (id : string)
| TaRecorded (b : bool)
| TaDecision (d : option ApprovalDecision)
| TaEvent (event : SessionEventKind A).
Arguments TaNothing {A}.
Arguments TaTurn {A}.
Arguments TaRecorded {A}.
Arguments TaDecision {A}.
Arguments TaEvent {A}.

Section history.
Context {A W : Type} `{!StateSerde A, !SessionHost W, !RegistryLaws A W, !PtyWorld A W, !EventSerde A, !EventLaws A,
  !TurnWorld A W}.
Abbreviation D := (Daemon A W).
Abbreviation Calmly := (Next unchanged nobody).

(** The daemon and the turns under way; [used] and [closed] are the ids of
    turns and sessions that were. *)
Record Scene := {
  daemon : D;
  turns : gmap string (Phase A * Turn A);
  used : gset string;
  closed : gset string;
}.

Inductive TurnOp : Type :=
| ToReserve (session_id : string) (input : TurnInput) (approval : ApprovalPolicy) (limits : option TurnLimits)
    (overlay : option Policy)
| ToAccept (id : string)
| ToSpawn (id : string)
| ToBegin (id : string)
| ToObserve (id : string) (event : Event A)
| ToApproval (id call : string)
| ToOutput (id stream text : string)
| ToAgentDone (id : string) (outcome : TurnResult) (history : list (ChatMessage A))
| ToShellDone (id : string) (result : string + string * string)
| ToNoAdapter (id message : string)
| ToPersist (id : string)
| ToConclude (id : string)
| ToReply (session_id : string) (r : ApprovalReply)
| ToCancel (session_id turn_id : string)
| ToRemove (session_id : string)
| ToActive (session_id : string)
| ToEvents (session_id : string) (after : N) (expired : bool) (wakes : list (ExecutionState A * bool))
| ToAudit (session_id : string)
| ToStop
| ToWait (polls : nat)
| ToRegistry (op : Op (A := A))
| ToPty (op : PtyOp).

Abbreviation M := (Step D string).
Abbreviation Answer := (TurnAnswer A).

(** A step of the daemon alone. *)
Definition asking_daemon {B} (m : M B) (sc : Scene) : Scene * Outcome string Answer :=
  let '(d, r) := m (daemon sc) in
  ({| daemon := d; turns := turns sc; used := used sc; closed := closed sc |},
   match r with Done _ => Done TaNothing | Fail e => Fail e | Panic => Panic end).

(** A step of turn [id], when it is in the right phase: what it answers, and
    how the turn goes on, if it does. A turn whose step fails is given up. *)
Definition with_turn (id : string) (f : Phase A → Turn A → option (M (Answer * option (Phase A * Turn A)))) (sc : Scene) :
    Scene * Outcome string Answer :=
  match turns sc !! id with
  | None => (sc, Done TaNothing)
  | Some (ph, t) =>
      match f ph t with
      | None => (sc, Done TaNothing)
      | Some m =>
          let '(d, r) := m (daemon sc) in
          let turns := match r with Done (_, Some x) => <[id := x]> (turns sc) | _ => delete id (turns sc) end in
          ({| daemon := d; turns := turns; used := used sc; closed := closed sc |},
           match r with Done (a, _) => Done a | Fail e => Fail e | Panic => Panic end)
      end
  end.

Definition on_turn (id : string) (op : TurnOp) (ph : Phase A) (t : Turn A) : option (M (Answer * option (Phase A * Turn A))) :=
  match op, ph with
  | ToAccept _, PhReserved started => Some (submit_accept t started;; mret (TaNothing, Some (PhAccepted, t)))
  | ToSpawn _, PhAccepted => Some (submit_spawn t;; mret (TaTurn id, Some (PhSpawned, t)))
  | ToBegin _, PhSpawned => Some (o ← run_begin t; mret (TaNothing, pair PhRunning <$> o))
  | ToObserve _ event, PhRunning =>
      Some (t ← observe event t; mret (TaRecorded (bool_decide (t_audit_failure t = None)), Some (PhRunning, t)))
  | ToApproval _ call, PhRunning => Some (d ← observer_approve t call; mret (TaDecision d, Some (PhRunning, t)))
  | ToOutput _ stream text, PhRunning => Some (shell_output stream text t;; mret (TaNothing, Some (PhRunning, t)))
  | ToAgentDone _ outcome history, PhRunning =>
      Some (b ← agent_finished outcome history t; mret (TaNothing, Some (PhFinished b.1, b.2)))
  | ToShellDone _ result, PhRunning =>
      match t_input t with
      | TurnShell command => Some (b ← shell_finished command result t; mret (TaNothing, Some (PhFinished b.1, b.2)))
      | TurnAgent _ => None
      end
  | ToNoAdapter _ message, PhRunning => Some (mret (TaNothing, Some (PhFinished (TurnErr message false), t)))
  | ToPersist _, PhFinished result => Some (p ← run_persist t; mret (TaNothing, Some (PhPersisted p result, t)))
  | ToConclude _, PhPersisted p result => Some (
      s ← the_execution (t_cancellation t);
      run_conclude p result t;;
      mret (TaEvent (terminal_event p (t_audit_failure t) (bool_decide (t_turn_id t ∈ flags s)) result), None))
  | _, _ => None
  end.

Definition turn_of (op : TurnOp) : option string :=
  match op with
  | ToAccept id | ToSpawn id | ToBegin id | ToObserve id _ | ToApproval id _ | ToOutput id _ _ | ToAgentDone id _ _
  | ToShellDone id _ | ToNoAdapter id _ | ToPersist id | ToConclude id => Some id
  | _ => None
  end.

Definition run_turn_op (op : TurnOp) (sc : Scene) : Scene * Outcome string Answer :=
  match op with
  | ToReserve session_id input approval limits overlay =>
      let '(d, r) := submit_reserve session_id input approval limits overlay (daemon sc) in
      match r with
      | Done (t, started) =>
          ({| daemon := d; turns := <[t_turn_id t := (PhReserved started, t)]> (turns sc);
              used := {[t_turn_id t]} ∪ used sc; closed := closed sc |}, Done (TaTurn (t_turn_id t)))
      | Fail e => ({| daemon := d; turns := turns sc; used := used sc; closed := closed sc |}, Fail e)
      | Panic => ({| daemon := d; turns := turns sc; used := used sc; closed := closed sc |}, Panic)
      end
  | ToReply session_id r => asking_daemon (approve session_id r) sc
  | ToCancel session_id turn_id => asking_daemon (cancel_turn session_id turn_id) sc
  | ToRemove session_id =>
      let '(sc, r) := asking_daemon (cancel_and_remove session_id) sc in
      ({| daemon := daemon sc; turns := turns sc; used := used sc; closed := {[session_id]} ∪ closed sc |}, r)
  | ToActive session_id => asking_daemon (active_turn session_id) sc
  | ToEvents session_id after expired wakes => asking_daemon (session_events session_id after expired wakes) sc
  | ToAudit session_id => asking_daemon (audit_handle session_id) sc
  | ToStop => asking_daemon stop_accepting_and_cancel sc
  | ToWait polls => asking_daemon (wait_for_shutdown polls) sc
  | ToRegistry op => asking_daemon (in_registry (run_op op)) sc
  | ToPty op => asking_daemon (in_pty (run_pty_op op)) sc
  | _ => match turn_of op with Some id => with_turn id (on_turn id op) sc | None => (sc, Done TaNothing) end
  end.

Definition fresh (op : TurnOp) (r : Outcome string Answer) (sc : Scene) : Prop :=
  match op, r with ToReserve _ _ _ _ _, Done (TaTurn id) => id ∉ used sc | _, _ => True end.

(** A history; the ids of turns are random and never repeat. *)
Inductive TurnHistory : Scene → list (TurnOp * Outcome string Answer) → Scene → Prop :=
| turns_start sc : TurnHistory sc [] sc
| turns_op sc op r sc1 log sc' :
    run_turn_op op sc = (sc1, r) →
    fresh op r sc →
    TurnHistory sc1 log sc' → TurnHistory sc ((op, r) :: log) sc'.

(** A daemon that has just started. *)
Definition scene_new (p : DaemonPolicy) (h : PtyHost A W) : Scene := {|
  daemon := {| executions := []; by_session := ∅; admission := true; workers := []; policy := p; pty_host := h |};
  turns := ∅; used := ∅; closed := ∅ |}.
Implicit Types (d : D) (t : Turn A) (sc : Scene).

(** ** What clients ask *)

Lemma reply_kept r (s : ExecutionState A) : Fits s →
  match reply r s with Done s' => Kept s s' | Fail _ => True | Panic => False end.
Proof. intros Hs. unfold reply. repeat case_bool_decide; simpl; try done. by apply kept_same. Qed.

Lemma cancel_kept id (s : ExecutionState A) : Fits s →
  match Execution.cancel id s with Done s' => Kept s s' | Fail _ => True | Panic => False end.
Proof.
  intros Hs. unfold Execution.cancel. destruct (active s); [|done]. case_bool_decide; [|done].
  apply kept_same; try done. simpl. set_solver.
Qed.

Lemma cancel_active_kept (s : ExecutionState A) : Fits s → Kept s (cancel_active s).
Proof.
  intros Hs. unfold cancel_active. destruct (active s) eqn:Ha; simpl; [|by apply kept_refl].
  apply kept_same; simpl; try done. set_solver.
Qed.

(** A function of a session's state. *)
Lemma wp_on_session {B} F session_id (k : nat → M B) d :
  DInv d → (∀ r d', is_Some (executions d' !! r) → goes Hushed F d' (k r)) →
  wp (session session_id ≫= k) (λ _, Calmly d) (λ _ d', F ∧ Calmly d d') d.
Proof.
  intros Hd Hk. rewrite wp_bind. apply wp_session; [done|]. intros r d1 H1 _ Hv _.
  eapply wp_wand; [apply (Hk r d1 Hv), hushed_refl, (hushed_inv _ _ H1)|..].
  - intros b d2 H2. apply (hushed_trans _ _ _ H1 H2).
  - intros e d2 [HF H2]. split; [done|]. apply (hushed_trans _ _ _ H1 H2).
Qed.

(** The functions that change no turn. *)
Definition calm_op (op : TurnOp) : option (M ()) :=
  match op with
  | ToReply session_id r => Some (approve session_id r)
  | ToCancel session_id turn_id => Some (cancel_turn session_id turn_id)
  | ToActive session_id => Some (active_turn session_id;; mret ())
  | ToEvents session_id after expired wakes => Some (session_events session_id after expired wakes;; mret ())
  | ToAudit session_id => Some (audit_handle session_id;; mret ())
  | ToWait polls => Some (wait_for_shutdown polls;; mret ())
  | ToRegistry op => Some (in_registry (run_op op))
  | ToPty op => Some (in_pty (run_pty_op op);; mret ())
  | _ => None
  end.

Lemma wait_goes F polls d : goes Hushed F d (wait_for_shutdown polls).
Proof.
  revert d. induction polls as [|polls IH]; intros d; simpl; (apply goes_bind; [apply goes_reap|intros _]);
    (apply goes_bind; [apply goes_get|intros d1]); case_bool_decide; auto with goes.
Qed.

Lemma calm_op_calm op m d : DInv d → calm_op op = Some m → wp m (λ _, Calmly d) (λ _, Calmly d) d.
Proof.
  intros Hd Hm.
  assert (Hses : ∀ session_id B (k : nat → M B), (∀ r d', is_Some (executions d' !! r) → goes Hushed True d' (k r)) →
    wp (session session_id ≫= k) (λ _, Calmly d) (λ _, Calmly d) d).
  { intros session_id B k Hk. eapply wp_wand; [by apply (wp_on_session True)|done|by intros e d' []]. }
  destruct op; try discriminate Hm; injection Hm as <-.
  - apply Hses. intros r' d' Hr. apply goes_on_execution; [done|]. apply reply_kept.
  - apply Hses. intros r' d' Hr. apply goes_on_execution; [done|]. apply cancel_kept.
  - rewrite wp_bind. unfold active_turn. eapply wp_wand; [apply Hses|done|done]. intros r' d' Hr.
    apply goes_bind; [by apply goes_the_execution|intros s; apply goes_ret].
  - rewrite wp_bind. unfold session_events. eapply wp_wand; [apply Hses|done|done]. intros r' d' Hr.
    apply goes_bind; [by apply goes_the_execution|intros s; apply goes_ret].
  - rewrite wp_bind. unfold audit_handle. rewrite wp_bind. apply wp_snapshot_of; [done| |intros e; by apply calm_refl].
    intros id rec _ _ _. eapply (wp_goes (X := Calmly) False); [apply goes_audit_handle_for_snapshot|by apply calm_refl|done|done].
  - rewrite wp_bind. eapply (wp_goes False); [apply wait_goes|by apply hushed_refl| |done]. intros b d' [H _]. done.
  - rewrite wp_in_registry. eapply wp_wand; [apply op_ends, reg_inv, Hd|..].
    + intros ? st' []. by apply registry_calm.
    + intros ? st' []. by apply registry_calm.
  - rewrite wp_bind. unfold in_pty. rewrite wp_zoom. unfold wp. destruct (run_pty_op op (pty_host d)) as [h r] eqn:Hr.
    pose proof (run_pty_op_inv _ _ _ _ (d_host _ Hd) Hr) as Hh.
    destruct (run_pty_op_left _ _ _ _ (d_host _ Hd) Hr) as (Hp & _).
    destruct r; [..|done]; by apply host_calm.
Qed.

(** ** Leaving the table, and shutting down *)

Lemma wp_cancel_and_remove session_id d :
  DInv d → wp (cancel_and_remove session_id) (λ _, Next unchanged (λ sid, sid = session_id) d) (λ _ _, False) d.
Proof.
  intros Hd. unfold cancel_and_remove. rewrite wp_bind, wp_get.
  destruct (by_session d !! session_id) as [r|] eqn:Hr.
  - rewrite wp_bind, wp_modify. set (d1 := set_executions _ _ d).
    assert (Next unchanged (λ sid, sid = session_id) d d1) as H1.
    { destruct Hd as [Hf Hv Hj Hh]. split; split; simpl; try done.
      - intros sid r' [_ Hr']%lookup_delete_Some. eauto.
      - intros sid sid' r' [_ Hs]%lookup_delete_Some [_ Hs']%lookup_delete_Some. eauto.
      - intros r' s Hs. by exists s.
      - congruence.
      - intros sid r' Hr'. destruct (decide (sid = session_id)); [by left|right]. by rewrite lookup_delete_ne.
      - intros sid r' [_ Hr']%lookup_delete_Some. by left. }
    destruct (d_valid _ Hd _ _ Hr) as [s Hs]. assert (executions d1 !! r = Some s) as Hs1 by done.
    eapply wp_on_execution; [exact Hs1|]. cbn beta iota.
    eapply next_trans; [exact H1| |..].
    + eapply put_calm; [apply H1|exact Hs1|apply cancel_active_kept, (d_fits _ Hd _ _ Hs)].
    + unfold unchanged. congruence.
    + done.
    + unfold unchanged. by left.
    + unfold nobody. intros sid [?|[]]. done.
  - rewrite wp_ret. destruct (calm_refl _ Hd) as [Hi [Ho Hn Hk Hm Hp Ha]]. split; [done|]. split; try done. by right.
Qed.

Lemma stop_invariant d : DInv d → DInv (set_admission false d).
Proof. by intros [? ? ? ?]. Qed.

Lemma cancel_all_calm l d : DInv d → (∀ r, r ∈ l → is_Some (executions d !! r)) → goes Hushed False d (cancel_all l).
Proof.
  intros Hd. induction l as [|r l IH]; intros Hl; simpl; [apply goes_ret|].
  apply goes_bind; [|intros _; apply IH; intros r' Hr'; apply Hl; by right].
  apply goes_on_execution; [apply Hl; by left|]. apply cancel_active_kept.
Qed.

Lemma wp_stop d :
  DInv d → wp stop_accepting_and_cancel (λ _, Calmly (set_admission false d)) (λ _ _, False) d.
Proof.
  intros Hd. unfold stop_accepting_and_cancel. rewrite wp_bind, wp_modify, wp_bind, wp_get, wp_bind, wp_in_registry.
  set (d1 := set_admission false d). pose proof (stop_invariant _ Hd) as Hd1. fold d1 in Hd1.
  apply wp_io_iterate. intros l Hl. rewrite set_pty_host_id.
  eapply (wp_goes (X := Hushed) False); [|by apply hushed_refl|by intros ?? []|done].
  apply cancel_all_calm; [done|]. intros r ((sid & r') & -> & Hin)%list_elem_of_fmap.
  apply (elem_of_iteration _ _ _ _ Hl) in Hin. by eapply d_valid.
Qed.
(** * The invariant of the scene *)

(** The phases in which the submission still has the turn. *)
Definition submitting (ph : Phase A) : bool :=
  match ph with PhReserved _ | PhAccepted | PhSpawned => true | _ => false end.

Record Fine d (gone : gset string) (id : string) (ph : Phase A) t : Prop := {
  fi_id : t_turn_id t = id;
  fi_valid : Valid d t;
  fi_sound : Sound d t;
  fi_active : ∃ s, executions d !! t_cancellation t = Some s ∧ active s = Some id;
  fi_same : submitting ph = true → t_execution t = t_cancellation t;
  fi_home : ∀ sid, by_session d !! sid = Some (t_cancellation t) → sid = t_session_id t ∧ t_execution t = t_cancellation t;
  fi_open : t_session_id t ∉ gone → by_session d !! t_session_id t = Some (t_cancellation t);
  fi_young : submitting ph = true → t_audit_failure t = None;
}.

Record SceneInv sc : Prop := {
  si_daemon : DInv (daemon sc);
  si_turn : ∀ id ph t, turns sc !! id = Some (ph, t) → Fine (daemon sc) (closed sc) id ph t;
  si_busy : admission (daemon sc) = true → ∀ sid r s id, by_session (daemon sc) !! sid = Some r →
    executions (daemon sc) !! r = Some s → active s = Some id →
    ∃ ph t, turns sc !! id = Some (ph, t) ∧ t_execution t = r;
  si_used : ∀ id, is_Some (turns sc !! id) → id ∈ used sc;
}.

Lemma fine_next P (gone : string → Prop) d d' (cl cl' : gset string) id ph t :
  Next P gone d d' → (∀ b, P (t_cancellation t) (Some id) b → b = Some id) →
  (∀ sid, gone sid → sid ∈ cl') → cl ⊆ cl' → Fine d cl id ph t → Fine d' cl' id ph t.
Proof.
  intros Hn HP Hg Hc [Hid Hv Hs (s & Hs1 & Ha) Hsame Hhome Hopen Hy]. split; [done| | | |done| | |done].
  - by eapply valid_next.
  - by eapply sound_next.
  - destruct (ev_old _ _ _ _ (next_evolve _ _ _ _ Hn) _ _ Hs1) as (s' & Hs' & Hp & _). rewrite Ha in Hp.
    exists s'. split; [done|]. by apply HP.
  - intros sid Hsid. destruct (ev_made _ _ _ _ (next_evolve _ _ _ _ Hn) _ _ Hsid) as [?|Hnone]; [by apply Hhome|congruence].
  - intros Hcl. destruct (ev_kept _ _ _ _ (next_evolve _ _ _ _ Hn) (t_session_id t) (t_cancellation t)) as [Hgone|?]; [|by apply Hg in Hgone|done].
    apply Hopen. set_solver.
Qed.

Lemma fine_calm d d' cl id ph t : Calmly d d' → Fine d cl id ph t → Fine d' cl id ph t.
Proof. intros H. by eapply fine_next; [exact H|unfold unchanged|unfold nobody|]. Qed.

Lemma fine_later d cl id ph ph' t t' :
  Later t t' → Sound d t' → submitting ph' = false → Fine d cl id ph t → Fine d cl id ph' t'.
Proof.
  intros [H1 H2 H3 H4 _] Hs' Hsub [Hid [Hve Hvc] Hs Ha Hsame Hhome Hopen _].
  split; rewrite ?H1, ?H2, ?H3, ?H4; try done; [by split; rewrite ?H3, ?H4|congruence..].
Qed.

(** ** Changes of the scene *)

Definition with_daemon d (m : gmap string (Phase A * Turn A)) sc : Scene :=
  {| daemon := d; turns := m; used := used sc; closed := closed sc |}.

Lemma busy_before P gone d d' sid r s id :
  Next P gone d d' → by_session d' !! sid = Some r → executions d' !! r = Some s → active s = Some id →
  (∀ a, P r a (Some id) → a = Some id) →
  ∃ s0, by_session d !! sid = Some r ∧ executions d !! r = Some s0 ∧ active s0 = Some id.
Proof.
  intros [_ Hn] Hsid Hs Ha HP. destruct (executions d !! r) as [s0|] eqn:Hs0.
  - destruct (ev_old _ _ _ _ Hn _ _ Hs0) as (s' & Hs' & Hp & _). assert (s' = s) as -> by congruence. rewrite Ha in Hp.
    exists s0. split_and!; [|done|by apply HP]. destruct (ev_made _ _ _ _ Hn _ _ Hsid); [done|congruence].
  - rewrite (ev_new _ _ _ _ Hn _ _ Hs0 Hs) in Ha. done.
Qed.

Lemma scene_calm sc d' : SceneInv sc → Calmly (daemon sc) d' → SceneInv (with_daemon d' (turns sc) sc).
Proof.
  intros [Hd Ht Hb Hu] Hn. split; simpl; [apply Hn| | |done].
  - intros id ph t Hid. eapply fine_calm; [done|]. by apply Ht.
  - intros Hadm sid r s id Hsid Hs Ha. rewrite (ev_admission _ _ _ _ (next_evolve _ _ _ _ Hn)) in Hadm.
    destruct (busy_before _ _ _ _ _ _ _ _ Hn Hsid Hs Ha) as (s0 & Hsid0 & Hs0 & Ha0);
      [by unfold unchanged|]. by eapply Hb.
Qed.

Lemma scene_update sc id ph t ph' t' :
  SceneInv sc → turns sc !! id = Some (ph, t) → Fine (daemon sc) (closed sc) id ph' t' →
  t_cancellation t' = t_cancellation t → (submitting ph = false → t_execution t' = t_execution t) →
  SceneInv (with_daemon (daemon sc) (<[id := (ph', t')]> (turns sc)) sc).
Proof.
  intros [Hd Ht Hb Hu] Hid Hf Hc He. split; simpl; [done|..].
  - intros id2 ph2 t2 [[<- [= <- <-]]|[_ ?]]%lookup_insert_Some; [done|by apply Ht].
  - intros Hadm sid r s id2 Hsid Hs Ha. destruct (Hb Hadm _ _ _ _ Hsid Hs Ha) as (ph2 & t2 & Hid2 & Hr).
    destruct (decide (id2 = id)) as [->|Hne]; [|exists ph2, t2; by rewrite lookup_insert_ne].
    rewrite lookup_insert_eq. exists ph', t'. split; [done|]. assert ((ph2, t2) = (ph, t)) as [= -> ->] by congruence.
    destruct (submitting ph) eqn:Hsub; [|by rewrite He].
    assert (r = t_cancellation t') as -> by (rewrite Hc; rewrite <-Hr; by apply (fi_same _ _ _ _ _ (Ht _ _ _ Hid))).
    by destruct (fi_home _ _ _ _ _ Hf _ Hsid).
  - intros id2 [x [[<- _]|[_ Hx]]%lookup_insert_Some]; apply Hu; eauto.
Qed.

(** Turn [id] is over, or given up: its session is free, unless the daemon is
    shutting down. *)
Definition Freed t id d d' : Prop :=
  (∃ r, Next (ending r id) nobody d d') ∧
  (admission d = true → ∀ sid s, by_session d' !! sid = Some (t_execution t) →
     executions d' !! t_execution t = Some s → active s ≠ Some id).

Lemma scene_end sc id ph t d' :
  SceneInv sc → turns sc !! id = Some (ph, t) → Freed t id (daemon sc) d' →
  SceneInv (with_daemon d' (delete id (turns sc)) sc).
Proof.
  intros [Hd Ht Hb Hu] Hid [[r Hn] Hfree]. split; simpl; [apply Hn|..].
  - intros id2 ph2 t2 [Hne Hid2]%lookup_delete_Some. eapply fine_next; [exact Hn| |done|done|by apply Ht].
    intros b [?|(_ & [= ?] & _)]; [done|congruence].
  - intros Hadm sid r' s id2 Hsid Hs Ha. rewrite (ev_admission _ _ _ _ (next_evolve _ _ _ _ Hn)) in Hadm.
    destruct (busy_before _ _ _ _ _ _ _ _ Hn Hsid Hs Ha) as (s0 & Hsid0 & Hs0 & Ha0).
    { intros a [?|(_ & _ & ?)]; congruence. }
    destruct (Hb Hadm _ _ _ _ Hsid0 Hs0 Ha0) as (ph2 & t2 & Hid2 & Hr).
    destruct (decide (id2 = id)) as [->|Hne]; [|exists ph2, t2; by rewrite lookup_delete_ne].
    exfalso. assert ((ph2, t2) = (ph, t)) as [= -> ->] by congruence. subst r'. by eapply (Hfree Hadm).
  - intros id2 [x [_ Hx]%lookup_delete_Some]. apply Hu. eauto.
Qed.

Lemma scene_reserve sc session_id input approval limits overlay t started d' :
  SceneInv sc → Reserved session_id input approval limits overlay (daemon sc) t started d' → t_turn_id t ∉ used sc →
  SceneInv {| daemon := d'; turns := <[t_turn_id t := (PhReserved started, t)]> (turns sc);
              used := {[t_turn_id t]} ∪ used sc; closed := closed sc |}.
Proof.
  intros Hsc Hres Hfresh. pose proof Hres as [(d1 & H1 & Hn & _) Htab _ Hsid Hcan Haf _ _ _ (s1 & Hs1 & Ha1) _ _ _ _].
  pose proof (scene_calm _ _ Hsc (hushed_calm _ _ H1)) as [Hd Ht Hb Hu]. simpl in *. split; simpl; [apply Hn|..].
  - intros id ph t2 [[<- [= <- <-]]|[Hne Hid]]%lookup_insert_Some.
    + split; [done|split; [|rewrite Hcan]; by eexists| | |done|..].
      * unfold Sound. rewrite Haf. by intros [].
      * rewrite Hcan. by exists s1.
      * rewrite Hcan, Hsid. intros sid Hr. split; [|done]. by eapply (d_injective _ (next_inv _ _ _ _ Hn)).
      * by rewrite Hsid, Hcan.
      * done.
    + eapply fine_next; [exact Hn| |done|done|by apply Ht]. unfold reserving. intros b. by destruct (decide _) as [|]; [intros []|].
  - intros Hadm sid r s id Hr Hs Ha. rewrite (ev_admission _ _ _ _ (next_evolve _ _ _ _ Hn)) in Hadm.
    destruct (decide (r = t_execution t)) as [->|Hne].
    { assert (id = t_turn_id t) as -> by congruence. exists (PhReserved started), t. by rewrite lookup_insert_eq. }
    destruct (busy_before _ _ _ _ _ _ _ _ Hn Hr Hs Ha) as (s0 & Hsid0 & Hs0 & Ha0);
      [intros a; unfold reserving; by rewrite decide_False|].
    destruct (Hb Hadm _ _ _ _ Hsid0 Hs0 Ha0) as (ph2 & t2 & Hid2 & Hr2). exists ph2, t2.
    rewrite lookup_insert_ne; [done|]. intros <-. apply Hfresh, Hu. eauto.
  - intros id [x [[<- _]|[_ Hx]]%lookup_insert_Some]; [set_solver|]. apply elem_of_union_r, Hu. eauto.
Qed.
(** ** A step of a turn *)

Lemma released_freed t id d d' : t_turn_id t = id → Released t d d' → Freed t id d d'.
Proof.
  intros <- [Hn (s & Hs & Hne)]. split; [by eexists|]. intros _ sid s' _ Hs'. congruence.
Qed.

(** How a step leaves turn [id]. *)
Definition Goes_on sc (id : string) (ph : Phase A) t (o : option (Phase A * Turn A)) d' : Prop :=
  match o with
  | Some (ph', t') => Calmly (daemon sc) d' ∧ Fine d' (closed sc) id ph' t' ∧
      t_cancellation t' = t_cancellation t ∧ (submitting ph = false → t_execution t' = t_execution t) ∧
      (is_Some (t_audit_failure t) → is_Some (t_audit_failure t'))
  | None => Freed t id (daemon sc) d'
  end.

Lemma goes_on_later sc id ph ph' t t' d' :
  Fine (daemon sc) (closed sc) id ph t → Hushed (daemon sc) d' → Later t t' → Sound d' t' → submitting ph' = false →
  Goes_on sc id ph t (Some (ph', t')) d'.
Proof.
  intros Hf [Hn _] Hl Hs Hsub. split_and!; [done| |apply Hl|intros _; apply Hl|intros Ha; by rewrite (later_failure _ _ Hl Ha)].
  eapply fine_later; [exact Hl|done|done|]. by eapply fine_calm.
Qed.

Lemma goes_on_same sc id ph ph' t d' :
  Fine (daemon sc) (closed sc) id ph t → Calmly (daemon sc) d' → (submitting ph' = true → submitting ph = true) →
  Goes_on sc id ph t (Some (ph', t)) d'.
Proof.
  intros Hf Hn Hsub. split_and!; [done| |done|done|done].
  destruct (fine_calm _ _ _ _ _ _ Hn Hf) as [? ? ? ? Hsame ? ? ?]. split; auto.
Qed.

Lemma begin_goes_on sc id t : SceneInv sc → turns sc !! id = Some (PhSpawned, t) →
  wp (run_begin t) (λ o, Goes_on sc id PhSpawned t (pair PhRunning <$> o)) (λ _ _, False) (daemon sc).
Proof.
  intros Hsc Hid. pose proof (si_turn _ Hsc _ _ _ Hid) as Hf. pose proof Hf as [Hti Hv Hs Ha Hsame Hhome Hopen _].
  specialize (Hsame eq_refl). eapply wp_wand; [apply wp_run_begin; [apply Hsc|done]| |done]. intros [t'|] d'; simpl.
  - intros (r & Hn & -> & Hv' & Hr & Hold).
    split_and!; [done| |done|done|done]. pose proof (fine_calm _ _ _ _ _ _ Hn Hf) as [_ _ Hs' Ha' _ Hhome' Hopen' _].
    split; simpl; try done. intros sid Hsid. destruct (Hhome' _ Hsid) as [-> _]. split; [done|]. congruence.
  - intros (r & e & d1 & H1 & [H2 (s & s' & _ & Hs' & Hne & _)] & Hr & _). rewrite Hti in H2, Hne.
    split; [exists r; by eapply calm_ending|]. intros _ sid s2 Hsid Hs2. rewrite Hsame in Hsid, Hs2.
    pose proof (calm_ending _ _ _ _ _ H1 H2) as Hn.
    destruct (ev_made _ _ _ _ (next_evolve _ _ _ _ Hn) _ _ Hsid) as [Hsid0|Hnone]; [|destruct Ha as (? & ? & _); congruence].
    destruct (Hhome _ Hsid0) as [-> _].
    destruct (ev_kept _ _ _ _ (next_evolve _ _ _ _ H2) _ _ Hr) as [[]|Hr']. assert (r = t_cancellation t) as -> by congruence. congruence.
Qed.

Lemma on_turn_goes_on sc id op ph t m :
  SceneInv sc → turns sc !! id = Some (ph, t) → on_turn id op ph t = Some m →
  wp m (λ b, Goes_on sc id ph t b.2) (λ _, Freed t id (daemon sc)) (daemon sc).
Proof.
  intros Hsc Hid Hm. pose proof (si_turn _ Hsc _ _ _ Hid) as Hf. pose proof (si_daemon _ Hsc) as Hd.
  pose proof Hf as [Hti Hv Hs (c & Hc & Ha) Hsame _ _ _].
  destruct op, ph; simpl in Hm; try discriminate Hm; try (injection Hm as <-); try rewrite wp_bind.
  - eapply wp_wand; [by apply wp_submit_accept| |].
    + intros [] d' [Hn _ _ _]. rewrite wp_ret. by apply goes_on_same.
    + intros e d' [Hr _]. by apply released_freed.
  - eapply wp_wand; [by apply wp_submit_spawn| |].
    + intros b d' [[Hn _] _ _ _ _]. rewrite wp_ret. by apply goes_on_same.
    + intros e d' [Hn _ Hr]. rewrite Hti in Hn. split; [by eexists|]. intros Hadm.
      destruct (Hr Hadm) as [Hrel _]. by apply (released_freed _ _ _ _ Hti Hrel).
  - eapply wp_wand; [by apply begin_goes_on| |done]. intros o d' Ho. by rewrite wp_ret.
  - eapply wp_wand; [by apply wp_observe| |done]. intros t' d' (Hn & Hl & Hs'). rewrite wp_ret. by apply goes_on_later.
  - eapply wp_wand; [by apply wp_observer_approve| |done]. intros a d' [[Hn _] _]. rewrite wp_ret. by apply goes_on_same.
  - eapply wp_wand; [by apply wp_shell_output| |done]. intros a d' [Hn _]. rewrite wp_ret. by apply goes_on_same.
  - eapply wp_wand; [by apply wp_agent_finished| |done]. intros [a t'] d' (Hn & Hl & Hs'). rewrite wp_ret. by apply goes_on_later.
  - destruct (t_input t) as [|command]; [done|]. injection Hm as <-. rewrite wp_bind.
    eapply wp_wand; [by apply wp_shell_finished| |done]. intros [a t'] d' (Hn & Hl & Hs'). rewrite wp_ret. by apply goes_on_later.
  - rewrite wp_ret. apply goes_on_same; [done|by apply calm_refl|done].
  - eapply (wp_goes (X := Calmly) False); [apply calm_run_persist|by apply calm_refl| |done].
    intros p d' Hn. rewrite wp_ret. by apply goes_on_same.
  - eapply wp_the_execution; [exact Hc|]. rewrite wp_bind. eapply wp_wand; [by apply wp_run_conclude| |done].
    intros [] d' [[Hn (s & s' & _ & Hs' & Hne & _)] _]. rewrite wp_ret. rewrite Hti in Hn, Hne.
    split; [by eexists|]. intros _ sid s2 _ Hs2. congruence.
Qed.

(** Every step keeps the scene, and none panics. *)
Lemma with_turn_keeps sc id op sc1 r :
  SceneInv sc → with_turn id (on_turn id op) sc = (sc1, r) → SceneInv sc1 ∧ r ≠ Panic.
Proof.
  intros Hsc. unfold with_turn. destruct (turns sc !! id) as [[ph t]|] eqn:Hid; [|by intros [= <- <-]].
  destruct (on_turn id op ph t) as [m|] eqn:Hm; [|by intros [= <- <-]].
  pose proof (on_turn_goes_on _ _ _ _ _ _ Hsc Hid Hm) as Hw. unfold wp in Hw.
  destruct (m (daemon sc)) as [d' [[a [[ph' t']|]]|e|]]; simpl in Hw; [| | |done]; intros [= <- <-]; (split; [|done]).
  - destruct Hw as (Hn & Hf & Hc & He & _). pose proof (scene_calm _ _ Hsc Hn) as H.
    by apply (scene_update _ _ _ _ ph' t' H Hid).
  - by apply (scene_end _ _ _ _ _ Hsc Hid).
  - by apply (scene_end _ _ _ _ _ Hsc Hid).
Qed.

Lemma asking_keeps {B} (m : M B) sc sc1 r :
  SceneInv sc → wp m (λ _, Calmly (daemon sc)) (λ _, Calmly (daemon sc)) (daemon sc) →
  asking_daemon m sc = (sc1, r) → SceneInv sc1 ∧ r ≠ Panic.
Proof.
  intros Hsc Hw. unfold asking_daemon. unfold wp in Hw. destruct (m (daemon sc)) as [d' [b|e|]]; [| |done];
    intros [= <- <-]; (split; [|done]); by apply (scene_calm _ _ Hsc).
Qed.
Lemma calm_op_runs op m sc : calm_op op = Some m →
  (∃ B (f : M B), run_turn_op op sc = asking_daemon f sc ∧ m = (f;; mret ())) ∨ run_turn_op op sc = asking_daemon m sc.
Proof.
  destruct op; try discriminate; intros [= <-]; first [right; reflexivity|left; eexists _, _; split; reflexivity].
Qed.

Lemma turn_op_keeps sc op sc1 r :
  SceneInv sc → run_turn_op op sc = (sc1, r) → fresh op r sc → SceneInv sc1 ∧ r ≠ Panic.
Proof.
  intros Hsc Hrun Hfresh. pose proof (si_daemon _ Hsc) as Hd.
  destruct (calm_op op) as [m|] eqn:Hm.
  { pose proof (calm_op_calm _ _ _ Hd Hm) as Hw. destruct (calm_op_runs _ _ sc Hm) as [(B & f & Hr & ->)|Hr]; rewrite Hr in Hrun.
    - rewrite wp_bind in Hw. exact (asking_keeps f _ _ _ Hsc Hw Hrun).
    - exact (asking_keeps m _ _ _ Hsc Hw Hrun). }
  destruct (turn_of op) as [id|] eqn:Hof.
  { destruct op; try discriminate Hof; injection Hof as <-; exact (with_turn_keeps _ _ _ _ _ Hsc Hrun). }
  destruct op; try discriminate Hm; try discriminate Hof; simpl in Hrun.
  - pose proof (wp_submit_reserve session_id input approval limits overlay _ Hd) as Hw. unfold wp in Hw.
    destruct (submit_reserve _ _ _ _ _ _) as [d' [[t started]|e|]]; [| |done]; injection Hrun as <- <-; (split; [|done]).
    + by apply (scene_reserve sc session_id input approval limits overlay).
    + apply (scene_calm _ _ Hsc), Hw.
  - pose proof (wp_cancel_and_remove session_id _ Hd) as Hw. unfold wp, asking_daemon in *.
    destruct (cancel_and_remove _ _) as [d' [[]|e|]]; [|done..]. injection Hrun as <- <-. split; [|done].
    destruct Hsc as [_ Ht Hb Hu]. split; simpl; [apply Hw| | |done].
    + intros id ph t Hid. eapply (fine_next _ _ _ _ (closed sc)); [exact Hw|by unfold unchanged|set_solver|set_solver|by apply Ht].
    + intros Hadm sid r s id Hsid Hs Ha. rewrite (ev_admission _ _ _ _ (next_evolve _ _ _ _ Hw)) in Hadm.
      destruct (busy_before _ _ _ _ _ _ _ _ Hw Hsid Hs Ha) as (s0 & Hsid0 & Hs0 & Ha0); [by unfold unchanged|]. by eapply Hb.
  - pose proof (wp_stop _ Hd) as Hw. unfold wp, asking_daemon in *.
    destruct (stop_accepting_and_cancel _) as [d' [[]|e|]]; [|done..]. injection Hrun as <- <-. split; [|done].
    destruct Hsc as [_ Ht Hb Hu]. split; simpl; [apply Hw| | |done].
    + intros id ph t Hid. eapply fine_calm; [exact Hw|]. destruct (Ht _ _ _ Hid) as [? [? ?] ? ? ? ? ? ?]. by split.
    + intros Hadm. by rewrite (ev_admission _ _ _ _ (next_evolve _ _ _ _ Hw)) in Hadm.
Qed.

Lemma scene_new_inv p h : HostInv h → SceneInv (scene_new p h).
Proof.
  intros Hh. split; simpl; [split; simpl; [done| | |done]|..].
  - intros sid r. by rewrite lookup_empty.
  - intros sid sid' r. by rewrite lookup_empty.
  - intros id ph t. by rewrite lookup_empty.
  - intros _ sid r s id. by rewrite lookup_empty.
  - intros id. rewrite lookup_empty. by intros [].
Qed.

Lemma turns_sound sc log sc' : SceneInv sc → TurnHistory sc log sc' → SceneInv sc' ∧ (∀ op, (op, Panic) ∉ log).
Proof.
  intros Hsc Hlog. induction Hlog as [sc|sc op r sc1 log sc' Hrun Hfresh _ IH]; [split; [done|]; intros op; apply not_elem_of_nil|].
  destruct (turn_op_keeps _ _ _ _ Hsc Hrun Hfresh) as [Hsc1 Hr]. destruct (IH Hsc1) as [Hsc' Hno]. split; [done|].
  intros op'. rewrite not_elem_of_cons. split; [congruence|done].
Qed.

(** C25: A session runs one turn at a time, and no turn is lost. Whatever clients, turns, terminal jobs and
    the operator do, interleaved in any order: nothing panics; two turns that are under way - being
    submitted, running, or ending - in a session that was not closed are the same turn; and as long
    as the daemon accepts turns, a session whose journal says a turn is active has that turn under
    way, so that something will end it and free the session. *)
Theorem one_turn_at_a_time p h log sc :
  HostInv h → TurnHistory (scene_new p h) log sc →
  (∀ op, (op, Panic) ∉ log) ∧
  (∀ id1 id2 ph1 ph2 t1 t2, turns sc !! id1 = Some (ph1, t1) → turns sc !! id2 = Some (ph2, t2) →
     t_session_id t1 = t_session_id t2 → t_session_id t1 ∉ closed sc → id1 = id2) ∧
  (admission (daemon sc) = true → ∀ sid r s id, by_session (daemon sc) !! sid = Some r →
     executions (daemon sc) !! r = Some s → active s = Some id → is_Some (turns sc !! id)).
Proof.
  intros Hh Hlog. destruct (turns_sound _ _ _ (scene_new_inv p h Hh) Hlog) as [[_ Ht Hb _] Hno].
  split; [done|]. split.
  - intros id1 id2 ph1 ph2 t1 t2 H1 H2 Hsid Hopen.
    destruct (Ht _ _ _ H1) as [_ _ _ (s1 & Hs1 & Ha1) _ _ Ho1 _], (Ht _ _ _ H2) as [_ _ _ (s2 & Hs2 & Ha2) _ _ Ho2 _].
    specialize (Ho1 Hopen). rewrite Hsid in Ho1, Hopen. specialize (Ho2 Hopen). congruence.
  - intros Hadm sid r s id Hsid Hs Ha. destruct (Hb Hadm _ _ _ _ Hsid Hs Ha) as (ph & t & -> & _). eauto.
Qed.
(** * Turns without audit *)

(** The audit service has refused a record of turn [id]. *)
Definition Refused_record sc (id : string) : Prop :=
  id ∈ used sc ∧ ∀ ph t, turns sc !! id = Some (ph, t) → is_Some (t_audit_failure t).

(** What such a turn may still be answered. *)
Definition subdued (a : Answer) : Prop :=
  match a with
  | TaNothing => True
  | TaRecorded recorded => recorded = false
  | TaDecision d => d = Some AbortTurn
  | TaEvent event => ∃ message reason, event = KTurnFailed message reason
  | TaTurn _ => False
  end.

Lemma on_turn_subdued sc id op ph t m :
  SceneInv sc → turns sc !! id = Some (ph, t) → on_turn id op ph t = Some m → is_Some (t_audit_failure t) →
  wp m (λ b _, subdued b.1) (λ _ _, True) (daemon sc).
Proof.
  intros Hsc Hid Hm Haf. pose proof (si_turn _ Hsc _ _ _ Hid) as [Hti Hv Hs (c & Hc & Ha) _ _ _ Hy].
  pose proof (si_daemon _ Hsc) as Hd. destruct op, ph; simpl in Hm; try discriminate Hm;
    try (injection Hm as <-); try (by destruct Haf; specialize (Hy eq_refl); congruence); try rewrite wp_bind.
  - eapply wp_wand; [by apply wp_observe| |done]. intros t' d' (_ & Hl & _). rewrite wp_ret. simpl.
    destruct Haf as [e He]. rewrite (later_failure _ _ Hl), He by eauto. done.
  - eapply wp_wand; [by apply wp_observer_approve| |done]. intros a d' [_ Hstop]. rewrite wp_ret. simpl. by apply Hstop, Hs.
  - eapply wp_wand; [by apply wp_shell_output|done|done].
  - eapply wp_wand; [by apply wp_agent_finished|done|done].
  - destruct (t_input t); [done|]. injection Hm as <-. rewrite wp_bind. eapply wp_wand; [by apply wp_shell_finished|done|done].
  - done.
  - eapply (wp_goes (X := Calmly) False); [apply calm_run_persist|by apply calm_refl|done|done].
  - eapply wp_the_execution; [exact Hc|]. rewrite wp_bind. eapply wp_wand; [by apply wp_run_conclude| |done].
    intros [] d' _. rewrite wp_ret. destruct Haf as [e He]. unfold terminal_event. rewrite He.
    destruct persistence; simpl; eauto.
Qed.

Lemma refused_step sc op sc1 r id :
  SceneInv sc → run_turn_op op sc = (sc1, r) → fresh op r sc → Refused_record sc id →
  Refused_record sc1 id ∧ (∀ a, turn_of op = Some id → r = Done a → subdued a).
Proof.
  intros Hsc Hrun Hfresh [Hu Hr]. destruct (turn_of op) as [id'|] eqn:Hof.
  - assert (with_turn id' (on_turn id' op) sc = (sc1, r)) as Hw.
    { destruct op; try discriminate Hof; injection Hof as <-; exact Hrun. }
    clear Hrun. unfold with_turn in Hw. destruct (turns sc !! id') as [[ph t]|] eqn:Hid.
    2: { injection Hw as <- <-. split; [done|]. by intros a _ [= <-]. }
    destruct (on_turn id' op ph t) as [m|] eqn:Hm.
    2: { injection Hw as <- <-. split; [done|]. by intros a _ [= <-]. }
    pose proof (on_turn_goes_on _ _ _ _ _ _ Hsc Hid Hm) as Hg.
    assert (Hsub : id' = id → wp m (λ b _, subdued b.1) (λ _ _, True) (daemon sc)).
    { intros ->. eapply on_turn_subdued; [done|done|done|]. by eapply Hr. }
    unfold wp in *. destruct (m (daemon sc)) as [d' [[a [[ph' t']|]]|e|]]; simpl in *; [| | |done]; injection Hw as <- <-.
    + destruct Hg as (_ & _ & _ & _ & Haf). split; [split; [done|]; simpl|intros ? [= ->] [= <-]; by apply Hsub].
      intros ph2 t2 [[-> [= <- <-]]|[_ Ht2]]%lookup_insert_Some; [apply Haf; by eapply Hr|by eapply Hr].
    + split; [split; [done|]; simpl|intros ? [= ->] [= <-]; by apply Hsub].
      intros ph2 t2 [_ Ht2]%lookup_delete_Some. by eapply Hr.
    + split; [split; [done|]; simpl|by intros a]. intros ph2 t2 [_ Ht2]%lookup_delete_Some. by eapply Hr.
  - split; [|by intros a]. assert (turns sc1 = turns sc ∧ used sc1 = used sc ∨
      ∃ id0 x, r = Done (TaTurn id0) ∧ turns sc1 = <[id0 := x]> (turns sc) ∧ used sc1 = {[id0]} ∪ used sc ∧
        id0 ∉ used sc) as [[Ht Hus]|(id0 & x & -> & Ht & Hus & Hnew)].
    { revert Hrun. destruct op; try discriminate Hof; simpl; unfold asking_daemon;
        try (repeat case_match; intros; simplify_eq; by left).
      destruct (submit_reserve _ _ _ _ _ _) as [d' [[t started]|e|]]; intros [= <- <-]; [right|by left..].
      exists (t_turn_id t), (PhReserved started, t). split_and!; [done..|exact Hfresh]. }
    + unfold Refused_record. by rewrite Ht, Hus.
    + unfold Refused_record. rewrite Ht, Hus. split; [set_solver|]. intros ph t.
      rewrite lookup_insert_ne by (intros ->; done). by apply Hr.
Qed.

Lemma refused_history sc log sc' id :
  SceneInv sc → Refused_record sc id → TurnHistory sc log sc' →
  Refused_record sc' id ∧ (∀ op a, (op, Done a) ∈ log → turn_of op = Some id → subdued a).
Proof.
  intros Hsc Hr Hlog. induction Hlog as [sc|sc op r sc1 log sc' Hrun Hfresh _ IH].
  { split; [done|]. intros op a Hin. by apply elem_of_nil in Hin. }
  destruct (refused_step _ _ _ _ _ Hsc Hrun Hfresh Hr) as [Hr1 Ha].
  destruct (IH (proj1 (turn_op_keeps _ _ _ _ Hsc Hrun Hfresh)) Hr1) as [Hr' Hlater]. split; [done|].
  intros op' a [[= -> <-]|Hin]%elem_of_cons Hof; [by apply Ha|by eapply Hlater].
Qed.

(** C26: A turn whose events cannot be recorded is stopped. Once the audit service has refused a record of
    what a turn does, nothing the turn does later is recorded as if it had been; every approval it
    asks for is answered with an abort, whatever clients reply; it is marked cancelled, so that no
    tool starts any more; and its end is reported as a failure, never as completed or cancelled. *)
Theorem unaudited_turn_is_stopped p h before id event log sc :
  HostInv h → TurnHistory (scene_new p h) (before ++ (ToObserve id event, Done (TaRecorded false)) :: log) sc →
  (∀ op a, (op, Done a) ∈ log → turn_of op = Some id → subdued a) ∧
  (∀ ph t, turns sc !! id = Some (ph, t) → Stopped (daemon sc) t).
Proof.
  intros Hh Hlog. pose proof (scene_new_inv p h Hh) as Hsc. revert Hsc Hlog. generalize (scene_new p h). clear Hh h p.
  induction before as [|[op0 r0] before IH]; intros sc0 Hsc Hlog; inversion Hlog as [|? ? ? sc1 ? ? Hrun Hfresh Hrest]; subst.
  - destruct (turn_op_keeps _ _ _ _ Hsc Hrun Hfresh) as [Hsc1 _].
    assert (Refused_record sc1 id) as Hr.
    { simpl in Hrun. unfold with_turn in Hrun. destruct (turns sc0 !! id) as [[ph t]|] eqn:Hid; [|done].
      destruct ph; simpl in Hrun; try done. unfold mbind, Step_bind in Hrun.
      destruct (observe event t (daemon sc0)) as [d' [t'|e|]]; simpl in Hrun; try done. injection Hrun as <- Hb. split; simpl.
      - apply (si_used _ Hsc). eauto.
      - intros ph2 t2. rewrite lookup_insert_eq. intros [= <- <-]. case_bool_decide as Hn; [done|].
        by apply not_eq_None_Some in Hn. }
    destruct (refused_history _ _ _ _ Hsc1 Hr Hrest) as [[_ Hr'] Hall]. split; [done|].
    intros ph t Hid. destruct (turns_sound _ _ _ Hsc1 Hrest) as [Hsc' _].
    apply (fi_sound _ _ _ _ _ (si_turn _ Hsc' _ _ _ Hid)). by eapply Hr'.
  - eapply IH; [|exact Hrest]. by apply (turn_op_keeps _ _ _ _ Hsc Hrun Hfresh).
Qed.
End history.
Arguments Scene : clear implicits.
Arguments TurnOp : clear implicits.

(** * Turns that are run *)

Section perform.
Context {A W : Type} `{!StateSerde A, !SessionHost W, !PtyWorld A W, !EventSerde A, !TurnWorld A W}.

Definition is_fresh (op : TurnOp A) (r : Outcome string (TurnAnswer A)) (sc : Scene A W) : bool :=
  match op, r with ToReserve _ _ _ _ _, Done (TaTurn id) => bool_decide (id ∉ used sc) | _, _ => true end.

(** A history, computed; nothing when an id repeats. *)
Fixpoint perform_turns (ops : list (TurnOp A)) (sc : Scene A W) :
    option (list (TurnOp A * Outcome string (TurnAnswer A)) * Scene A W) :=
  match ops with
  | [] => Some ([], sc)
  | op :: ops =>
      let '(sc1, r) := run_turn_op op sc in
      if is_fresh op r sc then
        match perform_turns ops sc1 with Some (log, sc') => Some ((op, r) :: log, sc') | None => None end
      else None
  end.

Lemma perform_turns_history ops sc log sc' : perform_turns ops sc = Some (log, sc') → TurnHistory sc log sc'.
Proof.
  revert sc log. induction ops as [|op ops IH]; intros sc log; simpl; [intros [= <- <-]; constructor|].
  destruct (run_turn_op op sc) as [sc1 r] eqn:Hr. destruct (is_fresh op r sc) eqn:Hf; [|done].
  destruct (perform_turns ops sc1) as [[log1 sc2]|] eqn:Hp; [|done]. intros [= <- <-]. econstructor; [done| |by apply IH].
  unfold is_fresh, fresh in *. destruct op, r as [[]| |]; try done. by apply bool_decide_eq_true in Hf.
Qed.
End perform.

#[local] Existing Instance sample_pty_world.

(** An audit service that takes every record but those of tool requests. *)
Definition sample_turn_world : TurnWorld () N := {|
  duration_since_epoch w := (Some (w * 10)%N, w); spawn_turn w _ := (None, w); is_finished w _ := (false, w);
  new_runtime w := (None, w); open_audit w _ _ := w;
  append_audit w _ e := (match e with EvToolRequested _ _ _ => Some "audit service is gone" | _ => None end, w) |}.
#[export] Existing Instance sample_turn_world.

Definition sample_scene : Scene () N := scene_new daemon_policy_default sample_pty_host.

Definition sample_submission : list (TurnOp ()) := [
  ToReserve "id-0" (TurnAgent "hello") Auto None None; ToAccept "id-1"; ToSpawn "id-1"; ToBegin "id-1"].
Definition sample_turn : list (TurnOp ()) := sample_submission ++ [
  ToObserve "id-1" (AgentResponse "hi" 0 false None None); ToActive "id-0";
  ToAgentDone "id-1" TurnOk [msg_user "before"; msg_user "hello"; msg_system "hi"]; ToPersist "id-1"; ToConclude "id-1"].
Definition sample_unaudited : list (TurnOp ()) := [
  ToApproval "id-1" "call-1"; ToAgentDone "id-1" TurnOk [msg_user "before"; msg_user "hello"; msg_system "hi"];
  ToPersist "id-1"; ToConclude "id-1"].

Definition answers (ops : list (TurnOp ())) : option (list (Outcome string (TurnAnswer ()))) :=
  (λ x, x.1.*2) <$> perform_turns ops sample_scene.

(** A turn that is completed, and one whose tool request was not recorded. *)
Example sample_turn_completes :
  answers sample_turn = Some [Done (TaTurn "id-1"); Done TaNothing; Done (TaTurn "id-1"); Done TaNothing;
    Done (TaRecorded true); Done TaNothing; Done TaNothing; Done TaNothing; Done (TaEvent KTurnCompleted)].
Proof. vm_compute. reflexivity. Qed.

Example sample_turn_is_stopped :
  answers (sample_submission ++ ToObserve "id-1" (ToolRequested sample_call) :: sample_unaudited) =
  Some [Done (TaTurn "id-1"); Done TaNothing; Done (TaTurn "id-1"); Done TaNothing;
    Done (TaRecorded false); Done (TaDecision (Some AbortTurn)); Done TaNothing; Done TaNothing;
    Done (TaEvent (KTurnFailed "audit service is gone" (Some AuditUnavailable)))].
Proof. vm_compute. reflexivity. Qed.

(** A second submission is refused while the first is under way. *)
Example sample_turn_is_busy :
  last <$> answers (sample_submission ++ [ToReserve "id-0" (TurnShell "ls") Ask None None]) =
  Some (Some (Fail "session already has active turn id-1")).
Proof. vm_compute. reflexivity. Qed.

Definition run_log (ops : list (TurnOp ())) : list (TurnOp () * Outcome string (TurnAnswer ())) :=
  default [] (fst <$> perform_turns ops sample_scene).
Definition run_scene (ops : list (TurnOp ())) : Scene () N := default sample_scene (snd <$> perform_turns ops sample_scene).

Lemma run_history ops : is_Some (perform_turns ops sample_scene) → TurnHistory sample_scene (run_log ops) (run_scene ops).
Proof.
  intros [[log sc] Hp]. unfold run_log, run_scene. rewrite Hp. exact (perform_turns_history _ _ _ _ Hp).
Qed.

Lemma one_turn_at_a_time_witness :
  (λ s, active s) <$> executions (daemon (run_scene sample_submission)) !! 0 = Some (Some "id-1") ∧
  is_Some (turns (run_scene sample_submission) !! "id-1").
Proof.
  split; [vm_compute; reflexivity|].
  assert (is_Some (perform_turns sample_submission sample_scene)) as Hp by (eexists; vm_compute; reflexivity).
  destruct (one_turn_at_a_time daemon_policy_default sample_pty_host (run_log sample_submission)
    (run_scene sample_submission) (proj1 sample_pty_inv) (run_history _ Hp)) as (_ & _ & H).
  assert (∃ s, executions (daemon (run_scene sample_submission)) !! 0 = Some s ∧ active s = Some "id-1") as (s & Hs & Ha)
    by (eexists; split; vm_compute; reflexivity).
  apply (H ltac:(vm_compute; reflexivity) "id-0" 0 s "id-1"); [vm_compute; reflexivity|exact Hs|exact Ha].
Defined.

Lemma unaudited_turn_is_stopped_witness :
  Forall (λ x, match x with (op, Done a) => turn_of op = Some "id-1" → subdued a | _ => True end)
    (drop 5 (run_log (sample_submission ++ ToObserve "id-1" (ToolRequested sample_call) :: sample_unaudited))).
Proof.
  set (ops := sample_submission ++ ToObserve "id-1" (ToolRequested sample_call) :: sample_unaudited).
  assert (is_Some (perform_turns ops sample_scene)) as Hp by (eexists; vm_compute; reflexivity).
  pose proof (run_history ops Hp) as H.
  assert (run_log ops = take 4 (run_log ops) ++
    (ToObserve "id-1" (ToolRequested sample_call), Done (TaRecorded false)) :: drop 5 (run_log ops)) as Hl
    by (vm_compute; reflexivity).
  rewrite Hl in H. apply Forall_forall. intros [op [a|e|]] Hin; [|done..].
  exact (proj1 (unaudited_turn_is_stopped daemon_policy_default sample_pty_host _ _ _ _ _ (proj1 sample_pty_inv) H) op a Hin).
Defined.
