(* ===== verification/TurnsProps.v ===== *)
(** The theorems on the turns of the daemon ([Turns]). *)
From Stdlib Require Import Ascii.
From S2P Require Import Prelude Sensitive Policy Budget Compaction CompactionSpec CallId Chat Engine Effects.
From S2P Require Import AuditModel SessionModel Registry RegistrySpec RegistryProps Execution JournalSpec.
From S2P Require Import PtyStream Pty PtyJobs Turns TurnsSpec TurnsSteps TurnsHistory.
#[local] Opaque MAX_JOURNAL_EVENTS.

Section submit.
Context {A W : Type} `{!StateSerde A, !SessionHost W, !RegistryLaws A W, !PtyWorld A W, !EventSerde A, !EventLaws A,
  !TurnWorld A W}.
Abbreviation D := (Daemon A W).
Abbreviation Calmly := (Next unchanged nobody).
Implicit Types (d : D) (t : Turn A) (s : ExecutionState A).

(** A turn that was reserved and released left no trace in the executions. *)
Lemma released_calm t d d1 d2 d3 :
  Calmly d d1 → Next (reserving (t_execution t) (t_turn_id t)) nobody d1 d2 → Released t d2 d3 → Calmly d d3.
Proof.
  intros H1 H2 [H3 (s3 & Hs3 & Hne)].
  assert (Calmly d1 d3) as H; [|by eapply calm_trans].
  assert (Next (λ r a b, if decide (r = t_execution t) then a = None ∧ (b = Some (t_turn_id t) ∨ b = None) else b = a)
    nobody d1 d3) as [Hi He].
  { split; [apply H3|]. destruct H2 as [_ H2], H3 as [_ H3]. split.
    - intros r s Hs. destruct (ev_old _ _ _ _ H2 _ _ Hs) as (s2 & Hs2 & Hp2 & Hf2).
      destruct (ev_old _ _ _ _ H3 _ _ Hs2) as (s4 & Hs4 & Hp4 & Hf4). exists s4. split; [done|]. split; [|set_solver].
      unfold reserving, ending in *. destruct (decide _); intuition congruence.
    - intros r s4 Hnone Hs4. destruct (executions d2 !! r) as [s2|] eqn:Hs2.
      + destruct (ev_old _ _ _ _ H3 _ _ Hs2) as (s' & Hs' & Hp & _). assert (s' = s4) as -> by congruence.
        rewrite (ev_new _ _ _ _ H2 _ _ Hnone Hs2) in Hp. unfold ending in Hp. intuition congruence.
      + by eapply (ev_new _ _ _ _ H3).
    - intros sid r Hr. destruct (ev_kept _ _ _ _ H2 _ _ Hr) as [[]|Hr2]. apply (ev_kept _ _ _ _ H3 _ _ Hr2).
    - intros sid r Hr. destruct (ev_made _ _ _ _ H3 _ _ Hr) as [Hr2|Hnone]; [by eapply (ev_made _ _ _ _ H2)|].
      right. destruct (executions d1 !! r) as [s|] eqn:Hs; [|done].
      destruct (ev_old _ _ _ _ H2 _ _ Hs) as (? & ? & _). congruence.
    - by rewrite (ev_policy _ _ _ _ H3), (ev_policy _ _ _ _ H2).
    - by rewrite (ev_admission _ _ _ _ H3), (ev_admission _ _ _ _ H2). }
  split; [done|]. destruct He as [Ho Hn Hk Hm Hp Ha]. split; try done.
  intros r s Hs. destruct (Ho _ _ Hs) as (s' & Hs' & Hp' & Hf'). exists s'. split; [done|]. split; [|done].
  unfold unchanged. destruct (decide _) as [->|]; [|done]. destruct Hp' as [-> [Hb|Hb]]; [|done].
  assert (s' = s3) as -> by congruence. done.
Qed.

(** What an accepted submission leaves. *)
Record Submitted session_id input requested_approval requested_limits overlay d (id : string) d' : Prop := {
  su_turn : ∃ t requested limits requested_limits',
    t_turn_id t = id ∧ t_session_id t = session_id ∧ t_input t = input ∧ t_overlay t = overlay ∧
    t_approval t = clamp_to requested_approval (dp_max_approval (policy d)) ∧
    t_limits t = (limits_clamp_to (default limits_default requested_limits) (dp_max_limits (policy d))).1 ∧
    reg d' = begun t (reg d) ∧ (∃ d1 d2, Calmly d d1 ∧
      Next (reserving (t_execution t) id) nobody d1 d2 ∧ Calmly d2 d') ∧
    by_session d' !! session_id = Some (t_execution t) ∧
    ∃ s s', executions d' !! t_execution t = Some s' ∧ active s' = Some id ∧
      Recorded id (KTurnStarted input (t_approval t) requested limits requested_limits') s s';
  su_worker : id ∈ workers d';
}.

(** And a refused one. *)
Record Refused d d' : Prop := {
  re_registry : reg d' = reg d;
  re_turns : Calmly d d';
}.

(** Submitting a turn is all or nothing. If it is refused - because the session is busy or unknown, the
    daemon is shutting down, the audit service or the state file refuses, or no thread can be
    started - then no session's active turn has changed and the operations in flight are exactly
    what they were, so the session is as free as before. If it is accepted, the session's active
    turn is the one answered, it has a thread, its start is the last event of the session's journal,
    it is the operation in flight of a durable session - and it runs with the approval and the
    limits asked for, lowered to the daemon's own. *)
Lemma submit_is_all_or_nothing session_id input requested_approval requested_limits overlay d :
  DInv d → NoOrphans (reg d) → (∀ id, resolves (reg d) session_id id → id = session_id) →
  wp (submit session_id input requested_approval requested_limits overlay)
    (Submitted session_id input requested_approval requested_limits overlay d) (λ _, Refused d) d.
Proof.
  intros Hd Hno Hsel. unfold submit. rewrite wp_bind.
  eapply wp_wand; [by apply wp_submit_reserve| |intros e d' H; split; [apply (hushed_host _ _ H)|apply H]].
  intros [t started] d1 Hres. cbn [fst snd] in Hres.
  destruct Hres as [(d0 & H0 & Hn & Hh) Htab Hold Hsid Hcan Haf Hin (ra & l & rl & ->) Hov (s1 & Hs1 & Ha1)
    (rec & Hrec & Hresv & Hsnap) Happ Hlim Hadm].
  apply Hsel in Hresv. assert (Hr1 : reg d1 = reg d).
  { unfold reg. rewrite (same_registry _ _ Hh). apply (hushed_host _ _ H0). }
  assert (Hv1 : Valid d1 t) by (split; [|rewrite Hcan]; by exists s1).
  assert (Hback : ∀ d', Released t d1 d' → reg d' = reg d → Refused d d').
  { intros d' Hrel Hr. split; [done|]. eapply released_calm; [apply H0|exact Hn|done]. }
  set (started := KTurnStarted input (t_approval t) ra l rl).
  rewrite wp_bind. eapply wp_wand; [apply wp_submit_accept; [apply Hn|done]| |].
  2: { intros e d' [Hrel Hr]. apply Hback; [done|congruence]. }
  intros [] d2 [H2 Hr2 (rec' & Hrec' & Hidle) (d1' & He1 & s & s2 & Hs & Hs2 & Hrcd)].
  assert (Hfin : finished t (reg d2) = reg d).
  { rewrite Hr2, Hr1. apply finished_begun. unfold idle_session. apply eq_None_not_Some. intros [op Hop].
    destruct (Hno _ _ Hop) as (rec2 & Hrec2 & Hdur). rewrite <-Hr1 in Hrec2, Hop. assert (rec2 = rec') as -> by congruence.
    apply Hidle in Hdur. unfold idle_session in Hdur. congruence. }
  assert (Hadm2 : admission d2 = true).
  { rewrite (ev_admission _ _ _ _ (next_evolve _ _ _ _ H2)), (ev_admission _ _ _ _ (next_evolve _ _ _ _ Hn)).
    by rewrite (ev_admission _ _ _ _ (next_evolve _ _ _ _ (hushed_calm _ _ H0))). }
  eapply wp_wand; [apply wp_submit_spawn; [apply H2|by eapply valid_next]| |].
  - intros id d3 [H3 He3 -> Hw _]. split; [|rewrite Hw; set_solver].
    exists t, ra, l, rl. split_and!; [done..| | | |].
    + unfold reg in *. rewrite (same_registry _ _ (hushed_host _ _ H3)). congruence.
    + exists d0, d1. split_and!; [apply H0|done|]. eapply calm_trans; [exact H2|apply H3].
    + destruct (ev_kept _ _ _ _ (next_evolve _ _ _ _ H2) _ _ Htab) as [[]|Hr].
      destruct (ev_kept _ _ _ _ (next_evolve _ _ _ _ (hushed_calm _ _ H3)) _ _ Hr) as [[]|?]. done.
    + exists s, s2. rewrite He3. split_and!; [done| |done].
      destruct (ev_old _ _ _ _ (next_evolve _ _ _ _ H2) _ _ Hs1) as (s' & Hs' & Ha' & _). unfold unchanged in Ha'. congruence.
  - intros e d3 [_ Hr3 Hrel]. destruct (Hrel Hadm2) as [[H3 Hs3] _]. apply Hback; [|by rewrite Hr3 by congruence].
    split; [by eapply calm_ending|done].
Qed.
End submit.

(** * The end of a turn *)

Section finish.
Context {A W : Type} `{!StateSerde A, !SessionHost W, !RegistryLaws A W, !PtyWorld A W, !EventSerde A, !EventLaws A,
  !TurnWorld A W}.
Abbreviation D := (Daemon A W).
Abbreviation Calmly := (Next unchanged nobody).
Implicit Types (d : D) (t : Turn A) (s : ExecutionState A) (st : Store A W).

(** What a turn left is kept: in the table, with nothing in flight, and in the
    state file. *)
Record Persisted (id : string) (history : list (ChatMessage A)) st : Prop := {
  pe_saved : saved st;
  pe_idle : in_flight (registry st) !! id = None;
  pe_history : ∃ rec, sessions (registry st) !! id = Some rec ∧ s_history (sr_snapshot rec) = history;
}.

(** Why it is not: the directory or the session is gone or the clock or the
    state file failed, and the operation may still be in flight. *)
Lemma wp_update_state id cwd history st :
  Inv (registry st) →
  wp (update_execution_state id cwd history) (λ _, Persisted id history)
    (λ _ st', in_flight (registry st') = in_flight (registry st) ∨
       in_flight (registry st') = delete id (in_flight (registry st))) st.
Proof.
  intros Hinv. pose proof (quiet_refl st Hinv) as Hq. unfold update_execution_state. rewrite wp_bind.
  eapply wp_quiet_host; [apply directory_on_host|exact Hq| |]; intros cwd' st1 Hq1 Hr1; [|left; apply Hq1]. rewrite wp_bind.
  apply wp_record_of; [|intros _; left; apply Hq1]. intros rec Hid. rewrite wp_bind.
  eapply wp_on_snapshot; [apply (set_cwd_core cwd')|exact Hq1|exact Hid|]. intros st3 Hq3 _ Hs3. rewrite wp_bind.
  eapply wp_quiet_host; [apply timestamp_on_host|exact Hq3| |]; intros now st4 Hq4 Hr4; [|left; apply Hq4]. rewrite wp_bind.
  eapply wp_on_snapshot; [apply (set_last_active_core now)|exact Hq4|by rewrite Hr4, Hs3, lookup_insert_eq|].
  intros st5 Hq5 _ Hs5. rewrite wp_bind.
  eapply wp_on_snapshot; [apply (set_history_core history)|exact Hq5|by rewrite Hs5, lookup_insert_eq|].
  intros st6 Hq6 _ Hs6. rewrite wp_bind. eapply wp_expect_record; [by rewrite Hs6, lookup_insert_eq|].
  rewrite wp_bind, wp_changing, wp_bind. apply wp_persisting.
  - destruct (moved_in_flight_delete _ _ id Hq6) as [Hi _ _]. exact Hi.
  - intros text d Hs Hd. rewrite wp_ret. split; simpl.
    + exists text. by split.
    + by rewrite lookup_delete_eq.
    + rewrite Hs6. eexists. by rewrite lookup_insert_eq.
  - intros e d Hd. right. simpl. by rewrite (quiet_in_flight _ _ Hq6).
Qed.

(** What a terminal event says of the turn. *)
Definition truthful t (cancelled : bool) (result : TurnResult) st (event : SessionEventKind A) : Prop :=
  match event with
  | KTurnCompleted =>
      result = TurnOk ∧ cancelled = false ∧ t_audit_failure t = None ∧
      Persisted (t_session_id t) (s_history (t_snapshot t)) st
  | KTurnCancelled =>
      cancelled = true ∧ t_audit_failure t = None ∧ Persisted (t_session_id t) (s_history (t_snapshot t)) st
  | KTurnFailed message (Some AuditUnavailable) =>
      t_audit_failure t = Some message ∧ cancelled = true ∧ Persisted (t_session_id t) (s_history (t_snapshot t)) st
  | KTurnFailed message (Some BudgetRanOut) =>
      result = TurnErr message true ∧ cancelled = false ∧ Persisted (t_session_id t) (s_history (t_snapshot t)) st
  | KTurnFailed message None =>
      (result = TurnErr message false ∧ cancelled = false ∧ Persisted (t_session_id t) (s_history (t_snapshot t)) st) ∨
      ∃ error, message = context "cannot persist terminal turn state" error
  | _ => False
  end.

Lemma persisted_same id history d d' :
  SameHost d d' → Persisted id history (store (pty_host d)) → Persisted id history (store (pty_host d')).
Proof.
  intros [Hr Hf _] [(text & Ht & Hs) Hi Hh]. split; rewrite ?Hr; [|done..].
  exists text. unfold saves in *. by rewrite Hr, Hf.
Qed.

(** A turn ends with one event, which frees its session and tells the truth. Whatever happened to the
    turn, the end of its thread does not fail: the turn's session is not running it any more, and
    the event recorded says it completed only if the run succeeded, no record of it was refused by
    the audit service and nobody cancelled it; that it was cancelled only if it was; and that it ran
    out of its budget, or of audit, only then. In each of these cases the session's history is what
    the turn left, is in the state file, and the session has no operation in flight; otherwise the
    event says that the state could not be saved. *)
Lemma turn_end_is_truthful result t d :
  DInv d → Valid d t → Sound d t →
  wp (run_end result t) (λ _ d', ∃ d1 event, Calmly d d1 ∧ Over (t_execution t) (t_turn_id t) event d1 d' ∧
    truthful t (cancelled_in d1 t) result (store (pty_host d')) event) (λ _ _, False) d.
Proof.
  intros Hd Hv Hs. unfold run_end. rewrite wp_bind.
  assert (Hp : wp (run_persist t) (λ p d', Calmly d d' ∧ match p with inl _ => True
    | inr _ => Persisted (t_session_id t) (s_history (t_snapshot t)) (store (pty_host d')) end) (λ _ _, False) d).
  { eapply wp_wand; [eapply (wp_and _ _ _ _ (λ _ _, True)); [by apply (calm_run_persist False d t d), calm_refl|]|intros ?? H; exact H|by intros ?? [[] _]].
    unfold run_persist, attempt. rewrite wp_handle, wp_in_registry.
    by eapply wp_wand; [apply wp_update_state, reg_inv, Hd|intros ? st Hst; rewrite wp_ret; exact Hst|]. }
  eapply wp_wand; [exact Hp| |done].
  clear Hp. intros p d1 [H1 Hp]. pose proof (valid_next _ _ _ _ _ H1 Hv) as Hv1. pose proof (sound_next _ _ _ _ _ H1 Hs) as Hs1.
  eapply wp_wand; [apply wp_run_conclude; [apply H1|done]| |done]. intros [] d2 [Ho Hh].
  exists d1. eexists. split; [done|]. split; [exact Ho|].
  assert (Hcut : is_Some (t_audit_failure t) → cancelled_in d1 t = true).
  { intros (s & Hc & Hin)%Hs1. unfold cancelled_in. rewrite Hc. by rewrite bool_decide_true. }
  unfold terminal_event. destruct p as [error|descriptor]; [simpl; right; by eexists|].
  apply (persisted_same _ _ _ _ Hh) in Hp. destruct (t_audit_failure t) as [error|] eqn:Haf; simpl.
  - split_and!; [done|by apply Hcut|done].
  - destruct (cancelled_in d1 t) eqn:Hc; simpl; [done|]. destruct result as [|message []]; simpl; [done|done|by left].
Qed.

(** A durable session with an operation in flight takes no turn. *)
Lemma in_flight_blocks session_id input requested_approval requested_limits overlay rec op d :
  DInv d → sessions (reg d) !! session_id = Some rec → is_durable rec = true →
  in_flight (reg d) !! session_id = Some op →
  wp (submit session_id input requested_approval requested_limits overlay) (λ _ _, False) (λ _ _, True) d.
Proof.
  intros Hd Hrec Hdur Hop. unfold submit. rewrite wp_bind. eapply wp_wand; [by apply wp_submit_reserve| |done].
  intros [t started] d1 Hres. cbn [fst snd] in Hres.
  pose proof (rs_session _ _ _ _ _ _ _ _ _ Hres) as (rec1 & Hrec1 & [Hid|[Hnone _]] & _); [|unfold reg in *; congruence].
  destruct (rs_active _ _ _ _ _ _ _ _ _ Hres) as (s1 & Hs1 & _).
  destruct (rs_next _ _ _ _ _ _ _ _ _ Hres) as (d0 & H0 & Hn & Hh).
  assert (Hr1 : reg d1 = reg d).
  { unfold reg. rewrite (same_registry _ _ Hh). apply (hushed_host _ _ H0). }
  rewrite wp_bind. eapply wp_wand; [apply wp_submit_accept; [apply Hn|]| |done].
  { split; [|rewrite (rs_cancellation _ _ _ _ _ _ _ _ _ Hres)]; by exists s1. }
  intros [] d2 [_ _ (rec2 & Hrec2 & Hidle) _]. rewrite Hr1, Hid in Hrec2. assert (rec2 = rec) as -> by congruence.
  apply Hidle in Hdur. unfold idle_session in Hdur. rewrite Hr1, Hid in Hdur. congruence.
Qed.

(** A turn that loses its working directory blocks its session. When the directory a durable session's
    turn ends in cannot be resolved - a command removed it - the turn's end is recorded and the
    session is not running it any more, but the operation stays in flight: every later submission
    to the session is refused, whatever it asks for, until something else clears the operation. *)
Lemma lost_directory_blocks_session result t rec d :
  DInv d → Valid d t → Sound d t →
  sessions (reg d) !! t_session_id t = Some rec → is_durable rec = true →
  in_flight (reg d) !! t_session_id t = Some (operation_of t) →
  (canonicalize (world (disk (store (pty_host d)))) (d_cwd (s_descriptor (t_snapshot t)))).1 = None →
  wp (run_end result t) (λ _ d',
    (∃ d1 e, Over (t_execution t) (t_turn_id t) (KTurnFailed e None) d1 d') ∧
    ∀ d'' input requested_approval requested_limits overlay, DInv d'' → reg d'' = reg d' →
      wp (submit (t_session_id t) input requested_approval requested_limits overlay) (λ _ _, False) (λ _ _, True) d'')
    (λ _ _, False) d.
Proof.
  intros Hd Hv Hs Hrec Hdur Hop Hlost. unfold run_end. rewrite wp_bind.
  assert (Hp : wp (run_persist t) (λ p d', Calmly d d' ∧ reg d' = reg d ∧ ∃ e, p = inl e) (λ _ _, False) d).
  { unfold run_persist, attempt. rewrite wp_handle, wp_in_registry. unfold update_execution_state.
    rewrite wp_bind, wp_io. unfold validate_working_directory. rewrite wp_bind, wp_asking, wp_bind, wp_need, Hlost, wp_ret.
    split_and!; [|done|by eexists]. apply registry_calm; [done|]. apply (reg_inv _ Hd). }
  eapply wp_wand; [exact Hp| |done]. clear Hp. intros p d1 (H1 & Hr1 & e & ->).
  eapply wp_wand; [apply wp_run_conclude; [apply H1|by eapply valid_next]| |done]. intros [] d2 [Ho Hh].
  assert (Hr2 : reg d2 = reg d) by (unfold reg in *; rewrite (same_registry _ _ Hh); congruence).
  split; [by eexists _, _|]. intros d3 input ra rl overlay Hd3 Hr3.
  eapply (in_flight_blocks _ _ _ _ _ rec (operation_of t)); [done|congruence..].
Qed.
End finish.

(** * Turns that are run *)

#[local] Existing Instance sample_pty_world.

Lemma sample_daemon_inv : DInv (daemon sample_scene).
Proof. apply (si_daemon _ (scene_new_inv daemon_policy_default sample_pty_host (proj1 sample_pty_inv))). Qed.

Lemma submit_is_all_or_nothing_witness :
  wp (submit "id-0" (TurnAgent "hello") Auto None None)
    (Submitted "id-0" (TurnAgent "hello") Auto None None (daemon sample_scene)) (λ _, Refused (daemon sample_scene))
    (daemon sample_scene) ∧
  (submit "id-0" (TurnAgent "hello") Auto None None (daemon sample_scene)).2 = Done "id-1".
Proof.
  split; [|vm_compute; reflexivity].
  apply (submit_is_all_or_nothing "id-0" (TurnAgent "hello") Auto None None (daemon sample_scene)).
  - exact sample_daemon_inv.
  - exact (proj2 sample_pty_inv).
  - intros id [Hid|[Hnone _]]; [exact Hid|]. vm_compute in Hnone. discriminate.
Defined.

(** The turns of a scene are valid. *)
Lemma run_turn_fine ops id ph (t : Turn ()) :
  is_Some (perform_turns ops sample_scene) → turns (run_scene ops) !! id = Some (ph, t) →
  DInv (daemon (run_scene ops)) ∧ Valid (daemon (run_scene ops)) t ∧ Sound (daemon (run_scene ops)) t.
Proof.
  intros Hp Hid. destruct (turns_sound _ _ _ (scene_new_inv daemon_policy_default sample_pty_host (proj1 sample_pty_inv))
    (run_history ops Hp)) as [[Hd Ht _ _] _]. destruct (Ht _ _ _ Hid). done.
Qed.

Lemma turn_end_is_truthful_witness :
  ∃ t, turns (run_scene (take 7 sample_turn)) !! "id-1" = Some (PhFinished TurnOk, t) ∧
  wp (run_end TurnOk t) (λ _ d', ∃ d1 event, Next unchanged nobody (daemon (run_scene (take 7 sample_turn))) d1 ∧
    Over (t_execution t) (t_turn_id t) event d1 d' ∧
    truthful t (cancelled_in d1 t) TurnOk (store (pty_host d')) event) (λ _ _, False)
    (daemon (run_scene (take 7 sample_turn))).
Proof.
  assert (is_Some (perform_turns (take 7 sample_turn) sample_scene)) as Hp by (eexists; vm_compute; reflexivity).
  assert (∃ t, turns (run_scene (take 7 sample_turn)) !! "id-1" = Some (PhFinished TurnOk, t)) as [t Ht]
    by (eexists; vm_compute; reflexivity).
  destruct (run_turn_fine _ _ _ _ Hp Ht) as (Hd & Hv & Hs). exists t. split; [exact Ht|].
  exact (turn_end_is_truthful TurnOk t _ Hd Hv Hs).
Defined.

(** A host on which the directory is gone once the turn has its id. *)
Definition lost_host : SessionHost N := {|
  system_time := system_time; new_v4 := new_v4;
  canonicalize w path := (if (w <? 2)%N then Some path else None, w);
  is_dir := is_dir; read_dir := read_dir; secure_directory := secure_directory; read_file := read_file;
  replace_file := replace_file; map_order := @map_order N _ |}.

#[local] Instance lost_laws : RegistryLaws () N (SessionHost0 := lost_host).
Proof. by split. Qed.

Definition lost_run : option (list (TurnOp () * Outcome string (TurnAnswer ())) * Scene () N) :=
  perform_turns (SessionHost0 := lost_host) sample_submission sample_scene.
Definition lost_scene : Scene () N := default sample_scene (snd <$> lost_run).

Lemma lost_directory_blocks_session_witness :
  ∃ t, turns lost_scene !! "id-1" = Some (PhRunning, t) ∧
  wp (run_end (SessionHost0 := lost_host) TurnOk t) (λ _ d',
    (∃ d1 e, Over (t_execution t) (t_turn_id t) (KTurnFailed e None) d1 d') ∧
    ∀ d'' input requested_approval requested_limits overlay, DInv d'' → reg d'' = reg d' →
      wp (submit (SessionHost0 := lost_host) (t_session_id t) input requested_approval requested_limits overlay)
        (λ _ _, False) (λ _ _, True) d'')
    (λ _ _, False) (daemon lost_scene).
Proof.
  assert (∃ log, lost_run = Some (log, lost_scene)) as [log Hp] by (eexists; vm_compute; reflexivity).
  assert (∃ t, turns lost_scene !! "id-1" = Some (PhRunning, t)) as [t Ht] by (eexists; vm_compute; reflexivity).
  destruct (turns_sound (SessionHost0 := lost_host) _ _ _ (scene_new_inv daemon_policy_default sample_pty_host (proj1 sample_pty_inv))
    (perform_turns_history (SessionHost0 := lost_host) _ _ _ _ Hp)) as [[Hd Hf _ _] _].
  destruct (Hf _ _ _ Ht) as [_ Hv Hs _ _ _ _ _]. exists t. split; [exact Ht|].
  assert (∃ rec, sessions (reg (daemon lost_scene)) !! "id-0" = Some rec ∧ is_durable rec = true) as (rec & Hrec & Hdur)
    by (eexists; split; vm_compute; reflexivity).
  assert (t_session_id t = "id-0" ∧ in_flight (reg (daemon lost_scene)) !! "id-0" = Some (operation_of t) ∧
    d_cwd (s_descriptor (t_snapshot t)) = "/home/rich") as (Hsid & Hop & Hcwd).
  { vm_compute in Ht. injection Ht as <-. split_and!; vm_compute; reflexivity. }
  rewrite <-Hsid in Hrec, Hop.
  apply (lost_directory_blocks_session (SessionHost0 := lost_host) TurnOk t rec (daemon lost_scene) Hd Hv Hs Hrec Hdur Hop).
  rewrite Hcwd. vm_compute. reflexivity.
Defined.
