(* ===== verification/Completion.v ===== *)
(** The line typed at the prompt: what it is ([classify_input] and
    [parse_control] of [crates/xshell-core/src/lib.rs]), and the completion of a
    shell line ([crates/xshell-session/src/completion.rs]).

    A line is text for the agent, a shell command, a shell command that keeps
    the prompt in shell mode, or a control command. Of a shell line a part is
    completed, with the names of commands and of files, written so that the
    shell reads them back.

    A Rust [str] is its UTF-8 bytes, so an index of the code is an index here
    too, and slicing inside a character panics. The host - its directories,
    [PATH] and [HOME] - is the class [CompletionHost]; the cache of command
    names is the state. *)
From Stdlib Require Import Ascii.
From S2P Require Import Prelude Effects Compaction PtyStream.

Inductive ControlCommand : Type :=
| CcHelp
| CcHistory
| CcStatus
| CcAudit (args : list string)
| CcTools
| CcModel (args : list string)
| CcLimits (args : list string)
| CcAgent (args : list string)
| CcView (rest : string)
| CcConnect (args : list string)
| CcSessions
| CcResume (args : list string)
| CcStop (args : list string)
| CcNew (args : list string)
| CcSwitch (args : list string)
| CcDetach
| CcClose (args : list string)
| CcQuit
| CcUnknown (name : string) (args : list string).

Inductive InputRoute : Type :=
| ToAgent (text : string)
| ToShell (command : string)
| ToStickyShell (command : string)
| ToControl (command : ControlCommand)
| ToNothing.

(** [char::is_whitespace] of the character at the front: its length, or 0. *)
Definition space_at (l : list ascii) : nat := ws_len (code <$> l).

(** [splitn(2, char::is_whitespace)]. *)
Fixpoint split_at_space (l : list ascii) : list ascii * option (list ascii) :=
  match l with
  | [] => ([], None)
  | c :: l' =>
      match space_at l with
      | O => let '(before, after) := split_at_space l' in (c :: before, after)
      | n => ([], Some (drop n l))
      end
  end.

(** [split_whitespace]: [word] is the beginning of a word, last byte first. *)
Fixpoint words (fuel : nat) (word : list ascii) (l : list ascii) : list (list ascii) :=
  let close := if bool_decide (word = []) then [] else [rev word] in
  match fuel, l with
  | S fuel, c :: l' =>
      match space_at l with
      | O => words fuel (c :: word) l'
      | n => close ++ words fuel [] (drop n l)
      end
  | _, _ => close
  end.

Definition split_whitespace (s : string) : list string := of_chars <$> words (String.length s) [] (chars s).

Definition parse_control (input : string) : ControlCommand :=
  let '(name, rest) := split_at_space (chars input) in
  let name := of_chars name in
  let rest := trim (of_chars (default [] rest)) in
  if bool_decide (name = "view") then CcView rest
  else
    let args := split_whitespace rest in
    if bool_decide (name = "help") then CcHelp
    else if bool_decide (name = "history") then CcHistory
    else if bool_decide (name = "status") then CcStatus
    else if bool_decide (name = "audit") then CcAudit args
    else if bool_decide (name = "tools") then CcTools
    else if bool_decide (name = "model") then CcModel args
    else if bool_decide (name = "limits") then CcLimits args
    else if bool_decide (name = "agent") then CcAgent args
    else if bool_decide (name = "connect") then CcConnect args
    else if bool_decide (name = "sessions") then CcSessions
    else if bool_decide (name = "resume") then CcResume args
    else if bool_decide (name = "stop") then CcStop args
    else if bool_decide (name = "new") then CcNew args
    else if bool_decide (name = "switch") then CcSwitch args
    else if bool_decide (name = "detach") then CcDetach
    else if bool_decide (name = "close") then CcClose args
    else if bool_decide (name = "quit" ∨ name = "exit") then CcQuit
    else CcUnknown name args.

Definition classify_input (input : string) : InputRoute :=
  let trimmed := trim input in
  if bool_decide (trimmed = "") then ToNothing
  else match strip_prefix "//" trimmed with
       | Some control => ToControl (parse_control control)
       | None =>
           match strip_prefix "$$" trimmed with
           | Some shell => ToStickyShell (trim_start shell)
           | None =>
               match strip_prefix "$" trimmed with
               | Some shell => ToShell (trim_start shell)
               | None => ToAgent trimmed
               end
           end
       end.

(** ** Words *)

(** What is between words is white space, and no word is empty. *)
Lemma words_not_empty fuel word l : Forall (λ w, w ≠ []) (words fuel word l).
Proof.
  assert (Hclose : ∀ word : list ascii, Forall (λ w, w ≠ []) (if bool_decide (word = []) then [] else [rev word])).
  { intros v. case_bool_decide as Hv; [constructor|]. apply Forall_singleton. intros Hr. apply Hv. by rewrite <-(rev_involutive v), Hr. }
  revert word l. induction fuel as [|fuel IH]; intros word [|c l]; simpl; try apply Hclose.
  destruct (space_at (c :: l)); [apply IH|]. apply Forall_app. split; [apply Hclose|apply IH].
Qed.

Lemma split_at_space_front l before after : split_at_space l = (before, after) → before `prefix_of` l.
Proof.
  revert before. induction l as [|c l IH]; intros before; simpl; [intros [= <- _]; apply prefix_nil|].
  destruct (space_at (c :: l)); [|intros [= <- _]; apply prefix_nil].
  destruct (split_at_space l) as [b a] eqn:Hs. intros [= <- ->]. by apply prefix_cons, IH.
Qed.

(** A line goes to the shell or to the control commands only by its first
    characters, and reaches the agent as it was typed but for white space
    around it. *)
Lemma agent_gets_the_text input text :
  classify_input input = ToAgent text ↔
  text = trim input ∧ text ≠ "" ∧ String.prefix "//" text = false ∧ String.prefix "$" text = false.
Proof.
  unfold classify_input, strip_prefix. case_bool_decide as He; [split; [done|intros (-> & Hn & _); done]|].
  destruct (String.prefix "//" (trim input)) eqn:H1; [naive_solver congruence|].
  destruct (String.prefix "$$" (trim input)) eqn:H2.
  - split; [done|]. intros (-> & _ & _ & H3). exfalso. destruct (trim input) as [|c s]; [done|]. cbn [String.prefix] in H2, H3.
    destruct (Ascii.ascii_dec "$" c); [by destruct s|done].
  - destruct (String.prefix "$" (trim input)) eqn:H3; naive_solver congruence.
Qed.

Example routes :
  (classify_input "  inspect this  ", classify_input "$$  git status --short", classify_input "//connect host  --session cad",
   classify_input "//view --as rst docs/a b.rst", classify_input "//") =
  (ToAgent "inspect this", ToStickyShell "git status --short", ToControl (CcConnect ["host"; "--session"; "cad"]),
   ToControl (CcView "--as rst docs/a b.rst"), ToControl (CcUnknown "" [])).
Proof. vm_compute. reflexivity. Qed.

(** ** Completing a shell line *)

Definition MAX_INPUT_BYTES : N := 16 * 1024.
Definition MAX_CANDIDATES : nat := 256.
Definition MAX_SCANNED_ENTRIES : nat := N.to_nat (32 * 1024).
Definition MAX_CANDIDATE_BYTES : N := 4 * 1024.
(** In milliseconds. *)
Definition COMMAND_CACHE_TTL : N := 30 * 1000.

Definition SHELL_BUILTINS : list string := [
  "alias"; "bg"; "cd"; "command"; "echo"; "eval"; "exec"; "export"; "false"; "fg"; "jobs";
  "kill"; "printf"; "pwd"; "read"; "set"; "test"; "true"; "type"; "ulimit"; "umask"; "unalias";
  "unset"; "wait"].

Record ShellCompletionCandidate := {
  display : string;
  replacement : string;
}.

Record ShellCompletionResult := {
  start : nat;
  candidates : list ShellCompletionCandidate;
}.

(** ** Characters *)

(** [str::chars], each character as its bytes. *)
Fixpoint characters (l : list ascii) : list (list ascii) :=
  match l with
  | [] => []
  | c :: l =>
      match characters l with
      | (d :: w) :: ws => if starts_character d then [c] :: (d :: w) :: ws else (c :: d :: w) :: ws
      | ws => [c] :: ws
      end
  end.

(** [char::is_control]: the general category Cc. *)
Definition is_control (w : list ascii) : bool :=
  match code <$> w with
  | [c] => (c <? 32)%N || (c =? 127)%N
  | [c; d] => (c =? 194)%N && (d <? 160)%N
  | _ => false
  end.

Definition one_of (s : string) (w : list ascii) : bool :=
  match w with [c] => contains_char c s | _ => false end.

(** [char::is_whitespace] of the character at the front. *)
Definition whitespace_at (l : list ascii) : bool := negb (ws_len (code <$> l) =? 0)%nat.

(** [str::rfind]: the byte index of the last character [p] accepts, which is
    told the rest of the text from the character on. *)
Fixpoint rfind_from (p : list ascii → bool) (i : nat) (l : list ascii) : option nat :=
  match l with
  | [] => None
  | c :: rest =>
      match rfind_from p (S i) rest with
      | Some j => Some j
      | None => if starts_character c && p l then Some i else None
      end
  end.
Definition rfind (p : list ascii → bool) (s : string) : option nat := rfind_from p 0 (chars s).

(** [&s\[i..\]] and [&s\[..i\]]. *)
Definition slice_from {E} (s : string) (i : nat) : Outcome E string :=
  if (i <=? String.length s)%nat && is_char_boundary s i
  then Done (String.substring i (String.length s - i) s) else Panic.
Definition slice_to {E} (s : string) (i : nat) : Outcome E string :=
  if (i <=? String.length s)%nat && is_char_boundary s i then Done (String.substring 0 i s) else Panic.

Definition ends_with_char (c : ascii) (s : string) : bool := bool_decide (last (chars s) = Some c).

(** [Path::join]. *)
Definition path_join (base path : string) : string :=
  if starts_with "/"%char path then path
  else if bool_decide (base = "") || ends_with_char "/"%char base then base +:+ path
  else base +:+ "/" +:+ path.

(** ** Quoting *)

Definition drop_escapes : list (list ascii) → list ascii :=
  fix go l :=
    match l with
    | [] => []
    | w :: l =>
        if bool_decide (w = [backslash]) then match l with [] => [] | w :: l => w ++ go l end
        else w ++ go l
    end.
Definition unescape_basic (fragment : string) : string := of_chars (drop_escapes (characters (chars fragment))).

(** ** The host *)

(** An entry of a directory: its name, when it is text, what [file_type] and
    [metadata] say of it. *)
Record DirEntry := {
  file_name_utf8 : option string;
  kind_is_dir : option bool;
  metadata : option (bool * N);
}.

(** [char::is_alphanumeric] outside of ASCII is a table of the standard
    library. *)
Class CompletionHost (W : Type) := {
  wide_alphanumeric : list ascii → bool;
  home_var : W → option string;
  path_var : W → option (list string);
  directory : W → string → option (list (option DirEntry));
}.

Section completion.
Context {W : Type} `{!CompletionHost W}.

Definition is_alphanumeric (w : list ascii) : bool :=
  match w with [c] => is_ascii_alphanumeric c | _ => wide_alphanumeric w end.

Definition escape_character (w : list ascii) : list ascii :=
  if is_alphanumeric w || one_of "_-.,+@%" w then w else backslash :: w.
Definition escape_basic (value : string) : string := of_chars (concat (escape_character <$> characters (chars value))).

(** ** Commands *)

Definition executable (mode : N) : bool := negb (N.land mode 73 =? 0)%N.

Definition too_long (name : string) : bool := (MAX_CANDIDATE_BYTES <? str_len name)%N.
Definition has_control (name : string) : bool := existsb is_control (characters (chars name)).

Definition command_of (entry : DirEntry) : option string :=
  match file_name_utf8 entry with
  | None => None
  | Some name =>
      if too_long name || has_control name then None
      else match metadata entry with
           | Some (true, mode) => if executable mode then Some name else None
           | _ => None
           end
  end.

(** The entries of the directories on the path, of which no more than
    [MAX_SCANNED_ENTRIES] are looked at. *)
Definition path_entries (w : W) : list DirEntry :=
  take MAX_SCANNED_ENTRIES
    (concat ((λ d, match directory w d with Some l => omap id l | None => [] end) <$> default [] (path_var w))).

Definition scan_command_catalog (w : W) : list string :=
  sort_dedup id (SHELL_BUILTINS ++ omap command_of (path_entries w)).

(** The cache: when it was filled, and with what. *)
Abbreviation Cache := (option (N * list string)).
Abbreviation M := (Step Cache string).

Definition command_catalog (w : W) (now : N) : M (list string) :=
  cached ← get;
  match cached with
  | Some (refreshed_at, commands) =>
      if (COMMAND_CACHE_TTL <=? now - refreshed_at)%N
      then modify (λ _, Some (now, scan_command_catalog w));; mret (scan_command_catalog w)
      else mret commands
  | None => modify (λ _, Some (now, scan_command_catalog w));; mret (scan_command_catalog w)
  end.

Definition complete_command (w : W) (now : N) (prefix : string) : M (list ShellCompletionCandidate) :=
  commands ← command_catalog w now;
  mret ((λ command, {| display := command; replacement := escape_basic command |}) <$>
    take MAX_CANDIDATES (filter (λ command, String.prefix prefix command = true) commands)).

(** ** Files *)

(** The directory as it was typed, and the name after it. *)
Definition split_fragment (fragment : string) : string * string :=
  match rfind (λ l, bool_decide (head l = Some "/"%char)) fragment with
  | None => ("", fragment)
  | Some slash => (String.substring 0 (slash + 1) fragment,
                   String.substring (slash + 1) (String.length fragment - (slash + 1)) fragment)
  end.

Definition search_directory (w : W) (text_directory cwd : string) : option string :=
  if bool_decide (text_directory = "") then Some cwd
  else match strip_prefix "~/" text_directory with
       | Some rest => (λ home, path_join home rest) <$> home_var w
       | None => if starts_with "/"%char text_directory then Some text_directory
                 else Some (path_join cwd text_directory)
       end.

Definition path_candidate (raw_text_directory name_prefix : string) (entry : DirEntry) :
    option ShellCompletionCandidate :=
  match file_name_utf8 entry with
  | None => None
  | Some name =>
      if too_long name || has_control name || negb (String.prefix name_prefix name) ||
         (starts_with "."%char name && negb (starts_with "."%char name_prefix))
      then None
      else
        let suffix := if default false (kind_is_dir entry) then "/" else "" in
        Some {| display := name +:+ suffix; replacement := raw_text_directory +:+ escape_basic name +:+ suffix |}
  end.

Definition complete_path (w : W) (fragment cwd : string) : list ShellCompletionCandidate :=
  let '(raw_text_directory, raw_name_prefix) := split_fragment fragment in
  let text_directory := unescape_basic raw_text_directory in
  let name_prefix := unescape_basic raw_name_prefix in
  match search_directory w text_directory cwd with
  | None => []
  | Some path =>
      match directory w path with
      | None => []
      | Some entries =>
          take MAX_CANDIDATES (sort_on display
            (omap (path_candidate raw_text_directory name_prefix) (take MAX_SCANNED_ENTRIES (omap id entries))))
      end
  end.

(** ** The line *)

(** A character that ends a word. *)
Definition separator (l : list ascii) : bool :=
  whitespace_at l || match l with c :: _ => contains_char c "|&;<>()" | [] => false end.

(** What is completed: where it starts, the text there, and what stands before
    it. *)
Definition fragment_of (prefix : string) (shell_start : nat) : Outcome string (nat * string * string) :=
  let! shell_prefix := slice_from prefix shell_start in
  let relative_start := match rfind separator shell_prefix with Some i => i + 1 | None => 0 end in
  let start := shell_start + relative_start in
  let! fragment := slice_from prefix start in
  let! before := slice_to shell_prefix relative_start in
  Done (start, fragment, trim_end before).

Definition command_position (before : string) : bool :=
  bool_decide (before = "") || ends_with_char "|"%char before || ends_with_char ";"%char before ||
  ends_with_char "&"%char before || ends_with_char "("%char before.

Definition complete_shell (w : W) (now : N) (line : string) (cursor : nat) (cwd : string) : M ShellCompletionResult :=
  ensure (negb (MAX_INPUT_BYTES <? str_len line)%N)
    ("completion input exceeds " +:+ fmt_N MAX_INPUT_BYTES +:+ " bytes");;
  ensure ((cursor <=? String.length line)%nat && is_char_boundary line cursor)
    "completion cursor is not a valid UTF-8 boundary";;
  prefix ← lift (slice_to line cursor);
  if starts_with "$"%char prefix then
    let shell_start := if String.prefix "$$" prefix then 2 else 1 in
    '(start, fragment, before) ← lift (fragment_of prefix shell_start);
    if command_position before && negb (contains_char "/"%char fragment) then
      candidates ← complete_command w now fragment;
      mret {| start := start; candidates := candidates |}
    else mret {| start := start; candidates := complete_path w fragment cwd |}
  else mret {| start := cursor; candidates := [] |}.
End completion.
