(* ===== verification/CompletionSpec.v ===== *)
(** The theorems on the completion of shell lines ([Completion]). *)
From Stdlib Require Import Ascii Sorted.
From S2P Require Import Prelude Compaction PtyStream Effects Completion.

(** * Texts and their characters *)

Lemma chars_length s : length (chars s) = String.length s.
Proof. induction s as [|c s IH]; simpl; [done|]. by f_equal. Qed.

Lemma chars_substring n m s : chars (String.substring n m s) = take m (drop n (chars s)).
Proof.
  revert n m. induction s as [|c s IH]; intros [|n] [|m]; simpl; try done.
  f_equal. apply (IH 0 m).
Qed.

Lemma chars_get i s : String.get i s = chars s !! i.
Proof. revert i. induction s as [|c s IH]; intros [|i]; simpl; auto. Qed.

Lemma chars_inj s s' : chars s = chars s' → s = s'.
Proof. intros H. rewrite <-(of_chars_chars s), <-(of_chars_chars s'). by rewrite H. Qed.

(** The first byte starts a character. *)
Definition Whole (l : list ascii) : Prop := ∀ c, head l = Some c → starts_character c = true.

(** So does every byte after an ASCII character. *)
Record Tidy (l : list ascii) : Prop := {
  tidy_whole : Whole l;
  tidy_next i c d : l !! i = Some c → (code c < 128)%N → l !! S i = Some d → starts_character d = true;
}.

Lemma starts_ascii c : (code c < 128)%N → starts_character c = true.
Proof. intros H. unfold starts_character. by rewrite (proj2 (N.ltb_lt _ _) H). Qed.

Lemma tidy_suffix l i c k : Tidy l → (code c < 128)%N → drop i l = c :: k → Tidy k.
Proof.
  intros [_ Hn] Hc Hd. split.
  - intros d Hk. eapply (Hn i c d); [|done|].
    + by rewrite <-(Nat.add_0_r i), <-lookup_drop, Hd.
    + rewrite <-Nat.add_1_r, <-lookup_drop, Hd. by destruct k.
  - intros j a b Ha Hlt Hb. eapply (Hn (i + S j) a b); [|done|].
    + by rewrite <-lookup_drop, Hd.
    + by rewrite <-Nat.add_succ_r, <-lookup_drop, Hd.
Qed.

Lemma tidy_prefix l i : Tidy l → Tidy (take i l).
Proof.
  intros [Hw Hn]. split.
  - intros c Hc. apply Hw. destruct i, l; simpl in *; congruence.
  - intros j c d Hc Hlt Hd. apply lookup_take_Some in Hc as [Hc _]. apply lookup_take_Some in Hd as [Hd _]. eauto.
Qed.

Lemma continuation_starts c : continuation c = true → starts_character c = false.
Proof.
  unfold continuation, in_range, starts_character. rewrite andb_true_iff, !N.leb_le. intros [??].
  apply orb_false_iff. rewrite N.ltb_ge, N.leb_gt. lia.
Qed.

(** What [utf8_valid] reads at a time: an ASCII character, or a longer one. *)
Lemma utf8_step l :
  utf8_valid l = true → l = [] ∨
  ∃ c w k, l = c :: w ++ k ∧ utf8_valid k = true ∧ starts_character c = true ∧
    (w = [] ∨ (128 ≤ code c)%N ∧ Forall (λ d, (128 ≤ code d)%N) w).
Proof.
  assert (Hlo : ∀ lo hi d, (128 ≤ lo)%N → in_range lo hi d = true → (128 ≤ code d)%N).
  { intros lo hi d Hl. unfold in_range. rewrite andb_true_iff, !N.leb_le. lia. }
  assert (Hst : ∀ lo hi d, (192 ≤ lo)%N → in_range lo hi d = true → starts_character d = true ∧ (128 ≤ code d)%N).
  { intros lo hi d Hl. unfold in_range, starts_character. rewrite andb_true_iff, orb_true_iff, !N.leb_le. intros. lia. }
  destruct l as [|c l]; [by left|]. simpl. intros Hv. right.
  destruct (in_range 0 127 c) eqn:Hc.
  { exists c, [], l. split_and!; [done..| |by left]. apply starts_ascii. unfold in_range in Hc.
    rewrite andb_true_iff, !N.leb_le in Hc. lia. }
  destruct l as [|c1 l]; [done|]. destruct (in_range 194 223 c) eqn:Hc2.
  { rewrite andb_true_iff in Hv. destruct Hv as [H1 Hv]. destruct (Hst 194%N 223%N c ltac:(lia) Hc2) as [Hs Hlt].
    exists c, [c1], l. split_and!; [done..|]. right. split; [done|]. repeat constructor. by eapply Hlo, H1. }
  destruct l as [|c2 l]; [done|]. destruct (in_range 224 239 c) eqn:Hc3.
  { rewrite !andb_true_iff in Hv. destruct Hv as [[H1 H2] Hv]. destruct (Hst 224%N 239%N c ltac:(lia) Hc3) as [Hs Hlt].
    exists c, [c1; c2], l. split_and!; [done..|]. right. split; [done|]. repeat constructor; [|by eapply Hlo, H2].
    eapply Hlo, H1. case_bool_decide; lia. }
  destruct l as [|c3 l]; [done|].
  rewrite !andb_true_iff in Hv. destruct Hv as [[[[H0 H1] H2] H3] Hv]. destruct (Hst 240%N 244%N c ltac:(lia) H0) as [Hs Hlt].
  exists c, [c1; c2; c3], l. split_and!; [done..|]. right. split; [done|].
  repeat constructor; [|by eapply Hlo, H2|by eapply Hlo, H3]. eapply Hlo, H1. case_bool_decide; lia.
Qed.

Lemma utf8_tidy l : utf8_valid l = true → Tidy l.
Proof.
  revert l. refine (induction_ltof1 _ (@length ascii) (λ l, _ → Tidy l) _). unfold ltof. intros l IH Hv.
  destruct (utf8_step _ Hv) as [->|(c & w & k & -> & Hk & Hc & Hw)]; [split; [by intros c|intros i; by rewrite lookup_nil]|].
  assert (Tidy k) as [Hkw Hkn].
  { apply IH; [|done]. simpl. rewrite length_app. lia. }
  split; [intros d Hd; simpl in Hd; congruence|].
  intros i a b Ha Hlt Hb. destruct i as [|i]; simpl in Ha, Hb.
  - injection Ha as ->. destruct Hw as [->|[? _]]; [|lia]. apply Hkw. by destruct k.
  - rewrite lookup_app_Some in Ha. destruct Ha as [Ha|[Hi Ha]].
    + destruct Hw as [->|[_ Hw]]; [by rewrite lookup_nil in Ha|]. eapply Forall_lookup_1 in Ha; [|exact Hw]. simpl in Ha. lia.
    + rewrite lookup_app_r in Hb by lia. eapply (Hkn _ a b Ha Hlt). rewrite <-Hb. f_equal. lia.
Qed.

Lemma characters_concat l : concat (characters l) = l.
Proof.
  induction l as [|c l IH]; simpl; [done|]. rewrite <-IH at 2. destruct (characters l) as [|[|d w] ws]; simpl; try done.
  by destruct (starts_character d).
Qed.

Lemma characters_nonempty l : [] ∉ characters l.
Proof.
  induction l as [|c l IH]; simpl; [apply not_elem_of_nil|].
  destruct (characters l) as [|[|d w] ws]; rewrite ?not_elem_of_cons in *; try naive_solver.
  destruct (starts_character d); rewrite !not_elem_of_cons; naive_solver.
Qed.

(** A character: a byte that starts one and, unless it is ASCII, bytes that do
    not. *)
Definition Tail (c : ascii) (t : list ascii) : Prop :=
  Forall (λ d, starts_character d = false) t ∧ ((code c < 128)%N → t = []).
Definition Proper (w : list ascii) : Prop := ∃ c t, w = c :: t ∧ starts_character c = true ∧ Tail c t.

Lemma characters_head l : head l = head (concat (characters l)).
Proof. by rewrite characters_concat. Qed.

Lemma characters_app l k : Whole k → characters (l ++ k) = characters l ++ characters k.
Proof.
  intros Hk. induction l as [|c l IH]; simpl; [done|]. rewrite IH. destruct (characters l) as [|[|d w] ws] eqn:Hl; simpl.
  - pose proof (characters_head k) as Hh. destruct (characters k) as [|[|d w] ws]; [done|done|].
    simpl in Hh. by rewrite (Hk d Hh).
  - done.
  - by destruct (starts_character d).
Qed.

Lemma characters_cons c l : starts_character c = true → ∃ w ws, characters (c :: l) = (c :: w) :: ws.
Proof. intros Hc. simpl. destruct (characters l) as [|[|d w] ws]; eauto. destruct (starts_character d); eauto. Qed.

Lemma characters_proper l : Tidy l → Forall Proper (characters l).
Proof.
  assert (∀ l, (∀ i c d, l !! i = Some c → (code c < 128)%N → l !! S i = Some d → starts_character d = true) →
    match characters l with [] => True
    | w :: ws => Forall Proper ws ∧ ∃ c t, w = c :: t ∧ Tail c t end) as H.
  { clear l. induction l as [|c l IH]; simpl; intros Hn; [done|].
    specialize (IH (λ i, Hn (S i))). pose proof (characters_head l) as Hh.
    destruct (characters l) as [|[|d w] ws]; simpl.
    - split; [constructor|]. by exists c, [].
    - destruct IH as [_ (? & ? & ? & _)]. done.
    - destruct IH as [Hws (d' & t & [= <- <-] & Ht)]. destruct (starts_character d) eqn:Hd.
      + split; [constructor; [by exists d, w|done]|]. by exists c, [].
      + split; [done|]. exists c, (d :: w). split; [done|]. split; [by constructor; [|apply Ht]|].
        intros Hlt. rewrite (Hn 0 c d) in Hd; [done..|]. simpl in *. by destruct l. }
  intros [Hl Hn]. specialize (H l Hn). pose proof (characters_head l) as Hh. destruct (characters l) as [|w ws]; [constructor|].
  destruct H as [Hws (c & t & -> & Ht)]. constructor; [|done]. exists c, t. split_and!; [done| |done]. apply Hl. by rewrite Hh.
Qed.

Lemma characters_proper_one w : Proper w → characters w = [w].
Proof.
  intros (c & t & -> & _ & Ht & _). revert c. induction Ht as [|d t Hd Ht IH]; intros c; [done|].
  change (characters (c :: d :: t)) with (match characters (d :: t) with
    | (d :: w) :: ws => if starts_character d then [c] :: (d :: w) :: ws else (c :: d :: w) :: ws | ws => [c] :: ws end).
  by rewrite IH, Hd.
Qed.

Lemma proper_whole w k : Proper w → Whole (w ++ k).
Proof. intros (c & t & -> & Hc & _) d [= <-]. done. Qed.

Lemma characters_of_concat ws : Forall Proper ws → characters (concat ws) = ws ∧ Whole (concat ws).
Proof.
  induction 1 as [|w ws Hw Hws [IH1 IH2]]; [by split|]. simpl. split; [|by apply proper_whole].
  rewrite characters_app by done. by rewrite IH1, characters_proper_one.
Qed.

(** ** The last of them *)

Lemma rfind_from_None p i l :
  rfind_from p i l = None ↔ ∀ k c rest, drop k l = c :: rest → starts_character c = true → p (c :: rest) = false.
Proof.
  revert i. induction l as [|d l IH]; intros i; simpl.
  - split; [|done]. intros _ k c rest. by rewrite drop_nil.
  - destruct (rfind_from p (S i) l) eqn:Hr.
    + split; [done|]. intros H. assert (rfind_from p (S i) l = None) as Hn by (apply IH; intros k; apply (H (S k))). congruence.
    + pose proof Hr as Hl. rewrite IH in Hl. destruct (starts_character d && p (d :: l)) eqn:Hd.
      * split; [done|]. intros H. apply andb_true_iff in Hd as [Hs Hp]. rewrite (H 0 d l) in Hp by done. done.
      * split; [|done]. intros _ [|k] c rest; [|by apply Hl]. intros [= <- <-] Hs. by rewrite Hs in Hd.
Qed.

Lemma rfind_from_Some p i l j :
  rfind_from p i l = Some j →
  ∃ k c rest, j = i + k ∧ drop k l = c :: rest ∧ starts_character c = true ∧ p (c :: rest) = true ∧
    ∀ i', rfind_from p i' rest = None.
Proof.
  revert i. induction l as [|d l IH]; intros i; simpl; [done|]. destruct (rfind_from p (S i) l) as [j'|] eqn:Hr.
  - intros [= ->]. destruct (IH _ Hr) as (k & c & rest & -> & H). exists (S k), c, rest. split; [lia|done].
  - destruct (starts_character d && p (d :: l)) eqn:Hd; [|done]. intros [= <-]. apply andb_true_iff in Hd as [Hs Hp].
    exists 0, d, l. split_and!; [lia|done..|]. intros i'. rewrite rfind_from_None in *. done.
Qed.

(** * Quoting *)

Lemma drop_escapes_snoc ws w k :
  w ≠ [backslash] → drop_escapes (ws ++ w :: k) = drop_escapes (ws ++ [w]) ++ drop_escapes k.
Proof.
  intros Hw. revert ws. refine (induction_ltof1 _ (@length (list ascii)) (λ ws, _) _). unfold ltof.
  intros [|v ws] IH; simpl.
  - rewrite !bool_decide_false by done. by rewrite app_nil_r.
  - case_bool_decide as Hv.
    + destruct ws as [|u ws]; simpl; [by rewrite app_nil_r|]. rewrite (IH ws) by (simpl; lia). by rewrite app_assoc.
    + rewrite (IH ws) by (simpl; lia). by rewrite app_assoc.
Qed.

(** The text of a directory as it is typed: nothing, or up to a slash. *)
Definition DirText (dir : string) : Prop := dir = "" ∨ ends_with_char "/"%char dir = true.

Lemma unescape_dir dir s :
  DirText dir → Whole (chars s) → unescape_basic (dir +:+ s) = unescape_basic dir +:+ unescape_basic s.
Proof.
  intros Hdir Hs. apply chars_inj. unfold unescape_basic. rewrite chars_of_chars, !chars_app, !chars_of_chars, characters_app by done.
  destruct Hdir as [->|Hdir]; [done|]. unfold ends_with_char in Hdir. apply bool_decide_eq_true in Hdir.
  apply last_Some in Hdir as [l ->]. rewrite (characters_app l ["/"%char]) by by intros c [= <-].
  rewrite <-app_assoc. apply drop_escapes_snoc. by intros [=].
Qed.

Section completion.
Context {W : Type} `{!CompletionHost W}.

Lemma escape_basic_chars s : chars (escape_basic s) = concat (escape_character <$> characters (chars s)).
Proof. apply chars_of_chars. Qed.

Lemma escape_words ws :
  Forall Proper ws → ∃ vs, Forall Proper vs ∧ concat (escape_character <$> ws) = concat vs ∧
    ∀ k, drop_escapes (vs ++ k) = concat ws ++ drop_escapes k.
Proof.
  induction 1 as [|w ws Hw Hws (vs & Hvs & Hc & Hd)]; [by exists []|].
  rewrite fmap_cons. cbn [concat]. rewrite Hc. unfold escape_character at 1.
  destruct (is_alphanumeric w || one_of "_-.,+@%" w) eqn:He.
  - exists (w :: vs). split_and!; [by constructor|done|]. intros k. simpl.
    rewrite bool_decide_false; [by rewrite Hd, app_assoc|]. intros ->. by vm_compute in He.
  - exists ([backslash] :: w :: vs). split_and!; [|done|intros k; simpl; by rewrite Hd, app_assoc].
    constructor; [|by constructor]. by exists backslash, [].
Qed.

Lemma escape_whole s : Tidy (chars s) → Whole (chars (escape_basic s)).
Proof.
  intros Hs. rewrite escape_basic_chars. destruct (escape_words _ (characters_proper _ Hs)) as (vs & Hvs & -> & _).
  apply (characters_of_concat _ Hvs).
Qed.

(** A name that was escaped is read back, whatever follows it. *)
Lemma unescape_escape name s :
  Tidy (chars name) → Whole (chars s) → unescape_basic (escape_basic name +:+ s) = name +:+ unescape_basic s.
Proof.
  intros Ht Hs. apply chars_inj. unfold unescape_basic. rewrite chars_of_chars, !chars_app, chars_of_chars.
  rewrite characters_app by done. rewrite escape_basic_chars.
  destruct (escape_words _ (characters_proper _ Ht)) as (vs & Hvs & -> & Hd).
  rewrite (proj1 (characters_of_concat _ Hvs)), Hd. by rewrite characters_concat.
Qed.

(** ** What a shell reads *)

(** The characters with a meaning of their own, in any position of a word. *)
Definition shell_special (c : ascii) : bool :=
  contains_char c "|&;<>()$`'*?[]#~=!{}^:/ " || bool_decide (c = quote) || (code c <? 32)%N || bool_decide (code c = 127%N).

(** The word of the shell language a text is, read character by character: a
    backslash keeps the next one, anything special ends the word. *)
Fixpoint shell_word (ws : list (list ascii)) : option (list ascii) :=
  match ws with
  | [] => Some []
  | w :: ws =>
      if bool_decide (w = [backslash]) then
        match ws with
        | [] => None
        | v :: ws => if bool_decide (v = [newline]) then None else app v <$> shell_word ws
        end
      else if existsb shell_special w then None else app w <$> shell_word ws
  end.
Definition shell_reads (s name : string) : Prop := shell_word (characters (chars s)) = Some (chars name).

Lemma special_ascii c : shell_special c = true → (code c < 128)%N.
Proof. destruct c as [[] [] [] [] [] [] [] []]; vm_compute; congruence. Qed.

Lemma proper_wide w c t : Proper w → w = c :: t → t ≠ [] → ∀ d, d ∈ w → (128 ≤ code d)%N.
Proof.
  intros (c' & t' & -> & Hc & Ht & Hlt) [= -> ->] Hne d [->|Hd]%elem_of_cons.
  - destruct (N.lt_ge_cases (code c) 128) as [H|H]; [by apply Hlt in H|done].
  - rewrite Forall_forall in Ht. apply Ht in Hd. destruct (N.lt_ge_cases (code d) 128) as [H|H]; [|done].
    apply starts_ascii in H. congruence.
Qed.

(** What is left as it is has no meaning to the shell. *)
Lemma plain_not_special w :
  Proper w → is_alphanumeric w || one_of "_-.,+@%" w = true → existsb shell_special w = false.
Proof.
  intros Hw Hp. pose proof Hw as (c & t & -> & _). destruct t as [|d t].
  - simpl in Hp. simpl. rewrite orb_false_r. revert Hp. destruct c as [[] [] [] [] [] [] [] []]; vm_compute; congruence.
  - apply existsb_false. intros e He. apply not_true_iff_false. intros Hs%special_ascii.
    pose proof (proper_wide _ _ _ Hw eq_refl ltac:(done) e He). lia.
Qed.

Lemma escaped_word ws :
  Forall Proper ws → Forall (λ w, is_control w = false) ws →
  ∃ vs, Forall Proper vs ∧ concat (escape_character <$> ws) = concat vs ∧ shell_word vs = Some (concat ws).
Proof.
  induction 1 as [|w ws Hw Hws IH]; intros Hc; [by exists []|].
  apply Forall_cons_1 in Hc as [Hcw Hcs]. destruct (IH Hcs) as (vs & Hvs & He & Hr).
  rewrite fmap_cons. cbn [concat]. rewrite He. unfold escape_character at 1.
  destruct (is_alphanumeric w || one_of "_-.,+@%" w) eqn:Hp.
  - exists (w :: vs). split_and!; [by constructor|done|]. simpl.
    rewrite bool_decide_false by (intros ->; by vm_compute in Hp). by rewrite (plain_not_special _ Hw Hp), Hr.
  - exists ([backslash] :: w :: vs). split_and!; [|done|].
    + constructor; [|by constructor]. by exists backslash, [].
    + simpl. rewrite bool_decide_false by (intros ->; by vm_compute in Hcw). by rewrite Hr.
Qed.

Lemma escaped_reads name :
  Tidy (chars name) → has_control name = false → shell_reads (escape_basic name) name.
Proof.
  intros Ht Hc. unfold shell_reads. rewrite escape_basic_chars.
  destruct (escaped_word _ (characters_proper _ Ht)) as (vs & Hvs & -> & Hr).
  - apply Forall_forall. intros w Hw. unfold has_control in Hc. rewrite existsb_false in Hc. by apply Hc.
  - rewrite (proj1 (characters_of_concat _ Hvs)), Hr. by rewrite characters_concat.
Qed.

(** ** Candidates *)

Lemma split_fragment_spec fragment :
  Tidy (chars fragment) →
  fragment = (split_fragment fragment).1 +:+ (split_fragment fragment).2 ∧ DirText (split_fragment fragment).1 ∧
  Whole (chars (split_fragment fragment).2) ∧ "/"%char ∉ chars (split_fragment fragment).2.
Proof.
  intros Ht. assert (Hno : ∀ i l, rfind_from (λ l, bool_decide (head l = Some "/"%char)) i l = None → "/"%char ∉ l).
  { intros i l Hr Hin. apply list_elem_of_lookup in Hin as [k Hk].
    rewrite rfind_from_None in Hr. specialize (Hr k "/"%char (drop (S k) l) ltac:(by apply drop_S) eq_refl). done. }
  unfold split_fragment, rfind. destruct (rfind_from _ _ _) as [j|] eqn:Hr; [|split_and!; [done|by left|apply Ht|by eapply Hno]].
  apply rfind_from_Some in Hr as (k & c & rest & -> & Hd & _ & Hc & Hlast). simpl in Hc. apply bool_decide_eq_true in Hc as [= ->].
  simpl.
  assert (Hk : chars fragment = (take k (chars fragment) ++ ["/"%char]) ++ rest).
  { rewrite <-(take_drop k (chars fragment)) at 1. by rewrite Hd, <-app_assoc. }
  assert (Hlen : k < length (chars fragment)).
  { destruct (Nat.lt_ge_cases k (length (chars fragment))); [done|]. by rewrite drop_ge in Hd. }
  assert (Htake : take (k + 1) (chars fragment) = take k (chars fragment) ++ ["/"%char]).
  { rewrite Hk at 1. rewrite take_app_length' by (rewrite length_app, length_take; simpl; lia). done. }
  assert (Hdrop : drop (k + 1) (chars fragment) = rest) by (by rewrite <-drop_drop, Hd).
  split_and!.
  - apply chars_inj. rewrite chars_app, !chars_substring. rewrite drop_0, Htake, Hdrop.
    rewrite (take_ge rest); [exact Hk|]. rewrite <-Hdrop, length_drop, chars_length. lia.
  - right. unfold ends_with_char. rewrite chars_substring, drop_0, Htake. apply bool_decide_eq_true, last_snoc.
  - rewrite chars_substring, Hdrop, (take_ge rest) by (rewrite <-Hdrop, length_drop, chars_length; lia).
    by eapply (tidy_suffix _ _ _ _ Ht); [|exact Hd].
  - rewrite chars_substring, Hdrop, (take_ge rest) by (rewrite <-Hdrop, length_drop, chars_length; lia).
    by apply (Hno 0).
Qed.

(** The names a host lists are text. *)
Definition ListsText (w : W) : Prop :=
  ∀ path entries e name, directory w path = Some entries → Some e ∈ entries → file_name_utf8 e = Some name →
    utf8_valid (chars name) = true.

(** The directory a text names, from where the session is. *)
Inductive NamesDirectory (w : W) (cwd : string) : string → string → Prop :=
| names_here : NamesDirectory w cwd "" cwd
| names_home rest home : home_var w = Some home → NamesDirectory w cwd ("~/" +:+ rest) (path_join home rest)
| names_absolute rest : NamesDirectory w cwd ("/" +:+ rest) ("/" +:+ rest)
| names_relative text :
    text ≠ "" → String.prefix "~/" text = false → String.prefix "/" text = false →
    NamesDirectory w cwd text (path_join cwd text).

(** A file completes what was typed of its name: a hidden one only if that is
    asked for, and one whose name could not be written on a line never. *)
Definition Completes (typed : string) (e : DirEntry) : Prop :=
  match file_name_utf8 e with
  | Some name =>
      (str_len name ≤ 4096)%N ∧ has_control name = false ∧ String.prefix typed name = true ∧
      (starts_with "."%char name = true → starts_with "."%char typed = true)
  | None => False
  end.
#[local] Instance Completes_dec typed e : Decision (Completes typed e).
Proof. unfold Completes. destruct (file_name_utf8 e); apply _. Defined.

(** The candidate for a file: its name, quoted so that the shell reads it, after
    the directory as it was typed. *)
Definition Writes (dir : string) (e : DirEntry) (c : ShellCompletionCandidate) : Prop :=
  ∃ name, file_name_utf8 e = Some name ∧
    let suffix := if default false (kind_is_dir e) then "/" else "" in
    display c = name +:+ suffix ∧ replacement c = dir +:+ escape_basic name +:+ suffix ∧
    shell_reads (escape_basic name) name ∧
    unescape_basic (replacement c) = unescape_basic dir +:+ name +:+ suffix.

(** The candidates for the beginning of a path: of the first 32768 files of the
    directory it names, each that completes it; the first 256 in the order of
    their names. *)
Definition FilesFor (w : W) (fragment cwd : string) (l : list ShellCompletionCandidate) : Prop :=
  ∃ dir rest, fragment = dir +:+ rest ∧ DirText dir ∧ "/"%char ∉ chars rest ∧
    unescape_basic fragment = unescape_basic dir +:+ unescape_basic rest ∧
    ((∃ path entries offered sorted,
        NamesDirectory w cwd (unescape_basic dir) path ∧ directory w path = Some entries ∧
        Forall2 (Writes dir) (filter (Completes (unescape_basic rest)) (take (N.to_nat 32768) (omap id entries))) offered ∧
        sorted ≡ₚ offered ∧ StronglySorted (key_le display) sorted ∧ l = take 256 sorted) ∨
     ((∀ path, NamesDirectory w cwd (unescape_basic dir) path → directory w path = None) ∧ l = [])).

Lemma whole_app l k : Whole l → Whole k → Whole (l ++ k).
Proof. intros Hl Hk c. destruct l; [apply Hk|]. intros [= <-]. by apply Hl. Qed.

Lemma prefix_app a b : String.prefix a b = true → ∃ c, b = a +:+ c.
Proof.
  revert b. induction a as [|x a IH]; intros b; [by exists b|]. destruct b as [|y b]; [done|]. simpl.
  destruct (ascii_dec x y) as [->|]; [|done]. intros [c ->]%IH. by exists c.
Qed.

Lemma search_directory_spec w text cwd path :
  search_directory w text cwd = Some path ↔ NamesDirectory w cwd text path.
Proof.
  unfold search_directory. case_bool_decide as He.
  { subst. split; [intros [= <-]; constructor|]. intros Hn. inv Hn; done. }
  assert (Habs : starts_with "/"%char text = String.prefix "/" text).
  { destruct text as [|c text]; [done|]. cbn [starts_with String.prefix]. destruct (ascii_dec "/" c) as [<-|Hc].
    - rewrite bool_decide_true by done. by destruct text.
    - by rewrite bool_decide_false by congruence. }
  destruct (String.prefix "~/" text) eqn:Hh.
  - apply prefix_app in Hh as [rest ->]. assert (strip_prefix "~/" ("~/" +:+ rest) = Some rest) as ->.
    { assert (∀ r, String.substring 0 (String.length r) r = r) as Hall by (induction r; simpl; congruence).
      unfold strip_prefix. simpl. destruct rest; simpl; by rewrite ?Hall. }
    split.
    + destruct (home_var w) as [home|] eqn:Hw; [|done]. intros [= <-]. by constructor.
    + intros Hn. inv Hn; [match goal with H : home_var w = _ |- _ => by rewrite H end|].
      match goal with H : String.prefix "~/" _ = false |- _ => by destruct rest end.
  - assert (strip_prefix "~/" text = None) as -> by (unfold strip_prefix; by rewrite Hh). rewrite Habs.
    destruct (String.prefix "/" text) eqn:Ha.
    + apply prefix_app in Ha as [rest ->]. split; [intros [= <-]; constructor|]. intros Hn. inv Hn; [done|].
      match goal with H : String.prefix "/" _ = false |- _ => by destruct rest end.
    + split; [intros [= <-]; by constructor|]. intros Hn.
      inv Hn; try done; match goal with r : string |- _ => by destruct r end.
Qed.

Lemma path_candidate_spec w path entries dir typed e :
  ListsText w → directory w path = Some entries → Some e ∈ entries → DirText dir →
  match path_candidate dir typed e with
  | Some c => Completes typed e ∧ Writes dir e c
  | None => ¬ Completes typed e
  end.
Proof.
  intros Hw Hents Hin Hdir. unfold path_candidate, Completes, Writes.
  destruct (file_name_utf8 e) as [name|] eqn:Hname; [|tauto].
  destruct (too_long name || _ || _ || _) eqn:Hg.
  - rewrite !orb_true_iff, negb_true_iff, andb_true_iff, negb_true_iff in Hg. unfold too_long in Hg.
    rewrite N.ltb_lt in Hg. unfold MAX_CANDIDATE_BYTES in Hg. intros (Hl & Hc & Hp & Hd).
    destruct Hg as [[[Hg|Hg]|Hg]|[Hg1 Hg2]]; [lia|congruence..|]. rewrite Hd in Hg2; done.
  - rewrite !orb_false_iff, negb_false_iff, andb_false_iff, negb_false_iff in Hg. destruct Hg as [[[Hlen Hctl] Hpre] Hdot].
    pose proof (utf8_tidy _ (Hw _ _ _ _ Hents Hin Hname)) as Hn. unfold too_long, MAX_CANDIDATE_BYTES in Hlen.
    apply N.ltb_ge in Hlen. split; [split_and!; [lia|done..|intros Hd; destruct Hdot; congruence]|].
    exists name. assert (Whole (chars (if default false (kind_is_dir e) then "/" else ""))) as Hs.
    { destruct (default _ _); intros d; [by intros [= <-]|done]. }
    split_and!; [done..|by apply escaped_reads|]. simpl.
    rewrite unescape_dir; [|done|by rewrite chars_app; apply whole_app; [apply escape_whole|]].
    rewrite unescape_escape by done. by destruct (default _ _).
Qed.

Lemma path_candidates_spec w path entries dir typed l :
  ListsText w → directory w path = Some entries → (∀ e, e ∈ l → Some e ∈ entries) → DirText dir →
  Forall2 (Writes dir) (filter (Completes typed) l) (omap (path_candidate dir typed) l).
Proof.
  intros Hw Hents Hl Hdir. induction l as [|e l IH]; [constructor|].
  specialize (IH (λ e' He', Hl e' (list_elem_of_further _ _ _ He'))).
  pose proof (path_candidate_spec w path entries dir typed e Hw Hents (Hl e (list_elem_of_here _ _)) Hdir) as Hc.
  rewrite filter_cons. cbn [omap list_omap]. destruct (path_candidate dir typed e) as [c|].
  - destruct Hc as [Hc Hwr]. rewrite decide_True by done. by constructor.
  - by rewrite decide_False by done.
Qed.

Lemma complete_path_spec w fragment cwd :
  ListsText w → Tidy (chars fragment) → FilesFor w fragment cwd (complete_path w fragment cwd).
Proof.
  intros Hw Ht. unfold complete_path, FilesFor. pose proof (split_fragment_spec fragment Ht) as (Hf & Hdir & Hrest & Hno).
  destruct (split_fragment fragment) as [dir rest]. simpl in *. subst fragment. exists dir, rest.
  split_and!; [done..|by apply unescape_dir|].
  destruct (search_directory w (unescape_basic dir) cwd) as [path|] eqn:Hpath.
  2: { right. split; [|done]. intros path Hn%search_directory_spec. congruence. }
  pose proof (proj1 (search_directory_spec _ _ _ _) Hpath) as Hnames.
  destruct (directory w path) as [entries|] eqn:Hents.
  2: { right. split; [|done]. intros path' Hn%search_directory_spec. congruence. }
  left. eexists path, entries, _, _.
  split_and!; [done..| |apply (sort_on_Permutation display)|apply (sort_on_sorted display)|done].
  apply (path_candidates_spec w path entries); [done..| |done].
  intros e He. apply elem_of_take in He as (i & Hi & _). apply list_elem_of_lookup_2, list_elem_of_omap in Hi.
  destruct Hi as (oe & Hin & Hoe). simpl in Hoe. by subst oe.
Qed.

(** The commands there are: what the shell has itself and the programs of the
    directories on the path, of whose files the first 32768 are looked at. *)
Definition listed (w : W) (d : string) : list DirEntry :=
  match directory w d with Some entries => omap id entries | None => [] end.
Definition IsCommand (w : W) (name : string) : Prop :=
  name ∈ SHELL_BUILTINS ∨
  ∃ e mode, e ∈ take (N.to_nat 32768) (concat (listed w <$> default [] (path_var w))) ∧
    file_name_utf8 e = Some name ∧ (str_len name ≤ 4096)%N ∧ has_control name = false ∧
    metadata e = Some (true, mode) ∧ N.land mode 73 ≠ 0%N.

Definition Catalogs (w : W) (commands : list string) : Prop :=
  StronglySorted (key_le id) commands ∧ NoDup commands ∧ ∀ name, name ∈ commands ↔ IsCommand w name.

(** What the cache holds was found at some time. *)
Definition Cached (cache : option (N * list string)) : Prop :=
  ∀ at_ commands, cache = Some (at_, commands) → ∃ w, ListsText w ∧ Catalogs w commands.

(** The names that are used: those found less than half a minute ago, else those
    found now, which are kept. *)
Definition Uses (w : W) (now : N) (cache cache' : option (N * list string)) (commands : list string) : Prop :=
  (∃ at_, cache = Some (at_, commands) ∧ (now < at_ + 30000)%N ∧ cache' = cache) ∨
  ((∀ at_ old, cache = Some (at_, old) → (at_ + 30000 ≤ now)%N) ∧ Catalogs w commands ∧ cache' = Some (now, commands)).

(** The candidates for the beginning of a command: the first 256 of the names
    that start with it, each of which the shell reads. *)
Definition CommandsFor (fragment : string) (commands : list string) (l : list ShellCompletionCandidate) : Prop :=
  display <$> l = take 256 (filter (λ name, String.prefix fragment name = true) commands) ∧
  Forall (λ c, shell_reads (replacement c) (display c)) l.

Lemma command_of_spec e name :
  command_of e = Some name ↔
  ∃ mode, file_name_utf8 e = Some name ∧ (str_len name ≤ 4096)%N ∧ has_control name = false ∧
    metadata e = Some (true, mode) ∧ N.land mode 73 ≠ 0%N.
Proof.
  unfold command_of, too_long, MAX_CANDIDATE_BYTES, executable.
  destruct (file_name_utf8 e) as [n|]; [|naive_solver].
  destruct (N.ltb_spec (4 * 1024) (str_len n)) as [Hl|Hl]; simpl.
  { split; [done|]. intros (? & [= ->] & ? & _). lia. }
  destruct (has_control n) eqn:Hc; [naive_solver congruence|].
  destruct (metadata e) as [[[] mode]|]; [|naive_solver..].
  destruct (N.eqb_spec (N.land mode 73) 0); simpl; [naive_solver|].
  split; [intros [= <-]; exists mode; split_and!; [done|lia|done..]|naive_solver].
Qed.

Lemma scan_catalogs w : Catalogs w (scan_command_catalog w).
Proof.
  unfold scan_command_catalog. pose proof (id_inj (A := string)) as Hid.
  split_and!; [apply sort_dedup_sorted|by apply (sort_dedup_NoDup id)|].
  intros name. rewrite (elem_of_sort_dedup id), elem_of_app, list_elem_of_omap. unfold IsCommand. f_equiv.
  change (path_entries w) with (take (N.to_nat 32768) (concat (listed w <$> default [] (path_var w)))).
  split.
  - intros (e & He & (mode & ?)%command_of_spec). eauto.
  - intros (e & mode & He & H). exists e. split; [done|]. apply command_of_spec. eauto.
Qed.

(** The shell reads every command from its quoted form. *)
Lemma builtin_text name : name ∈ SHELL_BUILTINS → utf8_valid (chars name) = true ∧ has_control name = false.
Proof.
  intros Hin. assert (forallb (λ name, utf8_valid (chars name) && negb (has_control name)) SHELL_BUILTINS = true) as H
    by (vm_compute; reflexivity).
  rewrite forallb_forall in H. specialize (H name ltac:(by apply list_elem_of_In)).
  apply andb_true_iff in H as [? ?%negb_true_iff]. done.
Qed.

Lemma command_reads w commands name :
  ListsText w → Catalogs w commands → name ∈ commands → shell_reads (escape_basic name) name.
Proof.
  intros Hw (_ & _ & Hc) [Hb|(e & mode & He & Hname & _ & Hctl & _)]%Hc.
  - apply builtin_text in Hb as [? ?]. apply escaped_reads; [by apply utf8_tidy|done].
  - apply escaped_reads; [|done]. apply elem_of_take in He as (i & Hi & _). apply list_elem_of_lookup_2 in Hi.
    apply list_elem_of_In, in_concat in Hi as (l & Hl & He). apply list_elem_of_In in Hl, He.
    apply list_elem_of_fmap in Hl as (d & -> & _). unfold listed in He. destruct (directory w d) as [entries|] eqn:Hd; simpl in He; [|by apply elem_of_nil in He].
    apply list_elem_of_omap in He as (oe & Hin & Hoe). simpl in Hoe. subst oe. apply utf8_tidy. by eapply Hw.
Qed.

Lemma command_catalog_uses w now cache :
  ∃ commands cache', command_catalog w now cache = (cache', Done commands) ∧ Uses w now cache cache' commands.
Proof.
  unfold command_catalog, mbind, Step_bind, get, Uses, COMMAND_CACHE_TTL.
  destruct cache as [[at_ commands]|].
  - destruct (N.leb_spec (30 * 1000) (now - at_)).
    + eexists _, _. split; [done|]. right. split_and!; [|apply scan_catalogs|done]. intros ? ? [= <- <-]. lia.
    + eexists _, _. split; [done|]. left. exists at_. split_and!; [done|lia|done].
  - eexists _, _. split; [done|]. right. split_and!; [done|apply scan_catalogs|done].
Qed.

Lemma complete_command_spec w now fragment cache :
  ListsText w → Cached cache →
  ∃ l cache' commands, complete_command w now fragment cache = (cache', Done l) ∧ Uses w now cache cache' commands ∧
    CommandsFor fragment commands l.
Proof.
  intros Hw Hcache. unfold complete_command, mbind, Step_bind.
  destruct (command_catalog_uses w now cache) as (commands & cache' & -> & Huse).
  eexists _, cache', commands. split_and!; [done..|]. unfold CommandsFor. split.
  - rewrite <-list_fmap_compose. apply list_fmap_id.
  - apply Forall_forall. intros c (name & -> & Hn)%list_elem_of_fmap. cbn [display replacement].
    apply elem_of_take in Hn as (i & Hi & _). apply list_elem_of_lookup_2, list_elem_of_filter in Hi as [_ Hn].
    destruct Huse as [(at_ & Hc & _)|(_ & Hc & _)].
    + destruct (Hcache _ _ Hc) as (w0 & Hw0 & Hc0). by eapply command_reads.
    + by eapply command_reads.
Qed.

(** * The line *)

Lemma is_char_boundary_lookup s i :
  is_char_boundary s i = true ↔
  i = 0 ∨ i = length (chars s) ∨ ∃ c, chars s !! i = Some c ∧ starts_character c = true.
Proof.
  unfold is_char_boundary. rewrite chars_length. destruct i as [|i]; [naive_solver|]. rewrite chars_get.
  destruct (chars s !! S i) as [c|] eqn:Hc; rewrite ?bool_decide_eq_true; [|naive_solver].
  apply lookup_lt_Some in Hc. rewrite chars_length in Hc. split; [eauto|]. intros [?|[?|(? & [= <-] & ?)]]; [done|lia|done].
Qed.

Lemma drop_cons_lt {B} i (l : list B) c rest : drop i l = c :: rest → i < length l ∧ l !! i = Some c ∧ drop (i + 1) l = rest.
Proof.
  intros Hd. split_and!; [|by rewrite <-(Nat.add_0_r i), <-lookup_drop, Hd|by rewrite <-drop_drop, Hd].
  destruct (Nat.lt_ge_cases i (length l)); [done|]. by rewrite drop_ge in Hd.
Qed.

Lemma boundary_after s i c rest :
  Tidy (chars s) → drop i (chars s) = c :: rest → (code c < 128)%N →
  (i + 1 <=? String.length s)%nat && is_char_boundary s (i + 1) = true.
Proof.
  intros Ht (Hlt & Hi & Hd)%drop_cons_lt Hc. rewrite <-chars_length, (proj2 (Nat.leb_le _ _)) by lia.
  apply is_char_boundary_lookup. right. destruct rest as [|d rest].
  - left. apply (f_equal length) in Hd. rewrite length_drop in Hd. simpl in Hd. lia.
  - right. assert (chars s !! (i + 1) = Some d) as Hn by (by rewrite <-(Nat.add_0_r (i + 1)), <-lookup_drop, Hd).
    exists d. split; [done|]. eapply (tidy_next _ Ht i c d); [done..|]. by rewrite <-Nat.add_1_r.
Qed.

(** Slicing after the character at [i], and up to it. *)
Lemma slice_after {E} s i c rest :
  Tidy (chars s) → drop i (chars s) = c :: rest → (code c < 128)%N →
  slice_from (E := E) s (i + 1) = Done (of_chars rest) ∧
  slice_to (E := E) s (i + 1) = Done (of_chars (take (i + 1) (chars s))).
Proof.
  intros Ht Hd Hc. pose proof (boundary_after _ _ _ _ Ht Hd Hc) as Hb. apply drop_cons_lt in Hd as (Hlt & _ & Hd).
  unfold slice_from, slice_to. rewrite Hb. split; f_equal; apply chars_inj; rewrite chars_substring, chars_of_chars.
  - rewrite Hd. apply take_ge. rewrite <-Hd, length_drop, chars_length. lia.
  - by rewrite drop_0.
Qed.

(** Slicing inside a character. *)
Lemma slice_inside {E} s i c d rest :
  drop i (chars s) = c :: d :: rest → starts_character d = false → slice_from (E := E) s (i + 1) = Panic.
Proof.
  intros Hd Hs. unfold slice_from.
  assert (chars s !! (i + 1) = Some d) as Hn by (by rewrite <-lookup_drop, Hd).
  replace (is_char_boundary s (i + 1)) with false; [by rewrite andb_false_r|]. symmetry. apply not_true_iff_false.
  rewrite is_char_boundary_lookup. apply lookup_lt_Some in Hn as Hlt. intros [?|[?|(c' & Hc' & ?)]]; [lia|lia|congruence].
Qed.

(** A separator that is not one byte long. *)
Definition wide (l : list ascii) : Prop := 1 < ws_len (code <$> l).

Lemma wide_next l : wide l → ∃ c d rest, l = c :: d :: rest ∧ starts_character d = false.
Proof.
  assert (∀ d, (128 ≤ code d < 192)%N → starts_character d = false) as Hs.
  { intros d Hd. unfold starts_character. apply orb_false_iff. rewrite N.ltb_ge, N.leb_gt. lia. }
  unfold wide. destruct l as [|c [|d rest]]; simpl; [lia|case_match; lia|].
  intros H. exists c, d, rest. split; [done|]. apply Hs. destruct (ascii_ws _); [lia|].
  destruct (ws_two _ _) eqn:H2.
  - unfold ws_two in H2. rewrite bool_decide_eq_true in H2. lia.
  - destruct rest; simpl in H; [lia|]. destruct (ws_three _ _ _) eqn:H3; [|lia].
    unfold ws_three in H3. rewrite bool_decide_eq_true in H3. lia.
Qed.

Lemma narrow_separator c rest : separator (c :: rest) = true → ¬ wide (c :: rest) → (code c < 128)%N ∧ separator [c] = true.
Proof.
  unfold separator, whitespace_at, wide. intros [H|H]%orb_true_iff Hn.
  - revert H Hn. rewrite negb_true_iff, Nat.eqb_neq. simpl. destruct (ascii_ws (code c)) eqn:Ha; [|destruct rest; simpl; repeat case_match; lia].
    intros _ _. simpl. split; [|done]. unfold ascii_ws in Ha. rewrite bool_decide_eq_true in Ha. lia.
  - split; [|by rewrite H, orb_true_r]. revert H. destruct c as [[] [] [] [] [] [] [] []]; vm_compute; congruence.
Qed.

(** ** What is asked for *)

Record Accepts (line : string) (cursor : nat) : Prop := {
  accepts_size : (str_len line ≤ MAX_INPUT_BYTES)%N;
  accepts_cursor : cursor ≤ String.length line;
  accepts_boundary : is_char_boundary line cursor = true;
}.

(** The command before the cursor, and how many characters stand before it. *)
Definition command_before (line : string) (cursor : nat) : option (nat * list ascii) :=
  let typed := take cursor (chars line) in
  if bool_decide (["$"%char; "$"%char] `prefix_of` typed) then Some (2, drop 2 typed)
  else if bool_decide (["$"%char] `prefix_of` typed) then Some (1, drop 1 typed)
  else None.

Definition splits_character (line : string) (cursor : nat) : Prop :=
  ∃ n l i, command_before line cursor = Some (n, l) ∧ rfind_from separator 0 l = Some i ∧ wide (drop i l).

(** A word and what stands before it in the command. *)
Record Word (l : list ascii) (before fragment : string) : Prop := {
  word_split : l = chars before ++ chars fragment;
  word_after : before = "" ∨ ∃ b c, chars before = b ++ [c] ∧ separator [c] = true;
  word_last : rfind separator fragment = None;
  word_tidy : Tidy (chars fragment);
}.

Lemma fragment_of_spec prefix n pre l :
  chars prefix = pre ++ "$"%char :: l → length pre + 1 = n → Tidy (chars prefix) →
  match rfind_from separator 0 l with
  | Some i => wide (drop i l) ∧ fragment_of prefix n = Panic ∨
      ∃ before fragment, Word l before fragment ∧ ¬ wide (drop i l) ∧
        fragment_of prefix n = Done (n + String.length before, fragment, trim_end before)
  | None => fragment_of prefix n = Done (n, of_chars l, "") ∧ Word l "" (of_chars l)
  end.
Proof.
  intros Hp Hn Ht. assert (Hd : drop (length pre) (chars prefix) = "$"%char :: l) by (by rewrite Hp, drop_app_length).
  assert (Tidy l) as Hl by by eapply (tidy_suffix _ _ _ _ Ht); [|exact Hd].
  assert (slice_from (E := string) prefix n = Done (of_chars l)) as Hs by (subst n; by eapply slice_after).
  assert (∀ j, drop (n + j) (chars prefix) = drop j l) as Hdrop.
  { intros j. rewrite <-drop_drop. f_equal. subst n. by rewrite <-drop_drop, Hd. }
  unfold fragment_of. rewrite Hs. cbn [outcome_bind]. unfold rfind. rewrite chars_of_chars.
  destruct (rfind_from separator 0 l) as [i|] eqn:Hr.
  - apply rfind_from_Some in Hr as (k & c & rest & -> & Hk & _ & Hsep & Hlast). simpl.
    assert (drop (n + k) (chars prefix) = c :: rest) as Hnk by by rewrite Hdrop. rewrite Hk.
    rewrite Nat.add_assoc. destruct (Nat.lt_ge_cases 1 (ws_len (code <$> c :: rest))) as [Hw|Hw].
    + left. split; [done|]. apply wide_next in Hw as (c' & d & rest' & [= <- ->] & Hd').
      by rewrite (slice_inside _ _ c d rest').
    + right. destruct (narrow_separator c rest) as [Hc Hsc]; [done|unfold wide; lia|].
      destruct (slice_after (E := string) _ _ _ _ Ht Hnk Hc) as [-> _]. cbn [outcome_bind].
      destruct (slice_after (E := string) (of_chars l) k c rest) as [_ ->]; [by rewrite ?chars_of_chars..|].
      cbn [outcome_bind]. rewrite chars_of_chars. apply drop_cons_lt in Hk as Hk2. destruct Hk2 as (Hlt & Hi & Hd2).
      exists (of_chars (take (k + 1) l)), (of_chars rest). split; [split|split; [unfold wide; lia|]].
      * by rewrite !chars_of_chars, <-Hd2, take_drop.
      * right. exists (take k l), c. split; [|done]. by rewrite chars_of_chars, Nat.add_1_r, (take_S_r _ _ _ Hi).
      * unfold rfind. by rewrite chars_of_chars.
      * rewrite chars_of_chars. by eapply (tidy_suffix _ _ _ _ Hl); [|exact Hk].
      * rewrite <-chars_length, chars_of_chars, length_take, Nat.min_l by lia. do 2 f_equal. f_equal. lia.
  - rewrite Nat.add_0_r, Hs. cbn [outcome_bind].
    assert (slice_to (E := string) (of_chars l) 0 = Done "") as -> by by destruct l. split; [done|]. split; rewrite ?chars_of_chars; [done|by left|by unfold rfind; rewrite chars_of_chars|done].
Qed.

(** What is answered for a word of a command. *)
Definition answers_for (w : W) (now : N) (cwd before fragment : string) (cache cache' : option (N * list string))
    (l : list ShellCompletionCandidate) : Prop :=
  if command_position (trim_end before) && negb (contains_char "/"%char fragment)
  then ∃ commands, Uses w now cache cache' commands ∧ CommandsFor fragment commands l
  else FilesFor w fragment cwd l ∧ cache' = cache.

(** The line, once it is accepted. *)
Definition completed (w : W) (now : N) (cwd prefix : string) (cursor : nat) : Step (option (N * list string)) string ShellCompletionResult :=
  if starts_with "$"%char prefix then
    '(start, fragment, before) ← lift (fragment_of prefix (if String.prefix "$$" prefix then 2 else 1));
    if command_position before && negb (contains_char "/"%char fragment) then
      candidates ← complete_command w now fragment;
      mret {| start := start; candidates := candidates |}
    else mret {| start := start; candidates := complete_path w fragment cwd |}
  else mret {| start := cursor; candidates := [] |}.

Lemma complete_shell_accepted w now line cursor cwd cache :
  (Accepts line cursor ∧ complete_shell w now line cursor cwd cache =
     completed w now cwd (of_chars (take cursor (chars line))) cursor cache) ∨
  (¬ Accepts line cursor ∧ ∃ e, complete_shell w now line cursor cwd cache = (cache, Fail e)).
Proof.
  unfold complete_shell, ensure, mbind, Step_bind.
  destruct (MAX_INPUT_BYTES <? str_len line)%N eqn:Hsize; simpl.
  { right. apply N.ltb_lt in Hsize. split; [intros [? _ _]; lia|by eexists]. }
  destruct ((cursor <=? String.length line)%nat && is_char_boundary line cursor) eqn:Hc; simpl.
  - left. apply N.ltb_ge in Hsize. unfold lift, slice_to. rewrite Hc. apply andb_true_iff in Hc as [Hle Hb].
    split; [split; [done|by apply Nat.leb_le|done]|].
    assert (String.substring 0 cursor line = of_chars (take cursor (chars line))) as ->; [|done].
    apply chars_inj. by rewrite chars_substring, chars_of_chars, drop_0.
  - right. split; [|by eexists]. intros [_ Hle Hb]. rewrite Hb, (proj2 (Nat.leb_le _ _) Hle) in Hc. done.
Qed.

(** The command of a prefix, as the code finds it. *)
Lemma string_prefix_chars a b : String.prefix a b = true ↔ chars a `prefix_of` chars b.
Proof.
  split.
  - intros [c ->]%prefix_app. rewrite chars_app. by eexists.
  - intros [c Hc]. revert b Hc. induction a as [|x a IH]; intros [|y b]; simpl; try done.
    intros [= -> Hc]. destruct (ascii_dec x x); [|done]. by apply IH.
Qed.

Lemma starts_with_chars c s : starts_with c s = true ↔ [c] `prefix_of` chars s.
Proof.
  destruct s as [|d s]; simpl; [split; [done|by intros [k ?]]|]. rewrite bool_decide_eq_true. split.
  - intros ->. by eexists.
  - by intros [k [= -> _]].
Qed.

Lemma command_before_prefix line cursor :
  let prefix := of_chars (take cursor (chars line)) in
  match command_before line cursor with
  | Some (n, l) => starts_with "$"%char prefix = true ∧ n = (if String.prefix "$$" prefix then 2 else 1) ∧
      ∃ pre, chars prefix = pre ++ "$"%char :: l ∧ length pre + 1 = n
  | None => starts_with "$"%char prefix = false
  end.
Proof.
  unfold command_before. set (typed := take cursor (chars line)). simpl.
  assert (Hs : starts_with "$"%char (of_chars typed) = bool_decide (["$"%char] `prefix_of` typed)).
  { apply eq_true_iff_eq. by rewrite starts_with_chars, bool_decide_eq_true, chars_of_chars. }
  assert (Hp : String.prefix "$$" (of_chars typed) = bool_decide (["$"%char; "$"%char] `prefix_of` typed)).
  { apply eq_true_iff_eq. by rewrite string_prefix_chars, bool_decide_eq_true, chars_of_chars. }
  rewrite Hs, Hp, chars_of_chars. clearbody typed. case_bool_decide as H2; [|case_bool_decide as H1; [|done]].
  - destruct H2 as [k ->]. split_and!; [|done|by exists ["$"%char]]. apply bool_decide_eq_true. by eexists.
  - destruct H1 as [k ->]. split_and!; [done..|]. by exists [].
Qed.

Lemma completed_spec w now cwd line cursor cache :
  ListsText w → Cached cache → Tidy (take cursor (chars line)) →
  let run := completed w now cwd (of_chars (take cursor (chars line))) cursor cache in
  (run.2 = Panic ∧ splits_character line cursor) ∨
  (¬ splits_character line cursor ∧ ∃ result, run.2 = Done result ∧
    match command_before line cursor with
    | None => result = {| start := cursor; candidates := [] |}
    | Some (n, l) => ∃ before fragment, Word l before fragment ∧ start result = n + String.length before ∧
        answers_for w now cwd before fragment cache run.1 (candidates result)
    end).
Proof.
  intros Hw Hcache Ht. unfold completed, splits_character. pose proof (command_before_prefix line cursor) as Hc. simpl in Hc.
  destruct (command_before line cursor) as [[n l]|]; [|rewrite Hc; right; split; [by intros (?&?&?&?&_)|by eexists]].
  destruct Hc as (-> & Hn & pre & Hpre & Hlen). rewrite <-Hn.
  pose proof (fragment_of_spec _ n pre l Hpre Hlen) as Hf. rewrite chars_of_chars in Hf. specialize (Hf Ht).
  assert (Hans : ∀ before fragment, Word l before fragment →
    let run := (let '(start, fragment, before) := (n + String.length before, fragment, trim_end before) in
      if command_position before && negb (contains_char "/"%char fragment)
      then candidates ← complete_command w now fragment; mret {| start := start; candidates := candidates |}
      else mret {| start := start; candidates := complete_path w fragment cwd |}) cache in
    ∃ result, run.2 = Done result ∧
      ∃ before fragment, Word l before fragment ∧ start result = n + String.length before ∧
        answers_for w now cwd before fragment cache run.1 (candidates result)).
  { intros before fragment Hword. unfold mbind, Step_bind. destruct (command_position _ && _) eqn:Hpos.
    - destruct (complete_command_spec w now fragment cache Hw Hcache) as (cs & cache' & commands & -> & Huse & Hfor).
      eexists. split; [done|]. exists before, fragment. split_and!; [done..|]. unfold answers_for. rewrite Hpos. eauto.
    - eexists. split; [done|]. exists before, fragment. split_and!; [done..|]. unfold answers_for. rewrite Hpos. simpl.
      split; [|done]. by apply complete_path_spec; [|apply Hword]. }
  unfold lift, mbind, Step_bind in *.
  destruct (rfind_from separator 0 l) as [i|] eqn:Hr.
  - destruct Hf as [[Hwide ->]|(before & fragment & Hword & Hwide & Hfo)]; [left; split; [done|]; by exists n, l, i|].
    right. split; [intros (?&?&?&[= <- <-]&Hi&?); rewrite Hr in Hi; by injection Hi as <-|].
    rewrite Hfo. by apply (Hans before fragment).
  - right. split; [intros (?&?&?&[= <- <-]&Hi&?); by rewrite Hr in Hi|].
    destruct Hf as [-> Hword]. pose proof (Hans "" (of_chars l) Hword) as H. simpl in H. by rewrite Nat.add_0_r in H.
Qed.

(** C37: What the completion of a shell line answers. It refuses exactly the lines over the limit and
    the cursors that are not between two characters. It panics exactly when the last separator before
    the cursor is a space of more than one byte, since the word is cut one byte after its start.
    Otherwise it completes the word after the last separator - the text between the answer's start
    and the cursor. In the position of a command it offers the first 256 of the shell's own commands
    and the programs on the path that start with it, as they were found at most half a minute ago;
    else the first 256 files, in the order of their names, of the directory the word names that start
    with its last part, hidden ones only when asked for. All of them it offers, none twice, and each
    in a quoted form from which the shell reads the name back. A line that is no command has no
    completions. *)
Theorem shell_completion_outcome w now line cursor cwd cache :
  utf8_valid (chars line) = true → ListsText w → Cached cache →
  let run := complete_shell w now line cursor cwd cache in
  ((∃ e, run.2 = Fail e) ↔ ¬ Accepts line cursor) ∧
  (run.2 = Panic ↔ Accepts line cursor ∧ splits_character line cursor) ∧
  (∀ result, run.2 = Done result →
    match command_before line cursor with
    | None => result = {| start := cursor; candidates := [] |}
    | Some (n, l) => ∃ before fragment, Word l before fragment ∧ start result = n + String.length before ∧
        answers_for w now cwd before fragment cache run.1 (candidates result)
    end).
Proof.
  intros Hv Hw Hcache run. subst run. pose proof (tidy_prefix _ cursor (utf8_tidy _ Hv)) as Ht.
  destruct (complete_shell_accepted w now line cursor cwd cache) as [[Ha ->]|[Hn [e ->]]]; [|naive_solver].
  destruct (completed_spec w now cwd line cursor cache Hw Hcache Ht) as [[-> Hs]|(Hs & result & -> & Hres)]; naive_solver.
Qed.
End completion.

(** * A host *)

#[export] Instance sample_completion_host : CompletionHost () := {|
  wide_alphanumeric _ := false;
  home_var _ := Some "/home/ada";
  path_var _ := Some ["/bin"];
  directory _ path :=
    if bool_decide (path = "/bin") then Some [
      Some {| file_name_utf8 := Some "cat"; kind_is_dir := Some false; metadata := Some (true, 493%N) |};
      Some {| file_name_utf8 := Some "notes"; kind_is_dir := Some false; metadata := Some (true, 420%N) |}; None]
    else if bool_decide (path = "/work") then Some [
      Some {| file_name_utf8 := Some "hello;$USER.txt"; kind_is_dir := Some false; metadata := None |};
      Some {| file_name_utf8 := Some "hello world"; kind_is_dir := Some true; metadata := None |};
      Some {| file_name_utf8 := Some ".hello"; kind_is_dir := Some false; metadata := None |}]
    else None |}.

Definition sample_complete (line : string) : Outcome string (nat * list (string * string)) :=
  match (complete_shell () 0 line (String.length line) "/work" None).2 with
  | Done r => Done (start r, (λ c, (display c, replacement c)) <$> candidates r)
  | Fail e => Fail e
  | Panic => Panic
  end.

Example sample_files :
  sample_complete "$cat hello" = Done (5, [("hello world/", "hello\ world/"); ("hello;$USER.txt", "hello\;\$USER.txt")]).
Proof. vm_compute. reflexivity. Qed.

Example sample_commands : sample_complete "$$printf hi | ca" = Done (14, [("cat", "cat")]).
Proof. vm_compute. reflexivity. Qed.

(** A no-break space between two words. *)
Definition wide_space : string := String (ascii_of_N 194) (String (ascii_of_N 160) "").

Lemma sample_lists_text : ListsText ().
Proof.
  intros path entries e name. simpl. repeat case_bool_decide; [..|done]; intros [= <-];
    rewrite !elem_of_cons, elem_of_nil; intros He Hn;
    repeat destruct He as [[= ->]|He]; try done; injection Hn as <-; vm_compute; reflexivity.
Qed.

Lemma shell_completion_outcome_witness :
  sample_complete ("$ls" +:+ wide_space +:+ "x") = Panic ∧
  splits_character ("$ls" +:+ wide_space +:+ "x") 6.
Proof.
  set (line := "$ls" +:+ wide_space +:+ "x").
  destruct (shell_completion_outcome () 0 line 6 "/work" None ltac:(vm_compute; reflexivity) sample_lists_text
    ltac:(done)) as (_ & H & _).
  split; [vm_compute; reflexivity|]. apply (proj1 H). vm_compute. reflexivity.
Defined.
