(* ===== verification/SourceView.v ===== *)
(** The text resources a session shows
    ([crates/xshell-session/src/view.rs]): which file a request names, and its
    text, within a limit that also holds when the file grows meanwhile. The
    file system, [HOME] and the digest are the class [ViewHost]. *)
From Stdlib Require Import Ascii.
From S2P Require Import Prelude PtyStream Completion CompletionSpec.

Definition MAX_VIEW_BYTES : N := 4 * 1024 * 1024.

Record ViewResource := {
  vr_path : string;
  vr_media_type : string;
  vr_content : string;
  vr_byte_len : N;
  vr_sha256 : string;
}.

(** A file that was opened: whether it is a regular file and its length, and
    the bytes it has when it is read. *)
Record FileHandle := {
  fh_metadata : string + bool * N;
  fh_bytes : string + bytes;
}.

Class ViewHost (W : Type) := {
  view_home : W → option string;
  view_canonicalize : W → string → string + string;
  view_open : W → string → string + FileHandle;
  sha256_hex : bytes → string;
}.

(** [result.with_context(message)]. *)
Definition with_context {A} (message : string) (r : string + A) : Outcome string A :=
  match r with inr a => Done a | inl e => Fail (message +:+ ": " +:+ e) end.

(** ** Paths *)

(** A component that [Path] does not count, unless it is the first. *)
Definition no_component (c : string) : bool := bool_decide (c = "" ∨ c = ".").

Fixpoint drop_no_components (l : list string) : list string :=
  match l with c :: l' => if no_component c then drop_no_components l' else l | [] => [] end.

(** [Path::strip_prefix("~/")]; [Some ""] is [Path::new("~")]. *)
Definition below_home (requested : string) : option string :=
  match split_char "/"%char requested with
  | first :: l =>
      if bool_decide (first = "~")
      then Some (join "/" (rev (drop_no_components (rev (drop_no_components l))))) else None
  | [] => None
  end.

Definition expand_path {W} `{!ViewHost W} (w : W) (requested cwd : string) : Outcome string string :=
  match below_home requested with
  | Some rest =>
      match view_home w with
      | Some home => Done (if bool_decide (rest = "") then home else path_join home rest)
      | None => Fail "HOME is not set on the session host"
      end
  | None => Done (if starts_with "/"%char requested then requested else path_join cwd requested)
  end.

Definition resolve_path {W} `{!ViewHost W} (w : W) (requested cwd : string) : Outcome string string :=
  if bool_decide (requested = "") then Fail "view resource path is empty"
  else
    let! expanded := expand_path w requested cwd in
    with_context ("cannot resolve view resource " +:+ expanded) (view_canonicalize w expanded).

(** ** Media types *)

(** [Path::file_name] of a canonical path, and [Path::extension]. *)
Definition path_file_name (path : string) : option string :=
  match rev (drop_no_components (split_char "/"%char path)) with
  | name :: _ => if bool_decide (name = "..") then None else Some name
  | [] => None
  end.

Definition name_extension (name : string) : option string :=
  match rev (split_char "."%char name) with
  | extension :: (_ :: _) as before =>
      if bool_decide (before = [""]) then None else Some extension
  | _ => None
  end.

Definition media_type (path : string) : string :=
  match to_ascii_lowercase <$> (path_file_name path ≫= name_extension) with
  | Some extension =>
      if bool_decide (extension ∈ ["md"; "markdown"; "mdown"; "mkd"]) then "text/markdown"
      else if bool_decide (extension ∈ ["rst"; "rest"]) then "text/x-rst"
      else "text/plain"
  | None => "text/plain"
  end.

(** ** The resource *)

Definition over_limit : string := "view resource exceeds the " +:+ fmt_N MAX_VIEW_BYTES +:+ " byte text-view limit".

Definition load_view_resource {W} `{!ViewHost W} (w : W) (requested cwd : string) : Outcome string ViewResource :=
  let! resolved := resolve_path w requested cwd in
  let! file := with_context ("cannot open view resource " +:+ resolved) (view_open w resolved) in
  let! metadata := with_context ("cannot inspect view resource " +:+ resolved) (fh_metadata file) in
  if negb (metadata.1 : bool) then Fail ("view resource is not a regular file: " +:+ resolved)
  else if (MAX_VIEW_BYTES <? metadata.2)%N then Fail over_limit
  else
    let! all := with_context ("cannot read view resource " +:+ resolved) (fh_bytes file) in
    let read := take (N.to_nat (MAX_VIEW_BYTES + 1)) all in
    if (MAX_VIEW_BYTES <? len read)%N then Fail over_limit
    else
      match from_utf8 read with
      | inl error => Fail ("view resource " +:+ resolved +:+ " is not UTF-8 text; binary viewers are not implemented yet: " +:+ error)
      | inr content => Done {|
          vr_path := resolved; vr_media_type := media_type resolved; vr_content := content;
          vr_byte_len := len read; vr_sha256 := sha256_hex read |}
      end.

#[local] Opaque MAX_VIEW_BYTES.

Section view.
Context {W : Type} `{!ViewHost W}.

(** What is shown is the whole text of a regular file. *)
Record Shows (w : W) (requested cwd : string) (r : ViewResource) : Prop := {
  shows_path : resolve_path w requested cwd = Done (vr_path r);
  shows_file : ∃ file size, view_open w (vr_path r) = inr file ∧ fh_metadata file = inr (true, size) ∧
    (size ≤ MAX_VIEW_BYTES)%N ∧ fh_bytes file = inr (chars (vr_content r));
  shows_text : utf8_valid (chars (vr_content r)) = true;
  shows_length : vr_byte_len r = len (chars (vr_content r));
  shows_bound : (vr_byte_len r ≤ MAX_VIEW_BYTES)%N;
  shows_digest : vr_sha256 r = sha256_hex (chars (vr_content r));
  shows_media_type : vr_media_type r = media_type (vr_path r);
}.

Lemma take_over (b : bytes) : (len (take (N.to_nat (MAX_VIEW_BYTES + 1)) b) ≤ MAX_VIEW_BYTES)%N → take (N.to_nat (MAX_VIEW_BYTES + 1)) b = b.
Proof. unfold len. rewrite length_take. intros H. apply take_ge. lia. Qed.

(** A resource is shown exactly when its file is one: a file that is larger
    than the limit when it is read is refused whatever it was before. *)
Lemma load_view_resource_shows w requested cwd r :
  load_view_resource w requested cwd = Done r ↔ Shows w requested cwd r.
Proof.
  unfold load_view_resource, with_context. split.
  - rewrite bind_Done. intros (path & Hp & H). destruct (view_open w path) as [|file] eqn:Hf; [done|]. simpl in H.
    destruct (fh_metadata file) as [|[[] size]] eqn:Hm; simpl in H; [done| |done].
    destruct (MAX_VIEW_BYTES <? size)%N eqn:Hs; [done|]. destruct (fh_bytes file) as [|b] eqn:Hb; [done|]. simpl in H.
    cbv zeta in H.
    destruct (MAX_VIEW_BYTES <? len _)%N eqn:Hl; [done|]. apply N.ltb_ge in Hs, Hl. pose proof (take_over _ Hl) as Ht.
    rewrite Ht in H, Hl. destruct (from_utf8 b) as [|content] eqn:Hv; [done|]. apply from_utf8_valid in Hv as [Hv ->].
    injection H as <-. split; simpl; rewrite ?chars_of_chars; try done. by exists file, size.
  - intros [Hp (file & size & Hf & Hm & Hs & Hb) Ht Hl Hbd Hd Hmt]. rewrite Hp. cbn [outcome_bind]. rewrite Hf. cbn [outcome_bind].
    rewrite Hm. cbn. rewrite (proj2 (N.ltb_ge _ _)) by done. rewrite Hb. cbn [outcome_bind]. rewrite Hl in Hbd.
    assert (take (N.to_nat (MAX_VIEW_BYTES + 1)) (chars (vr_content r)) = chars (vr_content r)) as ->.
    { apply take_ge. unfold len in Hbd. lia. }
    rewrite (proj2 (N.ltb_ge _ _)) by done. rewrite (proj2 (from_utf8_valid _ _) (conj Ht eq_refl)).
    destruct r as [p m c n d]. simpl in *. subst. by rewrite of_chars_chars.
Qed.

Lemma with_context_total {A} message (r : string + A) : with_context message r ≠ Panic.
Proof. by destruct r. Qed.

Lemma bind_total {E A B} (m : Outcome E A) (k : A → Outcome E B) :
  m ≠ Panic → (∀ a, k a ≠ Panic) → outcome_bind m k ≠ Panic.
Proof. destruct m; simpl; auto. Qed.

Lemma load_view_resource_total w requested cwd : load_view_resource w requested cwd ≠ Panic.
Proof.
  unfold load_view_resource, resolve_path, expand_path. repeat (apply bind_total; [|intros ?]); try apply with_context_total.
  - case_bool_decide; [done|]. apply bind_total; [|intros ?; apply with_context_total]. by repeat case_match.
  - case_match; [done|]. case_match; [done|]. apply bind_total; [apply with_context_total|]. intros b. cbv zeta.
    by repeat case_match.
Qed.
End view.

Example media_types :
  media_type <$> ["/srv/Guide.RST"; "/srv/a.b.MD"; "/srv/.md"; "/srv/notes"; "/"] =
  ["text/x-rst"; "text/markdown"; "text/plain"; "text/plain"; "text/plain"].
Proof. vm_compute. reflexivity. Qed.

Example home_paths :
  below_home <$> ["~"; "~/"; "~//notes/./a.md/"; "~x"; "./~"; "/~"] =
  [Some ""; Some ""; Some "notes/./a.md"; None; None; None].
Proof. vm_compute. reflexivity. Qed.
