(* ===== verification/Requests.v ===== *)
(** The connections of the session daemon
    ([crates/xshell-session/src/bin/xshelld.rs], from [handle_client] to
    [detach_session]; the messages are [protocol.rs]): which requests a client
    may make, of which session, and what happens when it goes.

    Every request is [process_request]: a composition of the operations of the
    registry ([Registry]), the turns ([Turns]), the terminal jobs ([Pty]), the
    completion of shell lines ([Completion]) and the text resources
    ([SourceView]). The locks are taken one after another, so a request is not
    one step of the daemon; the requests of one connection are.

    [remote_response] and [catalog_for_remote] are what the stdio transport
    lets through ([serve_stdio], [reject_remote_request]). *)
From Stdlib Require Import Ascii.
From S2P Require Import Prelude Sensitive Policy Budget Compaction CallId Chat Engine Effects.
From S2P Require Import AuditModel SessionModel Registry Execution PtyStream Pty Turns Completion SourceView.

Section messages.
Context {A : Type}.

Inductive ClientRequest : Type :=
| RqOpen (protocol_version : N) (client_version : string)
| RqList
| RqCreate (session : SessionCreation A)
| RqAttach (selector : string) (role : AttachmentRole)
| RqSwitch (selector : string) (role : AttachmentRole)
| RqUpdate (session_id : string) (model : ModelBinding) (cwd : string) (history : list (ChatMessage A))
| RqSnapshot (session_id : string)
| RqSubmit (session_id : string) (input : TurnInput) (approval : ApprovalPolicy) (limits : option TurnLimits)
    (policy : option PolicyConfig)
| RqEvents (session_id : string) (after_sequence wait_ms : N)
| RqApprove (session_id : string) (reply : ApprovalReply)
| RqCancel (session_id turn_id : string)
| RqCompleteShell (session_id line : string) (cursor : nat)
| RqViewSource (session_id path : string)
| RqPtyStart (session_id command : string) (size : PtySize) (terminal_type : option string)
| RqPtyAttach (session_id : string) (after_offset : option N)
| RqPtyClose (session_id : string)
| RqPtyClaim (ticket : string)
| RqDetach
| RqClose (selector : option string).

Inductive ServerResponse : Type :=
| RsOpened (protocol_version : N) (client_id host_id host_alias user : string)
| RsCatalog (sessions : list SessionDescriptor)
| RsCreated (session : SessionSnapshot A)
| RsAttached (session : SessionSnapshot A) (role : AttachmentRole)
| RsUpdated (session : SessionDescriptor)
| RsSnapshot (session : SessionSnapshot A)
| RsAccepted (turn_id : string)
| RsEvents (batch : EventBatch A)
| RsApprovalAccepted
| RsCancellationAccepted
| RsShellCompletions (result : ShellCompletionResult)
| RsViewSource (resource : ViewResource)
| RsPtyStarted (ticket : PtyTicket)
| RsPtyAttached (ticket : PtyTicket)
| RsPtyClosed
| RsPtyClaimed
| RsDetached (session_id : option string)
| RsClosed (session_id : string)
| RsError (code message : string).
End messages.
Arguments ClientRequest : clear implicits.
Arguments ServerResponse : clear implicits.

(** [PartialEq] of the histories a client sends. *)
#[export] Instance ToolCall_eq_dec {A} `{!EqDecision A} : EqDecision (ToolCall A).
Proof. solve_decision. Defined.
#[export] Instance ChatMessage_eq_dec {A} `{!EqDecision A} : EqDecision (ChatMessage A).
Proof. solve_decision. Defined.

(** What else the daemon asks of the host: whether a worker's thread could be
    started and whether it answered in time, and the lines of a connection. *)
Class ServiceWorld (A W : Type) := {
  instant : W → N * W;
  home_variable : W → option string * W;
  spawn_worker : W → option string * W;
  in_time : W → bool * W;
  terminal_stream : W → option (option N) * W;
  close_audit : W → string → string → W;
  write_response : W → ServerResponse A → option string * W;
}.

Section requests.
Context {A W : Type} `{!StateSerde A, !SessionHost W, !PtyWorld A W, !EventSerde A, !TurnWorld A W,
  !CompletionHost W, !ViewHost W, !ServiceWorld A W, !EqDecision A}.
Context (split : string → string + list string).

(** The daemon and its cache of command names. *)
Record Service := {
  turns_of : Daemon A W;
  command_cache : option (N * list string);
}.

(** A connection, and the daemon it is to. *)
Record Client := {
  attached_session : option string;
  service : Service;
}.

Abbreviation S := (Step Service string).
Abbreviation M := (Step Client string).
Abbreviation Snapshot := (SessionSnapshot A).

Definition in_daemon {B} (m : Step (Daemon A W) string B) : S B :=
  zoom turns_of (λ d s, {| turns_of := d; command_cache := command_cache s |}) m.
Definition in_cache {B} (m : Step (option (N * list string)) string B) : S B :=
  zoom command_cache (λ c s, {| turns_of := turns_of s; command_cache := c |}) m.
Definition in_service {B} (m : S B) : M B :=
  zoom service (λ s c, {| attached_session := attached_session c; service := s |}) m.

(** The operations of the parts, on the daemon. *)
Definition registry_do {B} (m : Step (Store A W) string B) : S B := in_daemon (in_registry m).
Definition ptys_do {B} (m : Step (PtyHost A W) string B) : S B := in_daemon (in_pty m).
Definition host_asks {B} (f : W → B * W) : S B := in_daemon (asks f).
Definition host_calls (f : W → option string * W) : S () := in_daemon (calls f).
Definition the_world : S W := s ← get; mret (world (disk (store (pty_host (turns_of s))))).

(** ** The session of the connection *)

Definition attach_to (session : option string) : M () :=
  modify (λ c, {| attached_session := session; service := service c |}).
Definition current : M (option string) := c ← get; mret (attached_session c).
(** [attached_session.take()]. *)
Definition take_current : M (option string) := session ← current; attach_to None;; mret session.

Definition not_current : string := "the requested session is not this connection's current session".
Definition require_current (session_id : string) : M () :=
  session ← current; ensure (bool_decide (session = Some session_id)) not_current.

(** ** What a session is doing *)

Definition session_activity (session_id : string) : S SessionActivity :=
  entries ← ptys_do jobs;
  match Pty.session_activity entries session_id with
  | Some activity => mret activity
  | None => in_daemon (turn_activity session_id)
  end.

Definition descriptor_with_activity (d : SessionDescriptor) : S SessionDescriptor :=
  activity ← session_activity (d_id d); mret (set_activity activity d).
Definition with_activity (s : Snapshot) : S Snapshot :=
  activity ← session_activity (d_id (s_descriptor s)); mret (on_descriptor (set_activity activity) s).

Fixpoint with_activities (l : list SessionDescriptor) : S (list SessionDescriptor) :=
  match l with
  | [] => mret []
  | d :: l => d ← descriptor_with_activity d; l ← with_activities l; mret (d :: l)
  end.

Definition has_pty (session_id : string) : S bool := entries ← ptys_do jobs; mret (has_session entries session_id).

(** The working directory of a session. *)
Definition session_cwd (session_id : string) : S string :=
  s ← registry_do (snapshot session_id); mret (d_cwd (s_descriptor s)).

(** ** Leaving a session *)

Definition detach_session (client_id session_id : string) : S (option string) :=
  s ← registry_do (snapshot session_id);
  (if bool_decide (d_persistence (s_descriptor s) = PersistEphemeral) then
     in_daemon (cancel_and_remove session_id);;
     ptys_do (terminate_session session_id);;
     mret ()
   else mret ());;
  registry_do (detach client_id session_id).

Definition detach_on_disconnect (client_id : string) (session : option string) : S () :=
  match session with
  | Some session_id => handle (detach_session client_id session_id) (λ _, mret ()) (λ _, mret ())
  | None => mret ()
  end.

(** ** Work on a thread of its own *)

(** What the worker sends is received in time, or the thread panicked and its
    channel is closed. *)
Definition received {B} (message : string) (m : S B) : S B := λ s,
  match m s with
  | (s, Panic) => (s, Fail (context message "channel is empty and sending half is closed"))
  | r => r
  end.

Definition bounded {B} (cannot_start late : string) (m : S B) : S B :=
  handle (host_calls spawn_worker) mret (λ e, throw (context cannot_start e));;
  answered ← host_asks in_time;
  if answered : bool then received late m else throw (context late "timed out waiting on channel").

Definition complete_shell_bounded (line : string) (cursor : nat) (cwd : string) : S ShellCompletionResult :=
  bounded "cannot start shell completion worker" "shell completion timed out" (
    now ← host_asks instant;
    w ← the_world;
    in_cache (complete_shell w now line cursor cwd)).

Definition load_view_resource_bounded (path cwd : string) : S ViewResource :=
  bounded "cannot start view-source worker" "view-source acquisition timed out" (
    w ← the_world; lift (load_view_resource w path cwd)).

(** ** Requests *)

(** The directory a session is created in: [~] is the host's home. *)
Definition creation_cwd (cwd : string) : S string :=
  if bool_decide (below_home cwd = Some "") then
    home ← host_asks home_variable;
    match home with
    | None => throw "HOME is not set on session host"
    | Some home =>
        resolved ← host_asks (λ w, canonicalize w home);
        match resolved with
        | Some cwd => mret cwd
        | None => throw "cannot resolve session host home directory"
        end
    end
  else mret cwd.

Definition set_creation_cwd (cwd : string) (c : SessionCreation A) : SessionCreation A := {|
  c_name := c_name c; c_model := c_model c; c_cwd := cwd; c_persistence := c_persistence c;
  c_visibility := c_visibility c; c_history := c_history c |}.

Definition process_create (client_id : string) (creation : SessionCreation A) : M (ServerResponse A) :=
  cwd ← in_service (creation_cwd (c_cwd creation));
  session ← in_service (registry_do (create client_id (set_creation_cwd cwd creation)));
  previous ← take_current;
  (match previous with
   | Some previous => in_service (detach_session client_id previous);; mret ()
   | None => mret ()
   end);;
  attach_to (Some (d_id (s_descriptor session)));;
  session ← in_service (with_activity session);
  mret (RsCreated session).

Definition process_attach (client_id selector : string) (role : AttachmentRole) : M (ServerResponse A) :=
  session ← current;
  ensure (bool_decide (session = None)) "detach the current session before attaching another one";;
  session ← in_service (registry_do (attach client_id selector role));
  attach_to (Some (d_id (s_descriptor session)));;
  session ← in_service (with_activity session);
  mret (RsAttached session role).

Definition process_switch (client_id selector : string) (role : AttachmentRole) : M (ServerResponse A) :=
  session ← in_service (registry_do (attach client_id selector role));
  previous ← take_current;
  (match previous with
   | Some previous =>
       if bool_decide (previous = d_id (s_descriptor session)) then mret ()
       else in_service (detach_session client_id previous);; mret ()
   | None => mret ()
   end);;
  attach_to (Some (d_id (s_descriptor session)));;
  session ← in_service (with_activity session);
  mret (RsAttached session role).

Definition process_update (client_id session_id : string) (model : ModelBinding) (cwd : string)
    (history : list (ChatMessage A)) : M (ServerResponse A) :=
  require_current session_id;;
  in_service (
    turn ← in_daemon (active_turn session_id);
    ensure (bool_decide (turn = None)) "cannot replace session state while a turn is active";;
    busy ← has_pty session_id;
    if busy : bool then
      cwd ← registry_do (io (validate_working_directory cwd));
      s ← registry_do (snapshot session_id);
      if bool_decide (d_model (s_descriptor s) = model) && bool_decide (d_cwd (s_descriptor s) = cwd) &&
         bool_decide (s_history s = history)
      then d ← descriptor_with_activity (s_descriptor s); mret (RsUpdated d)
      else throw "cannot replace session state while a PTY is active"
    else
      d ← registry_do (update client_id session_id model cwd history);
      d ← descriptor_with_activity d;
      mret (RsUpdated d)).

Definition client_policy (policy : option PolicyConfig) : S (option Policy) :=
  match policy with
  | None => mret None
  | Some config =>
      handle (lift (policy_parse split config)) (λ p, mret (Some p.1))
        (λ e, throw (context "invalid client approval policy" e))
  end.

Definition process_submit (session_id : string) (input : TurnInput) (approval : ApprovalPolicy)
    (limits : option TurnLimits) (policy : option PolicyConfig) : M (ServerResponse A) :=
  require_current session_id;;
  in_service (
    busy ← has_pty session_id;
    ensure (negb busy) "cannot start a turn while a PTY is active";;
    overlay ← client_policy policy;
    turn_id ← in_daemon (submit session_id input approval limits overlay);
    mret (RsAccepted turn_id)).

Definition process_pty_start (session_id command : string) (size : PtySize) (terminal_type : option string) :
    M (ServerResponse A) :=
  require_current session_id;;
  in_service (
    turn ← in_daemon (active_turn session_id);
    ensure (bool_decide (turn = None)) "cannot start a PTY while a turn is active";;
    cwd ← session_cwd session_id;
    in_daemon (audit_handle session_id);;
    stream ← host_asks terminal_stream;
    ticket ← ptys_do (Pty.start session_id command cwd size terminal_type (Some stream));
    mret (RsPtyStarted ticket)).

Definition process_close (client_id : string) (selector : option string) : M (ServerResponse A) :=
  session ← current;
  match (match selector with Some s => Some s | None => session end) with
  | None => throw "close requires a session selector when detached"
  | Some selector =>
      session_id ← in_service (registry_do (close client_id selector));
      in_service (ptys_do (terminate_session session_id));;
      in_service (in_daemon (cancel_and_remove session_id));;
      in_service (host_asks (λ w, ((), close_audit w session_id "session closed")));;
      (if bool_decide (session = Some session_id) then attach_to None else mret ());;
      mret (RsClosed session_id)
  end.

(** [wait] is what a request for events waits for: whether its time is over
    before, and the states it is woken with ([Turns.session_events]). *)
Definition process_request (wait : bool * list (ExecutionState A * bool)) (client_id : string)
    (request : ClientRequest A) : M (ServerResponse A) :=
  match request with
  | RqList =>
      in_service (l ← registry_do list_sessions; l ← with_activities l; mret (RsCatalog l))
  | RqCreate creation => process_create client_id creation
  | RqAttach selector role => process_attach client_id selector role
  | RqSwitch selector role => process_switch client_id selector role
  | RqUpdate session_id model cwd history => process_update client_id session_id model cwd history
  | RqSnapshot session_id =>
      require_current session_id;;
      in_service (s ← registry_do (snapshot session_id); s ← with_activity s; mret (RsSnapshot s))
  | RqSubmit session_id input approval limits policy => process_submit session_id input approval limits policy
  | RqEvents session_id after_sequence wait_ms =>
      require_current session_id;;
      in_service (batch ← in_daemon (session_events session_id after_sequence wait.1 wait.2); mret (RsEvents batch))
  | RqApprove session_id reply =>
      require_current session_id;;
      in_service (in_daemon (approve session_id reply);; mret RsApprovalAccepted)
  | RqCancel session_id turn_id =>
      require_current session_id;;
      in_service (in_daemon (cancel_turn session_id turn_id);; mret RsCancellationAccepted)
  | RqCompleteShell session_id line cursor =>
      in_service (cwd ← session_cwd session_id; r ← complete_shell_bounded line cursor cwd; mret (RsShellCompletions r))
  | RqViewSource session_id path =>
      require_current session_id;;
      in_service (cwd ← session_cwd session_id; r ← load_view_resource_bounded path cwd; mret (RsViewSource r))
  | RqPtyStart session_id command size terminal_type => process_pty_start session_id command size terminal_type
  | RqPtyAttach session_id after_offset =>
      require_current session_id;;
      in_service (ticket ← ptys_do (attach_job session_id after_offset); mret (RsPtyAttached ticket))
  | RqPtyClose session_id =>
      require_current session_id;;
      in_service (
        removed ← ptys_do (terminate_session session_id);
        ensure (negb (bool_decide (removed = []))) "session has no interactive process";;
        mret RsPtyClosed)
  | RqPtyClaim _ => throw "PTY claims require a dedicated connection"
  | RqDetach =>
      session ← take_current;
      match session with
      | Some session_id => detached ← in_service (detach_session client_id session_id); mret (RsDetached detached)
      | None => mret (RsDetached None)
      end
  | RqClose selector => process_close client_id selector
  | RqOpen _ _ => throw "connection is already open"
  end.

(** ** A connection *)

(** What reading a line gives, until the end of the stream: an error, text that
    is no request, or a request. *)
Inductive Line : Type :=
| LnFailed (error : string)
| LnInvalid (error : string)
| LnRequest (wait : bool * list (ExecutionState A * bool)) (request : ClientRequest A).

Definition sending (r : ServerResponse A) : M () := in_service (host_calls (λ w, write_response w r)).
Definition send_error (code message : string) : M () := sending (RsError code message).

(** [m] and, however it ends, [last]. *)
Definition finally {B} (m : M B) (last : M ()) : M B :=
  handle m (λ b, last;; mret b) (λ e, last;; throw e).

Definition respond (m : M (ServerResponse A)) : M (ServerResponse A) :=
  handle m mret (λ e, mret (RsError "request_failed" e)).

(** [serve_claimed] is the stream of a terminal job, which is [PtyServe.serve]. *)
Definition handle_claim (serve_claimed : PtyClaim → S ()) (ticket : string) (rest : M ()) : M () :=
  let release (c : PtyClaim) : M () := in_service (ptys_do (set_coordinator (release_claim c))) in
  handle (in_service (ptys_do (claim ticket)))
    (λ c, finally (sending RsPtyClaimed;; in_service (serve_claimed c)) (release c))
    (λ e, send_error "pty_claim_failed" e;; rest).

Fixpoint handle_requests (serve_claimed : PtyClaim → S ()) (client_id : string) (lines : list Line) : M () :=
  match lines with
  | [] => mret ()
  | LnFailed error :: _ => throw error
  | LnInvalid error :: lines =>
      send_error "invalid_request" error;; handle_requests serve_claimed client_id lines
  | LnRequest wait request :: lines =>
      match request with
      | RqPtyClaim ticket => handle_claim serve_claimed ticket (handle_requests serve_claimed client_id lines)
      | _ =>
          response ← respond (process_request wait client_id request);
          sending response;;
          handle_requests serve_claimed client_id lines
      end
  end.

Definition version_error (version : N) : string :=
  "client speaks session protocol " +:+ fmt_N version +:+ " but this xshelld requires " +:+
  fmt_N SESSION_PROTOCOL_VERSION +:+ "; xshell and xshelld are different builds — upgrade the client or restart " +:+
  "xshelld from the same build".

Definition disconnect (client_id : string) : M () :=
  session ← current; in_service (detach_on_disconnect client_id session).

Definition open_connection (serve_claimed : PtyClaim → S ()) (version : N) (lines : list Line) : M () :=
  if bool_decide (version = SESSION_PROTOCOL_VERSION) then
    client_id ← in_service (host_asks new_v4);
    r ← in_service (registry_do the_registry);
    sending (RsOpened SESSION_PROTOCOL_VERSION client_id (host_id r) (host_alias r) (user r));;
    attach_to None;;
    finally (handle_requests serve_claimed client_id lines) (disconnect client_id)
  else send_error "protocol_version" (version_error version).

Definition handle_client (serve_claimed : PtyClaim → S ()) (lines : list Line) : M () :=
  match lines with
  | [] => mret ()
  | LnFailed error :: _ => throw error
  | LnInvalid error :: _ => throw (context "invalid open request" error)
  | LnRequest _ (RqOpen version _) :: lines => open_connection serve_claimed version lines
  | LnRequest _ _ :: _ => send_error "protocol" "first request must open a connection"
  end.

(** ** Clients on other hosts *)

Definition remote_visibility_error : ServerResponse A :=
  RsError "remote_session_not_visible" "session is unavailable through the remote transport".

(** The session a request names. *)
Definition remote_selector (request : ClientRequest A) : option string :=
  match request with
  | RqAttach selector _ | RqSwitch selector _ | RqClose (Some selector) => Some selector
  | RqCompleteShell session_id _ _ | RqViewSource session_id _ | RqPtyStart session_id _ _ _
  | RqPtyAttach session_id _ | RqPtyClose session_id => Some session_id
  | _ => None
  end.

Definition is_fabric (d : SessionDescriptor) : bool := bool_decide (d_visibility d = Fabric).

Definition visible_in (catalog : ServerResponse A) (selector : string) : bool :=
  match catalog with
  | RsCatalog sessions =>
      existsb (λ d, is_fabric d && (bool_decide (d_id d = selector) || bool_decide (d_name d = selector))) sessions
  | _ => false
  end.

Definition reject_remote_request (wait : bool * list (ExecutionState A * bool)) (client_id : string)
    (request : ClientRequest A) : M (option (ServerResponse A)) :=
  match request with
  | RqPtyClaim _ =>
      mret (Some (RsError "dedicated_pty_connection_required"
        "PTY tickets may only be claimed through serve-pty-stdio"))
  | RqCreate creation =>
      mret (if bool_decide (c_visibility creation = HostOnly) then Some remote_visibility_error else None)
  | _ =>
      match remote_selector request with
      | None => mret None
      | Some selector =>
          catalog ← respond (process_request wait client_id RqList);
          mret (if visible_in catalog selector then None else Some remote_visibility_error)
      end
  end.

Definition catalog_for_remote (response : ServerResponse A) : ServerResponse A :=
  match response with
  | RsCatalog sessions => RsCatalog (filter (λ d, is_fabric d = true) sessions)
  | _ => response
  end.

(** A request that comes through [serve_stdio], on the connection it has to the
    daemon. *)
Definition remote_response (wait : bool * list (ExecutionState A * bool)) (client_id : string)
    (request : ClientRequest A) : M (ServerResponse A) :=
  rejected ← reject_remote_request wait client_id request;
  match rejected with
  | Some response => mret response
  | None => response ← respond (process_request wait client_id request); mret (catalog_for_remote response)
  end.
End requests.
Arguments Service : clear implicits.
Arguments Client : clear implicits.
Arguments Line : clear implicits.
