(* ===== verification/RequestsSpec.v ===== *)
(** Who controls which session ([Requests]): what each operation of the daemon
    does to the clients attached to its sessions, and that a request keeps the
    invariants of the daemon. *)
From Stdlib Require Import Ascii.
From S2P Require Import Prelude Sensitive Policy Budget Compaction CompactionSpec CallId Chat Engine Effects.
From S2P Require Import AuditModel SessionModel Registry RegistrySpec Execution JournalSpec.
From S2P Require Import PtyStream Pty PtyJobs Turns TurnsSpec TurnsSteps TurnsHistory Completion SourceView Requests.
#[local] Opaque MAX_JOURNAL_EVENTS.

#[export] Hint Extern 0 (PreOrder _) => typeclasses eauto : leaves.
#[export] Hint Extern 1 (leaves _ (if _ then _ else _)) => case_match : leaves.
#[export] Hint Extern 1 (leaves _ (match _ with _ => _ end)) => case_match : leaves.

(** * The registry *)

Section members.
Context {A W : Type} `{!StateSerde A, !SessionHost W, !RegistryLaws A W}.
Implicit Types (st : Store A W) (client id : string).
Abbreviation S := (Step (Store A W) string).

(** The client is attached to the session. *)
Definition member st client id : Prop :=
  ∃ rec, sessions (registry st) !! id = Some rec ∧ client ∈ sr_attachments rec.

Definition SameMembers st st' : Prop := ∀ client id, member st' client id ↔ member st client id.

#[global] Instance SameMembers_preorder : PreOrder SameMembers.
Proof. split; [by intros st|]. intros st1 st2 st3 H12 H23 client id. etrans; [apply H23|apply H12]. Qed.

Lemma same_io {B} (m : Step (Disk W) string B) : leaves SameMembers (io (A := A) m).
Proof. intros st. unfold io, zoom. by destruct (m (disk st)). Qed.

Lemma same_registry_get : leaves SameMembers (the_registry (A := A) (W := W)).
Proof. by intros st. Qed.

Lemma same_changing f :
  (∀ r id, sr_attachments <$> sessions (f r) !! id = sr_attachments <$> sessions r !! id) →
  leaves SameMembers (changing (A := A) (W := W) f).
Proof.
  intros Hf st client id. unfold member. simpl. specialize (Hf (registry st) id).
  destruct (sessions (f (registry st)) !! id) as [rec|], (sessions (registry st) !! id) as [rec'|]; simplify_eq/=; [|naive_solver].
  split; intros (? & [= <-] & ?); [exists rec'|exists rec]; split; congruence.
Qed.

Lemma same_on_snapshot id f : leaves SameMembers (on_snapshot (A := A) (W := W) id f).
Proof.
  apply same_changing. intros r id'. simpl. destruct (decide (id = id')) as [<-|].
  - rewrite lookup_alter_eq. by destruct (sessions r !! id).
  - by rewrite lookup_alter_ne.
Qed.

Lemma same_in_flight f : leaves SameMembers (changing (A := A) (W := W) (set_in_flight f)).
Proof. by apply same_changing. Qed.

#[local] Hint Resolve same_io same_registry_get same_on_snapshot same_in_flight : leaves.

Lemma same_persisting : leaves SameMembers (persisting (A := A) (W := W)).
Proof. unfold persisting. auto with leaves. Qed.
#[local] Hint Resolve same_persisting : leaves.

Lemma same_record_of id message : leaves SameMembers (record_of (A := A) (W := W) id message).
Proof. unfold record_of. auto with leaves. Qed.
Lemma same_expect_record id : leaves SameMembers (expect_record (A := A) (W := W) id).
Proof. unfold expect_record. auto with leaves. Qed.
#[local] Hint Resolve same_record_of same_expect_record : leaves.

Lemma same_resolve selector : leaves SameMembers (resolve (A := A) (W := W) selector).
Proof. unfold resolve. auto 10 with leaves. Qed.
#[local] Hint Resolve same_resolve : leaves.

Lemma same_snapshot selector : leaves SameMembers (snapshot (A := A) (W := W) selector).
Proof. unfold snapshot. auto with leaves. Qed.
Lemma same_list : leaves SameMembers (list_sessions (A := A) (W := W)).
Proof. unfold list_sessions. auto with leaves. Qed.
Lemma same_update client id model cwd history :
  leaves SameMembers (update (A := A) (W := W) client id model cwd history).
Proof. unfold update. auto 20 with leaves. Qed.
Lemma same_begin id operation_id route : leaves SameMembers (begin_execution (A := A) (W := W) id operation_id route).
Proof. unfold begin_execution. auto 10 with leaves. Qed.
Lemma same_finish id operation_id : leaves SameMembers (finish_execution (A := A) (W := W) id operation_id).
Proof. unfold finish_execution. auto 10 with leaves. Qed.
Lemma same_update_state id cwd history :
  leaves SameMembers (update_execution_state (A := A) (W := W) id cwd history).
Proof. unfold update_execution_state. auto 20 with leaves. Qed.

(** ** Attaching and leaving *)

(** A failure of the clock or of the state file, after which the registry may
    have changed all the same. *)
Definition HostFailure (e : string) : Prop := e = "timestamp exceeds session format" ∨ e ∈ persist_errors.

(** The clients of the sessions with one more, and with fewer. *)
Definition Joined client id st st' : Prop :=
  ∀ client' id', member st' client' id' ↔ member st client' id' ∨ client' = client ∧ id' = id.
Definition LeftSession client id st st' : Prop :=
  ∀ client' id', member st' client' id' ↔ member st client' id' ∧ ¬ (client' = client ∧ id' = id).
Definition Removed client id st st' : Prop :=
  ∀ client' id', (member st' client' id' ↔ member st client' id' ∧ id' ≠ id) ∧
    (member st client' id → client' = client).

Lemma same_refl st : SameMembers st st.
Proof. by intros client id. Qed.

Lemma same_sessions st st' : sessions (registry st') = sessions (registry st) → SameMembers st st'.
Proof. intros H client id. unfold member. by rewrite H. Qed.

Lemma run_op_inv op st : Inv (registry st) → wp (run_op op) (λ _ st', Inv (registry st')) (λ _ st', Inv (registry st')) st.
Proof. intros Hi. eapply wp_wand; [by apply op_ends|by intros ? ? []|by intros ? ? []]. Qed.

(** An operation of the registry keeps its invariant, besides. *)
Lemma wp_op_inv {B} op (m : S B) (Q : B → Store A W → Prop) (R : string → Store A W → Prop) st :
  run_op op = (m;; mret ()) → Inv (registry st) → wp m Q R st →
  wp m (λ b st', Q b st' ∧ Inv (registry st')) (λ e st', R e st' ∧ Inv (registry st')) st.
Proof.
  intros Hop Hi Hm. apply wp_and; [done|]. pose proof (run_op_inv op st Hi) as H. rewrite Hop, wp_bind in H. exact H.
Qed.

Lemma wp_persisting_failure st (Q : () → Store A W → Prop) (R : string → Store A W → Prop) :
  (∀ st', registry st' = registry st → Q () st') →
  (∀ e st', HostFailure e → registry st' = registry st → R e st') → wp persisting Q R st.
Proof.
  intros HQ HR. unfold persisting, persist. rewrite wp_bind, wp_the_registry, wp_io, wp_bind.
  apply wp_iterate. intros l _. rewrite wp_bind. apply wp_iterate. intros k _. rewrite wp_bind, wp_need.
  destruct (state_to_vec_pretty _) as [text|]; [|by apply HR; [right; left|]].
  rewrite wp_bind, wp_asking, wp_bind, wp_ensure. simpl.
  destruct (replace_file _ text).1; [|by apply HR; [right; right; left|]]. rewrite wp_modify. by apply HQ.
Qed.

Lemma wp_timestamp st (Q : N → Store A W → Prop) (R : string → Store A W → Prop) :
  (∀ now st', registry st' = registry st → Q now st') →
  (∀ e st', HostFailure e → registry st' = registry st → R e st') → wp (io timestamp_ms) Q R st.
Proof.
  intros HQ HR. rewrite wp_io. unfold timestamp_ms. rewrite wp_bind, wp_asking, wp_need.
  destruct (system_time _).1; [by apply HQ|by apply HR; [left|]].
Qed.

Lemma wp_io_same {B} (m : Step (Disk W) string B) (Q : B → Store A W → Prop) (R : string → Store A W → Prop) st :
  on_host m → (∀ b st', registry st' = registry st → Q b st') → (∀ e st', registry st' = registry st → R e st') →
  wp (io m) Q R st.
Proof. intros Hm HQ HR. apply wp_io_on_host; [done|..]; intros; [by apply HQ|by apply HR]. Qed.

Lemma create_joins client creation st :
  wp (create client creation)
    (λ s st', let id := d_id (s_descriptor s) in ((∀ client', ¬ member st client' id) → Joined client id st st') ∧
       (∀ id', member st client id' → member st' client id'))
    (λ e st', SameMembers st st' ∨ HostFailure e) st.
Proof.
  unfold create. rewrite wp_bind. apply wp_quiet_name; [|intros; left; apply same_refl]. intros _. rewrite wp_bind.
  apply wp_io_same; [apply directory_on_host| |]; intros cwd st1 Hr1; [|left; apply same_sessions; congruence].
  rewrite wp_bind, wp_the_registry, wp_bind. apply wp_io_iterate. intros l _. rewrite wp_bind, wp_ensure.
  destruct (existsb _ l); cbn [negb]; [left; apply same_sessions; congruence|]. rewrite wp_bind.
  apply wp_timestamp; [intros now st2 Hr2|intros e st2 He _; by right].
  rewrite wp_bind, wp_io, wp_asking, wp_bind, wp_changing, wp_bind.
  apply wp_persisting_failure; [intros st3 Hr3|intros e st3 He _; by right].
  rewrite wp_ret. set (x := {| s_descriptor := _ |}) in *. cbn [d_id s_descriptor].
  change (d_id (s_descriptor x)) with (new_v4 (world (disk st2))).1 in *. set (id := (new_v4 _).1) in *. cbv zeta.
  assert (Hs3 : sessions (registry st3) !! id = Some {| sr_snapshot := x; sr_attachments := {[client]} |} ∧
    ∀ id', id' ≠ id → sessions (registry st3) !! id' = sessions (registry st) !! id').
  { rewrite Hr3. simpl. rewrite Hr2, Hr1, lookup_insert_eq. split; [done|]. intros id' Hne. by rewrite lookup_insert_ne. }
  destruct Hs3 as [Hnew Hold]. unfold Joined, member. split.
  - intros Hfree client' id'. destruct (decide (id' = id)) as [->|Hne]; [rewrite Hnew|rewrite Hold by done; naive_solver].
    split; [intros (? & [= <-] & Hin); right; simpl in Hin; set_solver|]. intros [Hm|[-> _]]; [by apply Hfree in Hm|].
    eexists. split; [done|]. simpl. set_solver.
  - intros id' Hm. destruct (decide (id' = id)) as [->|Hne]; [rewrite Hnew|by rewrite Hold].
    eexists. split; [done|]. simpl. set_solver.
Qed.

Lemma only_one (c : gset string) x y : size c ≤ 1 → x ∈ c → y ∈ c → x = y.
Proof.
  intros Hc Hx Hy. apply (size_singleton_inv c); [|done..]. assert (size c ≠ 0); [|lia].
  intros H%size_empty_inv. set_solver.
Qed.

Lemma attach_joins client selector role st :
  Inv (registry st) →
  wp (attach client selector role)
    (λ s st', let id := d_id (s_descriptor s) in
       (∀ client', member st client' id → client' = client) ∧ Joined client id st st' ∧
       resolves (registry st) selector id)
    (λ e st', SameMembers st st' ∨ HostFailure e) st.
Proof.
  intros Hinv. unfold attach. rewrite !wp_bind, wp_ensure. case_bool_decide; [|left; apply same_refl]. rewrite wp_bind.
  apply wp_resolve; [done| |intros _; left; apply same_refl]. intros id rec Hid Hres.
  rewrite wp_bind. eapply wp_expect_record; [done|]. rewrite wp_bind, wp_ensure.
  destruct (_ || _) eqn:Hfree; [|left; apply same_refl]. rewrite wp_bind. unfold on_attachments, on_record.
  rewrite wp_changing, wp_bind. apply wp_timestamp; [intros now st2 Hr2|intros e st2 He _; by right].
  rewrite wp_bind. unfold on_snapshot, on_record. rewrite wp_changing, wp_bind.
  eapply wp_expect_record; [simpl; rewrite lookup_alter_eq, Hr2; simpl; by rewrite lookup_alter_eq, Hid|].
  rewrite wp_ret. simpl. assert (d_id (s_descriptor (sr_snapshot rec)) = id) as -> by apply (inv_record _ Hinv _ _ Hid).
  split_and!; [| |done].
  - intros client' (rec' & Hrec' & Hin). rewrite Hid in Hrec'. injection Hrec' as <-.
    apply orb_true_iff in Hfree as [He%bool_decide_eq_true|He%bool_decide_eq_true]; [set_solver|].
    by eapply only_one; [apply (inv_record _ Hinv _ _ Hid)|..].
  - intros client' id'. unfold member. simpl. rewrite Hr2. simpl. destruct (decide (id = id')) as [<-|Hne].
    + rewrite !lookup_alter_eq, Hid. simpl. split.
      * intros (? & [= <-] & Hin). simpl in Hin. set_solver.
      * intros [(? & [= <-] & Hin)|[-> _]]; (eexists; split; [done|]; simpl; set_solver).
    + rewrite !lookup_alter_ne by done. naive_solver.
Qed.

Lemma detach_leaves client id st :
  wp (detach client id) (λ _, LeftSession client id st) (λ e _, HostFailure e) st.
Proof.
  unfold detach. rewrite wp_bind, wp_the_registry. destruct (sessions (registry st) !! id) as [rec|] eqn:Hid.
  2: { rewrite wp_ret. intros client' id'. split; [|by intros []]. intros Hm. split; [done|]. intros [-> ->].
    destruct Hm as (? & ? & _). congruence. }
  rewrite wp_bind. unfold on_attachments, on_record. rewrite wp_changing, wp_bind.
  eapply wp_expect_record; [simpl; by rewrite lookup_alter_eq, Hid|]. rewrite wp_bind.
  set (rec' := {| sr_snapshot := sr_snapshot rec; sr_attachments := sr_attachments rec ∖ {[client]} |}).
  assert (Hgo : ∀ st1, (∀ client' id', member st1 client' id' ↔ member st client' id' ∧ ¬ (client' = client ∧ id' = id)) →
    wp (persisting;; mret (Some id)) (λ _, LeftSession client id st) (λ e _, HostFailure e) st1).
  { intros st1 H1. rewrite wp_bind. apply wp_persisting_failure; [|done]. intros st2 H2. rewrite wp_ret.
    intros client' id'. rewrite <-H1. unfold member. by rewrite H2. }
  destruct (_ && _) eqn:Hgone; [rewrite wp_changing|rewrite wp_ret]; apply Hgo; intros client' id'; unfold member; simpl.
  - apply andb_true_iff in Hgone as [Hempty%bool_decide_eq_true _]. destruct (decide (id = id')) as [<-|Hne].
    + rewrite lookup_delete_eq, Hid. split; [by intros (? & ? & _)|]. intros [(? & [= <-] & Hin) Hn]. exfalso.
      apply Hn. split; [|done]. destruct (decide (client' = client)) as [|Hc]; [done|]. simpl in Hempty. set_solver.
    + rewrite lookup_delete_ne, lookup_alter_ne by done. naive_solver.
  - destruct (decide (id = id')) as [<-|Hne].
    + rewrite lookup_alter_eq, Hid. simpl. split.
      * intros (? & [= <-] & Hin). simpl in Hin. split; [exists rec; set_solver|set_solver].
      * intros [(? & [= <-] & Hin) Hn]. eexists. split; [done|]. simpl. set_solver.
    + rewrite lookup_alter_ne by done. naive_solver.
Qed.

Lemma close_takes_away client selector st :
  Inv (registry st) →
  wp (close client selector)
    (λ id st', Removed client id st st' ∧ resolves (registry st) selector id)
    (λ e st', SameMembers st st' ∨ HostFailure e) st.
Proof.
  intros Hinv. unfold close. rewrite wp_bind. apply wp_resolve; [done| |intros _; left; apply same_refl].
  intros id rec Hid Hres. rewrite wp_bind. eapply wp_expect_record; [done|]. rewrite wp_bind, wp_ensure.
  case_bool_decide as Hc; [|left; apply same_refl]. rewrite wp_bind, wp_changing, wp_bind.
  apply wp_persisting_failure; [|intros e st' He _; by right]. intros st' Hr'. rewrite wp_ret. split; [|done].
  intros client' id'. unfold member. rewrite Hr'. simpl. split.
  - destruct (decide (id = id')) as [<-|Hne].
    + rewrite lookup_delete_eq. split; [by intros (? & ? & _)|by intros [_ []]].
    + rewrite lookup_delete_ne by done. naive_solver.
  - rewrite Hid. intros (? & [= <-] & Hin). set_solver.
Qed.
End members.
#[export] Hint Resolve same_io same_registry_get same_in_flight same_snapshot same_list same_update same_begin same_finish
  same_update_state : leaves.

(** * Everything else *)

(** The relation of a part of the state. *)
Definition on_part {S T} (part : S → T) (R : relation T) : relation S := λ s s', R (part s) (part s').
#[global] Instance on_part_preorder {S T} (part : S → T) (R : relation T) `{!PreOrder R} : PreOrder (on_part part R).
Proof. split; unfold on_part; [by intros s|]. intros s1 s2 s3 H1 H2. by etrans. Qed.

Section parts.
Context {A W : Type} `{!StateSerde A, !SessionHost W, !RegistryLaws A W, !PtyWorld A W, !EventSerde A, !EventLaws A,
  !TurnWorld A W}.

Abbreviation SameStore := (SameMembers (A := A) (W := W)).
Definition SameHostMembers : relation (PtyHost A W) := on_part store SameStore.
Definition SameDaemonMembers : relation (Daemon A W) := on_part pty_host SameHostMembers.
#[global] Instance SameHostMembers_preorder : PreOrder SameHostMembers := _.
#[global] Instance SameDaemonMembers_preorder : PreOrder SameDaemonMembers := _.

Lemma same_asking {B} (f : W → B * W) : leaves SameStore (io (asking f)).
Proof. apply same_io. Qed.
Lemma same_calling (f : W → option string * W) : leaves SameStore (calling f).
Proof. unfold calling. auto with leaves. Qed.
Lemma same_ignoring {B} (m : Step (Store A W) string B) : leaves SameStore m → leaves SameStore (ignoring m).
Proof. intros Hm. unfold ignoring. auto with leaves. Qed.
#[local] Hint Resolve same_asking same_calling same_ignoring : leaves.

(** ** Terminal jobs *)

Lemma host_in_store {B} (m : Step (Store A W) string B) : leaves SameStore m → leaves SameHostMembers (in_store m).
Proof. by apply leaves_zoom. Qed.
Lemma host_set_coordinator f : leaves SameHostMembers (set_coordinator f).
Proof. by intros h. Qed.
Lemma host_the_coordinator : leaves SameHostMembers the_coordinator.
Proof. by intros h. Qed.
#[local] Hint Resolve host_in_store host_set_coordinator host_the_coordinator : leaves.

Lemma host_jobs : leaves SameHostMembers jobs.
Proof. unfold jobs. auto with leaves. Qed.
Lemma host_remove_job id : leaves SameHostMembers (remove_job id).
Proof. unfold remove_job. auto with leaves. Qed.
#[local] Hint Resolve host_jobs host_remove_job : leaves.

Lemma host_start_admit session_id command cwd size terminal_type audit :
  leaves SameHostMembers (start_admit session_id command cwd size terminal_type audit).
Proof. unfold start_admit, remove_completed_for_session. auto 30 with leaves. Qed.
Lemma host_start_commit session_id command cwd pty_id size audit :
  leaves SameHostMembers (start_commit session_id command cwd pty_id size audit).
Proof. unfold start_commit. auto 20 with leaves. Qed.
Lemma host_attach_job session_id after_offset : leaves SameHostMembers (attach_job session_id after_offset).
Proof. unfold attach_job. auto 20 with leaves. Qed.
Lemma host_claim ticket : leaves SameHostMembers (claim ticket).
Proof. unfold claim. auto 20 with leaves. Qed.
Lemma host_terminate_session session_id : leaves SameHostMembers (terminate_session session_id).
Proof. unfold terminate_session. auto with leaves. Qed.
#[local] Hint Resolve host_start_admit host_start_commit host_attach_job host_claim host_terminate_session : leaves.
Lemma host_start session_id command cwd size terminal_type audit :
  leaves SameHostMembers (Pty.start session_id command cwd size terminal_type audit).
Proof. unfold Pty.start. auto with leaves. Qed.

Lemma same_record_chunks p direction offset l : leaves SameStore (record_chunks p direction offset l).
Proof. revert offset. induction l as [|chunk l IH]; intros offset; simpl; auto 10 with leaves. Qed.
#[local] Hint Resolve same_record_chunks : leaves.
Lemma same_record_stream direction b p : leaves SameStore (record_stream direction b p).
Proof. unfold record_stream. auto 10 with leaves. Qed.
#[local] Hint Resolve same_record_stream : leaves.
Lemma same_job_finish status p : leaves SameStore (finish status p).
Proof. unfold finish, record_stream_summary. auto 20 with leaves. Qed.
#[local] Hint Resolve same_job_finish : leaves.
Lemma same_exchange input accepted output status p : leaves SameStore (worker_exchange input accepted output status p).
Proof. unfold worker_exchange. auto 20 with leaves. Qed.
#[local] Hint Resolve same_exchange : leaves.

Lemma host_worker_at id f : (∀ p, leaves SameStore (f p)) → leaves SameHostMembers (worker_at id f).
Proof. intros Hf. unfold worker_at. auto 20 with leaves. Qed.

#[local] Hint Resolve host_worker_at : leaves.
#[local] Hint Extern 2 (leaves _ (let '(_, _) := _ in _)) => case_match : leaves.

Lemma host_pty_op op : leaves SameHostMembers (run_pty_op op).
Proof.
  destruct op; simpl; unfold silent, answer, updating_coordinator, Pty.start, terminate, shutdown_all, stop_accepting;
    auto 20 with leaves.
Qed.
#[local] Hint Resolve host_pty_op : leaves.

(** ** Turns *)

Lemma daemon_in_pty {B} (m : Step (PtyHost A W) string B) : leaves SameHostMembers m → leaves SameDaemonMembers (in_pty m).
Proof. by apply leaves_zoom. Qed.
Lemma daemon_in_registry {B} (m : Step (Store A W) string B) : leaves SameStore m → leaves SameDaemonMembers (in_registry m).
Proof. intros Hm. apply daemon_in_pty. auto with leaves. Qed.
#[local] Hint Resolve daemon_in_pty daemon_in_registry : leaves.

Lemma daemon_asks {B} (f : W → B * W) : leaves SameDaemonMembers (asks f).
Proof. unfold asks. auto with leaves. Qed.
Lemma daemon_calls f : leaves SameDaemonMembers (calls f).
Proof. unfold calls. auto with leaves. Qed.
Lemma daemon_set_executions f g : leaves (E := string) SameDaemonMembers (modify (λ d : Daemon A W, set_executions (f d) (g d) d)).
Proof. by intros d. Qed.
Lemma daemon_set_workers f : leaves (E := string) SameDaemonMembers (modify (λ d : Daemon A W, set_workers (f d) d)).
Proof. by intros d. Qed.
Lemma daemon_set_admission b : leaves (E := string) SameDaemonMembers (modify (set_admission (A := A) (W := W) b)).
Proof. by intros d. Qed.
#[local] Hint Resolve daemon_asks daemon_calls daemon_set_executions daemon_set_workers daemon_set_admission : leaves.

Lemma daemon_attempt {B} (m : Step (Daemon A W) string B) : leaves SameDaemonMembers m → leaves SameDaemonMembers (attempt m).
Proof. intros Hm. unfold attempt. auto with leaves. Qed.
Lemma daemon_on_execution r f : leaves SameDaemonMembers (on_execution r f).
Proof. unfold on_execution. auto with leaves. Qed.
Lemma daemon_the_execution r : leaves SameDaemonMembers (the_execution r).
Proof. unfold the_execution. auto with leaves. Qed.
#[local] Hint Resolve daemon_attempt daemon_on_execution daemon_the_execution : leaves.
Lemma daemon_session session_id : leaves SameDaemonMembers (session session_id).
Proof.
  unfold session. apply leaves_bind; [auto with leaves|]. intros d. case_match; [auto with leaves|].
  apply leaves_bind; [by intros d'|auto with leaves].
Qed.
Lemma daemon_now_ms : leaves SameDaemonMembers now_ms.
Proof. unfold now_ms. auto with leaves. Qed.
#[local] Hint Resolve daemon_session daemon_now_ms : leaves.
Lemma daemon_append_event r turn event : leaves SameDaemonMembers (append_event r turn event).
Proof. unfold append_event. auto with leaves. Qed.
Lemma daemon_conclude_turn r turn event : leaves SameDaemonMembers (conclude_turn r turn event).
Proof. unfold conclude_turn. auto with leaves. Qed.
Lemma daemon_finish_turn r turn : leaves SameDaemonMembers (finish_turn r turn).
Proof. unfold finish_turn. auto with leaves. Qed.
Lemma daemon_audit_snapshot s : leaves SameDaemonMembers (audit_handle_for_snapshot s).
Proof. unfold audit_handle_for_snapshot. auto with leaves. Qed.
Lemma daemon_append_to stream event : leaves SameDaemonMembers (append_to stream event).
Proof. unfold append_to. auto with leaves. Qed.
#[local] Hint Resolve daemon_append_event daemon_conclude_turn daemon_finish_turn daemon_audit_snapshot daemon_append_to : leaves.
Lemma daemon_audit_handle session_id : leaves SameDaemonMembers (audit_handle session_id).
Proof. unfold audit_handle. auto with leaves. Qed.
Lemma daemon_finished_among l : leaves SameDaemonMembers (finished_among l).
Proof. induction l; simpl; auto with leaves. Qed.
#[local] Hint Resolve daemon_audit_handle daemon_finished_among : leaves.
Lemma daemon_reap : leaves SameDaemonMembers reap_finished_workers.
Proof. unfold reap_finished_workers. auto with leaves. Qed.
#[local] Hint Resolve daemon_reap : leaves.

Lemma daemon_submit_reserve session_id input approval limits overlay :
  leaves SameDaemonMembers (submit_reserve session_id input approval limits overlay).
Proof. unfold submit_reserve. auto 30 with leaves. Qed.
Lemma daemon_submit_accept t started : leaves SameDaemonMembers (submit_accept t started).
Proof. unfold submit_accept. auto 30 with leaves. Qed.
Lemma daemon_submit_spawn t : leaves SameDaemonMembers (submit_spawn t).
Proof. unfold submit_spawn. auto 30 with leaves. Qed.
#[local] Hint Resolve daemon_submit_reserve daemon_submit_accept daemon_submit_spawn : leaves.
Lemma daemon_submit session_id input approval limits overlay :
  leaves SameDaemonMembers (submit session_id input approval limits overlay).
Proof. unfold submit. auto with leaves. Qed.

Lemma daemon_observer_audit event t : leaves SameDaemonMembers (observer_audit event t).
Proof. unfold observer_audit, cancel_flag. auto 10 with leaves. Qed.
#[local] Hint Resolve daemon_observer_audit : leaves.
Lemma daemon_observe event t : leaves SameDaemonMembers (observe event t).
Proof. unfold observe, audit_execution. auto 20 with leaves. Qed.
Lemma daemon_observer_approve t call : leaves SameDaemonMembers (observer_approve t call).
Proof. unfold observer_approve. auto 20 with leaves. Qed.
Lemma daemon_agent_finished outcome history t : leaves SameDaemonMembers (agent_finished outcome history t).
Proof. unfold agent_finished. auto 20 with leaves. Qed.
Lemma daemon_shell_finished command result t : leaves SameDaemonMembers (shell_finished command result t).
Proof. unfold shell_finished. auto 30 with leaves. Qed.
Lemma daemon_run_begin t : leaves SameDaemonMembers (run_begin t).
Proof. unfold run_begin. auto 20 with leaves. Qed.
Lemma daemon_run_persist t : leaves SameDaemonMembers (run_persist t).
Proof. unfold run_persist. auto with leaves. Qed.
Lemma daemon_run_conclude p result t : leaves SameDaemonMembers (run_conclude p result t).
Proof. unfold run_conclude. auto with leaves. Qed.
#[local] Hint Resolve daemon_observe daemon_observer_approve daemon_agent_finished daemon_shell_finished daemon_run_begin
  daemon_run_persist daemon_run_conclude : leaves.

Lemma daemon_events session_id after expired wakes : leaves SameDaemonMembers (session_events session_id after expired wakes).
Proof. unfold session_events. auto with leaves. Qed.
Lemma daemon_approve session_id r : leaves SameDaemonMembers (approve session_id r).
Proof. unfold approve. auto with leaves. Qed.
Lemma daemon_cancel session_id turn_id : leaves SameDaemonMembers (cancel_turn session_id turn_id).
Proof. unfold cancel_turn. auto with leaves. Qed.
Lemma daemon_cancel_and_remove session_id : leaves SameDaemonMembers (cancel_and_remove session_id).
Proof. unfold cancel_and_remove. auto 10 with leaves. Qed.
Lemma daemon_active_turn session_id : leaves SameDaemonMembers (active_turn session_id).
Proof. unfold active_turn. auto with leaves. Qed.
Lemma daemon_activity session_id : leaves SameDaemonMembers (turn_activity session_id).
Proof. unfold turn_activity. auto with leaves. Qed.
Lemma daemon_cancel_all l : leaves SameDaemonMembers (cancel_all l).
Proof. induction l; simpl; auto with leaves. Qed.
#[local] Hint Resolve daemon_events daemon_approve daemon_cancel daemon_cancel_and_remove daemon_active_turn daemon_activity
  daemon_cancel_all : leaves.
Lemma daemon_stop : leaves SameDaemonMembers stop_accepting_and_cancel.
Proof. unfold stop_accepting_and_cancel. auto 10 with leaves. Qed.
Lemma daemon_wait polls : leaves SameDaemonMembers (wait_for_shutdown polls).
Proof. induction polls; simpl; auto 10 with leaves. Qed.
End parts.
#[export] Hint Resolve daemon_in_pty daemon_in_registry daemon_asks daemon_calls daemon_submit daemon_events daemon_approve
  daemon_cancel daemon_cancel_and_remove daemon_active_turn daemon_activity daemon_audit_handle host_jobs host_pty_op
  host_terminate_session host_attach_job host_claim host_set_coordinator host_start daemon_submit_reserve daemon_submit_accept
  daemon_submit_spawn daemon_observe daemon_observer_approve daemon_append_event daemon_agent_finished daemon_shell_finished
  daemon_run_begin daemon_run_persist daemon_run_conclude daemon_the_execution daemon_stop daemon_wait : leaves.

(** * Requests are safe *)

(** [m] keeps an invariant and does not panic. *)
Definition safe {S E B} (I : S → Prop) (m : Step S E B) : Prop := ∀ s, I s → wp m (λ _, I) (λ _, I) s.

Section safe.
Context {S E : Type} {I : S → Prop}.

Lemma safe_ret {B} (b : B) : safe (E := E) I (mret b).
Proof. by intros s. Qed.
Lemma safe_get : safe (E := E) I get.
Proof. by intros s. Qed.
Lemma safe_throw {B} (e : E) : safe (B := B) I (throw e).
Proof. by intros s. Qed.
Lemma safe_ensure b (e : E) : safe I (ensure b e).
Proof. intros s Hs. rewrite wp_ensure. by destruct b. Qed.
Lemma safe_lift {B} (r : Outcome E B) : r ≠ Panic → safe I (lift r).
Proof. intros Hr s Hs. rewrite wp_lift. by destruct r. Qed.
Lemma safe_bind {B C} (m : Step S E B) (k : B → Step S E C) : safe I m → (∀ b, safe I (k b)) → safe I (m ≫= k).
Proof. intros Hm Hk s Hs. rewrite wp_bind. eapply wp_wand; [by apply Hm|intros b s' Hs'; by apply Hk|done]. Qed.
Lemma safe_handle {B C} (m : Step S E B) (k : B → Step S E C) g :
  safe I m → (∀ b, safe I (k b)) → (∀ e, safe I (g e)) → safe I (handle m k g).
Proof.
  intros Hm Hk Hg s Hs. rewrite wp_handle. eapply wp_wand; [by apply Hm|intros b s' Hs'; by apply Hk|intros e s' Hs'; by apply Hg].
Qed.
Lemma safe_zoom {T B} (J : T → Prop) (part : T → S) put (m : Step S E B) :
  (∀ t, J t → I (part t)) → (∀ s t, J t → I s → J (put s t)) → safe I m → safe J (zoom part put m).
Proof.
  intros H1 H2 Hm t Ht. rewrite wp_zoom. eapply wp_wand; [apply Hm, H1, Ht|..]; intros ? s Hs; by apply H2.
Qed.
End safe.

Create HintDb safe.
#[export] Hint Resolve safe_ret safe_get safe_throw safe_ensure safe_bind safe_handle : safe.
#[export] Hint Extern 1 (safe _ (if _ then _ else _)) => case_match : safe.
#[export] Hint Extern 1 (safe _ (match _ with _ => _ end)) => case_match : safe.
