(* ===== verification/RequestsSteps.v ===== *)
(** A request, whatever it is, leaves the daemon in a state it may be in
    ([Requests]): it does not panic, and what it does to the clients attached to
    sessions is told by its answer. *)
From Stdlib Require Import Ascii.
From S2P Require Import Prelude Sensitive Policy Budget Compaction CompactionSpec CallId Chat Engine Effects.
From S2P Require Import AuditModel SessionModel Registry RegistrySpec Execution JournalSpec.
From S2P Require Import PtyStream Pty PtyJobs Turns TurnsSpec TurnsSteps TurnsHistory Completion SourceView Requests RequestsSpec.
#[local] Opaque MAX_JOURNAL_EVENTS.

(** * The parts *)

Section parts.
Context {A W : Type} `{!StateSerde A, !SessionHost W, !RegistryLaws A W, !PtyWorld A W, !EventSerde A, !EventLaws A,
  !TurnWorld A W}.
Abbreviation DaemonOk := (DInv (A := A) (W := W)).

Lemma safe_registry {B} (m : Step (Store A W) string B) : safe (λ st, Inv (registry st)) m → safe DaemonOk (in_registry m).
Proof.
  intros Hm d Hd. rewrite wp_in_registry. eapply wp_wand; [apply Hm, reg_inv, Hd|..]; intros ? st Hst; by apply registry_calm.
Qed.

Lemma safe_op op : safe (λ st : Store A W, Inv (registry st)) (run_op op).
Proof. intros st Hst. by apply run_op_inv. Qed.

Lemma safe_run {B} op (m : Step (Store A W) string B) : run_op op = (m;; mret ()) → safe (λ st, Inv (registry st)) m.
Proof. intros Hop st Hst. pose proof (run_op_inv op st Hst) as H. rewrite Hop, wp_bind in H. exact H. Qed.

Lemma safe_snapshot selector : safe (λ st : Store A W, Inv (registry st)) (snapshot selector).
Proof. by apply (safe_run (OpSnapshot selector)). Qed.
Lemma safe_list : safe (λ st : Store A W, Inv (registry st)) list_sessions.
Proof. by apply (safe_run OpList). Qed.
Lemma safe_create client creation : safe (λ st : Store A W, Inv (registry st)) (create client creation).
Proof. by apply (safe_run (OpCreate client creation)). Qed.
Lemma safe_attach client selector role : safe (λ st : Store A W, Inv (registry st)) (attach client selector role).
Proof. by apply (safe_run (OpAttach client selector role)). Qed.
Lemma safe_detach client id : safe (λ st : Store A W, Inv (registry st)) (detach client id).
Proof. by apply (safe_run (OpDetach client id)). Qed.
Lemma safe_update client id model cwd history : safe (λ st : Store A W, Inv (registry st)) (update client id model cwd history).
Proof. by apply (safe_run (OpUpdate client id model cwd history)). Qed.
Lemma safe_close client selector : safe (λ st : Store A W, Inv (registry st)) (close client selector).
Proof. by apply (safe_run (OpClose client selector)). Qed.
Lemma safe_directory path : safe (λ st : Store A W, Inv (registry st)) (io (validate_working_directory path)).
Proof. intros st Hst. apply wp_io_same; [apply directory_on_host|..]; intros; congruence. Qed.
Lemma safe_the_registry : safe (λ st : Store A W, Inv (registry st)) the_registry.
Proof. by intros st Hst. Qed.

Lemma safe_pty_op op : safe HostInv (run_pty_op (A := A) (W := W) op).
Proof.
  intros h Hh. unfold wp. destruct (run_pty_op op h) as [h' r] eqn:Hr. pose proof (run_pty_op_inv _ _ _ _ Hh Hr) as Hh'.
  destruct (run_pty_op_left _ _ _ _ Hh Hr) as (Hp & _). by destruct r.
Qed.

Lemma safe_answer {B} op (f : B → PtyAnswer) (m : Step (PtyHost A W) string B) : run_pty_op op = answer f m → safe HostInv m.
Proof. intros Hop h Hh. pose proof (safe_pty_op op h Hh) as H. rewrite Hop, wp_answer in H. exact H. Qed.

Lemma safe_terminate_session session_id : safe (HostInv (A := A) (W := W)) (terminate_session session_id).
Proof. by eapply (safe_answer (PoTerminate session_id)). Qed.
Lemma safe_attach_job session_id after_offset : safe (HostInv (A := A) (W := W)) (attach_job session_id after_offset).
Proof. by eapply (safe_answer (PoAttach session_id after_offset)). Qed.
Lemma safe_claim ticket : safe (HostInv (A := A) (W := W)) (claim ticket).
Proof. by eapply (safe_answer (PoClaim ticket)). Qed.
Lemma safe_release c : safe (HostInv (A := A) (W := W)) (set_coordinator (release_claim c)).
Proof. by eapply (safe_answer (PoRelease c)). Qed.
Lemma safe_start session_id command cwd size terminal_type audit :
  safe (HostInv (A := A) (W := W)) (Pty.start session_id command cwd size terminal_type audit).
Proof.
  apply safe_bind; [by eapply (safe_answer (PoAdmit session_id command cwd size terminal_type audit))|].
  intros id. by eapply (safe_answer (PoCommit session_id command cwd id size audit)).
Qed.
Lemma safe_jobs : safe (HostInv (A := A) (W := W)) jobs.
Proof. intros h Hh. apply wp_jobs. by intros l. Qed.

Lemma safe_in_pty {B} (m : Step (PtyHost A W) string B) : safe HostInv m → safe DaemonOk (in_pty m).
Proof. apply safe_zoom; [apply d_host|]. intros h d Hd Hh. by apply host_calm. Qed.

Lemma safe_calm {B} (m : Step (Daemon A W) string B) :
  (∀ d, DInv d → wp m (λ _, Next unchanged nobody d) (λ _, Next unchanged nobody d) d) → safe DaemonOk m.
Proof. intros Hm d Hd. eapply wp_wand; [by apply Hm|by intros ?? []|by intros ?? []]. Qed.

Lemma safe_on_session {B} session_id (k : nat → Step (Daemon A W) string B) :
  (∀ r d', is_Some (executions d' !! r) → goes Hushed True d' (k r)) → safe DaemonOk (session session_id ≫= k).
Proof. intros Hk. apply safe_calm. intros d Hd. eapply wp_wand; [by apply (wp_on_session True)|done|by intros ?? []]. Qed.

Lemma safe_events session_id after expired wakes : safe DaemonOk (session_events session_id after expired wakes).
Proof.
  apply safe_on_session. intros r d Hr. apply goes_bind; [by apply goes_the_execution|intros s; apply goes_ret].
Qed.
Lemma safe_active_turn session_id : safe DaemonOk (active_turn session_id).
Proof.
  apply safe_on_session. intros r d Hr. apply goes_bind; [by apply goes_the_execution|intros s; apply goes_ret].
Qed.
Lemma safe_activity session_id : safe DaemonOk (turn_activity session_id).
Proof.
  apply safe_on_session. intros r d Hr. apply goes_bind; [by apply goes_the_execution|intros s; apply goes_ret].
Qed.
Lemma safe_approve session_id r : safe DaemonOk (approve session_id r).
Proof. apply safe_on_session. intros e d He. apply goes_on_execution; [done|apply reply_kept]. Qed.
Lemma safe_cancel session_id turn_id : safe DaemonOk (cancel_turn session_id turn_id).
Proof. apply safe_on_session. intros e d He. apply goes_on_execution; [done|apply cancel_kept]. Qed.
Lemma safe_cancel_and_remove session_id : safe DaemonOk (cancel_and_remove session_id).
Proof. intros d Hd. eapply wp_wand; [by apply wp_cancel_and_remove|by intros ?? []|done]. Qed.

Lemma safe_asks {B} (f : W → B * W) : safe DaemonOk (asks f).
Proof.
  apply safe_calm. intros d Hd. eapply (wp_goes (X := Next unchanged nobody) False);
    [apply goes_asks|by apply calm_refl|done|done].
Qed.
Lemma safe_calls f : safe DaemonOk (calls f).
Proof.
  apply safe_calm. intros d Hd. eapply (wp_goes (X := Next unchanged nobody) True);
    [apply goes_calls|by apply calm_refl|done|done].
Qed.
#[local] Hint Resolve safe_asks safe_calls safe_registry safe_snapshot : safe.

Lemma safe_audit_handle session_id : safe DaemonOk (audit_handle session_id).
Proof. unfold audit_handle, audit_handle_for_snapshot. auto 10 with safe. Qed.

Lemma reserved_valid session_id input approval limits overlay (d : Daemon A W) t started d' :
  Reserved session_id input approval limits overlay d t started d' → Valid d' t.
Proof. intros [_ _ _ _ Hc _ _ _ _ (s & Hs & _) _ _ _ _]. split; [|rewrite Hc]; by exists s. Qed.

Lemma safe_submit session_id input approval limits overlay : safe DaemonOk (submit session_id input approval limits overlay).
Proof.
  intros d Hd. unfold submit. rewrite wp_bind. eapply wp_wand; [by apply wp_submit_reserve| |].
  2: { intros e d' H. by apply hushed_inv in H. }
  intros [t started] d1 Hres. cbn [fst snd] in Hres. pose proof (reserved_valid _ _ _ _ _ _ _ _ _ Hres) as Hv.
  destruct (rs_next _ _ _ _ _ _ _ _ _ Hres) as (d0 & _ & Hn & _). rewrite wp_bind.
  eapply wp_wand; [apply wp_submit_accept; [apply Hn|done]| |].
  - intros [] d2 [H2 _ _ _]. eapply wp_wand; [apply wp_submit_spawn; [apply H2|by eapply valid_next]|..].
    + intros id d3 [H3 _ _ _ _]. by apply hushed_inv in H3.
    + intros e d3 [H3 _ _]. apply H3.
  - intros e d2 [[H2 _] _]. apply H2.
Qed.
End parts.
#[export] Hint Resolve safe_registry safe_in_pty : safe.
(** The proofs of these use classes their statements do not name. *)
#[export] Hint Extern 2 (safe _ _) =>
  first [apply safe_snapshot | apply safe_list | apply safe_create | apply safe_attach | apply safe_detach | apply safe_update
    | apply safe_close | apply safe_directory | apply safe_the_registry | apply safe_terminate_session
    | apply safe_attach_job | apply safe_claim | apply safe_release | apply safe_start | apply safe_jobs
    | apply safe_asks | apply safe_calls | apply safe_events | apply safe_active_turn | apply safe_activity
    | apply safe_approve | apply safe_cancel | apply safe_cancel_and_remove | apply safe_audit_handle | apply safe_submit] : safe.

(** * The service *)

Section service.
Context {A W : Type} `{!StateSerde A, !SessionHost W, !RegistryLaws A W, !PtyWorld A W, !EventSerde A, !EventLaws A,
  !TurnWorld A W, !CompletionHost W, !ViewHost W, !ServiceWorld A W, !EqDecision A}.
Context (split : string → string + list string).
Implicit Types (s : Service A W) (c : Client A W).

Definition ServiceOk s : Prop := DInv (turns_of s).
Definition ClientOk c : Prop := ServiceOk (service c).
Definition SameServiceMembers : relation (Service A W) := on_part turns_of SameDaemonMembers.
Definition SameClientMembers : relation (Client A W) := on_part service SameServiceMembers.
#[global] Instance SameServiceMembers_preorder : PreOrder SameServiceMembers := _.
#[global] Instance SameClientMembers_preorder : PreOrder SameClientMembers := _.

(** A computation that is safe and attaches nobody. *)
Definition quiet {B} (m : Step (Service A W) string B) : Prop := safe ServiceOk m ∧ leaves SameServiceMembers m.

Lemma quiet_ret {B} (b : B) : quiet (mret b).
Proof. split; auto with safe leaves. Qed.
Lemma quiet_throw {B} e : quiet (B := B) (throw e).
Proof. split; auto with safe leaves. Qed.
Lemma quiet_ensure b e : quiet (ensure b e).
Proof. split; auto with safe leaves. Qed.
Lemma quiet_lift {B} (r : Outcome string B) : r ≠ Panic → quiet (lift r).
Proof. intros Hr. split; [by apply safe_lift|auto with leaves]. Qed.
Lemma quiet_bind {B C} (m : Step (Service A W) string B) (k : B → Step (Service A W) string C) :
  quiet m → (∀ b, quiet (k b)) → quiet (m ≫= k).
Proof. intros [Hs Hl] Hk. split; [apply safe_bind; [done|]|apply leaves_bind; [done|]]; intros b; apply Hk. Qed.
Lemma quiet_handle {B C} (m : Step (Service A W) string B) (k : B → Step (Service A W) string C) g :
  quiet m → (∀ b, quiet (k b)) → (∀ e, quiet (g e)) → quiet (handle m k g).
Proof.
  intros [Hs Hl] Hk Hg. split; [apply safe_handle; [done|..]|apply leaves_handle; [done|..]]; intros ?; first [apply Hk|apply Hg].
Qed.
Lemma quiet_daemon {B} (m : Step (Daemon A W) string B) :
  safe DInv m → leaves SameDaemonMembers m → quiet (in_daemon m).
Proof. intros Hs Hl. split; [by apply (safe_zoom (I := DInv))|by apply leaves_zoom with (R' := SameDaemonMembers)]. Qed.
Lemma quiet_registry {B} (m : Step (Store A W) string B) :
  safe (λ st, Inv (registry st)) m → leaves (SameMembers (A := A) (W := W)) m → quiet (registry_do m).
Proof. intros Hs Hl. apply quiet_daemon; auto with safe leaves. Qed.
Lemma quiet_ptys {B} (m : Step (PtyHost A W) string B) :
  safe HostInv m → leaves SameHostMembers m → quiet (ptys_do m).
Proof. intros Hs Hl. apply quiet_daemon; auto with safe leaves. Qed.
Lemma quiet_asks {B} (f : W → B * W) : quiet (host_asks f).
Proof. apply quiet_daemon; auto with safe leaves. Qed.
Lemma quiet_calls f : quiet (host_calls f).
Proof. apply quiet_daemon; auto with safe leaves. Qed.
Lemma quiet_world : quiet the_world.
Proof. split; [by intros s|by intros s]. Qed.

Create HintDb quiet.
#[local] Hint Resolve quiet_ret quiet_throw quiet_ensure quiet_bind quiet_handle quiet_daemon quiet_registry quiet_ptys
  quiet_asks quiet_calls quiet_world : quiet.
#[local] Hint Extern 1 (quiet (if _ then _ else _)) => case_match : quiet.
#[local] Hint Extern 1 (quiet (match _ with _ => _ end)) => case_match : quiet.
#[local] Hint Extern 5 (safe _ _) => solve [auto with safe] : quiet.
#[local] Hint Extern 5 (leaves _ _) => solve [auto with leaves] : quiet.

Lemma quiet_session_activity session_id : quiet (session_activity session_id).
Proof. unfold session_activity. auto with quiet. Qed.
#[local] Hint Resolve quiet_session_activity : quiet.
Lemma quiet_descriptor_activity d : quiet (descriptor_with_activity d).
Proof. unfold descriptor_with_activity. auto with quiet. Qed.
Lemma quiet_with_activity x : quiet (with_activity x).
Proof. unfold with_activity. auto with quiet. Qed.
#[local] Hint Resolve quiet_descriptor_activity quiet_with_activity : quiet.
Lemma quiet_with_activities l : quiet (with_activities l).
Proof. induction l; simpl; auto with quiet. Qed.
Lemma quiet_has_pty session_id : quiet (has_pty session_id).
Proof. unfold has_pty. auto with quiet. Qed.
Lemma quiet_session_cwd session_id : quiet (session_cwd session_id).
Proof. unfold session_cwd. auto with quiet. Qed.
#[local] Hint Resolve quiet_with_activities quiet_has_pty quiet_session_cwd : quiet.

(** A worker's thread may panic, and leaves the daemon as it may be. *)
Definition Preserves : relation (Service A W) := λ s s', ServiceOk s → ServiceOk s'.
#[local] Instance Preserves_preorder : PreOrder Preserves.
Proof. split; unfold Preserves; [by intros s|]. auto. Qed.

Lemma safe_preserves {B} (m : Step (Service A W) string B) : safe ServiceOk m → leaves Preserves m.
Proof. intros Hm s Hs. specialize (Hm s Hs). unfold wp in Hm. by destruct (m s) as [s' [b|e|]]. Qed.

Lemma quiet_received {B} message (m : Step (Service A W) string B) :
  leaves Preserves m → leaves SameServiceMembers m → quiet (received message m).
Proof.
  intros Hs Hl. split.
  - intros s Hok. specialize (Hs s Hok). unfold wp, received. by destruct (m s) as [s' [b|e|]].
  - intros s. specialize (Hl s). unfold received. by destruct (m s) as [s' [b|e|]].
Qed.

Lemma quiet_bounded {B} cannot_start late (m : Step (Service A W) string B) :
  leaves Preserves m → leaves SameServiceMembers m → quiet (bounded cannot_start late m).
Proof. intros Hs Hl. unfold bounded. pose proof (quiet_received late m Hs Hl). auto 10 with quiet. Qed.

Lemma in_cache_leaves {B} (R : relation (Service A W)) (m : Step (option (N * list string)) string B) :
  (∀ s (c : option (N * list string)), R s {| turns_of := turns_of s; command_cache := c |}) → leaves R (in_cache m : Step (Service A W) string B).
Proof. intros HR. apply leaves_zoom with (R' := λ _ _, True); [by intros s c _|by intros c]. Qed.

Lemma quiet_complete line cursor cwd : quiet (complete_shell_bounded line cursor cwd).
Proof.
  apply quiet_bounded; (apply leaves_bind; [|intros now; apply leaves_bind; [|intros w; apply in_cache_leaves; by intros ? ? ?]]).
  - apply safe_preserves, quiet_asks.
  - apply safe_preserves, quiet_world.
  - apply quiet_asks.
  - apply quiet_world.
Qed.

Lemma quiet_view path cwd : quiet (load_view_resource_bounded path cwd).
Proof.
  assert (quiet (w ← the_world; lift (load_view_resource w path cwd))) as [Hs Hl].
  { apply quiet_bind; [apply quiet_world|]. intros w. apply quiet_lift, load_view_resource_total. }
  apply quiet_bounded; [by apply safe_preserves|done].
Qed.

Lemma quiet_creation_cwd cwd : quiet (creation_cwd cwd).
Proof. unfold creation_cwd. auto 10 with quiet. Qed.

Lemma outcome_map_no_panic {E B C} (f : B → Outcome E C) l : (∀ b, f b ≠ Panic) → outcome_map f l ≠ Panic.
Proof.
  intros Hf. induction l as [|b l IH]; simpl; [done|]. apply bind_total; [done|]. intros c. by apply bind_total.
Qed.

Lemma policy_parse_no_panic config : policy_parse split config ≠ Panic.
Proof.
  unfold policy_parse. pose proof (λ l, outcome_map_no_panic _ l (rule_parse_no_panic split)) as Hr.
  apply bind_total; [done|]. intros always. apply bind_total.
  - case_match; [|done]. by apply bind_total.
  - intros allow. by apply bind_total.
Qed.

Lemma quiet_client_policy policy : quiet (client_policy split policy).
Proof.
  unfold client_policy. destruct policy as [config|]; [|auto with quiet]. apply quiet_handle; [|auto with quiet..].
  apply quiet_lift, policy_parse_no_panic.
Qed.

(** * Attaching and leaving *)

(** The client is attached to the session. *)
Definition controls (s : Service A W) client id : Prop := member (store (pty_host (turns_of s))) client id.

Definition Joins client id s s' : Prop :=
  ∀ client' id', controls s' client' id' ↔ controls s client' id' ∨ client' = client ∧ id' = id.
Definition Leaves client id s s' : Prop :=
  ∀ client' id', controls s' client' id' ↔ controls s client' id' ∧ ¬ (client' = client ∧ id' = id).
Definition Removes client id s s' : Prop :=
  ∀ client' id', (controls s' client' id' ↔ controls s client' id' ∧ id' ≠ id) ∧
    (controls s client' id → client' = client).

Lemma wp_quiet {B} (m : Step (Service A W) string B) (Q : B → Service A W → Prop) (R : string → Service A W → Prop) s :
  quiet m → ServiceOk s → (∀ b s', ServiceOk s' → SameServiceMembers s s' → Q b s') →
  (∀ e s', ServiceOk s' → SameServiceMembers s s' → R e s') → wp m Q R s.
Proof.
  intros [Hs Hl] Hok HQ HR. eapply wp_wand; [apply (wp_leaves (R := SameServiceMembers)); [by apply Hs|exact Hl]|..].
  - intros b s' []. auto.
  - intros e s' []. auto.
Qed.

(** An operation of the registry, on the service. *)
Lemma wp_registry_do {B} (m : Step (Store A W) string B) (Q : B → Store A W → Prop) (R : string → Store A W → Prop)
    (Q' : B → Service A W → Prop) (R' : string → Service A W → Prop) s :
  safe (λ st, Inv (registry st)) m → ServiceOk s → wp m Q R (store (pty_host (turns_of s))) →
  (∀ b s', ServiceOk s' → Q b (store (pty_host (turns_of s'))) → Q' b s') →
  (∀ e s', ServiceOk s' → R e (store (pty_host (turns_of s'))) → R' e s') → wp (registry_do m) Q' R' s.
Proof.
  intros Hm Hok Hq HQ HR. unfold registry_do, in_daemon. rewrite wp_zoom, wp_in_registry.
  eapply wp_wand; [apply wp_and; [exact Hq|apply Hm, reg_inv, Hok]|..].
  - intros b st [Hb Hi]. apply HQ; [|done]. by apply registry_calm.
  - intros e st [He Hi]. apply HR; [|done]. by apply registry_calm.
Qed.

Lemma wp_create_do client creation (Q : SessionSnapshot A → Service A W → Prop) (R : string → Service A W → Prop) s :
  ServiceOk s →
  (∀ x s', let id := d_id (s_descriptor x) in ServiceOk s' → ((∀ client', ¬ controls s client' id) → Joins client id s s') →
     (∀ id', controls s client id' → controls s' client id') → Q x s') →
  (∀ e s', ServiceOk s' → SameServiceMembers s s' ∨ HostFailure e → R e s') →
  wp (registry_do (create client creation)) Q R s.
Proof.
  intros Hs HQ HR. eapply wp_registry_do; [apply safe_create|done|apply create_joins| |by auto].
  intros x s' Hok [H1 H2]. by apply HQ.
Qed.

Lemma wp_attach_do client selector role (Q : SessionSnapshot A → Service A W → Prop) (R : string → Service A W → Prop) s :
  ServiceOk s →
  (∀ x s', let id := d_id (s_descriptor x) in ServiceOk s' → (∀ client', controls s client' id → client' = client) →
     Joins client id s s' → resolves (reg (turns_of s)) selector id → Q x s') →
  (∀ e s', ServiceOk s' → SameServiceMembers s s' ∨ HostFailure e → R e s') →
  wp (registry_do (attach client selector role)) Q R s.
Proof.
  intros Hs HQ HR. eapply wp_registry_do; [apply safe_attach|done|apply attach_joins, reg_inv, Hs|..]; [|by auto].
  intros x s' Hok (H1 & H2 & H3). by apply HQ.
Qed.

Lemma wp_close_do client selector (Q : string → Service A W → Prop) (R : string → Service A W → Prop) s :
  ServiceOk s →
  (∀ id s', ServiceOk s' → Removes client id s s' → resolves (reg (turns_of s)) selector id → Q id s') →
  (∀ e s', ServiceOk s' → SameServiceMembers s s' ∨ HostFailure e → R e s') →
  wp (registry_do (close client selector)) Q R s.
Proof.
  intros Hs HQ HR. eapply wp_registry_do; [apply safe_close|done|apply close_takes_away, reg_inv, Hs|..]; [|by auto].
  intros id s' Hok (H1 & H2). by apply HQ.
Qed.

(** A session that is there is found by its id. *)
Lemma snapshot_there id rec (Q : SessionSnapshot A → Store A W → Prop) (R : string → Store A W → Prop) st :
  sessions (registry st) !! id = Some rec → Q (snapshot_with_status rec) st → wp (snapshot id) Q R st.
Proof.
  intros Hid HQ. unfold snapshot, resolve. rewrite wp_bind, wp_bind, wp_the_registry, bool_decide_true by by rewrite Hid.
  rewrite wp_ret, wp_bind. by eapply wp_expect_record.
Qed.

(** The work of a session is stopped, which cannot fail. *)
Lemma terminate_session_ends id (h : PtyHost A W) : wp (terminate_session id) (λ _ _, True) (λ _ _, False) h.
Proof. unfold terminate_session. rewrite wp_bind. by apply wp_jobs. Qed.

Lemma wp_terminate id (Q : list ManagedPty → Service A W → Prop) (R : string → Service A W → Prop) s :
  ServiceOk s → (∀ l s', ServiceOk s' → SameServiceMembers s s' → Q l s') → wp (ptys_do (terminate_session id)) Q R s.
Proof.
  intros Hs HQ. assert (quiet (ptys_do (A := A) (W := W) (terminate_session id))) as [Hsafe Hl] by auto with quiet.
  assert (wp (ptys_do (terminate_session id)) (λ _ _, True) (λ _ _, False) s) as Hsure.
  { unfold ptys_do, in_daemon, in_pty. rewrite !wp_zoom. apply terminate_session_ends. }
  eapply wp_wand; [apply wp_and; [exact Hsure|apply (wp_leaves (R := SameServiceMembers)); [by apply Hsafe|exact Hl]]|..].
  - intros l s' (_ & Hok & Hm). by apply HQ.
  - intros e s' [[] _].
Qed.

Lemma wp_remove_turns id (Q : () → Service A W → Prop) (R : string → Service A W → Prop) s :
  ServiceOk s → (∀ s', ServiceOk s' → SameServiceMembers s s' → Q () s') → wp (in_daemon (cancel_and_remove id)) Q R s.
Proof.
  intros Hs HQ. unfold in_daemon. rewrite wp_zoom.
  eapply wp_wand; [apply (wp_leaves (R := SameDaemonMembers)); [by apply wp_cancel_and_remove|auto with leaves]|..].
  - intros [] d [[Hd _] Hm]. by apply HQ.
  - intros e d [[] _].
Qed.

Lemma controls_same s s' client id : SameServiceMembers s s' → controls s' client id ↔ controls s client id.
Proof. intros H. apply (H client id). Qed.

Lemma wp_detach_session client id (Q : option string → Service A W → Prop) (R : string → Service A W → Prop) s :
  ServiceOk s → controls s client id →
  (∀ o s', ServiceOk s' → Leaves client id s s' → Q o s') →
  (∀ e s', ServiceOk s' → HostFailure e → R e s') → wp (detach_session client id) Q R s.
Proof.
  intros Hs (rec & Hid & _) HQ HR. unfold detach_session. rewrite wp_bind. unfold registry_do at 1, in_daemon at 1.
  rewrite wp_zoom, wp_in_registry. eapply snapshot_there; [exact Hid|]. rewrite set_pty_host_id.
  replace {| turns_of := turns_of s; command_cache := command_cache s |} with s by by destruct s.
  assert (Hgo : ∀ s1, ServiceOk s1 → SameServiceMembers s s1 → wp (registry_do (detach client id)) Q R s1).
  { intros s1 Hs1 Hm1. eapply wp_registry_do; [apply safe_detach|done|apply detach_leaves|..].
    - intros o s2 Hs2 Hl. apply HQ; [done|]. intros client' id'. etrans; [apply Hl|].
      by rewrite (controls_same _ _ client' id' Hm1).
    - intros e s2 Hs2 He. by apply HR. }
  rewrite wp_bind. case_bool_decide; [|rewrite wp_ret; by apply Hgo].
  rewrite wp_bind. apply wp_remove_turns; [done|]. intros s1 Hs1 Hm1. rewrite wp_bind. apply wp_terminate; [done|].
  intros l s2 Hs2 Hm2. rewrite wp_ret. apply Hgo; [done|]. by etrans.
Qed.

(** * Every request *)

(** The client is attached to its connection's session and to no other. *)
Definition Tracks client c : Prop := ∀ id, controls (service c) client id ↔ attached_session c = Some id.
Definition OthersSame client c c' : Prop :=
  ∀ client' id, client' ≠ client → controls (service c') client' id ↔ controls (service c) client' id.

(** The id of a session that is created is nobody's session. *)
Definition Unused (r : ServerResponse A) c : Prop :=
  match r with RsCreated x => ∀ client', ¬ controls (service c) client' (d_id (s_descriptor x)) | _ => True end.

Definition Answered client c (r : ServerResponse A) c' : Prop :=
  ClientOk c' ∧ (Unused r c → Tracks client c' ∧ OthersSame client c c').
Definition Refused_request client c (e : string) c' : Prop :=
  ClientOk c' ∧ (Tracks client c' ∧ OthersSame client c c' ∨ HostFailure e).
Definition in_order client c (m : Step (Client A W) string (ServerResponse A)) : Prop :=
  wp m (Answered client c) (Refused_request client c) c.

Lemma wp_in_service {B} (m : Step (Service A W) string B) (Q : B → Client A W → Prop) (R : string → Client A W → Prop) c :
  wp (in_service m) Q R c ↔
  wp m (λ b s, Q b {| attached_session := attached_session c; service := s |})
    (λ e s, R e {| attached_session := attached_session c; service := s |}) (service c).
Proof. unfold in_service. by rewrite wp_zoom. Qed.

Lemma wp_current (Q : option string → Client A W → Prop) R c : wp current Q R c ↔ Q (attached_session c) c.
Proof. done. Qed.
Lemma wp_attach_to session (Q : () → Client A W → Prop) R c :
  wp (attach_to session) Q R c ↔ Q () {| attached_session := session; service := service c |}.
Proof. done. Qed.
Lemma wp_take_current (Q : option string → Client A W → Prop) R c :
  wp take_current Q R c ↔ Q (attached_session c) {| attached_session := None; service := service c |}.
Proof. done. Qed.

Lemma wp_require_current session_id (Q : () → Client A W → Prop) R c :
  (attached_session c = Some session_id → Q () c) → R not_current c → wp (require_current session_id) Q R c.
Proof.
  intros HQ HR. unfold require_current. rewrite wp_bind, wp_current, wp_ensure. case_bool_decide; auto.
Qed.

Lemma same_tracks client session s s' :
  SameServiceMembers s s' → Tracks client {| attached_session := session; service := s |} →
  Tracks client {| attached_session := session; service := s' |}.
Proof. intros Hm Ht id. simpl. rewrite (controls_same _ _ client id Hm). apply Ht. Qed.

Lemma same_others client c session s' :
  SameServiceMembers (service c) s' → OthersSame client c {| attached_session := session; service := s' |}.
Proof. intros Hm client' id _. by apply controls_same. Qed.

Lemma refused_same client c e session s' :
  ServiceOk s' → Tracks client c → SameServiceMembers (service c) s' → attached_session c = session →
  Refused_request client c e {| attached_session := session; service := s' |}.
Proof.
  intros Hs Ht Hm <-. split; [done|]. left. split; [|by apply same_others].
  eapply same_tracks; [exact Hm|]. by destruct c.
Qed.

(** A request that attaches nobody. *)
Lemma quiet_in_order client c (m : Step (Service A W) string (ServerResponse A)) :
  quiet m → ClientOk c → Tracks client c → in_order client c (in_service m).
Proof.
  intros Hm Hok Ht. unfold in_order. rewrite wp_in_service. apply wp_quiet; [done|done|..]; intros x s' Hs' Hsame.
  - split; [done|]. intros _. split; [|by apply same_others]. eapply same_tracks; [exact Hsame|]. by destruct c.
  - by apply refused_same.
Qed.

Lemma refused_now client c e : ClientOk c → Tracks client c → Refused_request client c e c.
Proof. intros Hok Ht. split; [done|]. left. by split. Qed.

Lemma require_in_order client c session_id (m : Step (Client A W) string (ServerResponse A)) :
  ClientOk c → Tracks client c → in_order client c m → in_order client c (require_current session_id;; m).
Proof.
  intros Hok Ht Hm. unfold in_order. rewrite wp_bind. apply wp_require_current; [by intros _|by apply refused_now].
Qed.

(** What a session is doing can always be told. *)
Lemma wp_session_activity id (Q : SessionActivity → Service A W → Prop) (R : string → Service A W → Prop) s :
  ServiceOk s → (∀ a s', ServiceOk s' → SameServiceMembers s s' → Q a s') → wp (session_activity id) Q R s.
Proof.
  intros Hs HQ.
  assert (wp (session_activity id) (λ _ _, True) (λ _ _, False) s) as Hsure.
  { unfold session_activity. rewrite wp_bind. unfold ptys_do, in_daemon at 1, in_pty. rewrite !wp_zoom.
    apply wp_jobs. intros l Hl. case_match; [done|]. unfold in_daemon. rewrite wp_zoom.
    eapply wp_wand; [apply (wp_on_session False)|done|by intros ? ? [[] _]].
    - simpl. destruct s as [d cache]. by apply host_calm; [|apply (d_host _ Hs)].
    - intros r d Hr. apply goes_bind; [by apply goes_the_execution|intros x; apply goes_ret]. }
  destruct (quiet_session_activity id) as [Hsafe Hl].
  eapply wp_wand; [apply wp_and; [exact Hsure|apply (wp_leaves (R := SameServiceMembers)); [by apply Hsafe|exact Hl]]|..].
  - intros a s' (_ & Hok & Hm). by apply HQ.
  - intros e s' [[] _].
Qed.

(** The answer to a client that has just got a session. *)
Lemma attached_in_order client c session x s (f : SessionSnapshot A → ServerResponse A) :
  ServiceOk s →
  (∀ x', d_id (s_descriptor x') = d_id (s_descriptor x) → Unused (f x') c →
     (∀ id, controls s client id ↔ session = Some id) ∧
     (∀ client' id, client' ≠ client → controls s client' id ↔ controls (service c) client' id)) →
  wp (x ← in_service (with_activity x); mret (f x)) (Answered client c) (Refused_request client c)
    {| attached_session := session; service := s |}.
Proof.
  intros Hok Ht. rewrite wp_bind, wp_in_service. unfold with_activity. rewrite wp_bind.
  apply wp_session_activity; [done|]. intros a s' Hs' Hm. rewrite !wp_ret. split; [done|]. intros Hu.
  destruct (Ht (on_descriptor (set_activity a) x) eq_refl Hu) as [H1 H2]. split.
  - intros id. simpl. rewrite (controls_same _ _ client id Hm). apply H1.
  - intros client' id Hne. simpl. rewrite (controls_same _ _ client' id Hm). by apply H2.
Qed.

Lemma attach_in_order client c selector role :
  ClientOk c → Tracks client c → in_order client c (process_attach client selector role).
Proof.
  intros Hok Ht. unfold in_order, process_attach. rewrite wp_bind, wp_current, wp_bind, wp_ensure.
  case_bool_decide as Hnone; [|by apply refused_now]. rewrite wp_bind, wp_in_service. apply wp_attach_do; [done|..].
  - intros x s id1 Hs Hexcl Hj _. rewrite wp_bind, wp_attach_to. apply attached_in_order; [done|]. intros x' _ _. split.
    + intros id. rewrite (Hj client id), (Ht id), Hnone. simpl. naive_solver.
    + intros client' id Hne. rewrite (Hj client' id). naive_solver.
  - intros e s Hs [Hm|He]; [by apply refused_same|]. split; [done|by right].
Qed.

(** Leaving a session of the client for another. *)
Lemma moved_tracks client c id0 id1 s1 s2 :
  Tracks client c → attached_session c = Some id0 → id0 ≠ id1 →
  Joins client id1 (service c) s1 → Leaves client id0 s1 s2 →
  (∀ id, controls s2 client id ↔ Some id1 = Some id) ∧
  (∀ client' id, client' ≠ client → controls s2 client' id ↔ controls (service c) client' id).
Proof.
  intros Ht H0 Hne Hj Hl. split.
  - intros id. rewrite (Hl client id), (Hj client id), (Ht id), H0. naive_solver.
  - intros client' id Hc. rewrite (Hl client' id), (Hj client' id). naive_solver.
Qed.

Lemma switch_in_order client c selector role :
  ClientOk c → Tracks client c → in_order client c (process_switch client selector role).
Proof.
  intros Hok Ht. unfold in_order, process_switch. rewrite wp_bind, wp_in_service. apply wp_attach_do; [done|..].
  2: { intros e s Hs [Hm|He]; [by apply refused_same|]. split; [done|by right]. }
  intros x s id1 Hs Hexcl Hj _. rewrite wp_bind, wp_take_current, wp_bind. simpl.
  assert (Hnew : attached_session c = None ∨ attached_session c = Some id1 →
    wp (attach_to (Some id1);; x ← in_service (with_activity x); mret (RsAttached x role)) (Answered client c)
      (Refused_request client c) {| attached_session := None; service := s |}).
  { intros Hor. rewrite wp_bind, wp_attach_to. apply attached_in_order; [done|]. intros x' _ _. split.
    - intros id. rewrite (Hj client id), (Ht id). naive_solver.
    - intros client' id Hc. rewrite (Hj client' id). naive_solver. }
  destruct (attached_session c) as [id0|] eqn:H0; [|rewrite wp_ret; apply Hnew; by left].
  case_bool_decide as Hsame; [subst id0; rewrite wp_ret; apply Hnew; by right|].
  rewrite wp_bind, wp_in_service. apply wp_detach_session; [done| |..].
  - apply (Hj client id0). left. by apply Ht.
  - intros o s2 Hs2 Hl. rewrite wp_ret, wp_bind, wp_attach_to. apply attached_in_order; [done|]. intros x' _ _.
    by eapply moved_tracks.
  - intros e s2 Hs2 He. split; [done|by right].
Qed.

Lemma create_in_order client c creation :
  ClientOk c → Tracks client c → in_order client c (process_create client creation).
Proof.
  intros Hok Ht. unfold in_order, process_create. rewrite wp_bind, wp_in_service.
  apply wp_quiet; [apply quiet_creation_cwd|done| |intros e s' Hs' Hm; by apply refused_same].
  intros cwd s0 Hs0 Hm0. rewrite wp_bind, wp_in_service. apply wp_create_do; [done|..].
  2: { intros e s Hs [Hm|He]; [apply refused_same; [done|done|by etrans|done]|]. split; [done|by right]. }
  intros x s id1 Hs Hj Hkeep. rewrite wp_bind, wp_take_current, wp_bind. simpl.
  assert (Hunused : ∀ x', d_id (s_descriptor x') = id1 → Unused (RsCreated x') c → Joins client id1 (service c) s ∧
    ¬ controls (service c) client id1).
  { intros x' Hx' Hu. simpl in Hu. rewrite Hx' in Hu. split; [|by apply Hu]. intros client' id'.
    rewrite (Hj ltac:(intros c' Hc'; apply (Hu c'); by apply (controls_same _ _ _ _ Hm0)) client' id').
    by rewrite (controls_same _ _ client' id' Hm0). }
  destruct (attached_session c) as [id0|] eqn:H0.
  - rewrite wp_bind, wp_in_service. assert (controls (service c) client id0) as Hc by by apply Ht.
    apply wp_detach_session; [done|by apply Hkeep, (controls_same _ _ _ _ Hm0)|..].
    + intros o s2 Hs2 Hl. rewrite wp_ret, wp_bind, wp_attach_to. apply attached_in_order; [done|]. intros x' Hx' Hu.
      destruct (Hunused x' Hx' Hu) as [Hjoin Hfree]. eapply moved_tracks; [done|exact H0| |done|done]. intros ->. by apply Hfree.
    + intros e s2 Hs2 He. split; [done|by right].
  - rewrite wp_ret, wp_bind, wp_attach_to. apply attached_in_order; [done|]. intros x' Hx' Hu.
    destruct (Hunused x' Hx' Hu) as [Hjoin Hfree]. split.
    + intros id. rewrite (Hjoin client id), (Ht id), H0. naive_solver.
    + intros client' id Hne. rewrite (Hjoin client' id). naive_solver.
Qed.

Lemma left_tracks client c id0 s :
  Tracks client c → attached_session c = Some id0 → Leaves client id0 (service c) s →
  Tracks client {| attached_session := None; service := s |} ∧
  OthersSame client c {| attached_session := None; service := s |}.
Proof.
  intros Ht H0 Hl. split.
  - intros id. simpl. rewrite (Hl client id), (Ht id), H0. naive_solver.
  - intros client' id Hne. simpl. rewrite (Hl client' id). naive_solver.
Qed.

Lemma detach_in_order client c wait :
  ClientOk c → Tracks client c → in_order client c (process_request split wait client RqDetach).
Proof.
  intros Hok Ht. unfold in_order, process_request. rewrite wp_bind, wp_take_current.
  destruct (attached_session c) as [id0|] eqn:H0.
  - rewrite wp_bind, wp_in_service. apply wp_detach_session; [done|by apply Ht| |].
    + intros o s Hs Hl. rewrite wp_ret. split; [done|]. intros _. by eapply left_tracks.
    + intros e s Hs He. split; [done|by right].
  - rewrite wp_ret. split; [done|]. intros _. split; [|by intros client' id].
    intros id. simpl. rewrite (Ht id), H0. done.
Qed.

Lemma wp_host_asks {B} (f : W → B * W) (Q : B → Service A W → Prop) (R : string → Service A W → Prop) s :
  ServiceOk s → (∀ b s', ServiceOk s' → SameServiceMembers s s' → Q b s') → wp (host_asks f) Q R s.
Proof.
  intros Hs HQ. unfold host_asks, in_daemon. rewrite wp_zoom.
  eapply wp_wand; [apply wp_and; [apply (wp_leaves (R := SameDaemonMembers));
    [apply (goes_asks (X := Next unchanged nobody) False), calm_refl, Hs|apply daemon_asks]|by apply safe_asks]|..].
  - intros b d [[_ Hm] Hd]. by apply HQ.
  - intros e d [[[[] _] _] _].
Qed.

(** A session that was closed is nobody's. *)
Lemma closed_tracks client c id s session :
  Tracks client c → Removes client id (service c) s →
  session = (if bool_decide (attached_session c = Some id) then None else attached_session c) →
  Tracks client {| attached_session := session; service := s |} ∧
  OthersSame client c {| attached_session := session; service := s |}.
Proof.
  intros Ht Hr ->. split.
  - intros id'. simpl. rewrite (proj1 (Hr client id')), (Ht id'). case_bool_decide; naive_solver.
  - intros client' id' Hne. simpl. rewrite (proj1 (Hr client' id')). split; [naive_solver|]. intros Hc. split; [done|].
    intros ->. by apply (Hr client' id) in Hc.
Qed.

Lemma removes_same client id s s1 s2 : Removes client id s s1 → SameServiceMembers s1 s2 → Removes client id s s2.
Proof.
  intros Hr Hm client' id'. destruct (Hr client' id') as [H1 H2]. split; [|done]. by rewrite (controls_same _ _ _ _ Hm).
Qed.

Lemma close_in_order client c selector :
  ClientOk c → Tracks client c → in_order client c (process_close client selector).
Proof.
  intros Hok Ht. unfold in_order, process_close. rewrite wp_bind, wp_current.
  destruct (match selector with Some _ => _ | None => _ end) as [sel|]; [|rewrite wp_throw; by apply refused_now].
  rewrite wp_bind, wp_in_service. apply wp_close_do; [done|..].
  2: { intros e s Hs [Hm|He]; [by apply refused_same|]. split; [done|by right]. }
  intros id s Hs Hr _. rewrite wp_bind, wp_in_service. apply wp_terminate; [done|]. intros _ s1 Hs1 Hm1.
  rewrite wp_bind, wp_in_service. apply wp_remove_turns; [done|]. intros s2 Hs2 Hm2.
  rewrite wp_bind, wp_in_service. apply wp_host_asks; [done|]. intros [] s3 Hs3 Hm3. rewrite wp_bind. simpl.
  assert (Removes client id (service c) s3) as Hr3.
  { eapply removes_same; [exact Hr|]. etrans; [exact Hm1|]. by etrans. }
  pose proof (closed_tracks client c id s3 _ Ht Hr3 eq_refl) as Hend.
  case_bool_decide; [rewrite wp_attach_to|rewrite wp_ret]; rewrite wp_ret; (split; [done|]); by intros _.
Qed.

#[local] Hint Resolve quiet_client_policy quiet_creation_cwd quiet_view quiet_complete : quiet.

(** Whatever a client asks, the daemon does not panic and is left in a state it
    may be in; and unless the clock or the state file failed, a client that was
    attached to its connection's session and to no other still is, and every
    other client is attached to what it was. *)
Lemma request_in_order wait client c request :
  ClientOk c → Tracks client c →
  in_order client c (process_request split wait client request).
Proof.
  intros Hok Ht.
  destruct request; simpl; try (by apply refused_now).
  - apply quiet_in_order; auto 10 with quiet.
  - by apply create_in_order.
  - by apply attach_in_order.
  - by apply switch_in_order.
  - apply require_in_order; [done..|]. apply quiet_in_order; auto 20 with quiet.
  - apply require_in_order; [done..|]. apply quiet_in_order; auto 20 with quiet.
  - apply require_in_order; [done..|]. apply quiet_in_order; auto 20 with quiet.
  - apply require_in_order; [done..|]. apply quiet_in_order; auto 20 with quiet.
  - apply require_in_order; [done..|]. apply quiet_in_order; auto 20 with quiet.
  - apply require_in_order; [done..|]. apply quiet_in_order; auto 20 with quiet.
  - apply quiet_in_order; auto 20 with quiet.
  - apply require_in_order; [done..|]. apply quiet_in_order; auto 20 with quiet.
  - apply require_in_order; [done..|]. apply quiet_in_order; auto 20 with quiet.
  - apply require_in_order; [done..|]. apply quiet_in_order; auto 20 with quiet.
  - apply require_in_order; [done..|]. apply quiet_in_order; auto 20 with quiet.
  - by apply (detach_in_order client c wait).
  - by apply close_in_order.
Qed.
End service.
