(* ===== verification/RequestsProps.v ===== *)
(** The theorems on the connections of the daemon ([Requests]). *)
From Stdlib Require Import Ascii.
From S2P Require Import Prelude Sensitive Policy Budget Compaction CompactionSpec CallId Chat Engine Effects.
From S2P Require Import AuditModel SessionModel Registry RegistrySpec RegistryProps Execution JournalSpec.
From S2P Require Import PtyStream Pty PtyJobs Turns TurnsSpec TurnsSteps TurnsHistory Completion CompletionSpec SourceView.
From S2P Require Import Requests RequestsSpec RequestsSteps.
#[local] Opaque MAX_JOURNAL_EVENTS.

(** * Connections *)

Section connections.
Context {A W : Type} `{!StateSerde A, !SessionHost W, !RegistryLaws A W, !PtyWorld A W, !EventSerde A, !EventLaws A,
  !TurnWorld A W, !CompletionHost W, !ViewHost W, !ServiceWorld A W, !EqDecision A}.
Context (split : string → string + list string).
Implicit Types (s : Service A W) (c : Client A W).

(** The daemon, the connections that are open with their sessions, and the ids
    of clients that were. *)
Record Hall := {
  hall_service : Service A W;
  connections : gmap string (option string);
  clients : gset string;
}.

Definition client_of (h : Hall) (session : option string) : Client A W :=
  {| attached_session := session; service := hall_service h |}.

(** What [h] is after a client's step left [c]. *)
Definition after (h : Hall) (client : string) (c : Client A W) : Hall := {|
  hall_service := service c; connections := <[client := attached_session c]> (connections h); clients := clients h |}.

Inductive HallOp : Type :=
| HoConnect (client : string)
| HoRequest (client : string) (wait : bool * list (ExecutionState A * bool)) (request : ClientRequest A)
| HoDisconnect (client : string)
| HoWork.

Abbreviation Log := (list (HallOp * Outcome string (ServerResponse A))).

(** A step: a connection is opened, with an id that was never used; a request
    is answered, and creates no session under an id in use; a connection is
    closed; or a turn or a terminal job goes on, which attaches nobody
    ([work_of_turns] below). *)
Inductive hall_step (h : Hall) : HallOp → Outcome string (ServerResponse A) → Hall → Prop :=
| hall_connect client :
    client ∉ clients h →
    hall_step h (HoConnect client) (Done RsPtyClosed) {|
      hall_service := hall_service h; connections := <[client := None]> (connections h);
      clients := {[client]} ∪ clients h |}
| hall_request client wait request session c r :
    connections h !! client = Some session →
    process_request split wait client request (client_of h session) = (c, r) →
    (∀ a, r = Done a → Unused a (client_of h session)) →
    hall_step h (HoRequest client wait request) r (after h client c)
| hall_disconnect client session s r :
    connections h !! client = Some session →
    (match session with
     | Some id => o ← detach_session client id; mret (RsDetached o)
     | None => mret (RsDetached None)
     end) (hall_service h) = (s, r) →
    hall_step h (HoDisconnect client) r {|
      hall_service := s; connections := delete client (connections h); clients := clients h |}
| hall_work s :
    ServiceOk s → SameServiceMembers (hall_service h) s →
    hall_step h HoWork (Done RsPtyClosed) {|
      hall_service := s; connections := connections h; clients := clients h |}.

Inductive HallHistory : Hall → Log → Hall → Prop :=
| hall_start h : HallHistory h [] h
| hall_then h op r h1 log h' : hall_step h op r h1 → HallHistory h1 log h' → HallHistory h ((op, r) :: log) h'.

(** Clients control the sessions of their connections. *)
Record HallInv (h : Hall) : Prop := {
  hall_ok : ServiceOk (hall_service h);
  hall_controls client id : controls (hall_service h) client id ↔ connections h !! client = Some (Some id);
  hall_clients client : is_Some (connections h !! client) → client ∈ clients h;
}.

(** No failure of the clock or of the state file. *)
Definition healthy (r : Outcome string (ServerResponse A)) : Prop := ∀ e, r = Fail e → ¬ HostFailure e.

Lemma hall_tracks h client session :
  HallInv h → connections h !! client = Some session → Tracks client (client_of h session).
Proof. intros Hh Hc id. simpl. rewrite (hall_controls _ Hh), Hc. naive_solver. Qed.

Lemma hall_after h client session c :
  HallInv h → connections h !! client = Some session → ClientOk c → Tracks client c →
  OthersSame client (client_of h session) c → HallInv (after h client c).
Proof.
  intros Hh Hc Hok Ht Ho. split; simpl; [done| |].
  - intros client' id. destruct (decide (client' = client)) as [->|Hne].
    + rewrite lookup_insert_eq, (Ht id). split; congruence.
    + rewrite lookup_insert_ne by done. etrans; [by apply Ho|]. apply (hall_controls _ Hh).
  - intros client' [<-|[_ ?]]%lookup_insert_is_Some; apply (hall_clients _ Hh); eauto.
Qed.

(** Every step keeps that, and does not panic. *)
Lemma hall_step_keeps h op r h' : HallInv h → hall_step h op r h' → healthy r → r ≠ Panic ∧ HallInv h'.
Proof.
  intros Hh Hstep Hr. destruct Hstep as [client Hnew|client wait request session c r Hc Hrun Hfresh|
    client session s r Hc Hrun|s Hok Hm].
  - split; [done|]. split; simpl; [apply Hh| |].
    + intros client' id. rewrite (hall_controls _ Hh). destruct (decide (client' = client)) as [->|Hne].
      * rewrite lookup_insert_eq. split; [|done]. intros Hsome. exfalso. by apply Hnew, (hall_clients _ Hh).
      * by rewrite lookup_insert_ne.
    + intros client' [<-|[_ H]]%lookup_insert_is_Some; [set_solver|]. apply (hall_clients _ Hh) in H. set_solver.
  - pose proof (hall_tracks _ _ _ Hh Hc) as Ht.
    pose proof (request_in_order split wait client (client_of h session) request (hall_ok _ Hh) Ht) as Hw.
    unfold in_order, wp in Hw. rewrite Hrun in Hw. destruct r as [a|e|]; [| |done]; (split; [done|]).
    + destruct Hw as [Hok Hgo]. destruct (Hgo (Hfresh a eq_refl)) as [Ht' Ho]. by eapply hall_after.
    + destruct Hw as [Hok [[Ht' Ho]|He]]; [by eapply hall_after|]. by destruct (Hr e eq_refl).
  - assert (wp (match session with Some id => o ← detach_session client id; mret (RsDetached (A := A) o) | None => mret (RsDetached None) end)
      (λ _ s', ServiceOk s' ∧ ∀ client' id', controls s' client' id' ↔ controls (hall_service h) client' id' ∧ client' ≠ client)
      (λ e _, HostFailure e) (hall_service h)) as Hw.
    { destruct session as [id|].
      - rewrite wp_bind. apply wp_detach_session; [apply Hh|by apply (hall_controls _ Hh)| |done].
        intros o s' Hs' Hl. rewrite wp_ret. split; [done|]. intros client' id'. rewrite (Hl client' id').
        rewrite (hall_controls _ Hh). split; [|naive_solver]. intros [Hcl Hn]. split; [done|]. intros ->.
        rewrite Hc in Hcl. injection Hcl as <-. by apply Hn.
      - rewrite wp_ret. split; [apply Hh|]. intros client' id'. rewrite (hall_controls _ Hh).
        split; [|naive_solver]. intros Hcl. split; [done|]. intros ->. congruence. }
    unfold wp in Hw. rewrite Hrun in Hw. destruct r as [a|e|]; [|by destruct (Hr e eq_refl)|done].
    destruct Hw as [Hok Hs]. split; [done|]. split; simpl; [done| |].
    + intros client' id'. rewrite Hs, (hall_controls _ Hh), lookup_delete_Some. naive_solver.
    + intros client' [_ H]%lookup_delete_is_Some. by apply (hall_clients _ Hh).
  - split; [done|]. split; simpl; [done| |apply Hh].
    intros client id. rewrite (controls_same _ _ client id Hm). apply Hh.
Qed.

Lemma hall_history_keeps h log h' :
  HallInv h → HallHistory h log h' → (∀ op r, (op, r) ∈ log → healthy r) →
  HallInv h' ∧ (∀ op, (op, Panic) ∉ log).
Proof.
  intros Hh Hlog. induction Hlog as [h|h op r h1 log h' Hstep _ IH]; intros Hr.
  { split; [done|]. intros op. apply not_elem_of_nil. }
  destruct (hall_step_keeps _ _ _ _ Hh Hstep) as [Hp Hh1]; [by eapply Hr; left|].
  destruct (IH Hh1) as [Hh' Hno]; [intros op' r' Hin; eapply Hr; by right|]. split; [done|].
  intros op'. rewrite not_elem_of_cons. split; [congruence|done].
Qed.

(** A daemon that has just started, with any sessions but no clients. *)
Definition hall_new s : Hall := {| hall_service := s; connections := ∅; clients := ∅ |}.

Lemma hall_new_inv s : ServiceOk s → (∀ client id, ¬ controls s client id) → HallInv (hall_new s).
Proof.
  intros Hs Hno. split; simpl; [done| |].
  - intros client id. rewrite lookup_empty. split; [by intros ?%Hno|done].
  - intros client. rewrite lookup_empty. by intros [].
Qed.

(** C18: A session belongs to the connection that has it, and to no other. Connections come and go, make any
    requests in any order and are cut off at any time, while turns and terminal jobs go on. As long as
    the clock and the state file work: no request panics; a client is attached to exactly its
    connection's current session; two connections never have the same session; and a client whose
    connection is closed is attached to nothing, so that it blocks no session. *)
Theorem sessions_follow_connections s log h :
  ServiceOk s → (∀ client id, ¬ controls s client id) →
  HallHistory (hall_new s) log h → (∀ op r, (op, r) ∈ log → healthy r) →
  (∀ op, (op, Panic) ∉ log) ∧
  (∀ client id, controls (hall_service h) client id ↔ connections h !! client = Some (Some id)) ∧
  (∀ client client' id, connections h !! client = Some (Some id) → connections h !! client' = Some (Some id) → client = client').
Proof.
  intros Hs Hno Hlog Hr. destruct (hall_history_keeps _ _ _ (hall_new_inv _ Hs Hno) Hlog Hr) as [Hh Hp].
  split_and!; [done|apply Hh|]. intros client client' id H1 H2.
  apply (hall_controls _ Hh) in H1 as (rec & Hid & Hin), H2 as (rec' & Hid' & Hin'). rewrite Hid in Hid'.
  injection Hid' as <-. eapply only_one; [|exact Hin|exact Hin'].
  by apply (inv_record _ (reg_inv _ (hall_ok _ Hh)) _ _ Hid).
Qed.

(** ** What goes on meanwhile *)

(** The operations of a history of turns ([TurnsHistory]) that are requests. *)
Definition attaching (op : TurnOp A) : bool :=
  match op with
  | ToRegistry (OpCreate _ _) | ToRegistry (OpAttach _ _ _) | ToRegistry (OpDetach _ _) | ToRegistry (OpClose _ _) => true
  | _ => false
  end.

Lemma quiet_turn_op op : attaching op = false → ∀ sc, SameDaemonMembers (daemon sc) (daemon (run_turn_op (A := A) (W := W) op sc).1).
Proof.
  intros Hop sc.
  assert (Hask : ∀ B (m : Step (Daemon A W) string B), leaves SameDaemonMembers m →
    SameDaemonMembers (daemon sc) (daemon (asking_daemon m sc).1)).
  { intros B m Hm. specialize (Hm (daemon sc)). unfold asking_daemon. by destruct (m (daemon sc)) as [d r]. }
  assert (Hturn : ∀ id op, SameDaemonMembers (daemon sc) (daemon (with_turn id (on_turn id op) sc).1)).
  { intros id op'. unfold with_turn. destruct (turns sc !! id) as [[ph t]|]; [|done].
    destruct (on_turn id op' ph t) as [m|] eqn:Hm; [|done].
    assert (leaves SameDaemonMembers m) as Hl.
    { destruct op', ph; simpl in Hm; try discriminate Hm; try (injection Hm as <-; unfold shell_output; auto 10 with leaves).
      destruct (t_input t); [done|]. injection Hm as <-. auto with leaves. }
    specialize (Hl (daemon sc)). by destruct (m (daemon sc)) as [d [[a k]|e|]]. }
  destruct op; simpl; try apply Hturn; try (apply Hask; auto with leaves).
  - pose proof (daemon_submit_reserve session_id input approval limits overlay (daemon sc)) as Hl.
    by destruct (submit_reserve _ _ _ _ _ _) as [d [[t started]|e|]].
  - pose proof (Hask _ (cancel_and_remove session_id) ltac:(auto with leaves)) as Hl.
    by destruct (asking_daemon _ sc) as [sc' r].
  - apply daemon_in_registry. destruct op; simpl in *; try done; auto with leaves.
Qed.

(** So the steps of turns and of terminal jobs, in any order, are steps of the
    daemon that go on between requests. *)
Lemma work_of_turns op sc sc' r cache :
  SceneInv sc → attaching op = false → run_turn_op op sc = (sc', r) → fresh op r sc →
  ServiceOk {| turns_of := daemon sc'; command_cache := cache |} ∧
  SameServiceMembers {| turns_of := daemon sc; command_cache := cache |} {| turns_of := daemon sc'; command_cache := cache |}.
Proof.
  intros Hsc Hop Hrun Hfresh. destruct (turn_op_keeps _ _ _ _ Hsc Hrun Hfresh) as [Hsc' _]. split; [apply Hsc'|].
  pose proof (quiet_turn_op op Hop sc) as H. by rewrite Hrun in H.
Qed.

(** * Sessions of others *)

(** The session a request is about. *)
Definition about (r : SessionRegistry A) (request : ClientRequest A) (id : string) : Prop :=
  match request with
  | RqUpdate x _ _ _ | RqSnapshot x | RqSubmit x _ _ _ _ | RqEvents x _ _ | RqApprove x _ | RqCancel x _
  | RqViewSource x _ | RqPtyStart x _ _ _ | RqPtyAttach x _ | RqPtyClose x => x = id
  | RqAttach selector _ | RqSwitch selector _ | RqClose (Some selector) => resolves r selector id
  | _ => False
  end.

(** Nothing happens. *)
Definition unmoved {S B} (m : Step S string B) (x : S) : Prop := wp m (λ _ _, False) (λ _ x', x' = x) x.

Lemma unmoved_run {S B} (m : Step S string B) (x : S) : unmoved m x → ∃ e, m x = (x, Fail e).
Proof. unfold unmoved, wp. destruct (m x) as [x' [b|e|]]; [done| |done]. intros ->. by exists e. Qed.

Lemma unmoved_bind {S B C} (m : Step S string B) (k : B → Step S string C) (x : S) : unmoved m x → unmoved (m ≫= k) x.
Proof. intros [e He]%unmoved_run. unfold unmoved, wp, mbind, Step_bind. by rewrite He. Qed.

Lemma unmoved_registry {B} (m : Step (Store A W) string B) c :
  unmoved m (store (pty_host (turns_of (service c)))) → unmoved (in_service (registry_do m)) c.
Proof.
  intros [e He]%unmoved_run. destruct c as [session [[ex by' ad wo po [co st]] cache]]. simpl in He.
  unfold unmoved, wp, in_service, registry_do, in_daemon, in_registry, in_pty, in_store, zoom. simpl. by rewrite He.
Qed.

Lemma unmoved_attach client selector role other id (st : Store A W) :
  Inv (registry st) → member st other id → other ≠ client → resolves (registry st) selector id →
  unmoved (attach client selector role) st.
Proof.
  intros Hi (rec & Hid & Hin) Hne Hres. unfold unmoved, attach. rewrite wp_bind, wp_ensure. case_bool_decide; [|done].
  rewrite wp_bind. apply wp_resolve; [done| |done]. intros id' rec' Hid' Hres'.
  assert (id' = id) as -> by by eapply resolves_unique. rewrite Hid in Hid'. injection Hid' as <-.
  rewrite wp_bind. eapply wp_expect_record; [done|]. rewrite wp_bind, wp_ensure.
  destruct (_ || _) eqn:Hfree; [|done]. exfalso.
  apply orb_true_iff in Hfree as [Hfr%bool_decide_eq_true|Hfr%bool_decide_eq_true]; [set_solver|].
  apply Hne. by eapply only_one; [apply (inv_record _ Hi _ _ Hid)|..].
Qed.

Lemma unmoved_close client selector other id (st : Store A W) :
  Inv (registry st) → member st other id → other ≠ client → resolves (registry st) selector id →
  unmoved (close client selector) st.
Proof.
  intros Hi (rec & Hid & Hin) Hne Hres. unfold unmoved, close. rewrite wp_bind.
  apply wp_resolve; [done| |done]. intros id' rec' Hid' Hres'.
  assert (id' = id) as -> by by eapply resolves_unique. rewrite Hid in Hid'. injection Hid' as <-.
  rewrite wp_bind. eapply wp_expect_record; [done|]. rewrite wp_bind, wp_ensure.
  case_bool_decide as Hsub; [|done]. apply Hsub in Hin. set_solver.
Qed.

(** C17: A client cannot touch a session that another one has. Whatever it asks about it - its snapshot, its
    events, its files, a turn, an approval, a cancellation, a terminal, its state, to attach or to
    switch to it, by its id or its name, or to close it - the request is refused and nothing at all
    has changed. *)
Theorem sessions_of_others_are_closed wait client other id request c :
  ClientOk c → Tracks client c → controls (service c) other id → other ≠ client →
  about (reg (turns_of (service c))) request id →
  ∃ e, process_request split wait client request c = (c, Fail e).
Proof.
  intros Hok Ht Ho Hne Habout. apply unmoved_run. pose proof (reg_inv _ Hok) as Hi.
  assert (Hcur : attached_session c ≠ Some id).
  { intros Hc. apply Ht in Hc as (rec & Hid & Hin). destruct Ho as (rec' & Hid' & Hin'). rewrite Hid in Hid'.
    injection Hid' as <-. apply Hne. by eapply only_one; [apply (inv_record _ Hi _ _ Hid)|..]. }
  assert (Hreq : ∀ m, unmoved (require_current id;; m : Step (Client A W) string (ServerResponse A)) c).
  { intros m. apply unmoved_bind. unfold unmoved. apply wp_require_current; [by intros ?|done]. }
  destruct request; simpl in Habout; try done; try (subst; apply Hreq).
  - unfold unmoved. simpl. unfold process_attach. rewrite wp_bind, wp_current, wp_bind, wp_ensure.
    case_bool_decide; [|done]. apply unmoved_bind, unmoved_registry. by eapply unmoved_attach.
  - apply unmoved_bind, unmoved_registry. by eapply unmoved_attach.
  - destruct selector as [selector|]; [|done]. unfold unmoved. simpl. unfold process_close. rewrite wp_bind, wp_current.
    apply unmoved_bind, unmoved_registry. by eapply unmoved_close.
Qed.

(** * Clients on other hosts *)

(** What the catalog says of a session is true of it. *)
Definition Describes (r : SessionRegistry A) (d : SessionDescriptor) : Prop :=
  ∃ rec, sessions r !! d_id d = Some rec ∧ d_name d = record_name rec ∧
    d_visibility d = d_visibility (s_descriptor (sr_snapshot rec)).

Lemma wp_list_sessions (st : Store A W) (Q : list SessionDescriptor → Store A W → Prop) (R : string → Store A W → Prop) :
  Inv (registry st) → (∀ l, Forall (Describes (registry st)) l → Q l st) → wp list_sessions Q R st.
Proof.
  intros Hi HQ. unfold list_sessions. rewrite wp_bind, wp_the_registry, wp_bind. apply wp_io_iterate. intros l Hl.
  rewrite wp_ret. apply HQ. apply Forall_forall. intros d Hd%elem_of_sort_on.
  apply list_elem_of_fmap in Hd as (rec & -> & Hrec). apply list_elem_of_fmap in Hrec as ([id rec'] & -> & Hin).
  apply (elem_of_iteration _ _ _ _ Hl) in Hin. exists rec'. simpl. split; [|done].
  by rewrite (ok_id _ _ _ (inv_record _ Hi _ _ Hin)).
Qed.

Lemma wp_with_activities l s (r : SessionRegistry A) (Q : list SessionDescriptor → Service A W → Prop) (R : string → Service A W → Prop) :
  ServiceOk s → Forall (Describes r) l →
  (∀ l' s', ServiceOk s' → SameServiceMembers s s' → Forall (Describes r) l' → Q l' s') → wp (with_activities l) Q R s.
Proof.
  revert s Q. induction l as [|d l IH]; intros s Q Hs Hl HQ; simpl; [rewrite wp_ret; by apply HQ|].
  apply Forall_cons in Hl as [Hd Hl]. unfold descriptor_with_activity. rewrite wp_bind, wp_bind.
  apply wp_session_activity; [done|]. intros a s1 Hs1 Hm1. rewrite wp_ret, wp_bind. apply IH; [done..|].
  intros l' s2 Hs2 Hm2 Hl'. rewrite wp_ret. apply HQ; [done|by etrans|]. constructor; [|done]. exact Hd.
Qed.

(** Nobody is attached or detached. *)
Definition Unchanged c c' : Prop :=
  ClientOk c' ∧ attached_session c' = attached_session c ∧ SameServiceMembers (service c) (service c').

Lemma wp_catalog wait client c (Q : ServerResponse A → Client A W → Prop) (R : string → Client A W → Prop) :
  ClientOk c → (∀ l c', Unchanged c c' → Forall (Describes (reg (turns_of (service c)))) l → Q (RsCatalog l) c') →
  wp (respond (process_request split wait client RqList)) Q R c.
Proof.
  intros Hok HQ. unfold respond. rewrite wp_handle. cbn [process_request]. rewrite wp_in_service, wp_bind.
  unfold registry_do, in_daemon. rewrite wp_zoom, wp_in_registry. apply wp_list_sessions; [by apply reg_inv|].
  intros l Hl. rewrite set_pty_host_id. rewrite wp_bind. eapply wp_with_activities; [|exact Hl|]; [done|].
  intros l' s' Hs' Hm' Hl'. rewrite !wp_ret. apply HQ; [|done]. by split_and!.
Qed.

(** The session is not for clients on other hosts, and no session is named by
    its id. *)
Record Hidden (r : SessionRegistry A) (id : string) : Prop := {
  hidden_session : ∃ rec, sessions r !! id = Some rec ∧ d_visibility (s_descriptor (sr_snapshot rec)) = HostOnly;
  hidden_unnamed id' rec' : sessions r !! id' = Some rec' → record_name rec' ≠ id;
}.

Lemma hidden_invisible r selector id l :
  Inv r → Hidden r id → resolves r selector id → Forall (Describes r) l →
  visible_in (RsCatalog (A := A) l) selector = false.
Proof.
  intros Hi [(rec & Hid & Hvis) Hun] Hres Hl. simpl. apply existsb_false. intros d Hd.
  eapply Forall_forall in Hd; [|exact Hl]. destruct Hd as (rec' & Hid' & Hname & Hv).
  destruct (is_fabric d) eqn:Hf; [|done]. simpl. unfold is_fabric in Hf. apply bool_decide_eq_true in Hf.
  apply orb_false_iff. rewrite !bool_decide_eq_false. destruct Hres as [->|(Hnone & rec0 & Hrec0 & Hn0)].
  - split; [intros Heq; congruence|]. intros Heq. apply (Hun _ _ Hid'). congruence.
  - rewrite Hid in Hrec0. injection Hrec0 as <-. split; [congruence|]. intros Heq.
    assert (d_id d = id) as Hsame by (eapply (inv_names _ Hi); [exact Hid'|exact Hid|congruence]). congruence.
Qed.

(** What a client on another host is not to find: a session that is not there,
    or one that is hidden. *)
Definition Missing (r : SessionRegistry A) (selector : string) : Prop :=
  ∀ id rec, sessions r !! id = Some rec → id ≠ selector ∧ record_name rec ≠ selector.
Definition OutOfReach (r : SessionRegistry A) (selector : string) : Prop :=
  Missing r selector ∨ ∃ id, resolves r selector id ∧ Hidden r id.

Lemma missing_invisible r selector l :
  Missing r selector → Forall (Describes r) l → visible_in (RsCatalog (A := A) l) selector = false.
Proof.
  intros Hr Hl. simpl. apply existsb_false. intros d Hd. eapply Forall_forall in Hd; [|exact Hl].
  destruct Hd as (rec & Hid & Hname & _). destruct (Hr _ _ Hid) as [Hne Hnn].
  rewrite !bool_decide_eq_false_2 by congruence. apply andb_false_r.
Qed.

Lemma out_of_reach_invisible r selector l :
  Inv r → OutOfReach r selector → Forall (Describes r) l → visible_in (RsCatalog (A := A) l) selector = false.
Proof. intros Hi [Hr|(id & Hres & Hhid)]; [by apply missing_invisible|by eapply hidden_invisible]. Qed.

(** The session a request is about that is not looked for, since it must be the
    connection's current one. *)
Definition current_selector (request : ClientRequest A) : option string :=
  match request with
  | RqUpdate id _ _ _ | RqSnapshot id | RqSubmit id _ _ _ _ | RqEvents id _ _ | RqApprove id _ | RqCancel id _ => Some id
  | _ => None
  end.

Lemma not_current_refused wait client c request id :
  current_selector request = Some id → attached_session c ≠ Some id →
  remote_response split wait client request c = (c, Done (RsError "request_failed" not_current)).
Proof.
  intros Hsel Hne.
  unfold remote_response, reject_remote_request, respond, handle, mbind, Step_bind.
  destruct request; try discriminate Hsel; injection Hsel as ->; simpl; unfold process_update, process_submit, require_current, current, get, mret, Step_ret,
    mbind, Step_bind; simpl; by rewrite bool_decide_false.
Qed.

(** C19: A session that is for this host only is out of reach of clients on other hosts. To whatever such a
    client asks that looks for it - by its id or by its name - the answer is the one for a session that does
    not exist, and nobody is attached or detached, provided no session is named by another's id; a request
    about a session by its id, if that is not the connection's current one, has one answer whether it is there,
    hidden or not; the client cannot create such a session; and the catalog it gets lists no such session. *)
Theorem hidden_sessions_are_out_of_reach wait client c request :
  ClientOk c → Tracks client c →
  (∀ selector, remote_selector request = Some selector → OutOfReach (reg (turns_of (service c))) selector →
     ∃ c', remote_response split wait client request c = (c', Done remote_visibility_error) ∧ Unchanged c c') ∧
  (∀ id, current_selector request = Some id → attached_session c ≠ Some id →
     remote_response split wait client request c = (c, Done (RsError "request_failed" not_current))) ∧
  (∀ creation, request = RqCreate creation → c_visibility creation = HostOnly →
     remote_response split wait client request c = (c, Done remote_visibility_error)) ∧
  (∀ c' l, remote_response split wait client request c = (c', Done (RsCatalog l)) → Forall (λ d, d_visibility d = Fabric) l).
Proof.
  intros Hok Ht. split_and!.
  - intros selector Hsel Hreach.
    assert (wp (remote_response split wait client request) (λ r c', r = remote_visibility_error ∧ Unchanged c c') (λ _ _, False) c) as Hw.
    { unfold remote_response. rewrite wp_bind.
      assert (reject_remote_request split wait client request = (
        catalog ← respond (process_request split wait client RqList);
        mret (if visible_in catalog selector then None else Some remote_visibility_error))) as ->.
      { destruct request; try discriminate Hsel; try (injection Hsel as <-; done).
        destruct selector0; [injection Hsel as <-; done|discriminate Hsel]. }
      rewrite wp_bind. apply wp_catalog; [done|]. intros l c' Hc' Hl. cbv beta.
      rewrite (out_of_reach_invisible _ _ _ (reg_inv _ Hok) Hreach Hl), wp_ret, wp_ret. by split. }
    destruct (wp_run _ _ _ _ Hw) as (c' & [(r & -> & -> & Hc')|(e & _ & [])]). by exists c'.
  - intros id. apply not_current_refused.
  - intros creation -> Hv. unfold remote_response, reject_remote_request, mbind, Step_bind. simpl. by rewrite bool_decide_true.
  - intros c' l Hrun. unfold remote_response in Hrun. apply step_bind_Done in Hrun as ([r|] & c1 & Hrej & Hrun).
    + injection Hrun as -> ->. exfalso. revert Hrej. unfold reject_remote_request.
      destruct request; simpl; try case_bool_decide; try discriminate; try (case_match; [|discriminate]);
        rewrite step_bind_Done; intros (cat & c2 & _ & Hm); case_match; discriminate Hm.
    + apply step_bind_Done in Hrun as (r & c2 & _ & Hm). injection Hm as <- Hm. destruct r; try discriminate Hm.
      simpl in Hm. injection Hm as <-. apply Forall_forall. intros d [Hd _]%list_elem_of_filter.
      unfold is_fabric in Hd. by apply bool_decide_eq_true in Hd.
Qed.
End connections.

(** * Connections that are made *)

Section perform.
Context {A W : Type} `{!StateSerde A, !SessionHost W, !PtyWorld A W, !EventSerde A, !TurnWorld A W, !CompletionHost W,
  !ViewHost W, !ServiceWorld A W, !EqDecision A}.
Context (split : string → string + list string).

Definition unused_id (r : Outcome string (ServerResponse A)) (s : Service A W) : bool :=
  match r with
  | Done (RsCreated x) => bool_decide (sessions (reg (turns_of s)) !! d_id (s_descriptor x) = None)
  | _ => true
  end.

(** A history, computed; nothing when an id is used twice or a connection is
    not there. *)
Definition perform_hall_op (op : HallOp (A := A)) (h : Hall (A := A) (W := W)) :
    option (Outcome string (ServerResponse A) * Hall (A := A) (W := W)) :=
  match op with
  | HoConnect client =>
      if bool_decide (client ∈ clients h) then None
      else Some (Done RsPtyClosed, {| hall_service := hall_service h; connections := <[client := None]> (connections h);
                                      clients := {[client]} ∪ clients h |})
  | HoRequest client wait request =>
      match connections h !! client with
      | None => None
      | Some session =>
          let '(c, r) := process_request split wait client request (client_of h session) in
          if unused_id r (hall_service h) then Some (r, after h client c) else None
      end
  | HoDisconnect client =>
      match connections h !! client with
      | None => None
      | Some session =>
          let '(s, r) := (match session with
            | Some id => o ← detach_session client id; mret (RsDetached o)
            | None => mret (RsDetached None)
            end) (hall_service h) in
          Some (r, {| hall_service := s; connections := delete client (connections h); clients := clients h |})
      end
  | HoWork => Some (Done RsPtyClosed, h)
  end.

Fixpoint perform_hall (ops : list (HallOp (A := A))) (h : Hall (A := A) (W := W)) :
    option (list (HallOp (A := A) * Outcome string (ServerResponse A)) * Hall (A := A) (W := W)) :=
  match ops with
  | [] => Some ([], h)
  | op :: ops =>
      match perform_hall_op op h with
      | None => None
      | Some (r, h1) => match perform_hall ops h1 with Some (log, h') => Some ((op, r) :: log, h') | None => None end
      end
  end.

Lemma unused_unused r s session : unused_id r s = true → ∀ a, r = Done a → Unused a {| attached_session := session; service := s |}.
Proof.
  intros Hu a ->. destruct a; simpl in *; try done. apply bool_decide_eq_true in Hu. intros client (rec & Hid & _).
  unfold reg in Hu. congruence.
Qed.

Lemma perform_hall_history ops h log h' :
  (∀ op, op ∈ ops → op ≠ HoWork) → perform_hall ops h = Some (log, h') → HallHistory split h log h'.
Proof.
  revert h log. induction ops as [|op ops IH]; intros h log Hops; simpl; [intros [= <- <-]; constructor|].
  destruct (perform_hall_op op h) as [[r h1]|] eqn:Hr; [|done]. destruct (perform_hall ops h1) as [[log1 h2]|] eqn:Hp; [|done].
  intros [= <- <-]. econstructor; [|apply IH; [|exact Hp]; intros op' Hin; apply Hops; by right].
  destruct op as [client|client wait request|client|]; simpl in Hr.
  - case_bool_decide; [done|]. injection Hr as <- <-. by constructor.
  - destruct (connections h !! client) as [session|] eqn:Hc; [|done].
    destruct (process_request _ _ _ _ _) as [c r'] eqn:Hrun. destruct (unused_id r' (hall_service h)) eqn:Hu; [|done].
    injection Hr as <- <-. econstructor; [exact Hc|exact Hrun|]. by apply unused_unused.
  - destruct (connections h !! client) as [session|] eqn:Hc; [|done].
    destruct (_ (hall_service h)) as [s r'] eqn:Hrun. injection Hr as <- <-. by econstructor.
  - by destruct (Hops HoWork); [left|].
Qed.

Definition sane (r : Outcome string (ServerResponse A)) : bool :=
  match r with Fail e => bool_decide (e ∉ "timestamp exceeds session format" :: persist_errors) | _ => true end.

Lemma sane_healthy r : sane r = true → healthy r.
Proof.
  intros Hs e -> Hf. apply bool_decide_eq_true in Hs. apply Hs. destruct Hf as [->|?]; [by left|by right].
Qed.
End perform.

#[local] Existing Instance sample_pty_world.

#[local] Instance sample_completion : CompletionHost N := {|
  wide_alphanumeric _ := false; home_var _ := None; path_var _ := None; directory _ _ := None |}.
#[local] Instance sample_view : ViewHost N := {|
  view_home _ := None; view_canonicalize _ p := inr p; view_open _ _ := inl "no such file"; sha256_hex _ := "" |}.
#[local] Instance sample_service_world : ServiceWorld () N := {|
  instant w := (w, w); home_variable w := (None, w); spawn_worker w := (None, w); in_time w := (true, w);
  terminal_stream w := (None, w); close_audit w _ _ := w; write_response w _ := (None, w) |}.
Definition sample_split (s : string) : string + list string := inr [s].

Definition service_of (st : Store () N) : Service () N := {|
  turns_of := {| executions := []; by_session := ∅; admission := true; workers := []; policy := daemon_policy_default;
                 pty_host := {| coordinator := {| ptys := ∅; accepting := true |}; store := st |} |};
  command_cache := None |}.

Definition request_by (client : string) (request : ClientRequest ()) : HallOp (A := ()) := HoRequest client (true, []) request.

(** One client creates a session and is cut off; another one is refused before
    and gets it after. *)
Definition sample_visit : list (HallOp (A := ())) := [
  HoConnect "ada"; request_by "ada" (RqCreate sample_creation); HoConnect "bob";
  request_by "bob" (RqSwitch "bees" Owner); request_by "bob" (RqSnapshot "id-0"); HoDisconnect "ada";
  request_by "bob" (RqSwitch "bees" Owner)].

Definition brief {B} (r : Outcome string B) : Outcome string () :=
  match r with Done _ => Done () | Fail e => Fail e | Panic => Panic end.

Definition visited (ops : list (HallOp (A := ()))) :
    list (HallOp (A := ()) * Outcome string (ServerResponse ())) * Hall (A := ()) (W := N) :=
  default ([], hall_new (service_of sample_start)) (perform_hall sample_split ops (hall_new (service_of sample_start))).

Lemma visited_history ops :
  (∀ op, op ∈ ops → op ≠ HoWork) →
  bool_decide (is_Some (perform_hall sample_split ops (hall_new (service_of sample_start)))) = true →
  HallHistory sample_split (hall_new (service_of sample_start)) (visited ops).1 (visited ops).2.
Proof.
  intros Hops Hp%bool_decide_eq_true. apply (perform_hall_history _ ops); [done|]. unfold visited.
  destruct Hp as [[log h] Hp]. by rewrite Hp.
Qed.

Example sample_visit_ends :
  ((λ x, brief x.2) <$> (visited sample_visit).1, connections (visited sample_visit).2) = (
    [Done (); Done (); Done (); Fail ("session " +:+ debug_str "bees" +:+ " already has an interactive controller");
     Fail not_current; Done (); Done ()], {["bob" := Some "id-0"]}).
Proof. vm_compute. reflexivity. Qed.

Lemma sample_start_inv : Inv (registry sample_start).
Proof.
  destruct (reach_good sample_start) as [Hi _ _]; [|done].
  eapply (reach_first "host" "local" "rich" {| sessions_json := None; world := 0%N |}); [done|]. vm_compute. reflexivity.
Qed.

Lemma service_ok st : Inv (registry st) → ServiceOk (service_of st).
Proof.
  intros Hi. split; simpl.
  - intros r s. by rewrite lookup_nil.
  - intros sid r. by rewrite lookup_empty.
  - intros sid sid' r. by rewrite lookup_empty.
  - split; simpl; [intros id p; by rewrite lookup_empty|intros id id' p p'; by rewrite lookup_empty|apply Nat.le_0_l|done].
Qed.

Lemma sessions_follow_connections_witness :
  controls (hall_service (visited sample_visit).2) "bob" "id-0" ∧ ¬ controls (hall_service (visited sample_visit).2) "ada" "id-0".
Proof.
  assert (HallHistory sample_split (hall_new (service_of sample_start)) (visited sample_visit).1 (visited sample_visit).2) as Hlog.
  { apply visited_history; [|vm_compute; reflexivity].
    intros op. unfold sample_visit. rewrite !elem_of_cons, elem_of_nil. naive_solver. }
  destruct (sessions_follow_connections sample_split (service_of sample_start) _ _ (service_ok _ sample_start_inv)
    ltac:(intros client id (rec & Hid & _); by vm_compute in Hid) Hlog) as (_ & H & _).
  { intros op r Hin. apply sane_healthy.
    assert (forallb (λ x, sane x.2) (visited sample_visit).1 = true) as Hall by (vm_compute; reflexivity).
    rewrite forallb_forall in Hall. exact (Hall (op, r) (proj1 (list_elem_of_In _ _) Hin)). }
  split; [apply (proj2 (H "bob" "id-0")); vm_compute; reflexivity|]. intros Hc. apply (proj1 (H "ada" "id-0")) in Hc.
  vm_compute in Hc. discriminate Hc.
Defined.

(** A client that has a session, and one that has none. *)
Definition sample_owner : Service () N := service_of sample_created.
Definition sample_visitor : Client () N := {| attached_session := None; service := sample_owner |}.

Lemma sample_visitor_tracks : Tracks "other" sample_visitor.
Proof.
  intros id. split; [|done]. intros (rec & Hid & Hin). exfalso.
  assert (bool_decide (Forall (λ x, "other" ∉ sr_attachments x.2) (map_to_list (sessions (registry sample_created)))) = true)
    as Hall by (vm_compute; reflexivity).
  apply bool_decide_eq_true in Hall. rewrite Forall_forall in Hall.
  exact (Hall (id, rec) (proj2 (elem_of_map_to_list _ _ _) Hid) Hin).
Qed.

Lemma sessions_of_others_are_closed_witness :
  ∃ e, process_request sample_split (true, []) "other" (RqClose (Some "bees")) sample_visitor = (sample_visitor, Fail e).
Proof.
  assert (controls sample_owner "client" "id-0") as Hc by (eexists; split; [vm_compute; reflexivity|vm_compute; done]).
  apply (sessions_of_others_are_closed sample_split (true, []) "other" "client" "id-0" (RqClose (Some "bees")) sample_visitor
    (service_ok _ (good_inv _ (reach_good _ sample_created_reach))) sample_visitor_tracks Hc ltac:(done)).
  right. split; [vm_compute; reflexivity|]. eexists. split; vm_compute; reflexivity.
Defined.

Lemma sample_hidden : Hidden (registry sample_created) "id-0".
Proof.
  split; [eexists; split; vm_compute; reflexivity|]. intros id rec Hid.
  assert (bool_decide (Forall (λ x, record_name x.2 ≠ "id-0") (map_to_list (sessions (registry sample_created)))) = true)
    as Hall by (vm_compute; reflexivity).
  apply bool_decide_eq_true in Hall. rewrite Forall_forall in Hall.
  exact (Hall (id, rec) (proj2 (elem_of_map_to_list _ _ _) Hid)).
Qed.

Lemma hidden_sessions_are_out_of_reach_witness :
  ∃ c', remote_response sample_split (true, []) "other" (RqAttach "bees" Owner) sample_visitor =
    (c', Done remote_visibility_error) ∧ Unchanged sample_visitor c'.
Proof.
  apply (proj1 (hidden_sessions_are_out_of_reach sample_split (true, []) "other" sample_visitor (RqAttach "bees" Owner)
    (service_ok _ (good_inv _ (reach_good _ sample_created_reach))) sample_visitor_tracks) "bees" eq_refl).
  right. exists "id-0". split; [|exact sample_hidden].
  right. split; [vm_compute; reflexivity|]. eexists. split; vm_compute; reflexivity.
Defined.

(** ** What a failure leaves *)

(** A session whose state cannot be saved: the request fails, and the session
    is there all the same, attached to a client whose connection has none. It
    stays attached when the connection is closed, so that nobody can have it. *)
Definition sample_wasps : SessionCreation () := {|
  c_name := "wasps"; c_model := sample_model; c_cwd := "/home/rich"; c_persistence := PersistDurable;
  c_visibility := HostOnly; c_history := [] |}.

Lemma failed_creation_blocks_session :
  let '(log, h) := visited [HoConnect "ada"; request_by "ada" (RqCreate sample_wasps); HoDisconnect "ada";
                            HoConnect "bob"; request_by "bob" (RqAttach "wasps" Owner)] in
  (brief ∘ snd <$> log) = [Done (); Fail "cannot encode session state"; Done (); Done ();
    Fail ("session " +:+ debug_str "wasps" +:+ " already has an interactive controller")] ∧
  connections h = {["bob" := None]} ∧
  (sr_attachments <$> sessions (reg (turns_of (hall_service h))) !! "id-0") = Some {["ada"]}.
Proof. vm_compute. split_and!; reflexivity. Qed.

(** A client on another host that knows the id of a hidden session creates a
    session of that name, which is visible, and gets the hidden one. *)
Definition sample_decoy : SessionCreation () := {|
  c_name := "id-0"; c_model := sample_model; c_cwd := "/home/rich"; c_persistence := PersistDaemon;
  c_visibility := Fabric; c_history := [] |}.

Definition remote_requests (client : string) (requests : list (ClientRequest ())) (c : Client () N) :
    list (Outcome string ()) * Client () N :=
  foldl (λ x request, let '(c, r) := remote_response sample_split (true, []) client request x.2 in (x.1 ++ [brief r], c))
    ([], c) requests.

Lemma decoy_reaches_hidden_session :
  let owner := (process_request sample_split (true, []) "client" RqDetach
    {| attached_session := Some "id-0"; service := sample_owner |}).1 in
  let '(log, c) := remote_requests "other" [RqCreate sample_decoy; RqDetach; RqAttach "id-0" Owner]
    {| attached_session := None; service := service owner |} in
  log = [Done (); Done (); Done ()] ∧ attached_session c = Some "id-0" ∧
  ((λ rec, d_visibility (s_descriptor (sr_snapshot rec))) <$> sessions (reg (turns_of (service c))) !! "id-0") = Some HostOnly.
Proof. vm_compute. split_and!; reflexivity. Qed.
