(* ===== verification/Adapters.v ===== *)
(** What the provider adapters share ([crates/xshell-adapters/src/lib.rs], and
    the request and error types of [crates/xshell-core/src/lib.rs]): sending a
    request, the lines of a streamed response and its limits, what errors of a
    provider mean, and when tool calls may be handed to the engine.

    HTTP ([reqwest]) and JSON ([serde_json]) are the classes [HttpClient] and
    [Json]. A body is the chunks that came, with the times they were waited
    for from, and what ended it: every response that ends at all is one. Times
    are nanoseconds. *)
From Stdlib Require Import Ascii.
From S2P Require Import Prelude Budget Compaction Wildcard CallId Chat PtyStream Effects.

Definition STREAM_IDLE_TIMEOUT : N := from_secs 300.
Definition MAX_STREAM_DURATION : N := from_secs (60 * 60).
Definition MAX_PENDING_LINE_BYTES : N := 4 * 1024 * 1024.
Definition MAX_STREAM_RESPONSE_BYTES : N := 16 * 1024 * 1024.
(** In milliseconds. *)
Definition SEND_RETRY_DELAY : N := 250.
Definition MAX_ERROR_BODY_BYTES : N := 64 * 1024.
Definition MAX_TOOL_CALLS : nat := 256.
Definition MAX_TOOL_ARGUMENT_BYTES : N := 1024 * 1024.
Definition MIN_PLAUSIBLE_CONTEXT_TOKENS : N := 1024.
Definition MAX_QUOTED_ERROR_BYTES : nat := 2 * 1024.

Inductive AdapterError : Type :=
| AdTransport (text : string)
| AdHttp (status : N) (body : string)
| AdInvalidResponse (text : string)
| AdContextOverflow (prompt_tokens available_tokens : option N).

(** [Display]. *)
Definition adapter_error_text (e : AdapterError) : string :=
  match e with
  | AdTransport text => "the connection to the agent endpoint failed: " +:+ text
  | AdHttp status body => "the agent endpoint rejected the request (" +:+ fmt_N status +:+ "): " +:+ body
  | AdInvalidResponse text => "the agent returned an invalid response: " +:+ text
  | AdContextOverflow _ _ => "the prompt exceeds the model's context window"
  end.

(** ** Requests *)

Record ToolDefinition (A : Type) := {
  td_name : string;
  td_description : string;
  td_parameters : A;
}.
Arguments td_name {A}.
Arguments td_description {A}.
Arguments td_parameters {A}.

Record ChatRequest (A : Type) := {
  cr_messages : list (ChatMessage A);
  cr_tools : list (ToolDefinition A);
}.
Arguments cr_messages {A}.
Arguments cr_tools {A}.

Record AgentDescriptor := {
  ad_id : string;
  ad_display_name : string;
  ad_model : string;
  ad_capabilities : list string;
}.

(** [Display] of a role. *)
Definition role_text (role : MessageRole) : string :=
  match role with
  | RoleSystem => "system" | RoleUser => "user" | RoleAssistant => "assistant" | RoleTool => "tool"
  end.

(** ** HTTP *)

(** [reqwest::Error]: what it is about, its URL, and what [source()] gives,
    then the source of that, and so on. *)
Record TransportFailure := {
  tf_url : option string;
  tf_timeout : bool;
  tf_connect : bool;
  tf_request : bool;
  tf_body : bool;
  tf_decode : bool;
  tf_sources : list string;
}.

(** How a body ends: it is complete, or breaks off, or there was nothing for as
    long as the code waits, until [now]. *)
Inductive BodyEnd : Type :=
| BodyComplete
| BodyBroken (error : TransportFailure)
| BodySilent (now : N).

Record Response := {
  status : N;
  started : N;
  chunks : list (N * bytes);
  end_asked : N;
  ended : BodyEnd;
}.

Record HttpRequest (B : Type) := {
  hr_url : string;
  hr_bearer : option string;
  hr_json : B;
}.
Arguments hr_url {B}.
Arguments hr_bearer {B}.
Arguments hr_json {B}.

Class HttpClient (B W : Type) := {
  send : HttpRequest B → W → (TransportFailure + Response) * W;
  try_clone : HttpRequest B → option (HttpRequest B);
  sleep : N → W → W;
}.

(** [serde_json]: values, and their text. *)
Class Json (A : Type) := {
  json_from_str : string → string + A;
  json_to_string : A → string;
  json_get : A → string → option A;
  json_as_str : A → option string;
  json_null : A;
  json_object : list (string * A) → A;
}.

Definition describe_transport_error (e : TransportFailure) : string :=
  let url := default "the agent endpoint" (tf_url e) in
  let description :=
    if tf_timeout e then "timed out waiting for " +:+ url
    else if tf_connect e then "could not connect to " +:+ url
    else if tf_request e then "the request to " +:+ url +:+ " could not be sent"
    else if tf_body e || tf_decode e then "the response from " +:+ url +:+ " was cut off"
    else url in
  match last (tf_sources e) with
  | Some cause => description +:+ ": " +:+ cause
  | None => description
  end.

Definition transport_error (e : TransportFailure) : AdapterError := AdTransport (describe_transport_error e).

Definition is_retryable_send_error (e : TransportFailure) : bool :=
  (tf_connect e || tf_request e) && negb (tf_timeout e).

Section send.
Context {B W : Type} `{!HttpClient B W}.

Definition retry_error (first second : TransportFailure) : AdapterError :=
  let first := describe_transport_error first in
  let second := describe_transport_error second in
  AdTransport (
    if bool_decide (first = second) then second +:+ " (retried once with the same result)"
    else second +:+ " (retried once; the first attempt: " +:+ first +:+ ")").

Definition send_with_retry (request : HttpRequest B) : Step W AdapterError Response :=
  let retry := try_clone request in
  sent ← ask (send request);
  match sent with
  | inr response => mret response
  | inl first =>
      match retry with
      | Some retry =>
          if is_retryable_send_error first then
            modify (sleep SEND_RETRY_DELAY);;
            sent ← ask (send retry);
            match sent with
            | inr response => mret response
            | inl second => throw (retry_error first second)
            end
          else throw (transport_error first)
      | None => throw (transport_error first)
      end
  end.
End send.

(** ** What an error of a provider means *)

Definition contains (part s : string) : bool :=
  match find_after (chars part) (chars s) with Some _ => true | None => false end.

Fixpoint take_while {A} (p : A → bool) (l : list A) : list A :=
  match l with x :: l => if p x then x :: take_while p l else [] | [] => [] end.

(** [find_map] over the phrases, of the first occurrence of each. *)
Fixpoint number_after (message : string) (phrases : list string) : option N :=
  match phrases with
  | [] => None
  | phrase :: phrases =>
      match find_after (chars phrase) (chars (to_ascii_lowercase message)) with
      | None => number_after message phrases
      | Some rest =>
          match parse_u64 (take_while is_ascii_digit (chars (trim_start (of_chars rest)))) with
          | Some n => Some n
          | None => number_after message phrases
          end
      end
  end.

Definition PROMPT_PHRASES : list string := ["you requested"; "prompt length"; "resulted in"].
Definition WINDOW_PHRASES : list string := [
  "maximum context length is"; "available context size of"; "context window of"].

#[export, refine] Instance ord_N : Ord N := {| ord_le := N.leb |}.
Proof.
  - intros x y z. rewrite !N.leb_le. lia.
  - intros x y. rewrite !N.leb_le. lia.
  - intros x y. rewrite !N.leb_le. lia.
Defined.

(** The plausible numbers, the largest first, each once. *)
Definition token_counts (message : string) : list N :=
  dedup (rev (sort_on id (filter (λ tokens, MIN_PLAUSIBLE_CONTEXT_TOKENS ≤ tokens)%N
    (omap parse_u64 (filter (λ part, part ≠ []) (pieces (λ c, negb (is_ascii_digit c)) (chars message))))))).

Definition overflow_markers : list string := [
  "context_length_exceeded"; "exceeds the available context size"; "exceeds the model's maximum context";
  "maximum context length"; "prompt is too long"].

Section errors.
Context {A : Type} `{!Json A}.

(** [&value\["error"\]]. *)
Definition json_index (v : A) (key : string) : A := default json_null (json_get v key).

Definition error_code (error : option A) : string :=
  default "" (e ← error; code ← json_get e "code"; json_as_str code).

Definition error_text (error : option A) (body : string) : string :=
  default body (e ← error; json_as_str (default e (json_get e "message"))).

Definition context_overflow (body : string) : option (option N * option N) :=
  let parsed := match json_from_str body with inr v => Some v | inl _ => None end in
  let error := (λ v, json_index v "error") <$> parsed in
  let message := error_text error body in
  if bool_decide (error_code error = "context_length_exceeded") || existsb (λ m, contains m message) overflow_markers then
    match number_after message PROMPT_PHRASES, number_after message WINDOW_PHRASES with
    | Some prompt, Some available => Some (Some prompt, Some available)
    | _, _ =>
        match token_counts message with
        | prompt :: available :: _ => Some (Some prompt, Some available)
        | _ => Some (None, None)
        end
    end
  else None.

(** [while !quoted.is_char_boundary(end) { end -= 1 }] and the rest. *)
Definition quote_error {E} (quoted : string) : Outcome E string :=
  if (MAX_QUOTED_ERROR_BYTES <? String.length quoted)%nat then
    let! quoted := truncate_at quoted (floor_boundary quoted MAX_QUOTED_ERROR_BYTES) in
    Done (quoted +:+ "…")
  else Done quoted.

Definition stream_error (error : A) : Outcome AdapterError AdapterError :=
  match context_overflow (json_to_string (json_object [("error", error)])) with
  | Some (prompt, available) => Done (AdContextOverflow prompt available)
  | None =>
      let! quoted := quote_error (json_to_string error) in
      Done (AdInvalidResponse ("the agent endpoint reported an error mid-stream: " +:+ quoted))
  end.

(** [return Err(stream_error(error))]. *)
Definition fail_stream {S X} (error : A) : Step S AdapterError X := e ← lift (stream_error error); throw e.

(** ** The body *)

Definition stream_duration_error : AdapterError :=
  AdTransport ("the agent endpoint response exceeded " +:+ fmt_N 3600 +:+ " seconds").
Definition idle_error : AdapterError :=
  AdTransport ("no data received from the agent endpoint for " +:+ fmt_N 300 +:+ " seconds").
Definition too_many_bytes : AdapterError :=
  AdInvalidResponse ("the agent endpoint response exceeds " +:+ fmt_N MAX_STREAM_RESPONSE_BYTES +:+ " bytes").
Definition no_terminator : AdapterError :=
  AdInvalidResponse ("the agent endpoint sent more than " +:+ fmt_N MAX_PENDING_LINE_BYTES +:+
    " bytes without a line terminator").

Definition account_response_bytes (total chunk : N) : Outcome AdapterError N :=
  let total := N.min (total + chunk) U64_MAX in
  if (MAX_STREAM_RESPONSE_BYTES <? total)%N then Fail too_many_bytes else Done total.

(** At most [MAX_ERROR_BODY_BYTES] of the chunks, and whether that is all. *)
Fixpoint retain (body : bytes) (chunks : list (N * bytes)) : bytes * bool :=
  match chunks with
  | [] => (body, false)
  | (_, chunk) :: chunks =>
      let remaining := (MAX_ERROR_BODY_BYTES - len body)%N in
      if (remaining =? 0)%N then (body, true)
      else
        let retained := N.min remaining (len chunk) in
        let body := body ++ take (N.to_nat retained) chunk in
        if (retained <? len chunk)%N then (body, true) else retain body chunks
  end.

Definition read_bounded_error (r : Response) : Outcome AdapterError string :=
  let '(body, truncated) := retain [] (chunks r) in
  if truncated then Done (from_utf8_lossy body +:+ of_chars [newline] +:+ "[error body truncated]")
  else match ended r with
       | BodyComplete => Done (from_utf8_lossy body)
       | BodyBroken error => Fail (transport_error error)
       | BodySilent _ => Fail (AdTransport ("no error-response data received for " +:+ fmt_N 300 +:+ " seconds"))
       end.

Section lines.
Context {S : Type}.
Context (consume : string → Step S AdapterError ()).

Definition consume_line (line : bytes) : Step S AdapterError () :=
  match from_utf8 line with
  | inr line => consume line
  | inl error => throw (AdInvalidResponse error)
  end.

(** A carriage return before the line feed. *)
Definition strip_cr (line : bytes) : bytes :=
  if bool_decide (last line = Some "013"%char) then take (length line - 1) line else line.

(** [while let Some(newline) = pending.iter().position(..)]: what is left
    without a line feed; [line] is what was looked at. *)
Fixpoint drain_lines (line pending : bytes) : Step S AdapterError bytes :=
  match pending with
  | [] => mret line
  | c :: pending =>
      if bool_decide (c = newline) then consume_line (strip_cr line);; drain_lines [] pending
      else drain_lines (line ++ [c]) pending
  end.

Definition next_chunk (deadline asked : N) : Step S AdapterError () :=
  ensure (asked <? deadline)%N stream_duration_error.

Definition finish_body (deadline : N) (r : Response) : Step S AdapterError () :=
  next_chunk deadline (end_asked r);;
  match ended r with
  | BodyComplete => mret ()
  | BodyBroken error => throw (transport_error error)
  | BodySilent now => throw (if (deadline <=? now)%N then stream_duration_error else idle_error)
  end.

Fixpoint read_chunks (deadline : N) (chunks : list (N * bytes)) (total : N) (pending : bytes) :
    Step S AdapterError bytes :=
  match chunks with
  | [] => mret pending
  | (asked, chunk) :: chunks =>
      next_chunk deadline asked;;
      total ← lift (account_response_bytes total (len chunk));
      ensure (len pending + len chunk <=? MAX_PENDING_LINE_BYTES)%N no_terminator;;
      pending ← drain_lines [] (pending ++ chunk);
      read_chunks deadline chunks total pending
  end.

Definition is_success (r : Response) : bool := (200 <=? status r)%N && (status r <=? 299)%N.

Definition reject (r : Response) : Step S AdapterError () :=
  body ← lift (read_bounded_error r);
  throw (match context_overflow body with
         | Some (prompt, available) => AdContextOverflow prompt available
         | None => AdHttp (status r) body
         end).

Definition stream_lines (r : Response) : Step S AdapterError () :=
  if is_success r then
    let deadline := (started r + MAX_STREAM_DURATION)%N in
    pending ← read_chunks deadline (chunks r) 0 [];
    finish_body deadline r;;
    if bool_decide (pending = []) then mret () else consume_line pending
  else reject r.
End lines.

(** ** Tool calls *)

Definition require_dispatchable (complete : bool) (finish_reason : option string) (tool_calls : nat) :
    Outcome AdapterError () :=
  if (tool_calls =? 0)%nat then Done ()
  else
    let refuse reason :=
      Fail (AdInvalidResponse (reason +:+ "; its " +:+ fmt_nat tool_calls +:+ " tool call(s) were not run")) in
    if negb complete then refuse "the response stream ended before the provider finished it"
    else match finish_reason with
         | None => Done ()
         | Some reason =>
             if bool_decide (reason ∈ ["stop"; "tool_calls"; "function_call"]) then Done ()
             else if bool_decide (reason = "length") then refuse "the response was cut off by the output token limit"
             else if bool_decide (reason = "content_filter") then
               refuse "the response was stopped by the provider's content filter"
             else refuse ("the response finished with reason " +:+ debug_str reason)
         end.

(** [checked_add] and the limit of all arguments together. *)
Definition add_argument_bytes (total more : N) : Outcome AdapterError N :=
  if (total + more <=? N.min U64_MAX MAX_TOOL_ARGUMENT_BYTES)%N then Done (total + more)%N
  else Fail (AdInvalidResponse ("streamed tool arguments exceed " +:+ fmt_N MAX_TOOL_ARGUMENT_BYTES +:+ " bytes")).

Definition too_many_calls : AdapterError :=
  AdInvalidResponse ("the agent endpoint returned more than " +:+ fmt_nat MAX_TOOL_CALLS +:+ " tool calls").
Definition unnamed_call (index : string) : AdapterError :=
  AdInvalidResponse ("tool call " +:+ index +:+ " has no function name").
End errors.

(** ** A request and its answer *)

(** The world and the text the adapter has shown ([AgentEvent::TextDelta]). *)
Record Wire (W : Type) := {
  wire_world : W;
  shown : list string;
}.
Arguments wire_world {W}.
Arguments shown {W}.
Arguments Build_Wire {W}.

Definition sending {W X} (m : Step W AdapterError X) : Step (Wire W) AdapterError X :=
  zoom wire_world (λ w s, {| wire_world := w; shown := shown s |}) m.

(** A closure's variables, from [init] on, while the events of [deltas] are
    sent; then what they are. *)
Definition accumulating {W S} (init : S) (deltas : S → list string) (m : Step S AdapterError ()) :
    Step (Wire W) AdapterError S := λ s,
  let '(acc, r) := m init in
  ({| wire_world := wire_world s; shown := shown s ++ deltas acc |},
   match r with Done _ => Done acc | Fail e => Fail e | Panic => Panic end).
