(* ===== verification/Ollama.v ===== *)
(** The Ollama adapter ([crates/xshell-adapters/src/ollama.rs]): the request it
    sends, and the answer it makes of the lines of the response. Reading a line
    as an [OllamaChunk] is derived by [serde], so it is a parameter. *)
From Stdlib Require Import Ascii.
From S2P Require Import Prelude Budget Compaction CallId Chat PtyStream Effects Adapters.

Record OllamaFunctionCall (A : Type) := {
  ofc_name : string;
  ofc_arguments : A;
}.
Arguments ofc_name {A}.
Arguments ofc_arguments {A}.

Record OllamaMessage (A : Type) := {
  om_role : string;
  om_content : string;
  om_tool_calls : list (OllamaFunctionCall A);
  om_tool_name : option string;
}.
Arguments om_role {A}.
Arguments om_content {A}.
Arguments om_tool_calls {A}.
Arguments om_tool_name {A}.

Record OllamaRequest (A : Type) := {
  or_model : string;
  or_messages : list (OllamaMessage A);
  or_tools : list (ToolDefinition A);
  or_stream : bool;
}.

Record OllamaChunk (A : Type) := {
  oc_content : string;
  oc_tool_calls : list (OllamaFunctionCall A);
  oc_error : option A;
  oc_done : bool;
  oc_done_reason : option string;
}.
Arguments oc_content {A}.
Arguments oc_tool_calls {A}.
Arguments oc_error {A}.
Arguments oc_done {A}.
Arguments oc_done_reason {A}.

Record OllamaAdapter := {
  oa_base_url : string;
  oa_model : string;
}.

(** [str::trim_end_matches]. *)
Fixpoint trim_start_char (c : ascii) (l : list ascii) : list ascii :=
  match l with d :: l' => if bool_decide (d = c) then trim_start_char c l' else l | [] => [] end.
Definition trim_end_matches (c : ascii) (s : string) : string :=
  of_chars (rev (trim_start_char c (rev (chars s)))).

Section ollama.
Context {A W : Type} `{!Json A, !HttpClient (OllamaRequest A) W}.
Context (chunk_from_str : string → string + OllamaChunk A).

Definition ollama_new (base_url model : string) : OllamaAdapter := {|
  oa_base_url := trim_end_matches "/"%char base_url; oa_model := model |}.

Definition message_from (m : ChatMessage A) : OllamaMessage A := {|
  om_role := role_text (msg_role m);
  om_content := msg_content m;
  om_tool_calls := (λ call, {| ofc_name := call_name call; ofc_arguments := call_arguments call |}) <$> msg_tool_calls m;
  om_tool_name := msg_tool_name m |}.

Definition descriptor (a : OllamaAdapter) : AgentDescriptor := {|
  ad_id := "ollama"; ad_display_name := "Ollama"; ad_model := oa_model a;
  ad_capabilities := ["chat"; "streaming"; "tool_calls"] |}.

Definition http_request (a : OllamaAdapter) (request : ChatRequest A) : HttpRequest (OllamaRequest A) := {|
  hr_url := oa_base_url a +:+ "/api/chat"; hr_bearer := None;
  hr_json := {|
    or_model := oa_model a; or_messages := message_from <$> cr_messages request; or_tools := cr_tools request;
    or_stream := true |} |}.

(** The variables of the closure. *)
Record Answer := {
  content : string;
  tool_calls : list (ToolCall A);
  tool_argument_bytes : N;
  done : bool;
  done_reason : option string;
  deltas : list string;
}.

Definition answer_new : Answer := {|
  content := ""; tool_calls := []; tool_argument_bytes := 0; done := false; done_reason := None; deltas := [] |}.

Abbreviation M := (Step Answer AdapterError).

Definition set_done (chunk : OllamaChunk A) (s : Answer) : Answer :=
  if oc_done chunk then {|
    content := content s; tool_calls := tool_calls s; tool_argument_bytes := tool_argument_bytes s; done := true;
    done_reason := oc_done_reason chunk; deltas := deltas s |}
  else s.

Definition push_text (text : string) (s : Answer) : Answer :=
  if bool_decide (text = "") then s
  else {|
    content := content s +:+ text; tool_calls := tool_calls s; tool_argument_bytes := tool_argument_bytes s;
    done := done s; done_reason := done_reason s; deltas := deltas s ++ [text] |}.

Definition push_call (bytes : N) (call : OllamaFunctionCall A) (s : Answer) : Answer := {|
  content := content s;
  tool_calls := tool_calls s ++ [{|
    call_id := "ollama-call-" +:+ fmt_nat (length (tool_calls s)); call_name := ofc_name call;
    call_arguments := ofc_arguments call |}];
  tool_argument_bytes := bytes; done := done s; done_reason := done_reason s; deltas := deltas s |}.

Definition add_call (call : OllamaFunctionCall A) : M () :=
  s ← get;
  ensure (length (tool_calls s) <? MAX_TOOL_CALLS)%nat too_many_calls;;
  bytes ← lift (add_argument_bytes (tool_argument_bytes s) (str_len (json_to_string (ofc_arguments call))));
  modify (λ s, {|
    content := content s; tool_calls := tool_calls s; tool_argument_bytes := bytes; done := done s;
    done_reason := done_reason s; deltas := deltas s |});;
  ensure (negb (bool_decide (ofc_name call = ""))) (unnamed_call (fmt_nat (length (tool_calls s))));;
  modify (push_call bytes call).

Fixpoint add_calls (calls : list (OllamaFunctionCall A)) : M () :=
  match calls with [] => mret () | call :: calls => add_call call;; add_calls calls end.

Definition add_chunk (chunk : OllamaChunk A) : M () :=
  match oc_error chunk with
  | Some error => fail_stream error
  | None =>
      modify (set_done chunk);;
      modify (push_text (oc_content chunk));;
      add_calls (oc_tool_calls chunk)
  end.

Definition consume (line : string) : M () :=
  if blank line then mret ()
  else match chunk_from_str line with
       | inl error => throw (AdInvalidResponse error)
       | inr chunk => add_chunk chunk
       end.

Definition answer_response (s : Answer) : Outcome AdapterError (AssistantResponse A) :=
  let! _ := require_dispatchable (done s) (done_reason s) (length (tool_calls s)) in
  Done {|
    resp_content := content s; resp_tool_calls := tool_calls s; resp_reasoning := None;
    resp_finish_reason := done_reason s |}.

Definition chat_stream (a : OllamaAdapter) (request : ChatRequest A) :
    Step (Wire W) AdapterError (AssistantResponse A) :=
  response ← sending (send_with_retry (http_request a request));
  s ← accumulating answer_new deltas (stream_lines consume response);
  lift (answer_response s).
End ollama.
