(* ===== verification/OpenAi.v ===== *)
(** The adapter for OpenAI-compatible endpoints
    ([crates/xshell-adapters/src/openai.rs]): the request it sends, and the
    answer it makes of the events of the response. Reading an event as an
    [OpenAiChunk] is derived by [serde], so it is a parameter. *)
From Stdlib Require Import Ascii.
From S2P Require Import Prelude Budget Compaction CallId Chat PtyStream Effects Adapters Ollama.

Record OpenAiFunctionCallRef := {
  fr_name : string;
  fr_arguments : string;
}.

Record OpenAiToolCallRef := {
  tr_id : string;
  tr_function : OpenAiFunctionCallRef;
}.

Record OpenAiMessage := {
  pm_role : string;
  pm_content : string;
  pm_tool_calls : list OpenAiToolCallRef;
  pm_tool_call_id : option string;
  pm_reasoning_content : option string;
}.

Record OpenAiRequest (A : Type) := {
  pr_model : string;
  pr_messages : list OpenAiMessage;
  pr_tools : list (ToolDefinition A);
  pr_stream : bool;
}.

Record OpenAiFunctionDelta := {
  fd_name : option string;
  fd_arguments : option string;
}.

Record OpenAiToolCallDelta := {
  cd_index : N;
  cd_id : option string;
  cd_function : option OpenAiFunctionDelta;
}.

Record OpenAiDelta := {
  de_content : option string;
  de_reasoning_content : option string;
  de_reasoning : option string;
  de_tool_calls : list OpenAiToolCallDelta;
}.

Record OpenAiChoice := {
  ch_index : N;
  ch_delta : OpenAiDelta;
  ch_finish_reason : option string;
}.

Record OpenAiChunk (A : Type) := {
  ck_choices : list OpenAiChoice;
  ck_error : option A;
}.
Arguments ck_choices {A}.
Arguments ck_error {A}.

Record ToolCallAccumulator := {
  ta_id : string;
  ta_name : string;
  ta_arguments : string;
}.

Record OpenAiCompatibleAdapter := {
  pa_base_url : string;
  pa_model : string;
  pa_api_key : option string;
}.

(** [str::strip_suffix]. *)
Definition strip_suffix (suffix s : string) : option string :=
  (λ l, of_chars (rev l)) <$> Wildcard.strip_prefix (rev (chars suffix)) (rev (chars s)).

Section openai.
Context {A W : Type} `{!Json A, !HttpClient (OpenAiRequest A) W}.
Context (chunk_from_str : string → string + OpenAiChunk A).

Definition openai_new (base_url model : string) (api_key : option string) : OpenAiCompatibleAdapter := {|
  pa_base_url := trim_end_matches "/"%char base_url; pa_model := model; pa_api_key := api_key |}.

Definition endpoint (a : OpenAiCompatibleAdapter) : string :=
  default (pa_base_url a) (strip_suffix "/v1" (pa_base_url a)) +:+ "/v1/chat/completions".

Definition message_from (m : ChatMessage A) : OpenAiMessage := {|
  pm_role := role_text (msg_role m);
  pm_content := msg_content m;
  pm_tool_calls := (λ call, {|
    tr_id := call_id call;
    tr_function := {| fr_name := call_name call; fr_arguments := json_to_string (call_arguments call) |} |})
      <$> msg_tool_calls m;
  pm_tool_call_id := msg_tool_call_id m;
  pm_reasoning_content := msg_reasoning m |}.

Definition descriptor (a : OpenAiCompatibleAdapter) : AgentDescriptor := {|
  ad_id := "openai-compatible"; ad_display_name := "OpenAI-compatible endpoint"; ad_model := pa_model a;
  ad_capabilities := ["chat"; "streaming"; "tool_calls"] |}.

Definition http_request (a : OpenAiCompatibleAdapter) (request : ChatRequest A) : HttpRequest (OpenAiRequest A) := {|
  hr_url := endpoint a; hr_bearer := pa_api_key a;
  hr_json := {|
    pr_model := pa_model a; pr_messages := message_from <$> cr_messages request; pr_tools := cr_tools request;
    pr_stream := true |} |}.

(** The variables of the closure. *)
Record Answer := {
  content : string;
  reasoning : string;
  finish_reason : option string;
  saw_done : bool;
  partial_calls : gmap N ToolCallAccumulator;
  tool_argument_bytes : N;
  deltas : list string;
}.

Definition answer_new : Answer := {|
  content := ""; reasoning := ""; finish_reason := None; saw_done := false; partial_calls := ∅;
  tool_argument_bytes := 0; deltas := [] |}.

Definition accumulator_new : ToolCallAccumulator := {| ta_id := ""; ta_name := ""; ta_arguments := "" |}.

Abbreviation M := (Step Answer AdapterError).

Definition set_saw_done (s : Answer) : Answer := {|
  content := content s; reasoning := reasoning s; finish_reason := finish_reason s; saw_done := true;
  partial_calls := partial_calls s; tool_argument_bytes := tool_argument_bytes s; deltas := deltas s |}.

(** What a choice adds besides tool calls. *)
Definition add_texts (choice : OpenAiChoice) (s : Answer) : Answer :=
  let delta := ch_delta choice in
  {| content := content s +:+ default "" (de_content delta);
     reasoning := reasoning s +:+
       default "" (match de_reasoning_content delta with Some text => Some text | None => de_reasoning delta end);
     finish_reason := match ch_finish_reason choice with Some reason => Some reason | None => finish_reason s end;
     saw_done := saw_done s; partial_calls := partial_calls s; tool_argument_bytes := tool_argument_bytes s;
     deltas := deltas s ++ option_list (de_content delta) |}.

Definition set_call (index : N) (f : ToolCallAccumulator → ToolCallAccumulator) (s : Answer) : Answer := {|
  content := content s; reasoning := reasoning s; finish_reason := finish_reason s; saw_done := saw_done s;
  partial_calls := <[index := f (default accumulator_new (partial_calls s !! index))]> (partial_calls s);
  tool_argument_bytes := tool_argument_bytes s; deltas := deltas s |}.

Definition set_argument_bytes (bytes : N) (s : Answer) : Answer := {|
  content := content s; reasoning := reasoning s; finish_reason := finish_reason s; saw_done := saw_done s;
  partial_calls := partial_calls s; tool_argument_bytes := bytes; deltas := deltas s |}.

Definition push_id (id : option string) (c : ToolCallAccumulator) : ToolCallAccumulator := {|
  ta_id := ta_id c +:+ default "" id; ta_name := ta_name c; ta_arguments := ta_arguments c |}.
Definition push_name (name : option string) (c : ToolCallAccumulator) : ToolCallAccumulator := {|
  ta_id := ta_id c; ta_name := ta_name c +:+ default "" name; ta_arguments := ta_arguments c |}.
Definition push_arguments (arguments : string) (c : ToolCallAccumulator) : ToolCallAccumulator := {|
  ta_id := ta_id c; ta_name := ta_name c; ta_arguments := ta_arguments c +:+ arguments |}.

Definition add_call (delta : OpenAiToolCallDelta) : M () :=
  s ← get;
  let index := cd_index delta in
  ensure (bool_decide (is_Some (partial_calls s !! index)) || (size (partial_calls s) <? MAX_TOOL_CALLS)%nat) too_many_calls;;
  modify (set_call index (push_id (cd_id delta)));;
  match cd_function delta with
  | None => mret ()
  | Some function =>
      modify (set_call index (push_name (fd_name function)));;
      match fd_arguments function with
      | None => mret ()
      | Some arguments =>
          s ← get;
          bytes ← lift (add_argument_bytes (tool_argument_bytes s) (str_len arguments));
          modify (set_argument_bytes bytes);;
          modify (set_call index (push_arguments arguments))
      end
  end.

Fixpoint add_calls (calls : list OpenAiToolCallDelta) : M () :=
  match calls with [] => mret () | call :: calls => add_call call;; add_calls calls end.

Definition other_choice (index : N) : AdapterError :=
  AdInvalidResponse ("the agent endpoint streamed choice " +:+ fmt_N index +:+ " although one was requested").

Fixpoint add_choices (choices : list OpenAiChoice) : M () :=
  match choices with
  | [] => mret ()
  | choice :: choices =>
      ensure (ch_index choice =? 0)%N (other_choice (ch_index choice));;
      modify (add_texts choice);;
      add_calls (de_tool_calls (ch_delta choice));;
      add_choices choices
  end.

Definition add_chunk (chunk : OpenAiChunk A) : M () :=
  match ck_error chunk with
  | Some error => fail_stream error
  | None => add_choices (ck_choices chunk)
  end.

Definition consume (line : string) : M () :=
  match strip_prefix "data:" (trim line) with
  | None => mret ()
  | Some data =>
      let data := trim data in
      if bool_decide (data = "[DONE]") then modify set_saw_done
      else if bool_decide (data = "") then mret ()
      else match chunk_from_str data with
           | inl error => throw (AdInvalidResponse error)
           | inr chunk => add_chunk chunk
           end
  end.

Definition finish_call (entry : N * ToolCallAccumulator) : Outcome AdapterError (ToolCall A) :=
  let '(index, call) := entry in
  if bool_decide (ta_name call = "") then Fail (unnamed_call (fmt_N index))
  else
    let! arguments :=
      (if blank (ta_arguments call) then Done (json_object [])
       else match json_from_str (ta_arguments call) with
            | inr arguments => Done arguments
            | inl error =>
                Fail (AdInvalidResponse ("invalid arguments for tool " +:+ ta_name call +:+ ": " +:+ error))
            end) in
    Done {|
      call_id := if bool_decide (ta_id call = "") then "openai-call-" +:+ fmt_N index else ta_id call;
      call_name := ta_name call; call_arguments := arguments |}.

Definition answer_response (s : Answer) : Outcome AdapterError (AssistantResponse A) :=
  let! _ := require_dispatchable (saw_done s || bool_decide (is_Some (finish_reason s))) (finish_reason s)
              (size (partial_calls s)) in
  let! tool_calls := outcome_map finish_call (sort_on fst (map_to_list (partial_calls s))) in
  Done {|
    resp_content := content s; resp_tool_calls := tool_calls;
    resp_reasoning := if bool_decide (reasoning s = "") then None else Some (reasoning s);
    resp_finish_reason := finish_reason s |}.

Definition chat_stream (a : OpenAiCompatibleAdapter) (request : ChatRequest A) :
    Step (Wire W) AdapterError (AssistantResponse A) :=
  response ← sending (send_with_retry (http_request a request));
  s ← accumulating answer_new deltas (stream_lines consume response);
  lift (answer_response s).
End openai.
