(* ===== verification/AdaptersSpec.v ===== *)
(** What the adapters share, specified: the lines of a body do not depend on
    how it was split, errors of a provider are read without a panic, and a
    request is repeated once at most. *)
From Stdlib Require Import Ascii Sorted.
From S2P Require Import Prelude Budget Compaction CompactionSpec Wildcard CallId Chat PtyStream Effects Adapters.

(** * Lines *)

Definition is_newline (c : ascii) : bool := bool_decide (c = newline).

(** The lines of a body: what is between line feeds, without the carriage
    returns before them; and what follows the last, when there is any. *)
Definition wire_lines (b : bytes) : list bytes :=
  match split_last (pieces is_newline b) with
  | Some (last, init) => (strip_cr <$> init) ++ (if bool_decide (last = []) then [] else [last])
  | None => []
  end.

Definition received (r : Response) : bytes := concat (chunks r).*2.

(** [drain_lines] without its effects: [line] is the beginning of a line. *)
Fixpoint split_lines (line b : bytes) : list bytes * bytes :=
  match b with
  | [] => ([], line)
  | c :: b =>
      if is_newline c then (line :: (split_lines [] b).1, (split_lines [] b).2) else split_lines (line ++ [c]) b
  end.

(** What follows the last line feed. *)
Definition unterminated (b : bytes) : bytes := (split_lines [] b).2.

Lemma split_lines_app line b b' :
  split_lines line (b ++ b') =
  ((split_lines line b).1 ++ (split_lines (split_lines line b).2 b').1, (split_lines (split_lines line b).2 b').2).
Proof.
  revert line. induction b as [|c b IH]; intros line; simpl; [by destruct (split_lines line b')|].
  destruct (is_newline c); simpl; by rewrite IH.
Qed.

Lemma split_lines_pieces line b :
  (∀ c, c ∈ line → is_newline c = false) →
  pieces is_newline (line ++ b) = (split_lines line b).1 ++ [(split_lines line b).2].
Proof.
  revert line. induction b as [|c b IH]; intros line Hl; simpl.
  - rewrite app_nil_r. by apply pieces_none.
  - destruct (is_newline c) eqn:Hc; simpl.
    + rewrite pieces_app, (pieces_none _ line), <-(IH []) by first [done | by intros d ?%elem_of_nil]. done.
    + rewrite cons_middle, app_assoc. apply IH. intros d [Hd|Hd%list_elem_of_singleton]%elem_of_app; [by apply Hl|by subst].
Qed.

Lemma split_last_snoc {A} (l : list A) x : split_last (l ++ [x]) = Some (x, l).
Proof. induction l as [|y l IH]; [done|]. simpl. by rewrite IH. Qed.

Lemma wire_lines_split b :
  wire_lines b = (strip_cr <$> (split_lines [] b).1) ++ (if bool_decide (unterminated b = []) then [] else [unterminated b]).
Proof.
  unfold wire_lines. pose proof (split_lines_pieces [] b ltac:(by intros d ?%elem_of_nil)) as H. simpl in H.
  by rewrite H, split_last_snoc.
Qed.

(** Cutting a line feed off from what comes before it changes nothing. *)
Lemma split_lines_rest line b : (∀ c, c ∈ line → is_newline c = false) →
  ∀ c, c ∈ (split_lines line b).2 → is_newline c = false.
Proof.
  revert line. induction b as [|c b IH]; intros line Hl; [done|]. simpl. destruct (is_newline c) eqn:Hc; simpl.
  - apply IH. by intros d ?%elem_of_nil.
  - apply IH. intros d [Hd|Hd%list_elem_of_singleton]%elem_of_app; [by apply Hl|by subst].
Qed.

Lemma split_lines_plain line b : (∀ c, c ∈ b → is_newline c = false) → split_lines line b = ([], line ++ b).
Proof.
  revert line. induction b as [|c b IH]; intros line Hb; simpl; [by rewrite app_nil_r|].
  rewrite (Hb c) by (by left). rewrite IH by (intros d Hd; apply Hb; by right). by rewrite <-app_assoc.
Qed.

Lemma split_lines_resume b b' : split_lines [] (unterminated b ++ b') = split_lines (unterminated b) b'.
Proof.
  rewrite split_lines_app, split_lines_plain; [simpl; by destruct (split_lines (unterminated b) b')|].
  apply split_lines_rest. by intros d ?%elem_of_nil.
Qed.

(** ** Bodies *)

Definition in_time (r : Response) (asked : N) : Prop := (asked < started r + MAX_STREAM_DURATION)%N.

(** A body that is read to its end. *)
Record Delivered (r : Response) : Prop := {
  delivered_success : (200 ≤ status r ≤ 299)%N;
  delivered_complete : ended r = BodyComplete;
  delivered_in_time : Forall (in_time r) (chunks r).*1 ∧ in_time r (end_asked r);
  delivered_bytes : (len (received r) ≤ MAX_STREAM_RESPONSE_BYTES)%N;
  delivered_pending before asked chunk after : chunks r = before ++ (asked, chunk) :: after →
    (len (unterminated (concat before.*2)) + len chunk ≤ MAX_PENDING_LINE_BYTES)%N;
}.

#[local] Opaque MAX_STREAM_RESPONSE_BYTES MAX_PENDING_LINE_BYTES MAX_STREAM_DURATION.

Lemma account_accepts total more :
  (total ≤ MAX_STREAM_RESPONSE_BYTES)%N →
  account_response_bytes total more =
  if (MAX_STREAM_RESPONSE_BYTES <? total + more)%N then Fail too_many_bytes else Done (total + more)%N.
Proof.
  intros Ht. unfold account_response_bytes.
  assert (MAX_STREAM_RESPONSE_BYTES < U64_MAX)%N as Hlt by (vm_compute; reflexivity).
  destruct (N.ltb_spec MAX_STREAM_RESPONSE_BYTES (total + more)) as [H|H].
  - by rewrite (proj2 (N.ltb_lt _ _)) by lia.
  - rewrite N.min_l by lia. by rewrite (proj2 (N.ltb_ge _ _)).
Qed.

Lemma wire_len_app b b' : len (b ++ b') = (len b + len b')%N.
Proof. unfold len. rewrite length_app. lia. Qed.

Section lines.
Context {S : Type} (consume : string → Step S AdapterError ()).
Implicit Types (s : S) (r : Response).

(** [consume] of each line in turn. *)
Fixpoint feed (lines : list bytes) : Step S AdapterError () :=
  match lines with [] => mret () | line :: lines => consume_line consume line;; feed lines end.

Lemma feed_app l l' s : feed (l ++ l') s = (feed l;; feed l') s.
Proof.
  revert s. induction l as [|x l IH]; intros s; [done|]. simpl. unfold mbind, Step_bind in *.
  destruct (consume_line consume x s) as [s1 [[]|e|]]; [|done..]. apply IH.
Qed.

Lemma drain_lines_feed line b s :
  drain_lines consume line b s = (feed (strip_cr <$> (split_lines line b).1);; mret (split_lines line b).2) s.
Proof.
  revert line s. induction b as [|c b IH]; intros line s; simpl; [done|].
  unfold is_newline at 1 2. case_bool_decide as Hc; [|apply IH]. simpl. unfold mbind, Step_bind.
  destruct (consume_line consume (strip_cr line) s) as [s1 [[]|e|]]; [|done..]. by rewrite IH.
Qed.

(** What [stream_lines] may have done: it consumed lines from the front. *)
Definition consumed (lines : list bytes) s s' : Prop := ∃ l, l `prefix_of` lines ∧ s' = (feed l s).1.

Lemma consumed_all lines s : consumed lines s (feed lines s).1.
Proof. by exists lines. Qed.

Lemma consumed_none lines s : consumed lines s s.
Proof. exists []. split; [apply prefix_nil|done]. Qed.

Lemma consumed_weaken l l' s s' : consumed l s s' → l `prefix_of` l' → consumed l' s s'.
Proof. intros (k & Hk & ->) Hl. exists k. split; [by etrans|done]. Qed.

Lemma consumed_app l l' s s1 s' :
  feed l s = (s1, Done ()) → consumed l' s1 s' → consumed (l ++ l') s s'.
Proof.
  intros Hl (k & [m ->] & ->). exists (l ++ k). split; [exists m; by rewrite app_assoc|].
  rewrite feed_app. unfold mbind, Step_bind. by rewrite Hl.
Qed.

Lemma consumed_front l l' s s' : (feed l s).1 = s' → consumed (l ++ l') s s'.
Proof. intros <-. exists l. split; [by eexists|done]. Qed.

Lemma bind_run {B C} (m : Step S AdapterError B) (k : B → Step S AdapterError C) s s1 b :
  m s = (s1, Done b) → (m ≫= k) s = k b s1.
Proof. intros Hm. unfold mbind, Step_bind. by rewrite Hm. Qed.

(** The chunks still to be read are acceptable, [pending] and [total] bytes
    being there. *)
Fixpoint Deliverable (deadline : N) (cs : list (N * bytes)) (total : N) (pending : bytes) : Prop :=
  match cs with
  | [] => True
  | (asked, chunk) :: cs =>
      (asked < deadline)%N ∧ (total + len chunk ≤ MAX_STREAM_RESPONSE_BYTES)%N ∧
      (len pending + len chunk ≤ MAX_PENDING_LINE_BYTES)%N ∧
      Deliverable deadline cs (total + len chunk) (split_lines pending chunk).2
  end.

Lemma read_chunks_delivers deadline cs total pending s :
  (total ≤ MAX_STREAM_RESPONSE_BYTES)%N → (∀ c, c ∈ pending → is_newline c = false) →
  Deliverable deadline cs total pending →
  read_chunks consume deadline cs total pending s =
    (feed (strip_cr <$> (split_lines pending (concat cs.*2)).1);; mret (split_lines pending (concat cs.*2)).2) s.
Proof.
  revert total pending s. induction cs as [|[asked chunk] cs IH]; intros total pending s Ht Hp; [done|].
  intros (Ha & Hb & Hl & Hd). cbn [read_chunks fmap list_fmap concat]. unfold next_chunk.
  rewrite (proj2 (N.ltb_lt _ _) Ha), (proj2 (N.leb_le _ _) Hl).
  change (list_fmap _ _ snd cs) with (cs.*2). cbn [ensure]. rewrite split_lines_app. cbn [fst snd]. rewrite fmap_app.
  erewrite bind_run by done. erewrite bind_run.
  2:{ unfold lift. by rewrite account_accepts, (proj2 (N.ltb_ge _ _) Hb) by done. }
  erewrite bind_run by done. unfold mbind at 1, Step_bind at 1.
  rewrite drain_lines_feed, split_lines_app, split_lines_plain by done. cbn [fst snd app].
  unfold mbind at 1 2, Step_bind at 1 2. rewrite feed_app. unfold mbind at 1, Step_bind at 1.
  destruct (feed _ s) as [s1 [[]|e|]]; [|done..]. cbn [mret Step_ret]. rewrite IH; [done..|by apply split_lines_rest|done].
Qed.

Lemma read_chunks_Done deadline cs total pending s s' b :
  (total ≤ MAX_STREAM_RESPONSE_BYTES)%N → (∀ c, c ∈ pending → is_newline c = false) →
  read_chunks consume deadline cs total pending s = (s', Done b) → Deliverable deadline cs total pending.
Proof.
  revert total pending s. induction cs as [|[asked chunk] cs IH]; intros total pending s Ht Hp; [done|]. simpl.
  unfold next_chunk, ensure. rewrite account_accepts by done. rewrite step_bind_Done. intros ([] & s1 & H1 & H).
  destruct (N.ltb_spec asked deadline) as [Ha|]; [|done]. injection H1 as <-.
  apply step_bind_Done in H as (total' & s1 & [-> H1]%lift_Done & H).
  destruct (N.ltb_spec MAX_STREAM_RESPONSE_BYTES (total + len chunk)) as [|Hb]; [done|]. injection H1 as <-.
  apply step_bind_Done in H as ([] & s1 & H1 & H). destruct (N.leb_spec (len pending + len chunk) MAX_PENDING_LINE_BYTES) as [Hl|]; [|done].
  injection H1 as <-. apply step_bind_Done in H as (rest & s1 & H1 & H). rewrite drain_lines_feed in H1.
  apply step_bind_Done in H1 as ([] & s2 & _ & [= _ <-]). rewrite split_lines_app, split_lines_plain in H by done. cbn [fst snd] in H.
  split_and!; [done..|]. eapply IH; [exact Hb|by apply split_lines_rest|exact H].
Qed.

Lemma read_chunks_consumed deadline cs total pending s :
  (∀ c, c ∈ pending → is_newline c = false) →
  consumed (strip_cr <$> (split_lines pending (concat cs.*2)).1) s (read_chunks consume deadline cs total pending s).1.
Proof.
  revert total pending s. induction cs as [|[asked chunk] cs IH]; intros total pending s Hp; [apply consumed_none|].
  cbn [read_chunks fmap list_fmap concat]. change (list_fmap _ _ snd cs) with (cs.*2).
  rewrite split_lines_app. cbn [fst snd]. rewrite fmap_app. unfold next_chunk, ensure.
  unfold mbind at 1, Step_bind at 1. destruct (asked <? deadline)%N; [|apply consumed_none]. cbn [mret Step_ret].
  unfold mbind at 1, Step_bind at 1. unfold lift. destruct (account_response_bytes total (len chunk)) as [total'|e|]; [|apply consumed_none..].
  unfold mbind at 1, Step_bind at 1. destruct (_ <=? _)%N; [|apply consumed_none]. cbn [mret Step_ret].
  unfold mbind at 1, Step_bind at 1. rewrite drain_lines_feed, split_lines_app, (split_lines_plain [] pending) by done. cbn [fst snd app].
  unfold mbind at 1, Step_bind at 1. destruct (feed _ s) as [s1 [[]|e|]] eqn:Hf; cbn [mret Step_ret];
    [eapply consumed_app; [exact Hf|apply IH; by apply split_lines_rest]|..];
    apply consumed_front; by rewrite Hf.
Qed.
(** ** Whole bodies *)

Lemma Deliverable_iff deadline cs total pending :
  Deliverable deadline cs total pending ↔
  Forall (λ at_, (at_ < deadline)%N) cs.*1 ∧ (∀ before x after, cs = before ++ x :: after →
    (total + len (concat before.*2) + len x.2 ≤ MAX_STREAM_RESPONSE_BYTES)%N ∧
    (len (split_lines pending (concat before.*2)).2 + len x.2 ≤ MAX_PENDING_LINE_BYTES)%N).
Proof.
  revert total pending. induction cs as [|[asked chunk] cs IH]; intros total pending; simpl.
  - split; [|done]. split; [constructor|]. by intros [|] ? ?.
  - rewrite IH, Forall_cons. change (list_fmap _ _ fst cs) with (cs.*1). split.
    + intros (Ha & Hb & Hp & Hall & Hrest). split; [done|]. intros [|y before] x after [= <- ->].
      * simpl. split; [|done]. unfold len at 1. simpl. lia.
      * destruct (Hrest before x after eq_refl) as [H1 H2]. cbn [fmap list_fmap concat snd].
        change (list_fmap _ _ snd before) with (before.*2). rewrite wire_len_app, split_lines_app. simpl. split; [lia|done].
    + intros ((Ha & Hall) & Hrest). destruct (Hrest [] (asked, chunk) cs eq_refl) as [H1 H2]. unfold len at 1 in H1. simpl in H1, H2.
      split_and!; [done|lia|done..|]. intros before x after ->.
      destruct (Hrest ((asked, chunk) :: before) x after eq_refl) as [H3 H4]. cbn [fmap list_fmap concat snd] in H3, H4.
      change (list_fmap _ _ snd before) with (before.*2) in H3, H4. rewrite wire_len_app in H3. rewrite split_lines_app in H4.
      simpl in H4. split; [lia|done].
Qed.

Lemma delivered_iff r :
  Delivered r ↔ is_success r = true ∧ ended r = BodyComplete ∧ in_time r (end_asked r) ∧
    Deliverable (started r + MAX_STREAM_DURATION) (chunks r) 0 [].
Proof.
  unfold is_success, received. rewrite Deliverable_iff, andb_true_iff, !N.leb_le. split.
  - intros [Hs Hc [Ht He] Hb Hp]. split_and!; [lia..|done|done|done|]. intros before [asked chunk] after Hcs. split.
    + unfold received in Hb. rewrite Hcs, fmap_app, concat_app, wire_len_app in Hb. cbn [fmap list_fmap concat snd] in Hb. rewrite wire_len_app in Hb. simpl. lia.
    + exact (Hp _ _ _ _ Hcs).
  - intros (Hs & Hc & He & Ht & Hrest). split; [lia|done|done| |].
    + unfold received. destruct (chunks r) as [|x l _] eqn:Hcs using rev_ind; [unfold len; simpl; lia|].
      destruct (Hrest l x [] eq_refl) as [H _]. rewrite fmap_app, concat_app, wire_len_app. simpl in *. rewrite app_nil_r. lia.
    + intros before asked chunk after Hcs. apply (Hrest _ _ _ Hcs).
Qed.

(** The effect of a body that is delivered is that of its lines, however it
    was split; nothing else counts as a success. *)
Lemma stream_lines_delivered `{!Json A} r s :
  Delivered r → stream_lines consume r s = feed (wire_lines (received r)) s.
Proof.
  intros (Hs & Hc & He & Hd)%delivered_iff. unfold stream_lines. rewrite Hs, wire_lines_split, feed_app.
  unfold mbind at 1, Step_bind at 1. rewrite read_chunks_delivers; [|lia|by intros c ?%elem_of_nil|done].
  unfold mbind at 1 3, Step_bind at 1 3. unfold received. destruct (feed _ s) as [s1 [[]|e|]]; [|done..]. cbn [mret Step_ret].
  unfold finish_body, next_chunk. unfold in_time in He. rewrite (proj2 (N.ltb_lt _ _) He), Hc. unfold unterminated.
  unfold mbind, Step_bind. simpl. case_bool_decide; [done|]. simpl.
  unfold mbind, Step_bind. by destruct (consume_line _ _ s1) as [s2 [[]|e|]].
Qed.

Lemma stream_lines_Done `{!Json A} r s s' : stream_lines consume r s = (s', Done ()) → Delivered r.
Proof.
  unfold stream_lines. rewrite delivered_iff. destruct (is_success r); [|unfold reject; rewrite step_bind_Done; naive_solver].
  rewrite step_bind_Done. intros (pending & s1 & H1 & H). apply step_bind_Done in H as ([] & s2 & H2 & _).
  apply read_chunks_Done in H1; [|lia|by intros c ?%elem_of_nil].
  unfold finish_body, next_chunk, ensure, in_time in *. apply step_bind_Done in H2 as ([] & s3 & H2 & H3).
  destruct (N.ltb_spec (end_asked r) (started r + MAX_STREAM_DURATION)) as [He|]; [|done].
  destruct (ended r); [|done..]. done.
Qed.

Lemma stream_lines_consumed `{!Json A} r s :
  consumed (wire_lines (received r)) s (stream_lines consume r s).1.
Proof.
  unfold stream_lines. destruct (is_success r).
  2:{ unfold reject, lift, throw, mbind, Step_bind. destruct (read_bounded_error r); apply consumed_none. }
  rewrite wire_lines_split. unfold received. set (d := (started r + MAX_STREAM_DURATION)%N).
  pose proof (read_chunks_consumed d (chunks r) 0 [] s ltac:(by intros c ?%elem_of_nil)) as Hc.
  unfold mbind at 1, Step_bind at 1. destruct (read_chunks consume d (chunks r) 0 [] s) as [s1 [rest|e|]] eqn:Hr;
    [|simpl in *; eapply consumed_weaken; [exact Hc|by eexists]..].
  pose proof (read_chunks_Done _ _ _ _ _ _ _ (N.le_0_l _) ltac:(by intros c ?%elem_of_nil) Hr) as Hd.
  rewrite read_chunks_delivers in Hr; [|lia|by intros c ?%elem_of_nil|done].
  apply step_bind_Done in Hr as ([] & s2 & Hf & [= <- <-]). eapply consumed_app; [exact Hf|]. unfold unterminated.
  unfold mbind, Step_bind. destruct (finish_body d r s2) as [s3 r3] eqn:H3.
  assert (s3 = s2) as ->.
  { unfold finish_body, next_chunk, ensure, mbind, Step_bind, throw in H3.
    destruct (_ <? _)%N; simpl in H3; [|congruence]. destruct (ended r); unfold mret, Step_ret in H3; congruence. }
  destruct r3 as [[]|e|]; [|apply consumed_none..]. case_bool_decide; [apply consumed_none|].
  set (line := (split_lines [] (concat (chunks r).*2)).2).
  exists [line]. split; [done|]. simpl. unfold mbind, Step_bind. by destruct (consume_line _ _ s2) as [s4 [[]|e|]].
Qed.
End lines.

(** ** Without a panic *)

Definition total {T B} (m : Step T AdapterError B) : Prop := ∀ s, (m s).2 ≠ Panic.

Lemma total_bind {T B C} (m : Step T AdapterError B) (k : B → Step T AdapterError C) :
  total m → (∀ b, total (k b)) → total (m ≫= k).
Proof. intros Hm Hk s. specialize (Hm s). unfold mbind, Step_bind. destruct (m s) as [s' [b|e|]]; [apply Hk|done..]. Qed.

Lemma total_ret {T B} (b : B) : total (mret b : Step T AdapterError B).
Proof. done. Qed.
Lemma total_throw {T B} e : total (throw e : Step T AdapterError B).
Proof. done. Qed.
Lemma total_modify {T} f : total (modify f : Step T AdapterError ()).
Proof. done. Qed.
Lemma total_ensure {T} b e : total (ensure b e : Step T AdapterError ()).
Proof. by destruct b. Qed.
Lemma total_lift {T B} (o : Outcome AdapterError B) : o ≠ Panic → total (lift o : Step T AdapterError B).
Proof. by intros Ho s. Qed.

Create HintDb total.
#[export] Hint Resolve total_bind total_ret total_throw total_modify total_ensure total_lift : total.

Section total.
Context {S : Type} (consume : string → Step S AdapterError ()) `{!Json A}.
Context (consume_total : ∀ line, total (consume line)).

Lemma consume_line_total line : total (consume_line consume line).
Proof. unfold consume_line. destruct (from_utf8 line); auto with total. Qed.

Lemma drain_lines_total line b : total (drain_lines consume line b).
Proof.
  revert line. induction b as [|c b IH]; intros line; simpl; [auto with total|]. case_bool_decide; [|done].
  apply total_bind; [apply consume_line_total|done].
Qed.

Lemma read_chunks_total deadline cs count pending : total (read_chunks consume deadline cs count pending).
Proof.
  revert count pending. induction cs as [|[asked chunk] cs IH]; intros count pending; simpl; [auto with total|].
  unfold next_chunk. repeat (apply total_bind; [|intros ?]); auto using drain_lines_total with total.
  apply total_lift. unfold account_response_bytes. by case_match.
Qed.

Lemma stream_lines_total r : total (stream_lines consume r).
Proof.
  unfold stream_lines, finish_body, next_chunk, reject. destruct (is_success r).
  - apply total_bind; [apply read_chunks_total|]. intros pending. apply total_bind.
    + apply total_bind; [auto with total|]. intros []. destruct (ended r); auto with total.
    + intros []. case_bool_decide; auto using consume_line_total with total.
  - apply total_bind; [|auto with total]. apply total_lift. unfold read_bounded_error.
    destruct (retain _ _) as [b []]; [done|]. by destruct (ended r).
Qed.
End total.

(** * Errors of a provider *)

(** An error is quoted as it is or, when it is long, up to a boundary of its
    characters. *)
Lemma quote_error_bounds {E} quoted :
  ∃ q, quote_error (E := E) quoted = Done q ∧ (String.length q ≤ MAX_QUOTED_ERROR_BYTES + 3)%nat ∧
    ((String.length quoted ≤ MAX_QUOTED_ERROR_BYTES)%nat → q = quoted).
Proof.
  unfold quote_error. destruct (Nat.ltb_spec MAX_QUOTED_ERROR_BYTES (String.length quoted)) as [Hl|Hl].
  - destruct (truncate_floor (E := E) quoted MAX_QUOTED_ERROR_BYTES ltac:(lia)) as (kept & rest & -> & Hk & _). cbn [outcome_bind].
    eexists. split_and!; [done| |lia]. pose proof (str_len_app kept "…") as Ha. unfold str_len in Ha.
    change (String.length "…") with 3%nat in Ha. lia.
  - exists quoted. split_and!; [done|lia|done].
Qed.

Lemma stream_error_total `{!Json A} (error : A) : ∃ e, stream_error error = Done e.
Proof.
  unfold stream_error. destruct (context_overflow _) as [[p a]|]; [by eexists|].
  destruct (quote_error_bounds (E := AdapterError) (json_to_string error)) as (q & -> & _). by eexists.
Qed.

Lemma fail_stream_total `{!Json A} {S X} (error : A) : total (fail_stream error : Step S AdapterError X).
Proof. intros s. unfold fail_stream. destruct (stream_error_total error) as [e He]. by rewrite He. Qed.

Lemma dedup_head `{EqDecision X} (l : list X) : head (dedup l) = head l.
Proof. induction l as [|x [|y l] IH]; [done..|]. rewrite dedup_cons. by destruct (decide (x = y)) as [->|]. Qed.

Lemma dedup_adjacent `{EqDecision X} (l : list X) x y r : dedup l = x :: y :: r → x ≠ y.
Proof.
  induction l as [|z [|w l] IH]; [done..|]. rewrite dedup_cons. destruct (decide (z = w)) as [->|Hne]; [done|].
  pose proof (dedup_head (w :: l)) as Hh. revert Hh. generalize (dedup (w :: l)). intros d Hh [= -> ->].
  by injection Hh as <-.
Qed.

Lemma elem_of_rev {X} (x : X) l : x ∈ rev l ↔ x ∈ l.
Proof. by rewrite !list_elem_of_In, <-in_rev. Qed.

Lemma StronglySorted_rev {X} (R : relation X) l : StronglySorted R l → StronglySorted (flip R) (rev l).
Proof.
  induction 1 as [|x l Hl IH Hx]; simpl; [constructor|]. rewrite Forall_forall in Hx.
  assert (∀ y, y ∈ rev l → R x y) as Hr by (intros y Hy; rewrite elem_of_rev in Hy; by apply Hx).
  revert IH Hr. generalize (rev l). intros r Hr. induction Hr as [|y r Hsr IHr Hy]; intros Hxr; simpl; [repeat constructor|].
  constructor; [apply IHr; intros z Hz; apply Hxr; by right|]. apply Forall_app. split; [done|].
  repeat constructor. apply Hxr. by left.
Qed.

(** The counts of a rejection that names none: the two largest numbers, the
    larger one for the prompt. *)
Lemma token_counts_decreasing message p a l : token_counts message = p :: a :: l → (MIN_PLAUSIBLE_CONTEXT_TOKENS ≤ a < p)%N.
Proof.
  unfold token_counts. set (counts := filter _ _). intros Hc.
  assert (a ∈ counts) as Ha.
  { rewrite <-(elem_of_sort_on id), <-elem_of_rev, <-elem_of_dedup, Hc. by right; left. }
  apply list_elem_of_filter in Ha as [Ha _]. pose proof (dedup_adjacent _ _ _ _ Hc) as Hne.
  assert (StronglySorted (flip (key_le (K := N) id)) (p :: a :: l)) as Hs.
  { rewrite <-Hc. eapply sublist_StronglySorted; [apply dedup_sublist|]. apply StronglySorted_rev, sort_on_sorted. }
  inversion Hs as [|? ? _ Hp]; subst. apply Forall_cons in Hp as [Hp _]. unfold key_le in Hp. simpl in Hp.
  apply N.leb_le in Hp. unfold id in Hp. lia.
Qed.

Lemma overflow_counts `{!Json A} body p a :
  context_overflow body = Some (Some p, Some a) →
  (MIN_PLAUSIBLE_CONTEXT_TOKENS ≤ a < p)%N ∨
  ∃ message, number_after message PROMPT_PHRASES = Some p ∧ number_after message WINDOW_PHRASES = Some a.
Proof.
  unfold context_overflow. case_match; [|done]. set (message := error_text _ body).
  destruct (number_after message PROMPT_PHRASES) as [p'|] eqn:Hp, (number_after message WINDOW_PHRASES) as [a'|] eqn:Ha.
  { intros [= -> ->]. right. by exists message. }
  all: destruct (token_counts message) as [|p1 [|a1 l]] eqn:Ht; try done; intros [= -> ->]; left;
    by eapply token_counts_decreasing.
Qed.

(** * Requests *)

(** A request is sent once; a second time only when it can be copied and the
    first failed to connect or to be sent, not by a timeout. *)
Lemma send_with_retry_cases {B W} `{!HttpClient B W} (request : HttpRequest B) w :
  (∃ w' response, send request w = (inr response, w') ∧ send_with_retry request w = (w', Done response)) ∨
  (∃ w' first, send request w = (inl first, w') ∧
     (try_clone request = None ∨ is_retryable_send_error first = false) ∧
     send_with_retry request w = (w', Fail (transport_error first))) ∨
  (∃ w' first retry w'' second, send request w = (inl first, w') ∧ try_clone request = Some retry ∧
     is_retryable_send_error first = true ∧ send retry (sleep SEND_RETRY_DELAY w') = (second, w'') ∧
     send_with_retry request w = (w'', match second with
       | inr response => Done response | inl second => Fail (retry_error first second) end)).
Proof.
  unfold send_with_retry, ask, mbind, Step_bind. destruct (send request w) as [[first|response] w'] eqn:Hs; [|left; by eexists _, _].
  right. destruct (try_clone request) as [retry|] eqn:Hc; [|left; eexists _, _; split_and!; [done|by left|done]].
  destruct (is_retryable_send_error first) eqn:Hr; [|left; eexists _, _; split_and!; [done|by right|done]].
  right. simpl. destruct (send retry (sleep SEND_RETRY_DELAY w')) as [second w''] eqn:H2. exists w', first, retry, w'', second.
  split_and!; [done..|]. by destruct second.
Qed.

Lemma send_with_retry_total {B W} `{!HttpClient B W} (request : HttpRequest B) : total (send_with_retry request).
Proof.
  intros w. destruct (send_with_retry_cases request w) as [(w' & r & _ & ->)|[(w' & first & _ & _ & ->)|(w' & first & retry & w'' & second & _ & _ & _ & _ & ->)]];
    try done. by destruct second.
Qed.

(** How a response was cut into pieces on its way does not matter. A body that comes within its limits and
    in time has the effect of its lines taken one after another - split at line feeds, carriage
    returns before them dropped, text after the last one included - wherever the pieces were cut, even
    inside a character or between a carriage return and its line feed. Any other response is an error,
    and what was taken in before the error is the lines from the front of what came. *)
Lemma lines_of_any_split `{!Json A} {S} (consume : string → Step S AdapterError ()) r s :
  (Delivered r → stream_lines consume r s = feed consume (wire_lines (received r)) s) ∧
  (∀ s', stream_lines consume r s = (s', Done ()) → Delivered r) ∧
  consumed consume (wire_lines (received r)) s (stream_lines consume r s).1.
Proof.
  split_and!; [apply stream_lines_delivered|apply stream_lines_Done|apply stream_lines_consumed].
Qed.

(** * A body *)

#[export] Instance sample_json : Json string := {|
  json_from_str := inr; json_to_string := id; json_get _ _ := None; json_as_str := Some; json_null := "null";
  json_object _ := "{}" |}.

(** Its pieces are cut between a carriage return and its line feed and inside
    a character. *)
Definition sample_body : Response := {|
  status := 200; started := 0; ended := BodyComplete; end_asked := 3;
  chunks := [(0%N, chars ("one" +:+ of_chars ["013"%char])); (1%N, chars (of_chars ["010"; "195"]%char));
             (2%N, chars (of_chars ["169"; "010"; "x"]%char))] |}.

Definition collect (line : string) : Step (list string) AdapterError () := modify (λ l, l ++ [line]).

Lemma sample_body_delivered : Delivered sample_body.
Proof.
  apply delivered_iff. split_and!; [done|done|vm_compute; done|]. repeat split; vm_compute; done.
Qed.

Lemma lines_of_any_split_witness :
  stream_lines collect sample_body [] = (["one"; "é"; "x"], Done ()).
Proof.
  rewrite (proj1 (lines_of_any_split collect sample_body []) sample_body_delivered). vm_compute. reflexivity.
Defined.
