(* ===== verification/OpenAiSpec.v ===== *)
(** What the adapter for OpenAI-compatible endpoints makes of a response
    ([OpenAi]): its answer is put together from the events of the response, or
    is an error. Then the adapter as the engine's provider. *)
From Stdlib Require Import Ascii.
From S2P Require Import Prelude Effects Sensitive Policy Budget CallId Chat Compaction CompactionSpec Tools Transcript.
From S2P Require Import Engine PtyStream Adapters Ollama OpenAi AdaptersSpec.

(** Texts one after another. *)
Definition texts (l : list string) : string := foldr String.append "" l.

Lemma texts_snoc l s : texts (l ++ [s]) = texts l +:+ s.
Proof.
  induction l as [|x l IH]; simpl.
  - apply (inj chars). rewrite !chars_app. simpl. by rewrite app_nil_r.
  - rewrite IH. apply (inj chars). by rewrite !chars_app, app_assoc.
Qed.

Lemma append_empty s : s +:+ "" = s.
Proof. apply (inj chars). rewrite chars_app. simpl. by rewrite app_nil_r. Qed.

Lemma texts_option l (o : option string) : texts (l ++ option_list o) = texts l +:+ default "" o.
Proof. destruct o as [s|]; simpl; [apply texts_snoc|]. by rewrite app_nil_r, append_empty. Qed.

Lemma omap_snoc {X Y} (f : X → option Y) l x : omap f (l ++ [x]) = omap f l ++ option_list (f x).
Proof. rewrite omap_app. simpl. by destruct (f x). Qed.

Lemma last_option {X} (l : list X) o : last (l ++ option_list o) = match o with Some x => Some x | None => last l end.
Proof. destruct o; simpl; [apply last_snoc|by rewrite app_nil_r]. Qed.

(** * Events *)

(** What a line is: nothing, the end, a chunk, or an error. *)
Inductive Item (A : Type) : Type :=
| ItNothing
| ItDone
| ItChunk (chunk : OpenAiChunk A)
| ItBad.
Arguments ItNothing {A}.
Arguments ItDone {A}.
Arguments ItChunk {A}.
Arguments ItBad {A}.

Definition text_item {A} (chunk_from_str : string → string + OpenAiChunk A) (line : string) : Item A :=
  match strip_prefix "data:" (trim line) with
  | None => ItNothing
  | Some data =>
      let data := trim data in
      if bool_decide (data = "[DONE]") then ItDone
      else if bool_decide (data = "") then ItNothing
      else match chunk_from_str data with inl _ => ItBad | inr chunk => ItChunk chunk end
  end.

Definition item_of {A} (chunk_from_str : string → string + OpenAiChunk A) (line : bytes) : Item A :=
  match from_utf8 line with inl _ => ItBad | inr line => text_item chunk_from_str line end.

(** No error, and no choice but the one that was asked for. *)
Definition item_good {A} (item : Item A) : Prop :=
  match item with
  | ItBad => False
  | ItChunk chunk => ck_error chunk = None ∧ Forall (λ choice, ch_index choice = 0%N) (ck_choices chunk)
  | _ => True
  end.

Definition item_choices {A} (item : Item A) : list OpenAiChoice :=
  match item with ItChunk chunk => ck_choices chunk | _ => [] end.
Definition choices_of {A} (items : list (Item A)) : list OpenAiChoice := concat (item_choices <$> items).
Definition is_done {A} (item : Item A) : bool := match item with ItDone => true | _ => false end.

(** The parts of tool calls, in the order they came. *)
Definition parts_of (choices : list OpenAiChoice) : list OpenAiToolCallDelta :=
  concat ((λ choice, de_tool_calls (ch_delta choice)) <$> choices).

Definition part_name (d : OpenAiToolCallDelta) : option string := cd_function d ≫= fd_name.
Definition part_arguments (d : OpenAiToolCallDelta) : option string := cd_function d ≫= fd_arguments.

(** The call of an index: its parts put together. *)
Definition parts_at (parts : list OpenAiToolCallDelta) (index : N) : list OpenAiToolCallDelta :=
  filter (λ d, cd_index d = index) parts.
Definition gather (parts : list OpenAiToolCallDelta) (index : N) : ToolCallAccumulator := {|
  ta_id := texts (omap cd_id (parts_at parts index));
  ta_name := texts (omap part_name (parts_at parts index));
  ta_arguments := texts (omap part_arguments (parts_at parts index)) |}.

Definition indices (parts : list OpenAiToolCallDelta) : list N := sort_dedup id (cd_index <$> parts).

Fixpoint argument_bytes (parts : list OpenAiToolCallDelta) : N :=
  match parts with [] => 0 | d :: parts => str_len (default "" (part_arguments d)) + argument_bytes parts end.

Definition choice_reasoning (choice : OpenAiChoice) : option string :=
  match de_reasoning_content (ch_delta choice) with Some text => Some text | None => de_reasoning (ch_delta choice) end.
Definition choice_content (choice : OpenAiChoice) : option string := de_content (ch_delta choice).

(** The limits on tool calls. *)
Record Fits (parts : list OpenAiToolCallDelta) : Prop := {
  fits_calls : (length (indices parts) ≤ MAX_TOOL_CALLS)%nat;
  fits_arguments : (argument_bytes parts ≤ MAX_TOOL_ARGUMENT_BYTES)%N;
}.

(** * The closure *)

Record Holds (choices : list OpenAiChoice) (parts : list OpenAiToolCallDelta) (finished : bool) (s : Answer) : Prop := {
  holds_content : content s = texts (omap choice_content choices);
  holds_deltas : deltas s = omap choice_content choices;
  holds_reasoning : reasoning s = texts (omap choice_reasoning choices);
  holds_finish : finish_reason s = last (omap ch_finish_reason choices);
  holds_done : saw_done s = finished;
  holds_calls i : partial_calls s !! i = if decide (i ∈ cd_index <$> parts) then Some (gather parts i) else None;
  holds_bytes : tool_argument_bytes s = argument_bytes parts;
}.

Lemma holds_new : Holds [] [] false answer_new.
Proof. by split. Qed.

Lemma argument_bytes_snoc parts d :
  argument_bytes (parts ++ [d]) = (argument_bytes parts + str_len (default "" (part_arguments d)))%N.
Proof. induction parts as [|x parts IH]; simpl; [|rewrite IH]; lia. Qed.

Lemma parts_at_snoc parts d i :
  parts_at (parts ++ [d]) i = parts_at parts i ++ (if decide (cd_index d = i) then [d] else []).
Proof. unfold parts_at. by rewrite filter_app. Qed.

Lemma gather_other parts d i : cd_index d ≠ i → gather (parts ++ [d]) i = gather parts i.
Proof. intros Hi. unfold gather. rewrite parts_at_snoc, decide_False by done. by rewrite app_nil_r. Qed.

Lemma gather_snoc parts d :
  gather (parts ++ [d]) (cd_index d) =
  push_arguments (default "" (part_arguments d)) (push_name (part_name d) (push_id (cd_id d) (gather parts (cd_index d)))).
Proof.
  unfold gather, push_arguments, push_name, push_id. rewrite parts_at_snoc, decide_True by done. cbn.
  by rewrite !omap_snoc, !texts_option.
Qed.

Lemma gather_none parts i : i ∉ cd_index <$> parts → gather parts i = accumulator_new.
Proof.
  intros Hi. unfold gather, parts_at. replace (filter _ parts) with (@nil OpenAiToolCallDelta); [done|].
  symmetry. apply elem_of_nil_inv. intros d [He Hd]%list_elem_of_filter. apply Hi, list_elem_of_fmap. by exists d.
Qed.

Lemma holds_default choices parts finished s i :
  Holds choices parts finished s → default accumulator_new (partial_calls s !! i) = gather parts i.
Proof. intros Hs. rewrite (holds_calls _ _ _ _ Hs). case_decide; [done|]. symmetry. by apply gather_none. Qed.

Lemma holds_dom choices parts finished s :
  Holds choices parts finished s → dom (partial_calls s) = list_to_set (indices parts).
Proof.
  intros Hs. apply set_eq. intros i. rewrite elem_of_dom, (holds_calls _ _ _ _ Hs), elem_of_list_to_set.
  unfold indices. rewrite elem_of_sort_dedup. by case_decide; split.
Qed.

Lemma holds_size choices parts finished s :
  Holds choices parts finished s → size (partial_calls s) = length (indices parts).
Proof.
  intros Hs. rewrite <-size_dom, (holds_dom _ _ _ _ Hs), size_list_to_set; [done|]. apply sort_dedup_NoDup, _.
Qed.

Section openai.
Context {A : Type} `{!Json A} (chunk_from_str : string → string + OpenAiChunk A).

Lemma holds_call choices parts finished s d s' :
  Holds choices parts finished s →
  content s' = content s → deltas s' = deltas s → reasoning s' = reasoning s → finish_reason s' = finish_reason s →
  saw_done s' = saw_done s → tool_argument_bytes s' = argument_bytes (parts ++ [d]) →
  partial_calls s' = <[cd_index d := gather (parts ++ [d]) (cd_index d)]> (partial_calls s) →
  Holds choices (parts ++ [d]) finished s'.
Proof.
  intros [Hc Hd Hr Hf Hsd Hp Hb] Hc' Hd' Hr' Hf' Hsd' Hb' Hp'. split; try congruence.
  intros i. rewrite Hp', fmap_app. cbn [fmap list_fmap]. destruct (decide (cd_index d = i)) as [<-|Hi].
  - rewrite lookup_insert_eq. by rewrite decide_True by set_solver.
  - rewrite lookup_insert_ne by done. rewrite Hp, gather_other by done. repeat case_decide; set_solver.
Qed.

Lemma indices_grow parts d :
  length (indices (parts ++ [d])) =
  if decide (cd_index d ∈ cd_index <$> parts) then length (indices parts) else S (length (indices parts)).
Proof.
  unfold indices. rewrite fmap_app. cbn [fmap list_fmap]. case_decide as Hd.
  - f_equal. apply sort_dedup_ext; [apply _|]. intros x. rewrite elem_of_app, list_elem_of_singleton. naive_solver.
  - change (S ?n) with (length (cd_index d :: sort_dedup id (cd_index <$> parts))). apply Permutation_length, NoDup_Permutation.
    + apply sort_dedup_NoDup, _.
    + constructor; [by rewrite elem_of_sort_dedup|apply sort_dedup_NoDup, _].
    + intros i. rewrite elem_of_cons, !elem_of_sort_dedup, elem_of_app, list_elem_of_singleton. tauto.
Qed.

Lemma wp_add_call choices parts finished d s :
  Holds choices parts finished s → Fits parts →
  wp (add_call d) (λ _ s', Holds choices (parts ++ [d]) finished s' ∧ Fits (parts ++ [d])) (λ _ _, ¬ Fits (parts ++ [d])) s.
Proof.
  intros Hs [Hn Hb]. unfold add_call. rewrite wp_bind, wp_get, wp_bind, wp_ensure.
  pose proof (indices_grow parts d) as Hgrow. rewrite (holds_size _ _ _ _ Hs).
  assert (bool_decide (is_Some (partial_calls s !! cd_index d)) = bool_decide (cd_index d ∈ cd_index <$> parts)) as ->.
  { apply bool_decide_ext. rewrite (holds_calls _ _ _ _ Hs). by case_decide; split. }
  destruct (bool_decide (cd_index d ∈ cd_index <$> parts) || (length (indices parts) <? MAX_TOOL_CALLS)%nat) eqn:Hroom.
  2:{ apply orb_false_iff in Hroom as [Hnew%bool_decide_eq_false Hfull%Nat.ltb_ge]. intros [Hn' _].
      rewrite Hgrow, decide_False in Hn' by done. lia. }
  assert (length (indices (parts ++ [d])) ≤ MAX_TOOL_CALLS)%nat as Hn'.
  { rewrite Hgrow. apply orb_true_iff in Hroom as [Hin%bool_decide_eq_true|Hlt%Nat.ltb_lt]; [by rewrite decide_True|].
    case_decide; lia. }
  pose proof (gather_snoc parts d) as Hg. rewrite <-(holds_default _ _ _ _ _ Hs) in Hg.
  pose proof (argument_bytes_snoc parts d) as Hab. unfold part_arguments, part_name in *.
  assert (Hdone : ∀ s', content s' = content s → deltas s' = deltas s → reasoning s' = reasoning s →
    finish_reason s' = finish_reason s → saw_done s' = saw_done s → tool_argument_bytes s' = argument_bytes (parts ++ [d]) →
    partial_calls s' = <[cd_index d := gather (parts ++ [d]) (cd_index d)]> (partial_calls s) →
    (argument_bytes (parts ++ [d]) ≤ MAX_TOOL_ARGUMENT_BYTES)%N → Holds choices (parts ++ [d]) finished s' ∧ Fits (parts ++ [d])).
  { intros s' ? ? ? ? ? ? ? ?. split; [by apply (holds_call choices parts finished s d)|by split]. }
  pose proof (holds_bytes _ _ _ _ Hs) as Hbytes.
  assert (Hnil : ∀ x, push_arguments "" x = x).
  { intros [i n a]. unfold push_arguments. simpl. by rewrite append_empty. }
  rewrite wp_bind, wp_modify. destruct (cd_function d) as [f|]; simpl in Hg, Hab.
  2:{ change (str_len "") with 0%N in Hab. rewrite wp_ret. apply Hdone; simpl; try done; [lia| |lia]. rewrite Hg, Hnil. unfold push_name. simpl.
      by rewrite append_empty. }
  rewrite wp_bind, wp_modify. destruct (fd_arguments f) as [a|] eqn:Ha; simpl in Hg, Hab.
  2:{ change (str_len "") with 0%N in Hab. rewrite wp_ret. apply Hdone; simpl; try done; [lia| |lia]. rewrite Hg, Hnil, lookup_insert_eq, insert_insert_eq. done. }
  rewrite wp_bind, wp_get, wp_bind, wp_lift. unfold add_argument_bytes. cbn [tool_argument_bytes set_call]. rewrite Hbytes, <-Hab.
  assert (N.min U64_MAX MAX_TOOL_ARGUMENT_BYTES = MAX_TOOL_ARGUMENT_BYTES) as -> by done.
  destruct (N.leb_spec (argument_bytes (parts ++ [d])) MAX_TOOL_ARGUMENT_BYTES) as [Hle|Hlt]; [|by intros [_ ?]; lia].
  rewrite wp_bind, !wp_modify. apply Hdone; simpl; try done. rewrite Hg, !lookup_insert_eq, !insert_insert_eq. done.
Qed.

Lemma indices_app_le parts more : (length (indices parts) ≤ length (indices (parts ++ more)))%nat.
Proof.
  revert parts. induction more as [|d more IH]; intros parts; [by rewrite app_nil_r|].
  rewrite cons_middle, app_assoc. etrans; [|apply IH]. rewrite indices_grow. case_decide; lia.
Qed.

Lemma argument_bytes_app parts more : argument_bytes (parts ++ more) = (argument_bytes parts + argument_bytes more)%N.
Proof. induction parts as [|d parts IH]; simpl; [done|]. rewrite IH. lia. Qed.

Lemma fits_app parts more : Fits (parts ++ more) → Fits parts.
Proof. intros [Hn Hb]. pose proof (indices_app_le parts more). rewrite argument_bytes_app in Hb. split; lia. Qed.

Lemma wp_add_calls choices parts finished ds s :
  Holds choices parts finished s → Fits parts →
  wp (add_calls ds) (λ _ s', Holds choices (parts ++ ds) finished s' ∧ Fits (parts ++ ds)) (λ _ _, ¬ Fits (parts ++ ds)) s.
Proof.
  revert parts s. induction ds as [|d ds IH]; intros parts s Hs Hf; simpl; [rewrite wp_ret, app_nil_r; done|].
  rewrite wp_bind. eapply wp_wand; [by apply wp_add_call| |]; cbv beta.
  - intros _ s' [Hs' Hf']. rewrite cons_middle, app_assoc. by apply IH.
  - intros _ _ Hn Hf'. apply Hn. rewrite cons_middle, app_assoc in Hf'. by eapply fits_app.
Qed.

Lemma holds_texts choices parts finished s choice :
  Holds choices parts finished s → Holds (choices ++ [choice]) parts finished (add_texts choice s).
Proof.
  intros [Hc Hd Hr Hf Hsd Hp Hb]. split; simpl; try done; rewrite ?omap_snoc, ?texts_option, ?last_option.
  - by rewrite Hc.
  - by rewrite Hd.
  - by rewrite Hr.
  - by rewrite Hf.
Qed.

Lemma parts_of_app choices more : parts_of (choices ++ more) = parts_of choices ++ parts_of more.
Proof. unfold parts_of. by rewrite fmap_app, concat_app. Qed.

Lemma parts_of_snoc choices choice : parts_of (choices ++ [choice]) = parts_of choices ++ de_tool_calls (ch_delta choice).
Proof. rewrite parts_of_app. unfold parts_of at 2. simpl. by rewrite app_nil_r. Qed.

Abbreviation one_choice choices := (Forall (λ choice, ch_index choice = 0%N) choices).

(** What is so after the chunks so far. *)
Definition Kept (choices : list OpenAiChoice) (finished : bool) (s : Answer) : Prop :=
  Holds choices (parts_of choices) finished s ∧ Fits (parts_of choices).

Lemma wp_add_choices choices more finished s :
  Kept choices finished s →
  wp (add_choices more) (λ _ s', Kept (choices ++ more) finished s' ∧ one_choice more)
    (λ _ _, ¬ (one_choice more ∧ Fits (parts_of (choices ++ more)))) s.
Proof.
  revert choices s. induction more as [|choice more IH]; intros choices s [Hs Hf]; simpl.
  { rewrite wp_ret, app_nil_r. split; [by split|constructor]. }
  rewrite wp_bind, wp_ensure. destruct (N.eqb_spec (ch_index choice) 0) as [Hi|Hi]; [|by intros [[? _]%Forall_cons _]].
  rewrite wp_bind, wp_modify, wp_bind. eapply wp_wand; [apply wp_add_calls; [by apply holds_texts|done]| |]; cbv beta.
  - intros _ s' Hs'. rewrite cons_middle, app_assoc. eapply wp_wand; [apply IH| |]; cbv beta.
    + unfold Kept. by rewrite parts_of_snoc.
    + intros _ s2 [Hk Hm]. split; [done|]. by constructor.
    + intros _ s2 Hn [[_ Hm]%Forall_cons Hf']. by apply Hn.
  - intros _ s' Hn [_ Hf']. apply Hn. rewrite cons_middle, app_assoc, parts_of_app, parts_of_snoc in Hf'.
    by eapply fits_app.
Qed.

(** The choices of the items so far, and whether the end was among them. *)
Definition Accepted (items : list (Item A)) : Prop :=
  Forall item_good items ∧ Fits (parts_of (choices_of items)).
Definition Read (items : list (Item A)) (s : Answer) : Prop :=
  Kept (choices_of items) (existsb is_done items) s.

Lemma choices_of_snoc (items : list (Item A)) item : choices_of (items ++ [item]) = choices_of items ++ item_choices item.
Proof. unfold choices_of. rewrite fmap_app, concat_app. simpl. by rewrite app_nil_r. Qed.

Lemma accepted_app items more : Accepted (items ++ more) → Accepted items.
Proof.
  intros [[Hg _]%Forall_app Hf]. split; [done|]. unfold choices_of in *. rewrite fmap_app, concat_app, parts_of_app in Hf.
  by eapply fits_app.
Qed.

Lemma wp_consume items line s :
  Read items s → Forall item_good items →
  wp (consume_line (consume chunk_from_str) line)
    (λ _ s', Read (items ++ [item_of chunk_from_str line]) s' ∧ Forall item_good (items ++ [item_of chunk_from_str line]))
    (λ _ _, ¬ Accepted (items ++ [item_of chunk_from_str line])) s.
Proof.
  intros Hs Hg.
  assert (Hgood : ∀ item, Forall item_good (items ++ [item]) ↔ item_good item).
  { intros item. rewrite Forall_app, Forall_singleton. tauto. }
  assert (Hread : ∀ item s', Kept (choices_of items ++ item_choices item) (existsb is_done items || is_done item) s' →
    Read (items ++ [item]) s').
  { intros item s'. unfold Read. rewrite choices_of_snoc, existsb_app. simpl. by rewrite orb_false_r. }
  assert (Hskip : Kept (choices_of items ++ []) (existsb is_done items || false) s) by by rewrite app_nil_r, orb_false_r.
  unfold consume_line, item_of, text_item, consume.
  destruct (from_utf8 line) as [|t]; [rewrite wp_throw; unfold Accepted; rewrite Hgood; simpl; tauto|].
  destruct (strip_prefix "data:" (trim t)) as [data|]; [|rewrite wp_ret, Hgood; split; [by apply Hread|done]].
  cbv zeta. case_bool_decide.
  { rewrite wp_modify, Hgood. split; [|done]. apply Hread. simpl. rewrite app_nil_r, orb_true_r.
    destruct Hs as [[? ? ? ? _ ? ?] ?]. by split. }
  case_bool_decide; [rewrite wp_ret, Hgood; split; [by apply Hread|done]|].
  destruct (chunk_from_str (trim data)) as [|chunk]; [rewrite wp_throw; unfold Accepted; rewrite Hgood; simpl; tauto|].
  unfold add_chunk. destruct (ck_error chunk) as [e|] eqn:He.
  - unfold fail_stream. rewrite wp_bind, wp_lift. destruct (stream_error_total e) as [e' ->]. rewrite wp_throw.
    unfold Accepted. rewrite Hgood. simpl. rewrite He. naive_solver.
  - eapply wp_wand; [by apply (wp_add_choices (choices_of items) _ (existsb is_done items))| |]; cbv beta.
    + intros _ s' [Hk Ho]. rewrite Hgood. split; [apply Hread; simpl; by rewrite orb_false_r|by split].
    + intros _ s' Hn [Ha Hf]. rewrite Hgood in Ha. rewrite choices_of_snoc in Hf. simpl in Ha, Hf. by destruct Hn; split; [apply Ha|].
Qed.

Lemma wp_feed items lines s :
  Read items s → Forall item_good items →
  wp (feed (consume chunk_from_str) lines)
    (λ _ s', Read (items ++ (item_of chunk_from_str <$> lines)) s' ∧
      Forall item_good (items ++ (item_of chunk_from_str <$> lines)))
    (λ _ _, ¬ Accepted (items ++ (item_of chunk_from_str <$> lines))) s.
Proof.
  revert items s. induction lines as [|line lines IH]; intros items s Hs Hg; cbn [feed].
  { rewrite wp_ret. cbn [fmap list_fmap]. by rewrite app_nil_r. }
  rewrite fmap_cons, cons_middle, app_assoc, wp_bind. eapply wp_wand; [by apply wp_consume| |]; cbv beta.
  - intros _ s' [Hs' Hg']. by apply IH.
  - intros _ _ Hn Ha. by apply Hn, (accepted_app _ (item_of chunk_from_str <$> lines)).
Qed.

(** * The answer *)

Lemma elem_of_indices parts i : i ∈ indices parts ↔ i ∈ cd_index <$> parts.
Proof. unfold indices. by rewrite elem_of_sort_dedup. Qed.

(** The entries of the accumulated calls, by index. *)
Lemma holds_entries choices parts finished s :
  Holds choices parts finished s →
  sort_on fst (map_to_list (partial_calls s)) = (λ i, (i, gather parts i)) <$> indices parts.
Proof.
  intros Hs. set (entries := (λ i, (i, gather parts i)) <$> indices parts).
  assert (entries.*1 = indices parts) as Hfst.
  { unfold entries. rewrite <-list_fmap_compose. by apply list_fmap_id. }
  assert (NoDup (indices parts)) as Hnd by apply sort_dedup_NoDup, _.
  rewrite <-(sort_on_id fst entries).
  - apply sort_on_perm; [apply NoDup_fst_map_to_list|]. apply NoDup_Permutation; [apply NoDup_map_to_list|..].
    + apply (NoDup_fmap_1 fst). by rewrite Hfst.
    + intros [i acc]. rewrite elem_of_map_to_list, (holds_calls _ _ _ _ Hs). etrans; [|symmetry; apply list_elem_of_fmap].
      case_decide as Hi; split; [|by intros (j & [= -> ->] & _)|done|by intros (j & [= -> ->] & Hj%elem_of_indices)].
      intros [= <-]. exists i. by rewrite elem_of_indices.
  - pose proof (sort_dedup_sorted id (cd_index <$> parts)) as Hst. fold (indices parts) in Hst. unfold entries. clear - Hst.
    induction Hst as [|i l Hl IH Hi]; simpl; constructor; [done|]. apply Forall_fmap. by eapply Forall_impl.
Qed.

(** A call and what it is put together from. *)
Record MadeFrom (index : N) (parts : ToolCallAccumulator) (call : ToolCall A) : Prop := {
  made_name : call_name call = ta_name parts ∧ ta_name parts ≠ "";
  made_id : call_id call = if bool_decide (ta_id parts = "") then "openai-call-" +:+ fmt_N index else ta_id parts;
  made_arguments :
    if blank (ta_arguments parts) then call_arguments call = json_object []
    else json_from_str (ta_arguments parts) = inr (call_arguments call);
}.

Lemma finish_call_made index acc call : finish_call (index, acc) = Done call ↔ MadeFrom index acc call.
Proof.
  unfold finish_call. case_bool_decide as Hn; [split; [done|by intros [[_ ?] _ _]]|].
  destruct (blank (ta_arguments acc)) eqn:Hb; cbn [outcome_bind].
  - split; [intros [= <-]; split; simpl; try done; by rewrite Hb|]. intros [[Hname _] Hid Ha]. rewrite Hb in Ha.
    destruct call. simpl in *. by subst.
  - split.
    + destruct (json_from_str _) as [|v] eqn:Hj; [done|]. intros [= <-]. split; simpl; try done. by rewrite Hb.
    + intros [[Hname _] Hid Ha]. rewrite Hb in Ha. rewrite Ha. destruct call. simpl in *. by subst.
Qed.

Definition finished_normally (reason : option string) : Prop :=
  match reason with None => True | Some reason => reason ∈ ["stop"; "tool_calls"; "function_call"] end.

Lemma dispatchable complete reason n :
  require_dispatchable complete reason n = Done () ↔ n = 0 ∨ (complete = true ∧ finished_normally reason).
Proof.
  unfold require_dispatchable, finished_normally. destruct (Nat.eqb_spec n 0) as [->|Hn]; [by split; [left|]|].
  destruct complete; simpl; [|split; [done|intros [?|[? _]]; done]].
  destruct reason as [reason|]; [|by split; [right|]]. case_bool_decide; [by split; [right|]|].
  repeat case_bool_decide; (split; [done|intros [?|[_ ?]]; done]).
Qed.

Definition texts_option_of (text : string) : option string := if bool_decide (text = "") then None else Some text.

(** The answer that items make. *)
Record AnswerOf (items : list (Item A)) (r : AssistantResponse A) : Prop := {
  answer_content : resp_content r = texts (omap choice_content (choices_of items));
  answer_reasoning : resp_reasoning r = texts_option_of (texts (omap choice_reasoning (choices_of items)));
  answer_finish : resp_finish_reason r = last (omap ch_finish_reason (choices_of items));
  answer_calls :
    Forall2 (λ i call, MadeFrom i (gather (parts_of (choices_of items)) i) call)
      (indices (parts_of (choices_of items))) (resp_tool_calls r);
  answer_dispatch : resp_tool_calls r ≠ [] →
    (ItDone ∈ items ∨ is_Some (resp_finish_reason r)) ∧ finished_normally (resp_finish_reason r);
}.

Lemma is_done_in (items : list (Item A)) : existsb is_done items = true ↔ ItDone ∈ items.
Proof.
  rewrite existsb_elem_of. split; [intros (item & Hi & Hd); by destruct item|]. intros Hi. by exists ItDone.
Qed.

Lemma answer_response_of items s r : Read items s → answer_response s = Done r ↔ AnswerOf items r.
Proof.
  intros [Hs _]. unfold answer_response. rewrite (holds_entries _ _ _ _ Hs), (holds_size _ _ _ _ Hs).
  rewrite (holds_finish _ _ _ _ Hs), (holds_done _ _ _ _ Hs), (holds_content _ _ _ _ Hs), (holds_reasoning _ _ _ _ Hs).
  set (parts := parts_of (choices_of items)). set (reason := last _). rewrite bind_Done. split.
  - intros ([] & Hd%dispatchable & H). apply bind_Done in H as (calls & Hc%outcome_map_Done & [= <-]).
    apply Forall2_fmap_l in Hc. split; simpl; try done.
    + eapply Forall2_impl; [exact Hc|]. intros i call. apply finish_call_made.
    + intros Hne. apply Forall2_length in Hc. destruct Hd as [Hd|[Hd Hf]]; [destruct calls; simpl in *; [done|lia]|].
      split; [|done]. apply orb_true_iff in Hd as [Hd%is_done_in|Hd%bool_decide_eq_true]; [by left|by right].
  - intros [Hc Hr Hf Hcalls Hd]. exists (). rewrite dispatchable, bind_Done. split.
    + pose proof (Forall2_length _ _ _ Hcalls) as Hlen. destruct (resp_tool_calls r) as [|call calls]; [by left|].
      right. destruct Hd as [Hd Hn]; [done|]. rewrite Hf in Hd, Hn. split; [|done]. apply orb_true_iff.
      destruct Hd as [Hd|Hd]; [left; by apply is_done_in|right; by apply bool_decide_eq_true].
    + exists (resp_tool_calls r). split.
      * apply outcome_map_Done, Forall2_fmap_l. eapply Forall2_impl; [exact Hcalls|]. intros i call. apply finish_call_made.
      * destruct r. simpl in *. by rewrite Hc, Hr, Hf.
Qed.

(** ** Without a panic *)

Lemma add_argument_bytes_total n m : add_argument_bytes n m ≠ Panic.
Proof. unfold add_argument_bytes. by case_match. Qed.

Lemma add_calls_total ds : total (add_calls ds).
Proof.
  induction ds as [|d ds IH]; simpl; [done|]. apply total_bind; [|done]. unfold add_call.
  apply total_bind; [done|intros s]. apply total_bind; [auto with total|intros []]. apply total_bind; [done|intros []].
  destruct (cd_function d) as [f|]; [|done]. apply total_bind; [done|intros []]. destruct (fd_arguments f); [|done].
  apply total_bind; [done|intros s']. apply total_bind; [apply total_lift, add_argument_bytes_total|auto with total].
Qed.

Lemma consume_total line : total (consume chunk_from_str line).
Proof.
  unfold consume. destruct (strip_prefix _ _) as [data|]; [|done]. cbv zeta. case_bool_decide; [done|]. case_bool_decide; [done|].
  destruct (chunk_from_str _) as [|chunk]; [done|]. unfold add_chunk. destruct (ck_error chunk); [apply fail_stream_total|].
  induction (ck_choices chunk) as [|choice choices IH]; simpl; [done|].
  repeat (apply total_bind; [auto using add_calls_total with total|intros ?]). done.
Qed.

Lemma answer_response_total s : answer_response s ≠ Panic.
Proof.
  assert (Hcall : ∀ entry, finish_call entry ≠ Panic).
  { intros [i acc]. unfold finish_call. case_bool_decide; [done|]. destruct (blank _); [|destruct (json_from_str _)]; done. }
  assert (Hcalls : ∀ l, outcome_map finish_call l ≠ Panic).
  { induction l as [|entry l IH]; [done|]. cbn [outcome_map]. pose proof (Hcall entry).
    destruct (finish_call entry); [|done..]. simpl. by destruct (outcome_map finish_call l). }
  assert (Hd : ∀ b o n, require_dispatchable b o n ≠ Panic).
  { intros b o n. unfold require_dispatchable. repeat case_match; done. }
  unfold answer_response. set (d := require_dispatchable _ _ _). pose proof (Hd _ _ _ : d ≠ Panic) as Hdp.
  destruct d; [|done..]. simpl. specialize (Hcalls (sort_on fst (map_to_list (partial_calls s)))).
  by destruct (outcome_map _ _).
Qed.

Context {W : Type} `{!HttpClient (OpenAiRequest A) W}.

(** The items of a response. *)
Definition items_of (r : Response) : list (Item A) := item_of chunk_from_str <$> wire_lines (received r).

(** The closure over a whole body. *)
Lemma wp_openai_answer response :
  Delivered response →
  wp (stream_lines (consume chunk_from_str) response) (λ _ s, Read (items_of response) s ∧ Forall item_good (items_of response))
    (λ _ _, ¬ Accepted (items_of response)) answer_new.
Proof.
  intros Hd. unfold wp. rewrite stream_lines_delivered by done. apply (wp_feed [] _ answer_new); [|constructor].
  split; [exact holds_new|]. split; [apply Nat.le_0_l|apply N.le_0_l].
Qed.

Lemma chat_stream_total a request : total (chat_stream (W := W) chunk_from_str a request).
Proof.
  unfold chat_stream. apply total_bind; [|intros response; apply total_bind].
  - intros wire. unfold sending, zoom. pose proof (send_with_retry_total (http_request a request) (wire_world wire)) as Ht.
    by destruct (send_with_retry _ _) as [w r1].
  - intros wire. unfold accumulating. pose proof (stream_lines_total _ consume_total response answer_new) as Ht.
    by destruct (stream_lines _ _ _) as [s [[]|e|]].
  - intros s. apply total_lift, answer_response_total.
Qed.

(** C10: What the engine gets from an endpoint is what the endpoint said. The adapter gives an answer exactly
    when the response came to its end within its limits, every line of it was an event it understands,
    none of them an error, and the answer is the events put together: the content and the reasoning are
    the pieces one after another, the last reason given is the finish reason, and the tool calls are
    those of the indices that occur, in order, each with its name and its arguments pieced together and
    read as JSON, no more than 256 and no longer than the limit. There are tool calls in it only when
    the response was marked as finished and its reason is a normal one. What was shown meanwhile is the
    content. Nothing panics. *)
Theorem openai_answer_is_assembled a request (wire wire' : Wire W) r :
  (chat_stream chunk_from_str a request wire = (wire', Done r) ↔
   ∃ w response, send_with_retry (http_request a request) (wire_world wire) = (w, Done response) ∧
     Delivered response ∧ Accepted (items_of response) ∧ AnswerOf (items_of response) r ∧
     wire' = {| wire_world := w; shown := shown wire ++ omap choice_content (choices_of (items_of response)) |}) ∧
  (chat_stream chunk_from_str a request wire).2 ≠ Panic.
Proof.
  pose proof wp_openai_answer as Hread.
  unfold chat_stream. split.
  - rewrite step_bind_Done. split.
    + intros (response & wire1 & Hsend & H). apply step_bind_Done in H as (s & wire2 & Hacc & [-> Hr]%lift_Done).
      unfold sending, zoom in Hsend. destruct (send_with_retry _ _) as [w r1] eqn:Hs. injection Hsend as <- ->.
      unfold accumulating in Hacc. destruct (stream_lines _ response answer_new) as [acc r2] eqn:Hl.
      destruct r2 as [[]|e|]; try discriminate Hacc. injection Hacc as <- <-. exists w, response.
      pose proof (stream_lines_Done _ _ _ _ Hl) as Hd. destruct (wp_Done _ _ _ _ _ _ (Hread _ Hd) Hl) as [Hk Hg].
      split_and!; [done|done|by split; [|apply Hk]|by apply (answer_response_of _ acc)|].
      by rewrite <-(holds_deltas _ _ _ _ (proj1 Hk)).
    + intros (w & response & Hs & Hd & Ha & Hr & ->). exists response, {| wire_world := w; shown := shown wire |}.
      unfold sending, zoom. rewrite Hs. split; [done|]. rewrite step_bind_Done.
      destruct (wp_run _ _ _ _ (Hread _ Hd)) as (s & [([] & Hl & Hk & _)|(e & _ & Hn)]); [|done].
      exists s, {| wire_world := w; shown := shown wire ++ deltas s |}. unfold accumulating. rewrite Hl. split; [done|].
      apply lift_Done. rewrite (holds_deltas _ _ _ _ (proj1 Hk)). split; [done|]. by apply (answer_response_of (items_of response)).
  - apply chat_stream_total.
Qed.
End openai.

(** * A response *)

Definition sample_choice (text : option string) (parts : list OpenAiToolCallDelta) (reason : option string) : OpenAiChoice := {|
  ch_index := 0; ch_finish_reason := reason;
  ch_delta := {| de_content := text; de_reasoning_content := None; de_reasoning := None; de_tool_calls := parts |} |}.
Definition sample_part (id name arguments : option string) : OpenAiToolCallDelta := {|
  cd_index := 0; cd_id := id; cd_function := Some {| fd_name := name; fd_arguments := arguments |} |}.

Definition sample_chunk (data : string) : string + OpenAiChunk string :=
  let chunk choice := inr {| ck_choices := [choice]; ck_error := None |} in
  if bool_decide (data = "text") then chunk (sample_choice (Some "Let me ") [] None)
  else if bool_decide (data = "call") then
    chunk (sample_choice (Some "look.") [sample_part (Some "c1") (Some "read") None] None)
  else if bool_decide (data = "arguments") then chunk (sample_choice None [sample_part None None (Some "[1]")] (Some "tool_calls"))
  else inl "expected value".

Definition sample_response : Response := {|
  status := 200; started := 0; ended := BodyComplete; end_asked := 2;
  chunks := [(0%N, chars ("data: text" +:+ of_chars [newline; newline] +:+ "data:ca"));
             (1%N, chars ("ll" +:+ of_chars ["013"%char; newline] +:+ "data: arguments" +:+ of_chars [newline]))] |}.

#[export] Instance sample_client : HttpClient (OpenAiRequest string) () := {|
  send _ w := (inr sample_response, w); try_clone := Some; sleep _ w := w |}.

Definition sample_adapter : OpenAiCompatibleAdapter := openai_new "http://localhost/v1//" "small" None.

Example sample_endpoint : endpoint sample_adapter = "http://localhost/v1/chat/completions".
Proof. vm_compute. reflexivity. Qed.

Definition sample_request : ChatRequest string := {| cr_messages := [msg_user "look"]; cr_tools := [] |}.
Definition sample_answer : AssistantResponse string := {|
  resp_content := "Let me look."; resp_reasoning := None; resp_finish_reason := Some "tool_calls";
  resp_tool_calls := [{| call_id := "c1"; call_name := "read"; call_arguments := "[1]" |}] |}.

Lemma openai_answer_is_assembled_witness :
  AnswerOf (items_of sample_chunk sample_response) sample_answer ∧
  chat_stream sample_chunk sample_adapter sample_request {| wire_world := (); shown := [] |} =
    ({| wire_world := (); shown := ["Let me "; "look."] |}, Done sample_answer).
Proof.
  assert (chat_stream sample_chunk sample_adapter sample_request {| wire_world := (); shown := [] |} =
    ({| wire_world := (); shown := ["Let me "; "look."] |}, Done sample_answer)) as Hrun by (vm_compute; reflexivity).
  split; [|exact Hrun].
  destruct (proj1 (proj1 (openai_answer_is_assembled sample_chunk sample_adapter sample_request
    {| wire_world := (); shown := [] |} _ sample_answer)) Hrun) as (w & response & Hs & _ & _ & Ha & _).
  vm_compute in Hs. injection Hs as _ <-. exact Ha.
Defined.

(** ** The engine's provider

    What [Engine.World] leaves open about a request is filled in with
    [OpenAi.chat_stream]. Waiting for the answer is left when the turn is
    cancelled or its time is over; that is the engine's choice, so the answer
    here is one that was waited for. *)

(** The error as the engine knows it: an overflow, or its text. *)
Definition engine_error (e : Adapters.AdapterError) : Engine.AdapterError :=
  match e with
  | AdContextOverflow prompt available => ContextOverflow prompt available
  | e => OtherAdapterError (adapter_error_text e)
  end.

Lemma engine_error_text e : adapter_message (engine_error e) = adapter_error_text e.
Proof. by destruct e. Qed.

Section providers.
Context {A W : Type} `{!Json A, !HttpClient (OpenAiRequest A) W}.
Context (chunk_from_str : string → string + OpenAiChunk A) (definition : Tool → ToolDefinition A).
Context (adapter : OpenAiCompatibleAdapter).

Definition chat (w : W) (messages : list (ChatMessage A)) (tools : list Tool) : ChatAnswer * W :=
  let '(wire, r) := chat_stream chunk_from_str adapter {| cr_messages := messages; cr_tools := definition <$> tools |}
                      {| wire_world := w; shown := [] |} in
  ({| answer_deltas := shown wire;
      answer_outcome := match r with
        | Done r => ProviderResponse r
        | Fail e => ProviderError (engine_error e)
        | Panic => ProviderCancelled
        end |}, wire_world wire).

Lemma texts_concat l : String.concat "" l = texts l.
Proof.
  induction l as [|s l IH]; [done|]. destruct l as [|t l]; [symmetry; apply append_empty|]. simpl in *. by rewrite IH.
Qed.

(** What the user saw of an answer is what goes into the transcript. *)
Lemma shown_is_recorded w messages tools r w' deltas :
  chat w messages tools = ({| answer_deltas := deltas; answer_outcome := ProviderResponse r |}, w') →
  String.concat "" deltas = resp_content r.
Proof.
  unfold chat. destruct (chat_stream _ _ _ _) as [wire [r'|e|]] eqn:Hrun; [|done..]. intros [= <- -> _].
  unfold chat_stream in Hrun. rewrite step_bind_Done in Hrun. destruct Hrun as (response & wire1 & Hsend & H).
  apply step_bind_Done in H as (s & wire2 & Hacc & [-> Hr]%lift_Done).
  unfold sending, zoom in Hsend. destruct (send_with_retry _ _) as [w1 r1]. injection Hsend as <- ->.
  unfold accumulating in Hacc. destruct (stream_lines _ response answer_new) as [acc r2] eqn:Hl.
  destruct r2 as [[]|e|]; try discriminate Hacc. injection Hacc as <- <-. simpl.
  pose proof (stream_lines_Done _ _ _ _ Hl) as Hd. pose proof (wp_openai_answer chunk_from_str _ Hd) as Hw.
  destruct (wp_Done _ _ _ _ _ _ Hw Hl) as [Hk _]. rewrite (holds_deltas _ _ _ _ (proj1 Hk)), texts_concat.
  by rewrite (answer_content _ _ (proj1 (answer_response_of _ acc r Hk) Hr)).
Qed.

(** The engine is never told that it was cancelled by an adapter. *)
Lemma chat_never_cancelled w messages tools : answer_outcome (chat w messages tools).1 ≠ ProviderCancelled.
Proof.
  unfold chat. pose proof (chat_stream_total chunk_from_str adapter {| cr_messages := messages; cr_tools := definition <$> tools |}
    {| wire_world := w; shown := [] |}) as Ht.
  by destruct (chat_stream _ _ _ _) as [wire [r|e|]].
Qed.
End providers.
