(* ===== verification/OllamaSpec.v ===== *)
(** What the Ollama adapter makes of a response ([Ollama]): its answer is put
    together from the lines of the response, or is an error. *)
From Stdlib Require Import Ascii.
From S2P Require Import Prelude Budget Compaction CompactionSpec CallId Chat PtyStream Effects.
From S2P Require Import Adapters AdaptersSpec OpenAiSpec Ollama.

Section ollama.
Context {A : Type} `{!Json A} (chunk_from_str : string → string + OllamaChunk A).
Implicit Types (chunk : OllamaChunk A) (call : OllamaFunctionCall A).

(** What a line is: nothing, a chunk, or an error. *)
Definition chunk_of (line : bytes) : option (option (OllamaChunk A)) :=
  match from_utf8 line with
  | inl _ => None
  | inr line =>
      if blank line then Some None
      else match chunk_from_str line with inl _ => None | inr chunk => Some (Some chunk) end
  end.

(** The chunks of lines, if each is one or nothing. *)
Fixpoint chunks_of_lines (lines : list bytes) : option (list (OllamaChunk A)) :=
  match lines with
  | [] => Some []
  | line :: lines => o ← chunk_of line; l ← chunks_of_lines lines; Some (option_list o ++ l)
  end.

Definition calls_in (chunks : list (OllamaChunk A)) : list (OllamaFunctionCall A) := concat (oc_tool_calls <$> chunks).

Fixpoint argument_bytes (calls : list (OllamaFunctionCall A)) : N :=
  match calls with [] => 0 | call :: calls => str_len (json_to_string (ofc_arguments call)) + argument_bytes calls end.

(** The calls of a response, with their ids. *)
Definition numbered (calls : list (OllamaFunctionCall A)) : list (ToolCall A) :=
  imap (λ i call, {| call_id := "ollama-call-" +:+ fmt_nat i; call_name := ofc_name call; call_arguments := ofc_arguments call |})
    calls.

(** The limits on tool calls. *)
Record Fits (calls : list (OllamaFunctionCall A)) : Prop := {
  fits_calls : (length calls ≤ MAX_TOOL_CALLS)%nat;
  fits_arguments : (argument_bytes calls ≤ MAX_TOOL_ARGUMENT_BYTES)%N;
  fits_names : Forall (λ call, ofc_name call ≠ "") calls;
}.

Definition end_reason (chunks : list (OllamaChunk A)) : option string :=
  last (filter (λ chunk, oc_done chunk = true) chunks) ≫= oc_done_reason.

Record Holds (chunks : list (OllamaChunk A)) (calls : list (OllamaFunctionCall A)) (s : Answer) : Prop := {
  holds_content : content s = texts (oc_content <$> chunks);
  holds_deltas : deltas s = filter (λ text, text ≠ "") (oc_content <$> chunks);
  holds_calls : tool_calls s = numbered calls;
  holds_bytes : tool_argument_bytes s = argument_bytes calls;
  holds_done : done s = existsb oc_done chunks;
  holds_reason : done_reason s = end_reason chunks;
  holds_fits : Fits calls;
}.

Lemma ollama_argument_bytes_app calls more : argument_bytes (calls ++ more) = (argument_bytes calls + argument_bytes more)%N.
Proof. induction calls as [|call calls IH]; simpl; [done|]. rewrite IH. lia. Qed.

Lemma ollama_fits_app calls more : Fits (calls ++ more) → Fits calls.
Proof. intros [Hn Hb [Hf _]%Forall_app]. rewrite length_app in Hn. rewrite ollama_argument_bytes_app in Hb. split; [lia..|done]. Qed.

Lemma length_numbered calls : length (numbered calls) = length calls.
Proof. apply length_imap. Qed.

Lemma ollama_wp_add_call chunks calls call s :
  Holds chunks calls s → wp (add_call call) (λ _ s', Holds chunks (calls ++ [call]) s') (λ _ _, ¬ Fits (calls ++ [call])) s.
Proof.
  intros [Hc Hd Ht Hb Hdn Hr [Hn Ha Hf]]. unfold add_call.
  rewrite wp_bind, wp_get, wp_bind, wp_ensure, Ht, length_numbered.
  destruct (Nat.ltb_spec (length calls) MAX_TOOL_CALLS) as [Hlt|Hge]; [|intros [Hn' _ _]; rewrite length_app in Hn'; simpl in Hn'; lia].
  rewrite wp_bind, wp_lift. unfold add_argument_bytes. rewrite Hb.
  assert (N.min U64_MAX MAX_TOOL_ARGUMENT_BYTES = MAX_TOOL_ARGUMENT_BYTES) as -> by done.
  assert (argument_bytes (calls ++ [call]) = argument_bytes calls + str_len (json_to_string (ofc_arguments call)))%N as Hab.
  { rewrite ollama_argument_bytes_app. simpl. lia. }
  rewrite <-Hab. destruct (N.leb_spec (argument_bytes (calls ++ [call])) MAX_TOOL_ARGUMENT_BYTES) as [Hle|Hgt]; [|intros [_ Hb' _]; lia].
  rewrite wp_bind, wp_modify, wp_bind, wp_ensure. case_bool_decide as Hname; simpl.
  { intros [_ _ [_ Hf']%Forall_app]. by rewrite Forall_singleton in Hf'. }
  rewrite wp_modify. split; simpl; try done.
  - rewrite Ht, length_numbered. unfold numbered. rewrite imap_app. simpl. by rewrite Nat.add_0_r.
  - split; [rewrite length_app; simpl; lia|done|]. apply Forall_app. split; [done|by apply Forall_singleton].
Qed.

Lemma ollama_wp_add_calls chunks calls more s :
  Holds chunks calls s → wp (add_calls more) (λ _ s', Holds chunks (calls ++ more) s') (λ _ _, ¬ Fits (calls ++ more)) s.
Proof.
  revert calls s. induction more as [|call more IH]; intros calls s Hs; simpl; [by rewrite wp_ret, app_nil_r|].
  rewrite wp_bind, cons_middle, app_assoc. eapply wp_wand; [by apply ollama_wp_add_call| |]; cbv beta.
  - intros _ s' Hs'. by apply IH.
  - intros _ _ Hn Hf. by apply Hn, (ollama_fits_app _ more).
Qed.

(** What is so after the chunks so far. *)
Definition Read (chunks : list (OllamaChunk A)) (s : Answer) : Prop := Holds chunks (calls_in chunks) s.
Definition Accepted (chunks : list (OllamaChunk A)) : Prop :=
  Forall (λ chunk, oc_error chunk = None) chunks ∧ Fits (calls_in chunks).

Lemma calls_in_snoc chunks chunk : calls_in (chunks ++ [chunk]) = calls_in chunks ++ oc_tool_calls chunk.
Proof. unfold calls_in. rewrite fmap_app, concat_app. simpl. by rewrite app_nil_r. Qed.

Lemma ollama_accepted_app chunks more : Accepted (chunks ++ more) → Accepted chunks.
Proof.
  intros [[He _]%Forall_app Hf]. split; [done|]. unfold calls_in in *. rewrite fmap_app, concat_app in Hf. by eapply ollama_fits_app.
Qed.

Lemma holds_chunk chunks calls chunk s :
  Holds chunks calls s → Holds (chunks ++ [chunk]) calls (push_text (oc_content chunk) (set_done chunk s)).
Proof.
  intros [Hc Hd Ht Hb Hdn Hr Hf].
  assert (end_reason (chunks ++ [chunk]) = if oc_done chunk then oc_done_reason chunk else end_reason chunks) as Her.
  { unfold end_reason. rewrite filter_app, filter_cons, filter_nil. destruct (oc_done chunk); case_decide; try done.
    - by rewrite last_snoc.
    - by rewrite app_nil_r. }
  assert (existsb oc_done (chunks ++ [chunk]) = if oc_done chunk then true else existsb oc_done chunks) as Hex.
  { rewrite existsb_app. simpl. destruct (oc_done chunk); by rewrite ?orb_true_r, ?orb_false_r. }
  assert (texts (oc_content <$> (chunks ++ [chunk])) = texts (oc_content <$> chunks) +:+ oc_content chunk) as Htx.
  { rewrite fmap_app. apply texts_snoc. }
  assert (filter (λ text, text ≠ "") (oc_content <$> (chunks ++ [chunk])) =
    filter (λ text, text ≠ "") (oc_content <$> chunks) ++ (if decide (oc_content chunk = "") then [] else [oc_content chunk])) as Hfi.
  { rewrite fmap_app, filter_app. f_equal. simpl. rewrite filter_cons, filter_nil. repeat case_decide; done. }
  unfold push_text, set_done. case_bool_decide as Hempty.
  - rewrite Hempty, append_empty in Htx. rewrite decide_True, app_nil_r in Hfi by done.
    split; try done; destruct (oc_done chunk); simpl; congruence.
  - rewrite decide_False in Hfi by done. split; try done; destruct (oc_done chunk); simpl; congruence.
Qed.

Lemma ollama_wp_add_chunk chunks chunk s :
  Read chunks s → Forall (λ chunk, oc_error chunk = None) chunks →
  wp (add_chunk chunk) (λ _ s', Read (chunks ++ [chunk]) s' ∧ Forall (λ chunk, oc_error chunk = None) (chunks ++ [chunk]))
    (λ _ _, ¬ Accepted (chunks ++ [chunk])) s.
Proof.
  intros Hs He. unfold add_chunk, Read, Accepted. rewrite calls_in_snoc. destruct (oc_error chunk) as [e|] eqn:Hc.
  - unfold fail_stream. rewrite wp_bind, wp_lift. destruct (stream_error_total e) as [e' ->]. rewrite wp_throw.
    intros [[_ Hx]%Forall_app _]. rewrite Forall_singleton in Hx. congruence.
  - rewrite wp_bind, wp_modify, wp_bind, wp_modify. eapply wp_wand; [apply ollama_wp_add_calls, holds_chunk, Hs| |]; cbv beta.
    + intros _ s' Hs'. split; [done|]. apply Forall_app. split; [done|by apply Forall_singleton].
    + intros _ _ Hn [_ Hf]. by apply Hn.
Qed.

Lemma ollama_wp_feed chunks lines s :
  Read chunks s → Forall (λ chunk, oc_error chunk = None) chunks →
  wp (feed (consume chunk_from_str) lines)
    (λ _ s', ∃ more, chunks_of_lines lines = Some more ∧ Read (chunks ++ more) s' ∧
      Forall (λ chunk, oc_error chunk = None) (chunks ++ more))
    (λ _ _, ∀ more, chunks_of_lines lines = Some more → ¬ Accepted (chunks ++ more)) s.
Proof.
  revert chunks s. induction lines as [|line lines IH]; intros chunks s Hs He; cbn [feed chunks_of_lines].
  { rewrite wp_ret. exists []. by rewrite app_nil_r. }
  rewrite wp_bind. unfold consume_line at 1, chunk_of, consume at 1. destruct (from_utf8 line) as [|t]; [by rewrite wp_throw|].
  destruct (blank t).
  { rewrite wp_ret. eapply wp_wand; [by apply IH| |]; cbv beta; simpl.
    - intros _ s' (more & -> & Hm). by exists more.
    - intros _ s' Hn more. destruct (chunks_of_lines lines) as [l|]; simpl; [|done]. intros [= <-]. by apply Hn. }
  destruct (chunk_from_str t) as [|chunk]; [by rewrite wp_throw|]. eapply wp_wand; [by apply ollama_wp_add_chunk| |]; cbv beta; simpl.
  - intros _ s' [Hs' He']. eapply wp_wand; [by apply IH| |]; cbv beta; simpl.
    + intros _ s2 (more & -> & Hm). exists (chunk :: more). rewrite cons_middle, app_assoc. by split.
    + intros _ s2 Hn more. destruct (chunks_of_lines lines) as [l|]; simpl; [|done]. intros [= <-].
      rewrite cons_middle, app_assoc. by apply Hn.
  - intros _ _ Hn more. destruct (chunks_of_lines lines) as [l|]; simpl; [|done]. intros [= <-]. rewrite cons_middle, app_assoc.
    intros Ha%ollama_accepted_app. by apply Hn.
Qed.

(** * The answer *)

Record AnswerOf (chunks : list (OllamaChunk A)) (r : AssistantResponse A) : Prop := {
  answer_content : resp_content r = texts (oc_content <$> chunks);
  answer_reasoning : resp_reasoning r = None;
  answer_finish : resp_finish_reason r = end_reason chunks;
  answer_calls : resp_tool_calls r = numbered (calls_in chunks);
  answer_dispatch : resp_tool_calls r ≠ [] →
    (∃ chunk, chunk ∈ chunks ∧ oc_done chunk = true) ∧ finished_normally (resp_finish_reason r);
}.

Lemma ollama_answer_response_of chunks s r : Read chunks s → answer_response s = Done r ↔ AnswerOf chunks r.
Proof.
  intros Hs. unfold answer_response. rewrite (holds_content _ _ _ Hs), (holds_calls _ _ _ Hs), (holds_done _ _ _ Hs), (holds_reason _ _ _ Hs).
  rewrite bind_Done. split.
  - intros ([] & Hd%dispatchable & [= <-]). split; simpl; try done. intros Hne. destruct Hd as [Hd|[Hd Hf]].
    + by apply nil_length_inv in Hd.
    + by apply existsb_elem_of in Hd.
  - intros [Hc Hr Hf Hcalls Hd]. exists (). split; [|destruct r; simpl in *; by rewrite Hc, Hr, Hf, Hcalls].
    apply dispatchable. rewrite Hcalls, Hf in Hd. destruct (numbered (calls_in chunks)) as [|call calls]; [by left|].
    right. destruct Hd as [Hd Hn]; [done|]. split; [by apply existsb_elem_of|done].
Qed.

Lemma ollama_consume_total line : total (consume chunk_from_str line).
Proof.
  unfold consume. destruct (blank line); [done|]. destruct (chunk_from_str line) as [|chunk]; [done|]. unfold add_chunk.
  destruct (oc_error chunk); [apply fail_stream_total|]. repeat (apply total_bind; [done|intros ?]).
  induction (oc_tool_calls chunk) as [|call calls IH]; simpl; [done|]. apply total_bind; [|done]. unfold add_call.
  repeat (apply total_bind; [first [apply total_lift, add_argument_bytes_total|by auto with total]|intros ?]). done.
Qed.

Lemma ollama_answer_response_total (s : Answer (A := A)) : answer_response s ≠ Panic.
Proof. unfold answer_response, require_dispatchable. repeat (case_match; cbn [outcome_bind]; try done). Qed.

Context {W : Type} `{!HttpClient (OllamaRequest A) W}.

(** The closure over a whole body. *)
Lemma ollama_wp_answer response :
  Delivered response →
  wp (stream_lines (consume chunk_from_str) response)
    (λ _ s, ∃ chunks, chunks_of_lines (wire_lines (received response)) = Some chunks ∧ Read chunks s ∧
      Forall (λ chunk, oc_error chunk = None) chunks)
    (λ _ _, ∀ chunks, chunks_of_lines (wire_lines (received response)) = Some chunks → ¬ Accepted chunks) answer_new.
Proof.
  intros Hd. unfold wp. rewrite stream_lines_delivered by done. apply (ollama_wp_feed [] _ answer_new); [|constructor].
  split; try done. split; [apply Nat.le_0_l|apply N.le_0_l|constructor].
Qed.

Lemma ollama_chat_stream_total a request : total (chat_stream (W := W) chunk_from_str a request).
Proof.
  unfold chat_stream. apply total_bind; [|intros response; apply total_bind].
  - intros wire. unfold sending, zoom. pose proof (send_with_retry_total (http_request a request) (wire_world wire)) as Ht.
    by destruct (send_with_retry _ _) as [w r1].
  - intros wire. unfold accumulating. pose proof (stream_lines_total _ ollama_consume_total response answer_new) as Ht.
    by destruct (stream_lines _ _ _) as [s [[]|e|]].
  - intros s. apply total_lift, ollama_answer_response_total.
Qed.

(** What the engine gets from Ollama is what Ollama said. The adapter gives an answer exactly when the
    response came to its end within its limits, every line of it was blank or a chunk, none of them an
    error, and its calls all have a name and keep the limits on their number and on their arguments; the
    answer is the content of the chunks one after another and their calls in order, numbered from zero.
    There are calls in it only when a chunk said that the response is
    done and the last that did gave no reason or a normal one. What was shown meanwhile is the content.
    Nothing panics. *)
Lemma ollama_answer_is_assembled a request (wire wire' : Wire W) r :
  (chat_stream chunk_from_str a request wire = (wire', Done r) ↔
   ∃ w response chunks, send_with_retry (http_request a request) (wire_world wire) = (w, Done response) ∧
     Delivered response ∧ chunks_of_lines (wire_lines (received response)) = Some chunks ∧
     Accepted chunks ∧ AnswerOf chunks r ∧
     wire' = {| wire_world := w; shown := shown wire ++ filter (λ text, text ≠ "") (oc_content <$> chunks) |}) ∧
  (chat_stream chunk_from_str a request wire).2 ≠ Panic.
Proof.
  pose proof ollama_wp_answer as Hread.
  unfold chat_stream. split.
  - rewrite step_bind_Done. split.
    + intros (response & wire1 & Hsend & H). apply step_bind_Done in H as (s & wire2 & Hacc & [-> Hr]%lift_Done).
      unfold sending, zoom in Hsend. destruct (send_with_retry _ _) as [w r1] eqn:Hs. injection Hsend as <- ->.
      unfold accumulating in Hacc. destruct (stream_lines _ response answer_new) as [acc r2] eqn:Hl.
      destruct r2 as [[]|e|]; try discriminate Hacc. injection Hacc as <- <-.
      pose proof (stream_lines_Done _ _ _ _ Hl) as Hd. destruct (wp_Done _ _ _ _ _ _ (Hread _ Hd) Hl) as (chunks & Hcs & Hk & Hg).
      exists w, response, chunks. split_and!; [done..|by split; [|apply Hk]|by apply (ollama_answer_response_of _ acc)|].
      by rewrite <-(holds_deltas _ _ _ Hk).
    + intros (w & response & chunks & Hs & Hd & Hcs & Ha & Hr & ->). exists response, {| wire_world := w; shown := shown wire |}.
      unfold sending, zoom. rewrite Hs. split; [done|]. rewrite step_bind_Done.
      destruct (wp_run _ _ _ _ (Hread _ Hd)) as (s & [([] & Hl & chunks' & Hcs' & Hk & _)|(e & _ & Hn)]); [|by destruct (Hn _ Hcs)].
      rewrite Hcs in Hcs'. injection Hcs' as <-.
      exists s, {| wire_world := w; shown := shown wire ++ deltas s |}. unfold accumulating. rewrite Hl. split; [done|].
      apply lift_Done. rewrite (holds_deltas _ _ _ Hk). split; [done|]. by apply (ollama_answer_response_of chunks).
  - apply ollama_chat_stream_total.
Qed.
End ollama.

(** * A response *)

Definition sample_line (line : string) : string + OllamaChunk string :=
  let chunk content calls finished reason := inr {|
    oc_content := content; oc_tool_calls := calls; oc_error := None; oc_done := finished; oc_done_reason := reason |} in
  if bool_decide (line = "text") then chunk "Looking." [] false None
  else if bool_decide (line = "call") then chunk "" [{| ofc_name := "read"; ofc_arguments := "[1]" |}] false None
  else if bool_decide (line = "done") then chunk "" [] true (Some "stop")
  else inl "expected value".

Definition sample_response (lines : list string) : Response := {|
  status := 200; started := 0; ended := BodyComplete; end_asked := 2;
  chunks := (λ line, (1%N, chars (line +:+ of_chars [newline]))) <$> lines |}.

(** A client that gets [lines]. *)
Definition sample_client (lines : list string) : HttpClient (OllamaRequest string) () := {|
  send _ w := (inr (sample_response lines), w); try_clone := Some; sleep _ w := w |}.

Definition sample_adapter : OllamaAdapter := ollama_new "http://localhost/" "small".
Definition sample_request : ChatRequest string := {| cr_messages := [msg_user "look"]; cr_tools := [] |}.
Definition sample_wire : Wire () := {| wire_world := (); shown := [] |}.

Definition sample_answer : AssistantResponse string := {|
  resp_content := "Looking."; resp_reasoning := None; resp_finish_reason := Some "stop";
  resp_tool_calls := [{| call_id := "ollama-call-0"; call_name := "read"; call_arguments := "[1]" |}] |}.

Definition answer_to (lines : list string) : Wire () * Outcome AdapterError (AssistantResponse string) :=
  chat_stream (HttpClient0 := sample_client lines) sample_line sample_adapter sample_request sample_wire.

Lemma ollama_answer_is_assembled_witness :
  ∃ chunks, AnswerOf chunks sample_answer ∧
    answer_to ["text"; ""; "call"; "done"] = ({| wire_world := (); shown := ["Looking."] |}, Done sample_answer).
Proof.
  assert (answer_to ["text"; ""; "call"; "done"] = ({| wire_world := (); shown := ["Looking."] |}, Done sample_answer)) as Hrun
    by (vm_compute; reflexivity).
  destruct (proj1 (proj1 (ollama_answer_is_assembled (HttpClient0 := sample_client ["text"; ""; "call"; "done"]) sample_line sample_adapter
    sample_request sample_wire _ sample_answer)) Hrun) as (w & response & chunks & _ & _ & _ & _ & Ha & _).
  exists chunks. by split.
Defined.

(** A response that stops short, and one whose calls come after its end: the
    end is not required to be last, so these calls are run although what
    follows it may be cut off. *)
Lemma calls_after_the_end_are_run :
  (answer_to ["text"; "call"]).2 =
    Fail (AdInvalidResponse "the response stream ended before the provider finished it; its 1 tool call(s) were not run") ∧
  answer_to ["text"; "done"; "call"] = ({| wire_world := (); shown := ["Looking."] |}, Done sample_answer).
Proof. split; vm_compute; reflexivity. Qed.
