(* ===== verification/Prepared.v ===== *)
(** The files the agent's tools read ([crates/xshell-execution/src/prepared.rs]):
    a path is walked beneath a root one component at a time, links followed by
    the walk itself, and what it ends at is what is authorised and then read.

    The file system is the class [FileSystem], the system calls of the code; it
    may change between any two of them. *)
From Stdlib Require Import Ascii.
From S2P Require Import Prelude PtyStream Completion Sensitive Tools Effects.

Definition MAX_SYMLINK_HOPS : nat := 40.
Definition OUTSIDE_ROOT : string := "path is outside the current xshell working directory".

Inductive ObjectKind : Type := File | Directory.
#[export] Instance ObjectKind_eq_dec : EqDecision ObjectKind.
Proof. solve_decision. Defined.

(** [st_mode & S_IFMT] and [d_type], as far as they are looked at. *)
Inductive FileType : Type := IFREG | IFDIR | IFLNK | IFOTHER.
#[export] Instance FileType_eq_dec : EqDecision FileType.
Proof. solve_decision. Defined.
Inductive DirentType : Type := DT_DIR | DT_UNKNOWN | DT_OTHER.

(** The flags of [open_at]; [O_RDONLY] and [O_CLOEXEC] are always set. *)
Record OpenFlags := {
  O_DIRECTORY : bool;
  O_NOFOLLOW : bool;
  O_NONBLOCK : bool;
}.

(** [None] is [AT_FDCWD]; [fstatat] does not follow links; a stream is the
    entries a directory gives, in its order. *)
Class FileSystem (W Fd : Type) := {
  canonicalize : string → W → (string + string) * W;
  openat : option Fd → string → OpenFlags → W → (string + Fd) * W;
  fstatat : Fd → string → W → (string + FileType) * W;
  fstat : Fd → W → (string + FileType) * W;
  readlinkat : Fd → string → W → (string + string) * W;
  read_descriptor : Fd → nat → W → (string + bytes) * W;
  dup : Fd → W → (string + Fd) * W;
  fdopendir : Fd → W → (string + list (string * DirentType)) * W;
}.

(** ** Paths *)

Inductive Component : Type := RootDir | CurDir | ParentDir | Normal (name : string).
#[export] Instance Component_eq_dec : EqDecision Component.
Proof. solve_decision. Defined.

Definition is_absolute (path : string) : bool := starts_with "/"%char path.

Definition body_component (piece : string) : option Component :=
  if bool_decide (piece = "" ∨ piece = ".") then None
  else if bool_decide (piece = "..") then Some ParentDir else Some (Normal piece).

(** [Path::components]. *)
Definition components (path : string) : list Component :=
  let pieces := split_char "/"%char path in
  let body := omap body_component pieces in
  if is_absolute path then RootDir :: body
  else if bool_decide (head pieces = Some ".") then CurDir :: body else body.

(** [Path::strip_prefix]. *)
Fixpoint strip_components (path prefix : list Component) {struct prefix} : option (list Component) :=
  match prefix, path with
  | [], _ => Some path
  | p :: prefix, c :: path => if bool_decide (p = c) then strip_components path prefix else None
  | _ :: _, [] => None
  end.

(** What the walk takes from a path; [push_front_components] puts it before
    what is pending. *)
Definition walked (c : Component) : option string :=
  match c with Normal name => Some name | ParentDir => Some ".." | CurDir | RootDir => None end.
Definition push_front_components (pending : list string) (path : list Component) : list string :=
  omap walked path ++ pending.

(** [Path::display] and [to_string_lossy]. *)
Definition display_path (path : string) : string := from_utf8_lossy (chars path).

Section prepared.
Context {W Fd : Type} `{!FileSystem W Fd}.
Abbreviation IO := (Step W string).
(** The descriptors opened so far, the root's first, with their names. *)
Abbreviation Opened := (list (Fd * string)).

(** A system call, and one with [with_context]. *)
Definition system {X} (f : W → (string + X) * W) : IO X :=
  r ← ask f; match r with inl error => throw error | inr x => mret x end.
Definition in_context {X} (context : string) (m : IO X) : IO X :=
  handle m mret (λ error, throw (context +:+ ": " +:+ error)).

Definition nul_byte : string := "path contains a NUL byte".
Definition has_nul (name : string) : bool := bool_decide (zero ∈ chars name).
(** [CString::new(..).context(..)]; its own error says where the byte is. *)
Definition nul_error (name : string) : string :=
  nul_byte +:+ ": nul byte found in provided data at position: " +:+
  fmt_nat (default 0 (fst <$> list_find (λ c, c = zero) (chars name))).
Definition c_name (name : string) : IO () := ensure (negb (has_nul name)) (nul_error name).

Definition open_at (parent : option Fd) (name : string) (flags : OpenFlags) : IO Fd :=
  ensure (negb (has_nul name)) nul_byte;; system (openat parent name flags).

(** [root] with the names of what was opened. *)
Definition opened_path (root : string) (opened : Opened) : string := foldl path_join root (opened.*2).
Definition display (root : string) (opened : Opened) (component : string) : string :=
  display_path (path_join (opened_path root (drop 1 opened)) component).

(** A path relative to the root, as its components: all the walk takes. *)
Definition relative_to_root (root spelled_root requested : string) : IO (list Component) :=
  if negb (is_absolute requested) then mret (components requested)
  else
    match strip_components (components requested) (components root) with
    | Some inside => mret inside
    | None =>
        match strip_components (components requested) (components spelled_root) with
        | Some inside => mret inside
        | None =>
            canonical ← ask (canonicalize requested);
            match canonical with
            | inl _ => throw OUTSIDE_ROOT
            | inr canonical =>
                match strip_components (components canonical) (components root) with
                | Some inside => mret inside
                | None => throw OUTSIDE_ROOT
                end
            end
        end
    end.

(** ** The walk *)

Definition innermost (opened : Opened) : IO Fd :=
  match last opened with Some (fd, _) => mret fd | None => lift Panic end.

(** A component as it is, a link not followed. *)
Definition look (root : string) (opened : Opened) (component : string) : IO FileType :=
  parent ← innermost opened;
  c_name component;;
  in_context ("cannot resolve " +:+ display root opened component) (system (fstatat parent component)).

(** Where a link leads: from what is opened, by these components. *)
Definition follow_link (root spelled_root : string) (opened : Opened) (component : string) : IO (Opened * list Component) :=
  parent ← innermost opened;
  target ← in_context ("cannot read link " +:+ display root opened component) (system (readlinkat parent component));
  if is_absolute target then
    inside ← relative_to_root root spelled_root target; mret (take 1 opened, inside)
  else mret (opened, components target).

Definition descend (root : string) (opened : Opened) (component : string) (last_component : bool) : IO Opened :=
  parent ← innermost opened;
  fd ← in_context ("cannot open " +:+ display root opened component)
    (open_at (Some parent) component {| O_DIRECTORY := negb last_component; O_NOFOLLOW := true; O_NONBLOCK := true |});
  mret (opened ++ [(fd, component)]).

Definition too_many_links (requested : string) : string := "too many symbolic links resolving " +:+ requested.

(** The loop, with the links it may still follow. *)
Fixpoint walk (root spelled_root requested : string) (hops : nat) : list string → Opened → IO Opened :=
  fix along (pending : list string) (opened : Opened) {struct pending} : IO Opened :=
    match pending with
    | [] => mret opened
    | component :: pending =>
        if bool_decide (component = "..") then
          if bool_decide (length opened = 1) then throw OUTSIDE_ROOT else along pending (removelast opened)
        else
          type ← look root opened component;
          if bool_decide (type = IFLNK) then
            match hops with
            | O => throw (too_many_links requested)
            | S hops =>
                to ← follow_link root spelled_root opened component;
                walk root spelled_root requested hops (push_front_components pending to.2) to.1
            end
          else
            opened ← descend root opened component (bool_decide (pending = []));
            along pending opened
    end.

Definition kind_matches (kind : ObjectKind) (type : FileType) : bool :=
  match kind, type with File, IFREG | Directory, IFDIR => true | _, _ => false end.
Definition wrong_kind (kind : ObjectKind) (path : string) : string :=
  path +:+ match kind with File => " is not a regular file" | Directory => " is not a directory" end.

(** What the walk ended at, classified by the path it took. *)
Definition classify (root : string) (kind : ObjectKind) (sensitive : SensitivePaths) (opened : Opened) : IO (PreparedObject Fd) :=
  let path := opened_path root (drop 1 opened) in
  fd ← innermost opened;
  type ← in_context ("cannot inspect " +:+ display_path path) (system (fstat fd));
  ensure (kind_matches kind type) (wrong_kind kind (display_path path));;
  mret {| object := fd; object_path := display_path path; object_sensitive := matches sensitive (display_path path) |}.

Definition prepare (spelled_root requested : string) (kind : ObjectKind) (sensitive : SensitivePaths) : IO (PreparedObject Fd) :=
  root ← in_context ("cannot resolve tool root " +:+ display_path spelled_root) (system (canonicalize spelled_root));
  root_descriptor ← in_context ("cannot open tool root " +:+ display_path root)
    (open_at None root {| O_DIRECTORY := true; O_NOFOLLOW := false; O_NONBLOCK := false |});
  relative ← relative_to_root root spelled_root requested;
  opened ← walk root spelled_root requested MAX_SYMLINK_HOPS (push_front_components [] relative) [(root_descriptor, "")];
  classify root kind sensitive opened.

(** ** Reading *)

Definition read_object (o : PreparedObject Fd) (max_bytes : nat) : IO (bytes * bool) :=
  all ← in_context ("cannot read " +:+ object_path o) (system (read_descriptor (object o) (max_bytes + 1)));
  mret (take max_bytes all, (max_bytes <? length all)%nat).

Definition is_dot (name : string) : bool := bool_decide (name = "." ∨ name = "..").

(** Whether an entry is a directory; what cannot be told is not. *)
Definition entry_is_directory (stream : Fd) (name : string) (type : DirentType) : IO bool :=
  match type with
  | DT_DIR => mret true
  | DT_OTHER => mret false
  | DT_UNKNOWN => r ← ask (fstatat stream name); mret (bool_decide (r = inr IFDIR))
  end.

Fixpoint read_entries (stream : Fd) (max_entries : nat) (rest : list (string * DirentType)) (entries : list (string * bool)) :
    IO (list (string * bool) * bool) :=
  match rest with
  | [] => mret (entries, false)
  | (name, type) :: rest =>
      if is_dot name then read_entries stream max_entries rest entries
      else if bool_decide (length entries = max_entries) then mret (entries, true)
      else
        is_directory ← entry_is_directory stream name type;
        read_entries stream max_entries rest (entries ++ [(name, is_directory)])
  end.

Definition list_object (o : PreparedObject Fd) (max_entries : nat) : IO (list (string * bool) * bool) :=
  let context := "cannot list " +:+ object_path o in
  stream ← in_context context (system (dup (object o)));
  rest ← in_context context (system (fdopendir stream));
  read_entries stream max_entries rest [].
End prepared.
