(* ===== verification/FileTools.v ===== *)
(** The tools that the engine runs itself (the rest of
    [crates/xshell-execution/src/tools.rs]): reading a file and listing a
    directory that was prepared, and running a command. They are what [Engine]
    calls its world's [open_object] and [run_tool].

    Processes and blocking workers are the class [ToolHost]. *)
From Stdlib Require Import Ascii.
From S2P Require Import Prelude CallId PtyStream Budget Policy Sensitive Tools Chat Completion AuditLog Engine Effects Prepared.

Definition MAX_DIRECTORY_ENTRIES : nat := 500.
(** Nanoseconds. *)
Definition FILESYSTEM_DEADLINE : N := from_secs 30.
Definition deadline_millis : N := FILESYSTEM_DEADLINE / 1000000.

(** What comes from a pipe: the reads before it ends, or fails. *)
Record PipeReads := {
  pipe_reads : list bytes;
  pipe_error : option string;
}.

(** A command that was started: its status or why it cannot be waited for, or
    [None] when its group was killed; whether the turn was cancelled then; and
    what it wrote. *)
Record ShellRun := {
  sr_status : option (string + string);
  sr_cancelled : bool;
  sr_stdout : PipeReads;
  sr_stderr : PipeReads;
}.

Inductive WorkerEnd : Type := WorkerDone | WorkerFailed (error : string) | WorkerLate.

Class ToolHost (W : Type) := {
  worker_end : W → WorkerEnd * W;
  shell_variable : W → option string * W;
  (** The shell, the command, the directory and the timeout. *)
  spawn_shell : string → string → string → N → W → (string + ShellRun) * W;
}.

Record BoundedOutput := {
  bo_bytes : bytes;
  bo_truncated : bool;
}.

Definition render (o : BoundedOutput) : string :=
  from_utf8_lossy (bo_bytes o) +:+
  (if bo_truncated o then String newline "[stream output truncated]" else "").

(** The loop of [read_bounded_output] over the reads of a pipe. *)
Definition retain (o : BoundedOutput) (read : bytes) : BoundedOutput :=
  let remaining := (MAX_TOOL_OUTPUT_BYTES - length (bo_bytes o))%nat in
  let retained := Nat.min (length read) remaining in
  {| bo_bytes := bo_bytes o ++ take retained read;
     bo_truncated := bo_truncated o || (retained <? length read)%nat |}.

Definition read_bounded_output (p : PipeReads) : Outcome string BoundedOutput :=
  match pipe_error p with
  | Some error => Fail error
  | None => Done (foldl retain {| bo_bytes := []; bo_truncated := false |} (pipe_reads p))
  end.

#[export, refine] Instance ord_bool : Ord bool := {| ord_le := implb |}.
Proof.
  - by intros [] [] [].
  - intros [] []; auto.
  - by intros [] [].
Defined.

Section tools.
Context {A W Fd : Type} `{!FileSystem W Fd, !ToolHost W}.
Context (args_text : A → string) (arg_str : A → string → option string) (arg_u64 : A → string → option N).
Abbreviation IO := (Step W string).
Abbreviation Call := (CallId.ToolCall A).

(** [run_blocking]: the work is done or goes on, but its result is only taken
    within the deadline. *)
Definition run_blocking {X} (work : IO X) : IO X := λ w,
  let '(w, r) := work w in
  let '(ending, w) := worker_end w in
  (w, match ending with
      | WorkerDone => r
      | WorkerFailed error => Fail ("filesystem worker failed: " +:+ error)
      | WorkerLate => Fail ("the filesystem did not respond within " +:+ fmt_N deadline_millis +:+ " ms")
      end).

Definition read_file (o : PreparedObject Fd) (max_bytes : nat) : IO string :=
  r ← read_object o max_bytes;
  let content := from_utf8_lossy r.1 in
  mret (if r.2 : bool then content +:+ String newline ("[output truncated at " +:+ fmt_nat max_bytes +:+ " bytes]") else content).

Definition entry_line (entry : string * bool) : string :=
  from_utf8_lossy (chars entry.1) +:+ (if entry.2 then "/" else "").

Definition listing_notice : string :=
  String newline ("[listing truncated after " +:+ fmt_nat MAX_DIRECTORY_ENTRIES +:+ " entries; the rest were not read]").

Definition list_directory (o : PreparedObject Fd) : IO string :=
  r ← list_object o MAX_DIRECTORY_ENTRIES;
  let output := join (String newline "") (entry_line <$> sort_on id r.1) in
  mret (if r.2 : bool then output +:+ listing_notice else output).

Definition required_string (arguments : A) (key : string) : IO string :=
  match arg_str arguments key with Some s => mret s | None => throw ("missing string argument " +:+ key) end.

Definition shell_output (status : string) (stdout stderr : BoundedOutput) : string :=
  "exit status: " +:+ status +:+ String newline "stdout:" +:+ String newline (render stdout) +:+
  String newline "stderr:" +:+ String newline (render stderr).

Definition killed (cancelled : bool) (timeout : N) : string :=
  if cancelled then "shell tool cancelled; the process group was killed and reaped"
  else "shell tool timed out after " +:+ fmt_N (as_secs timeout) +:+ " seconds; the process group was killed and reaped".

Definition run_shell (arguments : A) (root : string) (timeout : N) : IO string :=
  command ← required_string arguments "command";
  variable ← ask shell_variable;
  let shell := default "/bin/sh" variable in
  run ← in_context ("could not launch shell " +:+ shell) (system (spawn_shell shell command root timeout));
  match sr_status run with
  | None => throw (killed (sr_cancelled run) timeout)
  | Some (inl error) => throw ("could not wait for shell tool: " +:+ error)
  | Some (inr status) =>
      stdout ← lift (read_bounded_output (sr_stdout run));
      stderr ← lift (read_bounded_output (sr_stderr run));
      mret (shell_output status stdout stderr)
  end.

(** [max_bytes] of a call, at most a tool's output. *)
Definition read_limit (call : Call) : nat :=
  N.to_nat (N.min (default (N.of_nat MAX_TOOL_OUTPUT_BYTES) (arg_u64 (call_arguments call) "max_bytes")) (N.of_nat MAX_TOOL_OUTPUT_BYTES)).

(** What [execute_prepared] runs for a call that was not refused. *)
Definition run_object (call : Call) (o : PreparedObject Fd) : IO string :=
  match from_name (call_name call) with
  | Some ReadFile => run_blocking (read_file o (read_limit call))
  | _ => run_blocking (list_directory o)
  end.

(** The work below never panics ([PreparedSpec]). *)
Definition result_of {X} (x : W * Outcome string X) : (string + X) * W :=
  (match x.2 with Done a => inr a | Fail error => inl error | Panic => inl "the worker panicked" end, x.1).

(** The engine's world, with its tools: [root] is the session's directory. *)
Definition with_tools (root : string) (w : World A Fd W) : World A Fd W := {|
  chat := chat w;
  read_clock := read_clock w;
  read_cancelled := read_cancelled w;
  ask_user := ask_user w;
  open_object s path directory sensitive :=
    result_of (run_blocking (prepare root path (if directory then Directory else File) sensitive) s);
  run_tool s call o timeout :=
    result_of (match o with Some o => run_object call o s | None => run_shell (call_arguments call) root timeout s end);
|}.

(** [requires_approval]: the call prepared, and what was prepared let go. *)
Definition requires_approval (call : Call) (root : string) (sensitive : SensitivePaths) : IO (option GateReason) :=
  match read_request arg_str call with
  | Some (inr (path, directory)) =>
      handle (prepare root path (if directory then Directory else File) sensitive)
        (λ o, mret (gate call (PrepRead o))) (λ error, mret (gate call (PrepFailed (O := Fd) ("tool error: " +:+ error))))
  | Some (inl error) => mret (gate call (PrepFailed (O := Fd) ("tool error: " +:+ error)))
  | None => mret (gate call (PrepOther (O := Fd)))
  end.

(** [tool_summary]. *)
Definition tool_summary (call : Call) : string :=
  if bool_decide (call_name call = "delegate_task") then
    let task := default "" (arg_str (call_arguments call) "task") in
    let first_line := default "" (head (AuditLog.lines task)) in
    let summary := of_chars (concat (take 120 (characters (chars first_line)))) in
    "delegate: " +:+ summary +:+ (if (String.length summary <? String.length task)%nat then "…" else "")
  else if bool_decide (call_name call = "run_shell") then
    match arg_str (call_arguments call) "command" with
    | Some command => "$ " +:+ command
    | None => args_text (call_arguments call)
    end
  else call_name call +:+ " " +:+ args_text (call_arguments call).
End tools.
