(* ===== verification/PreparedSpec.v ===== *)
(** What a tool reads ([Prepared], [FileTools]): an object beneath the root,
    reached by opening one component after another without following links,
    whatever happens to the file system meanwhile; and never more of it than
    the limits allow. *)
From Stdlib Require Import Ascii.
From S2P Require Import Prelude CallId PtyStream Budget Policy Sensitive Tools Completion Engine Effects Prepared FileTools.

(** A name that stands for an entry of the directory it is looked up in. *)
Record Entry (name : string) : Prop := {
  entry_not_dot : name ≠ "" ∧ name ≠ "." ∧ name ≠ "..";
  entry_no_slash : contains_char "/"%char name = false;
}.

(** What the walk has before it. *)
Definition Walkable (component : string) : Prop := component = ".." ∨ Entry component.

Lemma components_names path component : component ∈ omap walked (components path) → Walkable component.
Proof.
  intros (c & Hc & Hw)%list_elem_of_omap. assert (c = ParentDir ∨ ∃ name, c = Normal name ∧ Entry name) as [->|(name & -> & He)].
  { assert (c ∈ omap body_component (split_char "/"%char path)) as (piece & Hp & Hb)%list_elem_of_omap.
    { unfold components in Hc. repeat case_match; try done; by apply elem_of_cons in Hc as [->|?]. }
    unfold body_component in Hb. repeat case_bool_decide; try done; injection Hb as <-; [by left|]. right. eexists. split; [done|].
    split; [naive_solver|]. by eapply split_char_clean. }
  - injection Hw as <-. by left.
  - injection Hw as <-. by right.
Qed.

Lemma pushed_names pending path :
  Forall Walkable pending → Forall Walkable (push_front_components pending (components path)).
Proof. intros Hp. apply Forall_app. split; [|done]. apply Forall_forall. apply components_names. Qed.

Lemma strip_components_suffix path prefix inside : strip_components path prefix = Some inside → path = prefix ++ inside.
Proof.
  revert path. induction prefix as [|p prefix IH]; intros path; simpl; [by intros [= ->]|].
  destruct path as [|c path]; [done|]. case_bool_decide as Hc; [|done]. intros ->%IH. by rewrite Hc.
Qed.

#[local] Opaque MAX_SYMLINK_HOPS.

Section confined.
Context {W Fd : Type} `{!FileSystem W Fd}.
Implicit Types (opened : list (Fd * string)) (w : W).

(** Opening an entry without following a link. *)
Definition Opens (parent fd : Fd) (name : string) : Prop :=
  Entry name ∧ ∃ directory w w',
    openat (Some parent) name {| O_DIRECTORY := directory; O_NOFOLLOW := true; O_NONBLOCK := true |} w = (inr fd, w').

(** An object reached from [root] through entries only. *)
Inductive Below (root : Fd) : Fd → list string → Prop :=
| below_root : Below root root []
| below_entry parent names fd name : Below root parent names → Opens parent fd name → Below root fd (names ++ [name]).

(** The descriptors opened are those of the way from the root. *)
Inductive Way (root : Fd) : list (Fd * string) → Prop :=
| way_root : Way root [(root, "")]
| way_entry opened parent name' fd name : Way root opened → last opened = Some (parent, name') → Opens parent fd name →
    Way root (opened ++ [(fd, name)]).

Lemma way_up root opened : Way root opened → length opened ≠ 1 → Way root (removelast opened).
Proof. intros [|o p n' fd n Hw _ _] Hl; [done|]. by rewrite removelast_last. Qed.

Lemma way_cons root opened : Way root opened → ∃ rest, opened = (root, "") :: rest.
Proof. induction 1 as [|o p n' fd n _ [rest ->]]; by eexists. Qed.

Lemma way_below root opened : Way root opened → ∃ fd name, last opened = Some (fd, name) ∧ Below root fd (drop 1 opened).*2.
Proof.
  induction 1 as [|o p n' fd n Hw (fd' & name & Hl & Hb) Hl' Ho]; [exists root, ""; split; [done|apply below_root]|].
  exists fd, n. rewrite last_snoc. split; [done|]. destruct (way_cons _ _ Hw) as [rest ->]. simpl in *. rewrite drop_0 in *.
  rewrite fmap_app. simpl. rewrite Hl in Hl'. injection Hl' as <- <-. by eapply below_entry.
Qed.

Lemma way_take root opened : Way root opened → Way root (take 1 opened).
Proof. intros [rest ->]%way_cons. apply way_root. Qed.

Lemma wp_system {X} (f : W → (string + X) * W) (Q : X → W → Prop) (R : string → W → Prop) w :
  wp (system f) Q R w ↔ match (f w).1 with inr x => Q x (f w).2 | inl e => R e (f w).2 end.
Proof. unfold system. rewrite wp_bind, wp_ask. by destruct (f w).1. Qed.

Lemma wp_in_context {X} context (m : Step W string X) (Q : X → W → Prop) w :
  wp (in_context context m) Q (λ _ _, True) w ↔ wp m Q (λ _ _, True) w.
Proof. unfold in_context. by rewrite wp_handle. Qed.

Lemma wp_innermost root opened (Q : Fd → W → Prop) R w :
  Way root opened → (∀ fd name, last opened = Some (fd, name) → Q fd w) → wp (innermost opened) Q R w.
Proof. intros (fd & name & Hl & _)%way_below HQ. unfold innermost. rewrite Hl. by eapply HQ. Qed.

Lemma wp_relative root spelled_root requested w :
  wp (relative_to_root root spelled_root requested)
    (λ inside _, ∃ path prefix, components path = prefix ++ inside) (λ _ _, True) w.
Proof.
  unfold relative_to_root. case_match; [rewrite wp_ret; by exists requested, []|].
  case_match eqn:H1; [rewrite wp_ret; apply strip_components_suffix in H1; by eexists _, _|].
  case_match eqn:H2; [rewrite wp_ret; apply strip_components_suffix in H2; by eexists _, _|].
  rewrite wp_bind, wp_ask. destruct (canonicalize requested w).1 as [|canonical]; [done|].
  case_match eqn:H3; [|done]. rewrite wp_ret. apply strip_components_suffix in H3. by eexists _, _.
Qed.

Lemma inside_names path prefix inside pending :
  components path = prefix ++ inside → Forall Walkable pending → Forall Walkable (push_front_components pending inside).
Proof.
  intros Hc Hp. apply (pushed_names pending path) in Hp. unfold push_front_components in *. rewrite Hc, omap_app in Hp.
  rewrite !Forall_app in *. naive_solver.
Qed.

(** One turn of the loop. *)
Lemma walk_cons root spelled requested hops component pending opened :
  walk root spelled requested hops (component :: pending) opened =
    (if bool_decide (component = "..") then
       if bool_decide (length opened = 1) then throw OUTSIDE_ROOT
       else walk root spelled requested hops pending (removelast opened)
     else
       type ← look root opened component;
       if bool_decide (type = IFLNK) then
         match hops with
         | O => throw (too_many_links requested)
         | S hops =>
             to ← follow_link root spelled opened component;
             walk root spelled requested hops (push_front_components pending to.2) to.1
         end
       else
         opened ← descend root opened component (bool_decide (pending = []));
         walk root spelled requested hops pending opened).
Proof. by destruct hops. Qed.

Lemma walk_nil root spelled requested hops opened : walk root spelled requested hops [] opened = mret opened.
Proof. by destruct hops. Qed.

Lemma wp_look root_path root opened component (Q : FileType → W → Prop) w :
  Way root opened → (∀ type w, has_nul component = false → Q type w) → wp (look root_path opened component) Q (λ _ _, True) w.
Proof.
  intros Hw HQ. unfold look. rewrite wp_bind. eapply wp_innermost; [done|]. intros parent name _.
  unfold c_name. rewrite wp_bind, wp_ensure. destruct (has_nul component) eqn:Hn; simpl; [done|].
  rewrite wp_in_context, wp_system. destruct (fstatat parent component w).1; [done|]. by apply HQ.
Qed.

Lemma wp_follow_link root_path spelled root opened component pending (Q : list (Fd * string) * list Component → W → Prop) w :
  Way root opened → Forall Walkable pending →
  (∀ to w, Way root to.1 → Forall Walkable (push_front_components pending to.2) → Q to w) →
  wp (follow_link root_path spelled opened component) Q (λ _ _, True) w.
Proof.
  intros Hw Hp HQ. unfold follow_link. rewrite wp_bind. eapply wp_innermost; [done|]. intros parent name _.
  rewrite wp_bind, wp_in_context, wp_system. destruct (readlinkat parent component w).1 as [|target]; [done|].
  destruct (is_absolute target).
  - rewrite wp_bind. eapply wp_wand; [apply wp_relative| |done]. intros inside w1 (path & prefix & Hc). rewrite wp_ret.
    apply HQ; simpl; [first [by apply way_take|done]|by eapply inside_names].
  - rewrite wp_ret. apply HQ; simpl; [done|by apply pushed_names].
Qed.

Lemma wp_descend root_path root opened component b (Q : list (Fd * string) → W → Prop) w :
  Way root opened → Walkable component → component ≠ ".." → (∀ o w, Way root o → Q o w) →
  wp (descend root_path opened component b) Q (λ _ _, True) w.
Proof.
  intros Hw [?|He] Hup HQ; [done|]. unfold descend. rewrite wp_bind. eapply wp_innermost; [done|]. intros parent name Hl.
  unfold open_at. rewrite wp_bind, wp_in_context, wp_bind, wp_ensure. destruct (negb (has_nul component)); [|done].
  rewrite wp_system. destruct (openat _ _ _ w) as [[|fd] w1] eqn:Ho; [done|]. simpl. rewrite wp_ret.
  apply HQ. eapply way_entry; [done..|]. split; [done|]. by eexists _, _, _.
Qed.

(** The walk stays on a way from the root, and ends on one. *)
Lemma wp_walk root_path spelled requested root hops pending opened w :
  Way root opened → Forall Walkable pending →
  wp (walk root_path spelled requested hops pending opened) (λ o _, Way root o) (λ _ _, True) w.
Proof.
  revert pending opened w. induction hops as [hops IHh] using lt_wf_ind. intros pending.
  induction pending as [|component pending IH]; intros opened w Hw Hp; [by rewrite walk_nil|].
  apply Forall_cons in Hp as [Hc Hp]. rewrite walk_cons. case_bool_decide as Hup.
  - case_bool_decide; [done|]. apply IH; [by apply way_up|done].
  - rewrite wp_bind. eapply wp_look; [done|]. intros type w1 _. case_bool_decide.
    + destruct hops as [|hops]; [done|]. rewrite wp_bind. eapply wp_follow_link; [done..|]. intros to w2 Hw2 Hp2.
      apply IHh; [lia|done..].
    + rewrite wp_bind. eapply wp_descend; [done..|]. intros o w2 Ho. by apply IH.
Qed.

(** What a walk ends at is what is classified. *)
Record Confined (spelled_root : string) (kind : ObjectKind) (sensitive : SensitivePaths) (o : PreparedObject Fd) : Prop := {
  confined_root : ∃ root root_descriptor names,
    (∃ w w', canonicalize spelled_root w = (inr root, w')) ∧
    (∃ w w', openat None root {| O_DIRECTORY := true; O_NOFOLLOW := false; O_NONBLOCK := false |} w = (inr root_descriptor, w')) ∧
    Below root_descriptor (object o) names ∧ object_path o = display_path (foldl path_join root names);
  confined_kind : ∃ type w w', fstat (object o) w = (inr type, w') ∧ kind_matches kind type = true;
  confined_sensitive : object_sensitive o = matches sensitive (object_path o);
}.

Lemma wp_prepare spelled_root requested kind sensitive w :
  wp (prepare spelled_root requested kind sensitive) (λ o _, Confined spelled_root kind sensitive o) (λ _ _, True) w.
Proof.
  unfold prepare, open_at. rewrite wp_bind, wp_in_context, wp_system.
  destruct (canonicalize spelled_root w) as [[|root] w1] eqn:Hr; [done|]. simpl.
  rewrite wp_bind, wp_in_context, wp_bind, wp_ensure. destruct (negb _); [|done]. rewrite wp_system.
  destruct (openat None root _ w1) as [[|rfd] w2] eqn:Ho; [done|]. simpl. rewrite wp_bind.
  eapply wp_wand; [apply wp_relative| |done]. intros inside w3 (path & prefix & Hc). rewrite wp_bind.
  eapply wp_wand; [apply (wp_walk _ _ _ rfd); [apply way_root|by eapply inside_names]| |done].
  intros opened w4 Hway. cbv beta in Hway. unfold classify. rewrite wp_bind. eapply wp_innermost; [done|]. intros fd name Hl.
  rewrite wp_bind, wp_in_context, wp_system. destruct (fstat fd w4) as [[|type] w5] eqn:Hst; [done|]. simpl.
  rewrite wp_bind, wp_ensure. destruct (kind_matches kind type) eqn:Hk; [|done]. rewrite wp_ret.
  apply way_below in Hway as (fd' & name' & Hl' & Hb). rewrite Hl in Hl'. injection Hl' as <- <-.
  split; simpl; [|by exists type, w4, w5|done]. exists root, rfd, (drop 1 opened).*2. split_and!; [by eexists _, _|by eexists _, _|done|].
  unfold opened_path. done.
Qed.
End confined.

(** ** The tools *)

Section tools.
Context {A W Fd : Type} `{!FileSystem W Fd, !ToolHost W}.
Context (arg_str : A → string → option string) (arg_u64 : A → string → option N).
Context (root : string) (host_world : World A Fd W).
Implicit Types (w : W) (o : PreparedObject Fd).
Abbreviation tools := (with_tools arg_str arg_u64 root host_world).

Lemma run_blocking_Done {X} (work : Step W string X) w w' x :
  run_blocking work w = (w', Done x) → ∃ w1, work w = (w1, Done x).
Proof. unfold run_blocking. destruct (work w) as [w1 r]. destruct (worker_end w1) as [[] w2]; naive_solver. Qed.

(** The names listed: those of the directory, without [.] and [..], up to the
    limit. *)
Definition listed_names (rest : list (string * DirentType)) : list string := filter (λ name, is_dot name = false) rest.*1.

Lemma wp_read_entries stream limit rest entries w (R : string → W → Prop) :
  (length entries ≤ limit)%nat →
  wp (read_entries stream limit rest entries)
    (λ r _, r.1.*1 = take limit (entries.*1 ++ listed_names rest) ∧ r.2 = (limit <? length entries + length (listed_names rest))%nat) R w.
Proof.
  revert entries w. induction rest as [|[name type] rest IH]; intros entries w Hlen; unfold listed_names; simpl.
  - rewrite wp_ret. simpl. rewrite app_nil_r, take_ge by (rewrite length_fmap; lia). split; [done|]. symmetry. apply Nat.ltb_ge. lia.
  - fold (listed_names rest). rewrite filter_cons. destruct (is_dot name) eqn:Hd; [rewrite decide_False by done|rewrite decide_True by done].
    { by apply IH. }
    case_bool_decide as Hfull.
    + rewrite wp_ret. simpl. rewrite take_app_le, take_ge by (rewrite length_fmap; lia). split; [done|]. symmetry. apply Nat.ltb_lt. lia.
    + assert (∀ b w, wp (read_entries stream limit rest (entries ++ [(name, b)]))
        (λ r _, r.1.*1 = take limit (entries.*1 ++ name :: listed_names rest) ∧
          r.2 = (limit <? length entries + S (length (listed_names rest)))%nat) R w) as Hb.
      { intros b w1. eapply wp_wand; [apply IH; rewrite length_app; simpl; lia| |done].
        intros [l more] w2 [-> ->]. simpl. rewrite fmap_app, <-app_assoc, length_app. simpl. split; [done|]. f_equal. lia. }
      rewrite wp_bind. destruct type; simpl; [rewrite wp_ret; apply Hb| |rewrite wp_ret; apply Hb].
      rewrite wp_bind, wp_ask, wp_ret. apply Hb.
Qed.

(** What a file is shown as, and a directory: the object that was authorised,
    and no more of it than the limits allow. *)
Definition file_text (limit : nat) (all : bytes) : string :=
  from_utf8_lossy (take limit all) +:+
  (if (limit <? length all)%nat then String newline ("[output truncated at " +:+ fmt_nat limit +:+ " bytes]") else "").

Definition directory_text (listed : list (string * bool)) (more : bool) : string :=
  join (String newline "") (entry_line <$> sort_on id listed) +:+ (if more then listing_notice else "").

Inductive Shown (call : CallId.ToolCall A) o : string → Prop :=
| shown_file w all w' : from_name (call_name call) = Some ReadFile →
    read_descriptor (object o) (read_limit arg_u64 call + 1) w = (inr all, w') → Shown call o (file_text (read_limit arg_u64 call) all)
| shown_directory w stream w' rest w'' listed : from_name (call_name call) ≠ Some ReadFile →
    dup (object o) w = (inr stream, w') → fdopendir stream w' = (inr rest, w'') →
    listed.*1 = take MAX_DIRECTORY_ENTRIES (listed_names rest) →
    Shown call o (directory_text listed (MAX_DIRECTORY_ENTRIES <? length (listed_names rest))%nat).

Lemma str_app_empty s : s +:+ "" = s.
Proof. induction s as [|c s IH]; [done|]. rewrite append_cons. by rewrite IH. Qed.

Lemma wp_read_file call o w :
  from_name (call_name call) = Some ReadFile →
  wp (read_file o (read_limit arg_u64 call)) (λ text _, Shown call o text) (λ _ _, True) w.
Proof.
  intros Hn. unfold read_file, read_object. rewrite wp_bind, wp_bind, wp_in_context, wp_system.
  destruct (read_descriptor _ _ w) as [[|all] w1] eqn:Hr; [done|]. simpl. rewrite !wp_ret. simpl.
  pose proof (shown_file call o w all w1 Hn Hr) as Hs. unfold file_text in Hs. case_match; [done|]. by rewrite str_app_empty in Hs.
Qed.

Lemma wp_list_directory call o w :
  from_name (call_name call) ≠ Some ReadFile → wp (list_directory o) (λ text _, Shown call o text) (λ _ _, True) w.
Proof.
  intros Hn. unfold list_directory, list_object. rewrite wp_bind, wp_bind, wp_in_context, wp_system.
  destruct (dup (object o) w) as [[|stream] w1] eqn:Hd; [done|]. simpl.
  rewrite wp_bind, wp_in_context, wp_system. destruct (fdopendir stream w1) as [[|rest] w2] eqn:Hf; [done|]. simpl.
  eapply wp_wand; [apply (wp_read_entries _ _ _ _ _ (λ _ _, True)); simpl; lia| |done]. intros [listed more] w3 [Hl ->]. rewrite wp_ret. simpl in *.
  pose proof (shown_directory call o w stream w1 rest w2 listed Hn Hd Hf Hl) as Hs. unfold directory_text in Hs.
  case_match; [done|]. by rewrite str_app_empty in Hs.
Qed.

Lemma run_object_shown call o w w' text : run_object arg_u64 call o w = (w', Done text) → Shown call o text.
Proof.
  unfold run_object. destruct (decide (from_name (call_name call) = Some ReadFile)) as [Hn|Hn].
  - rewrite Hn. intros [w1 Hr]%run_blocking_Done. by eapply wp_Done in Hr; [|by apply wp_read_file].
  - intros Hr. assert (run_blocking (list_directory o) w = (w', Done text)) as [w1 H1]%run_blocking_Done
      by (destruct (from_name (call_name call)) as [[]|]; done).
    by eapply wp_Done in H1; [|by apply wp_list_directory].
Qed.

Lemma open_object_confined path directory sensitive w o w' :
  open_object tools w path directory sensitive = (inr o, w') →
  Confined root (if directory then Directory else File) sensitive o.
Proof.
  simpl. unfold result_of. destruct (run_blocking _ w) as [w1 [o1|e|]] eqn:Hr; simpl; [|done..]. intros [= -> ->].
  apply run_blocking_Done in Hr as [w2 Hr]. by eapply wp_Done in Hr; [|apply wp_prepare].
Qed.

(** C3: Whatever happens to the file system meanwhile, the object a read-only
    tool reads is the one that was authorised: reached from the root by opening
    one entry after another without following a link, of the kind asked for,
    not blocked, and prompted for exactly when the path it was reached by is
    sensitive; and what is shown is what that object gave, cut at its limit. *)
Theorem authorised_object_is_read policy call h o h1 :
  prepare_call tools arg_str policy call h = (PrepRead o, h1) →
  (∃ path directory, read_request arg_str call = Some (inr (path, directory)) ∧
    Confined root (if directory then Directory else File) (tp_sensitive_paths policy) o) ∧
  matches (tp_blocked_paths policy) (object_path o) = false ∧
  gate call (PrepRead o) = (if matches (tp_sensitive_paths policy) (object_path o) then Some SensitivePath else None) ∧
  ∀ h2, ∃ output h3, execute_prepared tools call (PrepRead o) h2 = Done (output, h3) ∧
    ((∃ error, output = "tool error: " +:+ error) ∨ ∃ text, Shown call o text ∧ truncate (E := Empty_set) text = Done output).
Proof.
  unfold prepare_call. destruct (read_request arg_str call) as [[|[path directory]]|] eqn:Hreq; [done| |done].
  destruct (open_object tools (world h) path directory _) as [[|o1] w1] eqn:Ho; [done|].
  destruct (matches (tp_blocked_paths policy) (object_path o1)) eqn:Hb; [done|]. intros [= <- <-].
  apply open_object_confined in Ho as Hc. split; [by eexists _, _|]. split; [done|]. split.
  - unfold gate, requires_approval_by_name. rewrite (confined_sensitive _ _ _ _ Hc). unfold read_request in Hreq.
    by destruct (from_name (call_name call)) as [[]|].
  - intros h2. unfold execute_prepared. simpl. unfold result_of.
    destruct (run_object arg_u64 call o1 (world h2)) as [w2 [text|error|]] eqn:Hr; simpl.
    + apply run_object_shown in Hr. destruct (truncate_to_total (E := Empty_set) MAX_TOOL_OUTPUT_BYTES text) as (t & Ht & _).
      unfold truncate. rewrite Ht. simpl. eexists _, _. split; [done|]. right. by exists text.
    + eexists _, _. split; [done|]. left. by eexists.
    + eexists _, _. split; [done|]. left. by eexists.
Qed.
End tools.

(** ** A sample: a link to a file of secrets *)

Definition sample_stat (place : list string) : string + FileType :=
  if bool_decide (place = []) then inr IFDIR
  else if bool_decide (place = [".env"]) then inr IFREG
  else if bool_decide (place = ["notes"]) then inr IFLNK
  else inl "No such file or directory (os error 2)".

#[local] Instance sample_files : FileSystem () (list string) := {|
  canonicalize path w := (inr path, w);
  openat parent name flags w := (match parent with Some place => inr (place ++ [name]) | None => inr [] end, w);
  fstatat place name w := (sample_stat (place ++ [name]), w);
  fstat place w := (sample_stat place, w);
  readlinkat place name w := (inr "./.env", w);
  read_descriptor place n w := (inr (take n (chars "TOKEN=1")), w);
  dup place w := (inr place, w);
  fdopendir place w := (inr [], w);
|}.
#[local] Instance sample_tool_host : ToolHost () := {|
  worker_end w := (WorkerDone, w); shell_variable w := (None, w); spawn_shell _ _ _ _ w := (inl "", w) |}.

Definition sample_path (a key : string) : option string := if bool_decide (key = "path") then Some a else None.
Definition sample_limit (a key : string) : option N := None.
Definition sample_tools : World string (list string) () :=
  with_tools sample_path sample_limit "/w" {|
    chat w _ _ := ({| answer_deltas := []; answer_outcome := ProviderCancelled |}, w);
    read_clock w := (0%N, w);
    read_cancelled w := (false, w);
    ask_user w _ _ := (DecideDeny, w);
    open_object w _ _ _ := (inl "", w);
    run_tool w _ _ _ := (inl "", w) |}.
Definition sample_read : CallId.ToolCall string := {| call_id := "1"; call_name := "read_file"; call_arguments := "notes" |}.
Definition sample_files_host : Host string () := {|
  world := (); budget := budget_new U64_MAX 0 limits_default; events := []; observers := [] |}.
Definition sample_files_policy : TurnPolicy string := turn_policy_new id 0 Ask.

(** The link is followed, the file it leads to is prompted for, and only that
    file is read. *)
Lemma authorised_object_is_read_witness :
  let o := {| object := [".env"]; object_path := "/w/.env"; object_sensitive := true |} in
  let host := sample_files_host in
  gate sample_read (PrepRead o) = Some SensitivePath ∧ Confined "/w" File sensitive_default o ∧
  execute_prepared sample_tools sample_read (PrepRead o) host = Done ("TOKEN=1", host).
Proof.
  destruct (authorised_object_is_read sample_path sample_limit "/w" sample_tools sample_files_policy sample_read sample_files_host
    {| object := [".env"]; object_path := "/w/.env"; object_sensitive := true |} sample_files_host)
    as ((path & directory & Hreq & Hc) & _ & Hg & Hrun); [vm_compute; reflexivity|].
  split; [rewrite Hg; vm_compute; reflexivity|]. split; [by injection Hreq as <- <-|].
  destruct (Hrun sample_files_host) as (output & h3 & He & _). vm_compute. reflexivity.
Defined.
