(* ===== verification/PreparedTree.v ===== *)
(** The walk of [Prepared] on a file system that does not change: what it opens
    is what the kernel finds at the path that was asked for.

    The tree is given by the node at each place, a place being the names from
    the root of the file system. *)
From Stdlib Require Import Ascii.
From S2P Require Import Prelude PtyStream Sensitive Tools Completion Effects Prepared PreparedSpec.

#[local] Opaque MAX_SYMLINK_HOPS.

Inductive TreeNode : Type := NodeFile | NodeDir | NodeLink (target : string) | NodeOther.
#[export] Instance TreeNode_eq_dec : EqDecision TreeNode.
Proof. solve_decision. Defined.

Definition is_link (n : TreeNode) : bool := match n with NodeLink _ => true | _ => false end.
Definition type_of (n : TreeNode) : FileType :=
  match n with NodeFile => IFREG | NodeDir => IFDIR | NodeLink _ => IFLNK | NodeOther => IFOTHER end.

(** The names of a path, and the path of names. *)
Definition names (path : string) : list string := omap walked (components path).
Definition absolute (place : list string) : string :=
  match place with [] => "/" | _ => join "/" ("" :: place) end.

Section tree.
Context {W : Type} (node : list string → option TreeNode) (openable : list string → bool).
Context (contents : list string → bytes) (entries_of : list string → list (string * DirentType)).
(** [realpath]. *)
Context (canon : string → option (list string)).

(** How the kernel resolves names from a place: a link is followed from the
    directory it is in, or from the root. *)
Inductive Kernel : list string → list string → list string → Prop :=
| kernel_here place : Kernel place [] place
| kernel_up place rest r : Kernel (removelast place) rest r → Kernel place (".." :: rest) r
| kernel_entry place name rest r n :
    name ≠ ".." → node (place ++ [name]) = Some n → is_link n = false → (rest ≠ [] → n = NodeDir) →
    Kernel (place ++ [name]) rest r → Kernel place (name :: rest) r
| kernel_link place name rest target r :
    name ≠ ".." → node (place ++ [name]) = Some (NodeLink target) →
    Kernel (if is_absolute target then [] else place) (names target ++ rest) r → Kernel place (name :: rest) r.

(** A place that no link leads to: directories down to an entry. *)
Definition Real (place : list string) : Prop :=
  ∀ above name below, place = above ++ name :: below →
    Entry name ∧ ∃ n, node (above ++ [name]) = Some n ∧ is_link n = false ∧ (below ≠ [] → n = NodeDir).

(** What [realpath] promises: a path that is not empty leads there. *)
Record Realpath : Prop := {
  realpath_real path place : canon path = Some place → Real place;
  realpath_leads path place : canon path = Some place → is_absolute path = true → Kernel [] (names path) place;
  realpath_empty : canon "" = None;
}.

Definition no_entry : string := "No such file or directory (os error 2)".

Definition tree_open (place : list string) (flags : OpenFlags) : string + list string :=
  match node place with
  | Some n =>
      if is_link n then inl "Too many levels of symbolic links (os error 40)"
      else if O_DIRECTORY flags && negb (bool_decide (n = NodeDir)) then inl "Not a directory (os error 20)"
      else if openable place then inr place else inl "Permission denied (os error 13)"
  | None => inl no_entry
  end.

#[local] Instance tree_fs : FileSystem W (list string) := {|
  canonicalize path w := (match canon path with Some place => inr (absolute place) | None => inl no_entry end, w);
  openat parent name flags w := (tree_open (match parent with Some place => place ++ [name] | None => names name end) flags, w);
  fstatat place name w := (match node (place ++ [name]) with Some n => inr (type_of n) | None => inl no_entry end, w);
  fstat place w := (match node place with Some n => inr (type_of n) | None => inl no_entry end, w);
  readlinkat place name w :=
    (match node (place ++ [name]) with Some (NodeLink target) => inr target | _ => inl "Invalid argument (os error 22)" end, w);
  read_descriptor place n w := (inr (take n (contents place)), w);
  dup place w := (inr place, w);
  fdopendir place w := (inr (entries_of place), w);
|}.

(** ** Places and paths *)

Lemma real_entries place : Real place → Forall Entry place.
Proof.
  intros Hr. apply Forall_forall. intros name (above & below & ->)%list_elem_of_split. by apply (Hr above name below).
Qed.

Lemma components_absolute place : Forall Entry place → components (absolute place) = RootDir :: (Normal <$> place).
Proof.
  intros He. destruct place as [|name place]; [by vm_compute|]. unfold absolute. set (l := name :: place) in *.
  assert (split_char "/"%char (join "/" ("" :: l)) = "" :: l) as Hs.
  { apply (split_join "/"%char); [done|]. constructor; [done|]. eapply Forall_impl; [exact He|]. by intros s []. }
  assert (is_absolute (join "/" ("" :: l)) = true) as Ha by done.
  unfold components. rewrite Hs, Ha. f_equal. change (omap body_component l = Normal <$> l). clear Hs Ha.
  assert (∀ k, Forall Entry k → omap body_component k = Normal <$> k) as Hk; [|by apply Hk].
  induction 1 as [|s k [(H1 & H2 & H3) _] _ IH]; [done|].
  rewrite fmap_cons, <-IH. simpl. unfold body_component at 1.
  rewrite bool_decide_eq_false_2 by naive_solver. by rewrite bool_decide_eq_false_2.
Qed.

Lemma walked_normal (place : list string) : omap walked (Normal <$> place) = place.
Proof. induction place as [|name place IH]; [done|]. simpl. f_equal. exact IH. Qed.

Lemma names_absolute place : Forall Entry place → names (absolute place) = place.
Proof. intros He. unfold names. rewrite components_absolute by done. apply walked_normal. Qed.

Lemma relative_components path : is_absolute path = false → path ≠ "" → ∃ c rest, components path = c :: rest ∧ c ≠ RootDir.
Proof.
  intros Ha Hne. unfold components. rewrite Ha. destruct path as [|c s]; [done|]. unfold is_absolute, starts_with in Ha. simpl in Ha.
  assert (∃ w ws, split_char "/"%char (String c s) = String c w :: ws) as (w & ws & ->).
  { unfold split_char, split_on. simpl. rewrite Ha. destruct (pieces _ (chars s)) as [|w ws] eqn:Hp; [by apply pieces_not_nil in Hp|].
    by eexists _, _. }
  clear Ha. case_bool_decide as Hdot; [by eexists CurDir, _|]. simpl in Hdot.
  assert (∃ k, body_component (String c w) = Some k ∧ k ≠ RootDir) as (k & Hk & Hroot).
  { unfold body_component. rewrite bool_decide_eq_false_2 by (intros [?|Hd]; [done|by rewrite Hd in Hdot]). case_bool_decide; by eexists. }
  exists k, (omap body_component ws). split; [|done]. simpl. by rewrite Hk.
Qed.

(** ** The kernel's way *)

Lemma kernel_app place a m b r :
  Kernel place a m → (b ≠ [] → node m = Some NodeDir) → Kernel m b r → Kernel place (a ++ b) r.
Proof.
  induction 1 as [p|p rest r1 Hk IH|p name rest r1 n Hn Hnode Hl Hd Hk IH|p name rest target r1 Hn Hnode Hk IH]; intros Hm Hb; simpl; [done| | |].
  - apply kernel_up. by apply IH.
  - eapply kernel_entry; [done..| |by apply IH]. intros Hne. destruct rest; [|by apply Hd].
    inversion Hk; subst. rewrite Hm in Hnode by (by destruct b). by injection Hnode.
  - eapply kernel_link; [done..|]. rewrite app_assoc. by apply IH.
Qed.

Lemma kernel_down place below l r :
  Real (place ++ below) → node (place ++ below) = Some NodeDir → Kernel (place ++ below) l r → Kernel place (below ++ l) r.
Proof.
  revert place. induction below as [|name below IH]; intros place Hr Hd Hk; simpl; [by rewrite app_nil_r in Hk|].
  destruct (Hr place name below eq_refl) as ([(_ & _ & Hup) _] & n & Hn & Hl & Hb). rewrite cons_middle, app_assoc in Hr, Hd, Hk.
  eapply kernel_entry; [done..| |by apply IH]. intros _. destruct below; [|by apply Hb].
  rewrite app_nil_r in Hd. congruence.
Qed.

Lemma kernel_strip place below l r :
  Real (place ++ below) → node place = Some NodeDir → Kernel place (below ++ l) r →
  Kernel (place ++ below) l r ∧ (l ≠ [] → node (place ++ below) = Some NodeDir).
Proof.
  revert place. induction below as [|name below IH]; intros place Hr Hd Hk; simpl in *; [by rewrite app_nil_r|].
  destruct (Hr place name below eq_refl) as ([(_ & _ & Hup) _] & n & Hn & Hl & Hb). rewrite cons_middle, app_assoc in Hr |- *.
  inversion Hk as [| |? ? ? ? n' _ Hn' _ Hd' Hk'|? ? ? target ? _ Hn' _]; subst; [done| |rewrite Hn in Hn'; by injection Hn' as ->].
  destruct (decide (below ++ l = [])) as [[-> ->]%app_eq_nil|Hne].
  - by rewrite app_nil_r.
  - apply IH; [done| |done]. rewrite Hn'. f_equal. by apply Hd'.
Qed.

(** ** The walk *)

Context (root : list string).

(** The descriptors opened are the places on the way from the root. *)
Inductive Located : list (list string * string) → Prop :=
| located_root : Located [(root, "")]
| located_entry opened place name' name : Located opened → last opened = Some (place, name') → Entry name →
    Located (opened ++ [(place ++ [name], name)]).

Definition at_place (opened : list (list string * string)) : list string := default [] (fst <$> last opened).

Lemma located_cons opened : Located opened → ∃ rest, opened = (root, "") :: rest.
Proof. induction 1 as [|o p n' n _ [rest ->]]; by eexists. Qed.

Lemma located_last opened : Located opened → ∃ name, last opened = Some (at_place opened, name).
Proof.
  intros [rest ->]%located_cons. unfold at_place. destruct (last _) as [[place name]|] eqn:Hl; [by exists name|].
  by apply last_None in Hl.
Qed.

Lemma located_place opened : Located opened → at_place opened = root ++ (drop 1 opened).*2 ∧ Forall Entry (drop 1 opened).*2.
Proof.
  induction 1 as [|o p n' n Ho [IH Hf] Hl He]; [by rewrite app_nil_r|]. destruct (located_cons _ Ho) as [rest ->].
  simpl in *. rewrite drop_0 in *. unfold at_place in *. rewrite app_comm_cons, last_snoc. simpl. rewrite Hl in IH. simpl in IH.
  rewrite fmap_app, app_assoc, <-IH. split; [done|]. apply Forall_app. by split; [|constructor].
Qed.

Lemma located_up opened : Located opened → length opened ≠ 1 → Located (removelast opened) ∧ at_place (removelast opened) = removelast (at_place opened).
Proof.
  intros [|o p n' n Ho Hl _] Hne; [done|]. unfold at_place. rewrite removelast_last, last_snoc, Hl. simpl. by rewrite removelast_last.
Qed.

Lemma wp_here (opened : list (list string * string)) (Q : list string → W → Prop) R w :
  Located opened → Q (at_place opened) w → wp (innermost opened) Q R w.
Proof. intros [name Hl]%located_last HQ. unfold innermost. by rewrite Hl. Qed.

Context (Htop : node [] = Some NodeDir) (Hcanon : Realpath).
Context (spelled_root : string) (Hroot : canon spelled_root = Some root) (Hdir : node root = Some NodeDir).

Lemma wp_relative_kernel requested w :
  wp (relative_to_root (absolute root) spelled_root requested)
    (λ inside _, ∀ rest r, Kernel root (omap walked inside ++ rest) r →
      Kernel (if is_absolute requested then [] else root) (names requested ++ rest) r) (λ _ _, True) w.
Proof.
  pose proof (realpath_real Hcanon _ _ Hroot) as Hreal. pose proof (real_entries _ Hreal) as He.
  unfold relative_to_root. destruct (is_absolute requested) eqn:Ha; cbn [negb]; [|by rewrite wp_ret].
  assert (∀ l inside, components requested = l ++ inside → names requested = omap walked l ++ omap walked inside) as Hn
    by (intros l inside Hc; unfold names; by rewrite Hc, omap_app).
  case_match eqn:H1.
  { rewrite wp_ret. apply strip_components_suffix in H1. intros rest r Hk. apply Hn in H1. fold (names (absolute root)) in H1.
    rewrite H1, names_absolute, <-app_assoc by done. by apply (kernel_down [] root). }
  case_match eqn:H2.
  { rewrite wp_ret. apply strip_components_suffix in H2. intros rest r Hk. rewrite (Hn _ _ H2), <-app_assoc.
    eapply kernel_app; [|by intros _|exact Hk]. apply (realpath_leads Hcanon); [done|].
    destruct (is_absolute spelled_root) eqn:Hs; [done|]. exfalso.
    destruct (relative_components spelled_root Hs) as (c & l' & Hc & Hne); [intros ->; by rewrite realpath_empty in Hroot|].
    rewrite Hc in H2. unfold components in H2. rewrite Ha in H2. simpl in H2. congruence. }
  rewrite wp_bind, wp_ask. simpl. destruct (canon requested) as [place|] eqn:Hc; [|done]. case_match eqn:H3; [|done].
  rewrite wp_ret. apply strip_components_suffix in H3. intros rest r Hk.
  pose proof (realpath_real Hcanon _ _ Hc) as Hp. rewrite !components_absolute in H3 by (done || by apply real_entries).
  injection H3 as H3. apply (f_equal (omap walked)) in H3. rewrite omap_app, !walked_normal in H3. subst place.
  apply kernel_strip in Hk as [Hk Hd]; [|done..].
  eapply kernel_app; [by apply (realpath_leads Hcanon)|exact Hd|exact Hk].
Qed.

Lemma wp_walk_kernel requested hops pending opened w :
  Located opened → Forall Walkable pending →
  wp (walk (absolute root) spelled_root requested hops pending opened)
    (λ o _, Located o ∧ Kernel (at_place opened) pending (at_place o)) (λ _ _, True) w.
Proof.
  revert pending opened w. induction hops as [hops IHh] using lt_wf_ind. intros pending.
  induction pending as [|component pending IH]; intros opened w Ho Hp; [rewrite walk_nil, wp_ret; split; [done|apply kernel_here]|].
  apply Forall_cons in Hp as [Hc Hp]. rewrite walk_cons. case_bool_decide as Hup.
  { case_bool_decide as Hlen; [done|]. subst component. destruct (located_up _ Ho Hlen) as [Hup Hat].
    eapply wp_wand; [by apply IH| |done]. intros o w1 [? Hk]. split; [done|]. apply kernel_up. by rewrite <-Hat. }
  destruct Hc as [?|He]; [done|]. unfold look. rewrite wp_bind, wp_bind. apply wp_here; [done|].
  unfold c_name. rewrite wp_bind, wp_ensure. destruct (negb _) eqn:Hnul; [|done]. rewrite wp_in_context, wp_system. simpl.
  destruct (node (at_place opened ++ [component])) as [n|] eqn:Hn; [|done]. case_bool_decide as Htype.
  - destruct n as [| |target|]; try done. destruct hops as [|hops]; [done|]. rewrite wp_bind.
    unfold follow_link. rewrite wp_bind. apply wp_here; [done|]. rewrite wp_bind, wp_in_context, wp_system. simpl. rewrite Hn.
    destruct (is_absolute target) eqn:Ha.
    + rewrite wp_bind.
      eapply wp_wand; [apply wp_and; [apply wp_relative|apply wp_relative_kernel]| |done].
      intros inside w1 [(path & prefix & Hpath) Hk]. rewrite Ha in Hk. rewrite wp_ret. simpl.
      destruct (located_cons _ Ho) as [rest ->]. simpl. rewrite firstn_0.
      eapply wp_wand; [apply IHh; [lia|apply located_root|by eapply inside_names]| |done].
      intros o w2 [? Hk']. split; [done|]. eapply kernel_link; [done..|]. rewrite Ha. by apply Hk.
    + rewrite wp_ret. simpl. eapply wp_wand; [apply IHh; [lia|done|by apply pushed_names]| |done].
      intros o w2 [? Hk']. split; [done|]. eapply kernel_link; [done..|]. by rewrite Ha.
  - rewrite wp_bind. unfold descend, open_at. rewrite wp_bind. apply wp_here; [done|].
    rewrite wp_bind, wp_in_context, wp_bind, wp_ensure, Hnul, wp_system. unfold openat, tree_fs, tree_open. cbn [fst snd]. rewrite Hn.
    destruct (is_link n) eqn:Hl; [done|]. cbn [O_DIRECTORY]. destruct (negb _ && _) eqn:Hd; [done|].
    destruct (openable _); [|done]. rewrite wp_ret. destruct (located_last _ Ho) as [name Hlast].
    eapply wp_wand; [apply IH; [by eapply located_entry|done]| |done]. intros o w1 [? Hk]. split; [done|].
    unfold at_place in Hk at 1. rewrite last_snoc in Hk. simpl in Hk. eapply kernel_entry; [done..| |exact Hk].
    intros Hne. rewrite bool_decide_eq_false_2 in Hd by done. simpl in Hd. by apply negb_false_iff, bool_decide_eq_true in Hd.
Qed.
End tree.

(** ** The path an object is known by *)

Lemma path_append_assoc (s t u : string) : (s +:+ t) +:+ u = s +:+ t +:+ u.
Proof. induction s as [|c s IH]; [done|]. by rewrite !append_cons, IH. Qed.

Lemma join_snoc sep l a : l ≠ [] → join sep (l ++ [a]) = join sep l +:+ sep +:+ a.
Proof.
  induction l as [|x [|y l] IH]; [done..|]. intros _. specialize (IH ltac:(done)).
  change (x +:+ sep +:+ join sep ((y :: l) ++ [a]) = (x +:+ sep +:+ join sep (y :: l)) +:+ sep +:+ a).
  rewrite IH. by rewrite !path_append_assoc.
Qed.

Lemma no_slash_last base name : Entry name → ends_with_char "/"%char (base +:+ "/" +:+ name) = false.
Proof.
  intros [(Hne & _) Hs]. unfold ends_with_char. apply bool_decide_eq_false. rewrite !chars_app, last_app. simpl.
  unfold contains_char in Hs. rewrite string_exists_chars, existsb_false in Hs.
  destruct (chars name) as [|c l] eqn:Hc; [by destruct name|]. rewrite last_cons_cons.
  destruct (last (c :: l)) as [d|] eqn:Hl; [|by apply last_None in Hl]. intros [= ->].
  apply last_Some_elem_of, Hs in Hl. by rewrite bool_decide_eq_true_2 in Hl.
Qed.

Lemma absolute_snoc place name : Forall Entry place → Entry name → path_join (absolute place) name = absolute (place ++ [name]).
Proof.
  intros Hp [_ Hn]. unfold path_join.
  assert (starts_with "/"%char name = false) as ->.
  { destruct name as [|c name]; [done|]. unfold contains_char in Hn. simpl in *. by apply orb_false_iff in Hn as [-> _]. }
  destruct place as [|name' place] using rev_ind; [done|]. clear IHplace.
  assert (∀ l a, absolute (l ++ [a]) = join "/" ("" :: l) +:+ "/" +:+ a) as Habs
    by (intros l a; rewrite <-join_snoc by done; by destruct l).
  apply Forall_app in Hp as [_ [He _]%Forall_cons]. rewrite Habs, no_slash_last by done.
  rewrite Habs, app_comm_cons, join_snoc by done.
  rewrite bool_decide_eq_false_2; [done|]. by destruct (join "/" ("" :: place)).
Qed.

Lemma path_of_names place below :
  Forall Entry place → Forall Entry below → foldl path_join (absolute place) below = absolute (place ++ below).
Proof.
  revert place. induction below as [|name below IH]; intros place Hp Hb; simpl; [by rewrite app_nil_r|].
  apply Forall_cons in Hb as [He Hb]. rewrite absolute_snoc by done. rewrite IH; [|by apply Forall_app; split; [|constructor]|done].
  by rewrite <-app_assoc.
Qed.

(** C4: On a file system that does not change, what is prepared is what the
    kernel finds at the path that was asked for, links, [..] and absolute paths
    included; it lies beneath the root, is of the kind asked for, and is known
    by its real path. *)
Theorem prepare_finds_what_the_kernel_finds {W} node openable contents entries_of canon (w : W) spelled_root requested kind sensitive w' o :
  Realpath node canon →
  @prepare W _ (tree_fs node openable contents entries_of canon) spelled_root requested kind sensitive w = (w', Done o) →
  ∃ root below, canon spelled_root = Some root ∧ object o = root ++ below ∧
    Kernel node (if is_absolute requested then [] else root) (names requested) (object o) ∧
    (∃ n, node (object o) = Some n ∧ kind_matches kind (type_of n) = true) ∧
    object_path o = display_path (absolute (object o)).
Proof.
  intros Hcanon. set (fs := tree_fs node openable contents entries_of canon).
  assert (wp (prepare spelled_root requested kind sensitive) (λ o _, ∃ root below, canon spelled_root = Some root ∧
    object o = root ++ below ∧ Kernel node (if is_absolute requested then [] else root) (names requested) (object o) ∧
    (∃ n, node (object o) = Some n ∧ kind_matches kind (type_of n) = true) ∧
    object_path o = display_path (absolute (object o))) (λ _ _, True) w) as Hw; [|intros Hr; exact (wp_Done _ _ _ _ _ _ Hw Hr)].
  unfold prepare, open_at. rewrite wp_bind, wp_in_context, wp_system. cbn [canonicalize fs tree_fs fst snd].
  destruct (canon spelled_root) as [root|] eqn:Hroot; [|done].
  pose proof (real_entries _ _ (realpath_real _ _ Hcanon _ _ Hroot)) as He.
  rewrite wp_bind, wp_in_context, wp_bind, wp_ensure. destruct (negb _); [|done]. rewrite wp_system.
  cbn [openat fs tree_fs fst snd]. unfold tree_open. rewrite names_absolute by done.
  destruct (node root) as [n|] eqn:Hn; [|done]. destruct (is_link n); [done|]. cbn [O_DIRECTORY].
  destruct (bool_decide (n = NodeDir)) eqn:Hd; [|done]. apply bool_decide_eq_true in Hd as ->. simpl.
  destruct (openable root); [|done]. rewrite wp_bind.
  eapply wp_wand; [apply wp_and; [apply (wp_relative (absolute root) spelled_root requested)|by apply wp_relative_kernel]| |done].
  intros inside w3 [(path & prefix & Hc) Hk]. rewrite wp_bind.
  eapply wp_wand; [apply (wp_walk_kernel node openable contents entries_of canon root); [done..|apply located_root|by eapply inside_names]| |done].
  intros opened w4 [Hloc Hkernel]. unfold classify. rewrite wp_bind. eapply wp_here; [exact Hloc|].
  rewrite wp_bind, wp_in_context, wp_system. cbn [fstat fs tree_fs fst snd].
  destruct (node (at_place opened)) as [n|] eqn:Hat; [|done]. rewrite wp_bind, wp_ensure.
  destruct (kind_matches kind (type_of n)) eqn:Hkind; [|done]. rewrite wp_ret. simpl.
  destruct (located_place _ _ Hloc) as [Hplace Hbelow]. exists root, (drop 1 opened).*2. split_and!; [done|done| |by exists n|].
  - specialize (Hk [] (at_place opened)). unfold push_front_components in *. rewrite !app_nil_r in *. by apply Hk.
  - unfold opened_path. by rewrite path_of_names, <-Hplace.
Qed.

(** ** A sample: an absolute link back up *)

Definition sample_node (place : list string) : option TreeNode :=
  if bool_decide (place ∈ [[]; ["w"]; ["w"; "src"]; ["w"; "lib"]]) then Some NodeDir
  else if bool_decide (place = ["w"; "src"; "current"]) then Some (NodeLink "/w/lib/./../notes")
  else if bool_decide (place = ["w"; "notes"]) then Some NodeFile
  else None.
Definition sample_canon (path : string) : option (list string) := if bool_decide (path = "/w") then Some ["w"] else None.

Lemma sample_realpath : Realpath sample_node sample_canon.
Proof.
  split; [| |done]; unfold sample_canon.
  - intros path place. case_bool_decide; [|done]. intros [= <-] above name below Hw.
    destruct above as [|a above]; [injection Hw as <- <-|by destruct above].
    split; [by split|]. exists NodeDir. by vm_compute.
  - intros path place. case_bool_decide; [|done]. subst. intros [= <-] _. change (names "/w") with ["w"].
    eapply (kernel_entry _ [] "w" [] _ NodeDir); [done|by vm_compute|done|done|]. apply kernel_here.
Qed.

Lemma prepare_finds_what_the_kernel_finds_witness :
  let o := {| object := ["w"; "notes"]; object_path := "/w/notes"; object_sensitive := false |} in
  @prepare () _ (tree_fs sample_node (λ _, true) (λ _, []) (λ _, []) sample_canon) "/w" "src/../src/current" File sensitive_default () =
    ((), Done o) ∧
  Kernel sample_node ["w"] ["src"; ".."; "src"; "current"] (object o).
Proof.
  intros o.
  assert (@prepare () _ (tree_fs sample_node (λ _, true) (λ _, []) (λ _, []) sample_canon) "/w" "src/../src/current" File sensitive_default () =
    ((), Done o)) as Hr by (vm_compute; reflexivity).
  split; [exact Hr|].
  destruct (prepare_finds_what_the_kernel_finds sample_node (λ _, true) (λ _, []) (λ _, []) sample_canon () "/w" "src/../src/current"
    File sensitive_default () o sample_realpath Hr) as (root & below & Hroot & _ & Hk & _).
  assert (root = ["w"]) as -> by (vm_compute in Hroot; by injection Hroot). exact Hk.
Defined.
