(* ===== verification/Text.v ===== *)
(** Text that is shown on a terminal ([crates/xshell-view/src/lib.rs]): its
    characters, the removal of terminal control sequences, and the escaping of
    what is put into a prompt. A prompt shows all of what is asked about, in
    visible characters, and different things differently; what is printed has no
    control character left.

    A text is the list of its characters, each as its code point. *)
From Stdlib Require Import Ascii.
From S2P Require Import Prelude PtyStream.

Abbreviation text := (list N).

(** ** Characters *)

(** The first character of UTF-8 bytes, as [PtyStream.utf8_head] finds it. *)
Fixpoint decode (b : list N) : text :=
  match b with
  | a :: ((b1 :: ((b2 :: ((b3 :: r3) as r2)) as r1)) as r0) =>
      if (a <? 128)%N then a :: decode r0
      else if (a <? 224)%N then ((a - 192) * 64 + (b1 - 128))%N :: decode r1
      else if (a <? 240)%N then ((a - 224) * 4096 + (b1 - 128) * 64 + (b2 - 128))%N :: decode r2
      else ((a - 240) * 262144 + (b1 - 128) * 4096 + (b2 - 128) * 64 + (b3 - 128))%N :: decode r3
  | a :: ((b1 :: ((b2 :: []) as r1)) as r0) =>
      if (a <? 128)%N then a :: decode r0
      else if (a <? 224)%N then ((a - 192) * 64 + (b1 - 128))%N :: decode r1
      else [((a - 224) * 4096 + (b1 - 128) * 64 + (b2 - 128))%N]
  | a :: ((b1 :: []) as r0) => if (a <? 128)%N then a :: decode r0 else [((a - 192) * 64 + (b1 - 128))%N]
  | a :: [] => [a]
  | [] => []
  end.

(** A literal. *)
Definition txt (s : string) : text := decode (code <$> chars s).

(** [char::len_utf8], [str::len]. *)
Definition char_len (c : N) : N := if (c <? 128)%N then 1 else if (c <? 2048)%N then 2 else if (c <? 65536)%N then 3 else 4.
Fixpoint byte_len (t : text) : N := match t with [] => 0 | c :: t => char_len c + byte_len t end.

(** [char::is_control], [char::is_whitespace], [char::is_ascii_digit]. *)
Definition is_control (c : N) : bool := (c <? 32)%N || ((127 <=? c) && (c <=? 159))%N.
Definition is_whitespace (c : N) : bool :=
  ((9 <=? c) && (c <=? 13))%N || ((8192 <=? c) && (c <=? 8202))%N ||
  bool_decide (c ∈ [32; 133; 160; 5760; 8232; 8233; 8239; 8287; 12288])%N.
Definition is_digit (c : N) : bool := ((48 <=? c) && (c <=? 57))%N.

Definition LF : N := 10.
Definition TAB : N := 9.
Definition ESC : N := 27.

(** ** Strings *)

Fixpoint drop_while (p : N → bool) (t : text) : text := match t with c :: t' => if p c then drop_while p t' else t | [] => [] end.
Fixpoint take_while (p : N → bool) (t : text) : text := match t with c :: t => if p c then c :: take_while p t else [] | [] => [] end.
Definition trim_start_matches (p : N → bool) (t : text) : text := drop_while p t.
Definition trim_end_matches (p : N → bool) (t : text) : text := rev (drop_while p (rev t)).
Definition trim_start : text → text := trim_start_matches is_whitespace.
Definition trim_end : text → text := trim_end_matches is_whitespace.
Definition trim (t : text) : text := trim_end (trim_start t).
Definition char_is (c d : N) : bool := (c =? d)%N.

Fixpoint strip_prefix (prefix t : text) {struct prefix} : option text :=
  match prefix, t with
  | [], _ => Some t
  | p :: prefix, c :: t => if (p =? c)%N then strip_prefix prefix t else None
  | _ :: _, [] => None
  end.
Definition ends_with (suffix t : text) : bool := bool_decide (is_Some (strip_prefix (rev suffix) (rev t))).

(** [str::find], in characters, and [str::split] at a character. *)
Fixpoint find (pattern t : text) : option nat :=
  match strip_prefix pattern t, t with
  | Some _, _ => Some O
  | None, [] => None
  | None, _ :: t => S <$> find pattern t
  end.
Definition split (p : N → bool) (t : text) : list text := pieces p t.

Fixpoint join (separator : text) (l : list text) : text :=
  match l with [] => [] | [t] => t | t :: l => t ++ separator ++ join separator l end.

(** [str::lines]. *)
Definition strip_return (t : text) : text := if bool_decide (last t = Some 13%N) then removelast t else t.
Definition lines (t : text) : list text :=
  let l := split (char_is LF) t in
  strip_return <$> (if bool_decide (last l = Some []) then removelast l else l).

(** ** Control sequences *)

Inductive SanitizeState : Type := Ground | Escape | Csi | Osc | OscEscape | ControlString | ControlStringEscape.

(** One character: the state after it, and whether it is kept. *)
Definition sanitize_char (s : SanitizeState) (c : N) : SanitizeState * bool :=
  match s with
  | Ground =>
      if bool_decide (c = LF ∨ c = TAB) then (Ground, true)
      else if bool_decide (c = ESC) then (Escape, false)
      else if bool_decide (c = 155%N) then (Csi, false)
      else if bool_decide (c = 157%N) then (Osc, false)
      else if bool_decide (c ∈ [144; 152; 158; 159]%N) then (ControlString, false)
      else (Ground, negb (is_control c))
  | Escape =>
      (if bool_decide (txt "[" = [c]) then Csi
       else if bool_decide (txt "]" = [c]) then Osc
       else if bool_decide (c ∈ txt "PX^_") then ControlString else Ground, false)
  | Csi => (if (64 <=? c)%N && (c <=? 126)%N then Ground else Csi, false)
  | Osc => (if bool_decide (c = 7%N) then Ground else if bool_decide (c = ESC) then OscEscape else Osc, false)
  | OscEscape => (if bool_decide (txt "\" = [c]) then Ground else Osc, false)
  | ControlString => (if bool_decide (c = ESC) then ControlStringEscape else ControlString, false)
  | ControlStringEscape => (if bool_decide (txt "\" = [c]) then Ground else ControlString, false)
  end.

(** [TerminalSanitizer::push]. *)
Fixpoint sanitize_push (s : SanitizeState) (t : text) : SanitizeState * text :=
  match t with
  | [] => (s, [])
  | c :: t =>
      let '(s, kept) := sanitize_char s c in
      let '(s, clean) := sanitize_push s t in
      (s, if kept : bool then c :: clean else clean)
  end.
Definition sanitize_finish (_ : SanitizeState) : SanitizeState := Ground.

Definition sanitize_terminal_text (t : text) : text := (sanitize_push Ground t).2.

(** ** Prompts *)

Definition is_invisible_format (c : N) : bool :=
  ((8203 <=? c) && (c <=? 8207))%N || ((8234 <=? c) && (c <=? 8238))%N || ((8288 <=? c) && (c <=? 8292))%N ||
  ((8294 <=? c) && (c <=? 8297))%N || (c =? 65279)%N.

(** [{:x}]. *)
Definition hex_char (d : N) : N := if (d <? 10)%N then (48 + d)%N else (87 + d)%N.
Fixpoint hex_digits (fuel : nat) (n : N) : text :=
  match fuel with
  | O => []
  | S fuel => if (n <? 16)%N then [hex_char n] else hex_digits fuel (n / 16) ++ [hex_char (n mod 16)]
  end.
Definition fmt_hex (n : N) : text := hex_digits (S (N.to_nat (N.size n))) n.

Definition escape_char (c : N) : text :=
  if bool_decide (c = LF) then txt "\n"
  else if bool_decide (c = TAB) then txt "\t"
  else if bool_decide (txt "\" = [c]) then txt "\\"
  else if is_control c || is_invisible_format c then txt "\u{" ++ fmt_hex c ++ txt "}"
  else [c].

Fixpoint escape_for_prompt (t : text) : text := match t with [] => [] | c :: t => escape_char c ++ escape_for_prompt t end.

Example escape_example :
  escape_for_prompt (txt "echo ok" ++ [27%N] ++ txt "[2K" ++ [13; 10]%N ++ txt "rm -rf /" ++ [9; 8238]%N ++ txt "gnp.exe\") =
  txt "echo ok\u{1b}[2K\u{d}\nrm -rf /\t\u{202e}gnp.exe\\".
Proof. vm_compute. reflexivity. Qed.

Example txt_example : txt "a│é😀" = [97; 9474; 233; 128512]%N.
Proof. vm_compute. reflexivity. Qed.

(** ** Hexadecimal digits *)

Definition hex_value (c : N) : N := if (c <? 58)%N then c - 48 else c - 87.
Definition hex_number (t : text) : N := foldl (λ n c, n * 16 + hex_value c)%N 0%N t.
Definition is_hex (c : N) : Prop := (48 ≤ c ≤ 57 ∨ 97 ≤ c ≤ 102)%N.

Lemma hex_char_value d : (d < 16)%N → hex_value (hex_char d) = d ∧ is_hex (hex_char d).
Proof. intros Hd. unfold hex_char, hex_value, is_hex. repeat match goal with |- context [(?a <? ?b)%N] => destruct (N.ltb_spec a b) end; lia. Qed.

Lemma hex_digits_number fuel n : (n < 16 ^ N.of_nat fuel)%N → hex_number (hex_digits fuel n) = n ∧ Forall is_hex (hex_digits fuel n).
Proof.
  revert n. induction fuel as [|fuel IH]; intros n Hn; [rewrite N.pow_0_r in Hn; split; [simpl; unfold hex_number; simpl; lia|constructor]|].
  cbn [hex_digits]. destruct (N.ltb_spec n 16) as [Hs|Hb].
  - destruct (hex_char_value n Hs) as [Hv Hh]. split; [|by constructor]. unfold hex_number. simpl. by rewrite Hv.
  - assert (n / 16 < 16 ^ N.of_nat fuel)%N as Hq.
    { rewrite Nat2N.inj_succ, N.pow_succ_r in Hn by lia. by apply N.Div0.div_lt_upper_bound. }
    destruct (IH _ Hq) as [Hv Hh]. destruct (hex_char_value (n mod 16)) as [Hm Hmh]; [by apply N.mod_lt|].
    split; [|by apply Forall_app; split; [|constructor]]. unfold hex_number in *. rewrite foldl_snoc, Hv, Hm.
    pose proof (N.div_mod n 16 ltac:(done)). lia.
Qed.

Lemma fmt_hex_number n : hex_number (fmt_hex n) = n ∧ Forall is_hex (fmt_hex n).
Proof.
  apply hex_digits_number. rewrite Nat2N.inj_succ, N2Nat.id.
  pose proof (N.size_gt n). eapply N.lt_le_trans; [exact H|]. etrans; [apply (N.pow_le_mono_l _ 16); lia|].
  apply N.pow_le_mono_r; lia.
Qed.

(** ** Prompts *)

(** What must not reach a prompt as it is, from the Unicode character database:
    the control characters (category Cc: C0, DEL and C1); what changes the
    direction of the text around it (the marks LRM and RLM; the embeddings and
    overrides LRE, RLE, PDF, LRO and RLO; the isolates LRI, RLI, FSI and PDI);
    and what has no width (ZWSP, ZWNJ, ZWJ; the word joiner and the invisible
    operators; the byte order mark). *)
Definition Control (c : N) : Prop := (c < 0x20 ∨ c = 0x7f ∨ 0x80 ≤ c < 0xa0)%N.
Definition directional : list N := [
  0x200e; 0x200f;
  0x202a; 0x202b; 0x202c; 0x202d; 0x202e;
  0x2066; 0x2067; 0x2068; 0x2069]%N.
Definition zero_width : list N := [
  0x200b; 0x200c; 0x200d;
  0x2060; 0x2061; 0x2062; 0x2063; 0x2064;
  0xfeff]%N.

(** A character that can be seen where it stands. *)
Definition Visible (c : N) : Prop := ¬ Control c ∧ c ∉ directional ∧ c ∉ zero_width.

Ltac decide_bounds := repeat match goal with
  | |- context [(?a <? ?b)%N] => destruct (N.ltb_spec a b)
  | |- context [(?a <=? ?b)%N] => destruct (N.leb_spec a b)
  | |- context [(?a =? ?b)%N] => destruct (N.eqb_spec a b) end.

Lemma is_control_spec c : is_control c = true ↔ Control c.
Proof.
  unfold is_control, Control. rewrite orb_true_iff, andb_true_iff, N.ltb_lt, !N.leb_le. lia.
Qed.

Lemma is_invisible_format_spec c : is_invisible_format c = true ↔ c ∈ directional ∨ c ∈ zero_width.
Proof.
  unfold is_invisible_format, directional, zero_width.
  rewrite !orb_true_iff, !andb_true_iff, !N.leb_le, N.eqb_eq, !elem_of_cons, !elem_of_nil. lia.
Qed.

(** The code's tests say just that. *)
Lemma visible_spec c : Visible c ↔ is_control c = false ∧ is_invisible_format c = false.
Proof.
  unfold Visible. rewrite <-is_control_spec, <-!not_true_iff_false, is_invisible_format_spec. naive_solver.
Qed.

(** Other characters without a width of their own are not escaped: the Arabic
    letter mark, which is directional as well, the Mongolian vowel separator,
    the line separator and the tag characters are shown as they are. *)
Lemma format_characters_are_not_escaped :
  let s := [0x61c; 0x180e; 0x2028; 0xe0020]%N in escape_for_prompt s = s.
Proof. vm_compute. reflexivity. Qed.

Definition BACKSLASH : N := 92.

Lemma hex_visible c : is_hex c → Visible c.
Proof.
  intros Hc. apply visible_spec. unfold is_hex in Hc. unfold is_control, is_invisible_format.
  decide_bounds; (done || lia).
Qed.

(** What a character is escaped to. *)
Inductive Escaped (c : N) : text → Prop :=
| escaped_plain : Visible c → c ≠ BACKSLASH → Escaped c [c]
| escaped_named d : (c = LF ∧ d = 110 ∨ c = TAB ∧ d = 116 ∨ c = BACKSLASH ∧ d = 92)%N → Escaped c [BACKSLASH; d]
| escaped_code : Escaped c ([BACKSLASH; 117; 123]%N ++ fmt_hex c ++ [125%N]).

Lemma escape_char_escaped c : Escaped c (escape_char c).
Proof.
  unfold escape_char. case_bool_decide as H1; [apply escaped_named; auto|]. case_bool_decide as H2; [apply escaped_named; auto|].
  change (txt "\") with [92%N]. case_bool_decide as H3; [apply escaped_named; right; right; by injection H3 as <-|].
  destruct (is_control c || is_invisible_format c) eqn:Hv; [apply (escaped_code c)|]. apply orb_false_iff in Hv.
  apply escaped_plain; [by apply visible_spec|]. intros ->. by apply H3.
Qed.

(** The digits end at the brace. *)
Lemma hex_until h h' s t :
  Forall is_hex h → Forall is_hex h' → h ++ 125%N :: s = h' ++ 125%N :: t → h = h' ∧ s = t.
Proof.
  intros Hh. revert h'. induction Hh as [|c h Hc Hh IH]; intros h' Hh' Heq.
  - destruct Hh' as [|c' h' Hc' _]; simpl in Heq; [by injection Heq|]. injection Heq as <- _. unfold is_hex in Hc'. lia.
  - destruct Hh' as [|c' h' Hc' Hh']; simpl in Heq; [injection Heq as -> _; unfold is_hex in Hc; lia|].
    injection Heq as <- Heq. by destruct (IH h' Hh' Heq) as [-> ->].
Qed.

Lemma escaped_inj c d a b s t : Escaped c a → Escaped d b → a ++ s = b ++ t → c = d ∧ s = t.
Proof.
  assert (∀ c, ¬ (c = LF ∧ 117 = 110 ∨ c = TAB ∧ 117 = 116 ∨ c = BACKSLASH ∧ 117 = 92)%N) as Hu by lia.
  destruct 1 as [Hv Hb|e He|]; destruct 1 as [Hv' Hb'|e' He'|]; simpl; intros Heq; try (exfalso; congruence).
  - by injection Heq.
  - injection Heq as <- <-. destruct He as [[-> ->]|[[-> ->]|[-> ->]]]; destruct He' as [[-> ?]|[[-> ?]|[-> ?]]]; done.
  - injection Heq as -> _. by apply Hu in He.
  - injection Heq as <- _. by apply Hu in He'.
  - injection Heq as Heq. destruct (fmt_hex_number c) as [Hc Hfc], (fmt_hex_number d) as [Hd Hfd].
    rewrite <-!app_assoc in Heq. destruct (hex_until _ _ _ _ Hfc Hfd Heq) as [Hsame ->]. split; [congruence|done].
Qed.

Lemma escape_nonempty c : escape_char c ≠ [].
Proof. by destruct (escape_char_escaped c). Qed.

Lemma escape_char_visible c : Forall Visible (escape_char c).
Proof.
  destruct (escape_char_escaped c) as [Hv _|d Hd|]; [by constructor| |].
  - constructor; [|constructor; [|constructor]]; apply visible_spec; [done|].
    destruct Hd as [[_ ->]|[[_ ->]|[_ ->]]]; done.
  - apply Forall_app. split; [repeat constructor; by apply visible_spec|]. apply Forall_app.
    split; [|repeat constructor; by apply visible_spec].
    eapply Forall_impl; [apply fmt_hex_number|apply hex_visible].
Qed.

(** C27: A prompt for approval shows exactly the text it asks about, which is what [tool_summary] says
    of the request. Whatever an agent writes, no character of the prompt is a control character, has no
    width or changes the direction of the text, as listed above, so it stays on its line; text of
    visible characters is shown as it is, but for the backslash; and two different texts are never
    shown alike. *)
Theorem prompts_show_what_is_asked (s : text) :
  Forall Visible (escape_for_prompt s) ∧
  (Forall (λ c, Visible c ∧ c ≠ BACKSLASH) s → escape_for_prompt s = s) ∧
  ∀ t, escape_for_prompt s = escape_for_prompt t → s = t.
Proof.
  split_and!.
  - induction s as [|c s IH]; simpl; [done|]. apply Forall_app. split; [apply escape_char_visible|done].
  - induction 1 as [|c s [[Hv Hi]%visible_spec Hb] _ IH]; simpl; [done|]. rewrite IH. unfold escape_char.
    rewrite (bool_decide_eq_false_2 (c = LF)) by (by intros ->). rewrite (bool_decide_eq_false_2 (c = TAB)) by (by intros ->).
    change (txt "\") with [92%N]. rewrite bool_decide_eq_false_2 by (intros [= <-]; done). by rewrite Hv, Hi.
  - induction s as [|c s IH]; intros [|d t]; simpl; [done| | |].
    + intros Heq. symmetry in Heq. by apply app_nil in Heq as [?%escape_nonempty _].
    + by intros [?%escape_nonempty _]%app_nil.
    + intros Heq. destruct (escaped_inj _ _ _ _ _ _ (escape_char_escaped c) (escape_char_escaped d) Heq) as [-> Hs].
      by rewrite (IH t Hs).
Qed.

Lemma prompts_show_what_is_asked_witness :
  escape_for_prompt (txt "rm -rf build") = txt "rm -rf build" ∧
  escape_for_prompt (txt "ls" ++ [8203%N]) ≠ escape_for_prompt (txt "ls").
Proof.
  split.
  - destruct (prompts_show_what_is_asked (txt "rm -rf build")) as (_ & Hsame & _). apply Hsame.
    let t := eval vm_compute in (txt "rm -rf build") in change (txt "rm -rf build") with t.
    repeat (apply Forall_cons; split; [split; [by apply visible_spec|done]|]). apply Forall_nil. done.
  - destruct (prompts_show_what_is_asked (txt "ls" ++ [8203%N])) as (_ & _ & Hinj). intros Heq%Hinj. discriminate.
Defined.

(** ** What is printed *)

(** A character that moves nothing but the line. *)
Definition Quiet (c : N) : Prop := c = LF ∨ c = TAB ∨ is_control c = false.

Lemma sanitize_push_app s t u :
  sanitize_push s (t ++ u) =
    let '(s, a) := sanitize_push s t in let '(s, b) := sanitize_push s u in (s, a ++ b).
Proof.
  revert s. induction t as [|c t IH]; intros s; simpl; [by destruct (sanitize_push s u)|].
  destruct (sanitize_char s c) as [s1 kept]. rewrite IH. destruct (sanitize_push s1 t) as [s2 a].
  destruct (sanitize_push s2 u) as [s3 b]. by destruct kept.
Qed.

Lemma sanitize_char_quiet s c s' : sanitize_char s c = (s', true) → s = Ground ∧ Quiet c.
Proof.
  destruct s; simpl; repeat case_bool_decide; try (intros [=]; done).
  - intros _. unfold Quiet. naive_solver.
  - intros [= _ Hc]. split; [done|]. right. right. by apply negb_true_iff.
Qed.

Lemma sanitize_push_quiet s t : Forall Quiet (sanitize_push s t).2.
Proof.
  revert s. induction t as [|c t IH]; intros s; simpl; [done|]. destruct (sanitize_char s c) as [s1 kept] eqn:Hc.
  specialize (IH s1). destruct (sanitize_push s1 t) as [s2 clean]. destruct kept; simpl; [|done]. constructor; [|done].
  by apply sanitize_char_quiet in Hc as [_ ?].
Qed.

Lemma sanitize_quiet t : Forall Quiet t → sanitize_push Ground t = (Ground, t).
Proof.
  induction 1 as [|c t Hc _ IH]; [done|]. cbn [sanitize_push].
  assert (sanitize_char Ground c = (Ground, true)) as ->; [|by rewrite IH]. cbn [sanitize_char].
  case_bool_decide as H1; [done|]. destruct Hc as [->|[->|Hc]]; [naive_solver..|].
  assert (∀ d, is_control d = true → c ≠ d) as Hne by (intros d Hd ->; congruence).
  rewrite (bool_decide_eq_false_2 (c = ESC)) by by apply Hne. rewrite (bool_decide_eq_false_2 (c = 155%N)) by by apply Hne.
  rewrite (bool_decide_eq_false_2 (c = 157%N)) by by apply Hne. rewrite bool_decide_eq_false_2; [by rewrite Hc|].
  intros Hin. repeat (apply elem_of_cons in Hin as [->|Hin]; [discriminate Hc|]). by apply elem_of_nil in Hin.
Qed.
