(* ===== verification/Markdown.v ===== *)
(** The rendering of an agent's response ([AgentRenderer] of
    [crates/xshell-view/src/lib.rs]): sanitized text in pieces, Markdown blocks,
    wrapped lines and tables.

    The Markdown parser (pulldown-cmark) and the widths of characters
    (unicode-width) are arguments. Writing is to a buffer, which does not fail. *)
From Stdlib Require Import Ascii.
From S2P Require Import Prelude PtyStream Text.

Definition DEFAULT_WIDTH : nat := 80.
Definition MIN_WIDTH : nat := 20.
Definition MAX_WIDTH : nat := 512.
Definition MAX_PENDING_BYTES : N := 64 * 1024.
Definition MAX_BLOCK_BYTES : N := 256 * 1024.

(** ** Options *)

Inductive OutputMode : Type := ModeAuto | ModeAlways | ModeNever.

Record RenderingConfig := {
  rc_markdown : OutputMode;
  rc_color : OutputMode;
  rc_width : option nat;
}.
Definition rendering_default : RenderingConfig := {| rc_markdown := ModeAuto; rc_color := ModeAuto; rc_width := None |}.

Record RenderOptions := {
  markdown : bool;
  ansi : bool;
  width : nat;
}.

Definition mode_enabled (mode : OutputMode) (is_terminal : bool) : bool :=
  match mode with ModeAuto => is_terminal | ModeAlways => true | ModeNever => false end.

Definition width_range : string :=
  "rendering width must be between " +:+ fmt_nat MIN_WIDTH +:+ " and " +:+ fmt_nat MAX_WIDTH +:+ " columns".

Definition resolve_for (config : RenderingConfig) (markdown_override color_override : option OutputMode)
    (stdout_is_terminal no_color : bool) (detected_width : nat) : Outcome string RenderOptions :=
  let width := default detected_width (rc_width config) in
  if negb ((MIN_WIDTH <=? width)%nat && (width <=? MAX_WIDTH)%nat) then Fail width_range
  else
    let markdown := mode_enabled (default (rc_markdown config) markdown_override) stdout_is_terminal in
    Done {| markdown := markdown;
            ansi := markdown && negb no_color && mode_enabled (default (rc_color config) color_override) stdout_is_terminal;
            width := width |}.

(** [COLUMNS], if it is a number, and the size of the terminal. *)
Definition detected_width (columns terminal : option nat) : nat :=
  Nat.min (Nat.max (default DEFAULT_WIDTH (match columns with Some n => Some n | None => terminal end)) MIN_WIDTH) MAX_WIDTH.

(** ** Styles *)

Record Style := {
  s_bold : bool;
  s_italic : bool;
  s_underline : bool;
  s_strike : bool;
  s_dim : bool;
  s_color : option N;
}.
#[export] Instance Style_eq_dec : EqDecision Style.
Proof. solve_decision. Defined.

Definition plain : Style := {| s_bold := false; s_italic := false; s_underline := false; s_strike := false; s_dim := false; s_color := None |}.
Definition set_bold (b : bool) (s : Style) : Style := {| s_bold := b; s_italic := s_italic s; s_underline := s_underline s;
  s_strike := s_strike s; s_dim := s_dim s; s_color := s_color s |}.
Definition set_italic (b : bool) (s : Style) : Style := {| s_bold := s_bold s; s_italic := b; s_underline := s_underline s;
  s_strike := s_strike s; s_dim := s_dim s; s_color := s_color s |}.
Definition set_underline (b : bool) (s : Style) : Style := {| s_bold := s_bold s; s_italic := s_italic s; s_underline := b;
  s_strike := s_strike s; s_dim := s_dim s; s_color := s_color s |}.
Definition set_strike (b : bool) (s : Style) : Style := {| s_bold := s_bold s; s_italic := s_italic s; s_underline := s_underline s;
  s_strike := b; s_dim := s_dim s; s_color := s_color s |}.
Definition set_dim (b : bool) (s : Style) : Style := {| s_bold := s_bold s; s_italic := s_italic s; s_underline := s_underline s;
  s_strike := s_strike s; s_dim := b; s_color := s_color s |}.
Definition set_color (c : option N) (s : Style) : Style := {| s_bold := s_bold s; s_italic := s_italic s; s_underline := s_underline s;
  s_strike := s_strike s; s_dim := s_dim s; s_color := c |}.
Definition cyan : Style → Style := set_color (Some 36%N).
Definition green : Style → Style := set_color (Some 32%N).
Definition blue : Style → Style := set_color (Some 34%N).
Definition bold : Style → Style := set_bold true.
Definition dim : Style → Style := set_dim true.

Definition ansi_codes (s : Style) : text :=
  join (txt ";") (
    (if s_bold s then [txt "1"] else []) ++ (if s_dim s then [txt "2"] else []) ++ (if s_italic s then [txt "3"] else []) ++
    (if s_underline s then [txt "4"] else []) ++ (if s_strike s then [txt "9"] else []) ++
    match s_color s with Some value => [txt (fmt_N value)] | None => [] end).

Record Span := {
  span_text : text;
  span_style : Style;
}.
Definition span (t : text) (s : Style) : Span := {| span_text := t; span_style := s |}.

(** ** Lines *)

Record Fence := {
  f_marker : N;
  f_length : nat;
  f_language : text;
}.

Definition fence_opens (line : text) : option Fence :=
  match trim_start line with
  | marker :: _ as trimmed =>
      if bool_decide (marker ∉ txt "`~") then None
      else
        let length := length (take_while (char_is marker) trimmed) in
        if (length <? 3)%nat then None
        else Some {| f_marker := marker; f_length := length; f_language := trim (drop length trimmed) |}
  | [] => None
  end.

Definition fence_closes (f : Fence) (line : text) : bool :=
  let trimmed := trim line in
  (f_length f <=? length (take_while (char_is (f_marker f)) trimmed))%nat && forallb (char_is (f_marker f)) trimmed.

Definition heading (line : text) : option (nat * text) :=
  let trimmed := trim_start line in
  let level := length (take_while (λ c, bool_decide (txt "#" = [c])) trimmed) in
  if (1 <=? level)%nat && (level <=? 6)%nat then pair level <$> strip_prefix (txt " ") (drop level trimmed) else None.

Definition bullet : text := txt "• ".

Definition list_item (line : text) : option (text * text) :=
  let trimmed := trim_start line in
  match strip_prefix (txt "- ") trimmed, strip_prefix (txt "* ") trimmed, strip_prefix (txt "+ ") trimmed with
  | Some content, _, _ | None, Some content, _ | None, None, Some content => Some (bullet, content)
  | None, None, None =>
      separator ← find (txt ". ") trimmed;
      let number := take separator trimmed in
      if negb (bool_decide (number = [])) && forallb is_digit number
      then Some (number ++ txt ". ", drop (separator + 2) trimmed) else None
  end.

Definition is_rule (line : text) : bool :=
  match filter (λ c, is_whitespace c = false) line with
  | marker :: _ as compact => (3 <=? byte_len compact)%N && bool_decide (marker ∈ txt "-*_") && forallb (char_is marker) compact
  | [] => false
  end.

(** A block quote: [trim_start().strip_prefix('>')]. *)
Definition quoted (line : text) : option text := strip_prefix (txt ">") (trim_start line).

Definition bar (c : N) : bool := bool_decide (txt "|" = [c]).

Definition split_table_row (line : text) : list text :=
  trim <$> split bar (trim_end_matches bar (trim_start_matches bar (trim line))).

Definition delimiter_cell (cell : text) : bool :=
  let colon c := bool_decide (txt ":" = [c]) in
  let cell := trim_end_matches colon (trim_start_matches colon (trim cell)) in
  (3 <=? byte_len cell)%N && forallb (λ c, bool_decide (txt "-" = [c])) cell.

Definition is_table (lines : list text) : bool :=
  match lines with
  | first :: second :: _ =>
      let header := split_table_row first in
      let delimiter := split_table_row second in
      negb (bool_decide (header = [])) && bool_decide (length header = length delimiter) && existsb bar first &&
      forallb delimiter_cell delimiter
  | _ => false
  end.

(** The rows that follow. *)
Fixpoint table_rows (columns : nat) (lines : list text) : nat :=
  match lines with
  | line :: lines =>
      if existsb bar line && bool_decide (length (split_table_row line) = columns) then S (table_rows columns lines) else O
  | [] => O
  end.

(** How many of the lines are a table. *)
Definition table_extent (lines : list text) : option nat :=
  if is_table lines then
    Some (2 + table_rows (length (split_table_row (default [] (head lines)))) (drop 2 lines))%nat
  else None.

(** ** Inline text *)

(** The parser's events that are looked at. *)
Inductive MarkdownEvent : Type :=
| StartEmphasis | EndEmphasis
| StartStrong | EndStrong
| StartStrikethrough | EndStrikethrough
| StartLink (dest_url : text) | EndLink
| EvText (t : text) | EvHtml (t : text) | EvInlineHtml (t : text)
| EvCode (t : text)
| EvSoftBreak | EvHardBreak
| EvTaskListMarker (checked : bool)
| EvFootnoteReference (t : text)
| EvOther.

Record Inline := {
  in_spans : list Span;
  in_style : Style;
  in_links : list text;
}.

Definition inline_add (t : text) (s : Style) (i : Inline) : Inline :=
  {| in_spans := in_spans i ++ [span t s]; in_style := in_style i; in_links := in_links i |}.
Definition inline_style (f : Style → Style) (i : Inline) : Inline :=
  {| in_spans := in_spans i; in_style := f (in_style i); in_links := in_links i |}.

Definition inline_event (i : Inline) (event : MarkdownEvent) : Inline :=
  match event with
  | StartEmphasis => inline_style (set_italic true) i
  | EndEmphasis => inline_style (set_italic false) i
  | StartStrong => inline_style (set_bold true) i
  | EndStrong => inline_style (set_bold false) i
  | StartStrikethrough => inline_style (set_strike true) i
  | EndStrikethrough => inline_style (set_strike false) i
  | StartLink dest_url =>
      inline_style (λ s, blue (set_underline true s))
        {| in_spans := in_spans i; in_style := in_style i; in_links := in_links i ++ [dest_url] |}
  | EndLink =>
      let i := inline_style (λ s, set_color None (set_underline false s)) i in
      match last (in_links i) with
      | Some destination =>
          let i := {| in_spans := in_spans i; in_style := in_style i; in_links := removelast (in_links i) |} in
          if bool_decide (destination = []) then i else inline_add (txt " (" ++ destination ++ txt ")") (blue (dim plain)) i
      | None => i
      end
  | EvText t | EvHtml t | EvInlineHtml t => inline_add t (in_style i) i
  | EvCode t => inline_add t (cyan plain) i
  | EvSoftBreak | EvHardBreak => inline_add (txt " ") (in_style i) i
  | EvTaskListMarker checked => inline_add (if checked then txt "[x] " else txt "[ ] ") (in_style i) i
  | EvFootnoteReference t => inline_add (txt "[" ++ t ++ txt "]") (in_style i) i
  | EvOther => i
  end.

Section render.
Context (parse : text → list MarkdownEvent) (char_width : N → option nat) (str_width : text → nat).

Definition inline_spans (source : text) : list Span :=
  in_spans (foldl inline_event {| in_spans := []; in_style := plain; in_links := [] |} (parse source)).
Definition plain_inline (source : text) : text := concat (span_text <$> inline_spans source).

(** A character of a span, put to the words so far and the one begun. *)
Definition words_char (style : Style) (s : list (list Span) * list Span) (c : N) : list (list Span) * list Span :=
  let '(words, current) := s in
  if is_whitespace c then if bool_decide (current = []) then s else (words ++ [current], [])
  else
    match last current with
    | Some l =>
        if bool_decide (span_style l = style)
        then (words, removelast current ++ [span (span_text l ++ [c]) style]) else (words, current ++ [span [c] style])
    | None => (words, current ++ [span [c] style])
    end.
Definition words (spans : list Span) : list (list Span) :=
  let '(words, current) := foldl (λ s sp, foldl (words_char (span_style sp)) s (span_text sp)) ([], []) spans in
  if bool_decide (current = []) then words else words ++ [current].

(** ** Wrapping *)

Definition chunk_char (limit : nat) (s : list text * text * nat) (c : N) : list text * text * nat :=
  let '(chunks, current, current_width) := s in
  let character_width := default 0%nat (char_width c) in
  if negb (bool_decide (current = [])) && (limit <? current_width + character_width)%nat
  then (chunks ++ [current], [c], character_width)
  else (chunks, current ++ [c], (current_width + character_width)%nat).
Definition split_at_width (limit : nat) (word : text) : list text :=
  let '(chunks, current, _) := foldl (chunk_char limit) ([], [], 0%nat) word in
  if bool_decide (current = []) then chunks else chunks ++ [current].

Definition nonempty (l : list text) : list text := filter (λ t, t ≠ []) l.
Definition split_whitespace (t : text) : list text := nonempty (split is_whitespace t).

Definition wrap_word (limit : nat) (s : list text * text) (word : text) : list text * text :=
  let '(lines, current) := s in
  let word_width := str_width word in
  if (limit <? word_width)%nat then
    ((if bool_decide (current = []) then lines else lines ++ [current]) ++ split_at_width limit word, [])
  else if bool_decide (current = []) then (lines, word)
  else if (str_width current + 1 + word_width <=? limit)%nat then (lines, current ++ txt " " ++ word)
  else (lines ++ [current], word).

Definition wrap_plain (limit : nat) (t : text) : list text :=
  let '(lines, current) := foldl (wrap_word limit) ([], []) (split_whitespace t) in
  let lines := if bool_decide (current = []) then lines else lines ++ [current] in
  if bool_decide (lines = []) then [[]] else lines.

(** ** Writing *)

Definition escape_codes (codes : text) : text := ESC :: txt "[" ++ codes ++ txt "m".

Definition styled (options : RenderOptions) (t : text) (style : Style) : text :=
  if bool_decide (t = []) || negb (ansi options) || bool_decide (style = plain) then t
  else escape_codes (ansi_codes style) ++ t ++ escape_codes (txt "0").

Definition line_word (options : RenderOptions) (continuation_prefix : text) (prefix_style : Style)
    (s : nat * nat * text) (word : list Span) : nat * nat * text :=
  let '(index, column, out) := s in
  let continuation_width := str_width continuation_prefix in
  let word_width := sum_list_with (λ sp, str_width (span_text sp)) word in
  let separator := if (0 <? index)%nat && (continuation_width <? column)%nat then 1%nat else 0%nat in
  let '(column, before) :=
    if (continuation_width <? column)%nat && (width options <? column + separator + word_width)%nat
    then (continuation_width, LF :: styled options continuation_prefix prefix_style)
    else if bool_decide (separator = 1%nat) then ((column + 1)%nat, txt " ") else (column, []) in
  (S index, (column + word_width)%nat, out ++ before ++ concat ((λ sp, styled options (span_text sp) (span_style sp)) <$> word)).

Definition line_text (options : RenderOptions) (spans : list Span) (first_prefix continuation_prefix : text) (prefix_style : Style) : text :=
  let start := (0%nat, str_width first_prefix, styled options first_prefix prefix_style) in
  let '(_, _, out) := foldl (line_word options continuation_prefix prefix_style) start (words spans) in
  out ++ [LF].

Definition repeat_text (t : text) (n : nat) : text := concat (replicate n t).

(** The row under the header and the cells of a line. *)
Definition table_rule (options : RenderOptions) (columns : nat) (widths : list nat) : text :=
  styled options (txt "├") (dim plain) ++
  concat (imap (λ index w, styled options (repeat_text (txt "─") (w + 2)) (dim plain) ++
    styled options (if bool_decide (S index = columns) then txt "┤" else txt "┼") (dim plain)) widths) ++ [LF].

Definition table_cell (options : RenderOptions) (style : Style) (physical_line w : nat) (wrapped : list text) : text :=
  let cell := default [] (wrapped !! physical_line) in
  txt " " ++ styled options cell style ++ repeat_text (txt " ") (w - str_width cell) ++ txt " " ++ styled options (txt "│") (dim plain).

Definition table_row (options : RenderOptions) (columns : nat) (widths : list nat) (row_index : nat) (row : list text) : text :=
  let wrapped := imap (λ column w, wrap_plain w (plain_inline (default [] (row !! column)))) widths in
  let height := max_list (length <$> wrapped) in
  let style := if bool_decide (row_index = 0%nat) then bold plain else plain in
  concat ((λ physical_line,
    styled options (txt "│") (dim plain) ++
    concat (zip_with (table_cell options style physical_line) widths wrapped) ++ [LF]) <$> seq 0 height) ++
  (if bool_decide (row_index = 0%nat) then table_rule options columns widths else []).

(** The widths of the columns, at least 3. *)
Definition column_widths (columns per_column : nat) (rows : list (list text)) : list nat :=
  foldl (λ widths row, imap (λ index w,
    match row !! index with
    | Some cell => Nat.min (Nat.max w (str_width (plain_inline cell))) per_column
    | None => w
    end) widths) (replicate columns 3%nat) rows.

Definition per_column (options : RenderOptions) (columns : nat) : nat := Nat.max ((width options - (columns * 3 + 1)) / columns) 3.

Definition table_text (options : RenderOptions) (lines : list text) : text :=
  let rows := split_table_row <$> take 1 lines ++ drop 2 lines in
  let columns := default 0%nat (length <$> head rows) in
  if bool_decide (columns = 0%nat) then []
  else if (width options <? columns * 4 + 1)%nat then
    concat (imap (λ index row,
      let style := if bool_decide (index = 0%nat) then bold plain else plain in
      line_text options [span (join (txt " │ ") (plain_inline <$> row)) style] (txt "│ ") (txt "│ ") style) rows)
  else
    let widths := column_widths columns (per_column options columns) rows in
    concat (imap (table_row options columns widths) rows).

(** ** The renderer *)

Record AgentRenderer := {
  options : RenderOptions;
  sanitizer : SanitizeState;
  pending : text;
  block : list text;
  block_bytes : N;
  fence : option Fence;
  received_delta : bool;
  wrote_any : bool;
  ends_with_newline : bool;
}.

Definition renderer_new (o : RenderOptions) : AgentRenderer := {|
  options := o; sanitizer := Ground; pending := []; block := []; block_bytes := 0; fence := None; received_delta := false;
  wrote_any := false; ends_with_newline := true |}.

Definition set_sanitizer (s : SanitizeState) (r : AgentRenderer) : AgentRenderer := {|
  options := options r; sanitizer := s; pending := pending r; block := block r; block_bytes := block_bytes r; fence := fence r;
  received_delta := received_delta r; wrote_any := wrote_any r; ends_with_newline := ends_with_newline r |}.
Definition set_pending (t : text) (r : AgentRenderer) : AgentRenderer := {|
  options := options r; sanitizer := sanitizer r; pending := t; block := block r; block_bytes := block_bytes r; fence := fence r;
  received_delta := received_delta r; wrote_any := wrote_any r; ends_with_newline := ends_with_newline r |}.
Definition set_block (l : list text) (bytes : N) (r : AgentRenderer) : AgentRenderer := {|
  options := options r; sanitizer := sanitizer r; pending := pending r; block := l; block_bytes := bytes; fence := fence r;
  received_delta := received_delta r; wrote_any := wrote_any r; ends_with_newline := ends_with_newline r |}.
Definition set_fence (f : option Fence) (r : AgentRenderer) : AgentRenderer := {|
  options := options r; sanitizer := sanitizer r; pending := pending r; block := block r; block_bytes := block_bytes r; fence := f;
  received_delta := received_delta r; wrote_any := wrote_any r; ends_with_newline := ends_with_newline r |}.
Definition set_received (r : AgentRenderer) : AgentRenderer := {|
  options := options r; sanitizer := sanitizer r; pending := pending r; block := block r; block_bytes := block_bytes r; fence := fence r;
  received_delta := true; wrote_any := wrote_any r; ends_with_newline := ends_with_newline r |}.
Definition noted (newline : bool) (r : AgentRenderer) : AgentRenderer := {|
  options := options r; sanitizer := sanitizer r; pending := pending r; block := block r; block_bytes := block_bytes r; fence := fence r;
  received_delta := received_delta r; wrote_any := true; ends_with_newline := newline |}.

(** What a step writes, and the renderer after it. *)
Definition Writes : Type := AgentRenderer → AgentRenderer * text.
Definition and_then (m k : Writes) : Writes := λ r, let '(r, a) := m r in let '(r, b) := k r in (r, a ++ b).
Definition silent (f : AgentRenderer → AgentRenderer) : Writes := λ r, (f r, []).
Definition with_renderer (f : AgentRenderer → Writes) : Writes := λ r, f r r.
(** A text that ends its line. *)
Definition write_lines (f : RenderOptions → text) : Writes := λ r, (noted true r, f (options r)).

Definition write_line (spans : list Span) (first_prefix continuation_prefix : text) (prefix_style : Style) : Writes :=
  write_lines (λ o, line_text o spans first_prefix continuation_prefix prefix_style).
Definition write_code_line (line : text) : Writes :=
  write_lines (λ o, styled o (txt "│ ") (cyan (dim plain)) ++ styled o line (cyan plain) ++ [LF]).
Definition write_rule : Writes := write_lines (λ o, repeat_text (txt "─") (Nat.min (width o) 40) ++ [LF]).
Definition write_table (lines : list text) : Writes := λ r,
  let t := table_text (options r) lines in (if bool_decide (t = []) then r else noted true r, t).

Definition flush_paragraph (paragraph : list text) : Writes :=
  if bool_decide (paragraph = []) then silent id
  else write_line (inline_spans (join (txt " ") (trim <$> paragraph))) [] [] plain.

(** A line of a block that is no table and no paragraph. *)
Definition special_line (line : text) : option Writes :=
  match heading line with
  | Some (level, content) =>
      Some (write_line (inline_spans content) (if bool_decide (level = 1%nat) then txt "▌ " else txt "▸ ") (txt "  ") (cyan (bold plain)))
  | None =>
      match list_item line with
      | Some (marker, content) =>
          Some (write_line (inline_spans content) marker (repeat_text (txt " ") (str_width marker)) (green plain))
      | None =>
          match quoted line with
          | Some content => Some (write_line (inline_spans (trim_start content)) (txt "│ ") (txt "│ ") (dim plain))
          | None => if is_rule line then Some write_rule else None
          end
      end
  end.

(** The loop of [flush_block]: [skip] lines were written with a table. *)
Fixpoint block_lines (skip : nat) (lines paragraph : list text) : Writes :=
  match lines with
  | [] => flush_paragraph paragraph
  | line :: rest =>
      match skip with
      | S skip => block_lines skip rest paragraph
      | O =>
          match table_extent lines with
          | Some rows => and_then (flush_paragraph paragraph) (and_then (write_table (take rows lines)) (block_lines (rows - 1) rest []))
          | None =>
              match special_line line with
              | Some m => and_then (flush_paragraph paragraph) (and_then m (block_lines 0 rest []))
              | None => block_lines 0 rest (paragraph ++ [line])
              end
          end
      end
  end.

Definition flush_block : Writes := with_renderer (λ r, and_then (silent (set_block [] 0)) (block_lines 0 (block r) [])).

Definition open_fence (f : Fence) : Writes :=
  and_then flush_block
    (and_then
      (if bool_decide (f_language f = []) then silent id
       else write_line [span (txt "code: " ++ f_language f) (cyan (dim plain))] (txt "┌ ") (txt "  ") (cyan (dim plain)))
      (silent (set_fence (Some f)))).

Definition process_line (line : text) : Writes := with_renderer (λ r,
  match fence r with
  | Some f => if fence_closes f line then silent (set_fence None) else write_code_line line
  | None =>
      match fence_opens line with
      | Some f => open_fence f
      | None =>
          if bool_decide (trim line = []) then and_then flush_block (write_lines (λ _, [LF]))
          else
            let bytes := (block_bytes r + byte_len line)%N in
            and_then (silent (set_block (block r ++ [line]) bytes))
              (if (MAX_BLOCK_BYTES <=? bytes)%N then flush_block else silent id)
      end
  end).

Fixpoint process_lines (lines : list text) : Writes :=
  match lines with [] => silent id | line :: lines => and_then (process_line line) (process_lines lines) end.

Definition streaming_threshold (o : RenderOptions) : N := N.min (N.of_nat (width o) * 4) MAX_PENDING_BYTES.

(** The whole lines of what is pending, and a rest that grew too long. *)
Definition push_pending : Writes := with_renderer (λ r,
  let pieces := split (char_is LF) (pending r) in
  and_then (silent (set_pending (default [] (last pieces))))
    (and_then (process_lines (removelast pieces))
      (with_renderer (λ r,
        if (streaming_threshold (options r) <=? byte_len (pending r))%N
        then and_then (silent (set_pending [])) (and_then (process_line (pending r)) flush_block) else silent id)))).

Definition push (input : text) : Writes := with_renderer (λ r,
  let '(state, sanitized) := sanitize_push (sanitizer r) input in
  and_then (silent (λ r, set_sanitizer state (set_received r)))
    (if bool_decide (sanitized = []) then silent id
     else if negb (markdown (options r)) then λ r, (noted (bool_decide (last sanitized = Some LF)) r, sanitized)
     else and_then (silent (set_pending (pending r ++ sanitized))) push_pending)).

Definition finish : Writes := with_renderer (λ r,
  and_then (silent (λ r, set_sanitizer (sanitize_finish (sanitizer r)) r))
    (if markdown (options r) then
       and_then
         (if bool_decide (pending r = []) then silent id
          else and_then (silent (set_pending [])) (process_line (pending r)))
         (and_then flush_block (silent (set_fence None)))
     else if wrote_any r && negb (ends_with_newline r) then write_lines (λ _, [LF]) else silent id)).

(** What is written for a response that came in these pieces. *)
Fixpoint push_all (inputs : list text) : Writes :=
  match inputs with [] => finish | input :: inputs => and_then (push input) (push_all inputs) end.
Definition rendered (o : RenderOptions) (inputs : list text) : text := (push_all inputs (renderer_new o)).2.
End render.
