(* ===== verification/MarkdownSpec.v ===== *)
(** What the renderer of agent responses writes ([Markdown]): nothing but quiet
    characters and its own colours - unless the Markdown parser makes a control
    character of a character reference. *)
From Stdlib Require Import Ascii.
From S2P Require Import Prelude PtyStream Text Markdown.

#[export] Instance Quiet_dec c : Decision (Quiet c).
Proof. unfold Quiet. apply _. Defined.

(** What agents write, once it is sanitized: no character reference begins in
    it without an ampersand. *)
Definition AMPERSAND : N := 38.
Definition Source (c : N) : Prop := Quiet c ∧ c ≠ AMPERSAND.

#[export] Instance Source_dec c : Decision (Source c).
Proof. unfold Source. apply _. Defined.

(** ** Parts of texts *)

Create HintDb parts.

Section parts.
Context (P : N → Prop).

Lemma drop_while_part p t : Forall P t → Forall P (drop_while p t).
Proof. induction 1 as [|c t Hc Ht IH]; simpl; [done|]. case_match; [done|by constructor]. Qed.
Lemma take_while_part p t : Forall P t → Forall P (take_while p t).
Proof. induction 1 as [|c t Hc Ht IH]; simpl; [done|]. case_match; [by constructor|done]. Qed.
Lemma rev_part t : Forall P t → Forall P (rev t).
Proof. intros Ht. apply Forall_rev. exact Ht. Qed.
Lemma trim_end_matches_part p t : Forall P t → Forall P (trim_end_matches p t).
Proof. intros Ht. by apply rev_part, drop_while_part, rev_part. Qed.
Lemma trim_start_part t : Forall P t → Forall P (trim_start t).
Proof. apply drop_while_part. Qed.
Lemma trim_part t : Forall P t → Forall P (trim t).
Proof. intros Ht. by apply trim_end_matches_part, drop_while_part. Qed.
Lemma strip_prefix_part prefix t u : strip_prefix prefix t = Some u → Forall P t → Forall P u.
Proof.
  revert t. induction prefix as [|p prefix IH]; intros t; simpl; [by intros [= ->]|].
  destruct t as [|c t]; [done|]. case_match; [|done]. intros Hu [_ Ht]%Forall_cons. by eapply IH.
Qed.
Lemma pieces_part p t : Forall P t → Forall (Forall P) (pieces p t).
Proof.
  induction 1 as [|c t Hc Ht IH]; simpl; [by repeat constructor|]. destruct (p c); [by constructor|].
  destruct IH as [|w ws Hw Hws]; [by repeat constructor|]. by repeat constructor.
Qed.
Lemma join_part separator l : Forall P separator → Forall (Forall P) l → Forall P (join separator l).
Proof.
  intros Hs. induction 1 as [|t l Ht Hl IH]; [constructor|]. simpl. destruct l; [done|]. by repeat apply Forall_app_2.
Qed.
Lemma repeat_part t n : Forall P t → Forall P (repeat_text t n).
Proof. intros Ht. induction n as [|n IH]; [constructor|]. by apply Forall_app_2. Qed.
Lemma concat_part l : Forall (Forall P) l → Forall P (concat l).
Proof. induction 1; [constructor|]. by apply Forall_app_2. Qed.
Lemma lookup_part l i : Forall (Forall P) l → Forall P (default [] (l !! i)).
Proof. intros Hl. destruct (l !! i) as [t|] eqn:Hi; [|constructor]. by eapply Forall_lookup_1. Qed.
Lemma split_table_row_part t : Forall P t → Forall (Forall P) (split_table_row t).
Proof.
  intros Ht. apply Forall_fmap. eapply Forall_impl; [apply pieces_part|intros u Hu; by apply trim_part].
  apply trim_end_matches_part, drop_while_part. by apply trim_part.
Qed.
End parts.

#[export] Hint Resolve drop_while_part take_while_part trim_end_matches_part trim_start_part trim_part pieces_part join_part
  repeat_part concat_part lookup_part split_table_row_part Forall_app_2 Forall_drop Forall_take : parts.

(** A literal is checked by computation. *)
Ltac literal := match goal with |- Forall ?P ?t => apply (bool_decide_eq_true_1 (Forall P t)); vm_compute; reflexivity end.
#[export] Hint Extern 1 (Forall _ (txt _)) => literal : parts.

Lemma source_quiet t : Forall Source t → Forall Quiet t.
Proof. intros Ht. eapply Forall_impl; [exact Ht|]. by intros c []. Qed.
#[export] Hint Resolve source_quiet : parts.

(** ** What may be written *)

Definition code_char (c : N) : Prop := is_digit c = true ∨ c = 59%N.

(** Quiet characters and, with colours, selections of a graphic rendition. *)
Inductive Rendered (colours : bool) : text → Prop :=
| rendered_nil : Rendered colours []
| rendered_char c t : Quiet c → Rendered colours t → Rendered colours (c :: t)
| rendered_codes codes t : colours = true → Forall code_char codes → Rendered colours t →
    Rendered colours (escape_codes codes ++ t).

Lemma rendered_quiet colours t : Forall Quiet t → Rendered colours t.
Proof. induction 1; by constructor. Qed.

Lemma rendered_app colours t u : Rendered colours t → Rendered colours u → Rendered colours (t ++ u).
Proof.
  intros Ht Hu. induction Ht as [|c t Hc _ IH|codes t Hcol Hcodes _ IH]; simpl; [done|by apply rendered_char|].
  change (ESC :: 91%N :: ?x) with (ESC :: txt "[" ++ x). rewrite <-app_assoc. by apply (rendered_codes _ codes).
Qed.

Lemma rendered_concat colours l : Forall (Rendered colours) l → Rendered colours (concat l).
Proof. induction 1; [constructor|]. by apply rendered_app. Qed.

(** ** Colours *)

Lemma decode_ascii b : Forall (λ c, c < 128)%N b → decode b = b.
Proof.
  induction b as [|a b IH]; intros Hb; [done|]. apply Forall_cons in Hb as [Ha Hb]. specialize (IH Hb).
  assert ((a <? 128)%N = true) as Hlt by by apply N.ltb_lt.
  destruct b as [|b1 [|b2 [|b3 b]]]; [done|cbn [decode] in *; by rewrite Hlt|cbn [decode] in *; rewrite Hlt; by f_equal..].
Qed.

Lemma number_codes n : Forall code_char (txt (fmt_N n)).
Proof.
  destruct (fmt_N_digits n) as (Hd & _). unfold txt.
  assert (Forall (λ c, 48 ≤ c ≤ 57)%N (code <$> chars (fmt_N n))) as Hc.
  { apply Forall_fmap. eapply Forall_impl; [exact Hd|]. intros c Hdigit. unfold is_ascii_digit, in_range in Hdigit. simpl.
    apply andb_true_iff in Hdigit as [?%N.leb_le ?%N.leb_le]. lia. }
  rewrite decode_ascii by (eapply Forall_impl; [exact Hc|]; intros c ?; simpl in *; lia).
  eapply Forall_impl; [exact Hc|]. intros c Hr. left. unfold is_digit. simpl in Hr. apply andb_true_iff. rewrite !N.leb_le. lia.
Qed.

Lemma ansi_codes_codes s : Forall code_char (ansi_codes s).
Proof.
  assert (∀ t, forallb (λ c, is_digit c || (c =? 59)%N) t = true → Forall code_char t) as Hl.
  { induction t as [|c t IH]; simpl; [constructor|]. intros [Hc Ht]%andb_true_iff. constructor; [|by apply IH].
    apply orb_true_iff in Hc as [?|?%N.eqb_eq]; [by left|by right]. }
  unfold ansi_codes. apply join_part; [by apply Hl|].
  repeat apply Forall_app_2; try (case_match; [apply Forall_singleton, Hl; reflexivity|constructor]).
  destruct (s_color s); [apply Forall_singleton, number_codes|constructor].
Qed.

Lemma styled_rendered o t style : Forall Quiet t → Rendered (ansi o) (styled o t style).
Proof.
  intros Ht. unfold styled. destruct (_ || _) eqn:Hplain; [by apply rendered_quiet|].
  apply orb_false_iff in Hplain as [[_ Ha%negb_false_iff]%orb_false_iff _].
  apply rendered_codes; [done|apply ansi_codes_codes|]. apply rendered_app; [by apply rendered_quiet|].
  rewrite <-(app_nil_r (escape_codes _)). apply rendered_codes; [done| |constructor]. repeat constructor; by left.
Qed.

Create HintDb rendered.
#[export] Hint Resolve styled_rendered rendered_quiet rendered_app rendered_concat ansi_codes_codes : rendered.
#[export] Hint Resolve Forall_nil_2 : parts.
#[export] Hint Extern 1 (Forall Quiet (txt _)) => literal : rendered.
#[export] Hint Extern 1 (Forall Quiet [LF]) => literal : rendered parts.

#[local] Opaque txt.

Section render.
Context (parse : text → list MarkdownEvent) (char_width : N → option nat) (str_width : text → nat).

(** ** Inline text *)

Definition event_texts (event : MarkdownEvent) : list text :=
  match event with
  | StartLink t | EvText t | EvHtml t | EvInlineHtml t | EvCode t | EvFootnoteReference t => [t]
  | _ => []
  end.

(** What CommonMark promises: without a character reference, the text of a
    document has only characters of the document, and line ends. *)
Definition Parses : Prop := ∀ t, Forall Source t → Forall (λ event, Forall (Forall Quiet) (event_texts event)) (parse t).

Definition QuietSpans (spans : list Span) : Prop := Forall (λ sp, Forall Quiet (span_text sp)) spans.
Definition QuietInline (i : Inline) : Prop := QuietSpans (in_spans i) ∧ Forall (Forall Quiet) (in_links i).

Lemma inline_add_quiet t s i : Forall Quiet t → QuietInline i → QuietInline (inline_add t s i).
Proof. intros Ht [Hs Hl]. split; [|done]. apply Forall_app. by split; [|constructor]. Qed.
Lemma inline_style_quiet f i : QuietInline i → QuietInline (inline_style f i).
Proof. by intros [Hs Hl]. Qed.

Lemma inline_event_quiet i event : Forall (Forall Quiet) (event_texts event) → QuietInline i → QuietInline (inline_event i event).
Proof.
  intros He Hi. destruct event; cbn [event_texts inline_event] in *; try (by apply inline_style_quiet); try done;
    try (apply inline_add_quiet; [by auto with parts|done]); try (rewrite Forall_singleton in He; by apply inline_add_quiet).
  - apply inline_style_quiet. destruct Hi as [Hs Hl]. split; [done|]. apply Forall_app. by split.
  - cbv zeta. cbn [in_links in_spans in_style inline_style]. destruct Hi as [Hs Hl]. destruct (last (in_links i)) as [destination|] eqn:Hlast; [|by split].
    assert (QuietInline {| in_spans := in_spans i; in_style := set_color None (set_underline false (in_style i));
      in_links := removelast (in_links i) |}) as Hq.
    { split; [done|]. apply Forall_forall. intros t Ht. rewrite Forall_forall in Hl. apply Hl.
      destruct (in_links i) as [|x l _] using rev_ind; [done|]. rewrite removelast_last in Ht. apply elem_of_app. by left. }
    case_bool_decide; [done|]. apply inline_add_quiet; [|done].
    rewrite Forall_forall in Hl. specialize (Hl _ (last_Some_elem_of _ _ Hlast)). auto with parts.
  - apply inline_add_quiet; [|done]. case_match; auto with parts.
  - apply inline_add_quiet; [|done]. rewrite Forall_singleton in He. auto with parts.
Qed.

Lemma inline_spans_quiet t : Parses → Forall Source t → QuietSpans (inline_spans parse t).
Proof.
  intros Hp Ht. specialize (Hp t Ht). unfold inline_spans.
  assert (∀ events i, Forall (λ event, Forall (Forall Quiet) (event_texts event)) events → QuietInline i →
    QuietInline (foldl inline_event i events)) as Hf.
  { induction events as [|e events IH]; intros i He Hi; [done|]. apply Forall_cons in He as [He Hes]. simpl. apply IH; [done|].
    by apply inline_event_quiet. }
  apply (Hf (parse t)); [done|]. split; constructor.
Qed.

Lemma plain_inline_quiet t : Parses → Forall Source t → Forall Quiet (plain_inline parse t).
Proof. intros Hp Ht. apply concat_part, Forall_fmap. by apply inline_spans_quiet. Qed.

Lemma words_char_quiet style s c :
  Quiet c → Forall QuietSpans s.1 ∧ QuietSpans s.2 → Forall QuietSpans (words_char style s c).1 ∧ QuietSpans (words_char style s c).2.
Proof.
  destruct s as [ws current]. intros Hc [Hw Hcur]. unfold words_char. simpl in *.
  assert (QuietSpans (current ++ [span [c] style])) as Hnew by (apply Forall_app_2; [done|by apply Forall_singleton, Forall_singleton]).
  destruct (is_whitespace c); [case_bool_decide; [done|]; split; [apply Forall_app; by split; [|constructor]|constructor]|].
  destruct current as [|l current _] using rev_ind; [done|]. rewrite last_snoc. case_bool_decide; [|done]. split; [done|].
  apply Forall_app in Hcur as [Hcur [Hl _]%Forall_cons]. rewrite removelast_last. apply Forall_app. split; [done|].
  apply Forall_singleton. simpl. apply Forall_app_2; [done|by apply Forall_singleton].
Qed.

Lemma words_quiet spans : QuietSpans spans → Forall QuietSpans (words spans).
Proof.
  intros Hs. unfold words.
  assert (∀ style t s, Forall Quiet t → Forall QuietSpans s.1 ∧ QuietSpans s.2 →
    Forall QuietSpans (foldl (words_char style) s t).1 ∧ QuietSpans (foldl (words_char style) s t).2) as Ht.
  { intros style t. induction t as [|c t IH]; intros s Hq Hi; [done|]. apply Forall_cons in Hq as [Hc Hq]. simpl.
    apply IH; [done|]. by apply words_char_quiet. }
  assert (∀ l s, QuietSpans l → Forall QuietSpans s.1 ∧ QuietSpans s.2 →
    let r := foldl (λ s sp, foldl (words_char (span_style sp)) s (span_text sp)) s l in Forall QuietSpans r.1 ∧ QuietSpans r.2) as Hl.
  { induction l as [|sp l IH]; intros s Hq Hi; [done|]. apply Forall_cons in Hq as [Hsp Hq]. simpl. apply IH; [done|]. by apply Ht. }
  destruct (Hl spans ([], []) Hs) as [Hw Hc]; [split; constructor|]. destruct (foldl _ _ spans) as [ws current]. simpl in *.
  case_bool_decide; [done|]. apply Forall_app. by split; [|constructor].
Qed.

(** ** Wrapping and writing *)

Lemma foldl_keeps {A B} (P : B → Prop) (Q : A → Prop) (f : B → A → B) l b :
  (∀ b a, P b → Q a → P (f b a)) → P b → Forall Q l → P (foldl f b l).
Proof. intros Hf. revert b. induction l as [|a l IH]; intros b Hb Hl; [done|]. apply Forall_cons in Hl as [? ?]. simpl. auto. Qed.

Lemma split_at_width_quiet limit t : Forall Quiet t → Forall (Forall Quiet) (split_at_width char_width limit t).
Proof.
  intros Ht. unfold split_at_width. set (f := chunk_char char_width limit).
  assert (∀ s, foldl f ([], [], 0%nat) t = s → Forall (Forall Quiet) s.1.1 ∧ Forall Quiet s.1.2) as Hf.
  { intros s <-. apply (foldl_keeps (λ s, Forall (Forall Quiet) s.1.1 ∧ Forall Quiet s.1.2) Quiet); [|by split; constructor|done].
    intros [[chunks current] w] c [Hch Hcur] Hc. simpl in *. case_match; simpl.
    - split; [apply Forall_app_2; [done|by apply Forall_singleton]|by apply Forall_singleton].
    - split; [done|]. apply Forall_app_2; [done|by apply Forall_singleton]. }
  destruct (foldl f _ t) as [[chunks current] w] eqn:Hs. destruct (Hf _ eq_refl) as [Hch Hcur]. simpl in *.
  case_bool_decide; [done|]. apply Forall_app_2; [done|by apply Forall_singleton].
Qed.

Lemma wrap_plain_quiet limit t : Forall Quiet t → Forall (Forall Quiet) (wrap_plain char_width str_width limit t).
Proof.
  intros Ht. unfold wrap_plain.
  assert (∀ s, foldl (wrap_word char_width str_width limit) ([], []) (split_whitespace t) = s → Forall (Forall Quiet) s.1 ∧ Forall Quiet s.2) as Hf.
  { intros s <-. apply (foldl_keeps (λ s, Forall (Forall Quiet) s.1 ∧ Forall Quiet s.2) (Forall Quiet)); [|by split; constructor|].
    - intros [ls current] word [Hl Hc] Hw. unfold wrap_word. simpl in *. repeat case_match; simpl; split; try done; try constructor;
        repeat apply Forall_app_2; try done; try (by apply split_at_width_quiet); try (by apply Forall_singleton); literal.
    - apply Forall_forall. intros word [_ Hin]%list_elem_of_filter. revert word Hin. apply Forall_forall. by apply pieces_part. }
  destruct (foldl _ _ _) as [ls current] eqn:Hs. destruct (Hf _ eq_refl) as [Hl Hc]. simpl in *.
  assert (Forall (Forall Quiet) (if bool_decide (current = []) then ls else ls ++ [current])) as Hall
    by (case_match; [done|apply Forall_app_2; [done|by apply Forall_singleton]]).
  revert Hall. cbv zeta. generalize (if bool_decide (current = []) then ls else ls ++ [current]). intros k Hk.
  case_bool_decide; [by repeat constructor|done].
Qed.

Lemma line_text_rendered o spans first continuation style :
  QuietSpans spans → Forall Quiet first → Forall Quiet continuation → Rendered (ansi o) (line_text str_width o spans first continuation style).
Proof.
  intros Hs Hf Hc. unfold line_text. set (start := (0%nat, str_width first, styled o first style)).
  assert (Rendered (ansi o) (foldl (line_word str_width o continuation style) start (words spans)).2) as Hl.
  { apply (foldl_keeps (λ s, Rendered (ansi o) s.2) QuietSpans); [|by apply styled_rendered|by apply words_quiet].
    intros [[index column] out] word Hout Hword. unfold line_word. simpl in *. repeat case_match; simplify_eq; simpl;
      (apply rendered_app; [done|]); try (apply rendered_char; [by left|]); try (apply rendered_app; [by apply styled_rendered|]);
      try (apply rendered_char; [by right; right|]);
      (apply rendered_concat, Forall_fmap; eapply Forall_impl; [exact Hword|]; intros sp Hsp; by apply styled_rendered). }
  destruct (foldl _ start _) as [[index column] out]. simpl in *. apply rendered_app; [done|]. apply rendered_quiet. literal.
Qed.

Lemma imap_rendered {A} colours (f : nat → A → text) l :
  (∀ i x, x ∈ l → Rendered colours (f i x)) → Rendered colours (concat (imap f l)).
Proof.
  intros Hf. apply rendered_concat, Forall_lookup. intros i t Hi. rewrite list_lookup_imap in Hi.
  destruct (l !! i) as [x|] eqn:Hx; [|done]. injection Hi as <-. apply Hf. by eapply list_elem_of_lookup_2.
Qed.

Lemma table_rule_rendered o columns widths : Rendered (ansi o) (table_rule o columns widths).
Proof.
  unfold table_rule. apply rendered_app; [auto with rendered|]. apply rendered_app; [|auto with rendered].
  apply imap_rendered. intros i w _. apply rendered_app; [|case_match; auto with rendered].
  apply styled_rendered, repeat_part. literal.
Qed.

Lemma table_row_rendered o columns widths i row :
  Parses → Forall (Forall Source) row → Rendered (ansi o) (table_row parse char_width str_width o columns widths i row).
Proof.
  intros Hp Hrow. unfold table_row. cbv zeta. set (wrapped := imap _ widths).
  assert (Forall (Forall (Forall Quiet)) wrapped) as Hw.
  { apply Forall_lookup. intros k l Hk. unfold wrapped in Hk. rewrite list_lookup_imap in Hk.
    destruct (widths !! k) as [w|]; [|done]. injection Hk as <-. apply wrap_plain_quiet, plain_inline_quiet; [done|by apply lookup_part]. }
  apply rendered_app; [|case_match; [apply table_rule_rendered|constructor]].
  apply rendered_concat, Forall_fmap, Forall_forall. intros line _. simpl. apply rendered_app; [auto with rendered|].
  apply rendered_app; [|auto with rendered]. apply rendered_concat. clearbody wrapped. revert widths.
  induction Hw as [|l wrapped Hl Hw IH]; intros [|w widths]; simpl; [constructor..|]. constructor; [|apply IH].
  unfold table_cell. apply rendered_app; [auto with rendered|]. apply rendered_app; [by apply styled_rendered, lookup_part|].
  apply rendered_app; [apply rendered_quiet, repeat_part; literal|]. apply rendered_app; auto with rendered.
Qed.

Lemma table_text_rendered o lines :
  Parses → Forall (Forall Source) lines → Rendered (ansi o) (table_text parse char_width str_width o lines).
Proof.
  intros Hp Hl. unfold table_text. cbv zeta. set (rows := split_table_row <$> _).
  assert (Forall (Forall (Forall Source)) rows) as Hrows.
  { apply Forall_fmap. eapply Forall_impl; [|intros t; apply split_table_row_part]. auto with parts. }
  clearbody rows. case_match; [constructor|]. rewrite Forall_forall in Hrows. case_match; apply imap_rendered; intros i row Hrow.
  - apply line_text_rendered; [|literal..]. apply Forall_singleton. simpl. apply join_part; [literal|].
    apply Forall_fmap. eapply Forall_impl; [apply (Hrows _ Hrow)|]. intros cell Hc. by apply plain_inline_quiet.
  - by apply table_row_rendered, Hrows.
Qed.

(** ** The renderer *)

Context (Hparse : Parses).

(** What a renderer holds is source text. *)
Record Good (r : AgentRenderer) : Prop := {
  good_pending : Forall Source (pending r);
  good_block : Forall (Forall Source) (block r);
}.

(** A step that keeps a renderer good, and its options, and writes no more than
    it may. *)
Definition Safe (m : Writes) : Prop := ∀ r, Good r →
  Good (m r).1 ∧ options (m r).1 = options r ∧ Rendered (ansi (options r)) (m r).2.

Lemma safe_and_then m k : Safe m → Safe k → Safe (and_then m k).
Proof.
  intros Hm Hk r Hr. destruct (Hm r Hr) as (Hg & Ho & Hw). unfold and_then. destruct (m r) as [r1 a]. simpl in *.
  destruct (Hk r1 Hg) as (Hg2 & Ho2 & Hw2). destruct (k r1) as [r2 b]. simpl in *. rewrite Ho in Hw2.
  split; [done|]. split; [congruence|]. by apply rendered_app.
Qed.

Lemma safe_silent f : (∀ r, Good r → Good (f r) ∧ options (f r) = options r) → Safe (silent f).
Proof. intros Hf r Hr. destruct (Hf r Hr). split_and!; [done..|constructor]. Qed.

Lemma safe_with_renderer f : (∀ r, Good r → Safe (f r)) → Safe (with_renderer f).
Proof. intros Hf r Hr. by apply (Hf r Hr r). Qed.

Lemma safe_write_lines f : (∀ o, Rendered (ansi o) (f o)) → Safe (write_lines f).
Proof. intros Hf r [Hp Hb]. split_and!; [by split|done|apply Hf]. Qed.

Lemma safe_skip : Safe (silent id).
Proof. by apply safe_silent. Qed.

Lemma safe_write_line spans first continuation style :
  QuietSpans spans → Forall Quiet first → Forall Quiet continuation → Safe (write_line str_width spans first continuation style).
Proof. intros Hs Hf Hc. apply safe_write_lines. intros o. by apply line_text_rendered. Qed.

Lemma safe_write_code_line line : Forall Source line → Safe (write_code_line line).
Proof.
  intros Hl. apply safe_write_lines. intros o. apply rendered_app; [auto with rendered|].
  apply rendered_app; [|auto with rendered]. by apply styled_rendered, source_quiet.
Qed.

Lemma safe_write_table lines : Forall (Forall Source) lines → Safe (write_table parse char_width str_width lines).
Proof.
  intros Hl r [Hp Hb]. unfold write_table. split_and!; simpl; [case_match; by split|by case_match|by apply table_text_rendered].
Qed.

Lemma safe_flush_paragraph paragraph : Forall (Forall Source) paragraph → Safe (flush_paragraph parse str_width paragraph).
Proof.
  intros Hp. unfold flush_paragraph. case_bool_decide; [apply safe_skip|]. apply safe_write_line; [|constructor..].
  apply inline_spans_quiet; [done|]. apply join_part; [literal|]. apply Forall_fmap. eapply Forall_impl; [exact Hp|apply trim_part].
Qed.

Lemma heading_part line level content : heading line = Some (level, content) → Forall Source line → Forall Source content.
Proof.
  unfold heading. case_match; [|done]. destruct (strip_prefix _ _) as [u|] eqn:Hu; [|done]. intros [= _ ->] Hl.
  eapply strip_prefix_part; [exact Hu|]. by apply Forall_drop, trim_start_part.
Qed.

Lemma list_item_part line marker content : list_item line = Some (marker, content) → Forall Source line → Forall Quiet marker ∧ Forall Source content.
Proof.
  intros Hi Hl. apply (trim_start_part _ line) in Hl. unfold list_item in Hi. set (trimmed := trim_start line) in *.
  destruct (strip_prefix (txt "- ") trimmed) eqn:H1; [injection Hi as <- <-; split; [literal|by eapply strip_prefix_part]|].
  destruct (strip_prefix (txt "* ") trimmed) eqn:H2; [injection Hi as <- <-; split; [literal|by eapply strip_prefix_part]|].
  destruct (strip_prefix (txt "+ ") trimmed) eqn:H3; [injection Hi as <- <-; split; [literal|by eapply strip_prefix_part]|].
  destruct (find (txt ". ") trimmed) as [separator|]; [|done]. simpl in Hi. case_match; [|done]. injection Hi as <- <-.
  split; [|by apply Forall_drop]. apply Forall_app_2; [by apply source_quiet, Forall_take|literal].
Qed.

Lemma safe_special_line line m : Forall Source line → special_line parse str_width line = Some m → Safe m.
Proof.
  intros Hl. unfold special_line. destruct (heading line) as [[level content]|] eqn:Hh.
  { intros [= <-]. apply safe_write_line; [|case_match; literal|literal]. by apply inline_spans_quiet; [|eapply heading_part]. }
  destruct (list_item line) as [[marker content]|] eqn:Hi.
  { intros [= <-]. destruct (list_item_part _ _ _ Hi Hl) as [Hm Hc]. apply safe_write_line; [by apply inline_spans_quiet|done|].
    apply repeat_part. literal. }
  destruct (quoted line) as [content|] eqn:Hq.
  { intros [= <-]. apply safe_write_line; [|literal..]. apply inline_spans_quiet; [done|]. apply trim_start_part.
    eapply strip_prefix_part; [exact Hq|]. by apply trim_start_part. }
  destruct (is_rule line); [|done]. intros [= <-]. apply safe_write_lines. intros o. apply rendered_quiet, Forall_app_2; [|literal].
  apply repeat_part. literal.
Qed.

Lemma safe_block_lines skip lines paragraph :
  Forall (Forall Source) lines → Forall (Forall Source) paragraph → Safe (block_lines parse char_width str_width skip lines paragraph).
Proof.
  revert skip paragraph. induction lines as [|line lines IH]; intros skip paragraph Hl Hp; [by apply safe_flush_paragraph|].
  pose proof Hl as [Hline Hrest]%Forall_cons. cbn [block_lines]. destruct skip; [|by apply IH].
  destruct (table_extent (line :: lines)) as [rows|].
  { apply safe_and_then; [by apply safe_flush_paragraph|]. apply safe_and_then; [by apply safe_write_table, Forall_take|]. by apply IH. }
  destruct (special_line parse str_width line) as [m|] eqn:Hs.
  - apply safe_and_then; [by apply safe_flush_paragraph|]. apply safe_and_then; [by eapply safe_special_line|]. by apply IH.
  - apply IH; [done|]. apply Forall_app_2; [done|by apply Forall_singleton].
Qed.

Lemma safe_flush_block : Safe (flush_block parse char_width str_width).
Proof.
  apply safe_with_renderer. intros r [Hp Hb]. apply safe_and_then; [|by apply safe_block_lines].
  apply safe_silent. intros r' [Hp' Hb']. by repeat split.
Qed.

Lemma fence_opens_part line f : fence_opens line = Some f → Forall Source line → Forall Source (f_language f).
Proof.
  unfold fence_opens. intros Hf Hl. apply (trim_start_part _ line) in Hl. destruct (trim_start line) as [|marker t]; [done|].
  case_bool_decide; [done|]. cbv zeta in Hf. destruct (_ <? 3)%nat; [done|]. injection Hf as <-. cbn [f_language].
  apply trim_part, Forall_drop. by apply Forall_cons in Hl as [_ ?].
Qed.

Lemma safe_process_line line : Forall Source line → Safe (process_line parse char_width str_width line).
Proof.
  intros Hl. apply safe_with_renderer. intros r [Hp Hb].
  destruct (fence r) as [f|].
  { case_match; [|by apply safe_write_code_line]. apply safe_silent. intros r' [Hp' Hb']. by repeat split. }
  destruct (fence_opens line) as [f|] eqn:Hf.
  { apply safe_and_then; [apply safe_flush_block|]. apply safe_and_then.
    - case_bool_decide; [apply safe_skip|]. apply safe_write_line; [|literal..]. apply Forall_singleton. simpl.
      apply Forall_app_2; [literal|]. by apply source_quiet; eapply fence_opens_part.
    - apply safe_silent. intros r' [Hp' Hb']. by repeat split. }
  case_bool_decide.
  { apply safe_and_then; [apply safe_flush_block|]. apply safe_write_lines. intros o. apply rendered_quiet. literal. }
  apply safe_and_then; [|case_match; [apply safe_flush_block|apply safe_skip]].
  apply safe_silent. intros r' [Hp' Hb']. repeat split; [done|]. simpl. apply Forall_app_2; [done|by apply Forall_singleton].
Qed.

Lemma safe_process_lines lines : Forall (Forall Source) lines → Safe (process_lines parse char_width str_width lines).
Proof.
  induction 1 as [|line lines Hl _ IH]; [apply safe_skip|]. apply safe_and_then; [by apply safe_process_line|done].
Qed.

Lemma safe_set_pending t : Forall Source t → Safe (silent (set_pending t)).
Proof. intros Ht. apply safe_silent. intros r [Hp Hb]. by repeat split. Qed.

Lemma safe_push_pending : Safe (push_pending parse char_width str_width).
Proof.
  apply safe_with_renderer. intros r [Hp Hb]. set (pieces := split (char_is LF) (pending r)).
  assert (Forall (Forall Source) pieces) as Hpieces by by apply pieces_part. clearbody pieces.
  apply safe_and_then; [|apply safe_and_then].
  - apply safe_set_pending. destruct (last pieces) eqn:Hl; [|constructor]. rewrite Forall_forall in Hpieces.
    by apply Hpieces, last_Some_elem_of.
  - apply safe_process_lines. destruct pieces as [|x l _] using rev_ind; [constructor|]. rewrite removelast_last.
    by apply Forall_app in Hpieces as [? _].
  - apply safe_with_renderer. intros r' [Hp' Hb']. case_match; [|apply safe_skip].
    apply safe_and_then; [by apply safe_set_pending|]. apply safe_and_then; [by apply safe_process_line|apply safe_flush_block].
Qed.

(** Without Markdown anything may come; with it, no character references. *)
Definition Allowed (o : RenderOptions) (input : text) : Prop := markdown o = true → AMPERSAND ∉ input.

Lemma sanitize_sublist s t c : c ∈ (sanitize_push s t).2 → c ∈ t.
Proof.
  revert s. induction t as [|d t IH]; intros s; simpl; [done|]. destruct (sanitize_char s d) as [s1 kept].
  specialize (IH s1). destruct (sanitize_push s1 t) as [s2 clean]. simpl in *. destruct kept; simpl.
  - intros [->|Hc]%elem_of_cons; [by left|by right; apply IH].
  - intros Hc. right. by apply IH.
Qed.

Lemma sanitized_source s t : AMPERSAND ∉ t → Forall Source (sanitize_push s t).2.
Proof.
  intros Ha. apply Forall_forall. intros c Hc. split.
  - pose proof (sanitize_push_quiet s t) as Hq. rewrite Forall_forall in Hq. by apply Hq.
  - intros ->. by apply sanitize_sublist in Hc.
Qed.

Lemma push_safe input r : Allowed (options r) input → Good r →
  let m := push parse char_width str_width input in
  Good (m r).1 ∧ options (m r).1 = options r ∧ Rendered (ansi (options r)) (m r).2.
Proof.
  intros Ha Hr m. unfold m, push, with_renderer. pose proof (sanitize_push_quiet (sanitizer r) input) as Hq.
  assert (markdown (options r) = true → Forall Source (sanitize_push (sanitizer r) input).2) as Hs by (intros Hm; by apply sanitized_source, Ha).
  destruct (sanitize_push (sanitizer r) input) as [state sanitized]. simpl in *.
  assert (Safe (silent (λ r, set_sanitizer state (set_received r)))) as Hfirst
    by (apply safe_silent; intros r' [Hp' Hb']; by repeat split).
  eapply safe_and_then; [exact Hfirst| |done]. case_bool_decide; [apply safe_skip|].
  destruct (markdown (options r)) eqn:Hm; simpl.
  - apply safe_and_then; [|apply safe_push_pending]. apply safe_set_pending. destruct Hr. apply Forall_app_2; [done|by apply Hs].
  - intros r' [Hp' Hb']. split_and!; [by split|done|by apply rendered_quiet].
Qed.

Lemma safe_finish : Safe (finish parse char_width str_width).
Proof.
  apply safe_with_renderer. intros r [Hp Hb]. apply safe_and_then; [apply safe_silent; intros r' [Hp' Hb']; by repeat split|].
  case_match.
  - apply safe_and_then.
    + case_bool_decide; [apply safe_skip|]. apply safe_and_then; [apply safe_set_pending; constructor|by apply safe_process_line].
    + apply safe_and_then; [apply safe_flush_block|]. apply safe_silent. intros r' [Hp' Hb']. by repeat split.
  - case_match; [|apply safe_skip]. apply safe_write_lines. intros o. apply rendered_quiet. literal.
Qed.

(** C28: Whatever an agent answers, and however its answer is cut into pieces,
    what is written to the terminal is quiet characters and the colours of the
    renderer's own, if colours are on - without Markdown always, and with
    Markdown when the answer has no ampersand, at which a character reference
    begins. *)
Theorem responses_control_no_terminal o inputs :
  Forall (Allowed o) inputs → Rendered (ansi o) (rendered parse char_width str_width o inputs).
Proof.
  intros Hi. unfold rendered.
  assert (∀ r, options r = o → Good r → Rendered (ansi o) (push_all parse char_width str_width inputs r).2) as Hall;
    [|apply Hall; [done|by split; constructor]].
  induction Hi as [|input inputs Hinput _ IH]; intros r Ho Hr; cbn [push_all].
  - destruct (safe_finish r Hr) as (_ & _ & Hw). by rewrite Ho in Hw.
  - unfold and_then. rewrite <-Ho in Hinput. destruct (push_safe input r Hinput Hr) as (Hg & Ho' & Hw).
    destruct (push parse char_width str_width input r) as [r1 a]. simpl in *. rewrite Ho in *. specialize (IH r1 Ho' Hg).
    destruct (push_all _ _ _ inputs r1) as [r2 b]. simpl in *. by apply rendered_app.
Qed.
End render.

(** A line of one word is written as it is. *)
Lemma one_word_line str_width o word :
  ansi o = false → word ≠ [] → Forall (λ c, is_whitespace c = false) word →
  line_text str_width o [span word plain] [] [] plain = word ++ [LF].
Proof.
  intros Ha Hne Hw. unfold line_text. assert (words [span word plain] = [[span word plain]]) as ->.
  { assert (∀ l, l ≠ [] → Forall (λ c, is_whitespace c = false) l →
      foldl (words_char plain) ([], []) l = ([], [span l plain])) as Hl.
    { induction l as [|c l IH] using rev_ind; [done|]. intros _ [Hl [Hc _]%Forall_cons]%Forall_app. rewrite foldl_snoc.
      destruct l as [|d l]; [simpl; by rewrite Hc|]. rewrite IH by done. unfold words_char. by rewrite Hc. }
    unfold words. cbn [foldl span_text span_style span]. by rewrite Hl. }
  assert (∀ t s, styled o t s = t) as Hs by (intros t s; unfold styled; by rewrite Ha, orb_true_r).
  simpl. rewrite Nat.ltb_irrefl. simpl. by rewrite !Hs, app_nil_r.
Qed.

Definition reference : text := txt "&#27;[2J".

(** What the theorem above excludes does happen: CommonMark makes the
    character it numbers of a character reference, so an answer of printable
    characters only, which the sanitizer leaves as it is, clears the screen. *)
Lemma character_references_reach_the_terminal parse char_width str_width :
  parse reference = [EvText (ESC :: txt "[2J")] →
  sanitize_terminal_text reference = reference ∧
  rendered parse char_width str_width {| markdown := true; ansi := false; width := 80 |} [reference] = ESC :: txt "[2J" ++ [LF] ∧
  ¬ Rendered false (ESC :: txt "[2J" ++ [LF]).
Proof.
  intros Hp. split; [vm_compute; reflexivity|]. split.
  - assert (rendered parse char_width str_width {| markdown := true; ansi := false; width := 80 |} [reference] =
      line_text str_width {| markdown := true; ansi := false; width := 80 |} (inline_spans parse reference) [] [] plain ++ []) as ->
      by (vm_compute; reflexivity).
    rewrite app_nil_r.
    unfold inline_spans. rewrite Hp. cbn [foldl inline_event inline_add in_spans in_style app].
    apply (one_word_line _ _ (ESC :: txt "[2J")); [done|done|]. literal.
  - intros Hr. inversion Hr as [|c t Hq _|codes t Hc]; subst; [|done]. vm_compute in Hq. naive_solver.
Qed.

Definition sample_parser (t : text) : list MarkdownEvent :=
  if bool_decide (t = reference) then [EvText (ESC :: txt "[2J")] else [EvText t].
Definition column (c : N) : option nat := Some 1%nat.

Lemma character_references_reach_the_terminal_witness :
  rendered sample_parser column length {| markdown := true; ansi := false; width := 80 |} [reference] = ESC :: txt "[2J" ++ [LF].
Proof. apply (character_references_reach_the_terminal sample_parser column length). vm_compute. reflexivity. Defined.

Lemma sample_parses : Parses sample_parser.
Proof.
  intros t Ht. unfold sample_parser. case_bool_decide as Href; [|by apply Forall_singleton, Forall_singleton, source_quiet].
  exfalso. subst. revert Ht. apply (bool_decide_eq_false_1 (Forall Source reference)). vm_compute. reflexivity.
Qed.

Lemma responses_control_no_terminal_witness :
  Rendered true (rendered sample_parser column length {| markdown := true; ansi := true; width := 40 |}
    [txt "# Done" ++ [LF; LF] ++ txt "- one" ++ [27%N]; txt "[31mtwo"]) ∧
  rendered sample_parser column length {| markdown := true; ansi := false; width := 40 |}
    [txt "# Done" ++ [LF; LF] ++ txt "- one" ++ [27%N]; txt "[31mtwo"] = txt "▌ Done" ++ [LF; LF] ++ txt "• onetwo" ++ [LF].
Proof.
  split; [|vm_compute; reflexivity].
  apply (responses_control_no_terminal sample_parser column length sample_parses {| markdown := true; ansi := true; width := 40 |}).
  apply Forall_cons_2; [|apply Forall_cons_2; [|constructor]]; intros _; apply (bool_decide_eq_true_1 (AMPERSAND ∉ _)); vm_compute; reflexivity.
Defined.

(** A table that is not over the limit of [table_text] but wider than the
    terminal: four columns of three, with two spaces and a border each. *)
Definition narrow_table : text := txt "|A|B|C|D|" ++ [LF] ++ txt "|---|---|---|---|" ++ [LF].
Definition printed : list text :=
  split (char_is LF) (rendered (λ t, [EvText t]) column length {| markdown := true; ansi := false; width := 20 |} [narrow_table]).

Lemma tables_may_exceed_the_width : max_list (length <$> printed) = 25%nat.
Proof. vm_compute. reflexivity. Qed.
