(* ===== verification/Viewers.v ===== *)
(** The viewers of text resources ([ViewerRegistry] of
    [crates/xshell-view/src/lib.rs]): which viewer shows a resource, and the
    conversion of reStructuredText to the Markdown that is rendered. *)
From Stdlib Require Import Ascii.
From S2P Require Import Prelude PtyStream SourceView Text Markdown.

Record ViewerDescriptor := {
  vd_id : string;
  vd_aliases : list string;
  vd_media_types : list string;
  vd_extensions : list string;
}.

Record ViewInput := {
  vi_name : string;
  vi_media_type : string;
  vi_text : text;
}.

(** [ViewerContent] has one constructor, [TerminalMarkdown]. *)
Record ViewerPlugin := {
  descriptor : ViewerDescriptor;
  plugin_render : ViewInput → Outcome string text;
}.

Record RenderedView := {
  rv_viewer_id : string;
  rv_media_class : string;
  rv_bytes : text;
}.

(** ** Choosing a viewer *)

Definition eq_ignore_ascii_case (s t : string) : bool := bool_decide (to_ascii_lowercase s = to_ascii_lowercase t).

Definition viewer_matches_id (d : ViewerDescriptor) (requested : string) : bool :=
  eq_ignore_ascii_case (vd_id d) requested || existsb (λ alias, eq_ignore_ascii_case alias requested) (vd_aliases d).

Definition viewer_supports (d : ViewerDescriptor) (input : ViewInput) : bool :=
  existsb (λ media_type, eq_ignore_ascii_case media_type (vi_media_type input)) (vd_media_types d) ||
  match path_file_name (vi_name input) ≫= name_extension with
  | Some extension => existsb (λ candidate, eq_ignore_ascii_case candidate extension) (vd_extensions d)
  | None => false
  end.

(** ** reStructuredText *)

(** [str::replace]. *)
Fixpoint replace (fuel : nat) (pattern by_ t : text) : text :=
  match fuel, t with
  | S fuel, c :: rest =>
      match strip_prefix pattern t with
      | Some rest => by_ ++ replace fuel pattern by_ rest
      | None => c :: replace fuel pattern by_ rest
      end
  | _, _ => t
  end.

Definition rst_heading_level (str_width : text → nat) (title underline : text) : option nat :=
  let title := trim title in
  let underline := trim underline in
  if bool_decide (title = []) || (str_width underline <? str_width title)%nat then None
  else
    match underline with
    | [] => None
    | marker :: _ =>
        if negb (forallb (char_is marker) underline) then None
        else if bool_decide (marker ∈ txt "=") then Some 1%nat
        else if bool_decide (marker ∈ txt "-") then Some 2%nat
        else if bool_decide (marker ∈ txt "~^" ∨ marker = code quote) then Some 3%nat
        else None
    end.

(** A link, [`label <target>`_], made [[label](target)]. *)
Definition rst_link (t : text) : option text :=
  label_start ← find (txt "`") t;
  let rest := drop (label_start + 1) t in
  target_start ← find (txt " <") rest;
  end_ ← find (txt ">`_") (drop (target_start + 2) rest);
  let label := take target_start rest in
  let target_end := (target_start + 2 + end_)%nat in
  let target := take end_ (drop (target_start + 2) rest) in
  Some (take label_start t ++ txt "[" ++ label ++ txt "](" ++ target ++ txt ")" ++ drop (target_end + 3) rest).

Fixpoint rst_links (fuel : nat) (t : text) : text :=
  match fuel with
  | O => t
  | S fuel => match rst_link t with Some t => rst_links fuel t | None => t end
  end.
Definition rst_inline (line : text) : text :=
  let converted := replace (length line) (txt "``") (txt "`") line in rst_links (length converted) converted.

Definition starts (prefix t : text) : bool := bool_decide (is_Some (strip_prefix prefix t)).
Definition is_indented (line : text) : bool := starts (txt "   ") line || bool_decide (head line = Some TAB).

(** The block, and how many lines it is. *)
Fixpoint take_indented_block (lines : list text) : text * nat :=
  match lines with
  | [] => ([], 0%nat)
  | line :: lines =>
      if bool_decide (trim line = []) then let '(content, n) := take_indented_block lines in (LF :: content, S n)
      else if negb (is_indented line) then ([], 0%nat)
      else
        let '(content, n) := take_indented_block lines in
        (default (trim_start_matches (char_is TAB) line) (strip_prefix (txt "   ") line) ++ LF :: content, S n)
  end.

Definition backquote (c : N) : bool := bool_decide (txt "`" = [c]).
Definition markdown_fence (block : text) : text :=
  repeat_text (txt "`") (Nat.max (max_list (length <$> split (λ c, negb (backquote c)) block) + 1) 3).

Definition fenced (language block : text) : text :=
  let fence := markdown_fence block in
  fence ++ language ++ [LF] ++ block ++ (if bool_decide (last block = Some LF) then [] else [LF]) ++ fence ++ [LF; LF].

Fixpoint blank_lines (lines : list text) : nat :=
  match lines with line :: lines => if bool_decide (trim line = []) then S (blank_lines lines) else O | [] => O end.

Definition code_directive (line : text) : option text :=
  match strip_prefix (txt ".. code-block::") (trim_start line) with
  | Some language => Some language
  | None => strip_prefix (txt ".. code::") (trim_start line)
  end.

(** What follows a line that ends in [::], if it is indented: the blank lines
    before it. *)
Definition literal_block (line : text) (rest : list text) : option nat :=
  let start := blank_lines rest in
  if ends_with (txt "::") (trim_end line) && match rest !! start with Some line => is_indented line | None => false end
  then Some start else None.

Section viewers.
Context (parse : text → list MarkdownEvent) (char_width : N → option nat) (str_width : text → nat).

(** The loop of [rst_to_markdown]: [skip] lines were taken with others. *)
Fixpoint rst_lines (skip : nat) (lines : list text) : text :=
  match lines with
  | [] => []
  | line :: rest =>
      match skip with
      | S skip => rst_lines skip rest
      | O =>
          match head rest ≫= rst_heading_level str_width line with
          | Some level => repeat_text (txt "#") level ++ txt " " ++ rst_inline (trim line) ++ [LF; LF] ++ rst_lines 1 rest
          | None =>
              match code_directive line with
              | Some language =>
                  let blank := blank_lines rest in
                  let '(block, n) := take_indented_block (drop blank rest) in
                  fenced (trim language) block ++ rst_lines (blank + n) rest
              | None =>
                  match literal_block line rest with
                  | Some blank =>
                      let introduction := trim_end_matches (λ c, bool_decide (txt ":" = [c])) (trim_end line) in
                      let '(block, n) := take_indented_block (drop blank rest) in
                      (if bool_decide (introduction = []) then [] else rst_inline introduction ++ [LF; LF]) ++
                      fenced [] block ++ rst_lines (blank + n) rest
                  | None => rst_inline line ++ [LF] ++ rst_lines 0 rest
                  end
              end
          end
      end
  end.
Definition rst_to_markdown (source : text) : text := rst_lines 0 (Text.lines source).

Definition MarkdownViewer : ViewerPlugin := {|
  descriptor := {| vd_id := "markdown"; vd_aliases := ["md"]; vd_media_types := ["text/markdown"; "text/x-markdown"];
                   vd_extensions := ["md"; "markdown"; "mdown"; "mkd"] |};
  plugin_render input := Done (vi_text input) |}.

Definition RestructuredTextViewer : ViewerPlugin := {|
  descriptor := {| vd_id := "rst"; vd_aliases := ["restructuredtext"; "restructured-text"];
                   vd_media_types := ["text/x-rst"; "text/prs.fallenstein.rst"]; vd_extensions := ["rst"; "rest"] |};
  plugin_render input := Done (rst_to_markdown (vi_text input)) |}.

Definition with_builtins : list ViewerPlugin := [MarkdownViewer; RestructuredTextViewer].
Definition register (viewer : ViewerPlugin) (viewers : list ViewerPlugin) : list ViewerPlugin := viewers ++ [viewer].
Definition descriptors (viewers : list ViewerPlugin) : list ViewerDescriptor := descriptor <$> viewers.

Definition choose (viewers : list ViewerPlugin) (input : ViewInput) (requested_viewer : option string) : Outcome string ViewerPlugin :=
  match requested_viewer with
  | Some requested =>
      match List.find (λ viewer, viewer_matches_id (descriptor viewer) requested) viewers with
      | Some viewer => Done viewer
      | None => Fail ("unknown viewer " +:+ debug_str requested)
      end
  | None =>
      match List.find (λ viewer, viewer_supports (descriptor viewer) input) viewers with
      | Some viewer => Done viewer
      | None => Fail ("no viewer supports " +:+ vi_name input +:+ " (" +:+
          (if bool_decide (vi_media_type input = "") then "unknown media type" else vi_media_type input) +:+ ")")
      end
  end.

Definition render (viewers : list ViewerPlugin) (input : ViewInput) (requested_viewer : option string) (o : RenderOptions) :
    Outcome string RenderedView :=
  let! viewer := choose viewers input requested_viewer in
  let! content := plugin_render viewer input in
  Done {| rv_viewer_id := vd_id (descriptor viewer); rv_media_class := "text";
          rv_bytes := rendered parse char_width str_width o [content] |}.
End viewers.

(** ** The links of a line *)

(** Every link made shortens the text, so the fuel is enough: what is left has
    no link. *)
Lemma find_lt pattern t i : find pattern t = Some i → (i + length pattern ≤ length t)%nat.
Proof.
  revert i. induction t as [|c t IH]; intros i; simpl.
  - destruct pattern; simpl; [by intros [= <-]|done].
  - destruct (strip_prefix pattern (c :: t)) as [u|] eqn:Hu.
    + intros [= <-]. assert (∀ p s v, strip_prefix p s = Some v → length p ≤ length s)%nat as Hl; [|by apply (Hl _ _ _ Hu)].
      induction p as [|x p IHp]; intros s v; simpl; [lia|]. destruct s as [|y s]; [done|]. case_match; [|done].
      intros Hv%IHp. simpl. lia.
    + intros (j & Hj & ->)%fmap_Some. apply IH in Hj. lia.
Qed.

Lemma rst_link_shorter t u : rst_link t = Some u → (length u < length t)%nat.
Proof.
  unfold rst_link. destruct (find (txt "`") t) as [a|] eqn:Ha; [|done]. simpl.
  destruct (find (txt " <") (drop (a + 1) t)) as [b|] eqn:Hb; [|done]. simpl.
  destruct (find (txt ">`_") _) as [c|] eqn:Hc; [|done]. intros [= <-].
  apply find_lt in Ha, Hb, Hc. rewrite length_drop in Hb, Hc. change (length (txt "`")) with 1%nat in Ha.
  change (length (txt " <")) with 2%nat in Hb. change (length (txt ">`_")) with 3%nat in Hc.
  repeat (rewrite ?length_app, ?length_take, ?length_drop; cbn [length]). repeat rewrite length_drop in Hc. lia.
Qed.

Lemma rst_inline_has_no_link line : rst_link (rst_inline line) = None.
Proof.
  unfold rst_inline. generalize (replace (length line) (txt "``") (txt "`") line). intros t.
  assert (∀ fuel t, (length t ≤ fuel)%nat → rst_link (rst_links fuel t) = None) as Hl; [|by apply Hl].
  clear. induction fuel as [|fuel IH]; intros t Ht; simpl.
  - destruct t; [by vm_compute|simpl in Ht; lia].
  - destruct (rst_link t) as [u|] eqn:Hu; [|done]. apply IH. apply rst_link_shorter in Hu. lia.
Qed.

Example rst_example :
  rst_to_markdown length (txt "Title" ++ [LF] ++ txt "=====" ++ [LF] ++ txt "See `here <x>`_ for::" ++ [LF; LF] ++ txt "   code" ++ [LF]) =
  txt "# Title" ++ [LF; LF] ++ txt "See [here](x) for" ++ [LF; LF] ++ txt "```" ++ [LF] ++ txt "code" ++ [LF] ++ txt "```" ++ [LF; LF].
Proof. vm_compute. reflexivity. Qed.
