(* ===== verification/Release.v ===== *)
(** Signed releases ([crates/xshell-release/src/lib.rs] and its
    [bin/xshell-release-manifest.rs]): making a manifest of the binaries of a
    release, signing it, and downloading a binary that a signed manifest names.

    SHA-256, hex and Ed25519 are [AuditLog.Crypto]; the encoding of manifests,
    URLs and downloads are [ReleaseCodec] and [ReleaseHost]. An error of hex or
    of a key is told by its context alone. *)
From Stdlib Require Import Ascii.
From S2P Require Import Prelude Effects Budget Compaction PtyStream AuditLog.

Definition RELEASE_MANIFEST_SCHEMA_VERSION : N := 1.
Definition MAX_RELEASE_MANIFEST_BYTES : N := 1024 * 1024.
Definition MAX_RELEASE_ARTIFACT_BYTES : N := 128 * 1024 * 1024.
Definition RELEASE_SIGNATURE_DOMAIN : list ascii := chars "xshell-release-manifest-v1" ++ [nul].

Record ReleaseArtifact := {
  ra_target : string;
  ra_url : string;
  ra_size : N;
  ra_sha256 : string;
}.

Record ReleaseManifestBody := {
  rl_schema_version : N;
  rl_version : string;
  rl_protocol_version : N;
  rl_artifacts : list ReleaseArtifact;
}.

Record SignedReleaseManifest := {
  sm_release : ReleaseManifestBody;
  sm_signing_key_id : string;
  sm_signature : string;
}.

(** [VerifiedReleaseManifest] is a signed manifest that was verified. *)
Inductive VerifiedReleaseManifest : Type := Verified (m : SignedReleaseManifest).

Record ReleaseSource := {
  rs_manifest_url : string;
  rs_public_key : string;
}.

Record PreparedReleaseArtifact := {
  pa_manifest_url : string;
  pa_version : string;
  pa_protocol_version : N;
  pa_signing_key_id : string;
  pa_artifact : ReleaseArtifact;
  pa_bytes : list ascii;
}.

(** [reqwest::Url], as far as it is looked at. *)
Record Url := {
  url_scheme : string;
  url_host : option string;
  url_username : string;
  url_password : option string;
  url_fragment : option string;
}.

(** A response: the error its status stands for, the length it announces, and
    the chunks of its body. *)
Record Download := {
  dl_status : option string;
  dl_content_length : option N;
  dl_chunks : list (string + list ascii);
}.

(** [serde_json] for manifests, and [reqwest::Url::parse]. *)
Class ReleaseCodec (SecretKey : Type) := {
  body_to_vec : ReleaseManifestBody → string + list ascii;
  manifest_from_slice : list ascii → string + SignedReleaseManifest;
  manifest_to_vec_pretty : SignedReleaseManifest → string + list ascii;
  url_parse : string → string + Url;
  signing_key_from_bytes : list ascii → SecretKey;
  signing_key_to_bytes : SecretKey → list ascii;
}.

(** What is asked of the network and the file system. *)
Class ReleaseHost (SecretKey W : Type) := {
  https_client : W → option string * W;
  http_get : string → W → (string + Download) * W;
  env_var : string → W → option string * W;
  open_file : string → W → option string * W;
  file_len : string → W → (string + N) * W;
  read_file : string → W → (string + list ascii) * W;
  write_file : string → list ascii → W → option string * W;
  create_new : string → N → W → option string * W;
  append_file : string → list ascii → W → option string * W;
  sync_file : string → W → option string * W;
  remove_file : string → W → W;
  generate_key : W → SecretKey * W;
}.

(** [str::replace]: the matches from the left, [skip] characters of the last one
    being left. *)
Fixpoint replacing (pattern by_ : list ascii) (skip : nat) (l : list ascii) : list ascii :=
  match l with
  | [] => []
  | c :: rest =>
      match skip with
      | S skip => replacing pattern by_ skip rest
      | O => if bool_decide (take (length pattern) l = pattern)
             then by_ ++ replacing pattern by_ (pred (length pattern)) rest
             else c :: replacing pattern by_ 0 rest
      end
  end.
Definition str_replace (pattern by_ s : string) : string :=
  of_chars (replacing (chars pattern) (chars by_) 0 (chars s)).

(** [Path::last_component]. *)
Definition last_component (path : string) : option string :=
  match last (filter (λ p, p ≠ "" ∧ p ≠ ".") (split_char "/" path)) with
  | Some name => if bool_decide (name = "..") then None else Some name
  | None => None
  end.

(** [str::trim_end_matches] of a character. *)
Fixpoint drop_all (c : ascii) (l : list ascii) : list ascii :=
  match l with d :: l' => if bool_decide (d = c) then drop_all c l' else l | [] => [] end.
Definition trim_end_matches (c : ascii) (s : string) : string := of_chars (rev (drop_all c (rev (chars s)))).

Definition is_version_char (c : ascii) : bool :=
  is_ascii_alphanumeric c || bool_decide (c ∈ ["."; "-"; "_"]%char).
Definition is_target_char (c : ascii) : bool := is_ascii_alphanumeric c || bool_decide (c ∈ ["-"; "_"]%char).
Definition lower_hex (c : ascii) : bool := is_ascii_digit c || in_range 97 102 c.

Definition len (b : list ascii) : N := N.of_nat (length b).

(** An error with a context, and the errors of calls that answer nothing. *)
Definition with_context {A} (message : string) (r : string + A) : Outcome string A :=
  match r with inl e => Fail (message +:+ ": " +:+ e) | inr a => Done a end.
Definition or_error {A} (r : string + A) : Outcome string A :=
  match r with inl e => Fail e | inr a => Done a end.

Section release.
Context {SecretKey PublicKey Signature W : Type}.
Context `{!Crypto SecretKey PublicKey Signature, !ReleaseCodec SecretKey, !ReleaseHost SecretKey W}.
Abbreviation Result := (Outcome string).
Abbreviation M := (Step W string).

(** ** Validation *)

Definition require_https_url (url : string) : Result () :=
  let! parsed := with_context "invalid release URL" (url_parse url) in
  if negb (bool_decide (url_scheme parsed = "https")) || bool_decide (url_host parsed = None)
     || negb (bool_decide (url_username parsed = "")) || bool_decide (is_Some (url_password parsed))
     || bool_decide (is_Some (url_fragment parsed))
  then Fail "release URL must use HTTPS and include a host"
  else Done ().

Definition validate_artifact (a : ReleaseArtifact) : Result () :=
  if bool_decide (ra_size a = 0%N) || (MAX_RELEASE_ARTIFACT_BYTES <? ra_size a)%N
  then Fail ("artifact " +:+ ra_target a +:+ " has invalid size " +:+ fmt_N (ra_size a) +:+
             "; maximum is " +:+ fmt_N MAX_RELEASE_ARTIFACT_BYTES +:+ " bytes")
  else if negb (bool_decide (String.length (ra_sha256 a) = 64)) || negb (string_all lower_hex (ra_sha256 a))
  then Fail ("artifact " +:+ ra_target a +:+ " has an invalid SHA-256")
  else require_https_url (ra_url a).

Fixpoint validate_artifacts (targets : gset string) (l : list ReleaseArtifact) : Result () :=
  match l with
  | [] => Done ()
  | a :: l =>
      if blank (ra_target a) || bool_decide (ra_target a ∈ targets)
      then Fail "release manifest contains an empty or duplicate artifact target"
      else let! _ := validate_artifact a in validate_artifacts ({[ra_target a]} ∪ targets) l
  end.

Definition validate_body (body : ReleaseManifestBody) : Result () :=
  if negb (bool_decide (rl_schema_version body = RELEASE_MANIFEST_SCHEMA_VERSION))
  then Fail ("release manifest uses schema " +:+ fmt_N (rl_schema_version body) +:+
             ", but this client requires " +:+ fmt_N RELEASE_MANIFEST_SCHEMA_VERSION)
  else if blank (rl_version body) then Fail "release manifest version is empty"
  else if bool_decide (rl_protocol_version body = 0%N)
  then Fail "release manifest protocol version must be positive"
  else if bool_decide (rl_artifacts body = []) then Fail "release manifest contains no artifacts"
  else validate_artifacts ∅ (rl_artifacts body).

(** ** Keys and signatures *)

Definition parse_signing_key (private_key_hex : string) : Result SecretKey :=
  let! bytes := context (hex_decode (trim private_key_hex)) "invalid private key encoding" in
  if bool_decide (length bytes = 32) then Done (signing_key_from_bytes bytes)
  else Fail "release signing key must contain 32 bytes".

Definition parse_public_key (public_key_hex : string) : Result PublicKey :=
  let! bytes := context (hex_decode (trim public_key_hex)) "invalid public key encoding" in
  if bool_decide (length bytes = 32) then context (key_from_bytes bytes) "invalid Ed25519 public key"
  else Fail "release public key must contain 32 bytes".

Definition signing_key_id (key : PublicKey) : string := hex_encode (take 16 (sha256 (key_to_bytes key))).

Definition signature_message (body : ReleaseManifestBody) : Result (list ascii) :=
  let! encoded := or_error (body_to_vec body) in Done (RELEASE_SIGNATURE_DOMAIN ++ encoded).

Definition sign_manifest (body : ReleaseManifestBody) (key : SecretKey) : Result SignedReleaseManifest :=
  let! _ := validate_body body in
  let! message := signature_message body in
  Done {| sm_release := body; sm_signing_key_id := signing_key_id (verifying_key key);
          sm_signature := hex_encode (signature_to_bytes (sign key message)) |}.

Definition verify_manifest (source : list ascii) (public_key_hex : string) : Result VerifiedReleaseManifest :=
  if (MAX_RELEASE_MANIFEST_BYTES <? len source)%N
  then Fail ("release manifest exceeds " +:+ fmt_N MAX_RELEASE_MANIFEST_BYTES +:+ " bytes")
  else
    let! manifest := with_context "invalid release manifest JSON" (manifest_from_slice source) in
    let! _ := validate_body (sm_release manifest) in
    let! key := parse_public_key public_key_hex in
    if negb (bool_decide (sm_signing_key_id manifest = signing_key_id key))
    then Fail "release manifest signing key ID does not match the configured public key"
    else
      let! signature_bytes := context (hex_decode (sm_signature manifest)) "invalid signature encoding" in
      let! signature := context (signature_from_slice signature_bytes) "invalid Ed25519 signature" in
      let! message := signature_message (sm_release manifest) in
      if verify key message signature then Done (Verified manifest)
      else Fail "release manifest signature verification failed".

(** ** Artifacts *)

Definition signed (v : VerifiedReleaseManifest) : SignedReleaseManifest := let '(Verified m) := v in m.

Definition select_artifact (v : VerifiedReleaseManifest) (target required_version : string)
    (required_protocol_version : N) : Result ReleaseArtifact :=
  let body := sm_release (signed v) in
  if negb (bool_decide (rl_version body = required_version))
  then Fail ("release manifest describes xshell " +:+ rl_version body +:+ ", but this controller requires " +:+
             required_version)
  else if negb (bool_decide (rl_protocol_version body = required_protocol_version))
  then Fail ("release manifest describes protocol " +:+ fmt_N (rl_protocol_version body) +:+
             ", but this controller requires " +:+ fmt_N required_protocol_version)
  else context (List.find (λ a, bool_decide (ra_target a = target)) (rl_artifacts body))
         ("release has no xshelld artifact for target " +:+ debug_str target).

Definition verify_artifact (a : ReleaseArtifact) (bytes : list ascii) : Result () :=
  let! _ := validate_artifact a in
  if negb (bool_decide (len bytes = ra_size a))
  then Fail ("release artifact size mismatch: manifest says " +:+ fmt_N (ra_size a) +:+ " bytes, received " +:+
             fmt_N (len bytes))
  else if negb (bool_decide (hex_encode (sha256 bytes) = ra_sha256 a))
  then Fail "release artifact SHA-256 mismatch"
  else Done ().

(** ** Downloading *)

Definition calling (message : string) (f : W → option string * W) : M () :=
  r ← ask f;
  match r with Some e => throw (message +:+ ": " +:+ e) | None => mret () end.
Definition asking {A} (f : W → (string + A) * W) (message : string) : M A :=
  r ← ask f; lift (with_context message r).

Definition too_long (maximum : N) : string := "release resource exceeds " +:+ fmt_N maximum +:+ " bytes".

Fixpoint receive_chunks (maximum : N) (bytes : list ascii) (chunks : list (string + list ascii)) : Result (list ascii) :=
  match chunks with
  | [] => Done bytes
  | chunk :: chunks =>
      let! chunk := with_context "cannot read release download" chunk in
      if (maximum <? saturating_add (len bytes) (len chunk))%N then Fail (too_long maximum)
      else receive_chunks maximum (bytes ++ chunk) chunks
  end.

Definition fetch_bounded (url : string) (maximum : N) : M (list ascii) :=
  lift (require_https_url url);;
  response ← asking (http_get url) ("cannot download release resource " +:+ url);
  match dl_status response with
  | Some e => throw ("release resource returned an error: " +:+ url +:+ ": " +:+ e)
  | None =>
      if from_option (λ length, (maximum <? length)%N) false (dl_content_length response)
      then throw (too_long maximum)
      else lift (receive_chunks maximum [] (dl_chunks response))
  end.

Definition new_client : M () := calling "cannot initialize release download client" https_client.

Definition fetch_verified_manifest (url public_key_hex : string) : M VerifiedReleaseManifest :=
  lift (parse_public_key public_key_hex);;
  new_client;;
  source ← fetch_bounded url MAX_RELEASE_MANIFEST_BYTES;
  lift (verify_manifest source public_key_hex).

Definition fetch_verified_artifact (a : ReleaseArtifact) : M (list ascii) :=
  lift (validate_artifact a);;
  new_client;;
  bytes ← fetch_bounded (ra_url a) (ra_size a);
  lift (verify_artifact a bytes);;
  mret bytes.

(** ** The source of releases *)

Definition manifest_url_for (source : ReleaseSource) (version : string) : Result string :=
  if blank version || negb (string_all is_version_char version)
  then Fail "release version contains unsupported URL characters"
  else
    let url := str_replace "{version}" version (rs_manifest_url source) in
    if contains_char "{" url || contains_char "}" url
    then Fail "release manifest URL contains an unsupported template placeholder"
    else let! _ := require_https_url url in Done url.

Definition source_validate (source : ReleaseSource) : Result () :=
  let! _ := manifest_url_for source "0.0.0" in
  let! _ := parse_public_key (rs_public_key source) in
  Done ().

Definition acquire (source : ReleaseSource) (target required_version : string) (required_protocol_version : N) :
    M PreparedReleaseArtifact :=
  lift (source_validate source);;
  manifest_url ← lift (manifest_url_for source required_version);
  manifest ← fetch_verified_manifest manifest_url (rs_public_key source);
  artifact ← lift (select_artifact manifest target required_version required_protocol_version);
  bytes ← fetch_verified_artifact artifact;
  mret {| pa_manifest_url := manifest_url; pa_version := rl_version (sm_release (signed manifest));
          pa_protocol_version := rl_protocol_version (sm_release (signed manifest));
          pa_signing_key_id := sm_signing_key_id (signed manifest);
          pa_artifact := artifact; pa_bytes := bytes |}.

(** ** Making a release *)

Definition write_new (path : string) (bytes : list ascii) (mode : N) : M () :=
  calling ("cannot create " +:+ path) (create_new path mode);;
  r ← ask (append_file path bytes);
  match r with Some e => throw e | None =>
    r ← ask (append_file path [newline]);
    match r with Some e => throw e | None =>
      r ← ask (sync_file path);
      match r with Some e => throw e | None => mret () end
    end
  end.

Definition in_context {A} (message : string) (m : M A) : M A :=
  handle m mret (λ e, throw (message +:+ ": " +:+ e)).

Definition generate_keypair (private_path public_path : string) : M () :=
  key ← ask generate_key;
  in_context "cannot write release private key"
    (write_new private_path (chars (hex_encode (signing_key_to_bytes key))) 384);;
  handle (write_new public_path (chars (hex_encode (key_to_bytes (verifying_key key)))) 420)
    mret
    (λ e, modify (remove_file private_path);; throw ("cannot write release public key: " +:+ e)).

Definition target_of (path : string) : Result (string * string) :=
  let! file := context (last_component path) ("artifact has no UTF-8 file name: " +:+ path) in
  let! target := context (strip_prefix "xshelld-" file)
    ("artifact name must have the form xshelld-TARGET: " +:+ debug_str file) in
  if bool_decide (target = "") || negb (string_all is_target_char target)
  then Fail ("artifact target contains unsupported characters: " +:+ debug_str target)
  else Done (file, target).

Definition describe_artifact (path base_url : string) : M ReleaseArtifact :=
  '(file, target) ← lift (target_of path);
  calling ("cannot open release artifact " +:+ path) (open_file path);;
  size ← ask (file_len path);
  size ← lift (or_error size);
  bytes ← ask (read_file path);
  bytes ← lift (or_error bytes);
  mret {| ra_target := target; ra_url := base_url +:+ "/" +:+ file; ra_size := size;
          ra_sha256 := hex_encode (sha256 bytes) |}.

Fixpoint describe_artifacts (base_url : string) (paths : list string) : M (list ReleaseArtifact) :=
  match paths with
  | [] => mret []
  | path :: paths =>
      a ← describe_artifact path base_url; rest ← describe_artifacts base_url paths; mret (a :: rest)
  end.

(** [pkg_version] is the version the program was built with. *)
Definition create_manifest (pkg_version version : string) (protocol_version : N) (base_url output : string)
    (artifact_paths : list string) : M () :=
  if negb (bool_decide (version = pkg_version))
  then throw ("requested release version " +:+ debug_str version +:+ " does not match workspace version " +:+
              debug_str pkg_version)
  else
    private_hex ← ask (env_var "XSHELL_RELEASE_SIGNING_KEY");
    private_hex ← lift (context private_hex "XSHELL_RELEASE_SIGNING_KEY is not set");
    signing_key ← lift (parse_signing_key private_hex);
    let base_url := trim_end_matches "/" base_url in
    artifacts ← describe_artifacts base_url artifact_paths;
    let artifacts := sort_on ra_target artifacts in
    manifest ← lift (sign_manifest {| rl_schema_version := RELEASE_MANIFEST_SCHEMA_VERSION; rl_version := version;
                                      rl_protocol_version := protocol_version; rl_artifacts := artifacts |} signing_key);
    encoded ← lift (or_error (manifest_to_vec_pretty manifest));
    calling ("cannot write release manifest " +:+ output) (write_file output (encoded ++ [newline])).
End release.

(** * What is downloaded was signed *)

(** A URL that names no secret and no plain connection. *)
Definition Secure `{!ReleaseCodec SecretKey} (url : string) : Prop :=
  ∃ u, url_parse url = inr u ∧ url_scheme u = "https" ∧ url_host u ≠ None ∧ url_username u = "" ∧
       url_password u = None ∧ url_fragment u = None.

(** [key] signed [body]. *)
Definition SignedBy `{!Crypto SecretKey PublicKey Signature, !ReleaseCodec SecretKey} (key : PublicKey)
    (m : SignedReleaseManifest) : Prop :=
  ∃ signature message, (hex_decode (sm_signature m) ≫= signature_from_slice) = Some signature ∧
    signature_message (sm_release m) = Done message ∧ verify key message signature = true.

(** What the checks of a manifest leave. *)
Record ArtifactOk `{!ReleaseCodec SecretKey} (a : ReleaseArtifact) : Prop := {
  ok_size : (0 < ra_size a ≤ MAX_RELEASE_ARTIFACT_BYTES)%N;
  ok_hash : String.length (ra_sha256 a) = 64 ∧ string_all lower_hex (ra_sha256 a) = true;
  ok_url : Secure (ra_url a);
}.

Section verified.
Context {SecretKey PublicKey Signature W : Type}.
Context `{!Crypto SecretKey PublicKey Signature, !ReleaseCodec SecretKey, !ReleaseHost SecretKey W}.

Lemma require_https_url_spec url : require_https_url url = Done () ↔ Secure url.
Proof.
  unfold require_https_url, Secure, with_context. destruct (url_parse url) as [e|u]; simpl; [naive_solver|].
  case_match eqn:Hb; [rewrite !orb_true_iff, !negb_true_iff, !bool_decide_eq_true, !bool_decide_eq_false in Hb|
    rewrite !orb_false_iff, !negb_false_iff, !bool_decide_eq_true, !bool_decide_eq_false in Hb].
  - split; [done|]. intros (? & [= <-] & Hs & Hh & Hu & Hp & Hf). rewrite Hp, Hf in Hb.
    destruct_or! Hb; naive_solver.
  - split; [|done]. intros _. exists u. destruct_and! Hb. by split_and!; try done; apply eq_None_not_Some.
Qed.

Lemma validate_artifact_spec a : validate_artifact a = Done () ↔ ArtifactOk a.
Proof.
  unfold validate_artifact. destruct (bool_decide (ra_size a = 0%N) || _) eqn:Hs.
  { split; [done|]. intros [Ho _ _]. apply orb_true_iff in Hs as [?%bool_decide_eq_true|?%N.ltb_lt]; lia. }
  apply orb_false_iff in Hs as [Hz%bool_decide_eq_false Hm%N.ltb_ge].
  destruct (negb _ || negb _) eqn:Hh.
  { split; [done|]. intros [_ [H1 H2] _]. rewrite H2, (bool_decide_eq_true_2 _ H1) in Hh. done. }
  apply orb_false_iff in Hh as [H1%negb_false_iff%bool_decide_eq_true H2%negb_false_iff].
  rewrite require_https_url_spec. split; [intros Hu; split; [lia|done..]|by intros [_ _ ?]].
Qed.

Lemma validate_artifacts_spec l : ∀ targets,
  validate_artifacts targets l = Done () ↔
    Forall (λ a, blank (ra_target a) = false ∧ ra_target a ∉ targets ∧ ArtifactOk a) l ∧ NoDup (ra_target <$> l).
Proof.
  induction l as [|a l IH]; intros targets; simpl; [by split; [split; constructor|]|].
  rewrite Forall_cons, NoDup_cons. destruct (blank _) eqn:Hb; simpl; [naive_solver|].
  case_bool_decide as Ht; [naive_solver|]. rewrite bind_Done. setoid_rewrite IH.
  rewrite <-validate_artifact_spec. split.
  - intros ([] & Ha & Hl & Hn). split_and!; [done..| | |done].
    + eapply Forall_impl; [exact Hl|]. intros x (? & Hx & ?). set_solver.
    + rewrite list_elem_of_fmap. intros (x & Heq & Hx). rewrite Forall_forall in Hl. apply Hl in Hx. set_solver.
  - intros ([(_ & _ & Ha) Hl] & Hni & Hn). exists (). split_and!; [done| |done]. rewrite Forall_forall in *.
    intros x Hx. destruct (Hl x Hx) as (? & ? & ?). split_and!; [done| |done].
    intros [Heq%elem_of_singleton|?]%elem_of_union; [|done]. apply Hni. apply list_elem_of_fmap. eauto.
Qed.

Lemma validate_body_artifacts body :
  validate_body body = Done () → Forall ArtifactOk (rl_artifacts body) ∧ NoDup (ra_target <$> rl_artifacts body).
Proof.
  unfold validate_body. repeat case_match; try done. intros [Hl Hn]%validate_artifacts_spec. split; [|done].
  eapply Forall_impl; [exact Hl|]. naive_solver.
Qed.

Lemma verify_manifest_Done source hex v :
  verify_manifest source hex = Done v →
  ∃ key, parse_public_key hex = Done key ∧ SignedBy key (signed v) ∧ sm_signing_key_id (signed v) = signing_key_id key ∧
         validate_body (sm_release (signed v)) = Done ().
Proof.
  unfold verify_manifest. case_match; [done|].
  intros (m & Hm & ([] & Hb & (key & Hk & H1)%bind_Done)%bind_Done)%bind_Done.
  destruct (bool_decide _) eqn:Hid; [|done]. apply bool_decide_eq_true in Hid.
  apply bind_Done in H1 as (sb & Hsb & (sig & Hsig & (msg & Hmsg & Hv)%bind_Done)%bind_Done).
  destruct (verify key msg sig) eqn:Hver; [|done]. injection Hv as <-. exists key. split_and!; [done| |done..].
  exists sig, msg. unfold context in Hsb, Hsig. simpl.
  destruct (hex_decode _); [injection Hsb as ->|done]. simpl. destruct (signature_from_slice sb); [by injection Hsig as ->|done].
Qed.

Lemma lift_bind_Done {E S A B} (r : Outcome E A) (k : A → Step S E B) s s' b :
  (lift r ≫= k) s = (s', Done b) ↔ ∃ a, r = Done a ∧ k a s = (s', Done b).
Proof. rewrite step_bind_Done. setoid_rewrite lift_Done. naive_solver. Qed.

Lemma fetch_bounded_secure url maximum w w' b :
  fetch_bounded url maximum w = (w', Done b) → Secure url.
Proof. unfold fetch_bounded. intros ([] & Hu & _)%lift_bind_Done. by apply require_https_url_spec. Qed.

Lemma verify_artifact_spec a b :
  verify_artifact a b = Done () ↔ ArtifactOk a ∧ len b = ra_size a ∧ hex_encode (sha256 b) = ra_sha256 a.
Proof.
  unfold verify_artifact. rewrite bind_Done, <-validate_artifact_spec.
  split.
  - intros ([] & Ha & Hc). do 2 (case_bool_decide; [|done]). done.
  - intros (Ha & Hl & Hh). exists (). by rewrite !bool_decide_eq_true_2 by done.
Qed.

(** C29: What is acquired from a release source is what the holder of its key
    released: the manifest that names it is signed with that key, is of the
    version and protocol asked for, and lists, for that platform, its size and
    its hash; everything came over secure connections. *)
Theorem acquired_bytes_are_signed (source : ReleaseSource) target version protocol (w w' : W) p :
  acquire source target version protocol w = (w', Done p) →
  ∃ key m, parse_public_key (rs_public_key source) = Done key ∧ SignedBy key m ∧
    rl_version (sm_release m) = version ∧ rl_protocol_version (sm_release m) = protocol ∧
    pa_artifact p ∈ rl_artifacts (sm_release m) ∧ ra_target (pa_artifact p) = target ∧
    (∀ a, a ∈ rl_artifacts (sm_release m) → ra_target a = target → a = pa_artifact p) ∧
    len (pa_bytes p) = ra_size (pa_artifact p) ∧ (ra_size (pa_artifact p) ≤ MAX_RELEASE_ARTIFACT_BYTES)%N ∧
    hex_encode (sha256 (pa_bytes p)) = ra_sha256 (pa_artifact p) ∧
    Secure (pa_manifest_url p) ∧ Secure (ra_url (pa_artifact p)).
Proof.
  unfold acquire. intros ([] & _ & H)%lift_bind_Done. apply lift_bind_Done in H as (url & _ & H).
  apply step_bind_Done in H as (v & w1 & Hm & H). apply lift_bind_Done in H as (a & Ha & H).
  apply step_bind_Done in H as (b & w2 & Hb & [= <- <-]). simpl.
  apply lift_bind_Done in Hm as (key0 & _ & Hm). apply step_bind_Done in Hm as ([] & w3 & _ & Hm).
  apply step_bind_Done in Hm as (bytes & w4 & Hf%fetch_bounded_secure & [_ Hv]%lift_Done).
  apply lift_bind_Done in Hb as ([] & _ & Hb). apply step_bind_Done in Hb as ([] & w5 & _ & Hb).
  apply step_bind_Done in Hb as (b' & w6 & Hg%fetch_bounded_secure & Hb).
  apply lift_bind_Done in Hb as ([] & (Hok & Hlen & Hhash)%verify_artifact_spec & [= _ ->]).
  destruct (verify_manifest_Done _ _ _ Hv) as (key & Hkey & Hs & _ & [_ Hn]%validate_body_artifacts).
  unfold select_artifact in Ha. do 2 (case_bool_decide; [|done]). simpl in Ha.
  destruct (List.find _ _) as [a'|] eqn:Hfind; [|done]. injection Ha as ->.
  apply List.find_some in Hfind as [Hin%list_elem_of_In Ht%bool_decide_eq_true].
  exists key, (signed v). split_and!; try done.
  - intros x Hx Hxt. eapply (NoDup_key_inj ra_target); [done..|]. congruence.
  - by destruct Hok as [[_ ?] _ _].
Qed.
End verified.

(** * What is released can be acquired *)

(** What is relied on of hex, Ed25519 and [serde_json]. *)
Class ReleaseLaws (SecretKey PublicKey Signature : Type)
    `{!Crypto SecretKey PublicKey Signature, !ReleaseCodec SecretKey} : Prop := {
  release_hex_roundtrip b : hex_decode (hex_encode b) = Some b;
  release_hex_lower b : string_all lower_hex (hex_encode b) = true;
  release_key_length (k : PublicKey) : length (key_to_bytes k) = 32;
  release_key_roundtrip (k : PublicKey) : key_from_bytes (key_to_bytes k) = Some k;
  release_signature_roundtrip (s : Signature) : signature_from_slice (signature_to_bytes s) = Some s;
  release_sign_verifies (sk : SecretKey) m : verify (verifying_key sk) m (sign sk m) = true;
  manifest_roundtrip m b : manifest_to_vec_pretty m = inr b → manifest_from_slice (b ++ [newline]) = inr m;
}.

Section released.
Context {SecretKey PublicKey Signature W : Type}.
Context `{!Crypto SecretKey PublicKey Signature, !ReleaseCodec SecretKey, !ReleaseHost SecretKey W}.
Context `{!ReleaseLaws SecretKey PublicKey Signature}.

(** A URL answers with [content], in whatever pieces. *)
Definition Serves (url : string) (content : list ascii) : Prop := ∀ w : W, ∃ r cs,
  (http_get url w).1 = inr r ∧ dl_status r = None ∧ (∀ n, dl_content_length r = Some n → n = len content) ∧
  dl_chunks r = inr <$> cs ∧ concat cs = content.

(** A file is there and does not change. *)
Definition Holds (path : string) (content : list ascii) : Prop := ∀ w : W,
  (open_file path w).1 = None ∧ (file_len path w).1 = inr (len content) ∧ (read_file path w).1 = inr content.

Lemma receive_all maximum cs : ∀ acc,
  (len acc + len (concat cs) ≤ maximum)%N → receive_chunks maximum acc (inr <$> cs) = Done (acc ++ concat cs).
Proof.
  induction cs as [|c cs IH]; intros acc Hm; [by rewrite app_nil_r|]. unfold len in *. simpl in *.
  rewrite length_app in Hm. replace (maximum <? _)%N with false; [rewrite IH, <-app_assoc; [done|rewrite length_app; lia]|].
  symmetry. apply N.ltb_ge. unfold saturating_add, len. lia.
Qed.

Lemma calling_Done message (f : W → option string * W) w :
  (f w).1 = None → ∃ w', calling message f w = (w', Done ()).
Proof. unfold calling, ask, mbind, Step_bind. destruct (f w) as [r w']. simpl. intros ->. by exists w'. Qed.

Lemma fetch_bounded_serves url content maximum (w : W) :
  Secure url → Serves url content → (len content ≤ maximum)%N → ∃ w', fetch_bounded url maximum w = (w', Done content).
Proof.
  intros Hs Hu Hm. destruct (Hu w) as (r & cs & Hr & Hst & Hl & Hc & <-).
  unfold fetch_bounded, asking, ask, lift, mbind, Step_bind. rewrite (proj2 (require_https_url_spec url) Hs).
  destruct (http_get url w) as [r' w']. simpl in *. subst r'. simpl. rewrite Hst, Hc.
  replace (from_option _ _ _) with false.
  - rewrite receive_all by (unfold len in *; simpl; lia). by exists w'.
  - destruct (dl_content_length r) as [n|]; [|done]. rewrite (Hl n eq_refl). simpl. symmetry. apply N.ltb_ge. lia.
Qed.

Lemma trim_hex b : trim (hex_encode b) = hex_encode b.
Proof.
  pose proof (release_hex_lower b) as Hh. rewrite string_all_chars in Hh. rewrite forallb_forall in Hh.
  assert (∀ c, c ∈ chars (hex_encode b) → dark c) as Hd.
  { intros c Hc%list_elem_of_In%Hh. unfold dark. apply orb_true_iff in Hc as [Hc|Hc];
      unfold is_ascii_digit, in_range in Hc; apply andb_true_iff in Hc as [H1%N.leb_le H2%N.leb_le]; lia. }
  destruct (chars (hex_encode b)) as [|c r] eqn:Hc.
  - assert (hex_encode b = "") as -> by by rewrite <-(of_chars_chars (hex_encode b)), Hc. done.
  - apply (trim_dark _ c r); [done|apply Hd; by left|]. intros d Hl. apply Hd. apply last_Some in Hl as [l' ->].
    apply elem_of_app. right. by left.
Qed.

Lemma parse_own_key sk : parse_public_key (hex_encode (key_to_bytes (verifying_key sk))) = Done (verifying_key sk).
Proof.
  unfold parse_public_key. rewrite trim_hex, release_hex_roundtrip. simpl.
  by rewrite bool_decide_eq_true_2, release_key_roundtrip by apply release_key_length.
Qed.

Lemma verify_signed body sk m encoded :
  sign_manifest body sk = Done m → manifest_to_vec_pretty m = inr encoded →
  (len (encoded ++ [newline]) ≤ MAX_RELEASE_MANIFEST_BYTES)%N →
  sm_release m = body ∧ validate_body body = Done () ∧
  verify_manifest (encoded ++ [newline]) (hex_encode (key_to_bytes (verifying_key sk))) = Done (Verified m).
Proof.
  intros ([] & Hb & (message & Hm & [= <-])%bind_Done)%bind_Done He Hl. split_and!; [done..|].
  unfold verify_manifest. rewrite (proj2 (N.ltb_ge _ _) Hl), (manifest_roundtrip _ _ He). simpl. rewrite Hb. simpl.
  rewrite parse_own_key. simpl. rewrite bool_decide_eq_true_2 by done. simpl.
  rewrite release_hex_roundtrip. simpl. rewrite release_signature_roundtrip. simpl. rewrite Hm. simpl.
  by rewrite release_sign_verifies.
Qed.

Definition described (base path : string) (content : list ascii) (a : ReleaseArtifact) : Prop := ∃ file target,
  target_of path = Done (file, target) ∧
  a = {| ra_target := target; ra_url := base +:+ "/" +:+ file; ra_size := len content;
         ra_sha256 := hex_encode (sha256 content) |}.

Lemma describe_artifacts_Done base contents paths : ∀ (w w' : W) l,
  (∀ path, path ∈ paths → Holds path (contents path)) →
  describe_artifacts base paths w = (w', Done l) →
  Forall2 (λ path a, described base path (contents path) a) paths l.
Proof.
  induction paths as [|path paths IH]; intros w w' l Hh; simpl; [by intros [= _ <-]|].
  intros (a & w1 & Ha & (rest & w2 & Hrest & [= _ <-])%step_bind_Done)%step_bind_Done.
  constructor; [|by eapply IH; [intros p Hp; apply Hh; by right|]]. clear Hrest IH.
  destruct (Hh path ltac:(by left) w) as [_ _]. apply lift_bind_Done in Ha as ([file target] & Ht & Ha).
  exists file, target. split; [done|]. apply step_bind_Done in Ha as ([] & w3 & _ & Ha).
  destruct (Hh path ltac:(by left) w3) as (_ & Hlen & _). unfold ask in Ha.
  apply step_bind_Done in Ha as (size & w4 & Hs & Ha). destruct (file_len path w3). injection Hs as <- <-. simpl in Hlen.
  subst. apply lift_bind_Done in Ha as (n & [= <-] & Ha).
  apply step_bind_Done in Ha as (r & w5 & Hs & Ha).
  match type of Hs with context [read_file path ?v] => destruct (Hh path ltac:(by left) v) as (_ & _ & Hread);
    destruct (read_file path v) end. injection Hs as <- <-. simpl in Hread. subst.
  apply lift_bind_Done in Ha as (content & [= <-] & [= _ <-]). done.
Qed.

(** A release that was made can be had: of every binary it was made of, the
    bytes are acquired from any source that trusts its key and serves its
    manifest and the binary, in whatever pieces they come. *)
Lemma released_binary_is_acquired (pkg version : string) protocol base output paths contents sk private (w w1 : W) :
  (∀ path, path ∈ paths → Holds path (contents path)) →
  (env_var "XSHELL_RELEASE_SIGNING_KEY" w).1 = Some private → parse_signing_key private = Done sk →
  create_manifest pkg version protocol base output paths w = (w1, Done ()) →
  ∃ written w0, write_file output written w0 = (None, w1) ∧
    ∀ source path file target url w',
      path ∈ paths → target_of path = Done (file, target) →
      rs_public_key source = hex_encode (key_to_bytes (verifying_key sk)) →
      source_validate source = Done () → manifest_url_for source version = Done url →
      (len written ≤ MAX_RELEASE_MANIFEST_BYTES)%N → (∀ w, (https_client w).1 = None) →
      Serves url written → Serves (trim_end_matches "/" base +:+ "/" +:+ file) (contents path) →
      ∃ w'' p, acquire source target version protocol w' = (w'', Done p) ∧ pa_bytes p = contents path.
Proof.
  intros Hh Henv Hsk. unfold create_manifest. case_bool_decide; [|done]. simpl.
  intros (hex & w2 & Ha & H1)%step_bind_Done. unfold ask in Ha. destruct (env_var _ w) as [o w0]. injection Ha as <- <-.
  simpl in Henv. rewrite Henv in H1. apply lift_bind_Done in H1 as (? & [= <-] & H1). rewrite Hsk in H1.
  apply lift_bind_Done in H1 as (? & [= <-] & H1).
  apply step_bind_Done in H1 as (l & w3 & Hd & H1). apply describe_artifacts_Done with (contents := contents) in Hd; [|done].
  apply lift_bind_Done in H1 as (m & Hm & H1). apply lift_bind_Done in H1 as (encoded & He & H1).
  destruct (manifest_to_vec_pretty m) as [?|?] eqn:Hv; [done|]. injection He as ->.
  apply step_bind_Done in H1 as (r & w4 & Hw & H1). unfold ask in Hw.
  destruct (write_file output (encoded ++ [newline]) w3) as [o1 w5] eqn:Hwrite. injection Hw as -> ->.
  destruct r; [done|]. injection H1 as ->. exists (encoded ++ [newline]), w3. split; [done|].
  intros source path file target url w' Hp Ht Hkey Hval Hurl Hlen Hclient Hsm Hsa.
  destruct (verify_signed _ _ _ _ Hm Hv Hlen) as (Hrel & Hbody & Hver).
  destruct (validate_body_artifacts _ Hbody) as [Hok Hn]. simpl in Hok, Hn.
  apply list_elem_of_lookup in Hp as [i Hi]. destruct (Forall2_lookup_l _ _ _ _ _ Hd Hi) as (a & Hai & Hda).
  destruct Hda as (file' & target' & Ht' & Ha). rewrite Ht in Ht'. injection Ht' as <- <-.
  assert (a ∈ sort_on ra_target l) as Hin by by apply elem_of_sort_on, list_elem_of_lookup_2 with i.
  assert (select_artifact (Verified m) target version protocol = Done a) as Hsel.
  { unfold select_artifact. simpl. rewrite Hrel. simpl. rewrite !bool_decide_eq_true_2 by done. simpl.
    destruct (List.find _ _) as [a'|] eqn:Hf.
    - apply List.find_some in Hf as [Hin'%list_elem_of_In Ht'%bool_decide_eq_true]. simpl. f_equal.
      eapply (NoDup_key_inj ra_target); [exact Hn|done|done|]. by rewrite Ha.
    - eapply List.find_none in Hf; [|by apply list_elem_of_In]. apply bool_decide_eq_false in Hf. by rewrite Ha in Hf. }
  rewrite Forall_forall in Hok. pose proof (Hok a Hin) as Hoka.
  unfold acquire, fetch_verified_manifest, fetch_verified_artifact, mbind, Step_bind, lift.
  rewrite Hval, Hurl, Hkey, parse_own_key.
  destruct (calling_Done "cannot initialize release download client" https_client w') as [w6 H6]; [done|].
  unfold new_client. rewrite H6.
  destruct (fetch_bounded_serves url (encoded ++ [newline]) MAX_RELEASE_MANIFEST_BYTES w6) as [w7 H7]; [|done..|].
  { unfold manifest_url_for in Hurl. repeat case_match; try done. apply bind_Done in Hurl as ([] & Hu & [= <-]).
    by apply require_https_url_spec. }
  rewrite H7, Hver, Hsel, (proj2 (validate_artifact_spec a) Hoka).
  destruct (calling_Done "cannot initialize release download client" https_client w7) as [w8 H8]; [done|]. rewrite H8.
  destruct (fetch_bounded_serves (ra_url a) (contents path) (ra_size a) w8) as [w9 H9]; [by destruct Hoka|by rewrite Ha|by rewrite Ha|].
  rewrite H9. replace (verify_artifact a (contents path)) with (Done (E := string) ()); [|symmetry; apply verify_artifact_spec; by rewrite Ha in *].
  eexists _, _. split; [done|]. done.
Qed.
End released.

(** * A release that is made and acquired *)

#[export] Instance ReleaseArtifact_eq_dec : EqDecision ReleaseArtifact.
Proof. solve_decision. Defined.
#[export] Instance ReleaseManifestBody_eq_dec : EqDecision ReleaseManifestBody.
Proof. solve_decision. Defined.
#[export] Instance SignedReleaseManifest_eq_dec : EqDecision SignedReleaseManifest.
Proof. solve_decision. Defined.

Definition hex_value (c : ascii) : N := if is_ascii_digit c then code c - 48 else code c - 87.
Fixpoint hex_bytes (b : list ascii) : string :=
  match b with
  | [] => ""
  | c :: b => String (hex_digit (code c / 16)) (String (hex_digit (code c mod 16)) (hex_bytes b))
  end.
Fixpoint bytes_of_hex (s : string) : option (list ascii) :=
  match s with
  | EmptyString => Some []
  | String a (String b s) => cons (ascii_of_N (hex_value a * 16 + hex_value b)) <$> bytes_of_hex s
  | _ => None
  end.

Definition hex_byte_ok (c : ascii) : bool :=
  lower_hex (hex_digit (code c / 16)) && lower_hex (hex_digit (code c mod 16)) &&
  bool_decide (ascii_of_N (hex_value (hex_digit (code c / 16)) * 16 + hex_value (hex_digit (code c mod 16))) = c).

Lemma hex_byte c : hex_byte_ok c = true.
Proof. destruct c as [[] [] [] [] [] [] [] []]; vm_compute; reflexivity. Qed.

Lemma hex_bytes_roundtrip b : bytes_of_hex (hex_bytes b) = Some b.
Proof.
  induction b as [|c b IH]; [done|]. cbn [hex_bytes bytes_of_hex]. rewrite IH.
  pose proof (hex_byte c) as [_ Hc%bool_decide_eq_true]%andb_true_iff. by rewrite Hc.
Qed.

Lemma hex_bytes_lower b : string_all lower_hex (hex_bytes b) = true.
Proof.
  induction b as [|c b IH]; [done|]. cbn [hex_bytes string_all]. rewrite IH.
  pose proof (hex_byte c) as [[H1 H2]%andb_true_iff _]%andb_true_iff. by rewrite H1, H2.
Qed.

Module Sample.
Inductive Key : Type := TheKey.

#[export] Instance crypto : Crypto Key Key (list ascii) := {|
  sha256 b := take 32 (b ++ replicate 32 "0"%char);
  hex_encode := hex_bytes;
  hex_decode := bytes_of_hex;
  verifying_key k := k;
  key_to_bytes _ := replicate 32 "k"%char;
  key_from_bytes _ := Some TheKey;
  sign _ m := m;
  verify _ m s := bool_decide (s = m);
  signature_to_bytes s := s;
  signature_from_slice b := Some b |}.

Definition binary : list ascii := chars "the binary".
Definition path : string := "target/xshelld-linux".
Definition base : string := "https://example.test/v0.2.0/".

Definition body_bytes (body : ReleaseManifestBody) : list ascii :=
  chars (rl_version body +:+ join "," (ra_sha256 <$> rl_artifacts body)).

(** [serde_json] as far as the one manifest. *)
Definition codec_of (m : option SignedReleaseManifest) : ReleaseCodec Key := {|
  body_to_vec body := inr (body_bytes body);
  manifest_from_slice b := match m with
    | Some m => if bool_decide (b = chars "manifest" ++ [newline]) then inr m else inl "no manifest"
    | None => inl "no manifest" end;
  manifest_to_vec_pretty n := match m with
    | Some m => if bool_decide (n = m) then inr (chars "manifest") else inl "no manifest"
    | None => inl "no manifest" end;
  url_parse url := match strip_prefix "https://" url with
    | Some rest => inr {| url_scheme := "https"; url_host := Some rest; url_username := ""; url_password := None;
                          url_fragment := None |}
    | None => inl "relative URL without a base" end;
  signing_key_from_bytes _ := TheKey;
  signing_key_to_bytes _ := replicate 32 "k"%char |}.

Definition sample_artifact : ReleaseArtifact := {|
  ra_target := "linux"; ra_url := "https://example.test/v0.2.0/xshelld-linux"; ra_size := 10;
  ra_sha256 := hex_bytes (take 32 (binary ++ replicate 32 "0"%char)) |}.
Definition manifest : option SignedReleaseManifest :=
  match @sign_manifest Key Key (list ascii) crypto (codec_of None) {|
    rl_schema_version := 1; rl_version := "0.2.0"; rl_protocol_version := 16; rl_artifacts := [sample_artifact] |} TheKey with
  | Done m => Some m
  | _ => None
  end.
#[export] Instance codec : ReleaseCodec Key := codec_of manifest.

Definition manifest_url : string := "https://example.test/v0.2.0/xshell-release.json".
Definition served (url : string) : list ascii :=
  if bool_decide (url = manifest_url) then chars "manifest" ++ [newline] else binary.

#[export] Instance host : ReleaseHost Key (list ascii) := {|
  https_client w := (None, w);
  http_get url w := (inr {| dl_status := None; dl_content_length := None;
                            dl_chunks := inr <$> [take 3 (served url); drop 3 (served url)] |}, w);
  env_var _ w := (Some (hex_bytes (replicate 32 "k"%char)), w);
  open_file _ w := (None, w);
  file_len _ w := (inr 10%N, w);
  read_file _ w := (inr binary, w);
  write_file _ b _ := (None, b);
  create_new _ _ w := (None, w);
  append_file _ _ w := (None, w);
  sync_file _ w := (None, w);
  remove_file _ w := w;
  generate_key w := (TheKey, w) |}.

#[export] Instance laws : ReleaseLaws Key Key (list ascii).
Proof.
  split; try done.
  - apply hex_bytes_roundtrip.
  - apply hex_bytes_lower.
  - by intros [].
  - intros sk m. by apply bool_decide_eq_true.
  - intros m b. cbn [manifest_to_vec_pretty manifest_from_slice codec codec_of]. destruct manifest as [n|]; [|done].
    case_bool_decide as Hn; [|done]. intros [= <-]. rewrite bool_decide_eq_true_2 by done. by rewrite Hn.
Qed.

Definition source : ReleaseSource := {|
  rs_manifest_url := "https://example.test/v{version}/xshell-release.json";
  rs_public_key := hex_bytes (replicate 32 "k"%char) |}.
End Sample.

Import Sample.

Definition expected : PreparedReleaseArtifact := {|
  pa_manifest_url := manifest_url; pa_version := "0.2.0"; pa_protocol_version := 16;
  pa_signing_key_id := hex_bytes (replicate 16 "k"%char); pa_artifact := sample_artifact; pa_bytes := binary |}.

Lemma acquired_bytes_are_signed_witness :
  acquire source "linux" "0.2.0" 16 [] = ([], Done expected) ∧ Secure manifest_url.
Proof.
  assert (acquire source "linux" "0.2.0" 16 [] = ([], Done expected)) as Ha by (vm_compute; reflexivity).
  split; [exact Ha|].
  destruct (acquired_bytes_are_signed source "linux" "0.2.0" 16 [] [] expected Ha)
    as (key & m & _ & _ & _ & _ & _ & _ & _ & _ & _ & _ & Hs & _). exact Hs.
Defined.

Lemma served_serves url : Serves url (served url).
Proof.
  intros w. exists {| dl_status := None; dl_content_length := None;
                      dl_chunks := inr <$> [take 3 (served url); drop 3 (served url)] |}, [take 3 (served url); drop 3 (served url)].
  split_and!; try done. cbn [concat]. by rewrite app_nil_r, take_drop.
Qed.

Lemma released_binary_is_acquired_witness :
  ∃ w p, acquire source "linux" "0.2.0" 16 [] = (w, Done p) ∧ pa_bytes p = binary.
Proof.
  destruct (released_binary_is_acquired "0.2.0" "0.2.0" 16 base "release.json" [path] (λ _, binary) TheKey
    (hex_bytes (replicate 32 "k"%char)) [] (chars "manifest" ++ [newline])) as (written & w0 & [= Hw] & Hall).
  - done.
  - done.
  - vm_compute. reflexivity.
  - vm_compute. reflexivity.
  - apply (Hall source path "xshelld-linux" "linux" manifest_url []); rewrite ?Hw.
    + by left.
    + vm_compute. reflexivity.
    + done.
    + vm_compute. reflexivity.
    + vm_compute. reflexivity.
    + vm_compute. done.
    + done.
    + apply (served_serves manifest_url).
    + apply (served_serves (trim_end_matches "/" base +:+ "/" +:+ "xshelld-linux")).
Defined.
