(* ===== verification/Configs.v ===== *)
(** Configuration: the session daemon's ([SessionConfig] of
    [crates/xshell-session/src/model.rs]), the client's
    ([crates/xshell-cli/src/config.rs]) and its views' ([ViewConfig] of
    [crates/xshell-cli/src/view.rs]): models, limit profiles and paths that are
    resolved from it, and what is checked when it is loaded.

    TOML is the class [ConfigFile]; files and the environment are [ConfigHost].
    The paths of a default are those of a platform other than macOS. *)
From Stdlib Require Import Ascii.
From S2P Require Import Prelude Sensitive Policy Budget Compaction PtyStream.
From S2P Require Import AuditModel AuditLog SessionModel Text Markdown Release.

(** ** The session daemon *)

Inductive SensitivityAction : Type := ActionPrompt | ActionBlock.

#[export] Instance SensitivityAction_eq_dec : EqDecision SensitivityAction.
Proof. solve_decision. Defined.

Record SensitivityClass := {
  sc_action : SensitivityAction;
  sc_patterns : list string;
}.

Record SessionConfig := {
  sf_enabled : bool;
  sf_required : bool;
  sf_host_alias : option string;
  sf_socket : option string;
  sf_state_directory : option string;
  sf_default_session : string;
  sf_pty_escape : string;
  sf_max_approval : ApprovalPolicy;
  sf_sensitive_paths : option (list string);
  sf_compaction : CompactionConfig;
  sf_max_limits : LimitSettings;
  sf_approval_policy : PolicyConfig;
  sf_sensitivity : list SensitivityClass;
}.

Definition limit_settings_default : LimitSettings := {|
  set_provider_requests := None; set_tool_calls := None; set_tool_calls_per_response := None;
  set_wall_time := None; set_shell_timeout := None; set_auto_continues := None |}.
Definition policy_config_default : PolicyConfig := {|
  config_always_allowed := []; config_allowed := None; config_denied := [] |}.

Definition session_config_default : SessionConfig := {|
  sf_enabled := false; sf_required := true; sf_host_alias := None; sf_socket := None; sf_state_directory := None;
  sf_default_session := "default"; sf_pty_escape := "ctrl-]"; sf_max_approval := Ask;
  sf_sensitive_paths := None; sf_compaction := config_default; sf_max_limits := limit_settings_default;
  sf_approval_policy := policy_config_default; sf_sensitivity := [] |}.

Definition class_patterns (c : SessionConfig) (action : SensitivityAction) : list string :=
  mjoin (sc_patterns <$> filter (λ class, sc_action class = action) (sf_sensitivity c)).

Definition sensitive_paths (c : SessionConfig) : SensitivePaths :=
  let base := default DEFAULT_SENSITIVE_PATTERNS (sf_sensitive_paths c) in
  sensitive_new (base ++ class_patterns c ActionPrompt).

Definition blocked_paths (c : SessionConfig) : SensitivePaths := sensitive_new (class_patterns c ActionBlock).

(** [error.context(message)]. *)
Definition in_place {A} (message : string) (r : Outcome string A) : Outcome string A :=
  match r with Fail e => Fail (message +:+ ": " +:+ e) | r => r end.

Definition approval_policy (split : string → string + list string) (c : SessionConfig) :
    Outcome string (Policy * list string) :=
  in_place "in session_fabric.approval_policy" (policy_parse split (sf_approval_policy c)).

Definition limit_ceiling (c : SessionConfig) : Outcome string TurnLimits :=
  in_place "in session_fabric.max_limits" (apply_to (sf_max_limits c) limits_relaxed).

(** [Path::join] of a relative path. *)
Definition path_join (directory name : string) : string :=
  if bool_decide (directory = "" ∨ last (chars directory) = Some "/"%char) then directory +:+ name
  else directory +:+ "/" +:+ name.

(** The environment: [XDG_STATE_HOME], [HOME] and [XSHELL_CONFIG]. *)
Record Environment := {
  xdg_state_home : option string;
  home : option string;
  xshell_config : option string;
}.

Definition default_state_directory (env : Environment) : option string :=
  match xdg_state_home env with
  | Some directory => Some (path_join directory "xshell/sessions")
  | None => (λ home, path_join home ".local/state/xshell/sessions") <$> home env
  end.

Definition resolved_state_directory (env : Environment) (c : SessionConfig) : option string :=
  match sf_state_directory c with Some d => Some d | None => default_state_directory env end.

Definition resolved_socket (env : Environment) (c : SessionConfig) : option string :=
  match sf_socket c with
  | Some s => Some s
  | None => (λ directory, path_join directory "xshelld.sock") <$> resolved_state_directory env c
  end.

(** ** Views *)

Inductive PaginationMode : Type := PageAuto | PageAlways | PageNever.

#[export] Instance PaginationMode_eq_dec : EqDecision PaginationMode.
Proof. solve_decision. Defined.

Record ViewPolicy := { vp_pagination : option PaginationMode }.

Record ViewConfig := {
  vc_pagination : PaginationMode;
  vc_pager : list string;
  vc_classes : gmap string ViewPolicy;
  vc_viewers : gmap string ViewPolicy;
}.

Definition view_config_default : ViewConfig := {|
  vc_pagination := PageAuto; vc_pager := ["less"; "-R"; "-X"]; vc_classes := ∅; vc_viewers := ∅ |}.

Definition view_validate (c : ViewConfig) : Outcome string () :=
  if from_option (λ program, bool_decide (program = "")) true (head (vc_pager c))
  then Fail "view.pager must contain a non-empty executable name"
  else if bool_decide (is_Some (vc_classes c !! "")) then Fail "view.classes keys cannot be empty"
  else if bool_decide (is_Some (vc_viewers c !! "")) then Fail "view.viewers keys cannot be empty"
  else Done ().

Definition pagination_for (c : ViewConfig) (viewer_id media_class : string)
    (command_override : option PaginationMode) : PaginationMode :=
  match command_override with Some mode => mode | None =>
  match vc_viewers c !! viewer_id ≫= vp_pagination with Some mode => mode | None =>
  match vc_classes c !! media_class ≫= vp_pagination with Some mode => mode | None => vc_pagination c end end end.

(** ** The client *)

Inductive Provider : Type := Ollama | Openai.

#[export] Instance Provider_eq_dec : EqDecision Provider.
Proof. solve_decision. Defined.

Record ModelProfile := {
  mp_provider : Provider;
  mp_model : string;
  mp_base_url : option string;
  mp_api_key_env : option string;
  mp_max_history_bytes : option N;
  mp_context_tokens : option N;
  mp_reserve_output_tokens : option N;
  mp_limits : option string;
}.

Record AgentConfig := {
  ag_limits : option string;
  ag_limit_profiles : gmap string LimitSettings;
}.

Record XshellConfig := {
  xc_default_model : option string;
  xc_rendering : RenderingConfig;
  xc_view : ViewConfig;
  xc_audit : AuditConfig;
  xc_remote_bootstrap : option ReleaseSource;
  xc_session_fabric : SessionConfig;
  xc_agent : AgentConfig;
  xc_models : gmap string ModelProfile;
}.

Definition xshell_config_default : XshellConfig := {|
  xc_default_model := None; xc_rendering := rendering_default; xc_view := view_config_default;
  xc_audit := audit_config_default; xc_remote_bootstrap := None; xc_session_fabric := session_config_default;
  xc_agent := {| ag_limits := None; ag_limit_profiles := ∅ |}; xc_models := ∅ |}.

Record ModelOverrides := {
  mo_provider : option Provider;
  mo_model : option string;
  mo_base_url : option string;
  mo_api_key_env : option string;
}.

Record ActiveModel := {
  am_profile_name : option string;
  am_provider : Provider;
  am_model : string;
  am_base_url : string;
  am_api_key_env : option string;
  am_max_history_bytes : option N;
  am_context_tokens : option N;
  am_reserve_output_tokens : option N;
}.

#[export] Instance ActiveModel_eq_dec : EqDecision ActiveModel.
Proof. solve_decision. Defined.

Definition default_base_url (p : Provider) : string :=
  match p with Ollama => "http://127.0.0.1:11434" | Openai => "https://api.openai.com" end.

Definition is_env_name (value : string) : bool :=
  match value with
  | EmptyString => false
  | String c rest =>
      (bool_decide (c = "_"%char) || is_ascii_alphabetic c) &&
      string_all (λ c, bool_decide (c = "_"%char) || is_ascii_alphanumeric c) rest
  end.

Definition validate_api_key_env (value : string) (profile_name : option string) : Outcome string string :=
  if is_env_name value then Done value
  else Fail ("invalid api_key_env" +:+ from_option (λ name, " in model profile " +:+ debug_str name) "" profile_name +:+
             "; expected an environment variable name such as OPENROUTER_API_KEY, not an API key").

(** [Option::transpose] of a value that is checked. *)
Definition checked {A} (f : A → Outcome string A) (o : option A) : Outcome string (option A) :=
  match o with Some a => let! a := f a in Done (Some a) | None => Done None end.

Definition provider_name (p : Provider) : string := match p with Ollama => "ollama" | Openai => "openai" end.

Definition to_session_binding (m : ActiveModel) : ModelBinding := {|
  mb_profile_name := am_profile_name m; mb_provider := provider_name (am_provider m); mb_model := am_model m;
  mb_base_url := am_base_url m; mb_api_key_env := am_api_key_env m; mb_max_history_bytes := am_max_history_bytes m;
  mb_context_tokens := am_context_tokens m; mb_reserve_output_tokens := am_reserve_output_tokens m |}.

Definition from_session_binding (b : ModelBinding) : Outcome string ActiveModel :=
  let! provider :=
    if bool_decide (mb_provider b = "ollama") then Done Ollama
    else if bool_decide (mb_provider b = "openai") then Done Openai
    else Fail ("session uses unsupported provider " +:+ debug_str (mb_provider b)) in
  let! api_key_env := checked (λ value, validate_api_key_env value (mb_profile_name b)) (mb_api_key_env b) in
  Done {| am_profile_name := mb_profile_name b; am_provider := provider; am_model := mb_model b;
          am_base_url := mb_base_url b; am_api_key_env := api_key_env; am_max_history_bytes := mb_max_history_bytes b;
          am_context_tokens := mb_context_tokens b; am_reserve_output_tokens := mb_reserve_output_tokens b |}.

Definition profile (c : XshellConfig) (name : string) : Outcome string ModelProfile :=
  context (xc_models c !! name) ("unknown model profile " +:+ debug_str name).

Definition or_else {A} (o : option A) (d : option A) : option A := match o with Some a => Some a | None => d end.

Definition resolve_startup (c : XshellConfig) (requested_profile : option string) (overrides : ModelOverrides) :
    Outcome string ActiveModel :=
  let selected_name := or_else requested_profile (xc_default_model c) in
  let! selected := match selected_name with
                   | Some name => let! p := profile c name in Done (Some p)
                   | None => Done None
                   end in
  let provider := default Ollama (or_else (mo_provider overrides) (mp_provider <$> selected)) in
  let model := default "qwen3:8b" (or_else (mo_model overrides) (mp_model <$> selected)) in
  let base_url := default (default_base_url provider) (or_else (mo_base_url overrides) (selected ≫= mp_base_url)) in
  let! api_key_env := checked (λ name, validate_api_key_env name selected_name)
                        (or_else (mo_api_key_env overrides) (selected ≫= mp_api_key_env)) in
  let api_key_env :=
    if bool_decide (api_key_env = None) && negb (bool_decide (is_Some selected)) && bool_decide (provider = Openai)
    then Some "OPENAI_API_KEY" else api_key_env in
  Done {| am_profile_name := selected_name; am_provider := provider; am_model := model; am_base_url := base_url;
          am_api_key_env := api_key_env; am_max_history_bytes := selected ≫= mp_max_history_bytes;
          am_context_tokens := selected ≫= mp_context_tokens;
          am_reserve_output_tokens := selected ≫= mp_reserve_output_tokens |}.

Definition resolve_profile (c : XshellConfig) (name : string) : Outcome string ActiveModel :=
  let! p := profile c name in
  let! api_key_env := checked (λ value, validate_api_key_env value (Some name)) (mp_api_key_env p) in
  Done {| am_profile_name := Some name; am_provider := mp_provider p; am_model := mp_model p;
          am_base_url := default (default_base_url (mp_provider p)) (mp_base_url p); am_api_key_env := api_key_env;
          am_max_history_bytes := mp_max_history_bytes p; am_context_tokens := mp_context_tokens p;
          am_reserve_output_tokens := mp_reserve_output_tokens p |}.

(** ** Limit profiles *)

Definition limit_profile_names (c : XshellConfig) : list string :=
  foldl (λ names name, if bool_decide (name ∈ names) then names else names ++ [name])
    ["default"; "relaxed"] (btree_keys (ag_limit_profiles (xc_agent c))).

Definition limit_profile (c : XshellConfig) (name : string) : Outcome string TurnLimits :=
  let profiles := ag_limit_profiles (xc_agent c) in
  let! base := match profiles !! "default" with
               | Some settings => in_place ("in limit profile " +:+ debug_str "default") (apply_to settings limits_default)
               | None => Done limits_default
               end in
  if bool_decide (name = "default") then Done base
  else match profiles !! name, builtin name with
       | Some settings, own => in_place ("in limit profile " +:+ debug_str name) (apply_to settings (default base own))
       | None, Some limits => Done limits
       | None, None => Fail ("unknown limit profile " +:+ debug_str name +:+ "; known profiles: " +:+
                             Prelude.join ", " (limit_profile_names c))
       end.

Definition limits_name_for (c : XshellConfig) (explicit : option string) (active : ActiveModel) : string :=
  default "default"
    (or_else explicit
      (or_else (name ← am_profile_name active; p ← xc_models c !! name; mp_limits p) (ag_limits (xc_agent c)))).

Fixpoint all_done {A} (f : A → Outcome string ()) (l : list A) : Outcome string () :=
  match l with [] => Done () | a :: l => let! _ := f a in all_done f l end.

Definition forget {A} (r : Outcome string A) : Outcome string () := let! _ := r in Done ().

Definition validate_limits (c : XshellConfig) : Outcome string () :=
  let! _ := all_done (λ name, forget (limit_profile c name)) (limit_profile_names c) in
  let! _ := match ag_limits (xc_agent c) with
            | Some name => in_place "in agent.limits" (forget (limit_profile c name))
            | None => Done ()
            end in
  all_done (λ '(model, p),
    match mp_limits p with
    | Some name => in_place ("in model profile " +:+ debug_str model) (forget (limit_profile c name))
    | None => Done ()
    end) (btree_iter (xc_models c)).

(** ** Loading *)

(** [toml::from_str], for the two files there are. *)
Class ConfigFile := {
  config_from_toml : string → string + XshellConfig;
  policy_from_toml : string → string + PolicyConfig;
}.

(** Reading files, at one moment. *)
Class ConfigHost (W : Type) := {
  environment : W → Environment;
  path_exists : string → W → bool;
  read_to_string : string → W → string + string;
}.

Definition default_config_path (env : Environment) : Outcome string string :=
  match xshell_config env with
  | Some path => Done path
  | None => let! home := context (home env) "HOME is not set" in Done (path_join home ".config/xshell/config.toml")
  end.

Section load.
Context {SecretKey PublicKey Signature W : Type}.
Context `{!Crypto SecretKey PublicKey Signature, !ReleaseCodec SecretKey, !ConfigFile, !ConfigHost W}.

Definition load (explicit_path : option string) (w : W) : Outcome string (XshellConfig * string) :=
  let! path := match explicit_path with Some path => Done path | None => default_config_path (environment w) end in
  if negb (path_exists path w) then
    if bool_decide (is_Some explicit_path) then Fail ("configuration file " +:+ path +:+ " does not exist")
    else Done (xshell_config_default, path)
  else
    let invalid := "invalid configuration file " +:+ path in
    let! source := with_context ("cannot read configuration file " +:+ path) (read_to_string path w) in
    let! config := with_context invalid (config_from_toml source) in
    let! _ := in_place invalid (view_validate (xc_view config)) in
    let! _ := match xc_remote_bootstrap config with
              | Some source => in_place invalid (source_validate source)
              | None => Done ()
              end in
    let! _ := in_place invalid (validate_limits config) in
    Done (config, path).

Definition load_policy_file (split : string → string + list string) (path : string) (w : W) :
    Outcome string (PolicyConfig * Policy * list string) :=
  let! source := with_context ("cannot read approval policy " +:+ path) (read_to_string path w) in
  let! config := with_context ("invalid approval policy " +:+ path) (policy_from_toml source) in
  let! '(policy, warnings) := in_place ("invalid approval policy " +:+ path) (policy_parse split config) in
  Done (config, policy, warnings).
End load.

(** * What is checked when it is loaded *)

Lemma in_place_Done {A} message (r : Outcome string A) a : in_place message r = Done a ↔ r = Done a.
Proof. by destruct r. Qed.

Lemma forget_Done {A} (r : Outcome string A) : forget r = Done () ↔ ∃ a, r = Done a.
Proof. unfold forget. rewrite bind_Done. naive_solver. Qed.

Lemma all_done_Done {A} (f : A → Outcome string ()) l : all_done f l = Done () ↔ Forall (λ a, f a = Done ()) l.
Proof.
  induction l as [|a l IH]; simpl; [split; [constructor|done]|]. rewrite bind_Done, Forall_cons, <-IH.
  split; [by intros ([] & ? & ?)|intros [? ?]; by exists ()].
Qed.

Lemma limits_default_enforceable : Enforceable limits_default.
Proof. apply limits_validate_Done. vm_compute. reflexivity. Qed.
Lemma limits_relaxed_enforceable : Enforceable limits_relaxed.
Proof. apply limits_validate_Done. vm_compute. reflexivity. Qed.

Lemma apply_to_enforceable s base l : apply_to s base = Done l → Enforceable l.
Proof. unfold apply_to. intros ([] & Hv%limits_validate_Done & [= <-])%bind_Done. exact Hv. Qed.

Lemma builtin_enforceable name l : builtin name = Some l → Enforceable l.
Proof.
  unfold builtin. repeat case_bool_decide; intros [= <-]; [apply limits_default_enforceable|apply limits_relaxed_enforceable].
Qed.

Lemma limit_profile_enforceable c name l : limit_profile c name = Done l → Enforceable l.
Proof.
  unfold limit_profile. intros (base & Hb & H)%bind_Done.
  assert (Enforceable base) as Hbase.
  { destruct (_ !! "default"); [apply in_place_Done in Hb; by eapply apply_to_enforceable|].
    injection Hb as <-. apply limits_default_enforceable. }
  case_bool_decide; [by injection H as <-|].
  destruct (_ !! name) as [settings|]; [apply in_place_Done in H; by eapply apply_to_enforceable|].
  destruct (builtin name) eqn:Hn; [|done]. injection H as <-. by eapply builtin_enforceable.
Qed.

Lemma elem_of_limit_profile_names c name :
  name ∈ limit_profile_names c ↔
    name = "default" ∨ name = "relaxed" ∨ is_Some (ag_limit_profiles (xc_agent c) !! name).
Proof.
  unfold limit_profile_names. rewrite <-elem_of_btree_keys. generalize (btree_keys (ag_limit_profiles (xc_agent c))).
  intros keys. assert (∀ l, name ∈ foldl (λ names name, if bool_decide (name ∈ names) then names else names ++ [name]) l keys
                         ↔ name ∈ l ∨ name ∈ keys) as Hall.
  { induction keys as [|k keys IH]; intros l; simpl; [set_solver|]. rewrite IH. case_bool_decide; set_solver. }
  rewrite Hall. set_solver.
Qed.

(** A profile that is not known by name is refused. *)
Lemma limit_profile_known c name l : limit_profile c name = Done l → name ∈ limit_profile_names c.
Proof.
  rewrite elem_of_limit_profile_names. unfold limit_profile. intros (base & _ & H)%bind_Done.
  case_bool_decide; [by left|]. destruct (_ !! name) as [s|] eqn:Hs; [right; right; by eexists|].
  unfold builtin in H. rewrite bool_decide_eq_false_2 in H by done. case_bool_decide; [by right; left|done].
Qed.

Lemma validate_limits_spec c :
  validate_limits c = Done () ↔
    (∀ name, name ∈ limit_profile_names c → ∃ l, limit_profile c name = Done l) ∧
    (∀ name, ag_limits (xc_agent c) = Some name → ∃ l, limit_profile c name = Done l) ∧
    (∀ model p name, xc_models c !! model = Some p → mp_limits p = Some name → ∃ l, limit_profile c name = Done l).
Proof.
  unfold validate_limits. split.
  - intros ([] & Hnames%all_done_Done & ([] & Hagent & Hmodels%all_done_Done)%bind_Done)%bind_Done.
    pose proof (proj1 (Forall_forall _ _) Hnames) as Hn'. pose proof (proj1 (Forall_forall _ _) Hmodels) as Hm'.
    split_and!; [by intros name Hn%Hn'%forget_Done| |].
    + intros name Hn. rewrite Hn in Hagent. by apply in_place_Done, forget_Done in Hagent.
    + intros model p name Hm Hl. specialize (Hm' (model, p) (proj2 (elem_of_btree_iter _ _ _) Hm)). simpl in Hm'.
      rewrite Hl in Hm'. by apply in_place_Done, forget_Done in Hm'.
  - intros (Hnames & Hagent & Hmodels). apply bind_Done. exists (). split.
    { apply all_done_Done, Forall_forall. intros name Hn. by apply forget_Done, Hnames. }
    apply bind_Done. exists (). split; [|apply all_done_Done, Forall_forall].
    + destruct (ag_limits _) as [name|]; [|done]. apply in_place_Done, forget_Done. by apply Hagent.
    + intros [model p] Hm%elem_of_btree_iter. destruct (mp_limits p) as [name|] eqn:Hl; [|done].
      apply in_place_Done, forget_Done. by eapply Hmodels.
Qed.

Lemma default_config_validates : validate_limits xshell_config_default = Done ().
Proof. vm_compute. reflexivity. Qed.

Section loaded.
Context {SecretKey PublicKey Signature W : Type}.
Context `{!Crypto SecretKey PublicKey Signature, !ReleaseCodec SecretKey, !ConfigFile, !ConfigHost W}.

Lemma load_validates explicit (w : W) c path : load explicit w = Done (c, path) → validate_limits c = Done ().
Proof.
  unfold load. intros (p & _ & Hc)%bind_Done. destruct (negb _).
  - destruct (bool_decide _); [done|]. injection Hc as <- _. apply default_config_validates.
  - apply bind_Done in Hc as (source & _ & (config & _ & ([] & _ & ([] & _ & ([] & Hv & [= <- _])%bind_Done)%bind_Done)%bind_Done)%bind_Done).
    by apply in_place_Done in Hv.
Qed.

(** A configuration that loads names no limits that are missing or cannot
    be enforced: every profile it knows, and the one a turn gets whatever model
    is active, are limits the budget enforces; what is refused later is only a
    name that the user gives and that is not one of them. *)
Lemma loaded_limits_resolve explicit (w : W) c path :
  load explicit w = Done (c, path) →
  (∀ name, name ∈ limit_profile_names c ↔ ∃ l, limit_profile c name = Done l ∧ Enforceable l) ∧
  (∀ active, ∃ l, limit_profile c (limits_name_for c None active) = Done l ∧ Enforceable l).
Proof.
  intros Hl%load_validates%validate_limits_spec. destruct Hl as (Hnames & Hagent & Hmodels).
  assert (∀ name, (∃ l, limit_profile c name = Done l) → ∃ l, limit_profile c name = Done l ∧ Enforceable l) as Hok.
  { intros name [l Hl]. exists l. split; [done|]. by eapply limit_profile_enforceable. }
  split.
  - intros name. split; [intros Hn; by apply Hok, Hnames|]. intros (l & Hl & _). by eapply limit_profile_known.
  - intros active. apply Hok. unfold limits_name_for. simpl.
    destruct (name ← am_profile_name active; p ← xc_models c !! name; mp_limits p) as [name|] eqn:Hm; simpl.
    + apply bind_Some in Hm as (model & _ & (p & Hp & Hl)%bind_Some). by eapply Hmodels.
    + destruct (ag_limits (xc_agent c)) as [name|] eqn:Hn; simpl; [by apply Hagent|].
      apply Hnames, elem_of_limit_profile_names. by left.
Qed.
End loaded.

Lemma checked_key o name v :
  checked (λ value, validate_api_key_env value name) o = Done v → v = o ∧ ∀ k, v = Some k → is_env_name k = true.
Proof.
  unfold checked, validate_api_key_env. destruct o as [k|]; [|by intros [= <-]].
  destruct (is_env_name k) eqn:Hk; simpl; intros [= <-]. split; [done|]. by intros ? [= <-].
Qed.

Lemma checked_ok o name :
  (∀ k, o = Some k → is_env_name k = true) → checked (λ value, validate_api_key_env value name) o = Done o.
Proof. intros Hk. unfold checked, validate_api_key_env. destruct o as [k|]; [|done]. by rewrite (Hk k eq_refl). Qed.

Lemma session_binding_roundtrip m :
  (∀ k, am_api_key_env m = Some k → is_env_name k = true) → from_session_binding (to_session_binding m) = Done m.
Proof.
  intros Hk. unfold from_session_binding. simpl. destruct m as [name p model url key bytes tokens reserve]; simpl in *.
  destruct p; simpl; by rewrite checked_ok.
Qed.

(** What a model may come from. *)
Definition Resolved (c : XshellConfig) (m : ActiveModel) : Prop :=
  (∃ requested overrides, resolve_startup c requested overrides = Done m) ∨
  (∃ name, resolve_profile c name = Done m) ∨
  (∃ b, from_session_binding b = Done m).

(** A model that was resolved, at the start, by its profile or from a
    session, names the variable that holds its key, never a key, and is the
    same when it comes back from the session it was sent to. *)
Lemma resolved_model_survives_session c m :
  Resolved c m →
  (∀ key, mb_api_key_env (to_session_binding m) = Some key → is_env_name key = true) ∧
  from_session_binding (to_session_binding m) = Done m.
Proof.
  intros Hr. assert (∀ k, am_api_key_env m = Some k → is_env_name k = true) as Hk;
    [|split; [done|by apply session_binding_roundtrip]].
  destruct Hr as [(requested & overrides & H)|[(name & H)|(b & H)]].
  - unfold resolve_startup in H. apply bind_Done in H as (selected & _ & (key & [_ Hkey]%checked_key & [= <-])%bind_Done).
    simpl. case_match; [|done]. by intros k [= <-].
  - unfold resolve_profile in H. apply bind_Done in H as (p & _ & (key & [_ Hkey]%checked_key & [= <-])%bind_Done). done.
  - unfold from_session_binding in H. apply bind_Done in H as (p & _ & (key & [_ Hkey]%checked_key & [= <-])%bind_Done). done.
Qed.

(** What the daemon's ceiling allows can be enforced. *)
Lemma limit_ceiling_enforceable c l : limit_ceiling c = Done l → Enforceable l.
Proof. unfold limit_ceiling. intros Hl%in_place_Done. by eapply apply_to_enforceable. Qed.

(** * A configuration *)

Definition sample_settings : LimitSettings := {|
  set_provider_requests := Some 10%N; set_tool_calls := None; set_tool_calls_per_response := None;
  set_wall_time := None; set_shell_timeout := None; set_auto_continues := None |}.

Definition sample_profile : ModelProfile := {|
  mp_provider := Openai; mp_model := "small"; mp_base_url := None; mp_api_key_env := Some "SMALL_KEY";
  mp_max_history_bytes := None; mp_context_tokens := Some 8192%N; mp_reserve_output_tokens := None;
  mp_limits := Some "careful" |}.

Definition sample_config : XshellConfig := {|
  xc_default_model := Some "small"; xc_rendering := rendering_default; xc_view := view_config_default;
  xc_audit := audit_config_default;
  xc_remote_bootstrap := Some Sample.source; xc_session_fabric := session_config_default;
  xc_agent := {| ag_limits := Some "relaxed"; ag_limit_profiles := {["careful" := sample_settings]} |};
  xc_models := {["small" := sample_profile]} |}.

#[export] Instance sample_file : ConfigFile := {|
  config_from_toml s := if bool_decide (s = "sample") then inr sample_config else inl "expected a table";
  policy_from_toml _ := inl "expected a table" |}.
#[export] Instance sample_files : ConfigHost () := {|
  environment _ := {| xdg_state_home := None; home := Some "/home/u"; xshell_config := None |};
  path_exists _ _ := true;
  read_to_string path _ := if bool_decide (path = "/home/u/.config/xshell/config.toml") then inr "sample" else inl "missing" |}.

Definition no_overrides : ModelOverrides := {|
  mo_provider := None; mo_model := None; mo_base_url := None; mo_api_key_env := None |}.
Definition sample_active : ActiveModel := {|
  am_profile_name := Some "small"; am_provider := Openai; am_model := "small"; am_base_url := "https://api.openai.com";
  am_api_key_env := Some "SMALL_KEY"; am_max_history_bytes := None; am_context_tokens := Some 8192%N;
  am_reserve_output_tokens := None |}.

Lemma resolved_model_survives_session_witness :
  resolve_startup sample_config None no_overrides = Done sample_active ∧
  from_session_binding (to_session_binding sample_active) = Done sample_active.
Proof.
  assert (resolve_startup sample_config None no_overrides = Done sample_active) as Hr by (vm_compute; reflexivity).
  split; [exact Hr|]. apply (resolved_model_survives_session sample_config sample_active).
  left. exists None, no_overrides. exact Hr.
Defined.

Import Sample.

Lemma loaded_limits_resolve_witness :
  limits_name_for sample_config None sample_active = "careful" ∧
  ∃ l, limit_profile sample_config "careful" = Done l ∧ provider_requests l = 10%N ∧ Enforceable l.
Proof.
  split; [vm_compute; reflexivity|].
  assert (load None () = Done (sample_config, "/home/u/.config/xshell/config.toml")) as Hl by (vm_compute; reflexivity).
  destruct (loaded_limits_resolve None () sample_config _ Hl) as (_ & Hactive).
  destruct (Hactive sample_active) as (l & Hp & He). exists l.
  assert (limits_name_for sample_config None sample_active = "careful") as Hn by (vm_compute; reflexivity).
  rewrite Hn in Hp. split; [exact Hp|]. split; [|exact He].
  assert (limit_profile sample_config "careful" = Done {| provider_requests := 10; tool_calls := 256;
    tool_calls_per_response := 64; wall_time := from_secs 3600; shell_timeout := from_secs 60; auto_continues := 2 |})
    as Hc by (vm_compute; reflexivity).
  rewrite Hc in Hp. injection Hp as <-. reflexivity.
Defined.

(** Classes add to the patterns there are; what is blocked is not what only
    needs approval. *)
Example classes_example :
  let c := {| sf_enabled := true; sf_required := true; sf_host_alias := None; sf_socket := None; sf_state_directory := None;
              sf_default_session := "default"; sf_pty_escape := "ctrl-]"; sf_max_approval := Ask;
              sf_sensitive_paths := Some []; sf_compaction := config_default; sf_max_limits := limit_settings_default;
              sf_approval_policy := policy_config_default;
              sf_sensitivity := [{| sc_action := ActionBlock; sc_patterns := ["vault/**"] |};
                                 {| sc_action := ActionPrompt; sc_patterns := ["*.sql"] |}] |} in
  matches (blocked_paths c) "vault/a" = true ∧ matches (sensitive_paths c) "vault/a" = false ∧
  matches (sensitive_paths c) "db/dump.sql" = true ∧ matches (sensitive_paths c) ".env" = false.
Proof. vm_compute. done. Qed.
