(* ===== verification/SessionClient.v ===== *)
(** The client library of the session daemon
    ([crates/xshell-session/src/client.rs]): a connection and its exchanges, and
    what a controller makes of the daemon on another host.

    The socket is the class [SessionWire]; connecting and [ssh] are [SessionNet]. A connection is
    used by one thread, which waits for the answer to each request. *)
From Stdlib Require Import Ascii.
From S2P Require Import Prelude Sensitive Policy Budget Compaction CallId Chat Engine Effects.
From S2P Require Import AuditLog SessionModel Registry Execution PtyStream Pty Turns Completion SourceView Release Configs Requests.
From S2P Require Import RegistryProps JournalSpec PtyJobs TurnsHistory RequestsProps.

Definition MAX_RESPONSE_BYTES : N := 64 * 1024 * 1024.
(** In milliseconds. *)
Definition REMOTE_PROBE_TIMEOUT : N := 10 * 1000.
Definition REMOTE_REPAIR_TIMEOUT : N := 60 * 1000.
Definition MAX_REMOTE_PROBE_BYTES : N := 64 * 1024.
Definition DAEMON_PROBE_SCHEMA_VERSION : N := 1.

(** ** The exchanges of a connection *)

(** Writing a request with its newline; a line of at most so many bytes (one
    that ends without its newline is cut off or too long); JSON. *)
Class SessionWire (A Conn W : Type) := {
  write_request : Conn → ClientRequest A → W → option string * W;
  read_line : Conn → N → W → (string + list ascii) * W;
  response_from_slice : list ascii → string + ServerResponse A;
  response_debug : ServerResponse A → string;
}.

(** [SessionClient]; [sc_conn] is its reader and writer. *)
Record SessionClient (Conn : Type) := {
  sc_client_id : string;
  sc_host_id : string;
  sc_host_alias : string;
  sc_user : string;
  sc_conn : Conn;
}.
Arguments sc_client_id {Conn}.
Arguments sc_host_id {Conn}.
Arguments sc_host_alias {Conn}.
Arguments sc_user {Conn}.
Arguments sc_conn {Conn}.

Inductive SessionHandshake : Type :=
| HandshakeOpened (protocol_version : N) (host_id host_alias user : string)
| HandshakeRejected (code message : string).

Section client.
Context {A Conn W : Type} `{!SessionWire A Conn W} (conn : Conn).
Abbreviation M := (Step W string).
Abbreviation Response := (ServerResponse A).

Definition send (request : ClientRequest A) : M () :=
  sent ← ask (write_request conn request);
  match sent with Some e => throw e | None => mret () end.

Definition too_large : string := "session service response exceeds " +:+ fmt_N MAX_RESPONSE_BYTES +:+ " bytes".

Definition parse_response (bytes : list ascii) : Outcome string Response :=
  if bool_decide (bytes = []) then Fail "session service closed the connection"
  else if (MAX_RESPONSE_BYTES <? len bytes)%N || negb (bool_decide (last bytes = Some newline)) then Fail too_large
  else with_context "session service returned an invalid response" (response_from_slice bytes).

Definition receive : M Response :=
  bytes ← ask (read_line conn (MAX_RESPONSE_BYTES + 1));
  match bytes with inl e => throw e | inr bytes => lift (parse_response bytes) end.

Definition response_error {B} (operation : string) (r : Response) : M B :=
  match r with
  | RsError code message => throw ("session " +:+ operation +:+ " failed (" +:+ code +:+ "): " +:+ message)
  | r => throw ("unexpected session " +:+ operation +:+ " response: " +:+ response_debug r)
  end.

(** Each operation sends its request and expects one response. *)
Definition exchange {B} (operation : string) (request : ClientRequest A) (expected : Response → option B) : M B :=
  send request;;
  response ← receive;
  match expected response with Some b => mret b | None => response_error operation response end.

Definition version_mismatch (version : N) : string :=
  "session service speaks protocol " +:+ fmt_N version +:+ " but this client requires " +:+
  fmt_N SESSION_PROTOCOL_VERSION +:+
  "; the running xshelld is a different build than this xshell — restart xshelld from the same build".

(** [SessionClient::open] on a connection. *)
Definition open_session (client_version : string) : M (SessionClient Conn) :=
  send (RqOpen SESSION_PROTOCOL_VERSION client_version);;
  response ← receive;
  match response with
  | RsOpened version client_id host_id host_alias user =>
      if negb (bool_decide (version = SESSION_PROTOCOL_VERSION)) then throw (version_mismatch version)
      else mret {| sc_client_id := client_id; sc_host_id := host_id; sc_host_alias := host_alias;
                   sc_user := user; sc_conn := conn |}
  | response => response_error "open" response
  end.

(** The exchange of [SessionClient::probe]. *)
Definition probe_session (client_version : string) : M SessionHandshake :=
  send (RqOpen SESSION_PROTOCOL_VERSION client_version);;
  response ← receive;
  match response with
  | RsOpened version _ host_id host_alias user => mret (HandshakeOpened version host_id host_alias user)
  | RsError code message => mret (HandshakeRejected code message)
  | response => throw ("unexpected session probe response: " +:+ response_debug response)
  end.

Definition list_sessions : M (list SessionDescriptor) :=
  exchange "list" RqList (λ r, match r with RsCatalog sessions => Some sessions | _ => None end).
Definition create (session : SessionCreation A) : M (SessionSnapshot A) :=
  exchange "create" (RqCreate session) (λ r, match r with RsCreated session => Some session | _ => None end).
Definition attach (selector : string) : M (SessionSnapshot A) :=
  exchange "attach" (RqAttach selector Owner) (λ r, match r with RsAttached session _ => Some session | _ => None end).
Definition switch (selector : string) : M (SessionSnapshot A) :=
  exchange "switch" (RqSwitch selector Owner) (λ r, match r with RsAttached session _ => Some session | _ => None end).
Definition update (session_id : string) (model : ModelBinding) (cwd : string) (history : list (ChatMessage A)) :
    M SessionDescriptor :=
  exchange "update" (RqUpdate session_id model cwd history)
    (λ r, match r with RsUpdated session => Some session | _ => None end).
Definition snapshot (session_id : string) : M (SessionSnapshot A) :=
  exchange "snapshot" (RqSnapshot session_id) (λ r, match r with RsSnapshot session => Some session | _ => None end).
Definition submit_with_limits (session_id : string) (input : TurnInput) (approval : ApprovalPolicy)
    (limits : option TurnLimits) (policy : option PolicyConfig) : M string :=
  exchange "submit" (RqSubmit session_id input approval limits policy)
    (λ r, match r with RsAccepted turn_id => Some turn_id | _ => None end).
Definition submit (session_id : string) (input : TurnInput) (approval : ApprovalPolicy) : M string :=
  submit_with_limits session_id input approval None None.
Definition events (session_id : string) (after_sequence wait_ms : N) : M (EventBatch A) :=
  exchange "events" (RqEvents session_id after_sequence wait_ms)
    (λ r, match r with RsEvents batch => Some batch | _ => None end).
Definition approve (session_id turn_id call_id : string) (decision : ApprovalDecision) : M () :=
  exchange "approval" (RqApprove session_id {| ar_turn_id := turn_id; ar_call_id := call_id; ar_decision := decision |})
    (λ r, match r with RsApprovalAccepted => Some () | _ => None end).
Definition cancel (session_id turn_id : string) : M () :=
  exchange "cancel" (RqCancel session_id turn_id) (λ r, match r with RsCancellationAccepted => Some () | _ => None end).
Definition complete_shell (session_id line : string) (cursor : nat) : M ShellCompletionResult :=
  exchange "shell completion" (RqCompleteShell session_id line cursor)
    (λ r, match r with RsShellCompletions result => Some result | _ => None end).
Definition view_source (session_id path : string) : M ViewResource :=
  exchange "view source" (RqViewSource session_id path)
    (λ r, match r with RsViewSource resource => Some resource | _ => None end).
Definition pty_start (session_id command : string) (size : PtySize) (terminal_type : option string) : M PtyTicket :=
  exchange "PTY start" (RqPtyStart session_id command size terminal_type)
    (λ r, match r with RsPtyStarted ticket => Some ticket | _ => None end).
Definition pty_attach (session_id : string) (after_offset : option N) : M PtyTicket :=
  exchange "PTY attach" (RqPtyAttach session_id after_offset)
    (λ r, match r with RsPtyAttached ticket => Some ticket | _ => None end).
Definition pty_close (session_id : string) : M () :=
  exchange "PTY close" (RqPtyClose session_id) (λ r, match r with RsPtyClosed => Some () | _ => None end).
Definition detach : M (option string) :=
  exchange "detach" RqDetach (λ r, match r with RsDetached session_id => Some session_id | _ => None end).
Definition close (selector : option string) : M string :=
  exchange "close" (RqClose selector) (λ r, match r with RsClosed session_id => Some session_id | _ => None end).
End client.

(** ** Other hosts *)

Inductive DaemonProbeStatus : Type :=
| ProbeReady (protocol_version : N) (host_id host_alias user : string)
| ProbeIncompatible (code message : string)
| ProbeRejected (code message : string)
| ProbeUnavailable (message : string).

Record DaemonProbeReport := {
  dp_schema_version : N;
  dp_binary_version : string;
  dp_supported_protocol_version : N;
  dp_daemon : DaemonProbeStatus;
}.

Inductive RemoteDaemonProbe : Type := MissingBinary | Report (r : DaemonProbeReport).

Inductive RemoteBootstrapAction : Type :=
| BaConnect
| BaInstall
| BaUpgrade (binary_version : string) (supported_protocol_version : N)
| BaStart
| BaRestart (reason : string)
| BaRejected (code message : string).

#[export] Instance RemoteBootstrapAction_eq_dec : EqDecision RemoteBootstrapAction.
Proof. solve_decision. Defined.

Inductive RemoteRepair : Type := RepairStart | RepairRestart.

Definition verb (r : RemoteRepair) : string := match r with RepairStart => "start" | RepairRestart => "restart" end.
Definition remote_command (r : RemoteRepair) : list string := ["xshelld"; "service"; verb r].
Definition for_action (a : RemoteBootstrapAction) : option RemoteRepair :=
  match a with BaStart => Some RepairStart | BaRestart _ => Some RepairRestart | _ => None end.

Inductive RemoteTarget : Type :=
| Aarch64AppleDarwin | X86_64AppleDarwin | Aarch64UnknownLinuxMusl | X86_64UnknownLinuxMusl.

Definition target_str (t : RemoteTarget) : string :=
  match t with
  | Aarch64AppleDarwin => "aarch64-apple-darwin"
  | X86_64AppleDarwin => "x86_64-apple-darwin"
  | Aarch64UnknownLinuxMusl => "aarch64-unknown-linux-musl"
  | X86_64UnknownLinuxMusl => "x86_64-unknown-linux-musl"
  end.

Definition required_action (p : RemoteDaemonProbe) : RemoteBootstrapAction :=
  match p with
  | MissingBinary => BaInstall
  | Report r =>
      if negb (bool_decide (dp_supported_protocol_version r = SESSION_PROTOCOL_VERSION))
      then BaUpgrade (dp_binary_version r) (dp_supported_protocol_version r)
      else match dp_daemon r with
           | ProbeReady version _ _ _ =>
               if bool_decide (version = SESSION_PROTOCOL_VERSION) then BaConnect
               else BaRestart ("running daemon speaks protocol " +:+ fmt_N version +:+
                               ", but the installed binary supports " +:+ fmt_N SESSION_PROTOCOL_VERSION)
           | ProbeIncompatible _ message => BaRestart message
           | ProbeUnavailable _ => BaStart
           | ProbeRejected code message => BaRejected code message
           end
  end.

(** What [xshelld probe] reports ([print_probe]) of the exchange with its
    daemon. *)
Definition probe_status (r : Outcome string SessionHandshake) : DaemonProbeStatus :=
  match r with
  | Done (HandshakeOpened version host_id host_alias user) => ProbeReady version host_id host_alias user
  | Done (HandshakeRejected code message) =>
      if bool_decide (code = "protocol_version") then ProbeIncompatible code message else ProbeRejected code message
  | Fail message => ProbeUnavailable message
  | Panic => ProbeUnavailable ""
  end.
Definition probe_report (pkg_version : string) (r : Outcome string SessionHandshake) : DaemonProbeReport := {|
  dp_schema_version := DAEMON_PROBE_SCHEMA_VERSION; dp_binary_version := pkg_version;
  dp_supported_protocol_version := SESSION_PROTOCOL_VERSION; dp_daemon := probe_status r |}.

(** A child that ended, with its code unless a signal ended it and the text of
    its status, or did not by the deadline; and what it wrote. *)
Record ExitStatus := { exit_code : option Z; exit_text : string }.
Definition success (s : ExitStatus) : bool := bool_decide (exit_code s = Some 0%Z).
Record SshRun := { ssh_status : option (string + ExitStatus); ssh_stdout : string + list ascii }.

Class SessionNet (Conn W : Type) := {
  connect_socket : string → W → (string + Conn) * W;
  ssh_connection : list string → W → (string + Conn) * W;
  ssh_run : list string → N → W → (string + SshRun) * W;
  probe_report_from_slice : list ascii → string + DaemonProbeReport;
}.

Definition validate_ssh_destination (destination : string) : Outcome string () :=
  if blank destination || Prelude.starts_with "-" destination
  then Fail "SSH destination must be non-empty and may not begin with '-'" else Done ().

Definition parse_remote_target (bytes : list ascii) : Outcome string RemoteTarget :=
  let! output := with_context "platform probe returned non-UTF-8 output" (from_utf8 bytes) in
  match split_whitespace output with
  | [system; architecture] =>
      if bool_decide (system = "Darwin") && bool_decide (architecture ∈ ["arm64"; "aarch64"])
      then Done Aarch64AppleDarwin
      else if bool_decide (system = "Darwin") && bool_decide (architecture ∈ ["x86_64"; "amd64"])
      then Done X86_64AppleDarwin
      else if bool_decide (system = "Linux") && bool_decide (architecture ∈ ["arm64"; "aarch64"])
      then Done Aarch64UnknownLinuxMusl
      else if bool_decide (system = "Linux") && bool_decide (architecture ∈ ["x86_64"; "amd64"])
      then Done X86_64UnknownLinuxMusl
      else Fail ("unsupported remote platform " +:+ system +:+ " " +:+ architecture)
  | _ => Fail "expected `uname -sm` to return an operating system and architecture"
  end.

Section net.
Context {A Conn W : Type} `{!SessionWire A Conn W, !SessionNet Conn W}.
Abbreviation M := (Step W string).

Definition connect (socket client_version : string) : M (SessionClient Conn) :=
  conn ← asking (connect_socket socket) ("cannot connect to xshell session service at " +:+ socket);
  open_session conn client_version.

Definition probe (socket client_version : string) : M SessionHandshake :=
  conn ← asking (connect_socket socket) ("cannot connect to xshell session service at " +:+ socket);
  probe_session conn client_version.

Definition print_probe (socket pkg_version : string) (w : W) : DaemonProbeReport * W :=
  let '(w, r) := probe socket pkg_version w in (probe_report pkg_version r, w).

Definition connect_ssh (destination client_version : string) : M (SessionClient Conn) :=
  lift (validate_ssh_destination destination);;
  conn ← asking (ssh_connection ["-T"; "--"; destination; "xshelld"; "serve-stdio"])
    ("cannot start ssh connection to " +:+ debug_str destination);
  in_context ("cannot open xshell session service on " +:+ debug_str destination) (open_session conn client_version).

Definition run_bounded_ssh (destination : string) (command : list string) (maximum_bytes timeout : N)
    (operation : string) : M (ExitStatus * list ascii) :=
  run ← asking (ssh_run (["-T"; "--"; destination] ++ command) timeout)
    ("cannot start SSH " +:+ operation +:+ " for " +:+ debug_str destination);
  match ssh_status run with
  | None => throw ("SSH " +:+ operation +:+ " for " +:+ debug_str destination +:+ " timed out")
  | Some status =>
      status ← lift (with_context ("cannot poll SSH " +:+ operation) status);
      bytes ← lift (or_error (ssh_stdout run));
      let bytes := take (N.to_nat (maximum_bytes + 1)) bytes in
      if (maximum_bytes <? len bytes)%N
      then throw ("SSH " +:+ operation +:+ " response exceeds " +:+ fmt_N maximum_bytes +:+ " bytes")
      else mret (status, bytes)
  end.

Definition parse_remote_probe (status : ExitStatus) (bytes : list ascii) : Outcome string RemoteDaemonProbe :=
  if (MAX_REMOTE_PROBE_BYTES <? len bytes)%N
  then Fail ("remote probe response exceeds " +:+ fmt_N MAX_REMOTE_PROBE_BYTES +:+ " bytes")
  else if negb (success status) then
    if bool_decide (exit_code status = Some 127%Z ∧ bytes = []) then Done MissingBinary
    else Fail ("remote probe exited with " +:+ exit_text status)
  else
    let! report := with_context "remote probe did not return its JSON capability report" (probe_report_from_slice bytes) in
    if negb (bool_decide (dp_schema_version report = DAEMON_PROBE_SCHEMA_VERSION))
    then Fail ("remote probe uses schema " +:+ fmt_N (dp_schema_version report) +:+ ", but this client requires " +:+
               fmt_N DAEMON_PROBE_SCHEMA_VERSION)
    else Done (Report report).

Definition probe_ssh (destination : string) : M RemoteDaemonProbe :=
  lift (validate_ssh_destination destination);;
  '(status, bytes) ← run_bounded_ssh destination ["xshelld"; "probe"] MAX_REMOTE_PROBE_BYTES REMOTE_PROBE_TIMEOUT
    "xshelld probe";
  lift (in_place ("invalid xshelld probe response from " +:+ debug_str destination) (parse_remote_probe status bytes)).

Definition repair_failed (destination output : string) (repair : RemoteRepair) (status : ExitStatus) : string :=
  "`xshelld service " +:+ verb repair +:+ "` on " +:+ debug_str destination +:+ " exited with " +:+ exit_text status +:+
  "; an xshelld older than the service subcommand cannot be repaired remotely and needs its daemon started by hand" +:+
  (if bool_decide (output = "") then "" else ": ") +:+ output.

Definition repair_ssh (destination : string) (repair : RemoteRepair) : M string :=
  lift (validate_ssh_destination destination);;
  '(status, bytes) ← run_bounded_ssh destination (remote_command repair) MAX_REMOTE_PROBE_BYTES REMOTE_REPAIR_TIMEOUT
    "service repair";
  let output := trim (from_utf8_lossy bytes) in
  if negb (success status) then throw (repair_failed destination output repair status) else mret output.

Definition detect_ssh_target (destination : string) : M RemoteTarget :=
  lift (validate_ssh_destination destination);;
  '(status, bytes) ← run_bounded_ssh destination ["uname"; "-sm"] 1024 REMOTE_PROBE_TIMEOUT "platform probe";
  if negb (success status) then throw ("remote platform probe exited with " +:+ exit_text status)
  else lift (in_place ("unsupported platform reported by " +:+ debug_str destination) (parse_remote_target bytes)).
End net.

(** * The client and the daemon *)

(** Whatever [m] returns has the property. *)
Definition Yields {S B} (P : B → Prop) (m : Step S string B) : Prop := ∀ s s' b, m s = (s', Done b) → P b.

Section yields.
Context {S B : Type} (P : B → Prop).

Lemma yields_ret b : P b → Yields P (mret b : Step S string B).
Proof. by intros Hb s s' b' [= _ <-]. Qed.
Lemma yields_throw e : Yields P (throw e : Step S string B).
Proof. by intros s s' b. Qed.
Lemma yields_bind {C} (m : Step S string C) (k : C → Step S string B) : (∀ c, Yields P (k c)) → Yields P (m ≫= k).
Proof. intros Hk s s' b (c & s1 & _ & H)%step_bind_Done. by eapply Hk. Qed.
Lemma yields_zoom {T} part put (m : Step T string B) : Yields P m → Yields P (zoom part put m : Step S string B).
Proof. intros Hm s s' b. unfold zoom. destruct (m (part s)) as [t o] eqn:H. intros [= _ ->]. by eapply Hm. Qed.
End yields.

(** The answer a request has unless it fails. *)
Definition answers {A} (request : ClientRequest A) (r : ServerResponse A) : Prop :=
  match request, r with
  | RqList, RsCatalog _ | RqCreate _, RsCreated _ | RqUpdate _ _ _ _, RsUpdated _ | RqSnapshot _, RsSnapshot _ | RqSubmit _ _ _ _ _, RsAccepted _
  | RqEvents _ _ _, RsEvents _ | RqApprove _ _, RsApprovalAccepted | RqCancel _ _, RsCancellationAccepted
  | RqCompleteShell _ _ _, RsShellCompletions _ | RqViewSource _ _, RsViewSource _ | RqPtyStart _ _ _ _, RsPtyStarted _
  | RqPtyAttach _ _, RsPtyAttached _ | RqPtyClose _, RsPtyClosed | RqDetach, RsDetached _ | RqClose _, RsClosed _ => True
  | RqAttach _ role, RsAttached _ role' | RqSwitch _ role, RsAttached _ role' => role' = role
  | _, _ => False
  end.

Section daemon.
Context {A W V Conn : Type} `{!StateSerde A, !SessionHost W, !PtyWorld A W, !EventSerde A, !TurnWorld A W,
  !CompletionHost W, !ViewHost W, !ServiceWorld A W, !EqDecision A, !SessionWire A Conn V}.
Context (split : string → string + list string).

Ltac yields := repeat first
  [ progress (intros; cbn beta iota)
  | apply yields_throw | (apply yields_ret; first [exact I|reflexivity]) | apply yields_zoom | apply yields_bind
  | match goal with |- Yields _ (if ?b then _ else _) => destruct b
                  | |- Yields _ (match ?x with _ => _ end) => destruct x end ].

Lemma request_is_answered wait client request :
  Yields (answers request) (process_request (A := A) (W := W) split wait client request).
Proof.
  destruct request; unfold process_request, process_create, process_attach, process_switch, process_update, process_submit,
    process_pty_start, process_close, in_service; yields.
Qed.

Definition answer_of {B} (f : B → ServerResponse A) (m : Step V string B) : Step V string (ServerResponse A) :=
  b ← m; mret (f b).

(** The client's operation that makes a request, with what it returns put back
    into the answer. *)
Definition client_call (conn : Conn) (request : ClientRequest A) : option (string * Step V string (ServerResponse A)) :=
  match request with
  | RqList => Some ("list", answer_of RsCatalog (list_sessions conn))
  | RqCreate session => Some ("create", answer_of RsCreated (create conn session))
  | RqAttach selector Owner => Some ("attach", answer_of (λ s, RsAttached s Owner) (attach conn selector))
  | RqSwitch selector Owner => Some ("switch", answer_of (λ s, RsAttached s Owner) (switch conn selector))
  | RqUpdate id model cwd history => Some ("update", answer_of RsUpdated (update conn id model cwd history))
  | RqSnapshot id => Some ("snapshot", answer_of RsSnapshot (snapshot conn id))
  | RqSubmit id input approval limits policy =>
      Some ("submit", answer_of RsAccepted (submit_with_limits conn id input approval limits policy))
  | RqEvents id after_sequence wait_ms => Some ("events", answer_of RsEvents (events conn id after_sequence wait_ms))
  | RqApprove id reply =>
      Some ("approval", answer_of (λ _, RsApprovalAccepted) (approve conn id (ar_turn_id reply) (ar_call_id reply) (ar_decision reply)))
  | RqCancel id turn_id => Some ("cancel", answer_of (λ _, RsCancellationAccepted) (cancel conn id turn_id))
  | RqCompleteShell id line cursor => Some ("shell completion", answer_of RsShellCompletions (complete_shell conn id line cursor))
  | RqViewSource id path => Some ("view source", answer_of RsViewSource (view_source conn id path))
  | RqPtyStart id command size term => Some ("PTY start", answer_of RsPtyStarted (pty_start conn id command size term))
  | RqPtyAttach id after_offset => Some ("PTY attach", answer_of RsPtyAttached (pty_attach conn id after_offset))
  | RqPtyClose id => Some ("PTY close", answer_of (λ _, RsPtyClosed) (pty_close conn id))
  | RqDetach => Some ("detach", answer_of RsDetached (detach conn))
  | RqClose selector => Some ("close", answer_of RsClosed (close conn selector))
  | _ => None
  end.

Lemma exchange_answer {B} conn name request (expected : ServerResponse A → option B) f (v v1 v2 : V) r :
  (∀ a, answers request a → ∃ b, expected a = Some b ∧ f b = a) →
  (∀ code message, expected (RsError code message) = None) →
  answers request r ∨ (∃ message, r = RsError "request_failed" message) →
  write_request conn request v = (None, v1) → receive conn v1 = (v2, Done r) →
  (answers request r ∧ answer_of f (exchange conn name request expected) v = (v2, Done r)) ∨
  ∃ code message, r = RsError code message ∧ answer_of f (exchange conn name request expected) v =
    (v2, Fail ("session " +:+ name +:+ " failed (" +:+ code +:+ "): " +:+ message)).
Proof.
  intros Hexpected Herror Hr Hw Hreceive. unfold answer_of, exchange, send, ask, mbind, Step_bind. rewrite Hw. simpl.
  rewrite Hreceive. destruct Hr as [Ha|(message & ->)]; [left|right].
  - destruct (Hexpected r Ha) as (b & -> & <-). done.
  - exists "request_failed", message. by rewrite Herror.
Qed.

(** C32: The client understands the daemon: whatever request one of the client's
    operations makes, in whatever state the daemon is, the answer the daemon
    gives is the one that operation expects, and is what it returns; or the
    request failed, and the operation fails with the daemon's code and message.
    No answer is taken for an unexpected one. *)
Theorem client_understands_the_daemon wait client request (c c' : Client A W) r name call (conn : Conn) (v v1 v2 : V) :
  client_call conn request = Some (name, call) →
  respond (process_request split wait client request) c = (c', Done r) →
  write_request conn request v = (None, v1) → receive conn v1 = (v2, Done r) →
  (answers request r ∧ call v = (v2, Done r)) ∨
  ∃ code message, r = RsError code message ∧
    call v = (v2, Fail ("session " +:+ name +:+ " failed (" +:+ code +:+ "): " +:+ message)).
Proof.
  intros Hcall Hrespond Hwrite Hreceive.
  assert (answers request r ∨ ∃ message, r = RsError "request_failed" message) as Hr.
  { unfold respond, handle in Hrespond.
    destruct (process_request split wait client request c) as [c1 [a|e|]] eqn:Hp; [| |done].
    - injection Hrespond as _ <-. left. by eapply request_is_answered.
    - injection Hrespond as _ <-. right. by eexists. }
  destruct request as [| | |? []|? []| | | | |? []| | | | | | | | |]; try discriminate Hcall; injection Hcall as <- <-;
    (eapply exchange_answer; [| |exact Hr|exact Hwrite|exact Hreceive]; [|by intros]);
    intros []; try done; simpl; try (intros ->); eauto.
Qed.
End daemon.

(** A client that creates a session, at a daemon that has none. *)
#[local] Existing Instance sample_pty_world.
#[local] Existing Instance sample_completion.
#[local] Existing Instance sample_view.
#[local] Existing Instance sample_service_world.

Definition created : Client () N * Outcome string (ServerResponse ()) :=
  respond (process_request sample_split (true, []) "client" (RqCreate sample_creation))
    {| attached_session := None; service := service_of sample_start |}.
Definition created_answer : ServerResponse () := match created.2 with Done r => r | _ => RsPtyClosed end.

#[local] Instance created_wire : SessionWire () () () := {|
  write_request _ _ v := (None, v); read_line _ _ v := (inr [newline], v);
  response_from_slice _ := inr created_answer; response_debug _ := "" |}.

Lemma client_understands_the_daemon_witness :
  ∃ session, created_answer = RsCreated session ∧ create () sample_creation () = ((), Done session).
Proof.
  destruct (client_understands_the_daemon sample_split (true, []) "client" (RqCreate sample_creation)
    {| attached_session := None; service := service_of sample_start |} created.1 created_answer "create"
    (answer_of RsCreated (create () sample_creation)) () () () ()) as [[Ha Hc]|(code & message & Hr & _)].
  - reflexivity.
  - vm_compute. reflexivity.
  - reflexivity.
  - vm_compute. reflexivity.
  - destruct created_answer as [| |session| | | | | | | | | | | | | | | |] eqn:Hs; try contradiction Ha. exists session.
    split; [reflexivity|]. unfold answer_of, mbind, Step_bind in Hc.
    destruct (create () sample_creation ()) as [[] [b|e|]]; [|discriminate Hc..]. injection Hc as ->. reflexivity.
  - vm_compute in Hr. discriminate Hr.
Defined.
