(* ===== verification/Controller.v ===== *)
(** The controller's sessions ([crates/xshell-cli/src/session.rs]): connections
    to one daemon for each host, the session that is in focus, and the way to
    other sessions and hosts.

    The daemons are behind [SessionClient]; the terminal is [Terminal]. A hash
    map is iterated in the order [map_order] puts its keys in. *)
From Stdlib Require Import Ascii.
From S2P Require Import Prelude Sensitive Policy Budget Compaction CallId Chat Engine Effects.
From S2P Require Import AuditLog SessionModel Registry Execution PtyStream Pty Turns Completion SourceView Release Configs Requests.
From S2P Require Import SessionClient.

Inductive ConnectionEndpoint : Type := EndLocal (socket : string) | EndSsh (destination : string).

Record HostConnection (Conn : Type) := {
  hc_client : SessionClient Conn;
  hc_endpoint : ConnectionEndpoint;
}.
Arguments hc_client {Conn}.
Arguments hc_endpoint {Conn}.

Record SessionRuntime (Conn : Type) := {
  rt_connection : option (HostConnection Conn);
  rt_parked : gmap string (HostConnection Conn);
  rt_aliases : gmap string string;
  rt_active : option SessionDescriptor;
  rt_navigation : list string;
  rt_cursors : gmap string N;
  rt_pty_cursors : gmap string N;
  rt_redraw : bool;
}.
Arguments rt_connection {Conn}.
Arguments rt_parked {Conn}.
Arguments rt_aliases {Conn}.
Arguments rt_active {Conn}.
Arguments rt_navigation {Conn}.
Arguments rt_cursors {Conn}.
Arguments rt_pty_cursors {Conn}.
Arguments rt_redraw {Conn}.

(** The controller's terminal, and opening the stream of a terminal job. *)
Class Terminal (W : Type) := {
  print : string → W → W;
  eprint : string → W → W;
  stdin_is_terminal : W → bool * W;
  read_answer : W → (string + string) * W;
  sanitized : string → string;
  open_stream : ConnectionEndpoint → string → N → W → option string * W;
  map_order : list string → list string;
}.

(** ** Names of hosts *)

Definition has_prefix (prefix : list ascii) (s : string) : bool :=
  bool_decide (take (length prefix) (chars s) = prefix).

(** The search for the shortest prefix of at least eight bytes that only one of
    the hosts has; a prefix that cuts a character cannot be taken. *)
Fixpoint distinct_prefix (host_id : string) (colliding : list string) (length_ fuel : nat) : Outcome string nat :=
  match fuel with
  | O => Done (String.length host_id)
  | S fuel =>
      if negb (is_char_boundary host_id length_) then Panic
      else
        let prefix := take length_ (chars host_id) in
        if bool_decide (length (List.filter (has_prefix prefix) colliding) = 1) then Done length_
        else distinct_prefix host_id colliding (S length_) fuel
  end.

Definition host_label (hosts : list (string * string)) (host : string * string) : Outcome string (string * string) :=
  let '(host_id, alias) := host in
  let colliding := fst <$> filter (λ h, h.2 = alias) hosts in
  if bool_decide (length colliding = 1) then Done (host_id, alias)
  else
    let! n := distinct_prefix host_id colliding 8 (String.length host_id + 1 - 8) in
    Done (host_id, alias +:+ "#" +:+ of_chars (take n (chars host_id))).

Definition disambiguate_host_aliases (hosts : list (string * string)) : Outcome string (gmap string string) :=
  let! labels := outcome_map (host_label hosts) hosts in
  Done (foldl (λ m label, <[label.1 := label.2]> m) ∅ labels).

#[export, refine] Instance ord_N : Ord N := {| ord_le := N.leb |}.
Proof.
  - intros x y z. rewrite !N.leb_le. lia.
  - intros x y. rewrite !N.leb_le. lia.
  - intros x y. rewrite !N.leb_le. lia.
Defined.

(** ** Where to go when a session is closed *)

Definition fallback_candidates (navigation : list string) (catalog : list SessionDescriptor) (current_id : string) :
    list string :=
  let visited := filter (λ id, id ≠ current_id) (rev navigation) in
  let recent := sort_on (λ d, (U64_MAX - d_last_active_at_unix_ms d)%N) catalog in
  let detached := d_id <$> filter (λ d, d_id d ≠ current_id ∧ d_status d = Detached) recent in
  foldl (λ seen id, if bool_decide (id ∈ seen) then seen else seen ++ [id]) [] (visited ++ detached).

(** [str::lines]: a return belongs to the end of a line that a newline ends. *)
Definition without_return (line : string) : string :=
  match rev (chars line) with c :: l => if bool_decide (code c = 13%N) then of_chars (rev l) else line | [] => line end.
Definition text_lines (s : string) : list string :=
  let l := split_char newline s in
  (without_return <$> take (length l - 1) l) ++ filter (λ line, line ≠ "") (drop (length l - 1) l).

Section runtime.
Context {A Conn W : Type} `{!SessionWire A Conn W, !SessionNet Conn W, !Terminal W, !EqDecision A}.
Context (pkg_version : string) (env : Environment).
Abbreviation Runtime := (SessionRuntime Conn).
Abbreviation M := (Step (Runtime * W) string).
Abbreviation Snapshot := (SessionSnapshot A).
Abbreviation Message := (ChatMessage A).

Definition disabled : Runtime := {|
  rt_connection := None; rt_parked := ∅; rt_aliases := ∅; rt_active := None; rt_navigation := [];
  rt_cursors := ∅; rt_pty_cursors := ∅; rt_redraw := false |}.

(** Assignments to the fields. *)
Definition set_connection (c : option (HostConnection Conn)) (r : Runtime) : Runtime := {|
  rt_connection := c; rt_parked := rt_parked r; rt_aliases := rt_aliases r; rt_active := rt_active r;
  rt_navigation := rt_navigation r; rt_cursors := rt_cursors r; rt_pty_cursors := rt_pty_cursors r; rt_redraw := rt_redraw r |}.
Definition set_parked (p : gmap string (HostConnection Conn)) (r : Runtime) : Runtime := {|
  rt_connection := rt_connection r; rt_parked := p; rt_aliases := rt_aliases r; rt_active := rt_active r;
  rt_navigation := rt_navigation r; rt_cursors := rt_cursors r; rt_pty_cursors := rt_pty_cursors r; rt_redraw := rt_redraw r |}.
Definition set_aliases (a : gmap string string) (r : Runtime) : Runtime := {|
  rt_connection := rt_connection r; rt_parked := rt_parked r; rt_aliases := a; rt_active := rt_active r;
  rt_navigation := rt_navigation r; rt_cursors := rt_cursors r; rt_pty_cursors := rt_pty_cursors r; rt_redraw := rt_redraw r |}.
Definition set_active (a : option SessionDescriptor) (r : Runtime) : Runtime := {|
  rt_connection := rt_connection r; rt_parked := rt_parked r; rt_aliases := rt_aliases r; rt_active := a;
  rt_navigation := rt_navigation r; rt_cursors := rt_cursors r; rt_pty_cursors := rt_pty_cursors r; rt_redraw := rt_redraw r |}.
Definition set_navigation (n : list string) (r : Runtime) : Runtime := {|
  rt_connection := rt_connection r; rt_parked := rt_parked r; rt_aliases := rt_aliases r; rt_active := rt_active r;
  rt_navigation := n; rt_cursors := rt_cursors r; rt_pty_cursors := rt_pty_cursors r; rt_redraw := rt_redraw r |}.
Definition set_cursors (c : gmap string N) (r : Runtime) : Runtime := {|
  rt_connection := rt_connection r; rt_parked := rt_parked r; rt_aliases := rt_aliases r; rt_active := rt_active r;
  rt_navigation := rt_navigation r; rt_cursors := c; rt_pty_cursors := rt_pty_cursors r; rt_redraw := rt_redraw r |}.
Definition set_pty_cursors (c : gmap string N) (r : Runtime) : Runtime := {|
  rt_connection := rt_connection r; rt_parked := rt_parked r; rt_aliases := rt_aliases r; rt_active := rt_active r;
  rt_navigation := rt_navigation r; rt_cursors := rt_cursors r; rt_pty_cursors := c; rt_redraw := rt_redraw r |}.
Definition set_redraw (b : bool) (r : Runtime) : Runtime := {|
  rt_connection := rt_connection r; rt_parked := rt_parked r; rt_aliases := rt_aliases r; rt_active := rt_active r;
  rt_navigation := rt_navigation r; rt_cursors := rt_cursors r; rt_pty_cursors := rt_pty_cursors r; rt_redraw := b |}.

Definition the_runtime : M Runtime := s ← get; mret s.1.
Definition changing (f : Runtime → Runtime) : M () := modify (λ s, (f s.1, s.2)).
Definition in_world {B} (m : Step W string B) : M B := zoom snd (λ w s, (s.1, w)) m.
Definition showing (f : W → W) : M () := in_world (modify f).

Definition client_conn (c : HostConnection Conn) : Conn := sc_conn (hc_client c).
Definition host_of (c : HostConnection Conn) : string := sc_host_id (hc_client c).

(** [self.client_mut()?], for the operation [m] of the client. *)
Definition on_client {B} (m : Conn → Step W string B) : M B :=
  r ← the_runtime;
  match rt_connection r with
  | Some c => in_world (m (client_conn c))
  | None => throw "session fabric is disabled; enable [session_fabric] and start xshelld"
  end.

Definition active_session_id : M string :=
  r ← the_runtime; lift (AuditLog.context (d_id <$> rt_active r) "there is no active session").

Definition push_navigation (id : string) : M () := changing (λ r, set_navigation (rt_navigation r ++ [id]) r).
Definition focus (d : SessionDescriptor) : M () := changing (set_active (Some d)).
Definition set_active_activity (a : SessionActivity) : M () :=
  changing (λ r, set_active (set_activity a <$> rt_active r) r).

(** The values of the parked connections, in the order of the hash map. *)
Definition parked_values (r : Runtime) : list (HostConnection Conn) :=
  omap (λ key, rt_parked r !! key) (map_order (btree_keys (rt_parked r))).

Definition rebuild_display_host_aliases : M () :=
  r ← the_runtime;
  let hosts := (λ c, (host_of c, sc_host_alias (hc_client c))) <$>
               (from_option (λ c, [c]) [] (rt_connection r) ++ parked_values r) in
  aliases ← lift (disambiguate_host_aliases hosts);
  changing (set_aliases aliases).

Definition is_local (c : HostConnection Conn) : bool := match hc_endpoint c with EndLocal _ => true | EndSsh _ => false end.

Definition local_host_id (r : Runtime) : option string :=
  match rt_connection r with
  | Some c => if is_local c then Some (host_of c) else host_of <$> List.find is_local (parked_values r)
  | None => host_of <$> List.find is_local (parked_values r)
  end.

Definition initial_event_cursor (conn : Conn) (session_id : string) : Step W string N :=
  batch ← events conn session_id 0 0;
  mret (match eb_active_turn_id batch, head (eb_events batch) with
        | Some _, Some e => (ev_sequence e - 1)%N
        | _, _ => (eb_next_sequence batch - 1)%N
        end).

Definition ensure_event_cursor (session_id : string) : M () :=
  r ← the_runtime;
  if bool_decide (is_Some (rt_cursors r !! session_id)) then mret ()
  else
    cursor ← on_client (λ conn, initial_event_cursor conn session_id);
    changing (λ r, set_cursors (<[session_id := cursor]> (rt_cursors r)) r).

(** What other parts of the controller read. *)
Definition display_host_alias (r : Runtime) (d : SessionDescriptor) : string :=
  default (d_host_alias d) (rt_aliases r !! d_host_id d).
Definition service_label (r : Runtime) : option string :=
  (λ c, match hc_endpoint c with EndLocal socket => socket | EndSsh destination => "ssh://" +:+ destination end) <$>
  rt_connection r.
Definition enabled (r : Runtime) : bool := bool_decide (is_Some (rt_connection r)).
Definition previous_session_id (r : Runtime) : option string := last (rt_navigation r).
Definition event_cursor (r : Runtime) : option N := d ← rt_active r; rt_cursors r !! d_id d.

Definition remote_completion_client : M (option (SessionClient Conn * string)) :=
  r ← the_runtime;
  match hc_endpoint <$> rt_connection r with
  | Some (EndSsh destination) =>
      session_id ← lift (AuditLog.context (d_id <$> rt_active r) "there is no active remote session");
      client ← in_world (connect_ssh destination pkg_version);
      mret (Some (client, session_id))
  | _ => mret None
  end.

(** ** Catalogs *)

Fixpoint list_parked (host_ids : list string) : M (list SessionDescriptor) :=
  match host_ids with
  | [] => mret []
  | host_id :: host_ids =>
      r ← the_runtime;
      c ← lift (expect (rt_parked r !! host_id));
      handle (in_world (list_sessions (client_conn c)))
        (λ catalog, rest ← list_parked host_ids; mret (catalog ++ rest))
        (λ error,
          showing (eprint ("xshell: dropping unavailable host connection: " +:+ error));;
          changing (λ r, set_parked (delete host_id (rt_parked r)) r);;
          rebuild_display_host_aliases;;
          list_parked host_ids)
  end.

Definition set_host_alias (alias : string) (d : SessionDescriptor) : SessionDescriptor := {|
  d_id := d_id d; d_name := d_name d; d_host_id := d_host_id d; d_host_alias := alias; d_user := d_user d;
  d_model := d_model d; d_cwd := d_cwd d; d_persistence := d_persistence d; d_visibility := d_visibility d;
  d_access_mode := d_access_mode d; d_status := d_status d; d_activity := d_activity d;
  d_attached_clients := d_attached_clients d; d_created_at_unix_ms := d_created_at_unix_ms d;
  d_last_active_at_unix_ms := d_last_active_at_unix_ms d |}.

Definition catalog : M (list SessionDescriptor) :=
  rebuild_display_host_aliases;;
  r ← the_runtime;
  match rt_connection r with
  | None => throw "session fabric is disabled; enable [session_fabric] and start xshelld"
  | Some c =>
      answer ← handle (in_world (list_sessions (client_conn c))) (λ l, mret (inr l)) (λ e, mret (inl e));
      parked ← list_parked (map_order (btree_keys (rt_parked r)));
      let sessions := match answer with inr l => l | inl _ => [] end ++ parked in
      (match answer with
       | inl error =>
           if bool_decide (sessions = []) then throw error
           else showing (eprint ("xshell: active host connection is unavailable: " +:+ error))
       | inr _ => mret ()
       end);;
      r ← the_runtime;
      mret ((λ d, from_option (λ alias, set_host_alias alias d) d (rt_aliases r !! d_host_id d)) <$> sessions)
  end.

Definition session_names : M (list string) :=
  r ← the_runtime;
  if bool_decide (rt_connection r = None) then mret [] else
    let local := local_host_id r in
    sessions ← catalog;
    mret (mjoin ((λ d, (d_host_alias d +:+ ":" +:+ d_name d) ::
                       (if bool_decide (local = Some (d_host_id d)) then ["local:" +:+ d_name d] else [])) <$> sessions)).

Definition session_targets : M (list SessionDescriptor) :=
  sessions ← catalog; mret (sort_on (λ d, (d_host_alias d, d_name d)) sessions).

Definition names_session (selector : string) (local : option (string * string)) (d : SessionDescriptor) : bool :=
  match local with
  | Some (name, host_id) => bool_decide (d_host_id d = host_id ∧ d_name d = name)
  | None =>
      bool_decide (d_id d = selector) || bool_decide (d_name d = selector) ||
      bool_decide (d_host_alias d +:+ ":" +:+ d_name d = selector) ||
      bool_decide (d_host_alias d +:+ "/" +:+ d_user d +:+ ":" +:+ d_name d = selector)
  end.

Definition resolve_target (selector : string) : M (string * string) :=
  r ← the_runtime;
  local ← match strip_prefix "local:" selector with
          | Some name =>
              host_id ← lift (AuditLog.context (local_host_id r) "no local xshelld connection is available");
              mret (Some (name, host_id))
          | None => mret None
          end;
  sessions ← catalog;
  match List.filter (names_session selector local) sessions with
  | [d] => mret (d_host_id d, d_id d)
  | [] => throw ("unknown session " +:+ debug_str selector)
  | _ => throw ("session name " +:+ debug_str selector +:+ " is ambiguous; use HOST:SESSION")
  end.

(** ** Attaching *)

Definition matches_name (name : string) (d : SessionDescriptor) : bool := bool_decide (d_name d = name ∨ d_id d = name).

Definition attach_or_create (conn : Conn) (creation : SessionCreation A) : Step W string Snapshot :=
  l ← list_sessions conn;
  if existsb (matches_name (c_name creation)) l then attach conn (c_name creation)
  else create conn creation.

(** [SessionRuntime::start]. *)
Definition start (config : SessionConfig) (requested_name : option string) (model : ActiveModel) (cwd : string)
    (history : list Message) : Step W string (Runtime * option Snapshot) :=
  if negb (sf_enabled config) then mret (disabled, None)
  else
    socket ← lift (AuditLog.context (resolved_socket env config)
      "HOME and XDG_STATE_HOME are not set; configure session_fabric.socket");
    handle (connect socket pkg_version)
      (λ client,
        let conn := sc_conn client in
        snapshot ← attach_or_create conn {|
          c_name := default (sf_default_session config) requested_name; c_model := to_session_binding model; c_cwd := cwd;
          c_persistence := PersistDaemon; c_visibility := Fabric; c_history := history |};
        let d := s_descriptor snapshot in
        cursor ← initial_event_cursor conn (d_id d);
        let r := {| rt_connection := Some {| hc_client := client; hc_endpoint := EndLocal socket |}; rt_parked := ∅;
                    rt_aliases := ∅; rt_active := Some d; rt_navigation := []; rt_cursors := {[d_id d := cursor]};
                    rt_pty_cursors := ∅; rt_redraw := false |} in
        w ← get;
        let '((r, w), outcome) := rebuild_display_host_aliases (r, w) in
        modify (λ _, w);;
        lift outcome;;
        mret (r, Some snapshot))
      (λ error,
        if sf_required config then throw error
        else modify (eprint ("xshell: session service unavailable; continuing locally: " +:+ error));;
             mret (disabled, None)).

Definition switch_to (selector : string) : M Snapshot :=
  r ← the_runtime;
  let previous := d_id <$> rt_active r in
  '(host_id, session_id) ← resolve_target selector;
  r ← the_runtime;
  active ← lift (AuditLog.context (rt_connection r)
    "session fabric is disabled; enable [session_fabric] and start xshelld");
  snapshot ←
    (if bool_decide (host_id = host_of active) then on_client (λ conn, switch conn session_id)
     else
       target ← lift (AuditLog.context (rt_parked r !! host_id) "session host connection disappeared");
       changing (λ r, set_parked (delete host_id (rt_parked r)) r);;
       snapshot ← handle (in_world (switch (client_conn target) session_id)) mret
         (λ error, changing (λ r, set_parked (<[host_id := target]> (rt_parked r)) r);; throw error);
       changing (λ r, set_parked (<[host_of active := active]> (rt_parked r)) (set_connection (Some target) r));;
       mret snapshot);
  let d := s_descriptor snapshot in
  (match previous with
   | Some previous => if bool_decide (previous = d_id d) then mret () else push_navigation previous
   | None => mret ()
   end);;
  focus d;;
  ensure_event_cursor (d_id d);;
  changing (set_redraw true);;
  mret snapshot.

Definition create_session (name : string) (model : ActiveModel) (cwd : string) (history : list Message)
    (persistence : PersistenceMode) (visibility : Visibility) : M Snapshot :=
  r ← the_runtime;
  snapshot ← on_client (λ conn, create conn {|
    c_name := name; c_model := to_session_binding model; c_cwd := cwd; c_persistence := persistence;
    c_visibility := visibility; c_history := history |});
  from_option (λ d, push_navigation (d_id d)) (mret ()) (rt_active r);;
  focus (s_descriptor snapshot);;
  ensure_event_cursor (d_id (s_descriptor snapshot));;
  mret snapshot.

Definition create_sibling (name : string) : M Snapshot :=
  r ← the_runtime;
  current ← lift (AuditLog.context (rt_active r) "there is no active session to copy");
  s ← on_client (λ conn, snapshot conn (d_id current));
  created ← on_client (λ conn, create conn {|
    c_name := name; c_model := d_model current; c_cwd := d_cwd current; c_persistence := PersistDaemon;
    c_visibility := Fabric; c_history := take 1 (s_history s) |});
  push_navigation (d_id current);;
  focus (s_descriptor created);;
  ensure_event_cursor (d_id (s_descriptor created));;
  mret created.

Definition detach_session : M (option string) :=
  detached ← on_client detach; changing (set_active None);; mret detached.

(** ** The session in focus *)

Definition in_turn (a : SessionActivity) : bool := match a with ActAgentTurn _ _ => true | _ => false end.

Definition cannot_change_turn : string :=
  "cannot change the model or working directory while the session's agent turn is running; wait for it, " +:+
  "//resume it, or //stop it".
Definition cannot_change_process : string :=
  "cannot change the model, working directory, or conversation while the session's interactive process is " +:+
  "running; stop it first".

Definition sync (model : ActiveModel) (cwd : string) (history : list Message) : M () :=
  r ← the_runtime;
  match rt_active r with
  | None => mret ()
  | Some session =>
      let session_id := d_id session in
      let model := to_session_binding model in
      let update_it : M () := d ← on_client (λ conn, update conn session_id model cwd history); focus d in
      if in_turn (d_activity session) then
        s ← on_client (λ conn, snapshot conn session_id);
        if negb (in_turn (d_activity (s_descriptor s))) then mret ()
        else
          focus (s_descriptor s);;
          ensure (bool_decide (d_model (s_descriptor s) = model) && bool_decide (d_cwd (s_descriptor s) = cwd))
            cannot_change_turn
      else if is_interactive_process (d_activity session) then
        s ← on_client (λ conn, snapshot conn session_id);
        focus (s_descriptor s);;
        if is_interactive_process (d_activity (s_descriptor s)) then
          ensure (bool_decide (d_model (s_descriptor s) = model) && bool_decide (d_cwd (s_descriptor s) = cwd) &&
                  bool_decide (s_history s = history)) cannot_change_process
        else update_it
      else update_it
  end.

Definition submit_turn (input : TurnInput) (approval : ApprovalPolicy) (limits : TurnLimits)
    (policy : option PolicyConfig) : M string :=
  session_id ← active_session_id;
  turn_id ← on_client (λ conn, submit_with_limits conn session_id input approval (Some limits) policy);
  set_active_activity (ActAgentTurn turn_id PhaseRunning);;
  mret turn_id.

Definition view_source_here (path : string) : M ViewResource :=
  session_id ← active_session_id; on_client (λ conn, view_source conn session_id path).

Definition open_pty_ticket (ticket : PtyTicket) : M () :=
  r ← the_runtime;
  c ← lift (AuditLog.context (rt_connection r) "session service is disabled");
  opened ← in_world (ask (open_stream (hc_endpoint c) (pt_ticket ticket) (pt_replay_from ticket)));
  match opened with Some e => throw e | None => mret () end.

Definition pty_start_here (command : string) (size : PtySize) (terminal_type : option string) : M PtyTicket :=
  session_id ← active_session_id;
  ticket ← on_client (λ conn, pty_start conn session_id command size terminal_type);
  set_active_activity (ActInteractiveProcess command false);;
  mret ticket.

Definition pty_close_current : M () :=
  session_id ← active_session_id;
  on_client (λ conn, pty_close conn session_id);;
  changing (λ r, set_pty_cursors (delete session_id (rt_pty_cursors r)) r);;
  set_active_activity ActIdle.

Definition pty_start_stream (command : string) (size : PtySize) (terminal_type : option string) : M () :=
  ticket ← pty_start_here command size terminal_type;
  handle (open_pty_ticket ticket) mret
    (λ error, handle pty_close_current mret (λ _, mret ());; throw error).

(** Whether there was a stream to open. *)
Definition pty_attach_stream_if_present : M bool :=
  session_id ← active_session_id;
  s ← on_client (λ conn, snapshot conn session_id);
  focus (s_descriptor s);;
  if negb (is_interactive_process (d_activity (s_descriptor s))) then mret false
  else
    r ← the_runtime;
    ticket ← on_client (λ conn, pty_attach conn session_id (rt_pty_cursors r !! session_id));
    open_pty_ticket ticket;;
    mret true.

Definition pty_attach_stream : M () :=
  opened ← pty_attach_stream_if_present; ensure opened "active session has no terminal job".

Definition active_interactive_running : M bool :=
  session_id ← active_session_id;
  s ← on_client (λ conn, snapshot conn session_id);
  focus (s_descriptor s);;
  mret (is_interactive_process (d_activity (s_descriptor s))).

Definition remember_pty_cursor (cursor : N) : M () :=
  changing (λ r, from_option (λ d, set_pty_cursors (<[d_id d := cursor]> (rt_pty_cursors r)) r) r (rt_active r)).

Definition events_here (wait_ms : N) : M (EventBatch A) :=
  session_id ← active_session_id;
  r ← the_runtime;
  on_client (λ conn, events conn session_id (default 0%N (rt_cursors r !! session_id)) wait_ms).

Definition journal : M (EventBatch A) :=
  session_id ← active_session_id; on_client (λ conn, events conn session_id 0 0).

Definition acknowledge_event (sequence : N) : M () :=
  session_id ← active_session_id;
  changing (λ r, set_cursors (<[session_id := default 0%N (rt_cursors r !! session_id) `max` sequence]> (rt_cursors r))%N r).

Definition take_redraw : M bool :=
  r ← the_runtime; changing (set_redraw false);; mret (rt_redraw r).

Definition approve_here (turn_id call_id : string) (decision : ApprovalDecision) : M () :=
  session_id ← active_session_id; on_client (λ conn, approve conn session_id turn_id call_id decision).

Definition refresh_snapshot : M Snapshot :=
  session_id ← active_session_id;
  s ← on_client (λ conn, snapshot conn session_id);
  focus (s_descriptor s);;
  mret s.

Definition active_turn_id (r : Runtime) : option string :=
  match d_activity <$> rt_active r with Some (ActAgentTurn turn_id _) => Some turn_id | _ => None end.

Definition take_finished_turn : M (option Snapshot) :=
  r ← the_runtime;
  if bool_decide (active_turn_id r = None) then mret None
  else
    session_id ← active_session_id;
    s ← on_client (λ conn, snapshot conn session_id);
    focus (s_descriptor s);;
    mret (if in_turn (d_activity (s_descriptor s)) then None else Some s).

Definition mark_turn_finished : M () := set_active_activity ActIdle.

Definition stop_current_activity : M string :=
  s ← refresh_snapshot;
  match d_activity (s_descriptor s) with
  | ActIdle => throw "the active session has no running activity"
  | ActInteractiveProcess _ _ => pty_close_current;; mret "interactive process stopped"
  | ActAgentTurn turn_id _ =>
      on_client (λ conn, cancel conn (d_id (s_descriptor s)) turn_id);;
      set_active_activity ActIdle;;
      mret "agent turn cancellation requested"
  end.

Fixpoint first_fallback (candidates : list string) : M (option Snapshot) :=
  match candidates with
  | [] => mret None
  | candidate :: candidates =>
      handle (switch_to candidate)
        (λ s, let d := s_descriptor s in
              changing (λ r, set_navigation (filter (λ id, id ≠ d_id d) (rt_navigation r)) r);;
              focus d;;
              mret (Some s))
        (λ _, first_fallback candidates)
  end.

Definition close_current_and_fallback : M (option Snapshot) :=
  r ← the_runtime;
  current_id ← lift (AuditLog.context (d_id <$> rt_active r) "there is no active session to close");
  sessions ← catalog;
  on_client (λ conn, close conn None);;
  changing (set_active None);;
  changing (λ r, set_cursors (delete current_id (rt_cursors r)) r);;
  changing (λ r, set_navigation (filter (λ id, id ≠ current_id) (rt_navigation r)) r);;
  r ← the_runtime;
  fallback ← first_fallback (fallback_candidates (rt_navigation r) sessions current_id);
  from_option (λ s, ensure_event_cursor (d_id (s_descriptor s))) (mret ()) fallback;;
  mret fallback.

(** ** Other hosts *)

Definition require_connectable_remote (a : RemoteBootstrapAction) : Outcome string () :=
  match a with
  | BaConnect => Done ()
  | BaInstall => Fail ("xshelld is not installed on the remote host; remote installation requires the " +:+
                       "signed-artifact bootstrap increment")
  | BaUpgrade binary_version supported =>
      Fail ("remote xshelld " +:+ binary_version +:+ " supports protocol " +:+ fmt_N supported +:+
            ", but this xshell requires protocol " +:+ fmt_N SESSION_PROTOCOL_VERSION +:+
            "; remote upgrade requires the signed-artifact bootstrap increment")
  | BaStart => Fail ("the remote xshelld binary is compatible but its daemon is unavailable; run `xshelld service " +:+
                     "start` on that host, or reconnect and authorize the repair")
  | BaRestart reason =>
      Fail ("the installed remote xshelld is compatible but its daemon must be restarted (" +:+ reason +:+
            "); run `xshelld service restart` on that host, or reconnect and authorize the repair")
  | BaRejected code message => Fail ("remote xshelld probe was rejected (" +:+ code +:+ "): " +:+ message)
  end.

Definition describe_repair (destination : string) (a : RemoteBootstrapAction) (repair : RemoteRepair) : Step W string () :=
  (match a with
   | BaStart => modify (print ("xshell: " +:+ destination +:+ " has xshelld installed but its daemon is not running"))
   | BaRestart reason =>
       modify (print ("xshell: " +:+ destination +:+ " needs its daemon restarted: " +:+ reason));;
       modify (print ("  a restart ends work that daemon owns, including sessions held by other controllers attached to " +:+
                      destination))
   | _ => mret ()
   end);;
  modify (print ("  proposed: ssh " +:+ destination +:+ " xshelld service " +:+ verb repair)).

(** The loop of [confirm_remote_repair]; [fuel] bounds the answers that are
    neither yes nor no. *)
Fixpoint ask_repair (fuel : nat) (destination : string) (repair : RemoteRepair) : Step W string bool :=
  match fuel with
  | O => lift Panic
  | S fuel =>
      modify (print ("Run `xshelld service " +:+ verb repair +:+ "` on " +:+ destination +:+ "? [y/N] "));;
      answer ← asking read_answer "could not read repair approval";
      if bool_decide (answer = "") then mret false
      else
        let answer := to_ascii_lowercase (trim answer) in
        if bool_decide (answer ∈ ["y"; "yes"]) then mret true
        else if bool_decide (answer ∈ [""; "n"; "no"]) then mret false
        else modify (eprint "Please answer y (repair) or n (leave the host alone).");; ask_repair fuel destination repair
  end.

Definition confirm_remote_repair (fuel : nat) (destination : string) (repair : RemoteRepair) : Step W string bool :=
  interactive ← ask stdin_is_terminal;
  if negb interactive : bool
  then throw (debug_str destination +:+ " needs `xshelld service " +:+ verb repair +:+
              "` but this controller is not interactive; run it on that host, or connect from a terminal to authorize it")
  else ask_repair fuel destination repair.

Definition prepare_remote_host (fuel : nat) (destination : string) (a : RemoteBootstrapAction) : Step W string () :=
  match for_action a with
  | None => lift (require_connectable_remote a)
  | Some repair =>
      describe_repair destination a repair;;
      confirmed ← confirm_remote_repair fuel destination repair;
      if negb confirmed then lift (require_connectable_remote a)
      else
        output ← repair_ssh destination repair;
        modify (λ w, foldl (λ w line, if blank line then w else print ("  " +:+ sanitized line) w) w (text_lines output));;
        probe ← in_context ("cannot re-probe " +:+ debug_str destination +:+ " after `xshelld service " +:+ verb repair +:+ "`")
                  (probe_ssh destination);
        let a := required_action probe in
        if bool_decide (a = BaConnect) then modify (print ("xshell: " +:+ destination +:+ " is ready"))
        else lift (in_place ("`xshelld service " +:+ verb repair +:+ "` on " +:+ debug_str destination +:+
                             " did not make the host connectable") (require_connectable_remote a))
  end.

Definition connect_host (fuel : nat) (destination : string) (requested_session : option string) (default_session : string)
    (model : ActiveModel) (system_prompt : string) : M Snapshot :=
  handle (in_world (probe_ssh destination))
    (λ probe, in_world (prepare_remote_host fuel destination (required_action probe)))
    (λ error, showing (eprint ("xshell: remote capability probe unavailable; trying the legacy direct connection: " +:+
                               error)));;
  client ← in_world (connect_ssh destination pkg_version);
  r ← the_runtime;
  ensure (negb (bool_decide (host_of <$> rt_connection r = Some (sc_host_id client))) &&
          negb (bool_decide (is_Some (rt_parked r !! sc_host_id client))))
    ("host " +:+ sc_host_alias client +:+ " is already connected; use //switch " +:+ sc_host_alias client +:+ ":SESSION");;
  snapshot ← in_world (attach_or_create (sc_conn client) {|
    c_name := default default_session requested_session; c_model := to_session_binding model; c_cwd := "~";
    c_persistence := PersistDaemon; c_visibility := Fabric; c_history := [msg_system system_prompt] |});
  from_option (λ d, push_navigation (d_id d)) (mret ()) (rt_active r);;
  from_option (λ c, changing (λ r, set_parked (<[host_of c := c]> (rt_parked r)) (set_connection None r))) (mret ())
    (rt_connection r);;
  changing (set_connection (Some {| hc_client := client; hc_endpoint := EndSsh destination |}));;
  rebuild_display_host_aliases;;
  focus (s_descriptor snapshot);;
  ensure_event_cursor (d_id (s_descriptor snapshot));;
  mret snapshot.
End runtime.

(** * Sessions stay with their hosts *)

Section hosts.
Context {A Conn W : Type} `{!SessionWire A Conn W, !SessionNet Conn W, !Terminal W, !EqDecision A}.
Context (pkg_version : string) (env : Environment).
Abbreviation Runtime := (SessionRuntime Conn).
Abbreviation M := (Step (Runtime * W) string).

(** The host a connection leads to, and what a daemon there says. *)
Context (hosts : Conn → string).

Definition Speaks (host : string) (r : ServerResponse A) : Prop :=
  match r with
  | RsOpened _ _ host_id _ _ => host_id = host
  | RsCreated s | RsAttached s _ | RsSnapshot s => d_host_id (s_descriptor s) = host
  | RsUpdated d => d_host_id d = host
  | _ => True
  end.

(** A daemon describes itself and its sessions by its own host. *)
Context (honest : ∀ conn n w bytes w' r,
  read_line conn n w = (inr bytes, w') → response_from_slice bytes = inr r → Speaks (hosts conn) r).

(** The session in focus is on the connection in use; the others are kept under
    their hosts, each of which has one connection. *)
Record Placed (r : Runtime) : Prop := {
  active_here d : rt_active r = Some d → ∃ c, rt_connection r = Some c ∧ d_host_id d = host_of c;
  current_host c : rt_connection r = Some c → hosts (client_conn c) = host_of c;
  parked_hosts h c : rt_parked r !! h = Some c → host_of c = h ∧ hosts (client_conn c) = h;
  not_parked c : rt_connection r = Some c → rt_parked r !! host_of c = None;
}.

Definition Fits (d : SessionDescriptor) (r : Runtime) : Prop :=
  ∃ c, rt_connection r = Some c ∧ d_host_id d = host_of c.

(** However [m] ends short of a crash. *)
Definition ends {B} (m : M B) (Q : B → Runtime → Prop) (R : Runtime → Prop) (r : Runtime) (w : W) : Prop :=
  match m (r, w) with
  | (s, Done b) => Q b s.1
  | (s, Fail _) => R s.1
  | (_, Panic) => True
  end.

(** [m] started where [P] holds ends where [Q] does, or fails and leaves every
    session with its host. *)
Definition Triple {B} (P : Runtime → Prop) (m : M B) (Q : B → Runtime → Prop) : Prop :=
  ∀ r w, P r → ends m Q Placed r w.

Definition Also (P : Runtime → Prop) (r : Runtime) : Prop := Placed r ∧ P r.

Lemma triple_bind {B C} P (m : M B) Q (k : B → M C) R :
  Triple P m Q → (∀ b, Triple (Q b) (k b) R) → Triple P (m ≫= k) R.
Proof.
  intros Hm Hk r w HP. specialize (Hm r w HP). unfold ends, mbind, Step_bind in *.
  destruct (m (r, w)) as [[r1 w1] [b|e|]]; [by apply Hk|done..].
Qed.

Lemma triple_assoc {B C D} P (m : M B) (k : B → M C) (l : C → M D) R :
  Triple P ((m ≫= k) ≫= l) R → Triple P (m ≫= λ b, k b ≫= l) R.
Proof.
  intros Hm r w HP. specialize (Hm r w HP). unfold ends, mbind, Step_bind in *. by destruct (m (r, w)) as [[r1 w1] [b|e|]].
Qed.

Lemma triple_handle {B C} P (m : M B) Q (k : B → M C) h R :
  Triple P m Q → (∀ b, Triple (Q b) (k b) R) → (∀ e, Triple Placed (h e) R) → Triple P (handle m k h) R.
Proof.
  intros Hm Hk Hh r w HP. specialize (Hm r w HP). unfold ends, handle in *.
  destruct (m (r, w)) as [[r1 w1] [b|e|]]; [by apply Hk|by apply Hh|done].
Qed.

Lemma triple_weaken {B} (P P' : Runtime → Prop) (m : M B) (Q Q' : B → Runtime → Prop) :
  Triple P m Q → (∀ r, P' r → P r) → (∀ b r, Q b r → Q' b r) → Triple P' m Q'.
Proof.
  intros Hm HP HQ r w HPr. specialize (Hm r w (HP r HPr)). unfold ends in *.
  destruct (m (r, w)) as [[r1 w1] [b|e|]]; naive_solver.
Qed.

(** A condition that does not depend on the runtime. *)
Lemma triple_pure {B} (X : Prop) P (m : M B) Q : (X → Triple P m Q) → Triple (λ r, P r ∧ X) m Q.
Proof. intros Hm r w [HP HX]. by apply Hm. Qed.

Lemma triple_ret {B} (b : B) (Q : B → Runtime → Prop) : Triple (Q b) (mret b) Q.
Proof. by intros r w HQ. Qed.
Lemma triple_throw {B} e P (Q : B → Runtime → Prop) : (∀ r, P r → Placed r) → Triple P (throw e) Q.
Proof. intros HP r w Hr. by apply HP. Qed.
Lemma triple_lift {B} (o : Outcome string B) P : (∀ r, P r → Placed r) → Triple P (lift o) (λ b r, P r ∧ o = Done b).
Proof. intros HP r w Hr. unfold ends, lift. destruct o; simpl; auto. Qed.
Lemma triple_ensure b e P : (∀ r, P r → Placed r) → Triple P (ensure b e) (λ _ r, P r ∧ b = true).
Proof. intros HP r w Hr. unfold ensure, ends. destruct b; simpl; auto. Qed.
Lemma triple_runtime P : Triple P the_runtime (λ r0 r, P r ∧ r0 = r).
Proof. by intros r w HP. Qed.
Lemma triple_changing f P (Q : Runtime → Prop) : (∀ r, P r → Q (f r)) → Triple P (changing f) (λ _ r, Q r).
Proof. intros Hf r w HP. unfold ends. simpl. by apply Hf. Qed.

Lemma triple_handle_world {B C} P (m : Step W string B) (Q : B → Prop) (k : B → M C) h R :
  (∀ w w' b, m w = (w', Done b) → Q b) →
  (∀ b, Triple (λ r, P r ∧ Q b) (k b) R) → (∀ e, Triple P (h e) R) → Triple P (handle (in_world m) k h) R.
Proof.
  intros Hm Hk Hh r w HP. unfold ends, handle, in_world, zoom. simpl.
  destruct (m w) as [w' [b|e|]] eqn:Hrun; [|by apply Hh|done]. apply Hk. split; [done|]. by eapply Hm.
Qed.

Lemma triple_world {B} P (m : Step W string B) (Q : B → Prop) :
  (∀ r, P r → Placed r) → (∀ w w' b, m w = (w', Done b) → Q b) → Triple P (in_world m) (λ b r, P r ∧ Q b).
Proof.
  intros HP Hm r w Hr. unfold ends, in_world, zoom. simpl. destruct (m w) as [w' [b|e|]] eqn:Hrun; simpl; [|auto|done].
  split; [done|]. by eapply Hm.
Qed.

Lemma triple_client {B} P (m : Conn → Step W string B) (Q : Conn → B → Prop) :
  (∀ r, P r → Placed r) → (∀ conn w w' b, m conn w = (w', Done b) → Q conn b) →
  Triple P (on_client m) (λ b r, P r ∧ ∃ c, rt_connection r = Some c ∧ Q (client_conn c) b).
Proof.
  intros HP Hm. unfold on_client. eapply triple_bind; [apply triple_runtime|]. intros r0. simpl.
  destruct (rt_connection r0) as [c|] eqn:Hc; [|apply triple_throw; naive_solver].
  eapply triple_weaken; [apply (triple_world _ _ (Q (client_conn c))); [|apply Hm]|intros r Hr; exact Hr|].
  - naive_solver.
  - intros b r [[Hr ->] HQ]. eauto.
Qed.

(** ** What the client is told *)

Lemma receive_speaks conn (w w' : W) r : receive conn w = (w', Done r) → Speaks (hosts conn) r.
Proof.
  unfold receive, ask, mbind, Step_bind. destruct (read_line conn _ w) as [[e|bytes] w1] eqn:Hread; [done|].
  intros [_ Hp]%lift_Done. unfold parse_response in Hp. case_bool_decide; [done|].
  destruct (_ || _); [done|]. unfold with_context in Hp. destruct (response_from_slice bytes) eqn:Hr; [done|].
  injection Hp as <-. by eapply honest.
Qed.

Lemma exchange_speaks {B} conn operation rq (expected : ServerResponse A → option B) (w w' : W) b :
  exchange conn operation rq expected w = (w', Done b) →
  ∃ r, Speaks (hosts conn) r ∧ expected r = Some b.
Proof.
  unfold exchange. intros ([] & w1 & _ & (r & w2 & Hr%receive_speaks & He)%step_bind_Done)%step_bind_Done.
  exists r. split; [done|]. destruct (expected r); [by injection He as _ ->|]. unfold response_error in He. by destruct r.
Qed.

Lemma open_speaks conn version (w w' : W) c :
  open_session conn version w = (w', Done c) → sc_conn c = conn ∧ sc_host_id c = hosts conn.
Proof.
  unfold open_session. intros ([] & w1 & _ & (r & w2 & Hs%receive_speaks & He)%step_bind_Done)%step_bind_Done.
  destruct r; try discriminate He. destruct (negb _); [discriminate He|]. cbn in He. injection He as _ <-. done.
Qed.

Definition HostIs (conn : Conn) (s : SessionSnapshot A) : Prop := d_host_id (s_descriptor s) = hosts conn.

Ltac spoken := intros; match goal with H : _ = (_, Done _) |- _ => apply exchange_speaks in H as (r & Hs & He); destruct r; try discriminate He; injection He as <-; exact Hs end.

Lemma snapshot_speaks conn id w w' s : snapshot conn id w = (w', Done s) → HostIs conn s.
Proof. spoken. Qed.
Lemma create_speaks conn c w w' s : create conn c w = (w', Done s) → HostIs conn s.
Proof. spoken. Qed.
Lemma attach_speaks conn id w w' s : attach conn id w = (w', Done s) → HostIs conn s.
Proof. spoken. Qed.
Lemma switch_speaks conn id w w' s : switch conn id w = (w', Done s) → HostIs conn s.
Proof. spoken. Qed.
Lemma update_speaks conn id m cwd h w w' d : update conn id m cwd h w = (w', Done d) → d_host_id d = hosts conn.
Proof. spoken. Qed.
Lemma attach_or_create_speaks conn c w w' s : attach_or_create conn c w = (w', Done s) → HostIs conn s.
Proof.
  unfold attach_or_create. intros (l & w1 & _ & H)%step_bind_Done. destruct (existsb _ l);
    [by eapply attach_speaks|by eapply create_speaks].
Qed.

(** ** Steps *)

Ltac placed := intros; cbn beta in *; destruct_and?; try assumption; try done.

Definition Nothing (_ : Runtime) : Prop := True.
Abbreviation Keeps m := (Triple Placed m (λ _, Placed)).

Lemma placed_bind {B C} (m : M B) (k : B → M C) : Keeps m → (∀ b, Keeps (k b)) → Keeps (m ≫= k).
Proof. apply triple_bind. Qed.
Lemma placed_handle {B C} (m : M B) (k : B → M C) h : Keeps m → (∀ b, Keeps (k b)) → (∀ e, Keeps (h e)) → Keeps (handle m k h).
Proof. apply triple_handle. Qed.
Lemma placed_ret {B} (b : B) : Keeps (mret b).
Proof. apply (triple_ret b (λ _, Placed)). Qed.
Lemma placed_throw {B} e : Keeps (throw e : M B).
Proof. by apply triple_throw. Qed.
Lemma placed_lift {B} (o : Outcome string B) : Keeps (lift o).
Proof. eapply triple_weaken; [by apply (triple_lift o Placed)|done|]. by intros b r [? _]. Qed.
Lemma placed_ensure b e : Keeps (ensure b e).
Proof. unfold ensure. destruct b; [apply placed_ret|apply placed_throw]. Qed.
Lemma keeps_runtime : Keeps the_runtime.
Proof. by intros r w Hr. Qed.
Lemma keeps_world {B} (m : Step W string B) : Keeps (in_world m).
Proof. eapply triple_weaken; [by apply (triple_world Placed m (λ _, True))|done|]. by intros b r [? _]. Qed.

Lemma keeps_client {B} P (m : Conn → Step W string B) :
  (∀ r, P r → Placed r) → Triple P (on_client m) (λ _, P).
Proof.
  intros HP. eapply triple_weaken; [apply (triple_client P m (λ _ _, True)); [done|done]|done|]. by intros b r [? _].
Qed.

(** A session a daemon tells of is of its host. *)
Lemma triple_told P (m : Conn → Step W string (SessionSnapshot A)) :
  (∀ r, P r → Placed r) → (∀ conn w w' s, m conn w = (w', Done s) → HostIs conn s) →
  Triple P (on_client m) (λ s r, P r ∧ Fits (s_descriptor s) r).
Proof.
  intros HP Hm. eapply triple_weaken; [apply (triple_client P m HostIs); [done|exact Hm]|done|].
  intros s r [Hr (c & Hc & Hs)]. split; [done|]. exists c. split; [done|]. rewrite Hs. by apply (current_host r (HP r Hr)).
Qed.

Lemma placed_same r r' :
  rt_connection r' = rt_connection r → rt_parked r' = rt_parked r → rt_active r' = rt_active r → Placed r → Placed r'.
Proof. intros Hc Hp Ha [H1 H2 H3 H4]. split; rewrite ?Hc, ?Hp, ?Ha; done. Qed.

Lemma triple_focus P d : (∀ r, P r → Placed r ∧ Fits d r) → Triple P (focus d) (λ _, Placed).
Proof.
  intros HP. apply triple_changing. intros r Hr. destruct (HP r Hr) as [[H1 H2 H3 H4] Hf].
  split; simpl; [|done..]. by intros ? [= <-].
Qed.

Lemma keeps_activity a : Keeps (set_active_activity a).
Proof.
  apply triple_changing. intros r [H1 H2 H3 H4]. split; simpl; [|done..].
  intros d Hd. destruct (rt_active r) as [d0|] eqn:Ha; [|done]. injection Hd as <-. exact (H1 d0 eq_refl).
Qed.

Lemma keeps_setter P f :
  (∀ r, rt_connection (f r) = rt_connection r ∧ rt_parked (f r) = rt_parked r ∧ rt_active (f r) = rt_active r) →
  (∀ r, P r → P (f r)) → Triple (Also P) (changing f) (λ _, Also P).
Proof.
  intros Hf HP. apply triple_changing. intros r [Hr Hp]. destruct (Hf r) as (H1 & H2 & H3).
  split; [by apply (placed_same r)|by apply HP].
Qed.

Lemma keeps_cursor id : Keeps (ensure_event_cursor id).
Proof.
  unfold ensure_event_cursor. eapply triple_bind; [apply triple_runtime|]. intros r0. simpl.
  case_bool_decide; [eapply triple_weaken; [apply (triple_ret tt (λ _, Placed))|placed|done]|].
  eapply triple_bind; [eapply triple_weaken; [apply (keeps_client Placed); done|placed|intros b r Hr; exact Hr]|].
  intros cursor. apply triple_changing. intros r. by apply placed_same.
Qed.

Lemma keeps_rebuild P : (∀ r a, P r → P (set_aliases a r)) → Triple (Also P) rebuild_display_host_aliases (λ _, Also P).
Proof.
  intros HP. unfold rebuild_display_host_aliases. eapply triple_bind; [apply triple_runtime|]. intros r0. simpl.
  eapply triple_bind; [apply triple_lift; by intros r [[? _] _]|]. intros a. simpl. apply triple_changing.
  intros r [[[Hr Hp] _] _]. split; [by apply (placed_same r)|by apply HP].
Qed.

Lemma also_nothing : ∀ r, Placed r ↔ Also Nothing r.
Proof. unfold Also, Nothing. naive_solver. Qed.

Lemma keeps_rebuild_placed : Keeps rebuild_display_host_aliases.
Proof.
  eapply triple_weaken; [apply (keeps_rebuild Nothing); done|apply also_nothing|]. intros b r Hr. by apply also_nothing.
Qed.

Lemma keeps_unpark id : Keeps (changing (λ r, set_parked (delete id (rt_parked r)) r)).
Proof.
  apply triple_changing. intros r [H1 H2 H3 H4]. split; simpl; [done|done| |].
  - intros h c' [_ Hl]%lookup_delete_Some. by apply H3.
  - intros c' Hc. rewrite lookup_delete_None. right. by apply H4.
Qed.

Create HintDb keeps.
#[local] Hint Resolve placed_bind placed_handle placed_ret placed_throw placed_lift placed_ensure keeps_runtime keeps_world
  keeps_activity keeps_cursor keeps_rebuild_placed keeps_unpark : keeps.
#[local] Hint Extern 2 (Keeps (on_client _)) => apply keeps_client; done : keeps.

(** Follows a computation, splitting on what it looks at. *)
Ltac keeps := repeat first
  [ progress (intros; cbn beta iota)
  | solve [eauto 1 with keeps nocore]
  | apply placed_bind | apply placed_handle | apply keeps_client; done
  | match goal with |- Triple Placed (from_option _ _ ?x) _ => destruct x; cbn [from_option]
                  | |- Triple Placed (if ?b then _ else _) _ => destruct b
                  | |- Triple Placed (match ?x with _ => _ end) _ => destruct x end ].

Lemma keeps_list_parked ids : Keeps (list_parked ids).
Proof. induction ids as [|id ids IH]; simpl; keeps. Qed.

Lemma keeps_catalog : Keeps catalog.
Proof. pose proof keeps_list_parked. unfold catalog, showing. keeps. Qed.
#[local] Hint Resolve keeps_catalog : keeps.

Lemma keeps_resolve selector : Keeps (resolve_target selector).
Proof. unfold resolve_target. keeps. Qed.
#[local] Hint Resolve keeps_resolve : keeps.

(** ** Sessions a daemon tells of *)

Definition Told (d : SessionDescriptor) (r : Runtime) : Prop := Placed r ∧ Fits d r.

Lemma told_bind {B} (m : Conn → Step W string (SessionSnapshot A)) (k : SessionSnapshot A → M B) :
  (∀ conn w w' s, m conn w = (w', Done s) → HostIs conn s) →
  (∀ s, Triple (Told (s_descriptor s)) (k s) (λ _, Placed)) → Keeps (on_client m ≫= k).
Proof. intros Hm Hk. eapply triple_bind; [by apply (triple_told Placed)|exact Hk]. Qed.

Lemma told_focus {B} d (k : () → M B) : Keeps (k ()) → Triple (Told d) (focus d ≫= k) (λ _, Placed).
Proof. intros Hk. eapply triple_bind; [by apply (triple_focus (Told d) d)|]. by intros []. Qed.

Lemma told_navigation {B} d id (k : () → M B) :
  Triple (Told d) (k ()) (λ _, Placed) → Triple (Told d) (push_navigation id ≫= k) (λ _, Placed).
Proof.
  intros Hk. apply (triple_bind _ _ (λ _, Told d)); [|intros []; exact Hk]. apply triple_changing. intros r [Hr Hf].
  split; [by apply (placed_same r)|exact Hf].
Qed.

Lemma told_keeps {B} d (m : M B) : Keeps m → Triple (Told d) m (λ _, Placed).
Proof. intros Hm. eapply triple_weaken; [exact Hm|by intros r [? _]|done]. Qed.

Lemma keeps_inactive : Keeps (changing (set_active None)).
Proof. apply triple_changing. intros r [H1 H2 H3 H4]. by split. Qed.

Lemma keeps_changing f :
  (∀ r, rt_connection (f r) = rt_connection r ∧ rt_parked (f r) = rt_parked r ∧ rt_active (f r) = rt_active r) →
  Keeps (changing f).
Proof. intros Hf. apply triple_changing. intros r Hr. destruct (Hf r) as (H1 & H2 & H3). by apply (placed_same r). Qed.
#[local] Hint Resolve keeps_inactive snapshot_speaks create_speaks attach_speaks switch_speaks : keeps.
#[local] Hint Extern 2 (Keeps (changing _)) => apply keeps_changing; intros []; split_and!; reflexivity : keeps.

Lemma keeps_refresh : Keeps refresh_snapshot.
Proof.
  unfold refresh_snapshot. apply placed_bind; [unfold active_session_id; keeps|]. intros id.
  apply told_bind; [intros ?; apply snapshot_speaks|]. intros s. apply told_focus. keeps.
Qed.

Lemma keeps_session_id : Keeps active_session_id.
Proof. unfold active_session_id. keeps. Qed.
#[local] Hint Resolve keeps_refresh keeps_session_id : keeps.

Lemma keeps_create name model cwd history p v : Keeps (create_session name model cwd history p v).
Proof.
  unfold create_session. apply placed_bind; [keeps|]. intros r0. apply told_bind; [intros ?; apply create_speaks|]. intros s.
  destruct (rt_active r0) as [d|]; cbn [from_option]; [apply told_navigation|]; apply told_focus; keeps.
Qed.

Lemma keeps_create_sibling name : Keeps (create_sibling name).
Proof.
  unfold create_sibling. do 3 (apply placed_bind; [keeps|]; intros ?). apply told_bind; [intros ?; apply create_speaks|].
  intros s. apply told_navigation, told_focus. keeps.
Qed.

Lemma keeps_detach : Keeps detach_session.
Proof. unfold detach_session. keeps. Qed.

Lemma keeps_sync model cwd history : Keeps (sync model cwd history).
Proof.
  assert (∀ id, Keeps (d ← on_client (λ conn, update conn id (to_session_binding model) cwd history); focus d)) as Hupdate.
  { intros id. eapply triple_bind; [apply (triple_client Placed _ (λ conn d, d_host_id d = hosts conn)); [done|]|].
    - intros conn w w' d. apply update_speaks.
    - intros d. apply triple_focus. intros r [Hr (c & Hc & Hd)]. split; [done|]. exists c. split; [done|]. rewrite Hd.
      by apply (current_host r Hr). }
  unfold sync. apply placed_bind; [keeps|]. intros r0. destruct (rt_active r0) as [d|]; [|keeps].
  destruct (in_turn _); [|destruct (is_interactive_process _); [|apply Hupdate]].
  - apply told_bind; [intros ?; apply snapshot_speaks|]. intros s. destruct (in_turn _); cbn [negb]; [apply told_focus|apply told_keeps]; keeps.
  - apply told_bind; [intros ?; apply snapshot_speaks|]. intros s. apply told_focus. destruct (is_interactive_process _); [keeps|apply Hupdate].
Qed.

Lemma keeps_pty_close : Keeps pty_close_current.
Proof. unfold pty_close_current. keeps. Qed.
#[local] Hint Resolve keeps_pty_close : keeps.

Lemma keeps_stop : Keeps stop_current_activity.
Proof. unfold stop_current_activity. keeps. Qed.

Lemma keeps_open_ticket ticket : Keeps (open_pty_ticket ticket).
Proof. unfold open_pty_ticket. keeps. Qed.
#[local] Hint Resolve keeps_open_ticket : keeps.

Lemma keeps_pty_start_stream command size term : Keeps (pty_start_stream command size term).
Proof. unfold pty_start_stream, pty_start_here. keeps. Qed.

Lemma keeps_pty_attach : Keeps pty_attach_stream.
Proof.
  unfold pty_attach_stream. apply placed_bind; [|keeps]. unfold pty_attach_stream_if_present.
  apply placed_bind; [keeps|]. intros id. apply told_bind; [intros ?; apply snapshot_speaks|]. intros s. apply told_focus. keeps.
Qed.

Lemma keeps_finished : Keeps take_finished_turn.
Proof.
  unfold take_finished_turn. apply placed_bind; [keeps|]. intros r0. case_bool_decide; [keeps|].
  apply placed_bind; [keeps|]. intros id. apply told_bind; [intros ?; apply snapshot_speaks|]. intros s. apply told_focus. keeps.
Qed.

Lemma keeps_submit input approval limits policy : Keeps (submit_turn input approval limits policy).
Proof. unfold submit_turn. keeps. Qed.

Lemma keeps_attach_if : Keeps pty_attach_stream_if_present.
Proof.
  unfold pty_attach_stream_if_present. apply placed_bind; [keeps|]. intros id.
  apply told_bind; [intros ?; apply snapshot_speaks|]. intros s. apply told_focus. keeps.
Qed.

Lemma keeps_running : Keeps active_interactive_running.
Proof.
  unfold active_interactive_running. apply placed_bind; [keeps|]. intros id.
  apply told_bind; [intros ?; apply snapshot_speaks|]. intros s. apply told_focus. keeps.
Qed.

Lemma keeps_remember cursor : Keeps (remember_pty_cursor cursor).
Proof. apply keeps_changing. intros [c p a [d|] n cs ps b]; by split_and!. Qed.

(** ** Going to another host *)

(** The connection is that of the session [d], which is to be in focus. *)
Definition Landed (d : SessionDescriptor) (r : Runtime) : Prop := Placed (set_active None r) ∧ Fits d r.

Lemma told_landed d r : Told d r → Landed d r.
Proof. intros [[H1 H2 H3 H4] Hf]. by split. Qed.

Lemma landed_focus {B} d (k : () → M B) Q : Triple (Told d) (k ()) Q → Triple (Landed d) (focus d ≫= k) Q.
Proof.
  intros Hk. apply (triple_bind _ _ (λ _, Told d)); [|intros []; exact Hk]. apply triple_changing. intros r [[H1 H2 H3 H4] Hf].
  split; [|exact Hf]. split; simpl in *; [|done..]. by intros ? [= <-].
Qed.

Lemma landed_navigation d id : Triple (Landed d) (push_navigation id) (λ _, Landed d).
Proof. apply triple_changing. intros r [Hr Hf]. split; [by apply (placed_same (set_active None r))|exact Hf]. Qed.

Lemma fits_same d r r' : rt_connection r' = rt_connection r → Fits d r → Fits d r'.
Proof. intros Hc (c & H & Hd). exists c. by rewrite Hc. Qed.

Lemma labels_do_not_fail l e : disambiguate_host_aliases l ≠ Fail e.
Proof.
  assert (∀ id hs n fuel e, distinct_prefix id hs n fuel ≠ Fail e) as Hprefix.
  { intros id hs n fuel. revert n. induction fuel as [|fuel IH]; intros n e'; simpl; [done|].
    destruct (negb _); [done|]. by case_bool_decide. }
  assert (∀ h e, host_label l h ≠ Fail e) as Hlabel.
  { intros [id alias] e'. unfold host_label. case_bool_decide; [done|].
    destruct (distinct_prefix _ _ _ _) eqn:E; simpl; [done| |done]. by destruct (Hprefix _ _ _ _ _ E). }
  assert (∀ hs e, outcome_map (host_label l) hs ≠ Fail e) as Hmap.
  { induction hs as [|h hs IH]; intros e'; simpl; [done|]. destruct (host_label l h) eqn:E; simpl; [|by destruct (Hlabel _ _ E)|done].
    destruct (outcome_map _ hs) eqn:E'; simpl; [done|by destruct (IH _ eq_refl)|done]. }
  unfold disambiguate_host_aliases. destruct (outcome_map _ l) eqn:E; simpl; [done|by destruct (Hmap _ _ E)|done].
Qed.

Lemma landed_rebuild d : Triple (Landed d) rebuild_display_host_aliases (λ _, Landed d).
Proof.
  intros r w [Hr Hf]. unfold rebuild_display_host_aliases, ends, the_runtime, lift, changing, mbind, Step_bind. simpl.
  destruct (disambiguate_host_aliases _) eqn:E; simpl; [|by destruct (labels_do_not_fail _ _ E)|done].
  split; [by apply (placed_same (set_active None r))|by apply (fits_same d r)].
Qed.

(** Parking the connection in use, and taking the parked one of another host. *)
Lemma placed_exchange r active target :
  Placed r → rt_connection r = Some active → rt_parked r !! host_of target = Some target →
  Placed (set_active None (set_parked (<[host_of active := active]> (delete (host_of target) (rt_parked r)))
    (set_connection (Some target) r))).
Proof.
  intros [H1 H2 H3 H4] Ha Ht. specialize (H4 _ Ha). assert (host_of active ≠ host_of target) by congruence.
  split; simpl; [done| | |].
  - intros ? [= <-]. by destruct (H3 _ _ Ht).
  - intros h c [[<- <-]|[_ [_ Hl]%lookup_delete_Some]]%lookup_insert_Some; [|by apply H3]. split; [done|]. by apply H2.
  - intros ? [= <-]. by rewrite lookup_insert_ne, lookup_delete_eq.
Qed.

Lemma reparked (r : Runtime) target h :
  rt_parked r !! h = Some target → <[h := target]> (delete h (rt_parked r)) = rt_parked r.
Proof. intros Hl. by rewrite insert_delete_eq, insert_id. Qed.

(** The part of [switch_to] that goes to a parked connection. *)
Lemma triple_exchange host active target id :
  Triple (λ r, Placed r ∧ rt_connection r = Some active ∧ rt_parked r !! host = Some target)
    (changing (λ r, set_parked (delete host (rt_parked r)) r);;
     snapshot ← handle (in_world (switch (client_conn target) id)) mret
       (λ error, changing (λ r, set_parked (<[host := target]> (rt_parked r)) r);; throw error);
     changing (λ r, set_parked (<[host_of active := active]> (rt_parked r)) (set_connection (Some target) r));;
     mret snapshot)
    (λ s, Landed (s_descriptor s)).
Proof.
  intros r w (Hr & Ha & Ht). destruct (parked_hosts r Hr _ _ Ht) as [<- Hhost].
  unfold ends, handle, changing, in_world, zoom, mbind, Step_bind. simpl.
  destruct (switch _ _ w) as [w' [s|e|]] eqn:Hs; simpl; [|by apply (placed_same r); [|simpl; rewrite reparked|..]|done].
  apply switch_speaks in Hs. split; [exact (placed_exchange r active target Hr Ha Ht)|]. exists target. split; [done|]. by rewrite Hs.
Qed.

Lemma told_cursor d id : Triple (Told d) (ensure_event_cursor id) (λ _, Told d).
Proof.
  unfold ensure_event_cursor. eapply triple_bind; [apply triple_runtime|]. intros r0. simpl.
  case_bool_decide; [eapply triple_weaken; [apply (triple_ret tt (λ _, Told d))|by intros r [? _]|done]|].
  eapply triple_bind; [eapply triple_weaken; [apply (keeps_client (Told d)); by intros r [? _]|by intros r [Hr _]; exact Hr|
    intros b r Hr; exact Hr]|].
  intros cursor. apply triple_changing. intros r [Hr Hf]. split; [by apply (placed_same r)|exact Hf].
Qed.

Lemma switch_tells selector : Triple Placed (switch_to selector) (λ s, Told (s_descriptor s)).
Proof.
  unfold switch_to. apply (triple_bind _ _ (λ _, Placed)); [keeps|]. intros r0.
  apply (triple_bind _ _ (λ _, Placed)); [keeps|]. intros [host id].
  eapply triple_bind; [apply triple_runtime|]. intros r1. simpl.
  eapply triple_bind; [apply triple_lift; naive_solver|]. intros active. simpl.
  apply (triple_bind _ _ (λ s, Landed (s_descriptor s))).
  - case_bool_decide.
    + eapply triple_weaken; [apply (triple_told Placed); [done|intros ?; apply switch_speaks]|naive_solver|].
      intros s r. apply told_landed.
    + eapply triple_bind; [apply triple_lift; naive_solver|]. intros target. simpl.
      eapply triple_weaken; [apply (triple_exchange host active target id)| |done].
      intros r [[[Hr ->] Ha] Ht]. split; [done|]. unfold AuditLog.context in *.
      destruct (rt_connection r), (rt_parked r !! host); naive_solver.
  - intros s. apply (triple_bind _ _ (λ _, Landed (s_descriptor s))).
    + destruct (d_id <$> rt_active r0) as [i|]; [case_bool_decide|]; try apply landed_navigation; apply (triple_ret tt (λ _, Landed _)).
    + intros []. apply landed_focus. apply (triple_bind _ _ (λ _, Told (s_descriptor s))); [apply told_cursor|]. intros [].
      apply (triple_bind _ _ (λ _, Told (s_descriptor s))).
      * apply triple_changing. intros r [Hr Hf]. split; [by apply (placed_same r)|exact Hf].
      * intros []. apply (triple_ret s (λ s, Told (s_descriptor s))).
Qed.

Lemma keeps_switch selector : Keeps (switch_to selector).
Proof. eapply triple_weaken; [apply switch_tells|done|by intros s r [? _]]. Qed.
#[local] Hint Resolve keeps_switch : keeps.

Lemma keeps_first_fallback candidates : Keeps (first_fallback candidates).
Proof.
  induction candidates as [|candidate candidates IH]; simpl; [keeps|].
  eapply triple_handle; [apply switch_tells| |by intros _]. intros s. simpl.
  apply (triple_bind _ _ (λ _, Told (s_descriptor s))); [|intros []; apply told_focus; keeps].
  apply triple_changing. intros r [Hr Hf]. split; [by apply (placed_same r)|exact Hf].
Qed.
#[local] Hint Resolve keeps_first_fallback : keeps.

Lemma keeps_close : Keeps close_current_and_fallback.
Proof. unfold close_current_and_fallback. keeps. Qed.

(** The part of [connect_host] that parks the connection in use for a new one. *)
Lemma triple_connect r0 client endpoint d :
  hosts (sc_conn client) = sc_host_id client → d_host_id d = sc_host_id client →
  rt_parked r0 !! sc_host_id client = None → host_of <$> rt_connection r0 ≠ Some (sc_host_id client) →
  Triple (λ r, Placed r ∧ rt_connection r = rt_connection r0 ∧ rt_parked r = rt_parked r0)
    (from_option (λ c, changing (λ r, set_parked (<[host_of c := c]> (rt_parked r)) (set_connection None r))) (mret ())
      (rt_connection r0);;
     changing (set_connection (Some {| hc_client := client; hc_endpoint := endpoint |})))
    (λ _, Landed d).
Proof.
  intros Hclient Hd Hfree Hother r w ([H1 H2 H3 H4] & Hc & Hp). unfold ends, changing, mbind, Step_bind.
  destruct (rt_connection r0) as [c|]; simpl in *.
  - split; [|by eexists]. split; simpl; [done| | |].
    + by intros ? [= <-].
    + intros h c' [[<- <-]|[_ Hl]]%lookup_insert_Some; [split; [done|by apply H2]|by apply H3].
    + intros ? [= <-]. rewrite lookup_insert_ne by (intros E; apply Hother; f_equal; exact E). by rewrite Hp.
  - split; [|by eexists]. split; simpl; [done| | |].
    + by intros ? [= <-].
    + by apply H3.
    + intros ? [= <-]. by rewrite Hp.
Qed.

Lemma connected_speaks destination version (w w' : W) client :
  connect_ssh destination version w = (w', Done client) → hosts (sc_conn client) = sc_host_id client.
Proof.
  unfold connect_ssh, in_context. intros ([] & w1 & _ & (conn & w2 & _ & H)%step_bind_Done)%step_bind_Done.
  unfold handle in H. destruct (open_session conn version w2) as [w3 [c|e|]] eqn:Ho; [|discriminate H..].
  apply open_speaks in Ho as [Hconn Hhost]. injection H as _ <-. by rewrite Hconn.
Qed.

Lemma keeps_landing r0 client endpoint s :
  hosts (sc_conn client) = sc_host_id client → HostIs (sc_conn client) s →
  rt_parked r0 !! sc_host_id client = None → host_of <$> rt_connection r0 ≠ Some (sc_host_id client) →
  Triple (λ r, Placed r ∧ r0 = r)
    (from_option (λ d, push_navigation (d_id d)) (mret ()) (rt_active r0);;
     from_option (λ c, changing (λ r, set_parked (<[host_of c := c]> (rt_parked r)) (set_connection None r))) (mret ())
       (rt_connection r0);;
     changing (set_connection (Some {| hc_client := client; hc_endpoint := endpoint |}));;
     rebuild_display_host_aliases;;
     focus (s_descriptor s);;
     ensure_event_cursor (d_id (s_descriptor s));;
     mret s)
    (λ _, Placed).
Proof.
  intros Hconn Hs Hfree Hother.
  apply (triple_bind _ _ (λ _ r, Placed r ∧ rt_connection r = rt_connection r0 ∧ rt_parked r = rt_parked r0)).
  - destruct (rt_active r0); simpl.
    + apply triple_changing. intros r [Hr ->]. split_and!; [by apply (placed_same r)|done..].
    + intros r w [Hr ->]. by split_and!.
  - intros [].
    apply triple_assoc. eapply triple_bind; [apply (triple_connect r0 client endpoint (s_descriptor s)); auto|].
    { unfold HostIs in Hs. congruence. }
    intros []. eapply triple_bind; [apply landed_rebuild|]. intros []. apply landed_focus, told_keeps. keeps.
Qed.

Lemma keeps_connect fuel destination requested default_session model prompt :
  Keeps (connect_host pkg_version fuel destination requested default_session model prompt).
Proof.
  unfold connect_host. apply placed_bind; [unfold showing; keeps|]. intros [].
  eapply triple_bind; [apply (triple_world Placed _ (λ c, hosts (sc_conn c) = sc_host_id c)); [done|]|].
  { intros w w' c. apply connected_speaks. }
  intros client. eapply triple_bind; [apply triple_runtime|]. intros r0. simpl.
  eapply triple_bind; [apply triple_ensure; naive_solver|]. intros []. simpl.
  eapply triple_bind; [apply (triple_world _ _ (HostIs (sc_conn client)))|].
  { naive_solver. }
  { intros w w' s. apply attach_or_create_speaks. }
  intros s r w [[[[Hr Hconn] ->] He] Hs]. apply andb_true_iff in He as [Hother Hfree].
  rewrite !negb_true_iff, !bool_decide_eq_false in *. apply (keeps_landing r client); auto.
  by apply eq_None_not_Some.
Qed.

(** ** The controller at work *)

(** What the controller does with its sessions. *)
Inductive Operation : Type :=
| OpCatalog
| OpNames
| OpTargets
| OpSwitch (selector : string)
| OpCreate (name : string) (model : ActiveModel) (cwd : string) (history : list (ChatMessage A))
    (persistence : PersistenceMode) (visibility : Visibility)
| OpCreateSibling (name : string)
| OpDetach
| OpCloseCurrent
| OpConnect (fuel : nat) (destination : string) (requested : option string) (default_session : string)
    (model : ActiveModel) (prompt : string)
| OpRemoteCompletion
| OpSync (model : ActiveModel) (cwd : string) (history : list (ChatMessage A))
| OpSubmit (input : TurnInput) (approval : ApprovalPolicy) (limits : TurnLimits) (policy : option PolicyConfig)
| OpViewSource (path : string)
| OpPtyStart (command : string) (size : PtySize) (terminal_type : option string)
| OpPtyStartStream (command : string) (size : PtySize) (terminal_type : option string)
| OpPtyAttach
| OpPtyAttachIfPresent
| OpPtyClose
| OpRunning
| OpRememberPty (cursor : N)
| OpEvents (wait_ms : N)
| OpJournal
| OpAcknowledge (sequence : N)
| OpRedraw
| OpApprove (turn_id call_id : string) (decision : ApprovalDecision)
| OpRefresh
| OpTakeFinished
| OpMarkFinished
| OpStop.

Definition done {B} (m : M B) : M () := m;; mret ().

Definition perform (o : Operation) : M () :=
  match o with
  | OpCatalog => done catalog
  | OpNames => done session_names
  | OpTargets => done session_targets
  | OpSwitch selector => done (switch_to selector)
  | OpCreate name model cwd history persistence visibility =>
      done (create_session name model cwd history persistence visibility)
  | OpCreateSibling name => done (create_sibling name)
  | OpDetach => done detach_session
  | OpCloseCurrent => done close_current_and_fallback
  | OpConnect fuel destination requested default_session model prompt =>
      done (connect_host pkg_version fuel destination requested default_session model prompt)
  | OpRemoteCompletion => done (remote_completion_client pkg_version)
  | OpSync model cwd history => sync model cwd history
  | OpSubmit input approval limits policy => done (submit_turn input approval limits policy)
  | OpViewSource path => done (view_source_here path)
  | OpPtyStart command size terminal_type => done (pty_start_here command size terminal_type)
  | OpPtyStartStream command size terminal_type => pty_start_stream command size terminal_type
  | OpPtyAttach => pty_attach_stream
  | OpPtyAttachIfPresent => done pty_attach_stream_if_present
  | OpPtyClose => pty_close_current
  | OpRunning => done active_interactive_running
  | OpRememberPty cursor => remember_pty_cursor cursor
  | OpEvents wait_ms => done (events_here wait_ms)
  | OpJournal => done journal
  | OpAcknowledge sequence => acknowledge_event sequence
  | OpRedraw => done take_redraw
  | OpApprove turn_id call_id decision => approve_here turn_id call_id decision
  | OpRefresh => done refresh_snapshot
  | OpTakeFinished => done take_finished_turn
  | OpMarkFinished => mark_turn_finished
  | OpStop => done stop_current_activity
  end.

Lemma keeps_done {B} (m : M B) : Keeps m → Keeps (done m).
Proof. intros Hm. unfold done. apply placed_bind; [exact Hm|]. intros _. keeps. Qed.

#[local] Hint Resolve keeps_done keeps_create keeps_create_sibling keeps_detach keeps_close keeps_connect keeps_sync
  keeps_stop keeps_pty_start_stream keeps_pty_attach keeps_finished keeps_submit keeps_attach_if keeps_running
  keeps_remember : keeps.

Lemma keeps_perform o : Keeps (perform o).
Proof.
  destruct o; unfold perform; try apply keeps_done; try solve [eauto 1 with keeps nocore];
    unfold session_names, session_targets, remote_completion_client, view_source_here, pty_start_here, events_here, journal,
      acknowledge_event, take_redraw, approve_here, mark_turn_finished; keeps.
Qed.

(** A controller at work: each operation ended, well or with an error, and the
    world went on by itself before the next one. *)
Inductive Works (r : Runtime) : Runtime → Prop :=
| works_start : Works r r
| works_step r1 r2 o w w' out :
    Works r r1 → perform o (r1, w) = ((r2, w'), out) → out ≠ Panic → Works r r2.

Lemma works_placed r r' : Placed r → Works r r' → Placed r'.
Proof.
  intros Hr Hw. induction Hw as [|r1 r2 o w w' out _ IH Ho Hout]; [done|].
  pose proof (keeps_perform o r1 w IH) as Hends. unfold ends in Hends. rewrite Ho in Hends. by destruct out.
Qed.

Lemma start_placed config name model cwd history (w w' : W) r s :
  start pkg_version env config name model cwd history w = (w', Done (r, s)) → Placed r.
Proof.
  assert (Placed disabled) as Hdisabled by by split.
  unfold start. destruct (negb _); [by intros [= _ <- _]|]. intros (socket & w1 & _ & H)%step_bind_Done.
  unfold handle in H. destruct (connect socket pkg_version w1) as [w2 [client|e|]] eqn:Hc; [| |discriminate H].
  - apply step_bind_Done in H as (s' & w3 & Hs%attach_or_create_speaks & H).
    apply step_bind_Done in H as (cursor & w4 & _ & H). apply step_bind_Done in H as (w5 & w6 & _ & H).
    set (r0 := Build_SessionRuntime _ _ _ _ _ _ _ _ _) in H.
    assert (Placed r0) as Hr0.
    { assert (hosts (sc_conn client) = sc_host_id client) as Hhost.
      { unfold connect in Hc. apply step_bind_Done in Hc as (conn & w7 & _ & Ho).
        apply open_speaks in Ho as [Hconn Hid]. by rewrite Hconn. }
      split; simpl; [| |done|done].
      - intros ? [= <-]. eexists. split; [done|]. unfold host_of. simpl. unfold HostIs in Hs. congruence.
      - by intros ? [= <-]. }
    pose proof (keeps_rebuild_placed r0 w5 Hr0) as Hends. unfold ends in Hends.
    destruct (rebuild_display_host_aliases (r0, w5)) as [[r1 w7] [[]|e|]]; [|done..].
    by injection H as _ <- _.
  - destruct (sf_required config); [discriminate H|]. by injection H as _ <- _.
Qed.
End hosts.

Section controller.
Context {A Conn W : Type} `{!SessionWire A Conn W, !SessionNet Conn W, !Terminal W, !EqDecision A}.
Context (pkg_version : string) (env : Environment) (hosts : Conn → string).
Implicit Types (r : SessionRuntime Conn) (w : W).

(** C33: Sessions stay with their hosts: whatever the controller has done since
    it was started (looking at catalogs, switching and creating sessions,
    closing them and falling back, connecting to other hosts, whether it
    succeeded or failed), the session in focus is on the connection in use,
    every other connection is kept under the host it leads to, and no host has
    two. So no request of the session in focus goes to another host. Daemons
    are taken to describe themselves and their sessions by their own host. *)
Theorem sessions_stay_with_their_hosts config name model cwd (history : list (ChatMessage A)) w w' r r' s :
  (∀ conn n w bytes w' (a : ServerResponse A), read_line conn n w = (inr bytes, w') →
    response_from_slice bytes = inr a → Speaks (hosts conn) a) →
  start pkg_version env config name model cwd history w = (w', Done (r, s)) →
  Works (A := A) (W := W) pkg_version r r' →
  (∀ d, rt_active r' = Some d → ∃ c, rt_connection r' = Some c ∧ hosts (client_conn c) = d_host_id d) ∧
  (∀ host c, rt_parked r' !! host = Some c → hosts (client_conn c) = host) ∧
  (∀ c host c', rt_connection r' = Some c → rt_parked r' !! host = Some c' → hosts (client_conn c') ≠ hosts (client_conn c)).
Proof.
  intros Hhonest Hs%(start_placed _ _ hosts Hhonest) Hw. destruct (works_placed _ hosts Hhonest _ _ Hs Hw) as [H1 H2 H3 H4]. split_and!.
  - intros d Hd. destruct (H1 d Hd) as (c & Hc & Hd'). exists c. split; [done|]. by rewrite Hd', H2.
  - intros host c Hc. by destruct (H3 _ _ Hc).
  - intros c host c' Hc Hc'. destruct (H3 _ _ Hc') as [_ ->]. rewrite (H2 _ Hc). intros ->. by rewrite (H4 _ Hc) in Hc'.
Qed.

(** What [stop_current_activity] leaves once it has asked for the end of a
    turn, which goes on: the turn is forgotten, nobody adopts what it did, and
    the next [sync] puts the local conversation in the place of the daemon's. *)
Lemma stop_forgets_the_turn r w r1 w1 :
  stop_current_activity (A := A) (r, w) = ((r1, w1), Done "agent turn cancellation requested") →
  (∀ w, take_finished_turn (A := A) (r1, w) = ((r1, w), Done None)) ∧
  ∃ d, rt_active r1 = Some d ∧ d_activity d = ActIdle ∧
    ∀ model cwd (history : list (ChatMessage A)) w,
      sync model cwd history (r1, w) =
      (d' ← on_client (λ conn, update conn (d_id d) (to_session_binding model) cwd history); focus d') (r1, w).
Proof.
  unfold stop_current_activity. intros (s & [r2 w2] & Hs & H)%step_bind_Done.
  assert (rt_active r2 = Some (s_descriptor s)) as Hd.
  { apply step_bind_Done in Hs as (id & [r3 w3] & _ & Hs). apply step_bind_Done in Hs as (s0 & [r4 w4] & _ & Hs).
    by injection Hs as <- <- <-. }
  destruct (d_activity (s_descriptor s)) as [|turn_id phase|command attached]; [discriminate H| |].
  - apply step_bind_Done in H as ([] & [r3 w3] & Hc & H). injection H as <- <-.
    assert (rt_active r3 = rt_active r2) as H3.
    { unfold on_client in Hc. apply step_bind_Done in Hc as (r4 & [r5 w5] & Hget & Hc). injection Hget as ? ? ?. subst.
      destruct (rt_connection _); [|discriminate Hc]. unfold in_world, zoom in Hc. cbn in Hc.
      destruct (cancel _ _ _ _) as [w6 o]. by injection Hc as <- _ _. }
    simpl. rewrite H3, Hd. simpl. split; [by intros w'|]. eexists. split; [done|]. split; [done|]. by intros.
  - apply step_bind_Done in H as ([] & [r3 w3] & _ & H). discriminate H.
Qed.

End controller.

(** ** Repairing other hosts *)

(** A property of the world that computations leave. *)
Definition Spared {W S} (I : W → Prop) (part : S → W) (s s' : S) : Prop := I (part s) → I (part s').
#[export] Instance spared_preorder {W S} (I : W → Prop) (part : S → W) : PreOrder (Spared I part).
Proof. split; [intros s Hs; exact Hs|]. intros s1 s2 s3 H1 H2 Hs. by apply H2, H1. Qed.

Lemma spares_ask {W B} (I : W → Prop) (f : W → B * W) :
  (∀ w, I w → I (f w).2) → leaves (Spared I id) (ask f : Step W string B).
Proof. intros Hf w Hw. unfold ask. specialize (Hf w Hw). by destruct (f w). Qed.

Section spares.
Context {W R : Type} (I : W → Prop).
Abbreviation M := (Step (SessionRuntime R * W) string).

Lemma spares_world {B} (m : Step W string B) : leaves (Spared I id) m → leaves (Spared I snd) (in_world m : M B).
Proof. apply leaves_zoom. intros s w Hw. exact Hw. Qed.
Lemma spares_runtime : leaves (Spared I snd) (the_runtime : M _).
Proof. intros s Hw. exact Hw. Qed.
Lemma spares_changing f : leaves (Spared I snd) (changing f : M ()).
Proof. intros s Hw. exact Hw. Qed.
End spares.

#[export] Hint Resolve spares_world spares_runtime spares_changing : leaves.

Ltac spares := repeat first
  [ progress (intros; cbn beta iota)
  | solve [eauto 1 with leaves nocore]
  | apply leaves_ret | apply leaves_throw | apply leaves_lift | apply leaves_ensure
  | apply leaves_bind | apply leaves_handle | apply spares_world
  | match goal with |- leaves _ (from_option _ _ ?x) => destruct x; cbn [from_option]
                  | |- leaves _ (if ?b then _ else _) => destruct b
                  | |- leaves _ (match ?x with _ => _ end) => destruct x end ].

Section consent.
Context {A Conn W : Type} `{!SessionWire A Conn W, !SessionNet Conn W, !Terminal W, !EqDecision A}.
Context (pkg_version : string) (I : W → Prop).

(** No prompt is answered with a yes. *)
Definition NeverYes : Prop :=
  ∀ w w' answer, read_answer w = (inr answer, w') → to_ascii_lowercase (trim answer) ∉ ["y"; "yes"].

(** What leaves [I]: all but service commands. *)
Record Undisturbed : Prop := {
  un_print line w : I w → I (print line w);
  un_eprint line w : I w → I (eprint line w);
  un_terminal w : I w → I (stdin_is_terminal w).2;
  un_answer w : I w → I (read_answer w).2;
  un_write conn (rq : ClientRequest A) w : I w → I (write_request conn rq w).2;
  un_read (conn : Conn) n w : I w → I (read_line (A := A) conn n w).2;
  un_ssh args w : I w → I (ssh_connection (Conn := Conn) args w).2;
  un_run args timeout w : I w → (∀ host repair, args ≠ ["-T"; "--"; host] ++ remote_command repair) →
    I (ssh_run (Conn := Conn) args timeout w).2;
}.

Context (never_yes : NeverYes) (undisturbed : Undisturbed).

Lemma leaves_print line : leaves (Spared I id) (modify (print line) : Step W string ()).
Proof. apply leaves_modify. intros w. exact (un_print undisturbed line w). Qed.
Lemma leaves_eprint line : leaves (Spared I id) (modify (eprint line) : Step W string ()).
Proof. apply leaves_modify. intros w. exact (un_eprint undisturbed line w). Qed.
Lemma leaves_terminal : leaves (Spared I id) (ask stdin_is_terminal : Step W string bool).
Proof. apply spares_ask, (un_terminal undisturbed). Qed.
Lemma leaves_asking {B} (f : W → (string + B) * W) message : (∀ w, I w → I (f w).2) → leaves (Spared I id) (asking f message).
Proof. intros Hf. unfold asking. apply leaves_bind; [by apply spares_ask|]. spares. Qed.
#[local] Hint Resolve leaves_print leaves_eprint leaves_terminal : leaves.

Lemma leaves_exchange {B} conn operation rq (expected : ServerResponse A → option B) :
  leaves (Spared I id) (exchange conn operation rq expected).
Proof.
  unfold exchange, send, receive, response_error.
  apply leaves_bind; [apply leaves_bind; [apply spares_ask, (un_write undisturbed)|spares]|]. intros _.
  apply leaves_bind; [apply leaves_bind; [apply spares_ask, (un_read undisturbed)|spares]|]. spares.
Qed.
Lemma leaves_open conn version : leaves (Spared I id) (open_session conn version).
Proof.
  unfold open_session, send, receive, response_error.
  apply leaves_bind; [apply leaves_bind; [apply spares_ask, (un_write undisturbed)|spares]|]. intros _.
  apply leaves_bind; [apply leaves_bind; [apply spares_ask, (un_read undisturbed)|spares]|]. spares.
Qed.
#[local] Hint Resolve leaves_exchange leaves_open : leaves.

Lemma leaves_connect_ssh destination : leaves (Spared I id) (connect_ssh destination pkg_version).
Proof.
  unfold connect_ssh, in_context. apply leaves_bind; [spares|]. intros _.
  apply leaves_bind; [apply leaves_asking, (un_ssh undisturbed)|]. spares.
Qed.

Lemma leaves_probe destination : leaves (Spared I id) (probe_ssh destination).
Proof.
  unfold probe_ssh, run_bounded_ssh. apply leaves_bind; [spares|]. intros _. apply leaves_bind; [|spares].
  apply leaves_bind; [|spares]. apply leaves_asking. intros w Hw. apply (un_run undisturbed); [done|]. by intros host [].
Qed.
#[local] Hint Resolve leaves_connect_ssh leaves_probe : leaves.

(** A question that is not answered with a yes is not answered with [true]. *)
Lemma asked fuel destination repair w :
  I w → I (ask_repair fuel destination repair w).1 ∧ (ask_repair fuel destination repair w).2 ≠ Done true.
Proof.
  revert w. induction fuel as [|fuel IH]; intros w Hw; [done|]. simpl. unfold asking, ask, mbind, Step_bind. simpl.
  match goal with |- context [print ?question w] => pose proof (un_print undisturbed question w Hw) as Hw1;
    set (w1 := print question w) in * end.
  pose proof (un_answer undisturbed w1 Hw1) as Hw2. pose proof (never_yes w1) as Hno. simpl.
  destruct (read_answer w1) as [[e|answer] w2]; simpl in *; [done|]. specialize (Hno w2 answer eq_refl).
  case_bool_decide; [done|]. rewrite bool_decide_eq_false_2 by done. case_bool_decide; [done|].
  apply IH, (un_eprint undisturbed), Hw2.
Qed.

Lemma confirmed fuel destination repair w :
  I w → I (confirm_remote_repair fuel destination repair w).1 ∧ (confirm_remote_repair fuel destination repair w).2 ≠ Done true.
Proof.
  intros Hw. unfold confirm_remote_repair, mbind, Step_bind, ask. pose proof (un_terminal undisturbed w Hw) as Hw1.
  destruct (stdin_is_terminal w) as [[] w1]; simpl in *; [by apply asked|done].
Qed.

Lemma leaves_prepare fuel destination a : leaves (Spared I id) (prepare_remote_host fuel destination a).
Proof.
  unfold prepare_remote_host. destruct (for_action a) as [repair|]; [|spares].
  apply leaves_bind; [unfold describe_repair; spares|]. intros _ w Hw. unfold mbind at 1, Step_bind at 1.
  destruct (confirmed fuel destination repair w Hw) as [Hw1 Hno].
  destruct (confirm_remote_repair fuel destination repair w) as [w1 [[]|e|]]; simpl in *; done.
Qed.
#[local] Hint Resolve leaves_prepare : leaves.

Lemma leaves_list_sessions conn : leaves (Spared I id) (list_sessions conn).
Proof. apply leaves_exchange. Qed.
Lemma leaves_attach_or_create conn c : leaves (Spared I id) (attach_or_create conn c).
Proof. unfold attach_or_create, list_sessions, attach, create. spares. Qed.
#[local] Hint Resolve leaves_attach_or_create : leaves.

Lemma leaves_connect_host fuel destination requested default_session model prompt :
  leaves (Spared I snd) (connect_host pkg_version fuel destination requested default_session model prompt).
Proof.
  unfold connect_host, showing, rebuild_display_host_aliases, ensure_event_cursor, on_client, focus, push_navigation,
    initial_event_cursor, events. spares.
Qed.
End consent.

(** C34: The daemon of another host is started or restarted only with consent:
    as long as no question is answered with "y" or "yes" (there may be no
    terminal to ask on, the input may have ended, or other answers were given),
    connecting to a host leaves every property of the world that printing,
    asking, talking to daemons, and running ssh with anything but a service
    command leave. *)
Theorem repairs_need_consent {A Conn W} `{!SessionWire A Conn W, !SessionNet Conn W, !Terminal W, !EqDecision A}
    (I : W → Prop) pkg_version fuel destination requested default_session model prompt
    (r : SessionRuntime Conn) w :
  NeverYes (W := W) → Undisturbed (A := A) (Conn := Conn) I → I w →
  I (connect_host (A := A) pkg_version fuel destination requested default_session model prompt (r, w)).1.2.
Proof. intros Hno Hun Hw. by apply (leaves_connect_host pkg_version I Hno Hun). Qed.

(** ** Examples *)

(** Daemons that answer their requests one after another, whatever is asked:
    here they are opened, have no sessions, create one, tell of its events, and
    of its end. Their lines start with the number of the answer and their host. *)
Definition told_session (host : string) : SessionDescriptor := {|
  d_id := "session-1"; d_name := "main"; d_host_id := host; d_host_alias := host; d_user := "rich";
  d_model := {| mb_profile_name := None; mb_provider := "ollama"; mb_model := "m"; mb_base_url := "http://localhost:1";
    mb_api_key_env := None; mb_max_history_bytes := None; mb_context_tokens := None; mb_reserve_output_tokens := None |};
  d_cwd := "/home/rich"; d_persistence := PersistDaemon; d_visibility := Fabric; d_access_mode := SingleUser;
  d_status := Attached; d_activity := ActIdle; d_attached_clients := 1; d_created_at_unix_ms := 0;
  d_last_active_at_unix_ms := 0 |}.

Definition told (number : nat) (host : string) : ServerResponse () :=
  match number with
  | 0 => RsOpened SESSION_PROTOCOL_VERSION "client-1" host host "rich"
  | 1 => RsCatalog []
  | 2 => RsCreated {| s_descriptor := told_session host; s_history := [] |}
  | 3 => RsEvents {| eb_events := []; eb_truncated_before := None; eb_next_sequence := 1; eb_active_turn_id := None |}
  | _ => RsSnapshot {| s_descriptor := set_activity (ActAgentTurn "turn-1" PhaseRunning) (told_session host); s_history := [] |}
  end.

#[local] Instance telling_wire : SessionWire () string nat := {|
  write_request _ _ n := (None, n);
  read_line conn _ n := (inr (Ascii.ascii_of_nat n :: chars conn ++ [newline]), S n);
  response_from_slice bytes :=
    match bytes with c :: l => inr (told (Ascii.nat_of_ascii c) (of_chars (removelast l))) | [] => inl "" end;
  response_debug _ := "" |}.
#[local] Instance telling_net : SessionNet string nat := {|
  connect_socket _ n := (inr "host-1", n); ssh_connection _ n := (inl "no ssh", n); ssh_run _ _ n := (inl "no ssh", n);
  probe_report_from_slice _ := inl "" |}.
#[local] Instance telling_terminal : Terminal nat := {|
  print _ n := n; eprint _ n := n; stdin_is_terminal n := (false, n); read_answer n := (inr "", n); sanitized s := s;
  open_stream _ _ _ n := (None, n); map_order l := l |}.

Definition sample_environment : Environment := {| xdg_state_home := None; home := Some "/home/rich"; xshell_config := None |}.
Definition sample_active_model : ActiveModel := {|
  am_profile_name := None; am_provider := Ollama; am_model := "m"; am_base_url := "http://localhost:1";
  am_api_key_env := None; am_max_history_bytes := None; am_context_tokens := None; am_reserve_output_tokens := None |}.

Lemma told_speaks number host : Speaks host (told number host).
Proof. by destruct number as [|[|[|[|number]]]]. Qed.

Definition sample_session_config : SessionConfig := {|
  sf_enabled := true; sf_required := true; sf_host_alias := None; sf_socket := None; sf_state_directory := None;
  sf_default_session := "default"; sf_pty_escape := "ctrl-]"; sf_max_approval := Ask;
  sf_sensitive_paths := None; sf_compaction := config_default; sf_max_limits := limit_settings_default;
  sf_approval_policy := policy_config_default; sf_sensitivity := [] |}.

Definition started : nat * Outcome string (SessionRuntime string * option (SessionSnapshot ())) :=
  start "1.0" sample_environment sample_session_config None sample_active_model "/home/rich" [] 0.
Definition started_runtime : SessionRuntime string := match started.2 with Done (r, _) => r | _ => disabled end.
Definition resumed : (SessionRuntime string * nat) * Outcome string () :=
  perform (A := ()) "1.0" OpRefresh (started_runtime, 4).

Lemma sessions_stay_with_their_hosts_witness :
  (d_activity <$> rt_active resumed.1.1) = Some (ActAgentTurn "turn-1" PhaseRunning) ∧
  ∃ c, rt_connection resumed.1.1 = Some c ∧ client_conn c = "host-1".
Proof.
  split; [vm_compute; reflexivity|].
  destruct (sessions_stay_with_their_hosts (A := ()) (W := nat) "1.0" sample_environment (λ conn, conn)
    sample_session_config None sample_active_model "/home/rich" [] 0 4 started_runtime resumed.1.1
    (match started.2 with Done (_, s) => s | _ => None end)) as (Hactive & _ & _).
  - intros conn n w bytes w' a Hr Ha. injection Hr as <- _. cbn in Ha. injection Ha as <-.
    rewrite removelast_last, of_chars_chars. apply told_speaks.
  - vm_compute. reflexivity.
  - eapply (works_step _ started_runtime started_runtime _ OpRefresh 4); [constructor|vm_compute; reflexivity|discriminate].
  - destruct (Hactive (default (told_session "host-1") (rt_active resumed.1.1))) as (c & Hc & Hh); [vm_compute; reflexivity|].
    exists c. split; [exact Hc|]. rewrite Hh. vm_compute. reflexivity.
Defined.

(** A host whose daemon is not running, and a world that counts the service
    commands. *)
Definition absent_daemon : DaemonProbeReport := {|
  dp_schema_version := 1; dp_binary_version := "1.0"; dp_supported_protocol_version := SESSION_PROTOCOL_VERSION;
  dp_daemon := ProbeUnavailable "no daemon" |}.

Definition is_service (args : list string) : bool :=
  match args with
  | _ :: _ :: host :: command =>
      bool_decide (args = ["-T"; "--"; host] ++ remote_command RepairStart) ||
      bool_decide (args = ["-T"; "--"; host] ++ remote_command RepairRestart)
  | _ => false
  end.

Lemma service_commands args : is_service args = true → ∃ host repair, args = ["-T"; "--"; host] ++ remote_command repair.
Proof.
  destruct args as [|? [|? [|host command]]]; try discriminate 1. simpl. rewrite orb_true_iff, !bool_decide_eq_true.
  intros [->| ->]; by do 2 eexists.
Qed.

#[local] Instance silent_wire : SessionWire () string nat := {|
  write_request _ _ n := (None, n); read_line _ _ n := (inl "closed", n); response_from_slice _ := inl ""; response_debug _ := "" |}.
#[local] Instance remote_net : SessionNet string nat := {|
  connect_socket _ n := (inl "", n); ssh_connection _ n := (inl "no ssh", n);
  ssh_run args _ n := (inr {| ssh_status := Some (inr {| exit_code := Some 0%Z; exit_text := "exit status: 0" |});
                              ssh_stdout := inr [] |}, if is_service args then S n else n);
  probe_report_from_slice _ := inr absent_daemon |}.
Definition answering (answer : string) : Terminal nat := {|
  print _ n := n; eprint _ n := n; stdin_is_terminal n := (true, n); read_answer n := (inr answer, n); sanitized s := s;
  open_stream _ _ _ n := (None, n); map_order l := l |}.

Definition connecting (answer : string) : (SessionRuntime string * nat) * Outcome string (SessionSnapshot ()) :=
  connect_host (A := ()) (Terminal0 := answering answer) "1.0" 2 "orchard" None "main" sample_active_model "" (disabled, 0).

Lemma repairs_need_consent_witness : (connecting "no").1.2 = 0 ∧ (connecting "Yes ").1.2 = 1.
Proof.
  split; [|vm_compute; reflexivity].
  apply (repairs_need_consent (A := ()) (Conn := string) (Terminal0 := answering "no") (λ n, n = 0) "1.0" 2 "orchard" None "main" sample_active_model ""
    disabled 0).
  - intros w w' answer [= <- <-]. apply (proj1 (bool_decide_eq_false _)). vm_compute. reflexivity.
  - split; try (intros; assumption). intros args timeout w Hw Hargs. simpl. destruct (is_service args) eqn:Hs; [|exact Hw].
    apply service_commands in Hs as (host & repair & ->). by destruct (Hargs host repair).
  - reflexivity.
Defined.

(** ** Labels of hosts *)

Lemma distinct_prefix_takes id colliding n fuel m :
  distinct_prefix id colliding n fuel = Done m →
  m = String.length id ∨ length (List.filter (has_prefix (take m (chars id))) colliding) = 1.
Proof.
  revert n. induction fuel as [|fuel IH]; intros n; simpl; [intros [= <-]; by left|].
  destruct (negb _); [done|]. case_bool_decide; [intros [= <-]; by right|apply IH].
Qed.

Lemma two_have_prefix prefix colliding id1 id2 :
  id1 ∈ colliding → id2 ∈ colliding → id1 ≠ id2 → has_prefix prefix id1 = true → has_prefix prefix id2 = true →
  length (List.filter (has_prefix prefix) colliding) ≠ 1.
Proof.
  intros H1 H2 Hne Hp1 Hp2 Hl.
  assert (id1 ∈ List.filter (has_prefix prefix) colliding) as Hin1 by (by apply list_elem_of_In, filter_In; rewrite <-list_elem_of_In).
  assert (id2 ∈ List.filter (has_prefix prefix) colliding) as Hin2 by (by apply list_elem_of_In, filter_In; rewrite <-list_elem_of_In).
  destruct (List.filter _ _) as [|x [|y l]]; simpl in Hl; [lia| |lia].
  apply list_elem_of_singleton in Hin1, Hin2. congruence.
Qed.

Lemma prefix_of_own n id : has_prefix (take n (chars id)) id = true.
Proof.
  apply bool_decide_eq_true. rewrite length_take. destruct (decide (n ≤ length (chars id))).
  - by rewrite Nat.min_l.
  - by rewrite Nat.min_r, !take_ge by lia.
Qed.

Lemma own_prefixes_equal id1 id2 n1 n2 colliding :
  id1 ∈ colliding → id2 ∈ colliding →
  n1 = String.length id1 ∨ length (List.filter (has_prefix (take n1 (chars id1))) colliding) = 1 →
  n2 = String.length id2 ∨ length (List.filter (has_prefix (take n2 (chars id2))) colliding) = 1 →
  take n1 (chars id1) = take n2 (chars id2) → id1 = id2.
Proof.
  intros Hin1 Hin2 H1 H2 Htake. destruct (decide (id1 = id2)) as [|Hne]; [done|exfalso].
  pose proof (prefix_of_own n1 id1) as Hp1. pose proof (prefix_of_own n2 id2) as Hp2. rewrite Htake in H1, Hp1.
  destruct H1 as [->|H1]; [|exact (two_have_prefix _ _ _ _ Hin1 Hin2 Hne Hp1 Hp2 H1)].
  destruct H2 as [->|H2]; [|exact (two_have_prefix _ _ _ _ Hin1 Hin2 Hne Hp1 Hp2 H2)].
  rewrite !take_ge in Htake by (by rewrite length_chars). apply Hne. by rewrite <-(of_chars_chars id1), Htake, of_chars_chars.
Qed.

Lemma inserted_lookup (l : list (string * string)) (m : gmap string string) k v :
  NoDup l.*1 → (k, v) ∈ l ∨ (k ∉ l.*1 ∧ m !! k = Some v) →
  foldl (λ m label, <[label.1 := label.2]> m) m l !! k = Some v.
Proof.
  revert m. induction l as [|[k' v'] l IH]; intros m Hl; simpl; [by intros [?%not_elem_of_nil|[_ ?]]|].
  apply NoDup_cons in Hl as [Hk' Hl]. intros [[[= -> ->]|Hin]%elem_of_cons|[Hk Hm]]; apply IH; try done.
  - right. split; [done|]. apply lookup_insert_eq.
  - by left.
  - apply not_elem_of_cons in Hk as [Hne Hk]. right. split; [done|]. by rewrite lookup_insert_ne.
Qed.

(** Hosts of the same alias are shown under different labels: whatever the
    hosts are that the controller is connected to, two of them with one alias
    get labels that differ, so no name of a session stands for two. *)
Lemma labels_tell_hosts_apart (hosts : list (string * string)) labels id1 id2 alias :
  NoDup hosts.*1 → disambiguate_host_aliases hosts = Done labels →
  (id1, alias) ∈ hosts → (id2, alias) ∈ hosts → id1 ≠ id2 →
  ∃ label1 label2, labels !! id1 = Some label1 ∧ labels !! id2 = Some label2 ∧ label1 ≠ label2.
Proof.
  intros Hnd Hlabels Hin1 Hin2 Hne. unfold disambiguate_host_aliases in Hlabels.
  destruct (outcome_map (host_label hosts) hosts) as [l| |] eqn:Hl; try discriminate Hlabels. injection Hlabels as <-.
  apply outcome_map_Done in Hl.
  set (colliding := fst <$> filter (λ h, h.2 = alias) hosts).
  assert (∀ id, (id, alias) ∈ hosts → id ∈ colliding) as Hcolliding.
  { intros id Hin. apply list_elem_of_fmap. exists (id, alias). split; [done|]. by apply list_elem_of_filter. }
  assert (length colliding ≠ 1) as Hmany.
  { pose proof (Hcolliding _ Hin1) as H1. pose proof (Hcolliding _ Hin2) as H2. destruct colliding as [|x [|y c]]; simpl; [lia| |lia].
    apply list_elem_of_singleton in H1, H2. congruence. }
  assert (l.*1 = hosts.*1) as Hkeys.
  { clear -Hl. induction Hl as [|[id a] [k v] hs l Hh _ IH]; [done|]. simpl. f_equal; [|exact IH]. unfold host_label in Hh.
    case_bool_decide; [by injection Hh as <-|]. destruct (distinct_prefix _ _ _ _); [|discriminate Hh..]. by injection Hh as <-. }
  assert (∀ id, (id, alias) ∈ hosts → ∃ n, (id, alias +:+ "#" +:+ of_chars (take n (chars id))) ∈ l ∧
    (n = String.length id ∨ length (List.filter (has_prefix (take n (chars id))) colliding) = 1)) as Hlabel.
  { intros id [i Hi]%list_elem_of_lookup. destruct (Forall2_lookup_l _ _ _ _ _ Hl Hi) as ([k v] & Hk & Hh).
    unfold host_label in Hh. rewrite bool_decide_eq_false_2 in Hh by exact Hmany.
    destruct (distinct_prefix _ _ _ _) as [n| |] eqn:Hn; try discriminate Hh. injection Hh as <- <-.
    exists n. split; [by eapply list_elem_of_lookup_2|]. by eapply distinct_prefix_takes. }
  destruct (Hlabel _ Hin1) as (n1 & Hl1 & Hn1). destruct (Hlabel _ Hin2) as (n2 & Hl2 & Hn2).
  rewrite <-Hkeys in Hnd. do 2 eexists. split_and!; [by apply inserted_lookup; [|left]..|].
  intros E%(inj (String.append alias))%(inj (String.append "#"))%(f_equal chars). rewrite !chars_of_chars in E. apply Hne. eapply own_prefixes_equal; eauto.
Qed.

Lemma labels_tell_hosts_apart_witness :
  let hosts := [("0123456789ab", "box"); ("fedcba987654", "den"); ("0123456799ab", "box")] in
  ∃ labels label1 label2, disambiguate_host_aliases hosts = Done labels ∧
    labels !! "0123456789ab" = Some label1 ∧ labels !! "0123456799ab" = Some label2 ∧ label1 ≠ label2.
Proof.
  intros hosts.
  assert (disambiguate_host_aliases hosts = Done {["0123456789ab" := "box#012345678"; "fedcba987654" := "den";
    "0123456799ab" := "box#012345679"]}) as Hl by (vm_compute; reflexivity).
  assert (NoDup hosts.*1) as Hnd by (apply (bool_decide_eq_true (NoDup hosts.*1)); vm_compute; reflexivity).
  destruct (labels_tell_hosts_apart hosts _ "0123456789ab" "0123456799ab" "box" Hnd Hl) as (label1 & label2 & H);
    [by left|by do 2 right; left|discriminate|].
  eexists _, label1, label2. split; [exact Hl|exact H].
Defined.

(** The prefixes are cut by bytes: a daemon that is known by an alias already
    taken and whose id is not of ASCII characters ends the controller. *)
Lemma foreign_host_id_panics :
  disambiguate_host_aliases [("0123456789ab", "box"); ("0123456é", "box")] = Panic.
Proof. vm_compute. reflexivity. Qed.
