(* ===== verification/Headless.v ===== *)
(** Turns without a terminal ([crates/xshell-cli/src/headless.rs]): [xshell run],
    [wait], [status], [result] and [cancel], which submit a turn or find one,
    follow its events, decide its approvals, and end with an exit code.

    The daemon is behind [SessionClient]. What a run takes from its process -
    signals, the clock, standard output, the approval channel - is
    [HeadlessHost]; serde's JSON of what events carry is
    [RunValues] and [RunLines]. *)
From Stdlib Require Import Ascii.
From S2P Require Import Markdown AuditModel.
From S2P Require Import Prelude Sensitive Policy Budget Compaction CallId Chat Tools Engine Effects FlowDot PlanHash.
From S2P Require Import AuditLog SessionModel Registry Execution PtyStream Pty Turns Completion SourceView Release Configs Requests.
From S2P Require Import SessionClient Controller.

Definition SCHEMA_VERSION : N := 1.
Definition POLL_WAIT_MS : N := 250.

Inductive OutputFormat : Type := OutText | OutJsonl.

Record RunArgs := {
  ra_prompt : option string;
  ra_prompt_file : option string;
  ra_ephemeral : bool;
  ra_detach : bool;
  ra_approval_channel : option Z;
  ra_output : OutputFormat;
}.

Inductive JobCommand : Type := JobWait | JobStatus | JobResult | JobCancel.
#[export] Instance JobCommand_eq_dec : EqDecision JobCommand.
Proof. solve_decision. Defined.

Record SharedOptions := {
  so_config : option string;
  so_profile : option string;
  so_overrides : ModelOverrides;
  so_system_prompt : string;
  so_session : option string;
  so_cwd : string;
  so_approval : ApprovalPolicy;
  so_limits : option string;
  so_approval_policy : option string;
}.

Inductive RunOutcome : Type :=
| RoCompleted | RoFailed | RoUsage | RoBudgetExhausted | RoCancelled | RoApprovalDenied | RoUnavailable | RoRunning | RoDetached.
#[export] Instance RunOutcome_eq_dec : EqDecision RunOutcome.
Proof. solve_decision. Defined.

Definition outcome_exit_code (o : RunOutcome) : N :=
  match o with
  | RoCompleted => 0 | RoFailed => 1 | RoUsage => 2 | RoBudgetExhausted => 3 | RoCancelled => 4
  | RoApprovalDenied => 5 | RoUnavailable => 6 | RoRunning => 7 | RoDetached => 0
  end.

Definition outcome_name (o : RunOutcome) : string :=
  match o with
  | RoCompleted => "completed" | RoFailed => "failed" | RoUsage => "usage" | RoBudgetExhausted => "budget_exhausted"
  | RoCancelled => "cancelled" | RoApprovalDenied => "approval_denied" | RoUnavailable => "unavailable"
  | RoRunning => "running" | RoDetached => "detached"
  end.

Record RunError := { re_outcome : RunOutcome; re_error : string }.

Record Summary := {
  su_outcome : option RunOutcome;
  su_message : option string;
  su_answer : string;
  su_session : option string;
  su_session_id : option string;
  su_turn_id : option string;
  su_tool_calls : nat;
  su_approvals_denied : nat;
}.

Definition summary_default : Summary := {|
  su_outcome := None; su_message := None; su_answer := ""; su_session := None; su_session_id := None; su_turn_id := None;
  su_tool_calls := 0; su_approvals_denied := 0 |}.
Definition set_outcome (o : RunOutcome) (s : Summary) : Summary := {|
  su_outcome := Some o; su_message := su_message s; su_answer := su_answer s; su_session := su_session s;
  su_session_id := su_session_id s; su_turn_id := su_turn_id s; su_tool_calls := su_tool_calls s;
  su_approvals_denied := su_approvals_denied s |}.
Definition set_message (m : string) (s : Summary) : Summary := {|
  su_outcome := su_outcome s; su_message := Some m; su_answer := su_answer s; su_session := su_session s;
  su_session_id := su_session_id s; su_turn_id := su_turn_id s; su_tool_calls := su_tool_calls s;
  su_approvals_denied := su_approvals_denied s |}.
Definition set_answer (answer : string) (s : Summary) : Summary := {|
  su_outcome := su_outcome s; su_message := su_message s; su_answer := answer; su_session := su_session s;
  su_session_id := su_session_id s; su_turn_id := su_turn_id s; su_tool_calls := su_tool_calls s;
  su_approvals_denied := su_approvals_denied s |}.
Definition count_tool_call (s : Summary) : Summary := {|
  su_outcome := su_outcome s; su_message := su_message s; su_answer := su_answer s; su_session := su_session s;
  su_session_id := su_session_id s; su_turn_id := su_turn_id s; su_tool_calls := S (su_tool_calls s);
  su_approvals_denied := su_approvals_denied s |}.
Definition count_denial (s : Summary) : Summary := {|
  su_outcome := su_outcome s; su_message := su_message s; su_answer := su_answer s; su_session := su_session s;
  su_session_id := su_session_id s; su_turn_id := su_turn_id s; su_tool_calls := su_tool_calls s;
  su_approvals_denied := S (su_approvals_denied s) |}.

(** How a client follows a turn. *)
Inductive Following : Type := FollowOwner | FollowWaiter | FollowObserver.
#[export] Instance Following_eq_dec : EqDecision Following.
Proof. solve_decision. Defined.

Class HeadlessHost (W : Type) := {
  write_out : string → W → W;
  interrupted : W → bool * W;
  clock_ns : W → N * W;
  unix_now : W → (N * N) * W;
  process_id : W → N;
  read_stdin : W → (string + string) * W;
  fd_open : Z → W → bool * W;
  line_buffered : Z → W → bool * W;
  poll_channel : Z → W → bool * W;
  read_channel : Z → W → option string * W;
}.

Class RunValues (Num : Type) := {
  value_from_str : string → string + Json Num;
  value_debug : Json Num → string;
  number : N → Num;
  limits_json : TurnLimits → Json Num;
  report_json : CompactionReport → Json Num;
  gate_json : GateReason → Json Num;
}.

Class RunLines (A Num W : Type) := {
  write_json : Json Num → W → W;
  arguments_json : A → Json Num;
}.

(** ** Text *)

Definition underscores_to_spaces (s : string) : string := replace_char "_"%char " " s.

(** [str::contains] with a text. *)
Fixpoint contains_text (needle : list ascii) (s : list ascii) : bool :=
  bool_decide (take (length needle) s = needle) || match s with [] => false | _ :: s => contains_text needle s end.

Definition fmt_i32 (z : Z) : string := if (z <? 0)%Z then "-" +:+ fmt_N (Z.to_N (- z)) else fmt_N (Z.to_N z).

(** [{:04x}] of a number of at most 16 bits. *)
Definition hex4 (n : N) : string :=
  of_chars ((λ i, hex_digit (N.shiftr n i mod 16)) <$> [12; 8; 4; 0]%N).

(** ** JSON *)

Section json.
Context {Num : Type}.
Abbreviation Value := (Json Num).

Definition is_null (v : Value) : bool := match v with JNull => true | _ => false end.

Fixpoint without_nulls (v : Value) : Value :=
  match v with
  | JObject values => JObject (omap (λ v, if is_null v then None else Some (without_nulls v)) values)
  | other => other
  end.

(** [json!] of an object, [value["key"]] and [Value::as_str]. *)
Definition object (fields : list (string * Value)) : Value := JObject (list_to_map (rev fields)).
Definition field (v : Value) (key : string) : Value :=
  match v with JObject values => default JNull (values !! key) | _ => JNull end.
Definition as_str (v : Value) : option string := match v with JString s => Some s | _ => None end.
Definition set_field (key : string) (x v : Value) : Value :=
  match v with JObject values => JObject (<[key := x]> values) | v => v end.
Definition optional (o : option string) : Value := from_option JString JNull o.
End json.

Section headless.
Context {A Num W Conn SecretKey PublicKey Signature : Type}.
Context `{!SessionWire A Conn W, !SessionNet Conn W, !Terminal W, !HeadlessHost W, !RunValues Num, !RunLines A Num W, !SessionHost W,
  !Crypto SecretKey PublicKey Signature, !ReleaseCodec SecretKey, !ConfigFile, !ConfigHost W}.
Context (split : string → string + list string) (pkg_version : string).
Abbreviation Value := (Json Num).

(** What a run has: the world, its summary, and whether its approval channel
    has closed ([Responder::closed]). *)
Record Run := {
  run_world : W;
  run_summary : Summary;
  channel_closed : bool;
}.
Abbreviation M := (Step Run RunError).

Definition put_world (w : W) (r : Run) : Run :=
  {| run_world := w; run_summary := run_summary r; channel_closed := channel_closed r |}.

(** [or_outcome]. *)
Definition or_outcome {B} (o : RunOutcome) (r : Outcome string B) : Outcome RunError B :=
  match r with Done b => Done b | Fail e => Fail {| re_outcome := o; re_error := e |} | Panic => Panic end.
Definition failing {B} (o : RunOutcome) (m : Step W string B) : M B := λ r,
  let '(w, b) := m (run_world r) in (put_world w r, or_outcome o b).
(** A call whose error is looked at. *)
Definition attempt {B} (m : Step W string B) : M (string + B) := λ r,
  let '(w, b) := m (run_world r) in
  (put_world w r, match b with Done b => Done (inr b) | Fail e => Done (inl e) | Panic => Panic end).
Definition asks {B} (f : W → B * W) : M B := λ r, let '(b, w) := f (run_world r) in (put_world w r, Done b).
Definition shows (f : W → W) : M () := modify (λ r, put_world (f (run_world r)) r).
Definition summing (f : Summary → Summary) : M () :=
  modify (λ r, {| run_world := run_world r; run_summary := f (run_summary r); channel_closed := channel_closed r |}).
Definition the_summary : M Summary := r ← get; mret (run_summary r).
Definition deciding {B} (o : RunOutcome) (r : Outcome string B) : M B := lift (or_outcome o r).
Definition bail {B} (o : RunOutcome) (e : string) : M B := throw {| re_outcome := o; re_error := e |}.

(** ** Output *)

Section output.
Context (format : OutputFormat).

Definition out_event (v : Value) : W → W :=
  match format with OutJsonl => write_json (A := A) (without_nulls v) | OutText => id end.
Definition out_progress (message : string) : W → W :=
  match format with OutText => eprint ("xshell: " +:+ message) | OutJsonl => id end.
Definition out_warning (message : string) : W → W :=
  match format with
  | OutText => eprint ("xshell: warning: " +:+ message)
  | OutJsonl => out_event (object [("event", JString "warning"); ("message", JString message)])
  end.
Definition out_status (session session_id activity : string) (turn_id : option string) : W → W :=
  match format with
  | OutJsonl => out_event (object [
      ("event", JString "status"); ("schema", JNumber (number SCHEMA_VERSION)); ("session", JString session);
      ("session_id", JString session_id); ("activity", JString activity); ("turn_id", optional turn_id)])
  | OutText => print (session +:+ ": " +:+ underscores_to_spaces activity +:+
                      from_option (λ id, " (turn " +:+ id +:+ ")") "" turn_id)
  end.

Definition result_text (s : Summary) (o : RunOutcome) : W → W := λ w,
  let w := if bool_decide (su_answer s = "") then w else write_out (trim_end (su_answer s)) w in
  match o, su_message s with
  | RoCompleted, _ => w
  | RoRunning, _ =>
      eprint ("xshell: the turn is still running; `xshell wait --session " +:+ default "NAME" (su_session s) +:+
              "` follows it") w
  | RoUsage, Some message => eprint ("xshell: " +:+ message) w
  | _, message =>
      eprint ("xshell: run " +:+ underscores_to_spaces (outcome_name o) +:+
              from_option (λ text, ": " +:+ text) "" message) w
  end.

Definition out_result (s : Summary) : W → W :=
  let o := default RoFailed (su_outcome s) in
  match format with
  | OutJsonl => out_event (object [
      ("event", JString "result"); ("schema", JNumber (number SCHEMA_VERSION)); ("outcome", JString (outcome_name o));
      ("exit_code", JNumber (number (outcome_exit_code o))); ("answer", JString (su_answer s));
      ("message", optional (su_message s)); ("session", optional (su_session s));
      ("session_id", optional (su_session_id s)); ("turn_id", optional (su_turn_id s));
      ("tool_calls", JNumber (number (N.of_nat (su_tool_calls s))));
      ("approvals_denied", JNumber (number (N.of_nat (su_approvals_denied s))))])
  | OutText =>
      if bool_decide (o = RoDetached) then from_option print id (su_session s) else result_text s o
  end.

(** ** Approvals *)

(** [Responder::open]: descriptors below 3 are the standard streams. *)
Definition responder_open (fd : option Z) : M (option Z) :=
  match fd with
  | None => mret None
  | Some fd =>
      if (fd <? 3)%Z then bail RoUsage ("--approval-channel needs a descriptor of 3 or above, not " +:+ fmt_i32 fd)
      else
        is_open ← asks (fd_open fd);
        if is_open : bool then mret (Some fd)
        else bail RoUsage ("--approval-channel " +:+ fmt_i32 fd +:+ " is not an open file descriptor")
  end.

(** The loop that waits for a line; whether it was interrupted. [fuel] bounds
    the polls. *)
Fixpoint await_line (fuel : nat) (channel : Z) : M bool :=
  match fuel with
  | O => lift Panic
  | S fuel =>
      buffered ← asks (line_buffered channel);
      if buffered : bool then mret false
      else
        stop ← asks interrupted;
        if stop : bool then mret true
        else
          ready ← asks (poll_channel channel);
          if ready : bool then mret false else await_line fuel channel
  end.

Definition warn (message : string) : M () := shows (out_warning message).
Definition close_channel : M () :=
  modify (λ r, {| run_world := run_world r; run_summary := run_summary r; channel_closed := true |}).

(** What a reply on the channel decides of the call [call_id]. *)
Definition reply_decides (call_id : string) (reply : Value) : option string + (ApprovalDecision * string) :=
  if negb (bool_decide (as_str (field reply "call_id") = Some call_id)) then inl None
  else
    match as_str (field reply "decision") with
    | Some "approve" => inr (DecideApprove, "approval_channel")
    | Some "deny" => inr (DecideDeny, "approval_channel")
    | Some "abort" => inr (AbortTurn, "approval_channel")
    | other => inl (Some ("unknown approval decision " +:+ debug_option other +:+ "; denied"))
    end.

Definition decide_reply (call_id line : string) : M (ApprovalDecision * string) :=
  match value_from_str (trim line) with
  | inl error =>
      warn ("invalid approval decision " +:+ debug_str line +:+ ": " +:+ error);;
      mret (DecideDeny, "approval_channel_invalid")
  | inr reply =>
      match reply_decides call_id reply with
      | inl None =>
          warn ("the approval channel answered " +:+ value_debug (field reply "call_id") +:+
                ", not the waiting call " +:+ debug_str call_id +:+ "; denied");;
          mret (DecideDeny, "approval_channel_mismatch")
      | inl (Some warning) => warn warning;; mret (DecideDeny, "approval_channel_invalid")
      | inr decision => mret decision
      end
  end.

(** [Responder::decide]. *)
Definition decide_call (fuel : nat) (channel : option Z) (call_id : string) : M (ApprovalDecision * string) :=
  match channel with
  | None => mret (DecideDeny, "no_approval_channel")
  | Some channel =>
      r ← get;
      if channel_closed r then mret (DecideDeny, "approval_channel_closed")
      else
        stopped ← await_line fuel channel;
        if stopped : bool then mret (DecideDeny, "interrupted")
        else
          line ← asks (read_channel channel);
          match line with
          | None =>
              close_channel;;
              warn "the approval channel closed; later prompts are denied";;
              mret (DecideDeny, "approval_channel_closed")
          | Some line => decide_reply call_id line
          end
  end.

(** ** Events *)

Definition approval_display (p : ApprovalPolicy) : string :=
  match p with Ask => "ask before shell execution" | Auto => "auto-run all tools" | Off => "deny shell execution" end.
Definition decision_json (d : ApprovalDecision) : Value :=
  JString match d with DecideApprove => "approve" | DecideDeny => "deny" | AbortTurn => "abort_turn" end.
Definition decision_name (d : ApprovalDecision) : string :=
  match d with DecideApprove => "approve" | DecideDeny => "deny" | AbortTurn => "abort" end.
Definition reason_json (r : TurnFailureReason) : Value :=
  JString match r with BudgetRanOut => "budget_exhausted" | AuditUnavailable => "audit_unavailable" end.

Definition emit (v : Value) : M () := shows (out_event v).
Definition progress (message : string) : M () := shows (out_progress message).

(** What answers prompts, unless nothing does: the channel, if there is one, and
    the fuel for its polls. *)
Definition Answering : Type := option (option Z * nat).

Section turn.
Context (conn : Conn) (session_id turn_id : string).

Definition tagged (agent : option string) (v : Value) : Value :=
  from_option (λ agent, set_field "agent" (JString agent) v) v agent.

Definition answer_prompt (agent : option string) (call : ToolCall A) (channel : option Z) (fuel : nat) : M () :=
  '(decision, source) ← decide_call fuel channel (call_id call);
  sent ← attempt (approve conn session_id turn_id (call_id call) decision);
  match sent with
  | inl _ => mret ()
  | inr () =>
      (if bool_decide (decision = DecideApprove) then mret () else summing count_denial);;
      (if bool_decide (source = "no_approval_channel")
       then progress ("denied " +:+ call_name call +:+
                      " (no approval channel; use --approval auto or --approval-channel)")
       else progress (decision_name decision +:+ " " +:+ call_name call +:+ " (" +:+ source +:+ ")"));;
      emit (tagged agent (object [
        ("event", JString "approval_decided"); ("call_id", JString (call_id call));
        ("decision", JString (decision_name decision)); ("source", JString source)]))
  end.

(** [handle_execution]: an event without its [Subagent] wrappers. *)
Definition handle_execution (event : Event A) (agent : option string) (answering : Answering) : M () :=
  match event with
  | TextDelta text => emit (tagged agent (object [("event", JString "text"); ("text", JString text)]))
  | AgentResponse content tool_call_count _ _ finish_reason =>
      (if bool_decide (agent = None) && negb (blank content) then summing (set_answer content) else mret ());;
      emit (tagged agent (object [
        ("event", JString "assistant_message"); ("content", JString content);
        ("tool_calls", JNumber (number (N.of_nat tool_call_count))); ("finish_reason", optional finish_reason)]))
  | AutoContinued reason _ =>
      emit (tagged agent (object [("event", JString "auto_continued"); ("reason", JString reason)]))
  | ToolRequested call =>
      summing count_tool_call;;
      progress ("tool: " +:+ call_name call);;
      emit (tagged agent (object [
        ("event", JString "tool_requested"); ("call_id", JString (call_id call)); ("name", JString (call_name call));
        ("arguments", arguments_json (W := W) (call_arguments call))]))
  | ApprovalRequested call reason =>
      emit (tagged agent (object [
        ("event", JString "approval_needed"); ("call_id", JString (call_id call)); ("name", JString (call_name call));
        ("arguments", arguments_json (W := W) (call_arguments call)); ("reason", from_option gate_json JNull reason)]));;
      from_option (λ '(channel, fuel), answer_prompt agent call channel fuel) (mret ()) answering
  | ToolDecision id decision =>
      emit (tagged agent (object [
        ("event", JString "tool_decision"); ("call_id", JString id); ("decision", decision_json decision)]))
  | ToolSkipped id name =>
      emit (tagged agent (object [("event", JString "tool_skipped"); ("call_id", JString id); ("name", JString name)]))
  | ToolResult id name result =>
      emit (tagged agent (object [
        ("event", JString "tool_result"); ("call_id", JString id); ("name", JString name); ("result", JString result)]))
  | TurnAborted => emit (tagged agent (object [("event", JString "turn_aborted")]))
  | HistoryCompacted report =>
      emit (tagged agent (object [("event", JString "history_compacted"); ("report", report_json report)]))
  | SubagentStarted child task tools =>
      progress ("subagent " +:+ child +:+ " started");;
      emit (tagged agent (object [
        ("event", JString "subagent_started"); ("subagent", JString child); ("task", JString task);
        ("tools", JArray (JString <$> tools))]))
  | SubagentFinished child outcome message =>
      emit (tagged agent (object [
        ("event", JString "subagent_finished"); ("subagent", JString child); ("outcome", JString outcome);
        ("message", optional message)]))
  | Subagent _ _ => mret ()
  end.

(** [handle_event]: the outcome, if the event ends the turn. *)
Definition handle_event (event : SessionEventKind A) (answering : Answering) : M (option RunOutcome) :=
  match event with
  | KTurnStarted _ approval requested_approval limits requested_limits =>
      emit (object [
        ("event", JString "turn_started"); ("approval", JString (approval_display approval));
        ("requested_approval", optional (approval_display <$> requested_approval));
        ("limits", from_option limits_json JNull limits); ("requested_limits", from_option limits_json JNull requested_limits)]);;
      (if bool_decide (is_Some requested_approval) || bool_decide (is_Some requested_limits)
       then warn "the session host lowered this run's approval mode or limits" else mret ());;
      mret None
  | KExecution event =>
      let '(agent, event) := into_innermost event in
      handle_execution event agent answering;;
      mret None
  | KTurnCompleted => emit (object [("event", JString "turn_completed")]);; mret (Some RoCompleted)
  | KTurnCancelled => emit (object [("event", JString "turn_cancelled")]);; mret (Some RoCancelled)
  | KTurnFailed message reason =>
      emit (object [("event", JString "turn_failed"); ("message", JString message);
                    ("reason", from_option reason_json JNull reason)]);;
      summing (set_message message);;
      s ← the_summary;
      mret (Some match reason with
                 | Some BudgetRanOut => RoBudgetExhausted
                 | Some AuditUnavailable => RoUnavailable
                 | None => if (0 <? su_approvals_denied s)%nat then RoApprovalDenied else RoFailed
                 end)
  | KShellOutput _ _ | KWorkingDirectoryChanged _ | KShellFinished _ _ => mret None
  end.

(** ** Following a turn *)

(** The events of a batch: the last one seen, when there was last one of the
    turn, and the outcome of the last one that ends it. *)
Fixpoint handle_batch (answering : Answering) (records : list (SessionEvent A)) (after last_progress : N)
    (terminal : option RunOutcome) : M (N * N * option RunOutcome) :=
  match records with
  | [] => mret (after, last_progress, terminal)
  | record :: records =>
      let after := ev_sequence record in
      if negb (bool_decide (ev_turn_id record = turn_id)) then handle_batch answering records after last_progress terminal
      else
        last_progress ← asks clock_ns;
        outcome ← handle_event (ev_event record) answering;
        handle_batch answering records after last_progress (match outcome with Some o => Some o | None => terminal end)
  end.

Definition PATIENCE_NS : N := 5 * 1000000000.

(** What is done about a signal: whether cancellation was asked for, or the end. *)
Definition heed_signal (following : Following) : M (option RunOutcome) :=
  match following with
  | FollowWaiter => warn "stopped waiting; the turn is still running";; mret (Some RoRunning)
  | FollowOwner =>
      emit (object [("event", JString "cancel_requested")]);;
      cancelled ← attempt (cancel conn session_id turn_id);
      (match cancelled with
       | inl error => warn ("could not request cancellation: " +:+ error)
       | inr () => mret ()
       end);;
      mret None
  | FollowObserver => mret None
  end.

(** One round of the loop of [follow_turn]; [inl] is what the next one starts
    with. *)
Definition follow_round (following : Following) (channel : option Z) (polls : nat)
    (state : bool * N * N) : M ((bool * N * N) + RunOutcome) :=
  let '(cancel_requested, after, last_progress) := state in
  stop ← asks interrupted;
  ended ← (if (stop : bool) && negb cancel_requested then heed_signal following else mret None);
  match ended with
  | Some outcome => mret (inr outcome)
  | None =>
      let cancel_requested := cancel_requested || stop in
      batch ← failing RoUnavailable (events conn session_id after POLL_WAIT_MS);
      from_option (λ sequence, warn ("the session's event journal dropped events before sequence " +:+ fmt_N sequence))
        (mret ()) (eb_truncated_before batch);;
      let answering := if bool_decide (following = FollowObserver) then None else Some (channel, polls) in
      '(after, last_progress, terminal) ← handle_batch answering (eb_events batch) after last_progress None;
      match terminal with
      | Some outcome => mret (inr outcome)
      | None =>
          if negb (bool_decide (eb_active_turn_id batch = Some turn_id)) then
            now ← asks clock_ns;
            if (PATIENCE_NS <? now - last_progress)%N
            then bail RoFailed "the turn ended without reporting how; see the session's history"
            else mret (inl (cancel_requested, after, last_progress))
          else mret (inl (cancel_requested, after, last_progress))
      end
  end.

(** The loop; [fuel] bounds its rounds, each of which waits for events. *)
Fixpoint follow_loop (fuel : nat) (following : Following) (channel : option Z) (polls : nat) (state : bool * N * N) :
    M RunOutcome :=
  match fuel with
  | O => lift Panic
  | S fuel =>
      next ← follow_round following channel polls state;
      match next with
      | inr outcome => mret outcome
      | inl state => follow_loop fuel following channel polls state
      end
  end.

Definition follow_turn (fuel : nat) (after : N) (following : Following) (channel : option Z) : M RunOutcome :=
  now ← asks clock_ns; follow_loop fuel following channel fuel (false, after, now).
End turn.

(** ** Runs *)

Definition load_config (config : option string) : M XshellConfig :=
  r ← get;
  '(config, _) ← deciding RoUsage (Configs.load config (run_world r));
  if negb (sf_enabled (xc_session_fabric config))
  then bail RoUsage ("headless runs need the session fabric: set session_fabric.enabled = true and start xshelld")
  else mret config.

Definition connect_daemon (config : XshellConfig) : M (SessionClient Conn) :=
  r ← get;
  socket ← deciding RoUsage (AuditLog.context (resolved_socket (environment (run_world r)) (xc_session_fabric config))
    "HOME and XDG_STATE_HOME are not set; configure session_fabric.socket");
  failing RoUnavailable (SessionClient.connect socket pkg_version).

Definition read_prompt (args : RunArgs) : Step W string string :=
  prompt ←
    match ra_prompt args, ra_prompt_file args with
    | Some prompt, _ => mret prompt
    | None, Some path =>
        w ← get; lift (with_context ("cannot read prompt file " +:+ path) (read_to_string path w))
    | None, None =>
        terminal ← ask stdin_is_terminal;
        if terminal : bool then throw "give a prompt as an argument, with --prompt-file, or on stdin"
        else Release.asking read_stdin "cannot read the prompt from stdin"
    end;
  ensure (negb (blank prompt)) "the prompt is empty";;
  mret prompt.

Definition generated_session_name : M string :=
  '(seconds, nanoseconds) ← asks unix_now;
  r ← get;
  mret ("run-" +:+ fmt_N seconds +:+ "-" +:+ hex4 (N.land (N.lxor nanoseconds (process_id (run_world r))) 65535)).

(** [validate_working_directory] on this host. *)
Definition validate_cwd (path : string) : Step W string string := λ w,
  let '(d, r) := Registry.validate_working_directory path {| sessions_json := None; world := w |} in (world d, r).

Definition started_summary (d : SessionDescriptor) (turn_id : string) : Summary := {|
  su_outcome := None; su_message := None; su_answer := ""; su_session := Some (d_name d); su_session_id := Some (d_id d);
  su_turn_id := Some turn_id; su_tool_calls := 0; su_approvals_denied := 0 |}.

(** [output.result] of the summary, with its outcome. *)
Definition report (o : RunOutcome) : M RunOutcome :=
  summing (set_outcome o);; s ← the_summary; shows (out_result s);; mret o.

Definition load_overlay (path : option string) : M (option PolicyConfig) :=
  match path with
  | Some path =>
      r ← get;
      '(config, _, warnings) ← deciding RoUsage (load_policy_file split path (run_world r));
      shows (λ w, foldl (λ w warning, out_warning ("approval policy: " +:+ warning) w) w warnings);;
      mret (Some config)
  | None => mret None
  end.

Definition submit_run (conn : Conn) (session_id prompt : string) (approval : ApprovalPolicy) (limits : TurnLimits)
    (overlay : option PolicyConfig) : M string :=
  submitted ← attempt (submit_with_limits conn session_id (TurnAgent prompt) approval (Some limits) overlay);
  match submitted with
  | inr turn_id => mret turn_id
  | inl e => bail (if contains_text (chars "required audit") (chars e) then RoUnavailable else RoFailed) e
  end.

(** [execute], up to the submission of the turn: the connection, the session, where
    its journal ends, the turn, and the names of the limits and the channel. *)
Definition execute_start (shared : SharedOptions) (args : RunArgs) :
    M (Conn * SessionDescriptor * N * string * string * option Z) :=
  config ← load_config (so_config shared);
  model ← deciding RoUsage (resolve_startup config (so_profile shared) (so_overrides shared));
  let limits_name := limits_name_for config (so_limits shared) model in
  limits ← deciding RoUsage (limit_profile config limits_name);
  cwd ← failing RoUsage (in_context ("cannot use working directory " +:+ so_cwd shared) (validate_cwd (so_cwd shared)));
  prompt ← failing RoUsage (read_prompt args);
  overlay ← load_overlay (so_approval_policy shared);
  channel ← responder_open (ra_approval_channel args);
  client ← connect_daemon config;
  let conn := sc_conn client in
  name ← match so_session shared with Some name => mret name | None => generated_session_name end;
  sessions ← failing RoUnavailable (list_sessions conn);
  snapshot ← failing RoFailed (
    if existsb (matches_name name) sessions then attach conn name
    else create conn {|
      c_name := name; c_model := to_session_binding model; c_cwd := cwd;
      c_persistence := if ra_ephemeral args then PersistEphemeral else PersistDaemon;
      c_visibility := Fabric; c_history := [msg_system (so_system_prompt shared)] |});
  let d := s_descriptor snapshot in
  batch ← failing RoUnavailable (events conn (d_id d) 0 0);
  turn_id ← submit_run conn (d_id d) prompt (so_approval shared) limits overlay;
  mret (conn, d, (eb_next_sequence batch - 1)%N, turn_id, limits_name, channel).

Definition execute (fuel : nat) (shared : SharedOptions) (args : RunArgs) : M RunOutcome :=
  '(conn, d, after, turn_id, limits_name, channel) ← execute_start shared args;
  summing (λ _, started_summary d turn_id);;
  emit (object [
    ("event", JString "run_started"); ("schema", JNumber (number SCHEMA_VERSION)); ("session", JString (d_name d));
    ("session_id", JString (d_id d)); ("turn_id", JString turn_id); ("limits_profile", JString limits_name)]);;
  if ra_detach args then
    (if bool_decide (so_approval shared = Ask) then
       warn ("a detached turn's approval prompts wait until `xshell wait` or an interactive client answers them; use " +:+
             "--approval auto or off to avoid that")
     else mret ());;
    emit (object [("event", JString "detached")]);;
    report RoDetached
  else
    outcome ← follow_turn conn (d_id d) turn_id fuel after FollowOwner channel;
    report outcome.

Definition describe_activity (a : SessionActivity) : string * option string :=
  match a with
  | ActIdle => ("idle", None)
  | ActAgentTurn turn_id phase =>
      (match phase with
       | PhaseRunning => "agent_running" | PhaseWaitingApproval => "agent_waiting_approval" | PhaseStopping => "agent_stopping"
       end, Some turn_id)
  | ActInteractiveProcess _ _ => ("interactive_process", None)
  end.

(** The turn a job command is about, and where its events begin. *)
Definition reported_turn (journal : EventBatch A) : option (string * N) :=
  turn_id ← match eb_active_turn_id journal with
            | Some id => Some id
            | None => ev_turn_id <$> last (eb_events journal)
            end;
  Some (turn_id, match List.find (λ e, bool_decide (ev_turn_id e = turn_id)) (eb_events journal) with
                 | Some e => (ev_sequence e - 1)%N
                 | None => (eb_next_sequence journal - 1)%N
                 end).

Definition execute_job (fuel : nat) (command : JobCommand) (shared : SharedOptions) (approval_channel : option Z) :
    M RunOutcome :=
  selector ← deciding RoUsage (AuditLog.context (so_session shared)
    "name the session with --session (`xshell run --detach` prints it)");
  config ← load_config (so_config shared);
  channel ← responder_open approval_channel;
  client ← connect_daemon config;
  let conn := sc_conn client in
  sessions ← failing RoUnavailable (list_sessions conn);
  d ← deciding RoUsage (AuditLog.context (List.find (matches_name selector) sessions)
    ("no session named " +:+ debug_str selector));
  if bool_decide (command = JobStatus) then
    let '(activity, turn_id) := describe_activity (d_activity d) in
    shows (out_status (d_name d) (d_id d) activity turn_id);;
    mret RoCompleted
  else
    failing RoFailed (attach conn (d_id d));;
    journal ← failing RoUnavailable (events conn (d_id d) 0 0);
    '(turn_id, after) ← deciding RoFailed (AuditLog.context (reported_turn journal) "the session has no turn to report");
    summing (λ _, started_summary d turn_id);;
    let active := bool_decide (is_Some (eb_active_turn_id journal)) in
    if bool_decide (command = JobResult) && active then report RoRunning
    else
      (if bool_decide (command = JobCancel) then
         (if active then mret () else bail RoFailed "the session has no active turn to cancel");;
         failing RoFailed (cancel conn (d_id d) turn_id);;
         emit (object [("event", JString "cancel_requested")])
       else mret ());;
      outcome ← follow_turn conn (d_id d) turn_id fuel after
        (if bool_decide (command = JobWait) && active then FollowWaiter else FollowObserver) channel;
      report outcome.

(** [run] and [job]: an error is reported like a result. *)
Definition failed_summary (session : option string) (e : RunError) : Summary := {|
  su_outcome := Some (re_outcome e); su_message := Some (re_error e); su_answer := ""; su_session := session;
  su_session_id := None; su_turn_id := None; su_tool_calls := 0; su_approvals_denied := 0 |}.

Definition finish (session : option string) (m : M RunOutcome) (w : W) : W * option N :=
  match m {| run_world := w; run_summary := summary_default; channel_closed := false |} with
  | (r, Done o) => (run_world r, Some (outcome_exit_code o))
  | (r, Fail e) => (out_result (failed_summary session e) (run_world r), Some (outcome_exit_code (re_outcome e)))
  | (r, Panic) => (run_world r, None)
  end.
End output.

Definition run (fuel : nat) (shared : SharedOptions) (args : RunArgs) : W → W * option N :=
  finish (ra_output args) None (execute (ra_output args) fuel shared args).
Definition job (fuel : nat) (command : JobCommand) (shared : SharedOptions) (output : OutputFormat)
    (approval_channel : option Z) : W → W * option N :=
  finish output (so_session shared) (execute_job output fuel command shared approval_channel).
End headless.

(** * What a run's end says *)

(** Started where [J] holds, [m] ends where it does; what it returns has [Q] and
    its errors [R]. *)
Definition Ends {S E B} (J : S → Prop) (R : E → Prop) (Q : B → Prop) (m : Step S E B) : Prop :=
  ∀ s, J s → J (m s).1 ∧ match (m s).2 with Done b => Q b | Fail e => R e | Panic => True end.

Section ends.
Context {S E : Type} (J : S → Prop) (R : E → Prop).

Lemma ends_bind {B C} (Q : B → Prop) (m : Step S E B) (k : B → Step S E C) (Q' : C → Prop) :
  Ends J R Q m → (∀ b, Q b → Ends J R Q' (k b)) → Ends J R Q' (m ≫= k).
Proof.
  intros Hm Hk s Hs. destruct (Hm s Hs) as [Hs1 Hb]. unfold mbind, Step_bind.
  destruct (m s) as [s1 [b|e|]]; [by apply Hk|done..].
Qed.
Lemma ends_then {B C} (m : Step S E B) (k : B → Step S E C) (Q : C → Prop) :
  Ends J R (λ _, True) m → (∀ b, Ends J R Q (k b)) → Ends J R Q (m ≫= k).
Proof. intros Hm Hk. by apply (ends_bind (λ _, True)). Qed.
Lemma ends_ret {B} (b : B) (Q : B → Prop) : Q b → Ends J R Q (mret b).
Proof. by intros Hb s Hs. Qed.
Lemma ends_throw {B} e (Q : B → Prop) : R e → Ends J R Q (throw e).
Proof. by intros He s Hs. Qed.
Lemma ends_lift {B} (o : Outcome E B) (Q : B → Prop) :
  match o with Done b => Q b | Fail e => R e | Panic => True end → Ends J R Q (lift o).
Proof. by intros Ho s Hs. Qed.
Lemma ends_get (Q : S → Prop) : (∀ s, J s → Q s) → Ends J R Q get.
Proof. intros HQ s Hs. split; [done|]. by apply HQ. Qed.
Lemma ends_modify f (Q : () → Prop) : (∀ s, J s → J (f s)) → Q () → Ends J R Q (modify f).
Proof. intros Hf HQ s Hs. split; [by apply Hf|done]. Qed.
Lemma ends_weaken {B} (Q Q' : B → Prop) (m : Step S E B) : Ends J R Q m → (∀ b, Q b → Q' b) → Ends J R Q' m.
Proof. intros Hm HQ s Hs. destruct (Hm s Hs) as [Hs1 Hb]. split; [done|]. destruct (m s).2; auto. Qed.
Lemma ends_ensure b e (Q : () → Prop) : R e → Q () → Ends J R Q (ensure b e).
Proof. intros He HQ. unfold ensure. destruct b; [by apply ends_ret|by apply ends_throw]. Qed.
End ends.

Section spec.
Context {A Num W Conn SecretKey PublicKey Signature : Type}.
Context `{!SessionWire A Conn W, !SessionNet Conn W, !Terminal W, !HeadlessHost W, !RunValues Num, !RunLines A Num W,
  !SessionHost W, !Crypto SecretKey PublicKey Signature, !ReleaseCodec SecretKey, !ConfigFile, !ConfigHost W}.
Context (split : string → string + list string) (pkg_version : string).

(** A property of the world that a run keeps, as long as it approves only the
    calls that have [Approved], which are those a line of the channel approves. *)
Record Kept (I : W → Prop) (Approved : string → Prop) : Prop := {
  ke_print line w : I w → I (print line w);
  ke_eprint line w : I w → I (eprint line w);
  ke_out line w : I w → I (write_out line w);
  ke_json (v : Json Num) w : I w → I (write_json (A := A) v w);
  ke_terminal w : I w → I (stdin_is_terminal w).2;
  ke_stdin w : I w → I (read_stdin w).2;
  ke_interrupted w : I w → I (interrupted w).2;
  ke_clock w : I w → I (clock_ns w).2;
  ke_unix w : I w → I (unix_now w).2;
  ke_fd fd w : I w → I (fd_open fd w).2;
  ke_buffered fd w : I w → I (line_buffered fd w).2;
  ke_poll fd w : I w → I (poll_channel fd w).2;
  ke_channel fd w : I w → I (read_channel fd w).2;
  ke_canonicalize path w : I w → I (canonicalize w path).2;
  ke_is_dir path w : I w → I (is_dir w path).2;
  ke_read_dir path w : I w → I (read_dir w path).2;
  ke_connect socket w : I w → I (connect_socket (Conn := Conn) socket w).2;
  ke_read (conn : Conn) n w : I w → I (read_line (A := A) conn n w).2;
  ke_write conn (rq : ClientRequest A) w : I w →
    (∀ session turn call, rq = RqApprove session {| ar_turn_id := turn; ar_call_id := call; ar_decision := DecideApprove |} →
      Approved call) →
    I (write_request conn rq w).2;
  ke_line fd w line w' (reply : Json Num) call : I w → read_channel fd w = (Some line, w') →
    value_from_str (trim line) = inr reply → as_str (field reply "call_id") = Some call →
    as_str (field reply "decision") = Some "approve" → Approved call;
}.

Context (I : W → Prop) (Approved : string → Prop) (kept : Kept I Approved).

(** An answer that some daemon gave. *)
Definition Received (r : ServerResponse A) : Prop :=
  ∃ conn n w bytes w', I w ∧ read_line (Conn := Conn) conn n w = (inr bytes, w') ∧ response_from_slice bytes = inr r.

(** Word that the turn was completed. *)
Definition Heard (turn_id : string) : Prop :=
  ∃ batch e, Received (RsEvents batch) ∧ e ∈ eb_events batch ∧ ev_turn_id e = turn_id ∧ ev_event e = KTurnCompleted.

Definition Any {B} (_ : B) : Prop := True.

(** ** The client *)

Lemma ends_ask {B} (f : W → B * W) : (∀ w, I w → I (f w).2) → Ends I Any Any (ask f : Step W string B).
Proof. intros Hf w Hw. unfold ask. specialize (Hf w Hw). by destruct (f w). Qed.

Lemma ends_any_lift {S B} (J : S → Prop) (o : Outcome string B) : Ends J Any Any (lift o).
Proof. apply ends_lift. by destruct o. Qed.

Lemma ends_receive conn : Ends I Any Received (receive conn).
Proof.
  intros w Hw. unfold receive, ask, mbind, Step_bind. pose proof (ke_read _ _ kept conn (MAX_RESPONSE_BYTES + 1)%N w Hw) as Hw1.
  destruct (read_line conn _ w) as [[e|bytes] w1] eqn:Hread; simpl in *; [done|]. split; [done|].
  destruct (parse_response bytes) as [r|e|] eqn:Hp; [|done..]. unfold parse_response in Hp. case_bool_decide; [done|].
  destruct (_ || _); [done|]. unfold with_context in Hp. destruct (response_from_slice bytes) eqn:Hr; [done|].
  injection Hp as <-. by exists conn, (MAX_RESPONSE_BYTES + 1)%N, w, bytes, w1.
Qed.

Definition Writable (rq : ClientRequest A) : Prop :=
  ∀ session turn call, rq = RqApprove session {| ar_turn_id := turn; ar_call_id := call; ar_decision := DecideApprove |} →
    Approved call.

Lemma ends_send conn rq : Writable rq → Ends I Any Any (send conn rq).
Proof.
  intros Hrq. unfold send. apply (ends_bind _ _ Any).
  - apply ends_ask. intros w Hw. by apply (ke_write _ _ kept).
  - intros [e|] _; [by apply ends_throw|by apply ends_ret].
Qed.

Lemma ends_response_error {B} name r (Q : B → Prop) : Ends I Any Q (response_error (A := A) name r).
Proof. unfold response_error. destruct r; by apply ends_throw. Qed.

Lemma ends_exchange {B} conn name rq (expected : ServerResponse A → option B) (Q : B → Prop) :
  Writable rq → (∀ r b, Received r → expected r = Some b → Q b) → Ends I Any Q (exchange conn name rq expected).
Proof.
  intros Hrq HQ. unfold exchange. apply ends_then; [by eapply ends_weaken; [apply ends_send|]|]. intros _.
  eapply ends_bind; [apply ends_receive|]. intros r Hr.
  destruct (expected r) as [b|] eqn:Hb; [apply ends_ret; eauto|apply ends_response_error].
Qed.

Lemma ends_opened conn version : Ends I Any Any (open_session (A := A) conn version).
Proof.
  unfold open_session. apply ends_then; [eapply ends_weaken; [by apply ends_send|done]|]. intros _.
  eapply ends_bind; [apply ends_receive|]. intros r _. destruct r; try apply ends_response_error.
  destruct (negb _); [by apply ends_throw|by apply ends_ret].
Qed.

(** ** Steps of a run *)

Abbreviation Kept_run := (λ r : Run (W := W), I (run_world r)).

(** An error is reported with an exit code that is not 0. *)
Definition Bad (e : RunError) : Prop := outcome_exit_code (re_outcome e) ≠ 0%N.
Definition bad (o : RunOutcome) : Prop := outcome_exit_code o ≠ 0%N.

Abbreviation Runs Q m := (Ends Kept_run Bad Q m).

Lemma runs_failing {B} o (m : Step W string B) Q : bad o → Ends I Any Q m → Runs Q (failing o m).
Proof.
  intros Ho Hm r Hr. destruct (Hm _ Hr) as [Hw Hb]. unfold failing. by destruct (m (run_world r)) as [w [b|e|]].
Qed.
Lemma runs_attempt {B} (m : Step W string B) Q : Ends I Any Q m → Runs (λ x, ∀ b, x = inr b → Q b) (attempt m).
Proof.
  intros Hm r Hr. destruct (Hm _ Hr) as [Hw Hb]. unfold attempt.
  destruct (m (run_world r)) as [w [b|e|]]; simpl in *; (split; [done|]); [|done..]. by intros ? [= <-].
Qed.
Lemma runs_asks {B} (f : W → B * W) : (∀ w, I w → I (f w).2) → Runs Any (asks f).
Proof. intros Hf r Hr. unfold asks. specialize (Hf _ Hr). by destruct (f (run_world r)). Qed.
Lemma runs_shows f : (∀ w, I w → I (f w)) → Runs Any (shows f).
Proof. intros Hf. apply ends_modify; [|done]. intros r Hr. by apply Hf. Qed.
Lemma runs_summing f : Runs Any (summing f).
Proof. by apply ends_modify. Qed.
Lemma runs_deciding {B} o (r : Outcome string B) : bad o → Runs Any (deciding o r).
Proof. intros Ho. apply ends_lift. by destruct r. Qed.
Lemma runs_bail {B} o e (Q : B → Prop) : bad o → Runs Q (bail o e).
Proof. intros Ho. by apply ends_throw. Qed.
Lemma runs_get : Runs Any get.
Proof. by apply ends_get. Qed.
Lemma runs_summary : Runs Any the_summary.
Proof. apply ends_then; [apply runs_get|]. intros r. by apply ends_ret. Qed.

(** ** Output and approvals *)

Context (format : OutputFormat).

Lemma keeps_event (v : Json Num) w : I w → I (out_event (A := A) format v w).
Proof. intros Hw. unfold out_event. destruct format; [done|]. by apply (ke_json _ _ kept). Qed.
Lemma keeps_progress m w : I w → I (out_progress format m w).
Proof. intros Hw. unfold out_progress. destruct format; [|done]. by apply (ke_eprint _ _ kept). Qed.
Lemma keeps_warning m w : I w → I (out_warning (A := A) (Num := Num) format m w).
Proof. intros Hw. unfold out_warning. destruct format; [by apply (ke_eprint _ _ kept)|unfold out_event; by apply (ke_json _ _ kept)]. Qed.
Lemma keeps_status session id activity turn w : I w → I (out_status (A := A) (Num := Num) format session id activity turn w).
Proof. intros Hw. unfold out_status. destruct format; [by apply (ke_print _ _ kept)|unfold out_event; by apply (ke_json _ _ kept)]. Qed.
Lemma keeps_result s w : I w → I (out_result (A := A) (Num := Num) format s w).
Proof.
  intros Hw. unfold out_result, result_text. destruct format; [|unfold out_event; by apply (ke_json _ _ kept)].
  pose proof (ke_print _ _ kept). pose proof (ke_eprint _ _ kept). pose proof (ke_out _ _ kept).
  case_bool_decide; [destruct (su_session s); simpl; auto|].
  destruct (default _ _), (su_message s); case_bool_decide; auto.
Qed.

Lemma runs_emit v : Runs Any (emit (A := A) format v).
Proof. apply runs_shows. intros w. apply keeps_event. Qed.
Lemma runs_progress m : Runs Any (progress format m).
Proof. apply runs_shows. intros w. apply keeps_progress. Qed.
Lemma runs_warn m : Runs Any (warn (A := A) (Num := Num) format m).
Proof. apply runs_shows. intros w. apply keeps_warning. Qed.
Lemma runs_ret {B} (b : B) : Runs Any (mret b).
Proof. by apply ends_ret. Qed.

Create HintDb runs.
#[local] Hint Resolve runs_emit runs_progress runs_warn runs_ret runs_summing runs_get runs_summary runs_deciding : runs.

Ltac runs := repeat first
  [ progress (intros; cbn beta iota)
  | solve [eauto 1 with runs nocore]
  | (apply runs_bail; discriminate) | apply runs_deciding; discriminate
  | (apply ends_lift; exact Logic.I) | apply ends_then
  | match goal with |- Ends _ _ _ (from_option _ _ ?x) => destruct x; cbn [from_option]
                  | |- Ends _ _ _ (if ?b then _ else _) => destruct b
                  | |- Ends _ _ _ (match ?x with _ => _ end) => destruct x end ].

Lemma runs_await fuel channel : Runs Any (await_line fuel channel).
Proof.
  induction fuel as [|fuel IH]; simpl; [by apply ends_lift|].
  apply ends_then; [apply runs_asks, (ke_buffered _ _ kept)|]. intros [|]; [runs|].
  apply ends_then; [apply runs_asks, (ke_interrupted _ _ kept)|]. intros [|]; [runs|].
  apply ends_then; [apply runs_asks, (ke_poll _ _ kept)|]. intros [|]; [runs|exact IH].
Qed.

Lemma reply_approves call (reply : Json Num) source :
  reply_decides call reply = inr (DecideApprove, source) →
  as_str (field reply "call_id") = Some call ∧ as_str (field reply "decision") = Some "approve".
Proof.
  unfold reply_decides. case_bool_decide as Hc; [|done]. simpl. intros H'. split; [done|].
  destruct (as_str (field reply "decision")) as [s|]; [|discriminate H'].
  destruct (decide (s = "approve")) as [->|Hs]; [done|]. exfalso. revert H'. clear -Hs. repeat case_match; congruence.
Qed.

(** A call is approved only if a line of the channel says so. *)
Definition Decided (call : string) (d : ApprovalDecision * string) : Prop := d.1 = DecideApprove → Approved call.

Lemma runs_decide fuel channel call : Runs (Decided call) (decide_call (A := A) (Num := Num) format fuel channel call).
Proof.
  unfold decide_call. destruct channel as [channel|]; [|by apply ends_ret].
  apply ends_then; [apply runs_get|]. intros r. destruct (channel_closed r); [by apply ends_ret|].
  apply ends_then; [apply runs_await|]. intros [|]; [by apply ends_ret|].
  apply (ends_bind _ _ (λ line, ∀ l, line = Some l → ∃ w w', I w ∧ read_channel channel w = (Some l, w'))).
  { intros r1 Hr1. unfold asks. pose proof (ke_channel _ _ kept channel _ Hr1) as Hw.
    destruct (read_channel channel (run_world r1)) as [line w'] eqn:Hread. split; [done|]. intros l ->. by exists (run_world r1), w'. }
  intros [line|] Hline.
  - destruct (Hline line eq_refl) as (w & w' & Hw & Hread). unfold decide_reply.
    destruct (value_from_str (trim line)) as [e|reply] eqn:Hvalue; [apply ends_then; [runs|]; intros _; by apply ends_ret|].
    destruct (reply_decides call reply) as [[warning|]|[d source]] eqn:Hd;
      [apply ends_then; [runs|]; intros _; by apply ends_ret..|]. apply ends_ret. intros Happrove. simpl in Happrove. subst d.
    apply reply_approves in Hd as [Hid Happrove]. by eapply (ke_line _ _ kept).
  - apply ends_then; [by apply ends_modify|]. intros _. apply ends_then; [runs|]. intros _. by apply ends_ret.
Qed.

(** ** The events of a turn *)

Section turn.
Context (conn : Conn) (session_id turn_id : string).

Lemma runs_answer agent call channel fuel :
  Runs Any (answer_prompt (A := A) (Num := Num) format conn session_id turn_id agent call channel fuel).
Proof.
  unfold answer_prompt. eapply ends_bind; [apply runs_decide|]. intros [d source] Hd.
  apply ends_then; [|runs]. eapply ends_weaken; [apply runs_attempt|done]. apply (ends_exchange _ _ _ _ Any); [|done].
  intros session turn id [= _ _ <- ->]. by apply Hd.
Qed.

Lemma runs_execution event agent answering :
  Runs Any (handle_execution (A := A) (Num := Num) format conn session_id turn_id event agent answering).
Proof. pose proof runs_answer. unfold handle_execution. destruct event; runs. Qed.

(** An outcome that an event has. *)
Definition Outcome_of (event : SessionEventKind A) (o : option RunOutcome) : Prop :=
  (o = Some RoCompleted → event = KTurnCompleted) ∧ o ≠ Some RoDetached.

Lemma runs_handle event answering :
  Runs (Outcome_of event) (handle_event (A := A) (Num := Num) format conn session_id turn_id event answering).
Proof.
  pose proof runs_execution. unfold handle_event. destruct event as [| event | | | | | message reason |];
    try (apply ends_ret; by split).
  - apply ends_then; [runs|]. intros _. apply ends_then; [runs|]. intros _. apply ends_ret. by split.
  - destruct (into_innermost event) as [agent inner]. apply ends_then; [runs|]. intros _. apply ends_ret. by split.
  - apply ends_then; [runs|]. intros _. apply ends_ret. by split.
  - apply ends_then; [runs|]. intros _. apply ends_then; [runs|]. intros _. apply ends_then; [runs|]. intros s.
    apply ends_ret. split; [|]; destruct reason as [[|]|]; try done; by case_match.
  - apply ends_then; [runs|]. intros _. apply ends_ret. by split.
Qed.

Definition Told_end (o : option RunOutcome) : Prop :=
  (o = Some RoCompleted → Heard turn_id) ∧ o ≠ Some RoDetached.

Lemma runs_batch answering batch records after last_progress terminal :
  Received (RsEvents batch) → (∀ e, e ∈ records → e ∈ eb_events batch) → Told_end terminal →
  Runs (λ x, Told_end x.2)
    (handle_batch (A := A) (Num := Num) format conn session_id turn_id answering records after last_progress terminal).
Proof.
  intros Hb. revert after last_progress terminal.
  induction records as [|e records IH]; intros after last_progress terminal Hrecords Ht; simpl; [by apply ends_ret|].
  assert (∀ e, e ∈ records → e ∈ eb_events batch) as Hrest by (intros; apply Hrecords; by right).
  case_bool_decide as Hturn; simpl; [|by apply IH].
  apply ends_then; [apply runs_asks, (ke_clock _ _ kept)|]. intros now.
  eapply ends_bind; [apply runs_handle|]. intros o [Ho1 Ho2]. apply IH; [done|]. destruct o as [o|]; [|done].
  split; [|done]. intros Hc. exists batch, e. split_and!; [done|by apply Hrecords; left|done|by apply Ho1].
Qed.

Lemma runs_signal following :
  Runs (λ o, o = None ∨ o = Some RoRunning) (heed_signal (A := A) (Num := Num) format conn session_id turn_id following).
Proof.
  unfold heed_signal. destruct following; [| |apply ends_ret; by left].
  - apply ends_then; [runs|]. intros _. apply ends_then; [|intros x; apply ends_then; [runs|]; intros _; apply ends_ret; by left].
    eapply ends_weaken; [apply runs_attempt|done]. by apply (ends_exchange _ _ _ _ Any).
  - apply ends_then; [runs|]. intros _. apply ends_ret. by right.
Qed.

Lemma runs_round following channel polls state :
  Runs (λ next, ∀ o, next = inr o → Told_end (Some o))
    (follow_round (A := A) (Num := Num) format conn session_id turn_id following channel polls state).
Proof.
  destruct state as [[cancel_requested after] last_progress]. unfold follow_round.
  apply ends_then; [apply runs_asks, (ke_interrupted _ _ kept)|]. intros stop.
  apply (ends_bind _ _ (λ o, o = None ∨ o = Some RoRunning)).
  { destruct (_ && _); [apply runs_signal|apply ends_ret; by left]. }
  intros o [->| ->]; [|apply ends_ret; by intros ? [= <-]].
  apply (ends_bind _ _ (λ batch, Received (RsEvents batch))).
  { apply runs_failing; [done|]. apply ends_exchange; [done|]. intros r b Hr Hb. destruct r; try discriminate Hb. by injection Hb as <-. }
  intros batch Hbatch. apply ends_then; [runs|]. intros _.
  eapply ends_bind; [by apply (runs_batch _ batch)|]. intros [[after' last'] terminal] Ht. simpl in Ht.
  destruct terminal as [o|]; [apply ends_ret; by intros ? [= <-]|].
  destruct (negb _); [|by apply ends_ret]. apply ends_then; [apply runs_asks, (ke_clock _ _ kept)|]. intros now.
  destruct (_ <? _)%N; [by apply runs_bail|by apply ends_ret].
Qed.

Lemma runs_follow fuel after following channel :
  Runs (λ o, Told_end (Some o)) (follow_turn (A := A) (Num := Num) format conn session_id turn_id fuel after following channel).
Proof.
  unfold follow_turn. apply ends_then; [apply runs_asks, (ke_clock _ _ kept)|]. intros now.
  generalize (false, after, now). generalize fuel at 2 as polls.
  induction fuel as [|fuel IH]; intros polls state; simpl; [by apply ends_lift|].
  eapply ends_bind; [apply runs_round|]. intros [state'|o] Ho; [apply IH|]. apply ends_ret. by apply Ho.
Qed.
End turn.

(** ** Runs and jobs *)

Lemma ends_registry_asking {B} (f : W → B * W) :
  (∀ w, I w → I (f w).2) → Ends (λ d, I (world d)) Any Any (Registry.asking f).
Proof. intros Hf d Hd. unfold Registry.asking, ask. specialize (Hf _ Hd). by destruct (f (world d)). Qed.

Lemma ends_cwd path : Ends I Any Any (validate_cwd path).
Proof.
  assert (Ends (λ d, I (world d)) Any Any (Registry.validate_working_directory path)) as Hvalid.
  { unfold Registry.validate_working_directory, need. apply ends_then; [apply ends_registry_asking; intros w; apply (ke_canonicalize _ _ kept)|].
    intros o. apply ends_then; [destruct o; [by apply ends_ret|by apply ends_throw]|]. intros resolved.
    apply ends_then; [apply ends_registry_asking; intros w; apply (ke_is_dir _ _ kept)|]. intros directory.
    apply ends_then; [by apply ends_ensure|]. intros _.
    apply ends_then; [apply ends_registry_asking; intros w; apply (ke_read_dir _ _ kept)|]. intros readable.
    apply ends_then; [by apply ends_ensure|]. intros _. by apply ends_ret. }
  intros w Hw. unfold validate_cwd. specialize (Hvalid {| sessions_json := None; world := w |} Hw).
  by destruct (Registry.validate_working_directory _ _) as [d [b|e|]].
Qed.

Lemma ends_context {B} message (m : Step W string B) : Ends I Any Any m → Ends I Any Any (in_context message m).
Proof.
  intros Hm w Hw. specialize (Hm w Hw). unfold in_context, handle. by destruct (m w) as [w1 [b|e|]].
Qed.

Lemma ends_asking {B} (f : W → (string + B) * W) message : (∀ w, I w → I (f w).2) → Ends I Any Any (Release.asking f message).
Proof.
  intros Hf. unfold Release.asking. apply ends_then; [by apply ends_ask|]. intros r. apply ends_any_lift.
Qed.

Lemma ends_prompt args : Ends I Any Any (read_prompt args).
Proof.
  unfold read_prompt. apply ends_then; [|intros prompt; apply ends_then; [by apply ends_ensure|]; intros _; by apply ends_ret].
  destruct (ra_prompt args); [by apply ends_ret|]. destruct (ra_prompt_file args).
  - apply ends_then; [by apply ends_get|]. intros w. apply ends_any_lift.
  - apply ends_then; [apply ends_ask, (ke_terminal _ _ kept)|]. intros [|]; [by apply ends_throw|].
    apply ends_asking, (ke_stdin _ _ kept).
Qed.

Lemma ends_connect socket : Ends I Any Any (SessionClient.connect (A := A) (Conn := Conn) socket pkg_version).
Proof.
  unfold connect. apply ends_then; [apply ends_asking, (ke_connect _ _ kept)|]. intros conn. apply ends_opened.
Qed.

Lemma runs_config config : Runs Any (load_config config).
Proof. unfold load_config. runs. Qed.
Lemma runs_daemon config : Runs Any (connect_daemon (Conn := Conn) pkg_version config).
Proof.
  unfold connect_daemon. apply ends_then; [runs|]. intros r. apply ends_then; [runs|]. intros socket.
  apply runs_failing; [done|]. apply ends_connect.
Qed.
Lemma runs_open fd : Runs Any (responder_open fd).
Proof.
  unfold responder_open. destruct fd as [fd|]; [|runs]. destruct (fd <? 3)%Z; [runs|].
  apply ends_then; [apply runs_asks, (ke_fd _ _ kept)|]. runs.
Qed.
Lemma runs_overlay path : Runs Any (load_overlay (A := A) (Num := Num) split format path).
Proof.
  unfold load_overlay. destruct path as [path|]; [|runs]. apply ends_then; [runs|]. intros r.
  apply ends_then; [runs|]. intros [[config policy] warnings]. apply ends_then; [|runs].
  apply runs_shows. induction warnings as [|warning warnings IH]; intros w Hw; simpl; [done|]. by apply IH, keeps_warning.
Qed.
Lemma runs_name : Runs Any generated_session_name.
Proof. unfold generated_session_name. apply ends_then; [apply runs_asks, (ke_unix _ _ kept)|]. runs. Qed.

Lemma runs_client {B} o conn name rq (expected : ServerResponse A → option B) :
  bad o → Writable rq → Runs Any (failing o (exchange conn name rq expected)).
Proof. intros Ho Hrq. apply runs_failing; [done|]. by apply ends_exchange. Qed.

Lemma runs_submit conn id prompt approval limits overlay :
  Runs (λ turn, Received (RsAccepted turn)) (submit_run conn id prompt approval limits overlay).
Proof.
  unfold submit_run. eapply ends_bind.
  - apply runs_attempt, (ends_exchange _ _ _ _ (λ turn, Received (RsAccepted turn))); [done|].
    intros r turn Hr Ht. destruct r; try discriminate Ht. by injection Ht as <-.
  - intros [e|turn] Ht; [apply runs_bail; by destruct (contains_text _ _)|apply ends_ret; by apply Ht].
Qed.

Lemma runs_start shared args :
  Runs (λ '(conn, d, after, turn, name, channel), Received (RsAccepted turn))
    (execute_start (A := A) (Num := Num) (Conn := Conn) split pkg_version format shared args).
Proof.
  unfold execute_start. apply ends_then; [apply runs_config|]. intros config. apply ends_then; [runs|]. intros model.
  apply ends_then; [runs|]. intros limits. apply ends_then; [apply runs_failing, ends_context, ends_cwd; done|]. intros cwd.
  apply ends_then; [apply runs_failing, ends_prompt; done|]. intros prompt. apply ends_then; [apply runs_overlay|]. intros overlay.
  apply ends_then; [apply runs_open|]. intros channel. apply ends_then; [apply runs_daemon|]. intros client.
  apply ends_then; [destruct (so_session shared); [runs|apply runs_name]|]. intros name.
  apply ends_then; [by apply runs_client|]. intros sessions.
  apply ends_then; [destruct (existsb _ _); by apply runs_client|]. intros snapshot.
  apply ends_then; [by apply runs_client|]. intros batch. eapply ends_bind; [apply runs_submit|]. intros turn Ht.
  by apply ends_ret.
Qed.

Lemma runs_report o (Q : RunOutcome → Prop) : Q o → Runs Q (report (A := A) (Num := Num) format o).
Proof.
  intros HQ. unfold report. apply ends_then; [runs|]. intros _. apply ends_then; [runs|]. intros s.
  apply ends_then; [apply runs_shows; intros w; apply keeps_result|]. intros _. by apply ends_ret.
Qed.

(** What an exit code of 0 says of a run, and of a job. *)
Definition Finished (detach : bool) (o : RunOutcome) : Prop :=
  bad o ∨ ∃ turn, Received (RsAccepted turn) ∧ (detach = true ∨ Heard turn).

Lemma runs_execute fuel shared args :
  Runs (Finished (ra_detach args)) (execute (A := A) (Num := Num) (Conn := Conn) split pkg_version format fuel shared args).
Proof.
  unfold execute. eapply ends_bind; [apply runs_start|]. intros [[[[[conn d] after] turn] name] channel] Ht.
  apply ends_then; [runs|]. intros _. apply ends_then; [runs|]. intros _. destruct (ra_detach args).
  - apply ends_then; [runs|]. intros _. apply ends_then; [runs|]. intros _. apply runs_report. right. eauto.
  - eapply ends_bind; [apply runs_follow|]. intros o [Hc Hd]. apply runs_report.
    destruct o; [|by left..|done]. right. exists turn. split; [done|]. right. by apply Hc.
Qed.

Lemma runs_job fuel command shared channel :
  Runs (λ o, bad o ∨ command = JobStatus ∨ ∃ turn, Heard turn)
    (execute_job (A := A) (Num := Num) (Conn := Conn) pkg_version format fuel command shared channel).
Proof.
  unfold execute_job. apply ends_then; [runs|]. intros selector. apply ends_then; [apply runs_config|]. intros config.
  apply ends_then; [apply runs_open|]. intros fd. apply ends_then; [apply runs_daemon|]. intros client.
  apply ends_then; [by apply runs_client|]. intros sessions. apply ends_then; [runs|]. intros d.
  case_bool_decide; [destruct (describe_activity _) as [activity turn];
    apply ends_then; [apply runs_shows; intros w; apply keeps_status|intros _; apply ends_ret; by right; left]|].
  apply ends_then; [by apply runs_client|]. intros s. apply ends_then; [by apply runs_client|]. intros journal.
  apply ends_then; [runs|]. intros [turn after]. apply ends_then; [runs|]. intros _.
  destruct (_ && _); [apply runs_report; by left|]. apply ends_then.
  - case_bool_decide; [|runs]. apply ends_then; [runs|]. intros _. apply ends_then; [by apply runs_client|]. runs.
  - intros _. eapply ends_bind; [apply runs_follow|]. intros o [Hc Hd]. apply runs_report.
    destruct o; [|by left..|done]. do 2 right. exists turn. by apply Hc.
Qed.
End spec.

(** * The theorems *)

Section theorems.
Context {A Num W Conn SecretKey PublicKey Signature : Type}.
Context `{!SessionWire A Conn W, !SessionNet Conn W, !Terminal W, !HeadlessHost W, !RunValues Num, !RunLines A Num W,
  !SessionHost W, !Crypto SecretKey PublicKey Signature, !ReleaseCodec SecretKey, !ConfigFile, !ConfigHost W}.
Context (split : string → string + list string) (pkg_version : string).
Abbreviation run := (run (A := A) (Num := Num) (Conn := Conn) split pkg_version).
Abbreviation job := (job (A := A) (Num := Num) (Conn := Conn) pkg_version).
Abbreviation Kept := (Kept (A := A) (Num := Num) (Conn := Conn)).

Lemma finished_run (I : W → Prop) (kept : Kept I (λ _, True)) format session m (Q : RunOutcome → Prop) w :
  I w → Ends (λ r, I (run_world r)) Bad (λ o, bad o ∨ Q o) m →
  (finish (A := A) (Num := Num) format session m w).2 = Some 0%N → ∃ o, Q o.
Proof.
  intros Hw Hm. destruct (Hm {| run_world := w; run_summary := summary_default; channel_closed := false |} Hw) as [_ Ho].
  unfold finish. destruct (m _) as [r [o|e|]]; simpl in *; [|by intros [= He]|done]. intros [= Hc].
  destruct Ho as [Hb|Hq]; [done|eauto].
Qed.

(** C30: An exit code of 0 is the truth: [xshell run] exits with 0 only if the
    daemon accepted a turn and told it that this very turn was completed (or,
    with --detach, accepted one), and a job command other than [status] only if
    the daemon told of a completed turn. What the daemon told is an answer that
    was read in a world the run can reach: one that has every property the run
    keeps. Everything else - usage, a daemon that cannot be reached, refusals, a
    turn that failed, was cancelled or says nothing - has another code. *)
Theorem exit_zero_is_truthful (I : W → Prop) fuel shared args command output channel w :
  Kept I (λ _, True) → I w →
  ((run fuel shared args w).2 = Some 0%N →
    ∃ turn, Received (Conn := Conn) I (RsAccepted (A := A) turn) ∧ (ra_detach args = true ∨ Heard (A := A) (Conn := Conn) I turn)) ∧
  ((job fuel command shared output channel w).2 = Some 0%N →
    command = JobStatus ∨ ∃ turn, Heard (A := A) (Conn := Conn) I turn).
Proof.
  intros Hk Hw. split; intros Hc.
  - by destruct (finished_run I Hk _ _ _ (λ _, ∃ turn, Received I (RsAccepted turn) ∧ (ra_detach args = true ∨ Heard I turn)) w Hw
      (runs_execute split pkg_version I _ Hk _ fuel shared args) Hc).
  - by destruct (finished_run I Hk _ _ _ (λ _, command = JobStatus ∨ ∃ turn, Heard I turn) w Hw
      (runs_job pkg_version I _ Hk _ fuel command shared channel) Hc).
Qed.

(** C31: Nothing is approved that nobody approved: a run or a job approves a call
    only if a line of its approval channel names that call and says approve.
    Without such a line - there is no channel, it closed or was interrupted, or
    the lines are invalid, for other calls or say otherwise - it leaves every
    property of the world that all it does otherwise leaves. *)
Theorem approvals_come_from_the_channel (I : W → Prop) Approved fuel shared args command output channel w :
  Kept I Approved → I w →
  I (run fuel shared args w).1 ∧ I (job fuel command shared output channel w).1.
Proof.
  intros Hk Hw.
  assert (∀ format session m Q, Ends (λ r, I (run_world r)) Bad Q m →
    I (finish (A := A) (Num := Num) format session m w).1) as Hfinish.
  { intros format session m Q Hm.
    destruct (Hm {| run_world := w; run_summary := summary_default; channel_closed := false |} Hw) as [Hr _].
    unfold finish. destruct (m _) as [r [o|e|]]; simpl in *; [done| |done]. by apply (keeps_result I Approved Hk). }
  split; eapply Hfinish.
  - by apply (runs_execute split pkg_version I Approved Hk).
  - by apply (runs_job pkg_version I Approved Hk).
Qed.

(** More fuel than the loop needs changes nothing. *)
Lemma follow_more_fuel format (conn : Conn) session_id turn_id fuel more following channel polls state r r' o :
  follow_loop (A := A) (Num := Num) format conn session_id turn_id fuel following channel polls state r = (r', o) →
  o ≠ Panic →
  follow_loop (A := A) (Num := Num) format conn session_id turn_id (fuel + more) following channel polls state r = (r', o).
Proof.
  intros Hf Ho. revert state r Hf. induction fuel as [|fuel IH]; intros state r; simpl; [by intros [= <- <-]|].
  unfold mbind, Step_bind. destruct (follow_round _ _ _ _ _ _ _ _ _) as [r1 [[state'|o1]|e|]]; [apply IH|done..].
Qed.
End theorems.

(** No field of an object is null, nor of one in it that is not inside an
    array. *)
Inductive Absent_nulls {Num : Type} : Json Num → Prop :=
| absent_object values :
    (∀ key v, values !! key = Some v → is_null v = false ∧ Absent_nulls v) → Absent_nulls (JObject values)
| absent_other v : (∀ values, v ≠ JObject values) → Absent_nulls v.

(** What a line leaves out: null fields, and nothing else. *)
Lemma without_nulls_absent {Num} (v : Json Num) :
  Absent_nulls (without_nulls v) ∧
  ∀ key, is_null v = false → field (without_nulls v) key = without_nulls (field v key).
Proof.
  induction v as [| | | | |values IH] using Json_nested_ind.
  all: try (split; [by apply absent_other|]; intros key _; done).
  split.
  - simpl. apply absent_object. intros key v. rewrite lookup_omap_Some. intros (u & Hu & Hl).
    destruct (is_null u) eqn:Hn; [done|]. injection Hu as <-. split; [by destruct u|]. by apply (IH key u).
  - intros key _. simpl. rewrite lookup_omap. destruct (values !! key) as [u|]; simpl; [|done].
    destruct u; done.
Qed.

(** Arrays are left as they are. *)
Example nulls_in_arrays_stay :
  without_nulls (object [("a", JNull); ("b", JNumber 1%Z); ("c", JArray [JNull])]) =
  object [("b", JNumber 1%Z); ("c", JArray [JNull])].
Proof. vm_compute. reflexivity. Qed.

(** ** Examples *)

(** A daemon that accepts a turn, asks for an approval, and tells of the end of
    the turn. The world counts the answers read, and keeps the calls approved
    and the lines written. *)
Record Desk := {
  answers_read : nat;
  approved_calls : list string;
  written_lines : list (Json Z);
}.

Definition sample_call : ToolCall () := Build_ToolCall "call-1" "run_shell" ().
Definition batch_of (kind : SessionEventKind ()) (active : option string) : ServerResponse () :=
  RsEvents {| eb_events := [{| ev_sequence := 1; ev_turn_id := "turn-1"; ev_timestamp_unix_ms := 0; ev_event := kind |}];
              eb_truncated_before := None; eb_next_sequence := 2; eb_active_turn_id := active |}.
Definition desk_answer (n : nat) : ServerResponse () :=
  match n with
  | 4 => RsAccepted "turn-1"
  | 5 => batch_of (KExecution (ApprovalRequested sample_call None)) (Some "turn-1")
  | 6 => RsApprovalAccepted
  | 7 => batch_of KTurnCompleted None
  | n => told n "host-1"
  end.

Definition note_approval (rq : ClientRequest ()) (w : Desk) : Desk :=
  match rq with
  | RqApprove _ {| ar_call_id := call; ar_decision := DecideApprove |} =>
      {| answers_read := answers_read w; approved_calls := approved_calls w ++ [call]; written_lines := written_lines w |}
  | _ => w
  end.

#[local] Instance desk_wire : SessionWire () string Desk := {|
  write_request _ rq w := (None, note_approval rq w);
  read_line _ _ w :=
    (inr [Ascii.ascii_of_nat (answers_read w); newline],
     {| answers_read := S (answers_read w); approved_calls := approved_calls w; written_lines := written_lines w |});
  response_from_slice bytes := match bytes with c :: _ => inr (desk_answer (Ascii.nat_of_ascii c)) | [] => inl "" end;
  response_debug _ := "" |}.
#[local] Instance desk_net : SessionNet string Desk := {|
  connect_socket _ w := (inr "host-1", w); ssh_connection _ w := (inl "no ssh", w); ssh_run _ _ w := (inl "no ssh", w);
  probe_report_from_slice _ := inl "" |}.
#[local] Instance desk_terminal : Terminal Desk := {|
  print _ w := w; eprint _ w := w; stdin_is_terminal w := (false, w); read_answer w := (inr "", w); sanitized s := s;
  open_stream _ _ _ w := (None, w); map_order l := l |}.
(** The approval channel has this line. *)
Definition channel_saying (line : string) : HeadlessHost Desk := {|
  write_out _ w := w; interrupted w := (false, w); clock_ns w := (0%N, w); unix_now w := ((0%N, 0%N), w); process_id _ := 0%N;
  read_stdin w := (inr "do it", w); fd_open _ w := (true, w); line_buffered _ w := (true, w); poll_channel _ w := (true, w);
  read_channel _ w := (Some line, w) |}.
(** A line that approves is the id of a call. *)
#[local] Instance desk_values : RunValues Z := {|
  value_from_str s := inr (object [("call_id", JString s); ("decision", JString "approve")]);
  value_debug _ := ""; number n := Z.of_N n; limits_json _ := JNull; report_json _ := JNull; gate_json _ := JNull |}.
#[local] Instance desk_lines : RunLines () Z Desk := {|
  write_json v w :=
    {| answers_read := answers_read w; approved_calls := approved_calls w; written_lines := written_lines w ++ [v] |};
  arguments_json _ := JNull |}.
#[local] Instance desk_host : SessionHost Desk := {|
  Registry.system_time w := (None, w); Registry.new_v4 w := ("", w); Registry.canonicalize w path := (Some path, w); Registry.is_dir w _ := (true, w);
  Registry.read_dir w _ := (true, w); Registry.secure_directory w := (true, w); Registry.read_file w := (true, w); Registry.replace_file w _ := (true, w);
  Registry.map_order _ _ m := map_to_list m |}.
Definition desk_config : XshellConfig := {|
  xc_default_model := Some "small"; xc_rendering := rendering_default; xc_view := view_config_default;
  xc_audit := audit_config_default; xc_remote_bootstrap := None; xc_session_fabric := sample_session_config;
  xc_agent := {| ag_limits := None; ag_limit_profiles := {["careful" := sample_settings]} |};
  xc_models := {["small" := sample_profile]} |}.
#[local] Instance desk_file : ConfigFile := {|
  config_from_toml _ := inr desk_config; policy_from_toml _ := inr overridden |}.
#[local] Instance desk_files : ConfigHost Desk := {|
  environment _ := sample_environment; path_exists _ _ := true; read_to_string _ _ := inr "" |}.
Import Sample.

Definition desk_shared (policy : option string) : SharedOptions := {|
  so_config := None; so_profile := None; so_overrides := no_overrides; so_system_prompt := ""; so_session := Some "main";
  so_cwd := "/home/rich"; so_approval := Ask; so_limits := None; so_approval_policy := policy |}.
Definition desk_args (channel : option Z) : RunArgs := {|
  ra_prompt := Some "do it"; ra_prompt_file := None; ra_ephemeral := false; ra_detach := false;
  ra_approval_channel := channel; ra_output := OutJsonl |}.
Definition desk_start : Desk := {| answers_read := 0; approved_calls := []; written_lines := [] |}.
Definition desk_run (line : string) (channel : option Z) (policy : option string) : Desk * option N :=
  run (A := ()) (Num := Z) (Conn := string) (HeadlessHost0 := channel_saying line) space_split "1.0" 10 (desk_shared policy)
    (desk_args channel) desk_start.
Definition event_names (w : Desk) : list (option string) := (λ v, as_str (field v "event")) <$> written_lines w.

(** A run with a channel that answers for the call, and one without. *)
Example desk_runs :
  (desk_run "call-1" (Some 3%Z) None).2 = Some 0%N ∧ approved_calls (desk_run "call-1" (Some 3%Z) None).1 = ["call-1"] ∧
  event_names (desk_run "call-1" (Some 3%Z) None).1 =
    Some <$> ["run_started"; "approval_needed"; "approval_decided"; "turn_completed"; "result"] ∧
  (desk_run "" None None).2 = Some 0%N ∧ approved_calls (desk_run "" None None).1 = [].
Proof. vm_compute. done. Qed.

Lemma exit_zero_is_truthful_witness :
  (desk_run "call-1" (Some 3%Z) None).2 = Some 0%N ∧
  ∃ turn, Received (A := ()) (W := Desk) (Conn := string) (λ _, True) (RsAccepted turn) ∧
    Heard (A := ()) (W := Desk) (Conn := string) (λ _, True) turn.
Proof.
  assert ((desk_run "call-1" (Some 3%Z) None).2 = Some 0%N) as Hc by (vm_compute; reflexivity).
  split; [exact Hc|].
  destruct (exit_zero_is_truthful (A := ()) (Num := Z) (Conn := string) (HeadlessHost0 := channel_saying "call-1") space_split
    "1.0" (λ _, True) 10 (desk_shared None) (desk_args (Some 3%Z)) JobStatus OutText None desk_start) as [Hrun _].
  - split; intros; exact I.
  - exact I.
  - destruct (Hrun Hc) as (turn & Ha & [Hd|Hh]); [discriminate Hd|]. exists turn. split; [exact Ha|exact Hh].
Defined.

(** The channel approves another call than the one that waits. *)
Definition only_call_2 (w : Desk) : Prop := Forall (λ call, call = "call-2") (approved_calls w).

Lemma approvals_come_from_the_channel_witness :
  only_call_2 (desk_run "call-2" (Some 3%Z) None).1 ∧ ¬ only_call_2 (desk_run "call-1" (Some 3%Z) None).1.
Proof.
  split.
  - refine (proj1 (approvals_come_from_the_channel (A := ()) (Num := Z) (Conn := string)
      (HeadlessHost0 := channel_saying "call-2") space_split "1.0" only_call_2 (λ call, call = "call-2") 10 (desk_shared None)
      (desk_args (Some 3%Z)) JobStatus OutText None desk_start _ _)).
    + split; try (intros; assumption).
      * intros conn rq w Hw Hrq. destruct rq as [| | | | | | | | |id [turn call []]| | | | | | | | |]; try exact Hw.
        apply Forall_app. split; [exact Hw|]. constructor; [by eapply Hrq|constructor].
      * intros fd w line w' reply call _ Hread Hv Hid _. injection Hread as <- _. injection Hv as <-.
        vm_compute in Hid. by injection Hid as <-.
    + constructor.
  - vm_compute. intros Hf. inversion Hf. discriminate.
Defined.

(** Warnings about the policy come before [run_started], which the schema has
    as the first line, and before the only line of a run that does not start. *)
Example warnings_come_first :
  event_names (desk_run "" None (Some "policy.toml")).1 =
    Some <$> ["warning"; "run_started"; "approval_needed"; "approval_decided"; "turn_completed"; "result"].
Proof. vm_compute. reflexivity. Qed.
