(* ===== verification/Services.v ===== *)
(** The service of the session daemon and what it starts with: the units of
    launchd and systemd ([crates/xshell-platform/src/service.rs]), the [service]
    subcommand, its socket, host id and alias
    ([crates/xshell-session/src/bin/xshelld.rs]), and the checks of directories
    and peers ([crates/xshell-platform/src/lib.rs]).

    Running a program, the files and the clock are the class [SystemHost]. *)
From Stdlib Require Import Ascii.
From S2P Require Import Text Encode.
From S2P Require Import Prelude Sensitive Policy Budget Compaction CallId Chat Engine Effects FlowDot.
From S2P Require Import AuditLog SessionModel Registry Execution PtyStream Pty Turns Completion SourceView Release Configs Requests.
From S2P Require Import SessionClient Controller.

Definition LAUNCHD_LABEL : string := "com.xshell.xshelld".
Definition SYSTEMD_UNIT : string := "xshelld.service".
Definition SERVICE_SETTLE_ATTEMPTS : nat := 20.
(** In milliseconds. *)
Definition SERVICE_SETTLE_INTERVAL : N := 100.
Definition DAEMON_READY_ATTEMPTS : nat := 30.

Inductive ServiceManager : Type := Launchd | Systemd.
Inductive ServiceVerb : Type := VerbStart | VerbStop | VerbRestart.

Definition service_verb_str (v : ServiceVerb) : string :=
  match v with VerbStart => "start" | VerbStop => "stop" | VerbRestart => "restart" end.

Record ServiceDefinition := {
  sd_program : string;
  sd_config : option string;
  sd_log_directory : string;
}.

Definition program_arguments (d : ServiceDefinition) : list string :=
  sd_program d :: match sd_config d with Some config => ["--config"; config] | None => [] end.

Record CommandSpec := {
  cs_program : string;
  cs_arguments : list string;
  cs_tolerate_failure : bool;
}.
Definition command_new (program : string) (arguments : list string) : CommandSpec :=
  {| cs_program := program; cs_arguments := arguments; cs_tolerate_failure := false |}.
Definition command_tolerant (program : string) (arguments : list string) : CommandSpec :=
  {| cs_program := program; cs_arguments := arguments; cs_tolerate_failure := true |}.
Definition command_display (c : CommandSpec) : string := Prelude.join " " (cs_program c :: cs_arguments c).

Record InstallPlan := {
  ip_unit_path : string;
  ip_unit_contents : string;
  ip_activate : list CommandSpec;
}.

Inductive ServiceState : Type :=
| SvNotInstalled
| SvInstalled
| SvStopped
| SvStarting (detail : string)
| SvRunning (pid : option N)
| SvFailed (detail : string).

Definition is_settling (s : ServiceState) : bool := match s with SvStarting _ => true | _ => false end.

Definition state_display (s : ServiceState) : string :=
  match s with
  | SvNotInstalled => "not installed"
  | SvInstalled => "installed, not loaded"
  | SvStopped => "loaded, stopped"
  | SvStarting detail => "starting (" +:+ detail +:+ ")"
  | SvRunning (Some pid) => "running (pid " +:+ fmt_N pid +:+ ")"
  | SvRunning None => "running"
  | SvFailed detail => "failed: " +:+ detail
  end.

(** ** Units *)

(** A text with quotes written as backquotes. *)
Definition quoting (s : string) : string := replace_char "`"%char (String quote EmptyString) s.
Definition text_of (l : list string) : string := foldr (λ line s, line +:+ String newline s) EmptyString l.

Definition escape_xml_char (c : ascii) : string :=
  if bool_decide (c = "&"%char) then "&amp;"
  else if bool_decide (c = "<"%char) then "&lt;"
  else if bool_decide (c = ">"%char) then "&gt;"
  else if bool_decide (c = quote) then "&quot;"
  else if bool_decide (c = "'"%char) then "&apos;"
  else String c EmptyString.
Definition escape_xml (value : string) : string := string_bind escape_xml_char value.

Definition plist_argument (argument : string) : string := "        <string>" +:+ escape_xml argument +:+ "</string>".

Definition render_plist (d : ServiceDefinition) : string :=
  text_of (
    [quoting "<?xml version=`1.0` encoding=`UTF-8`?>";
     quoting "<!DOCTYPE plist PUBLIC `-//Apple//DTD PLIST 1.0//EN` `http://www.apple.com/DTDs/PropertyList-1.0.dtd`>";
     quoting "<plist version=`1.0`>";
     "<dict>";
     "    <key>Label</key>";
     "    <string>" +:+ LAUNCHD_LABEL +:+ "</string>";
     "    <key>ProgramArguments</key>";
     "    <array>"] ++
    (plist_argument <$> program_arguments d) ++
    ["    </array>";
     "    <key>RunAtLoad</key>";
     "    <true/>";
     "    <key>KeepAlive</key>";
     "    <dict>";
     "        <key>SuccessfulExit</key>";
     "        <false/>";
     "    </dict>";
     "    <key>ProcessType</key>";
     "    <string>Background</string>";
     "    <key>StandardOutPath</key>";
     "    <string>" +:+ escape_xml (path_join (sd_log_directory d) "xshelld.out.log") +:+ "</string>";
     "    <key>StandardErrorPath</key>";
     "    <string>" +:+ escape_xml (path_join (sd_log_directory d) "xshelld.err.log") +:+ "</string>";
     "</dict>";
     "</plist>"]).

(** An argument in quotes, with [\ ] and quotes escaped. *)
Definition quote_argument (argument : string) : string :=
  String quote (replace_char quote (escaped quote) (replace_char backslash (escaped backslash) argument) +:+
                String quote EmptyString).

Definition exec_start (d : ServiceDefinition) : string := Prelude.join " " (quote_argument <$> program_arguments d).

Definition render_systemd_unit (d : ServiceDefinition) : string :=
  text_of
    ["[Unit]";
     "Description=xshell session execution and persistence service";
     "Documentation=https://github.com/rdevaul/xshell";
     "After=default.target";
     "";
     "[Service]";
     "Type=simple";
     "ExecStart=" +:+ exec_start d;
     "Restart=on-failure";
     "RestartSec=2";
     "";
     "[Install]";
     "WantedBy=default.target"].

(** ** The service manager *)

Definition manager_name (m : ServiceManager) : string := match m with Launchd => "launchd" | Systemd => "systemd --user" end.

Definition unit_path (m : ServiceManager) (home : string) : string :=
  match m with
  | Launchd => path_join (path_join home "Library/LaunchAgents") (LAUNCHD_LABEL +:+ ".plist")
  | Systemd => path_join (path_join home ".config/systemd/user") SYSTEMD_UNIT
  end.

Definition domain (uid : N) : string := "gui/" +:+ fmt_N uid.
Definition service_target (uid : N) : string := domain uid +:+ "/" +:+ LAUNCHD_LABEL.

Definition render_unit (m : ServiceManager) (d : ServiceDefinition) : string :=
  match m with Launchd => render_plist d | Systemd => render_systemd_unit d end.

Definition install_plan (m : ServiceManager) (home : string) (uid : N) (d : ServiceDefinition) : InstallPlan :=
  let path := unit_path m home in
  {| ip_unit_path := path; ip_unit_contents := render_unit m d;
     ip_activate :=
       match m with
       | Launchd => [
           command_tolerant "launchctl" ["bootout"; service_target uid];
           command_new "launchctl" ["bootstrap"; domain uid; path];
           command_new "launchctl" ["kickstart"; service_target uid]]
       | Systemd => [
           command_new "systemctl" ["--user"; "daemon-reload"];
           command_new "systemctl" ["--user"; "enable"; SYSTEMD_UNIT];
           command_new "systemctl" ["--user"; "restart"; SYSTEMD_UNIT]]
       end |}.

Definition uninstall_commands (m : ServiceManager) (uid : N) : list CommandSpec * list CommandSpec :=
  match m with
  | Launchd => ([command_tolerant "launchctl" ["bootout"; service_target uid]], [])
  | Systemd => ([command_tolerant "systemctl" ["--user"; "disable"; "--now"; SYSTEMD_UNIT]],
                [command_new "systemctl" ["--user"; "daemon-reload"]])
  end.

Definition verb_commands (m : ServiceManager) (v : ServiceVerb) (uid : N) (path : string) : list CommandSpec :=
  match m with
  | Launchd =>
      match v with
      | VerbStart => [command_tolerant "launchctl" ["bootstrap"; domain uid; path];
                      command_new "launchctl" ["kickstart"; service_target uid]]
      | VerbStop => [command_new "launchctl" ["bootout"; service_target uid]]
      | VerbRestart => [command_new "launchctl" ["kickstart"; "-k"; service_target uid]]
      end
  | Systemd => [command_new "systemctl" ["--user"; service_verb_str v; SYSTEMD_UNIT]]
  end.

Definition status_command (m : ServiceManager) (uid : N) : CommandSpec :=
  match m with
  | Launchd => command_tolerant "launchctl" ["print"; service_target uid]
  | Systemd => command_tolerant "systemctl"
      ["--user"; "show"; SYSTEMD_UNIT; "--property=ActiveState"; "--property=MainPID"]
  end.

(** [str::parse::<u32>]: digits after an optional sign, in range. *)
Definition parse_u32 (s : string) : option N :=
  let digits := match chars s with c :: l => if bool_decide (c = "+"%char) then l else c :: l | [] => [] end in
  if forallb is_ascii_digit digits then n ← parse_u64 digits; guard (n ≤ U32_MAX)%N;; Some n else None.

Fixpoint drop_end (c : ascii) (l : list ascii) : list ascii :=
  match l with d :: l' => if bool_decide (d = c) then drop_end c l' else l | [] => [] end.
(** [trim_end_matches] of one character. *)
Definition trim_end_char (c : ascii) (s : string) : string := of_chars (rev (drop_end c (rev (chars s)))).

(** [find_map] over the lines. *)
Definition find_line (f : string → option string) (output : string) : option string := head (omap f (text_lines output)).

Definition field_after (output key : string) : option string :=
  find_line (λ line, (λ value, trim (trim_end_char ";"%char (trim value))) <$> strip_prefix key (trim line)) output.

Definition property (output key : string) : option string :=
  find_line (λ line, rest ← strip_prefix key (trim line); trim <$> strip_prefix "=" rest) output.

Definition parse_launchd (output : string) : ServiceState :=
  let pid := value ← field_after output "pid = "; parse_u32 value in
  match field_after output "state = " with
  | Some "running" => SvRunning pid
  | Some "not running" => SvStopped
  | Some other => if bool_decide (is_Some pid) then SvRunning pid else SvStarting other
  | None => if bool_decide (is_Some pid) then SvRunning pid else SvStopped
  end.

Definition parse_systemd (output : string) : ServiceState :=
  let pid := value ← property output "MainPID"; n ← parse_u32 value; if bool_decide (n = 0%N) then None else Some n in
  match property output "ActiveState" with
  | Some "active" => SvRunning pid
  | Some "inactive" => SvStopped
  | Some "failed" => SvFailed "unit reported ActiveState=failed"
  | Some other =>
      if bool_decide (other ∈ ["activating"; "reloading"; "deactivating"]) then SvStarting other
      else SvFailed ("unexpected ActiveState=" +:+ other)
  | None => SvInstalled
  end.

Definition parse_state (m : ServiceManager) (unit_present success : bool) (output : string) : ServiceState :=
  if negb unit_present then SvNotInstalled
  else if negb success then SvInstalled
  else match m with Launchd => parse_launchd output | Systemd => parse_systemd output end.

Definition parse_linger (output : string) : option bool :=
  (λ value, bool_decide (value = "yes")) <$> property output "Linger".

Definition linger_command (user : string) : CommandSpec :=
  command_tolerant "loginctl" ["show-user"; user; "--property=Linger"].

(** ** The host *)

Inductive TargetOs : Type := MacOs | LinuxOs | OtherOs.

Record CommandOutput := {
  co_success : bool;
  co_stdout : list ascii;
  co_stderr : list ascii;
}.

Inductive EntryKind : Type := KindDirectory | KindSymlink | KindSocket | KindOther.
#[export] Instance EntryKind_eq_dec : EqDecision EntryKind.
Proof. solve_decision. Defined.

Record EntryMetadata := { em_kind : EntryKind; em_uid : N; em_mode : N }.

(** An error of the file system, and whether it is [ErrorKind::NotFound]. *)
Record FileError := { fe_not_found : bool; fe_text : string }.

Class SystemHost (W : Type) := {
  command_output : string → list string → W → (string + CommandOutput) * W;
  symlink_metadata : string → W → (FileError + EntryMetadata) * W;
  create_dir : string → W → option string * W;
  create_dir_all : string → W → option string * W;
  set_mode : string → N → W → option string * W;
  put_file : string → string → W → option string * W;
  unlink_file : string → W → option FileError * W;
  create_exclusive : string → N → W → option string * W;
  write_line : string → string → W → option string * W;
  sync_to_disk : string → W → option string * W;
  current_exe : W → string + string;
  real_path : string → W → option string;
  user_variable : W → option string;
  sleep_ms : N → W → W;
  uuid_error : string → option string;
  fresh_uuid : W → string * W;
}.

(** [Path::parent]: the path without its last component, components being what
    is between slashes, less empty ones and [.]; a relative path may begin with
    [.]. *)
Fixpoint trim_components (relative : bool) (l : list string) : list string :=
  match l with
  | [] => []
  | c :: l =>
      if bool_decide (c = "") || (bool_decide (c = ".") && negb (relative && bool_decide (l = [])))
      then trim_components relative l else c :: l
  end.
Definition path_parent (path : string) : option string :=
  let relative := negb (Prelude.starts_with "/" path) in
  let components := split_char "/"%char (if relative then path else of_chars (drop 1 (chars path))) in
  match trim_components relative (rev components) with
  | [] => None
  | _ :: l => Some ((if relative then "" else "/") +:+ Prelude.join "/" (rev (trim_components relative l)))
  end.

Section services.
Context {A Conn W : Type}.
Context `{!SessionWire A Conn W, !SessionNet Conn W, !Terminal W, !ConfigHost W, !SystemHost W}.
Context (target_os : TargetOs) (effective_uid : N) (pkg_version : string).
Abbreviation M := (Step W string).

(** An operation that returns its error, and one whose error gets a context. *)
Definition raw (f : W → option string * W) : M () :=
  e ← ask f; match e with Some e => throw e | None => mret () end.
Definition trying (message : string) (f : W → option string * W) : M () := in_context message (raw f).
Definition say (line : string) : M () := modify (print line).

Definition detect : Outcome string ServiceManager :=
  match target_os with
  | MacOs => Done Launchd
  | LinuxOs => Done Systemd
  | OtherOs => Fail ("xshelld service management supports macOS (launchd) and Linux (systemd --user); " +:+
                     "start the daemon directly on this platform")
  end.

(** [ServiceManager::run]. *)
Definition run_spec (spec : CommandSpec) : M (bool * string) :=
  output ← ask (command_output (cs_program spec) (cs_arguments spec));
  match output with
  | inl e => throw ("cannot run `" +:+ command_display spec +:+ "`: " +:+ e)
  | inr output =>
      let text := from_utf8_lossy (co_stdout output) in
      if co_success output then mret (true, text)
      else if negb (cs_tolerate_failure spec) then
        let detail := trim (from_utf8_lossy (co_stderr output)) in
        throw ("`" +:+ command_display spec +:+ "` failed" +:+ (if bool_decide (detail = "") then "" else ": ") +:+ detail)
      else mret (false, text +:+ from_utf8_lossy (co_stderr output))
  end.

Fixpoint run_all (specs : list CommandSpec) : M () :=
  match specs with [] => mret () | spec :: specs => run_spec spec;; run_all specs end.

(** ** What a unit runs *)

Definition resolve_config_path (explicit : option string) : M (option string) :=
  match explicit with
  | Some path => mret (Some path)
  | None =>
      w ← get;
      match xshell_config (environment w), home (environment w) with
      | Some path, _ => mret (Some path)
      | None, None => mret None
      | None, Some home =>
          let path := path_join home ".config/xshell/config.toml" in
          mret (if path_exists path w then Some path else None)
      end
  end.

Definition service_definition (config_path : option string) : M (ServiceDefinition * string) :=
  w ← get;
  home ← lift (AuditLog.context (home (environment w)) "HOME is required to locate this user's service directory");
  program ← lift (with_context "cannot determine the running xshelld path" (current_exe w));
  mret ({| sd_program := default program (real_path program w); sd_config := config_path;
           sd_log_directory := match target_os with MacOs => path_join home "Library/Logs/xshell"
                               | _ => path_join home ".local/state/xshell" end |}, home).

(** ** Its state *)

Inductive Expect : Type := ExpectSettled | ExpectRunning | ExpectNotRunning.

Definition satisfied_by (e : Expect) (s : ServiceState) : bool :=
  match e, s with
  | ExpectSettled, s => negb (is_settling s)
  | ExpectRunning, SvRunning _ => true
  | ExpectNotRunning, (SvStopped | SvInstalled | SvNotInstalled) => true
  | _, _ => false
  end.

(** The polls left, of [service_state]. *)
Fixpoint poll_state (m : ServiceManager) (uid : N) (path : string) (e : Expect) (state : ServiceState)
    (attempts : nat) : M ServiceState :=
  match attempts with
  | O => mret state
  | S attempts =>
      '(success, output) ← run_spec (status_command m uid);
      w ← get;
      let state := parse_state m (path_exists path w) success output in
      if satisfied_by e state then mret state
      else
        (if bool_decide (attempts = O) then mret () else modify (sleep_ms SERVICE_SETTLE_INTERVAL));;
        poll_state m uid path e state attempts
  end.
Definition service_state (m : ServiceManager) (uid : N) (path : string) (e : Expect) : M ServiceState :=
  poll_state m uid path e SvNotInstalled SERVICE_SETTLE_ATTEMPTS.

Definition report_service_state (m : ServiceManager) (uid : N) (path : string) (e : Expect) : M ServiceState :=
  state ← service_state m uid path e;
  say ("service: " +:+ state_display state +:+ " (" +:+ manager_name m +:+ ")");;
  mret state.

Fixpoint poll_daemon (socket : string) (attempts : nat) : M () :=
  match attempts with
  | O => say ("daemon: not accepting connections on " +:+ socket +:+
              " yet; check `xshelld probe` and the service log")
  | S attempts =>
      let again :=
        (if bool_decide (attempts = O) then mret () else modify (sleep_ms SERVICE_SETTLE_INTERVAL));;
        poll_daemon socket attempts in
      handle (probe (A := A) (Conn := Conn) socket pkg_version)
        (λ handshake, match handshake with
         | HandshakeOpened version _ _ _ => say ("daemon: ready on " +:+ socket +:+ " (protocol " +:+ fmt_N version +:+ ")")
         | HandshakeRejected _ _ => again
         end)
        (λ _, again)
  end.
Definition report_daemon_readiness (socket : option string) : M () :=
  match socket with
  | None => say "daemon: socket path unknown; run `xshelld probe` to confirm readiness"
  | Some socket => poll_daemon socket DAEMON_READY_ATTEMPTS
  end.

Definition system_user (w : W) : string := default (fmt_N effective_uid) (user_variable w).

Definition report_persistence_caveat (m : ServiceManager) : M () :=
  match m with
  | Systemd =>
      w ← get;
      let user := system_user w in
      handle (run_spec (linger_command user))
        (λ '(_, output),
          if bool_decide (parse_linger output = Some false) then
            say ("note: lingering is off for " +:+ user +:+ ", so this service stops when your last session ends; run `loginctl enable-linger " +:+
                 user +:+ "` to keep it running for remote connections")
          else mret ())
        (λ _, mret ())
  | Launchd =>
      say ("note: launchd user agents run only while this user has an active login session; " +:+
           "a Mac with nobody logged in will not keep xshelld running")
  end.

(** ** The subcommand *)

Inductive ServiceCommand : Type := SvcInstall | SvcUninstall | SvcStart | SvcStop | SvcRestart | SvcStatus.

Definition service_install (m : ServiceManager) (d : ServiceDefinition) (home : string) (socket : option string) : M () :=
  let plan := install_plan m home effective_uid d in
  let path := ip_unit_path plan in
  match path_parent path with
  | Some parent => trying ("cannot create unit directory " +:+ parent) (create_dir_all parent)
  | None => mret ()
  end;;
  trying ("cannot create log directory " +:+ sd_log_directory d) (create_dir_all (sd_log_directory d));;
  trying ("cannot write " +:+ path) (put_file path (ip_unit_contents plan));;
  raw (set_mode path 384);;
  say ("wrote " +:+ path);;
  say ("runs: " +:+ Prelude.join " " (program_arguments d));;
  (if bool_decide (sd_config d = None) then
     say ("note: no configuration file was found, so the service runs with built-in defaults; create " +:+
          "~/.config/xshell/config.toml and reinstall to pin one")
   else mret ());;
  run_all (ip_activate plan);;
  report_service_state m effective_uid (unit_path m home) ExpectRunning;;
  report_daemon_readiness socket;;
  report_persistence_caveat m.

Definition service_uninstall (m : ServiceManager) (path : string) : M () :=
  let '(teardown, reload) := uninstall_commands m effective_uid in
  run_all teardown;;
  removed ← ask (unlink_file path);
  match removed with
  | None => say ("removed " +:+ path)
  | Some e => if fe_not_found e then say ("no unit at " +:+ path) else throw ("cannot remove " +:+ path +:+ ": " +:+ fe_text e)
  end;;
  run_all reload.

Definition service_verb (m : ServiceManager) (path : string) (verb : ServiceVerb) (e : Expect) (socket : option string) : M () :=
  w ← get;
  ensure (path_exists path w) ("no " +:+ manager_name m +:+ " unit at " +:+ path +:+ "; run `xshelld service install` first");;
  run_all (verb_commands m verb effective_uid path);;
  report_service_state m effective_uid path e;;
  match e with ExpectRunning => report_daemon_readiness socket | _ => mret () end.

Definition run_service_command (command : ServiceCommand) (config_path socket : option string) : M () :=
  m ← lift detect;
  '(d, home) ← service_definition config_path;
  let path := unit_path m home in
  match command with
  | SvcInstall => service_install m d home socket
  | SvcUninstall => service_uninstall m path
  | SvcStatus =>
      state ← report_service_state m effective_uid path ExpectSettled;
      match state with SvRunning _ => report_daemon_readiness socket | _ => mret () end
  | SvcStart => service_verb m path VerbStart ExpectRunning socket
  | SvcStop => service_verb m path VerbStop ExpectNotRunning socket
  | SvcRestart => service_verb m path VerbRestart ExpectRunning socket
  end.

(** ** Directories and peers *)

Definition require_same_user (peer : W → (string + N) * W) (what : string) : M N :=
  uid ← ask peer;
  match uid with
  | inl e => throw ("cannot identify socket peer: " +:+ e)
  | inr uid =>
      ensure (bool_decide (uid = effective_uid))
        (what +:+ " connection from uid " +:+ fmt_N uid +:+ " rejected; this service only accepts uid " +:+
         fmt_N effective_uid);;
      mret uid
  end.

Definition ensure_secure_directory (path what : string) : M () :=
  found ← ask (symlink_metadata path);
  match found with
  | inr metadata =>
      ensure (bool_decide (em_kind metadata = KindDirectory)) (what +:+ " path " +:+ path +:+ " must be a real directory");;
      ensure (bool_decide (em_uid metadata = effective_uid))
        (what +:+ " directory " +:+ path +:+ " is not owned by the current user");;
      ensure (bool_decide (N.land (em_mode metadata) 18 = 0%N))
        (what +:+ " directory " +:+ path +:+ " is group/world writable")
  | inl e =>
      if fe_not_found e then
        match path_parent path with
        | Some parent =>
            if bool_decide (parent = "") then mret ()
            else trying ("cannot create parent of " +:+ what +:+ " directory " +:+ path) (create_dir_all parent)
        | None => mret ()
        end;;
        trying ("cannot create " +:+ what +:+ " directory " +:+ path) (create_dir path);;
        trying ("cannot secure " +:+ what +:+ " directory " +:+ path) (set_mode path 448)
      else throw ("cannot inspect " +:+ what +:+ " directory " +:+ path +:+ ": " +:+ fe_text e)
  end.

Definition prepare_socket (path : string) : M () :=
  parent ← lift (AuditLog.context (path_parent path) "session socket must have a parent directory");
  ensure_secure_directory parent "session socket";;
  w ← get;
  if path_exists path w then
    found ← ask (symlink_metadata path);
    match found with
    | inl e => throw (fe_text e)
    | inr metadata =>
        ensure (bool_decide (em_kind metadata = KindSocket)) ("refusing to replace non-socket path " +:+ path);;
        removed ← ask (unlink_file path);
        match removed with
        | Some e => throw ("cannot remove stale session socket " +:+ path +:+ ": " +:+ fe_text e)
        | None => mret ()
        end
    end
  else mret ().

Definition load_or_create_host_id (state_directory : string) : M string :=
  ensure_secure_directory state_directory "session state";;
  w ← get;
  let path := path_join state_directory "host-id" in
  if path_exists path w then
    value ← lift (match read_to_string path w with inl e => Fail e | inr value => Done (trim value) end);
    match uuid_error value with Some e => throw ("invalid host ID: " +:+ e) | None => mret value end
  else
    value ← ask fresh_uuid;
    raw (create_exclusive path 384);;
    raw (write_line path value);;
    raw (sync_to_disk path);;
    mret value.

Definition validate_host_alias (alias : string) : Outcome string string :=
  let alias := trim alias in
  if bool_decide (alias = "") then Fail "host alias must not be empty"
  else if existsb (λ c, Text.is_control c || bool_decide (c ∈ [58; 47; 35]%N)) (txt alias)
  then Fail "host alias must not contain control characters, ':', '/', or '#'"
  else Done alias.
End services.

(** * A unit names one command *)

(** A code of characters that can be read back, and never begins with [t]. *)
Definition Coding (f : ascii → string) (t : ascii) : Prop :=
  (∀ c d r s, chars (f c) ++ r = chars (f d) ++ s → c = d ∧ r = s) ∧ (∀ c r s, chars (f c) ++ r ≠ t :: s).

Lemma string_bind_reads f t x y r s : Coding f t →
  chars (string_bind f x) ++ t :: r = chars (string_bind f y) ++ t :: s → x = y ∧ r = s.
Proof.
  intros [Hf Ht]. revert y. induction x as [|c x IH]; intros [|d y]; cbn [string_bind]; rewrite ?chars_app, <-?app_assoc.
  - by intros [= ->].
  - intros H. exfalso. exact (Ht d _ _ (eq_sym H)).
  - intros H. exfalso. exact (Ht c _ _ H).
  - intros [-> [-> ->]%IH]%Hf. done.
Qed.

Lemma escape_xml_coding : Coding escape_xml_char "<"%char.
Proof.
  split.
  - intros c d r s. unfold escape_xml_char. repeat case_bool_decide; subst; cbn; intros E; simplify_eq; done.
  - intros c r s. unfold escape_xml_char. repeat case_bool_decide; subst; cbn; intros E; simplify_eq; done.
Qed.

(** Both replacements, one character at a time. *)
Definition quote_char (c : ascii) : string :=
  if bool_decide (c = backslash) then escaped backslash else if bool_decide (c = quote) then escaped quote
  else String c EmptyString.

Lemma quote_coding : Coding quote_char quote.
Proof.
  split.
  - intros c d r s. unfold quote_char. repeat case_bool_decide; subst; cbn; intros E; simplify_eq; done.
  - intros c r s. unfold quote_char. repeat case_bool_decide; subst; cbn; intros E; simplify_eq; done.
Qed.

Lemma quoted_chars s :
  replace_char quote (escaped quote) (replace_char backslash (escaped backslash) s) = string_bind quote_char s.
Proof.
  induction s as [|c s IH]; [done|]. rewrite replace_char_cons, replace_char_app, IH. cbn [string_bind]. f_equal.
  unfold quote_char. destruct (decide (c = backslash)) as [->|Hb]; [done|].
  rewrite !(bool_decide_false (c = backslash)) by done. destruct (decide (c = quote)) as [->|Hq]; [done|].
  rewrite (bool_decide_false (c = quote)) by done. rewrite replace_char_cons, bool_decide_false by done. done.
Qed.

Lemma quote_argument_chars a : chars (quote_argument a) = quote :: chars (string_bind quote_char a) ++ [quote].
Proof. unfold quote_argument. by rewrite quoted_chars, <-(chars_app _ (String quote EmptyString)). Qed.

Lemma quote_argument_reads a b r s :
  chars (quote_argument a) ++ r = chars (quote_argument b) ++ s → a = b ∧ r = s.
Proof.
  rewrite !quote_argument_chars. cbn [app]. rewrite <-!app_assoc. intros [= E].
  by apply (string_bind_reads quote_char quote) in E; [|apply quote_coding].
Qed.

(** Arguments in quotes with blanks between them, up to what is no blank. *)
Lemma quoted_arguments_read t l k r s : t ≠ " "%char → length l ≠ 0 → length k ≠ 0 →
  chars (Prelude.join " " (quote_argument <$> l)) ++ t :: r = chars (Prelude.join " " (quote_argument <$> k)) ++ t :: s →
  l = k.
Proof.
  intros Ht. revert k. induction l as [|a l IH]; [done|]. intros [|b k] _ ?; [done|].
  destruct l as [|a' l], k as [|b' k]; cbn [fmap list_fmap Prelude.join]; rewrite ?chars_app, <-?app_assoc;
    intros [-> E]%quote_argument_reads; [done|by injection E..|].
  f_equal. apply IH; [done|done|]. by injection E.
Qed.

Lemma text_of_cons x l : chars (text_of (x :: l)) = chars x ++ newline :: chars (text_of l).
Proof. cbn [text_of foldr]. by rewrite chars_app. Qed.

Lemma plist_argument_reads a b r s :
  chars (plist_argument a) ++ r = chars (plist_argument b) ++ s → a = b ∧ r = s.
Proof.
  unfold plist_argument, escape_xml. rewrite !chars_app, <-!app_assoc. intros E%(inj (app _)). cbn in E.
  apply (string_bind_reads escape_xml_char "<"%char) in E as [-> E]; [|apply escape_xml_coding].
  by injection E.
Qed.

Lemma plist_arguments_read l k t u :
  chars (text_of ((plist_argument <$> l) ++ "    </array>" :: t)) =
  chars (text_of ((plist_argument <$> k) ++ "    </array>" :: u)) → l = k.
Proof.
  revert k. induction l as [|a l IH]; intros [|b k]; cbn [fmap list_fmap app]; rewrite !text_of_cons; [done|done|done|].
  intros [-> E]%plist_argument_reads. f_equal. apply IH. by injection E.
Qed.

Lemma render_plist_arguments d : ∃ before after,
  (∀ d', ∃ after', render_plist d' = text_of (before ++ (plist_argument <$> program_arguments d') ++ "    </array>" :: after')) ∧
  render_plist d = text_of (before ++ (plist_argument <$> program_arguments d) ++ "    </array>" :: after).
Proof.
  do 2 eexists. split; [|unfold render_plist; reflexivity]. intros d'. eexists. unfold render_plist. reflexivity.
Qed.

Lemma text_of_app l k : chars (text_of (l ++ k)) = chars (text_of l) ++ chars (text_of k).
Proof. induction l as [|x l IH]; [done|]. cbn [app]. by rewrite !text_of_cons, IH, <-app_assoc. Qed.

(** Units of different commands are different, whatever their paths hold: no
    text leaves its quotes or its element. *)
Lemma units_name_one_command m d d' : render_unit m d = render_unit m d' → program_arguments d = program_arguments d'.
Proof.
  destruct m; cbn [render_unit]; intros E%(f_equal chars).
  - destruct (render_plist_arguments d) as (before & after & Hall & Hd). destruct (Hall d') as [after' Hd'].
    rewrite Hd, Hd', !text_of_app in E. apply (inj (app _)) in E. rewrite <-!text_of_app in E.
    by eapply plist_arguments_read.
  - unfold render_systemd_unit in E. rewrite !text_of_cons in E.
    do 7 (apply (inj (app _)) in E; apply (inj (cons _)) in E).
    rewrite !chars_app, <-!app_assoc in E. apply (inj (app _)) in E.
    unfold exec_start in E. eapply quoted_arguments_read in E; [exact E|done|by destruct d..|by destruct d'].
Qed.

(** What is in quotes is still subject to systemd's specifiers: a [%] is kept. *)
Example percent_is_not_escaped :
  exec_start {| sd_program := "/opt/%h/xshelld"; sd_config := None; sd_log_directory := "/" |} =
  of_chars (quote :: chars "/opt/%h/xshelld" ++ [quote]).
Proof. reflexivity. Qed.

(** * What a unit leaves open *)

Section unpinned.
Context {W : Type} `{!ConfigHost W, !SystemHost W}.

(** A service that was installed with [--no-user-config] runs without
    arguments, and then finds the user's configuration file. *)
Lemma unpinned_service_finds_a_config os w w' d h : xshell_config (environment w) = None → home (environment w) = Some h →
  path_exists (path_join h ".config/xshell/config.toml") w = true → service_definition os None w = (w', Done (d, h)) →
  program_arguments d = [sd_program d] ∧
  resolve_config_path None w' = (w', Done (Some (path_join h ".config/xshell/config.toml"))).
Proof.
  intros Hc Hh Hx. unfold service_definition, mbind, Step_bind, get, lift. rewrite Hh. cbn [AuditLog.context].
  destruct (with_context _ _) as [program|e|]; [|done..]. intros [= <- <-]. split; [reflexivity|].
  unfold resolve_config_path, mbind, Step_bind, get. by rewrite Hc, Hh, Hx.
Qed.
End unpinned.

(** An alias is a name the shell can put before a session's: [alias:session]. *)
Lemma valid_alias alias a : validate_host_alias alias = Done a →
  a ≠ "" ∧ Forall (λ c, Text.is_control c = false ∧ c ∉ [58; 47; 35]%N) (txt a).
Proof.
  unfold validate_host_alias. case_bool_decide as Hne; [done|]. destruct (existsb _ _) eqn:Hx; [done|].
  intros [= <-]. split; [done|]. apply Forall_forall. intros c Hc.
  assert (Text.is_control c || bool_decide (c ∈ [58; 47; 35]%N) = false) as Hf.
  { destruct (Text.is_control c || _) eqn:Hb; [|done]. rewrite <-Hx. symmetry. apply existsb_exists.
    exists c. split; [by apply list_elem_of_In|done]. }
  apply orb_false_iff in Hf as [Hf1 Hf2]. split; [done|]. by apply bool_decide_eq_false_1 in Hf2.
Qed.

(** * Whose service *)

(** A command about the service manager of this user alone. *)
Definition for_user (uid : N) (program : string) (arguments : list string) : bool :=
  match arguments with
  | [] => false
  | a :: rest =>
      (bool_decide (program = "launchctl") && existsb (λ t, bool_decide (t ∈ [domain uid; service_target uid])) rest) ||
      (bool_decide (program = "systemctl") && bool_decide (a = "--user")) ||
      (bool_decide (program = "loginctl") && bool_decide (a = "show-user"))
  end.

Section own.
Context {A Conn W : Type}.
Context `{!SessionWire A Conn W, !SessionNet Conn W, !Terminal W, !ConfigHost W, !SystemHost W}.
Context (target_os : TargetOs) (effective_uid : N) (pkg_version : string).
Context (I : W → Prop) (h : string) (socket : option string).
Abbreviation M := (Step W string).
Abbreviation Own m := (leaves (Spared I id) m).

(** What leaves [I]: commands about this user's service, its unit, the
    directories of its unit and its logs, and the daemon's socket. *)
Record OwnService : Prop := {
  os_print line w : I w → I (print line w);
  os_sleep n w : I w → I (sleep_ms n w);
  os_command program arguments w : for_user effective_uid program arguments = true →
    I w → I (command_output program arguments w).2;
  os_directory m d w : path_parent (unit_path m h) = Some d → I w → I (create_dir_all d w).2;
  os_logs d w : d ∈ [path_join h "Library/Logs/xshell"; path_join h ".local/state/xshell"] → I w → I (create_dir_all d w).2;
  os_put m text w : I w → I (put_file (unit_path m h) text w).2;
  os_mode m w : I w → I (set_mode (unit_path m h) 384 w).2;
  os_unlink m w : I w → I (unlink_file (unit_path m h) w).2;
  os_connect s w : socket = Some s → I w → I (connect_socket (Conn := Conn) s w).2;
  os_write conn (rq : ClientRequest A) w : I w → I (write_request conn rq w).2;
  os_read (conn : Conn) n w : I w → I (read_line (A := A) conn n w).2;
}.
Context (own : OwnService).

Lemma owns_get : Own (get : M W).
Proof. by intros w. Qed.
Lemma owns_say line : Own (say line).
Proof. apply leaves_modify. intros w. exact (os_print own line w). Qed.
Lemma owns_sleep n : Own (modify (sleep_ms n) : M ()).
Proof. apply leaves_modify. intros w. exact (os_sleep own n w). Qed.
Lemma owns_raw f : (∀ w, I w → I (f w).2) → Own (raw f).
Proof. intros Hf. unfold raw. apply leaves_bind; [by apply spares_ask|]. spares. Qed.
Lemma owns_context {B} message (m : M B) : Own m → Own (in_context message m).
Proof. intros Hm. unfold in_context. apply leaves_handle; [exact Hm|..]; spares. Qed.
#[local] Hint Resolve owns_get owns_say owns_sleep : leaves.

Lemma owns_run_spec spec : for_user effective_uid (cs_program spec) (cs_arguments spec) = true → Own (run_spec spec).
Proof. intros Hs. unfold run_spec. apply leaves_bind; [apply spares_ask; intros w; by apply (os_command own)|]. spares. Qed.

Definition all_for_user (specs : list CommandSpec) : Prop :=
  Forall (λ spec, for_user effective_uid (cs_program spec) (cs_arguments spec) = true) specs.

Lemma owns_run_all specs : all_for_user specs → Own (run_all specs).
Proof.
  induction 1 as [|spec specs Hs _ IH]; cbn [run_all]; [apply leaves_ret|].
  apply leaves_bind; [by apply owns_run_spec|done].
Qed.

Lemma target_is_own x l :
  existsb (λ t, bool_decide (t ∈ [domain effective_uid; service_target effective_uid])) l = true →
  for_user effective_uid "launchctl" (x :: l) = true.
Proof. intros Hl. unfold for_user. by rewrite Hl. Qed.

Lemma names_target x l : x = domain effective_uid ∨ x = service_target effective_uid →
  existsb (λ t, bool_decide (t ∈ [domain effective_uid; service_target effective_uid])) (x :: l) = true.
Proof. intros Hx. cbn [existsb]. by rewrite bool_decide_eq_true_2 by set_solver. Qed.

Lemma names_target_later x l :
  existsb (λ t, bool_decide (t ∈ [domain effective_uid; service_target effective_uid])) l = true →
  existsb (λ t, bool_decide (t ∈ [domain effective_uid; service_target effective_uid])) (x :: l) = true.
Proof. intros Hl. cbn [existsb]. by rewrite Hl, orb_true_r. Qed.

Ltac own_commands :=
  repeat constructor; cbn [cs_program cs_arguments command_new command_tolerant];
  first [reflexivity | apply target_is_own; first
    [ apply names_target; first [by left | by right] | apply names_target_later, names_target; by right ]].

Lemma install_is_own m d : all_for_user (ip_activate (install_plan m h effective_uid d)).
Proof. destruct m; own_commands. Qed.
Lemma uninstall_is_own m :
  all_for_user (uninstall_commands m effective_uid).1 ∧ all_for_user (uninstall_commands m effective_uid).2.
Proof. split; destruct m; own_commands. Qed.
Lemma verbs_are_own m v path : all_for_user (verb_commands m v effective_uid path).
Proof. destruct m; [destruct v|]; own_commands. Qed.
Lemma status_is_own m : all_for_user [status_command m effective_uid].
Proof. destruct m; own_commands. Qed.

Lemma owns_probe s : socket = Some s → Own (probe (A := A) (Conn := Conn) s pkg_version).
Proof.
  intros Hs. unfold probe, probe_session, send, receive, asking. apply leaves_bind; [|intros conn; apply leaves_bind; [|intros []]].
  - apply leaves_bind; [apply spares_ask; intros w; by apply (os_connect own)|]. spares.
  - apply leaves_bind; [apply spares_ask, (os_write own)|]. spares.
  - apply leaves_bind; [apply leaves_bind; [apply spares_ask, (os_read own)|]|]; unfold response_error; spares.
Qed.

Lemma owns_readiness : Own (report_daemon_readiness (A := A) (Conn := Conn) pkg_version socket).
Proof.
  unfold report_daemon_readiness. destruct socket as [s|] eqn:Hs; [|apply owns_say].
  induction DAEMON_READY_ATTEMPTS as [|n IH]; cbn [poll_daemon]; [apply owns_say|].
  apply leaves_handle; [by apply owns_probe|..]; spares.
Qed.

Lemma owns_state m path e state n : Own (poll_state m effective_uid path e state n).
Proof.
  revert state. induction n as [|n IH]; intros state; cbn [poll_state]; [apply leaves_ret|].
  apply leaves_bind; [apply owns_run_spec; exact (Forall_inv (status_is_own m))|]. spares.
Qed.

Lemma owns_report m path e : Own (report_service_state m effective_uid path e).
Proof. unfold report_service_state. apply leaves_bind; [apply owns_state|]. spares. Qed.

Lemma owns_caveat m : Own (report_persistence_caveat effective_uid m).
Proof.
  destruct m; cbn [report_persistence_caveat]; [apply owns_say|].
  apply leaves_bind; [apply owns_get|intros w]. apply leaves_handle; [by apply owns_run_spec|..]; spares.
Qed.
#[local] Hint Resolve owns_readiness owns_report owns_caveat : leaves.

Lemma owns_install m d : sd_log_directory d ∈ [path_join h "Library/Logs/xshell"; path_join h ".local/state/xshell"] →
  Own (service_install (A := A) (Conn := Conn) effective_uid pkg_version m d h socket).
Proof.
  intros Hd. unfold service_install, trying. cbn [ip_unit_path install_plan].
  apply leaves_bind; [|intros _; apply leaves_bind; [|intros _; apply leaves_bind; [|intros _; apply leaves_bind; [|intros _]]]].
  - destruct (path_parent _) as [parent|] eqn:Hp; [|apply leaves_ret]. apply owns_context, owns_raw. intros w. by eapply os_directory.
  - apply owns_context, owns_raw. intros w. by apply (os_logs own).
  - apply owns_context, owns_raw. intros w. apply (os_put own).
  - apply owns_raw. intros w. apply (os_mode own).
  - do 3 (apply leaves_bind; [spares|intros _]). apply leaves_bind; [apply owns_run_all, install_is_own|spares].
Qed.

Lemma owns_uninstall m : Own (service_uninstall effective_uid m (unit_path m h)).
Proof.
  unfold service_uninstall. destruct (uninstall_is_own m) as [Ht Hr]. destruct (uninstall_commands m effective_uid) as [teardown reload].
  apply leaves_bind; [by apply owns_run_all|intros _]. apply leaves_bind; [apply spares_ask, (os_unlink own)|intros removed].
  apply leaves_bind; [spares|intros _]. by apply owns_run_all.
Qed.

Lemma owns_verb m v e : Own (service_verb (A := A) (Conn := Conn) effective_uid pkg_version m (unit_path m h) v e socket).
Proof.
  unfold service_verb. do 2 (apply leaves_bind; [spares|intros ?]).
  apply leaves_bind; [apply owns_run_all, verbs_are_own|spares].
Qed.

(** C35: Whatever the service subcommand is asked, it touches nothing but this
    user's service: every command it runs is about the user's own service
    manager, and all it writes, protects or removes is the unit below the user's
    home, the directories of the unit and of the logs. No failure on the way
    makes it do anything else. *)
Theorem service_stays_with_its_user command config_path w : home (environment w) = Some h → I w →
  I (run_service_command (A := A) (Conn := Conn) target_os effective_uid pkg_version command config_path socket w).1.
Proof.
  intros Hh. change (Spared I id w (run_service_command (A := A) (Conn := Conn) target_os effective_uid pkg_version
    command config_path socket w).1).
  unfold run_service_command, service_definition, mbind, Step_bind, lift, get. rewrite Hh. cbn [AuditLog.context].
  destruct (detect target_os) as [m|e|]; [|done..]. destruct (with_context _ _) as [program|e|]; [|done..].
  unfold mret, Step_ret. destruct command.
  - apply owns_install. cbn [sd_log_directory]. destruct target_os; set_solver.
  - apply owns_uninstall.
  - apply owns_verb.
  - apply owns_verb.
  - apply owns_verb.
  - apply (leaves_bind (R := Spared I id)); [apply owns_report|intros [| | | |pid|]]; try (by intros w' Hw'); apply owns_readiness.
Qed.
End own.

(** * What is reported *)

Section reported.
Context {A Conn W : Type}.
Context `{!SessionWire A Conn W, !SessionNet Conn W, !Terminal W, !ConfigHost W, !SystemHost W}.

(** However long it was waited for, the state that is reported is the last one
    the service manager gave, not one from before. *)
Lemma reported_state_is_observed m uid path e s n w w' state : n ≠ 0 →
  poll_state m uid path e s n w = (w', Done state) →
  ∃ w0 success output, run_spec (status_command m uid) w0 = (w', Done (success, output)) ∧
    state = parse_state m (path_exists path w') success output.
Proof.
  revert s w. induction n as [|n IH]; [done|]. intros s w _. cbn [poll_state].
  intros ([success output] & w1 & Hrun & (w2 & w3 & [= <- <-] & Hrest)%step_bind_Done)%step_bind_Done.
  destruct (satisfied_by _ _) in Hrest.
  - injection Hrest as <- <-. exists w, success, output. done.
  - apply step_bind_Done in Hrest as ([] & w4 & Hw4 & Hrest).
    destruct (decide (n = 0)) as [->|Hn].
    + injection Hw4 as <-. injection Hrest as <- <-. exists w, success, output. done.
    + by apply IH in Hrest.
Qed.
End reported.

(** * Directories and the host's id *)

Section private.
Context {W : Type} `{!ConfigHost W, !SystemHost W}.
Context (effective_uid : N).

(** A real directory of this user that nobody else writes. *)
Definition Private (md : EntryMetadata) : Prop :=
  em_kind md = KindDirectory ∧ em_uid md = effective_uid ∧ N.land (em_mode md) 18 = 0%N.
Definition PrivateAt (path : string) (w : W) : Prop := ∃ md, (symlink_metadata path w).1 = inr md ∧ Private md.

(** What files do while nobody else changes them: looking changes nothing, a
    directory one makes and protects is one's own, files come and go without
    changing directories, and what was written to a new file is read. *)
Class FileLaws : Prop := {
  look_changes_nothing path w : (symlink_metadata path w).2 = w;
  made_private path w w1 w2 : create_dir path w = (None, w1) → set_mode path 448 w1 = (None, w2) → PrivateAt path w2;
  unlink_keeps path q w w' : unlink_file path w = (None, w') → PrivateAt q w → PrivateAt q w';
  create_keeps path mode q w w' : create_exclusive path mode w = (None, w') → PrivateAt q w → PrivateAt q w';
  write_keeps path text q w w' : write_line path text w = (None, w') → PrivateAt q w → PrivateAt q w';
  sync_keeps path q w w' : sync_to_disk path w = (None, w') → PrivateAt q w → PrivateAt q w';
  uuid_keeps q w : PrivateAt q w → PrivateAt q (fresh_uuid w).2;
  written_is_read path mode text w w1 w2 w3 :
    create_exclusive path mode w = (None, w1) → write_line path text w1 = (None, w2) → sync_to_disk path w2 = (None, w3) →
    path_exists path w3 = true ∧ read_to_string path w3 = inr (text +:+ String newline EmptyString);
}.
Context `{!FileLaws}.

Lemma raw_Done (f : W → option string * W) w w' a : raw f w = (w', Done a) → f w = (None, w').
Proof. unfold raw, ask, mbind, Step_bind. destruct (f w) as [[e|] w1]; [done|]. by intros [= <-]. Qed.

Lemma trying_Done message (f : W → option string * W) w w' a : trying message f w = (w', Done a) → f w = (None, w').
Proof.
  unfold trying, in_context, handle. destruct (raw f w) as [w1 [[]|e|]] eqn:Hf; [|done..].
  intros [= <- <-]. by eapply raw_Done.
Qed.

Lemma looked path w : ask (symlink_metadata path) w = (w, Done (symlink_metadata path w).1 : Outcome string _).
Proof. unfold ask. rewrite (surjective_pairing (symlink_metadata path w)). cbn. by rewrite look_changes_nothing. Qed.

Lemma secured_directory path what w w' a : ensure_secure_directory effective_uid path what w = (w', Done a) → PrivateAt path w'.
Proof.
  unfold ensure_secure_directory. unfold mbind at 1, Step_bind at 1. rewrite looked.
  destruct (symlink_metadata path w).1 as [e|md] eqn:Hmd.
  - destruct (fe_not_found e); [|done]. intros ([] & w1 & _ & ([] & w2 & H1 & H2)%step_bind_Done)%step_bind_Done.
    by eapply made_private; [eapply trying_Done|eapply trying_Done].
  - intros ([] & w1 & H1 & ([] & w2 & H2 & H3)%step_bind_Done)%step_bind_Done. revert H1 H2 H3.
    unfold ensure. repeat case_bool_decide; [|done..]. intros [= <-] [= <-] [= <-]. by exists md.
Qed.

(** A private directory is found as it is. *)
Lemma private_is_kept path what w : PrivateAt path w → ensure_secure_directory effective_uid path what w = (w, Done ()).
Proof.
  intros (md & Hmd & Hk & Hu & Hm). unfold ensure_secure_directory. unfold mbind at 1, Step_bind at 1. rewrite looked, Hmd.
  unfold ensure. by rewrite !bool_decide_eq_true_2 by done.
Qed.

Lemma prepared_socket path w w' : prepare_socket effective_uid path w = (w', Done ()) →
  ∃ parent, path_parent path = Some parent ∧ PrivateAt parent w'.
Proof.
  unfold prepare_socket. intros (parent & w1 & [-> Hp]%lift_Done & Hrest)%step_bind_Done.
  apply step_bind_Done in Hrest as ([] & w2 & Hd%secured_directory & Hrest).
  exists parent. split; [by destruct (path_parent path); [injection Hp as ->|]|].
  apply step_bind_Done in Hrest as (w3 & w4 & [= <- <-] & Hrest). destruct (path_exists path w2); [|by injection Hrest as <-].
  unfold mbind at 1, Step_bind at 1 in Hrest. rewrite looked in Hrest.
  destruct (symlink_metadata path w2).1 as [e|md]; [done|].
  apply step_bind_Done in Hrest as ([] & w3 & Hs & Hrest). unfold ensure in Hs. case_bool_decide; [|done]. injection Hs as <-.
  unfold mbind, Step_bind, ask in Hrest. destruct (unlink_file path w2) as [[e|] w5] eqn:Hu; [done|].
  injection Hrest as <-. by eapply unlink_keeps.
Qed.

Lemma host_id_Done directory w w' id : load_or_create_host_id effective_uid directory w = (w', Done id) →
  PrivateAt directory w' ∧
  (uuid_error id = None ∧ (∃ text, read_to_string (path_join directory "host-id") w' = inr text ∧ trim text = id) ∧
     path_exists (path_join directory "host-id") w' = true
   ∨ (∃ w0, (fresh_uuid w0).1 = id) ∧ path_exists (path_join directory "host-id") w' = true ∧
     read_to_string (path_join directory "host-id") w' = inr (id +:+ String newline EmptyString)).
Proof.
  unfold load_or_create_host_id. intros ([] & w1 & Hd%secured_directory & Hrest)%step_bind_Done.
  apply step_bind_Done in Hrest as (w2 & w3 & [= <- <-] & Hrest). destruct (path_exists _ w1) eqn:Hx.
  - apply step_bind_Done in Hrest as (value & w4 & [-> Hv]%lift_Done & Hrest). destruct (read_to_string _ w1) as [e|text] eqn:Hr; [done|].
    injection Hv as <-. destruct (uuid_error (trim text)) eqn:Hu; [done|]. injection Hrest as <- <-.
    split; [done|]. left. split_and!; [done|by exists text|done].
  - apply step_bind_Done in Hrest as (value & w4 & Hf & Hrest). unfold ask in Hf. destruct (fresh_uuid w1) as [v w5] eqn:Hv.
    injection Hf as <- <-.
    apply step_bind_Done in Hrest as ([] & w6 & H1%raw_Done & Hrest). apply step_bind_Done in Hrest as ([] & w7 & H2%raw_Done & Hrest).
    apply step_bind_Done in Hrest as ([] & w8 & H3%raw_Done & Hrest). injection Hrest as <- <-.
    destruct (written_is_read _ _ _ _ _ _ _ H1 H2 H3) as [He Hread].
    split; [|right; split_and!; [exists w1; by rewrite Hv|done|done]].
    eapply sync_keeps; [exact H3|]. eapply write_keeps; [exact H2|]. eapply create_keeps; [exact H1|].
    replace w5 with (fresh_uuid w1).2 by (by rewrite Hv). by apply uuid_keeps.
Qed.

(** C36: The daemon takes its place only where nobody else can: when its socket
    is ready to be bound, the socket's directory is a real directory of this user
    that nobody else can write. And it keeps its name: the id of the host that it
    started with once is the id it starts with again. *)
Theorem daemon_keeps_its_place path directory w w1 w2 id :
  (∀ w, uuid_error (fresh_uuid w).1 = None ∧ trim ((fresh_uuid w).1 +:+ String newline EmptyString) = (fresh_uuid w).1) →
  load_or_create_host_id effective_uid directory w = (w1, Done id) →
  prepare_socket effective_uid path w1 = (w2, Done ()) →
  (∃ parent, path_parent path = Some parent ∧ PrivateAt parent w2) ∧
  PrivateAt directory w1 ∧ load_or_create_host_id effective_uid directory w1 = (w1, Done id).
Proof.
  intros Huuid [Hd Hid]%host_id_Done Hs. split; [by eapply prepared_socket|]. split; [done|].
  assert (path_exists (path_join directory "host-id") w1 = true ∧ uuid_error id = None ∧
    ∃ text, read_to_string (path_join directory "host-id") w1 = inr text ∧ trim text = id) as (Hx & Hu & text & Hr & Ht).
  { destruct Hid as [(? & ? & ?)|([w0 <-] & ? & ?)]; [done|]. destruct (Huuid w0). split_and!; [done|done|by eexists]. }
  unfold load_or_create_host_id. unfold mbind, Step_bind. rewrite private_is_kept by done. unfold get. rewrite Hx, Hr.
  unfold lift. rewrite Ht, Hu. done.
Qed.
End private.

(** * Worlds to try it in *)

Module Console.
(** A host that does as it is told; the world is the commands that were run. *)
Abbreviation Log := (list (list string)).
#[local] Instance log_wire : SessionWire () () Log := {|
  write_request _ _ w := (Some "closed", w); read_line _ _ w := (inl "closed", w);
  response_from_slice _ := inl ""; response_debug _ := "" |}.
#[local] Instance log_net : SessionNet () Log := {|
  connect_socket _ w := (inr (), w); ssh_connection _ w := (inl "no ssh", w); ssh_run _ _ w := (inl "no ssh", w);
  probe_report_from_slice _ := inl "" |}.
#[local] Instance log_terminal : Terminal Log := {|
  print _ w := w; eprint _ w := w; stdin_is_terminal w := (false, w); read_answer w := (inr "", w); sanitized s := s;
  open_stream _ _ _ w := (None, w); map_order l := l |}.
#[local] Instance log_files : ConfigHost Log := {|
  environment _ := {| xdg_state_home := None; home := Some "/home/ada"; xshell_config := None |};
  path_exists _ _ := true; read_to_string _ _ := inr "" |}.
#[local] Instance log_host : SystemHost Log := {|
  command_output program arguments w :=
    (inr {| co_success := true; co_stdout := chars "ActiveState=active"; co_stderr := [] |}, w ++ [program :: arguments]);
  symlink_metadata _ w := (inl {| fe_not_found := true; fe_text := "" |}, w);
  create_dir _ w := (None, w); create_dir_all _ w := (None, w); set_mode _ _ w := (None, w); put_file _ _ w := (None, w);
  unlink_file _ w := (None, w); create_exclusive _ _ w := (None, w); write_line _ _ w := (None, w); sync_to_disk _ w := (None, w);
  current_exe _ := inr "/usr/bin/xshelld"; real_path _ _ := None; user_variable _ := Some "ada"; sleep_ms _ w := w;
  uuid_error _ := None; fresh_uuid w := ("", w) |}.

Definition OwnCommands (w : Log) : Prop :=
  Forall (λ c, from_option (λ p, for_user 1000 p (tail c) = true) False (head c)) w.
Definition service (command : ServiceCommand) : Log * Outcome string () :=
  run_service_command (A := ()) (Conn := ()) LinuxOs 1000 "1.0" command None (Some "/run/xshelld.sock") [].

Example services :
  (service SvcInstall).1 =
    [["systemctl"; "--user"; "daemon-reload"]; ["systemctl"; "--user"; "enable"; "xshelld.service"];
     ["systemctl"; "--user"; "restart"; "xshelld.service"];
     ["systemctl"; "--user"; "show"; "xshelld.service"; "--property=ActiveState"; "--property=MainPID"];
     ["loginctl"; "show-user"; "ada"; "--property=Linger"]] ∧
  length (service SvcStop).1 = 21 ∧ (service SvcUninstall).2 = Done ().
Proof. split_and!; vm_compute; reflexivity. Qed.

Lemma service_stays_with_its_user_witness :
  home (environment ([] : Log)) = Some "/home/ada" ∧ OwnCommands [] ∧ OwnCommands (service SvcInstall).1.
Proof.
  split; [reflexivity|]. split; [constructor|].
  apply (service_stays_with_its_user (A := ()) (Conn := ()) LinuxOs 1000 "1.0" OwnCommands "/home/ada" (Some "/run/xshelld.sock"));
    [|reflexivity|constructor].
  split; try (intros; assumption). intros program arguments w Hown Hw. apply Forall_app. split; [exact Hw|].
  constructor; [exact Hown|constructor].
Defined.
End Console.

Module Machine.
(** A file system: what is at a path, and its text. *)
Abbreviation Tree := (gmap string (EntryMetadata * string)).
Definition at_path (path : string) (w : Tree) : FileError + EntryMetadata :=
  match w !! path with Some (md, _) => inr md | None => inl {| fe_not_found := true; fe_text := "not found" |} end.
#[local] Instance tree_files : ConfigHost Tree := {|
  environment _ := {| xdg_state_home := None; home := None; xshell_config := None |};
  path_exists path w := bool_decide (is_Some (w !! path));
  read_to_string path w := match w !! path with Some (_, text) => inr text | None => inl "not found" end |}.
Definition entry (kind : EntryKind) (mode : N) : EntryMetadata := {| em_kind := kind; em_uid := 1000; em_mode := mode |}.
Definition making (path : string) (md : EntryMetadata) (w : Tree) : option string * Tree :=
  match w !! path with Some _ => (Some "exists", w) | None => (None, <[path := (md, "")]> w) end.
#[local] Instance tree_host : SystemHost Tree := {|
  command_output _ _ w := (inl "", w);
  symlink_metadata path w := (at_path path w, w);
  create_dir path := making path (entry KindDirectory 493);
  create_dir_all _ w := (None, w);
  set_mode path mode w :=
    match w !! path with
    | Some (md, text) => (None, <[path := ({| em_kind := em_kind md; em_uid := em_uid md; em_mode := mode |}, text)]> w)
    | None => (Some "not found", w)
    end;
  put_file _ _ w := (None, w);
  unlink_file path w :=
    match w !! path with
    | Some (md, _) =>
        if bool_decide (em_kind md = KindDirectory) then (Some {| fe_not_found := false; fe_text := "is a directory" |}, w)
        else (None, delete path w)
    | None => (Some {| fe_not_found := true; fe_text := "not found" |}, w)
    end;
  create_exclusive path mode := making path (entry KindOther mode);
  write_line path line w :=
    match w !! path with
    | Some (md, text) => (None, <[path := (md, text +:+ line +:+ String newline EmptyString)]> w)
    | None => (Some "not found", w)
    end;
  sync_to_disk _ w := (None, w);
  current_exe _ := inl ""; real_path _ _ := None; user_variable _ := None; sleep_ms _ w := w;
  uuid_error _ := None; fresh_uuid w := ("67e55044-10b1-426f-9247-bb680e5f67d5", w) |}.

Lemma private_elsewhere (w : Tree) path q e : w !! path = None → PrivateAt 1000 q w → PrivateAt 1000 q (<[path := e]> w).
Proof.
  intros Hp (md & Hmd & Hprivate). exists md. split; [|exact Hprivate]. revert Hmd. simpl. unfold at_path.
  destruct (decide (q = path)) as [->|Hq]; [by rewrite Hp|]. by rewrite lookup_insert_ne.
Qed.

#[local] Instance tree_laws : FileLaws (W := Tree) 1000.
Proof.
  split; simpl.
  - done.
  - intros path w w1 w2. unfold making. destruct (w !! path); [done|]. intros [= <-]. rewrite lookup_insert_eq.
    intros [= <-]. eexists. simpl. unfold at_path. by rewrite lookup_insert_eq.
  - intros path q w w' Hu (md & Hmd & Hprivate). exists md. split; [|exact Hprivate]. revert Hmd. simpl. unfold at_path.
    destruct (w !! path) as [[md' text]|] eqn:Hp; [|done]. case_bool_decide as Hk; [done|]. injection Hu as <-.
    destruct (decide (q = path)) as [->|Hq]; [|by rewrite lookup_delete_ne]. rewrite Hp. intros [= ->].
    by destruct Hprivate.
  - intros path mode q w w'. unfold making. destruct (w !! path) eqn:Hp; [done|]. intros [= <-]. by apply private_elsewhere.
  - intros path text q w w'. destruct (w !! path) as [[md old]|] eqn:Hp; [|done]. intros [= <-] (md' & Hmd & Hprivate).
    exists md'. split; [|exact Hprivate]. revert Hmd. simpl. unfold at_path.
    destruct (decide (q = path)) as [->|Hq]; [by rewrite Hp, lookup_insert_eq|by rewrite lookup_insert_ne].
  - by intros _ q w w' [= <-].
  - done.
  - intros path mode text w w1 w2 w3. unfold making. destruct (w !! path); [done|]. intros [= <-].
    rewrite lookup_insert_eq. intros [= <-] [= <-]. by rewrite lookup_insert_eq, bool_decide_eq_true_2.
Qed.

(** The daemon's directory is new; a socket of an earlier daemon is there. *)
Definition fresh_machine : Tree :=
  {["/run/user/1000" := (entry KindDirectory 448, ""); "/run/user/1000/xshelld.sock" := (entry KindSocket 384, "")]}.
Definition started : Tree := (load_or_create_host_id 1000 "/state" fresh_machine).1.
Definition bound : Tree := (prepare_socket 1000 "/run/user/1000/xshelld.sock" started).1.

(** Somebody else's directory, one others may write, and what is no socket. *)
Example refusals :
  (ensure_secure_directory 1001 "/run/user/1000" "session" fresh_machine).2 =
    Fail "session directory /run/user/1000 is not owned by the current user" ∧
  (prepare_socket 1000 "/run/user/1000/xshelld.sock" (<["/run/user/1000" := (entry KindDirectory 511, "")]> fresh_machine)).2 =
    Fail "session socket directory /run/user/1000 is group/world writable" ∧
  (prepare_socket 1000 "/run/user/1000/xshelld.sock" (<["/run/user/1000/xshelld.sock" := (entry KindOther 384, "")]> fresh_machine)).2 =
    Fail "refusing to replace non-socket path /run/user/1000/xshelld.sock".
Proof. split_and!; vm_compute; reflexivity. Qed.

Lemma daemon_keeps_its_place_witness :
  (∃ parent, path_parent "/run/user/1000/xshelld.sock" = Some parent ∧ PrivateAt 1000 parent bound) ∧
  PrivateAt 1000 "/state" started ∧
  load_or_create_host_id 1000 "/state" started = (started, Done "67e55044-10b1-426f-9247-bb680e5f67d5").
Proof.
  apply (daemon_keeps_its_place 1000 "/run/user/1000/xshelld.sock" "/state" fresh_machine started bound
    "67e55044-10b1-426f-9247-bb680e5f67d5").
  - intros w. split; vm_compute; reflexivity.
  - vm_compute. reflexivity.
  - vm_compute. reflexivity.
Defined.
End Machine.
